(* ===== verification/_CoqProject ===== *)
-Q . S2P
Prelude.v
Constants.v
Lifecycle.v
Schema.v
Identity.v
Grants.v
SessionAuthz.v
UtcDate.v
SecurityLabels.v
Authorization.v
AuthorizationTheorems.v
Store.v
Cas.v
Storage.v
Keys.v
CasTheorems.v
CasEffects.v
Calls.v
Parallel.v
CatalogData.v
Catalog.v
CatalogProtocol.v
CatalogTheorems.v
CatalogEntries.v
MaintenanceLock.v
Idempotency.v
Maintenance.v
Listing.v
SessionData.v
AppPoolRouter.v
AppPoolRouting.v
AppPool.v
SessionService.v
EditorClaims.v
SessionProtocol.v
SessionReplicas.v
SessionRequests.v
Prune.v
PruneProtocol.v
PruneRequests.v
EditorProtocol.v
EditorReplicas.v
EditorRequests.v
AppPoolProtocol.v
AppPoolTheorems.v
Cron.v
JobData.v
JobRuns.v
Events.v
JobScheduler.v
JobProtocol.v
JobReplicas.v
JobWork.v
JobRequests.v
Concurrency.v
RateLimit.v
Batching.v
Saga.v
Caches.v
Owned.v
IdentityService.v
Tokens.v
CliAuthorization.v
OAuth.v
TokenProtocol.v
TokenSamples.v
Authenticators.v
WarmPools.v
WarmPoolProtocol.v
WarmPoolReplicas.v
WarmPoolTheorems.v
SessionRetirer.v
DiagnosticLease.v
Reconciliation.v
SessionSweep.v
TeardownProtocol.v
TeardownReplicas.v
TeardownWork.v
TeardownTheorems.v
TeardownSamples.v
