(* ===== verification/Prelude.v ===== *)
(** * Verification of the marimohub core

    marimohub is a multi-user hub for marimo notebooks.  Its state lives in an object
    store (S3, R2, GCS, Azure, a directory) behind one port; any number of server
    replicas, with no other shared state, serve the same deployment.  The program's own
    logic is the package [packages/core] of the repository: who may do what
    (authorization), how replicas change shared objects without losing each other's
    writes (compare-and-swap, the catalog of snapshots, leases, claims, idempotency
    keys), and the life of the things users run (sessions, job runs, app pools).  This
    library models that logic and proves what makes it correct.  Paths below are under
    [packages/core/src].

    ** The parts and how they are modelled

    - [Prelude.v]: results of fallible code, JavaScript list and string idioms
      ([includes], [js_set], the stable [js_sort], [trim], [toLowerCase]), the hint
      databases [hub] and [hub_bool] and the tactics of the development.
    - [Constants.v], [Schema.v]: the enumerations of [constants.ts] and the stored
      records of [schema.ts] and [securityLabels.ts] that authorization reads.
    - [UtcDate.v]: [utcDate.ts] and the timestamp schema: parsing and printing of ISO
      timestamps with the civil calendar written out.
    - [Lifecycle.v]: [fsm.ts], the session machine and mode policy of
      [services/runtime/sessionState.ts], the job-run machine of
      [services/jobs/runState.ts].  Both machines are instances of the class
      [SoundMachine].
    - [Identity.v]: [identityMatch.ts], [authz.ts]: member matching and effective roles.
    - [Grants.v]: [tokenGrants.ts] and [services/authorization/actions.ts]: the actions,
      the tiers they need, token grants and their presets.
    - [SessionAuthz.v]: [services/runtime/sessionAuthz.ts]: who may attach to what.
    - [SecurityLabels.v]: [securityLabels.ts], the port records of subject contexts and
      constraint decisions, the built-in label policy.
    - [Authorization.v], [AuthorizationTheorems.v]: the whole of
      [services/authorization/AuthorizationService.ts] and [labelFilter.ts]; the label
      adapters (subject context resolver, constraint policy) are parameters, because
      they are supplied by the deployment and may answer anything.
    - [Store.v]: the bucket port [ports/bucket.ts] and the programs over it.  A service
      routine is a value of the free monad [prog] whose calls are those of the port, the
      clock, the id generator, the per-process snapshot cache and the audit log; every
      call may throw.  [sem] is the contract of the port, [op_step] adds storage faults
      (a failed call may have had its effect, wholly or partly), [pool_step] interleaves
      any number of programs, one call at a time, with time passing between.  [exec] and
      [run] are the in-memory bucket ([testing/MemoryBucket.ts]), with which programs run
      by computation; [run_reaches] says such runs are executions of the pool.  [rg] and
      [hoare] are the rely-guarantee judgement: a protocol [G] says which steps each
      replica may take, every routine is verified once against it, and
      [pool_guarantee]/[pool_invariant]/[pool_result] transfer the result to every
      interleaving.  [Protocol], [Stable], [Persistent] and [Kept] (what every step
      allowed by a protocol preserves) are its interface classes.
    - [Keys.v]: percent-encoding and the texts of keys.
    - [Cas.v], [CasTheorems.v], [CasEffects.v]: [services/catalog/cas.ts], its theorems,
      and read-modify-write whose transition reads the clock or draws ids.  [Codec] is
      the interface to JSON and the schema library: what is written and valid is read
      back.
    - [Storage.v], [Listing.v]: [services/catalog/storage.ts], the paging of the port,
      and what a listing still says while other replicas write.
    - [Calls.v], [Parallel.v]: which calls a program makes; programs one request runs at
      once.
    - [CatalogData.v], [Catalog.v]: the catalog records, the snapshot index
      ([snapshotCache.ts]), the projections of [services/content/catalogProjection.ts]
      and [notebookMeta.ts], and [services/catalog/CatalogService.ts].
      [CatalogProtocol.v] is the protocol proof, for any relation on worlds a client
      adds through the class [Extension]; [CatalogTheorems.v] and [CatalogEntries.v]
      are its theorems.
    - [MaintenanceLock.v], [Idempotency.v], [Maintenance.v], [Events.v]:
      [services/catalog/MaintenanceLock.ts], [IdempotencyService.ts], the snapshot
      retention of [MaintenanceService.ts], and the appends of [EventService.ts].
    - [SessionData.v], [SessionService.v], [EditorClaims.v]: session records and
      [services/runtime/SessionService.ts].  [SessionProtocol.v] is the contract of a
      record ([evolves]), [SessionReplicas.v] verifies every operation for any protocol
      in the class [AllowsSessions], [SessionRequests.v] states what follows.
      [EditorProtocol.v], [EditorReplicas.v], [EditorRequests.v] do the same for the
      editor claim of a notebook, beside all requests on session records.
    - [Prune.v], [PruneProtocol.v], [PruneRequests.v]: version pruning of
      [services/content/NotebookService.ts] and its race with session starts.
    - [AppPoolRouter.v], [AppPoolRouting.v]: the pool record of an app and the pure
      decisions of [services/runtime/AppPoolRouter.ts]; [AppPool.v]:
      [AppPoolStore.ts] and [AppPoolService.ts]; [AppPoolProtocol.v] and
      [AppPoolTheorems.v]: the pool under concurrency.
    - [Cron.v], [JobData.v], [JobRuns.v], [JobScheduler.v]: [services/jobs/cron.ts] with
      the cron engine behind the class [CronEngine], the job records,
      [JobRunService.ts] and [JobScheduler.ts].  [JobProtocol.v], [JobReplicas.v],
      [JobWork.v], [JobRequests.v]: the same among replicas.
    - [Owned.v]: objects with one owner, for any family of kinds (class [Family]).
      [Tokens.v], [CliAuthorization.v], [OAuth.v]: [services/tokens/] and
      [services/oauth/] over it; [TokenProtocol.v], [TokenSamples.v]: among replicas.
    - [IdentityService.v], [Authenticators.v]: [services/identity/IdentityService.ts];
      [bearerToken.ts], [composeAuthenticators.ts], [ServiceAccountCredentials.ts].
    - [WarmPools.v], [WarmPoolProtocol.v], [WarmPoolReplicas.v], [WarmPoolTheorems.v]:
      [services/runtime/WarmPoolStore.ts] and [WarmPoolService.ts].
    - [SessionRetirer.v], [DiagnosticLease.v], [Reconciliation.v], [SessionSweep.v]: what
      ends sessions and destroys sandboxes ([services/runtime/SessionRetirer.ts],
      [SandboxDiagnosticLease.ts], [ReconciliationService.ts], [sessionLifecycle.ts]).
      [TeardownProtocol.v], [TeardownReplicas.v], [TeardownWork.v],
      [TeardownTheorems.v], [TeardownSamples.v]: the same among replicas, reusing the
      verified session operations through [AllowsSessions].
    - [Concurrency.v], [RateLimit.v], [Batching.v], [Saga.v], [Caches.v]: the utilities
      [concurrency.ts], [rateLimit.ts], [batching.ts], [saga.ts], [cache.ts], whose
      interleavings are the turns of one process.

    A component with shared state has the same shape throughout: the operations, as
    programs; a protocol of allowed steps with its invariant; each operation verified
    against it; a type of requests, served by a pool of any number of replicas; and the
    theorems over every reachable configuration, with a computed run as the witness.

    ** What the theorems show

    - Authorization: access is the conjunction of deny-only boundaries whatever the
      adapters return, on labelled resources by the adapter's own answer in time for
      exactly their label sets; the batched form equals the pointwise one; the analyzer
      explains exactly what enforcement does; deleted projects are unreachable, read
      denials are masked, service accounts are confined; list filtering only removes.
    - Roles, grants, labels: effective roles are the best membership in any order; a
      grant accepted as a subset never exceeds its bound; the built-in label policy is
      dominance; session surfaces are reached by exactly the intended callers.
    - Store: read-modify-writes are linearizable, a claim and a lease have one holder, an
      idempotency key one first use; the catalog pointer never dangles, no commit is
      lost, initialization happens once, retention keeps what a rollback needs; a
      repeated append of an audit event stores that event once.
    - Sessions: records only evolve as their contract says, a stop is told to one caller,
      a reaped session was over, every stored record satisfies its schema; the editor
      claim passes only by release or completed takeover; pruning spares the versions of
      running sessions; a sandbox is destroyed only when its session is over or ending,
      and never as an orphan while a session owns it.
    - App pools and warm pools: stored pools stay within their limits, deletion is final,
      admission always answers and answers right, a warm sandbox is claimed once and is
      not destroyed while it may be handed out.
    - Jobs: an occurrence fires once without relying on the job lock, run records follow
      the run machine and stay, unfinished runs have markers, admission keeps its caps
      and wastes no room, the catch-up search finds the latest occurrence.
    - Credentials: an authorization is redeemed once; a verified token is a stored one,
      with the secret's hash, acting as the user who agreed to it; a revoked token stays
      gone; a suspension survives profile refreshes; a bearer credential is answered by
      its own kind's authenticator and never by single sign-on.
    - Utilities: sagas are atomic, the bounded parallel map makes progress and keeps its
      bound, rate budgets are sliding windows, a late load never overwrites newer values.
    - Functional facts: listings across pages are complete, timestamps round-trip,
      projections of labels fail closed, the membership index is complete and sound, the
      in-memory bucket implements the port.

    ** Bounds and fuel

    Loops over a listing take [fuel] pages; [listAllObjects_complete] shows that one page
    per stored key is enough, and running out is an error value, never a result; the
    safety theorems hold for every [fuel].  The catch-up search of [Cron.v] takes one unit
    a minute of its window, which [previous_occurrence_latest] shows to be enough.  Retry
    loops are structural in the number of attempts the code makes (5, or 12 for pools).
    Timestamps are ISO strings of the years 0000 to 9999; [MAX_TIME] bounds the clock, and
    the lease theorem stops at the last time from which a deadline can be printed.  All
    replicas read one clock: skew between them is not modelled.  Counters, times and
    versions are integers in [Z]; the code's numbers stay far below 2^53.  SHA-256, the
    URL parser, the cron engine, the compute provider, the identity providers and the
    label adapters are parameters; where a theorem relies on their documentation, it says
    so in a hypothesis or a class.

    ** Not modelled

    - HTTP routes and the web client ([packages/api], [packages/web], [apps]), the CLI,
      configuration, metrics, tracing and logs: they reach the state of the core
      through the services modelled here.
    - The adapters of storage, compute, identity, notifications and source control: they
      stand behind the ports, which are parameters or the port contract.
    - Sandbox provisioning, the capture of a workspace and the job runner's work inside a
      sandbox: conversations with an outside provider; what the core keeps of them, the
      records and who may destroy what, is modelled.
    - Notebook content, workspaces, previews, uploads, imports, proposals: they move file
      content.  Project and notebook bookkeeping goes through the modelled catalog
      mutations.
    - Integrations and secrets, chat, notifications, assistants: formats of outside
      services and encryption.
    - Catalog recovery planning and migrations: rewriting of arbitrary stored JSON; the
      commit of a recovery is modelled.  Paging and pruning of events, host retries, the
      directory search over identities: reads, or small records on the modelled helpers. *)

From stdpp Require Export base list strings gmap sets.
From Stdlib Require Import Ascii ZArith Lia Sorting.Sorted Sorting.Permutation.

(** ** Results of fallible code

    Code that throws is modelled by a value of [result]: [Ok] is a normal
    return, [Err] carries the error that was thrown. *)
Inductive result (E A : Type) : Type :=
| Ok (a : A)
| Err (e : E).
Arguments Ok {E A} a.
Arguments Err {E A} e.

Definition is_ok {E A} (r : result E A) : bool :=
  match r with Ok _ => true | Err _ => false end.

(** ** Notation of the development *)

Declare Scope hub_scope.
Delimit Scope hub_scope with hub.
(** JavaScript's [x ?? d]: the default applies to [undefined] and [null] only. *)
Notation "o ?? d" := (match o with Some x => x | None => d end)
  (at level 45, right associativity) : hub_scope.
(** Decidable equality as a boolean, the code's [===] on ids and tags. *)
Notation "x === y" := (bool_decide (x = y)) (at level 70, no associativity) : hub_scope.
Open Scope hub_scope.

(** ** JavaScript list idioms *)

Section Idioms.
Context {A : Type} `{EqDecision A}.

(** [xs.includes(x)] *)
Definition includes (x : A) (xs : list A) : bool := existsb (fun y => x === y) xs.

(** [[...new Set(xs)]]: first occurrences, in insertion order. *)
Fixpoint js_set (xs : list A) : list A :=
  match xs with
  | [] => []
  | x :: xs' => x :: List.filter (fun y => negb (y === x)) (js_set xs')
  end.

Lemma includes_spec x xs : includes x xs = true <-> x ∈ xs.
Proof.
  unfold includes. rewrite existsb_exists. split.
  - intros (y & Hy & He). apply bool_decide_eq_true in He as ->.
    by apply list_elem_of_In.
  - intros Hx. exists x. split; [by apply list_elem_of_In|].
    by apply bool_decide_eq_true.
Qed.

Lemma includes_false x xs : includes x xs = false <-> x ∉ xs.
Proof. rewrite <- includes_spec. destruct (includes x xs); naive_solver. Qed.

Lemma elem_of_js_set x xs : x ∈ js_set xs <-> x ∈ xs.
Proof.
  induction xs as [|y xs IH]; [done|]. simpl.
  rewrite !elem_of_cons, list_elem_of_In, filter_In, <- list_elem_of_In, IH.
  destruct (decide (x = y)) as [->|Hne]; [tauto|].
  rewrite bool_decide_eq_false_2 by done. tauto.
Qed.
End Idioms.

#[global] Arguments includes : simpl never.

Lemma NoDup_List_filter {A} (f : A -> bool) (l : list A) :
  NoDup l -> NoDup (List.filter f l).
Proof.
  induction 1 as [|x l Hx Hl IH]; simpl; [constructor|].
  destruct (f x); [constructor|]; try done.
  intros Hin%list_elem_of_In. apply filter_In in Hin as [Hin _].
  by apply Hx, list_elem_of_In.
Qed.

Lemma NoDup_js_set {A} `{EqDecision A} (xs : list A) : NoDup (js_set xs).
Proof.
  induction xs as [|y xs IH]; simpl; [constructor|]. constructor.
  - intros Hin%list_elem_of_In. apply filter_In in Hin as [_ Hn].
    by rewrite bool_decide_eq_true_2 in Hn.
  - by apply NoDup_List_filter.
Qed.

(** [xs.sort(cmp)] is a stable sort.  [le] is the boolean order "does not come
    strictly after"; insertion keeps an element before its equals that follow. *)
Section Sort.
Context {A : Type} (le : A -> A -> bool).

Fixpoint sort_insert (x : A) (l : list A) : list A :=
  match l with
  | [] => [x]
  | y :: l' => if le x y then x :: l else y :: sort_insert x l'
  end.

Fixpoint js_sort (l : list A) : list A :=
  match l with
  | [] => []
  | x :: l' => sort_insert x (js_sort l')
  end.

Lemma sort_insert_perm x l : Permutation (sort_insert x l) (x :: l).
Proof.
  induction l as [|y l IH]; simpl; [done|].
  destruct (le x y); [done|]. rewrite IH. constructor.
Qed.

Lemma js_sort_perm l : Permutation (js_sort l) l.
Proof.
  induction l as [|x l IH]; simpl; [done|].
  rewrite sort_insert_perm. by constructor.
Qed.

Lemma elem_of_js_sort x l : x ∈ js_sort l <-> x ∈ l.
Proof. by rewrite js_sort_perm. Qed.

Context (Htotal : forall x y, le x y = true \/ le y x = true).
Context (Htrans : forall x y z, le x y = true -> le y z = true -> le x z = true).

Definition sorted_by (l : list A) : Prop := StronglySorted (fun x y => le x y = true) l.

Lemma sort_insert_sorted x l : sorted_by l -> sorted_by (sort_insert x l).
Proof.
  unfold sorted_by. induction 1 as [|y l Hl IH Hy]; simpl.
  - repeat constructor.
  - destruct (le x y) eqn:E.
    + constructor; [by constructor|]. constructor; [done|].
      eapply List.Forall_impl; [|exact Hy]. eauto.
    + constructor; [exact IH|].
      rewrite sort_insert_perm. constructor; [|done].
      by destruct (Htotal x y) as [C|]; [rewrite C in E|].
Qed.

Lemma js_sort_sorted l : sorted_by (js_sort l).
Proof.
  induction l as [|x l IH]; simpl; [constructor|]. by apply sort_insert_sorted.
Qed.
End Sort.

(** [xs.every(p)] and [xs.some(p)] are [forallb] and [existsb]; their
    specifications over stdpp membership. *)
Lemma forallb_elem {A} (p : A -> bool) l :
  forallb p l = true <-> forall x, x ∈ l -> p x = true.
Proof. rewrite forallb_forall. by setoid_rewrite list_elem_of_In. Qed.

Lemma existsb_elem {A} (p : A -> bool) l :
  existsb p l = true <-> exists x, x ∈ l /\ p x = true.
Proof. rewrite existsb_exists. by setoid_rewrite list_elem_of_In. Qed.

Lemma List_filter_elem {A} (p : A -> bool) l x :
  x ∈ List.filter p l <-> x ∈ l /\ p x = true.
Proof. by rewrite !list_elem_of_In, filter_In. Qed.

Lemma filter_sublist {A} (p : A -> bool) l : sublist (List.filter p l) l.
Proof. induction l as [|x l IH]; simpl; [done|]. destruct (p x); by constructor. Qed.

Lemma find_some_elem {A} (p : A -> bool) l x :
  List.find p l = Some x -> x ∈ l /\ p x = true.
Proof. intros [? ?]%find_some. by rewrite list_elem_of_In. Qed.

Lemma find_none_elem {A} (p : A -> bool) l :
  List.find p l = None <-> forall x, x ∈ l -> p x = false.
Proof.
  split.
  - intros H x Hx%list_elem_of_In. by apply (find_none _ _ H).
  - intros H. destruct (List.find p l) as [x|] eqn:E; [|done].
    apply find_some_elem in E as [Hin Hp]. by rewrite (H _ Hin) in Hp.
Qed.

(** The last element of a concatenation whose tail is non-empty. *)
Lemma last_last_app {A} (l k : list A) d : k <> [] -> List.last (l ++ k) d = List.last k d.
Proof.
  intros Hk. induction l as [|x l IH]; [done|]. simpl.
  destruct (l ++ k) eqn:E; [|done]. apply app_nil in E as [_ ->]. done.
Qed.

(** ** Strings

    Ids, labels and emails are strings; the code folds case with
    [trim().toLowerCase()], modelled on the ASCII range. *)
Definition is_space (c : ascii) : bool :=
  let n := Ascii.N_of_ascii c in
  ((9 <=? n) && (n <=? 13) || (n =? 32))%N.

Definition lower_ascii (c : ascii) : ascii :=
  let n := Ascii.N_of_ascii c in
  if ((65 <=? n) && (n <=? 90))%N then Ascii.ascii_of_N (n + 32)%N else c.

Fixpoint drop_spaces (l : list ascii) : list ascii :=
  match l with
  | [] => []
  | c :: l' => if is_space c then drop_spaces l' else l
  end.

Definition trim (s : string) : string :=
  String.string_of_list_ascii
    (rev (drop_spaces (rev (drop_spaces (String.list_ascii_of_string s))))).

Definition toLowerCase (s : string) : string :=
  String.string_of_list_ascii (map lower_ascii (String.list_ascii_of_string s)).

Lemma lower_ascii_idem c : lower_ascii (lower_ascii c) = lower_ascii c.
Proof. destruct c as [[] [] [] [] [] [] [] []]; reflexivity. Qed.

Lemma is_space_lower c : is_space (lower_ascii c) = is_space c.
Proof. destruct c as [[] [] [] [] [] [] [] []]; reflexivity. Qed.

(** ** Record update

    [r <| f := v |>] is the code's [{...r, f: v}].  A record is made updatable by an
    instance of [Settable] that rebuilds it from its fields. *)
Class Settable (R : Type) := rebuild : R -> R.
Class Setter {R T : Type} (field : R -> T) := set_field : (T -> T) -> R -> R.
Arguments set_field {R T} field {_} _ _.

(** Abstract the field in the rebuilding function and put the new value there. *)
Ltac derive_setter :=
  lazymatch goal with
  | |- @Setter ?R ?T ?field =>
      let inst := constr:(_ : Settable R) in
      let body := eval hnf in inst in
      lazymatch eval pattern field in body with
      | ?upd _ => let g := eval cbv beta in (fun (v : T -> T) (r : R) => upd (fun r' => v (field r')) r) in exact g
      end
  end.
#[export] Hint Extern 1 (Setter _) => derive_setter : typeclass_instances.

Notation "r <| f := v |>" := (set_field f (fun _ => v) r)
  (at level 12, left associativity, f at next level, v at level 200) : hub_scope.

(** ** Numbers that may be [NaN] *)

(** Comparisons with an unparsable date ([NaN], here [None]) are false. *)
Definition num_cmp (test : Z -> Z -> bool) (a b : option Z) : bool :=
  match a, b with Some x, Some y => test x y | _, _ => false end.

(** [{...obj, [k]: v}] on an object used as a map: in place, or at the end. *)
Fixpoint obj_set {A} (k : string) (v : A) (l : list (string * A)) : list (string * A) :=
  match l with
  | [] => [(k, v)]
  | (k', v') :: l' => if k === k' then (k, v) :: l' else (k', v') :: obj_set k v l'
  end.

(** [obj[k]] *)
Fixpoint obj_get {A} (k : string) (l : list (string * A)) : option A :=
  match l with
  | [] => None
  | (k', v) :: l' => if k === k' then Some v else obj_get k l'
  end.

Lemma obj_get_set {A} k k' (v : A) l :
  obj_get k (obj_set k' v l) = if k === k' then Some v else obj_get k l.
Proof.
  induction l as [|[k1 v1] l IH]; simpl; [done|].
  destruct (decide (k' = k1)) as [->|Hne].
  - rewrite (bool_decide_eq_true_2 (k1 = k1)) by done. simpl. by destruct (bool_decide_reflect (k = k1)).
  - rewrite (bool_decide_eq_false_2 (k' = k1)) by done. simpl. rewrite IH.
    destruct (bool_decide_reflect (k = k1)) as [->|]; [|done]. by rewrite bool_decide_eq_false_2.
Qed.

Lemma obj_set_keys {A} k (v : A) l x : x ∈ map fst (obj_set k v l) <-> x = k \/ x ∈ map fst l.
Proof.
  induction l as [|[k1 v1] l IH]; simpl; [set_solver|].
  destruct (bool_decide_reflect (k = k1)) as [->|]; simpl; set_solver.
Qed.

(** ** Automation *)

Create HintDb hub.
Create Rewrite HintDb hub.
Create Rewrite HintDb hub_bool.
#[export] Hint Resolve NoDup_js_set NoDup_List_filter : hub.
#[export] Hint Rewrite @includes_spec @includes_false @elem_of_js_set
  @elem_of_js_sort @List_filter_elem @forallb_elem @existsb_elem : hub.
#[export] Hint Rewrite andb_true_iff orb_true_iff negb_true_iff negb_false_iff
  andb_false_iff orb_false_iff : hub_bool.
#[export] Hint Rewrite Z.leb_le Z.ltb_lt Z.leb_gt Z.ltb_ge Z.eqb_eq Z.eqb_neq : hub_bool.

(** Turn boolean tests of the code into propositions, everywhere. *)
Ltac bool_to_prop :=
  repeat first
    [ progress rewrite ?bool_decide_eq_true, ?bool_decide_eq_false in *
    | progress (autorewrite with hub_bool in * ) ].

(** Case split on every scrutinee of a [match] or [if], closing the absurd cases. *)
Ltac split_matches :=
  repeat (case_match; simplify_eq/=; try done).
