(* ===== verification/Constants.v ===== *)
(** * Closed enumerations shared by the components

    [packages/core/src/constants.ts]: the roles, session modes, viewer modes and
    statuses, and the table of session modes a viewer tier admits. *)


From S2P Require Import Prelude.

(** [PROJECT_STATUSES] *)
Inductive ProjectStatus := ProjectActive | ProjectDeleted.

(** [SESSION_STATUSES] *)
Inductive SessionStatus :=
| Starting | Running | Terminating | Terminated | Failed | Expired.

(** [SESSION_MODES] *)
Inductive SessionMode := Edit | App.

(** [EDITOR_SANDBOX_SHARING_VALUES] *)
Inductive EditorSandboxSharing := Shared | Exclusive.

(** [ROLES] *)
Inductive Role := Admin | Manager | Editor | Viewer | AppUser.

(** [ASSIGNABLE_ROLES], the roles that can be granted to members and defaults. *)
Inductive AssignableRole := AManager | AEditor | AViewer | AAppUser.

Definition ASSIGNABLE_ROLES : list AssignableRole := [AManager; AEditor; AViewer; AAppUser].

(** An assignable role is a role. *)
Definition role_of (r : AssignableRole) : Role :=
  match r with
  | AManager => Manager | AEditor => Editor | AViewer => Viewer | AAppUser => AppUser
  end.

(** [VIEWER_MODES], from least to most access. *)
Inductive ViewerMode := Static | Applications | EphemeralSandbox.

#[export] Instance ProjectStatus_eq_dec : EqDecision ProjectStatus.
Proof. solve_decision. Defined.
#[export] Instance SessionStatus_eq_dec : EqDecision SessionStatus.
Proof. solve_decision. Defined.
#[export] Instance SessionMode_eq_dec : EqDecision SessionMode.
Proof. solve_decision. Defined.
#[export] Instance EditorSandboxSharing_eq_dec : EqDecision EditorSandboxSharing.
Proof. solve_decision. Defined.
#[export] Instance Role_eq_dec : EqDecision Role.
Proof. solve_decision. Defined.
#[export] Instance AssignableRole_eq_dec : EqDecision AssignableRole.
Proof. solve_decision. Defined.
#[export] Instance ViewerMode_eq_dec : EqDecision ViewerMode.
Proof. solve_decision. Defined.

(** [VIEWER_SESSION_MODES] *)
Definition VIEWER_SESSION_MODES (m : ViewerMode) : list SessionMode :=
  match m with
  | Static => []
  | Applications => [App]
  | EphemeralSandbox => [App; Edit]
  end.

(** [viewerSessionModes]: an unset viewer mode fails closed to [static]. *)
Definition viewerSessionModes (mode : option ViewerMode) : list SessionMode :=
  VIEWER_SESSION_MODES (mode ?? Static).

(** Numeric order of the viewer tiers, least access first. *)
Definition tier (m : ViewerMode) : nat :=
  match m with Static => 0 | Applications => 1 | EphemeralSandbox => 2 end.

(** A higher viewer tier admits every mode a lower tier admits. *)
Lemma viewer_modes_mono m1 m2 :
  tier m1 <= tier m2 -> VIEWER_SESSION_MODES m1 ⊆ VIEWER_SESSION_MODES m2.
Proof. destruct m1, m2; simpl; intros; (lia || set_solver). Qed.

(** [BUCKET_SCAN_CONCURRENCY] and the app presence intervals, in milliseconds. *)
Definition APP_USER_LEASE_MS : Z := 120000.
Definition APP_PRESENCE_PERSIST_INTERVAL_MS : Z := 60000.
Definition APP_RECONNECT_GRACE_MS : Z := 15000.
