(* ===== verification/Lifecycle.v ===== *)
(** * Lifecycle state machines

    [packages/core/src/fsm.ts] (the generic machine), the session machine and the
    mode policy of [services/runtime/sessionState.ts], and the job-run machine of
    [services/jobs/runState.ts].  Both machines are instances of one generic
    [StateMachine], and the facts that make them safe (terminal states are sticky,
    every history has a bounded number of effective transitions) are proved once,
    against the class [SoundMachine], and instantiated twice. *)

From S2P Require Import Prelude Constants.

(** ** The generic machine *)
Module Fsm.
(** [StateMachineConfig]: the transition table and the declared terminal states. *)
Record StateMachineConfig (S E : Type) := {
  transitions : S -> E -> option S;
  terminal : list S;
}.
Arguments transitions {S E} _ _ _.
Arguments terminal {S E} _.

(** [StateMachine] *)
Record StateMachine (S E : Type) := {
  next : S -> E -> option S;
  isTerminal : S -> bool;
}.
Arguments next {S E} _ _ _.
Arguments isTerminal {S E} _ _.

(** [createStateMachine]: [next] answers [null] for a missing edge and for an edge
    that would not change the state, so that callers skip the write. *)
Definition createStateMachine {S E} `{EqDecision S} (config : StateMachineConfig S E) :
    StateMachine S E := {|
  next := fun state event =>
    match transitions config state event with
    | None => None
    | Some to => if to === state then None else Some to
    end;
  isTerminal := fun state => includes state (terminal config);
|}.

Section Histories.
Context {S E : Type} (m : StateMachine S E).

(** A writer applies an event: [null] leaves the stored state alone. *)
Definition apply (s : S) (e : E) : S := next m s e ?? s.

(** The state after a history of events, in any interleaving of writers. *)
Definition run (s : S) (es : list E) : S := fold_left apply es s.

(** The statuses written along a history: one entry per effective transition. *)
Fixpoint writes (s : S) (es : list E) : list S :=
  match es with
  | [] => []
  | e :: es' =>
      match next m s e with
      | None => writes s es'
      | Some t => t :: writes t es'
      end
  end.

(** One effective transition, and its closure. *)
Inductive step : S -> S -> Prop :=
| step_event s e t : next m s e = Some t -> step s t.

Definition reachable : S -> S -> Prop := rtc step.

Lemma run_cons s e es : run s (e :: es) = run (next m s e ?? s) es.
Proof. done. Qed.

Lemma run_reachable s es : reachable s (run s es).
Proof.
  revert s. induction es as [|e es IH]; intros s; [apply rtc_refl|].
  rewrite run_cons. destruct (next m s e) eqn:E1; [|apply IH].
  eapply rtc_l; [by econstructor|apply IH].
Qed.

Lemma run_last_write s es : run s es = List.last (writes s es) s.
Proof.
  revert s. induction es as [|e es IH]; intros s; [done|].
  rewrite run_cons. simpl. destruct (next m s e) as [t|]; [|apply IH].
  rewrite IH. simpl. destruct (writes t es) as [|x l]; [done|].
  simpl. revert x. induction l as [|y l IHl]; intros x; [done|]. apply IHl.
Qed.
End Histories.

(** What a domain module promises of its table: terminal states have no effective
    edge, other states have one, and a rank decreases along every edge. *)
Class SoundMachine {S E} (m : StateMachine S E) (rank : S -> nat) := {
  terminal_no_edge s e : isTerminal m s = true -> next m s e = None;
  live_has_edge s : isTerminal m s = false -> exists e, is_Some (next m s e);
  edge_rank s e t : next m s e = Some t -> rank t < rank s;
}.

Section Sound.
Context {S E} (m : StateMachine S E) (rank : S -> nat) `{!SoundMachine m rank}.

Lemma run_terminal s es : isTerminal m s = true -> run m s es = s /\ writes m s es = [].
Proof.
  intros Ht. induction es as [|e es [IH1 IH2]]; [done|].
  rewrite run_cons. simpl. by rewrite (terminal_no_edge s e Ht), IH1, IH2.
Qed.

Lemma writes_bounded s es : length (writes m s es) <= rank s.
Proof.
  revert s. induction es as [|e es IH]; intros s; simpl; [lia|].
  destruct (next m s e) as [t|] eqn:E1; [|apply IH].
  simpl. pose proof (edge_rank s e t E1). specialize (IH t). lia.
Qed.

Lemma reachable_rank s t : reachable m s t -> s = t \/ rank t < rank s.
Proof.
  induction 1 as [|s u t [? e ? Hn] _ IH]; [by left|].
  apply edge_rank in Hn. destruct IH as [->|]; right; lia.
Qed.

(** Of the statuses a history writes, only the last can be terminal. *)
Lemma writes_one_terminal s es :
  forall l t, writes m s es = l ++ [t] -> Forall (fun x => isTerminal m x = false) l.
Proof.
  revert s. induction es as [|e es IH]; intros s l t; simpl.
  - intros H. by destruct l.
  - destruct (next m s e) as [u|] eqn:E1; [|apply IH].
    destruct l as [|x l]; simpl; intros H; [constructor|]. injection H as -> H.
    constructor; [|by eapply IH].
    destruct (isTerminal m x) eqn:Ht; [|done].
    destruct (run_terminal x es Ht) as [_ W]. rewrite W in H. by destruct l.
Qed.
End Sound.
End Fsm.

(** ** The session machine and the mode policy ([sessionState.ts]) *)
Module SessionState.
Import Fsm.

(** [SessionEvent] *)
Inductive SessionEvent :=
| EvRunning | EvHeartbeat | EvTerminate | EvTerminated | EvFail | EvExpire.

Definition TERMINAL_STATUSES : list SessionStatus := [Terminated; Failed; Expired].
Definition ACTIVE_STATUSES : list SessionStatus := [Starting; Running].
Definition PRESENT_STATUSES : list SessionStatus := [Starting; Running; Terminating].

(** The table of allowed edges. *)
Definition session_transitions (s : SessionStatus) (e : SessionEvent) : option SessionStatus :=
  match s, e with
  | Starting, EvRunning => Some Running
  | Starting, EvTerminate => Some Terminating
  | Starting, EvFail => Some Failed
  | Starting, EvExpire => Some Expired
  | Running, EvHeartbeat => Some Running
  | Running, EvTerminate => Some Terminating
  | Running, EvFail => Some Failed
  | Running, EvExpire => Some Expired
  | Terminating, EvTerminated => Some Terminated
  | Terminating, EvExpire => Some Terminated
  | _, _ => None
  end.

Definition machine : StateMachine SessionStatus SessionEvent :=
  createStateMachine {| transitions := session_transitions; terminal := TERMINAL_STATUSES |}.

Definition isTerminal (status : SessionStatus) : bool := Fsm.isTerminal machine status.

Definition nextStatus (current : SessionStatus) (event : SessionEvent) : option SessionStatus :=
  Fsm.next machine current event.

(** [sessionMode]: an absent mode is the backward-compatible [edit]. *)
Definition sessionMode (mode : option SessionMode) : SessionMode := mode ?? Edit.

Inductive ReuseScope := PerUser | PerNotebook.
Inductive CapScope := CapUser | CapProject.
Inductive WorkspaceLoad := SourcePolicy | CopyOnly.
Inductive ViewerSession := VSEphemeral | VSShared.

#[export] Instance ViewerSession_eq_dec : EqDecision ViewerSession.
Proof. solve_decision. Defined.

(** [SessionModePolicy] *)
Record SessionModePolicy := {
  reuseScope : ReuseScope;
  capScope : CapScope;
  persistsEdits : bool;
  workspaceLoad : WorkspaceLoad;
  injectEditorConfig : bool;
  sharedApp : bool;
  viewerSession : ViewerSession;
}.

(** [MODE_POLICY] *)
Definition MODE_POLICY (m : SessionMode) : SessionModePolicy :=
  match m with
  | Edit => {| reuseScope := PerUser; capScope := CapUser; persistsEdits := true;
               workspaceLoad := SourcePolicy; injectEditorConfig := true;
               sharedApp := false; viewerSession := VSEphemeral |}
  | App => {| reuseScope := PerNotebook; capScope := CapProject; persistsEdits := false;
              workspaceLoad := CopyOnly; injectEditorConfig := false;
              sharedApp := true; viewerSession := VSShared |}
  end.

Definition sessionModePolicy (mode : option SessionMode) : SessionModePolicy :=
  MODE_POLICY (sessionMode mode).

(** [sessionPersistsEdits]: [ephemeral] is the optional record field, absent = false. *)
Definition sessionPersistsEdits (mode : option SessionMode) (ephemeral : option bool) : bool :=
  negb (ephemeral ?? false) && persistsEdits (sessionModePolicy mode).

(** The number of status writes a session can still see. *)
Definition session_rank (s : SessionStatus) : nat :=
  match s with Starting => 3 | Running => 2 | Terminating => 1 | _ => 0 end.

#[export] Instance session_sound : SoundMachine machine session_rank.
Proof.
  split.
  - by intros [] [].
  - intros []; try done; intros _;
      [exists EvTerminate | exists EvTerminate | exists EvTerminated]; by eexists.
  - intros [] []; vm_compute; intros; simplify_eq; lia.
Qed.

(** The lifecycle as an operator sees it: a session is live, then leaving, then gone. *)
Inductive Phase := Live | Leaving | Gone.
Definition phase (s : SessionStatus) : Phase :=
  match s with
  | Starting | Running => Live
  | Terminating => Leaving
  | Terminated | Failed | Expired => Gone
  end.
Inductive phase_step : Phase -> Phase -> Prop :=
| phase_stay p : p <> Gone -> phase_step p p
| phase_leave : phase_step Live Leaving
| phase_drop : phase_step Live Gone
| phase_finish : phase_step Leaving Gone.

Lemma machine_simulates_phase s t : step machine s t -> phase_step (phase s) (phase t).
Proof. intros [[] [] [] H]; vm_compute in H; simplify_eq; constructor; done. Qed.

(** The concrete session machine refines the three-phase lifecycle: every
    reachable status change, by whatever sequence of events, is a sequence of
    phase steps, so a session never returns from leaving to live, nor from gone. *)
Theorem session_machine_refines_phases s t :
  reachable machine s t -> rtc phase_step (phase s) (phase t).
Proof.
  induction 1 as [|s u t H _ IH]; [apply rtc_refl|].
  eapply rtc_l; [by apply machine_simulates_phase|done].
Qed.

Example session_machine_refines_phases_witness :
  rtc phase_step (phase Starting) (phase (run machine Starting [EvRunning; EvTerminate; EvFail])).
Proof. apply session_machine_refines_phases. apply run_reachable. Defined.
End SessionState.

(** ** The job-run machine ([runState.ts]) *)
Module RunState.
Import Fsm.

(** [RunStatus] *)
Inductive RunStatus :=
| RQueued | RProvisioning | RRunning
| RSucceeded | RFailed | RTimedOut | RCancelled | RSkipped.

#[export] Instance RunStatus_eq_dec : EqDecision RunStatus.
Proof. solve_decision. Defined.

(** [RunEvent] *)
Inductive RunEvent := EvProvision | EvStart | EvSucceed | EvRunFail | EvTimeout | EvCancel.

Definition TERMINAL_RUN_STATUSES : list RunStatus :=
  [RSucceeded; RFailed; RTimedOut; RCancelled; RSkipped].
Definition ACTIVE_RUN_STATUSES : list RunStatus := [RProvisioning; RRunning].

(** The table of allowed edges. *)
Definition run_transitions (s : RunStatus) (e : RunEvent) : option RunStatus :=
  match s, e with
  | RQueued, EvProvision => Some RProvisioning
  | RQueued, EvCancel => Some RCancelled
  | RQueued, EvRunFail => Some RFailed
  | RQueued, EvTimeout => Some RTimedOut
  | RProvisioning, EvStart => Some RRunning
  | RProvisioning, EvRunFail => Some RFailed
  | RProvisioning, EvTimeout => Some RTimedOut
  | RProvisioning, EvCancel => Some RCancelled
  | RRunning, EvSucceed => Some RSucceeded
  | RRunning, EvRunFail => Some RFailed
  | RRunning, EvTimeout => Some RTimedOut
  | RRunning, EvCancel => Some RCancelled
  | _, _ => None
  end.

Definition machine : StateMachine RunStatus RunEvent :=
  createStateMachine {| transitions := run_transitions; terminal := TERMINAL_RUN_STATUSES |}.

Definition isTerminalRunStatus (status : RunStatus) : bool := Fsm.isTerminal machine status.

Definition isActiveRunStatus (status : RunStatus) : bool :=
  includes status ACTIVE_RUN_STATUSES.

Definition nextRunStatus (current : RunStatus) (event : RunEvent) : option RunStatus :=
  Fsm.next machine current event.

Definition run_rank (s : RunStatus) : nat :=
  match s with RQueued => 3 | RProvisioning => 2 | RRunning => 1 | _ => 0 end.

#[export] Instance run_sound : SoundMachine machine run_rank.
Proof.
  split.
  - by intros [] [].
  - intros []; try done; intros _; exists EvCancel; by eexists.
  - intros [] []; vm_compute; intros; simplify_eq; lia.
Qed.

(** Whatever the interleaving of the runner, the watchdog and a cancel, a job
    run writes at most three statuses, a terminal status is written at most once
    and last, and once written no later event changes it. *)
Theorem run_resolves_once s es1 es2 :
  length (writes machine s (es1 ++ es2)) <= 3 /\
  (forall l t, writes machine s (es1 ++ es2) = l ++ [t] ->
     Forall (fun x => isTerminalRunStatus x = false) l) /\
  (isTerminalRunStatus (run machine s es1) = true ->
     run machine s (es1 ++ es2) = run machine s es1).
Proof.
  split_and!.
  - pose proof (writes_bounded machine run_rank s (es1 ++ es2)).
    destruct s; simpl in *; lia.
  - apply (writes_one_terminal machine run_rank).
  - intros Ht. unfold run in *. rewrite fold_left_app.
    by apply (run_terminal machine run_rank).
Qed.
End RunState.

(** ** Session-machine theorems *)
Module SessionTheorems.
Import Fsm SessionState.

(** A terminal session is never revived: after any history of events that
    leaves a session terminal, no later heartbeat, start, stop, failure or expiry
    writes anything, and a session that is not terminal always has an event that
    moves it on, so terminal is exactly "no effective event". *)
Theorem session_terminal_iff_no_event s es :
  (isTerminal (run machine s es) = true <->
     forall e, nextStatus (run machine s es) e = None) /\
  (isTerminal (run machine s es) = true ->
     forall es', writes machine (run machine s es) es' = []).
Proof.
  split; [split|].
  - intros Ht e. by apply (terminal_no_edge (rank := session_rank)).
  - intros Hn. destruct (isTerminal _) eqn:Ht; [done|].
    destruct (live_has_edge (rank := session_rank) _ Ht) as [e [t He]].
    unfold nextStatus in Hn. by rewrite Hn in He.
  - intros Ht es'. by apply (run_terminal machine session_rank).
Qed.

(** A requested stop wins.  Once a session is terminating, every history of
    further events leaves it terminating or ends it as terminated: no failure,
    late provisioning success or heartbeat downgrades or resurrects it. *)
Theorem terminating_only_terminates es :
  let s := run machine Terminating es in
  (s = Terminating \/ s = Terminated) /\
  (In EvTerminated es \/ In EvExpire es <-> s = Terminated).
Proof.
  simpl. induction es as [|e es IH]; [vm_compute; naive_solver|].
  rewrite run_cons. destruct e; simpl.
  all: try (change (next machine Terminating _) with (@None SessionStatus);
            destruct IH as [H1 H2]; split; [done|]; rewrite <- H2; naive_solver).
  all: change (next machine Terminating _) with (Some Terminated);
    destruct (run_terminal machine session_rank Terminated es eq_refl) as [-> _];
    naive_solver.
Qed.
End SessionTheorems.
