(* ===== verification/Schema.v ===== *)
(** * Stored records

    The persisted shapes of [packages/core/src/schema.ts] and
    [packages/core/src/securityLabels.ts] that the modelled components read or
    write.  An optional field is an [option]; a loose object keeps the fields the
    schema does not name in [extra], which every rewrite preserves.  Timestamps are
    the ISO strings the code stores and compares as strings. *)

From S2P Require Import Prelude Constants.

Abbreviation UserId := string (only parsing).
Abbreviation ProjectId := string (only parsing).
Abbreviation NotebookId := string (only parsing).
Abbreviation SnapshotId := string (only parsing).
Abbreviation SessionId := string (only parsing).
Abbreviation SandboxId := string (only parsing).
Abbreviation VersionId := string (only parsing).
Abbreviation Timestamp := string (only parsing).

(** [ResourceSecurityLabels] *)
Record ResourceSecurityLabels := {
  classification : string;
  compartments : list string;
}.

(** [ProjectMember]: exactly one of the three references is present. *)
Record ProjectMember := {
  m_user_id : option UserId;
  m_email : option string;
  m_group : option string;
  m_role : Role;
}.

(** [ProjectDefaultRole] *)
Inductive ProjectDefaultRole := DRInherit | DRNone | DRRole (r : AssignableRole).

(** [ProjectFederation] *)
Record ProjectFederation := { fed_enabled : bool; fed_target : option string }.

(** [Project] *)
Record Project := {
  p_schema_version : Z;
  p_id : ProjectId;
  p_name : string;
  p_description : string;
  p_owner : UserId;
  p_members : list ProjectMember;
  p_default_role : option ProjectDefaultRole;
  p_federation : option ProjectFederation;
  p_status : ProjectStatus;
  p_created_at : Timestamp;
  p_updated_at : Timestamp;
  p_tags : list string;
  p_security_labels : option ResourceSecurityLabels;
}.

#[export] Instance ResourceSecurityLabels_eq_dec : EqDecision ResourceSecurityLabels.
Proof. solve_decision. Defined.
#[export] Instance ProjectDefaultRole_eq_dec : EqDecision ProjectDefaultRole.
Proof. solve_decision. Defined.
#[export] Instance ProjectMember_eq_dec : EqDecision ProjectMember.
Proof. solve_decision. Defined.

(** [withMemberIdentityRules]: the two refinements a stored member row satisfies. *)
Definition memberIdentityRules (m : ProjectMember) : bool :=
  (length (omap id [m_user_id m; m_email m; m_group m]) === 1) &&
  (match m_group m with None => true | Some _ => negb (m_role m === Admin) end).
