(* ===== verification/Identity.v ===== *)
(** * Identity matching and the effective role

    [packages/core/src/identityMatch.ts] (how a reference denotes a caller) and
    [packages/core/src/authz.ts] (super admins, default roles, and the effective
    role of a caller on a project).  The row loop of [resolveEffectiveRole] is
    translated with its early exit; the theorems relate it to a reference
    definition that takes the maximum over the matching rows. *)

From Stdlib Require Import Ascii.
From S2P Require Import Prelude Constants Schema.

(** [AUTH_ENTITLEMENTS] ([ports/auth.ts]) *)
Inductive AuthEntitlement :=
| EntSuperAdmin | EntProjectCreator | EntDefaultRole (r : AssignableRole).

#[export] Instance AuthEntitlement_eq_dec : EqDecision AuthEntitlement.
Proof. solve_decision. Defined.

(** [IdentitySubject] *)
Record IdentitySubject := {
  s_id : UserId;
  s_email : string;
  s_entitlements : option (list AuthEntitlement);
  s_groups : option (list string);
}.

Definition foldCase (value : string) : string := toLowerCase (trim value).
Definition normalizeEmail : string -> string := foldCase.
Definition emailsEqual (a b : string) : bool := normalizeEmail a === normalizeEmail b.

(** [isEmailRef]: the reference contains an at sign. *)
Definition isEmailRef (ref : string) : bool :=
  existsb (Ascii.eqb "@"%char) (String.list_ascii_of_string ref).

Definition refMatchesSubject (ref : string) (subject : IdentitySubject) : bool :=
  if isEmailRef ref then emailsEqual ref (s_email subject) else ref === s_id subject.

Definition anyRefMatchesSubject (refs : option (list string)) (subject : IdentitySubject) : bool :=
  match refs with
  | Some refs => existsb (fun ref => refMatchesSubject ref subject) refs
  | None => false
  end.

Definition memberRefMatchesSubject (member : ProjectMember) (subject : IdentitySubject) : bool :=
  match m_group member with
  | Some g =>
      (m_user_id member === None) && (m_email member === None) &&
      (match s_groups subject with Some gs => includes g gs | None => false end)
  | None =>
      match m_user_id member with
      | Some u => u === s_id subject
      | None => match m_email member with Some e => emailsEqual e (s_email subject) | None => false end
      end
  end.

(** [MemberSelector]: a bare id-or-email string, or a group. *)
Inductive MemberSelector := SelRef (ref : string) | SelGroup (group : string).

Definition memberRefMatchesSelector (member : ProjectMember) (selector : MemberSelector) : bool :=
  match selector with
  | SelGroup g => (m_user_id member === None) && (m_email member === None) && (m_group member === Some g)
  | SelRef ref =>
      match m_group member with
      | Some _ => false
      | None =>
          match m_user_id member with
          | Some u => u === ref
          | None => match m_email member with Some e => emailsEqual e ref | None => false end
          end
      end
  end.

(** ** [authz.ts] *)

Definition RANK (r : Role) : nat :=
  match r with AppUser => 0 | Viewer => 1 | Editor => 2 | Manager => 3 | Admin => 4 end.

Definition roleAtLeast (role : option Role) (minimum : Role) : bool :=
  match role with Some r => RANK minimum <=? RANK r | None => false end.

(** [AuthzPolicy] *)
Record AuthzPolicy := {
  defaultRole : option AssignableRole;
  superAdmins : option (list string);
  projectCreationRestricted : bool;
}.

(** The empty policy, what [policy?.x] reads of an absent one. *)
Definition no_policy : AuthzPolicy :=
  {| defaultRole := None; superAdmins := None; projectCreationRestricted := false |}.

(** [ENTITLEMENT_ROLE] *)
Definition ENTITLEMENT_ROLE (e : AuthEntitlement) : option AssignableRole :=
  match e with EntDefaultRole r => Some r | _ => None end.

(** [subjectDefaultRole]: the loop over the entitlements keeps the strictly higher role. *)
Definition subjectDefaultRole (subject : IdentitySubject) (policy : option AuthzPolicy) :
    option AssignableRole :=
  fold_left (fun role entitlement =>
    match ENTITLEMENT_ROLE entitlement with
    | None => role
    | Some candidate =>
        match role with
        | None => Some candidate
        | Some r => if RANK (role_of r) <? RANK (role_of candidate) then Some candidate else role
        end
    end) (s_entitlements subject ?? []) (defaultRole (policy ?? no_policy)).

Definition has_entitlement (e : AuthEntitlement) (subject : IdentitySubject) : bool :=
  match s_entitlements subject with Some es => includes e es | None => false end.

Definition isSuperAdmin (subject : IdentitySubject) (superAdmins : option (list string)) : bool :=
  has_entitlement EntSuperAdmin subject || anyRefMatchesSubject superAdmins subject.

Definition canCreateProject (subject : IdentitySubject) (policy : option AuthzPolicy) : bool :=
  if negb (projectCreationRestricted (policy ?? no_policy)) then true
  else isSuperAdmin subject (superAdmins (policy ?? no_policy))
       || has_entitlement EntProjectCreator subject.

(** [EffectiveRoleSource] *)
Inductive EffectiveRoleSource :=
| SrcStaticSuperAdmin | SrcEntitlementSuperAdmin | SrcOwner
| SrcMemberId | SrcMemberEmail | SrcMemberGroup
| SrcEntitlementDefault | SrcDeploymentDefault | SrcProjectDefault | SrcNone.

#[export] Instance EffectiveRoleSource_eq_dec : EqDecision EffectiveRoleSource.
Proof. solve_decision. Defined.

(** [preference]: among equal roles the more specific row names the source. *)
Inductive MemberSource := MemberId | MemberEmail | MemberGroup.

#[export] Instance MemberSource_eq_dec : EqDecision MemberSource.
Proof. solve_decision. Defined.

Definition preference (s : MemberSource) : nat :=
  match s with MemberId => 2 | MemberEmail => 1 | MemberGroup => 0 end.

Definition source_of (s : MemberSource) : EffectiveRoleSource :=
  match s with MemberId => SrcMemberId | MemberEmail => SrcMemberEmail | MemberGroup => SrcMemberGroup end.

Definition candidateSource (member : ProjectMember) : MemberSource :=
  match m_user_id member with
  | Some _ => MemberId
  | None => match m_email member with Some _ => MemberEmail | None => MemberGroup end
  end.

(** A row the loop does not skip: no group row confers admin, and the row matches. *)
Definition eligible (subject : IdentitySubject) (member : ProjectMember) : bool :=
  negb ((match m_group member with Some _ => true | None => false end) && (m_role member === Admin))
  && memberRefMatchesSubject member subject.

(** The body's comparison: does this row replace the best one so far? *)
Definition improves (best : option (Role * MemberSource)) (member : ProjectMember) : bool :=
  match best with
  | None => true
  | Some (r, src) =>
      (RANK r <? RANK (m_role member)) ||
      ((RANK (m_role member) =? RANK r) && (preference src <? preference (candidateSource member)))
  end.

(** The row loop of [resolveEffectiveRole], with its [break]. *)
Fixpoint best_member (subject : IdentitySubject) (best : option (Role * MemberSource))
    (members : list ProjectMember) : option (Role * MemberSource) :=
  match members with
  | [] => best
  | member :: rest =>
      if negb (eligible subject member) then best_member subject best rest
      else
        let best' := if improves best member then Some (m_role member, candidateSource member) else best in
        if best' === Some (Admin, MemberId) then best' else best_member subject best' rest
  end.

Definition resolveEffectiveRole (project : Project) (subject : IdentitySubject)
    (policy : option AuthzPolicy) : option Role * EffectiveRoleSource :=
  if has_entitlement EntSuperAdmin subject then (Some Admin, SrcEntitlementSuperAdmin)
  else if anyRefMatchesSubject (superAdmins (policy ?? no_policy)) subject
  then (Some Admin, SrcStaticSuperAdmin)
  else if p_owner project === s_id subject then (Some Admin, SrcOwner)
  else match best_member subject None (p_members project) with
  | Some (role, src) => (Some role, source_of src)
  | None =>
      match p_default_role project with
      | Some DRNone => (None, SrcProjectDefault)
      | Some (DRRole r) => (Some (role_of r), SrcProjectDefault)
      | Some DRInherit | None =>
          match subjectDefaultRole subject policy with
          | None => (None, SrcNone)
          | Some role =>
              (Some (role_of role),
               if Some role === defaultRole (policy ?? no_policy)
               then SrcDeploymentDefault else SrcEntitlementDefault)
          end
      end
  end.

Definition effectiveRole (project : Project) (subject : IdentitySubject)
    (policy : option AuthzPolicy) : option Role :=
  (resolveEffectiveRole project subject policy).1.

(** [canAct] and [requireRole]; the latter throws [ForbiddenError]. *)
Definition canAct (project : Project) (subject : IdentitySubject) (min : Role)
    (policy : option AuthzPolicy) : bool :=
  roleAtLeast (effectiveRole project subject policy) min.

Inductive ForbiddenError := Requires (min : Role) (project : ProjectId).

Definition requireRole (project : Project) (subject : IdentitySubject) (min : Role)
    (policy : option AuthzPolicy) : result ForbiddenError unit :=
  if canAct project subject min policy then Ok tt else Err (Requires min (p_id project)).

(** ** Properties *)
Module EffectiveRole.

(** The lexicographic order the loop maximises, as a number: role first, then
    how specific the row is.  It is injective, so the maximum is unique. *)
Definition score (b : Role * MemberSource) : nat := 3 * RANK b.1 + preference b.2.

Lemma score_inj b1 b2 : score b1 = score b2 -> b1 = b2.
Proof. destruct b1 as [[] []], b2 as [[] []]; vm_compute; intros; congruence. Qed.

Lemma score_top b : score b <= score (Admin, MemberId).
Proof. destruct b as [[] []]; vm_compute; lia. Qed.

Definition member_value (m : ProjectMember) : Role * MemberSource := (m_role m, candidateSource m).

Definition candidates (subject : IdentitySubject) (members : list ProjectMember) :=
  map member_value (List.filter (eligible subject) members).

(** The reference: [b] is a candidate no candidate beats; nothing when there is none. *)
Definition is_best (cs : list (Role * MemberSource)) (b : option (Role * MemberSource)) : Prop :=
  match b with
  | None => cs = []
  | Some b => b ∈ cs /\ forall c, c ∈ cs -> score c <= score b
  end.

Lemma is_best_unique cs1 cs2 b1 b2 :
  Permutation cs1 cs2 -> is_best cs1 b1 -> is_best cs2 b2 -> b1 = b2.
Proof.
  intros Hp. destruct b1 as [b1|], b2 as [b2|]; simpl.
  - intros [H1 M1] [H2 M2]. f_equal. apply score_inj.
    rewrite Hp in H1. rewrite <- Hp in H2. specialize (M1 _ H2). specialize (M2 _ H1). lia.
  - intros [H1 _] ->. rewrite Hp in H1. by apply not_elem_of_nil in H1.
  - intros -> [H2 _]. rewrite <- Hp in H2. by apply not_elem_of_nil in H2.
  - done.
Qed.

Lemma improves_score b m : improves (Some b) m = true <-> score b < score (member_value m).
Proof.
  unfold improves, member_value, score. destruct b as [r src]; simpl.
  destruct r, (m_role m), src, (candidateSource m); simpl; (split; [intros; lia || done|intros; done || lia]).
Qed.

Lemma best_member_best subject best members :
  is_best (option_list best ++ candidates subject members) (best_member subject best members).
Proof.
  revert best. induction members as [|m ms IH]; intros best; simpl.
  - rewrite app_nil_r. destruct best as [b|]; simpl; [|done].
    split; [set_solver|]. intros c ->%list_elem_of_singleton. lia.
  - unfold candidates in *. simpl. destruct (eligible subject m) eqn:He; simpl; [|apply IH].
    set (best' := if improves best m then Some (m_role m, candidateSource m) else best).
    assert (exists b, best' = Some b /\
              is_best (option_list best ++ [member_value m]) (Some b)) as (b & Hb & Hin & Hmax).
    { subst best'. destruct best as [b|];
        [|exists (member_value m); split; [done|]; split; [set_solver|];
          intros c ->%list_elem_of_singleton; lia].
      destruct (improves (Some b) m) eqn:Hi.
      - apply improves_score in Hi. exists (member_value m). split; [done|]; split; [set_solver|].
        intros c [Hc|Hc]%elem_of_app; apply list_elem_of_singleton in Hc as ->; lia.
      - exists b. assert (~ score b < score (member_value m))
          by (rewrite <- improves_score; congruence).
        split; [done|]; split; [set_solver|].
        intros c [Hc|Hc]%elem_of_app; apply list_elem_of_singleton in Hc as ->; lia. }
    rewrite Hb. clear Hb best'. case_bool_decide as Htop; simplify_eq.
    + split; [set_solver|]. intros c _. apply score_top.
    + specialize (IH (Some b)). simpl in IH.
      destruct (best_member subject (Some b) ms) as [r|]; [|done].
      destruct IH as [IH1 IH2]. split; [set_solver|]. intros c Hc.
      assert (c ∈ option_list best ++ [member_value m] \/
              c ∈ map member_value (List.filter (eligible subject) ms)) as [Hc'|Hc'] by set_solver.
      * specialize (Hmax _ Hc'). assert (score b <= score r) by (apply IH2; set_solver). lia.
      * apply IH2. set_solver.
Qed.

Lemma candidates_perm subject ms1 ms2 :
  Permutation ms1 ms2 -> Permutation (candidates subject ms1) (candidates subject ms2).
Proof.
  intros Hp. unfold candidates. apply Permutation_map.
  induction Hp as [|x l1 l2 _ IH|x y l|]; simpl; repeat case_match; eauto using Permutation.
Qed.

Lemma best_member_perm subject ms1 ms2 :
  Permutation ms1 ms2 -> best_member subject None ms1 = best_member subject None ms2.
Proof.
  intros Hp. eapply is_best_unique; [by apply candidates_perm| |];
    apply (best_member_best subject None).
Qed.

Definition with_members (p : Project) (ms : list ProjectMember) : Project := {|
  p_schema_version := p_schema_version p; p_id := p_id p; p_name := p_name p;
  p_description := p_description p; p_owner := p_owner p; p_members := ms;
  p_default_role := p_default_role p; p_federation := p_federation p;
  p_status := p_status p; p_created_at := p_created_at p; p_updated_at := p_updated_at p;
  p_tags := p_tags p; p_security_labels := p_security_labels p |}.

(** The effective role and its reported source do not depend on the order of
    the membership rows, although the loop stops early and compares pairwise. *)
Theorem effective_role_order_independent p ms subject policy :
  Permutation (p_members p) ms ->
  resolveEffectiveRole (with_members p ms) subject policy
  = resolveEffectiveRole p subject policy.
Proof.
  intros Hp. unfold resolveEffectiveRole. simpl.
  by rewrite (best_member_perm subject _ _ Hp).
Qed.

(** The effective role of a caller who is neither super admin nor owner: with a
    matching row it is the highest role of the matching rows (never admin through a
    group row, and never a default); with none, the project default decides, and the
    deployment and entitlement defaults apply only when the project inherits. *)
Theorem effective_role_spec p subject policy :
  isSuperAdmin subject (superAdmins (policy ?? no_policy)) = false ->
  p_owner p <> s_id subject ->
  match effectiveRole p subject policy with
  | role =>
      (forall m, m ∈ p_members p -> eligible subject m = true ->
         exists r, role = Some r /\ RANK (m_role m) <= RANK r) /\
      ((exists m, m ∈ p_members p /\ eligible subject m = true /\ role = Some (m_role m)) \/
       ((forall m, m ∈ p_members p -> eligible subject m = false) /\
        role = match p_default_role p with
               | Some DRNone => None
               | Some (DRRole r) => Some (role_of r)
               | _ => role_of <$> subjectDefaultRole subject policy
               end))
  end.
Proof.
  unfold isSuperAdmin. intros [Hs1 Hs2]%orb_false_iff Ho.
  unfold effectiveRole, resolveEffectiveRole. rewrite Hs1, Hs2.
  rewrite bool_decide_eq_false_2 by done.
  pose proof (best_member_best subject None (p_members p)) as Hb.
  destruct (best_member subject None (p_members p)) as [[r src]|]; simpl in *.
  - destruct Hb as [Hin Hmax].
    assert (forall m, m ∈ p_members p -> eligible subject m = true ->
              member_value m ∈ candidates subject (p_members p)) as Hcand.
    { intros m Hm He. unfold candidates. apply list_elem_of_In, in_map, list_elem_of_In.
      by apply List_filter_elem. }
    split.
    + intros m Hm He. exists r. split; [done|].
      specialize (Hmax _ (Hcand m Hm He)). unfold score, member_value in Hmax. simpl in Hmax.
      destruct (m_role m), r, (candidateSource m), src; simpl in *; lia.
    + left. unfold candidates in Hin. apply list_elem_of_In, in_map_iff in Hin as (m & Hv & Hm).
      apply list_elem_of_In, List_filter_elem in Hm as [Hm He]. injection Hv as <- _. eauto.
  - assert (forall m, m ∈ p_members p -> eligible subject m = false) as Hnone.
    { intros m Hm. destruct (eligible subject m) eqn:He; [|done]. exfalso.
      apply map_eq_nil in Hb.
      assert (m ∈ List.filter (eligible subject) (p_members p)) as Hf
        by (by apply List_filter_elem).
      rewrite Hb in Hf. by apply not_elem_of_nil in Hf. }
    split; [intros m Hm He; by rewrite Hnone in He|]. right. split; [done|].
    destruct (p_default_role p) as [[]|]; simpl; try done;
      by destruct (subjectDefaultRole subject policy).
Qed.
End EffectiveRole.
