(* ===== verification/Grants.v ===== *)
(** * The action vocabulary and credential grants

    [services/authorization/actions.ts] (the bounded vocabulary and its rule table)
    and [packages/core/src/tokenGrants.ts] (the boundary a scoped bearer credential
    carries, its presets, its subset order and the external scope mapping). *)

From S2P Require Import Prelude Constants Schema Identity.

Inductive DeploymentAction :=
| SupportRequest | ProjectCreate | AdminAccess | OrgIntegrationManage
| AuditGlobalRead | DirectorySearch.

Inductive ProjectAction :=
| AppRead | ProjectRead | ProjectUpdate | ProjectDelete | ProjectMembersManage
| ProjectEventsRead | ProjectAlertsManage | NotebookWrite | NotebookManage
| DeepLinkManage | PreviewManage | IntegrationRead | IntegrationUse
| IntegrationWrite | IntegrationManage | ChangeRequestPublish
| SecurityLabelsRaise | SecurityLabelsLower.

Inductive SessionScopedAction := SessionAttach | SessionStop | SessionSurface | SessionProxy.

(** [AuthorizationAction]: the disjoint union of the four scopes. *)
Inductive AuthorizationAction :=
| ADeployment (a : DeploymentAction)
| AProject (a : ProjectAction)
| ASession (a : SessionScopedAction)
| ASessionStart.

#[export] Instance DeploymentAction_eq_dec : EqDecision DeploymentAction.
Proof. solve_decision. Defined.
#[export] Instance ProjectAction_eq_dec : EqDecision ProjectAction.
Proof. solve_decision. Defined.
#[export] Instance SessionScopedAction_eq_dec : EqDecision SessionScopedAction.
Proof. solve_decision. Defined.
#[export] Instance AuthorizationAction_eq_dec : EqDecision AuthorizationAction.
Proof. solve_decision. Defined.

Inductive ActionScope := ScopeDeployment | ScopeProject | ScopeSession | ScopeSessionStart.

#[export] Instance ActionScope_eq_dec : EqDecision ActionScope.
Proof. solve_decision. Defined.

Inductive DeniedAs := AsNotFound | AsForbidden.

#[export] Instance DeniedAs_eq_dec : EqDecision DeniedAs.
Proof. solve_decision. Defined.

(** [ProjectActionRule] *)
Record ProjectActionRule := {
  rule_min : Role;
  deniedAs : DeniedAs;
  requiresSuperAdmin : bool;
}.

Definition project_rule (min : Role) (d : DeniedAs) : ProjectActionRule :=
  {| rule_min := min; deniedAs := d; requiresSuperAdmin := false |}.

(** The project rows of [ACTION_RULES]. *)
Definition PROJECT_RULES (a : ProjectAction) : ProjectActionRule :=
  match a with
  | AppRead => project_rule AppUser AsNotFound
  | ProjectRead => project_rule Viewer AsNotFound
  | ProjectUpdate => project_rule Manager AsForbidden
  | ProjectDelete => project_rule Manager AsForbidden
  | ProjectMembersManage => project_rule Manager AsForbidden
  | ProjectEventsRead => project_rule Manager AsForbidden
  | ProjectAlertsManage => project_rule Manager AsForbidden
  | NotebookWrite => project_rule Editor AsForbidden
  | NotebookManage => project_rule Manager AsForbidden
  | DeepLinkManage => project_rule Manager AsForbidden
  | PreviewManage => project_rule Manager AsForbidden
  | IntegrationRead => project_rule Viewer AsForbidden
  | IntegrationUse => project_rule Editor AsForbidden
  | IntegrationWrite => project_rule Manager AsForbidden
  | IntegrationManage => project_rule Manager AsForbidden
  | ChangeRequestPublish => project_rule Manager AsForbidden
  | SecurityLabelsRaise | SecurityLabelsLower =>
      {| rule_min := Viewer; deniedAs := AsForbidden; requiresSuperAdmin := true |}
  end.

(** [ACTION_RULES[action].scope] *)
Definition rule_scope (a : AuthorizationAction) : ActionScope :=
  match a with
  | ADeployment _ => ScopeDeployment
  | AProject _ => ScopeProject
  | ASession _ => ScopeSession
  | ASessionStart => ScopeSessionStart
  end.

Definition projectActionMinRole (a : ProjectAction) : Role := rule_min (PROJECT_RULES a).

(** ** [tokenGrants.ts] *)

(** The literal '*', or an explicit list. *)
Inductive AllOr (A : Type) := All | Only (l : list A).
Arguments All {A}.
Arguments Only {A} l.

#[export] Instance AllOr_eq_dec {A} `{EqDecision A} : EqDecision (AllOr A).
Proof. solve_decision. Defined.

(** [TokenGrant] *)
Record TokenGrant := {
  actions : AllOr AuthorizationAction;
  projects : AllOr ProjectId;
}.

Definition MAX_TOKEN_GRANT_PROJECTS : nat := 100.

Definition uniqueArray {A} `{EqDecision A} (values : list A) : bool :=
  length (js_set values) =? length values.

(** The refinements of [TokenGrantSchema] on an already typed grant. *)
Definition TokenGrantSchema_ok (g : TokenGrant) : bool :=
  (match actions g with All => true | Only l => uniqueArray l end) &&
  (match projects g with
   | All => true
   | Only l => (1 <=? length l) && (length l <=? MAX_TOKEN_GRANT_PROJECTS) && uniqueArray l
   end).

Definition SERVICE_ACCOUNT_ACTIONS : list AuthorizationAction := [ADeployment OrgIntegrationManage].

Definition tokenGrantAllowsAction (grant : option TokenGrant) (action : AuthorizationAction) : bool :=
  match grant with
  | None => true
  | Some g =>
      if negb (projects g === All) && (rule_scope action === ScopeDeployment) then false
      else match actions g with All => true | Only l => includes action l end
  end.

Definition tokenGrantAllowsProject (grant : option TokenGrant) (projectId : ProjectId) : bool :=
  match grant with
  | None => true
  | Some g => match projects g with All => true | Only l => includes projectId l end
  end.

Definition serviceAccountGrantAllowsAction (grant : option TokenGrant)
    (action : AuthorizationAction) : bool :=
  match grant with
  | None => false
  | Some g =>
      negb (actions g === All) && includes action SERVICE_ACCOUNT_ACTIONS
      && tokenGrantAllowsAction (Some g) action
  end.

Inductive TokenGrantPreset := PresetRead | PresetRun | PresetEdit | PresetFull.

Definition READ_TOKEN_ACTIONS : list AuthorizationAction :=
  [AProject AppRead; AProject ProjectRead; AProject IntegrationRead].
Definition RUN_TOKEN_ACTIONS : list AuthorizationAction :=
  READ_TOKEN_ACTIONS ++
  [AProject IntegrationUse; ASessionStart; ASession SessionAttach; ASession SessionStop;
   ASession SessionSurface; ASession SessionProxy].

(** [TOKEN_GRANT_PRESETS] and [expandTokenGrantPreset] *)
Definition expandTokenGrantPreset (preset : TokenGrantPreset) : AllOr AuthorizationAction :=
  match preset with
  | PresetRead => Only READ_TOKEN_ACTIONS
  | PresetRun => Only RUN_TOKEN_ACTIONS
  | PresetEdit => Only (RUN_TOKEN_ACTIONS ++ [AProject NotebookWrite; AProject ChangeRequestPublish])
  | PresetFull => All
  end.

Definition subset_of {A} `{EqDecision A} (candidate upper : AllOr A) : bool :=
  match upper with
  | All => true
  | Only u => match candidate with All => false | Only c => forallb (fun x => includes x u) c end
  end.

Definition tokenGrantIsSubset (candidate upperBound : TokenGrant) : bool :=
  subset_of (actions candidate) (actions upperBound)
  && subset_of (projects candidate) (projects upperBound).

(** [EXTERNAL_TOKEN_SCOPE_PRESETS], in the key order [Object.entries] yields. *)
Definition EXTERNAL_TOKEN_SCOPE_PRESETS : list (string * TokenGrantPreset) :=
  [("marimohub:read"%string, PresetRead); ("marimohub:run"%string, PresetRun);
   ("marimohub:edit"%string, PresetEdit); ("marimohub:full"%string, PresetFull)].

(** The loop of [externalTokenGrant] over the preset entries; [acc] is the insertion
    ordered set of actions, and [full] returns at once. *)
Fixpoint external_loop (scopes : list string) (entries : list (string * TokenGrantPreset))
    (acc : list AuthorizationAction) : option TokenGrant :=
  match entries with
  | [] => if 0 <? length acc then Some {| actions := Only acc; projects := All |} else None
  | (scope, preset) :: rest =>
      if negb (includes scope scopes) then external_loop scopes rest acc
      else match expandTokenGrantPreset preset with
           | All => Some {| actions := All; projects := All |}
           | Only l => external_loop scopes rest (js_set (acc ++ l))
           end
  end.

Definition externalTokenGrant (scopes : list string) : option TokenGrant :=
  external_loop scopes EXTERNAL_TOKEN_SCOPE_PRESETS [].

(** ** Properties *)
Module GrantTheorems.

(** The actions and projects a grant admits. *)
Definition admits (g : TokenGrant) (a : AuthorizationAction) : Prop :=
  tokenGrantAllowsAction (Some g) a = true.

Lemma subset_of_spec {A} `{EqDecision A} (c u : AllOr A) :
  subset_of c u = true ->
  match u with All => True | Only lu => exists lc, c = Only lc /\ forall x, x ∈ lc -> x ∈ lu end.
Proof.
  destruct u as [|lu], c as [|lc]; simpl; try done. intros H. exists lc. split; [done|].
  intros x Hx. by apply includes_spec, (proj1 (forallb_elem _ _) H).
Qed.

Lemma subset_of_refl {A} `{EqDecision A} (c : AllOr A) : subset_of c c = true.
Proof.
  destruct c as [|l]; [done|]. simpl. apply forallb_elem. intros x Hx. by apply includes_spec.
Qed.

Lemma subset_of_trans {A} `{EqDecision A} (a b c : AllOr A) :
  subset_of a b = true -> subset_of b c = true -> subset_of a c = true.
Proof.
  destruct c as [|lc]; [done|]. destruct b as [|lb]; [done|]. destruct a as [|la]; [done|].
  simpl. rewrite !forallb_elem. intros H1 H2 x Hx.
  apply H2, includes_spec, H1, Hx.
Qed.

(** A grant accepted as a subset of an upper bound never exceeds it: every
    action and project the candidate admits, the bound admits, and the check is a
    preorder, so delegating a delegated grant cannot escalate. *)
Theorem grant_subset_sound c u :
  tokenGrantIsSubset c u = true ->
  (forall a, tokenGrantAllowsAction (Some c) a = true -> tokenGrantAllowsAction (Some u) a = true) /\
  (forall p, tokenGrantAllowsProject (Some c) p = true -> tokenGrantAllowsProject (Some u) p = true) /\
  (forall v, tokenGrantIsSubset u v = true -> tokenGrantIsSubset c v = true).
Proof.
  unfold tokenGrantIsSubset. intros [Ha Hp]%andb_true_iff. split_and!.
  - intros a. unfold tokenGrantAllowsAction.
    apply subset_of_spec in Ha, Hp.
    destruct (projects u) as [|pu] eqn:Eu; simpl.
    + destruct (actions u) as [|au]; [done|]. destruct Ha as (ac & -> & Hsub).
      destruct (negb _ && _); [done|]. rewrite !includes_spec. apply Hsub.
    + destruct Hp as (pc & -> & _). simpl.
      destruct (actions u) as [|au].
      * by destruct (bool_decide (rule_scope a = ScopeDeployment)).
      * destruct Ha as (ac & -> & Hsub).
        destruct (bool_decide (rule_scope a = ScopeDeployment)); [done|].
        rewrite !includes_spec. apply Hsub.
  - intros p. unfold tokenGrantAllowsProject. apply subset_of_spec in Hp.
    destruct (projects u) as [|pu]; [done|]. destruct Hp as (pc & -> & Hsub).
    rewrite !includes_spec. apply Hsub.
  - intros v [Ha' Hp']%andb_true_iff. apply andb_true_iff.
    split; eapply subset_of_trans; eauto.
Qed.

Example grant_subset_sound_witness :
  tokenGrantAllowsAction (Some {| actions := All; projects := All |}) (AProject ProjectRead) = true.
Proof.
  apply (grant_subset_sound
    {| actions := expandTokenGrantPreset PresetRead; projects := Only ["p-1"%string] |}
    {| actions := All; projects := All |} eq_refl). vm_compute. reflexivity.
Defined.

(** The presets a list of scopes selects. *)
Definition selected (scopes : list string) (entries : list (string * TokenGrantPreset))
    (p : TokenGrantPreset) : Prop :=
  exists scope, (scope, p) ∈ entries /\ scope ∈ scopes.

Definition preset_admits (p : TokenGrantPreset) (a : AuthorizationAction) : Prop :=
  match expandTokenGrantPreset p with All => True | Only l => a ∈ l end.

Lemma selected_cons scopes scope p rest q :
  selected scopes ((scope, p) :: rest) q <-> (scope ∈ scopes /\ q = p) \/ selected scopes rest q.
Proof. unfold selected. set_solver. Qed.

Lemma external_loop_spec scopes entries acc a :
  (exists g, external_loop scopes entries acc = Some g /\ admits g a) <->
  a ∈ acc \/ exists p, selected scopes entries p /\ preset_admits p a.
Proof.
  revert acc. induction entries as [|[scope p] rest IH]; intros acc; simpl.
  - destruct acc as [|x acc]; simpl.
    + split; [naive_solver|]. unfold selected. set_solver.
    + unfold admits. simpl. split.
      * intros (g & [= <-] & Ha). left. by apply includes_spec.
      * intros [Ha|(p & (s & Hs & _) & _)]; [|set_solver].
        eexists. split; [done|]. simpl. by apply includes_spec.
  - setoid_rewrite selected_cons.
    destruct (includes scope scopes) eqn:Hs; simpl.
    + apply includes_spec in Hs. destruct (expandTokenGrantPreset p) as [|l] eqn:Ep.
      * split; [intros _; right; exists p; unfold preset_admits; rewrite Ep; by split; [left|]|].
        intros _. eexists. split; [done|]. done.
      * rewrite IH, elem_of_js_set, elem_of_app. split.
        -- intros [[Ha|Ha]|(q & Hq & Hqa)]; [by left| |right; eauto].
           right. exists p. unfold preset_admits. rewrite Ep. by split; [left|].
        -- intros [Ha|(q & [[_ ->]|Hq] & Hqa)]; [by left; left| |right; eauto].
           unfold preset_admits in Hqa. rewrite Ep in Hqa. by left; right.
    + apply includes_false in Hs. rewrite IH. naive_solver.
Qed.

(** The grant derived from an external token's scopes admits exactly the union
    of the presets its known scopes name, over all projects; a token with no known
    scope is refused. *)
Theorem external_grant_spec scopes a :
  ((exists g, externalTokenGrant scopes = Some g /\ tokenGrantAllowsAction (Some g) a = true) <->
   exists p, selected scopes EXTERNAL_TOKEN_SCOPE_PRESETS p /\ preset_admits p a) /\
  (externalTokenGrant scopes = None <->
     forall p, ~ selected scopes EXTERNAL_TOKEN_SCOPE_PRESETS p).
Proof.
  split.
  - unfold externalTokenGrant. pose proof (external_loop_spec scopes EXTERNAL_TOKEN_SCOPE_PRESETS [] a) as H.
    unfold admits in H. rewrite H. set_solver.
  - split.
    + intros Hn p Hp. assert (preset_admits p (AProject AppRead)) as Ha
        by (destruct p; unfold preset_admits; simpl; set_solver).
      destruct (proj2 (external_loop_spec scopes EXTERNAL_TOKEN_SCOPE_PRESETS [] (AProject AppRead)))
        as (g & Hg & _); [right; eauto|]. unfold externalTokenGrant in Hn. congruence.
    + intros Hall. destruct (externalTokenGrant scopes) as [g|] eqn:E; [|done]. exfalso.
      assert (exists b, admits g b) as [b Hb].
      { revert E. clear. unfold externalTokenGrant, admits. simpl.
        destruct (includes _ scopes), (includes _ scopes), (includes _ scopes), (includes _ scopes);
          vm_compute; intros [= <-]; exists (AProject AppRead); reflexivity. }
      destruct (proj1 (external_loop_spec scopes EXTERNAL_TOKEN_SCOPE_PRESETS [] b))
        as [Hin|(p & Hp & _)]; [by exists g|set_solver|by apply (Hall p)].
Qed.
End GrantTheorems.
