(* ===== verification/SessionAuthz.v ===== *)
(** * Session permissions

    [services/runtime/sessionAuthz.ts]: who may start a session of a mode, and who
    may attach to, stop, or open a secondary surface on a live session. *)

From S2P Require Import Prelude Constants Schema Identity Lifecycle.
Import SessionState.

(** [SessionAction] *)
Inductive SessionAction := ActAttach | ActStop | ActSurface.

#[export] Instance SessionAction_eq_dec : EqDecision SessionAction.
Proof. solve_decision. Defined.

(** [SessionActor] *)
Record SessionActor := {
  a_userId : UserId;
  a_role : option Role;
  a_viewerMode : option ViewerMode;
  a_editorSandboxSharing : option EditorSandboxSharing;
}.

(** The fields of a session record the decision reads ([SessionAdmissionRecord]). *)
Record SessionAdmissionRecord := {
  sa_mode : option SessionMode;
  sa_ephemeral : option bool;
  sa_user_id : UserId;
  sa_editor_sandbox_sharing : option EditorSandboxSharing;
  sa_restricted_viewer_credentials : option bool;
}.

Definition canStartSessionMode (role : option Role) (viewerMode : option ViewerMode)
    (mode : SessionMode) : bool :=
  if role === Some AppUser then mode === App
  else if roleAtLeast role Editor then true
  else (role === Some Viewer) && includes mode (viewerSessionModes viewerMode).

(** [sessionCan] for [attach] and [stop] (every action but [surface]). *)
Definition sessionCan_base (action : SessionAction) (actor : SessionActor)
    (session : SessionAdmissionRecord) : bool :=
  let mode := sessionMode (sa_mode session) in
  let ephemeral := sa_ephemeral session ?? false in
  if roleAtLeast (a_role actor) Editor then
    if negb (mode === Edit) then true
    else
      let sharing :=
        sa_editor_sandbox_sharing session ?? (a_editorSandboxSharing actor ?? Shared) in
      if sharing === Shared then true
      else if sa_user_id session === a_userId actor then true
      else (action === ActStop) && roleAtLeast (a_role actor) Manager
  else if a_role actor === Some AppUser then
    (action === ActAttach) && (mode === App) && negb ephemeral
  else if a_role actor === None then false
  else if ephemeral && (sa_user_id session === a_userId actor) then
    (action === ActStop)
    || ((negb (mode === Edit) || (sa_restricted_viewer_credentials session === Some true))
        && includes mode (viewerSessionModes (a_viewerMode actor)))
  else if action === ActStop then false
  else (viewerSession (MODE_POLICY mode) === VSShared)
       && includes mode (viewerSessionModes (a_viewerMode actor)).

(** [sessionCan]: [surface] is an editor's [attach] on an edit session. *)
Definition sessionCan (action : SessionAction) (actor : SessionActor)
    (session : SessionAdmissionRecord) : bool :=
  if action === ActSurface then
    if negb (roleAtLeast (a_role actor) Editor) || negb (sessionMode (sa_mode session) === Edit)
    then false
    else sessionCan_base ActAttach actor session
  else sessionCan_base action actor session.

(** [sessionGrants]: the three grants at once. *)
Definition sessionGrants (actor : SessionActor) (session : SessionAdmissionRecord) :
    bool * bool * bool :=
  (sessionCan ActAttach actor session, sessionCan ActStop actor session,
   sessionCan ActSurface actor session).

(** ** Properties *)
Module SessionAuthzTheorems.

Definition effective_sharing (actor : SessionActor) (s : SessionAdmissionRecord) :=
  sa_editor_sandbox_sharing s ?? (a_editorSandboxSharing actor ?? Shared).

Definition with_viewer_mode (a : SessionActor) (m : ViewerMode) : SessionActor :=
  {| a_userId := a_userId a; a_role := a_role a; a_viewerMode := Some m;
     a_editorSandboxSharing := a_editorSandboxSharing a |}.

(** Who reaches a kernel.  A caller without a role reaches nothing.  An exclusive
    editor session is reached only by its owner among editors; nobody below editor
    reaches an editor session except the owner of an ephemeral one with restricted
    credentials under a viewer tier that still grants it; opening a surface implies
    attach; and stop without attach is exactly a manager's force-stop of someone
    else's exclusive editor, or an owner stopping their own throwaway. *)
Theorem session_reach_spec actor s :
  (a_role actor = None -> forall act, sessionCan act actor s = false) /\
  (sessionMode (sa_mode s) = Edit -> effective_sharing actor s = Exclusive ->
     roleAtLeast (a_role actor) Editor = true ->
     (sessionCan ActAttach actor s = true <-> sa_user_id s = a_userId actor)) /\
  (sessionMode (sa_mode s) = Edit -> roleAtLeast (a_role actor) Editor = false ->
     sessionCan ActAttach actor s = true ->
     a_role actor = Some Viewer /\ sa_user_id s = a_userId actor /\
     sa_ephemeral s = Some true /\ sa_restricted_viewer_credentials s = Some true /\
     Edit ∈ viewerSessionModes (a_viewerMode actor)) /\
  (sessionCan ActSurface actor s = true -> sessionCan ActAttach actor s = true) /\
  (sessionCan ActStop actor s = true -> sessionCan ActAttach actor s = false ->
     (roleAtLeast (a_role actor) Manager = true /\ sa_user_id s <> a_userId actor) \/
     (a_role actor = Some Viewer /\ sa_ephemeral s = Some true /\
      sa_user_id s = a_userId actor)).
Proof.
  destruct actor as [u r vm sh], s as [m e su ss rv]. simpl. split_and!.
  - intros -> []; done.
  - unfold effective_sharing. simpl. intros Hm Hs Hr. unfold sessionCan, sessionCan_base. simpl.
    rewrite Hm, Hr, Hs. simpl. case_bool_decide; naive_solver.
  - unfold sessionCan, sessionCan_base. simpl. intros -> Hr. rewrite Hr. simpl.
    destruct r as [[]|], e as [[]|]; simpl in *; try done.
    case_bool_decide; simpl; [|done]. intros [Hrv Hin]%andb_true_iff.
    rewrite includes_spec in Hin. case_bool_decide; naive_solver.
  - unfold sessionCan. simpl. by destruct (negb _ || negb _).
  - unfold sessionCan, sessionCan_base. simpl.
    destruct (roleAtLeast r Editor) eqn:Hr.
    + destruct (negb _); [done|]. destruct (bool_decide (_ = Shared)); [done|].
      case_bool_decide; [done|]. simpl. naive_solver.
    + destruct r as [[]|], e as [[]|]; simpl in *; try done.
      case_bool_decide; simpl; [naive_solver|done].
Qed.

(** Raising the viewer tier never removes an admission: whatever a caller may
    start, attach to, stop or open under a tier, they may under a higher tier. *)
Theorem viewer_tier_monotone m1 m2 actor s act mode :
  tier m1 <= tier m2 ->
  (sessionCan act (with_viewer_mode actor m1) s = true ->
     sessionCan act (with_viewer_mode actor m2) s = true) /\
  (canStartSessionMode (a_role actor) (Some m1) mode = true ->
     canStartSessionMode (a_role actor) (Some m2) mode = true).
Proof.
  intros Hle. pose proof (viewer_modes_mono _ _ Hle) as Hsub.
  assert (forall x, includes x (VIEWER_SESSION_MODES m1) = true ->
                    includes x (VIEWER_SESSION_MODES m2) = true) as Hinc.
  { intros x. rewrite !includes_spec. apply Hsub. }
  split.
  - unfold sessionCan, sessionCan_base. simpl.
    repeat case_match; rewrite ?andb_true_iff, ?orb_true_iff, ?andb_true_iff; try done; naive_solver.
  - unfold canStartSessionMode. simpl.
    repeat case_match; rewrite ?andb_true_iff; try done. naive_solver.
Qed.

Example viewer_tier_monotone_witness :
  sessionCan ActAttach (with_viewer_mode
    {| a_userId := "u1"%string; a_role := Some Viewer; a_viewerMode := None;
       a_editorSandboxSharing := None |} EphemeralSandbox)
    {| sa_mode := Some App; sa_ephemeral := None; sa_user_id := "u2"%string;
       sa_editor_sandbox_sharing := None; sa_restricted_viewer_credentials := None |} = true.
Proof.
  refine (proj1 (viewer_tier_monotone Applications EphemeralSandbox _ _ _ Edit _) _).
  - simpl; lia.
  - vm_compute. reflexivity.
Defined.
End SessionAuthzTheorems.
