(* ===== verification/UtcDate.v ===== *)
(** * ISO timestamps

    [packages/core/src/utcDate.ts] and the timestamp pattern of
    [packages/core/src/stringFormats.ts]: strict parsing of [YYYY-MM-DDThh:mm[:ss[.f+]]Z].
    The code rejects a calendar date that does not exist by comparing the parsed
    components with the ones [Date] gives back; the model states the calendar. *)

From Stdlib Require Import Ascii ZArith Lia.
From S2P Require Import Prelude.
Local Open Scope Z_scope.

Definition digit_value (c : ascii) : option Z :=
  let n := Z.of_N (N_of_ascii c) in
  if (48 <=? n) && (n <=? 57) then Some (n - 48) else None.

(** [\d{n}], as a number. *)
Fixpoint take_digits (n : nat) (acc : Z) (l : list ascii) : option (Z * list ascii) :=
  match n with
  | O => Some (acc, l)
  | S n' =>
      match l with
      | [] => None
      | c :: l' =>
          match digit_value c with
          | None => None
          | Some d => take_digits n' (10 * acc + d) l'
          end
      end
  end.

Definition expect (c : ascii) (l : list ascii) : option (list ascii) :=
  match l with
  | x :: l' => if Ascii.eqb x c then Some l' else None
  | [] => None
  end.

(** [\d+] then [Z] to the end; the value is the milliseconds, further digits dropped. *)
Fixpoint fraction (scale : Z) (seen : bool) (acc : Z) (l : list ascii) : option Z :=
  match l with
  | [] => None
  | c :: l' =>
      match digit_value c with
      | Some d => fraction (scale / 10) true (acc + d * scale) l'
      | None => if Ascii.eqb c "Z" && (match l' with [] => true | _ => false end) && seen
                then Some acc else None
      end
  end.

Record IsoFields := {
  iso_y : Z; iso_mo : Z; iso_d : Z; iso_h : Z; iso_mi : Z; iso_s : Z; iso_ms : Z;
}.

(** [ISO_TIMESTAMP_PATTERN] *)
Definition iso_fields (value : string) : option IsoFields :=
  let l := String.list_ascii_of_string value in
  '(y, l) ← take_digits 4 0 l; l ← expect "-" l;
  '(mo, l) ← take_digits 2 0 l; l ← expect "-" l;
  '(d, l) ← take_digits 2 0 l; l ← expect "T" l;
  '(h, l) ← take_digits 2 0 l; l ← expect ":" l;
  '(mi, l) ← take_digits 2 0 l;
  match l with
  | ["Z"%char] => Some (Build_IsoFields y mo d h mi 0 0)
  | ":"%char :: l =>
      '(s, l) ← take_digits 2 0 l;
      match l with
      | ["Z"%char] => Some (Build_IsoFields y mo d h mi s 0)
      | "."%char :: l => ms ← fraction 100 false 0 l; Some (Build_IsoFields y mo d h mi s ms)
      | _ => None
      end
  | _ => None
  end.

Definition leap_year (y : Z) : bool :=
  (y mod 4 =? 0) && (negb (y mod 100 =? 0) || (y mod 400 =? 0)).

Definition days_in_month (y mo : Z) : Z :=
  if mo =? 2 then (if leap_year y then 29 else 28)
  else if (mo =? 4) || (mo =? 6) || (mo =? 9) || (mo =? 11) then 30 else 31.

(** The components name an instant of the calendar. *)
Definition fields_valid (f : IsoFields) : bool :=
  (1 <=? iso_mo f) && (iso_mo f <=? 12) &&
  (1 <=? iso_d f) && (iso_d f <=? days_in_month (iso_y f) (iso_mo f)) &&
  (iso_h f <=? 23) && (iso_mi f <=? 59) && (iso_s f <=? 59).

(** Days since 1970-01-01 of a civil date. *)
Definition days_from_civil (y mo d : Z) : Z :=
  let y' := if mo <=? 2 then y - 1 else y in
  let era := y' / 400 in
  let yoe := y' mod 400 in
  let doy := (153 * ((mo + 9) mod 12) + 2) / 5 + d - 1 in
  let doe := yoe * 365 + yoe / 4 - yoe / 100 + doy in
  era * 146097 + doe - 719468.

Definition fields_ms (f : IsoFields) : Z :=
  (((days_from_civil (iso_y f) (iso_mo f) (iso_d f) * 24 + iso_h f) * 60 + iso_mi f) * 60
   + iso_s f) * 1000 + iso_ms f.

(** [parseIsoTimestamp] *)
Definition parseIsoTimestamp (value : string) : option Z :=
  f ← iso_fields value; if fields_valid f then Some (fields_ms f) else None.

(** [UTC_TIMESTAMP]: the schema pattern spells out the same calendar. *)
Definition utcTimestamp (value : string) : bool :=
  match iso_fields value with Some f => fields_valid f | None => false end.

(** ** Printing: [Date.prototype.toISOString] for the years 0000 to 9999 *)

Definition digit_char (d : Z) : ascii := ascii_of_N (Z.to_N (48 + d)).

(** [n] decimal digits of [v], most significant first. *)
Fixpoint digits (n : nat) (v : Z) : list ascii :=
  match n with
  | O => []
  | S n' => digits n' (v / 10) ++ [digit_char (v mod 10)]
  end.

(** The civil date of a day count, through the 400, 100, 4 and 1 year cycles. *)
Definition civil_from_days (days : Z) : Z * Z * Z :=
  let z := days + 719468 in
  let era := z / 146097 in
  let doe := z mod 146097 in
  let century := Z.min 3 (doe / 36524) in
  let r := doe - 36524 * century in
  let quad := r / 1461 in
  let r := r - 1461 * quad in
  let year := Z.min 3 (r / 365) in
  let doy := r - 365 * year in
  let yoe := 100 * century + 4 * quad + year in
  let mp := (5 * doy + 2) / 153 in
  let d := doy - (153 * mp + 2) / 5 + 1 in
  let mo := if mp <? 10 then mp + 3 else mp - 9 in
  (era * 400 + yoe + (if mo <=? 2 then 1 else 0), mo, d).

Definition fields_of_ms (ms : Z) : IsoFields :=
  let days := ms / 86400000 in
  let rest := ms mod 86400000 in
  let '(y, mo, d) := civil_from_days days in
  Build_IsoFields y mo d (rest / 3600000) (rest / 60000 mod 60) (rest / 1000 mod 60) (rest mod 1000).

Definition print_fields (f : IsoFields) : list ascii :=
  (digits 4 (iso_y f) ++ ["-"%char] ++ digits 2 (iso_mo f) ++ ["-"%char] ++ digits 2 (iso_d f) ++
   ["T"%char] ++ digits 2 (iso_h f) ++ [":"%char] ++ digits 2 (iso_mi f) ++ [":"%char] ++
   digits 2 (iso_s f) ++ ["."%char] ++ digits 3 (iso_ms f) ++ ["Z"%char])%list.

Definition toISOString (ms : Z) : string := String.string_of_list_ascii (print_fields (fields_of_ms ms)).

(** [nextIsoTimestamp]: [None] is the thrown [RangeError]. *)
Definition nextIsoTimestamp (previous : option string) (candidate : string) : option string :=
  candidateMs ← parseIsoTimestamp candidate;
  match previous with
  | None => Some candidate
  | Some p =>
      previousMs ← parseIsoTimestamp p;
      Some (if candidateMs >? previousMs then candidate else toISOString (previousMs + 1))
  end.

Example parse_epoch : parseIsoTimestamp "1970-01-01T00:00:00.000Z" = Some 0.
Proof. reflexivity. Qed.
Example parse_leap : parseIsoTimestamp "2024-02-29T12:30Z" = Some 1709209800000.
Proof. reflexivity. Qed.
Example parse_nonexistent : parseIsoTimestamp "2025-02-30T00:00:00Z" = None.
Proof. reflexivity. Qed.

(** A timestamp the schema accepts always parses: no stored expiry is lost later. *)
Lemma utcTimestamp_parses s : utcTimestamp s = true <-> is_Some (parseIsoTimestamp s).
Proof.
  unfold utcTimestamp, parseIsoTimestamp, is_Some.
  destruct (iso_fields s) as [f|]; simpl; [destruct (fields_valid f)|]; naive_solver.
Qed.

(** ** The printed form of an instant parses back to it *)

Lemma digit_value_char d : 0 <= d <= 9 -> digit_value (digit_char d) = Some d.
Proof.
  intros Hd.
  assert (d = 0 \/ d = 1 \/ d = 2 \/ d = 3 \/ d = 4 \/ d = 5 \/ d = 6 \/ d = 7 \/ d = 8 \/ d = 9)
    as H by lia.
  by repeat destruct H as [->|H]; [..|rewrite H].
Qed.

Lemma take_digits_app n acc v rest :
  0 <= v < 10 ^ Z.of_nat n ->
  take_digits n acc (digits n v ++ rest) = Some (acc * 10 ^ Z.of_nat n + v, rest).
Proof.
  assert (Hsplit : forall n m acc l, take_digits (n + m) acc l =
    match take_digits n acc l with Some (a, l') => take_digits m a l' | None => None end).
  { clear. induction n as [|n IH]; intros m acc l; simpl; [done|].
    destruct l as [|c l]; [done|]. by destruct (digit_value c). }
  revert acc v rest. induction n as [|n IH]; intros acc v rest Hv.
  - simpl. f_equal. f_equal. change (10 ^ Z.of_nat 0) with 1 in *. lia.
  - rewrite Nat2Z.inj_succ, Z.pow_succ_r in * by lia.
    replace (S n) with (n + 1)%nat at 1 by lia.
    rewrite Hsplit. simpl digits. rewrite <- app_assoc.
    rewrite IH by (split; [apply Z.div_pos; lia|apply Z.div_lt_upper_bound; lia]).
    simpl. rewrite digit_value_char by (pose proof (Z.mod_pos_bound v 10); lia).
    f_equal. f_equal. pose proof (Z.div_mod v 10). nia.
Qed.

Lemma fraction_digits v : 0 <= v < 1000 -> fraction 100 false 0 (digits 3 v ++ ["Z"%char]) = Some v.
Proof.
  intros Hv. change (digits 3 v) with
    [digit_char (v / 10 / 10 mod 10); digit_char (v / 10 mod 10); digit_char (v mod 10)].
  simpl app. cbn [fraction].
  rewrite !digit_value_char by (apply Z.lt_succ_r in Hv || idtac; Z.div_mod_to_equations; lia).
  simpl. f_equal. change (100 / 10) with 10. change (10 / 10) with 1. Z.div_mod_to_equations; lia.
Qed.

Lemma iso_fields_print f :
  0 <= iso_y f < 10000 -> 0 <= iso_mo f < 100 -> 0 <= iso_d f < 100 -> 0 <= iso_h f < 100 ->
  0 <= iso_mi f < 100 -> 0 <= iso_s f < 100 -> 0 <= iso_ms f < 1000 ->
  iso_fields (String.string_of_list_ascii (print_fields f)) = Some f.
Proof.
  intros. unfold iso_fields. rewrite String.list_ascii_of_string_of_list_ascii.
  unfold print_fields.
  Local Opaque digits take_digits fraction.
  rewrite take_digits_app by done; simpl.
  do 5 (rewrite take_digits_app by done; simpl).
  rewrite fraction_digits by done. simpl. by destruct f.
Qed.

(** The March-based month of a day of the year: its length bounds the day. *)
Lemma month_of_doy doy :
  0 <= doy < 366 ->
  let mp := (5 * doy + 2) / 153 in
  let mo := if mp <? 10 then mp + 3 else mp - 9 in
  let d := doy - (153 * mp + 2) / 5 + 1 in
  0 <= mp <= 11 /\ (mo + 9) mod 12 = mp /\ 1 <= mo <= 12 /\ (mo <= 2 <-> 10 <= mp) /\ 1 <= d /\
  d <= (if mo =? 2 then (if doy =? 365 then 29 else 28)
        else if (mo =? 4) || (mo =? 6) || (mo =? 9) || (mo =? 11) then 30 else 31).
Proof.
  intros Hd mp mo d.
  assert (0 <= mp <= 11) as Hmp by (subst mp; Z.div_mod_to_equations; lia).
  assert (153 * mp <= 5 * doy + 2 < 153 * mp + 153) as Hb by (subst mp; Z.div_mod_to_equations; lia).
  clearbody mp.
  assert (mp = 0 \/ mp = 1 \/ mp = 2 \/ mp = 3 \/ mp = 4 \/ mp = 5 \/ mp = 6 \/ mp = 7 \/ mp = 8 \/
          mp = 9 \/ mp = 10 \/ mp = 11) as H by lia.
  repeat destruct H as [H|H]; subst mp mo d; simpl; repeat split; try lia;
    destruct (Z.eqb_spec doy 365); Z.div_mod_to_equations; lia.
Qed.

Lemma leap_of_cycle era century quad :
  0 <= century <= 3 -> 0 <= quad <= 24 -> (quad = 24 -> century = 3) ->
  leap_year (era * 400 + (100 * century + 4 * quad + 3) + 1) = true.
Proof.
  intros Hc Hq H24. unfold leap_year.
  set (y := era * 400 + (100 * century + 4 * quad + 3) + 1).
  assert (y mod 4 = 0) as -> by (subst y; Z.div_mod_to_equations; lia).
  assert (quad = 24 \/ quad <= 23) as [E|E] by lia.
  - assert (y mod 400 = 0) as -> by (subst y; replace (era * 400 + (100 * century + 4 * quad + 3) + 1) with ((era + 1) * 400) by lia; apply Z_mod_mult).
    by rewrite orb_true_r.
  - assert (y mod 100 <> 0) as Hne by (subst y; rewrite Z.mod_divide by lia; intros [k Hk]; lia).
    by apply Z.eqb_neq in Hne as ->.
Qed.

Lemma civil_from_days_spec days y mo d :
  civil_from_days days = (y, mo, d) ->
  days_from_civil y mo d = days /\ 1 <= mo <= 12 /\ 1 <= d <= days_in_month y mo.
Proof.
  unfold civil_from_days. set (z := days + 719468).
  set (doe := z mod 146097).
  pose proof (Z.mod_pos_bound z 146097 ltac:(lia)) as Hdoe. fold doe in Hdoe.
  pose proof (Z.div_mod z 146097 ltac:(lia)) as Hz. fold doe in Hz.
  set (era := z / 146097) in *.
  set (century := Z.min 3 (doe / 36524)).
  set (r := doe - 36524 * century). set (quad := r / 1461).
  set (r' := r - 1461 * quad). set (year := Z.min 3 (r' / 365)).
  set (doy := r' - 365 * year). set (yoe := 100 * century + 4 * quad + year).
  assert (0 <= century <= 3 /\ 0 <= r < 36525 /\ (century < 3 -> r < 36524)) as (Hc & Hr & Hr3)
    by (subst century r; Z.div_mod_to_equations; lia).
  assert (0 <= quad <= 24 /\ 0 <= r' < 1461 /\ (quad = 24 -> century < 3 -> r' < 1460)) as (Hq & Hr' & Hq24)
    by (subst quad r'; Z.div_mod_to_equations; lia).
  assert (0 <= year <= 3 /\ 0 <= doy < 366 /\ (doy = 365 -> year = 3 /\ r' = 1460)) as (Hy & Hdoy & H365)
    by (subst year doy; Z.div_mod_to_equations; lia).
  assert (yoe / 4 = 25 * century + quad /\ yoe / 100 = century /\ 0 <= yoe < 400) as (Hy4 & Hy100 & Hyoe)
    by (subst yoe; Z.div_mod_to_equations; lia).
  assert (Hdoe' : yoe * 365 + yoe / 4 - yoe / 100 + doy = doe) by lia.
  pose proof (month_of_doy doy Hdoy) as Hm. cbv zeta in Hm.
  destruct Hm as (Hmp & Hmo9 & Hmo & Hmo2 & Hd1 & Hd2).
  intros [= <- <- <-].
  set (mp := (5 * doy + 2) / 153) in *. set (mo := if mp <? 10 then mp + 3 else mp - 9) in *.
  set (d := doy - (153 * mp + 2) / 5 + 1) in *.
  split; [|split; [done|]].
  - unfold days_from_civil. rewrite Hmo9.
    replace (if mo <=? 2 then era * 400 + yoe + (if mo <=? 2 then 1 else 0) - 1
             else era * 400 + yoe + (if mo <=? 2 then 1 else 0)) with (era * 400 + yoe)
      by (destruct (mo <=? 2); lia).
    replace ((era * 400 + yoe) / 400) with era by (Z.div_mod_to_equations; lia).
    replace ((era * 400 + yoe) mod 400) with yoe by (Z.div_mod_to_equations; lia).
    subst d. lia.
  - split; [done|]. unfold days_in_month. etrans; [exact Hd2|].
    destruct (Z.eqb_spec mo 2) as [Hm2|]; [|reflexivity].
    destruct (Z.eqb_spec doy 365) as [E|]; [|destruct (leap_year _); lia].
    rewrite (proj2 (Z.leb_le mo 2)) by lia.
    destruct (H365 E) as [Hyear Hr1460]. subst yoe. rewrite Hyear, leap_of_cycle; lia.
Qed.

Lemma fields_of_ms_spec ms :
  -62167219200000 <= ms < 253402300800000 ->
  let f := fields_of_ms ms in
  fields_ms f = ms /\ fields_valid f = true /\ 0 <= iso_y f < 10000 /\ 0 <= iso_mo f < 100 /\ 0 <= iso_d f < 100 /\ 0 <= iso_h f < 100 /\
  0 <= iso_mi f < 100 /\ 0 <= iso_s f < 100 /\ 0 <= iso_ms f < 1000.
Proof.
  intros Hr f. subst f. unfold fields_of_ms.
  destruct (civil_from_days (ms / 86400000)) as [[y mo] d] eqn:E.
  destruct (civil_from_days_spec _ _ _ _ E) as (Hday & Hmo & Hd).
  pose proof (Z.mod_pos_bound ms 86400000 ltac:(lia)) as Hrest.
  pose proof (Z.div_mod ms 86400000 ltac:(lia)) as Hms.
  set (days := ms / 86400000) in *. set (rest := ms mod 86400000) in *.
  assert (Hd31 : days_in_month y mo <= 31)
    by (unfold days_in_month; repeat case_match; lia).
  assert (Hy : 0 <= y < 10000).
  { rewrite <- Hday in *. unfold days_from_civil in *.
    destruct (Z.leb_spec mo 2); Z.div_mod_to_equations; lia. }
  unfold fields_ms, fields_valid; simpl. rewrite Hday.
  split; [subst rest; Z.div_mod_to_equations; lia|].
  split; [|repeat split; try lia; subst rest; Z.div_mod_to_equations; lia].
  repeat (apply andb_true_intro; split); apply Z.leb_le;
    first [lia | subst rest; Z.div_mod_to_equations; lia].
Qed.

Lemma parse_toISOString ms :
  -62167219200000 <= ms < 253402300800000 -> parseIsoTimestamp (toISOString ms) = Some ms.
Proof.
  intros H. destruct (fields_of_ms_spec ms H) as (Hms & Hv & Hb).
  unfold parseIsoTimestamp, toISOString. rewrite iso_fields_print by tauto.
  simpl. by rewrite Hv, Hms.
Qed.

(** C39: the printed form of every instant of the years 0000 to 9999 parses back to that
    instant: a stored expiry or lease deadline is the deadline that was computed. *)
Theorem iso_roundtrip ms :
  -62167219200000 <= ms < 253402300800000 ->
  parseIsoTimestamp (toISOString ms) = Some ms /\ utcTimestamp (toISOString ms) = true.
Proof.
  intros H. split; [by apply parse_toISOString|].
  apply utcTimestamp_parses. exists ms. by apply parse_toISOString.
Qed.

Example iso_roundtrip_witness :
  parseIsoTimestamp (toISOString 1709209800123) = Some 1709209800123 /\
  utcTimestamp (toISOString 1709209800123) = true.
Proof. apply iso_roundtrip. lia. Defined.

(** A successor timestamp is strictly later than the one it follows, as an instant, and
    is the candidate itself whenever that is later. *)
Lemma nextIsoTimestamp_later previous candidate p c :
  parseIsoTimestamp previous = Some p -> parseIsoTimestamp candidate = Some c ->
  -62167219200000 <= p + 1 < 253402300800000 ->
  exists next n, nextIsoTimestamp (Some previous) candidate = Some next /\
    parseIsoTimestamp next = Some n /\ p < n /\ (p < c -> next = candidate).
Proof.
  intros Hp Hc Hr. unfold nextIsoTimestamp. rewrite Hc; simpl. rewrite Hp; simpl.
  destruct (Z.gtb_spec c p).
  - exists candidate, c. repeat split; try done; lia.
  - exists (toISOString (p + 1)), (p + 1).
    split; [done|]. split; [by apply parse_toISOString|]. split; [lia|]. lia.
Qed.
