(* ===== verification/SecurityLabels.v ===== *)
(** * Resource security labels and their evaluation

    [packages/core/src/securityLabels.ts], the subject context and its validation
    ([ports/subjectContext.ts]), the constraint port ([ports/resourceConstraints.ts])
    and the built-in policy [services/authorization/LocalResourceConstraintPolicy.ts].
    What crosses a trust boundary as [unknown] is a [jsval], and the shape checks run
    on it. *)

From Stdlib Require Import Ascii ZArith Lia.
From stdpp Require Import pretty.
From S2P Require Import Prelude Constants Schema UtcDate Grants.

(** ** Untrusted values *)

(** A JavaScript value received from an adapter. *)
Inductive jsval :=
| JUndefined | JNull
| JBool (b : bool)
| JNum (n : Z)
| JStr (s : string)
| JArr (l : list jsval)
| JObj (fields : list (string * jsval)).

(** Property read: [undefined] on anything that has no such own field. *)
Definition js_get (v : jsval) (k : string) : jsval :=
  match v with
  | JObj fs => match List.find (fun kv => kv.1 === k) fs with Some kv => kv.2 | None => JUndefined end
  | _ => JUndefined
  end.

#[global] Arguments js_get : simpl never.

(** [typeof v === 'object' && v !== null] *)
Definition is_object (v : jsval) : bool :=
  match v with JArr _ | JObj _ => true | _ => false end.

(** [Object.keys(v)] *)
Definition js_keys (v : jsval) : list string :=
  match v with
  | JObj fs => map fst fs
  | JArr l => map (fun i => pretty i) (seq 0 (length l))
  | _ => []
  end.

(** ** Labels *)

Definition alnum (c : ascii) : bool :=
  let n := N_of_ascii c in
  ((48 <=? n) && (n <=? 57) || (65 <=? n) && (n <=? 90) || (97 <=? n) && (n <=? 122))%N.

(** The characters a label token may continue with, beside the alphanumerics. *)
Definition token_punct (c : ascii) : bool :=
  includes c ["."%char; "_"%char; ":"%char; "/"%char; "-"%char].

(** [SECURITY_LABEL_TOKEN]: one alphanumeric, then up to 63 token characters. *)
Definition SECURITY_LABEL_TOKEN (s : string) : bool :=
  match String.list_ascii_of_string s with
  | [] => false
  | c :: l => alnum c && (length l <=? 63) && forallb (fun x => alnum x || token_punct x) l
  end.

Definition MAX_SECURITY_COMPARTMENTS : nat := 64.

Definition string_le (a b : string) : bool := String.leb a b.

(** [[...new Set(xs)].sort()] *)
Definition set_sorted (xs : list string) : list string := js_sort string_le (js_set xs).

Definition normalizeSecurityLabels (labels : ResourceSecurityLabels) : ResourceSecurityLabels :=
  {| classification := classification labels; compartments := set_sorted (compartments labels) |}.

Definition isMonotonicRestrictionIncrease (previous next : ResourceSecurityLabels) : bool :=
  (classification previous === classification next)
  && forallb (fun c => includes c (compartments next)) (compartments previous).

(** ** The subject security context *)

Record SubjectSecurityContext := {
  ctx_classification : string;
  ctx_compartments : list string;
  ctx_policyVersion : string;
  ctx_expiresAt : Timestamp;
}.

Definition token_string (v : jsval) : option string :=
  match v with JStr s => if SECURITY_LABEL_TOKEN s then Some s else None | _ => None end.

Definition MAX_SUBJECT_COMPARTMENTS : nat := MAX_SECURITY_COMPARTMENTS.

Definition token_array (max : nat) (v : jsval) : option (list string) :=
  match v with
  | JArr l => ss ← mapM token_string l; if length l <=? max then Some ss else None
  | _ => None
  end.

Definition context_keys : list string :=
  ["schemaVersion"; "classification"; "compartments"; "policyVersion"; "expiresAt"]%string.

(** [SubjectSecurityContextSchema.safeParse]: strict, so an unknown key is refused. *)
Definition SubjectSecurityContextSchema (v : jsval) : option SubjectSecurityContext :=
  match v with
  | JObj _ =>
      if negb (forallb (fun k => includes k context_keys) (js_keys v)) then None
      else match js_get v "schemaVersion" with
           | JNum 1 =>
               cls ← token_string (js_get v "classification");
               comps ← token_array MAX_SUBJECT_COMPARTMENTS (js_get v "compartments");
               pol ← token_string (js_get v "policyVersion");
               match js_get v "expiresAt" with
               | JStr e =>
                   if utcTimestamp e
                   then Some {| ctx_classification := cls; ctx_compartments := comps;
                                ctx_policyVersion := pol; ctx_expiresAt := e |}
                   else None
               | _ => None
               end
           | _ => None
           end
  | _ => None
  end.

(** [validateSubjectSecurityContext]; [now] is [None] for an invalid [Date]. *)
Definition validateSubjectSecurityContext (value : jsval) (now : option Z) :
    option SubjectSecurityContext :=
  match SubjectSecurityContextSchema value with
  | None => None
  | Some data =>
      match parseIsoTimestamp (ctx_expiresAt data), now with
      | Some expiresAtMs, Some nowMs =>
          if (expiresAtMs <=? nowMs)%Z then None
          else Some {| ctx_classification := ctx_classification data;
                       ctx_compartments := set_sorted (ctx_compartments data);
                       ctx_policyVersion := ctx_policyVersion data;
                       ctx_expiresAt := ctx_expiresAt data |}
      | _, _ => None
      end
  end.

(** ** The constraint port *)

Inductive ConstraintDenialReason := MissingContext | ConstraintUnmet | Unavailable.

Record ConstraintEvidence := {
  heldClassification : option string;
  requiredClassification : string;
  classificationSatisfied : bool;
  missingCompartments : list string;
}.

(** [ConstraintDecision] *)
Inductive ConstraintDecision :=
| Satisfied (evidence : option ConstraintEvidence)
| Unsatisfied (reason : ConstraintDenialReason) (evidence : option ConstraintEvidence).

Definition satisfied (d : ConstraintDecision) : bool :=
  match d with Satisfied _ => true | Unsatisfied _ _ => false end.

(** [ResourceConstraintPolicy.evaluate] on a labelled resource, as a value an
    in-process policy returns. *)
Definition policy_fn := SubjectSecurityContext -> AuthorizationAction -> ResourceSecurityLabels -> ConstraintDecision.

(** ** [LocalResourceConstraintPolicy] *)
Module LocalPolicy.

(** The constructor: the order is non-empty, made of tokens, without repeats. *)
Definition create (classificationOrder : list string) : result string (list string) :=
  if (length classificationOrder =? 0) || existsb (fun v => negb (SECURITY_LABEL_TOKEN v)) classificationOrder
  then Err "classificationOrder must be a non-empty list of bounded label tokens"%string
  else if negb (length (js_set classificationOrder) =? length classificationOrder)
  then Err "classificationOrder must not repeat a classification"%string
  else Ok classificationOrder.

(** [this.rank.get]: the index of a classification in the order. *)
Definition rank (order : list string) (c : string) : option nat :=
  fst <$> list_find (fun x => x = c) order.

Definition evaluate (order : list string) (context : option SubjectSecurityContext)
    (labels : option ResourceSecurityLabels) : ConstraintDecision :=
  match labels, context with
  | None, _ => Satisfied None
  | Some _, None => Unsatisfied MissingContext None
  | Some labels, Some context =>
      let required := rank order (classification labels) in
      let held := rank order (ctx_classification context) in
      let missing := List.filter (fun c => negb (includes c (ctx_compartments context)))
                       (compartments labels) in
      let ok := match required, held with Some r, Some h => r <=? h | _, _ => false end in
      let evidence := {| heldClassification := Some (ctx_classification context);
                         requiredClassification := classification labels;
                         classificationSatisfied := ok; missingCompartments := missing |} in
      if ok && (length missing =? 0) then Satisfied (Some evidence)
      else Unsatisfied ConstraintUnmet (Some evidence)
  end.

Definition evaluateMany (order : list string) (context : option SubjectSecurityContext)
    (resources : list (option ResourceSecurityLabels)) : list ConstraintDecision :=
  map (evaluate order context) resources.
End LocalPolicy.

(** ** Properties *)
Module LabelTheorems.
Import LocalPolicy.

(** A context dominates labels in a classification order. *)
Definition dominates (order : list string) (ctx : SubjectSecurityContext)
    (l : ResourceSecurityLabels) : Prop :=
  (exists r h, rank order (classification l) = Some r /\
               rank order (ctx_classification ctx) = Some h /\ r <= h) /\
  (forall c, c ∈ compartments l -> c ∈ ctx_compartments ctx).

Lemma filter_missing_nil {A} `{EqDecision A} (xs ys : list A) :
  List.filter (fun c => negb (includes c ys)) xs = [] <-> forall c, c ∈ xs -> c ∈ ys.
Proof.
  split.
  - intros H c Hc. destruct (includes c ys) eqn:E; [by apply includes_spec|]. exfalso.
    assert (c ∈ List.filter (fun c => negb (includes c ys)) xs) as Hf
      by (apply List_filter_elem; by rewrite E). rewrite H in Hf. by apply not_elem_of_nil in Hf.
  - intros H. destruct (List.filter _ xs) as [|c l] eqn:E; [done|]. exfalso.
    assert (c ∈ List.filter (fun c => negb (includes c ys)) xs) as Hf by (rewrite E; left).
    apply List_filter_elem in Hf as [Hc Hn]. apply negb_true_iff, includes_false in Hn. auto.
Qed.

Lemma local_evaluate_dominates order ctx l :
  satisfied (evaluate order (Some ctx) (Some l)) = true <-> dominates order ctx l.
Proof.
  unfold evaluate, dominates. rewrite <- filter_missing_nil.
  set (missing := List.filter _ _).
  destruct (rank order (classification l)) as [r|], (rank order (ctx_classification ctx)) as [h|];
    simpl; try naive_solver.
  destruct (r <=? h) eqn:E; simpl.
  - apply Nat.leb_le in E. destruct missing; simpl; naive_solver.
  - apply Nat.leb_gt in E. split; [done|]. intros [(? & ? & [= <-] & [= <-] & ?) _]. lia.
Qed.

Lemma string_le_total a b : string_le a b = true \/ string_le b a = true.
Proof. apply String.leb_total. Qed.

Lemma set_sorted_elem c xs : c ∈ set_sorted xs <-> c ∈ xs.
Proof. unfold set_sorted. by rewrite elem_of_js_sort, elem_of_js_set. Qed.

Lemma set_sorted_NoDup xs : NoDup (set_sorted xs).
Proof. unfold set_sorted. rewrite js_sort_perm. apply NoDup_js_set. Qed.

(** The built-in policy satisfies a label set exactly when the held
    classification ranks at least as high as the required one and every required
    compartment is held (an unknown classification on either side denies); storing
    labels in normal form changes no decision; and a change the code accepts as a
    monotonic restriction increase never lets a context in that was out. *)
Theorem local_policy_spec order ctx l l' :
  (satisfied (evaluate order (Some ctx) (Some l)) = true <-> dominates order ctx l) /\
  satisfied (evaluate order (Some ctx) (Some (normalizeSecurityLabels l)))
    = satisfied (evaluate order (Some ctx) (Some l)) /\
  (isMonotonicRestrictionIncrease l l' = true ->
     satisfied (evaluate order (Some ctx) (Some l')) = true ->
     satisfied (evaluate order (Some ctx) (Some l)) = true).
Proof.
  split_and!; [apply local_evaluate_dominates| |].
  - apply eq_true_iff_eq. rewrite !local_evaluate_dominates. unfold dominates. simpl.
    by setoid_rewrite set_sorted_elem.
  - rewrite !local_evaluate_dominates. unfold isMonotonicRestrictionIncrease, dominates.
    intros [Hc Hs]%andb_true_iff [Hr Hk]. apply bool_decide_eq_true in Hc. rewrite Hc.
    split; [done|]. intros c Hin. apply Hk, includes_spec.
    exact (proj1 (forallb_elem _ _) Hs c Hin).
Qed.

Lemma mapM_token_elem l ss :
  mapM token_string l = Some ss -> forall s, s ∈ ss -> SECURITY_LABEL_TOKEN s = true.
Proof.
  intros H%mapM_Some s Hs. induction H as [|v t l ss Hv _ IH]; [by apply not_elem_of_nil in Hs|].
  apply elem_of_cons in Hs as [->|Hs]; [|auto].
  unfold token_string in Hv. repeat case_match; simplify_eq; done.
Qed.

Lemma token_array_spec max v ss :
  token_array max v = Some ss ->
  length ss <= max /\ forall s, s ∈ ss -> SECURITY_LABEL_TOKEN s = true.
Proof.
  unfold token_array. destruct v; try done.
  destruct (mapM token_string l) as [ss'|] eqn:E; simpl; [|done].
  destruct (length l <=? max) eqn:El; [|done]. intros [= <-]. apply Nat.leb_le in El.
  pose proof (length_mapM _ _ _ E). split; [lia|by eapply mapM_token_elem].
Qed.

Lemma js_set_length {A} `{EqDecision A} (xs : list A) : length (js_set xs) <= length xs.
Proof.
  induction xs as [|x xs IH]; simpl; [lia|].
  pose proof (List.filter_length_le (fun y => negb (y === x)) (js_set xs)). lia.
Qed.

(** A subject context that passes validation is unexpired at the instant it was
    checked against, its classification and compartments are bounded tokens, at most
    sixty-four, without repeats and in order; anything else an adapter returns, and
    any check against an invalid clock, yields no context. *)
Theorem validated_context_spec v now ctx :
  validateSubjectSecurityContext v now = Some ctx ->
  (exists t e, now = Some t /\ parseIsoTimestamp (ctx_expiresAt ctx) = Some e /\ (t < e)%Z) /\
  SECURITY_LABEL_TOKEN (ctx_classification ctx) = true /\
  length (ctx_compartments ctx) <= MAX_SUBJECT_COMPARTMENTS /\
  (forall c, c ∈ ctx_compartments ctx -> SECURITY_LABEL_TOKEN c = true) /\
  NoDup (ctx_compartments ctx) /\
  (forall k, k ∈ js_keys v -> k ∈ context_keys).
Proof.
  unfold validateSubjectSecurityContext.
  destruct (SubjectSecurityContextSchema v) as [data|] eqn:Es; [|done].
  destruct (parseIsoTimestamp (ctx_expiresAt data)) as [e|] eqn:Ee; [|done].
  destruct now as [t|]; [|done]. destruct (e <=? t)%Z eqn:El; [done|].
  intros [= <-]. simpl. apply Z.leb_gt in El.
  unfold SubjectSecurityContextSchema in Es. destruct v as [| | | | | |fs]; try done.
  destruct (negb _) eqn:Hk; [done|]. apply negb_false_iff in Hk.
  destruct (js_get _ "schemaVersion") as [| | |[|[]|]| | |]; try done.
  destruct (token_string (js_get _ "classification")) as [cls|] eqn:Ec; simpl in Es; [|done].
  destruct (token_array _ _) as [comps|] eqn:Ea; simpl in Es; [|done].
  destruct (token_string (js_get _ "policyVersion")) as [pol|] eqn:Ep; simpl in Es; [|done].
  destruct (js_get _ "expiresAt"); try done. destruct (utcTimestamp s) eqn:Eu; [|done].
  injection Es as <-. simpl in *. apply token_array_spec in Ea as [Hlen Htok].
  split_and!.
  - eauto.
  - unfold token_string in Ec. repeat case_match; simplify_eq; done.
  - unfold set_sorted. rewrite (Permutation_length (js_sort_perm _ _)).
    pose proof (js_set_length comps). lia.
  - intros c. rewrite set_sorted_elem. auto.
  - apply set_sorted_NoDup.
  - intros k Hin. apply includes_spec. exact (proj1 (forallb_elem _ _) Hk k Hin).
Qed.

Definition sample_context_value : jsval :=
  JObj [("schemaVersion", JNum 1); ("classification", JStr "SECRET");
        ("compartments", JArr [JStr "b"; JStr "a"; JStr "b"]);
        ("policyVersion", JStr "v1"); ("expiresAt", JStr "2030-01-01T00:00:00Z")]%string.

Example validated_context_spec_witness :
  exists ctx, validateSubjectSecurityContext sample_context_value (Some 0%Z) = Some ctx /\
    NoDup (ctx_compartments ctx) /\ ctx_compartments ctx = ["a"; "b"]%string.
Proof.
  eexists. split; [vm_compute; reflexivity|]. split; [|reflexivity].
  apply (validated_context_spec sample_context_value (Some 0%Z)). vm_compute. reflexivity.
Defined.
End LabelTheorems.
