(* ===== verification/Authorization.v ===== *)
(** * The authorization service

    [services/authorization/AuthorizationService.ts]: the baseline decision
    (lifecycle, role, standing, session admission), the resource constraints and the
    credential grant, composed by [authorize], [analyze] and [authorizeMany], and the
    list filter of [services/authorization/labelFilter.ts].

    The constraint adapter and the subject-context provider are ports: parameters
    that return arbitrary [jsval]s after an arbitrary delay, or throw.  The clock is
    an argument.  [logEvent] is a list of emitted events returned beside the value. *)

From Stdlib Require Import ZArith Lia.
From S2P Require Import Prelude Constants Schema Identity Lifecycle Grants SessionAuthz SecurityLabels.

(** ** Subjects and resources *)

(** [CredentialKind], [AuthCredential] ([ports/auth.ts]) *)
Inductive CredentialKind := Sso | PersonalAccessToken | ExternalAccessToken | ServiceAccount | Development.

#[export] Instance CredentialKind_eq_dec : EqDecision CredentialKind.
Proof. solve_decision. Defined.

Record OAuthCredentialBinding := {
  oauth_clientId : string; oauth_resource : string; oauth_scopes : list string;
}.

Record AuthCredential := {
  cred_kind : CredentialKind;
  cred_id : option string;
  cred_expiresAt : option Timestamp;
  cred_grant : option TokenGrant;
  cred_oauth : option OAuthCredentialBinding;
  cred_mcpResource : option string;
  cred_subjectContextRef : option string;
}.

(** [AuthorizationSubject]: a bare subject has no credential. *)
Record AuthorizationSubject := {
  subject : IdentitySubject;
  credential : option AuthCredential;
}.

(** [AuthorizationPolicy] *)
Record AuthorizationPolicy := {
  pol_authz : AuthzPolicy;
  pol_viewerMode : option ViewerMode;
  pol_editorSandboxSharing : option EditorSandboxSharing;
}.

(** [AuthorizationResource]; the option is the notebook label override. *)
Inductive AuthorizationResource :=
| RDeployment (appOnly : option bool)
| RProject (project : Project) (notebookLabels : option ResourceSecurityLabels)
| RSession (project : Project) (session : SessionAdmissionRecord)
    (notebookLabels : option ResourceSecurityLabels)
| RSessionStart (project : Project) (mode : SessionMode)
    (notebookLabels : option ResourceSecurityLabels).

Definition resource_kind (r : AuthorizationResource) : ActionScope :=
  match r with
  | RDeployment _ => ScopeDeployment
  | RProject _ _ => ScopeProject
  | RSession _ _ _ => ScopeSession
  | RSessionStart _ _ _ => ScopeSessionStart
  end.

Inductive AuthorizationDenialCategory :=
| CatLifecycle | CatVisibility | CatRole | CatSession | CatStanding | CatConstraint
| CatCredentialResource | CatCredentialAction.

#[export] Instance AuthorizationDenialCategory_eq_dec : EqDecision AuthorizationDenialCategory.
Proof. solve_decision. Defined.

(** [AuthorizationDecision] *)
Inductive AuthorizationDecision :=
| Allowed (role : option Role) (subjectContextExpiresAt : option Timestamp)
| Denied (category : AuthorizationDenialCategory) (role : option Role)
    (constraintReason : option ConstraintDenialReason).

Definition allowed (d : AuthorizationDecision) : bool :=
  match d with Allowed _ _ => true | Denied _ _ _ => false end.

Definition decision_role (d : AuthorizationDecision) : option Role :=
  match d with Allowed r _ => r | Denied _ r _ => r end.

(** [AuthorizationTraceStep], without its diagnostic [details]. *)
Inductive TraceStage :=
| StAction | StLifecycle | StRole | StStanding | StSession | StConstraint | StCredential | StFinal.
Inductive TraceStatus := Passed | FailedStep | Skipped.
Record TraceStep := { stage : TraceStage; status : TraceStatus; code : string }.

Definition verdict (b : bool) : TraceStatus := if b then Passed else FailedStep.

(** The error [decideBaseline] throws on a resource of the wrong scope. *)
Inductive ScopeMismatch := Mismatch (action : AuthorizationAction) (kind : ActionScope).

(** ** Ports *)

(** A promise from an adapter: when it settles (never, if [None]) and with what. *)
Record AsyncCall (A : Type) := { settles_at : option Z; outcome : result unit A }.
Arguments settles_at {A} _.
Arguments outcome {A} _.

(** [timerDelayError] *)
Definition MAX_TIMER_DELAY_MS : Z := 2147483647.
Definition timerDelayError (timeoutMs : Z) : bool :=
  ((timeoutMs <? 0) || (MAX_TIMER_DELAY_MS <? timeoutMs))%Z.

Inductive DeadlineError := DeadlineInvalid | DeadlineTimeout | WorkFailed.

(** [withDeadline] without an external signal. *)
Definition withDeadline {A} (work : AsyncCall A) (timeoutMs : Z) : result DeadlineError A :=
  if timerDelayError timeoutMs then Err DeadlineInvalid
  else match settles_at work with
       | Some t => if (t <? timeoutMs)%Z
                   then match outcome work with Ok a => Ok a | Err _ => Err WorkFailed end
                   else Err DeadlineTimeout
       | None => Err DeadlineTimeout
       end.

(** [ResourceConstraintPolicy] as the service sees it: untrusted results. *)
Record ConstraintAdapter := {
  evaluate : SubjectSecurityContext -> AuthorizationAction -> option ResourceSecurityLabels ->
             AsyncCall jsval;
  evaluateMany : SubjectSecurityContext -> AuthorizationAction ->
             list (option ResourceSecurityLabels) -> AsyncCall (list jsval);
}.

(** [ResourceSecurityPolicy] *)
Record ResourceSecurityPolicy := {
  constraints : ConstraintAdapter;
  subjectContext : option (AuthorizationSubject -> AsyncCall jsval);
  timeoutMs : option Z;
}.

Definition DEFAULT_RESOURCE_SECURITY_TIMEOUT_MS : Z := 5000.

(** [SECURITY_EVENTS] *)
Inductive SecurityEvent :=
| EvContextTimeout | EvContextFailed | EvContextInvalid | EvConstraintUnwired
| EvConstraintTimeout | EvConstraintFailed | EvConstraintMiscount | EvConstraintInvalid.

(** A value and the events emitted on the way to it. *)
Definition emits (A : Type) : Type := A * list SecurityEvent.

(** ** Shape validation of adapter results *)

Definition evidence_keys : list string :=
  ["heldClassification"; "requiredClassification"; "classificationSatisfied"; "missingCompartments"]%string.

Definition parseConstraintEvidence (value : jsval) : option ConstraintEvidence :=
  if negb (is_object value) then None
  else if existsb (fun k => negb (includes k evidence_keys)) (js_keys value) then None
  else
    held ← (match js_get value "heldClassification" with
            | JNull => Some None
            | v => Some <$> token_string v
            end);
    required ← token_string (js_get value "requiredClassification");
    match js_get value "classificationSatisfied" with
    | JBool ok =>
        missing ← token_array MAX_SECURITY_COMPARTMENTS (js_get value "missingCompartments");
        Some {| heldClassification := held; requiredClassification := required;
                classificationSatisfied := ok; missingCompartments := missing |}
    | _ => None
    end.

Definition is_undefined (v : jsval) : bool := match v with JUndefined => true | _ => false end.

(** [CONSTRAINT_DENIAL_REASONS] *)
Definition denial_reason (v : jsval) : option ConstraintDenialReason :=
  match v with
  | JStr s =>
      if (s === "missing-context"%string) then Some MissingContext
      else if (s === "constraint"%string) then Some ConstraintUnmet
      else if (s === "unavailable"%string) then Some Unavailable else None
  | _ => None
  end.

(** [parseConstraintDecision]: the decision and the [invalidEvidence] flag. *)
Definition parseConstraintDecision (value : jsval) : option (ConstraintDecision * bool) :=
  if negb (is_object value) then None
  else
    let evidence := parseConstraintEvidence (js_get value "evidence") in
    let present := negb (is_undefined (js_get value "evidence")) in
    match js_get value "satisfied" with
    | JBool true =>
        let valid := match evidence with
                     | Some e => if classificationSatisfied e && (length (missingCompartments e) =? 0)
                                 then Some e else None
                     | None => None
                     end in
        Some (Satisfied valid, present && negb (match valid with Some _ => true | None => false end))
    | JBool false =>
        match denial_reason (js_get value "reason") with
        | None => None
        | Some reason =>
            let valid := match reason, evidence with
                         | ConstraintUnmet, Some e =>
                             if negb (classificationSatisfied e) || (0 <? length (missingCompartments e))
                             then Some e else None
                         | _, _ => None
                         end in
            Some (Unsatisfied reason valid,
                  present && negb (match valid with Some _ => true | None => false end))
        end
    | _ => None
    end.

(** ** The service *)
Section Service.
(** [constructor(policy, security)], and the clock [new Date()] reads. *)
Context (policy : option AuthorizationPolicy) (security : option ResourceSecurityPolicy).
Context (now : option Z).

Definition authz_policy : option AuthzPolicy := pol_authz <$> policy.
Definition viewerMode : option ViewerMode := policy ≫= pol_viewerMode.
Definition policy_superAdmins : option (list string) := superAdmins (authz_policy ?? no_policy).

Definition is_service_account (s : AuthorizationSubject) : bool :=
  match credential s with Some c => cred_kind c === ServiceAccount | None => false end.

Definition subject_grant (s : AuthorizationSubject) : option TokenGrant := credential s ≫= cred_grant.

Definition credentialAllowsAction (s : AuthorizationSubject) (action : AuthorizationAction) : bool :=
  if is_service_account s then serviceAccountGrantAllowsAction (subject_grant s) action
  else tokenGrantAllowsAction (subject_grant s) action.

Definition resource_project (r : AuthorizationResource) : option Project :=
  match r with
  | RDeployment _ => None
  | RProject p _ | RSession p _ _ | RSessionStart p _ _ => Some p
  end.

Definition decideCredential (s : AuthorizationSubject) (action : AuthorizationAction)
    (resource : AuthorizationResource) (role : option Role) : AuthorizationDecision :=
  if is_service_account s && negb (credentialAllowsAction s action)
  then Denied CatCredentialAction role None
  else match subject_grant s with
  | None => Allowed role None
  | Some grant =>
      let outside :=
        match resource_project resource with
        | None => negb (projects grant === All)
        | Some p => negb (tokenGrantAllowsProject (Some grant) (p_id p))
        end in
      if outside then Denied CatCredentialResource role None
      else if tokenGrantAllowsAction (Some grant) action then Allowed role None
      else Denied CatCredentialAction role None
  end.

(** [credentialDecision]: the public form, without a role. *)
Definition credentialDecision (s : AuthorizationSubject) (action : AuthorizationAction)
    (resource : AuthorizationResource) : result ScopeMismatch AuthorizationDecision :=
  if negb (rule_scope action === resource_kind resource)
  then Err (Mismatch action (resource_kind resource))
  else Ok (decideCredential s action resource None).

Definition decideDeployment (s : IdentitySubject) (action : DeploymentAction)
    (appOnly : option bool) : AuthorizationDecision :=
  let ok :=
    match action with
    | SupportRequest => true
    | ProjectCreate =>
        let p := authz_policy ?? no_policy in
        canCreateProject s (Some {|
          defaultRole := defaultRole p; superAdmins := superAdmins p;
          projectCreationRestricted :=
            projectCreationRestricted p || negb (appOnly === Some false) |})
    | DirectorySearch =>
        roleAtLeast (role_of <$> subjectDefaultRole s authz_policy) Viewer
        || isSuperAdmin s policy_superAdmins
    | AdminAccess | OrgIntegrationManage | AuditGlobalRead => isSuperAdmin s policy_superAdmins
    end in
  if ok then Allowed None None else Denied CatStanding None None.

Definition sessionActor (s : IdentitySubject) (role : option Role) : SessionActor :=
  {| a_userId := s_id s; a_role := role; a_viewerMode := viewerMode;
     a_editorSandboxSharing := policy ≫= pol_editorSandboxSharing |}.

(** [SESSION_ACTION_FOR] *)
Definition SESSION_ACTION_FOR (a : SessionScopedAction) : SessionAction :=
  match a with
  | SessionAttach => ActAttach | SessionStop => ActStop
  | SessionSurface => ActSurface | SessionProxy => ActAttach
  end.

Record Baseline := {
  b_decision : AuthorizationDecision;
  b_labelSets : list ResourceSecurityLabels;
  b_trace : list TraceStep;
}.

Definition step (st : TraceStage) (ok : TraceStatus) (c : string) : TraceStep :=
  {| stage := st; status := ok; code := c |}.

Definition source_name (src : EffectiveRoleSource) : string :=
  match src with
  | SrcStaticSuperAdmin => "static-super-admin"
  | SrcEntitlementSuperAdmin => "entitlement-super-admin"
  | SrcOwner => "owner" | SrcMemberId => "member-id" | SrcMemberEmail => "member-email"
  | SrcMemberGroup => "member-group" | SrcEntitlementDefault => "entitlement-default"
  | SrcDeploymentDefault => "deployment-default" | SrcProjectDefault => "project-default"
  | SrcNone => "none"
  end%string.

(** The project row of the baseline: standing first, then the role tier. *)
Definition decideProjectRule (s : IdentitySubject) (role : option Role) (action : ProjectAction) :
    AuthorizationDecision * list TraceStep :=
  let rule := PROJECT_RULES action in
  if requiresSuperAdmin rule && negb (isSuperAdmin s policy_superAdmins)
  then (Denied CatStanding role None, [step StStanding FailedStep "super_admin_standing_missing"])
  else
    (if roleAtLeast role (rule_min rule) then Allowed role None
     else Denied (if deniedAs rule === AsNotFound then CatVisibility else CatRole) role None,
     if requiresSuperAdmin rule
     then [step StStanding Passed "super_admin_standing_satisfied"] else []).

Definition session_result (ok : bool) (role : option Role) (yes no : string) :
    AuthorizationDecision * list TraceStep :=
  (if ok then Allowed role None else Denied CatSession role None,
   [step StSession (verdict ok) (if ok then yes else no)]).

(** The [switch] on the resource kind; the action has the matching scope. *)
Definition decideScoped (s : IdentitySubject) (role : option Role) (action : AuthorizationAction)
    (resource : AuthorizationResource) : AuthorizationDecision * list TraceStep :=
  match resource, action with
  | RProject _ _, AProject a => decideProjectRule s role a
  | RSession _ session _, ASession a =>
      session_result (sessionCan (SESSION_ACTION_FOR a) (sessionActor s role) session) role
        "session_rule_satisfied" "session_rule_denied"
  | RSessionStart _ mode _, ASessionStart =>
      session_result (canStartSessionMode role viewerMode mode) role
        "session_start_satisfied" "session_start_denied"
  | _, _ => (Denied CatRole role None, [])
  end.

Definition resource_labels (r : AuthorizationResource) : list ResourceSecurityLabels :=
  match r with
  | RDeployment _ => []
  | RProject p nl | RSession p _ nl | RSessionStart p _ nl => omap id [p_security_labels p; nl]
  end.

(** [decideBaseline] *)
Definition decideBaseline (s : AuthorizationSubject) (action : AuthorizationAction)
    (resource : AuthorizationResource) : result ScopeMismatch Baseline :=
  if negb (resource_kind resource === rule_scope action)
  then Err (Mismatch action (resource_kind resource))
  else
    let loaded := step StAction Passed "action_rule_loaded" in
    if is_service_account s then
      match resource with
      | RDeployment _ =>
          Ok {| b_decision := decideCredential s action resource None; b_labelSets := [];
                b_trace := [loaded] |}
      | _ =>
          Ok {| b_decision := Denied CatCredentialResource None None; b_labelSets := [];
                b_trace := [loaded;
                  step StCredential FailedStep "service_account_requires_deployment_resource"] |}
      end
    else match resource_project resource, resource, action with
    | None, RDeployment appOnly, ADeployment a =>
        let d := decideDeployment (subject s) a appOnly in
        Ok {| b_decision := d; b_labelSets := [];
              b_trace := [loaded; step StStanding (verdict (allowed d))
                (if allowed d then "deployment_standing_satisfied" else "deployment_standing_missing")] |}
    | Some p, _, _ =>
        if p_status p === ProjectDeleted then
          Ok {| b_decision := Denied CatLifecycle None None; b_labelSets := [];
                b_trace := [loaded; step StLifecycle FailedStep "project_deleted"] |}
        else
          let '(role, src) := resolveEffectiveRole p (subject s) authz_policy in
          let '(d, tr) := decideScoped (subject s) role action resource in
          Ok {| b_decision := d; b_labelSets := resource_labels resource;
                b_trace := [loaded; step StLifecycle Passed "project_active";
                            step StRole (verdict (negb (role === None)))
                              (String.append "effective_role_" (source_name src))] ++ tr |}
    | None, _, _ => Err (Mismatch action (resource_kind resource))
    end.

(** *** Constraints *)

Definition withSecurityDeadline {A} (sec : ResourceSecurityPolicy) (work : AsyncCall A) :
    result DeadlineError A :=
  withDeadline work (timeoutMs sec ?? DEFAULT_RESOURCE_SECURITY_TIMEOUT_MS).

Definition is_timeout (e : DeadlineError) : bool :=
  match e with DeadlineTimeout => true | _ => false end.

Definition resolveSubjectContext (s : AuthorizationSubject) : emits (option SubjectSecurityContext) :=
  match security with
  | None => (None, [])
  | Some sec =>
      match subjectContext sec, credential s with
      | Some resolve, Some _ =>
          match withSecurityDeadline sec (resolve s) with
          | Ok JNull => (None, [])
          | Ok context =>
              match validateSubjectSecurityContext context now with
              | None => (None, [EvContextInvalid])
              | Some c => (Some c, [])
              end
          | Err e => (None, [if is_timeout e then EvContextTimeout else EvContextFailed])
          end
      | _, _ => (None, [])
      end
  end.

(** [emitConstraintFailure] *)
Definition constraint_failure (e : DeadlineError) : SecurityEvent :=
  if is_timeout e then EvConstraintTimeout else EvConstraintFailed.

Definition unavailable_decision : ConstraintDecision := Unsatisfied Unavailable None.

Definition parsed_or_unavailable (v : jsval) : ConstraintDecision :=
  match parseConstraintDecision v with Some (d, _) => d | None => unavailable_decision end.

Definition parse_invalid (v : jsval) : bool :=
  match parseConstraintDecision v with Some (_, invalid) => invalid | None => true end.

(** [constraintBatch]: one adapter round trip; the decisions and the context expiry,
    or the reason for which the whole batch is refused. *)
Definition constraintBatch (action : AuthorizationAction)
    (labelSets : list ResourceSecurityLabels)
    (getContext : emits (option SubjectSecurityContext)) :
    emits (result ConstraintDenialReason (list ConstraintDecision * Timestamp)) :=
  match security with
  | None => (Err Unavailable, [EvConstraintUnwired])
  | Some sec =>
      let '(context, ev) := getContext in
      match context with
      | None => (Err MissingContext, ev)
      | Some context =>
          let resources := map Some labelSets in
          let raw :=
            match resources with
            | [r] => match withSecurityDeadline sec (evaluate (constraints sec) context action r) with
                     | Ok v => Ok [v]
                     | Err e => Err e
                     end
            | _ => withSecurityDeadline sec (evaluateMany (constraints sec) context action resources)
            end in
          match raw with
          | Err e => (Err Unavailable, ev ++ [constraint_failure e])
          | Ok raw =>
              if negb (length raw =? length resources)
              then (Err Unavailable, ev ++ [EvConstraintMiscount])
              else (Ok (map parsed_or_unavailable raw, ctx_expiresAt context),
                    ev ++ if existsb parse_invalid raw then [EvConstraintInvalid] else [])
          end
      end
  end.

Definition decision_evidence (d : ConstraintDecision) : option ConstraintEvidence :=
  match d with Satisfied e => e | Unsatisfied _ e => e end.

(** The indexed evidence of a batch. *)
Definition indexed_evidence (ds : list ConstraintDecision) : list (nat * ConstraintEvidence) :=
  omap (fun '(i, d) => pair i <$> decision_evidence d) (imap pair ds).

(** [evaluateLabelSets] *)
Inductive LabelSetsOutcome :=
| LabelsSatisfied (contextExpiresAt : Timestamp) (evidence : list (nat * ConstraintEvidence))
| LabelsDenied (reason : ConstraintDenialReason) (evidence : list (nat * ConstraintEvidence)).

Definition evaluateLabelSets (action : AuthorizationAction)
    (labelSets : list ResourceSecurityLabels)
    (getContext : emits (option SubjectSecurityContext)) : emits LabelSetsOutcome :=
  let '(batch, ev) := constraintBatch action labelSets getContext in
  (match batch with
   | Err reason => LabelsDenied reason []
   | Ok (decisions, expires) =>
       let evidence := indexed_evidence decisions in
       match List.find (fun d => negb (satisfied d)) decisions with
       | Some (Unsatisfied reason _) => LabelsDenied reason evidence
       | _ => LabelsSatisfied expires evidence
       end
   end, ev).

(** *** Decisions *)

Definition masked_baseline (c : AuthorizationDenialCategory) : bool :=
  (c === CatLifecycle) || (c === CatVisibility).

(** A credential outside its project grant takes precedence over a plain denial. *)
Definition credential_precedence (s : AuthorizationSubject) (action : AuthorizationAction)
    (resource : AuthorizationResource) (d : AuthorizationDecision) : AuthorizationDecision :=
  match d with
  | Denied c role _ =>
      if masked_baseline c then d
      else match decideCredential s action resource role with
           | Denied CatCredentialResource r x => Denied CatCredentialResource r x
           | _ => d
           end
  | Allowed _ _ => d
  end.

(** Attach the context expiry to an allowed credential decision. *)
Definition with_expiry (d : AuthorizationDecision) (expires : option Timestamp) :
    AuthorizationDecision :=
  match d with Allowed r _ => Allowed r expires | Denied _ _ _ => d end.

(** [authorize] *)
Definition authorize (s : AuthorizationSubject) (action : AuthorizationAction)
    (resource : AuthorizationResource) : result ScopeMismatch (emits AuthorizationDecision) :=
  match decideBaseline s action resource with
  | Err e => Err e
  | Ok b =>
      match b_decision b with
      | Denied _ _ _ => Ok (credential_precedence s action resource (b_decision b), [])
      | Allowed role _ =>
          if 0 <? length (b_labelSets b) then
            let '(constraint, ev) :=
              evaluateLabelSets action (b_labelSets b) (resolveSubjectContext s) in
            Ok (match constraint with
                | LabelsDenied reason _ => Denied CatConstraint role (Some reason)
                | LabelsSatisfied expires _ =>
                    with_expiry (decideCredential s action resource role) (Some expires)
                end, ev)
          else Ok (decideCredential s action resource role, [])
      end
  end.

Inductive Presentation := PAllowed | PForbidden | PNotFound.

(** How a decision presents at the transport edge. *)
Definition presentation (d : AuthorizationDecision) : Presentation :=
  match d with
  | Allowed _ _ => PAllowed
  | Denied (CatLifecycle | CatVisibility | CatConstraint | CatCredentialResource) _ _ => PNotFound
  | Denied _ _ _ => PForbidden
  end.

Definition category_name (c : AuthorizationDenialCategory) : string :=
  match c with
  | CatLifecycle => "lifecycle" | CatVisibility => "visibility" | CatRole => "role"
  | CatSession => "session" | CatStanding => "standing" | CatConstraint => "constraint"
  | CatCredentialResource => "credential-resource" | CatCredentialAction => "credential-action"
  end%string.

Definition reason_name (r : ConstraintDenialReason) : string :=
  match r with
  | MissingContext => "missing-context" | ConstraintUnmet => "constraint"
  | Unavailable => "unavailable"
  end%string.

(** [AuthorizationAnalysisContext] *)
Inductive AnalysisContext := Live | Synthetic (value : option SubjectSecurityContext).

(** The constraint stage of [analyze]: the decision after it and its trace step. *)
Definition analyze_constraint (s : AuthorizationSubject) (action : AuthorizationAction)
    (context : AnalysisContext) (b : Baseline) (current : AuthorizationDecision) :
    emits (AuthorizationDecision * TraceStep) :=
  match b_decision b with
  | Denied _ _ _ => (current, step StConstraint Skipped "baseline_denied", [])
  | Allowed role _ =>
      if 0 <? length (b_labelSets b) then
        let '(constraint, ev) :=
          evaluateLabelSets action (b_labelSets b)
            (match context with Synthetic v => (v, []) | Live => resolveSubjectContext s end) in
        (match constraint with
         | LabelsSatisfied expires _ =>
             (Allowed role (Some expires), step StConstraint Passed "resource_constraints_satisfied")
         | LabelsDenied reason _ =>
             (Denied CatConstraint role (Some reason),
              step StConstraint FailedStep
                (String.append "resource_constraints_" (reason_name reason)))
         end, ev)
      else (current, step StConstraint Skipped "resource_unlabeled", [])
  end.

(** [analyze] *)
Definition analyze (s : AuthorizationSubject) (action : AuthorizationAction)
    (resource : AuthorizationResource) (context : AnalysisContext) :
    result ScopeMismatch (emits (AuthorizationDecision * Presentation * list TraceStep)) :=
  match decideBaseline s action resource with
  | Err e => Err e
  | Ok b =>
      let first := credential_precedence s action resource (b_decision b) in
      let precedence :=
        match b_decision b with
        | Allowed _ _ => false
        | Denied c role _ =>
            negb (masked_baseline c)
            && match decideCredential s action resource role with
               | Denied CatCredentialResource _ _ => true
               | _ => false
               end
        end in
      let '(second, constraint_step, ev) := analyze_constraint s action context b first in
      let '(decision, credential_step) :=
        match second with
        | Allowed role expires =>
            let d := with_expiry (decideCredential s action resource role) expires in
            (d, match d with
                | Allowed _ _ => step StCredential Passed "credential_grant_satisfied"
                | Denied c _ _ =>
                    step StCredential FailedStep (String.append "credential_grant_" (category_name c))
                end)
        | Denied _ _ _ =>
            (second, if precedence
                     then step StCredential FailedStep "credential_grant_credential-resource"
                     else step StCredential Skipped "prior_stage_denied")
        end in
      let final :=
        match decision with
        | Allowed _ _ => step StFinal Passed "authorization_allowed"
        | Denied c _ _ =>
            step StFinal FailedStep (String.append "authorization_denied_" (category_name c))
        end in
      Ok (decision, presentation decision,
          b_trace b ++ [constraint_step; credential_step; final], ev)
  end.

(** *** The batch form *)

Definition is_labeled (b : Baseline) : bool :=
  allowed (b_decision b) && (0 <? length (b_labelSets b)).

Fixpoint map_result {E A B} (f : A -> result E B) (l : list A) : result E (list B) :=
  match l with
  | [] => Ok []
  | x :: l' =>
      match f x with
      | Err e => Err e
      | Ok y => match map_result f l' with Err e => Err e | Ok ys => Ok (y :: ys) end
      end
  end.

(** The correlation loop of [authorizeMany]: [out[i]] is element [i] of [out]. *)
Fixpoint apply_batch
    (batch : result ConstraintDenialReason (list ConstraintDecision * Timestamp))
    (cursor : nat) (baselines : list Baseline) (out : list AuthorizationDecision) :
    list AuthorizationDecision :=
  match baselines, out with
  | b :: bs, d :: ds =>
      if is_labeled b then
        let role := decision_role (b_decision b) in
        match batch with
        | Err reason => Denied CatConstraint role (Some reason) :: apply_batch batch cursor bs ds
        | Ok (decisions, expires) =>
            let n := length (b_labelSets b) in
            let slice := take n (drop cursor decisions) in
            (match List.find (fun x => negb (satisfied x)) slice with
             | Some (Unsatisfied reason _) => Denied CatConstraint role (Some reason)
             | _ => Allowed role (Some expires)
             end) :: apply_batch batch (cursor + n) bs ds
        end
      else d :: apply_batch batch cursor bs ds
  | _, _ => []
  end.

(** The last loop: an allowed entry still has to satisfy the credential grant. *)
Definition credential_pass (s : AuthorizationSubject) (action : AuthorizationAction)
    (resource : AuthorizationResource) (d : AuthorizationDecision) : AuthorizationDecision :=
  match d with
  | Allowed role expires => with_expiry (decideCredential s action resource role) expires
  | Denied _ _ _ => d
  end.

(** [authorizeMany] *)
Definition authorizeMany (s : AuthorizationSubject) (action : AuthorizationAction)
    (resources : list AuthorizationResource) :
    result ScopeMismatch (emits (list AuthorizationDecision)) :=
  match map_result (decideBaseline s action) resources with
  | Err e => Err e
  | Ok baselines =>
      let labeled := List.filter is_labeled baselines in
      let out := zip_with (credential_precedence s action) resources (map b_decision baselines) in
      let '(out, ev) :=
        if 0 <? length labeled then
          let '(batch, ev) :=
            constraintBatch action (flat_map b_labelSets labeled) (resolveSubjectContext s) in
          (apply_batch batch 0 baselines out, ev)
        else (out, []) in
      Ok (zip_with (credential_pass s action) resources out, ev)
  end.

(** *** List projections *)

(** [projectLabelConstraints] *)
Definition projectLabelConstraints (s : AuthorizationSubject)
    (labelStates : list (option ResourceSecurityLabels)) (action : ProjectAction) :
    emits (list bool) :=
  let unlabeled := map (fun l => match l with None => true | Some _ => false end) labelStates in
  if forallb id unlabeled then (map (fun _ => true) labelStates, [])
  else match security with
  | None => (unlabeled, [EvConstraintUnwired])
  | Some sec =>
      let '(context, ev) := resolveSubjectContext s in
      match context with
      | None => (unlabeled, ev)
      | Some context =>
          match withSecurityDeadline sec
                  (evaluateMany (constraints sec) context (AProject action) labelStates) with
          | Err e => (unlabeled, ev ++ [constraint_failure e])
          | Ok decisions =>
              if negb (length decisions =? length labelStates)
              then (unlabeled, ev ++ [EvConstraintMiscount])
              else
                (zip_with (fun u v => u || match parseConstraintDecision v with
                                           | Some (d, _) => satisfied d | None => false end)
                   unlabeled decisions,
                 ev ++ if existsb (fun v => match parseConstraintDecision v with
                                            | Some (_, invalid) => invalid | None => false end)
                          decisions
                       then [EvConstraintInvalid] else [])
          end
      end
  end.

(** [role], [appReadAction], [isSuperAdmin] of the service. *)
Definition service_role (s : AuthorizationSubject) (p : Project) : option Role :=
  (resolveEffectiveRole p (subject s) authz_policy).1.

Definition appReadAction (s : AuthorizationSubject) (p : Project) : ProjectAction :=
  if (service_role s p === Some AppUser)
     || (match subject_grant s with
         | Some g => tokenGrantAllowsAction (Some g) (AProject AppRead) | None => false end)
  then AppRead else ProjectRead.
End Service.

(** ** [labelFilter.ts] *)
Section LabelFilter.
Context (policy : option AuthorizationPolicy) (security : option ResourceSecurityPolicy).
Context (now : option Z).
Context {T : Type}.

(** [security_labels] of a catalog entry: labels, known unlabelled, or indeterminate. *)
Inductive LabelState := LSLabels (l : ResourceSecurityLabels) | LSUnlabeled | LSIndeterminate.

Context (label_state : T -> LabelState).
(** [resolveLabels]: the authoritative record, or a failed read. *)
Context (resolveLabels : T -> result unit (option ResourceSecurityLabels)).

Definition entry_state (e : T) : option (option ResourceSecurityLabels) :=
  match label_state e with
  | LSLabels l => Some (Some l)
  | LSUnlabeled => Some None
  | LSIndeterminate => match resolveLabels e with Ok l => Some l | Err _ => None end
  end.

(** The entries whose flag is set, in order. *)
Fixpoint select (es : list T) (keep : list bool) : list T :=
  match es, keep with
  | e :: es', k :: ks => if k then e :: select es' ks else select es' ks
  | _, _ => []
  end.

Definition filterByLabelConstraints (s : AuthorizationSubject) (entries : list T)
    (action : ProjectAction) : emits (list T) :=
  if forallb (fun e => match label_state e with LSUnlabeled => true | _ => false end) entries
  then (entries, [])
  else
    let readable := List.filter (fun e => match entry_state e with Some _ => true | None => false end) entries in
    let labelStates := omap entry_state entries in
    let '(keep, ev) := projectLabelConstraints security now s labelStates action in
    (select readable keep, ev).
End LabelFilter.
