(* ===== verification/AuthorizationTheorems.v ===== *)
(** * Properties of the authorization service

    The composition is deny-only and fails closed against arbitrary adapters; the
    batch form and the explained form agree with [authorize]; deleted projects,
    service accounts and masked denials behave as documented; and the built-in policy
    meets the contract the batch form relies on. *)

From Stdlib Require Import ZArith Lia.
From S2P Require Import Prelude Constants Schema Identity Lifecycle Grants SessionAuthz SecurityLabels Authorization.

Definition result_map {E A B} (f : A -> B) (r : result E A) : result E B :=
  match r with Ok a => Ok (f a) | Err e => Err e end.

(** ** The adapter contract *)

(** What the port documents: one decision per input, in input order, and the single
    form agreeing with the batch form; both answer within the deadline. *)
Class LawfulAdapter (sec : ResourceSecurityPolicy)
    (decide : SubjectSecurityContext -> AuthorizationAction -> option ResourceSecurityLabels -> jsval) := {
  lawful_one c a l :
    withSecurityDeadline sec (evaluate (constraints sec) c a l) = Ok (decide c a l);
  lawful_many c a ls :
    withSecurityDeadline sec (evaluateMany (constraints sec) c a ls) = Ok (map (decide c a) ls);
}.

(** ** Basic facts *)
Module Facts.
Section Facts.
Context (policy : option AuthorizationPolicy) (security : option ResourceSecurityPolicy).
Context (now : option Z).

Lemma decideCredential_no_expiry s a r role x e :
  decideCredential s a r role = Allowed x e -> x = role /\ e = None.
Proof. unfold decideCredential. intros H. repeat case_match; simplify_eq; done. Qed.

Lemma decideScoped_no_expiry s role a r x e :
  fst (decideScoped policy s role a r) = Allowed x e -> x = role /\ e = None.
Proof.
  unfold decideScoped, decideProjectRule, session_result. intros H.
  repeat case_match; simplify_eq/=; done.
Qed.

Lemma decideBaseline_no_expiry s a r b x e :
  decideBaseline policy s a r = Ok b -> b_decision b = Allowed x e -> e = None.
Proof.
  unfold decideBaseline. intros H Hd. repeat case_match; simplify_eq/=; try done.
  all: try (unfold decideDeployment in Hd; repeat case_match; simplify_eq; done).
  all: try by apply decideCredential_no_expiry in Hd as [-> ->].
  all: match goal with E : decideScoped _ _ _ _ _ = _ |- _ =>
         eapply (f_equal fst), decideScoped_no_expiry in E; naive_solver end.
Qed.

Lemma with_expiry_id s a r role :
  with_expiry (decideCredential s a r role) None = decideCredential s a r role.
Proof.
  destruct (decideCredential s a r role) as [x e|] eqn:E; [|done].
  by apply decideCredential_no_expiry in E as [-> ->].
Qed.

Lemma credential_precedence_denied s a r c role x :
  exists c' role' x', credential_precedence s a r (Denied c role x) = Denied c' role' x'.
Proof. simpl. repeat case_match; eauto. Qed.

Lemma find_unsatisfied_none (ds : list ConstraintDecision) :
  List.find (fun d => negb (satisfied d)) ds = None <-> forallb satisfied ds = true.
Proof.
  rewrite find_none_elem, forallb_elem. by setoid_rewrite negb_false_iff.
Qed.

Lemma find_unsatisfied_some (ds : list ConstraintDecision) d :
  List.find (fun d => negb (satisfied d)) ds = Some d -> exists r e, d = Unsatisfied r e.
Proof. intros [_ H]%find_some_elem. destruct d; [done|eauto]. Qed.
End Facts.
End Facts.
Import Facts.

(** ** Soundness against arbitrary adapters *)
Module Soundness.
Section Soundness.
Context (policy : option AuthorizationPolicy) (security : option ResourceSecurityPolicy).
Context (now : option Z).

(** The port kept its promise before the deadline, with this value. *)
Definition in_time {A} (sec : ResourceSecurityPolicy) (work : AsyncCall A) (x : A) : Prop :=
  exists t, settles_at work = Some t /\ (t < timeoutMs sec ?? DEFAULT_RESOURCE_SECURITY_TIMEOUT_MS)%Z /\
    outcome work = Ok x.

(** The raw verdicts the adapter gave for these label sets: one set is asked on its own. *)
Inductive verdicts (sec : ResourceSecurityPolicy) (ctx : SubjectSecurityContext) (a : AuthorizationAction) :
    list ResourceSecurityLabels -> list jsval -> Prop :=
| verdict_one l v : in_time sec (evaluate (constraints sec) ctx a (Some l)) v -> verdicts sec ctx a [l] [v]
| verdict_many ls raw : length ls <> 1 -> in_time sec (evaluateMany (constraints sec) ctx a (map Some ls)) raw ->
    verdicts sec ctx a ls raw.

(** What a satisfied constraint pass has checked: wired adapters, a context the provider
    gave in time and the validation accepted, and the adapter's own answer in time for
    exactly these label sets, one result for each, with every [satisfied] field [true]. *)
Definition constraints_met (s : AuthorizationSubject) (a : AuthorizationAction)
    (ls : list ResourceSecurityLabels) (expires : Timestamp) : Prop :=
  exists sec resolve given ctx raw,
    security = Some sec /\
    subjectContext sec = Some resolve /\ credential s <> None /\ in_time sec (resolve s) given /\
    validateSubjectSecurityContext given now = Some ctx /\ ctx_expiresAt ctx = expires /\
    verdicts sec ctx a ls raw /\ length raw = length ls /\
    (forall v, v ∈ raw -> is_object v = true /\ js_get v "satisfied" = JBool true).

Lemma deadline_in_time {A} sec (work : AsyncCall A) x : withSecurityDeadline sec work = Ok x -> in_time sec work x.
Proof.
  unfold withSecurityDeadline, withDeadline, in_time. destruct (timerDelayError _); [done|].
  destruct (settles_at work) as [t|]; [|done]. destruct (Z.ltb_spec t (timeoutMs sec ?? DEFAULT_RESOURCE_SECURITY_TIMEOUT_MS)); [|done].
  destruct (outcome work); [|done]. intros [= ->]. by exists t.
Qed.

Lemma resolved_context s sec ctx :
  security = Some sec -> fst (resolveSubjectContext security now s) = Some ctx ->
  exists resolve given, subjectContext sec = Some resolve /\ credential s <> None /\ in_time sec (resolve s) given /\
    validateSubjectSecurityContext given now = Some ctx.
Proof.
  unfold resolveSubjectContext. intros ->. destruct (subjectContext sec) as [resolve|]; [|done].
  destruct (credential s); [|done]. destruct (withSecurityDeadline sec (resolve s)) as [given|] eqn:Hg; [|done].
  intros Hc. exists resolve, given. split; [done|]. split; [done|]. split; [by apply deadline_in_time|].
  destruct given; simpl in *; by destruct (validateSubjectSecurityContext _ now).
Qed.

Lemma adapter_verdicts sec ctx a ls raw :
  match map Some ls with
  | [r] => match withSecurityDeadline sec (evaluate (constraints sec) ctx a r) with Ok v => Ok [v] | Err e => Err e end
  | _ => withSecurityDeadline sec (evaluateMany (constraints sec) ctx a (map Some ls))
  end = Ok raw -> verdicts sec ctx a ls raw.
Proof.
  destruct ls as [|l [|l' ls]]; simpl.
  - intros H. apply verdict_many; [done|]. by apply deadline_in_time.
  - destruct (withSecurityDeadline _ _) eqn:H; [|done]. intros [= <-]. apply verdict_one. by apply deadline_in_time.
  - intros H. apply verdict_many; [simpl; lia|]. by apply deadline_in_time.
Qed.

Lemma parsed_satisfied v :
  satisfied (parsed_or_unavailable v) = true ->
  is_object v = true /\ js_get v "satisfied" = JBool true.
Proof.
  unfold parsed_or_unavailable, parseConstraintDecision.
  destruct (is_object v) eqn:Ho; simpl; [|done]. split; [done|].
  repeat case_match; simplify_eq/=; done.
Qed.

Lemma constraintBatch_met s a ls ds expires ev :
  constraintBatch security a ls (resolveSubjectContext security now s) = (Ok (ds, expires), ev) ->
  forallb satisfied ds = true -> constraints_met s a ls expires.
Proof.
  unfold constraintBatch, constraints_met. destruct security as [sec|] eqn:Hsec; [|done]. rewrite <- Hsec.
  destruct (resolveSubjectContext security now s) as [[ctx|] ev'] eqn:Hc; [|done].
  destruct (resolved_context s sec ctx Hsec) as (resolve & given & ?); [by rewrite Hc|].
  set (raw := match map Some ls with [r] => _ | _ => _ end).
  destruct raw as [raw'|] eqn:Hraw; [|done].
  destruct (negb _) eqn:Hl; [done|]. apply negb_false_iff, Nat.eqb_eq in Hl.
  rewrite length_map in Hl. intros [= <- <- _] Hs.
  exists sec, resolve, given, ctx, raw'. split_and!; try tauto; [by apply adapter_verdicts|].
  intros v Hv. apply parsed_satisfied.
  apply (proj1 (forallb_elem _ _) Hs). apply list_elem_of_In, in_map, list_elem_of_In, Hv.
Qed.

Lemma evaluateLabelSets_met s a ls expires evd ev :
  evaluateLabelSets security a ls (resolveSubjectContext security now s)
    = (LabelsSatisfied expires evd, ev) ->
  constraints_met s a ls expires.
Proof.
  unfold evaluateLabelSets.
  destruct (constraintBatch _ _ _ _) as [[[ds exp]|] ev'] eqn:Hb; [|done].
  intros H. destruct (List.find _ ds) as [d|] eqn:Hf.
  - destruct (find_unsatisfied_some _ _ Hf) as (? & ? & ->). done.
  - injection H as -> _ _. eapply constraintBatch_met; [done|]. by apply find_unsatisfied_none.
Qed.

(** The baseline of a request: role, standing and session admission. *)
Definition baseline_allows (s : AuthorizationSubject) (a : AuthorizationAction)
    (r : AuthorizationResource) (role : option Role) (ls : list ResourceSecurityLabels) : Prop :=
  exists b, decideBaseline policy s a r = Ok b /\
    b_decision b = Allowed role None /\ b_labelSets b = ls.

(** The label sets a resource carries: its project's, and the notebook's override. *)
Definition governs (r : AuthorizationResource) (l : ResourceSecurityLabels) : Prop :=
  match r with
  | RDeployment _ => False
  | RProject p nl | RSession p _ nl | RSessionStart p _ nl => p_security_labels p = Some l \/ nl = Some l
  end.

Lemma baseline_governed s a r role ls l : baseline_allows s a r role ls -> governs r l -> l ∈ ls.
Proof.
  intros (b & Hb & Hd & <-) Hl. assert (Hin : l ∈ resource_labels r).
  { destruct r as [|p nl|p x nl|p x nl]; simpl in *; [done|..]; destruct (p_security_labels p), nl; destruct Hl; simplify_eq; set_solver. }
  unfold decideBaseline in Hb. destruct (negb _); [done|]. destruct (is_service_account s).
  - destruct r; simplify_eq/=; done.
  - destruct r as [|p nl|p x nl|p x nl]; [done|..]; cbn [resource_project] in Hb; (destruct (p_status p === ProjectDeleted); [by injection Hb as <-|]);
      destruct (resolveEffectiveRole _ _ _) as [x' src]; destruct (decideScoped _ _ _ _ _); injection Hb as <-; exact Hin.
Qed.

Lemma authorize_sound s a r role expires ev :
  authorize policy security now s a r = Ok (Allowed role expires, ev) ->
  exists ls, baseline_allows s a r role ls /\
    decideCredential s a r role = Allowed role None /\
    ((ls = [] /\ expires = None) \/
     (ls <> [] /\ exists e, expires = Some e /\ constraints_met s a ls e)).
Proof.
  unfold authorize. destruct (decideBaseline policy s a r) as [b|] eqn:Hb; [|done].
  destruct (b_decision b) as [role' e'|c role' x] eqn:Hd.
  - pose proof (decideBaseline_no_expiry _ _ _ _ _ _ _ Hb Hd) as ->.
    destruct (b_labelSets b) as [|l ls] eqn:Hl; simpl.
    + intros [= Hc _]. pose proof (decideCredential_no_expiry _ _ _ _ _ _ Hc) as [-> ->].
      exists []. split; [by exists b|]. split; [done|]. by left.
    + destruct (evaluateLabelSets _ _ _ _) as [[exp evd|reason evd] ev'] eqn:He; [|done].
      destruct (decideCredential s a r role') as [x e|] eqn:Hc; simpl; [|done].
      intros [= -> <- <-]. pose proof (decideCredential_no_expiry _ _ _ _ _ _ Hc) as [<- ->].
      exists (l :: ls). split; [by exists b|]. split; [done|]. right.
      split; [done|]. exists exp. split; [done|]. by eapply evaluateLabelSets_met.
  - destruct (credential_precedence_denied s a r c role' x) as (? & ? & ? & ->). done.
Qed.
End Soundness.

(** C4: access is the conjunction of three deny-only boundaries, whatever the
    adapters do.  If [authorize] allows, then the role, standing and session rules
    allow on their own, the credential grant allows on its own, and on a labelled
    resource the adapters are wired, the provider gave a valid unexpired context for the
    caller in time, and the adapter, asked for the label sets, those of the project and
    of the notebook among them, answered in time with one well-formed positive verdict for each; the decision then
    carries that context's expiry. *)
Theorem authorize_deny_only policy security now s a r role expires ev :
  authorize policy security now s a r = Ok (Allowed role expires, ev) ->
  exists ls, baseline_allows policy s a r role ls /\ (forall l, governs r l -> l ∈ ls) /\
    decideCredential s a r role = Allowed role None /\
    ((ls = [] /\ expires = None) \/
     (ls <> [] /\ exists e, expires = Some e /\ constraints_met security now s a ls e)).
Proof.
  intros (ls & Hb & ?)%authorize_sound. exists ls. split; [done|]. split; [|done]. intros l. by eapply baseline_governed.
Qed.
End Soundness.

(** ** The batch form *)
Module Batch.
Section Batch.
Context (policy : option AuthorizationPolicy) (security : option ResourceSecurityPolicy).
Context (now : option Z).
Context (decide : SubjectSecurityContext -> AuthorizationAction ->
                  option ResourceSecurityLabels -> jsval).
Context (Hlaw : forall sec, security = Some sec -> LawfulAdapter sec decide).

(** Under the contract a batch is pointwise: one answer per label set. *)
Definition pointwise (s : AuthorizationSubject) (a : AuthorizationAction) :
    result ConstraintDenialReason (ResourceSecurityLabels -> ConstraintDecision) * Timestamp :=
  match security, fst (resolveSubjectContext security now s) with
  | None, _ => (Err Unavailable, ""%string)
  | Some _, None => (Err MissingContext, ""%string)
  | Some _, Some c => (Ok (fun l => parsed_or_unavailable (decide c a (Some l))), ctx_expiresAt c)
  end.

Lemma constraintBatch_pointwise s a ls :
  ls <> [] ->
  fst (constraintBatch security a ls (resolveSubjectContext security now s))
  = match pointwise s a with
    | (Err reason, _) => Err reason
    | (Ok D, e) => Ok (map D ls, e)
    end.
Proof.
  intros Hne. unfold constraintBatch, pointwise. destruct security as [sec|]; [|done].
  pose proof (Hlaw sec eq_refl) as Hl.
  destruct (resolveSubjectContext (Some sec) now s) as [[ctx|] ev]; [|done]. simpl.
  destruct ls as [|l [|l2 ls]]; simpl; [done| |].
  - by rewrite lawful_one.
  - rewrite lawful_many. simpl. rewrite !length_map, Nat.eqb_refl. simpl.
    by rewrite !map_map.
Qed.

(** The decision the constraint stage reaches for one labelled baseline. *)
Definition constrained (s : AuthorizationSubject) (a : AuthorizationAction) (b : Baseline)
    (d : AuthorizationDecision) : AuthorizationDecision :=
  if is_labeled b then
    let role := decision_role (b_decision b) in
    match pointwise s a with
    | (Err reason, _) => Denied CatConstraint role (Some reason)
    | (Ok D, e) =>
        match List.find (fun x => negb (satisfied x)) (map D (b_labelSets b)) with
        | Some (Unsatisfied reason _) => Denied CatConstraint role (Some reason)
        | _ => Allowed role (Some e)
        end
    end
  else d.

Definition finish (s : AuthorizationSubject) (a : AuthorizationAction)
    (r : AuthorizationResource) (b : Baseline) : AuthorizationDecision :=
  credential_pass s a r (constrained s a b (credential_precedence s a r (b_decision b))).

Lemma authorize_finish s a r :
  result_map fst (authorize policy security now s a r)
  = result_map (finish s a r) (decideBaseline policy s a r).
Proof.
  unfold authorize, finish, constrained, is_labeled.
  destruct (decideBaseline policy s a r) as [b|] eqn:Hb; [|done]. cbn [result_map].
  destruct (b_decision b) as [role e|c role x] eqn:Hd; cbn [allowed andb].
  - pose proof (decideBaseline_no_expiry _ _ _ _ _ _ _ Hb Hd) as ->.
    destruct (0 <? length (b_labelSets b)) eqn:Hn; cbn [credential_precedence result_map fst].
    + unfold evaluateLabelSets.
      pose proof (constraintBatch_pointwise s a (b_labelSets b)) as Hp.
      destruct (constraintBatch _ _ _ _) as [batch ev]. simpl in Hp.
      rewrite Hp by (destruct (b_labelSets b); done). cbn [decision_role].
      destruct (pointwise s a) as [[D|reason] e]; simpl; [|done].
      destruct (List.find _ _) as [d|] eqn:Hf; simpl; [|done].
      destruct (find_unsatisfied_some _ _ Hf) as (? & ? & ->). done.
    + simpl. f_equal. symmetry. apply with_expiry_id.
  - simpl result_map. f_equal.
    destruct (credential_precedence_denied s a r c role x) as (? & ? & ? & E). by rewrite E.
Qed.

Lemma credential_pass_allowed s a r role e :
  (exists x y, credential_pass s a r (Allowed role e) = Allowed x y) <->
  decideCredential s a r role = Allowed role None.
Proof.
  simpl. destruct (decideCredential s a r role) as [x e'|] eqn:Hc; simpl; [|naive_solver].
  pose proof (decideCredential_no_expiry _ _ _ _ _ _ Hc) as [-> ->]. naive_solver.
Qed.

(** When the three stages together allow. *)
Lemma finish_allowed s a r b :
  decideBaseline policy s a r = Ok b ->
  (exists x y, finish s a r b = Allowed x y) <->
  exists role, b_decision b = Allowed role None /\ decideCredential s a r role = Allowed role None /\
    (b_labelSets b = [] \/
     exists D e, pointwise s a = (Ok D, e) /\ forallb satisfied (map D (b_labelSets b)) = true).
Proof.
  intros Hb. unfold finish, constrained, is_labeled.
  destruct (b_decision b) as [role e|c role x] eqn:Hd; cbn [allowed andb].
  2:{ destruct (credential_precedence_denied s a r c role x) as (? & ? & ? & ->). naive_solver. }
  pose proof (decideBaseline_no_expiry _ _ _ _ _ _ _ Hb Hd) as ->.
  destruct (b_labelSets b) as [|l ls] eqn:Hl; cbn [length Nat.ltb Nat.leb decision_role].
  { cbn [credential_precedence]. rewrite credential_pass_allowed. naive_solver. }
  destruct (pointwise s a) as [[D|reason] e]; [|naive_solver].
  destruct (List.find _ _) as [d|] eqn:Hf.
  - destruct (find_unsatisfied_some _ _ Hf) as (? & ? & ->). split; [naive_solver|].
    intros (? & _ & _ & [?|(? & ? & [= <- <-] & Hs)]); [done|].
    apply find_unsatisfied_none in Hs. congruence.
  - rewrite credential_pass_allowed. apply find_unsatisfied_none in Hf. naive_solver.
Qed.

Lemma authorize_allowed s a r :
  (exists x y ev, authorize policy security now s a r = Ok (Allowed x y, ev)) <->
  exists b role, decideBaseline policy s a r = Ok b /\
    b_decision b = Allowed role None /\ decideCredential s a r role = Allowed role None /\
    (b_labelSets b = [] \/
     exists D e, pointwise s a = (Ok D, e) /\ forallb satisfied (map D (b_labelSets b)) = true).
Proof.
  pose proof (authorize_finish s a r) as Hf.
  destruct (decideBaseline policy s a r) as [b|] eqn:Hb; simpl in Hf.
  - pose proof (finish_allowed s a r b Hb) as Hi.
    destruct (authorize policy security now s a r) as [[d ev]|]; simpl in Hf; [|done].
    injection Hf as ->. split.
    + intros (x & y & ev' & [= H _]). destruct (proj1 Hi) as (role & ?); [by exists x, y|].
      by exists b, role.
    + intros (b' & role & [= <-] & H). destruct (proj2 Hi) as (x & y & E); [by exists role|].
      exists x, y, ev. by rewrite E.
  - destruct (authorize policy security now s a r) as [[d ev]|]; [done|].
    split; [by intros (? & ? & ? & ?)|by intros (? & ? & ? & ?)].
Qed.

Lemma apply_batch_pointwise s a bs pre out :
  length out = length bs ->
  let ls := pre ++ flat_map b_labelSets (List.filter is_labeled bs) in
  apply_batch (match pointwise s a with
               | (Err reason, _) => Err reason
               | (Ok D, e) => Ok (map D ls, e)
               end) (length pre) bs out
  = zip_with (constrained s a) bs out.
Proof.
  revert pre out. induction bs as [|b bs IH]; intros pre [|d out] Hlen; try done.
  injection Hlen as Hlen. simpl. unfold constrained at 1.
  destruct (is_labeled b) eqn:Hb; simpl; [|f_equal; by apply IH].
  specialize (IH (pre ++ b_labelSets b) out Hlen). simpl in IH.
  rewrite <- app_assoc, length_app in IH.
  destruct (pointwise s a) as [[D|reason] e]; f_equal; try done.
  - rewrite !map_app, drop_app_length', take_app_length' by (rewrite length_map; done). done.
  - clear -Hlen IH. specialize (IH). revert IH. generalize (length pre + length (b_labelSets b)).
    assert (forall n m (bs : list Baseline) out,
      apply_batch (Err reason) n bs out = apply_batch (Err reason) m bs out) as Hi.
    { intros n m. induction bs0 as [|b' bs' IHb]; intros [|o os]; simpl; try done.
      destruct (is_labeled b'); f_equal; apply IHb. }
    intros n <-. apply Hi.
Qed.

Lemma constrained_unlabeled s a bs out :
  List.filter is_labeled bs = [] -> length out = length bs ->
  zip_with (constrained s a) bs out = out.
Proof.
  revert out. induction bs as [|b bs IH]; intros [|d out] Hf Hlen; try done.
  simpl in *. unfold constrained at 1. destruct (is_labeled b); [done|].
  f_equal. apply IH; [done|lia].
Qed.

Lemma zip_with_finish s a rs bs :
  zip_with (credential_pass s a) rs
    (zip_with (constrained s a) bs
       (zip_with (credential_precedence s a) rs (map b_decision bs)))
  = zip_with (finish s a) rs bs.
Proof.
  revert bs. induction rs as [|r rs IH]; intros [|b bs]; simpl; try done. by rewrite IH.
Qed.

Lemma map_result_length {E A B} (f : A -> result E B) l ys :
  map_result f l = Ok ys -> length ys = length l.
Proof.
  revert ys. induction l as [|x l IH]; simpl; intros ys; [by intros [= <-]|].
  destruct (f x); [|done]. destruct (map_result f l); [|done].
  intros [= <-]. simpl. f_equal. by apply IH.
Qed.

Lemma map_result_zip {E A B C} (f : A -> result E B) (g : A -> B -> C) l :
  map_result (fun x => result_map (g x) (f x)) l
  = result_map (fun ys => zip_with g l ys) (map_result f l).
Proof.
  induction l as [|x l IH]; simpl; [done|].
  destruct (f x); simpl; [|done]. rewrite IH. by destruct (map_result f l).
Qed.

Lemma authorizeMany_finish s a rs :
  result_map fst (authorizeMany policy security now s a rs)
  = result_map (fun bs => zip_with (finish s a) rs bs) (map_result (decideBaseline policy s a) rs).
Proof.
  unfold authorizeMany. destruct (map_result _ rs) as [bs|] eqn:Hm; [|done].
  apply map_result_length in Hm. cbn [result_map].
  set (out := zip_with (credential_precedence s a) rs (map b_decision bs)).
  assert (length out = length bs) as Hlen.
  { subst out. rewrite length_zip_with, length_map. lia. }
  rewrite <- zip_with_finish. fold out.
  destruct (List.filter is_labeled bs) as [|b0 ls] eqn:Hf; simpl.
  - by rewrite constrained_unlabeled.
  - pose proof (constraintBatch_pointwise s a (flat_map b_labelSets (b0 :: ls))) as Hp.
    destruct (constraintBatch _ _ _ _) as [batch ev]. cbn [fst] in Hp.
    pose proof (apply_batch_pointwise s a bs [] out Hlen) as Ha. cbn [app length] in Ha.
    rewrite Hf in Ha. cbn [flat_map] in Hp. simpl. rewrite Hp; [by rewrite <- Ha|].
    assert (is_labeled b0 = true) as Hl.
    { assert (b0 ∈ List.filter is_labeled bs) as Hin by (rewrite Hf; left).
      by apply List_filter_elem in Hin as [_ ?]. }
    unfold is_labeled in Hl. destruct (b_labelSets b0); [|done].
    apply andb_true_iff in Hl as [_ Hl]. done.
Qed.
End Batch.

(** C20: deciding a page of resources in one batch (one context resolution, one
    adapter round trip, decisions correlated by position) gives exactly the decisions
    of authorizing each resource on its own, scope errors included, for every adapter
    that meets the port's contract. *)
Theorem authorizeMany_is_map policy security now decide s a rs
    (Hlaw : forall sec, security = Some sec -> LawfulAdapter sec decide) :
  result_map fst (authorizeMany policy security now s a rs)
  = map_result (fun r => result_map fst (authorize policy security now s a r)) rs.
Proof.
  rewrite (authorizeMany_finish policy security now decide Hlaw).
  rewrite <- map_result_zip.
  induction rs as [|r rs IH]; simpl; [done|].
  by rewrite (authorize_finish policy security now decide Hlaw), IH.
Qed.
End Batch.

(** ** The explained form and the documented behaviours *)
Module Behaviour.
Import Soundness.

(** C40: the policy analyzer cannot drift from enforcement: in live mode the decision
    [analyze] explains and the events it emits are those of [authorize], on every
    branch, and its trace ends with the verdict it presents. *)
Theorem analyze_agrees policy security now s a r :
  result_map (fun x => (x.1.1.1, x.2)) (analyze policy security now s a r Live)
    = authorize policy security now s a r /\
  (forall d p tr ev, analyze policy security now s a r Live = Ok (d, p, tr, ev) ->
     p = presentation d /\
     exists c, List.last tr (step StAction Skipped ""%string)
               = {| stage := StFinal; status := verdict (allowed d); code := c |}).
Proof.
  unfold analyze, authorize, analyze_constraint.
  destruct (decideBaseline policy s a r) as [b|] eqn:Hb; simpl; [|split; [done|intros; done]].
  destruct (b_decision b) as [role e|c role x] eqn:Hd.
  - pose proof (decideBaseline_no_expiry _ _ _ _ _ _ _ Hb Hd) as ->.
    destruct (0 <? length (b_labelSets b)) eqn:Hn.
    + destruct (evaluateLabelSets _ _ _ _) as [[exp evd|reason evd] ev]; simpl.
      * destruct (decideCredential s a r role) eqn:Hc; simpl; (split; [done|]);
          intros ? ? ? ? [= <- <- <- <-]; rewrite last_last_app by done; naive_solver.
      * split; [done|]. intros ? ? ? ? [= <- <- <- <-]. rewrite last_last_app by done. naive_solver.
    + simpl. rewrite with_expiry_id.
      destruct (decideCredential s a r role) eqn:Hc; simpl; (split; [done|]);
        intros ? ? ? ? [= <- <- <- <-]; rewrite last_last_app by done; naive_solver.
  - destruct (credential_precedence_denied s a r c role x) as (c' & r' & x' & ->). simpl.
    split; [done|]. intros ? ? ? ? [= <- <- <- <-]. rewrite last_last_app by done. naive_solver.
Qed.

(** A soft-deleted project is unreachable for everyone, super admins and owners
    included: every action on it, by any non-service credential, is denied as a
    lifecycle denial and presented as nonexistent, without consulting any adapter. *)
Theorem deleted_project_unreachable policy security now s a r p :
  resource_project r = Some p -> p_status p = ProjectDeleted ->
  is_service_account s = false -> resource_kind r = rule_scope a ->
  authorize policy security now s a r = Ok (Denied CatLifecycle None None, []) /\
  presentation (Denied CatLifecycle None None) = PNotFound.
Proof.
  intros Hp Hs Hsa Hk. split; [|done]. unfold authorize, decideBaseline.
  rewrite bool_decide_eq_true_2 by done. simpl. rewrite Hsa, Hp.
  rewrite bool_decide_eq_true_2 by done. done.
Qed.

(** A service account acts only on the deployment and only through an explicit
    grant: whatever its roles, memberships and groups, an allowed decision is for
    organization integrations, named in a list grant over all projects. *)
Theorem service_account_confined policy security now s a r role e ev :
  is_service_account s = true ->
  authorize policy security now s a r = Ok (Allowed role e, ev) ->
  resource_project r = None /\ a = ADeployment OrgIntegrationManage /\
  exists g l, subject_grant s = Some g /\ actions g = Only l /\ projects g = All /\
    ADeployment OrgIntegrationManage ∈ l.
Proof.
  intros Hsa H. apply authorize_sound in H as (ls & (b & Hb & Hd & _) & Hc & _).
  unfold decideBaseline in Hb. destruct (negb _); [done|]. rewrite Hsa in Hb.
  destruct r; simplify_eq/=; try done. split; [done|].
  unfold decideCredential in Hc. rewrite Hsa in Hc. unfold credentialAllowsAction in Hc.
  rewrite Hsa in Hc. simpl in Hc. unfold serviceAccountGrantAllowsAction in Hc.
  destruct (subject_grant s) as [g|] eqn:Hg; simpl in Hc; [|done].
  destruct (projects g) as [|] eqn:Hp; simpl in Hc; [|by destruct (negb _)].
  destruct (includes a SERVICE_ACCOUNT_ACTIONS) eqn:Ha; [|by rewrite andb_false_r in Hc].
  apply includes_spec, list_elem_of_singleton in Ha as ->. split; [done|].
  destruct (actions g) as [|l] eqn:Hl; [done|]. exists g, l. split_and!; try done.
  apply includes_spec. destruct (includes _ l) eqn:Hi; [done|].
  by simpl in Hc; rewrite ?Hi in Hc.
Qed.

(** Read-tier denials are masked: a caller whose role on an active project is
    below the read tier is answered as if the project did not exist, whatever the
    credential grant and the labels say, and no label adapter is consulted. *)
Theorem read_denials_masked policy security now s p nl a :
  a = AppRead \/ a = ProjectRead ->
  is_service_account s = false -> p_status p = ProjectActive ->
  roleAtLeast (service_role policy s p) (projectActionMinRole a) = false ->
  exists d, authorize policy security now s (AProject a) (RProject p nl) = Ok (d, []) /\
    allowed d = false /\ presentation d = PNotFound.
Proof.
  intros Ha Hsa Hst Hr. unfold service_role, projectActionMinRole in Hr.
  unfold authorize, decideBaseline. simpl. rewrite Hsa, Hst. simpl.
  destruct (resolveEffectiveRole _ _ _) as [role src]. simpl in *.
  unfold decideProjectRule. destruct Ha as [-> | ->]; simpl in *; rewrite Hr; simpl;
    (eexists; split; [done|]; by split).
Qed.
End Behaviour.

(** ** The built-in policy behind the port *)
Module LocalWiring.
Import Soundness Batch LabelTheorems.

Definition encode_evidence (e : ConstraintEvidence) : jsval :=
  JObj [("heldClassification", match heldClassification e with None => JNull | Some s => JStr s end);
        ("requiredClassification", JStr (requiredClassification e));
        ("classificationSatisfied", JBool (classificationSatisfied e));
        ("missingCompartments", JArr (map JStr (missingCompartments e)))]%string.

Definition evidence_field (e : option ConstraintEvidence) : list (string * jsval) :=
  match e with None => [] | Some e => [("evidence"%string, encode_evidence e)] end.

(** The object [LocalResourceConstraintPolicy] returns for a decision. *)
Definition encode (d : ConstraintDecision) : jsval :=
  match d with
  | Satisfied e => JObj (("satisfied"%string, JBool true) :: evidence_field e)
  | Unsatisfied r e =>
      JObj (("satisfied"%string, JBool false) :: ("reason"%string, JStr (reason_name r))
            :: evidence_field e)
  end.

Definition local_adapter (order : list string) : ConstraintAdapter := {|
  evaluate := fun c _ l =>
    {| settles_at := Some 0%Z; outcome := Ok (encode (LocalPolicy.evaluate order (Some c) l)) |};
  evaluateMany := fun c _ ls =>
    {| settles_at := Some 0%Z;
       outcome := Ok (map encode (LocalPolicy.evaluateMany order (Some c) ls)) |};
|}.

Definition local_security (order : list string)
    (provider : option (AuthorizationSubject -> AsyncCall jsval)) : ResourceSecurityPolicy :=
  {| constraints := local_adapter order; subjectContext := provider; timeoutMs := None |}.

Definition local_decide (order : list string) (c : SubjectSecurityContext)
    (_ : AuthorizationAction) (l : option ResourceSecurityLabels) : jsval :=
  encode (LocalPolicy.evaluate order (Some c) l).

#[export] Instance local_lawful order provider :
  LawfulAdapter (local_security order provider) (local_decide order).
Proof.
  split; intros; [done|]. unfold withSecurityDeadline, withDeadline. simpl.
  unfold LocalPolicy.evaluateMany, local_decide. by rewrite map_map.
Qed.

(** Evidence is diagnostic only: parsing back keeps the verdict and its reason. *)
Lemma parse_encode_satisfied d : satisfied (parsed_or_unavailable (encode d)) = satisfied d.
Proof. by destruct d as [[e|]|[] [e|]]. Qed.

Definition grants (policy : option AuthorizationPolicy) (security : option ResourceSecurityPolicy)
    (now : option Z) (s : AuthorizationSubject) (a : AuthorizationAction)
    (r : AuthorizationResource) : Prop :=
  exists role e ev, authorize policy security now s a r = Ok (Allowed role e, ev).

Lemma local_labels_satisfied order ctx a (ls : list ResourceSecurityLabels) :
  forallb satisfied (map (fun l => parsed_or_unavailable (local_decide order ctx a (Some l))) ls) = true
  <-> forall l, l ∈ ls -> dominates order ctx l.
Proof.
  rewrite forallb_elem. split.
  - intros H l Hl. apply local_evaluate_dominates. rewrite <- parse_encode_satisfied.
    apply H. apply list_elem_of_In, in_map_iff. exists l. by rewrite <- list_elem_of_In.
  - intros H d Hd. apply list_elem_of_In, in_map_iff in Hd as (l & <- & Hl).
    unfold local_decide. rewrite parse_encode_satisfied.
    apply local_evaluate_dominates, H. by apply list_elem_of_In.
Qed.

(** With the built-in policy wired, access is granted exactly when the role,
    standing and session rules allow, the credential grant allows, and, if the
    project or the notebook override carries labels, the caller's resolved context
    dominates every one of the label sets, so an override can only add restrictions. *)
Theorem local_authorize_spec policy order provider now s a r :
  let security := Some (local_security order provider) in
  grants policy security now s a r <->
  exists role ls, baseline_allows policy s a r role ls /\
    decideCredential s a r role = Allowed role None /\
    (ls = [] \/ exists ctx, fst (resolveSubjectContext security now s) = Some ctx /\
                 forall l, l ∈ ls -> dominates order ctx l).
Proof.
  intros security. unfold grants, baseline_allows.
  rewrite (authorize_allowed policy security now (local_decide order))
    by (intros sec [= <-]; apply local_lawful).
  unfold pointwise, security. split.
  - intros (b & role & Hb & Hd & Hc & Hl). exists role, (b_labelSets b).
    split; [by exists b|]. split; [done|]. destruct Hl as [Hl|(D & e & Hp & Hs)]; [by left|].
    right. destruct (fst _) as [ctx|]; [|done]. injection Hp as <- <-.
    exists ctx. split; [done|]. by apply (local_labels_satisfied order ctx a).
  - intros (role & ls & (b & Hb & Hd & <-) & Hc & Hl). exists b, role.
    split_and!; try done. destruct Hl as [Hl|(ctx & Hctx & Hs)]; [by left|]. right.
    rewrite Hctx. do 2 eexists. split; [done|]. by apply local_labels_satisfied.
Qed.
End LocalWiring.

(** ** List filtering *)
Module ListFilter.
Section Filter.
Context (security : option ResourceSecurityPolicy) (now : option Z).
Context {T : Type} (label_state : T -> LabelState).
Context (resolveLabels : T -> result unit (option ResourceSecurityLabels)).

(** A labelled entry may only be kept on a wired deployment with a valid context. *)
Definition may_list (s : AuthorizationSubject) (st : option ResourceSecurityLabels) : Prop :=
  match st with
  | None => True
  | Some _ => exists sec ctx, security = Some sec /\
                fst (resolveSubjectContext security now s) = Some ctx
  end.

Lemma projectLabelConstraints_spec s sts a :
  let keep := fst (projectLabelConstraints security now s sts a) in
  length keep = length sts /\
  forall i st k, sts !! i = Some st -> keep !! i = Some k ->
    (st = None -> k = true) /\ (k = true -> may_list s st).
Proof.
  unfold projectLabelConstraints.
  set (unl := map (fun l : option ResourceSecurityLabels => _) sts).
  assert (Hunl : length unl = length sts /\ forall i st k, sts !! i = Some st -> unl !! i = Some k ->
            (st = None -> k = true) /\ (k = true -> may_list s st)).
  { split; [apply length_map|]. intros i st k Hst Hk. subst unl.
    change (map ?f sts) with (f <$> sts) in Hk.
    rewrite list_lookup_fmap, Hst in Hk. injection Hk as <-. by destruct st. }
  destruct (forallb id unl) eqn:Hall.
  { simpl. split; [apply length_map|]. intros i st k Hst Hk.
    change (map ?f sts) with (f <$> sts) in Hk. rewrite list_lookup_fmap, Hst in Hk.
    injection Hk as <-. split; [done|]. intros _.
    destruct st as [l|]; [|done]. exfalso.
    assert (unl !! i = Some false) as Hf.
    { subst unl. change (map ?f sts) with (f <$> sts). by rewrite list_lookup_fmap, Hst. }
    apply list_elem_of_lookup_2 in Hf. by specialize (proj1 (forallb_elem _ _) Hall _ Hf). }
  destruct security as [sec|] eqn:Hsec; [|exact Hunl].
  destruct (resolveSubjectContext (Some sec) now s) as [[ctx|] ev] eqn:Hctx; [|exact Hunl].
  destruct (withSecurityDeadline _ _) as [ds|]; [|exact Hunl].
  destruct (negb _) eqn:Hl; [exact Hunl|]. apply negb_false_iff, Nat.eqb_eq in Hl.
  destruct Hunl as [Hu1 Hu2]. simpl. split; [rewrite length_zip_with; lia|].
  intros i st k Hst Hk. apply lookup_zip_with_Some in Hk as (u & v & -> & Hu & _).
  split; [intros ->; by rewrite (proj1 (Hu2 _ _ _ Hst Hu))|].
  intros _. destruct st; [|done]. simpl. rewrite Hsec, Hctx. eauto.
Qed.

Lemma select_sublist (es : list T) keep : sublist (select es keep) es.
Proof.
  revert keep. induction es as [|e es IH]; intros [|k ks]; simpl; try apply sublist_nil_l.
  destruct k; constructor; apply IH.
Qed.

Lemma select_elem (es : list T) keep e :
  length keep = length es -> e ∈ select es keep <-> exists i, es !! i = Some e /\ keep !! i = Some true.
Proof.
  revert keep. induction es as [|x es IH]; intros [|k ks]; simpl; try done.
  - intros _. rewrite elem_of_nil. split; [done|]. intros (i & Hi & _). by destruct i.
  - intros [= Hl]. specialize (IH ks Hl). destruct k.
    + rewrite elem_of_cons, IH. split.
      * intros [->|(i & ? & ?)]; [by exists 0|by exists (S i)].
      * intros ([|i] & ? & ?); simplify_eq/=; eauto.
    + rewrite IH. split; [intros (i & ? & ?); by exists (S i)|].
      intros ([|i] & ? & ?); simplify_eq/=; eauto.
Qed.

Lemma readable_states (es : list T) :
  length (omap (entry_state label_state resolveLabels) es)
  = length (List.filter (fun e => match entry_state label_state resolveLabels e with
                                  | Some _ => true | None => false end) es) /\
  forall i e st,
    List.filter (fun e => match entry_state label_state resolveLabels e with
                          | Some _ => true | None => false end) es !! i = Some e ->
    omap (entry_state label_state resolveLabels) es !! i = Some st ->
    entry_state label_state resolveLabels e = Some st.
Proof.
  induction es as [|e es [IH1 IH2]]; [done|].
  simpl. destruct (entry_state label_state resolveLabels e) eqn:E; simpl; [|done].
  split; [f_equal; exact IH1|]. intros [|i] e' st; simpl; [congruence|apply IH2].
Qed.
End Filter.

(** Label filtering of a listing only removes entries and keeps their order;
    an entry whose authoritative state is unlabelled is never dropped; an entry with
    labels, or whose labels cannot be read, is kept only when the adapters are wired
    and the caller has a valid security context (an unreadable record never is). *)
Theorem label_filter_fails_closed security now T (label_state : T -> LabelState) resolveLabels
    s entries a :
  let kept := fst (filterByLabelConstraints security now label_state resolveLabels s entries a) in
  sublist kept entries /\
  (forall e, e ∈ kept -> exists st, entry_state label_state resolveLabels e = Some st /\
     may_list security now s st) /\
  (forall e, e ∈ entries -> entry_state label_state resolveLabels e = Some None -> e ∈ kept).
Proof.
  unfold filterByLabelConstraints. destruct (forallb _ entries) eqn:Hall; simpl.
  { split_and!; [done| |done]. intros e He.
    specialize (proj1 (forallb_elem _ _) Hall e He) as H. simpl in H.
    exists None. unfold entry_state. by destruct (label_state e). }
  set (p := fun e : T => match entry_state label_state resolveLabels e with
                         | Some _ => true | None => false end).
  pose proof (readable_states label_state resolveLabels entries) as [Hlen Hst].
  pose proof (projectLabelConstraints_spec security now s
                (omap (entry_state label_state resolveLabels) entries) a) as Hp.
  destruct (projectLabelConstraints _ _ _ _ _) as [keep ev]. simpl in *.
  destruct Hp as [Hk Hp]. fold p in Hlen, Hst. split_and!.
  - etransitivity; [apply select_sublist|].
    clear. induction entries as [|e es IH]; simpl; [constructor|]. destruct (p e); by constructor.
  - intros e He. rewrite select_elem in He by lia. destruct He as (i & Hi & Hki).
    destruct (lookup_lt_is_Some_2 (omap (entry_state label_state resolveLabels) entries) i) as [st Hs].
    { apply lookup_lt_Some in Hi. lia. }
    exists st. split; [by eapply Hst|]. by apply (Hp i st true).
  - intros e He Hn. rewrite select_elem by lia.
    assert (e ∈ List.filter p entries) as Hf by (apply List_filter_elem; unfold p; by rewrite Hn).
    apply list_elem_of_lookup in Hf as [i Hi]. exists i. split; [done|].
    destruct (lookup_lt_is_Some_2 (omap (entry_state label_state resolveLabels) entries) i) as [st Hs].
    { apply lookup_lt_Some in Hi. lia. }
    destruct (lookup_lt_is_Some_2 keep i) as [k Hki]. { apply lookup_lt_Some in Hi. lia. }
    rewrite Hki. f_equal. apply (Hp i st k Hs Hki).
    pose proof (Hst i e st Hi Hs). congruence.
Qed.
End ListFilter.

(** ** Concrete instances *)
Module Samples.
Import Soundness Batch Behaviour LocalWiring LabelTheorems.
Local Open Scope string_scope.

Definition owner : IdentitySubject :=
  {| s_id := "u1"; s_email := "u1@example.org"; s_entitlements := None; s_groups := None |}.

Definition sso : AuthCredential :=
  {| cred_kind := Sso; cred_id := None; cred_expiresAt := None; cred_grant := None;
     cred_oauth := None; cred_mcpResource := None; cred_subjectContextRef := None |}.

Definition caller : AuthorizationSubject := {| subject := owner; credential := Some sso |}.

Definition machine_grant : TokenGrant :=
  {| actions := Only [ADeployment OrgIntegrationManage]; projects := All |}.

Definition machine_caller : AuthorizationSubject :=
  {| subject := owner;
     credential := Some {| cred_kind := ServiceAccount; cred_id := Some "sa-1"; cred_expiresAt := None;
       cred_grant := Some machine_grant; cred_oauth := None; cred_mcpResource := None;
       cred_subjectContextRef := None |} |}.

Definition project (st : ProjectStatus) (labels : option ResourceSecurityLabels) : Project :=
  {| p_schema_version := 1; p_id := "proj-1"; p_name := "demo"; p_description := "";
     p_owner := "u1"; p_members :=
       [{| m_user_id := None; m_email := Some "U2@example.org"; m_group := None; m_role := Viewer |};
        {| m_user_id := Some "u2"; m_email := None; m_group := None; m_role := Editor |}];
     p_default_role := None; p_federation := None; p_status := st;
     p_created_at := "2025-01-01T00:00:00.000Z"; p_updated_at := "2025-01-01T00:00:00.000Z";
     p_tags := []; p_security_labels := labels |}.

Definition secret : ResourceSecurityLabels := {| classification := "SECRET"; compartments := ["a"] |}.

Definition wiring : option ResourceSecurityPolicy :=
  Some (local_security ["PUBLIC"; "SECRET"]
          (Some (fun _ => {| settles_at := Some 10%Z; outcome := Ok sample_context_value |}))).

Definition labeled_resource := RProject (project ProjectActive (Some secret)) None.

Example authorize_deny_only_witness :
  exists ls, baseline_allows None caller (AProject ProjectRead) labeled_resource (Some Admin) ls /\
    (forall l, governs labeled_resource l -> l ∈ ls) /\ decideCredential caller (AProject ProjectRead) labeled_resource (Some Admin)
      = Allowed (Some Admin) None /\
    ((ls = [] /\ Some "2030-01-01T00:00:00Z" = None) \/
     (ls <> [] /\ exists e, Some "2030-01-01T00:00:00Z" = Some e /\
        constraints_met wiring (Some 0%Z) caller (AProject ProjectRead) ls e)).
Proof.
  apply (authorize_deny_only None wiring (Some 0%Z) caller (AProject ProjectRead) labeled_resource
           (Some Admin) (Some "2030-01-01T00:00:00Z") []).
  vm_compute. reflexivity.
Defined.

Example authorizeMany_is_map_witness :
  result_map fst (authorizeMany None wiring (Some 0%Z) caller (AProject ProjectRead)
    [labeled_resource; RProject (project ProjectDeleted None) None])
  = Ok [Allowed (Some Admin) (Some "2030-01-01T00:00:00Z"); Denied CatLifecycle None None].
Proof.
  rewrite (authorizeMany_is_map None wiring (Some 0%Z) (local_decide ["PUBLIC"; "SECRET"])).
  - vm_compute. reflexivity.
  - intros sec [= <-]. apply local_lawful.
Defined.

Example deleted_project_unreachable_witness :
  authorize None wiring (Some 0%Z) caller (AProject ProjectRead)
    (RProject (project ProjectDeleted None) None) = Ok (Denied CatLifecycle None None, []).
Proof.
  refine (proj1 (deleted_project_unreachable None wiring (Some 0%Z) caller (AProject ProjectRead)
            (RProject (project ProjectDeleted None) None) (project ProjectDeleted None)
            _ _ _ _)); reflexivity.
Defined.

Example service_account_confined_witness :
  resource_project (RDeployment None) = None /\
  ADeployment OrgIntegrationManage = ADeployment OrgIntegrationManage /\
  exists g l, subject_grant machine_caller = Some g /\ actions g = Only l /\ projects g = All /\
    ADeployment OrgIntegrationManage ∈ l.
Proof.
  apply (service_account_confined None None None machine_caller (ADeployment OrgIntegrationManage)
           (RDeployment None) None None []); vm_compute; reflexivity.
Defined.

Definition stranger : AuthorizationSubject :=
  {| subject := {| s_id := "u9"; s_email := "u9@example.org"; s_entitlements := None; s_groups := None |};
     credential := Some sso |}.

Example read_denials_masked_witness :
  exists d, authorize None wiring (Some 0%Z) stranger (AProject ProjectRead) labeled_resource = Ok (d, []) /\
    allowed d = false /\ presentation d = PNotFound.
Proof.
  apply (read_denials_masked None wiring (Some 0%Z) stranger
           (project ProjectActive (Some secret)) None ProjectRead).
  - by right.
  - reflexivity.
  - reflexivity.
  - vm_compute. reflexivity.
Defined.

Definition member : IdentitySubject :=
  {| s_id := "u2"; s_email := "u2@example.org"; s_entitlements := None; s_groups := None |}.

Example effective_role_order_independent_witness :
  resolveEffectiveRole
    (EffectiveRole.with_members (project ProjectActive None) (rev (p_members (project ProjectActive None))))
    member None = (Some Editor, SrcMemberId).
Proof.
  rewrite EffectiveRole.effective_role_order_independent.
  - vm_compute. reflexivity.
  - apply Permutation_rev.
Defined.

Example effective_role_spec_witness :
  effectiveRole (project ProjectActive None) member None = Some Editor /\
  (forall m, m ∈ p_members (project ProjectActive None) -> eligible member m = true ->
    exists r, effectiveRole (project ProjectActive None) member None = Some r /\ RANK (m_role m) <= RANK r).
Proof.
  split; [vm_compute; reflexivity|].
  refine (proj1 (EffectiveRole.effective_role_spec (project ProjectActive None) member None _ _)).
  - vm_compute. reflexivity.
  - vm_compute. discriminate.
Defined.
End Samples.
