(* ===== verification/Store.v ===== *)
(** * The object store and the programs that use it

    The bucket port ([packages/core/src/ports/bucket.ts]) is the only shared state of
    the replicas.  A service routine is a [prog]: a tree of calls to the port, the
    clock, the id generator, the in-process snapshot cache and the audit log, each of
    which may answer with a value or throw.  [sem] is the contract of the port, [exec]
    the in-memory implementation ([packages/core/src/testing/MemoryBucket.ts]), [pool]
    the interleaving of any number of replicas with storage faults, and [rg] the
    rely-guarantee judgement with which the services are verified against it. *)

From Stdlib Require Import ZArith Lia.
From stdpp Require Import relations pretty.
From S2P Require Import Prelude.

Abbreviation tid := nat (only parsing).
Abbreviation key := string (only parsing).

Section Store.
(** [B]: object contents; [V]: the values the process keeps outside the store. *)
Context {B V : Type}.

(** The errors the routines distinguish ([errors.ts], [cas.ts]); [IoError] is any other
    failure of an adapter, after which nothing is known of the effect. *)
Inductive error :=
| PreconditionFailedError
| CasWriteConflictError
| ConflictError (msg : string)
| NotFoundError (msg : string)
| NotInitializedError (msg : string)
| ValidationError (msg : string)
| BadRequestError (msg : string)
| StoredObjectError (object : string)
| NotebookEntryExistsError (snapshot : V)
| ResourceExhaustedError (msg : string)
| EditSessionChangedError (msg : string)
| TakeoverInProgressError
| UnavailableError (msg : string)
| JsError (msg : string)
| RangeError
| TypeError
| IoError (msg : string).

(** [BucketObjectBody] and [BucketObject] *)
Record object := { o_body : B; o_etag : string; o_uploaded : Z }.
Record info := { i_key : key; i_etag : string; i_uploaded : Z }.

Definition info_of (k : key) (o : object) : info :=
  {| i_key := k; i_etag := o_etag o; i_uploaded := o_uploaded o |}.

(** [BucketPutOptions]: the two conditions are mutually exclusive. *)
Inductive condition := Always | onlyIfEtagMatches (etag : string) | onlyIfNotExists.

Record BucketListOptions := {
  l_prefix : option string; l_delimiter : option string; l_cursor : option string;
  l_limit : option Z; l_startAfter : option string;
}.
Record BucketListResult := {
  lr_objects : list info; lr_truncated : bool; lr_cursor : option string;
  lr_delimitedPrefixes : list string;
}.

Inductive op : Type -> Type :=
| OGet (k : key) : op (option object)
| OHead (k : key) : op (option info)
| OPut (k : key) (b : B) (c : condition) : op info
| ODelete (ks : list key) : op unit
| OList (o : BucketListOptions) : op BucketListResult
| ONow : op Z
| OSleep (ms : Z) : op unit
| OFreshId (brand : string) : op string
| OCacheGet (k : key) : op (option V)
| OCacheSet (k : key) (v : V) : op unit
| OAudit (event actor : string) : op unit.

(** ** Programs *)
Inductive prog (A : Type) : Type :=
| Ret (a : A)
| Throw (e : error)
| Call {X : Type} (o : op X) (k : result error X -> prog A).
Arguments Ret {A} a.
Arguments Throw {A} e.
Arguments Call {A X} o k.

Fixpoint bind {A C} (p : prog A) (f : A -> prog C) : prog C :=
  match p with
  | Ret a => f a
  | Throw e => Throw e
  | Call o k => Call o (fun r => bind (k r) f)
  end.

(** [try { p } catch (e) { h(e) }] *)
Fixpoint catch {A} (p : prog A) (h : error -> prog A) : prog A :=
  match p with
  | Ret a => Ret a
  | Throw e => h e
  | Call o k => Call o (fun r => catch (k r) h)
  end.

(** [try { x = p } catch (e) { return h(e) }; f(x)] *)
Fixpoint handle {A C} (p : prog A) (f : result error A -> prog C) : prog C :=
  match p with
  | Ret a => f (Ok a)
  | Throw e => f (Err e)
  | Call o k => Call o (fun r => handle (k r) f)
  end.

Definition lift {A} (r : result error A) : prog A :=
  match r with Ok a => Ret a | Err e => Throw e end.
Definition call {X} (o : op X) : prog X := Call o lift.

(** ** The world: the store with its write history, the clock and the process state *)
Record world := {
  store : gmap key object;
  log : list (tid * key * object);       (** every write, latest first *)
  clock : Z;
  issued : gmap string tid;              (** generated ids and who drew them *)
  cache : list (key * V);                (** every value ever cached *)
  audits : list (string * string);
}.

Definition set_store w s := {| store := s; log := log w; clock := clock w; issued := issued w;
  cache := cache w; audits := audits w |}.
Definition set_issued w s := {| store := store w; log := log w; clock := clock w; issued := s;
  cache := cache w; audits := audits w |}.
Definition set_cache w s := {| store := store w; log := log w; clock := clock w; issued := issued w;
  cache := s; audits := audits w |}.
Definition set_audits w s := {| store := store w; log := log w; clock := clock w; issued := issued w;
  cache := cache w; audits := s |}.
Definition tick w ms := {| store := store w; log := log w; clock := (clock w + ms)%Z; issued := issued w;
  cache := cache w; audits := audits w |}.
(** Time the schemas can store: the years up to 9999, in milliseconds. *)
Definition MAX_TIME : Z := 253402300800000.
Definition time_passes w ms : Prop := (0 <= ms /\ clock w + ms < MAX_TIME)%Z.

Definition write (t : tid) w k o := {| store := <[k := o]> (store w); log := (t, k, o) :: log w;
  clock := clock w; issued := issued w; cache := cache w; audits := audits w |}.
Definition remove w ks := set_store w (foldr delete (store w) ks).

(** An object that was stored at a key at some time. *)
Definition logged (k : key) (o : object) (w : world) : Prop := exists t, (t, k, o) ∈ log w.

(** Content ever written at a key. *)
Definition ever w k b := exists t o, (t, k, o) ∈ log w /\ o_body o = b.

(** ** Listing, as [MemoryBucket.list] computes it *)
Fixpoint startsWith (p s : string) : option string :=
  match p, s with
  | EmptyString, _ => Some s
  | String a p', String b s' => if Ascii.eqb a b then startsWith p' s' else None
  | _, EmptyString => None
  end.

(** [rest.indexOf(delimiter)]: the text up to and including the first delimiter. *)
Fixpoint upto_delimiter (d rest : string) : option string :=
  match startsWith d rest with
  | Some _ => Some d
  | None => match rest with
            | EmptyString => None
            | String c rest' => String c <$> upto_delimiter d rest'
            end
  end.

Record list_state := { ls_prefixes : list string; ls_keys : list key; ls_emitted : Z;
  ls_last : option key; ls_truncated : bool }.

Definition truthy (s : option string) : option string :=
  match s with Some EmptyString => None | _ => s end.

(** The loop over the sorted keys of the listing. *)
Fixpoint list_loop (prefix : string) (delimiter after : option string) (limit : Z)
    (ks : list key) (st : list_state) : list_state :=
  match ks with
  | [] => st
  | k :: ks' =>
      if match after with Some a => negb (String.ltb a k) | None => false end
      then list_loop prefix delimiter after limit ks' st
      else
        match rest ← startsWith prefix k; d ← delimiter; upto_delimiter d rest with
        | Some group =>
            let dp := (prefix +:+ group)%string in
            if includes dp (ls_prefixes st) then
              list_loop prefix delimiter after limit ks'
                {| ls_prefixes := ls_prefixes st; ls_keys := ls_keys st; ls_emitted := ls_emitted st;
                   ls_last := Some k; ls_truncated := false |}
            else if (ls_emitted st =? limit)%Z then
              {| ls_prefixes := ls_prefixes st; ls_keys := ls_keys st; ls_emitted := ls_emitted st;
                 ls_last := ls_last st; ls_truncated := true |}
            else
              list_loop prefix delimiter after limit ks'
                {| ls_prefixes := (ls_prefixes st ++ [dp])%list; ls_keys := ls_keys st;
                   ls_emitted := (ls_emitted st + 1)%Z; ls_last := Some k; ls_truncated := false |}
        | None =>
            if (ls_emitted st =? limit)%Z then
              {| ls_prefixes := ls_prefixes st; ls_keys := ls_keys st; ls_emitted := ls_emitted st;
                 ls_last := ls_last st; ls_truncated := true |}
            else
              list_loop prefix delimiter after limit ks'
                {| ls_prefixes := ls_prefixes st; ls_keys := (ls_keys st ++ [k])%list;
                   ls_emitted := (ls_emitted st + 1)%Z; ls_last := Some k; ls_truncated := false |}
        end
  end.

Definition string_max (a b : option string) : option string :=
  match a, b with
  | Some x, Some y => Some (if String.ltb x y then y else x)
  | Some x, None => Some x
  | None, _ => b
  end.

Definition bucket_list (s : gmap key object) (o : BucketListOptions) : result error BucketListResult :=
  if match l_limit o with Some n => (n <=? 0)%Z | None => false end then Err RangeError
  else
    let prefix := l_prefix o ?? "" in
    let limit := l_limit o ?? 1000%Z in
    let after := string_max (truthy (l_cursor o)) (truthy (l_startAfter o)) in
    let sorted := js_sort String.leb
      (List.filter (fun k => bool_decide (is_Some (startsWith prefix k))) (map fst (map_to_list s))) in
    let st := list_loop prefix (truthy (l_delimiter o)) after limit sorted
      {| ls_prefixes := []; ls_keys := []; ls_emitted := 0; ls_last := None; ls_truncated := false |} in
    Ok {| lr_objects := omap (fun k => info_of k <$> s !! k) (ls_keys st);
          lr_truncated := ls_truncated st;
          lr_cursor := if ls_truncated st then ls_last st else None;
          lr_delimitedPrefixes := js_sort String.leb (ls_prefixes st) |}.

(** ** The contract of one call *)

(** The condition of a conditional write holds in the store. *)
Definition holds (s : gmap key object) (k : key) (c : condition) : Prop :=
  match c with
  | Always => True
  | onlyIfEtagMatches e => exists o, s !! k = Some o /\ o_etag o = e
  | onlyIfNotExists => s !! k = None
  end.

(** A tag names one content for each key: adapters that hash keep it across identical
    rewrites, the others never reuse it. *)
Definition etag_ok (w : world) (k : key) (b : B) (e : string) : Prop :=
  e <> "" /\ forall t o, (t, k, o) ∈ log w -> o_etag o = e -> o_body o = b.

(** [ids.ts]: the ids of a brand are a prefix and a body of fixed length.  Most bodies
    are 16 characters of [0-9a-z]; job runs, audit events, tokens and authorizations carry
    26 character ULIDs. *)
Definition in_range (lo hi : nat) (c : Ascii.ascii) : bool :=
  let n := Ascii.nat_of_ascii c in ((lo <=? n) && (n <=? hi))%nat.
Definition id_char (c : Ascii.ascii) : bool := in_range 48 57 c || in_range 97 122 c.
(** [/[0-9A-HJKMNP-TV-Z]/] *)
Definition ulid_char (c : Ascii.ascii) : bool :=
  in_range 48 57 c || in_range 65 72 c || in_range 74 75 c || in_range 77 78 c || in_range 80 84 c || in_range 86 90 c.
Definition id_shape (brand : string) : string * nat * (Ascii.ascii -> bool) :=
  if brand === "run" then ("run_", 26, ulid_char)
  else if includes brand ["event"; "token"; "cli-authorization"; "oauth-authorization"; "oauth-client"] then ("", 26, ulid_char)
  else (brand +:+ "-", 16, id_char).

Definition is_id (brand id : string) : bool :=
  let '(prefix, len, ok) := id_shape brand in
  match startsWith prefix id with
  | Some body => (String.length body === len) && forallb ok (String.list_ascii_of_string body)
  | None => false
  end.

Definition sem (t : tid) {X} (o : op X) (w : world) : result error X -> world -> Prop :=
  match o in op X return result error X -> world -> Prop with
  | OGet k => fun r w' => w' = w /\ r = Ok (store w !! k)
  | OHead k => fun r w' => w' = w /\ r = Ok (info_of k <$> store w !! k)
  | OPut k b c => fun r w' =>
      (~ holds (store w) k c /\ w' = w /\ r = Err PreconditionFailedError) \/
      (holds (store w) k c /\ exists e,
         etag_ok w k b e /\
         let obj := {| o_body := b; o_etag := e; o_uploaded := clock w |} in
         w' = write t w k obj /\ r = Ok (info_of k obj))
  | ODelete ks => fun r w' => w' = remove w ks /\ r = Ok tt
  | OList o => fun r w' => w' = w /\ r = bucket_list (store w) o
  | ONow => fun r w' => w' = w /\ r = Ok (clock w)
  | OSleep _ => fun r w' => w' = w /\ r = Ok tt
  | OFreshId brand => fun r w' => exists id,
      is_id brand id = true /\ issued w !! id = None /\
      w' = set_issued w (<[id := t]> (issued w)) /\ r = Ok id
  | OCacheGet k => fun r w' => w' = w /\
      (r = Ok None \/ exists v, (k, v) ∈ cache w /\ r = Ok (Some v))
  | OCacheSet k v => fun r w' => w' = set_cache w ((k, v) :: cache w) /\ r = Ok tt
  | OAudit e a => fun r w' => w' = set_audits w ((e, a) :: audits w) /\ r = Ok tt
  end.

(** Calls that leave the process and so can fail. *)
Definition remote {X} (o : op X) : bool :=
  match o with
  | OGet _ | OHead _ | OPut _ _ _ | ODelete _ | OList _ | OAudit _ _ => true
  | _ => false
  end.

(** What a failed call may have done: the whole effect, or part of a batch. *)
Definition partially (t : tid) {X} (o : op X) (w w' : world) : Prop :=
  w' = w \/ (exists r, sem t o w r w') \/
  match o with
  | ODelete ks => exists ks', ks' ⊆ ks /\ w' = remove w ks'
  | _ => False
  end.

Definition op_step (t : tid) {X} (o : op X) (w : world) (r : result error X) (w' : world) : Prop :=
  sem t o w r w' \/
  (remote o = true /\ partially t o w w' /\ exists msg, r = Err (IoError msg)).

(** ** The in-memory implementation, for running programs *)

Definition mem_etag (n : nat) : string := "etag-" +:+ pretty (N.of_nat n).

(** An id body of [n] digits from a counter. *)
Fixpoint id_body (n : nat) (v : nat) : string :=
  match n with
  | O => ""
  | S n' => id_body n' (v / 10) +:+ String (Ascii.ascii_of_nat (48 + v mod 10)) ""
  end.

Definition mint_id (brand : string) (v : nat) : string :=
  let '(prefix, len, _) := id_shape brand in prefix +:+ id_body len v.

Definition holds_b (s : gmap key object) (k : key) (c : condition) : bool :=
  match c with
  | Always => true
  | onlyIfEtagMatches e => match s !! k with Some o => o_etag o === e | None => false end
  | onlyIfNotExists => match s !! k with Some _ => false | None => true end
  end.

Fixpoint assoc_find (k : key) (l : list (key * V)) : option V :=
  match l with
  | [] => None
  | (k', v) :: l' => if k === k' then Some v else assoc_find k l'
  end.

Definition exec (t : tid) {X} (o : op X) (w : world) : result error X * world :=
  match o in op X return result error X * world with
  | OGet k => (Ok (store w !! k), w)
  | OHead k => (Ok (info_of k <$> store w !! k), w)
  | OPut k b c =>
      if holds_b (store w) k c then
        let obj := {| o_body := b; o_etag := mem_etag (length (log w)); o_uploaded := clock w |} in
        (Ok (info_of k obj), write t w k obj)
      else (Err PreconditionFailedError, w)
  | ODelete ks => (Ok tt, remove w ks)
  | OList o => (bucket_list (store w) o, w)
  | ONow => (Ok (clock w), w)
  | OSleep ms => (Ok tt, tick w ms)
  | OFreshId brand =>
      let id := mint_id brand (size (issued w)) in
      (Ok id, set_issued w (<[id := t]> (issued w)))
  | OCacheGet k => (Ok (assoc_find k (cache w)), w)
  | OCacheSet k v => (Ok tt, set_cache w ((k, v) :: cache w))
  | OAudit e a => (Ok tt, set_audits w ((e, a) :: audits w))
  end.

Fixpoint run (t : tid) {A} (p : prog A) (w : world) : result error A * world :=
  match p with
  | Ret a => (Ok a, w)
  | Throw e => (Err e, w)
  | Call o k => let (r, w') := exec t o w in run t (k r) w'
  end.

Definition empty_world : world :=
  {| store := ∅; log := []; clock := 0; issued := ∅; cache := []; audits := [] |}.

(** ** Interleaving *)

Record config (A : Type) := Config { threads : list (prog A); wd : world }.
Arguments Config {A} threads wd.
Arguments threads {A} _.
Arguments wd {A} _.

Inductive pool_step {A} : config A -> config A -> Prop :=
| pool_call i X (o : op X) k r ts w w' :
    ts !! i = Some (Call o k) -> op_step i o w r w' ->
    pool_step (Config ts w) (Config (<[i := k r]> ts) w')
| pool_tick ts w ms :
    time_passes w ms -> pool_step (Config ts w) (Config ts (tick w ms)).

(** ** Rely-guarantee *)

(** [rg R G t p Q w]: from [w], whatever the others do within [R], every step of [p] run
    by [t] is within [G], and [p] ends in [Q]. *)
Fixpoint rg (R G : world -> world -> Prop) (t : tid) {A} (p : prog A)
    (Q : result error A -> world -> Prop) (w : world) : Prop :=
  forall w1, R w w1 ->
  match p with
  | Ret a => Q (Ok a) w1
  | Throw e => Q (Err e) w1
  | Call o k => forall r w2, op_step t o w1 r w2 -> G w1 w2 /\ rg R G t (k r) Q w2
  end.

Section Judgement.
Context (R G : world -> world -> Prop) (t : tid) `{!PreOrder R}.

Lemma rg_rely {A} (p : prog A) Q w w1 : R w w1 -> rg R G t p Q w -> rg R G t p Q w1.
Proof. destruct p; simpl; intros Hr H w2 Hr2; apply H; by etrans. Qed.

Lemma rg_weaken {A} (p : prog A) (Q Q' : result error A -> world -> Prop) w :
  (forall r w, Q r w -> Q' r w) -> rg R G t p Q w -> rg R G t p Q' w.
Proof.
  intros HQ. revert w. induction p as [a|e|X o k IH]; simpl; intros w H w1 Hr; auto.
  intros r w2 Hs. destruct (H w1 Hr r w2 Hs). auto.
Qed.

Lemma rg_handle {A C} (p : prog A) (f : result error A -> prog C) Q w :
  rg R G t p (fun r w => rg R G t (f r) Q w) w -> rg R G t (handle p f) Q w.
Proof.
  revert w. induction p as [a|e|X o k IH]; simpl; intros w H.
  1,2: by apply H.
  intros w1 Hr r w2 Hs. destruct (H w1 Hr r w2 Hs). auto.
Qed.

Lemma rg_ret {A} (a : A) (Q : result error A -> world -> Prop) w :
  (forall w1, R w w1 -> Q (Ok a) w1) -> rg R G t (Ret a) Q w.
Proof. done. Qed.

Lemma rg_throw {A} e (Q : result error A -> world -> Prop) w :
  (forall w1, R w w1 -> Q (Err e) w1) -> rg R G t (Throw e) Q w.
Proof. done. Qed.

Lemma bind_handle {A C} (p : prog A) (f : A -> prog C) :
  forall Q w, rg R G t (handle p (fun r => match r with Ok a => f a | Err e => Throw e end)) Q w ->
              rg R G t (bind p f) Q w.
Proof.
  induction p as [a|e|X o k IH]; simpl; intros Q w H; auto.
  intros w1 Hr r w2 Hs. destruct (H w1 Hr r w2 Hs). auto.
Qed.

Lemma rg_bind {A C} (p : prog A) (f : A -> prog C) (Q : result error C -> world -> Prop) w :
  rg R G t p (fun r w => match r with
                         | Ok a => rg R G t (f a) Q w
                         | Err e => rg R G t (Throw e) Q w
                         end) w ->
  rg R G t (bind p f) Q w.
Proof.
  intros H. apply bind_handle, rg_handle. eapply rg_weaken; [|exact H]. by intros [a|e] w'.
Qed.

Lemma rg_catch {A} (p : prog A) h (Q : result error A -> world -> Prop) w :
  rg R G t p (fun r w => match r with
                         | Ok a => rg R G t (Ret a) Q w
                         | Err e => rg R G t (h e) Q w
                         end) w ->
  rg R G t (catch p h) Q w.
Proof.
  revert w. induction p as [a|e|X o k IH]; simpl; intros w H.
  - intros w1 Hr. by apply (H w).
  - by apply H.
  - intros w1 Hr r w2 Hs. destruct (H w1 Hr r w2 Hs). auto.
Qed.

Lemma rg_call {X} (o : op X) (Q : result error X -> world -> Prop) w :
  (forall w1 r w2, R w w1 -> op_step t o w1 r w2 -> G w1 w2 /\ forall w3, R w2 w3 -> Q r w3) ->
  rg R G t (call o) Q w.
Proof.
  intros H w1 Hr r w2 Hs. destruct (H w1 r w2 Hr Hs) as [HG HQ]. split; [done|].
  destruct r; simpl; auto.
Qed.
End Judgement.

(** ** Verifying replicas against a common guarantee *)

(** [G t]: the steps thread [t] may take.  What [t] must tolerate is any sequence of
    steps of the others, and the passing of time. *)
Section Protocol.
Context (G : tid -> world -> world -> Prop).

Definition others (t : tid) (w w' : world) : Prop :=
  (exists t', t' <> t /\ G t' w w') \/ (exists ms, time_passes w ms /\ w' = tick w ms).

Definition rely (t : tid) : world -> world -> Prop := rtc (others t).

#[export] Instance rely_preorder t : PreOrder (rely t) := rtc_po.

(** Assertions the others cannot falsify. *)
Class Stable (t : tid) (P : world -> Prop) : Prop :=
  stable w w' : others t w w' -> P w -> P w'.

Lemma stable_rely t P `{!Stable t P} w w' : rely t w w' -> P w -> P w'.
Proof. induction 1 as [|x y z Hxy _ IH]; [done|]. intros Hx. apply IH. by eapply (stable x y). Qed.

#[export] Instance stable_const t (φ : Prop) : Stable t (fun _ => φ).
Proof. by intros w w' _. Qed.
#[export] Instance stable_and t P Q : Stable t P -> Stable t Q -> Stable t (fun w => P w /\ Q w).
Proof. intros HP HQ w w' Ho [? ?]. split; by eapply stable. Qed.
#[export] Instance stable_or t P Q : Stable t P -> Stable t Q -> Stable t (fun w => P w \/ Q w).
Proof. intros HP HQ w w' Ho [?|?]; [left|right]; by eapply stable. Qed.
#[export] Instance stable_exists t {X} (P : X -> world -> Prop) :
  (forall x, Stable t (P x)) -> Stable t (fun w => exists x, P x w).
Proof. intros HP w w' Ho [x ?]. exists x. by eapply stable. Qed.
#[export] Instance stable_forall t {X} (P : X -> world -> Prop) :
  (forall x, Stable t (P x)) -> Stable t (fun w => forall x, P x w).
Proof. intros HP w w' Ho H x. by eapply stable. Qed.
#[export] Instance stable_impl t (φ : Prop) P : Stable t P -> Stable t (fun w => φ -> P w).
Proof. intros HP w w' Ho H ?. eapply stable; eauto. Qed.

(** [hoare t P p Q]: run by [t] among the others, [p] stays within [G t] and leads from
    [P] to [Q]. *)
Definition hoare (t : tid) {A} (P : world -> Prop) (p : prog A) (Q : result error A -> world -> Prop) : Prop :=
  forall w, P w -> rg (rely t) (G t) t p Q w.

Lemma hoare_pre t {A} (P P' : world -> Prop) (p : prog A) Q :
  (forall w, P' w -> P w) -> hoare t P p Q -> hoare t P' p Q.
Proof. intros HP H w Hw. by apply H, HP. Qed.

Lemma hoare_post t {A} P (p : prog A) (Q Q' : result error A -> world -> Prop) :
  (forall r w, Q r w -> Q' r w) -> hoare t P p Q -> hoare t P p Q'.
Proof. intros HQ H w Hw. eapply rg_weaken; [exact HQ|by apply H]. Qed.

Lemma hoare_pure t {A} (φ : Prop) P (p : prog A) Q : (φ -> hoare t P p Q) -> hoare t (fun w => φ /\ P w) p Q.
Proof. intros H w [Hφ Hw]. by apply H. Qed.

Lemma hoare_exists t {A X} (P : X -> world -> Prop) (p : prog A) Q :
  (forall x, hoare t (P x) p Q) -> hoare t (fun w => exists x, P x w) p Q.
Proof. intros H w [x Hw]. by apply (H x). Qed.

Lemma hoare_ret t {A} P (a : A) (Q : result error A -> world -> Prop) `{!Stable t P} :
  (forall w, P w -> Q (Ok a) w) -> hoare t P (Ret a) Q.
Proof. intros H w Hw w1 Hr. apply H. by eapply stable_rely. Qed.

Lemma hoare_throw t {A} P e (Q : result error A -> world -> Prop) `{!Stable t P} :
  (forall w, P w -> Q (Err e) w) -> hoare t P (Throw e) Q.
Proof. intros H w Hw w1 Hr. apply H. by eapply stable_rely. Qed.

Lemma hoare_handle t {A C} P M (p : prog A) (f : result error A -> prog C) Q :
  hoare t P p M -> (forall r, hoare t (M r) (f r) Q) -> hoare t P (handle p f) Q.
Proof.
  intros Hp Hf w Hw. apply rg_handle; [apply _|]. eapply rg_weaken; [|by apply Hp].
  intros r w' Hr. by apply Hf.
Qed.

Lemma hoare_bind t {A C} P (M : result error A -> world -> Prop) (p : prog A) (f : A -> prog C)
    (Q : result error C -> world -> Prop) :
  hoare t P p M -> (forall a, hoare t (M (Ok a)) (f a) Q) ->
  (forall e, hoare t (M (Err e)) (Throw e) Q) -> hoare t P (bind p f) Q.
Proof.
  intros Hp Hf He w Hw. apply rg_bind; [apply _|]. eapply rg_weaken; [|by apply Hp].
  intros [a|e] w' Hr; [by apply Hf|by apply He].
Qed.

Lemma hoare_catch t {A} P (M : result error A -> world -> Prop) (p : prog A) h
    (Q : result error A -> world -> Prop) :
  hoare t P p M -> (forall a, hoare t (M (Ok a)) (Ret a) Q) ->
  (forall e, hoare t (M (Err e)) (h e) Q) -> hoare t P (catch p h) Q.
Proof.
  intros Hp Hf He w Hw. apply rg_catch; [apply _|]. eapply rg_weaken; [|by apply Hp].
  intros [a|e] w' Hr; [by apply Hf|by apply He].
Qed.

Lemma hoare_call t {X} (o : op X) P (Q : result error X -> world -> Prop)
    `{!Stable t P} `{!forall r, Stable t (Q r)} :
  (forall w r w', P w -> op_step t o w r w' -> G t w w' /\ Q r w') -> hoare t P (call o) Q.
Proof.
  intros Hop w Hw. apply rg_call. intros w1 r w2 Hr Hs.
  destruct (Hop w1 r w2) as [HG HQ]; [by eapply stable_rely|done|].
  split; [done|]. intros w3 Hr3. by eapply (stable_rely t (Q r)).
Qed.

(** Calls that stay in the process. *)
Lemma hoare_sleep t ms P `{!Stable t P} :
  (forall w, G t w w) -> hoare t P (call (OSleep ms)) (fun r w => r = Ok tt /\ P w).
Proof.
  intros HG. apply hoare_call; [done|apply _|]. intros w r w' Hw [[-> ->]|[? _]]; [|done].
  split; [apply HG|done].
Qed.

(** Any number of threads, each verified on its own, run together: the guarantee
    describes every step of every interleaving. *)
Section Pool.
Context {A : Type} (Q : tid -> result error A -> world -> Prop).

Definition verified (c : config A) : Prop :=
  forall i p, threads c !! i = Some p -> rg (rely i) (G i) i p (Q i) (wd c).

Lemma verified_step c c' : verified c -> pool_step c c' -> verified c'.
Proof.
  intros Hv Hs. destruct Hs as [i X o k r ts w w' Hi Hop|ts w ms Hms]; intros j p Hj; simpl in *.
  - pose proof (Hv i _ Hi) as Hc. simpl in Hc.
    destruct (Hc w (PreOrder_Reflexive w) r w' Hop) as [HG Hk].
    destruct (decide (i = j)) as [<-|Hne].
    + rewrite list_lookup_insert_eq in Hj by (by eapply lookup_lt_Some). by simplify_eq.
    + rewrite list_lookup_insert_ne in Hj by done.
      eapply rg_rely; [apply _| |by apply Hv]. apply rtc_once. left. eauto.
  - eapply rg_rely; [apply _| |by apply Hv]. apply rtc_once. right. eauto.
Qed.

Lemma verified_reachable c c' : verified c -> rtc pool_step c c' -> verified c'.
Proof. intros Hv Hr. induction Hr; eauto using verified_step. Qed.

(** Every step of a reachable configuration is within its thread's guarantee. *)
Lemma pool_guarantee c c1 c2 :
  verified c -> rtc pool_step c c1 -> pool_step c1 c2 ->
  (exists i, G i (wd c1) (wd c2) /\ forall j, j <> i -> threads c2 !! j = threads c1 !! j) \/
  (exists ms, time_passes (wd c1) ms /\ wd c2 = tick (wd c1) ms).
Proof.
  intros Hv Hr Hs. pose proof (verified_reachable _ _ Hv Hr) as Hv1.
  destruct Hs as [i X o k r ts w w' Hi Hop|ts w ms Hms]; [left|right; eauto].
  exists i. simpl. pose proof (Hv1 i _ Hi) as Hc. simpl in Hc.
  destruct (Hc w (PreOrder_Reflexive w) r w' Hop) as [HG _]. split; [done|].
  intros j Hj. by rewrite list_lookup_insert_ne.
Qed.

(** What the guarantees and time preserve holds throughout. *)
Lemma pool_invariant (I : world -> Prop) c c' :
  (forall t w w', G t w w' -> I w -> I w') -> (forall w ms, time_passes w ms -> I w -> I (tick w ms)) ->
  verified c -> I (wd c) -> rtc pool_step c c' -> I (wd c').
Proof.
  intros HG HT Hv HI Hr. revert Hv HI. induction Hr as [c|c c1 c' Hs Hr IH]; [done|]. intros Hv HI.
  apply IH; [by eapply verified_step|].
  destruct (pool_guarantee c c c1 Hv (rtc_refl _ _) Hs) as [(i & Hi & _)|(ms & Hms & ->)]; eauto.
Qed.

(** A thread that has ended satisfies its postcondition. *)
Lemma pool_result c c' i a :
  verified c -> rtc pool_step c c' -> threads c' !! i = Some (Ret a) -> Q i (Ok a) (wd c').
Proof.
  intros Hv Hr Hi. pose proof (verified_reachable _ _ Hv Hr i _ Hi) as H. simpl in H. by apply H.
Qed.

Lemma pool_error c c' i e :
  verified c -> rtc pool_step c c' -> threads c' !! i = Some (Throw e) -> Q i (Err e) (wd c').
Proof.
  intros Hv Hr Hi. pose proof (verified_reachable _ _ Hv Hr i _ Hi) as H. simpl in H. by apply H.
Qed.
End Pool.
End Protocol.

(** ** Facts about the world that every call preserves *)

Record wf (w : world) : Prop := {
  wf_stored k o : store w !! k = Some o -> logged k o w;
  wf_etags t t' k o o' : (t, k, o) ∈ log w -> (t', k, o') ∈ log w -> o_etag o = o_etag o' -> o_body o = o_body o';
  wf_clock : (0 <= clock w < MAX_TIME)%Z;
}.

Lemma wf_empty : wf empty_world.
Proof.
  split; [done| |done]. intros t t' k o o' H. by apply not_elem_of_nil in H.
Qed.

Lemma store_remove w ks k : store (remove w ks) !! k = if decide (k ∈ ks) then None else store w !! k.
Proof.
  change (store (remove w ks)) with (foldr delete (store w) ks).
  induction ks as [|k' ks IH]; cbn [foldr].
  - case_decide as H; [by apply not_elem_of_nil in H|done].
  - destruct (decide (k = k')) as [->|Hne].
    + rewrite lookup_delete_eq. destruct (decide (k' ∈ k' :: ks)) as [|H]; [done|]. destruct H. apply elem_of_cons. by left.
    + rewrite lookup_delete_ne by done. rewrite IH.
      destruct (decide (k ∈ ks)), (decide (k ∈ k' :: ks)); try done; exfalso; set_solver.
Qed.

Lemma wf_remove w ks : wf w -> wf (remove w ks).
Proof.
  intros [H1 H2 H3]. split; [|done|done].
  intros k o Hk. rewrite store_remove in Hk. case_decide; [done|]. by apply H1.
Qed.

Lemma wf_write t w k b e u :
  wf w -> etag_ok w k b e -> wf (write t w k {| o_body := b; o_etag := e; o_uploaded := u |}).
Proof.
  intros [H1 H2 H3] [_ He]. split; simpl; [| |done].
  - intros k' o Hk. destruct (decide (k = k')) as [->|Hne].
    + rewrite lookup_insert_eq in Hk. simplify_eq. exists t. by left.
    + rewrite lookup_insert_ne in Hk by done. destruct (H1 _ _ Hk) as [t' ?]. exists t'. by right.
  - intros t1 t2 k' o1 o2 Ho1 Ho2 Heq.
    rewrite elem_of_cons in Ho1, Ho2.
    destruct Ho1 as [Ho1|Ho1], Ho2 as [Ho2|Ho2]; simplify_eq; simpl in *; try done.
    + symmetry. by eapply He.
    + by eapply He.
    + by eapply (H2 t1 t2).
Qed.

Lemma wf_sem t {X} (o : op X) w r w' : wf w -> sem t o w r w' -> wf w'.
Proof.
  intros Hw Hs. destruct o; simpl in Hs; try (by destruct Hs as [-> _]).
  - destruct Hs as [(_ & -> & _)|(_ & e & He & -> & _)]; [done|]. by apply wf_write.
  - destruct Hs as [-> _]. by apply wf_remove.
  - destruct Hs as (id & _ & _ & -> & _). by destruct Hw.
  - destruct Hs as [-> _]. by destruct Hw.
  - destruct Hs as [-> _]. by destruct Hw.
Qed.

Lemma wf_op_step t {X} (o : op X) w r w' : wf w -> op_step t o w r w' -> wf w'.
Proof.
  intros Hw [Hs|(_ & [->|[[r' Hs]|Hs]] & _)]; eauto using wf_sem.
  destruct o; try done. destruct Hs as (ks' & _ & ->). by apply wf_remove.
Qed.

(** Same tag, same content: what makes a compare-and-swap sound. *)
Lemma wf_same_body w k o o' t :
  wf w -> store w !! k = Some o -> (t, k, o') ∈ log w -> o_etag o = o_etag o' -> o_body o = o_body o'.
Proof. intros [H1 H2 _] Hk Ho He. destruct (H1 _ _ Hk) as [t' ?]. by eapply (H2 t' t). Qed.

(** What every world inherits from an earlier one: the store stays well formed, the
    history, the drawn ids, the cache and the audit log only grow, time does not go back. *)
Record grows (w w' : world) : Prop := {
  grows_wf : wf w -> wf w';
  grows_log e : e ∈ log w -> e ∈ log w';
  grows_clock : (clock w <= clock w')%Z;
  grows_issued id t : issued w !! id = Some t -> issued w' !! id = Some t;
  grows_audits : exists l, audits w' = l ++ audits w;
}.

#[export] Instance grows_preorder : PreOrder grows.
Proof.
  split.
  - intros w. split; auto; [lia|]. by exists [].
  - intros w1 w2 w3 [H1 H2 H3 H4 [l1 H5]] [G1 G2 G3 G4 [l2 G5]]. split; auto; [lia|].
    exists (l2 ++ l1). by rewrite G5, H5, app_assoc.
Qed.

Lemma grows_tick w ms : time_passes w ms -> grows w (tick w ms).
Proof.
  intros [H1 H2]. split; simpl; auto; [|lia|by exists []]. intros [? ? ?]. split; simpl; auto. lia.
Qed.

Lemma grows_remove w ks : grows w (remove w ks).
Proof. split; simpl; auto; [apply wf_remove|lia|by exists []]. Qed.

Lemma sem_grows t {X} (o : op X) w r w' : sem t o w r w' -> grows w w'.
Proof.
  intros Hs. destruct o; simpl in Hs; try (by destruct Hs as [-> _]).
  - destruct Hs as [(_ & -> & _)|(_ & e & He & -> & _)]; [done|].
    split; simpl; auto; [by intros; apply wf_write|by right|lia|by exists []].
  - destruct Hs as [-> _]. apply grows_remove.
  - destruct Hs as (id & _ & Hid & -> & _). split; simpl; auto; [by intros []|lia| |by exists []].
    intros id' t' Hi. rewrite lookup_insert_ne; [done|]. by intros ->; simplify_eq.
  - destruct Hs as [-> _]. split; simpl; auto; [by intros []|lia|by exists []].
  - destruct Hs as [-> _]. split; simpl; auto; [by intros []|lia|by exists [(event, actor)]].
Qed.

Lemma op_step_grows t {X} (o : op X) w r w' : op_step t o w r w' -> grows w w'.
Proof.
  intros [Hs|(_ & [->|[[r' Hs]|Hs]] & _)]; eauto using sem_grows; [done|].
  destruct o; try done. destruct Hs as (ks' & _ & ->). apply grows_remove.
Qed.

(** A conditional write with the tag of an object read earlier finds its content. *)
Lemma holds_etag_body w k o :
  wf w -> logged k o w -> holds (store w) k (onlyIfEtagMatches (o_etag o)) ->
  exists o', store w !! k = Some o' /\ o_body o' = o_body o.
Proof.
  intros Hw [t Ht] (o' & Hk & He). exists o'. split; [done|]. by eapply wf_same_body.
Qed.

(** Facts that hold for good once they hold. *)
Class Persistent (F : world -> Prop) : Prop := persistent w w' : grows w w' -> F w -> F w'.

#[export] Instance persistent_logged k o : Persistent (logged k o).
Proof. intros w w' Hg [t Ht]. exists t. by apply (grows_log _ _ Hg). Qed.
#[export] Instance persistent_ever k b : Persistent (fun w => ever w k b).
Proof. intros w w' Hg (t & o & Ht & Hb). exists t, o. split; [by apply (grows_log _ _ Hg)|done]. Qed.
#[export] Instance persistent_const (φ : Prop) : Persistent (fun _ => φ).
Proof. by intros w w' _. Qed.
#[export] Instance persistent_and F F' : Persistent F -> Persistent F' -> Persistent (fun w => F w /\ F' w).
Proof. intros HF HF' w w' Hg [? ?]. split; by eapply persistent. Qed.
#[export] Instance persistent_exists {X} (F : X -> world -> Prop) :
  (forall x, Persistent (F x)) -> Persistent (fun w => exists x, F x w).
Proof. intros HF w w' Hg [x ?]. exists x. by eapply persistent. Qed.

#[export] Instance persistent_forall {X} (F : X -> world -> Prop) :
  (forall x, Persistent (F x)) -> Persistent (fun w => forall x, F x w).
Proof. intros HF w w' Hg H x. by eapply persistent. Qed.
#[export] Instance persistent_impl (φ : Prop) F : Persistent F -> Persistent (fun w => φ -> F w).
Proof. intros HF w w' Hg H Hφ. eapply persistent; eauto. Qed.

(** ** Rules for the calls of the port, faults included *)

(** A protocol allows idle steps, and its steps are steps of the store. *)
Class Protocol (G : tid -> world -> world -> Prop) : Prop := {
  protocol_idle t w : G t w w;
  protocol_grows t w w' : G t w w' -> grows w w';
}.

Section Rules.
Context (G : tid -> world -> world -> Prop) `{!Protocol G}.

Lemma others_grows t w w' : others G t w w' -> grows w w'.
Proof. intros [(t' & _ & H)|(ms & Hms & ->)]; [by eapply protocol_grows|by apply grows_tick]. Qed.

#[export] Instance stable_wf t : Stable G t wf.
Proof. intros w w' Ho. apply grows_wf. by eapply others_grows. Qed.
#[export] Instance stable_log t e : Stable G t (fun w => e ∈ log w).
Proof. intros w w' Ho. apply grows_log. by eapply others_grows. Qed.
#[export] Instance stable_clock t n : Stable G t (fun w => (n <= clock w)%Z).
Proof. intros w w' Ho H. pose proof (grows_clock _ _ (others_grows _ _ _ Ho)). lia. Qed.
#[export] Instance stable_issued t id t' : Stable G t (fun w => issued w !! id = Some t').
Proof. intros w w' Ho. apply grows_issued. by eapply others_grows. Qed.
#[export] Instance stable_logged t k o : Stable G t (logged k o).
Proof. unfold logged. apply _. Qed.
#[export] Instance stable_ever t k b : Stable G t (fun w => ever w k b).
Proof. unfold ever. apply _. Qed.

Lemma rely_grows t w w' : rely G t w w' -> grows w w'.
Proof. induction 1 as [|w1 w2 w3 H _ IH]; [done|]. etrans; [by eapply others_grows|done]. Qed.

#[export] Instance persistent_stable t F : Persistent F -> Stable G t F.
Proof. intros HF w w' Ho. apply HF. by eapply others_grows. Qed.

(** A persistent fact survives any verified program. *)
Lemma hoare_frame t {A} P (p : prog A) Q F `{!Persistent F} :
  hoare G t P p Q -> hoare G t (fun w => P w /\ F w) p (fun r w => Q r w /\ F w).
Proof.
  intros Hp w [Hw HF]. specialize (Hp w Hw). clear Hw. revert w Hp HF.
  induction p as [a|e|X o k IH]; simpl; intros w Hp HF w1 Hr.
  - split; [by apply Hp|]. eapply persistent; [by eapply rely_grows|done].
  - split; [by apply Hp|]. eapply persistent; [by eapply rely_grows|done].
  - intros r w2 Hs. destruct (Hp w1 Hr r w2 Hs) as [HG Hk]. split; [done|]. apply IH; [done|].
    eapply persistent; [|exact HF]. etrans; [by eapply rely_grows|by eapply protocol_grows].
Qed.

Lemma hoare_get t k P (F : option object -> world -> Prop)
    `{!Stable G t P} `{!forall x, Stable G t (F x)} :
  (forall w, P w -> F (store w !! k) w) ->
  hoare G t P (call (OGet k))
    (fun r => match r with Ok x => F x | Err e => fun w => P w /\ exists msg, e = IoError msg end).
Proof.
  intros HF. apply hoare_call; [done|intros [x|e]; apply _|]. intros w r w' Hw Hs.
  assert (w' = w) as -> by (destruct Hs as [[-> _]|(_ & [->|[[r' [-> _]]|[]]] & _)]; done).
  split; [apply protocol_idle|].
  destruct Hs as [[_ ->]|(_ & _ & msg & ->)]; [by apply HF|eauto].
Qed.

(** What a write may leave behind: success, a refused condition, or a lost answer. *)
Definition put_post (P : world -> Prop) (S : info -> world -> Prop) (r : result error info) : world -> Prop :=
  match r with
  | Ok i => S i
  | Err PreconditionFailedError => P
  | Err (IoError _) => fun w => P w \/ exists i, S i w
  | Err _ => fun _ => False
  end.

#[export] Instance stable_put_post t P S r :
  Stable G t P -> (forall i, Stable G t (S i)) -> Stable G t (put_post P S r).
Proof. intros HP HS. destruct r as [i|[]]; unfold put_post; apply _. Qed.

Lemma hoare_put t k b c P (S : info -> world -> Prop) `{!Stable G t P} `{!forall i, Stable G t (S i)} :
  (forall w e, P w -> holds (store w) k c -> etag_ok w k b e ->
     let obj := {| o_body := b; o_etag := e; o_uploaded := clock w |} in
     G t w (write t w k obj) /\ S (info_of k obj) (write t w k obj)) ->
  hoare G t P (call (OPut k b c)) (put_post P S).
Proof.
  intros HS. apply hoare_call; [done|apply _|]. intros w r w' Hw Hs.
  assert (Hput : forall r w', sem t (OPut k b c) w r w' -> G t w w' /\ put_post P S r w' /\
    (P w' \/ exists i, S i w')).
  { clear Hs. intros r0 w0 [(_ & -> & ->)|(Hh & e & He & -> & ->)].
    - split; [apply protocol_idle|]. split; [done|by left].
    - destruct (HS w e Hw Hh He) as [HG HSi]. split; [done|]. split; [done|eauto]. }
  destruct Hs as [Hs|(_ & [->|[[r' Hs]|[]]] & msg & ->)].
  - destruct (Hput _ _ Hs) as (? & ? & _). by split.
  - split; [apply protocol_idle|by left].
  - destruct (Hput _ _ Hs) as (? & _ & ?). by split.
Qed.

(** A clock reading: now is past it, and it satisfies what held of the clock then. *)
Lemma hoare_now t (P : world -> Prop) (φ : Z -> Prop) `{!Stable G t P} :
  (forall w, P w -> φ (clock w)) ->
  hoare G t P (call ONow) (fun r w => exists n, r = Ok n /\ φ n /\ (n <= clock w)%Z /\ P w).
Proof.
  intros Hφ. apply hoare_call; [done|apply _|]. intros w r w' Hw [[-> ->]|[? _]]; [|done].
  split; [apply protocol_idle|]. exists (clock w). split; [done|]. split; [by apply Hφ|].
  split; [lia|done].
Qed.

Lemma hoare_delete t ks P (Q : world -> Prop) `{!Stable G t P} `{!Stable G t Q} :
  (forall w ks', P w -> ks' ⊆ ks -> G t w (remove w ks') /\ Q (remove w ks')) ->
  hoare G t P (call (ODelete ks)) (fun _ => Q).
Proof.
  intros HQ. apply hoare_call; [done|apply _|]. intros w r w' Hw Hs.
  destruct Hs as [[-> _]|(_ & [->|[[r' [-> _]]|(ks' & Hks & ->)]] & _)]; try by apply HQ.
  split; [apply protocol_idle|]. destruct (HQ w [] Hw) as [_ H]; [apply list_subseteq_nil|].
  by destruct w.
Qed.

(** A call that only reads. *)
Lemma hoare_read t {X} (o : op X) P `{!Stable G t P} :
  (forall w r w', sem t o w r w' -> w' = w) -> remote o = true ->
  (if o is ODelete _ then False else True) ->
  hoare G t P (call o) (fun _ => P).
Proof.
  intros Ho _ Hnd. apply hoare_call; [done|apply _|]. intros w r w' Hw Hs.
  assert (w' = w) as ->; [|split; [apply protocol_idle|done]].
  destruct Hs as [Hs|(_ & [->|[[r' Hs]|Hs]] & _)]; eauto. by destruct o.
Qed.
End Rules.

(** ** The in-memory bucket meets the contract *)

Definition mem_wf (w : world) : Prop :=
  forall t k o, (t, k, o) ∈ log w -> exists i, i < length (log w) /\ o_etag o = mem_etag i.

Lemma mem_etag_inj i j : mem_etag i = mem_etag j -> i = j.
Proof. unfold mem_etag. intros H%(inj _). apply (inj pretty) in H. lia. Qed.

Lemma holds_b_spec s k c : holds_b s k c = true <-> holds s k c.
Proof.
  destruct c as [|e|]; simpl; [done| |by destruct (s !! k)].
  destruct (s !! k) as [o|]; [rewrite bool_decide_eq_true|]; naive_solver.
Qed.

Lemma memory_bucket_step t {X} (o : op X) w r w' :
  mem_wf w -> remote o = true -> exec t o w = (r, w') -> sem t o w r w' /\ mem_wf w'.
Proof.
  intros Hm Hrem He.
  destruct o; try discriminate Hrem; cbn [exec] in He; cbn [sem];
    try (injection He as <- <-; split; [by split|exact Hm]).
  destruct (holds_b (store w) k c) eqn:Hh; injection He as <- <-.
  - apply holds_b_spec in Hh. split.
    + right. split; [done|]. exists (mem_etag (length (log w))). split; [|done].
      split; [done|]. intros t' o Ho Heq. destruct (Hm _ _ _ Ho) as (i & Hi & Hoi).
      rewrite Hoi in Heq. apply mem_etag_inj in Heq. lia.
    + intros t' k' o Ho. simpl in *. apply elem_of_cons in Ho as [Ho|Ho].
      * simplify_eq. exists (length (log w)). split; [lia|done].
      * destruct (Hm _ _ _ Ho) as (i & Hi & Hoi). exists i. split; [lia|done].
  - split; [|done]. left. split; [|done]. rewrite <- holds_b_spec. by rewrite Hh.
Qed.

(** The in-memory bucket implements the port contract: every call of the port it
    executes is a step the contract allows, a conditional write fails exactly when its
    condition does not hold, and no tag is ever reused for another content. *)
Theorem memory_bucket_implements_port t {X} (o : op X) w r w' :
  mem_wf w -> remote o = true -> exec t o w = (r, w') ->
  sem t o w r w' /\ mem_wf w' /\ (wf w -> wf w').
Proof.
  intros Hm Hr He. destruct (memory_bucket_step t o w r w' Hm Hr He) as [Hs Hm'].
  split; [done|]. split; [done|]. intros Hw. by eapply wf_sem.
Qed.

(** ** Running composed programs *)

Lemma run_handle t {A C} (p : prog A) (f : result error A -> prog C) w :
  run t (handle p f) w = let (r, w') := run t p w in run t (f r) w'.
Proof.
  revert w. induction p as [a|e|X o k IH]; intros w; simpl; [done|done|].
  destruct (exec t o w) as [r w']. apply IH.
Qed.

Lemma run_bind t {A C} (p : prog A) (f : A -> prog C) w :
  run t (bind p f) w = match run t p w with (Ok a, w') => run t (f a) w' | (Err e, w') => (Err e, w') end.
Proof.
  revert w. induction p as [a|e|X o k IH]; intros w; simpl; [done|done|].
  destruct (exec t o w) as [r w']. apply IH.
Qed.

Lemma run_catch t {A} (p : prog A) h w :
  run t (catch p h) w = match run t p w with (Ok a, w') => (Ok a, w') | (Err e, w') => run t (h e) w' end.
Proof.
  revert w. induction p as [a|e|X o k IH]; intros w; simpl; [done|done|].
  destruct (exec t o w) as [r w']. apply IH.
Qed.

Lemma run_call t {X} (o : op X) w : run t (call o) w = exec t o w.
Proof. unfold call; simpl. destruct (exec t o w) as [[a|e] w']; done. Qed.

(** ** Executable runs are executions of the pool *)

Definition exec_ok {X} (o : op X) (w : world) : bool :=
  match o with
  | OSleep ms => ((0 <=? ms) && (clock w + ms <? MAX_TIME))%Z
  | OFreshId brand =>
      let id := mint_id brand (size (issued w)) in
      is_id brand id && bool_decide (issued w !! id = None)
  | _ => true
  end.

Fixpoint run_ok (t : tid) {A} (p : prog A) (w : world) : bool :=
  match p with
  | Call o k => exec_ok o w && (let (r, w') := exec t o w in run_ok t (k r) w')
  | _ => true
  end.

Lemma assoc_find_elem k v l : assoc_find k l = Some v -> (k, v) ∈ l.
Proof.
  induction l as [|[k' v'] l IH]; simpl; [done|].
  case_bool_decide; intros; simplify_eq; [by left|right; auto].
Qed.

Lemma exec_steps t {X} (o : op X) w r w' :
  mem_wf w -> exec_ok o w = true -> exec t o w = (r, w') ->
  exists w1, sem t o w r w1 /\ (w' = w1 \/ exists ms, time_passes w1 ms /\ w' = tick w1 ms) /\ mem_wf w'.
Proof.
  intros Hm Hok He. destruct (remote o) eqn:Hr.
  { destruct (memory_bucket_step t o w r w' Hm Hr He). eauto 10. }
  destruct o; try discriminate Hr; cbn [exec exec_ok] in Hok, He; apply pair_equal_spec in He as [<- <-].
  - exists w. split; [done|]. split; [by left|done].
  - exists w. split; [done|]. split; [|done]. right. exists ms. split; [|done].
    apply andb_true_iff in Hok as [?%Z.leb_le ?%Z.ltb_lt]. by split.
  - apply andb_true_iff in Hok as [Hid Hf]. apply bool_decide_eq_true in Hf.
    eexists. split; [by eexists|]. split; [by left|done].
  - exists w. split; [|split; [by left|done]]. split; [done|].
    destruct (assoc_find k (cache w)) as [v|] eqn:E; [|by left].
    right. exists v. split; [by apply assoc_find_elem|done].
  - eexists. split; [done|]. split; [by left|done].
Qed.

Lemma run_reaches {A} i (p : prog A) ts w r w' :
  mem_wf w -> run_ok i p w = true -> ts !! i = Some p -> run i p w = (r, w') ->
  rtc pool_step (Config ts w) (Config (<[i := lift r]> ts) w') /\ mem_wf w'.
Proof.
  revert ts w. induction p as [a|e|X o k IH]; intros ts w Hm Hok Hi Hrun; simpl in *.
  1,2: simplify_eq; split; [by rewrite list_insert_id|done].
  destruct (exec i o w) as [r1 w1] eqn:E. apply andb_true_iff in Hok as [Hok1 Hok2].
  destruct (exec_steps i o w r1 w1 Hm Hok1 E) as (w2 & Hs & Hw12 & Hm1).
  assert (Hlt : i < length ts) by (by eapply lookup_lt_Some).
  destruct (IH r1 (<[i := k r1]> ts) w1) as [IH1 IH2]; try done.
  { by rewrite list_lookup_insert_eq. }
  split; [|done]. rewrite list_insert_insert_eq in IH1.
  eapply rtc_l; [eapply pool_call; [done|by left]|].
  destruct Hw12 as [->|(ms & Hms & ->)]; [done|]. eapply rtc_l; [by apply pool_tick|done].
Qed.

(** Whole programs one after another, from thread [i] on. *)
Fixpoint run_seq {A} (i : tid) (ps : list (prog A)) (w : world) : list (prog A) * world :=
  match ps with
  | [] => ([], w)
  | p :: ps => let (r, w1) := run i p w in let (ds, w2) := run_seq (S i) ps w1 in (lift r :: ds, w2)
  end.
Fixpoint run_seq_ok {A} (i : tid) (ps : list (prog A)) (w : world) : bool :=
  match ps with
  | [] => true
  | p :: ps => run_ok i p w && run_seq_ok (S i) ps (run i p w).2
  end.

Lemma run_seq_reaches {A} (pre ps : list (prog A)) w :
  mem_wf w -> run_seq_ok (length pre) ps w = true ->
  rtc pool_step (Config (pre ++ ps) w) (Config (pre ++ (run_seq (length pre) ps w).1) (run_seq (length pre) ps w).2) /\
  mem_wf (run_seq (length pre) ps w).2.
Proof.
  revert pre w. induction ps as [|p ps IH]; intros pre w Hm Hok; cbn [run_seq run_seq_ok] in *; [by split|].
  apply andb_true_iff in Hok as [Hok1 Hok2]. destruct (run (length pre) p w) as [r w1] eqn:E.
  destruct (run_reaches (length pre) p (pre ++ p :: ps) w r w1) as [H1 Hm1]; [done|done| |done|].
  { by rewrite lookup_app_r, Nat.sub_diag by lia. }
  destruct (IH (pre ++ [lift r]) w1 Hm1) as [H2 Hm2]; [by rewrite length_app, Nat.add_comm|].
  rewrite length_app, Nat.add_comm in H2, Hm2. cbn [length Nat.add] in H2, Hm2.
  destruct (run_seq (S (length pre)) ps w1) as [ds w2]. rewrite <- !app_assoc in H2. split; [|done].
  etrans; [exact H1|]. by rewrite insert_app_r_alt, Nat.sub_diag by lia.
Qed.

(** A given interleaving: the calls of which thread come next, and when time passes. *)
Inductive turn := Turn (i : tid) | Passes (ms : Z).
Definition take_turn {A} (c : config A) (u : turn) : option (config A) :=
  match u with
  | Turn i =>
      match threads c !! i with
      | Some (Call o k) =>
          if exec_ok o (wd c) then let (r, w') := exec i o (wd c) in Some (Config (<[i := k r]> (threads c)) w') else None
      | _ => None
      end
  | Passes ms => if ((0 <=? ms) && (clock (wd c) + ms <? MAX_TIME))%Z then Some (Config (threads c) (tick (wd c) ms)) else None
  end.
Fixpoint interleave {A} (c : config A) (us : list turn) : option (config A) :=
  match us with
  | [] => Some c
  | u :: us => match take_turn c u with Some c' => interleave c' us | None => None end
  end.

Lemma interleave_reaches {A} (c c' : config A) us : mem_wf (wd c) -> interleave c us = Some c' -> rtc pool_step c c' /\ mem_wf (wd c').
Proof.
  revert c. induction us as [|u us IH]; intros c Hm; cbn [interleave]; [intros [= <-]; by split|].
  destruct (take_turn c u) as [c1|] eqn:E; [|done]. intros Hc. destruct c as [ts w].
  assert (H1 : rtc pool_step (Config ts w) c1 /\ mem_wf (wd c1)).
  { destruct u as [i|ms]; cbn in E.
    - destruct (ts !! i) as [[| |X o k]|] eqn:Hi; try done. destruct (exec_ok o w) eqn:Hok; [|done].
      destruct (exec i o w) as [r w1] eqn:Ex. injection E as <-. destruct (exec_steps i o w r w1 Hm Hok Ex) as (w2 & Hs & Hw & Hm1).
      split; [|done]. eapply rtc_l; [eapply pool_call; [done|by left]|]. destruct Hw as [->|(ms & Hms & ->)]; [done|]. eapply rtc_l; [by apply pool_tick|done].
    - destruct (_ && _) eqn:Hok; [|done]. injection E as <-. apply andb_true_iff in Hok as [?%Z.leb_le ?%Z.ltb_lt].
      split; [|done]. eapply rtc_l; [apply pool_tick; by split|done]. }
  destruct H1 as [H1 Hm1]. destruct (IH c1 Hm1 Hc). split; [by etrans|done].
Qed.

(** A turn that calls the port is one step. *)
Definition port_turn {A} (c : config A) (i : tid) : bool :=
  match threads c !! i with Some (Call o _) => remote o | _ => false end.
Lemma take_turn_step {A} (c c' : config A) i : mem_wf (wd c) -> port_turn c i = true -> take_turn c (Turn i) = Some c' -> pool_step c c'.
Proof.
  destruct c as [ts w]. unfold port_turn. cbn. intros Hm Hp. destruct (ts !! i) as [[| |X o k]|] eqn:Hi; try done.
  destruct (exec_ok o w); [|done]. destruct (exec i o w) as [r w'] eqn:Ex. intros [= <-]. eapply pool_call; [done|]. left.
  by eapply memory_bucket_step.
Qed.
End Store.

Arguments error : clear implicits.
Arguments object : clear implicits.
Arguments op : clear implicits.
Arguments prog : clear implicits.
Arguments world : clear implicits.
Arguments config : clear implicits.
Arguments Ret {B V A} a.
Arguments Throw {B V A} e.
Arguments Call {B V A X} o k.
Arguments Config {B V A} threads wd.
Arguments threads {B V A} _.
Arguments wd {B V A} _.

Arguments bind {B V A C} p f : simpl never.
Arguments handle {B V A C} p f : simpl never.
Arguments catch {B V A} p h : simpl never.
Arguments call {B V X} o : simpl never.

(** [await]: sequencing in the notation of monads. *)
#[export] Instance prog_ret {B V} : MRet (prog B V) := fun A a => Ret a.
#[export] Instance prog_bind {B V} : MBind (prog B V) := fun A C f p => bind p f.

(** ** Keys as texts *)

Lemma startsWith_app p s : startsWith p (p +:+ s) = Some s.
Proof.
  induction p as [|c p IH]; [done|].
  change (startsWith (String c p) (String c (p +:+ s)) = Some s). cbn [startsWith]. by rewrite Ascii.eqb_refl.
Qed.

Lemma string_app_inj_l s a b : s +:+ a = s +:+ b -> a = b.
Proof. apply (inj (String.append s)). Qed.

Lemma string_app_assoc (a b c : string) : (a +:+ b) +:+ c = a +:+ (b +:+ c).
Proof.
  induction a as [|x a IH]; [done|]. change (String x ((a +:+ b) +:+ c) = String x (a +:+ (b +:+ c))). by rewrite IH.
Qed.

Lemma string_app_length (a b : string) : String.length (a +:+ b) = (String.length a + String.length b)%nat.
Proof.
  induction a as [|x a IH]; [done|].
  change (S (String.length (a +:+ b)) = S (String.length a + String.length b)). by rewrite IH.
Qed.

(** Equal texts with tails of equal length have equal tails. *)
Lemma string_app_split a b c d : String.length c = String.length d -> a +:+ c = b +:+ d -> a = b /\ c = d.
Proof.
  revert b. induction a as [|x a IH]; intros [|y b] Hl H.
  - done.
  - apply (f_equal String.length) in H. rewrite !string_app_length in H. cbn in H. lia.
  - apply (f_equal String.length) in H. rewrite !string_app_length in H. cbn in H. lia.
  - injection H as -> H. by destruct (IH b Hl H) as [-> ->].
Qed.

Lemma startsWith_split p k r : startsWith p k = Some r -> k = p +:+ r.
Proof.
  revert k. induction p as [|c p IH]; intros k; cbn [startsWith]; [by intros [= ->]|].
  destruct k as [|x k]; [done|]. destruct (Ascii.eqb c x) eqn:E; [|done]. apply Ascii.eqb_eq in E as ->.
  intros H. apply IH in H as ->. done.
Qed.

Lemma startsWith_length p s r : startsWith p s = Some r -> String.length s = (String.length p + String.length r)%nat.
Proof.
  revert s. induction p as [|c p IH]; intros [|x s]; cbn; try done; [by intros [= <-]..|].
  destruct (Ascii.eqb c x); [|done]. intros Hr. by rewrite (IH _ Hr).
Qed.

Lemma is_id_length brand id :
  is_id brand id = true -> String.length id = (String.length (id_shape brand).1.1 + (id_shape brand).1.2)%nat.
Proof.
  unfold is_id. destruct (id_shape brand) as [[p n] ok]. destruct (startsWith p id) as [body|] eqn:E; [|done].
  rewrite andb_true_iff, bool_decide_eq_true. intros [<- _]. by apply startsWith_length.
Qed.

(** Equal texts with heads of equal length have equal heads. *)
Lemma string_app_split_l a b c d : String.length a = String.length b -> a +:+ c = b +:+ d -> a = b /\ c = d.
Proof.
  intros Hl H. apply string_app_split; [|done].
  apply (f_equal String.length) in H. rewrite !string_app_length in H. lia.
Qed.

Lemma startsWith_trans p q k : is_Some (startsWith (p +:+ q) k) -> is_Some (startsWith p k).
Proof.
  revert k. induction p as [|c p IH]; intros k; [by eexists|].
  change (is_Some (startsWith (String c (p +:+ q)) k) -> is_Some (startsWith (String c p) k)).
  destruct k as [|x k]; cbn [startsWith]; [done|]. destruct (Ascii.eqb c x); [apply IH|done].
Qed.

(** A step within the guarantee is established per call; these close the routine cases. *)
#[export] Hint Resolve grows_tick grows_remove op_step_grows : hub.

Example memory_bucket_implements_port_witness :
  sem 0 (OPut "k" 7 onlyIfNotExists) (@empty_world nat unit)
    (fst (exec 0 (OPut "k" 7 onlyIfNotExists) empty_world)) (snd (exec 0 (OPut "k" 7 onlyIfNotExists) empty_world)).
Proof.
  apply (memory_bucket_implements_port 0 (OPut "k" 7 onlyIfNotExists) (@empty_world nat unit)).
  - intros t k o H. inversion H.
  - reflexivity.
  - reflexivity.
Defined.

(** ** Facts no step falsifies *)

(** Facts that no step of the protocol falsifies, one's own included. *)
Class Kept {B V} (G : tid -> world B V -> world B V -> Prop) (F : world B V -> Prop) : Prop := {
  kept_step t w w' : G t w w' -> F w -> F w';
  kept_time w ms : time_passes w ms -> F w -> F (tick w ms);
}.

Section Kept.
Context {B V : Type} (G : tid -> world B V -> world B V -> Prop).
#[export] Instance kept_stable t F : Kept G F -> Stable G t F.
Proof. intros [H1 H2] w w' [(t' & _ & HG)|(ms & Hms & ->)]; eauto. Qed.
#[export] Instance kept_persistent F `{!Protocol G} : Persistent F -> Kept G F.
Proof.
  intros HF. split; [intros t w w' HG; apply HF; by eapply protocol_grows|].
  intros w ms Hms. apply HF. by apply grows_tick.
Qed.
#[export] Instance kept_and F F' : Kept G F -> Kept G F' -> Kept G (fun w => F w /\ F' w).
Proof. intros [H1 H2] [H3 H4]. split; [intros ? ? ? ? []|intros ? ? ? []]; split; eauto. Qed.
#[export] Instance kept_or F F' : Kept G F -> Kept G F' -> Kept G (fun w => F w \/ F' w).
Proof. intros [H1 H2] [H3 H4]. split; [intros ? ? ? ? []|intros ? ? ? []]; eauto. Qed.
#[export] Instance kept_const (φ : Prop) : Kept G (fun _ => φ).
Proof. done. Qed.
#[export] Instance kept_forall {X} (F : X -> world B V -> Prop) : (forall x, Kept G (F x)) -> Kept G (fun w => forall x, F x w).
Proof. intros H. split; [intros t w w' HG HF x; by eapply kept_step|intros w ms Hms HF x; by apply kept_time]. Qed.
#[export] Instance kept_exists {X} (F : X -> world B V -> Prop) : (forall x, Kept G (F x)) -> Kept G (fun w => exists x, F x w).
Proof. intros H. split; [intros t w w' HG [x ?]; exists x; by eapply kept_step|intros w ms Hms [x ?]; exists x; by apply kept_time]. Qed.
#[export] Instance kept_impl (φ : Prop) F : Kept G F -> Kept G (fun w => φ -> F w).
Proof. intros [H1 H2]. split; eauto. Qed.

(** A kept fact survives any verified program. *)
Lemma hoare_keep t {A} P (p : prog B V A) Q F `{!Kept G F} :
  hoare G t P p Q -> hoare G t (fun w => P w /\ F w) p (fun r w => Q r w /\ F w).
Proof.
  intros Hp w [Hw HF]. specialize (Hp w Hw). clear Hw. revert w Hp HF.
  induction p as [a|e|X o k IH]; simpl; intros w Hp HF w1 Hr.
  - split; [by apply Hp|]. by eapply (stable_rely G t F).
  - split; [by apply Hp|]. by eapply (stable_rely G t F).
  - intros r w2 Hs. destruct (Hp w1 Hr r w2 Hs) as [HG Hk]. split; [done|]. apply IH; [done|].
    eapply kept_step; [exact HG|]. by eapply (stable_rely G t F).
Qed.

(** What is shown of a program in two ways. *)
Lemma hoare_both t {A} P (p : prog B V A) Q Q' : hoare G t P p Q -> hoare G t P p Q' -> hoare G t P p (fun r w => Q r w /\ Q' r w).
Proof.
  intros H H' w Hw. specialize (H w Hw). specialize (H' w Hw). clear Hw. revert w H H'.
  induction p as [a|e|X o k IH]; simpl; intros w H H' w1 Hr; [by split; [apply H|apply H']..|].
  intros r w2 Hs. destruct (H w1 Hr r w2 Hs) as [HG Hk]. destruct (H' w1 Hr r w2 Hs) as [_ Hk']. split; [done|]. by apply IH.
Qed.
End Kept.
