(* ===== verification/Cas.v ===== *)
(** * Compare-and-swap helpers

    [packages/core/src/services/catalog/cas.ts]: the retry loop of conditional writes,
    singleton claims, create-if-absent and the read-modify-write of one object, as
    programs over the store; with what each of them guarantees to the other replicas
    under any interleaving and any storage fault. *)

From Stdlib Require Import ZArith Lia.
From stdpp Require Import relations.
From S2P Require Import Prelude Store.

(** A stored record type: its JSON text and its schema.  [JSON] and the schema library
    are outside the program; what it relies on is that a valid record survives the
    round trip and that parsing only yields valid records. *)
Class Codec (B T : Type) := {
  valid : T -> Prop;
  stringify : T -> B;
  parse : B -> option T;
  parse_stringify x : valid x -> parse (stringify x) = Some x;
  parse_valid b x : parse b = Some x -> valid x;
}.

Section Cas.
Context {B V : Type}.
Implicit Types w : world B V.

Definition DEFAULT_RETRIES : nat := 5.
Definition DEFAULT_BACKOFF (attempt : nat) : Z := (50 * (Z.of_nat attempt + 1))%Z.

(** [CasRetryOptions] without the observation hooks *)
Record CasRetryOptions := { retries : option nat; backoffMs : option (nat -> Z) }.
Definition no_retry_options : CasRetryOptions := {| retries := None; backoffMs := None |}.

(** [casWriterFor(bucket).put] *)
Definition cas_put (k : key) (b : B) (c : condition) : prog B V info :=
  catch (call (OPut k b c)) (fun err =>
    match err with
    | PreconditionFailedError => Throw CasWriteConflictError
    | err => Throw err
    end).

(** The [for] loop of [withCasRetry], at attempt [i] with [n] left. *)
Fixpoint cas_loop {A} (backoff : nat -> Z) (attempt : prog B V A) (i n : nat) : prog B V A :=
  match n with
  | O => Throw (ConflictError "Write conflict: max retries exceeded")
  | S n' =>
      handle attempt (fun r =>
        match r with
        | Ok a => Ret a
        | Err CasWriteConflictError =>
            bind (call (OSleep (backoff i))) (fun _ => cas_loop backoff attempt (S i) n')
        | Err err => Throw err
        end)
  end.

Definition withCasRetry {A} (attempt : prog B V A) (options : CasRetryOptions) : prog B V A :=
  cas_loop (backoffMs options ?? DEFAULT_BACKOFF) attempt 0 (retries options ?? DEFAULT_RETRIES).

(** [readStored]: the stored text parses to a record of the schema or throws. *)
Definition readStored {T} `{Codec B T} (o : object B) (what : string) : prog B V T :=
  match parse (o_body o) with
  | Some x => Ret x
  | None => Throw (StoredObjectError what)
  end.

(** ** Singleton claims *)

(** [SingletonClaimConfig]; [parseHolder] reads the stored text, [Err] when corrupt. *)
Record SingletonClaimConfig := {
  claim_key : key;
  serialize : option string -> B;
  parseHolder : B -> result (error V) (option string);
  isHolderLive : string -> prog B V bool;
  claim_retry : CasRetryOptions;
}.

Inductive claim_outcome := Acquired (etag : string) | HeldBy (holder : string).

(** One attempt of [acquireSingletonClaim]. *)
Definition acquire_attempt (cfg : SingletonClaimConfig) (holder : string) : prog B V claim_outcome :=
  existing ← call (OGet (claim_key cfg));
  match existing with
  | None =>
      written ← cas_put (claim_key cfg) (serialize cfg (Some holder)) onlyIfNotExists;
      mret (Acquired (i_etag written))
  | Some obj =>
      (* [undefined] when the claim is corrupt *)
      let current := match parseHolder cfg (o_body obj) with Ok h => Some h | Err _ => None end in
      let replace :=
        written ← cas_put (claim_key cfg) (serialize cfg (Some holder)) (onlyIfEtagMatches (o_etag obj));
        mret (Acquired (i_etag written)) in
      match current with
      | Some (Some h) =>
          if h === holder then mret (Acquired (o_etag obj))
          else if h === "" then replace
          else live ← isHolderLive cfg h; if live : bool then mret (HeldBy h) else replace
      | _ => replace
      end
  end.

Definition acquireSingletonClaim (cfg : SingletonClaimConfig) (holder : string) : prog B V claim_outcome :=
  withCasRetry (acquire_attempt cfg holder) (claim_retry cfg).

(** The part of a release that reads the claim before freeing it. *)
Definition release_read (cfg : SingletonClaimConfig) (holder : string) : prog B V unit :=
  existing ← call (OGet (claim_key cfg));
  match existing with
  | None => mret tt
  | Some obj =>
      match parseHolder cfg (o_body obj) with
      | Err err => Throw err
      | Ok h =>
          if h === Some holder then
            bind (call (OPut (claim_key cfg) (serialize cfg None) (onlyIfEtagMatches (o_etag obj))))
                 (fun _ => mret tt)
          else mret tt
      end
  end.

(** Every failure of a release is swallowed. *)
Definition releaseSingletonClaim (cfg : SingletonClaimConfig) (holder : string) (etag : option string)
    : prog B V unit :=
  catch
    (match etag with
     | None => release_read cfg holder
     | Some e =>
         handle (call (OPut (claim_key cfg) (serialize cfg None) (onlyIfEtagMatches e))) (fun r =>
           match r with
           | Ok _ => mret tt
           | Err PreconditionFailedError => release_read cfg holder
           | Err err => Throw err
           end)
     end)
    (fun _ => mret tt).

(** ** Create-if-absent and read-modify-write *)

Definition putIfAbsent (k : key) (b : B) : prog B V bool :=
  handle (call (OPut k b onlyIfNotExists)) (fun r =>
    match r with
    | Ok _ => mret true
    | Err PreconditionFailedError => mret false
    | Err err => Throw err
    end).

Record ObjectMutationOutcome (T : Type) := { value : T; written : bool }.
Arguments Build_ObjectMutationOutcome {T} _ _.
Arguments value {T} _.
Arguments written {T} _.

Definition mutate_attempt {T} (k : key) (parse : B -> result (error V) T) (stringify : T -> B)
    (apply : T -> result (error V) (option T)) (notFound : option (error V))
    : prog B V (ObjectMutationOutcome T) :=
  obj ← call (OGet k);
  match obj with
  | None => Throw (notFound ?? NotFoundError ("Object " +:+ k +:+ " not found"))
  | Some obj =>
      current ← lift (parse (o_body obj));
      next ← lift (apply current);
      match next with
      | None => mret {| value := current; written := false |}
      | Some next =>
          cas_put k (stringify next) (onlyIfEtagMatches (o_etag obj)) ≫= fun _ =>
          mret {| value := next; written := true |}
      end
  end.

Definition mutateObjectWithOutcome {T} (k : key) (parse : B -> result (error V) T) (stringify : T -> B)
    (apply : T -> result (error V) (option T)) (notFound : option (error V)) (options : CasRetryOptions)
    : prog B V (ObjectMutationOutcome T) :=
  withCasRetry (mutate_attempt k parse stringify apply notFound) options.

Definition mutateObject {T} (k : key) (parse : B -> result (error V) T) (stringify : T -> B)
    (apply : T -> result (error V) (option T)) (notFound : option (error V)) (options : CasRetryOptions)
    : prog B V T :=
  o ← mutateObjectWithOutcome k parse stringify apply notFound options; mret (value o).

End Cas.
