(* ===== verification/Storage.v ===== *)
(** * Bulk reads and deletes

    [packages/core/src/services/catalog/storage.ts]: the listing of a prefix across
    pages, and what is built on it.  The page loop takes fuel; [listAllObjects_complete]
    shows that one page per stored key is enough and that nothing is lost or repeated
    across page boundaries. *)

From Stdlib Require Import ZArith Lia Sorted.
From stdpp Require Import sorting.
From S2P Require Import Prelude Store Cas.

(** ** The order of keys *)
Section Order.

Lemma string_leb_trans x y z : String.leb x y = true -> String.leb y z = true -> String.leb x z = true.
Proof.
  unfold String.leb. revert y z. induction x as [|a x IH]; intros y z; [by destruct y, z|].
  destruct y as [|b y]; [done|]. destruct z as [|c z]; [by simpl; destruct (Ascii.compare b a)|].
  simpl. unfold Ascii.compare.
  destruct (N.compare_spec (Ascii.N_of_ascii a) (Ascii.N_of_ascii b)) as [E1|E1|E1];
    destruct (N.compare_spec (Ascii.N_of_ascii b) (Ascii.N_of_ascii c)) as [E2|E2|E2];
    destruct (N.compare_spec (Ascii.N_of_ascii a) (Ascii.N_of_ascii c)) as [E3|E3|E3];
    intros H1 H2; try done; try lia; by eapply IH.
Qed.

Lemma string_ltb_leb x y : String.ltb x y = negb (String.leb y x).
Proof.
  unfold String.ltb, String.leb. rewrite (String.compare_antisym y x).
  by destruct (String.compare x y).
Qed.

Lemma string_leb_refl x : String.leb x x = true.
Proof. by destruct (String.leb_total x x). Qed.

Lemma string_ltb_spec x y : String.ltb x y = true <-> String.leb x y = true /\ x <> y.
Proof.
  rewrite string_ltb_leb, negb_true_iff. split.
  - intros H. destruct (String.leb_total x y) as [Hxy|Hyx]; [|congruence].
    split; [done|]. intros ->. by rewrite string_leb_refl in H.
  - intros [H1 H2]. destruct (String.leb y x) eqn:E; [|done]. destruct H2. by apply String.leb_antisym.
Qed.

Lemma string_ltb_trans x y z : String.ltb x y = true -> String.ltb y z = true -> String.ltb x z = true.
Proof.
  rewrite !string_ltb_spec. intros [H1 N1] [H2 N2]. split; [by eapply string_leb_trans|].
  intros ->. destruct N1. by apply String.leb_antisym.
Qed.

Lemma string_ltb_irrefl x : String.ltb x x = false.
Proof. by rewrite string_ltb_leb, string_leb_refl. Qed.

(** Keys in strictly increasing order. *)
Definition increasing (ks : list string) : Prop := StronglySorted (fun x y => String.ltb x y = true) ks.

Lemma js_sort_increasing ks : NoDup ks -> increasing (js_sort String.leb ks).
Proof.
  intros Hnd. pose proof (js_sort_sorted String.leb String.leb_total string_leb_trans ks) as Hs.
  assert (Hnd' : NoDup (js_sort String.leb ks)) by (by rewrite js_sort_perm).
  unfold sorted_by in Hs. unfold increasing. induction Hs as [|k l Hs IH Hf]; [constructor|].
  apply NoDup_cons in Hnd' as [Hk Hnd']. constructor; [by apply IH|].
  rewrite Forall_forall in *. intros x Hx. apply string_ltb_spec. split; [by apply Hf|].
  by intros ->.
Qed.

(** The keys after a cursor. *)
Definition after_key (after : option string) (ks : list string) : list string :=
  List.filter (fun k => match after with Some a => String.ltb a k | None => true end) ks.

Lemma after_key_app x ks ks' :
  increasing (ks ++ x :: ks') -> after_key (Some x) (ks ++ x :: ks') = ks'.
Proof.
  unfold increasing, after_key. induction ks as [|k ks IH]; simpl; intros H; apply StronglySorted_inv in H as [H Hf].
  - rewrite string_ltb_irrefl. induction Hf as [|y l Hy Hf IHf]; [done|]. simpl. rewrite Hy. f_equal.
    apply IHf. by apply StronglySorted_inv in H as [? _].
  - rewrite Forall_app, Forall_cons in Hf. destruct Hf as (_ & Hkx & _).
    destruct (String.ltb x k) eqn:E; [|by apply IH].
    pose proof (string_ltb_trans _ _ _ E Hkx) as Hxx. by rewrite string_ltb_irrefl in Hxx.
Qed.

(** Advancing a cursor composes. *)
Lemma after_key_after after x ks :
  increasing ks -> x ∈ after_key after ks -> after_key (Some x) (after_key after ks) = after_key (Some x) ks.
Proof.
  intros Hs Hx. unfold after_key in *. apply List_filter_elem in Hx as [_ Hx].
  induction ks as [|k ks IH]; simpl; [done|]. apply StronglySorted_inv in Hs as [Hs _].
  destruct after as [a|]; simpl.
  - destruct (String.ltb a k) eqn:E1; simpl; destruct (String.ltb x k) eqn:E2; rewrite ?IH by done; try done.
    by rewrite (string_ltb_trans _ _ _ Hx E2) in E1.
  - destruct (String.ltb x k); by rewrite IH.
Qed.

Lemma increasing_after after ks : increasing ks -> increasing (after_key after ks).
Proof.
  unfold increasing, after_key. induction 1 as [|k l Hs IH Hf]; simpl; [constructor|].
  destruct (match after with Some a => String.ltb a k | None => true end); [|done].
  constructor; [done|]. rewrite Forall_forall in *. intros x Hx. apply List_filter_elem in Hx as [Hx _]. auto.
Qed.
End Order.

(** ** One page *)
Section Page.
Context {B V : Type}.

Lemma list_loop_none prefix after limit k ks st :
  list_loop prefix None after limit (k :: ks) st =
  if negb match after with Some a => String.ltb a k | None => true end
  then list_loop prefix None after limit ks st
  else if (ls_emitted st =? limit)%Z
  then {| ls_prefixes := ls_prefixes st; ls_keys := ls_keys st; ls_emitted := ls_emitted st;
          ls_last := ls_last st; ls_truncated := true |}
  else list_loop prefix None after limit ks
         {| ls_prefixes := ls_prefixes st; ls_keys := (ls_keys st ++ [k])%list;
            ls_emitted := (ls_emitted st + 1)%Z; ls_last := Some k; ls_truncated := false |}.
Proof. simpl. by destruct after, (startsWith prefix k). Qed.

Lemma list_loop_flat prefix after limit ks st :
  (ls_emitted st <= limit)%Z -> ls_truncated st = false ->
  let rem := after_key after ks in
  let room := Z.to_nat (limit - ls_emitted st) in
  let st' := list_loop prefix None after limit ks st in
  ls_keys st' = (ls_keys st ++ take room rem)%list /\
  ls_truncated st' = (room <? length rem)%nat /\
  ls_last st' = match last (take room rem) with Some x => Some x | None => ls_last st end /\
  ls_prefixes st' = ls_prefixes st.
Proof.
  revert st. induction ks as [|k ks IH]; intros st Hle Htr rem room st'.
  { subst rem room st'. simpl. rewrite take_nil, app_nil_r. simpl. by rewrite Htr. }
  subst rem st'. rewrite list_loop_none. unfold after_key; cbn [List.filter]; fold (after_key after ks).
  destruct (match after with Some a => String.ltb a k | None => true end) eqn:E; cbn [negb].
  2: { by apply IH. }
  destruct (Z.eqb_spec (ls_emitted st) limit) as [Heq|Hne].
  { subst room. rewrite Heq, Z.sub_diag. simpl. by rewrite app_nil_r. }
  destruct (IH {| ls_prefixes := ls_prefixes st; ls_keys := (ls_keys st ++ [k])%list;
                  ls_emitted := (ls_emitted st + 1)%Z; ls_last := Some k; ls_truncated := false |})
    as (H1 & H2 & H3 & H4); [simpl; lia|done|]. cbn [ls_emitted ls_keys ls_last ls_prefixes] in *.
  assert (Hroom : room = S (Z.to_nat (limit - (ls_emitted st + 1)))) by (subst room; lia).
  rewrite Hroom. set (room' := Z.to_nat (limit - (ls_emitted st + 1))) in *.
  cbn [take length]. rewrite H1, H2, H3, H4, <- app_assoc. simpl.
  split; [done|]. split; [done|]. split; [|done].
  destruct (take room' (after_key after ks)) as [|x l] eqn:Et; [done|].
  rewrite last_cons_cons. by destruct (last (x :: l)) eqn:El; [|apply last_None in El].
Qed.

(** The keys of a listing under a prefix. *)
Definition listed (s : gmap key (object B)) (prefix : string) : list key :=
  js_sort String.leb (List.filter (fun k => bool_decide (is_Some (startsWith prefix k))) (map fst (map_to_list s))).

Lemma listed_increasing s prefix : increasing (listed s prefix).
Proof.
  apply js_sort_increasing. apply NoDup_List_filter. apply NoDup_fst_map_to_list.
Qed.

Lemma NoDup_increasing ks : increasing ks -> NoDup ks.
Proof.
  induction 1 as [|k l Hs IH Hf]; constructor; [|done]. intros Hin. rewrite Forall_forall in Hf.
  specialize (Hf k Hin). by rewrite string_ltb_irrefl in Hf.
Qed.

Lemma listed_length s prefix : length (listed s prefix) <= size s.
Proof.
  unfold listed. rewrite js_sort_perm, <- length_map_to_list, <- (length_map fst (map_to_list s)).
  induction (map fst (map_to_list s)) as [|k l IH]; simpl; [done|].
  case_bool_decide; simpl; lia.
Qed.

Lemma elem_of_listed s prefix k :
  k ∈ listed s prefix <-> is_Some (s !! k) /\ is_Some (startsWith prefix k).
Proof.
  unfold listed. rewrite elem_of_js_sort, List_filter_elem, bool_decide_eq_true.
  assert (Hm : k ∈ map fst (map_to_list s) <-> is_Some (s !! k)); [|by rewrite Hm].
  rewrite list_elem_of_fmap. split.
  - intros ([k' o] & -> & H). apply elem_of_map_to_list in H. eauto.
  - intros [o Ho]. exists (k, o). split; [done|]. by apply elem_of_map_to_list.
Qed.

Definition page_options (prefix : string) (cursor : option string) : BucketListOptions :=
  {| l_prefix := Some prefix; l_delimiter := None; l_cursor := cursor; l_limit := None; l_startAfter := None |}.

Lemma bucket_list_page (s : gmap key (object B)) prefix cursor :
  truthy cursor = cursor ->
  let rem := after_key cursor (listed s prefix) in
  exists page, bucket_list (V := V) s (page_options prefix cursor) = Ok page /\
    map i_key (lr_objects page) = take 1000 rem /\
    lr_truncated page = (1000 <? length rem)%nat /\
    lr_cursor page = (if (1000 <? length rem)%nat then last (take 1000 rem) else None) /\
    (forall i, i ∈ lr_objects page -> exists o, s !! i_key i = Some o /\ i = info_of (i_key i) o).
Proof.
  intros Ht rem. eexists. split; [reflexivity|]. cbn [lr_objects lr_truncated lr_cursor].
  destruct (list_loop_flat prefix (string_max (truthy cursor) None) 1000
    (listed s prefix) {| ls_prefixes := []; ls_keys := []; ls_emitted := 0; ls_last := None; ls_truncated := false |})
    as (H1 & H2 & H3 & _); [simpl; lia|done|].
  assert (Hc : string_max (truthy cursor) None = cursor) by (rewrite Ht; by destruct cursor).
  cbn [l_prefix page_options l_delimiter l_cursor l_startAfter l_limit default truthy] in *.
  unfold listed in *. rewrite Hc in *. fold (listed s prefix) in *.
  cbn [ls_emitted ls_keys ls_last app] in *. change (Z.to_nat (1000 - 0)) with 1000%nat in *.
  fold rem in H1, H2, H3. rewrite H1, H2, H3.
  assert (Hin : forall k, k ∈ take 1000 rem -> is_Some (s !! k)).
  { intros k Hk. assert (Hk' : k ∈ rem) by (rewrite <- (take_drop 1000 rem); apply elem_of_app; by left).
    clear Hk. rename Hk' into Hk.
    subst rem. unfold after_key in Hk. apply List_filter_elem in Hk as [Hk _].
    by apply elem_of_listed in Hk as [? _]. }
  split; [|split; [done|split]].
  - revert Hin. clear. generalize (take 1000 rem) as l. induction l as [|k l IH]; intros Hin; [done|]. simpl.
    destruct (Hin k) as [o Ho]; [by left|]. rewrite Ho. simpl. f_equal. apply IH.
    intros k' Hk'. apply Hin. by right.
  - by destruct (last (take 1000 rem)).
  - intros i Hi. apply list_elem_of_omap in Hi as (k & _ & Hk).
    destruct (s !! k) as [o|] eqn:Ho; [|done]. injection Hk as <-. by exists o.
Qed.
End Page.

(** ** Paging *)
Section Paging.
Context {B V : Type}.
Implicit Types w : world B V.

(** [iterateBucketPages]: the pages in order; [fuel] bounds their number. *)
Fixpoint iterateBucketPages (fuel : nat) (options : BucketListOptions) (cursor : option string)
    : prog B V (list BucketListResult) :=
  match fuel with
  | O => Throw (IoError "out of fuel")
  | S fuel' =>
      page ← call (OList {| l_prefix := l_prefix options; l_delimiter := l_delimiter options;
                            l_cursor := cursor; l_limit := l_limit options;
                            l_startAfter := l_startAfter options |});
      match truthy (if lr_truncated page then lr_cursor page else None) with
      | Some c => rest ← iterateBucketPages fuel' options (Some c); mret (page :: rest)
      | None => mret [page]
      end
  end.

Definition listAllObjects (fuel : nat) (prefix : string) : prog B V (list info) :=
  pages ← iterateBucketPages fuel (page_options prefix None) None;
  mret (concat (map lr_objects pages)).

Definition listAllKeys (fuel : nat) (prefix : string) : prog B V (list key) :=
  pages ← iterateBucketPages fuel (page_options prefix None) None;
  mret (concat (map (fun res => map i_key (lr_objects res)) pages)).

Definition listAllPrefixes (fuel : nat) (prefix delimiter : string) : prog B V (list string) :=
  pages ← iterateBucketPages fuel
    {| l_prefix := Some prefix; l_delimiter := Some delimiter; l_cursor := None; l_limit := None; l_startAfter := None |} None;
  mret (js_sort String.leb (js_set (concat (map lr_delimitedPrefixes pages)))).

(** [readStoredObjects]: vanished and corrupt objects are dropped, order is kept.  The
    bounded parallelism of the reads is not visible in the result. *)
Fixpoint readStoredObjects {T} `{!Codec B T} (keys : list key) : prog B V (list T) :=
  match keys with
  | [] => mret []
  | k :: keys' =>
      obj ← call (OGet k);
      rest ← readStoredObjects keys';
      mret (match obj ≫= fun o => parse (o_body o) with Some x => x :: rest | None => rest end)
  end.

Definition deleteByPrefix (fuel : nat) (prefix : string) : prog B V nat :=
  keys ← listAllKeys fuel prefix;
  match keys with
  | [] => mret 0
  | _ => call (ODelete keys) ≫= fun _ => mret (length keys)
  end.

(** The last key of a full page is a usable cursor. *)
Lemma cursor_nonempty ks x : increasing ks -> 1 < length ks -> last ks = Some x -> x <> "".
Proof.
  destruct ks as [|a [|b l]]; simpl; intros Hs Hl Hx; try lia. apply StronglySorted_inv in Hs as [_ Hf].
  rewrite Forall_forall in Hf. assert (Hin : x ∈ b :: l).
  { change (last (b :: l) = Some x) in Hx. apply last_Some in Hx as [l' ->]. apply elem_of_app. right. by left. }
  specialize (Hf x Hin). intros ->. by destruct a.
Qed.

Lemma split_at_last (rem : list string) n x :
  last (take n rem) = Some x -> exists l, rem = l ++ x :: drop n rem.
Proof.
  intros H. apply last_Some in H as [l Hl]. exists l.
  rewrite <- (take_drop n rem) at 1. rewrite Hl, <- app_assoc. done.
Qed.

Lemma iterate_spec t w prefix fuel cursor :
  truthy cursor = cursor ->
  let rem := after_key cursor (listed (store w) prefix) in
  length rem < fuel ->
  exists pages, run t (iterateBucketPages fuel (page_options prefix None) cursor) w = (Ok pages, w) /\
    concat (map (fun res => map i_key (lr_objects res)) pages) = rem /\
    forall p i, p ∈ pages -> i ∈ lr_objects p -> exists o, store w !! i_key i = Some o /\ i = info_of (i_key i) o.
Proof.
  revert cursor. induction fuel as [|fuel IH]; intros cursor Hc rem Hlen; [lia|].
  destruct (bucket_list_page (V := V) (store w) prefix cursor Hc) as (page & Hp & Hk & Ht & Hcur & Hi).
  cbn [iterateBucketPages]. unfold mbind, prog_bind. rewrite run_bind, run_call.
  cbn [exec l_prefix l_delimiter l_limit l_startAfter page_options].
  change {| l_prefix := Some prefix; l_delimiter := None; l_cursor := cursor; l_limit := None; l_startAfter := None |}
    with (page_options prefix cursor). rewrite Hp, Ht, Hcur. fold rem.
  fold rem in Hk. destruct (Nat.ltb_spec 1000 (length rem)) as [Hlt|Hge].
  2: { exists [page]. split; [done|]. simpl. rewrite app_nil_r, Hk. split; [by apply take_ge|].
       intros p i Hpp Hii. apply list_elem_of_singleton in Hpp as ->. by apply Hi. }
  assert (Hinc : increasing rem) by apply increasing_after, listed_increasing.
  destruct (last (take 1000 rem)) as [x|] eqn:Hlast.
  2: { apply last_None in Hlast. apply (f_equal length) in Hlast. rewrite length_take in Hlast. cbn [length] in Hlast. lia. }
  destruct (split_at_last _ _ _ Hlast) as [l Hl].
  assert (Hx : x <> "").
  { apply (cursor_nonempty (take 1000 rem)); [|rewrite length_take; lia|done].
    rewrite <- (take_drop 1000 rem) in Hinc. unfold increasing in *.
    by apply StronglySorted_app_1_l in Hinc. }
  assert (Htr : truthy (Some x) = Some x) by (by destruct x).
  assert (Hrem : after_key (Some x) (listed (store w) prefix) = drop 1000 rem).
  { rewrite <- (after_key_after cursor) by (try apply listed_increasing;
      fold rem; rewrite Hl; apply elem_of_app; right; by left).
    fold rem. rewrite Hl at 1. rewrite Hl in Hinc. by apply after_key_app. }
  rewrite Htr. destruct (IH (Some x) Htr) as (pages & Hrun & Hks & Hii).
  { rewrite Hrem, length_drop. lia. }
  rewrite run_bind, Hrun. exists (page :: pages). split; [done|]. simpl. rewrite Hks, Hk, Hrem.
  split; [apply take_drop|]. intros p i Hpp Hpi. apply elem_of_cons in Hpp as [->|Hpp]; [by apply Hi|by eapply Hii].
Qed.

(** The pages of a prefix of a quiet store hold its keys in order. *)
Lemma pages_complete t w prefix fuel :
  size (store w) < fuel ->
  exists pages, run t (iterateBucketPages fuel (page_options prefix None) None) w = (Ok pages, w) /\
    map i_key (concat (map lr_objects pages)) = listed (store w) prefix /\
    forall i, i ∈ concat (map lr_objects pages) -> exists o, store w !! i_key i = Some o /\ i = info_of (i_key i) o.
Proof.
  intros Hf. pose proof (NoDup_increasing _ (listed_increasing (store w) prefix)) as Hnd.
  assert (Hall : after_key None (listed (store w) prefix) = listed (store w) prefix).
  { unfold after_key. induction (listed (store w) prefix) as [|k l IH]; simpl; [done|].
    f_equal. apply IH. by apply NoDup_cons in Hnd as [_ ?]. }
  destruct (iterate_spec t w prefix fuel None eq_refl) as (pages & Hrun & Hk & Hi).
  { rewrite Hall. pose proof (listed_length (store w) prefix). lia. }
  exists pages. split; [done|]. rewrite Hall in Hk. split; [by rewrite <- Hk, concat_map, map_map|].
  intros i Hin. apply list_elem_of_In, in_concat in Hin as (l & Hl & Hin).
  apply in_map_iff in Hl as (p & <- & Hp). eapply Hi; by apply list_elem_of_In.
Qed.

Lemma run_listAllObjects t w prefix fuel :
  size (store w) < fuel ->
  exists objects, run t (listAllObjects fuel prefix) w = (Ok objects, w) /\
    map i_key objects = listed (store w) prefix /\
    forall i, i ∈ objects -> exists o, store w !! i_key i = Some o /\ i = info_of (i_key i) o.
Proof.
  intros Hf. destruct (pages_complete t w prefix fuel Hf) as (pages & Hrun & Hk & Hi).
  exists (concat (map lr_objects pages)). unfold listAllObjects, mbind, prog_bind. by rewrite run_bind, Hrun.
Qed.

(** A paginated listing is complete: whatever the number of pages, listing a prefix
    of a quiet store returns every key under it exactly once and in order, and each entry
    describes the stored object. *)
Theorem listAllObjects_complete t w prefix fuel :
  size (store w) < fuel ->
  exists objects, run t (listAllObjects fuel prefix) w = (Ok objects, w) /\
    run t (listAllKeys fuel prefix) w = (Ok (map i_key objects), w) /\
    map i_key objects = listed (store w) prefix /\ NoDup (map i_key objects) /\
    (forall k, k ∈ map i_key objects <-> is_Some (store w !! k) /\ is_Some (startsWith prefix k)) /\
    (forall i, i ∈ objects -> exists o, store w !! i_key i = Some o /\ i = info_of (i_key i) o).
Proof.
  intros Hf. destruct (pages_complete t w prefix fuel Hf) as (pages & Hrun & Hk & Hi).
  exists (concat (map lr_objects pages)). unfold listAllObjects, listAllKeys, mbind, prog_bind.
  rewrite !run_bind, Hrun. split; [done|]. split; [by rewrite concat_map, map_map|]. split; [done|].
  rewrite Hk. split; [apply NoDup_increasing, listed_increasing|]. split; [intros k; apply elem_of_listed|done].
Qed.

End Paging.

Module StorageSample.
Definition w : world nat unit :=
  write 0 (write 0 empty_world "a/x" {| o_body := 1; o_etag := "e1"; o_uploaded := 0 |})
    "b/y" {| o_body := 2; o_etag := "e2"; o_uploaded := 0 |}.

Example listAllObjects_complete_witness : run 0 (listAllKeys 3 "a/") w = (Ok ["a/x"], w).
Proof.
  destruct (listAllObjects_complete 0 w "a/" 3) as (objs & _ & Hk & Hl & _).
  - vm_compute. lia.
  - rewrite Hk, Hl. vm_compute. reflexivity.
Defined.
End StorageSample.
