(* ===== verification/Keys.v ===== *)
(** * The texts of keys

    What the program makes keys with and reads them back by: [encodeURIComponent] and
    [decodeURIComponent] on texts as their UTF-8 bytes, [slice], and the removal of the
    [.json] a key ends in. *)

From Stdlib Require Import ZArith Lia Ascii.
From S2P Require Import Prelude Store.

(** ** Percent encoding *)

(** [encodeURIComponent], byte by byte *)
Definition hex_digit (n : nat) : ascii := ascii_of_nat (if (n <? 10)%nat then 48 + n else 55 + n).
Definition uri_unreserved (c : ascii) : bool :=
  in_range 48 57 c || in_range 65 90 c || in_range 97 122 c ||
  existsb (Ascii.eqb c) (String.list_ascii_of_string "-_.!~*'()").
Definition encode_char (c : ascii) : list ascii :=
  if uri_unreserved c then [c]
  else let n := nat_of_ascii c in ["%"%char; hex_digit (n / 16); hex_digit (n mod 16)].
Definition encodeURIComponent (s : string) : string :=
  String.string_of_list_ascii (concat (map encode_char (String.list_ascii_of_string s))).

Definition hex_value (c : ascii) : option nat :=
  let n := nat_of_ascii c in
  if in_range 48 57 c then Some (n - 48) else if in_range 65 70 c then Some (n - 55) else if in_range 97 102 c then Some (n - 87) else None.
(** The bytes of a text, each with whether it was escaped; [None] for a bad escape. *)
Fixpoint octets (l : list ascii) : option (list (bool * ascii)) :=
  match l with
  | [] => Some []
  | c :: l =>
      if Ascii.eqb c "%" then
        match l with
        | a :: b :: l =>
            match hex_value a, hex_value b with
            | Some x, Some y => cons (true, ascii_of_nat (16 * x + y)) <$> octets l
            | _, _ => None
            end
        | _ => None
        end
      else cons (false, c) <$> octets l
  end.
(** The bytes that may follow a first byte, as ranges; [None] if it begins no character. *)
Definition continuation (c : ascii) : option (list (nat * nat)) :=
  let any := (128, 191) in
  let n := nat_of_ascii c in
  if (n <? 128)%nat then Some []
  else if (n <? 194)%nat then None
  else if (n <? 224)%nat then Some [any]
  else if (n <? 225)%nat then Some [(160, 191); any]
  else if (n =? 237)%nat then Some [(128, 159); any]
  else if (n <? 240)%nat then Some [any; any]
  else if (n <? 241)%nat then Some [(144, 191); any; any]
  else if (n <? 244)%nat then Some [any; any; any]
  else if (n <? 245)%nat then Some [(128, 143); any; any]
  else None.
(** Escaped bytes make up whole characters. *)
Fixpoint utf8 (pending : list (nat * nat)) (l : list (bool * ascii)) : bool :=
  match l, pending with
  | [], _ => match pending with [] => true | _ => false end
  | (escaped, c) :: l, [] => if escaped then match continuation c with Some pending => utf8 pending l | None => false end else utf8 [] l
  | (escaped, c) :: l, (lo, hi) :: pending => escaped && in_range lo hi c && utf8 pending l
  end.
(** [decodeURIComponent]; [None] where it throws. *)
Definition decodeURIComponent (s : string) : option string :=
  l ← octets (String.list_ascii_of_string s);
  if utf8 [] l then Some (String.string_of_list_ascii (map snd l)) else None.

(** ** Slices *)

(** [s.slice(n)] *)
Definition slice_from (n : nat) (s : string) : string := String.substring n (String.length s - n) s.
(** [.replace(/\.json$/, '')] *)
Definition strip_json (s : string) : string :=
  let n := (String.length s - 5)%nat in
  if String.substring n 5 s === ".json" then String.substring 0 n s else s.

(** ** Laws *)

Lemma substring_app_r a b n m : n = String.length a -> m = String.length b -> String.substring n m (a +:+ b) = b.
Proof.
  intros -> ->. induction a as [|c a IH]; [|exact IH].
  change ("" +:+ b) with b. cbn [String.length]. induction b as [|c b IH]; [done|]. cbn. by rewrite IH.
Qed.
Lemma substring_app_l a b n : n = String.length a -> String.substring 0 n (a +:+ b) = a.
Proof.
  intros ->. induction a as [|c a IH].
  - change ("" +:+ b) with b. by destruct b.
  - change (String.substring 0 (S (String.length a)) (String c (a +:+ b)) = String c a). cbn [String.substring]. by rewrite IH.
Qed.
Lemma slice_from_app a b n : n = String.length a -> slice_from n (a +:+ b) = b.
Proof. intros ->. unfold slice_from. apply substring_app_r; [done|]. rewrite string_app_length. lia. Qed.
Lemma strip_json_app a : strip_json (a +:+ ".json") = a.
Proof.
  unfold strip_json. rewrite string_app_length. cbn [String.length]. replace (String.length a + 5 - 5)%nat with (String.length a) by lia.
  rewrite substring_app_r by done. rewrite bool_decide_eq_true_2 by done. by apply substring_app_l.
Qed.

(** The text of a JavaScript string without lone surrogates. *)
Definition utf8_text (s : string) : bool := utf8 [] (map (pair true) (String.list_ascii_of_string s)).

Lemma hex_value_digit n : (n < 16)%nat -> hex_value (hex_digit n) = Some n.
Proof. intros Hn. do 16 (destruct n as [|n]; [reflexivity|]). lia. Qed.
Lemma unreserved_ascii c : uri_unreserved c = true -> (nat_of_ascii c < 128)%nat /\ Ascii.eqb c "%" = false.
Proof. destruct c as [[] [] [] [] [] [] [] []]; vm_compute; first [done | intros _; split; [lia|done]]. Qed.
Lemma octets_encode l : octets (concat (map encode_char l)) = Some (map (fun c => (negb (uri_unreserved c), c)) l).
Proof.
  induction l as [|c l IH]; [done|]. cbn [map concat]. unfold encode_char at 1. destruct (uri_unreserved c) eqn:E; cbn [app octets negb].
  - apply unreserved_ascii in E as [_ ->]. by rewrite IH.
  - assert (Hn : (nat_of_ascii c < 16 * 16)%nat) by (apply nat_ascii_bounded).
    rewrite (hex_value_digit (nat_of_ascii c / 16)) by (apply Nat.Div0.div_lt_upper_bound; lia).
    rewrite (hex_value_digit (nat_of_ascii c mod 16)) by (apply Nat.mod_upper_bound; lia).
    rewrite IH. rewrite <- Nat.div_mod_eq, ascii_nat_embedding. done.
Qed.

(** Continuation bytes are never written unescaped. *)
Definition high (pending : list (nat * nat)) : Prop := Forall (fun r => (128 <= r.1)%nat) pending.
Lemma continuation_high c pending : continuation c = Some pending -> high pending.
Proof.
  unfold continuation, high. intros H. repeat case_match; simplify_eq; repeat constructor; cbn; lia.
Qed.
Lemma utf8_escaped pending l : high pending -> utf8 pending (map (pair true) l) = true ->
  utf8 pending (map (fun c => (negb (uri_unreserved c), c)) l) = true.
Proof.
  revert pending. induction l as [|c l IH]; intros pending Hp H; [done|]. cbn [map utf8] in *. destruct pending as [|[lo hi] pending].
  - destruct (continuation c) as [pending|] eqn:E; [|done]. destruct (uri_unreserved c) eqn:Eu; cbn [negb].
    + apply unreserved_ascii in Eu as [Hc _]. unfold continuation in E. rewrite (proj2 (Nat.ltb_lt _ _) Hc) in E. injection E as <-. by apply IH.
    + apply IH; [by eapply continuation_high|done].
  - apply Forall_cons in Hp as [Hlo Hp]. cbn in Hlo. rewrite !andb_true_iff in H. destruct H as [[_ Hr] H]. rewrite Hr, (IH _ Hp H).
    destruct (uri_unreserved c) eqn:Eu; [|done]. apply unreserved_ascii in Eu as [Hc _]. unfold in_range in Hr.
    rewrite andb_true_iff, !Nat.leb_le in Hr. lia.
Qed.
(** What is encoded is decoded. *)
Lemma decode_encode s : utf8_text s = true -> decodeURIComponent (encodeURIComponent s) = Some s.
Proof.
  intros H. unfold decodeURIComponent, encodeURIComponent. rewrite String.list_ascii_of_string_of_list_ascii, octets_encode. cbn.
  rewrite (utf8_escaped [] _ ltac:(constructor) H). rewrite map_map. cbn. rewrite map_id. by rewrite String.string_of_list_ascii_of_string.
Qed.
Lemma encodeURIComponent_inj a b : utf8_text a = true -> utf8_text b = true -> encodeURIComponent a = encodeURIComponent b -> a = b.
Proof. intros Ha Hb H. apply decode_encode in Ha, Hb. congruence. Qed.
