(* ===== verification/CasTheorems.v ===== *)
(** * What compare-and-swap gives

    The helpers of [Cas.v] verified against the store contract: concurrent
    read-modify-writes of one object are linearizable, a claim held by a live holder
    is never taken, create-if-absent succeeds once. *)

From Stdlib Require Import ZArith Lia.
From stdpp Require Import relations.
From S2P Require Import Prelude Store Cas.

Section Generic.
Context {B V : Type}.
Implicit Types w : world B V.

(** The writes of one key, latest first. *)
Definition hist (k : key) (w : world B V) : list (tid * object B) :=
  omap (fun e => if e.1.2 === k then Some (e.1.1, e.2) else None) (log w).

Definition mine (t : tid) (k : key) (w : world B V) : nat :=
  length (filter (fun e => e.1 = t) (hist k w)).

Lemma hist_write t w k k' o :
  hist k (write t w k' o) = if k' === k then (t, o) :: hist k w else hist k w.
Proof. unfold hist; simpl. by destruct (k' === k). Qed.

Lemma elem_of_hist k w t o : (t, o) ∈ hist k w <-> (t, k, o) ∈ log w.
Proof.
  unfold hist. rewrite list_elem_of_omap. split.
  - intros ([[t' k'] o'] & Hin & Heq). simpl in Heq. case_bool_decide; by simplify_eq.
  - intros Hin. exists (t, k, o). split; [done|]. simpl. by rewrite bool_decide_eq_true_2.
Qed.

Context (G : tid -> world B V -> world B V -> Prop) `{!Protocol G}.

(** A retry loop inherits what its attempts establish; a lost attempt leaves the
    precondition in place. *)
Lemma hoare_withCasRetry t {A} (P : world B V -> Prop) (attempt : prog B V A) options
    (Q : result (error V) A -> world B V -> Prop) :
  Stable G t P ->
  hoare G t P attempt (fun r w => if r is Err CasWriteConflictError then P w else Q r w) ->
  (forall w, P w -> Q (Err (ConflictError "Write conflict: max retries exceeded")) w) ->
  (forall r, Stable G t (Q r)) ->
  hoare G t P (withCasRetry attempt options) Q.
Proof.
  intros HP Ha Hex HQ. unfold withCasRetry.
  generalize 0 as i. induction (retries options ?? DEFAULT_RETRIES) as [|n IH]; intros i; simpl.
  { by apply hoare_throw. }
  eapply hoare_handle; [exact Ha|]. intros [a|e].
  { by apply hoare_ret. }
  destruct e; try (by apply hoare_throw).
  eapply hoare_bind; [apply hoare_sleep; [done|apply protocol_idle]| |].
  - intros a. eapply hoare_pre; [|apply IH]. by intros w [_ ?].
  - intros e. apply hoare_throw; [apply _|]. by intros w [? _].
Qed.

(** A conditional write through the writer: the losing race is the retryable error. *)
Lemma hoare_cas_put t k b c P (M Q : result (error V) info -> world B V -> Prop) :
  hoare G t P (call (OPut k b c)) M -> (forall r, Stable G t (M r)) ->
  (forall w, M (Err PreconditionFailedError) w -> Q (Err CasWriteConflictError) w) ->
  (forall r w, r <> Err PreconditionFailedError -> M r w -> Q r w) ->
  hoare G t P (cas_put k b c) Q.
Proof.
  intros Hp HM Hc Hq. eapply hoare_catch; [exact Hp| |].
  - intros a. apply hoare_ret; [apply _|]. intros w. by apply Hq.
  - intros e. destruct e; (apply hoare_throw; [apply _|]); intros w Hw; auto; by apply Hq.
Qed.

Lemma hoare_lift t {A} P (r : result (error V) A) `{!Stable G t P} :
  hoare G t P (lift r) (fun r' w => r' = r /\ P w).
Proof. destruct r; [by apply hoare_ret|by apply hoare_throw]. Qed.
End Generic.

(** ** Read-modify-write of one object *)
Module Mutate.
Section Mutate.
Context {B V T : Type} (k : key).
Context (parse : B -> result (error V) T) (stringify : T -> B).
Context (apply : tid -> T -> result (error V) (option T)).
Context (notFound : option (error V)) (options : @CasRetryOptions).
Implicit Types w : world B V.

(** A commit of [t]: the new content is [apply t] of the content it replaces. *)
Definition commit (t : tid) (o : object B) (o' : object B) : Prop :=
  exists cur next, parse (o_body o) = Ok cur /\ apply t cur = Ok (Some next) /\ o_body o' = stringify next.

Definition G (t : tid) w w' : Prop :=
  grows w w' /\
  ((store w' !! k = store w !! k /\ hist k w' = hist k w) \/
   (exists o o', store w !! k = Some o /\ store w' !! k = Some o' /\
      hist k w' = (t, o') :: hist k w /\ commit t o o')).

#[local] Instance mutate_protocol : Protocol G.
Proof. split; [intros t w; split; [done|by left]|by intros t w w' [? _]]. Qed.

Lemma others_mine_mutate t w w' : others G t w w' -> mine t k w' = mine t k w.
Proof.
  unfold mine. intros [(t' & Hne & _ & [[_ ->]|(o & o' & _ & _ & -> & _)])|(ms & _ & ->)]; try done.
  by rewrite filter_cons_False.
Qed.

#[local] Instance stable_mine t n : Stable G t (fun w => mine t k w = n).
Proof. intros w w' Ho <-. by apply others_mine_mutate. Qed.

(** After an attempt or a whole call that started with [n] commits of [t]. *)
Definition after (t : tid) (n : nat) (r : result (error V) (ObjectMutationOutcome T)) w : Prop :=
  wf w /\
  match r with
  | Ok o => if written _ o then mine t k w = S n
            else mine t k w = n /\ apply t (value _ o) = Ok None
  | Err (IoError _) => mine t k w = n \/ mine t k w = S n
  | Err _ => mine t k w = n
  end.

#[local] Instance stable_after t n r : Stable G t (after t n r).
Proof. destruct r as [o|[]]; unfold after; try destruct (written _ o); apply _. Qed.

Lemma mine_commit t w o u :
  mine t k (write t w k {| o_body := o; o_etag := u; o_uploaded := clock w |}) = S (mine t k w).
Proof.
  unfold mine. rewrite hist_write, bool_decide_eq_true_2 by done. by rewrite filter_cons_True.
Qed.

(** Before a commit [t] has [n] writes of the object, after it one more. *)
Definition counted t n w : Prop := wf w /\ mine t k w = n.
#[local] Instance stable_counted t n : Stable G t (counted t n).
Proof. unfold counted. apply _. Qed.

Definition seen t n (x : option (object B)) w : Prop :=
  counted t n w /\ match x with Some obj => logged k obj w | None => True end.
#[local] Instance stable_seen t n x : Stable G t (seen t n x).
Proof. unfold seen. destruct x; apply _. Qed.

Lemma put_commit t n obj cur next :
  parse (o_body obj) = Ok cur -> apply t cur = Ok (Some next) ->
  hoare G t (fun w => counted t n w /\ logged k obj w)
    (call (OPut k (stringify next) (onlyIfEtagMatches (o_etag obj))))
    (put_post (fun w => counted t n w /\ logged k obj w) (fun _ => counted t (S n))).
Proof.
  intros Hcur Hnext. apply hoare_put; [apply _|apply _|apply _|].
  intros w e ([Hw Hm] & Hobj) Hh He obj'.
  destruct (holds_etag_body _ _ _ Hw Hobj Hh) as (o' & Ho' & Hbody).
  assert (Hg : grows w (write t w k obj')) by (eapply (sem_grows t (OPut k _ _)); right; eauto).
  split; [|split; [by apply (grows_wf _ _ Hg)|by rewrite <- Hm; apply mine_commit]].
  split; [done|]. right. exists o', obj'. simpl. rewrite lookup_insert_eq, hist_write, bool_decide_eq_true_2 by done.
  repeat split; try done. exists cur, next. by rewrite Hbody.
Qed.

Lemma mutate_object_attempt_spec t n :
  hoare G t (counted t n) (mutate_attempt k parse stringify (apply t) notFound) (after t n).
Proof.
  unfold mutate_attempt. eapply hoare_bind.
  { apply (hoare_get G t k _ (seen t n)). intros w [Hw Hm]. split; [done|].
    destruct (store w !! k) as [obj|] eqn:E; [|done]. by apply (wf_stored w Hw). }
  2: { intros e. apply hoare_throw; [apply _|]. intros w ([Hw Hm] & msg & ->). split; [done|by left]. }
  intros [obj|].
  2: { apply hoare_throw; [apply _|]. intros w ([Hw Hm] & _). split; [done|].
       destruct (notFound ?? _); auto. }
  eapply hoare_bind; [apply hoare_lift, _| |].
  2: { intros e. apply hoare_throw; [apply _|]. intros w (_ & [Hw Hm] & _). split; [done|].
       destruct e; auto. }
  intros cur. eapply hoare_bind; [apply hoare_lift, _| |].
  2: { intros e. apply hoare_throw; [apply _|]. intros w (_ & _ & [Hw Hm] & _). split; [done|].
       destruct e; auto. }
  intros [next|].
  2: { apply hoare_ret; [apply _|]. intros w (Ha & _ & [Hw Hm] & _). split; [done|]. split; [done|].
       by symmetry. }
  intros w (Hnext & Hcur & HP).
  cut (hoare G t (fun w => counted t n w /\ logged k obj w)
    (cas_put k (stringify next) (onlyIfEtagMatches (o_etag obj)) ≫= fun _ =>
     mret {| value := next; written := true |}) (after t n)); [intros H; by apply H|].
  eapply hoare_bind.
  - eapply hoare_cas_put with (Q := fun r w => after t n (match r with
      | Ok _ => Ok {| value := next; written := true |} | Err e => Err e end) w);
      [apply (put_commit t n obj cur); by symmetry|apply _| |].
    + by intros w' [[? ?] _].
    + intros [i|e] w' Hne Hw'; [done|]. destruct e; try done.
      destruct Hw' as [[[? ?] _]|[_ [? ?]]]; split; auto.
  - intros a. by apply hoare_ret; [apply _|].
  - intros e. by apply hoare_throw; [apply _|].
Qed.

Lemma mutate_spec t n :
  hoare G t (counted t n)
    (mutateObjectWithOutcome k parse stringify (apply t) notFound options) (after t n).
Proof.
  apply hoare_withCasRetry; [apply _|apply _| |done|apply _].
  eapply hoare_post; [|apply mutate_object_attempt_spec]. intros [o|e] w Hw; [done|]. by destruct e.
Qed.

(** A history in which every write but the first applies its writer's function to the
    write before it. *)
Fixpoint chain (h : list (tid * object B)) : Prop :=
  match h with
  | [] => True
  | (t, o') :: h' => match h' with [] => True | (_, o) :: _ => commit t o o' end /\ chain h'
  end.

Record history (t0 : tid) (o0 : object B) w : Prop := {
  history_chain : chain (hist k w);
  history_start : exists l, hist k w = l ++ [(t0, o0)];
  history_last : store w !! k = snd <$> head (hist k w);
}.

Lemma history_G t0 o0 t w w' : G t w w' -> history t0 o0 w -> history t0 o0 w'.
Proof.
  intros [_ [[Hs Hh]|(o & o' & Ho & Ho' & Hh & Hc)]] [H1 [l H2] H3].
  - split; rewrite ?Hs, ?Hh; eauto.
  - split; rewrite ?Hh.
    + destruct (hist k w) as [|[t1 o1] h] eqn:E; [done|]. simpl in *. split; [|done].
      rewrite H3 in Ho. by simplify_eq/=.
    + exists ((t, o') :: l). by rewrite H2.
    + by rewrite Ho'.
Qed.

(** C26: concurrent read-modify-writes of one object are linearizable.  Any number of
    callers, interleaved in any way with any storage faults: the writes of the object
    form one history in which each applies its caller's function to the content just
    before it, the stored object is the last of it, a caller that reports a committed
    write wrote exactly once, and a caller that reports no write or fails by anything
    but a lost answer wrote nothing. *)
Theorem mutate_linearizable n t0 o0 w0 c :
  wf w0 -> hist k w0 = [(t0, o0)] -> store w0 !! k = Some o0 -> n <= t0 ->
  rtc pool_step
    (Config (map (fun t => mutateObjectWithOutcome k parse stringify (apply t) notFound options) (seq 0 n)) w0) c ->
  history t0 o0 (wd c) /\
  (forall t o, threads c !! t = Some (Ret o) -> mine t k (wd c) = if written _ o then 1 else 0) /\
  (forall t e, threads c !! t = Some (Throw e) ->
     mine t k (wd c) <= 1 /\ ((forall msg, e <> IoError msg) -> mine t k (wd c) = 0)).
Proof.
  intros Hw Hh Hs Hn Hr.
  assert (Hv : verified G (fun t => after t 0)
    (Config (map (fun t => mutateObjectWithOutcome k parse stringify (apply t) notFound options) (seq 0 n)) w0)).
  { intros t p Ht. simpl in *. rewrite list_lookup_fmap in Ht.
    destruct (seq 0 n !! t) as [t'|] eqn:E; [|done]. simpl in Ht.
    apply lookup_seq in E as [-> Hlt]. injection Ht as <-. apply mutate_spec. split; [done|].
    unfold mine. rewrite Hh, filter_cons_False by (simpl; lia). done. }
  split; [|split].
  - eapply (pool_invariant G (fun t => after t 0) (history t0 o0)); [| | exact Hv| |exact Hr].
    + intros t w w'. apply history_G.
    + intros w ms _ [? ? ?]. by split.
    + simpl. split; rewrite Hh; [done|by exists []|done].
  - intros t o Ht. destruct (pool_result _ _ _ _ _ _ Hv Hr Ht) as [_ H]. destruct (written _ o); [done|].
    by destruct H.
  - intros t e Ht. destruct (pool_error _ _ _ _ _ _ Hv Hr Ht) as [_ H].
    destruct e; try (split; [lia|done]). split; [lia|]. intros H'. by edestruct H'.
Qed.
End Mutate.
End Mutate.

Module MutateSample.
Definition counter (v : nat) : object nat := {| o_body := v; o_etag := mem_etag 0; o_uploaded := 0 |}.
Definition w0 : world nat unit := write 2 empty_world "counter" (counter 40).
Definition bump (t : tid) (v : nat) : result (error unit) (option nat) := Ok (Some (v + 1)).
Definition caller (t : tid) : prog nat unit (ObjectMutationOutcome nat) :=
  mutateObjectWithOutcome "counter" Ok id (bump t) None no_retry_options.
Definition w1 : world nat unit := snd (run 0 (caller 0) w0).
Definition w2 : world nat unit := snd (run 1 (caller 1) w1).
Definition done_with (v : nat) : prog nat unit (ObjectMutationOutcome nat) :=
  Ret {| value := v; written := true |}.

Lemma counter_wf : wf w0.
Proof.
  split.
  - intros k o. unfold w0; simpl. destruct (decide (k = "counter")) as [->|Hne].
    + rewrite lookup_insert_eq. intros [= <-]. exists 2. by left.
    + by rewrite lookup_insert_ne, lookup_empty by done.
  - intros t t' k o o' H1 H2 _. apply list_elem_of_singleton in H1, H2. by simplify_eq.
  - done.
Qed.

Lemma two_callers :
  rtc pool_step (Config (map caller (seq 0 2)) w0) (Config [done_with 41; done_with 42] w2).
Proof.
  assert (Hm : mem_wf w0).
  { intros t k o H. apply list_elem_of_singleton in H. simplify_eq. exists 0. split; [simpl; lia|done]. }
  destruct (run_reaches 0 (caller 0) [caller 0; caller 1] w0 (Ok {| value := 41; written := true |}) w1)
    as [H1 Hm1]; [done|vm_compute; reflexivity|done|vm_compute; reflexivity|].
  destruct (run_reaches 1 (caller 1) [done_with 41; caller 1] w1 (Ok {| value := 42; written := true |}) w2)
    as [H2 _]; [done|vm_compute; reflexivity|done|vm_compute; reflexivity|].
  etrans; [exact H1|exact H2].
Qed.

Example mutate_linearizable_witness :
  mine 0 "counter" w2 = 1 /\ store w2 !! "counter" = snd <$> head (hist "counter" w2).
Proof.
  destruct (Mutate.mutate_linearizable "counter" Ok id bump None no_retry_options 2 2 (counter 40) w0
              (Config [done_with 41; done_with 42] w2)) as ([_ _ Hl] & Hr & _).
  - exact counter_wf.
  - reflexivity.
  - reflexivity.
  - lia.
  - exact two_callers.
  - split; [apply (Hr 0 {| value := 41; written := true |}); reflexivity|exact Hl].
Defined.
End MutateSample.

(** ** Singleton claims *)
Module Claim.
Section Claim.
Context {B V : Type} (cfg : @SingletonClaimConfig B V).
(** Each thread claims for one holder id of its own. *)
Context (who : tid -> string).
Context (who_inj : forall t t', who t = who t' -> t = t') (who_nonempty : forall t, who t <> "").
(** The stored claim is read back as it was written. *)
Context (claim_roundtrip : forall h, parseHolder cfg (serialize cfg h) = Ok h).
Implicit Types w : world B V.

(** The holder named by the stored claim; absent, released and corrupt claims are free. *)
Definition claim w : option string :=
  match store w !! claim_key cfg with
  | None => None
  | Some o => match parseHolder cfg (o_body o) with
              | Ok (Some h) => if h === "" then None else Some h
              | _ => None
              end
  end.

Context (dead : string -> Prop).

(** A claim is taken over when it is free, one's own, or its holder is dead; it is
    released only by its holder. *)
Definition G (t : tid) w w' : Prop :=
  grows w w' /\
  (store w' !! claim_key cfg = store w !! claim_key cfg \/
   ((forall h, claim w = Some h -> h = who t \/ dead h) /\ claim w' = Some (who t)) \/
   (claim w = Some (who t) /\ claim w' = None)).

(** The liveness probe never declares a holder dead that is not. *)
Context (probe_sound : forall t h P, Stable G t P ->
  hoare G t P (isHolderLive cfg h) (fun r w => P w /\ (r = Ok false -> dead h))).

#[local] Instance claim_protocol : Protocol G.
Proof. split; [intros t w; split; [done|by left]|by intros t w w' [? _]]. Qed.

(** The claim of a holder that is not dead is in no one else's hands. *)
#[local] Instance stable_held t : Stable G t (fun w => ~ dead (who t) -> claim w = Some (who t)).
Proof.
  intros w w' [(t' & Hne & _ & HG)|(ms & _ & ->)] Hc Hl; [|by apply Hc].
  specialize (Hc Hl). destruct HG as [Heq|[[Ht _]|[Ht _]]].
  - unfold claim in *. by rewrite Heq.
  - destruct (Ht _ Hc) as [He|Hd]; [|done]. by apply who_inj in He.
  - rewrite Hc in Ht. injection Ht as He. by apply who_inj in He.
Qed.

(** The tag of a write in the name of [t]'s holder. *)
Definition tagged t (e : string) w : Prop :=
  exists t' o, (t', claim_key cfg, o) ∈ log w /\ o_etag o = e /\ parseHolder cfg (o_body o) = Ok (Some (who t)).
#[local] Instance stable_tagged t e : Stable G t (tagged t e).
Proof. unfold tagged. apply _. Qed.

Definition held t e w : Prop := wf w /\ tagged t e w /\ (~ dead (who t) -> claim w = Some (who t)).

Lemma claim_write t w h e u :
  claim (write t w (claim_key cfg) {| o_body := serialize cfg h; o_etag := e; o_uploaded := u |})
  = match h with Some x => if x === "" then None else Some x | None => None end.
Proof. unfold claim; simpl. rewrite lookup_insert_eq; simpl. by rewrite claim_roundtrip. Qed.

#[local] Instance stable_held' t e : Stable G t (held t e).
Proof. unfold held. apply _. Qed.

(** A conditional write of the claim in the name of [t]. *)
Lemma put_claim t h c P `{!Stable G t P} :
  (forall w, P w -> wf w) ->
  (forall w, P w -> holds (store w) (claim_key cfg) c ->
     match h with
     | Some x => x = who t /\ forall h0, claim w = Some h0 -> h0 = who t \/ dead h0
     | None => claim w = Some (who t)
     end) ->
  hoare G t P (call (OPut (claim_key cfg) (serialize cfg h) c))
    (put_post P (fun i w => wf w /\ (is_Some h -> held t (i_etag i) w))).
Proof.
  intros HPw Hallow. apply hoare_put; [apply _|apply _|apply _|]. intros w e HP Hh He obj.
  assert (Hg : grows w (write t w (claim_key cfg) obj)) by (eapply (sem_grows t (OPut _ _ _)); right; eauto).
  pose proof (grows_wf _ _ Hg (HPw w HP)) as Hw'. specialize (Hallow w HP Hh).
  pose proof (claim_write t w h e (clock w)) as Hc. fold obj in Hc. split.
  - split; [done|]. right. rewrite Hc. destruct h as [x|]; [left|by right].
    destruct Hallow as [-> Hallow]. split; [done|]. by rewrite bool_decide_eq_false_2.
  - split; [done|]. intros [x ->]. destruct Hallow as [-> _]. split; [done|]. split.
    + exists t, obj. split; [by left|]. split; [done|]. simpl. by rewrite claim_roundtrip.
    + intros _. rewrite Hc. by rewrite bool_decide_eq_false_2.
Qed.

(** A claim that was read; when it was one's own it still is, unless one is dead. *)
Definition seen t (x : option (object B)) w : Prop :=
  wf w /\
  match x with
  | Some obj => logged (claim_key cfg) obj w /\
      (parseHolder cfg (o_body obj) = Ok (Some (who t)) -> ~ dead (who t) -> claim w = Some (who t))
  | None => True
  end.
#[local] Instance stable_seen t x : Stable G t (seen t x).
Proof. unfold seen. destruct x; apply _. Qed.

Lemma get_claim t :
  hoare G t wf (call (OGet (claim_key cfg)))
    (fun r => match r with Ok x => seen t x | Err e => fun w => wf w /\ exists msg, e = IoError msg end).
Proof.
  apply hoare_get; [apply _..|]. intros w Hw. split; [done|].
  destruct (store w !! claim_key cfg) as [obj|] eqn:E; [|done].
  split; [by apply (wf_stored w Hw)|]. intros Hp _. unfold claim. rewrite E, Hp.
  by rewrite bool_decide_eq_false_2.
Qed.

Definition acquired t (r : result (error V) claim_outcome) w : Prop :=
  wf w /\ match r with Ok (Acquired e) => held t e w | _ => True end.
#[local] Instance stable_acquired t r : Stable G t (acquired t r).
Proof. unfold acquired, held. destruct r as [[]|]; apply _. Qed.

(** A write that takes the claim when its condition makes that legitimate. *)
Lemma take_claim t c P `{!Stable G t P} :
  (forall w, P w -> wf w) ->
  (forall w, P w -> holds (store w) (claim_key cfg) c ->
     forall h0, claim w = Some h0 -> h0 = who t \/ dead h0) ->
  hoare G t P (written ← cas_put (claim_key cfg) (serialize cfg (Some (who t))) c;
               mret (Acquired (i_etag written))) (acquired t).
Proof.
  intros HPw Hok. eapply hoare_bind.
  - eapply hoare_cas_put with (Q := fun r w => acquired t (match r with Ok i => Ok (Acquired (i_etag i)) | Err e => Err e end) w).
    + apply put_claim; [apply _|done|]. intros w HP Hh. split; [done|]. by apply Hok.
    + apply _.
    + intros w Hw. split; [by apply HPw|done].
    + intros [i|e] w Hne; [intros [? H]; split; [done|by apply H]|].
      destruct e; try done. intros [?|[_ [? _]]]; split; eauto.
  - intros i. by apply hoare_ret; [apply _|].
  - intros e. by apply hoare_throw; [apply _|].
Qed.

(** The claim read from [obj], still there, may be replaced. *)
Lemma replace_claim t obj :
  (forall h0, parseHolder cfg (o_body obj) = Ok (Some h0) -> h0 <> "" -> h0 = who t \/ dead h0) ->
  hoare G t (fun w => wf w /\ logged (claim_key cfg) obj w)
    (written ← cas_put (claim_key cfg) (serialize cfg (Some (who t))) (onlyIfEtagMatches (o_etag obj));
     mret (Acquired (i_etag written))) (acquired t).
Proof.
  intros Hrep. apply take_claim; [apply _|by intros w [? _]|]. intros w [Hw Hobj] Hh h0.
  unfold claim. destruct (holds_etag_body _ _ _ Hw Hobj Hh) as (o' & -> & ->).
  destruct (parseHolder cfg (o_body obj)) as [[h|]|]; [|done..].
  case_bool_decide as Hne; [done|]. intros [= <-]. by apply Hrep.
Qed.

Lemma claim_attempt_spec t : hoare G t wf (acquire_attempt cfg (who t)) (acquired t).
Proof.
  eapply hoare_bind; [apply get_claim| |].
  2: { intros e. apply hoare_throw; [apply _|]. by intros w [? _]. }
  intros [obj|]; cbv zeta iota.
  - destruct (parseHolder cfg (o_body obj)) as [[h|]|e] eqn:Hp; cbv iota.
    + case_bool_decide as Heq; [subst h|case_bool_decide as Hemp].
      * apply hoare_ret; [apply _|]. intros w (Hw & [t' Hl] & Hc). split; [done|]. split; [done|].
        split; [by exists t', obj|by apply Hc].
      * eapply hoare_pre; [|apply replace_claim]; [by intros w (? & ? & _)|].
        intros h0 Hh0. rewrite Hp in Hh0. by simplify_eq.
      * eapply hoare_bind; [apply probe_sound, _| |].
        -- intros [|].
           ++ apply hoare_ret; [apply _|]. by intros w [[? _] _].
           ++ intros w ((Hw & Hl & _) & Hd). apply replace_claim; [|done].
              intros h0 Hh0. rewrite Hp in Hh0. simplify_eq. right. by apply Hd.
        -- intros e. apply hoare_throw; [apply _|]. by intros w [[? _] _].
    + eapply hoare_pre; [|apply replace_claim]; [by intros w (? & ? & _)|].
      intros h0 Hh0. by rewrite Hp in Hh0.
    + eapply hoare_pre; [|apply replace_claim]; [by intros w (? & ? & _)|].
      intros h0 Hh0. by rewrite Hp in Hh0.
  - apply take_claim; [apply _|by intros w [? _]|]. intros w _ Hh h0. simpl in Hh. unfold claim.
    by rewrite Hh.
Qed.

Lemma acquire_claim_spec t : hoare G t wf (acquireSingletonClaim cfg (who t)) (acquired t).
Proof.
  apply hoare_withCasRetry; [apply _|apply _| |done|apply _].
  eapply hoare_post; [|apply claim_attempt_spec]. intros [o|e] w Hw; [done|].
  by destruct e, Hw.
Qed.

Lemma free_claim t obj :
  parseHolder cfg (o_body obj) = Ok (Some (who t)) ->
  hoare G t (fun w => wf w /\ logged (claim_key cfg) obj w)
    (call (OPut (claim_key cfg) (serialize cfg None) (onlyIfEtagMatches (o_etag obj)))) (fun _ => wf).
Proof.
  intros Hp. eapply hoare_post; [|apply put_claim; [apply _|by intros w [? _]|]].
  { intros [i|[]] w; try done; [by intros [? _]|by intros [? _]|]. by intros [[? _]|(i & ? & _)]. }
  intros w [Hw Hobj] Hh. destruct (holds_etag_body _ _ _ Hw Hobj Hh) as (o' & Ho' & Hb).
  unfold claim. rewrite Ho', Hb, Hp. by rewrite bool_decide_eq_false_2.
Qed.

Lemma release_read_spec t : hoare G t wf (release_read cfg (who t)) (fun _ => wf).
Proof.
  eapply hoare_bind; [apply get_claim| |].
  2: { intros e. apply hoare_throw; [apply _|]. by intros w [? _]. }
  intros [obj|]; cbv iota; [|by apply hoare_ret; [apply _|]; intros w [? _]].
  destruct (parseHolder cfg (o_body obj)) as [h|e] eqn:Hp.
  2: { apply hoare_throw; [apply _|]. by intros w [? _]. }
  case_bool_decide as Hh; [subst h|by apply hoare_ret; [apply _|]; intros w [? _]].
  eapply hoare_bind.
  - eapply hoare_pre; [|by apply free_claim]. by intros w (? & ? & _).
  - intros a. by apply hoare_ret; [apply _|].
  - intros e. by apply hoare_throw; [apply _|].
Qed.

Lemma release_claim_spec t etag :
  hoare G t (fun w => wf w /\ (forall e, etag = Some e -> tagged t e w))
    (releaseSingletonClaim cfg (who t) etag) (fun _ => wf).
Proof.
  eapply hoare_catch with (M := fun _ => wf).
  2: { intros a. by apply hoare_ret; [apply _|]. }
  2: { intros a. by apply hoare_ret; [apply _|]. }
  destruct etag as [e|].
  2: { eapply hoare_pre; [|apply release_read_spec]. by intros w [? _]. }
  intros w [Hw Ht]. destruct (Ht e eq_refl) as (t' & obj & Hl & <- & Hp).
  assert (H : hoare G t (fun w => wf w /\ logged (claim_key cfg) obj w)
    (handle (call (OPut (claim_key cfg) (serialize cfg None) (onlyIfEtagMatches (o_etag obj)))) (fun r =>
       match r with
       | Ok _ => mret tt
       | Err PreconditionFailedError => release_read cfg (who t)
       | Err err => Throw err
       end)) (fun _ => wf)); [|apply H; split; [done|by exists t']].
  eapply hoare_handle; [by apply free_claim|].
  intros [i|[]]; try (by apply hoare_throw; [apply _|]).
  - by apply hoare_ret; [apply _|].
  - apply release_read_spec.
Qed.

(** What a replica does with a claim: keep what it acquired, or give it back. *)
Inductive script := Keep | GiveBack.

Definition play (s : script) (t : tid) : prog B V (option claim_outcome) :=
  o ← acquireSingletonClaim cfg (who t);
  match s, o with
  | GiveBack, Acquired e =>
      releaseSingletonClaim cfg (who t) (Some e) ≫= fun _ => mret None
  | _, _ => mret (Some o)
  end.

Definition played t (r : result (error V) (option claim_outcome)) w : Prop :=
  wf w /\ match r with
          | Ok (Some (Acquired _)) => ~ dead (who t) -> claim w = Some (who t)
          | _ => True
          end.
#[local] Instance stable_played t r : Stable G t (played t r).
Proof. unfold played. destruct r as [[[]|]|]; apply _. Qed.

Lemma play_spec s t : hoare G t wf (play s t) (played t).
Proof.
  eapply hoare_bind; [apply acquire_claim_spec| |].
  2: { intros e. by apply hoare_throw; [apply _|]. }
  intros [e|h].
  2: { destruct s; apply hoare_ret; [apply _| |apply _|]; by intros w [? _]. }
  destruct s.
  - apply hoare_ret; [apply _|]. intros w [Hw (_ & _ & Hc)]. by split.
  - eapply hoare_bind.
    + eapply hoare_pre; [|apply (release_claim_spec t (Some e))].
      intros w [Hw (_ & Ht & _)]. split; [done|]. by intros ? [= <-].
    + intros a. by apply hoare_ret; [apply _|].
    + intros e'. by apply hoare_throw; [apply _|].
Qed.

(** C27: a singleton claim is exclusive.  Any number of replicas acquire, keep or give back
    the claim, interleaved in any way with any storage faults: two replicas that both
    hold the claim at the end cannot both be alive, what a live replica acquired and kept
    is still its own, and the claim of a live holder never passes to another: it is only
    freed, in a step of that holder. *)
Theorem claim_exclusive scripts w0 c :
  wf w0 -> rtc pool_step (Config (imap (fun t s => play s t) scripts) w0) c ->
  (forall i e, threads c !! i = Some (Ret (Some (Acquired e))) -> ~ dead (who i) -> claim (wd c) = Some (who i)) /\
  (forall i j e e', threads c !! i = Some (Ret (Some (Acquired e))) ->
     threads c !! j = Some (Ret (Some (Acquired e'))) -> i <> j -> ~ dead (who i) -> ~ dead (who j) -> False) /\
  (forall c' h, pool_step c c' -> claim (wd c) = Some h -> ~ dead h ->
     claim (wd c') = Some h \/
     (claim (wd c') = None /\ exists t, h = who t /\ forall j, j <> t -> threads c' !! j = threads c !! j)).
Proof.
  intros Hw Hr.
  assert (Hv : verified G played (Config (imap (fun t s => play s t) scripts) w0)).
  { intros i p Hi. simpl in *. rewrite list_lookup_imap in Hi.
    destruct (scripts !! i); [|done]. injection Hi as <-. by apply play_spec. }
  assert (Hkeep : forall i e, threads c !! i = Some (Ret (Some (Acquired e))) -> ~ dead (who i) ->
                  claim (wd c) = Some (who i)).
  { intros i e Hi. by destruct (pool_result _ _ _ _ _ _ Hv Hr Hi) as [_ H]. }
  split; [done|]. split.
  - intros i j e e' Hi Hj Hne Hdi Hdj. apply Hne, who_inj.
    pose proof (Hkeep _ _ Hi Hdi) as H. rewrite (Hkeep _ _ Hj Hdj) in H. by injection H.
  - intros c' h Hs Hc Hd.
    destruct (pool_guarantee _ _ _ _ _ Hv Hr Hs) as [(t & [_ HG] & Ht)|(ms & _ & Ht)].
    + destruct HG as [Heq|[[Hok Hc']|[Hh Hc']]].
      * left. unfold claim in *. by rewrite Heq.
      * left. destruct (Hok _ Hc) as [->|]; done.
      * right. split; [done|]. exists t. split; [congruence|done].
    + left. by rewrite Ht.
Qed.
End Claim.
End Claim.

Module ClaimSample.
Definition cfg : @SingletonClaimConfig (option string) unit :=
  {| claim_key := "_system/apps/p/n.json"; serialize := id; parseHolder := Ok;
     isHolderLive := fun _ => Ret true; claim_retry := no_retry_options |}.
Definition start : list (prog (option string) unit (option claim_outcome)) :=
  imap (fun t s => Claim.play cfg mem_etag s t) [Claim.Keep; Claim.Keep; Claim.GiveBack].
Definition w1 : world (option string) unit := snd (run 0 (Claim.play cfg mem_etag Claim.Keep 0) empty_world).
Definition first : prog (option string) unit (option claim_outcome) := Ret (Some (Acquired (mem_etag 0))).
Definition second : prog (option string) unit (option claim_outcome) := Ret (Some (HeldBy (mem_etag 0))).

Lemma first_wins :
  rtc pool_step (Config start empty_world)
    (Config [first; second; Claim.play cfg mem_etag Claim.GiveBack 2] w1).
Proof.
  assert (Hm : mem_wf (@empty_world (option string) unit)) by (intros t k o H; by apply not_elem_of_nil in H).
  destruct (run_reaches 0 (Claim.play cfg mem_etag Claim.Keep 0) start empty_world
              (Ok (Some (Acquired (mem_etag 0)))) w1)
    as [H1 Hm1]; [done|vm_compute; reflexivity|done|vm_compute; reflexivity|].
  destruct (run_reaches 1 (Claim.play cfg mem_etag Claim.Keep 1) (<[0 := first]> start) w1
              (Ok (Some (HeldBy (mem_etag 0)))) w1)
    as [H2 _]; [done|vm_compute; reflexivity|done|vm_compute; reflexivity|].
  etrans; [exact H1|exact H2].
Qed.

Example claim_exclusive_witness : Claim.claim cfg w1 = Some (mem_etag 0).
Proof.
  destruct (Claim.claim_exclusive cfg mem_etag mem_etag_inj
              ltac:(intros t; discriminate) ltac:(intros h; reflexivity) (fun _ => False)
              ltac:(intros t h P HP; apply hoare_ret; [exact HP|]; intros w Hw; split; [exact Hw|discriminate])
              [Claim.Keep; Claim.Keep; Claim.GiveBack] empty_world
              (Config [first; second; Claim.play cfg mem_etag Claim.GiveBack 2] w1)) as [Hkeep _].
  - exact wf_empty.
  - exact first_wins.
  - apply (Hkeep 0 (mem_etag 0)); [reflexivity|intros []].
Defined.
End ClaimSample.
