(* ===== verification/CasEffects.v ===== *)
(** * Read-modify-write with a stateful transition

    [mutateObject] of [packages/core/src/services/catalog/cas.ts] takes a function of the
    stored record.  Most callers read the clock or draw an id inside it and set variables
    of their own from it; here the transition is a program that stays in the process.
    The rules verify such a transition once and any use of it under interleaving. *)

From Stdlib Require Import ZArith Lia.
From S2P Require Import Prelude Store Cas CasTheorems.

Section Defs.
Context {B V : Type}.

(** [mutateObjectWithOutcome]: the last attempt leaves its [X] behind. *)
Definition mutateM_attempt {T X} `{!Codec B T} (k : key) (apply : T -> prog B V (X * option T))
    (notFound : option (error V)) : prog B V (X * ObjectMutationOutcome T) :=
  obj ← call (OGet k);
  match obj with
  | None => Throw (notFound ?? NotFoundError ("Object " +:+ k +:+ " not found"))
  | Some obj =>
      current ← readStored obj k;
      '(x, next) ← apply current;
      match next with
      | None => mret (x, {| value := current; written := false |})
      | Some next =>
          cas_put k (stringify next) (onlyIfEtagMatches (o_etag obj)) ≫= fun _ =>
          mret (x, {| value := next; written := true |})
      end
  end.

Definition mutateM {T X} `{!Codec B T} (k : key) (apply : T -> prog B V (X * option T))
    (notFound : option (error V)) : prog B V (X * ObjectMutationOutcome T) :=
  withCasRetry (mutateM_attempt k apply notFound) no_retry_options.

(** A transition that is a function of the record. *)
Definition pure_apply {T} (f : T -> option T) (x : T) : prog B V (unit * option T) := mret (tt, f x).

(** ** Programs that stay in the process *)

(** The calls such a program makes, and what it may rely on of their answers. *)
Definition local_op {X} (o : op B V X) : Prop :=
  match o with ONow | OFreshId _ => True | _ => False end.
Definition local_answer {X} (o : op B V X) : X -> Prop :=
  match o in op _ _ X return X -> Prop with
  | ONow => fun n => (0 <= n < MAX_TIME)%Z
  | _ => fun _ => True
  end.

(** [local_post p Q]: [p] only reads the clock and draws ids, and ends in [Q]. *)
Fixpoint local_post {A} (p : prog B V A) (Q : result (error V) A -> Prop) : Prop :=
  match p with
  | Ret a => Q (Ok a)
  | Throw e => Q (Err e)
  | Call o k => local_op o /\ forall x, local_answer o x -> local_post (k (Ok x)) Q
  end.

Lemma local_bind {A C} (p : prog B V A) (f : A -> prog B V C) Q R :
  local_post p R -> (forall a, R (Ok a) -> local_post (f a) Q) -> (forall e, R (Err e) -> Q (Err e)) ->
  local_post (bind p f) Q.
Proof.
  intros Hp Hf He. induction p as [a|e|Y o k IH]; simpl in *; [by apply Hf|by apply He|].
  destruct Hp as [Ho Hk]. split; [done|]. intros x Hx. apply IH. by apply Hk.
Qed.

Lemma local_weaken {A} (p : prog B V A) (Q Q' : result (error V) A -> Prop) :
  (forall r, Q r -> Q' r) -> local_post p Q -> local_post p Q'.
Proof.
  intros HQ. induction p as [a|e|X o k IH]; simpl; auto. intros [Ho Hk]. split; [done|]. auto.
Qed.

(** The same with the times it reads: they do not go back, and [Q] sees the last one. *)
Definition later {X} (o : op B V X) (m : Z) : X -> Z :=
  match o in op _ _ X return X -> Z with ONow => fun n => n | _ => fun _ => m end.

Fixpoint local_timed {A} (m : Z) (p : prog B V A) (Q : result (error V) A -> Z -> Prop) : Prop :=
  match p with
  | Ret a => Q (Ok a) m
  | Throw e => Q (Err e) m
  | Call o k => local_op o /\ forall x, local_answer o x -> (m <= later o m x)%Z -> local_timed (later o m x) (k (Ok x)) Q
  end.

Lemma local_untimed {A} m (p : prog B V A) (Q : result (error V) A -> Prop) :
  local_post p Q -> local_timed m p (fun r _ => Q r).
Proof.
  revert m. induction p as [a|e|X o k IH]; intros m; simpl; auto. intros [Ho Hk]. split; [done|]. auto.
Qed.
End Defs.

(** ** Rules *)

(** A protocol that lets every thread draw ids. *)
Class DrawsIds {B V} (G : tid -> world B V -> world B V -> Prop) : Prop :=
  draws_ids t w id : issued w !! id = None -> G t w (set_issued w (<[id := t]> (issued w))).

(** An assertion that a thread keeps when it draws an id. *)
Class KeepsIds {B V} (P : world B V -> Prop) : Prop :=
  keeps_ids t w id : issued w !! id = None -> P w -> P (set_issued w (<[id := t]> (issued w))).

#[export] Instance keeps_wf {B V} : KeepsIds (@wf B V).
Proof. by intros t w id _ [? ? ?]. Qed.
#[export] Instance keeps_logged {B V} k o : KeepsIds (@logged B V k o).
Proof. by intros t w id _ ?. Qed.
#[export] Instance keeps_and {B V} (P Q : world B V -> Prop) : KeepsIds P -> KeepsIds Q -> KeepsIds (fun w => P w /\ Q w).
Proof. intros HP HQ t w id Hid [? ?]. split; by apply keeps_ids. Qed.
#[export] Instance keeps_const {B V} (φ : Prop) : KeepsIds (fun _ : world B V => φ).
Proof. by intros t w id _. Qed.

Section Rules.
Context {B V : Type} (G : tid -> world B V -> world B V -> Prop) `{!Protocol G} `{!DrawsIds G}.
Implicit Types P : world B V -> Prop.

Lemma hoare_local t {A} P (p : prog B V A) (Q : result (error V) A -> Prop) `{!Stable G t P} `{!KeepsIds P} :
  (forall w, P w -> wf w) -> local_post p Q -> hoare G t P p (fun r w => Q r /\ P w).
Proof.
  intros Hwf. induction p as [a|e|X o k IH]; simpl.
  - intros HQ. by apply hoare_ret.
  - intros HQ. by apply hoare_throw.
  - intros [Ho Hk] w Hw. intros w1 Hr r w2 Hs. pose proof (stable_rely _ _ _ _ _ Hr Hw) as Hw1.
    assert (H : G t w1 w2 /\ P w2 /\ exists x, r = Ok x /\ local_answer o x).
    { destruct o; try done; destruct Hs as [Hs|[? _]]; try done.
      - destruct Hs as [-> ->]. split; [apply protocol_idle|]. split; [done|]. eexists. split; [done|].
        apply (wf_clock _ (Hwf _ Hw1)).
      - destruct Hs as (id & _ & Hid & -> & ->). split; [by apply draws_ids|]. split; [by apply keeps_ids|]. by eexists. }
    destruct H as (HG & HP & x & -> & Hx). split; [done|]. apply (IH (Ok x)); [by apply Hk|done].
Qed.

(** A value bound at once. *)
Lemma hoare_ret_bind t {A C} P (a : A) (f : A -> prog B V C) Q :
  hoare G t P (f a) Q -> hoare G t P (bind (Ret a) f) Q.
Proof. done. Qed.

Lemma hoare_timed t {A} m P (p : prog B V A) (Q : result (error V) A -> Z -> Prop) `{!Stable G t P} `{!KeepsIds P} :
  (forall w, P w -> wf w) -> local_timed m p Q ->
  hoare G t (fun w => P w /\ (m <= clock w)%Z) p (fun r w => exists n, Q r n /\ P w /\ (n <= clock w)%Z).
Proof.
  intros Hwf. revert m. induction p as [a|e|X o k IH]; intros m; simpl.
  - intros HQ. apply hoare_ret; [apply _|]. intros w [? ?]. by exists m.
  - intros HQ. apply hoare_throw; [apply _|]. intros w [? ?]. by exists m.
  - intros [Ho Hk] w Hw. intros w1 Hr r w2 Hs.
    destruct (stable_rely _ _ (fun w => P w /\ (m <= clock w)%Z) _ _ Hr Hw) as [Hw1 Hm].
    assert (H : G t w1 w2 /\ P w2 /\ exists x, r = Ok x /\ local_answer o x /\ (m <= later o m x)%Z /\ (later o m x <= clock w2)%Z).
    { destruct o; try done; destruct Hs as [Hs|[? _]]; try done.
      - destruct Hs as [-> ->]. split; [apply protocol_idle|]. split; [done|]. eexists. split; [done|].
        split; [apply (wf_clock _ (Hwf _ Hw1))|]. cbn. lia.
      - destruct Hs as (id & _ & Hid & -> & ->). split; [by apply draws_ids|]. split; [by apply keeps_ids|].
        eexists. split; [done|]. cbn. split; [done|]. lia. }
    destruct H as (HG & HP & x & -> & Hx & Hmx & Hcx). split; [done|].
    apply (IH (Ok x) (later o m x)); [by apply Hk|done].
Qed.

(** Create-if-absent: written now, or found to be there already. *)
Lemma hoare_putIfAbsent t k b P (S D : world B V -> Prop) `{!Stable G t P} `{!Stable G t S} `{!Stable G t D} :
  (forall w e, P w -> store w !! k = None -> etag_ok w k b e ->
     let obj := {| o_body := b; o_etag := e; o_uploaded := clock w |} in
     G t w (write t w k obj) /\ S (write t w k obj)) ->
  (forall w o, P w -> store w !! k = Some o -> D w) ->
  hoare G t P (putIfAbsent k b)
    (fun r w => match r with Ok true => S w | Ok false => P w /\ D w | Err e => (P w \/ S w) /\ exists msg, e = IoError msg end).
Proof.
  intros HS HD. unfold putIfAbsent.
  eapply hoare_handle with (M := fun r w => match r with
    | Ok _ => S w | Err PreconditionFailedError => P w /\ D w | Err e => (P w \/ S w) /\ exists msg, e = IoError msg end).
  - apply hoare_call; [done|intros [i|[]]; apply _|]. intros w r w' Hw Hs.
    assert (Hput : forall r w', sem t (OPut k b onlyIfNotExists) w r w' ->
      G t w w' /\ (P w' \/ S w') /\ match r with Ok _ => S w' | Err PreconditionFailedError => P w' /\ D w' | Err _ => False end).
    { clear Hs. intros r0 w0 [(Hh & -> & ->)|(Hh & e & He & -> & ->)].
      - split; [apply protocol_idle|]. split; [by left|]. split; [done|]. cbn in Hh.
        destruct (store w !! k) as [o|] eqn:E; [by eapply HD|done].
      - destruct (HS w e Hw Hh He) as [HG HSi]. split; [done|]. split; [by right|done]. }
    destruct Hs as [Hs|(_ & [->|[[r' Hs]|[]]] & msg & ->)].
    + destruct (Hput _ _ Hs) as (? & _ & H). split; [done|]. destruct r as [i|[]]; done.
    + split; [apply protocol_idle|]. split; [by left|by eexists].
    + destruct (Hput _ _ Hs) as (? & ? & _). split; [done|]. split; [done|by eexists].
  - intros [i|e]; [by apply hoare_ret|]. destruct e; try (by apply hoare_throw; [apply _|]; intros w Hw); try by apply hoare_ret; [apply _|].
Qed.

Section Mutate.
Context {T X : Type} `{!Codec B T} (t : tid) (k : key).
Context (apply : T -> prog B V (X * option T)) (notFound : option (error V)).
Context (P : world B V -> Prop) `{!Stable G t P} `{!KeepsIds P} (P_wf : forall w, P w -> wf w).
(** What the transition computes from a valid record, by some time: a successor, or none. *)
Context (φ : T -> X -> T -> Z -> Prop) (ψ : T -> X -> Prop).
Context (apply_ok : forall cur, valid cur ->
  local_timed 0 (apply cur) (fun r m => match r with
                                        | Ok (x, Some next) => φ cur x next m
                                        | Ok (x, None) => ψ cur x
                                        | Err e => e <> CasWriteConflictError
                                        end)).
(** The write of a successor is allowed and establishes [S]. *)
Context (S : T -> X -> T -> world B V -> Prop) (S_stable : forall cur x next, Stable G t (S cur x next)).
Context (commit_ok : forall w o cur x next m e,
  P w -> store w !! k = Some o -> parse (o_body o) = Some cur -> φ cur x next m -> (m <= clock w)%Z ->
  etag_ok w k (stringify next) e ->
  let obj := {| o_body := stringify next; o_etag := e; o_uploaded := clock w |} in
  G t w (write t w k obj) /\ S cur x next (write t w k obj)).

(** After a whole call: committed once, left alone, or unknown after a lost answer. *)
Definition mutated (r : result (error V) (X * ObjectMutationOutcome T)) (w : world B V) : Prop :=
  match r with
  | Ok (x, o) => if written _ o then exists cur, S cur x (value _ o) w else ψ (value _ o) x /\ P w
  | Err (IoError _) => P w \/ exists cur x next, S cur x next w
  | Err _ => P w
  end.
#[local] Instance stable_some_commit x next : Stable G t (fun w => exists cur, S cur x next w).
Proof. apply stable_exists. intros cur. apply S_stable. Qed.
#[local] Instance stable_any_commit : Stable G t (fun w => exists cur x next, S cur x next w).
Proof. do 3 (apply stable_exists; intros ?). apply S_stable. Qed.
#[local] Instance stable_mutated r : Stable G t (mutated r).
Proof. destruct r as [[x o]|[]]; unfold mutated; try destruct (written T o); apply _. Qed.

(** The same but for a lost race, which a retry follows. *)
Lemma put_next obj cur x next m :
  parse (o_body obj) = Some cur -> φ cur x next m ->
  hoare G t (fun w => (P w /\ logged k obj w) /\ (m <= clock w)%Z)
    (call (OPut k (stringify next) (onlyIfEtagMatches (o_etag obj))))
    (put_post (fun w => (P w /\ logged k obj w) /\ (m <= clock w)%Z) (fun _ => S cur x next)).
Proof.
  intros Hcur Hφ. apply hoare_put; [apply _|apply _|apply _|]. intros w e [[HP Hobj] Hm] Hh He obj'.
  destruct (holds_etag_body _ _ _ (P_wf _ HP) Hobj Hh) as (o' & Ho' & Hbody).
  apply (commit_ok w o' cur x next m); [done|done|by rewrite Hbody|done|done|done].
Qed.

Definition read_object (x : option (object B)) w : Prop :=
  P w /\ match x with Some obj => logged k obj w | None => True end.
#[local] Instance stable_read_object x : Stable G t (read_object x).
Proof. unfold read_object. destruct x; apply _. Qed.
#[local] Instance keeps_read_object x : KeepsIds (read_object x).
Proof. unfold read_object. destruct x; apply _. Qed.

Lemma mutateM_attempt_spec : hoare G t P (mutateM_attempt k apply notFound)
  (fun r w => match r with Err CasWriteConflictError => P w | _ => mutated r w end).
Proof.
  unfold mutateM_attempt. eapply hoare_bind.
  { apply (hoare_get G t k _ read_object).
    intros w HP. split; [done|]. destruct (store w !! k) as [obj|] eqn:E; [|done]. by apply (wf_stored w (P_wf w HP)). }
  2: { intros e. apply hoare_throw; [apply _|]. intros w [HP [msg ->]]. by left. }
  intros [obj|].
  2: { apply hoare_throw; [apply _|]. intros w [HP _]. destruct (notFound ?? _); simpl; auto. }
  unfold readStored. destruct (parse (o_body obj)) as [cur|] eqn:Hcur.
  2: { apply hoare_throw; [apply _|]. by intros w [HP _]. }
  apply hoare_ret_bind. eapply hoare_bind with (M := fun r w => exists m,
    (match r with Ok (x, Some next) => φ cur x next m | Ok (x, None) => ψ cur x | Err e => e <> CasWriteConflictError end) /\
    (P w /\ logged k obj w) /\ (m <= clock w)%Z).
  { eapply hoare_pre; [|apply (hoare_timed t 0 (read_object (Some obj)))].
    - intros w Hw. split; [done|]. by destruct (wf_clock _ (P_wf _ (proj1 Hw))).
    - apply _.
    - apply _.
    - intros w Hw. apply P_wf, Hw.
    - apply apply_ok. by eapply parse_valid. }
  2: { intros e. apply hoare_exists. intros m. apply hoare_pure. intros He. apply hoare_throw; [apply _|].
       intros w [[HP _] _]. destruct e; simpl; auto. }
  intros [x [next|]]; apply hoare_exists; intros m; apply hoare_pure; intros Hx.
  2: { apply hoare_ret; [apply _|]. by intros w [[HP _] _]. }
  eapply hoare_bind.
  - eapply hoare_cas_put with (Q := fun r w => match r with
      | Ok _ => S cur x next w | Err CasWriteConflictError => P w | Err e => mutated (Err e) w end);
      [by apply (put_next obj cur x next m)|apply _| |].
    + by intros w' [[? _] _].
    + intros [i|e] w' Hne Hw'; [done|]. destruct e; try done.
      destruct Hw' as [[[? _] _]|[_ HS]]; [by left|]. right. by exists cur, x, next.
  - intros a. apply hoare_ret; [exact (S_stable cur x next)|]. intros w HS. by exists cur.
  - intros e. apply hoare_throw; [destruct e; apply _|]. by intros w; destruct e.
Qed.

Lemma hoare_mutateM_timed : hoare G t P (mutateM k apply notFound) mutated.
Proof.
  apply hoare_withCasRetry; [apply _|apply _| |by intros w|apply _].
  eapply hoare_post; [|apply mutateM_attempt_spec]. by intros [[x o]|[]] w.
Qed.
End Mutate.

(** When the times do not matter. *)
Lemma hoare_mutateM {T X} `{!Codec B T} t k (apply : T -> prog B V (X * option T)) notFound P
    `{!Stable G t P} `{!KeepsIds P} (P_wf : forall w, P w -> wf w) (φ : T -> X -> T -> Prop) (ψ : T -> X -> Prop)
    (S : T -> X -> T -> world B V -> Prop) :
  (forall cur, valid cur -> local_post (apply cur) (fun r =>
     match r with
     | Ok (x, Some next) => φ cur x next
     | Ok (x, None) => ψ cur x
     | Err e => e <> CasWriteConflictError
     end)) ->
  (forall cur x next, Stable G t (S cur x next)) ->
  (forall w o cur x next e, P w -> store w !! k = Some o -> parse (o_body o) = Some cur -> φ cur x next ->
     etag_ok w k (stringify next) e ->
     let obj := {| o_body := stringify next; o_etag := e; o_uploaded := clock w |} in
     G t w (write t w k obj) /\ S cur x next (write t w k obj)) ->
  hoare G t P (mutateM k apply notFound) (mutated P ψ S).
Proof.
  intros Ha HS Hc. apply (hoare_mutateM_timed t k apply notFound P P_wf (fun cur x next _ => φ cur x next) ψ).
  - intros cur Hv. eapply (local_untimed 0); by apply Ha.
  - done.
  - intros w o cur x next m e HP Ho Hp Hφ _ He. by eapply Hc.
Qed.
End Rules.
