(* ===== verification/Calls.v ===== *)
(** * Which calls a program makes

    [calls φ p]: whatever its calls answer, every call [p] makes satisfies [φ].  With it a
    protocol says once what a program that leaves its objects alone is.  The file also
    states what stored texts are relied on for beyond the round trip of [Cas.v]. *)

From Stdlib Require Import ZArith Lia.
From S2P Require Import Prelude Store Cas CasEffects Storage.

Section Calls.
Context {B V : Type} (φ : forall X, op B V X -> Prop).
Fixpoint calls {A} (p : prog B V A) : Prop :=
  match p with
  | Ret _ | Throw _ => True
  | Call o k => φ _ o /\ forall r, calls (k r)
  end.
Lemma calls_bind {A C} (p : prog B V A) (f : A -> prog B V C) : calls p -> (forall a, calls (f a)) -> calls (bind p f).
Proof. intros Hp Hf. induction p as [a|e|X o k IH]; simpl in *; [apply Hf|done|]. destruct Hp as [? Hk]. split; [done|]. auto. Qed.
Lemma calls_handle {A C} (p : prog B V A) (f : result (error V) A -> prog B V C) : calls p -> (forall r, calls (f r)) -> calls (handle p f).
Proof. intros Hp Hf. induction p as [a|e|X o k IH]; simpl in *; [apply Hf|apply Hf|]. destruct Hp as [? Hk]. split; [done|]. auto. Qed.
Lemma calls_catch {A} (p : prog B V A) h : calls p -> (forall e, calls (h e)) -> calls (catch p h).
Proof. intros Hp Hf. induction p as [a|e|X o k IH]; simpl in *; [done|apply Hf|]. destruct Hp as [? Hk]. split; [done|]. auto. Qed.
Lemma calls_call {X} (o : op B V X) : φ X o -> calls (call o).
Proof. intros Ho. split; [done|]. by intros []. Qed.
Lemma calls_putIfAbsent k b : φ _ (OPut k b onlyIfNotExists) -> calls (putIfAbsent k b).
Proof. intros Hk. apply calls_handle; [by apply calls_call|]. by intros [i|[]]. Qed.

(** Loops and listings *)
Context (sleeps : forall ms, φ _ (OSleep ms)).
Lemma calls_withCasRetry {A} (attempt : prog B V A) options : calls attempt -> calls (withCasRetry attempt options).
Proof.
  intros Ha. unfold withCasRetry. generalize 0 as i. induction (retries options ?? DEFAULT_RETRIES) as [|n IH]; intros i; simpl; [done|].
  apply calls_handle; [done|]. intros [a|e]; [done|]. destruct e; try done. apply calls_bind; [by apply calls_call|]. intros _. apply IH.
Qed.
Lemma calls_mutateM {T X} `{!Codec B T} k (apply : T -> prog B V (X * option T)) notFound :
  φ _ (OGet k) -> (forall b c, φ _ (OPut k b c)) -> (forall x, calls (apply x)) -> calls (mutateM k apply notFound).
Proof.
  intros Hg Hp Ha. apply calls_withCasRetry. apply calls_bind; [by apply calls_call|]. intros [o|]; [|done].
  apply calls_bind; [unfold readStored; by destruct (parse (o_body o))|]. intros cur. apply calls_bind; [apply Ha|]. intros [x [next|]]; [|done].
  apply calls_bind; [|done]. apply calls_catch; [by apply calls_call|]. by intros [].
Qed.
Lemma calls_pages n options cursor : (forall o, φ _ (OList o)) -> calls (iterateBucketPages n options cursor).
Proof.
  intros Hl. revert cursor. induction n as [|n IH]; intros cursor; [done|]. apply calls_bind; [by apply calls_call|]. intros page. case_match; [|done].
  apply calls_bind; [apply IH|done].
Qed.
Lemma calls_read {T} `{!Codec B T} keys : (forall k, φ _ (OGet k)) -> calls (readStoredObjects (T := T) keys).
Proof. intros Hg. induction keys as [|k keys IH]; [done|]. apply calls_bind; [by apply calls_call|]. intros obj. by apply calls_bind. Qed.
End Calls.

(** What a program returns, whatever its calls answer. *)
Fixpoint returns {B V A} (p : prog B V A) (Q : A -> Prop) : Prop :=
  match p with
  | Ret a => Q a
  | Throw _ => True
  | Call o k => forall r, returns (k r) Q
  end.
Lemma returns_any {B V A} (p : prog B V A) : returns p (fun _ => True).
Proof. induction p; cbn; auto. Qed.
Lemma returns_bind {B V A C} (p : prog B V A) (f : A -> prog B V C) Q R : returns p R -> (forall a, R a -> returns (f a) Q) -> returns (bind p f) Q.
Proof. intros Hp Hf. induction p as [a|e|X o k IH]; cbn in *; [by apply Hf|done|]. intros r. by apply IH. Qed.
Lemma returns_then {B V A C} (p : prog B V A) (f : A -> prog B V C) Q : (forall a, returns (f a) Q) -> returns (bind p f) Q.
Proof. intros Hf. eapply returns_bind; [apply returns_any|]. by intros a _. Qed.
Definition returned {B V A} (Q : A -> Prop) (P : world B V -> Prop) (r : result (error V) A) (w : world B V) : Prop :=
  P w /\ match r with Ok a => Q a | Err _ => True end.

(** A program keeps what its calls keep. *)
Lemma hoare_calls {B V} (G : tid -> world B V -> world B V -> Prop) `{!Protocol G} t {A} φ P (p : prog B V A) Q `{!Stable G t P} :
  (forall X (o : op B V X) w r w', φ X o -> op_step t o w r w' -> P w -> G t w w' /\ P w') ->
  calls φ p -> returns p Q -> hoare G t P p (returned Q P).
Proof.
  intros Hφ Hp HQ w Hw. revert w Hw. induction p as [a|e|X o k IH]; intros w Hw w1 Hr; [split; [by eapply (stable_rely G t P)|done]..|].
  intros r w2 Hs. destruct Hp as [Ho Hk]. destruct (Hφ X o w1 r w2 Ho Hs) as [HG HP]; [by eapply (stable_rely G t P)|].
  split; [done|]. apply IH; [done|apply HQ|done].
Qed.

(** ** Texts of records *)

(** The text of a record is read back as that record or not at all, and is the text of no
    other record: documented behaviour of JSON. *)
Class Exact (B T : Type) `{Codec B T} : Prop := {
  exact_parse (x y : T) : parse (B := B) (stringify x) = Some y -> y = x;
  stringify_inj (x y : T) : stringify (B := B) x = stringify y -> x = y;
}.
(** The record a text was written from, or is read as. *)
Definition means {B T} `{Codec B T} (b : B) (r : T) : Prop := b = stringify r \/ parse b = Some r.
Lemma means_stringify {B T} `{Exact B T} (x y : T) : means (stringify (B := B) x) y -> y = x.
Proof. intros [Hs|Hp]; [symmetry; by apply (stringify_inj (B := B))|by apply (exact_parse (B := B))]. Qed.
