(* ===== verification/Parallel.v ===== *)
(** * Work that one request does at once

    A request may start several pieces of work and go on while they run: their calls take
    turns in any order.  [par] runs two programs by a given order of turns.  The rule for
    it is that of two replicas: each keeps to the protocol and relies only on what every
    step of it keeps, those of its own request included. *)

From Stdlib Require Import ZArith Lia.
From stdpp Require Import relations.
From S2P Require Import Prelude Store Calls.

Section Par.
Context {B V : Type}.
Implicit Types w : world B V.

(** [turns]: whose call comes next, the first program's for [true]; when the order runs
    out the first program finishes, then the second. *)
Fixpoint par (turns : list bool) (p q : prog B V unit) : prog B V unit :=
  match turns with
  | [] => handle p (fun _ => q)
  | b :: turns =>
      match (if b : bool then p else q) with
      | Call o k => Call o (fun r => if b then par turns (k r) q else par turns p (k r))
      | _ => if b then q else p
      end
  end.

Context (G : tid -> world B V -> world B V -> Prop) `{!Protocol G}.

(** The steps [H] of the pieces are steps of any thread. *)
Context (H : world B V -> world B V -> Prop) (H_idle : forall w, H w w) (H_G : forall t w w', H w w' -> G t w w').

(** Seen from one of the pieces, everyone else is all of the protocol. *)
Definition apart (t t' : tid) w w' : Prop := if decide (t' = t) then H w w' else exists t'', G t'' w w'.
#[export] Instance apart_protocol t : Protocol (apart t).
Proof.
  split.
  - intros t' w. unfold apart. case_decide; [apply H_idle|]. exists t. apply protocol_idle.
  - intros t' w w'. unfold apart. case_decide; [intros Hs; eapply (protocol_grows t), H_G, Hs|]. intros [t'' Hs]. by eapply protocol_grows.
Qed.
Lemma apart_self t w w' : apart t t w w' <-> H w w'.
Proof. unfold apart. by rewrite decide_True. Qed.
Lemma apart_others t t' w w' : G t' w w' -> others (apart t) t w w'.
Proof. intros HG. left. exists (S t). split; [lia|]. unfold apart. rewrite decide_False by lia. by exists t'. Qed.
Lemma stable_apart t P : (forall t' w w', G t' w w' -> P w -> P w') -> (forall w ms, time_passes w ms -> P w -> P (tick w ms)) -> Stable (apart t) t P.
Proof.
  intros HG HT w w' [(t' & Hne & Hs)|(ms & Hms & ->)]; [|by apply HT]. unfold apart in Hs. rewrite decide_False in Hs by done.
  destruct Hs as [t'' Hs]. by apply (HG t'').
Qed.

(** What holds of a piece among everyone holds of it in its thread. *)
Lemma hoare_apart t {A} P (p : prog B V A) Q : hoare (apart t) t P p Q -> hoare G t P p Q.
Proof.
  assert (Hrely : forall w w', rely G t w w' -> rely (apart t) t w w').
  { intros w w'. apply (rtc_subrel (others G t) (others (apart t) t)). intros w1 w2 [(t' & _ & HG)|?]; [by eapply apart_others|by right]. }
  intros Hp w Hw. specialize (Hp w Hw). clear Hw. revert w Hp. induction p as [a|e|X o k IH]; intros w Hp w1 Hr; [by apply Hp, Hrely..|].
  intros r w2 Hs. destruct (Hp w1 (Hrely _ _ Hr) r w2 Hs) as [HG Hk]. split; [by apply H_G, (apart_self t)|]. by apply IH.
Qed.

Notation piece t p w := (rg (rely (apart t) t) (apart t t) t p (fun _ _ => True) w).
Lemma rg_par t turns (p q : prog B V unit) w : piece t p w -> piece t q w -> piece t (par turns p q) w.
Proof.
  assert (Hmove : forall (p : prog B V unit) w w1 w2, rely (apart t) t w w1 -> apart t t w1 w2 -> piece t p w -> piece t p w2).
  { intros p0 w0 w1 w2 Hr HG%apart_self. apply rg_rely; [apply _|]. etrans; [exact Hr|]. apply rtc_once. by apply (apart_others t t), H_G. }
  assert (Hseq : forall (p q : prog B V unit) w, piece t p w -> piece t q w -> piece t (handle p (fun _ => q)) w).
  { clear p q w. induction p as [a|e|X o k IH]; intros q w Hp Hq; [done..|]. intros w1 Hr r w2 Hs. destruct (Hp w1 Hr r w2 Hs) as [HG Hk].
    split; [done|]. apply IH; [done|]. by eapply Hmove. }
  revert p q w. induction turns as [|[] turns IH]; intros p q w Hp Hq; cbn [par]; [by apply Hseq| |].
  - destruct p as [a|e|X o k]; [done..|]. intros w1 Hr r w2 Hs. destruct (Hp w1 Hr r w2 Hs) as [HG Hk]. split; [done|]. apply IH; [done|]. by eapply Hmove.
  - destruct q as [a|e|X o k]; [done..|]. intros w1 Hr r w2 Hs. destruct (Hq w1 Hr r w2 Hs) as [HG Hk]. split; [done|]. apply IH; [|done]. by eapply Hmove.
Qed.

(** The pieces of a request, each verified by itself. *)
Lemma hoare_par t turns (p q : prog B V unit) P Q Q' : hoare (apart t) t P p Q -> hoare (apart t) t P q Q' ->
  hoare (apart t) t P (par turns p q) (fun _ _ => True).
Proof. intros Hp Hq w Hw. apply rg_par; (eapply rg_weaken; [done|]); [by apply Hp|by apply Hq]. Qed.
End Par.
