(* ===== verification/CatalogData.v ===== *)
(** * The catalog's records

    The catalog pointer, the snapshot and its entries
    ([packages/core/src/schema.ts]), the schemas that accept them, the lookup and
    membership indexes of a snapshot
    ([packages/core/src/services/catalog/snapshotCache.ts]) and the projection of the
    authoritative project and notebook records onto their entries
    ([packages/core/src/services/content/catalogProjection.ts]).

    A loose object keeps the fields its schema does not name in [extra].  A [Partial]
    is the list of fields an object literal assigns, in order: spreading one over an
    entry assigns them, [undefined] included. *)

From Stdlib Require Import ZArith Lia.
From S2P Require Import Prelude Constants Schema Identity UtcDate SecurityLabels Store.

Inductive NotebookStatus := NbDraft | NbActive | NbArchived | NbDeleted.
Inductive SourceType := SrcLocal | SrcGit.
#[export] Instance NotebookStatus_eq_dec : EqDecision NotebookStatus.
Proof. solve_decision. Defined.
#[export] Instance SourceType_eq_dec : EqDecision SourceType.
Proof. solve_decision. Defined.

(** Fields of a loose object that the schema does not name, as text. *)
Abbreviation Extra := (list (string * string)) (only parsing).

(** [Catalog] *)
Record Catalog := {
  c_version : Z;
  c_updated_at : Timestamp;
  current_snapshot_id : SnapshotId;
  current_snapshot_key : key;
  previous_snapshot_id : option SnapshotId;
}.

Record JobSchedule := { js_cron : string; js_timezone : string; js_extra : Extra }.
Record SnapshotJobEntry := {
  sj_id : string; sj_enabled : bool; sj_schedule : option JobSchedule;
  sj_updated_at : option Timestamp; sj_extra : Extra;
}.

(** [moving] *)
Record Moving := { mv_move_id : string; mv_destination : ProjectId; mv_extra : Extra }.

(** Security labels of an entry: absent, [null] or labels. *)
Inductive LabelState := LabelsAbsent | LabelsNull | LabelsSet (l : ResourceSecurityLabels).

Record SnapshotNotebookEntry := {
  n_id : NotebookId; n_title : string; n_description : string; n_status : NotebookStatus;
  n_source_type : SourceType; n_author : UserId; n_created_at : Timestamp; n_updated_at : Timestamp;
  n_tags : list string; n_last_run_at : option Timestamp; n_compute_profile : option string;
  n_app_compute_profile : option string; n_security_labels : LabelState;
  n_security_labels_pending : bool; n_jobs : option (list SnapshotJobEntry); n_key_prefix : string;
  n_move_id : option string; n_moving : option Moving; n_extra : Extra;
}.

Record SnapshotProjectEntry := {
  e_id : ProjectId; e_name : string; e_description : string; e_owner : UserId;
  e_status : ProjectStatus; e_created_at : Timestamp; e_updated_at : Timestamp;
  e_notebook_count : Z; e_notebooks : list SnapshotNotebookEntry; e_tags : option (list string);
  e_search_refresh : option string; e_member_ids : option (list UserId);
  e_default_role : option ProjectDefaultRole; e_member_emails : option (list string);
  e_member_groups : option (list string); e_security_labels : LabelState;
  e_security_labels_pending : bool; e_extra : Extra;
}.

Record Snapshot := {
  snapshot_id : SnapshotId; schema_version : Z; created_at : Timestamp; operation : string;
  actor : UserId; projects : list SnapshotProjectEntry; s_extra : Extra;
}.

#[export] Instance Catalog_eq_dec : EqDecision Catalog.
Proof. solve_decision. Defined.
#[export] Instance JobSchedule_eq_dec : EqDecision JobSchedule.
Proof. solve_decision. Defined.
#[export] Instance SnapshotJobEntry_eq_dec : EqDecision SnapshotJobEntry.
Proof. solve_decision. Defined.
#[export] Instance Moving_eq_dec : EqDecision Moving.
Proof. solve_decision. Defined.
#[export] Instance LabelState_eq_dec : EqDecision LabelState.
Proof. solve_decision. Defined.
#[export] Instance SnapshotNotebookEntry_eq_dec : EqDecision SnapshotNotebookEntry.
Proof. solve_decision. Defined.
#[export] Instance SnapshotProjectEntry_eq_dec : EqDecision SnapshotProjectEntry.
Proof. solve_decision. Defined.
#[export] Instance Snapshot_eq_dec : EqDecision Snapshot.
Proof. solve_decision. Defined.

Definition CURRENT_SNAPSHOT_VERSION : Z := 1.

(** ** Schemas *)

Definition nonempty (s : string) : bool := negb (s === "").
Definition all_opt {A} (p : A -> bool) (x : option A) : bool :=
  match x with Some a => p a | None => true end.

Definition CatalogSchema (c : Catalog) : bool :=
  (c_version c =? 1)%Z && utcTimestamp (c_updated_at c) && is_id "snap" (current_snapshot_id c) &&
  all_opt (is_id "snap") (previous_snapshot_id c).

Definition JobScheduleSchema (j : JobSchedule) : bool :=
  ((1 <=? String.length (js_cron j)) && (String.length (js_cron j) <=? 100) &&
   (1 <=? String.length (js_timezone j)) && (String.length (js_timezone j) <=? 64))%nat.

Definition SnapshotJobEntrySchema (j : SnapshotJobEntry) : bool :=
  is_id "job" (sj_id j) && all_opt JobScheduleSchema (sj_schedule j) && all_opt utcTimestamp (sj_updated_at j).

Definition ResourceSecurityLabelsSchema (l : ResourceSecurityLabels) : bool :=
  SECURITY_LABEL_TOKEN (classification l) && forallb SECURITY_LABEL_TOKEN (compartments l) &&
  (length (compartments l) <=? MAX_SECURITY_COMPARTMENTS)%nat.

Definition LabelsSchema (s : LabelState) : bool :=
  match s with LabelsSet l => ResourceSecurityLabelsSchema l | _ => true end.

Definition SnapshotNotebookEntrySchema (n : SnapshotNotebookEntry) : bool :=
  is_id "nb" (n_id n) && nonempty (n_author n) && utcTimestamp (n_created_at n) &&
  utcTimestamp (n_updated_at n) && all_opt utcTimestamp (n_last_run_at n) &&
  LabelsSchema (n_security_labels n) && all_opt (forallb SnapshotJobEntrySchema) (n_jobs n) &&
  all_opt (fun m => is_id "proj" (mv_destination m)) (n_moving n).

(** Stored emails are lower case: the schema lowers them on every read. *)
Definition SnapshotProjectEntrySchema (e : SnapshotProjectEntry) : bool :=
  is_id "proj" (e_id e) && nonempty (e_owner e) && utcTimestamp (e_created_at e) &&
  utcTimestamp (e_updated_at e) && (0 <=? e_notebook_count e)%Z &&
  forallb SnapshotNotebookEntrySchema (e_notebooks e) && all_opt (forallb nonempty) (e_member_ids e) &&
  all_opt (forallb (fun m => toLowerCase m === m)) (e_member_emails e) && LabelsSchema (e_security_labels e).

Definition SnapshotSchema (s : Snapshot) : bool :=
  is_id "snap" (snapshot_id s) && (1 <=? schema_version s)%Z && utcTimestamp (created_at s) &&
  nonempty (actor s) && forallb SnapshotProjectEntrySchema (projects s).

(** ** Partial entries *)

Inductive project_field :=
| PName (x : string) | PDescription (x : string) | POwner (x : UserId) | PStatus (x : ProjectStatus)
| PUpdatedAt (x : Timestamp) | PNotebookCount (x : Z) | PNotebooks (x : list SnapshotNotebookEntry)
| PTags (x : option (list string)) | PSearchRefresh (x : option string)
| PMemberIds (x : option (list UserId)) | PDefaultRole (x : option ProjectDefaultRole)
| PMemberEmails (x : option (list string)) | PMemberGroups (x : option (list string))
| PSecurityLabels (x : LabelState) | PSecurityLabelsPending (x : bool).

Definition assign_project (e : SnapshotProjectEntry) (f : project_field) : SnapshotProjectEntry :=
  let '(Build_SnapshotProjectEntry id name desc owner st ca ua nc nbs tags sr mids dr mems mgs sl slp ex) := e in
  match f with
  | PName x => Build_SnapshotProjectEntry id x desc owner st ca ua nc nbs tags sr mids dr mems mgs sl slp ex
  | PDescription x => Build_SnapshotProjectEntry id name x owner st ca ua nc nbs tags sr mids dr mems mgs sl slp ex
  | POwner x => Build_SnapshotProjectEntry id name desc x st ca ua nc nbs tags sr mids dr mems mgs sl slp ex
  | PStatus x => Build_SnapshotProjectEntry id name desc owner x ca ua nc nbs tags sr mids dr mems mgs sl slp ex
  | PUpdatedAt x => Build_SnapshotProjectEntry id name desc owner st ca x nc nbs tags sr mids dr mems mgs sl slp ex
  | PNotebookCount x => Build_SnapshotProjectEntry id name desc owner st ca ua x nbs tags sr mids dr mems mgs sl slp ex
  | PNotebooks x => Build_SnapshotProjectEntry id name desc owner st ca ua nc x tags sr mids dr mems mgs sl slp ex
  | PTags x => Build_SnapshotProjectEntry id name desc owner st ca ua nc nbs x sr mids dr mems mgs sl slp ex
  | PSearchRefresh x => Build_SnapshotProjectEntry id name desc owner st ca ua nc nbs tags x mids dr mems mgs sl slp ex
  | PMemberIds x => Build_SnapshotProjectEntry id name desc owner st ca ua nc nbs tags sr x dr mems mgs sl slp ex
  | PDefaultRole x => Build_SnapshotProjectEntry id name desc owner st ca ua nc nbs tags sr mids x mems mgs sl slp ex
  | PMemberEmails x => Build_SnapshotProjectEntry id name desc owner st ca ua nc nbs tags sr mids dr x mgs sl slp ex
  | PMemberGroups x => Build_SnapshotProjectEntry id name desc owner st ca ua nc nbs tags sr mids dr mems x sl slp ex
  | PSecurityLabels x => Build_SnapshotProjectEntry id name desc owner st ca ua nc nbs tags sr mids dr mems mgs x slp ex
  | PSecurityLabelsPending x => Build_SnapshotProjectEntry id name desc owner st ca ua nc nbs tags sr mids dr mems mgs sl x ex
  end.

(** [{ ...entry, ...patch }] *)
Definition spread_project (e : SnapshotProjectEntry) (patch : list project_field) : SnapshotProjectEntry :=
  foldl assign_project e patch.

Inductive notebook_field :=
| NTitle (x : string) | NDescription (x : string) | NStatus (x : NotebookStatus) | NUpdatedAt (x : Timestamp)
| NTags (x : list string) | NLastRunAt (x : option Timestamp) | NComputeProfile (x : option string)
| NAppComputeProfile (x : option string) | NSecurityLabels (x : LabelState) | NSecurityLabelsPending (x : bool)
| NJobs (x : option (list SnapshotJobEntry)) | NMoving (x : option Moving).

Definition assign_notebook (n : SnapshotNotebookEntry) (f : notebook_field) : SnapshotNotebookEntry :=
  let '(Build_SnapshotNotebookEntry id ti de st so au ca ua ta lr cp ap sl slp jo kp mi mo ex) := n in
  match f with
  | NTitle x => Build_SnapshotNotebookEntry id x de st so au ca ua ta lr cp ap sl slp jo kp mi mo ex
  | NDescription x => Build_SnapshotNotebookEntry id ti x st so au ca ua ta lr cp ap sl slp jo kp mi mo ex
  | NStatus x => Build_SnapshotNotebookEntry id ti de x so au ca ua ta lr cp ap sl slp jo kp mi mo ex
  | NUpdatedAt x => Build_SnapshotNotebookEntry id ti de st so au ca x ta lr cp ap sl slp jo kp mi mo ex
  | NTags x => Build_SnapshotNotebookEntry id ti de st so au ca ua x lr cp ap sl slp jo kp mi mo ex
  | NLastRunAt x => Build_SnapshotNotebookEntry id ti de st so au ca ua ta x cp ap sl slp jo kp mi mo ex
  | NComputeProfile x => Build_SnapshotNotebookEntry id ti de st so au ca ua ta lr x ap sl slp jo kp mi mo ex
  | NAppComputeProfile x => Build_SnapshotNotebookEntry id ti de st so au ca ua ta lr cp x sl slp jo kp mi mo ex
  | NSecurityLabels x => Build_SnapshotNotebookEntry id ti de st so au ca ua ta lr cp ap x slp jo kp mi mo ex
  | NSecurityLabelsPending x => Build_SnapshotNotebookEntry id ti de st so au ca ua ta lr cp ap sl x jo kp mi mo ex
  | NJobs x => Build_SnapshotNotebookEntry id ti de st so au ca ua ta lr cp ap sl slp x kp mi mo ex
  | NMoving x => Build_SnapshotNotebookEntry id ti de st so au ca ua ta lr cp ap sl slp jo kp mi x ex
  end.

Definition spread_notebook (n : SnapshotNotebookEntry) (patch : list notebook_field) : SnapshotNotebookEntry :=
  foldl assign_notebook n patch.

(** [patch.updated_at] *)
Definition patch_updated_at (p : list project_field) : option Timestamp :=
  last (omap (fun f => match f with PUpdatedAt x => Some x | _ => None end) p).
Definition notebook_patch_updated_at (p : list notebook_field) : option Timestamp :=
  last (omap (fun f => match f with NUpdatedAt x => Some x | _ => None end) p).

Lemma spread_project_id e p : e_id (spread_project e p) = e_id e.
Proof.
  unfold spread_project. revert e. induction p as [|f p IH]; intros e; simpl; [done|].
  rewrite IH. by destruct e, f.
Qed.
Lemma spread_notebook_id n p : n_id (spread_notebook n p) = n_id n.
Proof.
  unfold spread_notebook. revert n. induction p as [|f p IH]; intros n; simpl; [done|].
  rewrite IH. by destruct n, f.
Qed.
#[export] Hint Rewrite spread_project_id spread_notebook_id : hub.

(** ** Indexes of a snapshot *)

(** [projectsById(snapshot).get(id)]: the last entry of a repeated id. *)
Definition projectsById (s : Snapshot) (id : ProjectId) : option SnapshotProjectEntry :=
  last (List.filter (fun e => e_id e === id) (projects s)).

(** [ProjectInvolvement]: the maps as association lists, in insertion order. *)
Record ProjectInvolvement := {
  pi_userIds : list (string * ProjectId); pi_emails : list (string * ProjectId);
  pi_groups : list (string * ProjectId); pi_legacy : list ProjectId; pi_defaultAccess : list ProjectId;
}.

Definition is_none {A} (x : option A) : bool := match x with None => true | Some _ => false end.

Definition involve (i : ProjectInvolvement) (e : SnapshotProjectEntry) : ProjectInvolvement :=
  {| pi_userIds := (pi_userIds i ++ [(e_owner e, e_id e)] ++ map (fun u => (u, e_id e)) (e_member_ids e ?? []))%list;
     pi_emails := (pi_emails i ++ map (fun m => (normalizeEmail m, e_id e)) (e_member_emails e ?? []))%list;
     pi_groups := (pi_groups i ++ map (fun g => (g, e_id e)) (e_member_groups e ?? []))%list;
     pi_legacy := (if is_none (e_member_ids e) || is_none (e_member_emails e) || is_none (e_member_groups e)
                   then pi_legacy i ++ [e_id e] else pi_legacy i)%list;
     pi_defaultAccess := (if negb (e_default_role e === Some DRInherit) && negb (e_default_role e === Some DRNone)
                          then pi_defaultAccess i ++ [e_id e] else pi_defaultAccess i)%list |}.

Definition buildInvolvement (s : Snapshot) : ProjectInvolvement :=
  foldl involve {| pi_userIds := []; pi_emails := []; pi_groups := []; pi_legacy := []; pi_defaultAccess := [] |}
    (projects s).

Definition entries_of (m : list (string * ProjectId)) (k : string) : list ProjectId :=
  map snd (List.filter (fun e => e.1 === k) m).

Definition candidatesFor (s : Snapshot) (subject : IdentitySubject) (includeDefaultAccess : bool) : list ProjectId :=
  let index := buildInvolvement s in
  js_set (pi_legacy index ++ (if includeDefaultAccess then pi_defaultAccess index else []) ++
          entries_of (pi_userIds index) (s_id subject) ++
          entries_of (pi_emails index) (normalizeEmail (s_email subject)) ++
          concat (map (entries_of (pi_groups index)) (s_groups subject ?? [])))%list.

(** ** Projection of the authoritative records *)

(** [RuntimeSchema] *)
Record Runtime := { r_python_version : option string; r_marimo_version : option string }.

(** [NotebookMetaSchema] *)
Record NotebookMeta := {
  nm_preview : option (NotebookId * string);
  nm_schema_version : Z;
  nm_id : NotebookId;
  nm_project_id : ProjectId;
  nm_title : string;
  nm_description : string;
  nm_status : NotebookStatus;
  nm_author : string;
  nm_created_at : Timestamp;
  nm_updated_at : Timestamp;
  nm_last_run_at : option Timestamp;
  nm_tags : list string;
  nm_runtime : option Runtime;
  nm_base_image : option string;
  nm_compute_profile : option string;
  nm_app_compute_profile : option string;
  nm_security_labels : option ResourceSecurityLabels;
  nm_move_id : option string;
}.

(** [labels ?? null] *)
Definition known_labels (l : option ResourceSecurityLabels) : LabelState :=
  match l with Some x => LabelsSet x | None => LabelsNull end.

Definition securityLabelsProjection (authoritative : option ResourceSecurityLabels) (pending finalize : bool)
    : list project_field :=
  if finalize then [PSecurityLabels (known_labels authoritative); PSecurityLabelsPending false]
  else if pending then [PSecurityLabels LabelsAbsent]
  else [PSecurityLabels (known_labels authoritative)].

(** [a >= b] on strings *)
Definition string_ge (a b : string) : bool := String.leb b a.

Definition projectCatalogPatch (p : Project) (e : SnapshotProjectEntry) (finalize : bool) : list project_field :=
  ([PName (p_name p); PDescription (p_description p); PStatus (p_status p); PTags (Some (p_tags p));
    PDefaultRole (Some (p_default_role p ?? DRInherit));
    PUpdatedAt (if string_ge (e_updated_at e) (p_updated_at p) then e_updated_at e else p_updated_at p);
    PMemberIds (Some (omap m_user_id (p_members p)));
    PMemberEmails (Some (omap m_email (p_members p)));
    PMemberGroups (Some (omap m_group (p_members p)))] ++
   securityLabelsProjection (p_security_labels p) (e_security_labels_pending e) finalize)%list.

Definition notebookCatalogPatch (m : NotebookMeta) (n : SnapshotNotebookEntry) (finalize : bool) : list notebook_field :=
  ([NTitle (nm_title m); NDescription (nm_description m); NStatus (nm_status m); NUpdatedAt (nm_updated_at m);
    NTags (nm_tags m); NLastRunAt (nm_last_run_at m); NComputeProfile (nm_compute_profile m);
    NAppComputeProfile (nm_app_compute_profile m)] ++
   (if finalize then [NSecurityLabels (known_labels (nm_security_labels m)); NSecurityLabelsPending false]
    else if n_security_labels_pending n then [NSecurityLabels LabelsAbsent]
    else [NSecurityLabels (known_labels (nm_security_labels m))]))%list.

(** ** Public shapes *)

Record PublicProjectEntry := {
  pp_id : ProjectId; pp_name : string; pp_description : string; pp_owner : UserId; pp_status : ProjectStatus;
  pp_created_at : Timestamp; pp_updated_at : Timestamp; pp_notebook_count : Z; pp_tags : list string;
}.
Definition toPublicProjectEntry (e : SnapshotProjectEntry) (tags : list string) : PublicProjectEntry :=
  {| pp_id := e_id e; pp_name := e_name e; pp_description := e_description e; pp_owner := e_owner e;
     pp_status := e_status e; pp_created_at := e_created_at e; pp_updated_at := e_updated_at e;
     pp_notebook_count := e_notebook_count e; pp_tags := tags |}.

Record PublicNotebookEntry := {
  pn_id : NotebookId; pn_title : string; pn_description : string; pn_status : NotebookStatus;
  pn_source_type : SourceType; pn_author : UserId; pn_created_at : Timestamp; pn_updated_at : Timestamp;
  pn_tags : list string; pn_last_run_at : option Timestamp; pn_compute_profile : option string;
  pn_app_compute_profile : option string; pn_moving : option ProjectId;
}.
Definition toPublicNotebookEntry (n : SnapshotNotebookEntry) : PublicNotebookEntry :=
  {| pn_id := n_id n; pn_title := n_title n; pn_description := n_description n; pn_status := n_status n;
     pn_source_type := n_source_type n; pn_author := n_author n; pn_created_at := n_created_at n;
     pn_updated_at := n_updated_at n; pn_tags := n_tags n; pn_last_run_at := n_last_run_at n;
     pn_compute_profile := n_compute_profile n; pn_app_compute_profile := n_app_compute_profile n;
     pn_moving := mv_destination <$> n_moving n |}.
