(* ===== verification/Catalog.v ===== *)
(** * The catalog service

    [packages/core/src/services/catalog/CatalogService.ts]: the pointer object
    [catalog.json], the immutable snapshots it names, and the operations that move it.
    Replicas share nothing but the store; each keeps parsed snapshots in its own cache.
    Metrics are not modelled.  The ETag-validated pointer cache is a read of the stored
    pointer. *)

From Stdlib Require Import ZArith Lia.
From S2P Require Import Prelude Constants Schema Identity UtcDate Store Cas CatalogData.

Definition catalog_key : key := "_system/catalog.json".
Definition snapshotsPrefix : string := "_system/snapshots/".
(** [paths.snapshot] *)
Definition snapshot_key (id : SnapshotId) : key := snapshotsPrefix +:+ id +:+ ".json".

Definition INITIALIZE_RECHECK_MS : Z := 250.
Definition INITIALIZE_SNAPSHOT_SCAN_LIMIT : Z := 20.

(** What a mutation callback hands back: its own draft, perhaps edited in place, or
    another snapshot. *)
Inductive mutation := Draft (s : Snapshot) | Fresh (s : Snapshot).
Definition mutated (m : mutation) : Snapshot := match m with Draft s | Fresh s => s end.

(** [{ ...mutated, snapshot_id, schema_version, created_at, operation, actor }] *)
Definition stamp (s : Snapshot) (id : SnapshotId) (version : Z) (now : Timestamp) (op : string) (who : UserId)
    : Snapshot :=
  {| snapshot_id := id; schema_version := version; created_at := now; operation := op; actor := who;
     projects := projects s; s_extra := s_extra s |}.

(** The snapshot an initializer writes. *)
Definition initial_snapshot (id : SnapshotId) (now : Timestamp) (who : UserId) : Snapshot :=
  {| snapshot_id := id; schema_version := CURRENT_SNAPSHOT_VERSION; created_at := now;
     operation := "system.initialize"; actor := who; projects := []; s_extra := [] |}.

(** The snapshot a recovery writes. *)
Definition recovered_snapshot (base : option Snapshot) (recovered : list SnapshotProjectEntry)
    (id : SnapshotId) (now : Timestamp) (who : UserId) : Snapshot :=
  {| snapshot_id := id; schema_version := Z.max CURRENT_SNAPSHOT_VERSION ((schema_version <$> base) ?? 1%Z);
     created_at := now; operation := "system.recover"; actor := who; projects := recovered;
     s_extra := (s_extra <$> base) ?? [] |}.

Definition point_to (id : SnapshotId) (now : Timestamp) (previous : option SnapshotId) : Catalog :=
  {| c_version := 1; c_updated_at := now; current_snapshot_id := id; current_snapshot_key := snapshot_key id;
     previous_snapshot_id := previous |}.

Section Catalog.
Context {B : Type} `{!EqDecision B} `{!Codec B Catalog} `{!Codec B Snapshot}.
Local Notation prog := (prog B Snapshot).

(** [upgradeSnapshot]: one live version. *)
Definition upgradeSnapshot (raw : Snapshot) : Snapshot := raw.

Definition createSnapshotId : prog SnapshotId := call (OFreshId "snap").
Definition nowISO : prog Timestamp := now ← call ONow; mret (toISOString now).

(** [readSnapshotEntry]: parsed snapshots are cached by key, failed loads are not. *)
Definition readSnapshot (catalog : Catalog) : prog Snapshot :=
  cached ← call (OCacheGet (current_snapshot_key catalog));
  match cached with
  | Some s => mret s
  | None =>
      object ← call (OGet (current_snapshot_key catalog));
      match object with
      | None => Throw (NotInitializedError ("Catalog recovery required: snapshot " +:+ current_snapshot_id catalog +:+ " not found"))
      | Some object =>
          raw ← readStored object (current_snapshot_key catalog);
          let s := upgradeSnapshot raw in
          call (OCacheSet (current_snapshot_key catalog) s) ≫= fun _ => mret s
      end
  end.

Definition not_initialized : error Snapshot := NotInitializedError "Catalog not found — call initialize() first".

Definition readCurrentCatalog : prog Catalog :=
  object ← call (OGet catalog_key);
  match object with
  | None => Throw not_initialized
  | Some object => readStored object catalog_key
  end.

Definition getCurrentSnapshot : prog Snapshot := catalog ← readCurrentCatalog; readSnapshot catalog.

(** [delete(...).catch(() => {})] *)
Definition delete_best_effort (k : key) : prog unit := handle (call (ODelete [k])) (fun _ => mret tt).

Definition empty_initialize (k : key) (object : option (object B)) : bool :=
  match object with
  | None => true
  | Some o =>
      match parse (o_body o) with
      | Some s => (operation s === "system.initialize") && (match projects s with [] => true | _ => false end)
      | None => false
      end
  end.

Fixpoint all_empty (objects : list info) : prog bool :=
  match objects with
  | [] => mret true
  | i :: rest =>
      object ← call (OGet (i_key i));
      others ← all_empty rest;
      mret (empty_initialize (i_key i) object && others)
  end.

Definition onlyEmptyInitializeSnapshots (listing : BucketListResult) : prog bool :=
  if lr_truncated listing || negb (length (lr_delimitedPrefixes listing) === 0) then mret false
  else all_empty (lr_objects listing).

Definition list_options (prefix : string) (limit : Z) : BucketListOptions :=
  {| l_prefix := Some prefix; l_delimiter := None; l_cursor := None; l_limit := Some limit; l_startAfter := None |}.

Definition initialize (who : UserId) (recheckMs : Z) : prog Snapshot :=
  existing ← call (OGet catalog_key);
  match existing with
  | Some _ => getCurrentSnapshot
  | None =>
      stored_projects ← call (OList (list_options "projects/" 1));
      snapshots ← call (OList (list_options snapshotsPrefix INITIALIZE_SNAPSHOT_SCAN_LIMIT));
      let hasProjects := negb (length (lr_objects stored_projects) === 0) ||
                         negb (length (lr_delimitedPrefixes stored_projects) === 0) in
      blocked ← (if hasProjects then mret true
                 else only ← onlyEmptyInitializeSnapshots snapshots; mret (negb only));
      if blocked : bool then
        head ← call (OHead catalog_key);
        match head with
        | Some _ => getCurrentSnapshot
        | None =>
            call (OSleep recheckMs) ≫= fun _ =>
            head' ← call (OHead catalog_key);
            match head' with
            | Some _ => getCurrentSnapshot
            | None => Throw (NotInitializedError "Catalog recovery required: catalog.json is missing but stored projects or snapshots remain. Run catalog recovery before restarting the service.")
            end
        end
      else
        id ← createSnapshotId;
        now ← nowISO;
        let snapshot := initial_snapshot id now who in
        call (OPut (snapshot_key id) (stringify snapshot) Always) ≫= fun _ =>
        handle (call (OPut catalog_key (stringify (point_to id now None)) onlyIfNotExists)) (fun r =>
          match r with
          | Ok _ => mret snapshot
          | Err PreconditionFailedError => delete_best_effort (snapshot_key id) ≫= fun _ => getCurrentSnapshot
          | Err err => Throw err
          end)
  end.

(** [appendAudit] never fails; [events] says whether an event log is wired. *)
Definition appendAudit (events : bool) (op : string) (who : UserId) : prog unit :=
  if events then handle (call (OAudit op who)) (fun _ => mret tt) else mret tt.

(** ** Moving the pointer *)

Record committed_snapshot := { cs_snapshot : Snapshot; cs_committed : bool }.

(** One attempt of [mutateSnapshot]. *)
Definition mutate_snapshot_attempt (op : string) (who : UserId) (mutateFn : Snapshot -> prog mutation)
    : prog committed_snapshot :=
  catalogObj ← call (OGet catalog_key);
  match catalogObj with
  | None => Throw not_initialized
  | Some catalogObj =>
      catalog ← readStored catalogObj catalog_key;
      currentSnapshot ← readSnapshot catalog;
      result ← mutateFn currentSnapshot;
      if match result with Draft s => bool_decide (stringify s = stringify currentSnapshot) | Fresh _ => false end
      then mret {| cs_snapshot := currentSnapshot; cs_committed := false |}
      else
        newSnapshotId ← createSnapshotId;
        now ← nowISO;
        let newSnapshot := stamp (mutated result) newSnapshotId
          (Z.max CURRENT_SNAPSHOT_VERSION (schema_version currentSnapshot)) now op who in
        call (OPut (snapshot_key newSnapshotId) (stringify newSnapshot) onlyIfNotExists) ≫= fun _ =>
        let newCatalog := point_to newSnapshotId now (Some (current_snapshot_id catalog)) in
        handle (cas_put catalog_key (stringify newCatalog) (onlyIfEtagMatches (o_etag catalogObj))) (fun r =>
          match r with
          | Ok _ =>
              call (OCacheSet (current_snapshot_key newCatalog) newSnapshot) ≫= fun _ =>
              mret {| cs_snapshot := newSnapshot; cs_committed := true |}
          | Err CasWriteConflictError =>
              delete_best_effort (snapshot_key newSnapshotId) ≫= fun _ => Throw CasWriteConflictError
          | Err err => Throw err
          end)
  end.

Definition mutateSnapshot (events : bool) (casRetry : CasRetryOptions) (op : string) (who : UserId)
    (mutateFn : Snapshot -> prog mutation) : prog Snapshot :=
  r ← withCasRetry (mutate_snapshot_attempt op who mutateFn) casRetry;
  (if cs_committed r then appendAudit events op who else mret tt) ≫= fun _ =>
  mret (cs_snapshot r).

(** [commitRecovery]: one attempt, for offline recovery only. *)
Definition commitRecovery (events : bool) (snapshot : Snapshot) (expectedCatalogEtag : option string)
    (previousSnapshotId : option SnapshotId) : prog Snapshot :=
  catalogObj ← call (OGet catalog_key);
  if negb ((o_etag <$> catalogObj) === expectedCatalogEtag) then
    Throw (ConflictError "Catalog changed after recovery inspection. Inspect storage again.")
  else
    let k := snapshot_key (snapshot_id snapshot) in
    call (OPut k (stringify snapshot) onlyIfNotExists) ≫= fun _ =>
    let catalog := point_to (snapshot_id snapshot) (created_at snapshot) previousSnapshotId in
    handle (call (OPut catalog_key (stringify catalog)
              (match catalogObj with Some o => onlyIfEtagMatches (o_etag o) | None => onlyIfNotExists end))) (fun r =>
      match r with
      | Ok _ =>
          call (OCacheSet k snapshot) ≫= fun _ =>
          appendAudit events (operation snapshot) (actor snapshot) ≫= fun _ =>
          mret snapshot
      | Err PreconditionFailedError =>
          delete_best_effort k ≫= fun _ =>
          Throw (ConflictError "Catalog recovery lost a write conflict. Inspect storage again.")
      | Err err => Throw err
      end).

(** The end of [recover], once its report has been accepted: [base] is the snapshot the
    report starts from. *)
Definition recover_accepted (events : bool) (base : option Snapshot) (recovered : list SnapshotProjectEntry)
    (catalogEtag : option string) (previous : option SnapshotId) (who : UserId) : prog Snapshot :=
  id ← createSnapshotId;
  now ← nowISO;
  commitRecovery events (recovered_snapshot base recovered id now who) catalogEtag previous.

(** ** Entry updates *)

(** Patch every entry of the project's id. *)
Definition patch_entries (id : ProjectId) (f : SnapshotProjectEntry -> SnapshotProjectEntry) (s : Snapshot) : Snapshot :=
  {| snapshot_id := snapshot_id s; schema_version := schema_version s; created_at := created_at s;
     operation := operation s; actor := actor s; s_extra := s_extra s;
     projects := map (fun e => if e_id e === id then f e else e) (projects s) |}.

Definition update_project_fn (projectId : ProjectId)
    (patch : SnapshotProjectEntry -> prog (option (list project_field))) (snap : Snapshot) : prog mutation :=
  match projectsById snap projectId with
  | None => mret (Draft snap)
  | Some project =>
      projectPatch ← patch project;
      mret (Fresh (patch_entries projectId (fun e => spread_project e (projectPatch ?? [])) snap))
  end.

Definition updateProjectEntry (events : bool) (casRetry : CasRetryOptions) (op : string) (who : UserId)
    (projectId : ProjectId) (patch : SnapshotProjectEntry -> prog (option (list project_field))) : prog Snapshot :=
  mutateSnapshot events casRetry op who (update_project_fn projectId patch).

Definition append_to (entry : SnapshotNotebookEntry) (p : SnapshotProjectEntry) : SnapshotProjectEntry :=
  spread_project p [PUpdatedAt (n_updated_at entry); PNotebookCount (e_notebook_count p + 1)%Z;
                    PNotebooks (e_notebooks p ++ [entry])%list].

Definition append_notebook_fn (projectId : ProjectId) (entry : SnapshotNotebookEntry) (ifAbsent : bool)
    (snap : Snapshot) : prog mutation :=
  let project := projectsById snap projectId in
  if ifAbsent && match project with Some p => e_status p === ProjectDeleted | None => true end
  then Throw (NotFoundError "Project not found")
  else if ifAbsent && match project with
                      | Some p => existsb (fun n => n_id n === n_id entry) (e_notebooks p)
                      | None => false
                      end
  then Throw (NotebookEntryExistsError snap)
  else match project with
       | None => mret (Draft snap)
       | Some _ => mret (Fresh (patch_entries projectId (append_to entry) snap))
       end.

Definition appendNotebookEntry (events : bool) (casRetry : CasRetryOptions) (op : string) (who : UserId)
    (projectId : ProjectId) (entry : SnapshotNotebookEntry) (ifAbsent : bool) : prog Snapshot :=
  catch (mutateSnapshot events casRetry op who (append_notebook_fn projectId entry ifAbsent))
    (fun error => match error with
                  | NotebookEntryExistsError s => mret s
                  | error => Throw error
                  end).

(** The later of two timestamps, as strings. *)
Definition advance_ts (t : Timestamp) (candidate : option Timestamp) : Timestamp :=
  match candidate with Some c => if String.ltb t c then c else t | None => t end.

Definition notebook_project_patch (notebookId : NotebookId)
    (patch : SnapshotNotebookEntry -> prog (option (list notebook_field)))
    (projectPatch : option (SnapshotProjectEntry -> prog (option (list project_field))))
    (p : SnapshotProjectEntry) : prog (option (list project_field)) :=
  notebookPatch ← match find (fun n => n_id n === notebookId) (e_notebooks p) with
                  | None => mret None
                  | Some notebook => r ← patch notebook; mret (Some (r ?? []))
                  end;
  resolved ← match projectPatch with
             | None => mret []
             | Some f => r ← f p; mret (r ?? [])
             end;
  let updatedAt := advance_ts (advance_ts (e_updated_at p) (notebookPatch ≫= notebook_patch_updated_at))
                     (patch_updated_at resolved) in
  mret (Some (resolved ++
    [PUpdatedAt updatedAt;
     PNotebooks match notebookPatch with
                | None => e_notebooks p
                | Some np => map (fun n => if n_id n === notebookId then spread_notebook n np else n) (e_notebooks p)
                end])%list).

Definition updateNotebookEntry (events : bool) (casRetry : CasRetryOptions) (op : string) (who : UserId)
    (projectId : ProjectId) (notebookId : NotebookId)
    (patch : SnapshotNotebookEntry -> prog (option (list notebook_field)))
    (projectPatch : option (SnapshotProjectEntry -> prog (option (list project_field)))) : prog Snapshot :=
  updateProjectEntry events casRetry op who projectId (notebook_project_patch notebookId patch projectPatch).

(** [candidatesFor] of the service: deleted projects are dropped. *)
Definition service_candidatesFor (subject : IdentitySubject) : prog (list ProjectId) :=
  s ← getCurrentSnapshot;
  mret (List.filter (fun id => negb ((e_status <$> projectsById s id) === Some ProjectDeleted))
          (candidatesFor s subject false)).
End Catalog.
