(* ===== verification/CatalogProtocol.v ===== *)
(** * The catalog under concurrency

    Any number of replicas initialize, mutate, read and recover one catalog, interleaved
    in any way with any storage faults.  The protocol [G] says what a replica may do to
    the pointer and to the snapshots; every operation of [Catalog.v] keeps to it. *)

From Stdlib Require Import ZArith Lia.
From stdpp Require Import relations.
From S2P Require Import Prelude Constants Schema UtcDate Store Cas CasTheorems CatalogData Catalog.

(** ** Keys *)

Lemma length_string_app s x : String.length (s +:+ x) = (String.length s + String.length x)%nat.
Proof. induction s as [|c s IH]; simpl; [done|]. by rewrite IH. Qed.

Lemma string_app_inj_r s1 s2 x : s1 +:+ x = s2 +:+ x -> s1 = s2.
Proof.
  revert s2. induction s1 as [|c s1 IH]; intros [|d s2] H.
  - done.
  - apply (f_equal String.length) in H. rewrite !length_string_app in H. simpl in H. lia.
  - apply (f_equal String.length) in H. rewrite !length_string_app in H. simpl in H. lia.
  - injection H as -> H. f_equal. by apply IH.
Qed.

Lemma snapshot_key_inj i j : snapshot_key i = snapshot_key j -> i = j.
Proof. unfold snapshot_key. intros H%(inj _). by eapply string_app_inj_r. Qed.

Lemma snapshot_key_not_catalog i : snapshot_key i <> catalog_key.
Proof. unfold snapshot_key, catalog_key, snapshotsPrefix. by destruct i. Qed.

Section Protocol.
Context {B : Type} `{!EqDecision B} {CC : Codec B Catalog} {CS : Codec B Snapshot}.
(** The stored forms are those the schemas accept. *)
Context (catalog_codec : forall c : Catalog, valid c <-> CatalogSchema c = true).
Context (snapshot_codec : forall s : Snapshot, valid s <-> SnapshotSchema s = true).
Implicit Types w : world B Snapshot.

(** ** The pointer and what it names *)

Definition pointer w : option Catalog := o ← store w !! catalog_key; parse (o_body o).
Definition cur_id w : option SnapshotId := current_snapshot_id <$> pointer w.
Definition current w : option Snapshot :=
  c ← pointer w; o ← store w !! current_snapshot_key c; parse (o_body o).

(** The pointer names a stored snapshot of that id, a snapshot key only ever had one
    content, and the caches agree with what was stored. *)
Record Inv w : Prop := {
  inv_pointer : forall o, store w !! catalog_key = Some o ->
    exists c so s, parse (o_body o) = Some c /\ current_snapshot_key c = snapshot_key (current_snapshot_id c) /\
      is_Some (issued w !! current_snapshot_id c) /\
      store w !! snapshot_key (current_snapshot_id c) = Some so /\
      parse (o_body so) = Some s /\ snapshot_id s = current_snapshot_id c;
  inv_immutable : forall id b b', ever w (snapshot_key id) b -> ever w (snapshot_key id) b' -> b = b';
  inv_issued : forall id b, ever w (snapshot_key id) b -> is_Some (issued w !! id);
  inv_cache : forall k s, (k, s) ∈ cache w -> exists b, ever w k b /\ parse b = Some s;
  inv_named : forall id b s, ever w (snapshot_key id) b -> parse b = Some s -> snapshot_id s = id;
}.

(** Nothing changed but caches, drawn ids and snapshots the pointer does not name. *)
Definition beside_snapshots (k : key) : Prop := forall id, k <> snapshot_key id.
Record framed w w' : Prop := {
  fr_current : current w' = current w;
  fr_store : forall k, beside_snapshots k -> store w' !! k = store w !! k;
  fr_log : forall t k o, beside_snapshots k -> (t, k, o) ∈ log w' -> (t, k, o) ∈ log w;
  fr_issued : forall id t, issued w !! id = Some t -> issued w' !! id = Some t;
}.
(** What a client adds to the protocol: a relation such steps always keep to. *)
Class Extension (ext : tid -> world B Snapshot -> world B Snapshot -> Prop) : Prop :=
  ext_frame : forall t w w', framed w w' -> ext t w w'.

(** What replica [t] may change: only snapshots whose id it drew, and the pointer only
    to such a snapshot, by a step in [ext t]. *)
Context (ext : tid -> world B Snapshot -> world B Snapshot -> Prop) `{!Extension ext}.

Record change (t : tid) w w' : Prop := {
  ch_inv : Inv w';
  ch_foreign : forall id, issued w !! id <> Some t ->
    store w' !! snapshot_key id = store w !! snapshot_key id /\
    (forall b, ever w' (snapshot_key id) b -> ever w (snapshot_key id) b);
  ch_pointer : cur_id w' = cur_id w \/ exists id, cur_id w' = Some id /\ issued w !! id = Some t;
  ch_ext : ext t w w';
  ch_never_lost : is_Some (store w !! catalog_key) -> is_Some (store w' !! catalog_key);
}.

Definition G (t : tid) w w' : Prop := grows w w' /\ (wf w -> Inv w -> change t w w').

#[export] Instance catalog_protocol : Protocol G.
Proof.
  split; [|by intros t w w' [? _]]. intros t w. split; [done|]. intros _ HI.
  split; auto. apply ext_frame. by split.
Qed.

Lemma inv_tick w ms : Inv w -> Inv (tick w ms).
Proof. intros [H1 H2 H3 H4 H5]. by split. Qed.

(** A replica's working assertion. *)
Definition ok w : Prop := wf w /\ Inv w.

#[export] Instance stable_ok t : Stable G t ok.
Proof.
  intros w w' Ho [Hw HI]. split; [by eapply (stable_wf G t)|].
  destruct Ho as [(t' & _ & _ & HG)|(ms & _ & ->)]; [by apply HG|by apply inv_tick].
Qed.

(** An id drawn by [t] whose snapshot is not written yet. *)
Definition unwritten t id w : Prop :=
  ok w /\ issued w !! id = Some t /\ store w !! snapshot_key id = None /\
  (forall b, ~ ever w (snapshot_key id) b) /\ cur_id w <> Some id.

(** The snapshot of [t]'s id is stored, and the pointer does not name it. *)
Definition prepared t id s w : Prop :=
  ok w /\ issued w !! id = Some t /\
  (exists o, store w !! snapshot_key id = Some o /\ parse (o_body o) = Some s) /\ cur_id w <> Some id.

Lemma others_owned t w w' id :
  others G t w w' -> ok w -> issued w !! id = Some t ->
  store w' !! snapshot_key id = store w !! snapshot_key id /\
  (forall b, ever w' (snapshot_key id) b -> ever w (snapshot_key id) b) /\
  (cur_id w <> Some id -> cur_id w' <> Some id).
Proof.
  intros [(t' & Hne & _ & HG)|(ms & _ & ->)] [Hw HI] Ho; [|done].
  destruct (HG Hw HI) as [_ Hf Hp _ _]. destruct (Hf id) as [H1 H2]; [congruence|].
  split; [done|]. split; [done|]. intros Hn. destruct Hp as [->|(id' & -> & Hi)]; [done|].
  intros [= ->]. congruence.
Qed.

#[export] Instance stable_unwritten t id : Stable G t (unwritten t id).
Proof.
  intros w w' Ho (Hok & Hi & Hs & He & Hp). destruct (others_owned _ _ _ _ Ho Hok Hi) as (H1 & H2 & H3).
  split; [by eapply (stable_ok t)|]. split; [by eapply (stable_issued G t)|]. rewrite H1.
  split; [done|]. split; [|by apply H3]. intros b Hb. by eapply He, H2.
Qed.

#[export] Instance stable_prepared t id s : Stable G t (prepared t id s).
Proof.
  intros w w' Ho (Hok & Hi & Hs & Hp). destruct (others_owned _ _ _ _ Ho Hok Hi) as (H1 & _ & H3).
  split; [by eapply (stable_ok t)|]. split; [by eapply (stable_issued G t)|]. rewrite H1.
  split; [done|]. by apply H3.
Qed.

(** ** Single steps *)

Lemma ever_write t w k o k' b :
  ever (write t w k o) k' b <-> (k' = k /\ b = o_body o) \/ ever w k' b.
Proof.
  unfold ever; simpl. split.
  - intros (t' & o' & Hin & <-). apply elem_of_cons in Hin as [Hin|Hin]; [simplify_eq; by left|right; eauto].
  - intros [[-> ->]|(t' & o' & Hin & <-)]; [exists t, o|exists t', o']; (split; [|done]); set_solver.
Qed.

Lemma ever_remove w ks k b : ever (remove w ks) k b <-> ever w k b.
Proof. done. Qed.

Lemma stored_ever w k o : wf w -> store w !! k = Some o -> ever w k (o_body o).
Proof. intros Hw Hk. destruct (wf_stored w Hw _ _ Hk) as [t Ht]. by exists t, o. Qed.

Lemma pointer_spec w c :
  Inv w -> pointer w = Some c ->
  exists so s, store w !! snapshot_key (current_snapshot_id c) = Some so /\ parse (o_body so) = Some s /\
    current_snapshot_key c = snapshot_key (current_snapshot_id c) /\ snapshot_id s = current_snapshot_id c /\
    is_Some (issued w !! current_snapshot_id c) /\ current w = Some s.
Proof.
  intros HI Hp. pose proof Hp as Hp'. unfold pointer in Hp. destruct (store w !! catalog_key) as [o|] eqn:Ho; [|done]. simpl in Hp.
  destruct (inv_pointer w HI o Ho) as (c' & so & s & Hc & Hk & His & Hso & Hs & Hid).
  assert (c' = c) as -> by congruence. exists so, s. repeat split; try done.
  unfold current. rewrite Hp'. simpl. by rewrite Hk, Hso.
Qed.

(** Touching another key leaves the pointer and what it names alone. *)
Lemma current_frame w w' :
  store w' !! catalog_key = store w !! catalog_key -> Inv w ->
  (forall id, cur_id w = Some id -> store w' !! snapshot_key id = store w !! snapshot_key id) ->
  pointer w' = pointer w /\ cur_id w' = cur_id w /\ current w' = current w.
Proof.
  intros Hc HI Hs. assert (Hp : pointer w' = pointer w) by (unfold pointer; by rewrite Hc).
  unfold cur_id. rewrite Hp. split; [done|]. split; [done|].
  destruct (pointer w) as [c|] eqn:E; unfold current; rewrite Hp, E; [|done]. simpl.
  destruct (pointer_spec w c HI E) as (so & s & _ & _ & Hk & _). rewrite Hk, Hs; [done|].
  unfold cur_id. by rewrite E.
Qed.

Lemma grows_write t w k b e :
  etag_ok w k b e -> grows w (write t w k {| o_body := b; o_etag := e; o_uploaded := clock w |}).
Proof. intros He. eapply (sem_grows t (OPut k b Always)). right. split; [done|]. by exists e. Qed.

Lemma write_snapshot t id s w e :
  unwritten t id w -> SnapshotSchema s = true -> snapshot_id s = id ->
  etag_ok w (snapshot_key id) (stringify s) e ->
  let w' := write t w (snapshot_key id) {| o_body := stringify s; o_etag := e; o_uploaded := clock w |} in
  G t w w' /\ prepared t id s w'.
Proof.
  intros ([Hw HI] & Hi & Hs & He & Hp) Hv Hid Het w'.
  assert (Hg : grows w w') by (by apply grows_write).
  assert (Hcat : store w' !! catalog_key = store w !! catalog_key)
    by (apply lookup_insert_ne, snapshot_key_not_catalog).
  assert (Hoth : forall id', id' <> id -> store w' !! snapshot_key id' = store w !! snapshot_key id')
    by (intros id' Hne; apply lookup_insert_ne; intros H%snapshot_key_inj; congruence).
  destruct (current_frame w w' Hcat HI) as (Hpt & Hcid & Hcur).
  { intros id' Hid'. apply Hoth. intros ->. congruence. }
  assert (HI' : Inv w').
  { destruct HI as [H1 H2 H3 H4 H5]. split.
    - intros o Ho. rewrite Hcat in Ho. destruct (H1 o Ho) as (c & so & s0 & Hc & Hk & His & Hso & Hps & Hsid).
      exists c, so, s0. rewrite Hoth; [done|]. intros Heq. destruct Hp.
      unfold cur_id, pointer. rewrite Ho. simpl. by rewrite Hc, <- Heq.
    - intros id' b b'. unfold w'; rewrite !ever_write. simpl.
      intros [[H%snapshot_key_inj ->]|Hb] [[H'%snapshot_key_inj ->]|Hb']; subst; try done;
        [by destruct (He b')|by destruct (He b)|by eapply H2].
    - intros id' b. unfold w'; rewrite ever_write. simpl. intros [[H%snapshot_key_inj ->]|Hb]; [subst; eauto|by eapply H3].
    - intros k s0 Hk. destruct (H4 k s0 Hk) as (b & Hb & Hb'). exists b. unfold w'; rewrite ever_write. auto.
    - intros id' b s0. unfold w'; rewrite ever_write. simpl. intros [[H%snapshot_key_inj ->]|Hb] Hb'; [|by eapply H5].
      rewrite parse_stringify in Hb' by (by apply snapshot_codec). congruence. }
  split.
  - split; [done|]. intros _ _. split; [done| |by left| |by rewrite Hcat].
    + intros id' Hne. split; [apply Hoth; congruence|]. intros b. unfold w'; rewrite ever_write. simpl.
      intros [[H%snapshot_key_inj _]|Hb]; [congruence|done].
    + apply ext_frame. split; [done| | |done].
      * intros k Hk. apply lookup_insert_ne. intros E. by destruct (Hk id).
      * intros t' k o Hk Hin. apply elem_of_cons in Hin as [Hin|Hin]; [|done]. injection Hin as _ -> _. by destruct (Hk id).
  - split; [split; [by apply (grows_wf _ _ Hg)|done]|]. split; [done|]. split; [|by rewrite Hcid].
    eexists. split; [apply lookup_insert_eq|]. simpl. by apply parse_stringify, snapshot_codec.
Qed.

(** What a replica may return: a snapshot that was stored under its key. *)
Definition durable (s : Snapshot) w : Prop :=
  exists b, ever w (snapshot_key (snapshot_id s)) b /\ parse b = Some s.
#[export] Instance stable_durable t s : Stable G t (durable s).
Proof. unfold durable. apply _. Qed.

(** The commit: the pointer moves to a prepared snapshot. *)
Record repoints (t : tid) (s : Snapshot) w w' : Prop := {
  rp_prepared : prepared t (snapshot_id s) s w;
  rp_current : current w' = Some s;
  rp_grows : grows w w';
  rp_store : forall k, k <> catalog_key -> store w' !! k = store w !! k;
  rp_log : forall t' k o, (t', k, o) ∈ log w' -> (t', k, o) ∈ log w \/
    k = catalog_key /\ forall c, parse (o_body o) = Some c -> current_snapshot_id c = snapshot_id s;
}.

Lemma write_pointer t id s w e now prev :
  prepared t id s w -> snapshot_id s = id -> CatalogSchema (point_to id now prev) = true ->
  (forall w', repoints t s w w' -> ext t w w') -> etag_ok w catalog_key (stringify (point_to id now prev)) e ->
  let w' := write t w catalog_key {| o_body := stringify (point_to id now prev); o_etag := e; o_uploaded := clock w |} in
  G t w w' /\ ok w' /\ durable s w'.
Proof.
  intros ([Hw HI] & Hi & (so & Hso & Hps) & Hp) Hid Hv Hext Het w'.
  assert (Hg : grows w w') by (by apply grows_write).
  assert (Hsnap : forall id', store w' !! snapshot_key id' = store w !! snapshot_key id')
    by (intros id'; apply lookup_insert_ne; symmetry; apply snapshot_key_not_catalog).
  assert (Hever : forall id' b, ever w' (snapshot_key id') b <-> ever w (snapshot_key id') b).
  { intros id' b. unfold w'; rewrite ever_write. split; [|auto]. intros [[H _]|?]; [|done].
    by destruct (snapshot_key_not_catalog id'). }
  assert (Hparse : parse (T := Catalog) (stringify (point_to id now prev)) = Some (point_to id now prev))
    by (by apply parse_stringify, catalog_codec).
  assert (Hpt : pointer w' = Some (point_to id now prev)).
  { unfold pointer. unfold w'; simpl. rewrite lookup_insert_eq. done. }
  assert (HI' : Inv w').
  { destruct HI as [H1 H2 H3 H4 H5]. split.
    - intros o Ho. unfold w' in Ho; simpl in Ho. rewrite lookup_insert_eq in Ho. injection Ho as <-. simpl.
      exists (point_to id now prev), so, s. simpl. by rewrite Hsnap, Hi.
    - intros id' b b'. rewrite !Hever. apply H2.
    - intros id' b. rewrite Hever. apply H3.
    - intros k s0 Hk. destruct (H4 k s0 Hk) as (b & Hb & Hb'). exists b. unfold w'; rewrite ever_write. auto.
    - intros id' b s0. rewrite Hever. apply H5. }
  assert (Hcur : current w' = Some s).
  { unfold current. rewrite Hpt. simpl. by rewrite Hsnap, Hso. }
  split; [|split; [split; [by apply (grows_wf _ _ Hg)|done]|]].
  - split; [done|]. intros _ _. split; [done| | | |].
    + intros id' _. split; [done|]. intros b. by rewrite Hever.
    + right. exists id. split; [unfold cur_id; by rewrite Hpt|done].
    + apply Hext. split; [|done|done| |].
      * rewrite Hid. split; [done|]. split; [done|]. split; [by exists so|done].
      * intros k Hk. apply lookup_insert_ne. congruence.
      * intros t' k o Hin. apply elem_of_cons in Hin as [Hin|Hin]; [right|by left]. injection Hin as _ -> ->. split; [done|].
        intros c Hc. change (parse (T := Catalog) (stringify (point_to id now prev)) = Some c) in Hc. rewrite Hparse in Hc. by injection Hc as <-.
    + intros _. unfold w'; simpl. rewrite lookup_insert_eq. eauto.
  - exists (o_body so). rewrite Hid, Hever. split; [by apply stored_ever|done].
Qed.

(** An uncommitted snapshot is deleted, or not. *)
Lemma remove_own t id s w ks :
  prepared t id s w -> ks ⊆ [snapshot_key id] -> G t w (remove w ks) /\ ok (remove w ks).
Proof.
  intros ([Hw HI] & Hi & _ & Hp) Hks.
  assert (Hkeep : forall k, k <> snapshot_key id -> store (remove w ks) !! k = store w !! k).
  { intros k Hk. rewrite store_remove. case_decide as Hin; [|done]. specialize (Hks _ Hin). set_solver. }
  assert (Hcat : store (remove w ks) !! catalog_key = store w !! catalog_key)
    by (apply Hkeep; symmetry; apply snapshot_key_not_catalog).
  destruct (current_frame w (remove w ks) Hcat HI) as (Hpt & Hcid & Hcur).
  { intros id' Hid'. apply Hkeep. intros H%snapshot_key_inj. congruence. }
  assert (HI' : Inv (remove w ks)).
  { destruct HI as [H1 H2 H3 H4 H5]. split; [|done..].
    intros o Ho. rewrite Hcat in Ho. destruct (H1 o Ho) as (c & so & s0 & Hc & Hk & His & Hso & Hps & Hsid).
    exists c, so, s0. rewrite Hkeep; [done|]. intros Heq%snapshot_key_inj. destruct Hp.
    unfold cur_id, pointer. rewrite Ho. simpl. by rewrite Hc, <- Heq. }
  split; [|split; [by apply wf_remove|done]]. split; [apply grows_remove|]. intros _ _.
  split; [done| |by left| |by rewrite Hcat].
  - intros id' Hne. split; [|done]. apply Hkeep. intros H%snapshot_key_inj. congruence.
  - apply ext_frame. split; [done| |done|done]. intros k Hk. by apply Hkeep.
Qed.

(** Steps that do not touch the store. *)
Lemma quiet_step t w w' :
  grows w w' -> store w' = store w -> log w' = log w ->
  (forall k s, (k, s) ∈ cache w' -> (k, s) ∈ cache w \/ exists b, ever w k b /\ parse b = Some s) ->
  ok w -> G t w w' /\ ok w'.
Proof.
  intros Hg Hs Hl Hc [Hw HI].
  assert (Hev : forall k b, ever w' k b <-> ever w k b) by (intros; unfold ever; by rewrite Hl).
  assert (HI' : Inv w').
  { destruct HI as [H1 H2 H3 H4 H5]. split.
    - intros o. rewrite Hs. intros Ho. destruct (H1 o Ho) as (c & so & s & Hc' & Hk & [t' His] & H).
      exists c, so, s. split; [done|]. split; [done|]. split; [|done]. exists t'. by apply (grows_issued _ _ Hg).
    - intros id b b'. rewrite !Hev. apply H2.
    - intros id b. rewrite Hev. intros Hb. destruct (H3 id b Hb) as [t' ?]. exists t'. by apply (grows_issued _ _ Hg).
    - intros k s Hk. destruct (Hc k s Hk) as [Hk'|(b & Hb & Hb')].
      + destruct (H4 k s Hk') as (b & Hb & Hb'). exists b. by rewrite Hev.
      + exists b. by rewrite Hev.
    - intros id b s. rewrite Hev. apply H5. }
  split; [|split; [by apply (grows_wf _ _ Hg)|done]]. split; [done|]. intros _ _.
  split; [done| | | |by rewrite Hs].
  - intros id _. rewrite Hs. split; [done|]. intros b. by rewrite Hev.
  - left. unfold cur_id, pointer. by rewrite Hs.
  - apply ext_frame. split; [|by rewrite Hs|by rewrite Hl|intros id t'; apply (grows_issued _ _ Hg)].
    unfold current, pointer. by rewrite Hs.
Qed.

(** ** The calls of the service *)

Lemma fresh_spec t :
  hoare G t ok createSnapshotId
    (fun r w => exists id, r = Ok id /\ is_id "snap" id = true /\ unwritten t id w).
Proof.
  apply hoare_call; [apply _|apply _|]. intros w r w' Hok [Hs|[? _]]; [|done].
  pose proof (sem_grows _ _ _ _ _ Hs) as Hg. destruct Hs as (id & Hfmt & Hnew & -> & ->).
  destruct (quiet_step t w (set_issued w (<[id := t]> (issued w)))) as [HG Hok']; try done; [by left|].
  split; [done|]. exists id. split; [done|]. split; [done|]. split; [done|].
  split; [by apply lookup_insert_eq|]. destruct Hok as [Hw HI].
  assert (Hne : forall b, ~ ever w (snapshot_key id) b).
  { intros b Hb. destruct (inv_issued w HI id b Hb). congruence. }
  split; [|split; [done|]].
  - destruct (store w !! snapshot_key id) as [o|] eqn:E; simpl; [|done].
    by destruct (Hne _ (stored_ever _ _ _ Hw E)).
  - unfold cur_id. change (pointer (set_issued w _)) with (pointer w).
    destruct (pointer w) as [c|] eqn:E; [|done]. simpl.
    destruct (pointer_spec w c HI E) as (_ & _ & _ & _ & _ & _ & [x Hx] & _). intros [= Heq]. congruence.
Qed.

Lemma now_spec t (P : world B Snapshot -> Prop) `{!Stable G t P} :
  (forall w, P w -> wf w) ->
  hoare G t P nowISO (fun r w => exists ts, r = Ok ts /\ utcTimestamp ts = true /\ P w).
Proof.
  intros HP. eapply hoare_bind.
  - apply (hoare_now G t P (fun n => 0 <= n < MAX_TIME)%Z). intros w Hw. by apply wf_clock, HP.
  - intros n. apply hoare_exists; intros n'. apply hoare_pure; intros [= <-]. apply hoare_pure; intros Hn.
    apply hoare_ret; [apply _|]. intros w [_ Hw]. exists (toISOString n). split; [done|]. split; [|done].
    apply utcTimestamp_parses. exists n. apply parse_toISOString. unfold MAX_TIME in *. lia.
  - intros e. apply hoare_throw; [apply _|]. by intros w (? & ? & _).
Qed.

Lemma put_snapshot t id s c :
  SnapshotSchema s = true -> snapshot_id s = id ->
  hoare G t (unwritten t id) (call (OPut (snapshot_key id) (stringify s) c))
    (put_post (unwritten t id) (fun _ => prepared t id s)).
Proof.
  intros Hv Hid. apply hoare_put; [apply _..|]. intros w e Hw _ He obj. by apply write_snapshot.
Qed.

Lemma put_pointer t id s c now prev (P : world B Snapshot -> Prop) `{!Stable G t P} :
  snapshot_id s = id -> CatalogSchema (point_to id now prev) = true ->
  (forall w, P w -> prepared t id s w) ->
  (forall w w', P w -> holds (store w) catalog_key c -> repoints t s w w' -> ext t w w') ->
  hoare G t P (call (OPut catalog_key (stringify (point_to id now prev)) c))
    (put_post P (fun _ w => ok w /\ durable s w)).
Proof.
  intros Hid Hv HP Hext. apply hoare_put; [apply _..|]. intros w e Hw Hh He obj.
  by apply write_pointer; auto.
Qed.

Lemma delete_own t id s :
  hoare G t (prepared t id s) (delete_best_effort (snapshot_key id)) (fun r w => r = Ok tt /\ ok w).
Proof.
  eapply hoare_handle with (M := fun _ => ok).
  - apply hoare_delete; [apply _..|]. intros w ks Hw Hks. by apply (remove_own t id s).
  - intros r. by apply hoare_ret; [apply _|].
Qed.

Definition known (k : key) (s : Snapshot) w : Prop := ok w /\ exists b, ever w k b /\ parse b = Some s.
#[export] Instance stable_known t k s : Stable G t (known k s).
Proof. unfold known. apply _. Qed.

Lemma cache_set_spec t k s :
  hoare G t (known k s) (call (OCacheSet k s)) (fun r w => r = Ok tt /\ known k s w).
Proof.
  apply hoare_call; [apply _|apply _|]. intros w r w' [Hok Hk] [Hs|[? _]]; [|done].
  pose proof (sem_grows _ _ _ _ _ Hs) as Hg. destruct Hs as [-> ->].
  destruct (quiet_step t w (set_cache w ((k, s) :: cache w))) as [HG Hok']; try done.
  intros k0 s0 Hin. simpl in Hin. apply elem_of_cons in Hin as [Hin|Hin]; [|by left]. simplify_eq. by right.
Qed.

Lemma cache_get_spec t k :
  hoare G t ok (call (OCacheGet k))
    (fun r w => exists x, r = Ok x /\ ok w /\ forall s, x = Some s -> known k s w).
Proof.
  apply hoare_call; [apply _|apply _|]. intros w r w' Hok [Hs|[? _]]; [|done].
  destruct Hs as [-> Hr]. split; [apply protocol_idle|].
  destruct Hr as [->|(v & Hv & ->)]; [by exists None|]. exists (Some v). split; [done|]. split; [done|].
  intros s [= <-]. split; [done|]. by apply (inv_cache w (proj2 Hok)).
Qed.

(** The stored pointer, when read. *)
Definition pointer_read (x : option (object B)) w : Prop :=
  ok w /\ forall o, x = Some o ->
    logged catalog_key o w /\ exists c, parse (o_body o) = Some c /\
      current_snapshot_key c = snapshot_key (current_snapshot_id c) /\ CatalogSchema c = true.

#[export] Instance stable_pointer_read t x : Stable G t (pointer_read x).
Proof. unfold pointer_read. apply _. Qed.

Lemma get_pointer t :
  hoare G t ok (call (OGet catalog_key))
    (fun r => match r with Ok x => pointer_read x | Err e => fun w => ok w /\ exists msg, e = IoError msg end).
Proof.
  apply hoare_get; [apply _..|]. intros w [Hw HI]. split; [done|]. intros o Ho.
  split; [by apply (wf_stored w Hw)|].
  destruct (inv_pointer w HI o Ho) as (c & so & s & Hc & Hk & _). exists c. split; [done|]. split; [done|].
  by apply catalog_codec, (parse_valid (o_body o)).
Qed.

(** What reading a snapshot through the cache yields. *)
Definition read_result (k : key) (r : result (error Snapshot) Snapshot) w : Prop :=
  ok w /\ forall s, r = Ok s -> known k s w.
#[export] Instance stable_read_result t k r : Stable G t (read_result k r).
Proof. unfold read_result. apply _. Qed.

Lemma read_snapshot_spec t c :
  hoare G t ok (readSnapshot c) (read_result (current_snapshot_key c)).
Proof.
  eapply hoare_bind; [apply cache_get_spec| |].
  2: { intros e. apply hoare_throw; [apply _|]. by intros w (? & ? & _). }
  intros x. apply hoare_exists; intros x'. apply hoare_pure; intros [= <-].
  destruct x as [s|].
  { apply hoare_ret; [apply _|]. intros w [Hok Hk]. split; [done|]. intros s' [= <-]. by apply Hk. }
  eapply hoare_bind.
  { eapply hoare_pre; [|apply (hoare_get G t (current_snapshot_key c) ok (fun x w => ok w /\ forall o, x = Some o ->
      ever w (current_snapshot_key c) (o_body o)))]; [by intros w [? _]|].
    intros w Hok. split; [done|]. intros o Ho. apply stored_ever; [apply Hok|done]. }
  2: { intros e. apply hoare_throw; [apply _|]. by intros w [? _]. }
  intros [o|].
  2: { apply hoare_throw; [apply _|]. by intros w [? _]. }
  unfold readStored. destruct (parse (o_body o)) as [s|] eqn:Hs.
  2: { apply hoare_throw; [apply _|]. by intros w [? _]. }
  eapply hoare_bind with (M := fun r w => r = Ok s /\ known (current_snapshot_key c) s w).
  - apply hoare_ret; [apply _|]. intros w [Hok Hb]. split; [done|]. split; [done|].
    exists (o_body o). split; [by apply Hb|done].
  - intros a. apply hoare_pure; intros [= <-]. eapply hoare_bind; [apply cache_set_spec| |].
    + intros []. apply hoare_pure; intros _. apply hoare_ret; [apply _|]. intros w Hk.
      split; [by destruct Hk|]. by intros s' [= <-].
    + intros e. apply hoare_throw; [apply _|]. by intros w [? _].
  - intros e. apply hoare_throw; [apply _|]. by intros w [? _].
Qed.

(** A replica's answer: a snapshot that was stored, or an error. *)
Definition answer (r : result (error Snapshot) Snapshot) w : Prop := ok w /\ forall s, r = Ok s -> durable s w.
#[export] Instance stable_answer t r : Stable G t (answer r).
Proof. unfold answer. apply _. Qed.

Lemma known_durable id s w : known (snapshot_key id) s w -> durable s w /\ snapshot_id s = id /\ SnapshotSchema s = true.
Proof.
  intros [[Hw HI] (b & Hb & Hp)]. pose proof (inv_named w HI _ _ _ Hb Hp) as Hid.
  split; [exists b; by rewrite Hid|]. split; [done|]. by apply snapshot_codec, (parse_valid b).
Qed.

Lemma get_current_spec t : hoare G t ok getCurrentSnapshot answer.
Proof.
  eapply hoare_bind with (M := fun r w => ok w /\ forall c, r = Ok c -> current_snapshot_key c = snapshot_key (current_snapshot_id c)).
  - eapply hoare_bind; [apply get_pointer| |].
    2: { intros e. apply hoare_throw; [apply _|]. by intros w [? _]. }
    intros [o|]; [|by apply hoare_throw; [apply _|]; intros w [? _]].
    intros w [Hok Ho]. destruct (Ho o eq_refl) as (_ & c & Hc & Hk & _). unfold readStored. rewrite Hc.
    cut (hoare G t ok (Ret c) (fun r w => ok w /\ forall c, r = Ok c -> current_snapshot_key c = snapshot_key (current_snapshot_id c)));
      [intros H; by apply H|].
    apply hoare_ret; [apply _|]. intros w' Hok'. split; [done|]. by intros c' [= <-].
  - intros c w [Hok Hk]. specialize (Hk c eq_refl).
    cut (hoare G t ok (readSnapshot c) answer); [intros H; by apply H|].
    eapply hoare_post; [|apply read_snapshot_spec]. intros r w' [Hok' Hr]. split; [done|].
    intros s Hs. specialize (Hr s Hs). rewrite Hk in Hr. by destruct (known_durable _ _ _ Hr).
  - intros e. apply hoare_throw; [apply _|]. by intros w [? _].
Qed.

#[export] Instance persistent_durable s : Persistent (durable s).
Proof. unfold durable. apply _. Qed.

Lemma audit_spec t events op who :
  hoare G t ok (appendAudit events op who) (fun r w => r = Ok tt /\ ok w).
Proof.
  unfold appendAudit. destruct events; [|by apply hoare_ret; [apply _|]].
  eapply hoare_handle with (M := fun _ => ok); [|by intros r; apply hoare_ret; [apply _|]].
  apply hoare_call; [apply _|apply _|]. intros w r w' Hok Hs. pose proof (op_step_grows _ _ _ _ _ Hs) as Hg.
  assert (w' = w \/ w' = set_audits w ((op, who) :: audits w)) as [-> | ->].
  { destruct Hs as [[-> _]|(_ & [->|[[r' [-> _]]|[]]] & _)]; auto. }
  - split; [apply protocol_idle|done].
  - apply quiet_step; try done. by left.
Qed.

(** ** Mutations *)

(** The pointer object [o] names [id], and the snapshot of that key is [s]. *)
Definition based_on (o : object B) (s : Snapshot) w : Prop :=
  exists c b, logged catalog_key o w /\ parse (o_body o) = Some c /\
    ever w (snapshot_key (current_snapshot_id c)) b /\ parse b = Some s.
#[export] Instance persistent_based_on o s : Persistent (based_on o s).
Proof. unfold based_on. apply _. Qed.

(** [s] was the current snapshot. *)
Definition basis s w : Prop := exists o, based_on o s w.
#[export] Instance persistent_basis s : Persistent (basis s).
Proof. unfold basis. apply _. Qed.

(** A successful compare-and-swap of the pointer replaces exactly what was read. *)
Lemma cas_current w o s :
  ok w -> based_on o s w -> holds (store w) catalog_key (onlyIfEtagMatches (o_etag o)) -> current w = Some s.
Proof.
  intros [Hw HI] (c & b & Hl & Hc & Hb & Hs) Hh.
  destruct (holds_etag_body _ _ _ Hw Hl Hh) as (o' & Ho' & Hbody).
  assert (Hp : pointer w = Some c) by (unfold pointer; rewrite Ho'; simpl; by rewrite Hbody).
  destruct (pointer_spec w c HI Hp) as (so & s' & Hso & Hps & _ & _ & _ & Hcur). rewrite Hcur.
  rewrite <- (inv_immutable w HI _ _ _ Hb (stored_ever _ _ _ Hw Hso)) in Hps. congruence.
Qed.

Lemma stamp_schema s m id now op who :
  SnapshotSchema s = true -> is_id "snap" id = true -> utcTimestamp now = true -> nonempty who = true ->
  forallb SnapshotProjectEntrySchema (projects (mutated m)) = true ->
  SnapshotSchema (stamp (mutated m) id (Z.max CURRENT_SNAPSHOT_VERSION (schema_version s)) now op who) = true.
Proof.
  intros Hs Hid Hn Hw Hp. unfold SnapshotSchema, stamp; simpl. rewrite Hid, Hn, Hw, Hp, !andb_true_r.
  apply Z.leb_le. unfold CURRENT_SNAPSHOT_VERSION. lia.
Qed.

Lemma point_to_schema id now c :
  is_id "snap" id = true -> utcTimestamp now = true -> CatalogSchema c = true ->
  CatalogSchema (point_to id now (Some (current_snapshot_id c))) = true.
Proof.
  intros Hid Hn Hc. unfold CatalogSchema in *; simpl. rewrite Hn, Hid.
  apply andb_true_iff in Hc as [Hc _]. by apply andb_true_iff in Hc as [_ ->].
Qed.

Definition attempted (r : result (error Snapshot) committed_snapshot) w : Prop :=
  ok w /\ forall cs, r = Ok cs -> durable (cs_snapshot cs) w.
#[export] Instance stable_attempted t r : Stable G t (attempted r).
Proof. unfold attempted. apply _. Qed.

(** Publishing a prepared snapshot. *)
Lemma publish_spec t o c s s' id now op (K : world B Snapshot -> Prop) `{!Stable G t K} :
  parse (o_body o) = Some c -> CatalogSchema c = true -> snapshot_id s' = id ->
  is_id "snap" id = true -> utcTimestamp now = true ->
  (forall w w', K w -> current w = Some s -> repoints t s' w w' -> ext t w w') ->
  hoare G t (fun w => prepared t id s' w /\ based_on o s w /\ K w)
    (handle (cas_put catalog_key (stringify (point_to id now (Some (current_snapshot_id c)))) (onlyIfEtagMatches (o_etag o)))
       (fun r => match r with
          | Ok _ => call (OCacheSet (snapshot_key id) s') ≫= fun _ => mret {| cs_snapshot := s'; cs_committed := op |}
          | Err CasWriteConflictError => delete_best_effort (snapshot_key id) ≫= fun _ => Throw CasWriteConflictError
          | Err err => Throw err
          end)) attempted.
Proof.
  intros Hc Hcs Hid Hfmt Hnow Hext. eapply hoare_handle.
  - eapply hoare_cas_put with (Q := fun r w => match r with
      | Ok _ => ok w /\ durable s' w
      | Err CasWriteConflictError => prepared t id s' w
      | Err _ => ok w end).
    + apply (put_pointer t id s'); [apply _|done|by apply point_to_schema|by intros w [? _]|].
      intros w w' (Hp & Hb & Hk) Hh. apply Hext; [done|]. apply (cas_current w o s); [by destruct Hp|done|done].
    + apply _.
    + by intros w [? _].
    + intros [i|e] w Hne; [done|]. destruct e; try done. by intros [[[? _] _]|(_ & ? & _)].
  - intros [i|e].
    + eapply hoare_bind.
      * eapply hoare_pre; [|apply (cache_set_spec t (snapshot_key id) s')].
        intros w [Hok (b & Hb & Hp)]. rewrite Hid in Hb. split; [done|]. by exists b.
      * intros a. apply hoare_pure; intros _. apply hoare_ret; [apply _|]. intros w Hk.
        split; [by destruct Hk|]. intros cs [= <-]. by destruct (known_durable _ _ _ Hk).
      * intros e. apply hoare_throw; [apply _|]. by intros w [? _].
    + destruct e; try (by apply hoare_throw; [apply _|]).
      eapply hoare_bind; [apply delete_own| |].
      * intros a. apply hoare_pure; intros _. by apply hoare_throw; [apply _|].
      * intros e. apply hoare_throw; [apply _|]. by intros w [? _].
Qed.

(** Reading the pointer and the snapshot it names, as one basis for a mutation. *)
Lemma read_stored_pointer t o :
  hoare G t (pointer_read (Some o)) (readStored (T := Catalog) o catalog_key)
    (fun r w => exists c, r = Ok c /\ parse (o_body o) = Some c /\ CatalogSchema c = true /\
       current_snapshot_key c = snapshot_key (current_snapshot_id c) /\ ok w /\ logged catalog_key o w).
Proof.
  unfold readStored. destruct (parse (T := Catalog) (o_body o)) as [c|] eqn:Hc.
  - apply hoare_ret; [apply _|]. intros w [Hok Ho]. destruct (Ho o eq_refl) as (Hl & c' & Hc' & Hk & Hcs).
    exists c. by replace c with c' by congruence.
  - intros w [_ Ho]. destruct (Ho o eq_refl) as (_ & c' & Hc' & _). congruence.
Qed.

(** A callback for [s]: what it returns is storable, and [K] of it allows the commit. *)
Definition callback_ok t op who (f : Snapshot -> prog B Snapshot mutation) (K : Snapshot -> mutation -> world B Snapshot -> Prop) s : Prop :=
  hoare G t (fun w => ok w /\ basis s w) (f s)
    (fun r w => ok w /\ forall m, r = Ok m -> forallb SnapshotProjectEntrySchema (projects (mutated m)) = true /\ K s m w) /\
  forall m id now w w', K s m w -> current w = Some s ->
    repoints t (stamp (mutated m) id (Z.max CURRENT_SNAPSHOT_VERSION (schema_version s)) now op who) w w' -> ext t w w'.

Lemma mutate_attempt_spec t op who f K `{!forall s m, Kept G (K s m)} :
  nonempty who = true ->
  (forall s, SnapshotSchema s = true -> callback_ok t op who f K s) ->
  hoare G t ok (mutate_snapshot_attempt op who f) attempted.
Proof.
  intros Hwho Hf. eapply hoare_bind; [apply get_pointer| |].
  2: { intros e. apply hoare_throw; [apply _|]. by intros w [? _]. }
  intros [o|]; [|by apply hoare_throw; [apply _|]; intros w [? _]].
  eapply hoare_bind; [apply read_stored_pointer| |].
  2: { intros e. apply hoare_throw; [apply _|]. by intros w (? & ? & _). }
  intros c. apply hoare_exists; intros c'. apply hoare_pure; intros [= <-].
  apply hoare_pure; intros Hc. apply hoare_pure; intros Hcs. apply hoare_pure; intros Hk.
  eapply hoare_bind; [eapply (hoare_frame G t ok _ _ (logged catalog_key o)); apply read_snapshot_spec| |].
  2: { intros e. apply hoare_throw; [apply _|]. by intros w [[? _] _]. }
  intros s. eapply hoare_pre with (P := fun w => SnapshotSchema s = true /\ (ok w /\ based_on o s w /\ durable s w)).
  { intros w [[Hok Hr] Hl]. specialize (Hr s eq_refl). rewrite Hk in Hr.
    destruct (known_durable _ _ _ Hr) as (Hd & _ & Hv). destruct Hr as [_ (b & Hb & Hp)].
    split; [done|]. split; [done|]. split; [|done]. by exists c, b. }
  apply hoare_pure; intros Hs.
  destruct (Hf s Hs) as [Hcall Hext]. eapply hoare_bind.
  { eapply hoare_pre; [|eapply (hoare_frame G t _ _ _ (fun w => based_on o s w /\ durable s w)); exact Hcall].
    intros w (Hok & Hb & Hd). split; [split; [done|by exists o]|done]. }
  2: { intros e. apply hoare_throw; [apply _|]. by intros w [[? _] _]. }
  intros m. eapply hoare_pre with (P := fun w => forallb SnapshotProjectEntrySchema (projects (mutated m)) = true /\
    (ok w /\ based_on o s w /\ durable s w /\ K s m w)).
  { intros w [[Hok Hm] [Hb Hd]]. destruct (Hm m eq_refl). done. }
  apply hoare_pure; intros Hmp.
  destruct (match m with Draft s0 => bool_decide (stringify s0 = stringify s) | Fresh _ => false end).
  { apply hoare_ret; [apply _|]. intros w (Hok & _ & Hd & _). split; [done|]. by intros cs [= <-]. }
  eapply hoare_bind.
  { eapply hoare_pre; [|eapply (hoare_keep G t ok _ _ (fun w => based_on o s w /\ K s m w)); apply fresh_spec].
    by intros w (Hok & Hb & _ & HK). }
  2: { intros e. apply hoare_throw; [apply _|]. by intros w [(? & ? & _) _]. }
  intros id. eapply hoare_pre with (P := fun w => is_id "snap" id = true /\ (unwritten t id w /\ based_on o s w /\ K s m w)).
  { intros w [(id' & [= <-] & Hid & Hu) Hb]. by split. }
  apply hoare_pure; intros Hid.
  eapply hoare_bind; [apply (now_spec t); [apply _|by intros w [[[? _] _] _]]| |].
  2: { intros e. apply hoare_throw; [apply _|]. by intros w (? & ? & _). }
  intros now. apply hoare_exists; intros now'. apply hoare_pure; intros [= <-]. apply hoare_pure; intros Hnow.
  cbv zeta. eapply hoare_bind.
  { eapply (hoare_keep G t _ _ _ (fun w => based_on o s w /\ K s m w)). apply put_snapshot; [by apply stamp_schema|done]. }
  - intros i. apply publish_spec with (s := s); [apply _|done..|]. intros w w'. by apply Hext.
  - intros e. apply hoare_throw; [apply _|]. intros w [Hw _]. split; [|done].
    destruct e; try done; [by destruct Hw|]. by destruct Hw as [[? _]|(_ & ? & _)].
Qed.

Lemma mutate_snapshot_spec t events retry op who f K `{!forall s m, Kept G (K s m)} :
  nonempty who = true ->
  (forall s, SnapshotSchema s = true -> callback_ok t op who f K s) ->
  hoare G t ok (mutateSnapshot events retry op who f) answer.
Proof.
  intros Hwho Hf. eapply hoare_bind with (M := attempted).
  - apply hoare_withCasRetry; [apply _|apply _| |done|apply _].
    eapply hoare_post; [|by eapply mutate_attempt_spec]. intros [cs|e] w Hw; [done|]. destruct e; try done. by destruct Hw.
  - intros cs. eapply hoare_bind with (M := fun r w => (r = Ok tt /\ ok w) /\ durable (cs_snapshot cs) w).
    + eapply hoare_pre with (P := fun w => ok w /\ durable (cs_snapshot cs) w).
      { intros w [Hok Hd]. split; [done|by apply Hd]. }
      eapply (hoare_frame G t ok _ (fun r w => r = Ok tt /\ ok w) (durable (cs_snapshot cs))).
      destruct (cs_committed cs); [apply audit_spec|by apply hoare_ret; [apply _|]].
    + intros a. apply hoare_ret; [apply _|]. intros w [[_ Hok] Hd]. split; [done|]. by intros s [= <-].
    + intros e. apply hoare_throw; [apply _|]. by intros w [[? _] _].
  - intros e. apply hoare_throw; [apply _|]. by intros w [? _].
Qed.

(** ** Initialization *)

Lemma list_spec t o : hoare G t ok (call (OList o)) (fun _ => ok).
Proof. apply hoare_read; [apply _|apply _|by intros w r w' [-> _]|done|done]. Qed.
Lemma head_spec t k : hoare G t ok (call (OHead k)) (fun _ => ok).
Proof. apply hoare_read; [apply _|apply _|by intros w r w' [-> _]|done|done]. Qed.
Lemma get_spec t k : hoare G t ok (call (OGet k)) (fun _ => ok).
Proof. apply hoare_read; [apply _|apply _|by intros w r w' [-> _]|done|done]. Qed.

Lemma all_empty_spec t objects : hoare G t ok (all_empty objects) (fun _ => ok).
Proof.
  induction objects as [|i rest IH]; simpl; [by apply hoare_ret; [apply _|]|].
  eapply hoare_bind; [apply get_spec| |by intros e; apply hoare_throw; [apply _|]]. intros object.
  eapply hoare_bind; [apply IH| |by intros e; apply hoare_throw; [apply _|]]. intros b. by apply hoare_ret; [apply _|].
Qed.

Lemma initial_schema id now who :
  is_id "snap" id = true -> utcTimestamp now = true -> nonempty who = true ->
  SnapshotSchema (initial_snapshot id now who) = true.
Proof. intros Hid Hn Hw. unfold SnapshotSchema; simpl. by rewrite Hid, Hn, Hw. Qed.

Lemma initial_point_schema id now :
  is_id "snap" id = true -> utcTimestamp now = true -> CatalogSchema (point_to id now None) = true.
Proof. intros Hid Hn. unfold CatalogSchema; simpl. by rewrite Hid, Hn. Qed.

Lemma current_absent w : store w !! catalog_key = None -> current w = None.
Proof. intros H. unfold current, pointer. by rewrite H. Qed.

(** The tail of [initialize], once an empty deployment is established. *)
Lemma initialize_fresh_spec t who :
  nonempty who = true -> (forall id now w w', current w = None -> repoints t (initial_snapshot id now who) w w' -> ext t w w') ->
  hoare G t ok
    (id ← createSnapshotId; now ← nowISO;
     let snapshot := initial_snapshot id now who in
     call (OPut (snapshot_key id) (stringify snapshot) Always) ≫= fun _ =>
     handle (call (OPut catalog_key (stringify (point_to id now None)) onlyIfNotExists)) (fun r =>
       match r with
       | Ok _ => mret snapshot
       | Err PreconditionFailedError => delete_best_effort (snapshot_key id) ≫= fun _ => getCurrentSnapshot
       | Err err => Throw err
       end)) answer.
Proof.
  intros Hwho Hext. eapply hoare_bind; [apply fresh_spec| |].
  2: { intros e. apply hoare_throw; [apply _|]. by intros w (? & ? & _). }
  intros id. apply hoare_exists; intros id'. apply hoare_pure; intros [= <-]. apply hoare_pure; intros Hid.
  eapply hoare_bind; [apply (now_spec t (unwritten t id)); by intros w [[? _] _]| |].
  2: { intros e. apply hoare_throw; [apply _|]. by intros w (? & ? & _). }
  intros now. apply hoare_exists; intros now'. apply hoare_pure; intros [= <-]. apply hoare_pure; intros Hnow.
  cbv zeta. eapply hoare_bind; [apply put_snapshot; [by apply initial_schema|done]| |].
  2: { intros e. apply hoare_throw; [apply _|]. intros w Hw. split; [|done].
       destruct e; try done; [by destruct Hw|]. by destruct Hw as [[? _]|(_ & ? & _)]. }
  intros i. eapply hoare_handle.
  { apply (put_pointer t id (initial_snapshot id now who)); [apply _|done|by apply initial_point_schema|done|].
    intros w w' _ Hh. simpl in Hh. apply Hext, (current_absent w Hh). }
  intros [j|e].
  - apply hoare_ret; [apply _|]. intros w [Hok Hd]. split; [done|]. by intros s [= <-].
  - destruct e; try (by apply hoare_throw; [apply _|]).
    + eapply hoare_bind; [apply delete_own| |].
      * intros a. apply hoare_pure; intros _. apply get_current_spec.
      * intros e. apply hoare_throw; [apply _|]. by intros w [? _].
    + apply hoare_throw; [apply _|]. intros w [[? _]|(_ & ? & _)]; by split.
Qed.

Lemma initialize_spec t who recheck :
  nonempty who = true -> (forall id now w w', current w = None -> repoints t (initial_snapshot id now who) w w' -> ext t w w') ->
  hoare G t ok (initialize who recheck) answer.
Proof.
  intros Hwho Hext. eapply hoare_bind; [apply get_pointer| |].
  2: { intros e. apply hoare_throw; [apply _|]. by intros w [? _]. }
  intros [o|]; (eapply hoare_pre with (P := ok); [by intros w [? _]|]); [apply get_current_spec|].
  eapply hoare_bind; [apply list_spec| |by intros e; apply hoare_throw; [apply _|]]. intros ps.
  eapply hoare_bind; [apply list_spec| |by intros e; apply hoare_throw; [apply _|]]. intros ss. cbv zeta.
  eapply hoare_bind with (M := fun _ => ok).
  { destruct (_ || _); [by apply hoare_ret; [apply _|]|].
    eapply hoare_bind with (M := fun _ => ok); [|intros b; by apply hoare_ret; [apply _|]|by intros e; apply hoare_throw; [apply _|]].
    unfold onlyEmptyInitializeSnapshots. destruct (_ || _); [by apply hoare_ret; [apply _|]|apply all_empty_spec]. }
  2: by intros e; apply hoare_throw; [apply _|].
  intros [|]; [|by apply initialize_fresh_spec].
  eapply hoare_bind; [apply head_spec| |by intros e; apply hoare_throw; [apply _|]].
  intros [h|]; [apply get_current_spec|].
  eapply hoare_bind; [apply hoare_sleep; [apply _|apply protocol_idle]| |].
  2: { intros e. apply hoare_throw; [apply _|]. by intros w [? _]. }
  intros a. apply hoare_pure; intros _.
  eapply hoare_bind; [apply head_spec| |by intros e; apply hoare_throw; [apply _|]].
  intros [h|]; [apply get_current_spec|]. by apply hoare_throw; [apply _|].
Qed.

(** ** Recovery *)

Lemma recovered_schema base recovered id now who :
  is_id "snap" id = true -> utcTimestamp now = true -> nonempty who = true ->
  forallb SnapshotProjectEntrySchema recovered = true ->
  SnapshotSchema (recovered_snapshot base recovered id now who) = true.
Proof.
  intros Hid Hn Hw Hp. unfold SnapshotSchema; simpl. rewrite Hid, Hn, Hw, Hp, !andb_true_r.
  apply Z.leb_le. unfold CURRENT_SNAPSHOT_VERSION. lia.
Qed.

Lemma recover_spec t events base recovered etag prev who :
  nonempty who = true -> forallb SnapshotProjectEntrySchema recovered = true ->
  all_opt (is_id "snap") prev = true ->
  (forall id now w w', o_etag <$> store w !! catalog_key = etag -> repoints t (recovered_snapshot base recovered id now who) w w' -> ext t w w') ->
  hoare G t ok (recover_accepted events base recovered etag prev who) answer.
Proof.
  intros Hwho Hps Hprev Hext. eapply hoare_bind; [apply fresh_spec| |].
  2: { intros e. apply hoare_throw; [apply _|]. by intros w (? & ? & _). }
  intros id. apply hoare_exists; intros id'. apply hoare_pure; intros [= <-]. apply hoare_pure; intros Hid.
  eapply hoare_bind; [apply (now_spec t (unwritten t id)); by intros w [[? _] _]| |].
  2: { intros e. apply hoare_throw; [apply _|]. by intros w (? & ? & _). }
  intros now. apply hoare_exists; intros now'. apply hoare_pure; intros [= <-]. apply hoare_pure; intros Hnow.
  set (s := recovered_snapshot base recovered id now who).
  eapply hoare_bind; [apply (hoare_get G t catalog_key _ (fun _ => unwritten t id)); done| |].
  2: { intros e. apply hoare_throw; [apply _|]. by intros w [[? _] _]. }
  intros x. destruct (bool_decide_reflect (o_etag <$> x = etag)) as [Hx|]; cbn [negb]; [|by apply hoare_throw; [apply _|]; intros w [? _]]. cbv zeta.
  eapply hoare_bind; [apply (put_snapshot t id s); [by apply recovered_schema|done]| |].
  2: { intros e. apply hoare_throw; [apply _|]. intros w Hw. split; [|done].
       destruct e; try done; [by destruct Hw|]. by destruct Hw as [[? _]|(_ & ? & _)]. }
  intros i. eapply hoare_handle.
  { apply (put_pointer t id s); [apply _|done| |done|].
    - unfold CatalogSchema; simpl. by rewrite Hid, Hnow, Hprev.
    - intros w w' _ Hh. apply Hext. rewrite <- Hx. destruct x as [o|]; [|by cbn in *; rewrite Hh].
      destruct Hh as (o' & -> & He). cbn. by rewrite He. }
  intros [j|e].
  - eapply hoare_bind.
    + eapply hoare_pre; [|apply (cache_set_spec t (snapshot_key id) s)]. intros w [Hok (b & Hb & Hp)]. split; [done|]. by exists b.
    + intros a. apply hoare_pure; intros _. eapply hoare_bind.
      * eapply hoare_pre with (P := fun w => ok w /\ durable s w).
        { intros w Hk. split; [by destruct Hk|]. by destruct (known_durable _ _ _ Hk). }
        eapply (hoare_frame G t ok _ _ (durable s)). apply audit_spec.
      * intros a'. apply hoare_ret; [apply _|]. intros w [[_ Hok] Hd]. split; [done|]. by intros s' [= <-].
      * intros e. apply hoare_throw; [apply _|]. by intros w [[? _] _].
    + intros e. apply hoare_throw; [apply _|]. by intros w [? _].
  - destruct e; try (by apply hoare_throw; [apply _|]).
    + eapply hoare_bind; [apply delete_own| |].
      * intros a. apply hoare_pure; intros _. by apply hoare_throw; [apply _|].
      * intros e. apply hoare_throw; [apply _|]. by intros w [? _].
    + apply hoare_throw; [apply _|]. intros w [[? _]|(_ & ? & _)]; by split.
Qed.
End Protocol.

(** ** Callbacks that only read the store *)
Section Readers.
Context {B V : Type}.

Fixpoint reader {A} (p : prog B V A) : Prop :=
  match p with
  | Call o k => (match o with OGet _ => True | _ => False end) /\ forall r, reader (k r)
  | _ => True
  end.

(** The results a program can have, whatever its calls answer. *)
Fixpoint yields {A} (p : prog B V A) (r : result (error V) A) : Prop :=
  match p with
  | Ret a => r = Ok a
  | Throw e => r = Err e
  | Call o k => exists x, yields (k x) r
  end.

Lemma reader_spec (G : tid -> world B V -> world B V -> Prop) `{!Protocol G} t {A} (p : prog B V A) P `{!Stable G t P} :
  reader p -> hoare G t P p (fun r w => P w /\ yields p r).
Proof.
  intros Hp w Hw. revert w Hw. induction p as [a|e|X o k IH]; simpl in *; intros w Hw w1 Hr.
  - split; [by eapply stable_rely|done].
  - split; [by eapply stable_rely|done].
  - destruct Hp as [Ho Hk]. intros r w2 Hs. destruct o; try done.
    assert (w2 = w1) as -> by (destruct Hs as [[-> _]|(_ & [->|[[r' [-> _]]|[]]] & _)]; done).
    split; [apply protocol_idle|]. eapply rg_weaken; [|apply IH; [apply Hk|by eapply stable_rely]].
    intros r' w' [? ?]. split; [done|]. by exists r.
Qed.
End Readers.
