(* ===== verification/CatalogTheorems.v ===== *)
(** * What the catalog promises

    Replicas serve requests in sessions; the theorems hold for any number of sessions,
    any interleaving of their storage calls and any storage faults: the pointer never
    dangles, every commit applies its callback to the snapshot it replaces, a deployment
    is initialized once, the schema version never goes down, and every answer was stored. *)

From Stdlib Require Import ZArith Lia.
From stdpp Require Import relations.
From S2P Require Import Prelude Constants Schema UtcDate Store Cas CasTheorems CatalogData Catalog CatalogProtocol.

Section Sessions.
Context {B : Type} `{!EqDecision B} {CC : Codec B Catalog} {CS : Codec B Snapshot}.
Context (catalog_codec : forall c : Catalog, valid c <-> CatalogSchema c = true).
Context (snapshot_codec : forall s : Snapshot, valid s <-> SnapshotSchema s = true).
Context (events : bool) (retry : CasRetryOptions).
Implicit Types w : world B Snapshot.

Inductive request :=
| QInit (who : UserId) (recheck : Z)
| QMutate (op : string) (who : UserId) (f : Snapshot -> prog B Snapshot mutation)
| QRecover (base : option Snapshot) (recovered : list SnapshotProjectEntry) (etag : option string)
           (prev : option SnapshotId) (who : UserId)
| QRead.

Definition serve (q : request) : prog B Snapshot Snapshot :=
  match q with
  | QInit who recheck => initialize who recheck
  | QMutate op who f => mutateSnapshot events retry op who f
  | QRecover base recovered etag prev who => recover_accepted events base recovered etag prev who
  | QRead => getCurrentSnapshot
  end.

(** A replica answers its requests one after the other, failed or not. *)
Fixpoint session (qs : list request) : prog B Snapshot (list (result (error Snapshot) Snapshot)) :=
  match qs with
  | [] => mret []
  | q :: qs' => handle (serve q) (fun r => rs ← session qs'; mret (r :: rs))
  end.

(** Actors have ids, callbacks only read the store and keep the entries storable. *)
Definition request_ok (q : request) : Prop :=
  match q with
  | QInit who _ => nonempty who = true
  | QMutate _ who f => nonempty who = true /\ forall s, SnapshotSchema s = true ->
      reader (f s) /\
      forall m, yields (f s) (Ok m) -> forallb SnapshotProjectEntrySchema (projects (mutated m)) = true
  | QRecover _ recovered _ prev who =>
      nonempty who = true /\ forallb SnapshotProjectEntrySchema recovered = true /\ all_opt (is_id "snap") prev = true
  | QRead => True
  end.

(** How a request may move the current snapshot: an initialization from nothing, a mutation
    from the snapshot it read, a recovery while the pointer is as it was inspected. *)
Definition effect (q : request) w w' : Prop :=
  match q with
  | QInit who _ => current w = None /\ exists id now, current w' = Some (initial_snapshot id now who)
  | QMutate op who f => exists s m id now, current w = Some s /\ yields (f s) (Ok m) /\
      current w' = Some (stamp (mutated m) id (Z.max CURRENT_SNAPSHOT_VERSION (schema_version s)) now op who)
  | QRecover base recovered etag _ who => o_etag <$> store w !! catalog_key = etag /\
      exists id now, current w' = Some (recovered_snapshot base recovered id now who)
  | QRead => False
  end.

Context (sessions : list (list request)).
Context (requests_ok : forall qs q, qs ∈ sessions -> q ∈ qs -> request_ok q).

Definition adv (t : tid) w w' : Prop := exists qs q, sessions !! t = Some qs /\ q ∈ qs /\ effect q w w'.

(** Every step leaves the current snapshot alone or is the effect of a request. *)
Definition moves (t : tid) w w' : Prop := current w' = current w \/ adv t w w'.
#[export] Instance moves_extension : Extension moves.
Proof. intros t w w' [H _ _ _]. by left. Qed.

Local Notation G := (G moves).

Lemma serve_spec t qs q :
  sessions !! t = Some qs -> q ∈ qs -> hoare G t ok (serve q) answer.
Proof.
  intros Ht Hq. pose proof (requests_ok qs q (list_elem_of_lookup_2 _ _ _ Ht) Hq) as Hok.
  destruct q as [who recheck|op who f|base recovered etag prev who|]; simpl in *.
  - apply initialize_spec; [done|done|apply _|done|]. intros id now w w' Hn Hp. right.
    exists qs, (QInit who recheck). split; [done|]. split; [done|]. split; [done|]. exists id, now. apply (rp_current t _ w w' Hp).
  - destruct Hok as [Hwho Hf]. apply mutate_snapshot_spec with (K := fun s m _ => yields (f s) (Ok m)); [done|done|apply _|apply _|done|]. intros s Hs.
    destruct (Hf s Hs) as [Hr Hy]. split.
    + eapply hoare_pre; [|eapply hoare_post; [|apply (reader_spec G t (f s) ok Hr)]]; [by intros w [? _]|].
      intros r w [Hw Hyr]. split; [done|]. intros m ->. split; [by apply Hy|done].
    + intros m id now w w' Hm Hc Hp. right. exists qs, (QMutate op who f).
      split; [done|]. split; [done|]. exists s, m, id, now. split_and!; [done|done|apply (rp_current t _ w w' Hp)].
  - destruct Hok as (Hwho & Hps & Hprev). apply recover_spec; [done|done|apply _|done..|]. intros id now w w' He Hp. right.
    exists qs, (QRecover base recovered etag prev who). split; [done|]. split; [done|]. split; [done|]. exists id, now. apply (rp_current t _ w w' Hp).
  - apply get_current_spec; [done|done|apply _].
Qed.

(** Every answered snapshot was stored under its own key. *)
Definition answers (r : result (error Snapshot) (list (result (error Snapshot) Snapshot))) w : Prop :=
  ok w /\ forall rs s, r = Ok rs -> Ok s ∈ rs -> durable s w.

Lemma session_spec t qs0 qs :
  sessions !! t = Some qs0 -> qs ⊆ qs0 -> hoare G t ok (session qs) answers.
Proof.
  intros Ht. induction qs as [|q qs IH]; intros Hsub; simpl.
  { apply hoare_ret; [apply _|]. intros w Hw. split; [done|]. intros rs s [= <-] Hin. by apply not_elem_of_nil in Hin. }
  eapply hoare_handle; [apply (serve_spec t qs0); [done|apply Hsub; by left]|]. intros r.
  eapply hoare_bind with (M := fun r' w => answers r' w /\ forall s, r = Ok s -> durable s w).
  - eapply hoare_pre with (P := fun w => ok w /\ forall s, r = Ok s -> durable s w); [done|].
    eapply (hoare_frame G t ok _ _ (fun w => forall s, r = Ok s -> durable s w)). apply IH. set_solver.
  - intros rs. apply hoare_ret; [apply _|]. intros w [[Hok Hrs] Hr]. split; [done|].
    intros rs' s [= <-] Hin. apply elem_of_cons in Hin as [Hin|Hin]; [by apply Hr|by eapply Hrs].
  - intros e. apply hoare_throw; [apply _|]. by intros w [[? _] _].
Qed.

Definition start w0 : config B Snapshot (list (result (error Snapshot) Snapshot)) := Config (map session sessions) w0.

Lemma sessions_verified w0 : wf w0 -> Inv w0 -> verified G (fun _ => answers) (start w0).
Proof.
  intros Hw HI t p Ht. simpl in Ht. rewrite list_lookup_fmap in Ht.
  destruct (sessions !! t) as [qs|] eqn:E; [|done]. injection Ht as <-.
  by apply (session_spec t qs qs).
Qed.

Lemma sessions_inv w0 c : wf w0 -> Inv w0 -> rtc pool_step (start w0) c -> wf (wd c) /\ Inv (wd c).
Proof.
  intros Hw HI Hr. eapply (pool_invariant G (fun _ => answers) ok); [| |by apply sessions_verified|done|exact Hr].
  - intros t w w' [Hg HG] [? ?]. split; [by apply (grows_wf _ _ Hg)|by apply HG].
  - intros w ms Hms [? ?]. split; [by apply (grows_wf _ _ (grows_tick _ _ Hms))|by apply inv_tick].
Qed.

Lemma sessions_step w0 c c' :
  wf w0 -> Inv w0 -> rtc pool_step (start w0) c -> pool_step c c' ->
  (is_Some (store (wd c) !! catalog_key) -> is_Some (store (wd c') !! catalog_key)) /\
  (current (wd c') = current (wd c) \/ exists t, adv t (wd c) (wd c')).
Proof.
  intros Hw HI Hr Hs. destruct (sessions_inv w0 c Hw HI Hr) as [Hwc HIc].
  destruct (pool_guarantee _ _ _ _ _ (sessions_verified w0 Hw HI) Hr Hs) as [(t & [_ HG] & _)|(ms & _ & Ht)].
  - destruct (HG Hwc HIc) as [_ _ _ Hcur Hlost]. split; [done|]. destruct Hcur; eauto.
  - rewrite Ht. split; [done|by left].
Qed.

(** C1: the catalog pointer never dangles.  Whatever the requests, their interleaving and
    the storage faults, a stored [catalog.json] parses, and the snapshot it names is
    stored, parses and carries the id the pointer gives. *)
Theorem catalog_never_dangles w0 c o :
  wf w0 -> Inv w0 -> rtc pool_step (start w0) c -> store (wd c) !! catalog_key = Some o ->
  exists cat so s, parse (o_body o) = Some cat /\
    current_snapshot_key cat = snapshot_key (current_snapshot_id cat) /\
    store (wd c) !! snapshot_key (current_snapshot_id cat) = Some so /\ parse (o_body so) = Some s /\
    snapshot_id s = current_snapshot_id cat /\ current (wd c) = Some s.
Proof.
  intros Hw HI Hr Ho. destruct (sessions_inv w0 c Hw HI Hr) as [_ HIc].
  destruct (inv_pointer _ HIc o Ho) as (cat & so & s & Hc & Hk & _ & Hso & Hs & Hid).
  exists cat, so, s. repeat split; try done. unfold current, pointer. rewrite Ho. simpl. rewrite Hc. simpl.
  by rewrite Hk, Hso.
Qed.

(** C2: no update is lost.  Every step of every interleaving leaves the current snapshot
    alone or replaces it by the effect of one request on exactly the snapshot that was
    current before the step: an initialization only starts an absent catalog, a mutation
    commits its callback's result for the snapshot it replaces, and a recovery replaces the
    pointer only while it still carries the tag that was inspected. *)
Theorem catalog_no_lost_update w0 c c' :
  wf w0 -> Inv w0 -> rtc pool_step (start w0) c -> pool_step c c' ->
  current (wd c') = current (wd c) \/
  exists t qs q, sessions !! t = Some qs /\ q ∈ qs /\ effect q (wd c) (wd c').
Proof. intros Hw HI Hr Hs. by destruct (sessions_step w0 c c' Hw HI Hr Hs) as [_ H]. Qed.

Lemma current_stays w0 c c' :
  wf w0 -> Inv w0 -> rtc pool_step (start w0) c -> rtc pool_step c c' ->
  is_Some (store (wd c) !! catalog_key) -> is_Some (store (wd c') !! catalog_key).
Proof.
  intros Hw HI Hr Hr'. revert Hr. induction Hr' as [c|c c1 c2 Hs Hr' IH]; intros Hr Hc; [done|].
  apply IH; [by eapply rtc_r|]. by destruct (sessions_step w0 c c1 Hw HI Hr Hs) as [H _]; apply H.
Qed.

Lemma current_iff_stored w : Inv w -> is_Some (current w) <-> is_Some (store w !! catalog_key).
Proof.
  intros HI. split.
  - intros [s Hs]. unfold current, pointer in Hs. by destruct (store w !! catalog_key).
  - intros [o Ho]. destruct (inv_pointer w HI o Ho) as (c & so & s & Hc & Hk & _ & Hso & Hp & _).
    exists s. unfold current, pointer. rewrite Ho. simpl. rewrite Hc. simpl. by rewrite Hk, Hso.
Qed.

(** A deployment is initialized once.  Once a catalog exists it exists for good, and
    no later step of any replica, however many of them still race to initialize, is an
    initialization again. *)
Theorem catalog_initialized_once w0 c c' c'' :
  wf w0 -> Inv w0 -> rtc pool_step (start w0) c -> is_Some (current (wd c)) ->
  rtc pool_step c c' -> pool_step c' c'' ->
  is_Some (current (wd c')) /\ is_Some (current (wd c'')) /\
  forall who recheck, ~ effect (QInit who recheck) (wd c') (wd c'').
Proof.
  intros Hw HI Hr Hsome Hr2 Hs2.
  assert (Hr3 : rtc pool_step (start w0) c') by (by etrans).
  assert (Hr4 : rtc pool_step (start w0) c'') by (by eapply rtc_r).
  pose proof (sessions_inv w0 c Hw HI Hr) as [_ HI1]. pose proof (sessions_inv w0 c' Hw HI Hr3) as [_ HI2].
  pose proof (sessions_inv w0 c'' Hw HI Hr4) as [_ HI3].
  apply (current_iff_stored _ HI1) in Hsome.
  assert (H2 : is_Some (current (wd c'))) by (apply (current_iff_stored _ HI2); by apply (current_stays w0 c c')).
  split; [done|]. split.
  - apply (current_iff_stored _ HI3). apply (current_stays w0 c c''); try done. by eapply rtc_r.
  - intros who recheck [Hnone _]. rewrite Hnone in H2. by destruct H2.
Qed.

Definition no_recovery : Prop := forall qs q, qs ∈ sessions -> q ∈ qs -> match q with QRecover _ _ _ _ _ => False | _ => True end.

(** The schema version never goes down.  Without an offline recovery, a later current
    snapshot has at least the version of an earlier one, so a replica running older code
    that commits over a newer snapshot does not downgrade the chain. *)
Theorem catalog_version_monotone w0 c c' s s' :
  no_recovery -> wf w0 -> Inv w0 -> rtc pool_step (start w0) c -> rtc pool_step c c' ->
  current (wd c) = Some s -> current (wd c') = Some s' -> (schema_version s <= schema_version s')%Z.
Proof.
  intros Hrec Hw HI Hr Hr'. revert s Hr. induction Hr' as [c|c c1 c2 Hs Hr' IH]; intros s Hr Hc Hc'.
  { rewrite Hc in Hc'. by injection Hc' as ->. }
  assert (Hr1 : rtc pool_step (start w0) c1) by (by eapply rtc_r).
  assert (exists s1, current (wd c1) = Some s1 /\ (schema_version s <= schema_version s1)%Z) as (s1 & Hs1 & Hle).
  { destruct (sessions_step w0 c c1 Hw HI Hr Hs) as [_ [Heq|(t & qs & q & Ht & Hq & He)]].
    { exists s. rewrite Heq. by split. }
    specialize (Hrec qs q (list_elem_of_lookup_2 _ _ _ Ht) Hq).
    destruct q as [who recheck|op who f| |]; simpl in He; try done.
    - destruct He as [Hn _]. congruence.
    - destruct He as (s0 & m & id & now & H0 & _ & ->). eexists. split; [done|]. simpl.
      replace s0 with s by congruence. lia. }
  etrans; [exact Hle|]. by eapply IH.
Qed.

(** What a replica answers was stored.  Every snapshot in the results of a session,
    whether read, initialized, committed or recovered, was written under the key of its
    own id, so no client is ever shown a state that was not durable. *)
Theorem catalog_answers_durable w0 c t rs s :
  wf w0 -> Inv w0 -> rtc pool_step (start w0) c -> threads c !! t = Some (Ret rs) -> Ok s ∈ rs ->
  durable s (wd c).
Proof.
  intros Hw HI Hr Ht Hs. destruct (pool_result _ _ _ _ _ _ (sessions_verified w0 Hw HI) Hr Ht) as [_ H].
  by eapply H.
Qed.
End Sessions.
