(* ===== verification/CatalogEntries.v ===== *)
(** * Entries of the catalog

    The callbacks of [CatalogService] that patch one project or notebook entry, the
    projection of authoritative records and the membership index, on their own and as
    requests of concurrent sessions. *)

From Stdlib Require Import ZArith Lia.
From stdpp Require Import relations.
From S2P Require Import Prelude Constants Schema Identity UtcDate Store Storage Cas CasTheorems CatalogData Catalog CatalogProtocol CatalogTheorems.

(** ** Projection of authoritative records *)

Lemma foldl_assign_app e p q : spread_project e (p ++ q)%list = spread_project (spread_project e p) q.
Proof. unfold spread_project. by rewrite foldl_app. Qed.

Definition touches_labels (f : project_field) : bool :=
  match f with PSecurityLabels _ | PSecurityLabelsPending _ => true | _ => false end.

Lemma spread_keeps_labels e p :
  forallb (fun f => negb (touches_labels f)) p = true ->
  e_security_labels (spread_project e p) = e_security_labels e /\
  e_security_labels_pending (spread_project e p) = e_security_labels_pending e.
Proof.
  unfold spread_project. revert e. induction p as [|f p IH]; intros e; simpl; [done|].
  intros [Hf Hp]%andb_true_iff. destruct (IH (assign_project e f) Hp) as [-> ->].
  by destruct e, f.
Qed.

(** Label projections fail closed.  While a label mutation is in flight, a routine
    projection of the authoritative record leaves the entry's labels indeterminate and
    the mutation's mark in place, whatever the record says; only the finalization writes
    the authoritative labels and clears the mark; otherwise the projection shows exactly
    the authoritative labels, known absence included. *)
Theorem label_projection_fails_closed p e finalize :
  let e' := spread_project e (projectCatalogPatch p e finalize) in
  (finalize = true -> e_security_labels e' = known_labels (p_security_labels p) /\ e_security_labels_pending e' = false) /\
  (finalize = false -> e_security_labels_pending e = true ->
     e_security_labels e' = LabelsAbsent /\ e_security_labels_pending e' = true) /\
  (finalize = false -> e_security_labels_pending e = false ->
     e_security_labels e' = known_labels (p_security_labels p) /\ e_security_labels_pending e' = false).
Proof.
  unfold projectCatalogPatch. rewrite foldl_assign_app. cbv zeta.
  match goal with |- context [spread_project e ?q] =>
    destruct (spread_keeps_labels e q eq_refl) as [Hl Hp]; set (e1 := spread_project e q) in * end.
  clearbody e1. unfold securityLabelsProjection, spread_project.
  split; [|split]; intros; subst; simplify_eq.
  - by destruct e1.
  - rewrite H0. rewrite H0 in Hp. destruct e1; simpl in *. by rewrite Hp.
  - rewrite H0. rewrite H0 in Hp. destruct e1; simpl in *. by rewrite Hp.
Qed.

(** ** The membership index *)

Lemma exists_snoc {A} (l : list A) x (P : A -> Prop) :
  (exists e, e ∈ (l ++ [x])%list /\ P e) <-> (exists e, e ∈ l /\ P e) \/ P x.
Proof.
  split.
  - intros (e & [H|H]%elem_of_app & HP); [left; eauto|]. apply list_elem_of_singleton in H as ->. by right.
  - intros [(e & H & HP)|HP]; [exists e|exists x]; (split; [|done]); apply elem_of_app; [by left|right; by left].
Qed.

(** One turn of the loop extends each index by what its entry contributes. *)
Lemma foldl_involve_spec l i (get : ProjectInvolvement -> list (string * ProjectId))
    (contrib : SnapshotProjectEntry -> list (string * ProjectId)) :
  get i = [] -> (forall i e, get (involve i e) = (get i ++ contrib e)%list) ->
  forall x, x ∈ get (foldl involve i l) <-> exists e, e ∈ l /\ x ∈ contrib e.
Proof.
  intros Hi Hc x. induction l as [|e l IH] using rev_ind; simpl.
  - rewrite Hi. split; [by intros ?%not_elem_of_nil|]. intros (e & ?%not_elem_of_nil & _). done.
  - rewrite foldl_snoc, Hc, elem_of_app, IH. by rewrite exists_snoc.
Qed.

Lemma userIds_spec s k id :
  (k, id) ∈ pi_userIds (buildInvolvement s) <->
  exists e, e ∈ projects s /\ (k, id) ∈ ((e_owner e, e_id e) :: map (fun u => (u, e_id e)) (e_member_ids e ?? [])).
Proof. apply (foldl_involve_spec _ _ pi_userIds); [done|]. intros i e. simpl. done. Qed.

Lemma emails_spec s k id :
  (k, id) ∈ pi_emails (buildInvolvement s) <->
  exists e, e ∈ projects s /\ (k, id) ∈ map (fun m => (normalizeEmail m, e_id e)) (e_member_emails e ?? []).
Proof. apply (foldl_involve_spec _ _ pi_emails); done. Qed.

Lemma groups_spec s k id :
  (k, id) ∈ pi_groups (buildInvolvement s) <->
  exists e, e ∈ projects s /\ (k, id) ∈ map (fun g => (g, e_id e)) (e_member_groups e ?? []).
Proof. apply (foldl_involve_spec _ _ pi_groups); done. Qed.

Definition legacy (e : SnapshotProjectEntry) : bool :=
  is_none (e_member_ids e) || is_none (e_member_emails e) || is_none (e_member_groups e).

Lemma legacy_spec s id :
  id ∈ pi_legacy (buildInvolvement s) <-> exists e, e ∈ projects s /\ (legacy e = true /\ id = e_id e).
Proof.
  unfold buildInvolvement. induction (projects s) as [|e l IH] using rev_ind; simpl.
  - split; [by intros ?%not_elem_of_nil|]. by intros (e & ?%not_elem_of_nil & _).
  - rewrite foldl_snoc, exists_snoc, <- IH. unfold involve; cbn [pi_legacy]. unfold legacy.
    destruct (_ || _); [rewrite elem_of_app, list_elem_of_singleton|]; intuition congruence.
Qed.

Lemma elem_of_entries_of m k id : id ∈ entries_of m k <-> (k, id) ∈ m.
Proof.
  unfold entries_of. rewrite list_elem_of_fmap. split.
  - intros ([k' id'] & -> & Hin). apply List_filter_elem in Hin as [Hin Hk].
    apply bool_decide_eq_true in Hk. simpl in Hk. by subst.
  - intros Hin. exists (k, id). split; [done|]. apply List_filter_elem. split; [done|]. by apply bool_decide_eq_true.
Qed.

(** The entry lists the subject, or predates the lists. *)
Definition listed_on (subject : IdentitySubject) (e : SnapshotProjectEntry) : Prop :=
  legacy e = true \/ e_owner e = s_id subject \/ s_id subject ∈ e_member_ids e ?? [] \/
  (exists m, m ∈ e_member_emails e ?? [] /\ normalizeEmail m = normalizeEmail (s_email subject)) \/
  (exists g, g ∈ s_groups subject ?? [] /\ g ∈ e_member_groups e ?? []).

Lemma candidates_spec s subject id :
  id ∈ candidatesFor s subject false <-> exists e, e ∈ projects s /\ e_id e = id /\ listed_on subject e.
Proof.
  unfold candidatesFor. cbv zeta. rewrite elem_of_js_set, !elem_of_app.
  rewrite !elem_of_entries_of, legacy_spec, userIds_spec, emails_spec.
  assert (Hg : id ∈ concat (map (entries_of (pi_groups (buildInvolvement s))) (s_groups subject ?? [])) <->
    exists e, e ∈ projects s /\ e_id e = id /\ exists g, g ∈ s_groups subject ?? [] /\ g ∈ e_member_groups e ?? []).
  { rewrite list_elem_of_In, in_concat. setoid_rewrite in_map_iff. split.
    - intros (l & (g & <- & Hg) & Hl). apply list_elem_of_In, elem_of_entries_of, groups_spec in Hl as (e & He & Hx).
      apply list_elem_of_fmap in Hx as (g' & [= -> ->] & Hg'). exists e. split; [done|]. split; [done|].
      exists g'. split; [by apply list_elem_of_In|done].
    - intros (e & He & <- & g & Hg & Hg'). exists (entries_of (pi_groups (buildInvolvement s)) g).
      split; [exists g; split; [done|by apply list_elem_of_In]|].
      apply list_elem_of_In, elem_of_entries_of, groups_spec. exists e. split; [done|].
      apply list_elem_of_fmap. by exists g. }
  rewrite Hg. clear Hg. setoid_rewrite elem_of_cons. setoid_rewrite list_elem_of_fmap. unfold listed_on. split.
  - intros [(e & He & Hl & ->)|[H|[(e & He & [H|(u & H & Hu)])|[(e & He & m & H & Hm)|(e & He & Hid & Hgr)]]]];
      [exists e; auto|by apply not_elem_of_nil in H| | | |exists e; auto 10];
      injection H as -> ->; exists e; eauto 10.
  - intros (e & He & <- & [Hl|[Ho|[Hm|[(m & Hm & Hn)|Hg]]]]).
    + left. eauto.
    + right; right; left. exists e. rewrite Ho. auto.
    + right; right; left. exists e. eauto.
    + right; right; right; left. exists e. split; [done|]. exists m. by rewrite Hn.
    + right; right; right; right. exists e. auto.
Qed.

(** The membership index misses nobody and invents nothing.  A project whose entry is
    a projection of its record, with the record's owner, is a candidate of everyone the
    record involves, by ownership or by any member row that matches; and a candidate is
    always a project whose entry names the caller or predates the index. *)
Theorem candidates_complete_and_sound s subject p e finalize :
  e ∈ projects s ->
  (forall f, f ∈ projectCatalogPatch p e finalize -> spread_project e [f] = e) ->
  e_owner e = p_owner p ->
  (p_owner p = s_id subject \/ exists m, m ∈ p_members p /\ memberRefMatchesSubject m subject = true) ->
  e_id e ∈ candidatesFor s subject false /\
  (forall id, id ∈ candidatesFor s subject false -> exists e, e ∈ projects s /\ e_id e = id /\ listed_on subject e).
Proof.
  intros He Hproj Hown Hinv. split; [|intros id; by apply candidates_spec].
  apply candidates_spec. exists e. split; [done|]. split; [done|].
  assert (Hids : e_member_ids e = Some (omap m_user_id (p_members p))).
  { specialize (Hproj (PMemberIds (Some (omap m_user_id (p_members p))))). rewrite <- Hproj; [by destruct e|].
    unfold projectCatalogPatch. set_solver. }
  assert (Hems : e_member_emails e = Some (omap m_email (p_members p))).
  { specialize (Hproj (PMemberEmails (Some (omap m_email (p_members p))))). rewrite <- Hproj; [by destruct e|].
    unfold projectCatalogPatch. set_solver. }
  assert (Hgrs : e_member_groups e = Some (omap m_group (p_members p))).
  { specialize (Hproj (PMemberGroups (Some (omap m_group (p_members p))))). rewrite <- Hproj; [by destruct e|].
    unfold projectCatalogPatch. set_solver. }
  unfold listed_on. rewrite Hids, Hems, Hgrs; simpl.
  destruct Hinv as [Ho|(m & Hm & Hmatch)]; [right; left; congruence|]. right; right.
  unfold memberRefMatchesSubject in Hmatch. destruct (m_group m) as [g|] eqn:Eg.
  - apply andb_true_iff in Hmatch as [_ Hin]. right; right. exists g.
    destruct (s_groups subject) as [gs|]; [|done]. simpl. apply includes_spec in Hin. split; [done|].
    apply list_elem_of_omap. by exists m.
  - destruct (m_user_id m) as [u|] eqn:Eu.
    + apply bool_decide_eq_true in Hmatch. left. apply list_elem_of_omap. exists m. by rewrite Eu, Hmatch.
    + destruct (m_email m) as [em|] eqn:Ee; [|done]. right; left. exists em.
      apply bool_decide_eq_true in Hmatch. split; [|done]. apply list_elem_of_omap. by exists m.
Qed.

(** ** Appending notebooks *)

Definition unique_projects (s : Snapshot) : Prop := NoDup (map e_id (projects s)).
Definition unique_notebooks (s : Snapshot) : Prop := forall e, e ∈ projects s -> NoDup (map n_id (e_notebooks e)).

Lemma projectsById_unique s e : unique_projects s -> e ∈ projects s -> projectsById s (e_id e) = Some e.
Proof.
  unfold unique_projects, projectsById. intros Hnd Hin.
  assert (Hf : List.filter (fun x => e_id x === e_id e) (projects s) = [e]); [|by rewrite Hf].
  induction (projects s) as [|x l IH]; [by apply not_elem_of_nil in Hin|]. simpl in *.
  apply NoDup_cons in Hnd as [Hx Hnd]. apply elem_of_cons in Hin as [->|Hin].
  - rewrite bool_decide_eq_true_2 by done. f_equal. clear IH Hnd. induction l as [|y l IH]; simpl; [done|].
    simpl in Hx. apply not_elem_of_cons in Hx as [Hne Hx]. rewrite bool_decide_eq_false_2 by congruence. by apply IH.
  - rewrite bool_decide_eq_false_2; [by apply IH|]. intros Heq. destruct Hx. rewrite Heq.
    apply list_elem_of_fmap. by exists e.
Qed.

Lemma projectsById_elem s id e : projectsById s id = Some e -> e ∈ projects s /\ e_id e = id.
Proof.
  unfold projectsById. intros H. apply last_Some in H as [l Hl].
  assert (Hin : e ∈ List.filter (fun x => e_id x === id) (projects s)) by (rewrite Hl; apply elem_of_app; right; by left).
  apply List_filter_elem in Hin as [Hin He]. by apply bool_decide_eq_true in He.
Qed.

Lemma append_to_notebooks entry p : e_notebooks (append_to entry p) = (e_notebooks p ++ [entry])%list.
Proof. by destruct p. Qed.
Lemma append_to_id entry p : e_id (append_to entry p) = e_id p.
Proof. by destruct p. Qed.

Lemma append_to_schema entry p :
  SnapshotNotebookEntrySchema entry = true -> SnapshotProjectEntrySchema p = true ->
  SnapshotProjectEntrySchema (append_to entry p) = true.
Proof.
  intros He Hp. destruct p; unfold SnapshotProjectEntrySchema in *; cbn in *.
  rewrite !andb_true_iff in *. destruct Hp as ((((((((H1 & H2) & H3) & H4) & H5) & H6) & H7) & H8) & H9).
  assert (utcTimestamp (n_updated_at entry) = true).
  { unfold SnapshotNotebookEntrySchema in He. rewrite !andb_true_iff in He. tauto. }
  repeat split; try done; [apply Z.leb_le; apply Z.leb_le in H5; lia|].
  rewrite forallb_app, H6. simpl. by rewrite He.
Qed.

Section Append.
Context {B : Type}.

(** What the callback of an [ifAbsent] append returns. *)
Lemma append_yields pid entry s m :
  yields (append_notebook_fn (B := B) pid entry true s) (Ok m) ->
  exists p, projectsById s pid = Some p /\ e_status p <> ProjectDeleted /\
    (forall n, n ∈ e_notebooks p -> n_id n <> n_id entry) /\
    m = Fresh (patch_entries pid (append_to entry) s).
Proof.
  unfold append_notebook_fn. destruct (projectsById s pid) as [p|]; simpl; [|done].
  case_bool_decide; simpl; [done|].
  destruct (existsb _ _) eqn:E; simpl; [done|]. intros [= <-]. exists p. split; [done|]. split; [done|].
  split; [|done]. intros n Hn Heq. assert (existsb (fun x => n_id x === n_id entry) (e_notebooks p) = true).
  { apply existsb_elem. exists n. split; [done|]. by apply bool_decide_eq_true. }
  congruence.
Qed.

Lemma append_reader pid entry b s : reader (append_notebook_fn (B := B) pid entry b s).
Proof.
  unfold append_notebook_fn. destruct (projectsById s pid), b; simpl; repeat case_match; done.
Qed.

(** An append keeps project and notebook ids unique. *)
Lemma append_unique pid entry s m :
  yields (append_notebook_fn (B := B) pid entry true s) (Ok m) -> unique_projects s -> unique_notebooks s ->
  unique_projects (mutated m) /\ unique_notebooks (mutated m).
Proof.
  intros Hy Hp Hn. destruct (append_yields _ _ _ _ Hy) as (p & Hpid & _ & Hfresh & ->). split.
  - unfold unique_projects in *. simpl. rewrite map_map.
    erewrite map_ext; [exact Hp|]. intros e. simpl. case_bool_decide; [by rewrite append_to_id|done].
  - intros e' He'. simpl in He'. apply list_elem_of_fmap in He' as (e & -> & He).
    case_bool_decide as Heq; [|by apply Hn]. rewrite append_to_notebooks, map_app.
    assert (p = e) as -> by (rewrite <- Heq, (projectsById_unique s e Hp He) in Hpid; congruence).
    apply NoDup_app. split; [by apply Hn|]. split; [|apply NoDup_singleton].
    intros x Hx. apply list_elem_of_fmap in Hx as (n & -> & Hin). simpl. intros Hc.
    apply list_elem_of_singleton in Hc. by eapply Hfresh.
Qed.

Lemma append_keeps_schema pid entry s m :
  SnapshotNotebookEntrySchema entry = true -> SnapshotSchema s = true ->
  yields (append_notebook_fn (B := B) pid entry true s) (Ok m) ->
  forallb SnapshotProjectEntrySchema (projects (mutated m)) = true.
Proof.
  intros He Hs Hy. destruct (append_yields _ _ _ _ Hy) as (p & _ & _ & _ & ->). simpl.
  unfold SnapshotSchema in Hs. rewrite !andb_true_iff in Hs. destruct Hs as [_ Hs].
  rewrite forallb_elem in Hs |- *. intros e' He'. apply list_elem_of_fmap in He' as (e & -> & Hin).
  case_bool_decide; [apply append_to_schema; auto|auto].
Qed.
End Append.

Section AppendSessions.
Context {B : Type} `{!EqDecision B} {CC : Codec B Catalog} {CS : Codec B Snapshot}.
Context (catalog_codec : forall c : Catalog, valid c <-> CatalogSchema c = true).
Context (snapshot_codec : forall s : Snapshot, valid s <-> SnapshotSchema s = true).
Context (events : bool) (retry : CasRetryOptions).

(** Sessions that initialize, read and append notebooks idempotently. *)
Definition append_request (q : request (B := B)) : Prop :=
  match q with
  | QInit who _ => nonempty who = true
  | QRead => True
  | QMutate _ who f => nonempty who = true /\ exists pid entry,
      SnapshotNotebookEntrySchema entry = true /\ f = append_notebook_fn pid entry true
  | QRecover _ _ _ _ _ => False
  end.

Lemma append_request_ok q : append_request q -> request_ok q.
Proof.
  destruct q as [who ?|op who f| |]; simpl; try done. intros (Hwho & pid & entry & He & ->). split; [done|].
  intros s Hs. split; [apply append_reader|]. intros m. by apply append_keeps_schema.
Qed.

(** A replayed append adds a notebook once.  Any number of replicas append notebooks
    with [ifAbsent], the same ids as often as they like, interleaved in any way with any
    storage faults: no project ever holds two entries of one notebook id, and project ids
    stay unique. *)
Theorem append_if_absent_once sessions w0 c s :
  (forall qs q, qs ∈ sessions -> q ∈ qs -> append_request q) ->
  wf w0 -> Inv w0 -> (forall s, current w0 = Some s -> unique_projects s /\ unique_notebooks s) ->
  rtc pool_step (start events retry sessions w0) c -> current (wd c) = Some s ->
  unique_projects s /\ unique_notebooks s.
Proof.
  intros Hreq Hw HI H0 Hr. assert (Hok : forall qs q, qs ∈ sessions -> q ∈ qs -> request_ok q)
    by (intros; apply append_request_ok; by eapply Hreq).
  assert (Hgen : forall c', rtc pool_step (start events retry sessions w0) c' ->
    forall s, current (wd c') = Some s -> unique_projects s /\ unique_notebooks s); [|by apply Hgen].
  clear c s Hr. intros c Hr. refine (rtc_ind_r (fun c => forall s, current (wd c) = Some s ->
    unique_projects s /\ unique_notebooks s) (start events retry sessions w0) H0 _ c Hr).
  clear c Hr. intros c c1 Hr Hs IH s Hc1.
  destruct (sessions_step catalog_codec snapshot_codec events retry sessions Hok w0 c c1 Hw HI Hr Hs)
    as [_ [Heq|(t & qs & q & Ht & Hq & He)]]; [apply IH; congruence|].
  specialize (Hreq qs q (list_elem_of_lookup_2 _ _ _ Ht) Hq).
  destruct q as [who ?|op who f| |]; simpl in *; try done.
  - destruct He as (_ & id & now & He). rewrite He in Hc1. injection Hc1 as <-. split; [constructor|].
    intros e Hin. simpl in Hin. by apply not_elem_of_nil in Hin.
  - destruct Hreq as (_ & pid & entry & _ & ->). destruct He as (s0 & m & id & now & Hs0 & Hy & Ha).
    rewrite Ha in Hc1. injection Hc1 as <-. destruct (IH s0 Hs0) as [Hp Hn].
    by destruct (append_unique _ _ _ _ Hy Hp Hn).
Qed.
End AppendSessions.

(** ** Patching entries *)

Section Patch.
Context {B V : Type}.

Lemma yields_bind {A C} (p : prog B V A) (f : A -> prog B V C) r :
  yields (bind p f) r <->
  (exists a, yields p (Ok a) /\ yields (f a) r) \/ (exists e, yields p (Err e) /\ r = Err e).
Proof.
  induction p as [a|e|X o k IH].
  - change (bind (Ret a) f) with (f a). simpl. split; [left; eauto|]. by intros [(a0 & [= ->] & ?)|(e & ? & _)].
  - change (bind (Throw e) f) with (@Throw B V C e). simpl. split; [right; eauto|].
    by intros [(a0 & ? & _)|(e0 & [= ->] & ?)].
  - change (bind (Call o k) f) with (Call o (fun x => bind (k x) f)). simpl. setoid_rewrite IH. split.
    + intros (x & [(a & ? & ?)|(e & ? & ?)]); [left|right]; eauto.
    + intros [(a & (x & ?) & ?)|(e & (x & ?) & ?)]; exists x; [left|right]; eauto.
Qed.

Lemma advance_ts_ge t c : String.leb t (advance_ts t c) = true.
Proof.
  unfold advance_ts. destruct c as [c|]; [|apply string_leb_refl].
  destruct (String.ltb t c) eqn:E; [by apply string_ltb_spec in E as [? _]|apply string_leb_refl].
Qed.
End Patch.

(** The last two assignments of a notebook patch decide the timestamp and the notebooks. *)
Lemma spread_last_two e p u ns :
  e_updated_at (spread_project e (p ++ [PUpdatedAt u; PNotebooks ns])%list) = u /\
  e_notebooks (spread_project e (p ++ [PUpdatedAt u; PNotebooks ns])%list) = ns.
Proof. rewrite foldl_assign_app. by destruct (spread_project e p). Qed.

(** A notebook update touches its notebook and never turns back the clock.  Whatever
    the patches, in a snapshot with unique project ids every other project keeps its
    entry, and the project keeps its id, its other notebooks unchanged and in order, the
    id of the patched one, and an aggregate timestamp no earlier than before and no
    earlier than either patch asked for. *)
Theorem update_notebook_entry_spec {B} pid nid patch projectPatch s m i e :
  unique_projects s ->
  yields (update_project_fn (B := B) pid (notebook_project_patch nid patch projectPatch) s) (Ok m) ->
  projects s !! i = Some e ->
  exists e', projects (mutated m) !! i = Some e' /\ e_id e' = e_id e /\ (e_id e <> pid -> e' = e) /\
    String.leb (e_updated_at e) (e_updated_at e') = true /\
    (forall j n, e_notebooks e !! j = Some n -> exists n', e_notebooks e' !! j = Some n' /\ n_id n' = n_id n /\
       (e_id e <> pid \/ n_id n <> nid -> n' = n)) /\
    length (e_notebooks e') = length (e_notebooks e).
Proof.
  intros Hu Hy Hi. unfold update_project_fn in Hy.
  assert (Hsame : mutated (Draft s) = s -> exists e', projects s !! i = Some e' /\ e_id e' = e_id e /\ (e_id e <> pid -> e' = e) /\
    String.leb (e_updated_at e) (e_updated_at e') = true /\
    (forall j n, e_notebooks e !! j = Some n -> exists n', e_notebooks e' !! j = Some n' /\ n_id n' = n_id n /\
       (e_id e <> pid \/ n_id n <> nid -> n' = n)) /\ length (e_notebooks e') = length (e_notebooks e)).
  { intros _. exists e. repeat split; try done; [apply string_leb_refl|]. intros j n Hn. by exists n. }
  destruct (projectsById s pid) as [p|] eqn:Hp; [|injection Hy as ->; by apply Hsame].
  apply yields_bind in Hy as [(pp & Hpp & [= ->])|(? & _ & ?)]; [|done].
  simpl. rewrite list_lookup_fmap, Hi. simpl.
  case_bool_decide as Heq.
  2: { exists e. repeat split; try done; [apply string_leb_refl|]. intros j n Hn. by exists n. }
  assert (p = e) as -> by (rewrite <- Heq, (projectsById_unique s e Hu (list_elem_of_lookup_2 _ _ _ Hi)) in Hp; congruence).
  apply yields_bind in Hpp as [(np & _ & Hpp)|(? & _ & ?)]; [|done].
  apply yields_bind in Hpp as [(rp & _ & Hpp)|(? & _ & ?)]; [|done]. cbv zeta in Hpp.
  injection Hpp as ->. cbn [default]. eexists. split; [done|].
  match goal with |- context [(rp ++ [PUpdatedAt ?u; PNotebooks ?ns])%list] =>
    destruct (spread_last_two e rp u ns) as [-> ->] end.
  split; [apply spread_project_id|]. split; [done|].
  split; [eapply string_leb_trans; apply advance_ts_ge|].
  destruct np as [np|]; [|split; [|done]; intros j n Hn; by exists n].
  split; [|apply length_map]. intros j n Hn. rewrite list_lookup_fmap, Hn. simpl. eexists. split; [done|].
  case_bool_decide as Hid; [split; [apply spread_notebook_id|]|done]. intros [?|?]; congruence.
Qed.

(** ** A catalog in use *)
Module CatalogSample.

(** The documents of a store: the two record types, and text that is neither. *)
Inductive doc := DCatalog (c : Catalog) | DSnapshot (s : Snapshot) | DText (s : string).
#[export] Instance doc_eq_dec : EqDecision doc.
Proof. solve_decision. Defined.

Definition parse_catalog (d : doc) : option Catalog :=
  match d with DCatalog c => if CatalogSchema c then Some c else None | _ => None end.
Definition parse_snapshot (d : doc) : option Snapshot :=
  match d with DSnapshot s => if SnapshotSchema s then Some s else None | _ => None end.

#[export] Instance catalog_codec : Codec doc Catalog.
Proof.
  refine {| valid := fun c => CatalogSchema c = true; stringify := DCatalog; parse := parse_catalog |}.
  - intros c Hc. simpl. by rewrite Hc.
  - intros [c| |] x; simpl; try done. by destruct (CatalogSchema c) eqn:E; [intros [= <-]|].
Defined.

#[export] Instance snapshot_codec : Codec doc Snapshot.
Proof.
  refine {| valid := fun s => SnapshotSchema s = true; stringify := DSnapshot; parse := parse_snapshot |}.
  - intros s Hs. simpl. by rewrite Hs.
  - intros [|s|] x; simpl; try done. by destruct (SnapshotSchema s) eqn:E; [intros [= <-]|].
Defined.

Lemma catalog_schema (c : Catalog) : valid c <-> CatalogSchema c = true.
Proof. done. Qed.
Lemma snapshot_schema (s : Snapshot) : valid s <-> SnapshotSchema s = true.
Proof. done. Qed.

Definition project : SnapshotProjectEntry :=
  {| e_id := "proj-0000000000000001"; e_name := "demo"; e_description := ""; e_owner := "ana";
     e_status := ProjectActive; e_created_at := "2024-01-01T00:00:00.000Z"; e_updated_at := "2024-01-01T00:00:00.000Z";
     e_notebook_count := 0; e_notebooks := []; e_tags := Some []; e_search_refresh := None;
     e_member_ids := Some []; e_default_role := Some DRInherit; e_member_emails := Some [];
     e_member_groups := Some []; e_security_labels := LabelsNull; e_security_labels_pending := false; e_extra := [] |}.
Definition notebook : SnapshotNotebookEntry :=
  {| n_id := "nb-0000000000000001"; n_title := "first"; n_description := ""; n_status := NbActive;
     n_source_type := SrcLocal; n_author := "ana"; n_created_at := "2024-01-02T00:00:00.000Z";
     n_updated_at := "2024-01-02T00:00:00.000Z"; n_tags := []; n_last_run_at := None; n_compute_profile := None;
     n_app_compute_profile := None; n_security_labels := LabelsNull; n_security_labels_pending := false;
     n_jobs := None; n_key_prefix := "projects/p/notebooks/n"; n_move_id := None; n_moving := None; n_extra := [] |}.

(** Adds the project, as a caller of [mutateSnapshot] does. *)
Definition add_project (s : Snapshot) : prog doc Snapshot mutation :=
  Ret (Fresh {| snapshot_id := snapshot_id s; schema_version := schema_version s; created_at := created_at s;
                operation := operation s; actor := actor s; projects := (projects s ++ [project])%list;
                s_extra := s_extra s |}).

Definition append : Snapshot -> prog doc Snapshot mutation := append_notebook_fn (e_id project) notebook true.

Definition sessions : list (list (request (B := doc))) :=
  [[QInit "ana" 250; QMutate "project.create" "ana" add_project; QMutate "notebook.create" "ana" append];
   [QMutate "notebook.create" "ben" append; QRead]].

Definition w0 : world doc Snapshot := tick empty_world 1700000000000.
Definition first := session (B := doc) true no_retry_options (default [] (sessions !! 0)).
Definition second := session (B := doc) true no_retry_options (default [] (sessions !! 1)).
Definition run1 := run 0 first w0.
Definition run2 := run 1 second (snd run1).

Lemma w0_wf : wf w0.
Proof. apply (grows_wf empty_world); [apply grows_tick; split; vm_compute; [discriminate|reflexivity]|exact wf_empty]. Qed.

Lemma w0_inv : Inv w0.
Proof.
  split; try done.
  - intros id b b' (t & o & H & _). by apply not_elem_of_nil in H.
  - intros id b (t & o & H & _). by apply not_elem_of_nil in H.
  - intros k s H. by apply not_elem_of_nil in H.
  - intros id b s (t & o & H & _). by apply not_elem_of_nil in H.
Qed.

Definition result_prog (r : result (error Snapshot) (list (result (error Snapshot) Snapshot)))
    : prog doc Snapshot (list (result (error Snapshot) Snapshot)) := lift r.

Definition after_first := Config [result_prog (fst run1); second] (snd run1).
Definition after_both := Config [result_prog (fst run1); result_prog (fst run2)] (snd run2).

Lemma runs : rtc pool_step (start true no_retry_options sessions w0) after_first /\ rtc pool_step after_first after_both.
Proof.
  assert (Hm : mem_wf w0) by (intros t k o H; by apply not_elem_of_nil in H).
  destruct (run_reaches 0 first [first; second] w0 (fst run1) (snd run1))
    as [H1 Hm1]; [done|vm_compute; reflexivity|done|apply surjective_pairing|].
  destruct (run_reaches 1 second [result_prog (fst run1); second] (snd run1) (fst run2) (snd run2))
    as [H2 _]; [done|vm_compute; reflexivity|done|apply surjective_pairing|].
  split; [exact H1|exact H2].
Qed.

(** The second append found the notebook and committed nothing. *)
Example appended_once :
  (fun s => map (fun e => length (e_notebooks e)) (projects s)) <$> current (snd run2) = Some [1].
Proof. vm_compute. reflexivity. Qed.

Lemma requests_fine qs q : qs ∈ sessions -> q ∈ qs -> request_ok q.
Proof.
  intros Hqs Hq. unfold sessions in Hqs. rewrite !elem_of_cons in Hqs.
  assert (Happ : forall who, nonempty who = true -> request_ok (QMutate "notebook.create" who append)).
  { intros who Hwho. apply append_request_ok. split; [done|]. exists (e_id project), notebook.
    split; [vm_compute; reflexivity|done]. }
  destruct Hqs as [->|[->|H]]; [| |by apply not_elem_of_nil in H]; rewrite !elem_of_cons in Hq.
  - destruct Hq as [->|[->|[->|H]]]; [done| |by apply Happ|by apply not_elem_of_nil in H].
    split; [done|]. intros s Hs. split; [done|]. intros m [= ->]. simpl. rewrite forallb_app.
    unfold SnapshotSchema in Hs. rewrite !andb_true_iff in Hs. destruct Hs as [_ ->].
    vm_compute. reflexivity.
  - destruct Hq as [->|[->|H]]; [by apply Happ|done|by apply not_elem_of_nil in H].
Qed.

Definition snapshot_of (w : world doc Snapshot) : Snapshot := default (initial_snapshot "" "" "") (current w).
Definition stored_pointer (w : world doc Snapshot) : object doc :=
  default {| o_body := DText ""; o_etag := ""; o_uploaded := 0 |} (store w !! catalog_key).

Example catalog_never_dangles_witness :
  exists cat so s, parse (o_body (stored_pointer (snd run1))) = Some cat /\
    current_snapshot_key cat = snapshot_key (current_snapshot_id cat) /\
    store (snd run1) !! snapshot_key (current_snapshot_id cat) = Some so /\ parse (o_body so) = Some s /\
    snapshot_id s = current_snapshot_id cat /\ current (snd run1) = Some s.
Proof.
  apply (catalog_never_dangles catalog_schema snapshot_schema true no_retry_options sessions requests_fine w0 after_first).
  - exact w0_wf.
  - exact w0_inv.
  - exact (proj1 runs).
  - vm_compute. reflexivity.
Defined.

(** The next step of the run: the second session reads the pointer. *)
Lemma next_step : exists c, pool_step after_first c /\ wd c = snd run1.
Proof.
  eexists. split; [eapply (pool_call 1); [reflexivity|left; split; reflexivity]|reflexivity].
Qed.

Example catalog_no_lost_update_witness :
  exists c, pool_step after_first c /\
    (current (wd c) = current (snd run1) \/
     exists t qs q, sessions !! t = Some qs /\ q ∈ qs /\ effect q (snd run1) (wd c)).
Proof.
  destruct next_step as (c & Hs & _). exists c. split; [exact Hs|].
  apply (catalog_no_lost_update catalog_schema snapshot_schema true no_retry_options sessions requests_fine w0 after_first).
  - exact w0_wf.
  - exact w0_inv.
  - exact (proj1 runs).
  - exact Hs.
Defined.

Example catalog_initialized_once_witness :
  is_Some (current (snd run1)) /\ exists c, pool_step after_first c /\
    forall who recheck, ~ effect (B := doc) (QInit who recheck) (snd run1) (wd c).
Proof.
  split; [vm_compute; eexists; reflexivity|].
  destruct next_step as (c & Hs & _). exists c. split; [exact Hs|].
  destruct (catalog_initialized_once catalog_schema snapshot_schema true no_retry_options sessions requests_fine w0
              after_first after_first c) as (_ & _ & H).
  - exact w0_wf.
  - exact w0_inv.
  - exact (proj1 runs).
  - vm_compute. eexists. reflexivity.
  - apply rtc_refl.
  - exact Hs.
  - exact H.
Defined.

Example catalog_version_monotone_witness :
  (schema_version (snapshot_of (snd run1)) <= schema_version (snapshot_of (snd run2)))%Z.
Proof.
  apply (catalog_version_monotone catalog_schema snapshot_schema true no_retry_options sessions requests_fine w0
           after_first after_both).
  - intros qs q Hqs Hq. unfold sessions in Hqs. repeat (apply elem_of_cons in Hqs as [->|Hqs]);
      [..|by apply not_elem_of_nil in Hqs]; repeat (apply elem_of_cons in Hq as [->|Hq]); try exact I;
      by apply not_elem_of_nil in Hq.
  - exact w0_wf.
  - exact w0_inv.
  - exact (proj1 runs).
  - exact (proj2 runs).
  - vm_compute. reflexivity.
  - vm_compute. reflexivity.
Defined.

Definition answers_of (r : result (error Snapshot) (list (result (error Snapshot) Snapshot))) :=
  match r with Ok rs => rs | Err _ => [] end.

Example catalog_answers_durable_witness : durable (snapshot_of (snd run2)) (snd run2).
Proof.
  apply (catalog_answers_durable catalog_schema snapshot_schema true no_retry_options sessions requests_fine w0
           after_both 1 (answers_of (fst run2))).
  - exact w0_wf.
  - exact w0_inv.
  - etrans; [exact (proj1 runs)|exact (proj2 runs)].
  - vm_compute. reflexivity.
  - vm_compute. right. left.
Defined.

Definition append_sessions : list (list (request (B := doc))) := [[QMutate "notebook.create" "ben" append]].

Example append_if_absent_once_witness :
  unique_projects (snapshot_of (snd run1)) /\ unique_notebooks (snapshot_of (snd run1)).
Proof.
  apply (append_if_absent_once catalog_schema snapshot_schema true no_retry_options append_sessions (snd run1)
           (start true no_retry_options append_sessions (snd run1))).
  - intros qs q Hqs Hq. apply list_elem_of_singleton in Hqs as ->. apply list_elem_of_singleton in Hq as ->.
    split; [reflexivity|]. exists (e_id project), notebook. split; [vm_compute; reflexivity|reflexivity].
  - apply (sessions_inv catalog_schema snapshot_schema true no_retry_options sessions requests_fine w0 after_first);
      [exact w0_wf|exact w0_inv|exact (proj1 runs)].
  - apply (sessions_inv catalog_schema snapshot_schema true no_retry_options sessions requests_fine w0 after_first);
      [exact w0_wf|exact w0_inv|exact (proj1 runs)].
  - intros s Hs. vm_compute in Hs. injection Hs as <-. split.
    + apply NoDup_singleton.
    + intros e He. apply list_elem_of_singleton in He as ->. apply NoDup_singleton.
  - apply rtc_refl.
  - vm_compute. reflexivity.
Defined.

Definition rename : SnapshotNotebookEntry -> prog doc Snapshot (option (list notebook_field)) :=
  fun _ => Ret (Some [NTitle "renamed"; NUpdatedAt "2024-02-01T00:00:00.000Z"]).
Definition renaming : prog doc Snapshot mutation :=
  update_project_fn (e_id project) (notebook_project_patch (n_id notebook) rename None) (snapshot_of (snd run1)).
Definition renamed : mutation :=
  match fst (run 0 renaming w0) with Ok m => m | Err _ => Draft (snapshot_of w0) end.
Definition the_project : SnapshotProjectEntry := default project (projects (snapshot_of (snd run1)) !! 0).

Example update_notebook_entry_spec_witness :
  exists e', projects (mutated renamed) !! 0 = Some e' /\
    String.leb (e_updated_at the_project) (e_updated_at e') = true /\
    length (e_notebooks e') = length (e_notebooks the_project).
Proof.
  destruct (update_notebook_entry_spec (e_id project) (n_id notebook) rename None (snapshot_of (snd run1)) renamed 0 the_project)
    as (e' & He' & _ & _ & Hu & _ & Hl).
  - vm_compute. apply NoDup_singleton.
  - vm_compute. reflexivity.
  - vm_compute. reflexivity.
  - exists e'. split; [exact He'|]. split; [exact Hu|exact Hl].
Defined.

Definition record : Project :=
  {| p_schema_version := 1; p_id := e_id project; p_name := "demo"; p_description := ""; p_owner := "ana";
     p_members := [{| m_user_id := None; m_email := Some "ben@example.org"; m_group := None; m_role := Editor |}];
     p_default_role := None; p_federation := None; p_status := ProjectActive;
     p_created_at := "2024-01-01T00:00:00.000Z"; p_updated_at := "2024-01-01T00:00:00.000Z"; p_tags := [];
     p_security_labels := None |}.
Definition projected : SnapshotProjectEntry := spread_project project (projectCatalogPatch record project false).
Definition listing : Snapshot :=
  {| snapshot_id := "snap-0000000000000009"; schema_version := 1; created_at := "2024-01-01T00:00:00.000Z";
     operation := "project.members"; actor := "ana"; projects := [projected]; s_extra := [] |}.
Definition ben : IdentitySubject :=
  {| s_id := "u-ben"; s_email := "Ben@Example.org"; s_entitlements := None; s_groups := None |}.

Example candidates_complete_and_sound_witness : e_id projected ∈ candidatesFor listing ben false.
Proof.
  refine (proj1 (candidates_complete_and_sound listing ben record projected false _ _ _ _)).
  - left.
  - intros f Hf. vm_compute in Hf. repeat (apply elem_of_cons in Hf as [->|Hf]; [vm_compute; reflexivity|]).
    by apply not_elem_of_nil in Hf.
  - reflexivity.
  - right. exists {| m_user_id := None; m_email := Some "ben@example.org"; m_group := None; m_role := Editor |}.
    split; [left|vm_compute; reflexivity].
Defined.
End CatalogSample.
