(* ===== verification/MaintenanceLock.v ===== *)
(** * The maintenance lease

    [packages/core/src/services/catalog/MaintenanceLock.ts]: an advisory lease with an
    expiry on one object.  Replicas share one clock here; the theorem says that an
    unexpired lease is never in two hands, whatever the interleaving and the storage
    faults. *)

From Stdlib Require Import ZArith Lia.
From stdpp Require Import relations.
From S2P Require Import Prelude UtcDate Store Cas CasTheorems.
Local Open Scope Z_scope.

Record LockRecord := { holder : string; expires_at : string }.

Definition DEFAULT_TTL_MS : Z := 10 * 60 * 1000.
Definition maintenanceLock : key := "_system/_maintenance.lock".

(** [LockRecordSchema] accepts a record whose expiry is a UTC timestamp. *)
Definition LockRecordSchema (r : LockRecord) : Prop := utcTimestamp (expires_at r) = true.

Section Lock.
Context {B V : Type} `{!Codec B LockRecord} (lock_key : key).
Implicit Types w : world B V.

(** [parse]: [null] for a corrupt record. *)
Definition parse_lock (body : B) : option LockRecord := parse body.

(** [new Date(expires_at).getTime() > now]; an invalid date compares false. *)
Definition later_than (expires : string) (now : Z) : bool :=
  match parseIsoTimestamp expires with Some t => now <? t | None => false end.

Definition tryCreate (body : B) : prog B V bool := putIfAbsent lock_key body.

Definition tryAcquire (who : string) (ttlMs : Z) : prog B V bool :=
  now ← call ONow;
  let body := stringify {| holder := who; expires_at := toISOString (now + ttlMs) |} in
  created ← tryCreate body;
  if created : bool then mret true
  else
    existing ← call (OGet lock_key);
    match existing with
    | None => tryCreate body
    | Some obj =>
        let write :=
          handle (call (OPut lock_key body (onlyIfEtagMatches (o_etag obj)))) (fun r =>
            match r with
            | Ok _ => mret true
            | Err PreconditionFailedError => mret false
            | Err err => Throw err
            end) in
        match parse_lock (o_body obj) with
        | Some current =>
            if holder current === who then write
            else
              now' ← call ONow;
              if later_than (expires_at current) now' then mret false else write
        | None => write
        end
    end.

Definition acquire (who : string) (ttlMs : option Z) : prog B V bool :=
  tryAcquire who (ttlMs ?? DEFAULT_TTL_MS).

Definition release (who : string) (aborted : bool) : prog B V unit :=
  existing ← call (OGet lock_key);
  match existing with
  | None => mret tt
  | Some obj =>
      match parse_lock (o_body obj) with
      | None => mret tt
      | Some current =>
          if aborted || negb (holder current === who) then mret tt
          else
            now ← call ONow;
            handle (call (OPut lock_key (stringify {| holder := who; expires_at := toISOString now |})
                            (onlyIfEtagMatches (o_etag obj)))) (fun _ => mret tt)
      end
  end.

(** ** The lease in the store *)

Definition lease w : option (string * Z) :=
  obj ← store w !! lock_key; r ← parse_lock (o_body obj); t ← parseIsoTimestamp (expires_at r);
  Some (holder r, t).

End Lock.

(** ** Mutual exclusion *)
Module Exclusion.
Section Exclusion.
Context {B V : Type} `{!Codec B LockRecord} (lock_key : key).
Context (schema : forall r, valid r <-> LockRecordSchema r).
(** Replicas have distinct holder ids. *)
Context (who : tid -> string) (who_inj : forall t t', who t = who t' -> t = t').
(** Timestamps of the years 0000 to 9999: before the horizon no deadline leaves them. *)
Context (ttl : tid -> Z) (horizon : Z).
Context (ttl_ok : forall t, 0 <= ttl t /\ horizon + ttl t < 253402300800000).
(** Time at which the replicas start. *)
Context (t_start : Z) (start_ok : 0 <= t_start).
Implicit Types w : world B V.
Local Notation lease := (lease lock_key).

Definition G (t : tid) w w' : Prop :=
  grows w w' /\
  (clock w' < horizon ->
   store w' !! lock_key = store w !! lock_key \/
   ((forall h e, lease w = Some (h, e) -> h = who t \/ e <= clock w) /\
    exists e, lease w' = Some (who t, e))).

#[local] Instance lock_protocol : Protocol G.
Proof. split; [intros t w; split; [done|by left]|by intros t w w' [? _]]. Qed.

Definition held t e w : Prop := clock w < horizon -> clock w < e -> lease w = Some (who t, e).

#[local] Instance stable_held t e : Stable G t (held t e).
Proof.
  intros w w' Ho Hh Hc He. pose proof (grows_clock _ _ (others_grows _ _ _ _ Ho)).
  specialize (Hh ltac:(lia) ltac:(lia)).
  destruct Ho as [(t' & Hne & _ & HG)|(ms & _ & ->)]; [|done].
  destruct (HG Hc) as [Heq|[Hok _]].
  - unfold MaintenanceLock.lease in *. by rewrite Heq.
  - destruct (Hok _ _ Hh) as [Heq|]; [by apply who_inj in Heq|lia].
Qed.

(** A started replica. *)
Definition started w : Prop := wf w /\ t_start <= clock w.
#[local] Instance stable_started t : Stable G t started.
Proof. unfold started. apply _. Qed.

Lemma parse_lease r : LockRecordSchema r -> parse_lock (stringify r) = Some r.
Proof. intros Hr. by apply parse_stringify, schema. Qed.

Lemma lease_of_body w o :
  store w !! lock_key = Some o -> lease w = r ← parse_lock (o_body o); e ← parseIsoTimestamp (expires_at r); Some (holder r, e).
Proof. intros H. unfold MaintenanceLock.lease. by rewrite H. Qed.

Lemma lease_write t w h e g u :
  0 <= e < 253402300800000 ->
  lease (write t w lock_key {| o_body := stringify {| holder := h; expires_at := toISOString e |};
                               o_etag := g; o_uploaded := u |}) = Some (h, e).
Proof.
  intros He. pose proof (parse_toISOString e ltac:(lia)) as Hp.
  rewrite (lease_of_body _ _ (lookup_insert_eq _ _ _)). cbn [o_body].
  rewrite parse_lease by (apply utcTimestamp_parses; cbn [expires_at]; rewrite Hp; eauto).
  cbn [mbind option_bind expires_at holder]. by rewrite Hp.
Qed.


(** A conditional write of a lease that the condition makes legitimate. *)
Lemma put_lease t c n d P `{!Stable G t P} :
  t_start <= n -> 0 <= d -> horizon + d < 253402300800000 ->
  (forall w, P w -> started w /\ n <= clock w) ->
  (forall w, P w -> holds (store w) lock_key c -> forall h e, lease w = Some (h, e) -> h = who t \/ e <= clock w) ->
  hoare G t P (call (OPut lock_key (stringify {| holder := who t; expires_at := toISOString (n + d) |}) c))
    (put_post P (fun _ w => started w /\ held t (n + d) w)).
Proof.
  intros Hn Hd Hhor HP Hok. apply hoare_put; [apply _|apply _|apply _|].
  intros w e HPw Hh He obj. destruct (HP w HPw) as [[Hw Hs] Hnc].
  assert (Hg : grows w (write t w lock_key obj)) by (eapply (sem_grows t (OPut _ _ _)); right; eauto).
  assert (Hl : clock w < horizon -> lease (write t w lock_key obj) = Some (who t, n + d))
    by (intros ?; apply lease_write; lia).
  split.
  - split; [done|]. intros Hc. right. split; [by apply Hok|]. exists (n + d). by apply Hl.
  - split; [split; [by apply (grows_wf _ _ Hg)|done]|]. intros Hc _. by apply Hl.
Qed.

(** What an acquisition reports. *)
Definition acquired t (r : result (error V) bool) w : Prop :=
  started w /\ match r with Ok true => exists n, t_start <= n /\ held t (n + ttl t) w | _ => True end.
#[local] Instance stable_acquired t r : Stable G t (acquired t r).
Proof. unfold acquired. destruct r as [[]|]; apply _. Qed.

Lemma put_answer t c n P `{!Stable G t P} :
  t_start <= n ->
  (forall w, P w -> started w /\ n <= clock w) ->
  (forall w, P w -> holds (store w) lock_key c -> forall h e, lease w = Some (h, e) -> h = who t \/ e <= clock w) ->
  hoare G t P
    (handle (call (OPut lock_key (stringify {| holder := who t; expires_at := toISOString (n + ttl t) |}) c))
       (fun r => match r with
                 | Ok _ => mret true
                 | Err PreconditionFailedError => mret false
                 | Err err => Throw err
                 end))
    (fun r w => acquired t r w /\ (r = Ok false -> P w)).
Proof.
  intros Hn HP Hok. pose proof (ttl_ok t).
  eapply hoare_handle; [by apply put_lease; [apply _|done|lia|lia|done|done]|].
  intros [i|e].
  - apply hoare_ret; [apply _|]. intros w [Hw Hh]. split; [|done]. split; [done|]. by exists n.
  - destruct e; try (by apply hoare_throw; [apply _|]).
    + apply hoare_ret; [apply _|]. intros w Hw. split; [|done]. split; [|done]. by apply HP.
    + apply hoare_throw; [apply _|]. intros w [Hw|(_ & Hs & _)]; (split; [|done]); (split; [|done]); [|done].
      by apply HP.
Qed.

Lemma create_lease_spec t n :
  t_start <= n ->
  hoare G t (fun w => started w /\ n <= clock w)
    (tryCreate lock_key (stringify {| holder := who t; expires_at := toISOString (n + ttl t) |}))
    (fun r w => acquired t r w /\ (r = Ok false -> started w /\ n <= clock w)).
Proof.
  intros Hn. apply put_answer; [apply _|done|done|].
  intros w _ Hh h e. unfold MaintenanceLock.lease. simpl in Hh. by rewrite Hh.
Qed.

(** Replacing the lease [obj] once it is one's own, corrupt or expired. *)
Lemma replace_spec t n obj (P : world B V -> Prop) `{!Stable G t P} :
  t_start <= n ->
  (forall w, P w -> (started w /\ n <= clock w) /\ logged lock_key obj w /\
     forall r e, parse_lock (o_body obj) = Some r -> parseIsoTimestamp (expires_at r) = Some e ->
                 holder r = who t \/ e <= clock w) ->
  hoare G t P
    (handle (call (OPut lock_key (stringify {| holder := who t; expires_at := toISOString (n + ttl t) |})
                     (onlyIfEtagMatches (o_etag obj))))
       (fun r => match r with
                 | Ok _ => mret true
                 | Err PreconditionFailedError => mret false
                 | Err err => Throw err
                 end)) (acquired t).
Proof.
  intros Hn HP. eapply hoare_post; [|apply put_answer]; [by intros r w [? _]|apply _|done|intros w Hw; by destruct (HP w Hw)|].
  intros w Hw Hh h e. destruct (HP w Hw) as ([[Hwf _] _] & Hl & Hrep).
  destruct (holds_etag_body _ _ _ Hwf Hl Hh) as (o' & Ho' & Hb).
  unfold MaintenanceLock.lease. rewrite Ho'; simpl. rewrite Hb.
  destruct (parse_lock (o_body obj)) as [r|] eqn:Hr; simpl; [|done].
  destruct (parseIsoTimestamp (expires_at r)) as [e'|] eqn:He; simpl; [|done].
  intros [= <- <-]. by eapply Hrep.
Qed.

Lemma acquire_lease_spec t : hoare G t started (acquire lock_key (who t) (Some (ttl t))) (acquired t).
Proof.
  eapply hoare_bind.
  { apply (hoare_now G t started (fun n => t_start <= n)). by intros w [_ ?]. }
  2: { intros e. apply hoare_throw; [apply _|]. by intros w (n & ? & _). }
  intros n. apply hoare_exists; intros n'. apply hoare_pure; intros [= <-].
  apply hoare_pure; intros Hn. cbv zeta.
  eapply hoare_bind.
  { eapply hoare_pre; [|apply (create_lease_spec t n Hn)]. by intros w [? ?]. }
  2: { intros e. apply hoare_throw; [apply _|]. by intros w [? _]. }
  intros [|]; [by apply hoare_ret; [apply _|]; intros w [? _]|].
  eapply hoare_bind.
  { apply (hoare_get G t lock_key _ (fun x w => (started w /\ n <= clock w) /\
      forall obj, x = Some obj -> logged lock_key obj w)).
    intros w [_ H]. destruct (H eq_refl) as [[Hw ?] ?]. split; [done|]. by apply (wf_stored w Hw). }
  2: { intros e. apply hoare_throw; [apply _|]. by intros w [[[? _] _] _]. }
  intros [obj|].
  2: { eapply hoare_post; [|eapply hoare_pre; [|apply (create_lease_spec t n Hn)]]; [by intros r w [? _]|by intros w [? _]]. }
  destruct (parse_lock (o_body obj)) as [r|] eqn:Hr; cbv iota.
  - case_bool_decide as Hh.
    + apply replace_spec; [apply _|done|]. intros w [Hs Hl]. split; [done|]. split; [by apply Hl|].
      intros r' e Hr' _. rewrite Hr in Hr'. left. congruence.
    + eapply hoare_bind; [apply (hoare_now G t _ (fun _ => True)); by intros|  |].
      2: { intros e. apply hoare_throw; [apply _|]. by intros w (? & ? & _). }
      intros n1. apply hoare_exists; intros n2. apply hoare_pure; intros [= <-].
      destruct (later_than (expires_at r) n1) eqn:Hlt.
      * apply hoare_ret; [apply _|]. by intros w (_ & _ & [? _] & _).
      * apply replace_spec; [apply _|done|]. intros w (_ & Hc & Hs & Hl). split; [done|]. split; [by apply Hl|].
        intros r' e Hr' He. rewrite Hr in Hr'. injection Hr' as <-.
        unfold later_than in Hlt. rewrite He in Hlt. apply Z.ltb_ge in Hlt. right. lia.
  - apply replace_spec; [apply _|done|]. intros w [Hs Hl]. split; [done|]. split; [by apply Hl|].
    intros r' e Hr' _. by rewrite Hr in Hr'.
Qed.

Lemma release_lease_spec t aborted : hoare G t started (release lock_key (who t) aborted) (fun _ => started).
Proof.
  eapply hoare_bind.
  { apply (hoare_get G t lock_key _ (fun x w => started w /\ forall obj, x = Some obj -> logged lock_key obj w)).
    intros w [Hw ?]. split; [done|]. by apply (wf_stored w Hw). }
  2: { intros e. apply hoare_throw; [apply _|]. by intros w [? _]. }
  assert (Hret : forall x, hoare G t (fun w => started w /\ forall obj, x = Some obj -> logged lock_key obj w)
    (Ret tt) (fun _ => started)) by (intros; apply hoare_ret; [apply _|]; by intros w [? _]).
  intros [obj|]; [|apply Hret]. destruct (parse_lock (o_body obj)) as [r|] eqn:Hr; cbv iota; [|apply Hret].
  case_bool_decide as Hh; rewrite ?orb_true_r, ?orb_false_r; cbv iota; [|apply Hret].
  destruct aborted; [apply Hret|].
  eapply hoare_bind.
  { apply (hoare_now G t _ (fun n => t_start <= n)). by intros w [[_ ?] _]. }
  2: { intros e. apply hoare_throw; [apply _|]. by intros w (? & ? & _). }
  intros n. apply hoare_exists; intros n'. apply hoare_pure; intros [= <-].
  apply hoare_pure; intros Hn. pose proof (ttl_ok t).
  eapply hoare_handle.
  - replace (toISOString n) with (toISOString (n + 0)) by (f_equal; lia). apply put_lease; [apply _|done|lia|lia| |].
    + by intros w (? & ? & _).
    + intros w (_ & [Hwf _] & Hl) Hho h e.
      destruct (holds_etag_body _ _ _ Hwf (Hl _ eq_refl) Hho) as (o' & Ho' & Hb).
      rewrite (lease_of_body _ _ Ho'), Hb, Hr. cbn [mbind option_bind].
      destruct (parseIsoTimestamp (expires_at r)); simpl; [|done]. intros [= <- <-]. by left.
  - intros [i|[]]; apply hoare_ret; try apply _; intros w; try done; simpl; [by intros [? _]|by intros (? & ? & _)|].
    by intros [(? & ? & _)|(_ & ? & _)].
Qed.

(** A sweep keeps the lease for its whole term, or releases it when it is done. *)
Inductive script := Keep | GiveBack.

Definition sweep (s : script) (t : tid) : prog B V bool :=
  ok ← acquire lock_key (who t) (Some (ttl t));
  match s, ok with
  | GiveBack, true => release lock_key (who t) false ≫= fun _ => mret false
  | _, _ => mret ok
  end.

Lemma sweep_spec s t : hoare G t started (sweep s t) (acquired t).
Proof.
  eapply hoare_bind; [apply acquire_lease_spec| |].
  2: { intros e. by apply hoare_throw; [apply _|]. }
  intros [|].
  - destruct s; [by apply hoare_ret; [apply _|]|].
    eapply hoare_bind; [eapply hoare_pre; [|apply release_lease_spec]; by intros w [? _]| |].
    + intros a. apply hoare_ret; [apply _|]. by split.
    + intros e. apply hoare_throw; [apply _|]. by split.
  - destruct s; by apply hoare_ret; [apply _|].
Qed.

(** C28: the maintenance lease is exclusive.  Any number of replicas acquire, keep or
    release the lease from [t_start] on, interleaved in any way with any storage faults:
    within its term, counted from [t_start], the lease a replica acquired is the one in the
    store, two replicas that both acquired and kept it did so in different terms, and
    before a lease expires no step gives it to another holder. *)
Theorem lease_exclusive scripts w0 c :
  wf w0 -> t_start <= clock w0 ->
  rtc pool_step (Config (imap (fun t s => sweep s t) scripts) w0) c ->
  clock (wd c) < horizon ->
  (forall i, threads c !! i = Some (Ret true) -> clock (wd c) < t_start + ttl i ->
     exists e, clock (wd c) < e /\ lease (wd c) = Some (who i, e)) /\
  (forall i j, threads c !! i = Some (Ret true) -> threads c !! j = Some (Ret true) -> i <> j ->
     t_start + ttl i <= clock (wd c) \/ t_start + ttl j <= clock (wd c)) /\
  (forall c' h e, pool_step c c' -> clock (wd c') < horizon ->
     lease (wd c) = Some (h, e) -> clock (wd c) < e -> exists e', lease (wd c') = Some (h, e')).
Proof.
  intros Hw Hs Hr Hc.
  assert (Hv : verified G acquired (Config (imap (fun t s => sweep s t) scripts) w0)).
  { intros i p Hi. simpl in *. rewrite list_lookup_imap in Hi.
    destruct (scripts !! i); [|done]. injection Hi as <-. by apply sweep_spec. }
  assert (Hheld : forall i, threads c !! i = Some (Ret true) -> clock (wd c) < t_start + ttl i ->
     exists e, clock (wd c) < e /\ lease (wd c) = Some (who i, e)).
  { intros i Hi Hlt. destruct (pool_result _ _ _ _ _ _ Hv Hr Hi) as [_ (n & Hn & Hh)].
    exists (n + ttl i). split; [lia|]. apply Hh; lia. }
  split; [done|]. split.
  - intros i j Hi Hj Hne.
    destruct (Z.lt_ge_cases (clock (wd c)) (t_start + ttl i)) as [H1|]; [|by left].
    destruct (Z.lt_ge_cases (clock (wd c)) (t_start + ttl j)) as [H2|]; [|by right].
    destruct Hne. apply who_inj.
    destruct (Hheld i Hi H1) as (e1 & _ & He1), (Hheld j Hj H2) as (e2 & _ & He2). congruence.
  - intros c' h e Hst Hc' Hl He.
    destruct (pool_guarantee _ _ _ _ _ Hv Hr Hst) as [(t & [_ HG] & _)|(ms & _ & Ht)].
    + destruct (HG Hc') as [Heq|[Hok [e' Hl']]].
      * exists e. unfold MaintenanceLock.lease in *. by rewrite Heq.
      * destruct (Hok _ _ Hl) as [->|]; [by exists e'|lia].
    + exists e. by rewrite Ht.
Qed.
End Exclusion.
End Exclusion.

Module LockSample.
(** A store of lock records and of text that is none. *)
Inductive body := Text (r : LockRecord) | Garbage.
#[local] Program Instance lock_codec : Codec body LockRecord := {|
  valid := LockRecordSchema;
  stringify := Text;
  parse := fun b => match b with
                    | Text r => if utcTimestamp (expires_at r) then Some r else None
                    | Garbage => None
                    end;
|}.
Next Obligation. intros r Hr. simpl. by rewrite Hr. Qed.
Next Obligation.
  intros [r|] x; simpl; [|done]. destruct (utcTimestamp (expires_at r)) eqn:E; [|done]. by intros [= <-].
Qed.

Lemma schema (r : LockRecord) : valid r <-> LockRecordSchema r.
Proof. done. Qed.

Definition ttl (_ : tid) : Z := 600000.
Definition sweep (s : Exclusion.script) (t : tid) : prog body unit bool :=
  Exclusion.sweep maintenanceLock mem_etag ttl s t.
Definition w0 : world body unit := tick empty_world 1700000000000.
Definition w1 : world body unit := snd (run 0 (sweep Exclusion.Keep 0) w0).

Lemma first_holds :
  rtc pool_step (Config [sweep Exclusion.Keep 0; sweep Exclusion.GiveBack 1] w0) (Config [Ret true; Ret false] w1).
Proof.
  assert (Hm : mem_wf w0) by (intros t k o H; by apply not_elem_of_nil in H).
  destruct (run_reaches 0 (sweep Exclusion.Keep 0) [sweep Exclusion.Keep 0; sweep Exclusion.GiveBack 1] w0 (Ok true) w1)
    as [H1 Hm1]; [done|vm_compute; reflexivity|done|vm_compute; reflexivity|].
  destruct (run_reaches 1 (sweep Exclusion.GiveBack 1) [Ret true; sweep Exclusion.GiveBack 1] w1 (Ok false) w1)
    as [H2 _]; [done|vm_compute; reflexivity|done|vm_compute; reflexivity|].
  etrans; [exact H1|exact H2].
Qed.

Example lease_exclusive_witness :
  exists e, clock w1 < e /\ lease maintenanceLock w1 = Some (mem_etag 0, e).
Proof.
  destruct (Exclusion.lease_exclusive maintenanceLock schema mem_etag mem_etag_inj
              ttl 253000000000000 ltac:(intros t; unfold ttl; lia) 1700000000000 ltac:(lia)
              [Exclusion.Keep; Exclusion.GiveBack] w0 (Config [Ret true; Ret false] w1)) as [Hheld _].
  - apply (grows_wf empty_world); [apply grows_tick; split; vm_compute; [discriminate|reflexivity]|exact wf_empty].
  - vm_compute. discriminate.
  - exact first_holds.
  - vm_compute. reflexivity.
  - apply (Hheld 0%nat); vm_compute; reflexivity.
Defined.
End LockSample.
