(* ===== verification/Idempotency.v ===== *)
(** * At-most-once replay

    [packages/core/src/services/catalog/IdempotencyService.ts]: create-if-absent claims
    and recorded responses, keyed by a digest of the scope and the client's key. *)

From Stdlib Require Import ZArith Lia.
From stdpp Require Import relations.
From S2P Require Import Prelude UtcDate Store Cas CasTheorems.

Section Idempotency.
(** [D]: the JSON data of a response. *)
Context {B V D : Type} (null : D).
(** SHA-256 in hex, from the platform. *)
Context (sha256Hex : string -> string).

Record IdempotencyRecord := {
  ir_scope : string; ir_data : D; ir_fingerprint : option string; ir_created_at : string;
}.

Context `{!Codec B IdempotencyRecord}.

Definition newline : string := String (Ascii.ascii_of_nat 10) "".
Definition digestKey (scope k : string) : string := sha256Hex (scope +:+ newline +:+ k).
Definition idempotencyKey (digest : string) : key := "_system/idempotency/" +:+ digest +:+ ".json".
Definition object_key (scope k : string) : key := idempotencyKey (digestKey scope k).

Definition reserve (scope k : string) : prog B V bool :=
  now ← call ONow;
  handle (call (OPut (object_key scope k)
           (stringify {| ir_scope := scope; ir_data := null; ir_fingerprint := None; ir_created_at := toISOString now |})
           onlyIfNotExists)) (fun r =>
    match r with
    | Ok _ => mret true
    | Err PreconditionFailedError => mret false
    | Err err => Throw err
    end).

Definition lookup (scope k : string) : prog B V (option (D * option string)) :=
  obj ← call (OGet (object_key scope k));
  match obj with
  | None => mret None
  | Some obj =>
      match parse (o_body obj) with
      | None => mret None
      | Some r => if ir_scope r === scope then mret (Some (ir_data r, ir_fingerprint r)) else mret None
      end
  end.

(** [record]: the repair of a corrupt record is best effort. *)
Definition record (scope k : string) (data : D) (fingerprint : option string) : prog B V unit :=
  now ← call ONow;
  let body := stringify {| ir_scope := scope; ir_data := data; ir_fingerprint := fingerprint;
                           ir_created_at := toISOString now |} in
  catch (call (OPut (object_key scope k) body onlyIfNotExists) ≫= fun _ => mret tt) (fun err =>
    match err with
    | PreconditionFailedError =>
        handle (call (OGet (object_key scope k))) (fun r =>
          match r with
          | Err _ => mret tt
          | Ok None => mret tt
          | Ok (Some existing) =>
              match parse (T := IdempotencyRecord) (o_body existing) with
              | Some _ => mret tt
              | None =>
                  handle (call (OPut (object_key scope k) body (onlyIfEtagMatches (o_etag existing))))
                         (fun _ => mret tt)
              end
          end)
    | err => Throw err
    end).

(** ** One first use

    Requests of one scope and key, each served by its own replica. *)
Inductive request := Reserve | Lookup | RecordResponse (data : D) (fingerprint : option string).
Inductive answer := Reserved (first : bool) | Found (r : option (D * option string)) | Recorded.

Context (scope k : string).
Context (storable : forall r : IdempotencyRecord, utcTimestamp (ir_created_at r) = true -> valid r).

Definition serve (q : request) : prog B V answer :=
  match q with
  | Reserve => b ← reserve scope k; mret (Reserved b)
  | Lookup => r ← lookup scope k; mret (Found r)
  | RecordResponse d f => record scope k d f ≫= fun _ => mret Recorded
  end.

Local Notation okey := (object_key scope k).
Implicit Types w : world B V.

(** The only change of the key is its creation, with a record of this scope. *)
Definition G (t : tid) w w' : Prop :=
  grows w w' /\
  ((store w' !! okey = store w !! okey /\ hist okey w' = hist okey w) \/
   (store w !! okey = None /\ exists o r, store w' !! okey = Some o /\ parse (o_body o) = Some r /\
      ir_scope r = scope /\ hist okey w' = (t, o) :: hist okey w)).

#[local] Instance idempotency_protocol : Protocol G.
Proof. split; [intros t w; split; [done|by left]|by intros t w w' [? _]]. Qed.

(** The key is unused, or holds the one record ever written at it. *)
Definition one_use w : Prop :=
  (store w !! okey = None /\ hist okey w = []) \/
  (exists t o r, store w !! okey = Some o /\ hist okey w = [(t, o)] /\ parse (o_body o) = Some r /\ ir_scope r = scope).

Lemma one_use_G t w w' : G t w w' -> one_use w -> one_use w'.
Proof.
  intros [_ [[Hs Hh]|(Hn & o & r & Ho & Hp & Hsc & Hh)]] H; unfold one_use in *.
  - by rewrite Hs, Hh.
  - destruct H as [[_ Hh0]|(? & ? & ? & Hc & _)]; [|congruence]. right. rewrite Hh, Hh0. eauto 10.
Qed.

#[local] Instance stable_one_use t : Stable G t one_use.
Proof. intros w w' [(t' & _ & HG)|(ms & _ & ->)]; [by apply (one_use_G t')|done]. Qed.

Lemma others_my_record t w w' : others G t w w' -> mine t okey w' = mine t okey w.
Proof.
  unfold mine. intros [(t' & Hne & _ & [[_ ->]|(_ & o & r & _ & _ & _ & ->)])|(ms & _ & ->)]; try done.
  by rewrite filter_cons_False.
Qed.
#[local] Instance stable_mine t n : Stable G t (fun w => mine t okey w = n).
Proof. intros w w' Ho <-. by apply others_my_record. Qed.

(** The record at the key, once there, stays. *)
Definition holds_record (d : D) (f : option string) w : Prop :=
  exists o r, store w !! okey = Some o /\ parse (o_body o) = Some r /\ ir_data r = d /\ ir_fingerprint r = f.
#[local] Instance stable_holds_record t d f : Stable G t (holds_record d f).
Proof.
  intros w w' [(t' & _ & _ & HG)|(ms & _ & ->)]; [|done]. intros (o & r & Ho & Hr).
  exists o, r. split; [|done]. destruct HG as [[-> _]|[Hn _]]; [done|congruence].
Qed.

Definition safe w : Prop := wf w /\ one_use w.
#[local] Instance stable_safe t : Stable G t safe.
Proof. unfold safe. apply _. Qed.

(** Creating the record. *)
Lemma create_record_spec t n d f now :
  (0 <= now < MAX_TIME)%Z ->
  hoare G t (fun w => safe w /\ mine t okey w = n)
    (call (OPut okey (stringify {| ir_scope := scope; ir_data := d; ir_fingerprint := f; ir_created_at := toISOString now |})
             onlyIfNotExists))
    (put_post (fun w => safe w /\ mine t okey w = n) (fun _ w => safe w /\ mine t okey w = S n)).
Proof.
  intros Hnow. apply hoare_put; [apply _|apply _|apply _|]. intros w e [[Hw Hone] Hm] Hh He obj.
  assert (Hg : grows w (write t w okey obj)) by (eapply (sem_grows t (OPut _ _ _)); right; eauto).
  assert (HG : G t w (write t w okey obj)).
  { split; [done|]. right. split; [done|]. do 2 eexists. simpl. rewrite lookup_insert_eq. split; [done|].
    rewrite hist_write, bool_decide_eq_true_2 by done. simpl.
    rewrite parse_stringify; [done|]. apply storable, utcTimestamp_parses. cbn [ir_created_at].
    rewrite parse_toISOString by (unfold MAX_TIME in *; lia). eauto. }
  split; [done|]. split; [split; [by apply (grows_wf _ _ Hg)|by eapply one_use_G]|].
  unfold mine. rewrite hist_write, bool_decide_eq_true_2 by done.
  rewrite filter_cons_True by done. simpl. by rewrite <- Hm.
Qed.

Definition answered (t : tid) (n : nat) (r : result (error V) answer) w : Prop :=
  safe w /\
  match r with
  | Ok (Reserved true) => mine t okey w = S n
  | Ok (Reserved false) => mine t okey w = n
  | Ok (Found (Some (d, f))) => mine t okey w = n /\ holds_record d f w
  | Ok (Found None) => mine t okey w = n
  | _ => True
  end.
#[local] Instance stable_answered t n r : Stable G t (answered t n r).
Proof. unfold answered. destruct r as [[[]|[[]|]|]|]; apply _. Qed.

Lemma record_now_spec t n :
  hoare G t (fun w => safe w /\ mine t okey w = n) (call ONow)
    (fun r w => exists now, r = Ok now /\ (0 <= now < MAX_TIME)%Z /\ safe w /\ mine t okey w = n).
Proof.
  eapply hoare_post; [|apply (hoare_now G t _ (fun now => 0 <= now < MAX_TIME)%Z)].
  - intros r w (now & ? & ? & _ & ?). eauto.
  - intros w [[Hw _] _]. apply wf_clock. exact Hw.
Qed.

Lemma reserve_spec t n :
  hoare G t (fun w => safe w /\ mine t okey w = n) (serve Reserve) (answered t n).
Proof.
  eapply hoare_bind with (M := fun r w => answered t n (match r with Ok b => Ok (Reserved b) | Err e => Err e end) w).
  2: { intros b. by apply hoare_ret; [apply _|]. }
  2: { intros e. by apply hoare_throw; [apply _|]. }
  eapply hoare_bind; [apply record_now_spec| |].
  2: { intros e. apply hoare_throw; [apply _|]. by intros w (? & ? & _). }
  intros now. apply hoare_exists; intros ?. apply hoare_pure; intros [= <-]. apply hoare_pure; intros Hnow.
  eapply hoare_handle; [by apply create_record_spec|].
  intros [i|e].
  - apply hoare_ret; [apply _|]. by intros w [? ?].
  - destruct e; try (by apply hoare_throw; [apply _|]).
    + apply hoare_ret; [apply _|]. by intros w [? ?].
    + apply hoare_throw; [apply _|]. intros w [[? _]|(_ & ? & _)]; by split.
Qed.

Lemma lookup_spec t n :
  hoare G t (fun w => safe w /\ mine t okey w = n) (serve Lookup) (answered t n).
Proof.
  eapply hoare_bind with (M := fun r w => answered t n (match r with Ok b => Ok (Found b) | Err e => Err e end) w).
  2: { intros b. by apply hoare_ret; [apply _|]. }
  2: { intros e. by apply hoare_throw; [apply _|]. }
  eapply hoare_bind.
  { apply (hoare_get G t okey _ (fun x w => (safe w /\ mine t okey w = n) /\ forall o r, x = Some o ->
      parse (o_body o) = Some r -> holds_record (ir_data r) (ir_fingerprint r) w)).
    intros w Hw. split; [done|]. intros o r Ho Hr. exists o, r. by repeat split. }
  2: { intros e. apply hoare_throw; [apply _|]. by intros w [[? _] _]. }
  intros [obj|]; [|by apply hoare_ret; [apply _|]; intros w [[? ?] _]].
  destruct (parse (o_body obj)) as [r|] eqn:Hr; [|by apply hoare_ret; [apply _|]; intros w [[? ?] _]].
  case_bool_decide; apply hoare_ret; try apply _; intros w [[? ?] H']; [|done].
  split; [done|]. split; [done|]. by eapply H'.
Qed.

Lemma record_spec t n d f :
  hoare G t (fun w => safe w /\ mine t okey w = n) (serve (RecordResponse d f)) (answered t n).
Proof.
  eapply hoare_bind with (M := fun _ => safe).
  2: { intros b. by apply hoare_ret; [apply _|]. }
  2: { intros e. by apply hoare_throw; [apply _|]. }
  eapply hoare_bind; [apply record_now_spec| |].
  2: { intros e. apply hoare_throw; [apply _|]. by intros w (? & ? & _). }
  intros now. apply hoare_exists; intros ?. apply hoare_pure; intros [= <-]. apply hoare_pure; intros Hnow.
  cbv zeta.
  eapply hoare_catch with (M := fun _ => safe); [|intros a; by apply hoare_ret; [apply _|]|].
  - eapply hoare_bind; [by apply create_record_spec| |].
    + intros a. apply hoare_ret; [apply _|]. by intros w [? _].
    + intros e. apply hoare_throw; [apply _|]. intros w.
      destruct e; try done; [by intros [? _]|by intros [[? _]|(_ & ? & _)]].
  - intros e. destruct e; try (by apply hoare_throw; [apply _|]).
    eapply hoare_handle.
    { apply (hoare_get G t okey _ (fun x w => safe w /\ forall o, x = Some o -> is_Some (parse (T:=IdempotencyRecord) (o_body o)))).
      intros w [Hw Hone]. split; [done|]. intros o Ho.
      destruct Hone as [[Hn _]|(? & o' & r & Ho' & _ & Hr & _)]; [congruence|].
      rewrite Ho' in Ho. injection Ho as <-. eauto. }
    intros [[obj|]|e]; try (by apply hoare_ret; [apply _|]; intros w [? _]).
    destruct (parse (T:=IdempotencyRecord) (o_body obj)) as [r|] eqn:Hr.
    + apply hoare_ret; [apply _|]. by intros w [? _].
    + intros w [_ Hp]. destruct (Hp obj eq_refl) as [? He]. congruence.
Qed.

(** C29: a reservation succeeds at most once and a recorded response never changes.  Any
    number of replicas reserve, look up and record one unused key, interleaved in any way
    with any storage faults: at most one reservation reports a first use, one object at
    most is ever written at the key, and every lookup that finds a response finds the same
    one, the one still stored. *)
Theorem reserve_at_most_once requests w0 c :
  wf w0 -> store w0 !! okey = None -> hist okey w0 = [] ->
  rtc pool_step (Config (map serve requests) w0) c ->
  (forall i j, threads c !! i = Some (Ret (Reserved true)) -> threads c !! j = Some (Ret (Reserved true)) -> i = j) /\
  length (hist okey (wd c)) <= 1 /\
  (forall i j a b, threads c !! i = Some (Ret (Found (Some a))) -> threads c !! j = Some (Ret (Found (Some b))) ->
     a = b /\ holds_record a.1 a.2 (wd c)).
Proof.
  intros Hw Hs Hh Hr.
  assert (Hv : verified G (fun t => answered t 0) (Config (map serve requests) w0)).
  { intros i p Hi. simpl in *. rewrite list_lookup_fmap in Hi.
    destruct (requests !! i) as [q|]; [|done]. injection Hi as <-.
    assert (H0 : safe w0 /\ mine i okey w0 = 0) by (split; [split; [done|by left]|unfold mine; by rewrite Hh]).
    destruct q; [by apply reserve_spec|by apply lookup_spec|by apply record_spec]. }
  assert (Hone : one_use (wd c)).
  { eapply (pool_invariant G (fun t => answered t 0) one_use); [apply one_use_G|done|exact Hv|by left|exact Hr]. }
  assert (Hlen : length (hist okey (wd c)) <= 1)
    by (destruct Hone as [[_ ->]|(? & ? & ? & _ & -> & _)]; simpl; lia).
  split; [|split; [done|]].
  - intros i j Hi Hj. destruct (pool_result _ _ _ _ _ _ Hv Hr Hi) as [_ Mi].
    destruct (pool_result _ _ _ _ _ _ Hv Hr Hj) as [_ Mj]. unfold mine in *.
    destruct (hist okey (wd c)) as [|[t o] [|]]; [done| |simpl in Hlen; lia].
    rewrite filter_cons in Mi, Mj. simpl in *. repeat case_decide; try discriminate; congruence.
  - intros i j [d1 f1] [d2 f2] Hi Hj.
    destruct (pool_result _ _ _ _ _ _ Hv Hr Hi) as (_ & _ & H1).
    destruct (pool_result _ _ _ _ _ _ Hv Hr Hj) as (_ & _ & o2 & r2 & Ho2 & Hr2 & <- & <-).
    split; [|done]. destruct H1 as (o1 & r1 & Ho1 & Hr1 & <- & <-). congruence.
Qed.
End Idempotency.

Module IdempotencySample.
Definition body := IdempotencyRecord (D := string).
#[local] Program Instance codec : Codec body (IdempotencyRecord (D := string)) := {|
  valid := fun _ => True; stringify := id; parse := Some;
|}.
Solve All Obligations with done.

Lemma storable (r : IdempotencyRecord (D := string)) : utcTimestamp (ir_created_at r) = true -> valid r.
Proof. done. Qed.

Definition hash (s : string) : string := s.
Definition serve (q : request) : prog body unit answer := serve "null" hash "user/projects" "k1" q.
Definition w1 : world body unit := snd (run 0 (serve Reserve) empty_world).

Lemma one_first :
  rtc pool_step (Config (map serve [Reserve; Reserve]) empty_world) (Config [Ret (Reserved true); Ret (Reserved false)] w1).
Proof.
  assert (Hm : mem_wf (@empty_world body unit)) by (intros t k o H; by apply not_elem_of_nil in H).
  destruct (run_reaches 0 (serve Reserve) (map serve [Reserve; Reserve]) empty_world (Ok (Reserved true)) w1)
    as [H1 Hm1]; [done|vm_compute; reflexivity|done|vm_compute; reflexivity|].
  destruct (run_reaches 1 (serve Reserve) [Ret (Reserved true); serve Reserve] w1 (Ok (Reserved false)) w1)
    as [H2 _]; [done|vm_compute; reflexivity|done|vm_compute; reflexivity|].
  etrans; [exact H1|exact H2].
Qed.

Example reserve_at_most_once_witness :
  length (hist (object_key hash "user/projects" "k1") w1) <= 1.
Proof.
  apply (reserve_at_most_once "null" hash "user/projects" "k1" storable [Reserve; Reserve] empty_world
           (Config [Ret (Reserved true); Ret (Reserved false)] w1)).
  - exact wf_empty.
  - reflexivity.
  - reflexivity.
  - exact one_first.
Defined.
End IdempotencySample.
