(* ===== verification/Maintenance.v ===== *)
(** * Retention

    [packages/core/src/services/catalog/MaintenanceService.ts] ([expireSnapshots]) and
    [IdempotencyService.prune]: the sweeps that delete old snapshots and old idempotency
    records.  Gauges are not modelled. *)

From Stdlib Require Import ZArith Lia Sorting.Sorted.
From S2P Require Import Prelude Constants Schema UtcDate Store Cas Storage CatalogData Catalog.

(** [Millis.days] *)
Definition days (n : Z) : Z := n * 24 * 60 * 60 * 1000.
Definition DEFAULT_SNAPSHOT_RETENTION_MS : Z := days 90.
Definition DEFAULT_KEEP_LAST : nat := 20.
Definition IDEMPOTENCY_RETENTION_MS : Z := days 1.
Definition idempotencyPrefix : string := "_system/idempotency/".

(** Newest first. *)
Definition byRecency (objects : list info) : list info :=
  js_sort (fun a b => i_uploaded b <=? i_uploaded a)%Z objects.

(** The keys never deleted, whatever their age. *)
Definition protectedKeys (catalog : Catalog) : list key :=
  snapshot_key (current_snapshot_id catalog) ::
  match previous_snapshot_id catalog with
  | Some id => if nonempty id then [snapshot_key id] else []
  | None => []
  end.

Definition toDelete (catalog : Catalog) (objects : list info) (now retentionMs : Z) (keepLast : nat) : list key :=
  map i_key (List.filter (fun o => negb (includes (i_key o) (protectedKeys catalog)) &&
                                   (retentionMs <? now - i_uploaded o)%Z)
               (drop keepLast (byRecency objects))).

Section Maintenance.
Context {B V : Type} {CC : Codec B Catalog}.

(** [fuel] bounds the pages of the listing: one per stored key is enough. *)
Definition expireSnapshots (fuel : nat) (retention : option Z) (keep : option nat) : prog B V nat :=
  let retentionMs := retention ?? DEFAULT_SNAPSHOT_RETENTION_MS in
  let keepLast := keep ?? DEFAULT_KEEP_LAST in
  catalogObj ← call (OGet catalog_key);
  match catalogObj with
  | None => mret 0%nat
  | Some catalogObj =>
      catalog ← readStored catalogObj catalog_key;
      objects ← listAllObjects fuel snapshotsPrefix;
      now ← call ONow;
      let doomed := toDelete catalog objects now retentionMs keepLast in
      match doomed with
      | [] => mret 0%nat
      | _ => call (ODelete doomed) ≫= fun _ => mret (length doomed)
      end
  end.

(** [IdempotencyService.prune] *)
Definition prune (fuel : nat) (retention : option Z) : prog B V nat :=
  now ← call ONow;
  let cutoff := (now - (retention ?? IDEMPOTENCY_RETENTION_MS))%Z in
  objects ← listAllObjects fuel idempotencyPrefix;
  let stale := map i_key (List.filter (fun o => i_uploaded o <? cutoff)%Z objects) in
  match stale with
  | [] => mret 0%nat
  | _ => call (ODelete stale) ≫= fun _ => mret (length stale)
  end.
End Maintenance.

(** ** What retention keeps *)
Section Retention.
Context {B V : Type} {CC : Codec B Catalog}.
Implicit Types w : world B V.

Lemma byRecency_sorted l : StronglySorted (fun a b => (i_uploaded b <= i_uploaded a)%Z) (byRecency l).
Proof.
  pose proof (js_sort_sorted (fun a b => i_uploaded b <=? i_uploaded a)%Z
    ltac:(intros x y; rewrite !Z.leb_le; lia) ltac:(intros x y z; rewrite !Z.leb_le; lia) l) as H.
  unfold sorted_by in H. unfold byRecency. induction H as [|a k Hs IH Hf]; constructor; [done|].
  eapply List.Forall_impl; [|exact Hf]. intros b Hb. by apply Z.leb_le.
Qed.

Lemma take_newer n l a b :
  a ∈ take n (byRecency l) -> b ∈ drop n (byRecency l) -> (i_uploaded b <= i_uploaded a)%Z.
Proof.
  pose proof (byRecency_sorted l) as Hs. rewrite <- (take_drop n (byRecency l)) in Hs. intros Ha Hb.
  revert Ha. generalize dependent (take n (byRecency l)). intros k Hs Ha.
  induction k as [|x k IH]; [by apply not_elem_of_nil in Ha|]. simpl in Hs.
  apply StronglySorted_inv in Hs as [Hs Hf]. apply elem_of_cons in Ha as [->|Ha]; [|by apply IH].
  rewrite List.Forall_forall in Hf. apply Hf. apply in_or_app. right. by apply list_elem_of_In.
Qed.

(** What a sweep of the keys [ks] leaves of the store. *)
Lemma run_delete t ks w (n : nat) :
  run t (match ks with [] => mret n | _ => call (ODelete ks) ≫= fun _ => mret (length ks) end) w =
  (Ok (match ks with [] => n | _ => length ks end), match ks with [] => w | _ => remove w ks end).
Proof. by destruct ks. Qed.

Lemma store_swept w ks k :
  store (match ks with [] => w | _ => remove w ks end) !! k = if decide (k ∈ ks) then None else store w !! k.
Proof.
  destruct ks as [|k0 ks]; [|apply store_remove]. case_decide as H; [by apply not_elem_of_nil in H|done].
Qed.

(** The newest [keepLast] snapshots stay. *)
Lemma newest_kept catalog objects now retentionMs keepLast o :
  NoDup (map i_key objects) -> o ∈ take keepLast (byRecency objects) ->
  i_key o ∉ toDelete catalog objects now retentionMs keepLast.
Proof.
  intros Hnd Ho Hin. unfold toDelete in Hin. apply list_elem_of_In, in_map_iff in Hin as (o' & Hk & Ho').
  apply list_elem_of_In, List_filter_elem in Ho' as [Ho' _].
  assert (Hnd' : NoDup (map i_key (byRecency objects))) by (unfold byRecency; by rewrite js_sort_perm).
  rewrite <- (take_drop keepLast (byRecency objects)), map_app in Hnd'. apply NoDup_app in Hnd' as (_ & Hd & _).
  apply (Hd (i_key o)); [by apply list_elem_of_In, in_map, list_elem_of_In|].
  rewrite <- Hk. by apply list_elem_of_In, in_map, list_elem_of_In.
Qed.

Lemma doomed_spec catalog objects now retentionMs keepLast k :
  k ∈ toDelete catalog objects now retentionMs keepLast ->
  exists o, o ∈ objects /\ i_key o = k /\ k ∉ protectedKeys catalog /\ (retentionMs < now - i_uploaded o)%Z /\
    o ∈ drop keepLast (byRecency objects).
Proof.
  intros Hin. unfold toDelete in Hin. apply list_elem_of_In, in_map_iff in Hin as (o & <- & Ho).
  apply list_elem_of_In, List_filter_elem in Ho as [Ho Hp]. apply andb_true_iff in Hp as [Hp Ha].
  apply negb_true_iff, includes_false in Hp. apply Z.ltb_lt in Ha. exists o. split; [|done].
  apply (elem_of_js_sort (fun a b => i_uploaded b <=? i_uploaded a)%Z). fold (byRecency objects).
  rewrite <- (take_drop keepLast (byRecency objects)). apply elem_of_app. by right.
Qed.

Lemma elem_of_drop_length {A} (x : A) n l : x ∈ drop n l -> n < length l.
Proof.
  intros Hx. apply Nat.nle_gt. intros Hle. rewrite drop_ge in Hx by done. by apply not_elem_of_nil in Hx.
Qed.

Lemma taken_elem n objects i : i ∈ take n (byRecency objects) -> i ∈ objects.
Proof.
  intros Hi. apply (elem_of_js_sort (fun a b => i_uploaded b <=? i_uploaded a)%Z). fold (byRecency objects).
  rewrite <- (take_drop n (byRecency objects)). apply elem_of_app. by left.
Qed.

Lemma kept_NoDup n objects : NoDup (map i_key objects) -> NoDup (map i_key (take n (byRecency objects))).
Proof.
  intros Hnd. assert (Hnd' : NoDup (map i_key (byRecency objects))) by (unfold byRecency; by rewrite js_sort_perm).
  rewrite <- (take_drop n (byRecency objects)), map_app in Hnd'. by apply NoDup_app in Hnd' as (? & _ & _).
Qed.

Lemma doomed_NoDup catalog objects now retentionMs keepLast :
  NoDup (map i_key objects) -> NoDup (toDelete catalog objects now retentionMs keepLast).
Proof.
  intros Hnd. assert (Hnd' : NoDup (map i_key (byRecency objects))) by (unfold byRecency; by rewrite js_sort_perm).
  rewrite <- (take_drop keepLast (byRecency objects)), map_app in Hnd'. apply NoDup_app in Hnd' as (_ & _ & Hd).
  unfold toDelete. revert Hd. generalize (drop keepLast (byRecency objects)). intros l.
  induction l as [|x l IH]; simpl; [done|]. intros [Hx Hl]%NoDup_cons. destruct (_ && _); [|by apply IH].
  simpl. apply NoDup_cons. split; [|by apply IH]. intros Hin. apply Hx.
  apply list_elem_of_In, in_map_iff in Hin as (y & <- & Hy). apply filter_In in Hy as [Hy _].
  by apply list_elem_of_In, in_map.
Qed.

(** C30: retention never costs the catalog what it needs.  A sweep of a quiet store
    deletes only snapshots, each older than the retention window and not the one the
    pointer names nor the one before it, and for every snapshot it deletes at least the
    configured number of snapshots that are no older remain; nothing else changes, and
    the reported number is the number deleted. *)
Theorem expire_keeps_recoverable t w fuel retention keep o catalog :
  size (store w) < fuel -> store w !! catalog_key = Some o -> parse (o_body o) = Some catalog ->
  exists n w', run t (expireSnapshots fuel retention keep) w = (Ok n, w') /\
    (exists ks, NoDup ks /\ length ks = n /\ forall k, k ∈ ks <-> is_Some (store w !! k) /\ store w' !! k = None) /\
    forall k, store w' !! k = store w !! k \/
      exists s, store w !! k = Some s /\ store w' !! k = None /\
        is_Some (startsWith snapshotsPrefix k) /\ k ∉ protectedKeys catalog /\
        (retention ?? DEFAULT_SNAPSHOT_RETENTION_MS < clock w - o_uploaded s)%Z /\
        exists kept, NoDup kept /\ length kept = keep ?? DEFAULT_KEEP_LAST /\
          forall k', k' ∈ kept -> exists s', store w' !! k' = Some s' /\ is_Some (startsWith snapshotsPrefix k') /\
                                          (o_uploaded s <= o_uploaded s')%Z.
Proof.
  intros Hf Ho Hc.
  destruct (run_listAllObjects t w snapshotsPrefix fuel Hf) as (objects & Hrun & Hkeys & Hinfo).
  set (keepLast := keep ?? DEFAULT_KEEP_LAST). set (retentionMs := retention ?? DEFAULT_SNAPSHOT_RETENTION_MS).
  set (ks := toDelete catalog objects (clock w) retentionMs keepLast).
  assert (Hnd : NoDup (map i_key objects)) by (rewrite Hkeys; apply NoDup_increasing, listed_increasing).
  assert (Hks : forall k, k ∈ ks -> exists s, store w !! k = Some s /\ is_Some (startsWith snapshotsPrefix k) /\
    k ∉ protectedKeys catalog /\ (retentionMs < clock w - o_uploaded s)%Z /\
    exists i, i_uploaded i = o_uploaded s /\ i ∈ drop keepLast (byRecency objects)).
  { intros k (i & Hi & <- & Hp & Ha & Hd)%doomed_spec. destruct (Hinfo i Hi) as (s & Hs & Heq).
    exists s. assert (Hu : i_uploaded i = o_uploaded s) by (by rewrite Heq). rewrite Hu in Ha.
    split; [done|]. split; [|split; [done|split; [done|by exists i]]].
    apply (elem_of_listed (store w)). rewrite <- Hkeys. by apply list_elem_of_In, in_map, list_elem_of_In. }
  exists (length ks), (match ks with [] => w | _ => remove w ks end). split; [|split].
  - unfold expireSnapshots, readStored, mbind, prog_bind. rewrite run_bind, run_call. cbn [exec]. rewrite Ho, run_bind, Hc.
    cbn [run]. rewrite run_bind, Hrun, run_bind, run_call. cbn [exec]. fold retentionMs keepLast ks.
    rewrite run_delete. by destruct ks.
  - exists ks. split; [by apply doomed_NoDup|]. split; [done|]. intros k. rewrite store_swept. case_decide as Hk.
    + destruct (Hks k Hk) as (s & -> & _). split; [intros _; eauto|done].
    + split; [done|]. intros [[s Hs] Hn]. congruence.
  - intros k. rewrite store_swept. case_decide as Hk; [right|by left].
    destruct (Hks k Hk) as (s & Hs & Hpre & Hprot & Hage & i & Hu & Hd). exists s. repeat (split; [done|]).
    exists (map i_key (take keepLast (byRecency objects))). split; [by apply kept_NoDup|]. split.
    { rewrite length_map, length_take. pose proof (elem_of_drop_length _ _ _ Hd). lia. }
    intros k' Hk'. apply list_elem_of_In, in_map_iff in Hk' as (i' & <- & Hi'). apply list_elem_of_In in Hi'.
    assert (Hobj : i' ∈ objects) by (by apply taken_elem in Hi').
    destruct (Hinfo i' Hobj) as (s' & Hs' & Heq'). exists s'. rewrite store_swept, decide_False by (by apply newest_kept).
    split; [done|]. split.
    + apply (elem_of_listed (store w)). rewrite <- Hkeys. by apply list_elem_of_In, in_map, list_elem_of_In.
    + rewrite <- Hu. assert (i_uploaded i' = o_uploaded s') as <- by (by rewrite Heq'). by eapply take_newer.
Qed.
End Retention.

(** ** A sample sweep *)
Module MaintenanceSample.
Definition sample_catalog : Catalog := point_to "snap-c" "2024-01-01T00:00:00.000Z" (Some "snap-b").
#[export] Instance catalog_or_text : Codec (option Catalog) Catalog.
Proof. by refine {| valid _ := True; stringify := Some; parse b := b |}. Defined.

Definition stored_at (k : key) (b : option Catalog) (u : Z) (w : world (option Catalog) unit) :=
  write 0 w k {| o_body := b; o_etag := "e"; o_uploaded := u |}.
Definition w : world (option Catalog) unit :=
  stored_at (snapshot_key "snap-a") None 10 (stored_at (snapshot_key "snap-b") None 20
    (stored_at (snapshot_key "snap-c") None 30 (stored_at catalog_key (Some sample_catalog) 30 (tick empty_world 1000)))).

Example expire_keeps_recoverable_witness :
  exists n w', run 0 (expireSnapshots 5 (Some 100%Z) (Some 1)) w = (Ok n, w') /\
    n = 1 /\ store w' !! snapshot_key "snap-a" = None /\ is_Some (store w' !! snapshot_key "snap-b").
Proof.
  destruct (expire_keeps_recoverable 0 w 5 (Some 100%Z) (Some 1)
    {| o_body := Some sample_catalog; o_etag := "e"; o_uploaded := 30 |} sample_catalog) as (n & w' & Hrun & _ & _).
  - vm_compute. lia.
  - vm_compute. reflexivity.
  - reflexivity.
  - exists n, w'. split; [exact Hrun|]. vm_compute in Hrun. injection Hrun as <- <-.
    split; [reflexivity|]. split; [vm_compute; reflexivity|]. vm_compute. eauto.
Defined.
End MaintenanceSample.
