(* ===== verification/Listing.v ===== *)
(** * Listings among other replicas

    A paginated listing ([services/catalog/storage.ts]) is not a snapshot: the store
    changes between its pages.  What a listing still gives: every entry was stored with
    its tag, and an object that stays in the store from before the listing on is in it. *)

From Stdlib Require Import ZArith Lia.
From stdpp Require Import sorting.
From S2P Require Import Prelude Store Cas Storage CasTheorems CasEffects.

Definition after_cursor (cursor : option string) (k : key) : Prop :=
  match cursor with Some c => String.ltb c k = true | None => True end.

Lemma truthy_idem o c : truthy o = Some c -> truthy (Some c) = Some c.
Proof. destruct o as [[]|]; cbn; intros; by simplify_eq. Qed.

Section Listing.
Context {B V : Type} (G : tid -> world B V -> world B V -> Prop) `{!Protocol G}.
Implicit Types w : world B V.
Context (t : tid) (prefix : string) (P : world B V -> Prop) `{!Stable G t P} (P_wf : forall w, P w -> wf w).
(** The keys that should be listed, and what is known of one that was not in the store. *)
Context (wanted : key -> Prop) (D : key -> world B V -> Prop) (D_kept : forall k, Kept G (D k)).
Context (absent : forall w k, P w -> wanted k -> store w !! k = None -> D k w).

(** An entry of a listing. *)
Definition entry (i : info) w : Prop :=
  is_Some (startsWith prefix (i_key i)) /\ exists o, logged (i_key i) o w /\ i_etag i = o_etag o.
#[export] Instance persistent_entry i : Persistent (entry i).
Proof. unfold entry. apply _. Qed.

Definition covered (ks : list key) w : Prop := forall k, wanted k -> is_Some (startsWith prefix k) -> k ∈ ks \/ D k w.

Definition all_entries (l : list info) w : Prop := forall i, i ∈ l -> entry i w.
#[export] Instance persistent_all_entries l : Persistent (all_entries l).
Proof. unfold all_entries. apply _. Qed.

(** One page: the wanted keys up to its cursor. *)
Definition page_ok (cursor : option string) (page : BucketListResult) w : Prop :=
  all_entries (lr_objects page) w /\
  (forall k, wanted k -> is_Some (startsWith prefix k) -> after_cursor cursor k ->
     k ∈ map i_key (lr_objects page) \/ D k w \/
     exists c, truthy (if lr_truncated page then lr_cursor page else None) = Some c /\ after_cursor (Some c) k) /\
  forall c, truthy (if lr_truncated page then lr_cursor page else None) = Some c -> truthy (Some c) = Some c.

#[local] Instance kept_page_ok cursor page : Kept G (page_ok cursor page).
Proof. unfold page_ok. apply _. Qed.

Lemma after_key_elem cursor ks k : k ∈ after_key cursor ks <-> k ∈ ks /\ after_cursor cursor k.
Proof. unfold after_key. rewrite List_filter_elem. destruct cursor as [c|]; cbn; tauto. Qed.

Lemma page_spec w cursor page :
  P w -> truthy cursor = cursor -> bucket_list (V := V) (store w) (page_options prefix cursor) = Ok page ->
  page_ok cursor page w.
Proof.
  intros HP Hc Hp.
  destruct (bucket_list_page (V := V) (store w) prefix cursor Hc) as (page' & Hp' & Hk & Ht & Hcur & Hi).
  rewrite Hp in Hp'. injection Hp' as <-. set (rem := after_key cursor (listed (store w) prefix)) in *.
  assert (Hinc : increasing rem) by apply increasing_after, listed_increasing. unfold page_ok. rewrite Ht, Hcur.
  split; [|split].
  - intros i Hin. destruct (Hi i Hin) as (o & Ho & ->). cbn. split.
    + assert (H : i_key i ∈ map i_key (lr_objects page)) by (apply list_elem_of_fmap; eauto).
      rewrite Hk in H. assert (Hr : i_key i ∈ rem) by (rewrite <- (take_drop 1000 rem); apply elem_of_app; by left).
      apply after_key_elem in Hr as [Hr _]. by apply elem_of_listed in Hr as [_ ?].
    + exists o. split; [|done]. by apply (wf_stored w (P_wf w HP)).
  - intros k Hwk Hpre Hak. destruct (store w !! k) as [o|] eqn:Ho; [|right; left; by apply absent].
    assert (Hr : k ∈ rem) by (apply after_key_elem; split; [apply elem_of_listed; eauto|done]).
    rewrite <- (take_drop 1000 rem) in Hr. apply elem_of_app in Hr as [Hr|Hr]; [left; by rewrite Hk|].
    right. right. destruct (Nat.ltb_spec 1000 (length rem)) as [Hlt|Hge].
    2: { rewrite drop_ge in Hr by done. by apply not_elem_of_nil in Hr. }
    destruct (last (take 1000 rem)) as [x|] eqn:Hlast.
    2: { apply last_None in Hlast. apply (f_equal length) in Hlast. rewrite length_take in Hlast. cbn [length] in Hlast. lia. }
    destruct (split_at_last _ _ _ Hlast) as [l Hl]. exists x. split.
    + assert (Hx : x <> ""); [|by destruct x].
      apply (cursor_nonempty (take 1000 rem)); [|rewrite length_take; lia|done].
      rewrite <- (take_drop 1000 rem) in Hinc. unfold increasing in *. by apply StronglySorted_app_1_l in Hinc.
    + cbn. rewrite Hl in Hinc. unfold increasing in Hinc. apply StronglySorted_app_1_r in Hinc.
      apply StronglySorted_inv in Hinc as [_ Hf]. rewrite Forall_forall in Hf. by apply Hf.
  - intros c. apply truthy_idem.
Qed.

Lemma hoare_page cursor : truthy cursor = cursor ->
  hoare G t P (call (OList (page_options prefix cursor)))
    (fun r w => P w /\ match r with Ok page => page_ok cursor page w | Err _ => True end).
Proof.
  intros Hc. apply hoare_call; [done|intros []; apply _|]. intros w r w' HP Hs.
  assert (w' = w) as -> by (destruct Hs as [[-> _]|(_ & [->|[[r' [-> _]]|[]]] & _)]; done).
  split; [apply protocol_idle|]. split; [done|].
  destruct Hs as [[_ ->]|(_ & _ & msg & ->)]; [|done].
  destruct (bucket_list _ _) as [page|e] eqn:E; [|done]. by apply page_spec.
Qed.

Definition pages_ok (cursor : option string) (pages : list BucketListResult) w : Prop :=
  all_entries (concat (map lr_objects pages)) w /\
  forall k, wanted k -> is_Some (startsWith prefix k) -> after_cursor cursor k ->
    k ∈ map i_key (concat (map lr_objects pages)) \/ D k w.
#[local] Instance kept_pages_ok cursor pages : Kept G (pages_ok cursor pages).
Proof. unfold pages_ok. apply _. Qed.

Lemma iterate_pages_spec fuel cursor : truthy cursor = cursor ->
  hoare G t P (iterateBucketPages fuel (page_options prefix None) cursor)
    (fun r w => P w /\ match r with Ok pages => pages_ok cursor pages w | Err _ => True end).
Proof.
  revert cursor. induction fuel as [|fuel IH]; intros cursor Hc; [by apply hoare_throw|].
  cbn [iterateBucketPages]. eapply hoare_bind; [by apply (hoare_page cursor)| |].
  2: { intros e. apply hoare_throw; [apply _|]. by intros w [? _]. }
  intros page. destruct (truthy (if lr_truncated page then lr_cursor page else None)) as [c|] eqn:Ec.
  - intros w [HP Hpage]. assert (Htr : truthy (Some c) = Some c) by (by apply Hpage). revert w HP Hpage.
    cut (hoare G t (fun w => P w /\ page_ok cursor page w)
      (iterateBucketPages fuel (page_options prefix None) (Some c) ≫= fun rest => mret (page :: rest))
      (fun r w => P w /\ match r with Ok pages => pages_ok cursor pages w | Err _ => True end)).
    { intros H w HP Hpage. by apply H. }
    eapply hoare_bind with (M := fun r w => (P w /\ match r with Ok pages => pages_ok (Some c) pages w | Err _ => True end) /\ page_ok cursor page w).
    + apply hoare_keep; [apply _|]. by apply IH.
    + intros rest. apply hoare_ret; [apply _|]. intros w [[HP [Hr1 Hr2]] (Hp1 & Hp2 & _)]. split; [done|]. split.
      * intros i. cbn. rewrite elem_of_app. intros [?|?]; [by apply Hp1|by apply Hr1].
      * intros k Hwk Hpre Hak. cbn. rewrite map_app, elem_of_app.
        destruct (Hp2 k Hwk Hpre Hak) as [?|[?|(c' & Hc' & Hac)]]; [auto|auto|].
        rewrite Ec in Hc'. injection Hc' as <-. destruct (Hr2 k Hwk Hpre Hac); auto.
    + intros e. apply hoare_throw; [apply _|]. by intros w [[? _] _].
  - apply hoare_ret; [apply _|]. intros w [HP (Hp1 & Hp2 & _)]. split; [done|]. split.
    + intros i. cbn. rewrite app_nil_r. apply Hp1.
    + intros k Hwk Hpre Hak. cbn. rewrite app_nil_r.
      destruct (Hp2 k Hwk Hpre Hak) as [?|[?|(c' & Hc' & Hac)]]; [auto|auto|]. by rewrite Ec in Hc'.
Qed.

Lemma hoare_listAllObjects fuel :
  hoare G t P (listAllObjects fuel prefix)
    (fun r w => P w /\ match r with Ok l => all_entries l w /\ covered (map i_key l) w | Err _ => True end).
Proof.
  unfold listAllObjects. eapply hoare_bind; [by apply (iterate_pages_spec fuel None)| |].
  - intros pages. apply hoare_ret; [apply _|]. intros w [HP [H1 H2]]. split; [done|]. split; [done|].
    intros k Hwk Hpre. by apply H2.
  - intros e. apply hoare_throw; [apply _|]. by intros w [? _].
Qed.
End Listing.

(** A listing whose completeness does not matter. *)
Lemma hoare_list_entries {B V} (G : tid -> world B V -> world B V -> Prop) `{!Protocol G} t prefix P fuel `{!Stable G t P} :
  (forall w, P w -> wf w) ->
  hoare G t P (listAllObjects fuel prefix)
    (fun r w => P w /\ match r with Ok l => all_entries prefix l w | Err _ => True end).
Proof.
  intros Hwf. eapply hoare_post; [|apply (hoare_listAllObjects G t prefix P Hwf (fun _ => False) (fun _ _ => False) _)].
  - intros [l|e] w [? H]; split; try done. by destruct H.
  - done.
Qed.

(** ** Prefixes *)

(** What a delimited listing groups keys by. *)
Definition delimited (prefix d p : string) : Prop :=
  exists rest g, upto_delimiter d rest = Some g /\ p = prefix +:+ g.

Lemma list_loop_prefixes prefix d after limit ks st :
  (forall p, p ∈ ls_prefixes st -> delimited prefix d p) ->
  forall p, p ∈ ls_prefixes (list_loop prefix (Some d) after limit ks st) -> delimited prefix d p.
Proof.
  revert st. induction ks as [|k ks IH]; intros st Hst; [done|]. cbn [list_loop].
  destruct (match after with Some a => _ | None => _ end); [by apply IH|].
  destruct (startsWith prefix k) as [rest|]; cbn [mbind option_bind].
  2: { case_match; [done|by apply IH]. }
  destruct (upto_delimiter d rest) as [g|] eqn:Eg.
  2: { case_match; [done|by apply IH]. }
  case_match; [by apply IH|]. case_match; [done|]. apply IH. cbn. intros p. rewrite elem_of_app, list_elem_of_singleton.
  intros [Hp| ->]; [auto|]. by exists rest, g.
Qed.

Lemma bucket_list_prefixes {B V} (s : gmap key (object B)) prefix d c page :
  bucket_list (V := V) s {| l_prefix := Some prefix; l_delimiter := Some d; l_cursor := c; l_limit := None; l_startAfter := None |} = Ok page ->
  truthy (Some d) = Some d -> forall p, p ∈ lr_delimitedPrefixes page -> delimited prefix d p.
Proof.
  intros H Hd p. destruct d as [|a d]; [done|]. injection H as H. subst page. cbn [lr_delimitedPrefixes].
  rewrite elem_of_js_sort. apply list_loop_prefixes. cbn. intros q Hq. by apply not_elem_of_nil in Hq.
Qed.

Section Prefixes.
Context {B V : Type} (G : tid -> world B V -> world B V -> Prop) `{!Protocol G}.

Lemma hoare_listAllPrefixes t P fuel prefix d `{!Stable G t P} : truthy (Some d) = Some d ->
  hoare G t P (listAllPrefixes fuel prefix d)
    (fun r w => P w /\ match r with
                       | Ok l => sorted_by String.leb l /\ forall p, p ∈ l -> delimited prefix d p
                       | Err _ => True
                       end).
Proof.
  intros Hd. unfold listAllPrefixes.
  eapply hoare_bind with (M := fun r w => P w /\ match r with
    | Ok pages => forall p, p ∈ concat (map lr_delimitedPrefixes pages) -> delimited prefix d p | Err _ => True end).
  2: { intros pages. apply hoare_ret; [apply _|]. intros w [Hw H]. split; [done|].
       split; [apply js_sort_sorted; [apply String.leb_total|apply string_leb_trans]|].
       intros p. rewrite elem_of_js_sort, elem_of_js_set. apply H. }
  2: { intros e. apply hoare_throw; [apply _|]. by intros w [? _]. }
  remember {| l_prefix := Some prefix; l_delimiter := Some d; l_cursor := None; l_limit := None; l_startAfter := None |} as options eqn:Eo.
  generalize (@None string) as cursor. induction fuel as [|fuel IH]; intros cursor; [by apply hoare_throw|].
  cbn [iterateBucketPages].
  eapply hoare_bind with (M := fun r w => P w /\ match r with
    | Ok page => forall p, p ∈ lr_delimitedPrefixes page -> delimited prefix d p | Err _ => True end).
  { apply hoare_call; [done|intros []; apply _|]. intros w r w' HP Hs.
    assert (w' = w) as -> by (destruct Hs as [[-> _]|(_ & [->|[[r' [-> _]]|[]]] & _)]; done).
    split; [apply protocol_idle|]. split; [done|]. destruct Hs as [[_ ->]|(_ & _ & msg & ->)]; [|done].
    destruct (bucket_list _ _) as [page|e] eqn:E; [|done]. subst options. exact (bucket_list_prefixes _ _ _ _ _ E Hd). }
  2: { intros e. apply hoare_throw; [apply _|]. by intros w [? _]. }
  intros page. destruct (truthy (if lr_truncated page then lr_cursor page else None)) as [c|].
  - apply hoare_pre with (P := fun w => (forall p, p ∈ lr_delimitedPrefixes page -> delimited prefix d p) /\ P w); [by intros w [? ?]|].
    apply hoare_pure. intros Hp. eapply hoare_bind; [apply (IH (Some c))| |].
    + intros pages. apply hoare_ret; [apply _|]. intros w [Hw H]. split; [done|]. intros p. cbn. rewrite elem_of_app.
      intros [?|?]; auto.
    + intros e. apply hoare_throw; [apply _|]. by intros w [? _].
  - apply hoare_ret; [apply _|]. intros w [Hw H]. split; [done|]. intros p. cbn. rewrite app_nil_r. apply H.
Qed.

Lemma hoare_listAllKeys t P fuel prefix `{!Stable G t P} : (forall w, P w -> wf w) ->
  hoare G t P (listAllKeys fuel prefix)
    (fun r w => P w /\ match r with Ok l => forall k, k ∈ l -> is_Some (startsWith prefix k) | Err _ => True end).
Proof.
  intros Hwf. unfold listAllKeys. eapply hoare_bind.
  - by apply (iterate_pages_spec G t prefix P Hwf (fun _ => False) (fun _ _ => False) _ ltac:(done) fuel None).
  - intros pages. apply hoare_ret; [apply _|]. intros w [Hw [He _]]. split; [done|]. intros k Hk.
    assert (Hin : k ∈ map i_key (concat (map lr_objects pages))) by (by rewrite concat_map, map_map).
    apply list_elem_of_fmap in Hin as (i & -> & Hi). by apply (He i Hi).
  - intros e. apply hoare_throw; [apply _|]. by intros w [? _].
Qed.
End Prefixes.
