(* ===== verification/SessionData.v ===== *)
(** * Session records

    The schemas of [packages/core/src/schema.ts] that the session service stores: the
    session with its surfaces, the version prune cutoff, the editor claim with its
    takeover.  The fields are those of the schema; what a newer replica added to an open
    object ([looseObject]) is kept in the [extra] field. *)

From Stdlib Require Import ZArith.
From S2P Require Import Prelude Constants Schema UtcDate Store.

(** ** Surfaces *)

Inductive SurfaceStatus := SfStarting | SfReady | SfStopping | SfStopped | SfFailed | SfUnavailable.
#[export] Instance SurfaceStatus_eq_dec : EqDecision SurfaceStatus.
Proof. solve_decision. Defined.

Record SurfaceProbe := {
  pr_available : bool; pr_reason : option string; pr_version : option string;
  pr_extra : list (string * string);
}.
Inductive proxy_path_mode := StripPrefix | PreservePrefix.
#[export] Instance SurfaceProbe_eq_dec : EqDecision SurfaceProbe.
Proof. solve_decision. Defined.
#[export] Instance proxy_path_mode_eq_dec : EqDecision proxy_path_mode.
Proof. solve_decision. Defined.

(** [SurfaceStateSchema] *)
Record SurfaceState := {
  sf_status : SurfaceStatus;
  sf_attempt_id : option string;
  sf_attempt_started_at : option Timestamp;
  sf_cancelled_attempt_id : option string;
  sf_port : option Z;
  sf_url : option string;
  sf_origin_url : option string;
  sf_proxy_path : option proxy_path_mode;
  sf_started_at : option Timestamp;
  sf_probe : option SurfaceProbe;
  sf_last_error : option string;
  sf_extra : list (string * string);
}.

#[export] Instance SurfaceState_eq_dec : EqDecision SurfaceState.
Proof. solve_decision. Defined.

#[export] Instance SurfaceState_settable : Settable SurfaceState := fun s =>
  Build_SurfaceState (sf_status s) (sf_attempt_id s) (sf_attempt_started_at s) (sf_cancelled_attempt_id s)
    (sf_port s) (sf_url s) (sf_origin_url s) (sf_proxy_path s) (sf_started_at s) (sf_probe s)
    (sf_last_error s) (sf_extra s).

(** [{ status }] *)
Definition surface_in (status : SurfaceStatus) : SurfaceState := {|
  sf_status := status; sf_attempt_id := None; sf_attempt_started_at := None;
  sf_cancelled_attempt_id := None; sf_port := None; sf_url := None; sf_origin_url := None;
  sf_proxy_path := None; sf_started_at := None; sf_probe := None; sf_last_error := None;
  sf_extra := [];
|}.

(** [SurfaceId] *)
Inductive SurfaceId := SMarimo | SVscode | SOpencode.
Definition surface_name (s : SurfaceId) : string :=
  match s with SMarimo => "marimo" | SVscode => "vscode" | SOpencode => "opencode" end.

(** ** Sessions *)

(** [PreviewSessionOriginSchema] *)
Record PreviewSessionOrigin := {
  po_notebook_id : NotebookId; po_preview_id : string; po_revision_id : VersionId; po_commit : string;
}.
(** [RuntimeSchema] *)
Record Runtime := { rt_python_version : option string; rt_marimo_version : option string }.
(** [ComputeResourceRecordSchema]; a number is kept as its text. *)
Record ComputeResources := {
  cr_cpu : option string; cr_memory_bytes : option string; cr_gpu : option string;
  cr_extra : list (string * string);
}.
Record SessionError := { se_code : string; se_message : string }.
Record IntegrationPin := { ip_id : string; ip_name : string; ip_kind : string; ip_version : Z }.
Inductive EndedReason := EndedByTakeover.
#[export] Instance PreviewSessionOrigin_eq_dec : EqDecision PreviewSessionOrigin.
Proof. solve_decision. Defined.
#[export] Instance Runtime_eq_dec : EqDecision Runtime.
Proof. solve_decision. Defined.
#[export] Instance ComputeResources_eq_dec : EqDecision ComputeResources.
Proof. solve_decision. Defined.
#[export] Instance SessionError_eq_dec : EqDecision SessionError.
Proof. solve_decision. Defined.
#[export] Instance IntegrationPin_eq_dec : EqDecision IntegrationPin.
Proof. solve_decision. Defined.
#[export] Instance EndedReason_eq_dec : EqDecision EndedReason.
Proof. solve_decision. Defined.

(** [SessionSchema] *)
Record Session := {
  ses_origin : option PreviewSessionOrigin;
  ses_idle_timeout_ms : option Z;
  ses_session_id : SessionId;
  ses_notebook_id : NotebookId;
  ses_project_id : ProjectId;
  ses_user_id : UserId;
  ses_status : SessionStatus;
  ses_started_at : Timestamp;
  ses_last_heartbeat : Timestamp;
  ses_expires_at : option Timestamp;
  ses_authorization_expires_at : option Timestamp;
  ses_last_snapshot_at : option Timestamp;
  ses_sandbox_reclaimed_at : option Timestamp;
  ses_sandbox_deadline_at : option Timestamp;
  ses_terminating_at : option Timestamp;
  ses_takeover_capture_completed_at : option Timestamp;
  ses_ephemeral : option bool;
  ses_restricted_viewer_credentials : option bool;
  ses_editor_sandbox_sharing : option EditorSandboxSharing;
  ses_ended_reason : option EndedReason;
  ses_ended_by_user_id : option UserId;
  ses_mode : option SessionMode;
  ses_source_version_id : option VersionId;
  ses_app_pool : option bool;
  ses_active_connections : option Z;
  ses_connections_checked_at : option Timestamp;
  ses_runtime : option Runtime;
  ses_sandbox_id : option SandboxId;
  ses_kernel_auth_token : option string;
  ses_sandbox_url : option string;
  ses_compute_profile : option string;
  ses_compute_resources : option ComputeResources;
  ses_compute_from_snapshot : option bool;
  ses_sandbox_origin_url : option string;
  ses_surfaces : option (list (string * SurfaceState));
  ses_used_fallback : option bool;
  ses_error : option SessionError;
  ses_integrations : option (list IntegrationPin);
  ses_extra : list (string * string);
}.

#[export] Instance Session_settable : Settable Session := fun s =>
  Build_Session (ses_origin s) (ses_idle_timeout_ms s) (ses_session_id s) (ses_notebook_id s)
    (ses_project_id s) (ses_user_id s) (ses_status s) (ses_started_at s) (ses_last_heartbeat s)
    (ses_expires_at s) (ses_authorization_expires_at s) (ses_last_snapshot_at s)
    (ses_sandbox_reclaimed_at s) (ses_sandbox_deadline_at s) (ses_terminating_at s)
    (ses_takeover_capture_completed_at s) (ses_ephemeral s) (ses_restricted_viewer_credentials s)
    (ses_editor_sandbox_sharing s) (ses_ended_reason s) (ses_ended_by_user_id s) (ses_mode s)
    (ses_source_version_id s) (ses_app_pool s) (ses_active_connections s)
    (ses_connections_checked_at s) (ses_runtime s) (ses_sandbox_id s) (ses_kernel_auth_token s)
    (ses_sandbox_url s) (ses_compute_profile s) (ses_compute_resources s)
    (ses_compute_from_snapshot s) (ses_sandbox_origin_url s) (ses_surfaces s) (ses_used_fallback s)
    (ses_error s) (ses_integrations s) (ses_extra s).

#[export] Instance Session_eq_dec : EqDecision Session.
Proof. solve_decision. Defined.

(** [session.surfaces?.[surface]] and [{...session, surfaces: {...session.surfaces, [surface]: state}}] *)
Definition surface_of (s : Session) (surface : string) : option SurfaceState :=
  ses_surfaces s ≫= obj_get surface.
Definition with_surface (surface : string) (state : SurfaceState) (s : Session) : Session :=
  s <| ses_surfaces := Some (obj_set surface state (ses_surfaces s ?? [])) |>.

(** [VersionPruneCutoffSchema] *)
Record VersionPruneCutoff := { cutoff_version_id : VersionId }.
#[export] Instance VersionPruneCutoff_eq_dec : EqDecision VersionPruneCutoff.
Proof. solve_decision. Defined.

(** ** Claims *)

(** [AppClaimSchema] *)
Record AppClaim := { ac_session_id : option SessionId; ac_claimed_at : Timestamp }.

Inductive ExpectedActivity := ActActive | ActIdle | ActUnknown | ActStarting.
Inductive TakeoverPhase := PhRequested | PhDraining | PhReady.
Inductive TakeoverDrainStage := Capturing | Snapshotting | Destroying | Finalizing.
#[export] Instance ExpectedActivity_eq_dec : EqDecision ExpectedActivity.
Proof. solve_decision. Defined.
#[export] Instance TakeoverPhase_eq_dec : EqDecision TakeoverPhase.
Proof. solve_decision. Defined.
#[export] Instance TakeoverDrainStage_eq_dec : EqDecision TakeoverDrainStage.
Proof. solve_decision. Defined.

(** [EditorClaimSchema.transfer] *)
Record Transfer := {
  tr_takeover_id : string;
  tr_requested_by : UserId;
  tr_expected_activity : ExpectedActivity;
  tr_phase : TakeoverPhase;
  tr_requested_at : Timestamp;
  tr_drain_lease_id : option string;
  tr_drain_lease_expires_at : option Timestamp;
  tr_drain_lease_stage : option TakeoverDrainStage;
  tr_drain_lease_progress_deadline_at : option Timestamp;
  tr_replacement_session_id : option SessionId;
  tr_extra : list (string * string);
}.
#[export] Instance Transfer_eq_dec : EqDecision Transfer.
Proof. solve_decision. Defined.
#[export] Instance Transfer_settable : Settable Transfer := fun t =>
  Build_Transfer (tr_takeover_id t) (tr_requested_by t) (tr_expected_activity t) (tr_phase t)
    (tr_requested_at t) (tr_drain_lease_id t) (tr_drain_lease_expires_at t)
    (tr_drain_lease_stage t) (tr_drain_lease_progress_deadline_at t)
    (tr_replacement_session_id t) (tr_extra t).

(** [EditorClaimSchema] *)
Record EditorClaim := {
  ec_session_id : option SessionId;
  ec_sharing : EditorSandboxSharing;
  ec_claimed_at : Timestamp;
  ec_transfer : option Transfer;
  ec_extra : list (string * string);
}.
#[export] Instance EditorClaim_eq_dec : EqDecision EditorClaim.
Proof. solve_decision. Defined.
#[export] Instance EditorClaim_settable : Settable EditorClaim := fun c =>
  Build_EditorClaim (ec_session_id c) (ec_sharing c) (ec_claimed_at c) (ec_transfer c) (ec_extra c).

(** [Date.parse] of a stored timestamp; [None] is [NaN]. *)
Definition date_parse (t : Timestamp) : option Z := parseIsoTimestamp t.
(** [Date.parse(t ?? '')] *)
Definition date_parse_opt (t : option Timestamp) : option Z := t ≫= date_parse.

#[global] Arguments date_parse : simpl never.
#[global] Arguments utcTimestamp : simpl never.
#[global] Arguments toISOString : simpl never.
#[global] Arguments is_id : simpl never.

(** ** What the schemas check *)

Definition optional {A} (check : A -> bool) (o : option A) : bool :=
  match o with Some x => check x | None => true end.

(** A fixed prefix, then exactly [n] characters of a class. *)
Definition id_format (prefix : string) (n : nat) (cls : nat -> bool) (id : string) : bool :=
  match startsWith prefix id with
  | Some body => (String.length body === n) &&
      forallb (fun c => cls (Ascii.nat_of_ascii c)) (String.list_ascii_of_string body)
  | None => false
  end.
Definition is_digit (n : nat) : bool := ((48 <=? n) && (n <=? 57))%nat.
Definition is_upper (n : nat) : bool := ((65 <=? n) && (n <=? 90))%nat.
Definition is_lower (n : nat) : bool := ((97 <=? n) && (n <=? 122))%nat.

(** [VersionId], the opaque [UserId] and [KERNEL_AUTH_TOKEN_PATTERN] *)
Definition is_version_id : string -> bool := id_format "ver_" 26 (fun c => is_digit c || is_upper c).
Definition is_user_id (id : string) : bool := negb (id === "").
Definition is_kernel_auth_token : string -> bool :=
  id_format "mhub_kernel_" 43 (fun c => is_digit c || is_upper c || is_lower c || (c === 95) || (c === 45)).
Definition is_commit : string -> bool :=
  id_format "" 40 (fun c => is_digit c || ((97 <=? c) && (c <=? 102))%nat || ((65 <=? c) && (c <=? 70))%nat).
Definition positive (n : Z) : bool := (0 <? n)%Z.

Definition surface_schema (s : SurfaceState) : bool :=
  optional utcTimestamp (sf_attempt_started_at s) && optional positive (sf_port s) &&
  optional utcTimestamp (sf_started_at s).

(** The fields of a session that are written once *)
Definition session_fixed_schema (s : Session) : bool :=
  optional (fun o => is_id "nb" (po_notebook_id o) && is_id "prev" (po_preview_id o) &&
                     is_version_id (po_revision_id o) && is_commit (po_commit o)) (ses_origin s) &&
  optional positive (ses_idle_timeout_ms s) &&
  is_id "sess" (ses_session_id s) && is_id "nb" (ses_notebook_id s) && is_id "proj" (ses_project_id s) &&
  is_user_id (ses_user_id s) && utcTimestamp (ses_started_at s) &&
  optional is_version_id (ses_source_version_id s) && optional id (ses_app_pool s) &&
  optional is_kernel_auth_token (ses_kernel_auth_token s).

Definition session_schema (s : Session) : bool :=
  session_fixed_schema s && utcTimestamp (ses_last_heartbeat s) &&
  optional utcTimestamp (ses_expires_at s) && optional utcTimestamp (ses_authorization_expires_at s) &&
  optional utcTimestamp (ses_last_snapshot_at s) && optional utcTimestamp (ses_sandbox_reclaimed_at s) &&
  optional utcTimestamp (ses_sandbox_deadline_at s) && optional utcTimestamp (ses_terminating_at s) &&
  optional utcTimestamp (ses_takeover_capture_completed_at s) && optional is_user_id (ses_ended_by_user_id s) &&
  optional (fun n => 0 <=? n)%Z (ses_active_connections s) && optional utcTimestamp (ses_connections_checked_at s) &&
  optional (is_id "sb") (ses_sandbox_id s) &&
  optional (forallb (fun e => surface_schema e.2)) (ses_surfaces s) &&
  optional (forallb (fun p => is_id "intg" (ip_id p) && positive (ip_version p))) (ses_integrations s).

Definition transfer_schema (t : Transfer) : bool :=
  let short s := (1 <=? String.length s)%nat && (String.length s <=? 255)%nat in
  short (tr_takeover_id t) && is_user_id (tr_requested_by t) && utcTimestamp (tr_requested_at t) &&
  optional short (tr_drain_lease_id t) && optional utcTimestamp (tr_drain_lease_expires_at t) &&
  optional utcTimestamp (tr_drain_lease_progress_deadline_at t) &&
  optional (is_id "sess") (tr_replacement_session_id t).

Definition claim_schema (c : EditorClaim) : bool :=
  optional (is_id "sess") (ec_session_id c) && utcTimestamp (ec_claimed_at c) &&
  optional transfer_schema (ec_transfer c).

(** A clock reading as a timestamp. *)
Lemma iso_now_valid now : (0 <= now < MAX_TIME)%Z -> utcTimestamp (toISOString now) = true.
Proof. unfold MAX_TIME. intros H. apply utcTimestamp_parses. exists now. apply parse_toISOString. lia. Qed.
