(* ===== verification/AppPoolRouter.v ===== *)
(** * Routing visitors of an app to its sessions

    [packages/core/src/services/runtime/AppPoolRouter.ts]: the pool record of one app
    (its sessions, the visits assigned to them) and the pure decisions on it: expiry of
    presence, admission of a visit, replacement of a session, retirement.  The code
    edits a cloned pool in place; here every function returns the edited pool, and an
    edit through a reference changes the element the reference was found at. *)

From Stdlib Require Import ZArith Lia.
From S2P Require Import Prelude Constants Schema.


(** ** Editing the first element that satisfies a test *)
Section First.
Context {A : Type} (p : A -> bool).

(** [const x = xs.find(p); if (x) f(x)] *)
Fixpoint update_first (f : A -> A) (l : list A) : list A :=
  match l with
  | [] => []
  | x :: l' => if p x then f x :: l' else x :: update_first f l'
  end.

(** [const x = xs.find(p); xs.filter((item) => item !== x)] *)
Fixpoint remove_first (l : list A) : list A :=
  match l with
  | [] => []
  | x :: l' => if p x then l' else x :: remove_first l'
  end.
End First.

(** ** Policy and data *)

Record AppPoolPolicy := {
  maxVisitsPerSession : option Z;
  maxSessionsPerVersion : option Z;
  userLeaseMs : Z;
  reconnectGraceMs : Z;
  idleMs : Z;
}.

Definition DEFAULT_APP_POOL_POLICY : AppPoolPolicy := {|
  maxVisitsPerSession := None; maxSessionsPerVersion := None;
  userLeaseMs := APP_USER_LEASE_MS; reconnectGraceMs := APP_RECONNECT_GRACE_MS; idleMs := 1800000;
|}.

(** [AppVisit]: what a page presents to keep its visit. *)
Record AppVisit := { av_visit_id : string; av_generation : string }.

Inductive MemberState := MStarting | MReady | MDraining | MRetiring.

Record AppPoolMember := {
  m_session_id : SessionId;
  m_sandbox_id : SandboxId;
  m_owner : UserId;
  m_source_version_id : option VersionId;
  m_state : MemberState;
  m_created_at : Z;
  m_operation_token : string;
  m_operation_expires_at : Z;
  m_idle_since : option Z;
  m_legacy : option bool;
  m_replaces_session_id : option SessionId;
}.

Record visit := { v_visit_id : string; v_expires_at : Z }.

Record AppPoolAssignment := {
  a_visit_id : option string;
  a_user_id : UserId;
  a_session_id : SessionId;
  a_generation : string;
  a_visits : list visit;
  a_grace_until : option Z;
}.

Record AppPool := {
  deleted_at : option Z;
  latest_version_id : option VersionId;
  members : list AppPoolMember;
  assignments : list AppPoolAssignment;
}.

#[export] Instance MemberState_eq_dec : EqDecision MemberState.
Proof. solve_decision. Defined.
#[export] Instance AppPoolMember_eq_dec : EqDecision AppPoolMember.
Proof. solve_decision. Defined.
#[export] Instance visit_eq_dec : EqDecision visit.
Proof. solve_decision. Defined.
#[export] Instance AppPoolAssignment_eq_dec : EqDecision AppPoolAssignment.
Proof. solve_decision. Defined.
#[export] Instance AppPool_eq_dec : EqDecision AppPool.
Proof. solve_decision. Defined.

Definition emptyAppPool : AppPool :=
  {| deleted_at := None; latest_version_id := None; members := []; assignments := [] |}.

(** Assignments to one field. *)
Definition set_members (P : AppPool) ms : AppPool :=
  {| deleted_at := deleted_at P; latest_version_id := latest_version_id P; members := ms; assignments := assignments P |}.
Definition set_assignments (P : AppPool) l : AppPool :=
  {| deleted_at := deleted_at P; latest_version_id := latest_version_id P; members := members P; assignments := l |}.
Definition set_state (s : MemberState) (m : AppPoolMember) : AppPoolMember :=
  {| m_session_id := m_session_id m; m_sandbox_id := m_sandbox_id m; m_owner := m_owner m;
     m_source_version_id := m_source_version_id m; m_state := s; m_created_at := m_created_at m;
     m_operation_token := m_operation_token m; m_operation_expires_at := m_operation_expires_at m;
     m_idle_since := m_idle_since m; m_legacy := m_legacy m; m_replaces_session_id := m_replaces_session_id m |}.
Definition set_idle (i : option Z) (m : AppPoolMember) : AppPoolMember :=
  {| m_session_id := m_session_id m; m_sandbox_id := m_sandbox_id m; m_owner := m_owner m;
     m_source_version_id := m_source_version_id m; m_state := m_state m; m_created_at := m_created_at m;
     m_operation_token := m_operation_token m; m_operation_expires_at := m_operation_expires_at m;
     m_idle_since := i; m_legacy := m_legacy m; m_replaces_session_id := m_replaces_session_id m |}.
Definition set_sandbox (s : SandboxId) (m : AppPoolMember) : AppPoolMember :=
  {| m_session_id := m_session_id m; m_sandbox_id := s; m_owner := m_owner m;
     m_source_version_id := m_source_version_id m; m_state := m_state m; m_created_at := m_created_at m;
     m_operation_token := m_operation_token m; m_operation_expires_at := m_operation_expires_at m;
     m_idle_since := m_idle_since m; m_legacy := m_legacy m; m_replaces_session_id := m_replaces_session_id m |}.
Definition set_replaces (r : option SessionId) (m : AppPoolMember) : AppPoolMember :=
  {| m_session_id := m_session_id m; m_sandbox_id := m_sandbox_id m; m_owner := m_owner m;
     m_source_version_id := m_source_version_id m; m_state := m_state m; m_created_at := m_created_at m;
     m_operation_token := m_operation_token m; m_operation_expires_at := m_operation_expires_at m;
     m_idle_since := m_idle_since m; m_legacy := m_legacy m; m_replaces_session_id := r |}.
Definition set_visits (vs : list visit) (a : AppPoolAssignment) : AppPoolAssignment :=
  {| a_visit_id := a_visit_id a; a_user_id := a_user_id a; a_session_id := a_session_id a;
     a_generation := a_generation a; a_visits := vs; a_grace_until := a_grace_until a |}.
Definition set_grace (g : option Z) (a : AppPoolAssignment) : AppPoolAssignment :=
  {| a_visit_id := a_visit_id a; a_user_id := a_user_id a; a_session_id := a_session_id a;
     a_generation := a_generation a; a_visits := a_visits a; a_grace_until := g |}.
Definition legacy (m : AppPoolMember) : bool := m_legacy m ?? false.

(** ** Occupancy *)

Definition appOccupancyBySession (l : list AppPoolAssignment) : gmap SessionId Z :=
  foldl (fun counts a => <[a_session_id a := ((counts !! a_session_id a) ?? 0) + 1]> counts)%Z ∅ l.

Definition appOccupancy (P : AppPool) (id : SessionId) : Z :=
  (appOccupancyBySession (assignments P) !! id) ?? 0%Z.

Definition appPresenceExpiresAt (a : AppPoolAssignment) : Z :=
  foldl Z.max (a_grace_until a ?? 0%Z) (map v_expires_at (a_visits a)).

Definition isReusableMember (now : Z) (m : AppPoolMember) : bool :=
  negb (m_state m === MRetiring) &&
  (negb (m_state m === MStarting) || (now <? m_operation_expires_at m)%Z).

(** ** Expiry of presence *)

(** An assignment that predates visits becomes one assignment per visit. *)
Definition split_assignment (a : AppPoolAssignment) : list AppPoolAssignment :=
  match a_visit_id a, a_visits a with
  | None, _ :: _ =>
      map (fun v => {| a_visit_id := Some (v_visit_id v); a_user_id := a_user_id a;
                       a_session_id := a_session_id a; a_generation := a_generation a;
                       a_visits := [v]; a_grace_until := a_grace_until a |}) (a_visits a)
  | _, _ => [a]
  end.

Definition lastPresence (l : list AppPoolAssignment) : gmap SessionId Z :=
  foldl (fun last a =>
    <[a_session_id a := Z.max ((last !! a_session_id a) ?? 0%Z) (appPresenceExpiresAt a)]> last) ∅ l.

(** The visits still present. *)
Definition live_visits (now : Z) (a : AppPoolAssignment) : AppPoolAssignment :=
  set_visits (List.filter (fun v => now <? v_expires_at v)%Z (a_visits a)) a.

Definition present (now : Z) (live : list SessionId) (a : AppPoolAssignment) : bool :=
  (negb (a_visits a === []) || (now <? a_grace_until a ?? 0)%Z) && includes (a_session_id a) live.

Definition expireAppPresence (P : AppPool) (now : Z) : AppPool :=
  let split := flat_map split_assignment (assignments P) in
  let liveMembers := map m_session_id (List.filter (isReusableMember now) (members P)) in
  let last := lastPresence split in
  let kept := List.filter (present now liveMembers) (map (live_visits now) split) in
  let occupied := map a_session_id kept in
  {| deleted_at := deleted_at P; latest_version_id := latest_version_id P;
     members := map (fun m =>
       if includes (m_session_id m) occupied then set_idle None m
       else set_idle (Some (m_idle_since m ?? ((last !! m_session_id m) ?? now))) m) (members P);
     assignments := kept |}.

(** ** Admission *)

Inductive decision_kind := Reuse | Reserve.
(** [AppPoolDecision]; a replacement has no assignment. *)
Inductive AppPoolDecision :=
| Decided (kind : decision_kind) (member : AppPoolMember) (assignment : option AppPoolAssignment)
| Busy.

Record AppAdmission := {
  in_userId : UserId;
  in_visitId : string;
  in_versionId : VersionId;
  in_generation : string;
  in_reservation : AppPoolMember;
  in_now : Z;
}.

Definition observeVersion (P : AppPool) (versionId : VersionId) : AppPool :=
  {| deleted_at := deleted_at P; latest_version_id := Some versionId;
     members := map (fun m =>
       if (m_state m === MReady) && negb (m_source_version_id m === Some versionId)
       then set_state MDraining m else m) (members P);
     assignments := assignments P |}.

Definition is_current (versionId : VersionId) (now : Z) (m : AppPoolMember) : bool :=
  negb (legacy m) && (m_source_version_id m === Some versionId) && negb (m_state m === MDraining) &&
  isReusableMember now m.

Definition currentVersionMembers (P : AppPool) (versionId : VersionId) (now : Z) : list AppPoolMember :=
  List.filter (is_current versionId now) (members P).

Definition hasSessionCapacity (policy : AppPoolPolicy) (current : list AppPoolMember) : bool :=
  match maxSessionsPerVersion policy with
  | None => true
  | Some n => (Z.of_nat (length current) <? n)%Z
  end.

Definition renewAppVisit (visitId : string) (expiresAt : Z) (a : AppPoolAssignment) : AppPoolAssignment :=
  let is_visit v := v_visit_id v === visitId in
  set_grace None
    (set_visits
       (if existsb is_visit (a_visits a) then
          update_first is_visit
            (fun v => {| v_visit_id := v_visit_id v; v_expires_at := Z.max (v_expires_at v) expiresAt |}) (a_visits a)
        else (a_visits a ++ [{| v_visit_id := visitId; v_expires_at := expiresAt |}])%list) a).

Section Route.
(** [String.prototype.localeCompare], the platform's collation. *)
Context (localeCompare : string -> string -> Z).

(** [a || b] on numbers *)
Definition orElse (x y : Z) : Z := if (x =? 0)%Z then y else x.

(** The order of app_preference between available sessions: ready, fullest, oldest. *)
Definition app_preference (occupancy : AppPoolMember -> Z) (a b : AppPoolMember) : Z :=
  let ready m := if m_state m === MReady then 1%Z else 0%Z in
  orElse (ready b - ready a) (orElse (occupancy b - occupancy a)
    (orElse (m_created_at a - m_created_at b) (localeCompare (m_session_id a) (m_session_id b))))%Z.

(** The sessions of the version that can take another visit, best first. *)
Definition available (P : AppPool) (policy : AppPoolPolicy) (versionId : VersionId) (now : Z) : list AppPoolMember :=
  let counts := appOccupancyBySession (assignments P) in
  let occupancy m := (counts !! m_session_id m) ?? 0%Z in
  js_sort (fun a b => app_preference occupancy a b <=? 0)%Z
    (List.filter (fun m => match maxVisitsPerSession policy with
                           | None => true
                           | Some n => (occupancy m <? n)%Z
                           end) (currentVersionMembers P versionId now)).

Definition is_admitted (input : AppAdmission) (a : AppPoolAssignment) : bool :=
  (a_user_id a === in_userId input) && (a_visit_id a === Some (in_visitId input)).

Definition new_assignment (policy : AppPoolPolicy) (input : AppAdmission) (m : AppPoolMember) : AppPoolAssignment := {|
  a_visit_id := Some (in_visitId input); a_user_id := in_userId input; a_session_id := m_session_id m;
  a_generation := in_generation input;
  a_visits := [{| v_visit_id := in_visitId input;
                  v_expires_at := if m_state m === MStarting
                                  then Z.max (m_operation_expires_at m) (in_now input + userLeaseMs policy)
                                  else (in_now input + userLeaseMs policy)%Z |}];
  a_grace_until := None;
|}.

(** [routeApp]; [None] is the [TypeError] of an assignment without its session. *)
Definition routeApp (pool : AppPool) (policy : AppPoolPolicy) (input : AppAdmission)
    : option (AppPool * AppPoolDecision) :=
  let next := observeVersion (expireAppPresence pool (in_now input)) (in_versionId input) in
  match List.find (is_admitted input) (assignments next) with
  | Some existing =>
      let is_member m := m_session_id m === a_session_id existing in
      match List.find is_member (members next) with
      | None => None
      | Some m =>
          let renew := renewAppVisit (in_visitId input) (in_now input + userLeaseMs policy) in
          Some (set_members (set_assignments next (update_first (is_admitted input) renew (assignments next)))
                  (update_first is_member (set_idle None) (members next)),
                Decided Reuse (set_idle None m) (Some (renew existing)))
      end
  | None =>
      match available next policy (in_versionId input) (in_now input) with
      | m :: _ =>
          let a := new_assignment policy input m in
          Some (set_members (set_assignments next (assignments next ++ [a])%list)
                  (update_first (fun x => x === m) (set_idle None) (members next)),
                Decided Reuse (set_idle None m) (Some a))
      | [] =>
          if hasSessionCapacity policy (currentVersionMembers next (in_versionId input) (in_now input)) then
            let m := set_idle None (in_reservation input) in
            let a := new_assignment policy input m in
            Some (set_members (set_assignments next (assignments next ++ [a])%list) (members next ++ [m])%list,
                  Decided Reserve m (Some a))
          else Some (next, Busy)
      end
  end.

Definition reserveAppReplacement (pool : AppPool) (policy : AppPoolPolicy) (versionId : VersionId)
    (reservation : AppPoolMember) (now : Z) (replacesSessionId : SessionId) : AppPool * AppPoolDecision :=
  let next := observeVersion (expireAppPresence pool now) versionId in
  let current := currentVersionMembers next versionId now in
  match List.find (fun m => m_replaces_session_id m === Some replacesSessionId) current with
  | Some previous => (next, Decided Reuse previous None)
  | None =>
      let retained := List.filter (fun m => negb (m_session_id m === replacesSessionId)) current in
      if hasSessionCapacity policy retained then
        let m := set_replaces (Some replacesSessionId) reservation in
        (set_members next (members next ++ [m])%list, Decided Reserve m None)
      else (next, Busy)
  end.
End Route.

(** ** Retirement *)

Inductive AppRetirementDecision := Retain | Probe | Retire.
#[export] Instance AppRetirementDecision_eq_dec : EqDecision AppRetirementDecision.
Proof. solve_decision. Defined.

Definition routeAppRetirement (P : AppPool) (m : AppPoolMember) (policy : AppPoolPolicy) (now : Z)
    : AppRetirementDecision :=
  match m_state m with
  | MRetiring => Retire
  | MStarting => if (m_operation_expires_at m <=? now)%Z then Retire else Retain
  | _ => if (appOccupancy P (m_session_id m) =? 0)%Z &&
            match m_idle_since m with Some i => (idleMs policy <=? now - i)%Z | None => false end
         then Probe else Retain
  end.
