(* ===== verification/AppPoolRouting.v ===== *)
(** * What routing promises

    The decisions of [AppPoolRouter.v]: admission always answers and keeps every present
    visitor where it is, limits on visits and sessions are kept, and a session with a
    present visitor is not retired. *)

From Stdlib Require Import ZArith Lia.
From S2P Require Import Prelude Constants Schema AppPoolRouter.

(** ** Edits of one element *)
Section First.
Context {A : Type} (p : A -> bool) (f : A -> A).

Lemma elem_of_update_first x l : x ∈ update_first p f l -> x ∈ l \/ exists y, y ∈ l /\ p y = true /\ x = f y.
Proof.
  induction l as [|y l IH]; simpl; [auto|]. destruct (p y) eqn:E; rewrite !elem_of_cons.
  - intros [->|H]; [|auto]. right. exists y. rewrite elem_of_cons. auto.
  - intros [->|H]; [auto|]. destruct (IH H) as [?|(z & ? & ? & ->)]; [auto|].
    right. exists z. rewrite elem_of_cons. auto.
Qed.

Lemma update_first_found x l : List.find p l = Some x -> f x ∈ update_first p f l.
Proof.
  induction l as [|y l IH]; simpl; [done|]. destruct (p y); [intros [= ->]; by left|]. right. auto.
Qed.

Lemma update_first_other x l : x ∈ l -> p x = false -> x ∈ update_first p f l.
Proof.
  induction l as [|y l IH]; simpl; [done|]. intros Hx Hp. apply elem_of_cons in Hx as [->|Hx].
  - rewrite Hp. by left.
  - destruct (p y); right; auto.
Qed.

Lemma update_first_Forall2 (R : A -> A -> Prop) l :
  (forall x, R x x) -> (forall x, p x = true -> R (f x) x) -> Forall2 R (update_first p f l) l.
Proof.
  intros Hr Hf. induction l as [|y l IH]; simpl; [done|]. destruct (p y) eqn:E; constructor; auto.
  clear IH. induction l; constructor; auto.
Qed.

Lemma remove_first_sublist l : sublist (remove_first p l) l.
Proof. induction l as [|y l IH]; simpl; [done|]. destruct (p y); by constructor. Qed.
End First.

Lemma Forall2_map_l {A C} (R : A -> C -> Prop) (f : C -> A) l :
  (forall x, R (f x) x) -> Forall2 R (map f l) l.
Proof. intros H. induction l; simpl; constructor; auto. Qed.

(** ** Occupancy *)

(** Visits assigned to a session. *)
Definition occ (l : list AppPoolAssignment) (id : SessionId) : nat :=
  length (List.filter (fun a => a_session_id a === id) l).

Lemma occ_app l k id : occ (l ++ k) id = (occ l id + occ k id)%nat.
Proof. unfold occ. by rewrite List.filter_app, length_app. Qed.

Lemma occ_map (f : AppPoolAssignment -> AppPoolAssignment) l id :
  (forall a, a_session_id (f a) = a_session_id a) -> occ (map f l) id = occ l id.
Proof.
  intros Hf. unfold occ. induction l as [|a l IH]; simpl; [done|]. rewrite Hf. case_bool_decide; simpl; by rewrite IH.
Qed.

Lemma occ_filter p l id : (occ (List.filter p l) id <= occ l id)%nat.
Proof.
  unfold occ. induction l as [|a l IH]; simpl; [lia|]. destruct (p a); simpl; case_bool_decide; simpl; lia.
Qed.

Lemma occ_zero l id : (forall a, a ∈ l -> a_session_id a <> id) -> occ l id = 0%nat.
Proof.
  intros H. unfold occ. induction l as [|a l IH]; simpl; [done|].
  rewrite bool_decide_eq_false_2 by (apply H; by left). apply IH. intros b Hb. apply H. by right.
Qed.

Lemma occ_zero_inv l id a : occ l id = 0%nat -> a ∈ l -> a_session_id a <> id.
Proof.
  unfold occ. intros H Ha Heq. apply length_zero_iff_nil in H.
  assert (Hin : a ∈ List.filter (fun a => a_session_id a === id) l)
    by (apply List_filter_elem; by rewrite bool_decide_eq_true_2).
  rewrite H in Hin. by apply not_elem_of_nil in Hin.
Qed.

Lemma occupancy_count l id : (appOccupancyBySession l !! id) ?? 0%Z = Z.of_nat (occ l id).
Proof.
  unfold appOccupancyBySession.
  assert (H : forall m : gmap SessionId Z, ((foldl (fun counts a => <[a_session_id a := ((counts !! a_session_id a) ?? 0) + 1]> counts) m l !! id) ?? 0
            = ((m !! id) ?? 0) + Z.of_nat (occ l id))%Z).
  { induction l as [|a l IH]; intros m; simpl; [unfold occ; simpl; by rewrite Z.add_0_r|].
    rewrite IH. unfold occ; simpl.
    destruct (decide (a_session_id a = id)) as [->|Hne].
    - rewrite lookup_insert_eq, bool_decide_eq_true_2 by done. simpl. lia.
    - rewrite lookup_insert_ne, bool_decide_eq_false_2 by done. done. }
  rewrite H, lookup_empty. done.
Qed.

(** ** Assignments, one per visit *)

Definition split_all (l : list AppPoolAssignment) : list AppPoolAssignment := flat_map split_assignment l.

Lemma split_cases a : (split_assignment a = [a] /\ (a_visit_id a = None -> a_visits a = [])) \/
  (a_visit_id a = None /\ a_visits a <> [] /\
   split_assignment a = map (fun v => {| a_visit_id := Some (v_visit_id v); a_user_id := a_user_id a;
     a_session_id := a_session_id a; a_generation := a_generation a; a_visits := [v];
     a_grace_until := a_grace_until a |}) (a_visits a)).
Proof. unfold split_assignment. destruct (a_visit_id a), (a_visits a); try (by left); by right. Qed.

(** Already one per visit. *)
Definition is_split (a : AppPoolAssignment) : Prop := a_visit_id a = None -> a_visits a = [].

Lemma split_all_id l : (forall a, a ∈ l -> is_split a) -> split_all l = l.
Proof.
  intros H. unfold split_all. induction l as [|a l IH]; simpl; [done|].
  rewrite IH by (intros b Hb; apply H; by right).
  destruct (split_cases a) as [[-> _]|(Hn & Hv & _)]; [done|]. destruct Hv. apply (H a); [by left|done].
Qed.

Lemma split_all_split l a : a ∈ split_all l -> is_split a.
Proof.
  unfold split_all. rewrite list_elem_of_In, in_flat_map. intros (b & _ & Ha). apply list_elem_of_In in Ha.
  destruct (split_cases b) as [[Hb Hs]|(_ & _ & Hb)]; rewrite Hb in Ha.
  - apply list_elem_of_singleton in Ha as ->. done.
  - apply list_elem_of_In, in_map_iff in Ha as (v & <- & _). done.
Qed.

Lemma elem_of_split_all l a :
  a ∈ split_all l <-> exists b, b ∈ l /\ a ∈ split_assignment b.
Proof.
  unfold split_all. rewrite list_elem_of_In, in_flat_map. by setoid_rewrite list_elem_of_In.
Qed.

Lemma live_split now a : is_split a -> is_split (live_visits now a).
Proof. unfold is_split. simpl. intros H Hn. by rewrite H. Qed.

(** Visits of a session once every assignment is split. *)
Definition visits_of (P : AppPool) (id : SessionId) : nat := occ (split_all (assignments P)) id.

(** ** Expiry *)
Section Expire.
Context (P : AppPool) (now : Z).

Lemma expired_assignment a :
  a ∈ assignments (expireAppPresence P now) <->
  exists b, b ∈ split_all (assignments P) /\ a = live_visits now b /\
    present now (map m_session_id (List.filter (isReusableMember now) (members P))) a = true.
Proof.
  simpl. rewrite List_filter_elem, list_elem_of_In, in_map_iff. setoid_rewrite <- list_elem_of_In.
  unfold split_all. naive_solver.
Qed.

Lemma expired_split a : a ∈ assignments (expireAppPresence P now) -> is_split a.
Proof. intros (b & Hb & -> & _)%expired_assignment. by apply live_split, (split_all_split (assignments P)). Qed.

Lemma expired_visits id : (visits_of (expireAppPresence P now) id <= visits_of P id)%nat.
Proof.
  unfold visits_of. rewrite split_all_id by apply expired_split. simpl.
  etrans; [apply occ_filter|]. by rewrite occ_map.
Qed.

Lemma expired_member_id : map m_session_id (members (expireAppPresence P now)) = map m_session_id (members P).
Proof. simpl. rewrite map_map. apply map_ext. intros m. by destruct (includes _ _). Qed.

(** An assignment that survives names a session that can be used. *)
Lemma expired_live a :
  a ∈ assignments (expireAppPresence P now) ->
  exists m, m ∈ members (expireAppPresence P now) /\ m_session_id m = a_session_id a /\ isReusableMember now m = true.
Proof.
  intros (b & _ & -> & Hp)%expired_assignment. apply andb_true_iff in Hp as [_ Hl].
  apply includes_spec in Hl. apply list_elem_of_In, in_map_iff in Hl as (m & Hid & Hm).
  apply list_elem_of_In, List_filter_elem in Hm as [Hm Hr].
  set (f := fun m => if includes (m_session_id m) (map a_session_id (assignments (expireAppPresence P now)))
    then set_idle None m else set_idle (Some (m_idle_since m ?? ((lastPresence (flat_map split_assignment (assignments P)) !! m_session_id m) ?? now))) m).
  exists (f m). assert (Hfm : m_session_id (f m) = m_session_id m /\ isReusableMember now (f m) = isReusableMember now m)
    by (unfold f; by destruct (includes _ _)).
  split; [|destruct Hfm as [-> ->]; by split].
  change (members (expireAppPresence P now)) with (map f (members P)).
  apply list_elem_of_In, in_map, list_elem_of_In, Hm.
Qed.
End Expire.

(** ** Limits *)

(** A session record after an edit: the same session, counted among the current ones of
    a version at time [n] only if it was. *)
Record weaker (n : Z) (m' m : AppPoolMember) : Prop := {
  weaker_id : m_session_id m' = m_session_id m;
  weaker_legacy : legacy m' = legacy m;
  weaker_current v : is_current v n m' = true -> is_current v n m = true;
}.

#[export] Instance weaker_preorder n : PreOrder (weaker n).
Proof.
  split; [by split|]. intros a b c [H1 H2 H3] [G1 G2 G3]. split; [congruence|congruence|auto].
Qed.

Lemma weaker_idle n i m : weaker n (set_idle i m) m.
Proof. by split. Qed.

Lemma weaker_state n s m : s = MDraining \/ s = MRetiring -> weaker n (set_state s m) m.
Proof.
  intros Hs. split; [done|done|]. intros v. unfold is_current, isReusableMember. simpl.
  destruct Hs as [-> | ->]; rewrite !andb_true_iff; simpl; naive_solver.
Qed.

(** Sessions were dropped or edited. *)
Definition shrunk (n : Z) (ms' ms : list AppPoolMember) : Prop :=
  exists l, sublist l ms /\ Forall2 (weaker n) ms' l.

Lemma shrunk_edit n ms' ms : Forall2 (weaker n) ms' ms -> shrunk n ms' ms.
Proof. intros H. by exists ms. Qed.

Lemma shrunk_drop n ms' ms : sublist ms' ms -> shrunk n ms' ms.
Proof. intros H. exists ms'. split; [done|]. clear. induction ms'; by constructor. Qed.

Lemma shrunk_elem n ms' ms m' : shrunk n ms' ms -> m' ∈ ms' -> exists m, m ∈ ms /\ weaker n m' m.
Proof.
  intros (l & Hl & Hf) Hm. apply list_elem_of_lookup in Hm as [i Hi].
  destruct (Forall2_lookup_l _ _ _ _ _ Hf Hi) as (m & Hm & Hw). exists m. split; [|done].
  eapply sublist_subseteq; [exact Hl|]. by eapply list_elem_of_lookup_2.
Qed.

Lemma sublist_filter_length {A} (p : A -> bool) l k :
  sublist l k -> (length (List.filter p l) <= length (List.filter p k))%nat.
Proof. induction 1; simpl; repeat destruct (p _); simpl; lia. Qed.

Lemma shrunk_current n ms' ms v :
  shrunk n ms' ms ->
  (length (List.filter (is_current v n) ms') <= length (List.filter (is_current v n) ms))%nat.
Proof.
  intros (l & Hl & Hf). etrans; [|by apply sublist_filter_length].
  clear Hl. induction Hf as [|m' m ms' l [_ _ Hc] _ IH]; simpl; [lia|].
  destruct (is_current v n m') eqn:E; [rewrite (Hc v E); simpl; lia|].
  destruct (is_current v n m); simpl; lia.
Qed.

Lemma Forall2_ids n ms' l : Forall2 (weaker n) ms' l -> map m_session_id ms' = map m_session_id l.
Proof. induction 1 as [|m' m ms' l [H _ _] _ IH]; simpl; congruence. Qed.

Lemma sublist_map {A C} (f : A -> C) l k : sublist l k -> sublist (map f l) (map f k).
Proof. induction 1; simpl; by constructor. Qed.

Lemma shrunk_NoDup n ms' ms : shrunk n ms' ms -> NoDup (map m_session_id ms) -> NoDup (map m_session_id ms').
Proof.
  intros (l & Hl & Hf) Hn. rewrite (Forall2_ids _ _ _ Hf). eapply sublist_NoDup; [exact Hn|].
  by apply sublist_map.
Qed.

Section Limits.
Context (policy : AppPoolPolicy).

(** What a pool promises at time [n]: one record per session, no session over its visits
    (adopted sessions predate the limit), and per version at most one session over the
    limit, the one that replaces another. *)
Record limits (n : Z) (P : AppPool) : Prop := {
  limits_ids : NoDup (map m_session_id (members P));
  limits_visits m k : maxVisitsPerSession policy = Some k -> m ∈ members P -> legacy m = false ->
    (Z.of_nat (visits_of P (m_session_id m)) <= k)%Z;
  limits_sessions v k : maxSessionsPerVersion policy = Some k ->
    (Z.of_nat (length (currentVersionMembers P v n)) <= k + 1)%Z;
}.

Lemma reusable_mono n n' m : (n <= n')%Z -> isReusableMember n' m = true -> isReusableMember n m = true.
Proof.
  unfold isReusableMember. intros Hn. rewrite !andb_true_iff, !orb_true_iff, !Z.ltb_lt.
  intros [? [?|?]]; (split; [done|]); [by left|right; lia].
Qed.

Lemma limits_mono n n' P : (n <= n')%Z -> limits n P -> limits n' P.
Proof.
  intros Hn [H1 H2 H3]. split; [done|done|]. intros v k Hk. etrans; [|by apply (H3 v)].
  unfold currentVersionMembers. apply inj_le. clear -Hn.
  induction (members P) as [|m ms IH]; simpl; [lia|].
  destruct (is_current v n' m) eqn:E.
  - assert (is_current v n m = true) as ->; [|simpl; lia]. unfold is_current in *.
    rewrite !andb_true_iff in *. destruct E as [[? ?] ?]. split; [done|]. by eapply reusable_mono.
  - destruct (is_current v n m); simpl; lia.
Qed.

Lemma limits_empty n : (forall k, maxSessionsPerVersion policy = Some k -> (0 <= k)%Z) -> limits n emptyAppPool.
Proof.
  intros Hk. split; simpl; [constructor|by intros m k _ Hm; apply not_elem_of_nil in Hm|].
  intros v k H. specialize (Hk k H). unfold currentVersionMembers; simpl. lia.
Qed.

(** Edits that only take away. *)
Lemma limits_shrunk n P P' :
  limits n P -> shrunk n (members P') (members P) -> (forall id, (visits_of P' id <= visits_of P id)%nat) ->
  limits n P'.
Proof.
  intros [H1 H2 H3] Hs Hv. split; [by eapply shrunk_NoDup| |].
  - intros m' k Hk Hm Hl. destruct (shrunk_elem _ _ _ _ Hs Hm) as (m & Hin & [Hid Hleg _]).
    specialize (Hv (m_session_id m')). rewrite Hid in Hv |- *. specialize (H2 m k Hk Hin). rewrite <- Hleg in H2.
    specialize (H2 Hl). lia.
  - intros v k Hk. specialize (H3 v k Hk). pose proof (shrunk_current n _ _ v Hs).
    unfold currentVersionMembers in *. lia.
Qed.

Lemma limits_expire n now P : limits n P -> limits n (expireAppPresence P now).
Proof.
  intros H. eapply limits_shrunk; [exact H| |apply expired_visits].
  apply shrunk_edit. simpl. apply Forall2_map_l. intros m. destruct (includes _ _); apply weaker_idle.
Qed.

Lemma limits_observe n P v : limits n P -> limits n (observeVersion P v).
Proof.
  intros H. eapply limits_shrunk; [exact H| |done].
  apply shrunk_edit. simpl. apply Forall2_map_l. intros m. destruct (_ && _); [|done].
  apply weaker_state. by left.
Qed.

(** Edits of assignments that do not multiply visits. *)
Record calmer (a' a : AppPoolAssignment) : Prop := {
  calmer_session : a_session_id a' = a_session_id a;
  calmer_visits : (length (split_assignment a') <= length (split_assignment a))%nat;
}.

#[export] Instance calmer_refl : Reflexive calmer.
Proof. intros a. by split. Qed.

Lemma occ_split a id :
  occ (split_assignment a) id = if a_session_id a === id then length (split_assignment a) else 0%nat.
Proof.
  assert (H : forall b, b ∈ split_assignment a -> a_session_id b = a_session_id a).
  { intros b Hb. destruct (split_cases a) as [[Hs _]|(_ & _ & Hs)]; rewrite Hs in Hb.
    - by apply list_elem_of_singleton in Hb as ->.
    - by apply list_elem_of_In, in_map_iff in Hb as (v & <- & _). }
  case_bool_decide as Hid; [|apply occ_zero; intros b Hb; by rewrite (H b Hb)].
  unfold occ. f_equal. rewrite (List.forallb_filter_id _ (split_assignment a)); [done|].
  apply forallb_elem. intros b Hb. apply bool_decide_eq_true. by rewrite (H b Hb).
Qed.

Lemma calmer_visits_of l' l id : Forall2 calmer l' l -> (occ (split_all l') id <= occ (split_all l) id)%nat.
Proof.
  unfold split_all. induction 1 as [|a' a l' l [Hs Hv] _ IH]; simpl; [done|].
  rewrite !occ_app, !occ_split, Hs. case_bool_decide; lia.
Qed.

Lemma sublist_visits_of l' l id : sublist l' l -> (occ (split_all l') id <= occ (split_all l) id)%nat.
Proof. unfold split_all. induction 1; simpl; rewrite ?occ_app; lia. Qed.

(** Assigning a visit to a session below its limit. *)
Lemma visits_assign P a id :
  is_split a -> visits_of (set_assignments P (assignments P ++ [a])) id =
  (visits_of P id + if a_session_id a === id then 1 else 0)%nat.
Proof.
  intros Ha. unfold visits_of, split_all. simpl. rewrite flat_map_app, occ_app. f_equal.
  pose proof (split_all_id [a]) as Hs. unfold split_all in Hs. rewrite Hs.
  - unfold occ. simpl. by destruct (a_session_id a === id).
  - by intros b ->%list_elem_of_singleton.
Qed.

Lemma limits_assign n P a :
  limits n P -> is_split a ->
  (forall m k, maxVisitsPerSession policy = Some k -> m ∈ members P -> legacy m = false ->
     m_session_id m = a_session_id a -> (Z.of_nat (visits_of P (m_session_id m)) + 1 <= k)%Z) ->
  limits n (set_assignments P (assignments P ++ [a])).
Proof.
  intros [H1 H2 H3] Ha Hroom. split; [done| |done].
  intros m k Hk Hm Hl. rewrite visits_assign by done. simpl in Hm. specialize (H2 m k Hk Hm Hl).
  case_bool_decide as Heq; [|lia]. specialize (Hroom m k Hk Hm Hl (eq_sym Heq)). lia.
Qed.

(** A session joins. *)
Lemma limits_join n P m :
  limits n P -> m_session_id m ∉ map m_session_id (members P) ->
  (forall k, maxVisitsPerSession policy = Some k -> legacy m = false ->
     (Z.of_nat (visits_of P (m_session_id m)) <= k)%Z) ->
  (forall v k, maxSessionsPerVersion policy = Some k -> is_current v n m = true ->
     (Z.of_nat (length (currentVersionMembers P v n)) <= k)%Z) ->
  limits n (set_members P (members P ++ [m])).
Proof.
  intros [H1 H2 H3] Hid Hv Hs. split; simpl.
  - rewrite map_app. apply NoDup_app. split; [done|]. split; [|apply NoDup_singleton].
    intros x Hx Hx'. apply list_elem_of_singleton in Hx' as ->. done.
  - intros m' k Hk Hm Hl. apply elem_of_app in Hm as [Hm|Hm]; [by apply (H2 m' k)|].
    apply list_elem_of_singleton in Hm as ->. by apply Hv.
  - intros v k Hk. unfold currentVersionMembers in *. simpl. rewrite List.filter_app, length_app. simpl.
    specialize (H3 v k Hk). destruct (is_current v n m) eqn:E; simpl; [|lia].
    specialize (Hs v k Hk E). lia.
Qed.
End Limits.

(** All but one of distinct sessions. *)
Lemma filter_other ms id :
  NoDup (map m_session_id ms) ->
  (length ms <= length (List.filter (fun m => negb (m_session_id m === id)) ms) + 1)%nat.
Proof.
  induction ms as [|m ms IH]; simpl; [lia|]. intros [Hm Hn]%NoDup_cons.
  destruct (decide (m_session_id m = id)) as [Heq|Hne]; simpl.
  - rewrite bool_decide_eq_true_2 by done. simpl.
    rewrite List.forallb_filter_id; [lia|]. apply forallb_elem. intros x Hx.
    rewrite bool_decide_eq_false_2; [done|]. intros Hx'. apply Hm. rewrite Heq, <- Hx'.
    apply list_elem_of_In, in_map, list_elem_of_In, Hx.
  - rewrite bool_decide_eq_false_2 by done. simpl. specialize (IH Hn). lia.
Qed.

Lemma replace_limits policy pool v reservation now replaced P' d :
  (forall k, maxVisitsPerSession policy = Some k -> (1 <= k)%Z) ->
  m_source_version_id reservation = Some v ->
  m_session_id reservation ∉ map m_session_id (members pool) ->
  limits policy now pool -> reserveAppReplacement pool policy v reservation now replaced = (P', d) ->
  limits policy now P'.
Proof.
  intros Hpos Hver Hfresh Hl. pose proof (limits_observe policy now _ v (limits_expire policy now now pool Hl)) as Hn.
  set (next := observeVersion (expireAppPresence pool now) v) in *.
  assert (Hids : map m_session_id (members next) = map m_session_id (members pool)).
  { rewrite <- (expired_member_id pool now). simpl. rewrite !map_map. apply map_ext. intros m.
    destruct (includes _ _); simpl; by destruct (_ && _). }
  unfold reserveAppReplacement. fold next. destruct (List.find _ _) as [prev|]; [by intros [= <- _]|].
  destruct (hasSessionCapacity _ _) eqn:Ec; [|by intros [= <- _]]. intros [= <- _].
  apply limits_join; [done|by rewrite Hids| |].
  - intros k Hk _. specialize (Hpos k Hk). change (Z.of_nat (visits_of next (m_session_id reservation)) <= k)%Z.
    assert (visits_of next (m_session_id reservation) = 0%nat) as ->; [|lia].
    unfold visits_of. rewrite split_all_id by apply expired_split. apply occ_zero.
    intros a (m & Hm & Heq & _)%expired_live Hres. apply Hfresh. rewrite <- (expired_member_id pool now), <- Hres, <- Heq.
    apply list_elem_of_In, in_map, list_elem_of_In, Hm.
  - intros v' k Hk Hcur. assert (v' = v) as ->.
    { unfold is_current in Hcur. rewrite !andb_true_iff, bool_decide_eq_true in Hcur. simpl in Hcur.
      destruct Hcur as [[[_ Hv] _] _]. congruence. }
    unfold hasSessionCapacity in Ec. rewrite Hk, Z.ltb_lt in Ec.
    pose proof (filter_other (currentVersionMembers next v now) replaced) as Hf.
    ospecialize* Hf; [|lia]. destruct Hn as [Hnd _ _]. revert Hnd.
    unfold currentVersionMembers. apply shrunk_NoDup with (n := now), shrunk_drop. clear.
    induction (members next) as [|m ms IH]; simpl; [done|]. destruct (is_current v now m); by constructor.
Qed.

(** ** Admission *)

Lemma is_split_admitted input a : is_admitted input a = true -> a_visit_id a = Some (in_visitId input).
Proof. unfold is_admitted. rewrite andb_true_iff, !bool_decide_eq_true. by intros [_ ->]. Qed.

Lemma calmer_known a' a :
  a_session_id a' = a_session_id a -> a_visit_id a' = a_visit_id a -> is_Some (a_visit_id a) -> calmer a' a.
Proof.
  intros Hs Hv [x Hx]. split; [done|]. unfold split_assignment. rewrite Hv, Hx. by destruct (a_visits a'), (a_visits a).
Qed.

Lemma weaker_update_idle n p i ms : shrunk n (update_first p (set_idle i) ms) ms.
Proof. apply shrunk_edit, update_first_Forall2; [done|]. intros m _. apply weaker_idle. Qed.

Section Admission.
Context (localeCompare : string -> string -> Z) (policy : AppPoolPolicy) (input : AppAdmission) (pool : AppPool).
Local Notation next := (observeVersion (expireAppPresence pool (in_now input)) (in_versionId input)).
Local Notation now := (in_now input).

Lemma next_split a : a ∈ assignments next -> is_split a.
Proof. apply expired_split. Qed.

Lemma next_ids : map m_session_id (members next) = map m_session_id (members pool).
Proof.
  simpl. rewrite !map_map. apply map_ext. intros m.
  destruct (includes _ _); simpl; by destruct (_ && _).
Qed.

(** A present assignment names a usable session of the pool. *)
Lemma next_live a :
  a ∈ assignments next -> exists m, m ∈ members next /\ m_session_id m = a_session_id a /\ isReusableMember now m = true.
Proof.
  intros (m & Hm & Hid & Hr)%expired_live.
  set (f := fun m => if (m_state m === MReady) && negb (m_source_version_id m === Some (in_versionId input))
                     then set_state MDraining m else m).
  exists (f m). split; [apply list_elem_of_In, (in_map f), list_elem_of_In, Hm|].
  unfold f. destruct (_ && _) eqn:E; [|done]. split; [done|].
  apply andb_true_iff in E as [Es _]. apply bool_decide_eq_true in Es. done.
Qed.

Lemma next_unassigned id : id ∉ map m_session_id (members pool) -> visits_of next id = 0%nat.
Proof.
  intros Hid. unfold visits_of. rewrite split_all_id by apply next_split. apply occ_zero.
  intros a (m & Hm & Heq & _)%next_live <-. apply Hid. rewrite <- next_ids, <- Heq.
  apply list_elem_of_In, in_map, list_elem_of_In, Hm.
Qed.

Lemma available_spec m :
  m ∈ available localeCompare next policy (in_versionId input) now <->
  m ∈ currentVersionMembers next (in_versionId input) now /\
  (forall k, maxVisitsPerSession policy = Some k -> (Z.of_nat (visits_of next (m_session_id m)) < k)%Z).
Proof.
  unfold available. rewrite elem_of_js_sort, List_filter_elem, occupancy_count.
  unfold visits_of. rewrite split_all_id by apply next_split.
  destruct (maxVisitsPerSession policy) as [k|]; [rewrite Z.ltb_lt|]; naive_solver.
Qed.

(** Routing keeps the limits. *)
Lemma route_limits P' d :
  (forall k, maxVisitsPerSession policy = Some k -> (1 <= k)%Z) ->
  m_source_version_id (in_reservation input) = Some (in_versionId input) ->
  m_session_id (in_reservation input) ∉ map m_session_id (members pool) ->
  limits policy now pool -> routeApp localeCompare pool policy input = Some (P', d) -> limits policy now P'.
Proof.
  intros Hpos Hver Hfresh Hl. pose proof (limits_observe policy now _ (in_versionId input) (limits_expire policy now now pool Hl)) as Hn.
  unfold routeApp. destruct (List.find _ _) as [existing|] eqn:Ef.
  { destruct (List.find _ (members next)) as [m|]; [|done]. intros [= <- _].
    eapply limits_shrunk; [exact Hn|apply weaker_update_idle|]. intros id. apply calmer_visits_of. simpl.
    apply update_first_Forall2; [done|]. intros a Ha%is_split_admitted. by apply calmer_known; rewrite ?Ha. }
  destruct (available _ _ _ _ _) as [|m l] eqn:Ea.
  - destruct (hasSessionCapacity _ _) eqn:Ec; [|by intros [= <- _]]. intros [= <- _].
    set (a := new_assignment _ _ _).
    change (limits policy now (set_members (set_assignments next (assignments next ++ [a]))
      (members (set_assignments next (assignments next ++ [a])) ++ [set_idle None (in_reservation input)]))).
    apply limits_join.
    + apply limits_assign; [done|done|]. intros m k _ Hm _ Heq. exfalso. apply Hfresh. rewrite <- next_ids.
      apply list_elem_of_In, in_map_iff. exists m. split; [done|]. by apply list_elem_of_In.
    + rewrite <- next_ids in Hfresh. exact Hfresh.
    + intros k Hk _. rewrite visits_assign by done. simpl. rewrite bool_decide_eq_true_2, next_unassigned by done.
      specialize (Hpos k Hk). lia.
    + intros v k Hk Hcur. assert (v = in_versionId input) as ->.
      { unfold is_current in Hcur. rewrite !andb_true_iff, bool_decide_eq_true in Hcur. simpl in Hcur.
        destruct Hcur as [[[_ Hv] _] _]. congruence. }
      unfold hasSessionCapacity in Ec. rewrite Hk, Z.ltb_lt in Ec. unfold currentVersionMembers in *. simpl in *. lia.
  - intros [= <- _]. assert (Hm : m ∈ available localeCompare next policy (in_versionId input) now) by (rewrite Ea; by left).
    apply available_spec in Hm as [Hcur Hroom].
    eapply limits_shrunk with (P := set_assignments next (assignments next ++ [new_assignment policy input m]));
      [|apply weaker_update_idle|done].
    apply limits_assign; [done|done|]. intros m' k Hk _ _ ->. specialize (Hroom k Hk). simpl. lia.
Qed.
End Admission.

(** ** Decisions *)

(** The visits present in a pool at a time: each on a usable session. *)
Definition present_visits (pool : AppPool) (now : Z) : list AppPoolAssignment :=
  assignments (expireAppPresence pool now).

(** Everything of an assignment but its visits and grace period. *)
Definition same_place (a' a : AppPoolAssignment) : Prop :=
  a_visit_id a' = a_visit_id a /\ a_user_id a' = a_user_id a /\ a_session_id a' = a_session_id a /\
  a_generation a' = a_generation a.

(** The answer of an admission: a session of the pool and the visit on it, leased. *)
Definition admitted (policy : AppPoolPolicy) (input : AppAdmission) (P' : AppPool) (m : AppPoolMember) (a : AppPoolAssignment) : Prop :=
  m ∈ members P' /\ a ∈ assignments P' /\ a_session_id a = m_session_id m /\
  a_user_id a = in_userId input /\ a_visit_id a = Some (in_visitId input) /\ m_idle_since m = None /\
  exists v, v ∈ a_visits a /\ v_visit_id v = in_visitId input /\ (in_now input + userLeaseMs policy <= v_expires_at v)%Z.

(** A session that can take visits. *)
Definition usable (P : AppPool) (now : Z) (id : SessionId) : Prop :=
  exists m, m ∈ members P /\ m_session_id m = id /\ isReusableMember now m = true.

Lemma renew_leased visitId expires a :
  exists v, v ∈ a_visits (renewAppVisit visitId expires a) /\ v_visit_id v = visitId /\ (expires <= v_expires_at v)%Z.
Proof.
  unfold renewAppVisit. simpl. destruct (existsb _ _) eqn:E.
  - apply existsb_elem in E as (v & Hv & Hp).
    destruct (List.find (fun v => v_visit_id v === visitId) (a_visits a)) as [v'|] eqn:Ef.
    + eexists. split; [by apply update_first_found|]. apply find_some_elem in Ef as [_ Hid].
      apply bool_decide_eq_true in Hid. simpl. split; [done|lia].
    + rewrite find_none_elem in Ef. by rewrite (Ef v Hv) in Hp.
  - eexists. split; [apply elem_of_app; right; by left|]. simpl. split; [done|lia].
Qed.

Section Decisions.
Context (localeCompare : string -> string -> Z) (policy : AppPoolPolicy) (input : AppAdmission) (pool : AppPool).
Local Notation now := (in_now input).
Local Notation next := (observeVersion (expireAppPresence pool now) (in_versionId input)).
Local Notation current := (currentVersionMembers next (in_versionId input) now).

(** A session at its limit of visits. *)
Definition full (m : AppPoolMember) : Prop :=
  exists k, maxVisitsPerSession policy = Some k /\ (k <= appOccupancy next (m_session_id m))%Z.

(** The visit is not present in the pool. *)
Definition newcomer : Prop := forall b, b ∈ present_visits pool now -> is_admitted input b = false.

(** Each answer of an admission, with what justifies it. *)
Definition justified (P' : AppPool) (d : AppPoolDecision) : Prop :=
  match d with
  | Decided Reuse m (Some a) =>
      admitted policy input P' m a /\ usable next now (m_session_id m) /\
      ((exists b, b ∈ present_visits pool now /\ is_admitted input b = true /\ same_place a b) \/
       (newcomer /\ (exists m0, m0 ∈ current /\ m = set_idle None m0 /\ ~ full m0) /\ a_generation a = in_generation input))
  | Decided Reserve m (Some a) =>
      admitted policy input P' m a /\ m = set_idle None (in_reservation input) /\ newcomer /\
      (forall m0, m0 ∈ current -> full m0) /\
      (forall k, maxSessionsPerVersion policy = Some k -> (Z.of_nat (length current) < k)%Z)
  | Decided _ _ None => False
  | Busy => newcomer /\ (forall m0, m0 ∈ current -> full m0) /\
      (exists k, maxSessionsPerVersion policy = Some k /\ (k <= Z.of_nat (length current))%Z)
  end.

(** Every other present visit stays. *)
Definition undisturbed (P' : AppPool) : Prop :=
  forall b, b ∈ present_visits pool now -> is_admitted input b = false -> b ∈ assignments P'.

Lemma next_occupancy id : appOccupancy next id = Z.of_nat (visits_of next id).
Proof.
  unfold appOccupancy. rewrite occupancy_count. unfold visits_of. by rewrite split_all_id by apply next_split.
Qed.

Lemma route_known existing :
  List.find (is_admitted input) (assignments next) = Some existing ->
  exists P' d, routeApp localeCompare pool policy input = Some (P', d) /\ justified P' d /\ undisturbed P'.
Proof.
  intros Ef. unfold routeApp. rewrite Ef. apply find_some_elem in Ef as Hex. destruct Hex as [Hin Hadm].
  destruct (next_live input pool existing Hin) as (m0 & Hm0 & Hid0 & Hr0).
  destruct (List.find _ (members next)) as [m|] eqn:Em.
  2: { rewrite find_none_elem in Em. specialize (Em m0 Hm0). by rewrite bool_decide_eq_false, Hid0 in Em. }
  eexists _, _. split; [done|]. apply find_some_elem in Em as Hm. destruct Hm as [Hm Hid].
  apply bool_decide_eq_true in Hid. apply andb_true_iff in Hadm as Hu. destruct Hu as [Hu Hv].
  apply bool_decide_eq_true in Hu, Hv. split; [|intros b Hb Hn; by apply update_first_other].
  split; [|split].
  - split; [by apply (update_first_found _ (set_idle None))|].
    split; [by apply (update_first_found _ (renewAppVisit _ _))|]. simpl.
    repeat (split; [done|]). apply renew_leased.
  - exists m0. simpl. by rewrite Hid.
  - left. by exists existing.
Qed.

Lemma route_placed m l :
  newcomer -> available localeCompare next policy (in_versionId input) now = m :: l ->
  exists P' d, routeApp localeCompare pool policy input = Some (P', d) /\ justified P' d /\ undisturbed P'.
Proof.
  intros Hnew Ea. pose proof Hnew as Hnone. apply find_none_elem in Hnone.
  change (List.find (is_admitted input) (assignments next) = None) in Hnone.
  unfold routeApp. rewrite Hnone, Ea. eexists _, _. split; [done|].
  destruct (available_spec localeCompare policy input pool m) as [[Hcur Hroom] _]; [rewrite Ea; by left|].
  pose proof Hcur as [Hm Hc]%List_filter_elem. split; [|by intros b Hb _; apply elem_of_app; left].
  assert (exists m', List.find (fun x => x === m) (members next) = Some m') as [m' Hm'].
  { destruct (List.find (fun x => x === m) (members next)) as [m'|] eqn:E; [by exists m'|].
    apply (find_none_elem (fun x => x === m)) with (x := m) in E; [|done]. by rewrite bool_decide_eq_false in E. }
  apply find_some_elem in Hm' as Heq. destruct Heq as [_ Heq].
  apply bool_decide_eq_true in Heq as ->. apply andb_true_iff in Hc as [_ Hr].
  split; [|split].
  - split; [by apply (update_first_found _ (set_idle None))|]. split; [by apply elem_of_app; right; left|].
    repeat (split; [done|]). eexists. split; [by left|]. simpl. split; [done|]. case_bool_decide; lia.
  - by exists m.
  - right. split; [done|]. split; [|done]. exists m. split; [done|]. split; [done|].
    intros (k & Hk & Hge). specialize (Hroom k Hk). rewrite next_occupancy in Hge. lia.
Qed.

Lemma nothing_available m :
  available localeCompare next policy (in_versionId input) now = [] -> m ∈ current -> full m.
Proof.
  intros Ea Hm. destruct (available_spec localeCompare policy input pool m) as [_ Hno]. rewrite Ea in Hno.
  unfold full. destruct (maxVisitsPerSession policy) as [k|].
  - exists k. split; [done|]. rewrite next_occupancy. apply Z.nlt_ge. intros Hlt.
    apply (not_elem_of_nil m), Hno. split; [done|]. by intros k' [= <-].
  - exfalso. by apply (not_elem_of_nil m), Hno.
Qed.

Lemma route_unplaced :
  newcomer -> available localeCompare next policy (in_versionId input) now = [] ->
  exists P' d, routeApp localeCompare pool policy input = Some (P', d) /\ justified P' d /\ undisturbed P'.
Proof.
  intros Hnew Ea. pose proof Hnew as Hnone. apply find_none_elem in Hnone.
  change (List.find (is_admitted input) (assignments next) = None) in Hnone.
  pose proof (fun m => nothing_available m Ea) as Hfull.
  unfold routeApp. rewrite Hnone, Ea. destruct (hasSessionCapacity policy current) eqn:Ec; unfold hasSessionCapacity in Ec;
    eexists _, _; (split; [done|]).
  - split; [|by intros b Hb _; apply elem_of_app; left].
    split; [|split; [done|]; split; [done|]; split; [done|]].
    + split; [by apply elem_of_app; right; left|]. split; [by apply elem_of_app; right; left|].
      repeat (split; [done|]). eexists. split; [by left|]. simpl. split; [done|]. case_bool_decide; lia.
    + intros k Hk. rewrite Hk in Ec. by apply Z.ltb_lt.
  - split; [|by intros b Hb _]. split; [done|]. split; [done|]. destruct (maxSessionsPerVersion policy) as [k|]; [|done].
    exists k. split; [done|]. by apply Z.ltb_ge.
Qed.

(** C38: admission always answers, and answers right.  A visit that is present keeps its
    session and generation; otherwise it goes to a current session with room, or reserves
    a new one only when no current session has room and the version may have another, or
    is refused only when both limits are reached.  Whoever is admitted holds a lease of
    its own on a usable session of the pool, and every other present visit stays where
    it was. *)
Theorem route_app_decides :
  exists P' d, routeApp localeCompare pool policy input = Some (P', d) /\ justified P' d /\ undisturbed P'.
Proof.
  destruct (List.find (is_admitted input) (assignments next)) as [existing|] eqn:Ef; [by eapply route_known|].
  rewrite find_none_elem in Ef.
  destruct (available localeCompare next policy (in_versionId input) now) as [|m l] eqn:Ea;
    [by apply route_unplaced|by eapply route_placed].
Qed.
End Decisions.

(** ** Retirement *)

Lemma no_visit_kept pool now m a v :
  m ∈ members pool -> isReusableMember now m = true -> visits_of (expireAppPresence pool now) (m_session_id m) = 0%nat ->
  a ∈ assignments pool -> a_session_id a = m_session_id m ->
  (v ∈ a_visits a -> v_expires_at v <= now)%Z /\ (a_visits a = [] -> a_grace_until a ?? 0 <= now)%Z.
Proof.
  intros Hm Hr Hocc Ha Hid. unfold visits_of in Hocc. rewrite split_all_id in Hocc by apply expired_split.
  assert (Hgone : forall b, b ∈ split_assignment a -> a_session_id b = m_session_id m ->
    a_visits (live_visits now b) = [] /\ (a_grace_until b ?? 0 <= now)%Z).
  { intros b Hb Hbid. destruct (present now (map m_session_id (List.filter (isReusableMember now) (members pool))) (live_visits now b)) eqn:E.
    - exfalso. apply (occ_zero_inv _ _ (live_visits now b) Hocc); [|done]. apply expired_assignment.
      exists b. split; [|done]. apply elem_of_split_all. by exists a.
    - unfold present in E. apply andb_false_iff in E as [E|E].
      + apply orb_false_iff in E as [E1 E2]. apply negb_false_iff, bool_decide_eq_true in E1.
        apply Z.ltb_ge in E2. by split.
      + apply includes_false in E. destruct E. simpl. rewrite Hbid. apply list_elem_of_In, in_map, list_elem_of_In.
        by apply List_filter_elem. }
  destruct (split_cases a) as [[Hs _]|(_ & Hne & Hs)]; rewrite Hs in Hgone.
  - destruct (Hgone a) as [Hv Hg]; [by left|done|]. split; [|done]. intros Hin. apply Z.nlt_ge. intros Hlt.
    apply (not_elem_of_nil v). rewrite <- Hv. simpl. apply List_filter_elem. by rewrite Z.ltb_lt.
  - split; [|done]. intros Hin. apply Z.nlt_ge. intros Hlt.
    edestruct Hgone as [Hv _]; [apply list_elem_of_In, in_map, list_elem_of_In, Hin|done|].
    apply Z.ltb_lt in Hlt. simpl in Hv. by rewrite Hlt in Hv.
Qed.

(** Retirement spares visitors.  Once presence is brought up to date, a session is
    released only if it is already retiring, if its startup reservation has expired, or,
    after a probe, if it has been idle for the whole idle period and no visit to it is
    leased any more nor within its reconnect grace. *)
Theorem retirement_spares_visitors pool policy now m :
  m ∈ members (expireAppPresence pool now) ->
  match routeAppRetirement (expireAppPresence pool now) m policy now with
  | Retain => True
  | Retire => m_state m = MRetiring \/ (m_state m = MStarting /\ (m_operation_expires_at m <= now)%Z)
  | Probe =>
      (m_state m = MReady \/ m_state m = MDraining) /\
      (exists i, m_idle_since m = Some i /\ (i + idleMs policy <= now)%Z) /\
      (forall a v, a ∈ assignments pool -> a_session_id a = m_session_id m ->
         (v ∈ a_visits a -> v_expires_at v <= now)%Z /\ (a_visits a = [] -> a_grace_until a ?? 0 <= now)%Z)
  end.
Proof.
  intros Hm. unfold routeAppRetirement.
  assert (Hidle : (appOccupancy (expireAppPresence pool now) (m_session_id m) =? 0)%Z &&
    match m_idle_since m with Some i => (idleMs policy <=? now - i)%Z | None => false end = true ->
    m_state m = MReady \/ m_state m = MDraining ->
    (exists i, m_idle_since m = Some i /\ (i + idleMs policy <= now)%Z) /\
    (forall a v, a ∈ assignments pool -> a_session_id a = m_session_id m ->
       (v ∈ a_visits a -> v_expires_at v <= now)%Z /\ (a_visits a = [] -> a_grace_until a ?? 0 <= now)%Z)).
  { rewrite andb_true_iff, Z.eqb_eq. unfold appOccupancy. rewrite occupancy_count. intros [Hocc Hi] Hs. split.
    { destruct (m_idle_since m) as [i|]; [|done]. exists i. apply Z.leb_le in Hi. split; [done|lia]. }
    assert (exists m0, m0 ∈ members pool /\ m_session_id m0 = m_session_id m /\ isReusableMember now m0 = true)
      as (m0 & Hm0 & Hid & Hr).
    { simpl in Hm. apply list_elem_of_In, in_map_iff in Hm as (m0 & <- & Hm0). exists m0.
      split; [by apply list_elem_of_In|]. split; [by destruct (includes _ _)|].
      unfold isReusableMember. destruct (includes _ _); simpl in Hs; by destruct Hs as [-> | ->]. }
    intros a v Ha Haid. apply (no_visit_kept pool now m0); try done; [|congruence].
    unfold visits_of. rewrite split_all_id by apply expired_split. rewrite Hid. lia. }
  destruct (m_state m) eqn:Es; [| | |by left].
  - destruct (Z.leb_spec (m_operation_expires_at m) now); [by right|done].
  - destruct (_ && _); [|done]. split; [by left|]. apply Hidle; auto.
  - destruct (_ && _); [|done]. split; [by right|]. apply Hidle; auto.
Qed.
