(* ===== verification/AppPool.v ===== *)
(** * App pools

    [packages/core/src/services/runtime/AppPoolStore.ts] and [AppPoolService.ts]: one
    pool object per app, edited by compare-and-swap from every replica: admission and
    replacement, startup, presence, adoption of earlier sessions, retirement, deletion
    and moves.  Metrics and logs are not modelled; a listing that reads in parallel is
    read in order. *)

From Stdlib Require Import ZArith Lia.
From S2P Require Import Prelude Constants Lifecycle Schema UtcDate Store Cas Storage SessionData AppPoolRouter.

(** ** Records read beside the pool *)

(** [GitSourceConfigSchema] *)
Record GitSourceConfig := {
  g_repo : string; g_branch : string; g_root_path : string; g_entry_notebook : string;
}.
Inductive sync_mode := SyncPush | SyncPull.

(** [SourceSchema] *)
Inductive Source :=
| LocalSource (schema_version : Z) (entry_notebook : option string) (current_version_id : VersionId)
| GitSource (schema_version : Z) (provider : option string) (config : GitSourceConfig)
    (pending_config : option GitSourceConfig) (mode : sync_mode) (current_version_id : option VersionId)
    (commit : option string) (last_synced_at : option Timestamp).

Definition source_version (s : Source) : option VersionId :=
  match s with
  | LocalSource _ _ v => Some v
  | GitSource _ _ _ _ _ v _ _ => v
  end.

Definition isPastAuthorizationDeadline (s : Session) (now : Z) : bool :=
  match ses_authorization_expires_at s with
  | None => false
  | Some t => match parseIsoTimestamp t with Some e => (e <=? now)%Z | None => false end
  end.

(** ** Keys *)
Definition appPoolsPrefix : string := "_system/app-pools/".
Definition appPool (projectId : ProjectId) (notebookId : NotebookId) : key :=
  appPoolsPrefix +:+ projectId +:+ "/" +:+ notebookId +:+ ".json".
Definition sessionsForProject (projectId : ProjectId) : string := "_system/sessions/" +:+ projectId +:+ "/".
Definition session_key (projectId : ProjectId) (id : SessionId) : key :=
  sessionsForProject projectId +:+ id +:+ ".json".
(** [paths.project(pid).notebook(nid).source] *)
Definition source_key (projectId : ProjectId) (notebookId : NotebookId) : key :=
  "projects/" +:+ projectId +:+ "/notebooks/" +:+ notebookId +:+ "/source.json".

Section AppPool.
Context {B V : Type} `{!EqDecision B} {CP : Codec B AppPool} {CSe : Codec B Session} {CSo : Codec B Source}.
Local Notation prog := (prog B V).

(** [Date.now()] and [crypto.randomUUID()], of which only its freshness matters. *)
Definition now_ms : prog Z := call ONow.
Definition randomUUID : prog string := call (OFreshId "uuid").

(** ** The store *)

Definition pool_of (o : option (object B)) (k : key) : prog AppPool :=
  match o with Some o => readStored o k | None => mret emptyAppPool end.

Definition unchanged_since (o : option (object B)) : condition :=
  match o with Some o => onlyIfEtagMatches (o_etag o) | None => onlyIfNotExists end.

(** [withCasRetry] of a closure that remembers something between its attempts: an
    attempt that lost its write hands over what it remembers. *)
Fixpoint cas_loop_memo {S A} (backoff : nat -> Z) (attempt : S -> prog (S + A)) (i n : nat) (s : S) : prog A :=
  match n with
  | O => Throw (ConflictError "Write conflict: max retries exceeded")
  | Datatypes.S n' =>
      r ← attempt s;
      match r with
      | inr a => mret a
      | inl s' => call (OSleep (backoff i)) ≫= fun _ => cas_loop_memo backoff attempt (Datatypes.S i) n' s'
      end
  end.

(** The fence of [mutate]: a deleted pool only loses sessions. *)
Definition keeps_tombstone (pool next : AppPool) : bool :=
  match deleted_at pool with
  | None => true
  | Some d => (deleted_at next === Some d) && (assignments next === []) &&
              forallb (fun m => m_state m === MRetiring) (members next)
  end.

Definition mutate_pool_attempt {S T} (projectId : ProjectId) (notebookId : NotebookId)
    (update : S -> AppPool -> prog (S * (AppPool * T))) (s : S) : prog (S + T) :=
  let k := appPool projectId notebookId in
  object ← call (OGet k);
  pool ← pool_of object k;
  '(s', (next, value)) ← update s pool;
  if negb (keeps_tombstone pool next) then Throw (NotFoundError "The app notebook was deleted")
  else if stringify next === stringify pool then mret (inr value)
  else handle (cas_put k (stringify next) (unchanged_since object)) (fun r =>
         match r with
         | Ok _ => mret (inr value)
         | Err CasWriteConflictError => mret (inl s')
         | Err err => Throw err
         end).

Definition mutate_memo {S T} (projectId : ProjectId) (notebookId : NotebookId)
    (update : S -> AppPool -> prog (S * (AppPool * T))) (s : S) : prog T :=
  cas_loop_memo DEFAULT_BACKOFF (mutate_pool_attempt projectId notebookId update) 0 12 s.

(** [AppPoolStore.mutate] *)
Definition mutate {T} (projectId : ProjectId) (notebookId : NotebookId)
    (update : AppPool -> prog (AppPool * T)) : prog T :=
  mutate_memo projectId notebookId (fun (_ : unit) pool => r ← update pool; mret (tt, r)) tt.

Definition read (projectId : ProjectId) (notebookId : NotebookId) : prog (option AppPool) :=
  let k := appPool projectId notebookId in
  object ← call (OGet k);
  match object with Some o => p ← readStored o k; mret (Some p) | None => mret None end.

Definition tombstone (d : Z) : AppPool :=
  {| deleted_at := Some d; latest_version_id := None; members := []; assignments := [] |}.

(** The move operations read a pool, compute its successor and write it back. *)
Definition rewrite_pool (pid : ProjectId) (nid : NotebookId) (o : option (object B))
    (compute : AppPool -> prog (option AppPool)) : prog unit :=
  let k := appPool pid nid in
  pool ← pool_of o k;
  next ← compute pool;
  match next with
  | None => mret tt
  | Some next => cas_put k (stringify next) (unchanged_since o) ≫= fun _ => mret tt
  end.

Definition freeze_fn (pool : AppPool) : prog (option AppPool) :=
  if negb (members pool === []) then Throw (ConflictError "Wait for app pool cleanup before moving")
  else
    d ← match deleted_at pool with Some d => mret d | None => now_ms end;
    mret (Some (tombstone d)).

Definition freezeForMove (pid : ProjectId) (nid : NotebookId) : prog unit :=
  withCasRetry (object ← call (OGet (appPool pid nid)); rewrite_pool pid nid object freeze_fn) no_retry_options.

Definition reopen_fn (pool : AppPool) : prog (option AppPool) :=
  mret (Some {| deleted_at := None; latest_version_id := latest_version_id pool;
                members := members pool; assignments := assignments pool |}).

Definition cancelNotebookMove (source : ProjectId) (nid : NotebookId) : prog unit :=
  withCasRetry (
    object ← call (OGet (appPool source nid));
    match object with
    | None => mret tt
    | Some o => rewrite_pool source nid (Some o) reopen_fn
    end) no_retry_options.

(** One of the two pools of [finishNotebookMove]. *)
Definition finish_fn (source destination pid : ProjectId) (pool : AppPool) : prog (option AppPool) :=
  if (pid === destination) && (deleted_at pool === None) then mret None
  else if pid === source then d ← now_ms; mret (Some (tombstone d)) else mret (Some emptyAppPool).

Definition finish_one (source destination : ProjectId) (nid : NotebookId) (pid : ProjectId) : prog unit :=
  withCasRetry (
    object ← call (OGet (appPool pid nid));
    match object with
    | None => mret tt
    | Some o => rewrite_pool pid nid (Some o) (finish_fn source destination pid)
    end) no_retry_options.

Definition finishNotebookMove (source destination : ProjectId) (nid : NotebookId) : prog unit :=
  finish_one source destination nid source ≫= fun _ => finish_one source destination nid destination.

Definition retire_for_deletion_fn (pool : AppPool) : prog (AppPool * unit) :=
  d ← match deleted_at pool with Some d => mret d | None => now_ms end;
  mret ({| deleted_at := Some d; latest_version_id := latest_version_id pool;
           members := map (set_state MRetiring) (members pool); assignments := [] |}, tt).

Definition retireForDeletion (projectId : ProjectId) (notebookId : NotebookId) : prog unit :=
  mutate projectId notebookId retire_for_deletion_fn.

(** ** Sessions, as the pool reads them *)

Definition getSession (projectId : ProjectId) (id : SessionId) : prog Session :=
  let k := session_key projectId id in
  obj ← call (OGet k);
  match obj with
  | None => Throw (NotFoundError ("Session " +:+ id +:+ " not found"))
  | Some o => readStored o k
  end.

(** [listActiveByProject]: the records under the project's prefix that parse, of the
    present statuses.  The record cache is keyed by tag and so is not visible. *)
Definition listActiveByProject (fuel : nat) (projectId : ProjectId) : prog (list Session) :=
  keys ← listAllKeys fuel (sessionsForProject projectId);
  sessions ← readStoredObjects (T := Session) keys;
  mret (List.filter (fun s => includes (ses_status s) SessionState.PRESENT_STATUSES) sessions).

(** ** The service *)
Section Service.
Context (localeCompare : string -> string -> Z) (policy : AppPoolPolicy) (fuel : nat).
Context (projectId : ProjectId) (notebookId : NotebookId).

Definition assertCommittedVersion (versionId : VersionId) : prog unit :=
  let k := source_key projectId notebookId in
  object ← call (OGet k);
  match object with
  | None => Throw (NotFoundError "Notebook source not found")
  | Some o =>
      source ← readStored (T := Source) o k;
      if negb (source_version source === Some versionId)
      then Throw (ConflictError "The app version changed. Retry shortly.") else mret tt
  end.

Definition has_session (id : SessionId) (m : AppPoolMember) : bool := m_session_id m === id.

Definition bind_warm_fn (sessionId : SessionId) (token : string) (sandboxId : SandboxId) (pool : AppPool)
    : prog (AppPool * bool) :=
  match List.find (has_session sessionId) (members pool) with
  | Some m =>
      if negb (m_state m === MStarting) || negb (m_operation_token m === token) then mret (pool, false)
      else
        now ← now_ms;
        if (m_operation_expires_at m <=? now)%Z then mret (pool, false)
        else mret (set_members pool (update_first (has_session sessionId) (set_sandbox sandboxId) (members pool)), true)
  | None => mret (pool, false)
  end.

Definition bindWarmSandbox (sessionId : SessionId) (token : string) (sandboxId : SandboxId) : prog unit :=
  bound ← mutate projectId notebookId (bind_warm_fn sessionId token sandboxId);
  if bound : bool then mret tt else Throw (ConflictError "The app startup reservation expired. Retry shortly.").

(** The lease of each visit is cut to a full lease from now. *)
Fixpoint cut_leases (vs : list visit) : prog (list visit) :=
  match vs with
  | [] => mret []
  | v :: vs' =>
      now ← now_ms;
      rest ← cut_leases vs';
      mret ({| v_visit_id := v_visit_id v; v_expires_at := Z.min (v_expires_at v) (now + userLeaseMs policy) |} :: rest)
  end.

Fixpoint cut_session_leases (sessionId : SessionId) (l : list AppPoolAssignment) : prog (list AppPoolAssignment) :=
  match l with
  | [] => mret []
  | a :: l' =>
      a' ← (if a_session_id a === sessionId then vs ← cut_leases (a_visits a); mret (set_visits vs a) else mret a);
      rest ← cut_session_leases sessionId l';
      mret (a' :: rest)
  end.

Definition complete_fn (sessionId : SessionId) (token : string) (pool : AppPool) : prog (AppPool * bool) :=
  match List.find (has_session sessionId) (members pool) with
  | Some m =>
      if negb (m_state m === MStarting) || negb (m_operation_token m === token) then mret (pool, false)
      else
        now ← now_ms;
        if (m_operation_expires_at m <=? now)%Z then mret (pool, false)
        else
          let s := if m_source_version_id m === latest_version_id pool then MReady else MDraining in
          l ← cut_session_leases sessionId (assignments pool);
          mret (set_assignments (set_members pool (update_first (has_session sessionId) (set_state s) (members pool))) l, true)
  | None => mret (pool, false)
  end.

Definition complete (sessionId : SessionId) (token : string) : prog unit :=
  completed ← mutate projectId notebookId (complete_fn sessionId token);
  if completed : bool then mret tt else Throw (ConflictError "The app startup reservation expired. Retry shortly.").

Definition release_fn (sessionId : SessionId) (token : string) (pool : AppPool) : prog (AppPool * unit) :=
  match List.find (has_session sessionId) (members pool) with
  | Some m =>
      if (m_operation_token m === token) && ((m_state m === MStarting) || (m_state m === MRetiring)) then
        mret (set_assignments (set_members pool (remove_first (has_session sessionId) (members pool)))
                (List.filter (fun a => negb (a_session_id a === sessionId)) (assignments pool)), tt)
      else mret (pool, tt)
  | None => mret (pool, tt)
  end.

Definition releaseReservation (sessionId : SessionId) (token : string) : prog unit :=
  mutate projectId notebookId (release_fn sessionId token).

Definition invalidate_fn (sessionId : SessionId) (pool : AppPool) : prog (AppPool * unit) :=
  mret (set_assignments (set_members pool (update_first (has_session sessionId) (set_state MRetiring) (members pool)))
          (List.filter (fun a => negb (a_session_id a === sessionId)) (assignments pool)), tt).

Definition invalidate (sessionId : SessionId) : prog unit := mutate projectId notebookId (invalidate_fn sessionId).

(** *** Presence *)

Definition visit_id_of (visit : option AppVisit) : string := (av_visit_id <$> visit) ?? "api".

(** [findPresenceAssignment] *)
Definition presence (userId : UserId) (sessionId : SessionId) (visit : option AppVisit) (a : AppPoolAssignment) : bool :=
  (a_user_id a === userId) && (a_session_id a === sessionId) && (a_visit_id a === Some (visit_id_of visit)) &&
  match visit with None => true | Some v => a_generation a === av_generation v end.

Definition heartbeat_fn (userId : UserId) (sessionId : SessionId) (visit : option AppVisit) (pool : AppPool)
    : prog (AppPool * bool) :=
  now ← now_ms;
  let pool := expireAppPresence pool now in
  let is_member m := has_session sessionId m && negb (m_state m === MRetiring) in
  match List.find is_member (members pool) with
  | None => mret (pool, false)
  | Some m =>
      let is_assignment := presence userId sessionId visit in
      let legacyVisit := legacy m && match visit with None => true | Some _ => false end in
      pool ← (match List.find is_assignment (assignments pool) with
              | Some _ => mret pool
              | None =>
                  if legacyVisit then
                    generation ← randomUUID;
                    mret (set_assignments pool (assignments pool ++
                      [{| a_visit_id := Some "api"; a_user_id := userId; a_session_id := sessionId;
                          a_generation := generation; a_visits := []; a_grace_until := None |}])%list)
                  else mret pool
              end);
      match List.find is_assignment (assignments pool) with
      | None => mret (pool, false)
      | Some a =>
          let visitId := visit_id_of visit in
          let currentVisit := List.find (fun v => v_visit_id v === visitId) (a_visits a) in
          if match currentVisit with None => negb legacyVisit | Some _ => false end then mret (pool, false)
          else
            (* the persist interval [min(APP_PRESENCE_PERSIST_INTERVAL_MS, userLeaseMs / 2)], doubled *)
            let persist2 := Z.min (2 * APP_PRESENCE_PERSIST_INTERVAL_MS) (userLeaseMs policy) in
            let due := match currentVisit with
                       | None => true
                       | Some v => (2 * (v_expires_at v - now) <=? 2 * userLeaseMs policy - persist2)%Z
                       end in
            let l := if due then update_first is_assignment (renewAppVisit visitId (now + userLeaseMs policy)) (assignments pool)
                     else assignments pool in
            mret (set_assignments (set_members pool (update_first is_member (set_idle None) (members pool))) l, true)
      end
  end.

Definition heartbeat (userId : UserId) (sessionId : SessionId) (visit : option AppVisit) : prog bool :=
  mutate projectId notebookId (heartbeat_fn userId sessionId visit).

Definition leave_visit (now : Z) (visit : AppVisit) (a : AppPoolAssignment) : AppPoolAssignment :=
  if existsb (fun v => v_visit_id v === av_visit_id visit) (a_visits a) then
    let vs := List.filter (fun v => negb (v_visit_id v === av_visit_id visit)) (a_visits a) in
    let a := set_visits vs a in
    if vs === [] then set_grace (Some (now + reconnectGraceMs policy)%Z) a else a
  else a.

Definition leave_fn (userId : UserId) (sessionId : SessionId) (visit : AppVisit) (pool : AppPool) : prog (AppPool * unit) :=
  now ← now_ms;
  let pool := expireAppPresence pool now in
  mret (set_assignments pool (update_first (presence userId sessionId (Some visit)) (leave_visit now visit) (assignments pool)), tt).

Definition leave (userId : UserId) (sessionId : SessionId) (visit : AppVisit) : prog unit :=
  mutate projectId notebookId (leave_fn userId sessionId visit).

(** *** Inspection *)

Record member_view := { mv_session_id : SessionId; mv_state : MemberState; mv_users : Z; mv_max_users : option Z }.

Definition view : prog (option AppPool) :=
  pool ← read projectId notebookId;
  match pool with
  | None => mret None
  | Some pool => now ← now_ms; mret (Some (expireAppPresence pool now))
  end.

Definition inspect : prog (list member_view) :=
  pool ← view;
  let pool := pool ?? emptyAppPool in
  mret (map (fun m => {| mv_session_id := m_session_id m; mv_state := m_state m;
                         mv_users := appOccupancy pool (m_session_id m); mv_max_users := maxVisitsPerSession policy |})
            (members pool)).

Definition can_access (pool : option AppPool) (userId : UserId) (sessionId : SessionId) (isLegacy : bool) : bool :=
  match pool with
  | None => isLegacy
  | Some pool =>
      (deleted_at pool === None) &&
      (existsb (fun m => legacy m && negb (m_state m === MRetiring) && has_session sessionId m) (members pool) ||
       existsb (fun a => (a_user_id a === userId) && (a_session_id a === sessionId)) (assignments pool) ||
       (isLegacy && negb (existsb (has_session sessionId) (members pool))))
  end.

Definition canAccess (userId : UserId) (sessionId : SessionId) (isLegacy : bool) : prog bool :=
  pool ← view; mret (can_access pool userId sessionId isLegacy).

(** *** Adoption of sessions and removal of lost ones *)

(** The sessions of the members, and the members whose session is gone. *)
Fixpoint member_sessions (ms : list AppPoolMember) : prog (list Session * list SessionId) :=
  match ms with
  | [] => mret ([], [])
  | m :: ms' =>
      s ← catch (s ← getSession projectId (m_session_id m); mret (Some s))
            (fun error => match error with NotFoundError _ => mret None | error => Throw error end);
      '(sessions, absent) ← member_sessions ms';
      mret (match s with
            | Some s => (s :: sessions, absent)
            | None => (sessions, if m_state m === MStarting then absent else m_session_id m :: absent)
            end)
  end.

Definition of_this_app (s : Session) : bool :=
  (ses_project_id s === projectId) && (ses_notebook_id s === notebookId) && (SessionState.sessionMode (ses_mode s) === App).

(** Sessions whose record is gone or whose reservation has expired start to retire. *)
Fixpoint retire_lost (absent : list SessionId) (ms : list AppPoolMember) : prog (list AppPoolMember) :=
  match ms with
  | [] => mret []
  | m :: ms' =>
      lost ← (if m_state m === MStarting then now ← now_ms; mret (m_operation_expires_at m <=? now)%Z
              else mret (includes (m_session_id m) absent));
      rest ← retire_lost absent ms';
      mret ((if lost : bool then set_state MRetiring m else m) :: rest)
  end.

Definition adopted (pool : AppPool) (s : Session) (sandboxId : SandboxId) : AppPoolMember := {|
  m_session_id := ses_session_id s; m_sandbox_id := sandboxId; m_owner := ses_user_id s;
  m_source_version_id := ses_source_version_id s;
  m_state := match deleted_at pool with None => MDraining | Some _ => MRetiring end;
  (* the schema admits only timestamps that parse *)
  m_created_at := parseIsoTimestamp (ses_started_at s) ?? 0%Z;
  m_operation_token := "legacy"; m_operation_expires_at := 0; m_idle_since := None;
  m_legacy := Some true; m_replaces_session_id := None;
|}.

Fixpoint observe_sessions (sessions : list Session) (pool : AppPool) : prog AppPool :=
  match sessions with
  | [] => mret pool
  | s :: sessions' =>
      pool ←
        match List.find (has_session (ses_session_id s)) (members pool) with
        | Some _ =>
            ended ← (if SessionState.isTerminal (ses_status s) || (ses_status s === Terminating) then mret true
                     else now ← now_ms; mret (isPastAuthorizationDeadline s now));
            mret (if ended : bool
                  then set_members pool (update_first (has_session (ses_session_id s)) (set_state MRetiring) (members pool))
                  else pool)
        | None =>
            match ses_sandbox_id s with
            | Some sandboxId =>
                if ((ses_status s === Running) || (ses_status s === Starting)) && negb (ses_app_pool s ?? false)
                then mret (set_members pool (members pool ++ [adopted pool s sandboxId])%list)
                else mret pool
            | None => mret pool
            end
        end;
      observe_sessions sessions' pool
  end.

(** What [synchronize] remembers between its attempts: the sessions it found. *)
Definition discover (observed : option (list Session)) (pool : AppPool) : prog (list Session * list SessionId) :=
  '(candidates, absent) ←
    match observed with
    | Some l => mret (l, [])
    | None =>
        if (members pool === []) && (assignments pool === []) && (deleted_at pool === None)
        then l ← listActiveByProject fuel projectId; mret (l, [])
        else member_sessions (members pool)
    end;
  mret (List.filter of_this_app candidates, absent).

Definition synchronize_fn (observed : option (list Session)) (memo : option (list Session * list SessionId))
    (pool : AppPool) : prog (option (list Session * list SessionId) * (AppPool * AppPool)) :=
  if negb (deleted_at pool === None) && (members pool === []) &&
     match observed with None | Some [] => true | _ => false end
  then mret (memo, (pool, pool))
  else
    known ← match memo with Some known => mret known | None => discover observed pool end;
    ms ← retire_lost (snd known) (members pool);
    pool ← observe_sessions (fst known) (set_members pool ms);
    now ← now_ms;
    let pool := expireAppPresence pool now in
    mret (Some known, (pool, pool)).

Definition synchronize (observed : option (list Session)) : prog AppPool :=
  mutate_memo projectId notebookId (synchronize_fn observed) None.

(** *** Admission and replacement *)

(** A reservation for the request. *)
Definition new_reservation (userId : UserId) (versionId : VersionId) (startupMs : Z) : prog AppPoolMember :=
  now ← now_ms;
  sessionId ← call (OFreshId "sess");
  sandboxId ← call (OFreshId "sb");
  token ← randomUUID;
  mret {| m_session_id := sessionId; m_sandbox_id := sandboxId; m_owner := userId;
          m_source_version_id := Some versionId; m_state := MStarting; m_created_at := now;
          m_operation_token := token; m_operation_expires_at := now + startupMs; m_idle_since := None;
          m_legacy := None; m_replaces_session_id := None |}.

Definition decision_assignment (d : AppPoolDecision) : option AppPoolAssignment :=
  match d with Decided _ _ a => a | Busy => None end.

Definition route_fn (userId : UserId) (versionId : VersionId) (reservation : AppPoolMember)
    (decide : AppPool -> AppPoolMember -> Z -> option (AppPool * AppPoolDecision)) (pool : AppPool)
    : prog (AppPool * (AppPoolDecision * option string)) :=
  match deleted_at pool with
  | Some _ => Throw (NotFoundError "App pool was deleted")
  | None =>
      assertCommittedVersion versionId ≫= fun _ =>
      now ← now_ms;
      match decide pool reservation now with
      | None => Throw TypeError
      | Some (next, d) =>
          let newGeneration :=
            match decision_assignment d with
            | Some a => if existsb (fun x => (a_user_id x === userId) && (a_generation x === a_generation a)) (assignments pool)
                        then None else Some (a_generation a)
            | None => None
            end in
          mret (next, (d, newGeneration))
      end
  end.

(** The admission of a request whose version is no longer committed is undone. *)
Definition undo_admission_fn (userId : UserId) (generation : option string) (pool : AppPool) : prog (AppPool * unit) :=
  let pool := set_assignments pool
    (List.filter (fun a => negb ((a_user_id a === userId) && (Some (a_generation a) === generation))) (assignments pool)) in
  now ← now_ms;
  mret (expireAppPresence pool now, tt).

Definition route (userId : UserId) (versionId : VersionId) (startupMs : Z) (isReplace : bool)
    (decide : AppPool -> AppPoolMember -> Z -> option (AppPool * AppPoolDecision)) : prog AppPoolDecision :=
  synchronize None ≫= fun _ =>
  reservation ← new_reservation userId versionId startupMs;
  '(decision, newGeneration) ← mutate projectId notebookId (route_fn userId versionId reservation decide);
  let reserved := match decision with Decided Reserve _ _ => true | _ => false end in
  let reused := match decision with Decided Reuse _ _ => true | _ => false end in
  let ownsAdmission := reserved || match newGeneration with Some _ => true | None => false end in
  (if ownsAdmission || (isReplace && reused) then
     catch (assertCommittedVersion versionId) (fun error =>
       (if negb ownsAdmission then mret tt
        else if reserved then releaseReservation (m_session_id reservation) (m_operation_token reservation)
        else mutate projectId notebookId (undo_admission_fn userId newGeneration)) ≫= fun _ =>
       Throw error)
   else mret tt) ≫= fun _ =>
  match decision with
  | Busy => Throw (ResourceExhaustedError "App is busy. Retry shortly.")
  | decision => mret decision
  end.

(** [admit] *)
Definition admitVisit (userId : UserId) (versionId : VersionId) (startupMs : Z) (visitId : option string) : prog AppPoolDecision :=
  generation ← randomUUID;
  route userId versionId startupMs false (fun pool reservation now =>
    routeApp localeCompare pool policy
      {| in_userId := userId; in_visitId := visitId ?? "api"; in_versionId := versionId; in_generation := generation;
         in_reservation := reservation; in_now := now |}).

Definition replace (userId : UserId) (versionId : VersionId) (startupMs : Z) (replacesSessionId : SessionId)
    : prog AppPoolDecision :=
  route userId versionId startupMs true (fun pool reservation now =>
    Some (reserveAppReplacement pool policy versionId reservation now replacesSessionId)).

(** *** Reconciliation *)

(** What the caller does to a session: count its connections, tear it down. *)
Record effects := {
  probe : AppPoolMember -> prog (option Z);
  retire : AppPoolMember -> option Session -> prog bool;
}.

Definition retire_fn (candidate : AppPoolMember) (pool : AppPool) : prog (AppPool * bool) :=
  now ← now_ms;
  let pool := expireAppPresence pool now in
  match List.find (has_session (m_session_id candidate)) (members pool) with
  | None => mret (pool, false)
  | Some m =>
      now' ← now_ms;
      if routeAppRetirement pool m policy now' === Retain then mret (pool, false)
      else
        let pool := set_members pool (update_first (has_session (m_session_id candidate)) (set_state MRetiring) (members pool)) in
        now'' ← now_ms;
        mret (expireAppPresence pool now'', true)
  end.

Definition drop_fn (candidate : AppPoolMember) (pool : AppPool) : prog (AppPool * unit) :=
  let pool := set_members pool (List.filter (fun m => negb (has_session (m_session_id candidate) m)) (members pool)) in
  now ← now_ms;
  mret (expireAppPresence pool now, tt).

(** The decision to retire one session, and its retirement. *)
Definition decide_retirement (snapshot : AppPool) (candidate : AppPoolMember) (eff : effects) : prog bool :=
  now ← now_ms;
  let decision := routeAppRetirement snapshot candidate policy now in
  if decision === Retain then mret false
  else
    idle ← (if decision === Probe then n ← probe eff candidate; mret (n === Some 0%Z) else mret true);
    if idle : bool then mutate projectId notebookId (retire_fn candidate) else mret false.

Definition retire_session (candidate : AppPoolMember) (eff : effects) : prog unit :=
  session ← catch (s ← getSession projectId (m_session_id candidate); mret (Some s))
              (fun error => match error with NotFoundError _ => mret None | error => Throw error end);
  gone ← retire eff candidate session;
  if gone : bool then mutate projectId notebookId (drop_fn candidate) else mret tt.

(** One pass over the sessions; a failure is logged and the next session is tried. *)
Fixpoint reconcile_loop (snapshot : AppPool) (eff : effects) (ms : list AppPoolMember) (changed : bool) : prog bool :=
  match ms with
  | [] => mret changed
  | m :: ms' =>
      handle (decide_retirement snapshot m eff) (fun r =>
        match r with
        | Ok true => handle (retire_session m eff) (fun _ => reconcile_loop snapshot eff ms' true)
        | _ => reconcile_loop snapshot eff ms' changed
        end)
  end.

(** The result is the number of visits reported. *)
Definition reconcile (eff : effects) : prog nat :=
  snapshot ← synchronize None;
  changed ← reconcile_loop snapshot eff (members snapshot) false;
  pool ← (if changed : bool then read projectId notebookId else mret (Some snapshot));
  mret (match pool with Some p => length (assignments p) | None => 0%nat end).
End Service.
End AppPool.
