(* ===== verification/SessionService.v ===== *)
(** * Session service: records

    [packages/core/src/services/runtime/SessionService.ts], the operations on session
    records: creation with its version check, every read-modify-write of a record, the
    scans and listings, expiry and reaping.  Claims are in [EditorClaims.v].  Metrics and
    logs are not modelled; bounded-parallel reads happen in order.

    [V], the values a process keeps outside the store, is here the entry of the record
    cache ([etagRecordCache.ts]): a tag and the record read with it.  The cache of the
    world holds everything ever cached and a read of it may find nothing, so eviction and
    removal need no operation of their own. *)

From Stdlib Require Import ZArith Lia.
From S2P Require Import Prelude Constants Lifecycle Schema UtcDate Store Cas CasEffects Storage SessionData AppPoolRouter AppPool.

Definition minutes (n : Z) : Z := n * 60000.
Definition SURFACE_START_LEASE_MS : Z := minutes 3.
Definition HEARTBEAT_TTL_MS : Z := minutes 5.
Definition TERMINAL_RETENTION_MS : Z := 24 * 3600000.
Definition HEARTBEAT_PERSIST_INTERVAL_MS : Z := 60000.
Definition MARIMO_PORT : Z := 2718.

(** ** Keys *)
Definition sessionsPrefix : string := "_system/sessions/".
Definition versionPruneCutoff_key (projectId : ProjectId) (notebookId : NotebookId) : key :=
  "_system/version-prune-cutoffs/" +:+ projectId +:+ "/" +:+ notebookId +:+ ".json".
Definition editorClaim (projectId : ProjectId) (notebookId : NotebookId) : key :=
  "_system/editors/" +:+ projectId +:+ "/" +:+ notebookId +:+ ".json".
Definition appClaim (projectId : ProjectId) (notebookId : NotebookId) : key :=
  "_system/apps/" +:+ projectId +:+ "/" +:+ notebookId +:+ ".json".

(** [isReusableSession] *)
Definition isReusableSession (s : Session) (now : Z) : bool :=
  ((ses_status s === Running) && match truthy (ses_sandbox_url s) with Some _ => true | None => false end) ||
  ((ses_status s === Starting) &&
   num_cmp Z.ltb ((fun t => now - t)%Z <$> date_parse (ses_started_at s)) (Some HEARTBEAT_TTL_MS)).

(** [now - new Date(session.last_heartbeat).getTime()] *)
Definition silence (now : Z) (s : Session) : option Z := (fun t => now - t)%Z <$> date_parse (ses_last_heartbeat s).
Definition silent_for (now ms : Z) (s : Session) : bool := num_cmp Z.ltb (Some ms) (silence now s).

(** [CreateSessionInput] *)
Record CreateSessionInput := {
  in_origin : option PreviewSessionOrigin;
  in_idle_timeout_ms : option Z;
  in_notebook_id : NotebookId;
  in_project_id : ProjectId;
  in_user_id : UserId;
  in_runtime : option Runtime;
  in_sandbox_id : option SandboxId;
  in_kernel_auth_token : option string;
  in_sandbox_url : option string;
  in_compute_profile : option string;
  in_compute_resources : option ComputeResources;
  in_compute_from_snapshot : option bool;
  in_ephemeral : option bool;
  in_restricted_viewer_credentials : option bool;
  in_mode : option SessionMode;
  in_source_version_id : option VersionId;
  in_editor_sandbox_sharing : option EditorSandboxSharing;
  in_authorization_expires_at : option Timestamp;
  in_session_id : option SessionId;
  in_app_pool : option bool;
}.

(** [cond ? { field: v } : {}] for a truthy [v] *)
Definition when_true (b : option bool) : option bool := if b ?? false then Some true else None.
Definition when_nonzero (n : option Z) : option Z :=
  match n with Some z => if (z =? 0)%Z then None else Some z | None => None end.

(** The record [createSession] stores. *)
Definition new_session (input : CreateSessionInput) (sessionId : SessionId) (now : Timestamp) : Session := {|
  ses_origin := in_origin input;
  ses_idle_timeout_ms := when_nonzero (in_idle_timeout_ms input);
  ses_session_id := sessionId;
  ses_notebook_id := in_notebook_id input;
  ses_project_id := in_project_id input;
  ses_user_id := in_user_id input;
  ses_status := Starting;
  ses_started_at := now;
  ses_last_heartbeat := now;
  ses_expires_at := None;
  ses_authorization_expires_at := truthy (in_authorization_expires_at input);
  ses_last_snapshot_at := None;
  ses_sandbox_reclaimed_at := None;
  ses_sandbox_deadline_at := None;
  ses_terminating_at := None;
  ses_takeover_capture_completed_at := None;
  ses_ephemeral := when_true (in_ephemeral input);
  ses_restricted_viewer_credentials := in_restricted_viewer_credentials input;
  ses_editor_sandbox_sharing := in_editor_sandbox_sharing input;
  ses_ended_reason := None;
  ses_ended_by_user_id := None;
  ses_mode := match in_mode input with Some Edit | None => None | m => m end;
  ses_source_version_id := truthy (in_source_version_id input);
  ses_app_pool := when_true (in_app_pool input);
  ses_active_connections := None;
  ses_connections_checked_at := None;
  ses_runtime := in_runtime input;
  ses_sandbox_id := in_sandbox_id input;
  ses_kernel_auth_token := in_kernel_auth_token input;
  ses_sandbox_url := in_sandbox_url input;
  ses_compute_profile := in_compute_profile input;
  ses_compute_resources := in_compute_resources input;
  ses_compute_from_snapshot := when_true (in_compute_from_snapshot input);
  ses_sandbox_origin_url := None;
  ses_surfaces := None;
  ses_used_fallback := None;
  ses_error := None;
  ses_integrations := None;
  ses_extra := [];
|}.

Section Sessions.
Context {B : Type} `{!EqDecision B}.
Context {CSe : Codec B Session} {CCu : Codec B VersionPruneCutoff} {CP : Codec B AppPool}.
Local Abbreviation V := (string * Session)%type (only parsing).
Local Notation prog := (prog B V).

(** [new Date().toISOString()] *)
Definition nowIso : prog Timestamp := now ← now_ms; mret (toISOString now).

(** [SessionService.mutate] *)
Definition mutate_session {X} (projectId : ProjectId) (id : SessionId)
    (apply : Session -> prog (X * option Session)) : prog (X * Session) :=
  '(x, o) ← mutateM (session_key projectId id) apply (Some (NotFoundError ("Session " +:+ id +:+ " not found")));
  mret (x, value _ o).

(** A mutation whose caller keeps no variables. *)
Definition mutate_ (projectId : ProjectId) (id : SessionId) (f : Session -> prog (unit * option Session)) : prog Session :=
  r ← mutate_session projectId id f; mret r.2.

(** ** Creation and the version prune cutoff *)

Definition getVersionPruneCutoff (projectId : ProjectId) (notebookId : NotebookId) : prog (option VersionId) :=
  let k := versionPruneCutoff_key projectId notebookId in
  object ← call (OGet k);
  match object with
  | None => mret None
  | Some o => c ← readStored (T := VersionPruneCutoff) o k; mret (Some (cutoff_version_id c))
  end.

Definition advance_attempt (k : key) (cutoff : VersionId) : prog unit :=
  existing ← call (OGet k);
  match existing with
  | None => cas_put k (stringify {| cutoff_version_id := cutoff |}) onlyIfNotExists ≫= fun _ => mret tt
  | Some o =>
      current ← readStored (T := VersionPruneCutoff) o k;
      if String.leb cutoff (cutoff_version_id current) then mret tt
      else cas_put k (stringify {| cutoff_version_id := cutoff |}) (onlyIfEtagMatches (o_etag o)) ≫= fun _ => mret tt
  end.

Definition advanceVersionPruneCutoff (projectId : ProjectId) (notebookId : NotebookId) (cutoff : VersionId) : prog unit :=
  withCasRetry (advance_attempt (versionPruneCutoff_key projectId notebookId) cutoff) no_retry_options.

(** Any failure of the write is logged and dropped. *)
Definition failCreatedSession (k : key) (etag : string) (session : Session) (error : SessionError) : prog unit :=
  catch (call (OPut k (stringify (session <| ses_status := Failed |> <| ses_error := Some error |>))
                    (onlyIfEtagMatches etag)) ≫= fun _ => mret tt)
        (fun _ => mret tt).

Definition check_failed : SessionError :=
  {| se_code := "SOURCE_VERSION_CHECK_FAILED"; se_message := "The source version could not be verified" |}.
Definition version_pruned : SessionError :=
  {| se_code := "SOURCE_VERSION_PRUNED"; se_message := "The source version is no longer available for a new session" |}.

(** The part of [createSession] after the record is stored. *)
Definition check_created (input : CreateSessionInput) (k : key) (etag : string) (session : Session) : prog Session :=
  match truthy (in_source_version_id input) with
  | None => mret session
  | Some version =>
      handle (getVersionPruneCutoff (in_project_id input) (in_notebook_id input)) (fun r =>
        match r with
        | Err error => failCreatedSession k etag session check_failed ≫= fun _ => Throw error
        | Ok cutoff =>
            match truthy cutoff with
            | Some cutoff =>
                if String.leb version cutoff then
                  failCreatedSession k etag session version_pruned ≫= fun _ =>
                  Throw (ConflictError "The source version is no longer available; reload the notebook and retry")
                else mret session
            | None => mret session
            end
        end)
  end.

Definition createSession (input : CreateSessionInput) : prog Session :=
  if match in_kernel_auth_token input with Some tok => negb (is_kernel_auth_token tok) | None => false end
  then Throw (JsError "Invalid kernel authentication token")
  else
    sessionId ← match in_session_id input with Some id => mret id | None => call (OFreshId "sess") end;
    now ← nowIso;
    let session := new_session input sessionId now in
    let k := session_key (in_project_id input) sessionId in
    written ← call (OPut k (stringify session) Always);
    check_created input k (i_etag written) session.

(** ** Read-modify-writes of a record *)

Definition closing (s : Session) : bool :=
  SessionState.isTerminal (ses_status s) || (ses_status s === Terminating).

(** [v ? { field: v } : {}]: an absent value leaves the field. *)
Definition or_keep {A} (v old : option A) : option A := match v with Some _ => v | None => old end.

Definition running_record (sandboxUrl : string) (usedFallback : option bool) (originUrl expiresAt : option string)
    (integrations : option (list IntegrationPin)) (sandboxDeadlineAt : option Timestamp) (now : Timestamp)
    (s : Session) : Session :=
  let s' := with_surface "marimo"
    (surface_in SfReady <| sf_port := Some MARIMO_PORT |> <| sf_url := Some sandboxUrl |> <| sf_started_at := Some now |>) s in
  s' <| ses_status := Running |> <| ses_sandbox_url := Some sandboxUrl |>
     <| ses_sandbox_origin_url := originUrl |> <| ses_used_fallback := usedFallback |>
     <| ses_expires_at := or_keep (truthy expiresAt) (ses_expires_at s) |>
     <| ses_sandbox_deadline_at := or_keep (truthy sandboxDeadlineAt) (ses_sandbox_deadline_at s) |>
     <| ses_integrations := match ses_integrations s, integrations with
                            | None, Some (_ :: _) => integrations
                            | old, _ => old
                            end |>.

Definition set_running_fn sandboxUrl usedFallback originUrl expiresAt integrations sandboxDeadlineAt (s : Session)
    : prog (unit * option Session) :=
  if closing s then mret (tt, None)
  else now ← nowIso;
       mret (tt, Some (running_record sandboxUrl usedFallback originUrl expiresAt integrations sandboxDeadlineAt now s)).

Definition setRunning (projectId : ProjectId) (id : SessionId) (sandboxUrl : string) (usedFallback : option bool)
    (originUrl expiresAt : option string) (integrations : option (list IntegrationPin))
    (sandboxDeadlineAt : option Timestamp) : prog Session :=
  mutate_ projectId id (set_running_fn sandboxUrl usedFallback originUrl expiresAt integrations sandboxDeadlineAt).

Definition extend_fn (newExpiresAt : Timestamp) (s : Session) : option Session :=
  if closing s then None else Some (s <| ses_expires_at := Some newExpiresAt |>).
Definition extendExpiry (projectId : ProjectId) (id : SessionId) (newExpiresAt : Timestamp) : prog Session :=
  mutate_ projectId id (pure_apply (extend_fn newExpiresAt)).

Definition tighten_fn (deadline : Timestamp) (s : Session) : option Session :=
  if match ses_authorization_expires_at s with
     | Some old => num_cmp Z.leb (date_parse old) (date_parse deadline)
     | None => false
     end
  then None else Some (s <| ses_authorization_expires_at := Some deadline |>).
Definition tightenAuthorizationDeadline (projectId : ProjectId) (id : SessionId) (deadline : Timestamp) : prog Session :=
  mutate_ projectId id (pure_apply (tighten_fn deadline)).

Definition markSnapshotted (projectId : ProjectId) (id : SessionId) (at_ : Timestamp) : prog Session :=
  mutate_ projectId id (pure_apply (fun s => Some (s <| ses_last_snapshot_at := Some at_ |>))).

(** *** Surfaces *)

(** [options.replaceReady] *)
Record ReplaceReady := { rr_startedAt : option Timestamp; rr_url : option string }.

Definition start_expired (now : Z) (state : SurfaceState) : bool :=
  (sf_status state === SfStarting) &&
  match truthy (sf_attempt_started_at state) ≫= date_parse with
  | None => true
  | Some t => (SURFACE_START_LEASE_MS <=? now - t)%Z || (now - t <? - SURFACE_START_LEASE_MS)%Z
  end.
Definition replaces_ready (replaceReady : option ReplaceReady) (state : SurfaceState) : bool :=
  (sf_status state === SfReady) &&
  match replaceReady with
  | None => false
  | Some r => (sf_started_at state === rr_startedAt r) && (sf_url state === rr_url r)
  end.
Definition restartable (state : SurfaceState) : bool :=
  (sf_status state === SfStopped) || (sf_status state === SfFailed) || (sf_status state === SfUnavailable).

Definition may_start (replaceReady : option ReplaceReady) (now : Z) (state : option SurfaceState) : bool :=
  match state with
  | None => true
  | Some st => restartable st || start_expired now st || replaces_ready replaceReady st
  end.

(** The variables [transitioned] and [cleanupExistingProcess] of [beginSurfaceStart] *)
Definition surface_start_fn (surface : string) (replaceReady : option ReplaceReady) (attemptId : string) (now : Z)
    (s : Session) : (bool * bool) * option Session :=
  let state := surface_of s surface in
  if (ses_status s === Running) && may_start replaceReady now state then
    ((true, match state with Some st => negb (sf_status st === SfUnavailable) | None => false end),
     Some (with_surface surface
       (surface_in SfStarting <| sf_attempt_id := Some attemptId |>
                              <| sf_attempt_started_at := Some (toISOString now) |>) s))
  else ((false, false), None).

Record SurfaceStart := {
  ss_session : Session; ss_transitioned : bool; ss_attemptId : option string; ss_cleanup : option bool;
}.

Definition beginSurfaceStart (projectId : ProjectId) (id : SessionId) (surface : SurfaceId)
    (replaceReady : option ReplaceReady) : prog SurfaceStart :=
  attemptId ← randomUUID;
  now ← now_ms;
  '((transitioned, cleanup), session) ← mutate_session projectId id
     (fun s => mret (surface_start_fn (surface_name surface) replaceReady attemptId now s));
  mret {| ss_session := session; ss_transitioned := transitioned;
          ss_attemptId := if transitioned : bool then Some attemptId else None;
          ss_cleanup := if transitioned : bool then Some cleanup else None |}.

Definition surface_attempt_fn (surface attemptId : string) (state : SurfaceState) (s : Session) : bool * option Session :=
  let transitioned :=
    match surface_of s surface with
    | Some existing => (sf_status existing === SfStarting) && (sf_attempt_id existing === Some attemptId) &&
                       ((ses_status s === Running) || negb (sf_status state === SfReady))
    | None => false
    end in
  (transitioned, if transitioned then Some (with_surface surface state s) else None).

Definition setSurfaceStateForAttempt (projectId : ProjectId) (id : SessionId) (surface : SurfaceId)
    (attemptId : string) (state : SurfaceState) : prog (bool * Session) :=
  mutate_session projectId id (fun s => mret (surface_attempt_fn (surface_name surface) attemptId state s)).

(** [existing.status === 'starting' ? existing.attempt_id : existing.cancelled_attempt_id] *)
Definition cancelled_attempt (state : SurfaceState) : option string :=
  if sf_status state === SfStarting then sf_attempt_id state else sf_cancelled_attempt_id state.

Definition stopping_surface (attemptId : string) (now : Timestamp) (cancelled : option string) : SurfaceState :=
  surface_in SfStopping <| sf_attempt_id := Some attemptId |> <| sf_attempt_started_at := Some now |>
                        <| sf_cancelled_attempt_id := truthy cancelled |>.

Definition surface_stop_fn (surface attemptId : string) (s : Session)
    : prog ((bool * option SurfaceStatus) * option Session) :=
  let existing := surface_of s surface in
  let previous := sf_status <$> existing in
  if (previous === Some SfStopping) || (previous === Some SfStopped) then mret ((false, previous), None)
  else
    now ← nowIso;
    mret ((true, previous), Some (with_surface surface
      (stopping_surface attemptId now (existing ≫= cancelled_attempt)) s)).

Record SurfaceStop := {
  sp_session : Session; sp_transitioned : bool; sp_attemptId : option string; sp_previous : option SurfaceStatus;
}.

(** By the surface's key in the record *)
Definition begin_surface_stop (projectId : ProjectId) (id : SessionId) (surface : string) : prog SurfaceStop :=
  attemptId ← randomUUID;
  '((transitioned, previous), session) ← mutate_session projectId id (surface_stop_fn surface attemptId);
  mret {| sp_session := session; sp_transitioned := transitioned;
          sp_attemptId := if transitioned : bool then Some attemptId else None;
          sp_previous := if transitioned : bool then previous else None |}.
Definition beginSurfaceStop (projectId : ProjectId) (id : SessionId) (surface : SurfaceId) : prog SurfaceStop :=
  begin_surface_stop projectId id (surface_name surface).

Definition surface_stop_attempt_fn (surface attemptId : string) (state : SurfaceState) (s : Session) : bool * option Session :=
  let transitioned :=
    match surface_of s surface with
    | Some existing => (sf_status existing === SfStopping) && (sf_attempt_id existing === Some attemptId)
    | None => false
    end in
  (transitioned, if transitioned then Some (with_surface surface state s) else None).

Definition setSurfaceStateForStopAttempt (projectId : ProjectId) (id : SessionId) (surface : SurfaceId)
    (attemptId : string) (state : SurfaceState) : prog (bool * Session) :=
  mutate_session projectId id (fun s => mret (surface_stop_attempt_fn (surface_name surface) attemptId state s)).

Definition surface_state_fn (surface : string) (state : SurfaceState) (s : Session) : option Session :=
  if negb (ses_status s === Running) && ((sf_status state === SfStarting) || (sf_status state === SfReady))
  then None else Some (with_surface surface state s).
Definition setSurfaceState (projectId : ProjectId) (id : SessionId) (surface : SurfaceId) (state : SurfaceState) : prog Session :=
  mutate_ projectId id (pure_apply (surface_state_fn (surface_name surface) state)).

(** *** Sandbox, heartbeat and status *)

Definition reclaimed_fn (at_ : Timestamp) (expectedSandboxId : option SandboxId) (s : Session) : option Session :=
  if match truthy expectedSandboxId with Some e => negb (ses_sandbox_id s === Some e) | None => false end
  then None else Some (s <| ses_sandbox_reclaimed_at := Some at_ |>).
Definition markSandboxReclaimed (projectId : ProjectId) (id : SessionId) (at_ : Timestamp)
    (expectedSandboxId : option SandboxId) : prog Session :=
  mutate_ projectId id (pure_apply (reclaimed_fn at_ expectedSandboxId)).

Definition replace_sandbox_fn (expectedSandboxId sandboxId : SandboxId) (s : Session) : prog (unit * option Session) :=
  if negb (ses_status s === Starting) || negb (ses_sandbox_id s === Some expectedSandboxId)
  then Throw (ConflictError "The starting session sandbox changed")
  else mret (tt, Some (s <| ses_sandbox_id := Some sandboxId |> <| ses_sandbox_reclaimed_at := None |>)).
Definition replaceStartingSandbox (projectId : ProjectId) (id : SessionId) (expectedSandboxId sandboxId : SandboxId)
    : prog Session :=
  mutate_ projectId id (replace_sandbox_fn expectedSandboxId sandboxId).

Definition markTakeoverCaptureCompleted (projectId : ProjectId) (id : SessionId) (at_ : Timestamp) : prog Session :=
  mutate_ projectId id (pure_apply (fun s => Some (s <| ses_takeover_capture_completed_at := Some at_ |>))).

Definition beat_due (now : Z) (s : Session) : bool :=
  negb (negb (ses_status s === Running) || isPastAuthorizationDeadline s now) &&
  negb (num_cmp Z.ltb (silence now s) (Some HEARTBEAT_PERSIST_INTERVAL_MS)).
Definition session_heartbeat_fn (s : Session) : prog (unit * option Session) :=
  now ← now_ms;
  mret (tt, if beat_due now s then Some (s <| ses_last_heartbeat := toISOString now |>) else None).
Definition session_heartbeat (projectId : ProjectId) (id : SessionId) : prog Session :=
  mutate_ projectId id session_heartbeat_fn.

(** The secondary surfaces of a session that starts terminating are stopping. *)
Fixpoint stop_surfaces (now : Timestamp) (l : list (string * SurfaceState)) : prog (list (string * SurfaceState)) :=
  match l with
  | [] => mret []
  | (surface, state) :: l' =>
      state' ←
        (if (surface === "marimo") ||
            (negb (sf_status state === SfStarting) && negb (sf_status state === SfReady) && negb (sf_status state === SfStopping))
         then mret state
         else attempt ← randomUUID; mret (stopping_surface attempt now (cancelled_attempt state)));
      rest ← stop_surfaces now l';
      mret ((surface, state') :: rest)
  end.

(** The [attribution] of a takeover: by whom. *)
Definition terminate_fn (attribution : option UserId) (s : Session) : prog (bool * option Session) :=
  match SessionState.nextStatus (ses_status s) SessionState.EvTerminate with
  | None => mret (false, None)
  | Some next =>
      now ← nowIso;
      surfaces ← stop_surfaces now (ses_surfaces s ?? []);
      mret (true, Some
        (s <| ses_status := next |> <| ses_terminating_at := Some now |>
           <| ses_surfaces := match ses_surfaces s with Some _ => Some surfaces | None => None end |>
           <| ses_ended_reason := match attribution with Some _ => Some EndedByTakeover | None => ses_ended_reason s end |>
           <| ses_ended_by_user_id := or_keep attribution (ses_ended_by_user_id s) |>))
  end.
Definition beginTerminating (projectId : ProjectId) (id : SessionId) (attribution : option UserId) : prog (bool * Session) :=
  mutate_session projectId id (terminate_fn attribution).

Definition terminated_fn (s : Session) : option Session :=
  if SessionState.isTerminal (ses_status s) && match truthy (ses_terminating_at s) with Some _ => false | None => true end
  then None
  else Some (s <| ses_status := if SessionState.isTerminal (ses_status s) then ses_status s else Terminated |>
               <| ses_terminating_at := None |>).
Definition markTerminated (projectId : ProjectId) (id : SessionId) : prog Session :=
  mutate_ projectId id (pure_apply terminated_fn).
Definition terminate (projectId : ProjectId) (id : SessionId) : prog Session := markTerminated projectId id.

Definition failed_fn (error : option SessionError) (s : Session) : option Session :=
  if closing s then None else Some (s <| ses_status := Failed |> <| ses_error := or_keep error (ses_error s) |>).
Definition markFailedWithOutcome (projectId : ProjectId) (id : SessionId) (error : option SessionError) : prog (Session * bool) :=
  r ← mutateM (session_key projectId id) (pure_apply (failed_fn error))
        (Some (NotFoundError ("Session " +:+ id +:+ " not found")));
  mret (value _ r.2, written _ r.2).
Definition markFailed (projectId : ProjectId) (id : SessionId) (error : option SessionError) : prog Session :=
  r ← markFailedWithOutcome projectId id error; mret r.1.

Definition connections_fn (activeConnections : Z) (at_ : Timestamp) (s : Session) : option Session :=
  Some (s <| ses_active_connections := Some activeConnections |> <| ses_connections_checked_at := Some at_ |>).
Definition markConnections (projectId : ProjectId) (id : SessionId) (activeConnections : Z) (at_ : Timestamp) : prog Session :=
  mutate_ projectId id (pure_apply (connections_fn activeConnections at_)).

(** ** Scans *)

(** [EtagRecordCache.get] and [EtagRecordCache.set] *)
Definition record_cache_get (k : key) (etag : string) : prog (option Session) :=
  if etag === "" then mret None
  else
    entry ← call (OCacheGet k);
    mret (match entry with Some (etag', v) => if etag' === etag then Some v else None | None => None end).
Definition record_cache_set (k : key) (etag : string) (v : Session) : prog unit :=
  if etag === "" then mret tt else call (OCacheSet k (etag, v)).

(** The record of one listed object with the tag it was read at; [None] is [SKIP].
    A vanished object also leaves the cache ([recordCache.delete]): since a cache read
    may always miss ([OCacheGet] answers [None] in any state), the deletion adds no
    behaviour and has no call of its own. *)
Definition scan_one (throwing : bool) (obj : info) : prog (option (Session * string)) :=
  cached ← record_cache_get (i_key obj) (i_etag obj);
  match cached with
  | Some session => mret (Some (session, i_etag obj))
  | None =>
      body ← call (OGet (i_key obj));
      match body with
      | None => mret None
      | Some o =>
          match parse (o_body o) with
          | None => if throwing : bool then Throw (StoredObjectError (i_key obj)) else mret None
          | Some session =>
              record_cache_set (i_key obj) (o_etag o) session ≫= fun _ => mret (Some (session, o_etag o))
          end
      end
  end.

Fixpoint scan_objects {T} (handle : Session -> info -> string -> prog T) (throwing : bool) (objects : list info)
    : prog (list T) :=
  match objects with
  | [] => mret []
  | obj :: objects' =>
      r ← scan_one throwing obj;
      t ← match r with Some (session, etag) => x ← handle session obj etag; mret [x] | None => mret [] end;
      rest ← scan_objects handle throwing objects';
      mret (t ++ rest)
  end.

Section Fuel.
(** Bounds the pages of a listing. *)
Context (fuel : nat).

Definition scanPrefix {T} (prefix : string) (handle : Session -> info -> string -> prog T) (throwing : bool) : prog (list T) :=
  objects ← listAllObjects fuel prefix;
  scan_objects handle throwing objects.

Definition whole_record (s : Session) (_ : info) (_ : string) : prog Session := mret s.

Definition scanSessions {T} (handle : Session -> info -> string -> prog T) : prog (list T) :=
  scanPrefix sessionsPrefix handle false.
Definition scanProject {T} (projectId : ProjectId) (handle : Session -> info -> string -> prog T) : prog (list T) :=
  scanPrefix (sessionsForProject projectId) handle false.

Definition of_notebook (notebookId : option NotebookId) (l : list Session) : list Session :=
  match notebookId with Some nid => List.filter (fun s => ses_notebook_id s === nid) l | None => l end.

Definition listSessions (notebookId : option NotebookId) : prog (list Session) :=
  sessions ← scanSessions whole_record; mret (of_notebook notebookId sessions).
Definition listByProject (projectId : ProjectId) (notebookId : option NotebookId) : prog (list Session) :=
  sessions ← scanPrefix (sessionsForProject projectId) whole_record true; mret (of_notebook notebookId sessions).
Definition listPresentByProject (projectId : ProjectId) : prog (list Session) :=
  sessions ← scanProject projectId whole_record;
  mret (List.filter (fun s => includes (ses_status s) SessionState.PRESENT_STATUSES) sessions).

(** A sandbox whose reclamation is not confirmed *)
Definition holds_sandbox (s : Session) : bool :=
  match ses_sandbox_id s with Some _ => true | None => false end &&
  match ses_sandbox_reclaimed_at s with Some _ => false | None => true end.

Definition blocks_source_update (notebookId : NotebookId) (s : Session) : bool :=
  (ses_notebook_id s === notebookId) && SessionState.sessionPersistsEdits (ses_mode s) (ses_ephemeral s) &&
  (negb (SessionState.isTerminal (ses_status s)) || holds_sandbox s).
Definition listEditorsBlockingSourceUpdate (projectId : ProjectId) (notebookId : NotebookId) : prog (list Session) :=
  sessions ← scanPrefix (sessionsForProject projectId) whole_record true;
  mret (List.filter (blocks_source_update notebookId) sessions).

Definition protected_by (notebookId : NotebookId) (s : Session) : list VersionId :=
  if ses_notebook_id s === notebookId then match truthy (ses_source_version_id s) with Some v => [v] | None => [] end else [].
Definition pool_versions (pool : option AppPool) : list VersionId :=
  match pool with Some P => omap (fun m => truthy (m_source_version_id m)) (members P) | None => [] end.
Definition listProtectedVersionIds (projectId : ProjectId) (notebookId : NotebookId) : prog (list VersionId) :=
  sessions ← listPresentByProject projectId;
  pool ← AppPool.read projectId notebookId;
  mret (js_set (flat_map (protected_by notebookId) sessions ++ pool_versions pool)).

(** [readForInspection] and [inspectSessions]: what cannot be read makes the answer incomplete. *)
Definition readForInspection (k : key) : prog (option Session) :=
  catch (object ← call (OGet k);
         match object with Some o => s ← readStored o k; mret (Some s) | None => mret None end)
        (fun _ => mret None).
Fixpoint inspect_objects (objects : list info) : prog (list Session * bool) :=
  match objects with
  | [] => mret ([], false)
  | object :: objects' =>
      record ← readForInspection (i_key object);
      '(rest, incomplete) ← inspect_objects objects';
      mret (match record with
            | Some r => if i_key object === session_key (ses_project_id r) (ses_session_id r)
                        then (r :: rest, incomplete) else (rest, true)
            | None => (rest, true)
            end)
  end.
Definition inspectSessions : prog (list Session * bool) :=
  objects ← listAllObjects fuel sessionsPrefix; inspect_objects objects.

(** Active sessions and their order for the caps *)
Section Caps.
Context (localeCompare : string -> string -> Z).

Definition byCapOrder (a b : Session) : Z :=
  let late s := if ses_status s === Running then 0%Z else 1%Z in
  let admission := (late a - late b)%Z in
  if negb (admission =? 0)%Z then admission
  else let started := localeCompare (ses_started_at a) (ses_started_at b) in
       if negb (started =? 0)%Z then started
       else localeCompare (ses_session_id a) (ses_session_id b).
Definition in_cap_order : list Session -> list Session := js_sort (fun a b => byCapOrder a b <=? 0)%Z.

Definition cap_is (c : SessionState.CapScope) (s : Session) : bool :=
  match c, SessionState.capScope (SessionState.sessionModePolicy (ses_mode s)) with
  | SessionState.CapUser, SessionState.CapUser | SessionState.CapProject, SessionState.CapProject => true
  | _, _ => false
  end.
Definition active (s : Session) : bool := includes (ses_status s) SessionState.ACTIVE_STATUSES.
Definition counts_for_user (userId : UserId) (c : SessionState.CapScope) (s : Session) : bool :=
  (ses_user_id s === userId) &&
  (active s || (match c with SessionState.CapProject => true | SessionState.CapUser => false end && holds_sandbox s)) &&
  cap_is c s.

Definition listActiveForUser (userId : UserId) (c : SessionState.CapScope) : prog (list Session) :=
  sessions ← listSessions None;
  mret (in_cap_order (List.filter (counts_for_user userId c) sessions)).
Definition countActiveForUser (userId : UserId) (c : SessionState.CapScope) : prog nat :=
  l ← listActiveForUser userId c; mret (length l).

Definition counts_for_project (s : Session) : bool :=
  (active s || holds_sandbox s) && cap_is SessionState.CapProject s.
Definition listActiveAppsForProject (projectId : ProjectId) : prog (list Session) :=
  sessions ← scanProject projectId whole_record;
  mret (in_cap_order (List.filter counts_for_project sessions)).
Definition countActiveAppsForProject (projectId : ProjectId) : prog nat :=
  l ← listActiveAppsForProject projectId; mret (length l).
End Caps.

(** ** Expiry and reaping *)

(** The pool reader of [AppPoolStore.reader] reads each pool once per pass. *)
Definition read_pool_once (projectId : ProjectId) (notebookId : NotebookId) (seen : list (key * option AppPool))
    : prog (option AppPool * list (key * option AppPool)) :=
  match obj_get (appPool projectId notebookId) seen with
  | Some pool => mret (pool, seen)
  | None => pool ← AppPool.read projectId notebookId; mret (pool, (appPool projectId notebookId, pool) :: seen)
  end.

(** [expired] of one record, with the pools read so far *)
Definition expire_one (now : Z) (session : Session) (obj : info) (etag : string) (seen : list (key * option AppPool))
    : prog (bool * list (key * option AppPool)) :=
  if SessionState.isTerminal (ses_status session) then mret (false, seen)
  else
    '(managed, seen) ←
      (if (SessionState.sessionMode (ses_mode session) === App) && negb (ses_status session === Terminating) then
         '(pool, seen) ← read_pool_once (ses_project_id session) (ses_notebook_id session) seen;
         mret (match pool with
               | Some P => existsb (fun m => m_session_id m === ses_session_id session) (members P)
               | None => false
               end, seen)
       else mret (false, seen));
    if managed : bool then mret (false, seen)
    else if negb (silent_for now HEARTBEAT_TTL_MS session) then mret (false, seen)
    else match SessionState.nextStatus (ses_status session) SessionState.EvExpire with
         | None => mret (false, seen)
         | Some target =>
             handle (call (OPut (i_key obj) (stringify (session <| ses_status := target |>)) (onlyIfEtagMatches etag))) (fun r =>
               match r with
               | Ok _ => mret (true, seen)
               | Err PreconditionFailedError => mret (false, seen)
               | Err err => Throw err
               end)
         end.

Fixpoint expire_objects (now : Z) (objects : list info) (seen : list (key * option AppPool)) : prog nat :=
  match objects with
  | [] => mret 0
  | obj :: objects' =>
      r ← scan_one false obj;
      '(n, seen) ← match r with
                   | Some (session, etag) => '(e, seen) ← expire_one now session obj etag seen;
                                             mret (if e : bool then 1 else 0, seen)
                   | None => mret (0, seen)
                   end;
      rest ← expire_objects now objects' seen;
      mret (n + rest)
  end.

Definition expireStale : prog nat :=
  now ← now_ms;
  objects ← listAllObjects fuel sessionsPrefix;
  expire_objects now objects [].

Definition reapable (now retentionMs : Z) (s : Session) : bool :=
  SessionState.isTerminal (ses_status s) && negb (holds_sandbox s) && silent_for now retentionMs s.
Definition reap_candidate (now retentionMs : Z) (s : Session) (obj : info) (_ : string) : prog (option key) :=
  mret (if reapable now retentionMs s then Some (i_key obj) else None).

Definition reapTerminated (retentionMs : option Z) : prog nat :=
  now ← now_ms;
  candidates ← scanSessions (reap_candidate now (retentionMs ?? TERMINAL_RETENTION_MS));
  match omap id candidates with
  | [] => mret 0
  | toDelete => call (ODelete toDelete) ≫= fun _ => mret (length toDelete)
  end.

(** ** Moving a notebook *)

Definition blocks_move (notebookIds : list NotebookId) (s : Session) : bool :=
  includes (ses_notebook_id s) notebookIds && (negb (SessionState.isTerminal (ses_status s)) || holds_sandbox s).
Definition assertReadyForMove (projectId : ProjectId) (notebookIds : list NotebookId) : prog unit :=
  sessions ← listByProject projectId None;
  if existsb (blocks_move notebookIds) sessions
  then Throw (ConflictError "Stop notebook and preview sessions before moving") else mret tt.
End Fuel.

(** [copyMoveObject] without a transformation; the digests compare contents. *)
Definition copyMoveObject (source destination : key) : prog unit :=
  object ← call (OGet source);
  match object with
  | None => mret tt
  | Some o =>
      metadata ← call (OHead source);
      if negb ((i_etag <$> metadata) === Some (o_etag o)) then Throw (ConflictError "The move source changed while copying")
      else handle (call (OPut destination (o_body o) onlyIfNotExists)) (fun r =>
        match r with
        | Ok _ => mret tt
        | Err PreconditionFailedError =>
            existing ← call (OGet destination);
            existingMetadata ← call (OHead destination);
            match existing, existingMetadata with
            | Some e, Some m => if (i_etag m === o_etag e) && (o_body e === o_body o) then mret tt
                                else Throw (ConflictError "The move destination contains different data")
            | _, _ => Throw (ConflictError "The move destination contains different data")
            end
        | Err error => Throw error
        end)
  end.

Definition copyPruneCutoffForMove (source destination : ProjectId) (nid : NotebookId) : prog unit :=
  copyMoveObject (versionPruneCutoff_key source nid) (versionPruneCutoff_key destination nid).
Definition finish_session_move (source : ProjectId) (nid : NotebookId) : prog unit :=
  call (ODelete [editorClaim source nid; appClaim source nid; versionPruneCutoff_key source nid]).
End Sessions.
