(* ===== verification/EditorClaims.v ===== *)
(** * Session service: claims

    [packages/core/src/services/runtime/SessionService.ts], the operations on the editor
    claim of a notebook (one persistent editor at a time, taken over by request, drain
    and replacement), on the legacy app claim, and the lookups of a session to attach
    to.  Metrics and logs are not modelled. *)

From Stdlib Require Import ZArith Lia.
From S2P Require Import Prelude Constants Lifecycle Schema UtcDate Store Cas CasEffects Storage SessionData AppPoolRouter AppPool SessionService.

Definition TAKEOVER_REQUEST_TTL_MS : Z := minutes 5.
Definition TAKEOVER_DRAIN_LEASE_MS : Z := minutes 10.
Definition TAKEOVER_DRAIN_PROGRESS_TIMEOUT_MS : Z := minutes 30.

(** [TAKEOVER_DRAIN_STAGE_ORDER] *)
Definition TAKEOVER_DRAIN_STAGE_ORDER (s : TakeoverDrainStage) : Z :=
  match s with Capturing => 0 | Snapshotting => 1 | Destroying => 2 | Finalizing => 3 end.

Definition persistent_editor (s : Session) : bool :=
  (SessionState.sessionMode (ses_mode s) === Edit) && negb (ses_ephemeral s ?? false).

Section Claims.
Context {B : Type} `{!EqDecision B}.
Context {CSe : Codec B Session} {CEd : Codec B EditorClaim} {CAc : Codec B AppClaim}.
Local Abbreviation V := (string * Session)%type (only parsing).
Local Notation prog := (prog B V).
Context (fuel : nat).

(** [editChanged]: the default message of [EditSessionChangedError] *)
Definition edit_changed : error V := EditSessionChangedError "The editing session changed; refresh before taking over".

(** ** The takeover steps on a claim *)

Definition takeover_is (takeoverId : string) (claim : EditorClaim) : option Transfer :=
  match ec_transfer claim with
  | Some t => if tr_takeover_id t === takeoverId then Some t else None
  | None => None
  end.
Definition with_transfer (t : Transfer) (claim : EditorClaim) : EditorClaim := claim <| ec_transfer := Some t |>.

(** The four lease fields set to [undefined]. *)
Definition without_lease (t : Transfer) : Transfer :=
  t <| tr_drain_lease_id := None |> <| tr_drain_lease_expires_at := None |>
    <| tr_drain_lease_stage := None |> <| tr_drain_lease_progress_deadline_at := None |>.

Definition request_expired (now : Z) (t : Transfer) : bool :=
  (tr_phase t === PhRequested) &&
  num_cmp Z.leb (Some TAKEOVER_REQUEST_TTL_MS) ((fun r => now - r)%Z <$> date_parse (tr_requested_at t)).

Record TakeoverInput := {
  ti_takeoverId : string; ti_requestedBy : UserId; ti_expectedHolder : SessionId; ti_expectedActivity : ExpectedActivity;
}.

Definition new_transfer (input : TakeoverInput) (now : Timestamp) : Transfer := {|
  tr_takeover_id := ti_takeoverId input; tr_requested_by := ti_requestedBy input;
  tr_expected_activity := ti_expectedActivity input; tr_phase := PhRequested; tr_requested_at := now;
  tr_drain_lease_id := None; tr_drain_lease_expires_at := None; tr_drain_lease_stage := None;
  tr_drain_lease_progress_deadline_at := None; tr_replacement_session_id := None; tr_extra := [];
|}.

Definition reserve_fn (input : TakeoverInput) (claim : EditorClaim) : prog (unit * option EditorClaim) :=
  match takeover_is (ti_takeoverId input) claim with
  | Some t =>
      if negb (tr_requested_by t === ti_requestedBy input) || negb (ec_session_id claim === Some (ti_expectedHolder input)) ||
         negb (tr_expected_activity t === ti_expectedActivity input)
      then Throw (EditSessionChangedError "The takeover ID was already used for another state")
      else mret (tt, None)
  | None =>
      blocked ← match ec_transfer claim with
                | None => mret false
                | Some t => if tr_phase t === PhRequested then now ← now_ms; mret (negb (request_expired now t)) else mret true
                end;
      if blocked : bool then Throw TakeoverInProgressError
      else if negb (ec_session_id claim === Some (ti_expectedHolder input)) then Throw edit_changed
      else now ← nowIso; mret (tt, Some (with_transfer (new_transfer input now) claim))
  end.

(** [setTakeoverPhase] moves to [draining] or [ready]. *)
Inductive NextPhase := ToDraining | ToReady.
Definition phase_fn (takeoverId : string) (phase : NextPhase) (replacement : option SessionId) (claim : EditorClaim)
    : prog (unit * option EditorClaim) :=
  match takeover_is takeoverId claim with
  | None => Throw edit_changed
  | Some t =>
      let t' := match phase with
                | ToDraining => t <| tr_phase := PhDraining |>
                | ToReady => without_lease (t <| tr_phase := PhReady |>)
                end in
      mret (tt, Some (with_transfer (t' <| tr_replacement_session_id := or_keep (truthy replacement) (tr_replacement_session_id t) |>) claim))
  end.

(** The transfer if it is this takeover's and draining. *)
Definition draining (takeoverId : string) (claim : EditorClaim) : option Transfer :=
  match takeover_is takeoverId claim with
  | Some t => if tr_phase t === PhDraining then Some t else None
  | None => None
  end.

Definition lease_active (now : Z) (t : Transfer) : bool :=
  match truthy (tr_drain_lease_id t), truthy (tr_drain_lease_expires_at t) with
  | Some _, Some e => num_cmp Z.ltb (Some now) (date_parse e)
  | _, _ => false
  end.

Definition acquire_lease_fn (takeoverId leaseId : string) (claim : EditorClaim) : prog (unit * option EditorClaim) :=
  match draining takeoverId claim with
  | None => Throw edit_changed
  | Some t =>
      checked ← now_ms;
      if lease_active checked t then mret (tt, None)
      else
        now ← now_ms;
        mret (tt, Some (with_transfer
          (t <| tr_drain_lease_id := Some leaseId |>
             <| tr_drain_lease_expires_at := Some (toISOString (now + TAKEOVER_DRAIN_LEASE_MS)) |>
             <| tr_drain_lease_stage := Some Capturing |>
             <| tr_drain_lease_progress_deadline_at := Some (toISOString (now + TAKEOVER_DRAIN_PROGRESS_TIMEOUT_MS)) |>) claim))
  end.

Definition after_opt (t : option Timestamp) (now : Z) : bool := num_cmp Z.ltb (Some now) (date_parse_opt t).

Definition renew_lease_fn (takeoverId leaseId : string) (claim : EditorClaim) : prog (unit * option EditorClaim) :=
  match draining takeoverId claim with
  | None => Throw edit_changed
  | Some t =>
      now ← now_ms;
      mret (tt,
        match date_parse_opt (tr_drain_lease_expires_at t),
              date_parse_opt (or_keep (tr_drain_lease_progress_deadline_at t) (tr_drain_lease_expires_at t)) with
        | Some expiresAt, Some progressDeadline =>
            if negb (tr_drain_lease_id t === Some leaseId) || (expiresAt <=? now)%Z || (progressDeadline <=? now)%Z then None
            else Some (with_transfer (t <| tr_drain_lease_expires_at :=
                   Some (toISOString (Z.min (now + TAKEOVER_DRAIN_LEASE_MS) progressDeadline)) |>) claim)
        | _, _ => None
        end)
  end.

Definition advance_lease_fn (takeoverId leaseId : string) (stage : TakeoverDrainStage) (claim : EditorClaim)
    : prog (unit * option EditorClaim) :=
  match draining takeoverId claim with
  | None => Throw edit_changed
  | Some t =>
      now ← now_ms;
      mret (tt,
        if negb (tr_drain_lease_id t === Some leaseId) || negb (after_opt (tr_drain_lease_expires_at t) now) then None
        else if match tr_drain_lease_stage t with
                | Some cur => (TAKEOVER_DRAIN_STAGE_ORDER stage <=? TAKEOVER_DRAIN_STAGE_ORDER cur)%Z
                | None => false
                end then None
        else Some (with_transfer
          (t <| tr_drain_lease_stage := Some stage |>
             <| tr_drain_lease_expires_at := Some (toISOString (now + TAKEOVER_DRAIN_LEASE_MS)) |>
             <| tr_drain_lease_progress_deadline_at := Some (toISOString (now + TAKEOVER_DRAIN_PROGRESS_TIMEOUT_MS)) |>) claim))
  end.

Definition finish_lease_fn (takeoverId leaseId : string) (claim : EditorClaim) : prog (unit * option EditorClaim) :=
  match draining takeoverId claim with
  | Some t => if tr_drain_lease_id t === Some leaseId
              then mret (tt, Some (with_transfer (without_lease (t <| tr_phase := PhReady |>)) claim))
              else Throw edit_changed
  | None => Throw edit_changed
  end.

Definition release_lease_fn (takeoverId leaseId : string) (claim : EditorClaim) : option EditorClaim :=
  match takeover_is takeoverId claim with
  | Some t => if tr_drain_lease_id t === Some leaseId then Some (with_transfer (without_lease t) claim) else None
  | None => None
  end.

Definition complete_takeover_fn (takeoverId : string) (replacement : SessionId) (claim : EditorClaim)
    : prog (unit * option EditorClaim) :=
  match takeover_is takeoverId claim with
  | Some t =>
      if (tr_phase t === PhReady) && (tr_replacement_session_id t === Some replacement) then
        now ← nowIso;
        mret (tt, Some (claim <| ec_session_id := Some replacement |> <| ec_sharing := Exclusive |>
                              <| ec_claimed_at := now |> <| ec_transfer := None |>))
      else Throw edit_changed
  | None => Throw edit_changed
  end.

Definition cancel_fn (takeoverId : string) (claim : EditorClaim) : option EditorClaim :=
  match takeover_is takeoverId claim with
  | Some t => if tr_phase t === PhRequested then Some (claim <| ec_transfer := None |>) else None
  | None => None
  end.

Section Notebook.
Context (projectId : ProjectId) (notebookId : NotebookId).

(** [mutateObject] and [mutateObjectWithOutcome] on the claim *)
Definition mutate_claim (apply : EditorClaim -> prog (unit * option EditorClaim)) : prog (ObjectMutationOutcome EditorClaim) :=
  r ← mutateM (editorClaim projectId notebookId) apply None; mret r.2.

Definition reserveTakeoverWithOutcome (input : TakeoverInput) : prog (ObjectMutationOutcome EditorClaim) :=
  mutate_claim (reserve_fn input).
Definition reserveTakeover (input : TakeoverInput) : prog EditorClaim :=
  o ← reserveTakeoverWithOutcome input; mret (value _ o).
Definition setTakeoverPhase (takeoverId : string) (phase : NextPhase) (replacement : option SessionId) : prog EditorClaim :=
  o ← mutate_claim (phase_fn takeoverId phase replacement); mret (value _ o).

Definition holds_lease (leaseId : string) (now : Z) (claim : EditorClaim) : bool :=
  match ec_transfer claim with
  | Some t => (tr_drain_lease_id t === Some leaseId) && after_opt (tr_drain_lease_expires_at t) now
  | None => false
  end.
Definition acquireTakeoverDrainLease (takeoverId leaseId : string) : prog bool :=
  o ← mutate_claim (acquire_lease_fn takeoverId leaseId);
  now ← now_ms;
  mret (holds_lease leaseId now (value _ o)).
Definition renewTakeoverDrainLease (takeoverId leaseId : string) : prog bool :=
  o ← mutate_claim (renew_lease_fn takeoverId leaseId); mret (written _ o).
Definition advanceTakeoverDrainLease (takeoverId leaseId : string) (stage : TakeoverDrainStage) : prog bool :=
  o ← mutate_claim (advance_lease_fn takeoverId leaseId stage);
  now ← now_ms;
  mret (holds_lease leaseId now (value _ o) &&
        match ec_transfer (value _ o) with Some t => tr_drain_lease_stage t === Some stage | None => false end).
Definition finishTakeoverDrainLease (takeoverId leaseId : string) : prog unit :=
  mutate_claim (finish_lease_fn takeoverId leaseId) ≫= fun _ => mret tt.
Definition releaseTakeoverDrainLease (takeoverId leaseId : string) : prog unit :=
  catch (mutate_claim (pure_apply (release_lease_fn takeoverId leaseId)) ≫= fun _ => mret tt) (fun _ => mret tt).
Definition completeTakeover (takeoverId : string) (replacement : SessionId) : prog EditorClaim :=
  o ← mutate_claim (complete_takeover_fn takeoverId replacement); mret (value _ o).
Definition cancelRequestedTakeover (takeoverId : string) : prog unit :=
  catch (mutate_claim (pure_apply (cancel_fn takeoverId)) ≫= fun _ => mret tt) (fun _ => mret tt).

(** ** The claim and its holder *)

Definition read_claim : prog (option EditorClaim) :=
  let k := editorClaim projectId notebookId in
  obj ← call (OGet k);
  match obj with Some o => c ← readStored o k; mret (Some c) | None => mret None end.

Definition getEditorClaim : prog (option EditorClaim) :=
  claim ← read_claim;
  match claim with
  | None => mret None
  | Some c =>
      match ec_transfer c with
      | Some t =>
          if tr_phase t === PhRequested then
            now ← now_ms;
            if request_expired now t then cancelRequestedTakeover (tr_takeover_id t) ≫= fun _ => read_claim
            else mret (Some c)
          else mret (Some c)
      | None => mret (Some c)
      end
  end.

(** [known] is a claim the caller has read already. *)
Definition resolveEditorClaim (known : option (option EditorClaim)) : prog (option EditorClaim) :=
  match known with
  | Some c => if (c ≫= fun c => tr_phase <$> ec_transfer c) === Some PhRequested then getEditorClaim else mret c
  | None => getEditorClaim
  end.

Definition editorClaimHolder (claim : EditorClaim) (requestedBy : option UserId) : result (error V) (option SessionId) :=
  match ec_transfer claim with
  | None => Ok (ec_session_id claim)
  | Some t => if negb (tr_phase t === PhReady) || negb (Some (tr_requested_by t) === requestedBy)
              then Err TakeoverInProgressError else Ok (tr_replacement_session_id t)
  end.

(** Being torn down, and neither confirmed gone nor past the provider's bound *)
Definition retiring (s : Session) (now : Z) : bool :=
  holds_sandbox s &&
  match truthy (ses_sandbox_deadline_at s) with
  | None => true
  | Some d => num_cmp Z.ltb (Some now) (date_parse d)
  end &&
  closing s.

(** [try { getSession } catch NotFoundError] *)
Definition findSession (id : SessionId) : prog (option Session) :=
  catch (s ← getSession projectId id; mret (Some s))
        (fun err => match err with NotFoundError _ => mret None | err => Throw err end).

Definition getLiveEditorHolder (holder : option SessionId) : prog (option Session) :=
  match truthy holder with
  | None => mret None
  | Some h =>
      s ← findSession h;
      match s with
      | None => mret None
      | Some session =>
          if negb (ses_notebook_id session === notebookId) || negb (persistent_editor session) then mret None
          else
            now ← now_ms;
            if isReusableSession session now then mret (Some session)
            else now ← now_ms; mret (if retiring session now then Some session else None)
      end
  end.

Definition isClaimRetiring (requestedBy : UserId) (known : option (option EditorClaim)) : prog bool :=
  claim ← resolveEditorClaim known;
  match claim with
  | None => mret false
  | Some c =>
      h ← lift (editorClaimHolder c (Some requestedBy));
      holder ← getLiveEditorHolder h;
      match holder with
      | None => mret false
      | Some s => now ← now_ms; mret (negb (isReusableSession s now))
      end
  end.

(** *** Acquiring and releasing *)

Record ClaimResult := { cl_claimed : bool; cl_claim : EditorClaim }.

Definition claim_editor_attempt (sessionId : SessionId) (sharing : EditorSandboxSharing) (requestedBy : option UserId)
    : prog ClaimResult :=
  let k := editorClaim projectId notebookId in
  obj ← call (OGet k);
  now ← nowIso;
  match obj with
  | None =>
      let next := {| ec_session_id := Some sessionId; ec_sharing := sharing; ec_claimed_at := now;
                     ec_transfer := None; ec_extra := [] |} in
      cas_put k (stringify next) onlyIfNotExists ≫= fun _ => mret {| cl_claimed := true; cl_claim := next |}
  | Some o =>
      current ← readStored (T := EditorClaim) o k;
      if ec_session_id current === Some sessionId then mret {| cl_claimed := true; cl_claim := current |}
      else
        holder ← lift (editorClaimHolder current requestedBy);
        if holder === Some sessionId then mret {| cl_claimed := true; cl_claim := current |}
        else
          liveHolder ← getLiveEditorHolder holder;
          match liveHolder with
          | Some s => mret {| cl_claimed := false; cl_claim := current <| ec_session_id := Some (ses_session_id s) |> |}
          | None =>
              let next := match ec_transfer current with
                          | Some t => with_transfer (t <| tr_replacement_session_id := Some sessionId |>) current
                          | None => current <| ec_session_id := Some sessionId |> <| ec_sharing := sharing |>
                                            <| ec_claimed_at := now |> <| ec_transfer := None |>
                          end in
              cas_put k (stringify next) (onlyIfEtagMatches (o_etag o)) ≫= fun _ =>
              mret {| cl_claimed := true; cl_claim := next |}
          end
  end.

Definition claimEditor (sessionId : SessionId) (sharing : EditorSandboxSharing) (requestedBy : option UserId) : prog ClaimResult :=
  withCasRetry (claim_editor_attempt sessionId sharing requestedBy) no_retry_options.

Definition release_editor (sessionId : SessionId) : prog unit :=
  let k := editorClaim projectId notebookId in
  obj ← call (OGet k);
  match obj with
  | None => mret tt
  | Some o =>
      claim ← readStored (T := EditorClaim) o k;
      if negb (ec_session_id claim === Some sessionId) || match ec_transfer claim with Some _ => true | None => false end
      then mret tt
      else now ← nowIso;
           call (OPut k (stringify (claim <| ec_session_id := None |> <| ec_claimed_at := now |>))
                        (onlyIfEtagMatches (o_etag o))) ≫= fun _ => mret tt
  end.
End Notebook.

(** A lost race and any other failure alike leave the claim as it is. *)
Definition releaseEditorFor (s : Session) : prog unit :=
  if negb (persistent_editor s) then mret tt
  else catch (release_editor (ses_project_id s) (ses_notebook_id s) (ses_session_id s)) (fun _ => mret tt).

(** The editors that could own a notebook without a claim. *)
Definition legacy_candidate (session item : Session) : bool :=
  (ses_notebook_id item === ses_notebook_id session) && persistent_editor item && holds_sandbox item &&
  ((ses_session_id item === ses_session_id session) || negb (SessionState.isTerminal (ses_status item)) ||
   (ses_status item === Expired)).

Definition ownsEditorClaim (session : Session) : prog bool :=
  let pid := ses_project_id session in let nid := ses_notebook_id session in
  claim ← getEditorClaim pid nid;
  match truthy (claim ≫= ec_session_id) with
  | Some h => mret (h === ses_session_id session)
  | None =>
      if match claim ≫= ec_transfer with Some _ => true | None => false end || negb (persistent_editor session) then mret false
      else
        items ← scanProject fuel pid whole_record;
        match List.filter (legacy_candidate session) items with
        | [c] =>
            if ses_session_id c === ses_session_id session then
              adopted ← claimEditor pid nid (ses_session_id session)
                          (ses_editor_sandbox_sharing session ?? Shared) (Some (ses_user_id session));
              mret (ec_session_id (cl_claim adopted) === Some (ses_session_id session))
            else mret false
        | _ => mret false
        end
  end.

(** ** Sessions to attach to *)

(** The legacy app claim as a singleton claim ([cas.ts]) *)
Definition holdsLiveApp (projectId : ProjectId) (notebookId : NotebookId) (holder : string) : prog bool :=
  s ← findSession projectId holder;
  match s with
  | None => mret false
  | Some session =>
      if negb (ses_notebook_id session === notebookId) ||
         negb (SessionState.sharedApp (SessionState.sessionModePolicy (ses_mode session))) then mret false
      else now ← now_ms; mret (isReusableSession session now)
  end.

(** [serialize] stamps the time of the call. *)
Definition appClaimConfig (projectId : ProjectId) (notebookId : NotebookId) (claimedAt : Timestamp) : SingletonClaimConfig := {|
  claim_key := appClaim projectId notebookId;
  serialize := fun holder => stringify {| ac_session_id := holder; ac_claimed_at := claimedAt |};
  parseHolder := fun b => match parse b with
                          | Some c => Ok (ac_session_id c)
                          | None => Err (StoredObjectError (appClaim projectId notebookId))
                          end;
  isHolderLive := holdsLiveApp projectId notebookId;
  claim_retry := no_retry_options;
|}.

Definition claimApp (projectId : ProjectId) (notebookId : NotebookId) (sessionId : SessionId) : prog (bool * SessionId) :=
  now ← nowIso;
  r ← acquireSingletonClaim (appClaimConfig projectId notebookId now) sessionId;
  mret (match r with Acquired _ => (true, sessionId) | HeldBy h => (false, h) end).
Definition releaseApp (projectId : ProjectId) (notebookId : NotebookId) (sessionId : SessionId) : prog unit :=
  now ← nowIso; releaseSingletonClaim (appClaimConfig projectId notebookId now) sessionId None.
Definition releaseAppFor (s : Session) : prog unit :=
  if SessionState.sharedApp (SessionState.sessionModePolicy (ses_mode s))
  then releaseApp (ses_project_id s) (ses_notebook_id s) (ses_session_id s) else mret tt.

Definition has_id (id : SessionId) (s : Session) : bool := ses_session_id s === id.

Definition claimHolderAmong (projectId : ProjectId) (notebookId : NotebookId) (candidates : list Session) : prog (option Session) :=
  let k := appClaim projectId notebookId in
  obj ← call (OGet k);
  mret (match obj ≫= fun o => parse (o_body o) ≫= ac_session_id with
        | Some h => if h === "" then None else List.find (has_id h) candidates
        | None => None
        end).

Section Reuse.
Context (localeCompare : string -> string -> Z).
Context (projectId : ProjectId) (notebookId : NotebookId).

Definition latest_beat_first : list Session -> list Session :=
  js_sort (fun a b => num_cmp Z.leb (date_parse (ses_last_heartbeat b)) (date_parse (ses_last_heartbeat a))).

Definition reuse_candidate (userId : UserId) (mode : SessionMode) (now : Z) (s : Session) : bool :=
  (ses_notebook_id s === notebookId) && (SessionState.sessionMode (ses_mode s) === mode) &&
  (match SessionState.reuseScope (SessionState.MODE_POLICY mode) with
   | SessionState.PerNotebook => true | SessionState.PerUser => ses_user_id s === userId end) &&
  isReusableSession s now.

Definition findReusable (userId : UserId) (mode : SessionMode) : prog (option Session) :=
  now ← now_ms;
  sessions ← scanProject fuel projectId whole_record;
  let candidates := List.filter (reuse_candidate userId mode now) sessions in
  if SessionState.sharedApp (SessionState.MODE_POLICY mode) then claimHolderAmong projectId notebookId candidates
  else mret (head (latest_beat_first candidates)).

Definition getReusableEditor (sessionId : SessionId) : prog (option Session) :=
  s ← findSession projectId sessionId;
  match s with
  | Some session => now ← now_ms; mret (if isReusableSession session now then Some session else None)
  | None => mret None
  end.

Record ReusableEditor := {
  re_session : option Session; re_ownedByOther : option Session; re_takeoverInProgress : bool;
  re_sharing : EditorSandboxSharing;
}.
Definition reuse (s : option Session) (sharing : EditorSandboxSharing) : ReusableEditor :=
  {| re_session := s; re_ownedByOther := None; re_takeoverInProgress := false; re_sharing := sharing |}.
Definition owned (s : option Session) (busy : bool) (sharing : EditorSandboxSharing) : ReusableEditor :=
  {| re_session := None; re_ownedByOther := s; re_takeoverInProgress := busy; re_sharing := sharing |}.

Definition live_editor (now : Z) (s : Session) : bool :=
  (ses_notebook_id s === notebookId) && (SessionState.sessionMode (ses_mode s) === Edit) && isReusableSession s now.

(** A claimed editor as its holder or another user sees it *)
Definition attach (userId : UserId) (sharing : EditorSandboxSharing) (holder : Session) : ReusableEditor :=
  if (sharing === Shared) || (ses_user_id holder === userId) then reuse (Some holder) sharing
  else owned (Some holder) false sharing.

Definition unclaimed (userId : UserId) (sharing : EditorSandboxSharing) (claim : option EditorClaim) (live : list Session)
    : ReusableEditor :=
  match List.find (fun s => ses_user_id s === userId) live with
  | Some mismatched => reuse (Some mismatched) sharing
  | None => reuse None ((ec_sharing <$> claim) ?? sharing)
  end.

Definition claimed_editor (userId : UserId) (claim : EditorClaim) (h : SessionId) (live : list Session) : ReusableEditor :=
  match ec_transfer claim with
  | Some t =>
      if (tr_phase t === PhReady) && (tr_requested_by t === userId) then
        reuse (match truthy (tr_replacement_session_id t) with Some r => List.find (has_id r) live | None => None end) (ec_sharing claim)
      else owned (List.find (has_id h) live) true (ec_sharing claim)
  | None =>
      match List.find (has_id h) live with
      | None => reuse None (ec_sharing claim)
      | Some holder => attach userId (ec_sharing claim) holder
      end
  end.

Definition findReusableEditor (userId : UserId) (sharing : EditorSandboxSharing) (temporary : bool)
    (known : option (option EditorClaim)) : prog ReusableEditor :=
  now ← now_ms;
  sessions ← scanProject fuel projectId whole_record;
  let live := List.filter (live_editor now) sessions in
  if temporary then
    mret (reuse (head (js_sort (fun a b => localeCompare (ses_last_heartbeat b) (ses_last_heartbeat a) <=? 0)%Z
                  (List.filter (fun s => (ses_ephemeral s ?? false) && (ses_user_id s === userId)) live))) sharing)
  else
    claim ← resolveEditorClaim projectId notebookId known;
    match truthy (claim ≫= ec_session_id), claim with
    | Some h, Some c => mret (claimed_editor userId c h live)
    | _, _ =>
        match List.filter (fun s => negb (ses_ephemeral s ?? false)) live with
        | _ :: _ :: _ =>
            Throw (ConflictError "Multiple legacy persistent editor sessions are active; drain them before continuing")
        | [legacy] =>
            adopted ← claimEditor projectId notebookId (ses_session_id legacy)
                        (ses_editor_sandbox_sharing legacy ?? sharing) (Some (ses_user_id legacy));
            if ec_session_id (cl_claim adopted) === Some (ses_session_id legacy)
            then mret (attach userId (ec_sharing (cl_claim adopted)) legacy)
            else mret (unclaimed userId sharing claim live)
        | [] => mret (unclaimed userId sharing claim live)
        end
    end.
End Reuse.
End Claims.
