(* ===== verification/SessionProtocol.v ===== *)
(** * How session records change

    The abstract contract of a session record ([evolves]), the invariant of the stored
    records, and the proof that every operation of [SessionService.v], run by any number
    of replicas with any storage faults, changes records only as the contract says. *)

From Stdlib Require Import ZArith Lia.
From stdpp Require Import relations.
From S2P Require Import Prelude Constants Lifecycle Schema UtcDate Store Cas Storage CasTheorems CasEffects SessionData AppPoolRouter AppPool SessionService.

#[local] Existing Instance SessionState.session_sound.

(** ** The contract of a record *)

(** What no operation changes. *)
Definition identity (s : Session) :=
  (ses_origin s, ses_idle_timeout_ms s, (ses_session_id s, ses_notebook_id s, ses_project_id s, ses_user_id s),
   (ses_started_at s, ses_ephemeral s, ses_restricted_viewer_credentials s, ses_editor_sandbox_sharing s),
   (ses_mode s, ses_source_version_id s, ses_app_pool s, ses_runtime s, ses_kernel_auth_token s),
   (ses_compute_profile s, ses_compute_resources s, ses_compute_from_snapshot s, ses_extra s)).

Record evolves (s s' : Session) : Prop := {
  ev_identity : identity s' = identity s;
  (** along the edges of the session machine *)
  ev_status : Fsm.reachable SessionState.machine (ses_status s) (ses_status s');
  (** the credential's deadline is never extended or dropped *)
  ev_deadline d e : ses_authorization_expires_at s = Some d -> date_parse d = Some e ->
    exists d' e', ses_authorization_expires_at s' = Some d' /\ date_parse d' = Some e' /\ (e' <= e)%Z;
  (** the sandbox changes, and a confirmed reclamation is withdrawn, only while starting *)
  ev_sandbox : ses_sandbox_id s' = ses_sandbox_id s \/ ses_status s = Starting;
  ev_reclaimed : is_Some (ses_sandbox_reclaimed_at s) -> is_Some (ses_sandbox_reclaimed_at s') \/ ses_status s = Starting;
  (** heartbeats stop with the teardown *)
  ev_heartbeat : ses_last_heartbeat s' = ses_last_heartbeat s \/ closing s = false;
  (** the integrations a sandbox was given are recorded once *)
  ev_pins l : ses_integrations s = Some l -> ses_integrations s' = Some l;
  (** and an address, once there is one, stays *)
  ev_url : is_Some (truthy (ses_sandbox_url s)) -> is_Some (truthy (ses_sandbox_url s'));
}.

Lemma evolves_intro s s' :
  identity s' = identity s -> ses_status s' = ses_status s ->
  ses_authorization_expires_at s' = ses_authorization_expires_at s ->
  ses_sandbox_id s' = ses_sandbox_id s ->
  (is_Some (ses_sandbox_reclaimed_at s) -> is_Some (ses_sandbox_reclaimed_at s')) ->
  ses_last_heartbeat s' = ses_last_heartbeat s \/ closing s = false ->
  ses_integrations s' = ses_integrations s -> ses_sandbox_url s' = ses_sandbox_url s -> evolves s s'.
Proof.
  intros H1 H2 H3 H4 H5 H6 H7 H8. split; [done|rewrite H2; apply rtc_refl| |by left|auto|done|by rewrite H7|by rewrite H8].
  intros d e Hd He. exists d, e. by rewrite H3.
Qed.

(** The only way into [starting] is to be there; closing sessions stay so. *)
Lemma reach_starting a : Fsm.reachable SessionState.machine a Starting -> a = Starting.
Proof.
  assert (H : forall b, Fsm.reachable SessionState.machine a b -> b = Starting -> a = Starting); [|eauto].
  intros b. induction 1 as [x|x y z Hxy _ IH]; [done|]. intros E. specialize (IH E). subst y.
  inversion Hxy as [x' ev y' Hev]. by destruct x, ev.
Qed.

Definition closing_status (a : SessionStatus) : bool := SessionState.isTerminal a || (a === Terminating).

Lemma reach_closing a b : Fsm.reachable SessionState.machine a b -> closing_status a = true -> closing_status b = true.
Proof.
  induction 1 as [x|x y z Hxy _ IH]; [done|]. intros Hx. apply IH. destruct Hxy as [x ev y Hev]. destruct x; try discriminate Hx; destruct ev; try discriminate Hev; injection Hev as <-; done.
Qed.

#[export] Instance evolves_preorder : PreOrder evolves.
Proof.
  split.
  - intros s. apply evolves_intro; auto.
  - intros s1 s2 s3 [I1 S1 D1 B1 R1 H1 P1 U1] [I2 S2 D2 B2 R2 H2 P2 U2]. split.
    + by rewrite I2.
    + by etrans.
    + intros d e Hd He. destruct (D1 d e Hd He) as (d' & e' & Hd' & He' & Hle).
      destruct (D2 d' e' Hd' He') as (d'' & e'' & ? & ? & ?). exists d'', e''. split; [done|]. split; [done|]. lia.
    + destruct B2 as [->|E]; [done|]. right. rewrite E in S1. by apply reach_starting.
    + intros H. destruct (R1 H) as [H'|?]; [|by right]. destruct (R2 H') as [?|E]; [by left|].
      right. rewrite E in S1. by apply reach_starting.
    + destruct (closing s1) eqn:E1; [|by right]. left.
      destruct H1 as [H1|?]; [|done]. rewrite <- H1. destruct H2 as [?|E2]; [done|].
      pose proof (reach_closing _ _ S1 E1) as Hc. unfold closing, closing_status in *. congruence.
    + auto.
    + auto.
Qed.

(** A record that is over: nothing more happens to it than bookkeeping. *)
Definition over (s : Session) : Prop := SessionState.isTerminal (ses_status s) = true.

Lemma evolves_over s s' : evolves s s' -> over s ->
  ses_status s' = ses_status s /\ ses_sandbox_id s' = ses_sandbox_id s /\ ses_last_heartbeat s' = ses_last_heartbeat s /\
  (holds_sandbox s = false -> holds_sandbox s' = false).
Proof.
  intros [_ HS _ HB HR HH _ _] Ho. unfold over in Ho.
  assert (Hst : ses_status s' = ses_status s).
  { destruct (Fsm.reachable_rank SessionState.machine SessionState.session_rank _ _ HS) as [->|Hr]; [done|]. destruct (ses_status s); try discriminate Ho; simpl in Hr; lia. }
  assert (Hs : ses_status s <> Starting) by (intros E; by rewrite E in Ho).
  destruct HB as [HB|?]; [|done]. destruct HH as [HH|Hc]; [|unfold closing in Hc; by rewrite Ho in Hc].
  split; [done|]. split; [done|]. split; [done|]. unfold holds_sandbox. rewrite HB.
  destruct (ses_sandbox_id s); [|done]. destruct (ses_sandbox_reclaimed_at s) eqn:E; [|done]. intros _.
  destruct (HR ltac:(eauto)) as [[x ->]|?]; done.
Qed.

(** ** Every applied change is within the contract *)

(** A change that leaves the schema valid *)
Definition applied (s s' : Session) : Prop := evolves s s' /\ session_schema s' = true.

(** The checks of the schema that an update leaves alone are those of the old record. *)
Ltac solve_schema :=
  unfold session_schema in *;
  cbn [ses_last_heartbeat ses_expires_at ses_authorization_expires_at ses_last_snapshot_at
       ses_sandbox_reclaimed_at ses_sandbox_deadline_at ses_terminating_at ses_takeover_capture_completed_at
       ses_ended_by_user_id ses_active_connections ses_connections_checked_at ses_sandbox_id ses_surfaces
       ses_integrations set_field optional with_surface] in *;
  rewrite ?andb_true_iff in *; destruct_and?; split_and?; auto.


Lemma forallb_obj_set {A} (p : A -> bool) k v l :
  p v = true -> forallb (fun e => p e.2) l = true -> forallb (fun e => p e.2) (obj_set k v l) = true.
Proof.
  intros Hv. induction l as [|[k' v'] l IH]; simpl; [by rewrite Hv|].
  rewrite andb_true_iff. intros [H1 H2]. destruct (k === k'); simpl; rewrite ?Hv, ?H1, ?H2, ?IH; auto.
Qed.

Lemma with_surface_applied surface st s :
  surface_schema st = true -> session_schema s = true -> applied s (with_surface surface st s).
Proof.
  intros Hst Hs. split; [by apply evolves_intro; auto|]. solve_schema.
  apply forallb_obj_set; [done|]. by destruct (ses_surfaces s).
Qed.

(** Inputs the schema accepts *)
Definition pins_ok (l : option (list IntegrationPin)) : bool :=
  optional (forallb (fun p => is_id "intg" (ip_id p) && positive (ip_version p))) l.

Lemma optional_truthy (p : string -> bool) o : optional p o = true -> optional p (truthy o) = true.
Proof. by destruct o as [[]|]. Qed.

Lemma optional_or_keep {A} (p : A -> bool) o old :
  optional p o = true -> optional p old = true -> optional p (or_keep o old) = true.
Proof. by destruct o. Qed.

Lemma running_applied url fb origin exp pins deadline now s :
  url <> "" -> closing s = false -> utcTimestamp now = true -> optional utcTimestamp exp = true ->
  optional utcTimestamp deadline = true -> pins_ok pins = true -> session_schema s = true ->
  applied s (running_record url fb origin exp pins deadline now s).
Proof.
  intros Hu Hc Hn He Hd Hp Hs. split.
  - split; cbn; try done; auto.
    + unfold closing in Hc. destruct (ses_status s) eqn:E; try discriminate Hc; [|by apply rtc_refl].
      apply rtc_once. by apply (Fsm.step_event _ _ SessionState.EvRunning).
    + intros d e H1 H2. exists d, e. split; [done|]. split; [done|]. lia.
    + intros l Hl. by rewrite Hl.
    + intros _. by destruct url; [|eexists].
  - unfold running_record. solve_schema.
    + apply optional_or_keep; [by apply optional_truthy|done].
    + apply optional_or_keep; [by apply optional_truthy|done].
    + apply forallb_obj_set; [|by destruct (ses_surfaces s)]. unfold surface_schema. cbn. by rewrite Hn.
    + destruct (ses_integrations s); [done|]. by destruct pins as [[]|].
Qed.

Lemma extend_applied at_ s s' :
  utcTimestamp at_ = true -> session_schema s = true -> extend_fn at_ s = Some s' -> applied s s'.
Proof.
  intros Ha Hs. unfold extend_fn. destruct (closing s); [done|]. intros [= <-].
  split; [by apply evolves_intro; auto|solve_schema].
Qed.

Lemma utc_parse d : utcTimestamp d = true -> exists e, date_parse d = Some e.
Proof. by intros [e He]%utcTimestamp_parses; exists e. Qed.

Lemma tighten_applied d s s' :
  utcTimestamp d = true -> session_schema s = true -> tighten_fn d s = Some s' -> applied s s'.
Proof.
  intros Hd Hs. unfold tighten_fn. destruct (utc_parse d Hd) as [e He].
  intros Hf. assert (Hs' : s' = s <| ses_authorization_expires_at := Some d |>) by (by repeat case_match; simplify_eq).
  split; [|subst s'; solve_schema].
  subst s'. split; cbn; auto; [apply rtc_refl|]. intros d0 e0 H1 H2. rewrite H1 in Hf.
  exists d, e. split; [done|]. split; [done|]. rewrite H2, He in Hf. cbn in Hf.
  destruct (Z.leb_spec e0 e); [done|lia].
Qed.

Lemma reclaimed_applied at_ sb s s' :
  utcTimestamp at_ = true -> session_schema s = true -> reclaimed_fn at_ sb s = Some s' -> applied s s'.
Proof.
  intros Ha Hs. unfold reclaimed_fn. intros Hf.
  assert (Hs' : s' = s <| ses_sandbox_reclaimed_at := Some at_ |>) by (by repeat case_match; simplify_eq). subst s'.
  split; [by apply evolves_intro; eauto|solve_schema].
Qed.

Lemma replaced_applied sb s :
  ses_status s = Starting -> is_id "sb" sb = true -> session_schema s = true ->
  applied s (s <| ses_sandbox_id := Some sb |> <| ses_sandbox_reclaimed_at := None |>).
Proof.
  intros Hst Hsb Hs. split; [|solve_schema]. split; cbn; auto; [apply rtc_refl|].
  intros d e H1 H2. exists d, e. split; [done|]. split; [done|]. lia.
Qed.

Lemma beat_applied now s :
  beat_due now s = true -> utcTimestamp (toISOString now) = true -> session_schema s = true ->
  applied s (s <| ses_last_heartbeat := toISOString now |>).
Proof.
  intros Hb Hn Hs. split; [|solve_schema]. apply evolves_intro; auto. right.
  unfold beat_due in Hb. unfold closing. by destruct (ses_status s).
Qed.

Lemma terminated_applied s s' : session_schema s = true -> terminated_fn s = Some s' -> applied s s'.
Proof.
  intros Hs. unfold terminated_fn. intros Hf.
  assert (Hs' : s' = s <| ses_status := if SessionState.isTerminal (ses_status s) then ses_status s else Terminated |>
                       <| ses_terminating_at := None |>) by (by repeat case_match; simplify_eq). subst s'.
  split; [|solve_schema]. split; cbn; auto.
  - destruct (ses_status s); try apply rtc_refl; cbn;
      try (apply rtc_once; by apply (Fsm.step_event _ _ SessionState.EvTerminated));
      (eapply rtc_l; [by apply (Fsm.step_event _ _ SessionState.EvTerminate)|]);
      apply rtc_once; by apply (Fsm.step_event _ _ SessionState.EvTerminated).
  - intros d e H1 H2. exists d, e. split; [done|]. split; [done|]. lia.
Qed.

Lemma stop_reach s : SessionState.nextStatus s SessionState.EvTerminate = Some Terminating \/
                     SessionState.nextStatus s SessionState.EvTerminate = None.
Proof. by destruct s; [left|left|right..]. Qed.

Definition terminating_record (surfaces : option (list (string * SurfaceState))) (by_ : option UserId) (now : Timestamp)
    (s : Session) : Session :=
  s <| ses_status := Terminating |> <| ses_terminating_at := Some now |> <| ses_surfaces := surfaces |>
    <| ses_ended_reason := match by_ with Some _ => Some EndedByTakeover | None => ses_ended_reason s end |>
    <| ses_ended_by_user_id := or_keep by_ (ses_ended_by_user_id s) |>.

Lemma terminating_applied surfaces by_ now s :
  SessionState.nextStatus (ses_status s) SessionState.EvTerminate = Some Terminating ->
  utcTimestamp now = true -> optional is_user_id by_ = true ->
  optional (forallb (fun e => surface_schema e.2)) surfaces = true -> session_schema s = true ->
  applied s (terminating_record surfaces by_ now s).
Proof.
  intros Hst Hn Hb Hsf Hs. split; [|unfold terminating_record; solve_schema; by apply optional_or_keep].
  split; cbn; auto.
  - apply rtc_once. by apply (Fsm.step_event _ _ SessionState.EvTerminate).
  - intros d e H1 H2. exists d, e. split; [done|]. split; [done|]. lia.
Qed.

Lemma failed_applied err s s' : session_schema s = true -> failed_fn err s = Some s' -> applied s s'.
Proof.
  intros Hs. unfold failed_fn. destruct (closing s) eqn:Hc; [done|]. intros [= <-].
  split; [|solve_schema]. split; cbn; auto.
  - unfold closing in Hc. destruct (ses_status s); try discriminate Hc;
      apply rtc_once; by apply (Fsm.step_event _ _ SessionState.EvFail).
  - intros d e H1 H2. exists d, e. split; [done|]. split; [done|]. lia.
Qed.

(** The expiry write of a scan *)
Lemma expired_applied s target :
  SessionState.nextStatus (ses_status s) SessionState.EvExpire = Some target -> session_schema s = true ->
  applied s (s <| ses_status := target |>).
Proof.
  intros Hst Hs. split; [|solve_schema]. split; cbn; auto.
  - apply rtc_once. by apply (Fsm.step_event _ _ SessionState.EvExpire).
  - intros d e H1 H2. exists d, e. split; [done|]. split; [done|]. lia.
Qed.

Lemma stamp_applied (f : Session -> Session) s :
  (f s = s \/ exists at_, utcTimestamp at_ = true /\
     (f s = s <| ses_last_snapshot_at := Some at_ |> \/ f s = s <| ses_takeover_capture_completed_at := Some at_ |> \/
      exists n, (0 <= n)%Z /\ f s = s <| ses_active_connections := Some n |> <| ses_connections_checked_at := Some at_ |>)) ->
  session_schema s = true -> applied s (f s).
Proof.
  intros [->|(at_ & Ha & [->|[->|(n & Hn & ->)]])] Hs.
  - split; [done|done].
  - split; [by apply evolves_intro; auto|solve_schema].
  - split; [by apply evolves_intro; auto|solve_schema].
  - split; [by apply evolves_intro; auto|solve_schema]. by apply Z.leb_le.
Qed.

Lemma surfaces_schema s :
  session_schema s = true -> forallb (fun e => surface_schema e.2) (ses_surfaces s ?? []) = true.
Proof.
  unfold session_schema. rewrite !andb_true_iff. intros H. destruct_and?. by destruct (ses_surfaces s).
Qed.

Lemma stopping_schema attempt now cancelled :
  utcTimestamp now = true -> surface_schema (stopping_surface attempt now cancelled) = true.
Proof. intros Hn. unfold surface_schema. cbn. by rewrite Hn. Qed.

(** *** The effectful changes *)
Section Local.
Context {B : Type}.
Local Abbreviation V := (string * Session)%type (only parsing).
Local Notation prog := (prog B V).

(** What a change of a record yields: a successor in the contract, or nothing. *)
Definition change_ok {X} (s : Session) (r : result (error V) (X * option Session)) : Prop :=
  match r with Ok (_, Some s') => applied s s' | Ok (_, None) => True | Err e => e <> CasWriteConflictError end.

Lemma local_pure (f : Session -> option Session) s :
  (forall s', f s = Some s' -> applied s s') -> local_post (B := B) (V := V) (pure_apply f s) (change_ok s).
Proof. intros H. unfold pure_apply. cbn. destruct (f s); auto. Qed.

Lemma local_now {A} (f : Z -> prog A) (Q : result (error V) A -> Prop) :
  (forall now, (0 <= now < MAX_TIME)%Z -> local_post (f now) Q) -> local_post (now ← now_ms; f now) Q.
Proof. intros H. split; [done|]. intros n Hn. by apply H. Qed.

Lemma local_nowIso {A} (f : Timestamp -> prog A) (Q : result (error V) A -> Prop) :
  (forall now, utcTimestamp now = true -> local_post (f now) Q) -> local_post (now ← nowIso; f now) Q.
Proof. intros H. split; [done|]. intros n Hn. apply H. by apply iso_now_valid. Qed.

Lemma set_running_local url fb origin exp pins deadline s :
  url <> "" -> optional utcTimestamp exp = true -> optional utcTimestamp deadline = true -> pins_ok pins = true ->
  session_schema s = true -> local_post (set_running_fn (B := B) url fb origin exp pins deadline s) (change_ok s).
Proof.
  intros Hu He Hd Hp Hs. unfold set_running_fn. destruct (closing s) eqn:Hc; [done|].
  apply local_nowIso. intros now Hn. by apply running_applied.
Qed.

Lemma surface_stop_local surface attempt s :
  session_schema s = true -> local_post (surface_stop_fn (B := B) surface attempt s) (change_ok s).
Proof.
  intros Hs. unfold surface_stop_fn. case_match; [done|].
  apply local_nowIso. intros now Hn. apply with_surface_applied; [|done].
  by apply stopping_schema.
Qed.

Lemma replace_sandbox_local sb sb' s :
  is_id "sb" sb' = true -> session_schema s = true ->
  local_post (replace_sandbox_fn (B := B) sb sb' s) (change_ok s).
Proof.
  intros Hsb Hs. unfold replace_sandbox_fn. case_match eqn:E; [done|].
  apply orb_false_iff in E as [E _]. apply negb_false_iff, bool_decide_eq_true in E. by apply replaced_applied.
Qed.

Lemma heartbeat_local s : session_schema s = true -> local_post (session_heartbeat_fn (B := B) s) (change_ok s).
Proof.
  intros Hs. apply local_now. intros now Hn. destruct (beat_due now s) eqn:E; [|done].
  apply beat_applied; [done|by apply iso_now_valid|done].
Qed.

Lemma stop_surfaces_local now l :
  utcTimestamp now = true -> forallb (fun e => surface_schema e.2) l = true ->
  local_post (stop_surfaces (B := B) now l)
    (fun r => match r with Ok l' => forallb (fun e => surface_schema e.2) l' = true | Err _ => False end).
Proof.
  intros Hn. induction l as [|[surface st] l IH]; cbn [stop_surfaces forallb]; [done|].
  rewrite andb_true_iff. intros [H1 H2]. eapply local_bind with (R := fun r => match r with Ok st' => surface_schema st' = true | Err _ => False end).
  - case_match; [done|]. split; [done|]. intros x _. by apply stopping_schema.
  - intros st' Hst. eapply local_bind; [by apply IH| |done]. intros l' Hl. cbn. cbn in Hst. by rewrite Hst.
  - done.
Qed.

Lemma terminate_local by_ s :
  optional is_user_id by_ = true -> session_schema s = true ->
  local_post (terminate_fn (B := B) by_ s) (fun r => change_ok s r /\
    match r with
    | Ok (true, Some s') => closing_status (ses_status s) = false /\ ses_status s' = Terminating
    | Ok (true, None) | Ok (false, Some _) => False
    | _ => True
    end).
Proof.
  intros Hb Hs. unfold terminate_fn. destruct (stop_reach (ses_status s)) as [E|E]; rewrite E; [|done].
  apply local_nowIso. intros now Hn. eapply local_bind; [apply stop_surfaces_local; [done|]| |done].
  - by apply surfaces_schema.
  - intros l Hl. split; [|split; [|done]; by destruct (ses_status s); try discriminate E].
    apply (terminating_applied (match ses_surfaces s with Some _ => Some l | None => None end)); [done..| |done].
    by destruct (ses_surfaces s).
Qed.
End Local.
