(* ===== verification/SessionReplicas.v ===== *)
(** * Replicas sharing the session records

    The invariant of the stored session records, the steps a replica may take on them,
    and the verification of every operation of [SessionService.v] against them.  The
    operations are verified for any protocol that allows those steps ([AllowsSessions]),
    so that other components can be put beside them. *)

From Stdlib Require Import ZArith Lia.
From stdpp Require Import relations.
From S2P Require Import Prelude Constants Lifecycle Schema UtcDate Store Cas Storage CasTheorems CasEffects Listing SessionData AppPoolRouter AppPool SessionService SessionProtocol.

(** ** Keys *)

(** The objects under the sessions prefix. *)
Definition skey (k : key) : Prop := is_Some (startsWith sessionsPrefix k).

Lemma skey_session pid id : skey (session_key pid id).
Proof. eexists. apply (startsWith_app "_system/sessions/"). Qed.

Lemma session_key_inj p p' i i' :
  is_id "sess" i = true -> is_id "sess" i' = true -> session_key p i = session_key p' i' -> p = p' /\ i = i'.
Proof.
  intros Hi Hi'. unfold session_key, sessionsForProject. rewrite !string_app_assoc.
  intros H%string_app_inj_l. apply is_id_length in Hi, Hi'.
  rewrite <- !(string_app_assoc p), <- !(string_app_assoc p') in H.
  apply string_app_split in H as [H H2]; [|rewrite !string_app_length, Hi, Hi'; lia].
  apply string_app_split in H as [-> _]; [|done].
  by apply string_app_split in H2 as [-> _].
Qed.

Section Replicas.
Context {B : Type} `{!EqDecision B}.
Context {CSe : Codec B Session} {CCu : Codec B VersionPruneCutoff} {CP : Codec B AppPool}.
(** The stored text of a session is read back when it satisfies the schema. *)
Context (schema_valid : forall s : Session, valid s <-> session_schema s = true).
Local Abbreviation V := (string * Session)%type (only parsing).
Local Notation prog := (prog B V).
Implicit Types w : world B V.

(** ** The invariant *)

(** A history in which each record evolves from the one before it. *)
Fixpoint evolving (h : list (tid * object B)) : Prop :=
  match h with
  | [] => True
  | (_, o') :: h' =>
      match h' with
      | [] => True
      | (_, o) :: _ => exists s s', parse (o_body o) = Some s /\ parse (o_body o') = Some s' /\ evolves s s'
      end /\ evolving h'
  end.

Record sinv w : Prop := {
  si_records t k o : skey k -> (t, k, o) ∈ log w ->
    exists s, parse (o_body o) = Some s /\ k = session_key (ses_project_id s) (ses_session_id s) /\
              is_Some (issued w !! ses_session_id s);
  si_last k o : skey k -> store w !! k = Some o -> exists t l, hist k w = (t, o) :: l;
  si_chain k : skey k -> evolving (hist k w);
  si_cache k e s : (k, (e, s)) ∈ cache w ->
    exists t o, (t, k, o) ∈ log w /\ o_etag o = e /\ parse (o_body o) = Some s;
}.

(** Every record of a history evolves into the latest. *)
Lemma evolving_last h t o s t' o' l :
  evolving h -> h = (t', o') :: l -> (t, o) ∈ h -> parse (o_body o) = Some s ->
  exists s', parse (o_body o') = Some s' /\ evolves s s'.
Proof.
  revert t' o' l. induction h as [|[t1 o1] h IH]; intros t' o' l Hh He Hin Hp; [done|].
  injection He as <- <- <-. apply elem_of_cons in Hin as [Hin|Hin].
  { injection Hin as -> ->. by exists s. }
  destruct h as [|[t2 o2] h]; [by apply not_elem_of_nil in Hin|]. destruct Hh as [(s2 & s1 & H2 & H1 & Hev) Hh].
  destruct (IH t2 o2 h Hh eq_refl Hin Hp) as (s2' & H2' & Hev'). rewrite H2 in H2'. injection H2' as <-.
  exists s1. split; [done|]. by etrans.
Qed.

Lemma sinv_current w k t o s o' :
  sinv w -> skey k -> (t, k, o) ∈ log w -> parse (o_body o) = Some s -> store w !! k = Some o' ->
  exists s', parse (o_body o') = Some s' /\ evolves s s'.
Proof.
  intros Hi Hk Hin Hp Hs. destruct (si_last _ Hi _ _ Hk Hs) as (t' & l & Hh).
  eapply (evolving_last (hist k w)); [by apply si_chain|exact Hh|by apply elem_of_hist|done].
Qed.

(** ** The steps *)

Inductive change (t : tid) (k : key) w w' : Prop :=
| ch_same : store w' !! k = store w !! k -> hist k w' = hist k w -> change t k w w'
| ch_created o s :
    hist k w = [] -> store w' !! k = Some o -> hist k w' = [(t, o)] -> parse (o_body o) = Some s ->
    ses_status s = Starting -> k = session_key (ses_project_id s) (ses_session_id s) ->
    issued w !! ses_session_id s = Some t -> change t k w w'
| ch_evolved o o' s s' :
    store w !! k = Some o -> store w' !! k = Some o' -> hist k w' = (t, o') :: hist k w ->
    parse (o_body o) = Some s -> parse (o_body o') = Some s' -> evolves s s' -> change t k w w'
| ch_reaped o s :
    store w !! k = Some o -> parse (o_body o) = Some s -> over s -> holds_sandbox s = false ->
    store w' !! k = None -> hist k w' = hist k w -> change t k w w'.

(** A step on session records alone. *)
Definition session_step (t : tid) w w' : Prop :=
  grows w w' /\ (sinv w -> sinv w') /\ (sinv w -> forall k, skey k -> change t k w w') /\
  (forall k, ~ skey k -> store w' !! k = store w !! k /\ hist k w' = hist k w) /\
  (exists l, log w' = l ++ log w) /\ audits w' = audits w.

(** What a protocol promises to the session operations, and they to it. *)
Class AllowsSessions (G : tid -> world B V -> world B V -> Prop) : Prop := {
  as_step t w w' : session_step t w w' -> G t w w';
  as_sinv t w w' : G t w w' -> sinv w -> sinv w';
  as_change t w w' k : G t w w' -> sinv w -> skey k -> change t k w w';
}.

(** A step off the session records. *)
Record off_records w w' : Prop := {
  off_grows : grows w w';
  off_keys k : skey k -> store w' !! k = store w !! k /\ hist k w' = hist k w;
  off_cache : cache w' = cache w;
}.
Lemma sinv_off w w' : off_records w w' -> sinv w -> sinv w'.
Proof.
  intros [Hg H Hc] [H1 H2 H3 H4]. split.
  - intros t' k o Hk Ho. apply elem_of_hist in Ho. destruct (H k Hk) as [_ E]. rewrite E in Ho.
    apply elem_of_hist in Ho. destruct (H1 t' k o Hk Ho) as (s & ? & ? & [x Hx]). exists s. split; [done|]. split; [done|].
    exists x. by apply (grows_issued _ _ Hg).
  - intros k o Hk. destruct (H k Hk) as [-> ->]. by apply H2.
  - intros k Hk. destruct (H k Hk) as [_ ->]. by apply H3.
  - rewrite Hc. intros k e s Hin. destruct (H4 k e s Hin) as (t' & o & Ho & ? & ?). exists t', o. split; [|done].
    by apply (grows_log _ _ Hg).
Qed.
Lemma change_off t k w w' : off_records w w' -> skey k -> change t k w w'.
Proof. intros [_ H _] Hk. destruct (H k Hk). by apply ch_same. Qed.
Lemma session_step_idle t w : session_step t w w.
Proof. split; [done|]. split; [done|]. split; [by intros _ k _; apply ch_same|]. split; [done|]. by split; [exists []|]. Qed.

(** Steps that leave the store alone. *)
Lemma session_step_issue t w id :
  issued w !! id = None -> session_step t w (set_issued w (<[id := t]> (issued w))).
Proof.
  intros Hid. split; [|split; [|split; [by intros _ k _; apply ch_same|split; [done|]; by split; [exists []|]]]].
  - split; cbn; auto; [by intros []|lia| |by exists []].
    intros id' t' Hi. rewrite lookup_insert_ne; [done|]. by intros ->; simplify_eq.
  - intros [H1 H2 H3 H4]. split; [|done..]. intros t' k o Hk Ho.
    destruct (H1 t' k o Hk Ho) as (s & ? & ? & [x Hx]). exists s. split; [done|]. split; [done|].
    cbn. destruct (decide (ses_session_id s = id)) as [->|]; [by rewrite lookup_insert_eq|by rewrite lookup_insert_ne, Hx].
Qed.

Lemma session_step_cache t w k e s obj :
  (exists t', (t', k, obj) ∈ log w) -> o_etag obj = e -> parse (o_body obj) = Some s ->
  session_step t w (set_cache w ((k, (e, s)) :: cache w)).
Proof.
  intros [t' Hl] He Hp. split; [|split; [|split; [by intros _ k' _; apply ch_same|split; [done|]; by split; [exists []|]]]].
  - split; cbn; auto; [by intros []|lia|by exists []].
  - intros [H1 H2 H3 H4]. split; [done..|]. intros k0 e0 s0 Hin. apply elem_of_cons in Hin as [Hin|Hin]; [|by apply H4].
    simplify_eq. by exists t', obj.
Qed.

(** Writing a record at its key: the other session keys keep theirs. *)
Lemma sinv_write t w k obj s :
  sinv w -> skey k -> parse (o_body obj) = Some s -> k = session_key (ses_project_id s) (ses_session_id s) ->
  is_Some (issued w !! ses_session_id s) -> evolving ((t, obj) :: hist k w) -> sinv (write t w k obj).
Proof.
  intros [H1 H2 H3 H4] Hk Hp Hkey Hid Hev. split.
  - intros t' k' o' Hk' Ho. cbn in Ho. apply elem_of_cons in Ho as [Ho|Ho]; [|by apply (H1 t')].
    simplify_eq. by exists s.
  - intros k' o' Hk' Ho. rewrite hist_write. cbn in Ho. destruct (bool_decide_reflect (k = k')) as [->|Hne].
    + rewrite lookup_insert_eq in Ho. simplify_eq. eauto.
    + rewrite lookup_insert_ne in Ho by done. by apply H2.
  - intros k' Hk'. rewrite hist_write. destruct (bool_decide_reflect (k = k')) as [->|Hne]; [done|by apply H3].
  - intros k' e' s' Hin. destruct (H4 k' e' s' Hin) as (t' & o' & Ho & ? & ?). exists t', o'. cbn. set_solver.
Qed.

Lemma session_step_write t w k obj b e :
  obj = {| o_body := b; o_etag := e; o_uploaded := clock w |} -> skey k -> etag_ok w k b e ->
  (sinv w -> sinv (write t w k obj) /\ change t k w (write t w k obj)) -> session_step t w (write t w k obj).
Proof.
  intros -> Hk He H. split; [|split; [|split; [|split; [|by split; [eexists [_]|]]]]].
  - eapply (sem_grows t (OPut k b Always)). right. split; [done|]. by exists e.
  - intros Hi. by apply H.
  - intros Hi k' Hk'. destruct (decide (k = k')) as [<-|Hne]; [by apply H|].
    apply ch_same; [by apply lookup_insert_ne|]. by rewrite hist_write, bool_decide_eq_false_2.
  - intros k' Hk'. assert (Hne : k <> k') by (by intros ->).
    split; [by apply lookup_insert_ne|]. by rewrite hist_write, bool_decide_eq_false_2.
Qed.

Lemma session_step_evolve t w k o s s' e :
  wf w -> skey k -> store w !! k = Some o -> parse (o_body o) = Some s -> applied s s' ->
  etag_ok w k (stringify s') e ->
  session_step t w (write t w k {| o_body := stringify s'; o_etag := e; o_uploaded := clock w |}).
Proof.
  intros Hw Hk Ho Hp [Hev Hs] He. assert (Hp' : parse (stringify s') = Some s').
  { by apply parse_stringify, schema_valid. }
  eapply session_step_write; [done|done|done|]. intros Hi.
  destruct (wf_stored _ Hw _ _ Ho) as [t0 Hl]. destruct (si_records _ Hi _ _ _ Hk Hl) as (s0 & Hp0 & Hkey & Hid).
  rewrite Hp in Hp0. injection Hp0 as <-. pose proof (ev_identity _ _ Hev) as Hident.
  assert (Hsid : ses_session_id s' = ses_session_id s /\ ses_project_id s' = ses_project_id s).
  { unfold identity in Hident. by injection Hident. }
  destruct Hsid as [Hs1 Hs2]. destruct (si_last _ Hi _ _ Hk Ho) as (t1 & l & Hh). split.
  - apply (sinv_write t w k _ s'); [done|done|done|by rewrite Hs1, Hs2|by rewrite Hs1|].
    rewrite Hh. split; [by exists s, s'|]. rewrite <- Hh. by apply si_chain.
  - eapply (ch_evolved _ _ _ _ o _ s s'); [done|by apply lookup_insert_eq| |done|done|done].
    by rewrite hist_write, bool_decide_eq_true_2.
Qed.

(** The thread's own drawn id, under which nothing was ever stored. *)
Definition owned (t : tid) (id : SessionId) w : Prop :=
  is_id "sess" id = true /\ issued w !! id = Some t /\ forall pid, hist (session_key pid id) w = [].

Lemma session_step_create t w pid s e :
  let k := session_key pid (ses_session_id s) in
  owned t (ses_session_id s) w -> session_schema s = true -> ses_status s = Starting -> ses_project_id s = pid ->
  etag_ok w k (stringify s) e ->
  session_step t w (write t w k {| o_body := stringify s; o_etag := e; o_uploaded := clock w |}).
Proof.
  intros k (Hid & Hiss & Hh) Hs Hst <- He. assert (Hp : parse (stringify s) = Some s).
  { by apply parse_stringify, schema_valid. }
  assert (Hk : skey k) by apply skey_session.
  eapply session_step_write; [done|done|done|]. intros Hi. split.
  - apply (sinv_write t w k _ s); [done|done|done|done|by eexists|]. unfold k. by rewrite Hh.
  - eapply (ch_created _ _ _ _ _ s); [apply Hh|by apply lookup_insert_eq| |done|done|done|done].
    rewrite hist_write, bool_decide_eq_true_2 by done. unfold k. by rewrite Hh.
Qed.

(** Records seen to be over and without a sandbox may be removed whenever. *)
Definition seen_gone (k : key) w : Prop :=
  skey k /\ exists t o s, (t, k, o) ∈ log w /\ parse (o_body o) = Some s /\ over s /\ holds_sandbox s = false.

#[export] Instance persistent_seen_gone k : Persistent (seen_gone k).
Proof.
  intros w w' Hg (Hk & t & o & s & Hl & H). split; [done|]. exists t, o, s. split; [by apply (grows_log _ _ Hg)|done].
Qed.

Lemma session_step_reap t w ks : (forall k, k ∈ ks -> seen_gone k w) -> session_step t w (remove w ks).
Proof.
  intros Hks. split; [apply grows_remove|split; [|split; [|split; [|by split; [exists []|]]]]].
  - intros [H1 H2 H3 H4]. split; [done| |done|done]. intros k o Hk Ho. rewrite store_remove in Ho.
    case_decide; [done|]. by apply H2.
  - intros Hi k Hk. destruct (decide (k ∈ ks)) as [Hin|Hin].
    + destruct (store w !! k) as [o|] eqn:E; [|apply ch_same; [by rewrite store_remove, decide_True|done]].
      destruct (Hks k Hin) as (_ & t0 & o0 & s0 & Hl & Hp & Ho & Hh).
      destruct (sinv_current w k t0 o0 s0 o Hi Hk Hl Hp E) as (s & Hp' & Hev).
      destruct (evolves_over _ _ Hev Ho) as (Hst & _ & _ & Hsb).
      eapply (ch_reaped _ _ _ _ o s); [done|done|unfold over; by rewrite Hst|auto|by rewrite store_remove, decide_True|done].
    + apply ch_same; [by rewrite store_remove, decide_False|done].
  - intros k Hk. split; [|done]. rewrite store_remove, decide_False; [done|]. intros Hin. by destruct (Hks k Hin).
Qed.

(** ** The operations *)
Section Ops.
Context (G : tid -> world B V -> world B V -> Prop) `{!Protocol G} `{!AllowsSessions G}.

#[export] Instance sessions_draw_ids : DrawsIds G.
Proof. intros t w id Hid. by apply as_step, session_step_issue. Qed.
#[export] Instance keeps_sinv : KeepsIds sinv.
Proof. intros t w id Hid. by apply (session_step_issue t). Qed.

Lemma sinv_tick w ms : sinv w -> sinv (tick w ms).
Proof. by intros [? ? ? ?]. Qed.
#[export] Instance stable_sinv t : Stable G t sinv.
Proof. intros w w' [(t' & _ & HG)|(ms & _ & ->)]; [by eapply as_sinv|apply sinv_tick]. Qed.

Definition ready w : Prop := wf w /\ sinv w.
#[export] Instance stable_ready t : Stable G t ready.
Proof. unfold ready. apply _. Qed.
#[export] Instance keeps_ready : KeepsIds ready.
Proof. unfold ready. apply _. Qed.
Lemma ready_wf w : ready w -> wf w.
Proof. by intros [? _]. Qed.

(** [t] replaced record [s] by [s'] at [k]. *)
Definition committed (t : tid) (k : key) (s s' : Session) w : Prop :=
  exists l o' t2 o2 l2, hist k w = l ++ (t, o') :: (t2, o2) :: l2 /\
    parse (o_body o2) = Some s /\ parse (o_body o') = Some s'.

Lemma change_hist t k w w' : change t k w w' -> exists l, hist k w' = l ++ hist k w.
Proof.
  intros [? ->|o s Hh ? -> ? ? ? ?|o o' s s' ? ? -> ? ? ?|o s ? ? ? ? ? ->];
    [by exists []|by rewrite Hh; eexists [_]|by eexists [_]|by exists []].
Qed.

Lemma hist_tick k w ms : hist k (tick w ms) = hist k w.
Proof. done. Qed.

(** A fact that only needs the records and the past of one key is kept by the others. *)
Lemma stable_hist t k (F : list (tid * object B) -> Prop) :
  skey k -> (forall l h, F h -> F (l ++ h)) -> Stable G t (fun w => sinv w /\ F (hist k w)).
Proof.
  intros Hk HF w w' Ho [Hi Hw]. split; [by eapply (stable_sinv t)|].
  destruct Ho as [(t' & _ & HG)|(ms & _ & ->)]; [|done].
  destruct (change_hist t' k w w') as [l ->]; [by eapply as_change|]. by apply HF.
Qed.

Lemma stable_committed t k s s' : skey k -> Stable G t (fun w => ready w /\ committed t k s s' w).
Proof.
  intros Hk w w' Ho [[Hw Hi] Hc].
  pose proof (stable_hist t k (fun h => exists l o' t2 o2 l2, h = l ++ (t, o') :: (t2, o2) :: l2 /\
    parse (o_body o2) = Some s /\ parse (o_body o') = Some s') Hk) as Hst.
  destruct (fun H => Hst H w w' Ho (conj Hi Hc)) as [Hi' Hc'].
  - intros l h (l1 & o' & t2 & o2 & l2 & -> & ? & ?). exists (l ++ l1), o', t2, o2, l2. by rewrite app_assoc.
  - split; [split; [by eapply (stable_wf G t)|done]|done].
Qed.

(** Any change of a record that the contract covers. *)
Section Mutate.
Context (t : tid) (k : key) (Hk : skey k) {X : Type} (apply : Session -> prog (X * option Session)).
Context (notFound : option (error V)) (θ : Session -> X -> Session -> Prop) (ψ : Session -> X -> Prop).
Context (apply_ok : forall s, session_schema s = true ->
  local_post (apply s) (fun r => change_ok s r /\
    match r with Ok (x, Some s') => θ s x s' | Ok (x, None) => ψ s x | Err _ => True end)).

Definition left_behind (s : Session) (x : X) (s' : Session) w : Prop := θ s x s' /\ ready w /\ committed t k s s' w.

Lemma mutate_record_spec : hoare G t ready (mutateM k apply notFound)
  (fun r w => ready w /\ match r with
                         | Ok (x, o) => if written _ o then exists s, θ s x (value _ o) /\ committed t k s (value _ o) w
                                        else ψ (value _ o) x
                         | Err _ => True
                         end).
Proof.
  eapply hoare_post; [|apply (hoare_mutateM G t k apply notFound ready ready_wf
    (fun s x s' => applied s s' /\ θ s x s') ψ) with (S := left_behind)].
  - intros [[x o]|e] w H; cbn in H.
    + destruct (written _ o); [|by destruct H]. destruct H as (s & Hθ & Hw & Hc). split; [done|]. by exists s.
    + split; [|done]. destruct e; try done. by destruct H as [?|(s & x & s' & _ & ? & _)].
  - intros s Hs. eapply local_weaken; [|by apply apply_ok, schema_valid].
    intros [[x [s'|]]|e]; cbn; tauto.
  - intros s x s' w w' Ho [Hθ Hw]. split; [done|]. by apply (stable_committed t k s s' Hk w w' Ho).
  - intros w o s x s' e [Hw Hi] Ho Hp [Ha Hθ] He obj.
    pose proof (session_step_evolve t w k o s s' e Hw Hk Ho Hp Ha He) as Hst.
    split; [by apply as_step|]. split; [done|]. destruct Hst as ([Hg _ _ _ _] & Hsi & _).
    split; [by split; auto|]. destruct (si_last _ Hi _ _ Hk Ho) as (t1 & l & Hh).
    exists [], obj, t1, o, l. rewrite hist_write, bool_decide_eq_true_2, Hh by done.
    split; [done|]. split; [done|]. by apply parse_stringify, schema_valid; destruct Ha.
Qed.
End Mutate.

Lemma mutate_session_spec t pid id {X} (apply : Session -> prog (X * option Session)) (θ : Session -> X -> Session -> Prop)
    (ψ : Session -> X -> Prop) :
  (forall s, session_schema s = true -> local_post (apply s) (fun r => change_ok s r /\
     match r with Ok (x, Some s') => θ s x s' | Ok (x, None) => ψ s x | Err _ => True end)) ->
  hoare G t ready (mutate_session pid id apply) (fun r w => ready w /\
    match r with
    | Ok (x, s') => (exists s, θ s x s' /\ committed t (session_key pid id) s s' w) \/ ψ s' x
    | Err _ => True
    end).
Proof.
  intros Ha. eapply hoare_bind; [by apply (mutate_record_spec t (session_key pid id) (skey_session pid id) apply _ θ ψ)| |].
  - intros [x o]. destruct (written _ o); apply hoare_ret.
    + intros w w' Ho [Hw (s & Hθ & Hc)].
      destruct (stable_committed t _ s (value _ o) (skey_session pid id) w w' Ho (conj Hw Hc)). eauto.
    + intros w [Hw ?]. eauto.
    + apply _.
    + intros w [Hw ?]. eauto.
  - intros e. apply hoare_throw; [apply _|]. by intros w [? _].
Qed.

Lemma mutate__spec t pid id (apply : Session -> prog (unit * option Session)) :
  (forall s, session_schema s = true -> local_post (apply s) (change_ok s)) ->
  hoare G t ready (mutate_ pid id apply) (fun _ => ready).
Proof.
  intros Ha. eapply hoare_bind; [apply (mutate_session_spec t pid id apply (fun _ _ _ => True) (fun _ _ => True))| |].
  - intros s Hs. eapply local_weaken; [|by apply Ha]. intros [[x [s'|]]|e]; cbn; auto.
  - intros a. apply hoare_pre with (P := ready); [by intros w [? _]|]. by apply hoare_ret; [apply _|].
  - intros e. apply hoare_throw; [apply _|]. by intros w [? _].
Qed.

(** *** Creation *)

Lemma others_owned_id t id : Stable G t (fun w => sinv w /\ wf w /\ owned t id w).
Proof.
  intros w w' Ho (Hi & Hw & Hid & Hiss & Hh). split; [by eapply (stable_sinv t)|].
  assert (Hg : grows w w') by (by eapply others_grows). split; [by apply (grows_wf _ _ Hg)|]. split; [done|].
  split; [by apply (grows_issued _ _ Hg)|]. intros pid.
  destruct Ho as [(t' & Hne & HG)|(ms & _ & ->)]; [|apply Hh].
  destruct (as_change _ _ _ (session_key pid id) HG Hi (skey_session pid id))
    as [? ->|o s ? ? ? Hp ? Hkey Hs|o o' s s' Ho ? ? ? ? ?|o s ? ? ? ? ? ->]; [apply Hh| | |apply Hh].
  - exfalso. assert (Hsch : session_schema s = true) by (by eapply schema_valid, parse_valid).
    unfold session_schema, session_fixed_schema in Hsch. rewrite !andb_true_iff in Hsch. destruct_and?.
    apply session_key_inj in Hkey as [_ ->]; [|done|done]. rewrite Hiss in Hs. by injection Hs.
  - exfalso. destruct (wf_stored _ Hw _ _ Ho) as [t0 Hl]. apply elem_of_hist in Hl. rewrite Hh in Hl.
    by apply not_elem_of_nil in Hl.
Qed.

(** A freshly drawn id is the thread's own. *)
Lemma fresh_owned t w id :
  sinv w -> is_id "sess" id = true -> issued w !! id = None ->
  owned t id (set_issued w (<[id := t]> (issued w))).
Proof.
  intros Hi Hid Hn. split; [done|]. split; [by apply lookup_insert_eq|]. intros pid.
  change (hist (session_key pid id) w = []). destruct (hist (session_key pid id) w) as [|[t0 o0] l] eqn:E; [done|].
  assert (Hl : (t0, session_key pid id, o0) ∈ log w) by (apply elem_of_hist; rewrite E; by left).
  destruct (si_records _ Hi _ _ _ (skey_session pid id) Hl) as (s & Hp & Hkey & [x Hx]). exfalso.
  assert (Hsch : session_schema s = true) by (by eapply schema_valid, parse_valid).
  unfold session_schema, session_fixed_schema in Hsch. rewrite !andb_true_iff in Hsch. destruct_and?.
  apply session_key_inj in Hkey as [_ ->]; [|done|done]. by rewrite Hn in Hx.
Qed.

(** The fields of an input are of their types: ids have their format, times are timestamps
    and an idle timeout is not negative.  The kernel token is text: [createSession] checks it. *)
Definition input_ok (input : CreateSessionInput) : Prop :=
  optional (fun o => is_id "nb" (po_notebook_id o) && is_id "prev" (po_preview_id o) &&
                     is_version_id (po_revision_id o) && is_commit (po_commit o)) (in_origin input) &&
  optional (Z.leb 0) (in_idle_timeout_ms input) && is_id "nb" (in_notebook_id input) && is_id "proj" (in_project_id input) &&
  is_user_id (in_user_id input) && optional (is_id "sb") (in_sandbox_id input) &&
  optional is_version_id (truthy (in_source_version_id input)) && optional utcTimestamp (truthy (in_authorization_expires_at input)) = true.

(** A checked token and such an input make a record the schema accepts. *)
Lemma created_schema input sid now :
  input_ok input -> match in_kernel_auth_token input with Some tok => negb (is_kernel_auth_token tok) | None => false end = false ->
  is_id "sess" sid = true -> utcTimestamp now = true -> session_schema (new_session input sid now) = true.
Proof.
  unfold input_ok. rewrite !andb_true_iff. intros H Htok Hid Hnow. destruct_and?.
  assert (Hidle : optional positive (when_nonzero (in_idle_timeout_ms input)) = true).
  { match goal with Hz : optional (Z.leb 0) _ = true |- _ => revert Hz end. destruct (in_idle_timeout_ms input) as [z|]; [|done].
    cbn. destruct (Z.eqb_spec z 0); [done|]. intros Hz%Z.leb_le. unfold positive. cbn. apply Z.ltb_lt. lia. }
  assert (Hk : optional is_kernel_auth_token (in_kernel_auth_token input) = true).
  { revert Htok. destruct (in_kernel_auth_token input); [|done]. apply negb_false_iff. }
  assert (Hpool : optional id (when_true (in_app_pool input)) = true) by (unfold when_true; by destruct (in_app_pool input) as [[]|]).
  unfold session_schema, session_fixed_schema. cbn [new_session ses_origin ses_idle_timeout_ms ses_session_id ses_notebook_id ses_project_id ses_user_id
    ses_started_at ses_source_version_id ses_app_pool ses_kernel_auth_token ses_last_heartbeat ses_authorization_expires_at ses_sandbox_id].
  rewrite !andb_true_iff. repeat split; done.
Qed.

(** The record [s] was stored at [k] with tag [e]. *)
Definition stored_as (k : key) (s : Session) (e : string) w : Prop :=
  exists obj, logged k obj w /\ o_etag obj = e /\ o_body obj = stringify s.
#[export] Instance persistent_stored_as k s e : Persistent (stored_as k s e).
Proof. unfold stored_as. apply _. Qed.

Lemma fail_created_spec t pid id s e err :
  session_schema s = true -> ses_status s = Starting ->
  hoare G t (fun w => ready w /\ stored_as (session_key pid id) s e w)
    (failCreatedSession (session_key pid id) e s err) (fun _ => ready).
Proof.
  intros Hs Hst. set (k := session_key pid id). assert (Hk : skey k) by apply skey_session.
  assert (Ha : applied s (s <| ses_status := Failed |> <| ses_error := Some err |>)).
  { apply (failed_applied (Some err)); [done|]. unfold failed_fn, closing. by rewrite Hst. }
  assert (Hput : hoare G t (fun w => ready w /\ stored_as k s e w)
    (call (OPut k (stringify (s <| ses_status := Failed |> <| ses_error := Some err |>)) (onlyIfEtagMatches e)))
    (put_post (fun w => ready w /\ stored_as k s e w) (fun _ => ready))).
  { apply hoare_put; [apply _|apply _|apply _|]. intros w e' [[Hw Hi] (obj & Hl & He & Hb)] Hh He' obj'. subst e.
    destruct (holds_etag_body _ _ _ Hw Hl Hh) as (o' & Ho' & Hbody).
    assert (Hp : parse (o_body o') = Some s) by (rewrite Hbody, Hb; by apply parse_stringify, schema_valid).
    pose proof (session_step_evolve t w k o' s _ e' Hw Hk Ho' Hp Ha He') as Hstep.
    split; [by apply as_step|]. destruct Hstep as ([Hg _ _ _ _] & Hsi & _). split; auto. }
  eapply hoare_catch with (M := fun _ => ready).
  - eapply hoare_bind; [exact Hput| |].
    + intros i. by apply hoare_ret; [apply _|].
    + intros er. apply hoare_throw; [apply _|]. intros w. destruct er; cbn; try done; [by intros [? _]|].
      by intros [[? _]|[_ ?]].
  - intros a. by apply hoare_ret; [apply _|].
  - intros er. by apply hoare_ret; [apply _|].
Qed.

Lemma cutoff_read_spec t P pid nid `{!Stable G t P} :
  hoare G t P (getVersionPruneCutoff pid nid) (fun _ => P).
Proof.
  unfold getVersionPruneCutoff. eapply hoare_bind.
  - by apply (hoare_get G t _ P (fun _ => P)).
  - intros [o|]; [|by apply hoare_ret]. unfold readStored. destruct (parse (o_body o)).
    + apply hoare_ret_bind. by apply hoare_ret.
    + by apply hoare_throw.
  - intros e. apply hoare_throw; [apply _|]. by intros w [? _].
Qed.

Lemma check_created_spec t input id s e :
  session_schema s = true -> ses_status s = Starting ->
  hoare G t (fun w => ready w /\ stored_as (session_key (in_project_id input) id) s e w)
    (check_created input (session_key (in_project_id input) id) e s) (fun _ => ready).
Proof.
  intros Hs Hst. unfold check_created. destruct (truthy (in_source_version_id input)) as [v|].
  2: { apply hoare_ret; [apply _|]. by intros w [? _]. }
  eapply hoare_handle; [apply cutoff_read_spec, _|]. intros [c|er].
  - destruct (truthy c) as [c'|]; [|apply hoare_ret; [apply _|]; by intros w [? _]].
    destruct (String.leb v c'); [|apply hoare_ret; [apply _|]; by intros w [? _]].
    eapply hoare_bind; [by apply fail_created_spec| |]; intros a; by apply hoare_throw; [apply _|].
  - eapply hoare_bind; [by apply fail_created_spec| |]; intros a; by apply hoare_throw; [apply _|].
Qed.

(** The id a creation uses: its own, or one it draws. *)
Definition may_create (t : tid) (input : CreateSessionInput) w : Prop :=
  match in_session_id input with Some id => owned t id w | None => True end.
Definition holding (t : tid) (id : SessionId) w : Prop := sinv w /\ wf w /\ owned t id w.
#[export] Instance stable_holding t id : Stable G t (holding t id).
Proof. apply others_owned_id. Qed.

Lemma choose_id_spec t input :
  hoare G t (fun w => ready w /\ may_create t input w)
    (match in_session_id input with Some id => mret id | None => call (OFreshId "sess") end)
    (fun r w => match r with Ok id => holding t id w | Err _ => ready w end).
Proof.
  unfold may_create. destruct (in_session_id input) as [id|].
  - apply hoare_pre with (P := holding t id); [by intros w [[? ?] ?]|]. by apply hoare_ret; [apply _|].
  - apply hoare_call; [apply _|intros []; apply _|]. intros w r w' [[Hw Hi] _] [Hs|[? _]]; [|done].
    destruct Hs as (id & Hid & Hn & -> & ->). pose proof (session_step_issue t w id Hn) as Hst.
    split; [by apply as_step|]. destruct Hst as ([Hg _ _ _ _] & Hsi & _).
    split; [by apply Hsi|]. split; [by apply Hg|]. by apply fresh_owned.
Qed.

Lemma hoare_nowIso t P `{!Stable G t P} `{!KeepsIds P} : (forall w, P w -> wf w) ->
  hoare G t P nowIso (fun r w => (exists now, r = Ok now /\ utcTimestamp now = true) /\ P w).
Proof.
  intros Hwf. apply (hoare_local G t P nowIso (fun r => exists now, r = Ok now /\ utcTimestamp now = true)); [done|].
  apply (local_now (B := B)). intros n Hn. eexists. split; [done|]. by apply iso_now_valid.
Qed.

#[export] Instance keeps_holding t id : KeepsIds (holding t id).
Proof.
  intros t' w id' Hn (Hi & Hw & Hid & Hiss & Hh). split; [by apply keeps_ids|]. split; [by apply keeps_ids|].
  split; [done|]. split; [|done]. cbn. rewrite lookup_insert_ne; [done|]. by intros ->; simplify_eq.
Qed.

(** Storing the new record, and the record itself. *)
Lemma put_created_spec t s e0 :
  session_schema s = true -> ses_status s = Starting ->
  let k := session_key (ses_project_id s) (ses_session_id s) in e0 = stringify s ->
  hoare G t (holding t (ses_session_id s)) (call (OPut k e0 Always))
    (put_post ready (fun i w => ready w /\ stored_as k s (i_etag i) w)).
Proof.
  intros Hs Hst k ->. eapply hoare_post; [|apply (hoare_put G t k _ Always (holding t (ses_session_id s)) (fun i w => ready w /\ stored_as k s (i_etag i) w))].
  - intros [i|[]] w; cbn; try done; [by intros (? & ? & _)|]. intros [(? & ? & _)|(i & ? & _)]; by left.
  - intros w e (Hi & Hw & Ho) _ He obj.
    pose proof (session_step_create t w (ses_project_id s) s e Ho Hs Hst eq_refl He) as Hstep.
    split; [by apply as_step|]. destruct Hstep as ([Hg _ _ _ _] & Hsi & _). split; [by split; auto|].
    exists obj. split; [exists t; by left|done].
Qed.

Lemma create_spec t input : input_ok input ->
  hoare G t (fun w => ready w /\ may_create t input w) (createSession input) (fun _ => ready).
Proof.
  intros Hin. unfold createSession.
  destruct (match in_kernel_auth_token input with Some tok => negb (is_kernel_auth_token tok) | None => false end) eqn:Htok.
  { intros w [Hw _] w1 Hr. by eapply (stable_rely _ _ ready). }
  eapply hoare_bind; [apply choose_id_spec| |intros e; by apply hoare_throw; [apply _|]].
  intros id. eapply hoare_bind; [apply hoare_nowIso; [apply _|apply _|by intros w (_ & ? & _)]| |].
  2: { intros e. apply hoare_throw; [apply _|]. by intros w [(? & ? & _) _]. }
  intros now. apply hoare_pure. intros (now' & [= <-] & Hnow).
  intros w Hh. assert (Hid : is_id "sess" id = true) by (by destruct Hh as (_ & _ & ? & _)). revert w Hh.
  set (s := new_session input id now). assert (Hs : session_schema s = true) by (by apply created_schema).
  change (hoare G t (holding t (ses_session_id s))
    (written ← call (OPut (session_key (ses_project_id s) (ses_session_id s)) (stringify s) Always);
     check_created input (session_key (in_project_id input) (ses_session_id s)) (i_etag written) s) (fun _ => ready)).
  eapply hoare_bind; [by apply put_created_spec| |].
  - intros i. by apply check_created_spec.
  - intros e. apply hoare_throw; [destruct e; apply _|]. intros w. destruct e; cbn; try done.
    by intros [?|(i & ? & _)].
Qed.

(** *** Scans *)

(** A record read by a scan was stored at that key with that tag. *)
Definition scanned (k : key) (r : option (Session * string)) w : Prop :=
  match r with
  | Some (s, e) => exists obj, logged k obj w /\ o_etag obj = e /\ parse (o_body obj) = Some s
  | None => True
  end.
#[export] Instance persistent_scanned k r : Persistent (scanned k r).
Proof. unfold scanned. destruct r as [[s e]|]; apply _. Qed.

Lemma record_cache_get_spec t k e :
  hoare G t ready (record_cache_get k e) (fun r w => ready w /\ match r with Ok r => scanned k ((fun s => (s, e)) <$> r) w | Err _ => True end).
Proof.
  unfold record_cache_get. destruct (e === ""); [by apply hoare_ret; [apply _|]|].
  eapply hoare_bind with (M := fun r w => ready w /\ match r with Ok x => scanned k ((fun p => (p.2, p.1)) <$> x) w | Err _ => True end).
  - apply hoare_call; [apply _|intros []; apply _|]. intros w r w' [Hw Hi] [[-> Hs]|[? _]]; [|done].
    split; [apply protocol_idle|]. split; [done|]. destruct Hs as [->|([e' s] & Hin & ->)]; [done|].
    destruct (si_cache _ Hi _ _ _ Hin) as (t' & o & Hl & He & Hp). exists o. split; [by exists t'|done].
  - intros [[e' s]|]; (apply hoare_ret; [apply _|]); intros w [Hw Hs]; split; try done.
    case_bool_decide; [by subst|done].
  - intros er. apply hoare_throw; [apply _|]. by intros w [? _].
Qed.

(** The records that should be found, and what is known of one that was not in the store. *)
Section Found.
Context (F : world B V -> Prop) `{!Kept G F} (wanted : key -> Prop) (D : key -> world B V -> Prop) (D_kept : forall k, Kept G (D k)).
Context (absent : forall w k, ready w -> F w -> wanted k -> store w !! k = None -> D k w).
Definition awake w : Prop := ready w /\ F w.
#[local] Instance stable_awake t : Stable G t awake.
Proof. unfold awake. apply _. Qed.

Definition scan_result (k : key) (x : option (Session * string)) w : Prop :=
  match x with Some p => scanned k (Some p) w | None => wanted k -> skey k -> D k w end.
#[export] Instance kept_scan_result k x : Kept G (scan_result k x).
Proof. destruct x as [p|]; [apply (kept_persistent G (scanned k (Some p))), persistent_scanned|unfold scan_result; apply _]. Qed.

Definition read_object (k : key) (x : option (object B)) w : Prop :=
  awake w /\ match x with
             | Some o => logged k o w /\ (skey k -> is_Some (parse (T := Session) (o_body o)))
             | None => wanted k -> D k w
             end.
#[local] Instance stable_read_object t k x : Stable G t (read_object k x).
Proof. unfold read_object. destruct x; apply _. Qed.

Lemma read_object_spec t k : hoare G t awake (call (OGet k))
  (fun r w => match r with Ok x => read_object k x w | Err _ => awake w end).
Proof.
  eapply hoare_post; [|apply (hoare_get G t k awake (read_object k))].
  - intros [x|e] w; [done|]. by intros [? _].
  - intros w Hw. split; [done|]. destruct Hw as [[Hw Hi] HF]. destruct (store w !! k) as [o|] eqn:E; [|intros ?; by apply absent].
    pose proof (wf_stored w Hw k o E) as [t' Hl]. split; [by exists t'|]. intros Hk.
    destruct (si_records _ Hi _ _ _ Hk Hl) as (s & -> & _). eauto.
Qed.

Lemma record_cache_set_spec t k o s : parse (o_body o) = Some s ->
  hoare G t (fun w => awake w /\ logged k o w) (record_cache_set k (o_etag o) s) (fun _ w => awake w /\ logged k o w).
Proof.
  intros Hp. unfold record_cache_set. destruct (o_etag o === ""); [by apply hoare_ret; [apply _|]|].
  apply hoare_call; [apply _|apply _|]. intros w r w' [[[Hw Hi] HF] Hl] [[-> ->]|[? _]]; [|done].
  pose proof (session_step_cache t w k (o_etag o) s o Hl eq_refl Hp) as Hst.
  assert (HG : G t w (set_cache w ((k, (o_etag o, s)) :: cache w))) by (by apply as_step). split; [done|].
  destruct Hst as (Hg & Hsi & _). split; [split; [split; [by apply Hg|auto]|]|]; [by eapply kept_step|by eapply persistent].
Qed.

Lemma scan_one_found t throwing obj :
  hoare G t awake (scan_one throwing obj)
    (fun r w => awake w /\ match r with Ok x => scan_result (i_key obj) x w | Err _ => True end).
Proof.
  unfold scan_one. eapply hoare_bind; [apply hoare_keep with (F := F); [apply _|apply record_cache_get_spec]| |].
  2: { intros e. apply hoare_throw; [apply _|]. by intros w [[? _] ?]. }
  intros [s|].
  { apply hoare_ret; [apply _|]. by intros w [[? ?] ?]. }
  apply hoare_pre with (P := awake); [by intros w [[? _] ?]|].
  eapply hoare_bind; [apply read_object_spec| |intros e; apply hoare_throw; [exact (stable_awake t)|by intros w Hw]].
  intros [o|]; [|apply hoare_ret; [apply _|]; intros w [Hw H]; split; [done|]; intros Hwk _; by apply H].
  destruct (parse (o_body o)) as [s|] eqn:Hp.
  - apply hoare_pre with (P := fun w => awake w /\ logged (i_key obj) o w); [by intros w [? [? _]]|].
    eapply hoare_bind; [by apply record_cache_set_spec| |intros e; apply hoare_throw; [apply _|]; by intros w [? _]].
    intros []. apply hoare_ret; [apply _|]. intros w [Hw Hl]. split; [done|]. exists o. auto.
  - destruct throwing; [apply hoare_throw|apply hoare_ret]; try apply _; [by intros w [? _]|].
    intros w [Hw [_ H]]. split; [done|]. intros _ Hk. rewrite Hp in H. by destruct (H Hk).
Qed.

(** A scan that keeps whole records finds them. *)
Lemma scan_found t throwing objects :
  hoare G t awake (scan_objects whole_record throwing objects)
    (fun r w => awake w /\ match r with
                           | Ok l => forall k, k ∈ map i_key objects -> wanted k -> skey k ->
                                       (exists s e, s ∈ l /\ scanned k (Some (s, e)) w) \/ D k w
                           | Err _ => True
                           end).
Proof.
  induction objects as [|obj objects IH].
  { apply hoare_ret; [exact (stable_awake t)|]. intros w Hw. split; [done|]. intros k Hk. by apply not_elem_of_nil in Hk. }
  cbn [scan_objects]. eapply hoare_bind; [apply scan_one_found| |intros e; apply hoare_throw; [apply _|]; by intros w [? _]].
  intros r. eapply hoare_bind with (M := fun r' w => (awake w /\ scan_result (i_key obj) r w) /\
    r' = Ok (match r with Some (s, _) => [s] | None => [] end)).
  { destruct r as [[s e]|]; (apply hoare_ret; [apply _|]); by intros w Hw. }
  2: { intros e. apply hoare_throw; [apply _|]. by intros w [_ ?]. }
  intros l. eapply hoare_bind with (M := fun r' w => (awake w /\ match r' with
       | Ok l => forall k, k ∈ map i_key objects -> wanted k -> skey k -> (exists s e, s ∈ l /\ scanned k (Some (s, e)) w) \/ D k w
       | Err _ => True end) /\ scan_result (i_key obj) r w /\ l = match r with Some (s, _) => [s] | None => [] end).
  - eapply hoare_pre; [|apply hoare_keep; [apply _|exact IH]]. by intros w [[? ?] [= ->]].
  - intros l'. apply hoare_ret; [apply _|]. intros w [[Hw Hl] [Hr ->]]. split; [done|]. intros k Hk Hwk Hsk.
    apply elem_of_cons in Hk as [->|Hk].
    + destruct r as [[s e]|]; [left; exists s, e; split; [by left|done]|right; by apply Hr].
    + destruct (Hl k Hk Hwk Hsk) as [(s & e & Hin & H)|?]; [|by right]. left. exists s, e. split; [|done].
      apply elem_of_app. by right.
  - intros e. apply hoare_throw; [apply _|]. by intros w [[? _] _].
Qed.

(** Listing the prefix and reading what it lists. *)
Lemma scan_prefix_found t fuel prefix throwing :
  (forall k, is_Some (startsWith prefix k) -> skey k) ->
  hoare G t awake (scanPrefix fuel prefix whole_record throwing)
    (fun r w => awake w /\ match r with
                           | Ok l => forall k, wanted k -> is_Some (startsWith prefix k) ->
                                       (exists s e, s ∈ l /\ scanned k (Some (s, e)) w) \/ D k w
                           | Err _ => True
                           end).
Proof.
  intros Hpre. unfold scanPrefix. eapply hoare_bind.
  { apply (hoare_listAllObjects G t prefix awake (fun w Hw => ready_wf w (proj1 Hw)) wanted D D_kept).
    intros w k [Hw HF] Hwk Hn. by apply absent. }
  2: { intros e. apply hoare_throw; [apply _|]. by intros w [? _]. }
  intros objects. eapply hoare_pre with (P := fun w => awake w /\ covered prefix wanted D (map i_key objects) w).
  { by intros w (? & _ & ?). }
  eapply hoare_post; [|apply (hoare_keep G t) with (F := covered prefix wanted D (map i_key objects)); [unfold covered; apply _|apply scan_found]].
  intros [l|e] w [[Hw Hl] Hc]; split; try done. intros k Hwk Hk. destruct (Hc k Hwk Hk) as [Hin|?]; [|by right]. auto.
Qed.
End Found.

Lemma scan_prefix_spec t fuel prefix throwing :
  (forall k, is_Some (startsWith prefix k) -> skey k) ->
  hoare G t ready (scanPrefix fuel prefix whole_record throwing) (fun _ => ready).
Proof.
  intros Hpre. eapply hoare_pre; [|eapply hoare_post; [|apply (scan_prefix_found (fun _ => True) (fun _ => False) (fun _ _ => False) _); [done|exact Hpre]]].
  - by intros w Hw.
  - by intros r w [[? _] _].
Qed.

Lemma project_prefix p k : is_Some (startsWith (sessionsForProject p) k) -> skey k.
Proof. apply (startsWith_trans "_system/sessions/"). Qed.

Lemma scan_one_spec t throwing obj :
  hoare G t ready (scan_one throwing obj)
    (fun r w => ready w /\ match r with Ok x => scanned (i_key obj) x w | Err _ => True end).
Proof.
  eapply hoare_pre; [|eapply hoare_post; [|apply (scan_one_found (fun _ => True) (fun _ => False) (fun _ _ => False) _)]].
  - by intros w Hw.
  - intros [[p|]|e] w [[? _] ?]; done.
  - done.
Qed.
End Ops.
End Replicas.
