(* ===== verification/SessionRequests.v ===== *)
(** * Session histories

    The requests replicas make of the session service, all of them verified against the
    contract of a session record; what follows for every interleaving. *)

From Stdlib Require Import ZArith Lia.
From stdpp Require Import relations.
From S2P Require Import Prelude Constants Lifecycle Schema UtcDate Store Cas Storage CasTheorems CasEffects Listing SessionData AppPoolRouter AppPool SessionService SessionProtocol SessionReplicas.

Section Requests.
Context {B : Type} `{!EqDecision B}.
Context {CSe : Codec B Session} {CCu : Codec B VersionPruneCutoff} {CP : Codec B AppPool}.
Context (schema_valid : forall s : Session, valid s <-> session_schema s = true).
Local Abbreviation V := (string * Session)%type (only parsing).
Local Notation prog := (prog B V).
Implicit Types w : world B V.

Section Sweeps.
Context (G : tid -> world B V -> world B V -> Prop) `{!Protocol G} `{!AllowsSessions G}.

(** ** Expiry *)

Lemma read_pool_spec t P pid nid `{!Stable G t P} :
  hoare G t P (AppPool.read pid nid) (fun _ => P).
Proof.
  unfold AppPool.read. eapply hoare_bind.
  - by apply (hoare_get G t _ P (fun _ => P)).
  - intros [o|]; [|by apply hoare_ret]. unfold readStored. destruct (parse (o_body o)).
    + apply hoare_ret_bind. by apply hoare_ret.
    + by apply hoare_throw.
  - intros e. apply hoare_throw; [apply _|]. by intros w [? _].
Qed.

Lemma read_pool_once_spec t P pid nid seen `{!Stable G t P} :
  hoare G t P (read_pool_once pid nid seen) (fun _ => P).
Proof.
  unfold read_pool_once. destruct (obj_get _ seen); [by apply hoare_ret|].
  eapply hoare_bind; [apply read_pool_spec, _|intros p; by apply hoare_ret|intros e; by apply hoare_throw].
Qed.

Lemma expire_put_spec t obj s e target seen :
  skey (i_key obj) -> SessionState.nextStatus (ses_status s) SessionState.EvExpire = Some target ->
  hoare G t (fun w => ready w /\ scanned (i_key obj) (Some (s, e)) w)
    (handle (call (OPut (i_key obj) (stringify (s <| ses_status := target |>)) (onlyIfEtagMatches e))) (fun r =>
       match r with
       | Ok _ => mret (true, seen)
       | Err PreconditionFailedError => mret (false, seen)
       | Err err => Throw err
       end)) (fun (_ : result (error V) (bool * list (key * option AppPool))) => ready).
Proof.
  intros Hk Hn. eapply hoare_handle with (M := fun _ => ready).
  2: { intros [i|[]]; first [by apply hoare_ret; [apply _|] | by apply hoare_throw; [apply _|]]. }
  eapply hoare_post; [|apply (hoare_put G t _ _ _ (fun w => ready w /\ scanned (i_key obj) (Some (s, e)) w) (fun _ => ready))].
  - intros [i|[]] w; cbn; try done; [by intros [? _]|]. by intros [[? _]|[_ ?]].
  - intros w e' [[Hw Hi] (o & Hl & <- & Hp)] Hh He' obj'.
    destruct (holds_etag_body _ _ _ Hw Hl Hh) as (o' & Ho' & Hbody). rewrite <- Hbody in Hp.
    assert (Ha : applied s (s <| ses_status := target |>)).
    { apply expired_applied; [done|]. by eapply schema_valid, parse_valid. }
    pose proof (session_step_evolve schema_valid t w _ o' s _ e' Hw Hk Ho' Hp Ha He') as Hst.
    split; [by apply as_step|]. destruct Hst as ([Hg _ _ _ _] & Hsi & _). split; auto.
Qed.

Lemma expire_one_spec t now s obj e seen : skey (i_key obj) ->
  hoare G t (fun w => ready w /\ scanned (i_key obj) (Some (s, e)) w) (expire_one now s obj e seen) (fun _ => ready).
Proof.
  intros Hk. set (P := fun w => ready w /\ scanned (i_key obj) (Some (s, e)) w).
  assert (HP : Stable G t P) by (unfold P; apply _). assert (Hready : forall w, P w -> ready w) by (by intros w [? _]).
  unfold expire_one. destruct (SessionState.isTerminal (ses_status s)); [by apply hoare_ret|].
  eapply hoare_bind with (M := fun _ => P).
  - destruct (_ && _); [|by apply hoare_ret].
    eapply hoare_bind; [apply read_pool_once_spec, HP|intros [pool seen']; by apply hoare_ret|intros er; by apply hoare_throw].
  - intros [managed seen']. destruct managed; [by apply hoare_ret|].
    destruct (negb (silent_for now HEARTBEAT_TTL_MS s)); [by apply hoare_ret|].
    destruct (SessionState.nextStatus (ses_status s) SessionState.EvExpire) as [target|] eqn:En; [|by apply hoare_ret].
    by apply expire_put_spec.
  - intros er. by apply hoare_throw.
Qed.

Lemma expire_objects_spec t now objects seen : (forall i, i ∈ objects -> skey (i_key i)) ->
  hoare G t ready (expire_objects now objects seen) (fun _ => ready).
Proof.
  revert seen. induction objects as [|obj objects IH]; intros seen Hk; [by apply hoare_ret; [apply _|]|].
  cbn [expire_objects]. eapply hoare_bind; [apply scan_one_spec; apply _| |].
  2: { intros e. apply hoare_throw; [apply _|]. by intros w [? _]. }
  intros r. eapply hoare_bind with (M := fun _ => ready).
  - destruct r as [[s e]|]; [|apply hoare_ret; [apply _|]; by intros w [? _]].
    eapply hoare_bind; [apply expire_one_spec; apply Hk; by left| |].
    + intros [b seen']. by apply hoare_ret; [apply _|].
    + intros er. by apply hoare_throw; [apply _|].
  - intros [n seen']. eapply hoare_bind; [apply IH| |].
    + intros i Hi. apply Hk. by right.
    + intros m. by apply hoare_ret; [apply _|].
    + intros er. by apply hoare_throw; [apply _|].
  - intros er. by apply hoare_throw; [apply _|].
Qed.

Lemma sweep_now_spec t P `{!Stable G t P} : hoare G t P now_ms (fun r w => (exists n, r = Ok n) /\ P w).
Proof.
  eapply hoare_post; [|apply (hoare_now G t P (fun _ => True)); done]. intros r w (n & -> & _ & _ & ?). eauto.
Qed.

Lemma listed_sessions_spec t fuel :
  hoare G t ready (listAllObjects fuel sessionsPrefix)
    (fun r w => ready w /\ match r with Ok l => forall i, i ∈ l -> skey (i_key i) | Err _ => True end).
Proof.
  eapply hoare_post; [|apply (hoare_list_entries G t sessionsPrefix ready fuel); by intros w [? _]].
  intros [l|e] w [? H]; split; try done. intros i Hi. by apply H.
Qed.

Lemma expire_spec t fuel : hoare G t ready (expireStale fuel) (fun _ => ready).
Proof.
  unfold expireStale. eapply hoare_bind; [apply sweep_now_spec, _| |intros e; apply hoare_throw; [apply _|]; by intros w [_ ?]].
  intros now. apply hoare_pre with (P := ready); [by intros w [_ ?]|].
  eapply hoare_bind; [apply listed_sessions_spec| |intros e; apply hoare_throw; [apply _|]; by intros w [? _]].
  intros l w [Hw Hl]. by apply expire_objects_spec.
Qed.

(** ** Reaping *)

(** The keys a scan selects for removal. *)
Lemma reap_scan_spec t now retention objects : (forall i, i ∈ objects -> skey (i_key i)) ->
  hoare G t ready (scan_objects (reap_candidate now retention) false objects)
    (fun r w => ready w /\ match r with Ok l => forall k, Some k ∈ l -> seen_gone k w | Err _ => True end).
Proof.
  induction objects as [|obj objects IH]; intros Hk.
  { apply hoare_ret; [apply _|]. intros w Hw. split; [done|]. intros k H. by apply not_elem_of_nil in H. }
  cbn [scan_objects]. eapply hoare_bind; [apply scan_one_spec; apply _| |].
  2: { intros e. apply hoare_throw; [apply _|]. by intros w [? _]. }
  intros r. eapply hoare_bind with (M := fun r w => ready w /\ match r with Ok l => forall k, Some k ∈ l -> seen_gone k w | Err _ => True end).
  - destruct r as [[s e]|].
    2: { apply hoare_ret; [apply _|]. intros w [Hw _]. split; [done|]. intros k H. by apply not_elem_of_nil in H. }
    apply hoare_ret_bind. apply hoare_ret; [apply _|]. intros w [Hw (o & [t' Hl] & _ & Hp)]. split; [done|].
    intros k Hin. apply list_elem_of_singleton in Hin. destruct (reapable now retention s) eqn:Er; [|done].
    injection Hin as ->. split; [apply Hk; by left|]. exists t', o, s. split; [done|]. split; [done|].
    unfold reapable in Er. rewrite !andb_true_iff, negb_true_iff in Er. by destruct Er as [[? ?] _].
  - intros l. eapply hoare_bind.
    + apply (hoare_keep G t ready) with (F := fun w => forall k, Some k ∈ l -> seen_gone k w); [apply _|]. apply IH.
      intros i Hi. apply Hk. by right.
    + intros l'. apply hoare_ret; [apply _|]. intros w [[Hw Hl'] Hl]. split; [done|]. intros k. rewrite elem_of_app. intros [?|?]; auto.
    + intros e. apply hoare_throw; [apply _|]. by intros w [[? _] _].
  - intros e. apply hoare_throw; [apply _|]. by intros w [? _].
Qed.

Lemma reap_spec t fuel retention : hoare G t ready (reapTerminated fuel retention) (fun _ => ready).
Proof.
  unfold reapTerminated. eapply hoare_bind; [apply sweep_now_spec, _| |intros e; apply hoare_throw; [apply _|]; by intros w [_ ?]].
  intros now. apply hoare_pre with (P := ready); [by intros w [_ ?]|].
  eapply hoare_bind with (M := fun r w => ready w /\ match r with Ok l => forall k, Some k ∈ l -> seen_gone k w | Err _ => True end).
  - unfold scanSessions, scanPrefix. eapply hoare_bind; [apply listed_sessions_spec| |].
    + intros l w [Hw Hl]. by apply reap_scan_spec.
    + intros e. apply hoare_throw; [apply _|]. by intros w [? _].
  - intros l. assert (Hin : forall k, k ∈ omap id l -> Some k ∈ l).
    { intros k Hk. apply list_elem_of_omap in Hk as (x & Hx & E). cbn in E. by subst x. }
    destruct (omap id l) as [|k ks]; [apply hoare_ret; [apply _|]; by intros w [? _]|].
    eapply hoare_bind with (M := fun _ => ready).
    + apply hoare_delete; [apply _|apply _|apply _|]. intros w ks' [[Hw Hi] Hg] Hks.
      assert (Hst : session_step t w (remove w ks')).
      { apply session_step_reap. intros k' Hk'. apply Hg, Hin. by apply Hks. }
      split; [by apply as_step|]. destruct Hst as ([Hgr _ _ _ _] & Hsi & _). split; auto.
    + intros []. by apply hoare_ret; [apply _|].
    + intros e. by apply hoare_throw; [apply _|].
  - intros e. apply hoare_throw; [apply _|]. by intros w [? _].
Qed.
End Sweeps.

(** ** Requests *)

Inductive request :=
| RCreate (input : CreateSessionInput)
| RRunning (pid : ProjectId) (id : SessionId) (url : string) (fallback : option bool) (origin expires : option string)
    (pins : option (list IntegrationPin)) (deadline : option Timestamp)
| RExtend (pid : ProjectId) (id : SessionId) (at_ : Timestamp)
| RTighten (pid : ProjectId) (id : SessionId) (deadline : Timestamp)
| RSnapshotted (pid : ProjectId) (id : SessionId) (at_ : Timestamp)
| RSurfaceStart (pid : ProjectId) (id : SessionId) (surface : SurfaceId) (replace : option ReplaceReady)
| RSurfaceAttempt (pid : ProjectId) (id : SessionId) (surface : SurfaceId) (attempt : string) (state : SurfaceState)
| RSurfaceStop (pid : ProjectId) (id : SessionId) (surface : SurfaceId)
| RSurfaceStopAttempt (pid : ProjectId) (id : SessionId) (surface : SurfaceId) (attempt : string) (state : SurfaceState)
| RSurfaceState (pid : ProjectId) (id : SessionId) (surface : SurfaceId) (state : SurfaceState)
| RReclaimed (pid : ProjectId) (id : SessionId) (at_ : Timestamp) (sandbox : option SandboxId)
| RReplaceSandbox (pid : ProjectId) (id : SessionId) (expected sandbox : SandboxId)
| RCaptured (pid : ProjectId) (id : SessionId) (at_ : Timestamp)
| RHeartbeat (pid : ProjectId) (id : SessionId)
| RTerminate (pid : ProjectId) (id : SessionId) (by_ : option UserId)
| RTerminated (pid : ProjectId) (id : SessionId)
| RFailed (pid : ProjectId) (id : SessionId) (err : option SessionError)
| RConnections (pid : ProjectId) (id : SessionId) (n : Z) (at_ : Timestamp)
| RExpire (fuel : nat)
| RReap (fuel : nat) (retention : option Z).

(** Inputs within the schema: times are timestamps, ids have their format. *)
Definition request_ok (r : request) : Prop :=
  match r with
  | RCreate input => input_ok input
  | RRunning _ _ url _ _ expires pins deadline =>
      url <> "" /\ optional utcTimestamp expires = true /\ optional utcTimestamp deadline = true /\ pins_ok pins = true
  | RExtend _ _ at_ | RTighten _ _ at_ | RSnapshotted _ _ at_ | RReclaimed _ _ at_ _ | RCaptured _ _ at_ => utcTimestamp at_ = true
  | RSurfaceAttempt _ _ _ _ state | RSurfaceStopAttempt _ _ _ _ state | RSurfaceState _ _ _ state => surface_schema state = true
  | RReplaceSandbox _ _ _ sandbox => is_id "sb" sandbox = true
  | RTerminate _ _ by_ => optional is_user_id by_ = true
  | RConnections _ _ n at_ => (0 <= n)%Z /\ utcTimestamp at_ = true
  | _ => True
  end.

(** What a request answers, of which only [transitioned] of a stop is kept. *)
Definition perform (r : request) : prog (option bool) :=
  match r with
  | RCreate input => createSession input ≫= fun _ => mret None
  | RRunning pid id url fallback origin expires pins deadline =>
      setRunning pid id url fallback origin expires pins deadline ≫= fun _ => mret None
  | RExtend pid id at_ => extendExpiry pid id at_ ≫= fun _ => mret None
  | RTighten pid id d => tightenAuthorizationDeadline pid id d ≫= fun _ => mret None
  | RSnapshotted pid id at_ => markSnapshotted pid id at_ ≫= fun _ => mret None
  | RSurfaceStart pid id surface replace => beginSurfaceStart pid id surface replace ≫= fun _ => mret None
  | RSurfaceAttempt pid id surface attempt state => setSurfaceStateForAttempt pid id surface attempt state ≫= fun _ => mret None
  | RSurfaceStop pid id surface => beginSurfaceStop pid id surface ≫= fun _ => mret None
  | RSurfaceStopAttempt pid id surface attempt state => setSurfaceStateForStopAttempt pid id surface attempt state ≫= fun _ => mret None
  | RSurfaceState pid id surface state => setSurfaceState pid id surface state ≫= fun _ => mret None
  | RReclaimed pid id at_ sandbox => markSandboxReclaimed pid id at_ sandbox ≫= fun _ => mret None
  | RReplaceSandbox pid id expected sandbox => replaceStartingSandbox pid id expected sandbox ≫= fun _ => mret None
  | RCaptured pid id at_ => markTakeoverCaptureCompleted pid id at_ ≫= fun _ => mret None
  | RHeartbeat pid id => session_heartbeat pid id ≫= fun _ => mret None
  | RTerminate pid id by_ => beginTerminating pid id by_ ≫= fun r => mret (Some r.1)
  | RTerminated pid id => markTerminated pid id ≫= fun _ => mret None
  | RFailed pid id err => markFailedWithOutcome pid id err ≫= fun _ => mret None
  | RConnections pid id n at_ => markConnections pid id n at_ ≫= fun _ => mret None
  | RExpire fuel => expireStale fuel ≫= fun _ => mret None
  | RReap fuel retention => reapTerminated fuel retention ≫= fun _ => mret None
  end.

Section Verified.
Context (G : tid -> world B V -> world B V -> Prop) `{!Protocol G} `{!AllowsSessions G}.

(** A creation that brings its id has it drawn already. *)
Definition may (t : tid) (r : request) w : Prop :=
  match r with RCreate input => may_create t input w | _ => True end.

(** The step from a session in use to a terminating one was [t]'s. *)
Definition stopped_by (t : tid) (k : key) w : Prop :=
  exists s s', committed t k s s' w /\ closing_status (ses_status s) = false /\ ses_status s' = Terminating.

Definition answered (t : tid) (r : request) (res : result (error V) (option bool)) w : Prop :=
  ready w /\ match r, res with RTerminate pid id _, Ok (Some true) => stopped_by t (session_key pid id) w | _, _ => True end.

Lemma ignore_spec t {A} P (p : prog A) r :
  (forall pid id by_, r <> RTerminate pid id by_) ->
  hoare G t P p (fun _ => ready) -> hoare G t P (p ≫= fun _ => mret None) (answered t r).
Proof.
  intros Hr Hp. eapply hoare_bind; [exact Hp| |].
  - intros a. apply hoare_ret; [apply _|]. intros w Hw. split; [done|]. by destruct r.
  - intros e. apply hoare_throw; [apply _|]. intros w Hw. split; [done|]. by destruct r.
Qed.

(** Changes that keep no variables, and functions of the record among them. *)
Lemma pure_spec t pid id f :
  (forall s s', session_schema s = true -> f s = Some s' -> applied s s') ->
  hoare G t ready (mutate_ pid id (pure_apply f)) (fun _ => ready).
Proof. intros Hf. apply mutate__spec; [done|apply _..|]. intros s Hs. apply local_pure. auto. Qed.

(** Changes whose caller keeps a variable that does not matter here. *)
Lemma keeping_spec t pid id {X} (apply : Session -> prog (X * option Session)) :
  (forall s, session_schema s = true -> local_post (apply s) (change_ok s)) ->
  hoare G t ready (mutate_session pid id apply) (fun _ => ready).
Proof.
  intros Ha. eapply hoare_post; [|apply (mutate_session_spec schema_valid G t pid id apply (fun _ _ _ => True) (fun _ _ => True))].
  - by intros r w [? _].
  - intros s Hs. eapply local_weaken; [|by apply Ha]. by intros [[x [s'|]]|e].
Qed.

Lemma surface_start_spec t pid id surface replace : hoare G t ready (beginSurfaceStart pid id surface replace) (fun _ => ready).
Proof.
  unfold beginSurfaceStart. eapply hoare_bind.
  { apply (hoare_local G t ready randomUUID (fun _ => True)); [by intros w [? _]|done]. }
  2: { intros e. apply hoare_throw; [apply _|]. by intros w [_ ?]. }
  intros attempt. apply hoare_pre with (P := ready); [by intros w [_ ?]|].
  eapply hoare_bind.
  { apply (hoare_local G t ready now_ms (fun r => match r with Ok n => (0 <= n < MAX_TIME)%Z | Err _ => False end)); [by intros w [? _]|].
    split; [done|]. by intros n Hn. }
  2: { intros e. apply hoare_throw; [apply _|]. by intros w [_ ?]. }
  intros now. apply hoare_pure. intros Hnow. eapply hoare_bind; [apply keeping_spec| |].
  - intros s Hs. cbn. unfold surface_start_fn. destruct (_ && _); [|done]. apply with_surface_applied; [|done].
    unfold surface_schema. cbn. by rewrite (iso_now_valid now Hnow).
  - intros [[tr cl] ses]. by apply hoare_ret; [apply _|].
  - intros e. by apply hoare_throw; [apply _|].
Qed.

Lemma surface_stop_spec t pid id surface : hoare G t ready (begin_surface_stop pid id surface) (fun _ => ready).
Proof.
  unfold begin_surface_stop. eapply hoare_bind.
  { apply (hoare_local G t ready randomUUID (fun _ => True)); [by intros w [? _]|done]. }
  2: { intros e. apply hoare_throw; [apply _|]. by intros w [_ ?]. }
  intros attempt. apply hoare_pre with (P := ready); [by intros w [_ ?]|].
  eapply hoare_bind; [apply keeping_spec| |].
  - intros s Hs. by apply surface_stop_local.
  - intros [[tr pr] ses]. by apply hoare_ret; [apply _|].
  - intros e. by apply hoare_throw; [apply _|].
Qed.

Lemma terminate_spec t pid id by_ : optional is_user_id by_ = true ->
  hoare G t ready (beginTerminating pid id by_ ≫= fun r => mret (Some r.1)) (answered t (RTerminate pid id by_)).
Proof.
  intros Hb. eapply hoare_bind.
  - apply (mutate_session_spec schema_valid G t pid id (terminate_fn by_)
      (fun s x s' => closing_status (ses_status s) = false /\ ses_status s' = Terminating) (fun _ x => x = false)).
    intros s Hs. eapply local_weaken; [|by apply terminate_local]. intros [[[] [s'|]]|e]; cbn; tauto.
  - intros [b s']. apply hoare_ret.
    + intros w w' Ho [Hw [(s & Hθ & Hc)|Hψ]]; [|by split; [eapply (stable_ready G t)|right]].
      destruct (stable_committed G t _ s s' (skey_session pid id) w w' Ho (conj Hw Hc)). split; [done|]. left. eauto.
    + intros w [Hw H]. split; [done|]. destruct b; [|done]. destruct H as [(s & [? ?] & Hc)|?]; [|done]. by exists s, s'.
  - intros e. apply hoare_throw; [apply _|]. by intros w [? _].
Qed.

Lemma failed_spec t pid id err : hoare G t ready (markFailedWithOutcome pid id err) (fun _ => ready).
Proof.
  unfold markFailedWithOutcome. eapply hoare_bind.
  - apply (mutate_record_spec schema_valid G t _ (skey_session pid id) (pure_apply (failed_fn err)) _ (fun _ _ _ => True) (fun _ _ => True)).
    intros s Hs. eapply local_weaken; [|apply (local_pure (failed_fn err) s); by eauto using failed_applied].
    by intros [[x [s'|]]|e].
  - intros [x o]. apply hoare_pre with (P := ready); [by intros w [? _]|]. by apply hoare_ret; [apply _|].
  - intros e. apply hoare_throw; [apply _|]. by intros w [? _].
Qed.

Lemma request_spec t r : request_ok r ->
  hoare G t (fun w => ready w /\ may t r w) (perform r) (answered t r).
Proof.
  intros Hr. destruct r; [apply ignore_spec; [done|by apply create_spec]|..];
    (eapply hoare_pre; [intros w Hw; exact (proj1 Hw)|]);
    cbn [request_ok] in Hr; cbn [perform]; try (apply ignore_spec; [discriminate|]).
  - destruct Hr as (? & ? & ? & ?). apply mutate__spec; [done|apply _..|]. intros s Hs. by apply set_running_local.
  - apply pure_spec. intros s s'. by apply extend_applied.
  - apply pure_spec. intros s s'. by apply tighten_applied.
  - apply pure_spec. intros s s' Hs [= <-]. apply (stamp_applied (fun s => s <| ses_last_snapshot_at := Some at_ |>)); [|done]. eauto.
  - apply surface_start_spec.
  - apply keeping_spec. intros s Hs. unfold surface_attempt_fn. cbn. destruct (surface_of _ _) as [st|]; [|done]. destruct (_ && _); [|done].
    by apply with_surface_applied.
  - apply surface_stop_spec.
  - apply keeping_spec. intros s Hs. unfold surface_stop_attempt_fn. cbn. destruct (surface_of _ _) as [st|]; [|done]. destruct (_ && _); [|done].
    by apply with_surface_applied.
  - apply pure_spec. intros s s' Hs. unfold surface_state_fn. destruct (_ && _); [done|]. intros [= <-].
    by apply with_surface_applied.
  - apply pure_spec. intros s s'. by apply reclaimed_applied.
  - apply mutate__spec; [done|apply _..|]. intros s Hs. by apply replace_sandbox_local.
  - apply pure_spec. intros s s' Hs [= <-]. apply (stamp_applied (fun s => s <| ses_takeover_capture_completed_at := Some at_ |>)); [|done].
    right. exists at_. auto.
  - apply mutate__spec; [done|apply _..|]. apply heartbeat_local.
  - by apply terminate_spec.
  - apply pure_spec. intros s s'. apply terminated_applied.
  - apply failed_spec.
  - destruct Hr. apply pure_spec. intros s s' Hs [= <-].
    apply (stamp_applied (fun s => s <| ses_active_connections := Some n |> <| ses_connections_checked_at := Some at_ |>)); [|done].
    right. exists at_. split; [done|]. right. right. by exists n.
  - apply expire_spec; [done|apply _..].
  - apply reap_spec; apply _.
Qed.
End Verified.

(** ** Any number of replicas *)

(** Steps that respect the records. *)
Definition G (t : tid) w w' : Prop :=
  grows w w' /\ (sinv w -> sinv w') /\ (sinv w -> forall k, skey k -> change t k w w').

#[local] Instance sessions_protocol : Protocol G.
Proof.
  split; [|by intros t w w' [? _]]. intros t w. split; [done|]. split; [done|]. intros _ k _. by apply ch_same.
Qed.
#[local] Instance sessions_allowed : AllowsSessions G.
Proof.
  split.
  - by intros t w w' (? & ? & ? & _).
  - by intros t w w' (_ & ? & _).
  - intros t w w' k (_ & _ & H) Hi Hk. by apply H.
Qed.

Definition start (rs : list request) w := Config (map perform rs) w.

(** Before the replicas start: a sound store, valid requests, ids drawn for who brings them. *)
Record admissible (rs : list request) w : Prop := {
  ad_ready : ready w;
  ad_ok r : r ∈ rs -> request_ok r;
  ad_ids t r : rs !! t = Some r -> may t r w;
}.

Lemma requests_verified rs w :
  admissible rs w -> verified G (fun t res w' => forall r, rs !! t = Some r -> answered t r res w') (start rs w).
Proof.
  intros [Hw Hok Hids] t p Ht. cbn in Ht. rewrite list_lookup_fmap in Ht.
  destruct (rs !! t) as [r|] eqn:E; [|done]. injection Ht as <-.
  eapply rg_weaken; [|apply (request_spec G t r); [by apply Hok, (list_elem_of_lookup_2 rs t)|by split; [|apply Hids]]].
  intros res w' H r' [= <-]. exact H.
Qed.

Lemma requests_ready rs w c : admissible rs w -> rtc pool_step (start rs w) c -> ready (wd c).
Proof.
  intros Ha Hr. eapply (pool_invariant G _ ready); [| |by apply requests_verified|by eapply ad_ready|done].
  - intros t w1 w2 (Hg & Hi & _) [? ?]. split; [by apply Hg|auto].
  - intros w1 ms Hms [? ?]. split; [by apply (grows_wf _ _ (grows_tick w1 ms Hms))|by apply sinv_tick].
Qed.

Lemma evolving_suffix l (h : list (tid * object B)) : evolving (l ++ h) -> evolving h.
Proof. induction l as [|[t o] l IH]; [done|]. intros [_ H]. by apply IH. Qed.

(** Any earlier record of a history evolves into any later one. *)
Lemma evolving_pair l1 t' o' l2 t o l3 s :
  evolving (l1 ++ (t', o') :: l2 ++ (t, o) :: l3) -> parse (o_body o) = Some s ->
  exists s', parse (o_body o') = Some s' /\ evolves s s'.
Proof.
  intros H%evolving_suffix Hp. eapply evolving_last; [exact H|done| |exact Hp].
  right. apply elem_of_app. right. by left.
Qed.

(** What is older than a commit evolved into the record it replaced. *)
Lemma commit_before l t o' t2 o2 l2 t' p' u' s :
  evolving (l ++ (t, o') :: (t2, o2) :: l2) -> (t', p') ∈ (t2, o2) :: l2 ->
  parse (o_body p') = Some u' -> parse (o_body o2) = Some s -> evolves u' s.
Proof.
  intros [_ He]%evolving_suffix Hin Hu Hs. destruct (evolving_last _ _ _ _ _ _ _ He eq_refl Hin Hu) as (x & Hx & ?).
  rewrite Hs in Hx. by injection Hx as <-.
Qed.

(** Of two commits in one history the older is the other's past. *)
Lemma commits_ordered t t' k s s' u u' w :
  evolving (hist k w) -> committed t k s s' w -> committed t' k u u' w -> t <> t' -> evolves u' s \/ evolves s' u.
Proof.
  intros He (l & o' & t2 & o2 & l2 & Hh & Hs & Hs') (m & p' & t3 & p3 & m2 & Hm & Hu & Hu') Hne.
  assert (Hc := Hm). rewrite Hh in Hc. apply app_eq_inv in Hc as [(k' & _ & Hk)|(k' & _ & Hk)].
  - right. rewrite Hm in He. eapply commit_before; [exact He| |exact Hs'|exact Hu].
    destruct k' as [|[t4 o4] k']; injection Hk; [by intros|]. intros -> _ _. apply elem_of_app. right. by left.
  - left. rewrite Hh in He. eapply commit_before; [exact He| |exact Hu'|exact Hs].
    destruct k' as [|[t4 o4] k']; injection Hk; [by intros|]. intros -> _ _. apply elem_of_app. right. by left.
Qed.

(** C6: session records follow their contract.  Whatever requests any number of replicas
    make of the session service, in any interleaving and with any storage faults: in the
    history of every session each record evolves into every later one (its identity
    fixed, its status along the session machine, its authorization deadline never later,
    its sandbox fixed once it has left [starting], its integration pins written once),
    and the stored record is the latest of them. *)
Theorem session_records_evolve rs w0 c k l1 t' o' l2 t o l3 :
  admissible rs w0 -> rtc pool_step (start rs w0) c -> skey k ->
  hist k (wd c) = l1 ++ (t', o') :: l2 ++ (t, o) :: l3 ->
  (exists s s', parse (o_body o) = Some s /\ parse (o_body o') = Some s' /\ evolves s s') /\
  (forall cur, store (wd c) !! k = Some cur -> exists t1 l, hist k (wd c) = (t1, cur) :: l).
Proof.
  intros Ha Hr Hk Hh. destruct (requests_ready rs w0 c Ha Hr) as [Hw Hi]. split; [|intros cur; by apply si_last].
  assert (Hl : (t, k, o) ∈ log (wd c)).
  { apply elem_of_hist. rewrite Hh. apply elem_of_app. right. right. apply elem_of_app. right. by left. }
  destruct (si_records _ Hi _ _ _ Hk Hl) as (s & Hp & _). pose proof (si_chain _ Hi k Hk) as He. rewrite Hh in He.
  destruct (evolving_pair _ _ _ _ _ _ _ _ He Hp) as (s' & Hp' & Hev). by exists s, s'.
Qed.

(** C23: exactly one racer owns a teardown: of all the stop requests for one session, at
    most one is told that its call made the transition, however they interleave with
    each other and with every other request. *)
Theorem session_stop_once rs w0 c pid id by1 by2 i j :
  admissible rs w0 -> rtc pool_step (start rs w0) c ->
  rs !! i = Some (RTerminate pid id by1) -> rs !! j = Some (RTerminate pid id by2) ->
  threads c !! i = Some (Ret (Some true)) -> threads c !! j = Some (Ret (Some true)) -> i = j.
Proof.
  intros Ha Hr Hi Hj Hri Hrj. destruct (decide (i = j)) as [|Hne]; [done|]. exfalso.
  pose proof (requests_verified rs w0 Ha) as Hv. destruct (requests_ready rs w0 c Ha Hr) as [_ Hinv].
  destruct (pool_result _ _ _ _ _ _ Hv Hr Hri _ Hi) as [_ (s & s' & Hc & Hs & Hs')].
  destruct (pool_result _ _ _ _ _ _ Hv Hr Hrj _ Hj) as [_ (u & u' & Hd & Hu & Hu')].
  destruct (commits_ordered _ _ _ _ _ _ _ _ (si_chain _ Hinv _ (skey_session pid id)) Hc Hd Hne) as [E|E];
    apply ev_status in E; apply reach_closing in E; rewrite ?Hs', ?Hu' in *; try done; congruence.
Qed.

(** A session with a history but no record any more ended that history over. *)
Definition gone_over w : Prop :=
  forall k t o l, skey k -> hist k w = (t, o) :: l -> store w !! k = None ->
  exists s, parse (o_body o) = Some s /\ over s /\ holds_sandbox s = false.

Lemma gone_over_step t w w' : (forall k, skey k -> change t k w w') -> sinv w -> gone_over w -> gone_over w'.
Proof.
  intros HG Hi Hg k t0 o0 l Hk Hh Hn.
  destruct (HG k Hk) as [E1 E2|o s _ E _ _ _ _ _|o o' s s' _ E _ _ _ _|o s Ho Hp Hov Hsb _ E2]; try congruence.
  - apply (Hg k t0 o0 l); congruence.
  - destruct (si_last _ Hi k o Hk Ho) as (t1 & l1 & Hh1). exists s. rewrite E2, Hh1 in Hh. by simplify_eq.
Qed.

(** C24: the reaper never deletes a session that may still be in use.  Whatever the
    replicas do, a session whose record has left the store was terminal, with no sandbox
    left to reclaim, in its last record: although the reaper decides on an earlier
    reading (perhaps a cached one) and then deletes without a condition. *)
Theorem reaped_sessions_over rs w0 c k t o l :
  admissible rs w0 -> gone_over w0 -> rtc pool_step (start rs w0) c -> skey k ->
  hist k (wd c) = (t, o) :: l -> store (wd c) !! k = None ->
  exists s, parse (o_body o) = Some s /\ SessionState.isTerminal (ses_status s) = true /\ holds_sandbox s = false.
Proof.
  intros Ha Hg Hr. assert (H : sinv (wd c) /\ gone_over (wd c)); [|by apply H].
  eapply (pool_invariant G _ (fun w => sinv w /\ gone_over w)); [| |by apply requests_verified| |exact Hr].
  - intros t0 w w' HG [Hi Hgo]. split; [by apply HG|]. apply (gone_over_step t0 w); [|done..]. intros k' Hk'. by apply HG.
  - intros w ms _ [Hi Hgo]. split; [by apply sinv_tick|done].
  - split; [by destruct (ad_ready _ _ Ha)|done].
Qed.

(** C25: every stored session record is readable.  Whatever the replicas do, each object
    under the sessions prefix parses, satisfies the session schema and is stored under
    its own id, so no listing ever has to skip one; the kernel token a session is created
    with may be any text. *)
Theorem session_records_valid rs w0 c k o :
  admissible rs w0 -> rtc pool_step (start rs w0) c -> skey k -> store (wd c) !! k = Some o ->
  exists s, parse (o_body o) = Some s /\ session_schema s = true /\
            k = session_key (ses_project_id s) (ses_session_id s).
Proof.
  intros Ha Hr Hk Ho. destruct (requests_ready rs w0 c Ha Hr) as [Hw Hinv].
  destruct (wf_stored _ Hw _ _ Ho) as [t Hl]. destruct (si_records _ Hinv _ _ _ Hk Hl) as (s & Hp & Hkey & _).
  exists s. split; [done|]. split; [|done]. by eapply schema_valid, parse_valid.
Qed.
End Requests.

(** ** Sample runs *)

(** Stored objects as values of their types. *)
Module Docs.
Inductive doc := DSession (s : Session) | DCutoff (c : VersionPruneCutoff) | DPool (P : AppPool) | DClaim (c : EditorClaim) | DFile (text : string).
#[export] Instance doc_eq_dec : EqDecision doc.
Proof. solve_decision. Defined.

#[export, refine] Instance session_codec : Codec doc Session := {|
  valid s := session_schema s = true; stringify := DSession;
  parse b := match b with DSession s => if session_schema s then Some s else None | _ => None end |}.
Proof.
  - by intros s ->.
  - intros [s| | | |] x; try done. destruct (session_schema s) eqn:E; [|done]. by intros [= <-].
Defined.
#[export, refine] Instance cutoff_codec : Codec doc VersionPruneCutoff := {|
  valid c := is_version_id (cutoff_version_id c) = true; stringify := DCutoff;
  parse b := match b with DCutoff c => if is_version_id (cutoff_version_id c) then Some c else None | _ => None end |}.
Proof.
  - by intros c ->.
  - intros [|c| | |] x; try done. destruct (is_version_id (cutoff_version_id c)) eqn:E; [|done]. by intros [= <-].
Defined.
#[export, refine] Instance pool_codec : Codec doc AppPool := {|
  valid _ := True; stringify := DPool; parse b := match b with DPool c => Some c | _ => None end |}.
Proof. all: done. Defined.
#[export, refine] Instance claim_codec : Codec doc EditorClaim := {|
  valid c := claim_schema c = true; stringify := DClaim;
  parse b := match b with DClaim c => if claim_schema c then Some c else None | _ => None end |}.
Proof.
  - by intros c ->.
  - intros [| | |c|] x; try done. destruct (claim_schema c) eqn:E; [|done]. by intros [= <-].
Defined.

Lemma schema_exact (s : Session) : valid s <-> session_schema s = true.
Proof. done. Qed.
Lemma cutoff_exact (c : VersionPruneCutoff) : valid c <-> is_version_id (cutoff_version_id c) = true.
Proof. done. Qed.
Lemma exact_claims (x y : EditorClaim) : parse (stringify x) = Some y -> y = x.
Proof. cbn. destruct (claim_schema x); [|done]. by intros [= <-]. Qed.
End Docs.

Module SessionSample.
Import Docs.
Definition pid : ProjectId := "proj-0000000000000000".
Definition sid : SessionId := "sess-0000000000000000".
Definition input : CreateSessionInput := {|
  in_origin := None; in_idle_timeout_ms := None; in_notebook_id := "nb-0000000000000000"; in_project_id := pid;
  in_user_id := "ada"; in_runtime := None; in_sandbox_id := Some "sb-0000000000000000"; in_kernel_auth_token := None;
  in_sandbox_url := None; in_compute_profile := None; in_compute_resources := None; in_compute_from_snapshot := None;
  in_ephemeral := None; in_restricted_viewer_credentials := None; in_mode := None;
  in_source_version_id := Some "ver_00000000000000000000000001"; in_editor_sandbox_sharing := Some Shared;
  in_authorization_expires_at := None; in_session_id := None; in_app_pool := None |}.

Lemma input_valid : input_ok input.
Proof. by vm_compute. Qed.

Definition w0 : world doc (string * Session) := snd (run 0 (perform (RCreate input)) empty_world).
(** Two stops of the new session race; later a reaper removes what is left. *)
Definition requests : list request :=
  [RTerminate pid sid (Some "grace"); RTerminate pid sid None; RTerminated pid sid;
   RReclaimed pid sid "2024-01-01T00:00:00Z" None; RReap 10 (Some (-1)%Z)].
Definition after (i : nat) (w : world doc (string * Session)) :=
  match requests !! i with Some r => snd (run i (perform r) w) | None => w end.
Definition w1 := after 0 w0.
Definition w2 := after 1 w1.
Definition w5 := after 4 (after 3 (after 2 w2)).
Definition done_with (b : option bool) : prog doc (string * Session) (option bool) := Ret b.

Lemma empty_ready {B} {C : Codec B Session} : ready (B := B) (@empty_world B (string * Session)).
Proof. split; [exact wf_empty|]. split; cbn; try done; by intros; apply not_elem_of_nil in H || inversion H0. Qed.

Lemma empty_admissible : admissible [RCreate input] (@empty_world doc (string * Session)).
Proof.
  split.
  - exact empty_ready.
  - intros r Hr. apply list_elem_of_singleton in Hr as ->. exact input_valid.
  - intros [|t] r Hr; [|done]. by injection Hr as <-.
Qed.

Lemma created : rtc pool_step (start [RCreate input] empty_world) (Config [done_with None] w0) /\ mem_wf w0.
Proof.
  destruct (run_reaches 0 (perform (RCreate input)) [perform (RCreate input)] empty_world (Ok None) w0) as [H Hm];
    [intros t k o H; by apply not_elem_of_nil in H|vm_compute; reflexivity|done|vm_compute; reflexivity|]. by split.
Qed.

Lemma requests_admissible : admissible requests w0.
Proof.
  split.
  - apply (requests_ready schema_exact [RCreate input] empty_world (Config [done_with None] w0) empty_admissible), created.
  - apply Forall_forall. repeat constructor.
  - intros t r Hr. do 5 (destruct t as [|t]; [by injection Hr as <-|]). done.
Qed.

Definition c2 := Config ([done_with (Some true); done_with (Some false)] ++ drop 2 (map perform requests)) w2.
Definition c5 := Config [done_with (Some true); done_with (Some false); done_with None; done_with None; done_with None] w5.

Lemma stops_race : rtc pool_step (start requests w0) c2 /\ mem_wf w2.
Proof.
  destruct created as [_ Hm].
  destruct (run_reaches 0 (perform (RTerminate pid sid (Some "grace"))) (map perform requests) w0 (Ok (Some true)) w1)
    as [H1 Hm1]; [done|vm_compute; reflexivity|done|vm_compute; reflexivity|].
  destruct (run_reaches 1 (perform (RTerminate pid sid None)) (<[0 := done_with (Some true)]> (map perform requests)) w1 (Ok (Some false)) w2)
    as [H2 Hm2]; [done|vm_compute; reflexivity|done|vm_compute; reflexivity|].
  split; [|done]. etrans; [exact H1|exact H2].
Qed.

Lemma reaped : rtc pool_step (start requests w0) c5.
Proof.
  destruct stops_race as [H Hm]. etrans; [exact H|].
  destruct (run_reaches 2 (perform (RTerminated pid sid)) ([done_with (Some true); done_with (Some false)] ++ drop 2 (map perform requests)) w2 (Ok None) (after 2 w2))
    as [H1 Hm1]; [done|vm_compute; reflexivity|done|vm_compute; reflexivity|].
  destruct (run_reaches 3 (perform (RReclaimed pid sid "2024-01-01T00:00:00Z" None)) ([done_with (Some true); done_with (Some false); done_with None] ++ drop 3 (map perform requests)) (after 2 w2) (Ok None) (after 3 (after 2 w2)))
    as [H2 Hm2]; [done|vm_compute; reflexivity|done|vm_compute; reflexivity|].
  destruct (run_reaches 4 (perform (RReap 10 (Some (-1)%Z))) ([done_with (Some true); done_with (Some false); done_with None; done_with None] ++ drop 4 (map perform requests)) (after 3 (after 2 w2)) (Ok None) w5)
    as [H3 Hm3]; [done|vm_compute; reflexivity|done|vm_compute; reflexivity|].
  etrans; [exact H1|]. etrans; [exact H2|exact H3].
Qed.

Definition no_object : object doc := {| o_body := DCutoff {| cutoff_version_id := "" |}; o_etag := ""; o_uploaded := 0 |}.
Definition written_object (i : nat) (w : world doc (string * Session)) : object doc :=
  snd (nth i (hist (session_key pid sid) w) (0, no_object)).

Example session_records_evolve_witness :
  exists s s', parse (o_body (written_object 1 w2)) = Some s /\ parse (o_body (written_object 0 w2)) = Some s' /\ evolves s s'.
Proof.
  destruct (session_records_evolve schema_exact requests w0 c2 (session_key pid sid) [] 0 (written_object 0 w2) [] 0 (written_object 1 w2) []
    requests_admissible (proj1 stops_race) (skey_session pid sid)) as [H _].
  - vm_compute. reflexivity.
  - exact H.
Defined.

Example session_stop_once_witness :
  threads c2 !! 1 <> Some (Ret (Some true)).
Proof.
  intros H. pose proof (session_stop_once schema_exact requests w0 c2 pid sid (Some "grace") None 0 1
    requests_admissible (proj1 stops_race) eq_refl eq_refl eq_refl H) as E. discriminate E.
Defined.

Example reaped_sessions_over_witness :
  exists s, parse (o_body (written_object 0 w5)) = Some s /\ SessionState.isTerminal (ses_status s) = true /\
            holds_sandbox s = false.
Proof.
  apply (reaped_sessions_over schema_exact requests w0 c5 (session_key pid sid) 3 (written_object 0 w5)
    [(2, written_object 1 w5); (0, written_object 2 w5); (0, written_object 3 w5)] requests_admissible).
  - intros k t o l Hk Hh Hn. exfalso. unfold w0 in *.
    assert (Hkey : k = session_key pid sid).
    { assert (Hl : (t, k, o) ∈ log w0) by (apply elem_of_hist; unfold w0; rewrite Hh; by left).
      vm_compute in Hl. apply list_elem_of_singleton in Hl. by injection Hl. }
    subst k. revert Hn. vm_compute. discriminate.
  - exact reaped.
  - apply skey_session.
  - vm_compute. reflexivity.
  - vm_compute. reflexivity.
Defined.

Example session_records_valid_witness :
  exists s, parse (o_body (written_object 0 w2)) = Some s /\ session_schema s = true /\
            session_key pid sid = session_key (ses_project_id s) (ses_session_id s).
Proof.
  apply (session_records_valid schema_exact requests w0 c2 (session_key pid sid) (written_object 0 w2)
    requests_admissible (proj1 stops_race) (skey_session pid sid)).
  vm_compute. reflexivity.
Defined.
End SessionSample.
