(* ===== verification/Prune.v ===== *)
(** * Pruning of notebook versions

    [NotebookService.pruneVersions] of [packages/core/src/services/content/NotebookService.ts]:
    after a save, the oldest version folders of a notebook are deleted unless a session
    runs from them.  The reads that the source issues in bounded parallel are sequential
    here; the log of a failure is not modelled. *)

From Stdlib Require Import ZArith Lia.
From S2P Require Import Prelude Constants Lifecycle Schema UtcDate Store Cas Storage SessionData AppPoolRouter AppPool SessionService.

(** [NotebookService.MAX_VERSIONS] *)
Definition MAX_VERSIONS : nat := 50.

(** [`${nb.base}/versions/`] with [nb] of [paths.ts] *)
Definition notebook_base (projectId : ProjectId) (notebookId : NotebookId) : string :=
  "projects/" +:+ projectId +:+ "/notebooks/" +:+ notebookId.
Definition versionsRoot (projectId : ProjectId) (notebookId : NotebookId) : string :=
  notebook_base projectId notebookId +:+ "/versions/".

(** [s.slice(n, -1)] *)
Definition slice_inner (n : nat) (s : string) : string := String.substring n (String.length s - n - 1) s.

Section Prune.
Context {B : Type} `{!EqDecision B}.
Context {CSe : Codec B Session} {CCu : Codec B VersionPruneCutoff} {CP : Codec B AppPool}.
Local Abbreviation V := (string * Session)%type (only parsing).
Local Notation prog := (prog B V).
Context (fuel : nat).

(** [VersionId.parse] *)
Definition VersionId_parse (value : string) : result (error V) VersionId :=
  if is_version_id value then Ok value else Err (JsError ("Invalid VersionId: " +:+ value)).

Fixpoint listKeysUnder (prefixes : list string) : prog (list key) :=
  match prefixes with
  | [] => mret []
  | p :: prefixes' => keys ← listAllKeys fuel p; rest ← listKeysUnder prefixes'; mret (keys ++ rest)
  end.

Definition prune_body (projectId : ProjectId) (notebookId : NotebookId) (max : nat) (keep : VersionId) : prog unit :=
  let root := versionsRoot projectId notebookId in
  versionPrefixes ← listAllPrefixes fuel root "/";
  if (length versionPrefixes <=? max)%nat then mret tt
  else
    let prunable := take (length versionPrefixes - max) versionPrefixes in
    match last prunable with
    | None => Throw TypeError
    | Some newest =>
        cutoff ← lift (VersionId_parse (slice_inner (String.length root) newest));
        advanceVersionPruneCutoff projectId notebookId cutoff ≫= fun _ =>
        protected ← listProtectedVersionIds fuel projectId notebookId;
        let protectedPrefixes := map (fun v => root +:+ v +:+ "/") (js_set (protected ++ [keep])) in
        let targets := List.filter (fun p => negb (includes p protectedPrefixes)) prunable in
        keysToDelete ← listKeysUnder targets;
        match keysToDelete with
        | [] => mret tt
        | _ => call (ODelete keysToDelete)
        end
    end.

Definition pruneVersions (projectId : ProjectId) (notebookId : NotebookId) (max : nat) (keep : VersionId) : prog unit :=
  catch (prune_body projectId notebookId max keep) (fun _ => mret tt).
End Prune.
