(* ===== verification/PruneProtocol.v ===== *)
(** * Pruning beside running sessions

    A pruning run and a session start race: the first publishes a cutoff and then looks
    for sessions, the second stores its record and then looks at the cutoff.  The protocol
    of that race, over the order of the writes in the log, and the proof that every
    pruning run and every session operation follows it. *)

From Stdlib Require Import ZArith Lia.
From stdpp Require Import relations sorting.
From S2P Require Import Prelude Constants Lifecycle Schema UtcDate Store Cas Storage CasTheorems CasEffects Listing SessionData AppPoolRouter AppPool SessionService SessionProtocol SessionReplicas SessionRequests Prune.

(** ** Version folders *)

Local Notation slash := (Ascii.Ascii true true true true false true false false).
Fixpoint no_slash (s : string) : bool :=
  match s with EmptyString => true | String c s' => negb (Ascii.eqb c slash) && no_slash s' end.

Lemma upto_slash rest g : upto_delimiter "/" rest = Some g -> exists u, g = u +:+ "/" /\ no_slash u = true.
Proof.
  revert g. induction rest as [|c rest IH]; intros g; cbn [upto_delimiter startsWith]; [done|].
  destruct (Ascii.eqb slash c) eqn:E.
  - intros [= <-]. by exists "".
  - destruct (upto_delimiter "/" rest) as [g'|]; [|done]. intros [= <-]. destruct (IH g' eq_refl) as (u & -> & Hu).
    exists (String c u). split; [done|]. cbn [no_slash]. rewrite Ascii.eqb_sym in E. by rewrite E, Hu.
Qed.

Lemma startsWith_app_inv p s k : is_Some (startsWith (p +:+ s) k) -> exists k', k = p +:+ k' /\ is_Some (startsWith s k').
Proof.
  revert k. induction p as [|c p IH]; intros k; [by exists k|].
  change (is_Some (startsWith (String c (p +:+ s)) k) -> exists k', k = String c (p +:+ k') /\ is_Some (startsWith s k')).
  destruct k as [|x k]; cbn [startsWith]; [by intros [? ?]|]. destruct (Ascii.eqb c x) eqn:E; [|by intros [? ?]].
  apply Ascii.eqb_eq in E as ->. intros H. destruct (IH k H) as (k' & -> & H'). by exists k'.
Qed.

(** A key lies in one folder. *)
Lemma folder_unique u v k : no_slash u = true -> no_slash v = true ->
  is_Some (startsWith (u +:+ "/") k) -> is_Some (startsWith (v +:+ "/") k) -> u = v.
Proof.
  revert v k. induction u as [|a u IH]; intros v k Hu Hv.
  - intros H1 H2. destruct k as [|x k]; [by destruct H1|]. change (is_Some (startsWith (String slash "") (String x k))) in H1.
    cbn [startsWith] in H1. destruct (Ascii.eqb slash x) eqn:E; [|by destruct H1].
    apply Ascii.eqb_eq in E as <-. destruct v as [|b v]; [done|]. exfalso.
    change (is_Some (startsWith (String b (v +:+ "/")) (String slash k))) in H2. cbn [startsWith no_slash] in H2, Hv.
    destruct (Ascii.eqb b slash) eqn:E; [done|by destruct H2].
  - change (String a u +:+ "/") with (String a (u +:+ "/")). destruct k as [|x k]; [by intros [? ?]|]. cbn [startsWith].
    destruct (Ascii.eqb a x) eqn:E; [|by intros [? ?]]. apply Ascii.eqb_eq in E as <-. cbn [no_slash] in Hu.
    apply andb_true_iff in Hu as [Ha Hu]. intros H1. destruct v as [|b v].
    + change (is_Some (startsWith (String slash "") (String a k)) -> String a u = ""). cbn [startsWith].
      intros H2. destruct (Ascii.eqb slash a) eqn:E; [|by destruct H2]. apply Ascii.eqb_eq in E as <-. done.
    + change (String b v +:+ "/") with (String b (v +:+ "/")). cbn [startsWith]. intros H2.
      destruct (Ascii.eqb b a) eqn:E; [|by destruct H2]. apply Ascii.eqb_eq in E as <-. cbn [no_slash] in Hv.
      apply andb_true_iff in Hv as [_ Hv]. by rewrite (IH v k Hu Hv H1 H2).
Qed.

Lemma leb_app_l r a b : String.leb (r +:+ a) (r +:+ b) = String.leb a b.
Proof.
  induction r as [|c r IH]; [done|].
  change (String.leb (String c (r +:+ a)) (String c (r +:+ b)) = String.leb a b). unfold String.leb in *. cbn.
  assert (E : Ascii.compare c c = Eq) by (unfold Ascii.compare; apply N.compare_refl). by rewrite E.
Qed.

(** Names of one length are ordered as their folders are. *)
Lemma leb_folders a b x : String.length a = String.length b -> String.leb (a +:+ x) (b +:+ x) = true -> String.leb a b = true.
Proof.
  revert b. induction a as [|c a IH]; intros [|d b]; try done. intros [= Hl].
  change (String.leb (String c (a +:+ x)) (String d (b +:+ x)) = true -> String.leb (String c a) (String d b) = true).
  unfold String.leb in *. cbn. destruct (Ascii.compare c d); [apply IH; done|done..].
Qed.

Lemma id_format_length prefix n cls id : id_format prefix n cls id = true -> String.length id = (String.length prefix + n)%nat.
Proof.
  unfold id_format. destruct (startsWith prefix id) as [body|] eqn:E; [|done]. rewrite andb_true_iff, bool_decide_eq_true.
  intros [<- _]. revert id body E. clear. induction prefix as [|c p IH]; intros [|x id] body; cbn [startsWith String.length]; try done.
  - by intros [= <-].
  - by intros [= <-].
  - destruct (Ascii.eqb c x); [|done]. intros H. by rewrite (IH _ _ H).
Qed.

Lemma version_no_slash v : is_version_id v = true -> no_slash v = true.
Proof.
  unfold is_version_id, id_format. destruct (startsWith "ver_" v) as [body|] eqn:E; [|done].
  rewrite andb_true_iff. intros [_ Hb]. assert (Hn : no_slash body = true).
  { clear E. induction body as [|c body IH]; [done|]. cbn [no_slash String.list_ascii_of_string forallb] in *. apply andb_true_iff in Hb as [Hc Hb]. rewrite (IH Hb), andb_true_r.
    destruct (Ascii.eqb c slash) eqn:Ec; [|done]. apply Ascii.eqb_eq in Ec as ->. done. }
  apply startsWith_split in E as ->. exact Hn.
Qed.

Lemma slice_inner_folder root u : slice_inner (String.length root) (root +:+ u +:+ "/") = u.
Proof.
  unfold slice_inner. rewrite !string_app_length. cbn [String.length].
  replace (String.length root + (String.length u + 1) - String.length root - 1) with (String.length u) by lia.
  induction root as [|c root IH].
  - change (String.substring 0 (String.length u) (u +:+ "/") = u).
    induction u as [|x u IHu]; [done|]. change (String x (String.substring 0 (String.length u) (u +:+ "/")) = String x u).
    by rewrite IHu.
  - exact IH.
Qed.

Section Protocol.
Context {B : Type} `{!EqDecision B}.
Context {CSe : Codec B Session} {CCu : Codec B VersionPruneCutoff} {CP : Codec B AppPool}.
Context (schema_valid : forall s : Session, valid s <-> session_schema s = true).
Context (cutoff_valid : forall c : VersionPruneCutoff, valid c <-> is_version_id (cutoff_version_id c) = true).
Context (pid : ProjectId) (nid : NotebookId).
Local Abbreviation V := (string * Session)%type (only parsing).
Local Notation prog := (prog B V).
Implicit Types w : world B V.

Definition ck : key := versionPruneCutoff_key pid nid.
Definition root : string := versionsRoot pid nid.
Definition folder (v : VersionId) : string := root +:+ v +:+ "/".

Lemma ck_other : ~ skey ck.
Proof. by intros [? ?]. Qed.
Lemma root_other k : is_Some (startsWith root k) -> ~ skey k /\ k <> ck.
Proof.
  intros H. apply startsWith_app_inv in H as (k' & -> & _). split; [by intros [? ?]|done].
Qed.

(** ** The order of writes *)

(** A cutoff of at least [v] has been published. *)
Definition cut (v : VersionId) w : Prop :=
  exists t o c, (t, ck, o) ∈ log w /\ parse (o_body o) = Some c /\ String.leb v (cutoff_version_id c) = true.
(** ... and before anything was stored at [k]. *)
Definition late (v : VersionId) (k : key) w : Prop :=
  exists l1 t o c l2, log w = l1 ++ (t, ck, o) :: l2 /\ parse (o_body o) = Some c /\
    String.leb v (cutoff_version_id c) = true /\ forall t' o', (t', k, o') ∉ l2.
(** Something was stored at [k] before any such cutoff. *)
Definition timely (v : VersionId) (k : key) w : Prop := (exists o, logged k o w) /\ ~ late v k w.
(** The session at [k] was seen over. *)
Definition closed (k : key) w : Prop :=
  exists t o s, (t, k, o) ∈ log w /\ parse (o_body o) = Some s /\ over s.

Definition extends w w' : Prop := exists l, log w' = l ++ log w.

Lemma late_extends v k w w' : extends w w' -> late v k w -> late v k w'.
Proof. intros [l El] (l1 & t & o & c & l2 & E & H). exists (l ++ l1), t, o, c, l2. by rewrite El, E, app_assoc. Qed.

Lemma closed_extends k w w' : extends w w' -> closed k w -> closed k w'.
Proof. intros [l El] (t & o & s & Hl & H). exists t, o, s. split; [|done]. rewrite El. apply elem_of_app. by right. Qed.

Lemma timely_extends v k w w' : extends w w' -> timely v k w -> timely v k w'.
Proof.
  intros [l El] [(o & t & Hl) Hn]. split.
  { exists o, t. rewrite El. apply elem_of_app. by right. }
  intros (l1 & t1 & o1 & c & l2 & E & Hp & Hc & Hk). rewrite El in E.
  apply app_eq_inv in E as [(m & -> & E)|(m & -> & E)].
  - destruct m as [|e m]; cbn in E.
    + apply Hn. exists [], t1, o1, c, l2. by rewrite <- E.
    + injection E as <- E. apply (Hk t o). rewrite E. apply elem_of_app. by right.
  - apply Hn. by exists m, t1, o1, c, l2.
Qed.

Lemma cut_late v k w : cut v w -> hist k w = [] -> late v k w.
Proof.
  intros (t & o & c & Hl & Hp & Hc) Hh. apply list_elem_of_split in Hl as (l1 & l2 & E).
  exists l1, t, o, c, l2. split; [done|]. split; [done|]. split; [done|]. intros t' o' Hin.
  assert (H : (t', o') ∈ hist k w); [|by rewrite Hh in H; apply not_elem_of_nil in H].
  apply elem_of_hist. rewrite E. apply elem_of_app. right. by right.
Qed.

(** ** The protocol *)

(** The files of [v] are not needed by a session that saw its version available. *)
Definition excused (v : VersionId) (k : key) w : Prop := late v k w \/ closed k w.
Definition of_version (v : VersionId) (s : Session) : Prop :=
  ses_project_id s = pid /\ ses_notebook_id s = nid /\ ses_source_version_id s = Some v.
Definition prunable (v : VersionId) w : Prop :=
  cut v w /\ forall t k o s, (t, k, o) ∈ log w -> skey k -> parse (o_body o) = Some s -> of_version v s -> excused v k w.

(** The published cutoff is the largest. *)
Definition cut_max w : Prop := forall t o, (t, ck, o) ∈ log w ->
  exists c o' c', parse (o_body o) = Some c /\ store w !! ck = Some o' /\ parse (o_body o') = Some c' /\
    String.leb (cutoff_version_id c) (cutoff_version_id c') = true.

Inductive G (t : tid) w w' : Prop :=
| p_session : session_step t w w' -> G t w w'
| p_cutoff obj c : w' = write t w ck obj -> grows w w' -> o_body obj = stringify c -> valid c ->
    (forall o' c', store w !! ck = Some o' -> parse (o_body o') = Some c' ->
       String.leb (cutoff_version_id c') (cutoff_version_id c) = true) -> G t w w'
| p_delete ks : w' = remove w ks -> (forall k, k ∈ ks -> is_Some (startsWith root k)) ->
    (forall k v, k ∈ ks -> is_version_id v = true -> is_Some (startsWith (folder v) k) -> prunable v w) -> G t w w'.

#[export] Instance prune_protocol : Protocol G.
Proof.
  split.
  - intros t w. apply p_session, session_step_idle.
  - intros t w w' [[? _]|? ? ? ? ? ? ?|ks -> _ _]; [done..|apply grows_remove].
Qed.

Lemma G_extends t w w' : G t w w' -> extends w w'.
Proof. intros [(_ & _ & _ & _ & ? & _)|obj c -> _ _ _ _|ks -> _ _]; [done|by exists [(t, ck, obj)]|by exists []]. Qed.

Lemma kept_extends (F : world B V -> Prop) : (forall w w', extends w w' -> F w -> F w') -> Kept G F.
Proof.
  intros HF. split; [intros t w w' HG; apply HF; by eapply G_extends|]. intros w ms _. apply HF. by exists [].
Qed.

Lemma other_step t w w' : G t w w' -> session_step t w w' \/ off_records w w'.
Proof.
  intros HG. pose proof (protocol_grows t w w' HG) as Hg. destruct HG as [?|obj c -> _ _ _ _|ks -> Hks _]; [by left|right..]; (split; [done| |done]); intros k Hk.
  - assert (Hne : ck <> k) by (intros <-; by apply ck_other).
    split; [by apply lookup_insert_ne|]. by rewrite hist_write, bool_decide_eq_false_2.
  - split; [|done]. rewrite store_remove, decide_False; [done|]. intros Hin. by destruct (root_other k (Hks k Hin)).
Qed.

#[export] Instance prune_allows_sessions : AllowsSessions G.
Proof.
  split.
  - intros t w w'. apply p_session.
  - intros t w w' HG Hi. destruct (other_step t w w' HG) as [(_ & H & _)|H]; [by apply H|by eapply sinv_off].
  - intros t w w' k HG Hi Hk. destruct (other_step t w w' HG) as [(_ & _ & H & _)|H]; [by apply H|by apply change_off].
Qed.

Definition fine w : Prop := ready w /\ gone_over w /\ cut_max w.
Lemma fine_wf w : fine w -> wf w.
Proof. by intros [[? _] _]. Qed.

Lemma cut_max_step t w w' : G t w w' -> cut_max w -> cut_max w'.
Proof.
  intros HG Hm. destruct HG as [(_ & _ & _ & H & _)|obj c -> _ Hb Hv Hle|ks -> Hks _]; intros t0 o Ho.
  - apply elem_of_hist in Ho. destruct (H ck ck_other) as [-> E]. rewrite E in Ho. apply elem_of_hist in Ho. by apply (Hm t0).
  - assert (Hp : parse (o_body obj) = Some c) by (rewrite Hb; by apply parse_stringify).
    cbn in *. rewrite lookup_insert_eq. apply elem_of_cons in Ho as [Ho|Ho].
    + injection Ho as -> ->. exists c, obj, c. split; [done|]. split; [done|]. split; [done|apply string_leb_refl].
    + destruct (Hm t0 o Ho) as (c0 & o' & c' & Hp0 & Ho' & Hp' & Hc). exists c0, obj, c. split; [done|]. split; [done|].
      split; [done|]. eapply string_leb_trans; [exact Hc|]. by eapply Hle.
  - rewrite store_remove, decide_False; [by apply (Hm t0)|]. intros Hin. by destruct (root_other ck (Hks ck Hin)).
Qed.

#[export] Instance kept_fine : Kept G fine.
Proof.
  split.
  - intros t w w' HG ([Hw Hi] & Hg & Hm). split; [split; [by apply (protocol_grows t w w' HG)|by eapply as_sinv]|].
    split; [|by eapply cut_max_step]. apply (gone_over_step t w); [|done..]. intros k Hk. by eapply as_change.
  - intros w ms Hms ([Hw Hi] & Hg & Hm). split; [|done]. split; [by apply (grows_wf _ _ (grows_tick w ms Hms))|by apply sinv_tick].
Qed.
#[export] Instance keeps_fine : KeepsIds fine.
Proof. intros t w id Hid ([Hw Hi] & Hg & Hm). split; [|done]. split; by apply keeps_ids. Qed.
#[export] Instance kept_cut v : Kept G (cut v).
Proof.
  apply kept_extends. intros w w' [l El] (t & o & c & Hl & H). exists t, o, c. split; [|done]. rewrite El. apply elem_of_app. by right.
Qed.
#[export] Instance kept_timely v k : Kept G (timely v k).
Proof. apply kept_extends. apply timely_extends. Qed.
#[export] Instance kept_excused v k : Kept G (excused v k).
Proof.
  apply kept_extends. intros w w' He [?|?]; [left; by eapply late_extends|right; by eapply closed_extends].
Qed.

(** Two records of one session have one identity. *)
Lemma same_identity w k t o s t' o' s' : sinv w -> skey k ->
  (t, k, o) ∈ log w -> parse (o_body o) = Some s -> (t', k, o') ∈ log w -> parse (o_body o') = Some s' -> identity s = identity s'.
Proof.
  intros Hi Hk Hl Hp Hl' Hp'. destruct (hist k w) as [|[t1 o1] l] eqn:Eh.
  { apply elem_of_hist in Hl. rewrite Eh in Hl. by apply not_elem_of_nil in Hl. }
  apply elem_of_hist in Hl, Hl'.
  destruct (evolving_last _ _ _ _ _ _ _ (si_chain _ Hi k Hk) Eh Hl Hp) as (s1 & Hp1 & Hev1).
  destruct (evolving_last _ _ _ _ _ _ _ (si_chain _ Hi k Hk) Eh Hl' Hp') as (s2 & Hp2 & Hev2).
  rewrite Hp1 in Hp2. injection Hp2 as <-. by rewrite <- (ev_identity _ _ Hev1), <- (ev_identity _ _ Hev2).
Qed.

Lemma identity_version v s s' : identity s = identity s' -> of_version v s -> of_version v s'.
Proof.
  unfold identity, of_version. intros H (H1 & H2 & H3). injection H. intros. split_and!; congruence.
Qed.

#[export] Instance kept_prunable v : Kept G (fun w => fine w /\ prunable v w).
Proof.
  split.
  - intros t w w' HG [Hf [Hc Hp]]. split; [by eapply kept_step|]. split; [by eapply kept_step|].
    intros t0 k o s Hl Hk Hps Hv. pose proof Hf as ([Hw Hi] & _). pose proof (kept_step (Kept := kept_excused v k) t w w' HG) as Hex.
    apply elem_of_hist in Hl.
    destruct (as_change t w w' k HG Hi Hk) as [_ E|o1 s1 Hh _ _ _ _ _ _|o1 o2 s1 s2 Ho1 _ E Hp1 Hp2 Hev|o1 s1 _ _ _ _ _ E].
    + rewrite E in Hl. apply Hex. by apply elem_of_hist in Hl; eapply Hp.
    + left. apply (late_extends v k w); [by eapply G_extends|]. by apply cut_late.
    + apply Hex. rewrite E in Hl. apply elem_of_cons in Hl as [Hl|Hl]; [|by apply elem_of_hist in Hl; eapply Hp].
      injection Hl as -> ->. destruct (wf_stored w Hw k o1 Ho1) as [t1 Hl1]. apply (Hp t1 k o1 s1 Hl1 Hk Hp1).
      rewrite Hps in Hp2. injection Hp2 as <-. by eapply identity_version; [exact (ev_identity _ _ Hev)|].
    + rewrite E in Hl. apply Hex. by apply elem_of_hist in Hl; eapply Hp.
  - intros w ms Hms [Hf [Hc Hp]]. split; [by apply kept_time|]. done.
Qed.
End Protocol.
