(* ===== verification/PruneRequests.v ===== *)
(** * Version pruning among replicas

    Every pruning run and every session operation, verified against the protocol of
    [PruneProtocol.v]; what follows for every interleaving. *)

From Stdlib Require Import ZArith Lia.
From stdpp Require Import relations sorting.
From S2P Require Import Prelude Constants Lifecycle Schema UtcDate Store Cas Storage CasTheorems CasEffects Listing SessionData AppPoolRouter AppPool SessionService SessionProtocol SessionReplicas SessionRequests Prune PruneProtocol.

Section Pruning.
Context {B : Type} `{!EqDecision B}.
Context {CSe : Codec B Session} {CCu : Codec B VersionPruneCutoff} {CP : Codec B AppPool}.
Context (schema_valid : forall s : Session, valid s <-> session_schema s = true).
Context (cutoff_valid : forall c : VersionPruneCutoff, valid c <-> is_version_id (cutoff_version_id c) = true).
Context (pid : ProjectId) (nid : NotebookId).
Local Abbreviation V := (string * Session)%type (only parsing).
Local Notation prog := (prog B V).
Implicit Types w : world B V.
Local Notation G := (PruneProtocol.G pid nid).
Local Notation fine := (fine pid nid).
Local Notation ck := (ck pid nid).
#[local] Instance pr_protocol : Protocol G := prune_protocol pid nid.
#[local] Instance pr_allows : AllowsSessions G := prune_allows_sessions pid nid.
#[local] Instance pr_fine : Kept G fine := kept_fine pid nid.
#[local] Instance pr_cut v : Kept G (cut pid nid v) := kept_cut pid nid v.
#[local] Instance pr_timely v k : Kept G (timely pid nid v k) := kept_timely pid nid v k.
#[local] Instance pr_prunable v : Kept G (fun w => fine w /\ prunable pid nid v w) := kept_prunable pid nid v.
#[local] Instance pr_holding t id : Stable G t (holding t id) := stable_holding schema_valid G t id.

(** ** Publishing a cutoff *)

Lemma cutoff_put_spec t c cond P `{!Stable G t P} :
  is_version_id c = true -> (forall w, P w -> fine w) ->
  (forall w o' c', P w -> holds (store w) ck cond -> store w !! ck = Some o' -> parse (o_body o') = Some c' ->
     String.leb (cutoff_version_id c') c = true) ->
  hoare G t P (cas_put ck (stringify {| cutoff_version_id := c |}) cond)
    (fun r w => fine w /\ match r with Ok _ => cut pid nid c w | Err _ => True end).
Proof.
  intros Hc HP Hle. set (cut_off := {| cutoff_version_id := c |}). assert (Hv : valid cut_off) by (by apply cutoff_valid).
  eapply hoare_cas_put with (M := put_post P (fun _ w => fine w /\ cut pid nid c w)).
  - apply hoare_put; [apply _..|]. intros w e Hw Hh He obj. assert (HG : G t w (write t w ck obj)).
    { apply (p_cutoff _ _ _ _ _ obj cut_off); [done| |done|done|intros o' c' Ho' Hp'; by eapply Hle].
      eapply (sem_grows t (OPut ck (stringify cut_off) Always)). right. split; [done|]. by exists e. }
    split; [done|]. split; [eapply (kept_step t); [exact HG|by apply HP]|]. exists t, obj, cut_off.
    split; [by left|]. split; [by apply parse_stringify|apply string_leb_refl].
  - apply _.
  - intros w Hw. split; [by apply HP|done].
  - intros [i|[]] w _; cbn; auto; [done..|]. intros [?|[_ [? _]]]; auto.
Qed.

Definition read_cutoff (x : option (object B)) w : Prop :=
  fine w /\ match x with Some o => logged ck o w | None => True end.
#[local] Instance stable_read_cutoff t x : Stable G t (read_cutoff x).
Proof. unfold read_cutoff. destruct x; apply _. Qed.

Lemma advance_spec t c : is_version_id c = true ->
  hoare G t fine (advanceVersionPruneCutoff pid nid c)
    (fun r w => fine w /\ match r with Ok _ => cut pid nid c w | Err _ => True end).
Proof.
  intros Hc. unfold advanceVersionPruneCutoff. apply hoare_withCasRetry; [apply _..| |by intros w|intros []; apply _].
  eapply hoare_post with (Q := fun r w => fine w /\ match r with Ok _ => cut pid nid c w | Err _ => True end); [intros [r|e] w H; [done|]; destruct H; by destruct e|].
  unfold advance_attempt. fold ck. eapply hoare_bind; [apply (hoare_get G t ck fine read_cutoff)| |].
  { intros w Hw. split; [done|]. destruct (store w !! ck) as [o|] eqn:E; [|done]. by apply (wf_stored w (fine_wf pid nid w Hw)). }
  2: { intros e. apply hoare_throw; [apply _|]. by intros w [? _]. }
  assert (Hthen : forall P (p : prog info), hoare G t P p (fun r w => fine w /\ match r with Ok _ => cut pid nid c w | Err _ => True end) ->
    hoare G t P (p ≫= fun _ => mret tt) (fun r w => fine w /\ match r with Ok _ => cut pid nid c w | Err _ => True end)).
  { intros P p Hp. eapply hoare_bind; [exact Hp|intros i|intros e]; [by apply hoare_ret; [apply _|]|]. by apply hoare_throw; [apply _|]. }
  intros [o|].
  - unfold readStored. destruct (parse (o_body o)) as [cur|] eqn:Ep; [apply hoare_ret_bind|apply hoare_throw; [apply _|]; by intros w [? _]].
    destruct (String.leb c (cutoff_version_id cur)) eqn:El.
    + apply hoare_ret; [apply _|]. intros w [Hw [t0 Hl]]. split; [done|]. by exists t0, o, cur.
    + apply Hthen, cutoff_put_spec; [apply _|done|by intros w [? _]|]. intros w o' c' [Hw Hl] Hh Ho' Hp'.
      destruct (holds_etag_body _ _ _ (fine_wf pid nid w Hw) Hl Hh) as (o2 & Ho2 & Hb). rewrite Ho' in Ho2. injection Ho2 as <-.
      rewrite Hb, Ep in Hp'. injection Hp' as <-. destruct (String.leb_total c (cutoff_version_id cur)); [congruence|done].
  - apply Hthen, cutoff_put_spec; [apply _|done|by intros w [? _]|]. intros w o' c' _ Hh Ho'. cbn in Hh. congruence.
Qed.

(** ** Looking for sessions *)

Definition found (c : VersionId) (l : list Session) w : Prop :=
  forall k, is_Some (startsWith (sessionsForProject pid) k) ->
    (exists s e, s ∈ l /\ scanned k (Some (s, e)) w) \/ forall v, String.leb v c = true -> excused pid nid v k w.
#[local] Instance kept_found c l : Kept G (found c l).
Proof.
  pose proof (kept_excused pid nid (B := B)). unfold found.
  apply kept_forall. intros k. apply kept_impl, kept_or; [|apply _].
  do 2 (apply kept_exists; intros ?). apply kept_and; [apply _|]. apply kept_persistent; [apply _|]. apply persistent_scanned.
Qed.

Lemma sessions_found t fuel c :
  hoare G t (fun w => fine w /\ cut pid nid c w) (scanProject fuel pid whole_record)
    (fun r w => (fine w /\ cut pid nid c w) /\ match r with Ok l => found c l w | Err _ => True end).
Proof.
  pose proof (kept_excused pid nid (B := B)) as Hke.
  eapply hoare_pre; [|eapply hoare_post; [|apply (scan_prefix_found G (fun w => fine w /\ cut pid nid c w) skey
    (fun k w => forall v, String.leb v c = true -> excused pid nid v k w) _); [|apply project_prefix]]].
  - intros w [Hw Hc]. split; [apply Hw|done].
  - intros [l|e] w [[_ Hw] H]; (split; [done|]); [|done]. intros k Hk. apply H; [by eapply project_prefix|done].
  - intros w k [Hw Hi] [(_ & Hg & _) Hc] Hk Hn v Hle. destruct (hist k w) as [|[t0 o] l] eqn:Eh.
    + left. apply cut_late; [|done]. destruct Hc as (t0 & o & c0 & Hl & Hp & Hc). exists t0, o, c0. split; [done|]. split; [done|].
      by eapply string_leb_trans.
    + right. destruct (Hg k t0 o l Hk Eh Hn) as (s & Hp & Ho & _). exists t0, o, s. split; [|done].
      apply elem_of_hist. rewrite Eh. by left.
Qed.

(** A version that no listed session runs from may go. *)
Lemma found_prunable c l w v :
  fine w -> cut pid nid c w -> found c l w -> is_version_id v = true -> String.leb v c = true ->
  v ∉ flat_map (protected_by nid) (List.filter (fun s => includes (ses_status s) SessionState.PRESENT_STATUSES) l) ->
  prunable pid nid v w.
Proof.
  intros ([Hw Hi] & _) Hc Hf Hv Hle Hn. split.
  { destruct Hc as (t0 & o & c0 & Hl & Hp & Hc). exists t0, o, c0. split; [done|]. split; [done|]. by eapply string_leb_trans. }
  intros t k o s Hl Hk Hp Hof. pose proof Hof as (Hpid & Hnid & _).
  destruct (si_records _ Hi _ _ _ Hk Hl) as (s0 & Hp0 & Hkey & _). rewrite Hp in Hp0. injection Hp0 as <-.
  assert (Hpre : is_Some (startsWith (sessionsForProject pid) k)).
  { rewrite Hkey, Hpid. unfold session_key. eexists. apply startsWith_app. }
  destruct (Hf k Hpre) as [(s' & e & Hin & obj & [t' Hl'] & _ & Hp')|Hex]; [|by apply Hex]. right.
  pose proof (identity_version pid nid v s s' (same_identity w k _ _ _ _ _ _ Hi Hk Hl Hp Hl' Hp') Hof) as (_ & Hn' & Hv').
  exists t', obj, s'. split; [done|]. split; [done|]. unfold over.
  destruct (SessionState.isTerminal (ses_status s')) eqn:Et; [done|]. destruct Hn. apply list_elem_of_In, in_flat_map. exists s'.
  rewrite <- !list_elem_of_In, List_filter_elem. split; [split; [done|by destruct (ses_status s')]|].
  unfold protected_by. rewrite Hn', bool_decide_eq_true_2, Hv' by done. destruct v; [done|]. by left.
Qed.

Lemma protected_spec t fuel c :
  hoare G t (fun w => fine w /\ cut pid nid c w) (listProtectedVersionIds fuel pid nid)
    (fun r w => fine w /\ match r with
                          | Ok l => forall v, is_version_id v = true -> String.leb v c = true -> v ∉ l -> fine w /\ prunable pid nid v w
                          | Err _ => True
                          end).
Proof.
  unfold listProtectedVersionIds, listPresentByProject.
  eapply hoare_bind with (M := fun r w => (fine w /\ cut pid nid c w) /\ match r with
    | Ok l => exists l', l = List.filter (fun s => includes (ses_status s) SessionState.PRESENT_STATUSES) l' /\ found c l' w
    | Err _ => True end).
  { eapply hoare_bind; [apply sessions_found| |].
    - intros l. apply hoare_ret; [apply _|]. intros w [Hw H]. split; [done|]. by exists l.
    - intros e. apply hoare_throw; [apply _|]. by intros w [? _]. }
  2: { intros e. apply hoare_throw; [apply _|]. by intros w [[? _] _]. }
  intros l. eapply hoare_bind; [apply (read_pool_spec G t); apply _| |].
  - intros pool. apply hoare_ret; [apply _|]. intros w [[Hw Hc] (l' & -> & Hf)]. split; [done|].
    intros v Hv Hle. rewrite elem_of_js_set, elem_of_app. intros Hn. split; [done|].
    eapply found_prunable; [done|done|done|done|done|]. tauto.
  - intros e. apply hoare_throw; [apply _|]. by intros w [[? _] _].
Qed.

(** ** A pruning run *)

Lemma keys_under_spec t P fuel ps `{!Stable G t P} : (forall w, P w -> fine w) ->
  hoare G t P (listKeysUnder fuel ps)
    (fun r w => P w /\ match r with Ok l => forall k, k ∈ l -> exists p, p ∈ ps /\ is_Some (startsWith p k) | Err _ => True end).
Proof.
  intros HP. induction ps as [|p ps IH]; cbn [listKeysUnder].
  { apply hoare_ret; [apply _|]. intros w Hw. split; [done|]. intros k Hk. by apply not_elem_of_nil in Hk. }
  eapply hoare_bind; [apply (hoare_listAllKeys G t P fuel p); intros w Hw; by eapply fine_wf, HP| |intros e; apply hoare_throw; [apply _|]; by intros w [? _]].
  intros keys. apply hoare_pre with (P := fun w => (forall k, k ∈ keys -> is_Some (startsWith p k)) /\ P w); [by intros w [? ?]|].
  apply hoare_pure. intros Hkeys. eapply hoare_bind; [exact IH| |intros e; apply hoare_throw; [apply _|]; by intros w [? _]].
  intros rest. apply hoare_ret; [apply _|]. intros w [Hw H]. split; [done|]. intros k. rewrite elem_of_app. intros [Hk|Hk].
  - exists p. split; [by left|auto].
  - destruct (H k Hk) as (q & ? & ?). exists q. split; [by right|done].
Qed.

(** The version folders of a sorted listing up to its last. *)
Lemma folder_below l p newest u c v :
  sorted_by String.leb l -> last l = Some newest -> p ∈ l -> newest = folder pid nid c -> p = root pid nid +:+ u +:+ "/" ->
  u = v -> is_version_id v = true -> is_version_id c = true -> String.leb v c = true.
Proof.
  intros Hs Hlast Hp -> -> -> Hv Hc. apply id_format_length in Hv, Hc. apply (leb_folders v c "/"); [congruence|].
  rewrite <- (leb_app_l (root pid nid)). apply last_Some in Hlast as [l' ->]. apply elem_of_app in Hp as [Hp|Hp].
  - unfold sorted_by in Hs. by eapply (StronglySorted_app_1_elem_of _ l' _ _ _ Hs Hp (list_elem_of_here _ _)).
  - apply list_elem_of_singleton in Hp. unfold folder in Hp. rewrite Hp. apply string_leb_refl.
Qed.

(** Every prefix of the listing is a folder. *)
Lemma delimited_folder p : delimited (root pid nid) "/" p -> exists u, p = root pid nid +:+ u +:+ "/" /\ no_slash u = true.
Proof. intros (rest & g & Hg & ->). apply upto_slash in Hg as (u & -> & Hu). by exists u. Qed.

Lemma sorted_take {A} (le : A -> A -> bool) n l : sorted_by le l -> sorted_by le (take n l).
Proof. unfold sorted_by. intros H. rewrite <- (take_drop n l) in H. by eapply StronglySorted_app_1_l. Qed.

(** Deleting files of the folders that were found free. *)
Lemma delete_spec t l newest c protected keep keys :
  sorted_by String.leb l -> (forall p, p ∈ l -> delimited (root pid nid) "/" p) -> last l = Some newest ->
  newest = folder pid nid c -> is_version_id c = true ->
  let targets := List.filter (fun p => negb (includes p (map (folder pid nid) (js_set (protected ++ [keep]))))) l in
  (forall k, k ∈ keys -> exists p, p ∈ targets /\ is_Some (startsWith p k)) ->
  hoare G t (fun w => fine w /\ forall v, is_version_id v = true -> String.leb v c = true -> v ∉ protected -> fine w /\ prunable pid nid v w)
    (call (ODelete keys)) (fun _ => fine).
Proof.
  intros Hs Hd Hlast Hnew Hc targets Hkeys. apply hoare_delete; [apply _..|]. intros w ks' [Hw Hp] Hsub.
  assert (HG : G t w (remove w ks')); [|split; [done|]; by eapply kept_step].
  assert (Hfold : forall k, k ∈ ks' -> exists p u, p ∈ targets /\ p ∈ l /\ is_Some (startsWith p k) /\ p = root pid nid +:+ u +:+ "/" /\ no_slash u = true).
  { intros k Hk. destruct (Hkeys k (Hsub k Hk)) as (p & Hpt & Hpk). assert (Hpl : p ∈ l) by (by apply List_filter_elem in Hpt as [? _]).
    destruct (delimited_folder p (Hd p Hpl)) as (u & ? & ?). by exists p, u. }
  apply (p_delete _ _ _ _ _ ks'); [done| |].
  - intros k Hk. destruct (Hfold k Hk) as (p & u & _ & _ & Hpk & -> & _). by eapply startsWith_trans.
  - intros k v Hk Hv Hkv. destruct (Hfold k Hk) as (p & u & Hpt & Hpl & Hpk & Ep & Hu).
    assert (u = v) as ->.
    { unfold folder in Hkv. rewrite Ep in Hpk. apply startsWith_app_inv in Hpk as (k1 & E1 & H1), Hkv as (k2 & E2 & H2).
      rewrite E1 in E2. apply string_app_inj_l in E2 as <-. eapply folder_unique; [exact Hu|by apply version_no_slash|exact H1|exact H2]. }
    assert (Hle : String.leb v c = true) by (eapply (folder_below l p newest v c v); eauto).
    destruct (Hp v Hv Hle) as [_ ?]; [|done]. intros Hin. apply List_filter_elem in Hpt as [_ Hpt].
    apply negb_true_iff, includes_false in Hpt. apply Hpt. rewrite Ep. apply list_elem_of_fmap. exists v. split; [done|].
    apply elem_of_js_set, elem_of_app. by left.
Qed.

Lemma prune_spec t fuel max keep : hoare G t fine (pruneVersions fuel pid nid max keep) (fun _ => fine).
Proof.
  unfold pruneVersions. eapply hoare_catch with (M := fun _ => fine); [|intros a; by apply hoare_ret; [apply _|]|intros e; by apply hoare_ret; [apply _|]].
  unfold prune_body. fold (root pid nid). eapply hoare_bind; [apply (hoare_listAllPrefixes G t fine fuel (root pid nid) "/"); done| |].
  2: { intros e. apply hoare_throw; [apply _|]. by intros w [? _]. }
  intros l. destruct (length l <=? max)%nat; [apply hoare_ret; [apply _|]; by intros w [? _]|].
  eapply hoare_pre with (P := fun w => (sorted_by String.leb l /\ forall p, p ∈ l -> delimited (root pid nid) "/" p) /\ fine w); [by intros w [? ?]|].
  apply hoare_pure. intros [Hs Hd]. set (old := take (length l - max) l).
  assert (Hd' : forall p, p ∈ old -> delimited (root pid nid) "/" p).
  { intros p Hp. apply Hd. by eapply elem_of_take in Hp as (i & ? & _); eapply list_elem_of_lookup_2. }
  destruct (last old) as [newest|] eqn:Elast; [|by apply hoare_throw; [apply _|]].
  destruct (delimited_folder newest) as (c & Enew & _); [apply Hd'; by apply last_Some_elem_of|].
  rewrite Enew, slice_inner_folder. unfold VersionId_parse. destruct (is_version_id c) eqn:Hc; [apply hoare_ret_bind|by apply hoare_throw; [apply _|]].
  eapply hoare_bind; [by apply advance_spec| |intros e; apply hoare_throw; [apply _|]; by intros w [? _]].
  intros []. eapply hoare_bind; [apply protected_spec| |intros e; apply hoare_throw; [apply _|]; by intros w [? _]].
  intros protected. eapply hoare_bind; [apply keys_under_spec; [apply _|by intros w [? _]]| |intros e; apply hoare_throw; [apply _|]; by intros w [[? _] _]].
  intros keys. eapply hoare_pre with (P := fun w => (forall k, k ∈ keys -> exists p,
     p ∈ List.filter (fun p => negb (includes p (map (folder pid nid) (js_set (protected ++ [keep]))))) old /\ is_Some (startsWith p k)) /\
     fine w /\ forall v, is_version_id v = true -> String.leb v c = true -> v ∉ protected -> fine w /\ prunable pid nid v w).
  { intros w [? Hk]. by split. }
  apply hoare_pure. intros Hkeys. assert (Hdel := delete_spec t old newest c protected keep keys (sorted_take _ _ _ Hs) Hd' Elast Enew Hc Hkeys).
  destruct keys as [|k keys]; [apply hoare_ret; [apply _|]; by intros w [? _]|exact Hdel].
Qed.

(** ** Starting a session *)

(** An operation on session records, beside which nothing else changes. *)
Lemma session_side t {A} P (p : prog A) (Q : result (error V) A -> world B V -> Prop) :
  (forall w, P w -> fine w) -> hoare G t P p Q -> hoare G t P p (fun r w => Q r w /\ fine w).
Proof.
  intros HP Hp. eapply hoare_pre; [|apply (hoare_keep G t) with (F := fine); [apply _|exact Hp]]. intros w Hw. split; [done|auto].
Qed.

(** A cutoff read after the record was stored: a version above it is timely. *)
Lemma cutoff_seen t P k `{!Stable G t P} : (forall w, P w -> fine w /\ exists o, logged k o w) ->
  hoare G t P (getVersionPruneCutoff pid nid)
    (fun r w => P w /\ match r with
                       | Ok x => forall v, (forall c, truthy x = Some c -> String.leb v c = false) -> timely pid nid v k w
                       | Err _ => True
                       end).
Proof.
  intros HP. unfold getVersionPruneCutoff. fold ck.
  set (F := fun (x : option (object B)) w => P w /\ forall v,
    (forall o c, x = Some o -> parse (o_body o) = Some c -> String.leb v (cutoff_version_id c) = false) -> timely pid nid v k w).
  assert (HF : forall x, Stable G t (F x)) by (intros x; unfold F; apply _).
  eapply hoare_bind; [apply (hoare_get G t ck P F)| |intros e; apply hoare_throw; [apply _|]; by intros w [? _]].
  - intros w Hw. split; [done|]. intros v Hv. destruct (HP w Hw) as [(_ & _ & Hm) Hl]. split; [done|].
    intros (l1 & t0 & o & c & l2 & E & Hp & Hc & _). assert (Hin : (t0, ck, o) ∈ log w) by (rewrite E; apply elem_of_app; right; by left).
    destruct (Hm t0 o Hin) as (c0 & o' & c' & Hp0 & Ho' & Hp' & Hle). rewrite Hp in Hp0. injection Hp0 as <-.
    specialize (Hv o' c' Ho' Hp'). rewrite (string_leb_trans _ _ _ Hc Hle) in Hv. done.
  - intros [o|].
    + unfold readStored. destruct (parse (o_body o)) as [c|] eqn:Ep; [|apply hoare_throw; [apply _|]; by intros w [? _]].
      apply hoare_ret_bind, hoare_ret; [apply _|]. intros w [Hw H]. split; [done|]. intros v Hv. apply H. intros o' c' [= <-] Hp.
      rewrite Ep in Hp. injection Hp as <-. apply Hv. apply parse_valid, cutoff_valid in Ep.
      by destruct (cutoff_version_id c).
    + apply hoare_ret; [apply _|]. intros w [Hw H]. split; [done|]. intros v _. apply H. by intros.
Qed.

(** A session that runs from version [v], recorded before [v] was cut off. *)
Definition settled (v : VersionId) (k : key) w : Prop :=
  timely pid nid v k w /\ exists t o s, (t, k, o) ∈ log w /\ parse (o_body o) = Some s /\ of_version pid nid v s.
#[local] Instance kept_settled v k : Kept G (settled v k).
Proof.
  apply kept_extends. intros w w' He [Ht (t & o & s & Hl & H)]. split; [by eapply timely_extends|].
  exists t, o, s. split; [|done]. destruct He as [l ->]. apply elem_of_app. by right.
Qed.

(** What a started session knows of its version. *)
Definition started (input : CreateSessionInput) (r : result (error V) Session) w : Prop :=
  fine w /\ match r with
            | Ok s => forall v, truthy (in_source_version_id input) = Some v -> settled v (session_key pid (ses_session_id s)) w
            | Err _ => True
            end.

Lemma check_started_spec t input id s e :
  in_project_id input = pid -> in_notebook_id input = nid -> session_schema s = true -> ses_status s = Starting -> ses_session_id s = id ->
  (forall v, truthy (in_source_version_id input) = Some v -> of_version pid nid v s) ->
  hoare G t (fun w => fine w /\ stored_as (session_key pid id) s e w)
    (check_created input (session_key pid id) e s) (started input).
Proof.
  intros Hpid Hnid Hs Hst Hsid Hof. set (k := session_key pid id). unfold check_created, started. rewrite Hpid, Hnid.
  destruct (truthy (in_source_version_id input)) as [v|].
  2: { apply hoare_ret; [apply _|]. by intros w [? _]. }
  assert (Hrec : forall w, stored_as k s e w -> exists t o s', (t, k, o) ∈ log w /\ parse (o_body o) = Some s' /\ of_version pid nid v s').
  { intros w (obj & [t0 Hl] & _ & Hb). exists t0, obj, s. split; [done|]. split; [|by apply Hof].
    rewrite Hb. by apply parse_stringify, schema_valid. }
  assert (Hfail : forall err er, hoare G t (fun w => fine w /\ stored_as k s e w) (failCreatedSession k e s err ≫= fun _ => Throw er)
    (fun (r : result (error V) Session) w => fine w /\ match r with Ok s' => forall v', Some v = Some v' -> settled v' (session_key pid (ses_session_id s')) w | Err _ => True end)).
  { intros err er. eapply hoare_bind.
    - apply session_side; [by intros w [? _]|]. eapply hoare_pre; [|by apply (fail_created_spec schema_valid G t pid id s e err Hs Hst)].
      intros w [[? _] ?]. by split.
    - intros a. apply hoare_throw; [apply _|]. by intros w [_ ?].
    - intros x. apply hoare_throw; [apply _|]. by intros w [_ ?]. }
  eapply hoare_handle; [apply (cutoff_seen t (fun w => fine w /\ stored_as k s e w) k)|].
  { intros w [Hw (obj & Hl & _)]. split; [done|]. by exists obj. }
  intros [x|er]; [|eapply hoare_pre; [|apply Hfail]; by intros w [? _]].
  destruct (truthy x) as [c|] eqn:Ex.
  - destruct (String.leb v c) eqn:El; [eapply hoare_pre; [|apply Hfail]; by intros w [? _]|].
    apply hoare_ret; [apply _|]. intros w [[Hw Hst'] H]. split; [done|]. intros v' [= <-]. rewrite Hsid. split; [|by apply Hrec]. apply H. by intros c' [= <-].
  - apply hoare_ret; [apply _|]. intros w [[Hw Hst'] H]. split; [done|]. intros v' [= <-]. rewrite Hsid. split; [|by apply Hrec]. apply H. by intros.
Qed.

Lemma start_spec t input : input_ok input -> in_project_id input = pid -> in_notebook_id input = nid ->
  hoare G t (fun w => fine w /\ may_create t input w) (createSession input)
    (started input).
Proof.
  intros Hin Hpid Hnid. unfold createSession.
  destruct (match in_kernel_auth_token input with Some tok => negb (is_kernel_auth_token tok) | None => false end) eqn:Htok.
  { intros w [Hw _] w1 Hr. split; [|done]. by eapply (stable_rely _ t fine). }
  eapply hoare_bind with (M := fun r w => match r with Ok id => holding t id w | Err _ => ready w end /\ fine w).
  { apply session_side; [by intros w [? _]|]. eapply hoare_pre; [|apply (choose_id_spec schema_valid G t input)]; [|apply _..]. intros w [[? _] ?]. done. }
  2: { intros e. apply hoare_throw; [apply _|]. by intros w [_ ?]. }
  intros id. eapply hoare_bind with (M := fun r w => ((exists now, r = Ok now /\ utcTimestamp now = true) /\ holding t id w) /\ fine w).
  { apply session_side; [by intros w [_ ?]|]. eapply hoare_pre; [|apply (hoare_nowIso G t (holding t id)); by intros w (_ & ? & _)]. by intros w [? _]. }
  2: { intros e. apply hoare_throw; [apply _|]. by intros w [_ ?]. }
  intros now. eapply hoare_pre with (P := fun w => (exists now', Ok now = Ok now' /\ utcTimestamp now' = true) /\ holding t id w /\ fine w).
  { by intros w [[? ?] ?]. }
  apply hoare_pure. intros (now' & [= <-] & Hnow). eapply hoare_pre with (P := fun w => is_id "sess" id = true /\ holding t id w /\ fine w).
  { intros w [(? & ? & ? & ?) ?]. done. }
  apply hoare_pure. intros Hid. set (s := new_session input id now). assert (Hs : session_schema s = true) by (by apply created_schema).
  pose proof (put_created_spec schema_valid G t s (stringify s) Hs eq_refl eq_refl) as Hput.
  change (ses_project_id s) with (in_project_id input) in Hput. change (ses_session_id s) with id in Hput. rewrite Hpid in Hput. rewrite Hpid.
  eapply hoare_bind with (M := fun r w => put_post ready (fun i w => ready w /\ stored_as (session_key pid id) s (i_etag i) w) r w /\ fine w).
  - apply session_side; [by intros w [_ ?]|]. eapply hoare_pre; [|exact Hput]. by intros w [? _].
  - intros i. eapply hoare_pre with (P := fun w => fine w /\ stored_as (session_key pid id) s (i_etag i) w); [by intros w [[_ ?] ?]|].
    apply check_started_spec; [done..|].
    intros v Hv. split; [exact Hpid|]. split; [exact Hnid|]. cbn. destruct (in_source_version_id input) as [[]|]; by cbn in Hv; simplify_eq.
  - intros e. apply hoare_throw; [apply _|]. by intros w [_ ?].
Qed.

(** ** Any number of replicas *)

Inductive prune_request := PStart (input : CreateSessionInput) | PPrune (fuel max : nat) (keep : VersionId) | PSession (r : request).

Definition prune_request_ok (r : prune_request) : Prop :=
  match r with
  | PStart input => input_ok input /\ in_project_id input = pid /\ in_notebook_id input = nid
  | PPrune _ _ _ => True
  | PSession r => request_ok r
  end.
Definition prune_may (t : tid) (r : prune_request) w : Prop :=
  match r with PStart input => may_create t input w | PSession r => may t r w | _ => True end.

Definition perform_prune (r : prune_request) : prog (option SessionId) :=
  match r with
  | PStart input => s ← createSession input; mret (Some (ses_session_id s))
  | PPrune fuel max keep => pruneVersions fuel pid nid max keep ≫= fun _ => mret None
  | PSession r => perform r ≫= fun _ => mret None
  end.

Definition prune_answer (r : prune_request) (res : result (error V) (option SessionId)) w : Prop :=
  match r, res with
  | PStart input, Ok (Some id) => forall v, truthy (in_source_version_id input) = Some v -> settled v (session_key pid id) w
  | _, _ => True
  end.
#[local] Instance kept_answer r res : Kept G (prune_answer r res).
Proof. destruct r, res as [[]|]; unfold prune_answer; apply _. Qed.

Lemma prune_request_spec t r : prune_request_ok r ->
  hoare G t (fun w => fine w /\ prune_may t r w) (perform_prune r) (prune_answer r).
Proof.
  intros Hr. destruct r as [input|fuel max keep|r]; cbn [perform_prune].
  - destruct Hr as (Hin & Hpid & Hnid). eapply hoare_bind; [by apply start_spec| |].
    + intros s. apply hoare_ret; [unfold started; apply _|]. by intros w [_ H].
    + intros e. apply hoare_throw; [unfold started; apply _|]. done.
  - eapply hoare_bind; [eapply hoare_pre; [|apply prune_spec]; by intros w [? _]| |].
    + intros a. by apply hoare_ret; [apply _|].
    + intros e. by apply hoare_throw; [apply _|].
  - eapply hoare_bind; [apply session_side; [by intros w [? _]|eapply hoare_pre; [|apply (request_spec schema_valid G t r Hr)]; by intros w [[? _] ?]]| |].
    + intros a. eapply hoare_pre with (P := fine); [by intros w [_ ?]|]. by apply hoare_ret; [apply _|].
    + intros e. eapply hoare_pre with (P := fine); [by intros w [_ ?]|]. by apply hoare_throw; [apply _|].
Qed.

Definition start_pruning (rs : list prune_request) w := Config (map perform_prune rs) w.

Record prune_admissible (rs : list prune_request) w : Prop := {
  pa_ready : ready w;
  pa_gone : gone_over w;
  pa_cut : cut_max pid nid w;
  pa_ok r : r ∈ rs -> prune_request_ok r;
  pa_ids t r : rs !! t = Some r -> prune_may t r w;
}.

Lemma pruning_verified rs w : prune_admissible rs w ->
  verified G (fun t res w' => forall r, rs !! t = Some r -> prune_answer r res w') (start_pruning rs w).
Proof.
  intros [H1 H2 H3 H4 H5] t p Ht. cbn in Ht. rewrite list_lookup_fmap in Ht. destruct (rs !! t) as [r|] eqn:E; [|done].
  injection Ht as <-. eapply rg_weaken; [|apply (prune_request_spec t r)].
  - intros res w' H r' [= <-]. exact H.
  - by apply H4, (list_elem_of_lookup_2 rs t).
  - split; [done|auto].
Qed.

(** A file of a version folder stays until the version may go. *)
Definition files_kept w0 w : Prop := fine w /\ forall k v f, is_version_id v = true -> is_Some (startsWith (folder pid nid v) k) ->
  store w0 !! k = Some f -> store w !! k = Some f \/ (fine w /\ prunable pid nid v w).

Lemma files_step w0 t w w' : G t w w' -> files_kept w0 w -> files_kept w0 w'.
Proof.
  intros HG [Hf Hk]. split; [by eapply kept_step|]. intros k v f Hv Hpre Hf0.
  destruct (Hk k v f Hv Hpre Hf0) as [Hst|Hp]; [|right; by eapply (kept_step (Kept := pr_prunable v))].
  assert (Hroot : is_Some (startsWith (root pid nid) k)) by (by eapply startsWith_trans).
  destruct (root_other pid nid k Hroot) as [Hns Hnc].
  pose proof HG as HG'. destruct HG as [(_ & _ & _ & H & _)|obj c -> _ _ _ _|ks -> Hks Hdel].
  - left. by destruct (H k Hns) as [-> _].
  - left. cbn. by rewrite lookup_insert_ne.
  - rewrite store_remove. case_decide as Hin; [|by left]. right.
    eapply (kept_step (Kept := pr_prunable v) t w); [exact HG'|]. split; [done|by eapply Hdel].
Qed.

Lemma schema_version s v : session_schema s = true -> ses_source_version_id s = Some v -> is_version_id v = true.
Proof.
  unfold session_schema, session_fixed_schema. rewrite !andb_true_iff. intros H Hv. destruct_and?.
  match goal with Hs : optional is_version_id _ = true |- _ => by rewrite Hv in Hs end.
Qed.

Lemma input_version input v : input_ok input -> truthy (in_source_version_id input) = Some v -> is_version_id v = true.
Proof. unfold input_ok. rewrite !andb_true_iff. intros H Hv. destruct_and?. match goal with Ho : optional is_version_id _ = true |- _ => by rewrite Hv in Ho end. Qed.

(** C3: pruning never takes the files of a version from a session that runs from it.
    Whatever session operations and pruning runs any number of replicas make, in any
    interleaving and with any storage faults: when a session start has been answered with
    success and the session is not over, every file its source version had in the store
    from the beginning is still there, unchanged.  The pruning run publishes its cutoff
    before it looks for sessions and the session start stores its record before it looks
    at the cutoff, so one of the two sees the other. *)
Theorem pruning_spares_sessions rs w0 c i input v id o s k f :
  prune_admissible rs w0 -> rtc pool_step (start_pruning rs w0) c ->
  rs !! i = Some (PStart input) -> truthy (in_source_version_id input) = Some v -> threads c !! i = Some (Ret (Some id)) ->
  store (wd c) !! session_key pid id = Some o -> parse (o_body o) = Some s -> SessionState.isTerminal (ses_status s) = false ->
  is_Some (startsWith (folder pid nid v) k) -> store w0 !! k = Some f ->
  store (wd c) !! k = Some f.
Proof.
  intros Ha Hr Hi Hv Ht Ho Hp Hlive Hk Hf. pose proof (pruning_verified rs w0 Ha) as Hver.
  assert (H : files_kept w0 (wd c)).
  { eapply (pool_invariant G _ (files_kept w0)); [intros t w w'; apply files_step| |exact Hver| |exact Hr].
    - intros w ms Hms [Hfi HH]. split; [by apply (kept_time (Kept := pr_fine))|]. intros k' v' f' H1 H2 H3.
      destruct (HH k' v' f' H1 H2 H3) as [?|Hpr]; [by left|right; by apply (kept_time (Kept := pr_prunable v'))].
    - destruct Ha. split; [done|]. auto. }
  destruct H as [([Hw Hinv] & _) Hkept].
  assert (Hver_v : is_version_id v = true).
  { destruct (pa_ok _ _ Ha _ (list_elem_of_lookup_2 _ _ _ Hi)) as [Hin _]. by eapply input_version. }
  destruct (Hkept k v f Hver_v Hk Hf) as [?|[_ [_ Hpr]]]; [done|]. exfalso.
  assert (Hset : settled v (session_key pid id) (wd c)).
  { exact (pool_result _ _ _ _ _ _ Hver Hr Ht _ Hi v Hv). }
  destruct Hset as [[_ Hnl] (t0 & o0 & s0 & Hl0 & Hp0 & Hof)].
  destruct (Hpr t0 _ o0 s0 Hl0 (skey_session pid id) Hp0 Hof) as [?|(t1 & o1 & s1 & Hl1 & Hp1 & Hov)]; [done|].
  destruct (sinv_current _ _ _ _ _ _ Hinv (skey_session pid id) Hl1 Hp1 Ho) as (s2 & Hp2 & Hev).
  rewrite Hp in Hp2. injection Hp2 as <-. destruct (evolves_over _ _ Hev Hov) as (E & _). unfold over in Hov. congruence.
Qed.
End Pruning.

(** ** A sample run *)
Module PruneSample.
Import Docs.

Definition pid : ProjectId := SessionSample.pid.
Definition nid : NotebookId := "nb-0000000000000000".
Definition v1 : VersionId := "ver_00000000000000000000000001".
Definition v2 : VersionId := "ver_00000000000000000000000002".
Definition v3 : VersionId := "ver_00000000000000000000000003".
Definition file (v : VersionId) : key := folder pid nid v +:+ "notebook.py".
Definition stored (t : tid) (v : VersionId) (w : world doc (string * Session)) : world doc (string * Session) :=
  write t w (file v) {| o_body := DFile v; o_etag := mem_etag (length (log w)); o_uploaded := 0 |}.

(** Three versions; a session starts from the first while the notebook keeps only one. *)
Definition w0 : world doc (string * Session) := stored 0 v3 (stored 0 v2 (stored 0 v1 empty_world)).
Definition requests : list prune_request := [PStart SessionSample.input; PPrune 10 1 v3].
Definition final := run_seq 0 (map (perform_prune pid nid) requests) w0.
Definition id : SessionId := "sess-0000000000000000".
Definition object_at (k : key) : object doc :=
  match store final.2 !! k with Some o => o | None => {| o_body := DFile ""; o_etag := ""; o_uploaded := 0 |} end.
Definition record : Session := match o_body (object_at (session_key pid id)) with DSession s => s | _ => new_session SessionSample.input "" "" end.

(** The version nobody runs from is gone. *)
Example unused_version_pruned : store final.2 !! file v2 = None /\ is_Some (store final.2 !! file v3).
Proof. split; [vm_compute; reflexivity|]. vm_compute. eauto. Qed.

Lemma no_sessions k : skey k -> hist k w0 = [] /\ store w0 !! k = None.
Proof.
  intros [r Hr]. apply startsWith_split in Hr as ->. split; [reflexivity|]. unfold w0, stored. cbn.
  by rewrite !lookup_insert_ne.
Qed.

Lemma wf_stored_file t v w : wf w -> mem_wf w -> wf (stored t v w) /\ mem_wf (stored t v w).
Proof.
  intros Hw Hm. split.
  - apply wf_write; [done|]. split; [done|]. intros t' o' Ho' He. exfalso. destruct (Hm _ _ _ Ho') as (i & Hi & E). rewrite E in He.
    apply mem_etag_inj in He. lia.
  - intros t' k o Ho. apply elem_of_cons in Ho as [Ho|Ho].
    + injection Ho as -> -> ->. exists (length (log w)). cbn. split; [lia|done].
    + destruct (Hm _ _ _ Ho) as (i & Hi & E). exists i. cbn. split; [lia|done].
Qed.

Lemma files_wf : wf w0 /\ mem_wf w0.
Proof.
  unfold w0. do 3 (match goal with |- wf (stored ?t ?v ?w) /\ _ => cut (wf w /\ mem_wf w); [intros [? ?]; by apply wf_stored_file|] end).
  split; [exact wf_empty|]. intros t k o H. by apply not_elem_of_nil in H.
Qed.

Lemma prunes_admissible : prune_admissible pid nid requests w0.
Proof.
  split.
  - split; [apply files_wf|]. split.
    + intros t k o Hk Ho. apply elem_of_hist in Ho. destruct (no_sessions k Hk) as [E _]. rewrite E in Ho. by apply not_elem_of_nil in Ho.
    + intros k o Hk. destruct (no_sessions k Hk) as [_ ->]. done.
    + intros k Hk. by destruct (no_sessions k Hk) as [-> _].
    + intros k e s H. by apply not_elem_of_nil in H.
  - intros k t o l Hk Hh. destruct (no_sessions k Hk) as [E _]. rewrite E in Hh. discriminate Hh.
  - intros t o Ho. apply elem_of_hist in Ho. by apply not_elem_of_nil in Ho.
  - apply Forall_forall. constructor; [|by constructor]. split; [exact SessionSample.input_valid|done].
  - intros t r Hr. do 2 (destruct t as [|t]; [by injection Hr as <-|]). done.
Qed.

Lemma both_run : rtc pool_step (start_pruning pid nid requests w0) (Config final.1 final.2) /\ mem_wf final.2.
Proof.
  assert (Hok : run_seq_ok 0 (map (perform_prune pid nid) requests) w0 = true) by (vm_compute; reflexivity).
  exact (run_seq_reaches [] (map (perform_prune pid nid) requests) w0 (proj2 files_wf) Hok).
Qed.

Example pruning_spares_sessions_witness :
  store final.2 !! file v1 = store w0 !! file v1 /\ store w0 !! file v1 <> None.
Proof.
  assert (Hf : store w0 !! file v1 = Some {| o_body := DFile v1; o_etag := mem_etag 0; o_uploaded := 0 |}) by (vm_compute; reflexivity).
  split; [|rewrite Hf; discriminate]. rewrite Hf.
  apply (pruning_spares_sessions schema_exact cutoff_exact pid nid requests w0 (Config final.1 final.2) 0 SessionSample.input v1 id
    (object_at (session_key pid id)) record (file v1) _ prunes_admissible (proj1 both_run)).
  - reflexivity.
  - reflexivity.
  - vm_compute. reflexivity.
  - vm_compute. reflexivity.
  - vm_compute. reflexivity.
  - vm_compute. reflexivity.
  - eexists. apply startsWith_app.
  - exact Hf.
Defined.
End PruneSample.
