(* ===== verification/EditorProtocol.v ===== *)
(** * How an editor claim changes hands

    The contract of a notebook's editor claim ([claim_ok]) and the proof that every
    operation of [EditorClaims.v] on it, run by any number of replicas with any storage
    faults, stays within it. *)

From Stdlib Require Import ZArith Lia.
From stdpp Require Import relations.
From S2P Require Import Prelude Constants Lifecycle Schema UtcDate Store Cas Storage CasTheorems CasEffects Listing SessionData AppPoolRouter AppPool SessionService EditorClaims.

(** ** The contract *)

(** How far a drain has come; a lease without a stage is before all of them. *)
Definition stage_order (t : Transfer) : Z :=
  match tr_drain_lease_stage t with Some s => TAKEOVER_DRAIN_STAGE_ORDER s | None => (-1)%Z end.

(** A lease exists only while its takeover drains. *)
Definition lease_inv (c : EditorClaim) : Prop :=
  forall t, ec_transfer c = Some t -> is_Some (tr_drain_lease_id t) -> tr_phase t = PhDraining.

Section Contract.
(** The sessions that stay live editors of the notebook throughout, and who releases what. *)
Context (alive : SessionId -> Prop) (releases : tid -> SessionId -> Prop).

Record claim_ok (t : tid) (now : Z) (cur next : EditorClaim) : Prop := {
  (** The holder is fixed while a takeover is pending; past its request the takeover is
      neither dropped nor replaced; only when ready it ends, with its replacement. *)
  ok_pending tr : ec_transfer cur = Some tr ->
    (ec_session_id next = ec_session_id cur /\
     (tr_phase tr <> PhRequested -> exists tr', ec_transfer next = Some tr' /\
        tr_takeover_id tr' = tr_takeover_id tr /\ tr_requested_by tr' = tr_requested_by tr)) \/
    (tr_phase tr = PhReady /\ is_Some (tr_replacement_session_id tr) /\
     ec_session_id next = tr_replacement_session_id tr /\ ec_transfer next = None /\ ec_sharing next = Exclusive);
  (** Without a takeover, a live holder keeps the claim until it releases it itself. *)
  ok_holder h : ec_transfer cur = None -> ec_session_id cur = Some h -> alive h ->
    ec_session_id next = Some h \/ (ec_session_id next = None /\ releases t h);
  (** A takeover starts with a request. *)
  ok_start tr' : ec_transfer cur = None -> ec_transfer next = Some tr' -> tr_phase tr' = PhRequested;
  (** A lease in force is not taken by another, and its drain does not go back. *)
  ok_lease tr l : ec_transfer cur = Some tr -> lease_active now tr = true -> tr_drain_lease_id tr = Some l ->
    exists tr', ec_transfer next = Some tr' /\
      ((tr_drain_lease_id tr' = Some l /\ (stage_order tr <= stage_order tr')%Z) \/ tr_drain_lease_id tr' = None);
  ok_inv : lease_inv next;
}.

(** An expired lease does not come back to life. *)
Lemma lease_active_past m now t : (m <= now)%Z -> lease_active now t = true -> lease_active m t = true.
Proof.
  unfold lease_active. intros Hm. destruct (truthy (tr_drain_lease_id t)); [|done].
  destruct (truthy (tr_drain_lease_expires_at t)) as [e|]; [|done]. cbn. destruct (date_parse e); [|done].
  rewrite !Z.ltb_lt. lia.
Qed.

Lemma takeover_is_some id c t : takeover_is id c = Some t -> ec_transfer c = Some t /\ tr_takeover_id t = id.
Proof. unfold takeover_is. destruct (ec_transfer c); [|done]. case_bool_decide; [|done]. by intros [= <-]. Qed.

Lemma draining_some id c t :
  draining id c = Some t -> ec_transfer c = Some t /\ tr_takeover_id t = id /\ tr_phase t = PhDraining.
Proof.
  unfold draining. destruct (takeover_is id c) as [t'|] eqn:E; [|done]. case_bool_decide; [|done]. intros [= <-].
  by apply takeover_is_some in E as [? ?].
Qed.

(** A takeover step that keeps the takeover and its lease. *)
Lemma keep_ok t now cur tr tr' :
  lease_inv cur -> ec_transfer cur = Some tr -> tr_takeover_id tr' = tr_takeover_id tr ->
  tr_requested_by tr' = tr_requested_by tr ->
  (tr_drain_lease_id tr' = tr_drain_lease_id tr /\ (stage_order tr <= stage_order tr')%Z \/
   tr_drain_lease_id tr' = None \/ lease_active now tr = false) ->
  (is_Some (tr_drain_lease_id tr') -> tr_phase tr' = PhDraining) ->
  claim_ok t now cur (with_transfer tr' cur).
Proof.
  intros Hinv Htr Hid Hby Hl Hph. split; cbn; [| | | |].
  - intros tr0 H0. left. split; [done|]. intros _. exists tr'. split; [done|]. rewrite Htr in H0. by injection H0 as <-.
  - intros h Hn. by rewrite Htr in Hn.
  - intros tr0 Hn. by rewrite Htr in Hn.
  - intros tr0 l H0 Ha Hl0. rewrite Htr in H0. injection H0 as <-. exists tr'. split; [done|].
    destruct Hl as [[-> ?]|[?|?]]; [auto|auto|congruence].
  - intros t0 [= <-]. exact Hph.
Qed.

Lemma reserve_ok t now cur input at_ :
  lease_inv cur -> (forall tr, ec_transfer cur = Some tr -> tr_phase tr = PhRequested) ->
  claim_ok t now cur (with_transfer (new_transfer input at_) cur).
Proof.
  intros Hinv Hreq. split; cbn.
  - intros tr Htr. left. split; [done|]. intros H. by destruct H; apply Hreq.
  - intros h _ ?. by left.
  - by intros tr' _ [= <-].
  - intros tr l Htr _ Hl. specialize (Hinv tr Htr). rewrite (Hreq tr Htr) in Hinv. by discriminate Hinv.
  - by intros tr [= <-] [? ?].
Qed.

Lemma complete_ok t now cur tr r at_ :
  lease_inv cur -> ec_transfer cur = Some tr -> tr_phase tr = PhReady -> tr_replacement_session_id tr = Some r ->
  claim_ok t now cur (cur <| ec_session_id := Some r |> <| ec_sharing := Exclusive |>
                          <| ec_claimed_at := at_ |> <| ec_transfer := None |>).
Proof.
  intros Hinv Htr Hph Hr. split; cbn; try done.
  - intros tr0 H0. rewrite Htr in H0. injection H0 as <-. right. by rewrite Hr.
  - intros h Hn. by rewrite Htr in Hn.
  - intros tr0 l H0 _ Hl. rewrite Htr in H0. injection H0 as <-. specialize (Hinv tr Htr). rewrite Hph, Hl in Hinv.
    by discriminate Hinv.
Qed.

Lemma cancel_ok t now cur tr :
  lease_inv cur -> ec_transfer cur = Some tr -> tr_phase tr = PhRequested -> claim_ok t now cur (cur <| ec_transfer := None |>).
Proof.
  intros Hinv Htr Hph. split; cbn; try done.
  - intros tr0 H0. rewrite Htr in H0. injection H0 as <-. left. split; [done|]. by rewrite Hph.
  - intros h Hn. by rewrite Htr in Hn.
  - intros tr0 l H0 _ Hl. rewrite Htr in H0. injection H0 as <-. specialize (Hinv tr Htr). rewrite Hph, Hl in Hinv.
    by discriminate Hinv.
Qed.

(** Taking a claim nobody alive holds, and giving one's own back. *)
Lemma take_ok t now cur sid sharing at_ :
  ec_transfer cur = None -> (forall h, ec_session_id cur = Some h -> ~ alive h) ->
  claim_ok t now cur (cur <| ec_session_id := Some sid |> <| ec_sharing := sharing |>
                          <| ec_claimed_at := at_ |> <| ec_transfer := None |>).
Proof.
  intros Htr Hd. split; cbn; try done; [by rewrite Htr| |by rewrite Htr]. intros h _ Hh Ha. by destruct (Hd h).
Qed.

Lemma give_back_ok t now cur h at_ :
  ec_transfer cur = None -> ec_session_id cur = Some h -> releases t h ->
  claim_ok t now cur (cur <| ec_session_id := None |> <| ec_claimed_at := at_ |>).
Proof.
  intros Htr Hh Hrel. split; cbn; try (rewrite Htr; done).
  - intros h' _ Hh' _. right. rewrite Hh in Hh'. by injection Hh' as <-.
  - intros t0. cbn. by rewrite Htr.
Qed.

(** ** The transitions *)

Section Moves.
Context {B : Type}.
Local Abbreviation V := (string * Session)%type (only parsing).
Local Notation prog := (prog B V).

(** What a transition of the claim yields, decided on times up to [m]. *)
Definition step_ok (t : tid) (cur next : EditorClaim) (m : Z) : Prop :=
  lease_inv cur -> forall now, (m <= now)%Z -> claim_ok t now cur next.
Definition move_ok (t : tid) (cur : EditorClaim) (r : result (error V) (unit * option EditorClaim)) (m : Z) : Prop :=
  match r with Ok (_, Some next) => step_ok t cur next m | Ok (_, None) => True | Err e => e <> CasWriteConflictError end.

Lemma timed_now {A} m (f : Z -> prog A) Q :
  (forall n, (m <= n)%Z -> local_timed n (f n) Q) -> local_timed m (now ← now_ms; f now) Q.
Proof. intros H. split; [done|]. intros n _ Hn. by apply H. Qed.

Lemma timed_now_bind {A C} m (f : Z -> prog C) (g : C -> prog A) Q :
  (forall n, (m <= n)%Z -> local_timed n (x ← f n; g x) Q) -> local_timed m (x ← (now ← now_ms; f now); g x) Q.
Proof. intros H. split; [done|]. intros n _ Hn. by apply H. Qed.

Lemma timed_nowIso {A} m (f : Timestamp -> prog A) Q :
  (forall n, (m <= n)%Z -> local_timed n (f (toISOString n)) Q) -> local_timed m (now ← nowIso; f now) Q.
Proof. intros H. split; [done|]. intros n _ Hn. by apply H. Qed.

Lemma timed_pure (f : EditorClaim -> option EditorClaim) t cur m :
  (forall next, f cur = Some next -> step_ok t cur next m) -> local_timed (B := B) (V := V) m (pure_apply f cur) (move_ok t cur).
Proof. intros H. unfold pure_apply. cbn. destruct (f cur); auto. Qed.

Lemma reserve_moves t input cur m : local_timed (B := B) m (reserve_fn input cur) (move_ok t cur).
Proof.
  unfold reserve_fn. destruct (takeover_is _ cur) as [t0|]; [by destruct (_ || _)|].
  destruct (ec_transfer cur) as [tr|] eqn:Htr.
  - destruct (bool_decide_reflect (tr_phase tr = PhRequested)) as [Hph|]; [|by hnf]. apply timed_now_bind. intros n Hn.
    change (local_timed (B := B) n (if negb (request_expired n tr) then Throw TakeoverInProgressError
      else if negb (ec_session_id cur === Some (ti_expectedHolder input)) then Throw edit_changed
      else now ← nowIso; mret (tt, Some (with_transfer (new_transfer input now) cur))) (move_ok t cur)).
    destruct (negb (request_expired n tr)); [done|]. destruct (negb _); [done|].
    apply timed_nowIso. intros n' Hn' Hinv now Hnow. apply reserve_ok; [done|]. intros tr0 H0. congruence.
  - change (local_timed (B := B) m (if negb (ec_session_id cur === Some (ti_expectedHolder input)) then Throw edit_changed
      else now ← nowIso; mret (tt, Some (with_transfer (new_transfer input now) cur))) (move_ok t cur)).
    destruct (negb _); [done|]. apply timed_nowIso. intros n' Hn' Hinv now Hnow. apply reserve_ok; [done|].
    intros tr0 H0. congruence.
Qed.

Lemma phase_moves t id ph r cur m : local_timed (B := B) m (phase_fn id ph r cur) (move_ok t cur).
Proof.
  unfold phase_fn. destruct (takeover_is id cur) as [tr|] eqn:E; [|done].
  apply takeover_is_some in E as [Htr _]. intros Hinv now _. destruct ph.
  - apply (keep_ok t now cur tr); try done. left. split; [done|]. unfold stage_order. cbn. lia.
  - apply (keep_ok t now cur tr); try done; [by right; left|]. by intros [? ?].
Qed.

Lemma acquire_moves t id l cur m : local_timed (B := B) m (acquire_lease_fn id l cur) (move_ok t cur).
Proof.
  unfold acquire_lease_fn. destruct (draining id cur) as [tr|] eqn:E; [|done].
  apply draining_some in E as (Htr & _ & Hph). apply timed_now. intros n Hn.
  destruct (lease_active n tr) eqn:Ha; [done|]. apply timed_now. intros n' Hn' Hinv now Hnow.
  apply (keep_ok t now cur tr); try done. right. right. destruct (lease_active now tr) eqn:Ha'; [|done].
  apply (lease_active_past n) in Ha'; [congruence|lia].
Qed.

Lemma renew_moves t id l cur m : local_timed (B := B) m (renew_lease_fn id l cur) (move_ok t cur).
Proof.
  unfold renew_lease_fn. destruct (draining id cur) as [tr|] eqn:E; [|done].
  apply draining_some in E as (Htr & _ & Hph). apply timed_now. intros n Hn.
  destruct (date_parse_opt (tr_drain_lease_expires_at tr)) as [e|]; [|done].
  destruct (date_parse_opt (or_keep _ _)) as [d|]; [|done]. destruct (_ || _); [done|].
  intros Hinv now Hnow. apply (keep_ok t now cur tr); try done. left. split; [done|]. unfold stage_order. cbn. lia.
Qed.

Lemma advance_moves t id l stage cur m : local_timed (B := B) m (advance_lease_fn id l stage cur) (move_ok t cur).
Proof.
  unfold advance_lease_fn. destruct (draining id cur) as [tr|] eqn:E; [|done].
  apply draining_some in E as (Htr & _ & Hph). apply timed_now. intros n Hn.
  destruct (_ || _); [done|]. destruct (match tr_drain_lease_stage tr with Some _ => _ | None => false end) eqn:Es; [done|].
  intros Hinv now Hnow. apply (keep_ok t now cur tr); try done. left. split; [done|].
  unfold stage_order. cbn. destruct (tr_drain_lease_stage tr) as [c|]; [apply Z.leb_gt in Es; lia|]. by destruct stage.
Qed.

Lemma finish_moves t id l cur m : local_timed (B := B) m (finish_lease_fn id l cur) (move_ok t cur).
Proof.
  unfold finish_lease_fn. destruct (draining id cur) as [tr|] eqn:E; [|done].
  apply draining_some in E as (Htr & _ & Hph). case_bool_decide; [|done].
  intros Hinv now Hnow. apply (keep_ok t now cur tr); try done; [by right; left|]. by intros [? ?].
Qed.

Lemma release_lease_moves t id l cur next m : release_lease_fn id l cur = Some next -> step_ok t cur next m.
Proof.
  unfold release_lease_fn. destruct (takeover_is id cur) as [tr|] eqn:E; [|done].
  apply takeover_is_some in E as [Htr _]. case_bool_decide; [|done]. intros [= <-] Hinv now _.
  apply (keep_ok t now cur tr); try done; [by right; left|]. by intros [? ?].
Qed.

Lemma complete_moves t id r cur m : local_timed (B := B) m (complete_takeover_fn id r cur) (move_ok t cur).
Proof.
  unfold complete_takeover_fn. destruct (takeover_is id cur) as [tr|] eqn:E; [|done].
  apply takeover_is_some in E as [Htr _]. destruct (_ && _) eqn:Ec; [|done].
  apply andb_true_iff in Ec as [Hph Hr]. apply bool_decide_eq_true in Hph, Hr.
  apply timed_nowIso. intros n _ Hinv now _. by apply (complete_ok t now cur tr).
Qed.

Lemma cancel_moves t id cur next m : cancel_fn id cur = Some next -> step_ok t cur next m.
Proof.
  unfold cancel_fn. destruct (takeover_is id cur) as [tr|] eqn:E; [|done].
  apply takeover_is_some in E as [Htr _]. case_bool_decide; [|done]. intros [= <-] Hinv now _. by apply (cancel_ok t now cur tr).
Qed.
End Moves.
End Contract.
