(* ===== verification/EditorReplicas.v ===== *)
(** * Replicas sharing an editor claim

    Every operation on one notebook's editor claim, verified among any number of replicas
    that also run the operations of the session service on the session records: the claim
    moves as [EditorProtocol.v] says, and it leaves a session only when the session's
    record is closing. *)

From Stdlib Require Import ZArith Lia.
From stdpp Require Import relations.
From S2P Require Import Prelude Constants Lifecycle Schema UtcDate Store Cas Storage CasTheorems CasEffects Listing SessionData AppPoolRouter AppPool SessionService EditorClaims SessionProtocol SessionReplicas SessionRequests EditorProtocol.

Section Replicas.
Context {B : Type} `{!EqDecision B}.
Context {CSe : Codec B Session} {CCu : Codec B VersionPruneCutoff} {CP : Codec B AppPool} {CEd : Codec B EditorClaim}.
Context (schema_valid : forall s : Session, valid s <-> session_schema s = true).
(** What is read back of a stored claim is the claim that was stored. *)
Context (reads_back : forall x y : EditorClaim, parse (stringify x) = Some y -> y = x).
Context (pid : ProjectId) (nid : NotebookId).
(** The sessions known to be running editors of the notebook, and who releases what. *)
Context (established : SessionId -> Prop) (releases : tid -> SessionId -> Prop).
Local Abbreviation V := (string * Session)%type (only parsing).
Local Notation prog := (prog B V).
Implicit Types w : world B V.

Definition ek : key := editorClaim pid nid.
Lemma ek_other : ~ skey ek.
Proof. by intros [? ?]. Qed.

(** A running editor of the notebook, with its address. *)
Definition running_editor (s : Session) : bool :=
  (ses_notebook_id s === nid) && persistent_editor s && (ses_status s === Running) &&
  match truthy (ses_sandbox_url s) with Some _ => true | None => false end.

Definition known w : Prop := forall h, established h ->
  is_id "sess" h = true /\ exists t o s, (t, session_key pid h, o) ∈ log w /\ parse (o_body o) = Some s /\ running_editor s = true.
#[export] Instance persistent_known : Persistent known.
Proof.
  intros w w' Hg Hk h Hh. destruct (Hk h Hh) as (Hid & t & o & s & Hl & H). split; [done|]. exists t, o, s.
  split; [by apply (grows_log _ _ Hg)|done].
Qed.

(** One whose record is not closing. *)
Definition alive w (h : SessionId) : Prop :=
  established h /\ exists o s, store w !! session_key pid h = Some o /\ parse (o_body o) = Some s /\ closing s = false.

(** ** The protocol *)

Definition claims_sound w : Prop :=
  forall o c, store w !! ek = Some o -> parse (o_body o) = Some c -> lease_inv c.

Definition write_ok (t : tid) w (next : EditorClaim) : Prop :=
  lease_inv next /\
  match store w !! ek with
  | None => ec_transfer next = None
  | Some o => exists cur, parse (o_body o) = Some cur /\ claim_ok (alive w) releases t (clock w) cur next
  end.

Inductive G (t : tid) w w' : Prop :=
| g_session : session_step t w w' -> G t w w'
| g_claim obj next : w' = write t w ek obj -> grows w w' -> o_body obj = stringify next -> o_uploaded obj = clock w ->
    (claims_sound w -> write_ok t w next) -> G t w w'.

#[export] Instance editors_protocol : Protocol G.
Proof.
  split; [|by intros t w w' [[? _]|? ? ? ? ? ?]]. intros t w. apply g_session, session_step_idle.
Qed.

Lemma claim_write_other t w obj k : skey k -> store (write t w ek obj) !! k = store w !! k /\ hist k (write t w ek obj) = hist k w.
Proof.
  intros Hk. assert (Hne : ek <> k) by (intros <-; by apply ek_other).
  split; [by apply lookup_insert_ne|]. by rewrite hist_write, bool_decide_eq_false_2.
Qed.

Lemma claim_write_off t w obj : grows w (write t w ek obj) -> off_records w (write t w ek obj).
Proof. intros Hg. split; [done| |done]. intros k. apply claim_write_other. Qed.

#[export] Instance editors_allow_sessions : AllowsSessions G.
Proof.
  split.
  - intros t w w'. apply g_session.
  - intros t w w' [(_ & H & _)|obj next -> Hg _ _ _] Hi; [by apply H|]. by eapply sinv_off, Hi; apply claim_write_off.
  - intros t w w' k [(_ & _ & H & _)|obj next -> Hg _ _ _] Hi Hk; [by apply H|]. by apply change_off; [apply claim_write_off|].
Qed.

Lemma sound_step t w w' : G t w w' -> claims_sound w -> claims_sound w'.
Proof.
  intros [(_ & _ & _ & H & _)|obj next -> _ Hb _ Hok] Hs o c Ho Hp.
  - destruct (H ek ek_other) as [E _]. rewrite E in Ho. by eapply Hs.
  - cbn in Ho. rewrite lookup_insert_eq in Ho. injection Ho as <-. rewrite Hb in Hp. apply reads_back in Hp as ->.
    by apply Hok.
Qed.
#[export] Instance kept_sound : Kept G claims_sound.
Proof. split; [intros t w w'; apply sound_step|done]. Qed.
#[export] Instance keeps_sound : KeepsIds claims_sound.
Proof. by intros t w id _ ?. Qed.
#[export] Instance keeps_known : KeepsIds known.
Proof. by intros t w id _ ?. Qed.

Definition fit w : Prop := ready w /\ known w /\ claims_sound w.
Lemma fit_wf w : fit w -> wf w.
Proof. by intros [[? _] _]. Qed.
#[export] Instance stable_fit t : Stable G t fit.
Proof. unfold fit. apply _. Qed.
#[export] Instance keeps_fit : KeepsIds fit.
Proof. unfold fit. apply _. Qed.

(** ** Holders *)

Lemma reach_running b : Fsm.reachable SessionState.machine Running b -> b = Running \/ closing_status b = true.
Proof.
  intros H. remember Running as a eqn:Ea. destruct H as [x|x y z Hxy Hyz]; [by left|]. subst x. right.
  eapply reach_closing; [exact Hyz|]. inversion Hxy as [x' ev y' Hev]. by destruct ev; try discriminate Hev; injection Hev as <-.
Qed.

(** An established editor is one still, and reusable unless it is closing. *)
Definition editor_still (s : Session) : Prop :=
  ses_notebook_id s = nid /\ persistent_editor s = true /\ (closing s = true \/ forall now, isReusableSession s now = true).

Lemma evolves_editor s s' : running_editor s = true -> evolves s s' -> editor_still s'.
Proof.
  unfold running_editor. rewrite !andb_true_iff, !bool_decide_eq_true. intros [[[Hn Hp] Hst] Hu] [HI HS _ _ _ _ _ HU].
  unfold identity in HI. injection HI as ? ? ? Hn' ? ? ? He ? ? Hm ? ? ? ? ? ? ? ?.
  split; [congruence|]. split; [unfold persistent_editor in *; by rewrite Hm, He|].
  rewrite Hst in HS. destruct (reach_running _ HS) as [Hr|Hc]; [right|by left]. intros now. unfold isReusableSession.
  rewrite Hr. destruct (truthy (ses_sandbox_url s)); [|done]. destruct (HU ltac:(eauto)) as [u ->]. done.
Qed.

Lemma observed w h o s :
  fit w -> established h -> store w !! session_key pid h = Some o -> parse (o_body o) = Some s -> editor_still s.
Proof.
  intros ([_ Hi] & Hk & _) Hh Ho Hp. destruct (Hk h Hh) as (_ & t & o0 & s0 & Hl & Hp0 & Hr).
  destruct (sinv_current w _ t o0 s0 o Hi (skey_session pid h) Hl Hp0 Ho) as (s1 & Hp1 & Hev).
  rewrite Hp in Hp1. injection Hp1 as <-. by eapply evolves_editor.
Qed.

(** No live holder any more, and none again. *)
Definition gone (h : SessionId) w : Prop := established h ->
  (exists t o s, (t, session_key pid h, o) ∈ log w /\ parse (o_body o) = Some s /\ closing s = true) \/
  store w !! session_key pid h = None.

#[export] Instance stable_gone t h : Stable G t (fun w => fit w /\ gone h w).
Proof.
  intros w w' Ho [Hf Hg]. split; [by eapply (stable_fit t)|]. intros Hh.
  assert (Hgr : grows w w') by (exact (others_grows G t w w' Ho)).
  destruct (Hg Hh) as [(t0 & o & s & Hl & H)|Hn]; [left; exists t0, o, s; split; [by apply (grows_log _ _ Hgr)|done]|].
  right. destruct Ho as [(t' & _ & HG)|(ms & _ & ->)]; [|done]. destruct Hf as ([_ Hi] & Hk & _).
  destruct (as_change _ _ _ (session_key pid h) HG Hi (skey_session pid h))
    as [-> _|o s Hh0 _ _ _ _ _ _|o o' s s' Ho _ _ _ _ _|o s _ _ _ _ ? _]; try congruence. exfalso.
  destruct (Hk h Hh) as (_ & t0 & o0 & s0 & Hl & _). apply elem_of_hist in Hl. rewrite Hh0 in Hl. by apply not_elem_of_nil in Hl.
Qed.

Lemma gone_dead h w : fit w -> gone h w -> ~ alive w h.
Proof.
  intros ([_ Hi] & _) Hg (Hh & o & s & Ho & Hp & Hc). destruct (Hg Hh) as [(t & o0 & s0 & Hl & Hp0 & Hc0)|?]; [|congruence].
  destruct (sinv_current w _ t o0 s0 o Hi (skey_session pid h) Hl Hp0 Ho) as (s1 & Hp1 & Hev).
  rewrite Hp in Hp1. injection Hp1 as <-. apply ev_status in Hev. pose proof (reach_closing _ _ Hev Hc0) as H.
  unfold closing, closing_status in *. congruence.
Qed.

(** What a look at a session record gives. *)
Definition looked_up (h : SessionId) (x : option Session) w : Prop :=
  match x with
  | Some s => (established h -> editor_still s) /\ exists o, logged (session_key pid h) o w /\ parse (o_body o) = Some s
  | None => gone h w
  end.
#[export] Instance stable_looked_up t h x : Stable G t (fun w => fit w /\ looked_up h x w).
Proof. destruct x; unfold looked_up; apply _. Qed.

Definition read_record (h : SessionId) (x : option (object B)) w : Prop :=
  fit w /\ match x with
           | Some o => match parse (T := Session) (o_body o) with Some s => looked_up h (Some s) w | None => True end
           | None => gone h w
           end.
#[export] Instance stable_read_record t h x : Stable G t (read_record h x).
Proof. unfold read_record. destruct x as [o|]; [destruct (parse (o_body o))|]; unfold looked_up; apply _. Qed.

Lemma look_up_session_spec t h :
  hoare G t fit (findSession pid h) (fun r w => fit w /\ match r with Ok x => looked_up h x w | Err _ => True end).
Proof.
  unfold findSession. eapply hoare_catch with
    (M := fun r w => fit w /\ match r with Ok x => looked_up h x w | Err (NotFoundError _) => gone h w | Err _ => True end).
  - unfold getSession. eapply hoare_bind with (M := fun r w => fit w /\ match r with Ok s => looked_up h (Some s) w | Err (NotFoundError _) => gone h w | Err _ => True end).
    + eapply hoare_bind.
      * apply (hoare_get G t _ fit (read_record h)).
        intros w Hw. split; [done|]. destruct (store w !! session_key pid h) as [o|] eqn:E; [|by intros _; right].
        destruct (parse (o_body o)) as [s|] eqn:Ep; [|done]. split; [intros Hh; by eapply observed|].
        exists o. split; [|done]. by apply (wf_stored w (fit_wf w Hw)).
      * intros [o|]; [|by apply hoare_throw; [apply _|]]. unfold readStored. destruct (parse (o_body o)) as [s|] eqn:Ep.
        -- apply hoare_ret; [apply _|]. intros w [Hw H]. rewrite Ep in H. by split.
        -- apply hoare_throw; [apply _|]. by intros w [? _].
      * intros e. apply hoare_throw; [apply _|]. intros w [Hw [msg ->]]. done.
    + intros s. by apply hoare_ret; [apply _|].
    + intros e. apply hoare_throw; [destruct e; apply _|]. by intros w [? ?].
  - intros x. by apply hoare_ret; [apply _|].
  - intros e. destruct e; try (apply hoare_throw; [apply _|]; by intros w [? _]).
    apply hoare_ret; [apply _|]. by intros w [? ?].
Qed.

Lemma holder_spec t holder :
  hoare G t fit (getLiveEditorHolder pid nid holder)
    (fun r w => fit w /\ match r with Ok None => forall h, holder = Some h -> gone h w | _ => True end).
Proof.
  unfold getLiveEditorHolder. destruct (truthy holder) as [h|] eqn:Eh.
  2: { apply hoare_ret; [apply _|]. intros w Hw. split; [done|]. intros h -> Hh. destruct h; [|done].
       destruct Hw as (_ & Hk & _). by destruct (Hk _ Hh). }
  assert (Hh : holder = Some h) by (by destruct holder as [[]|]; cbn in Eh; simplify_eq). subst holder.
  assert (Hret : forall P : world B V -> Prop, Stable G t P -> (forall w, P w -> fit w /\ gone h w) ->
    hoare G t P (mret (None : option Session)) (fun r w => fit w /\ match r with Ok None => forall h', Some h = Some h' -> gone h' w | Ok (Some _) | Err _ => True end)).
  { intros P HP H. apply hoare_ret; [done|]. intros w Hw. destruct (H w Hw). split; [done|]. by intros h' [= <-]. }
  eapply hoare_bind; [apply look_up_session_spec| |intros e; apply hoare_throw; [apply _|]; by intros w [? _]].
  intros [s|]; [|apply Hret; [apply _|done]].
  set (P := fun w => fit w /\ looked_up h (Some s) w). assert (HP : Stable G t P) by (unfold P; apply _).
  destruct (_ || _) eqn:En.
  { apply Hret; [done|]. intros w [Hw [Hs _]]. split; [done|]. intros Hh. destruct (Hs Hh) as (H1 & H2 & _). exfalso.
    rewrite H2, (bool_decide_eq_true_2 _ H1) in En. done. }
  eapply hoare_bind; [apply (sweep_now_spec G t P)| |intros e; apply hoare_throw; [apply _|]; by intros w [_ [? _]]].
  intros now. apply hoare_pure. intros _. destruct (isReusableSession s now) eqn:Er.
  { apply hoare_ret; [done|]. by intros w [? _]. }
  eapply hoare_bind; [apply (sweep_now_spec G t P)| |intros e; apply hoare_throw; [apply _|]; by intros w [_ [? _]]].
  intros now'. apply hoare_pure. intros _. destruct (retiring s now').
  { apply hoare_ret; [done|]. by intros w [? _]. }
  apply Hret; [done|]. intros w [Hw [Hs (o & [t0 Hl] & Hp)]]. split; [done|]. intros Hh. left. exists t0, o, s.
  split; [done|]. split; [done|]. destruct (Hs Hh) as (_ & _ & [?|Hr]); [done|]. by rewrite Hr in Er.
Qed.

(** ** Writing the claim *)

Lemma fit_write t w next e :
  fit w -> write_ok t w next -> etag_ok w ek (stringify next) e ->
  let obj := {| o_body := stringify next; o_etag := e; o_uploaded := clock w |} in
  G t w (write t w ek obj) /\ fit (write t w ek obj).
Proof.
  intros ([Hwf Hi] & Hk & Hs) Hok He obj.
  assert (HG : G t w (write t w ek obj)).
  { apply (g_claim _ _ _ obj next); [done| |done..].
    eapply (sem_grows t (OPut ek (stringify next) Always)). right. split; [done|]. by exists e. }
  split; [done|]. pose proof (protocol_grows t w _ HG) as Hg.
  split; [|split; [by eapply persistent|by eapply sound_step]]. split; [by apply Hg|by eapply as_sinv].
Qed.

Lemma claim_put_spec t c next P `{!Stable G t P} :
  (forall w, P w -> fit w) -> (forall w, P w -> holds (store w) ek c -> write_ok t w next) ->
  hoare G t P (call (OPut ek (stringify next) c)) (put_post P (fun _ => fit)).
Proof.
  intros HP Hok. apply hoare_put; [apply _|apply _|apply _|]. intros w e Hw Hh He. apply fit_write; auto.
Qed.

Lemma claim_cas_spec t c next P `{!Stable G t P} :
  (forall w, P w -> fit w) -> (forall w, P w -> holds (store w) ek c -> write_ok t w next) ->
  hoare G t P (cas_put ek (stringify next) c) (fun _ => fit).
Proof.
  intros HP Hok. eapply hoare_cas_put; [by apply claim_put_spec|apply _|done|].
  intros [i|[]] w _; cbn; auto; [done..|]. intros [?|[_ ?]]; auto.
Qed.

(** A conditional write on a claim read before, still in place. *)
Lemma write_ok_over t w obj cur next :
  fit w -> logged ek obj w -> parse (o_body obj) = Some cur -> holds (store w) ek (onlyIfEtagMatches (o_etag obj)) ->
  (lease_inv cur -> claim_ok (alive w) releases t (clock w) cur next) -> write_ok t w next.
Proof.
  intros Hw Hl Hp Hh Hok. destruct (holds_etag_body _ _ _ (fit_wf w Hw) Hl Hh) as (o & Ho & Hb).
  assert (Hp' : parse (o_body o) = Some cur) by (by rewrite Hb).
  assert (H : claim_ok (alive w) releases t (clock w) cur next) by (apply Hok; by apply (proj2 (proj2 Hw) o)).
  split; [by apply (ok_inv _ _ _ _ _ _ H)|]. rewrite Ho. by exists cur.
Qed.

(** *** Takeover steps *)

Lemma timed_forall {A X} (x0 : X) m (p : prog A) (Q : X -> result (error V) A -> Z -> Prop) :
  (forall x, local_timed m p (Q x)) -> local_timed m p (fun r n => forall x, Q x r n).
Proof.
  revert m. induction p as [a|e|Y o k IH]; intros m; cbn; auto. intros H. split; [by destruct (H x0)|].
  intros y Hy Hm. apply IH. intros x. by apply H.
Qed.

Lemma mutate_claim_spec t (apply : EditorClaim -> prog (unit * option EditorClaim)) :
  (forall al cur m, local_timed m (apply cur) (move_ok al releases t cur)) ->
  hoare G t fit (mutate_claim pid nid apply) (fun _ => fit).
Proof.
  intros Ha. unfold mutate_claim. eapply hoare_bind with (M := fun _ => fit).
  - eapply hoare_post; [|apply (hoare_mutateM_timed G t ek apply None fit fit_wf
      (fun cur _ next m => forall al, step_ok al releases t cur next m) (fun _ _ => True)) with (S := fun _ _ _ => fit)].
    + intros [[x o]|e] w H; cbn in H.
      * destruct (written _ o); [by destruct H as [_ ?]|by destruct H].
      * destruct e; try done. by destruct H as [?|(_ & _ & _ & ?)].
    + intros cur _. pose proof (timed_forall (fun _ => True) 0 (apply cur) (fun al => move_ok al releases t cur)
        (fun al => Ha al cur 0%Z)) as H. revert H. generalize 0%Z (apply cur). clear. intros m p H.
      revert m H. induction p as [[x [next|]]|e|Y o k IH]; intros m; cbn; auto.
      * intros H. by apply (H (fun _ => True)).
      * intros [? H]. split; auto.
    + apply _.
    + intros w o cur x next m e Hw Ho Hp Hφ Hm He. apply fit_write; [done| |done].
      assert (Hl : lease_inv cur) by (by apply (proj2 (proj2 Hw) o)).
      pose proof (Hφ (alive w) Hl (clock w) Hm) as H. split; [by apply (ok_inv _ _ _ _ _ _ H)|].
      rewrite Ho. by exists cur.
  - intros x. by apply hoare_ret; [apply _|].
  - intros e. by apply hoare_throw; [apply _|].
Qed.

(** *** Acquiring and releasing *)

Lemma hoare_nowIso_any t P `{!Stable G t P} : hoare G t P nowIso (fun _ => P).
Proof.
  unfold nowIso. eapply hoare_bind; [apply (sweep_now_spec G t P)| |].
  - intros n. apply hoare_ret; [apply _|]. by intros w [_ ?].
  - intros e. apply hoare_throw; [apply _|]. by intros w [_ ?].
Qed.

(** Claiming over a claim that was read: by a session already in it, or over a gone holder. *)
Lemma claim_over_spec t obj cur sid sharing by_ now : parse (o_body obj) = Some cur ->
  hoare G t (fun w => fit w /\ logged ek obj w)
    (holder ← lift (editorClaimHolder cur by_);
     if holder === Some sid then mret {| cl_claimed := true; cl_claim := cur |}
     else
       liveHolder ← getLiveEditorHolder pid nid holder;
       match liveHolder with
       | Some s => mret {| cl_claimed := false; cl_claim := cur <| ec_session_id := Some (ses_session_id s) |> |}
       | None =>
           let next := match ec_transfer cur with
                       | Some t => with_transfer (t <| tr_replacement_session_id := Some sid |>) cur
                       | None => cur <| ec_session_id := Some sid |> <| ec_sharing := sharing |>
                                     <| ec_claimed_at := now |> <| ec_transfer := None |>
                       end in
           cas_put ek (stringify next) (onlyIfEtagMatches (o_etag obj)) ≫= fun _ =>
           mret {| cl_claimed := true; cl_claim := next |}
       end) (fun _ => fit).
Proof.
  intros Hp. eapply hoare_bind; [apply hoare_lift; apply _| |intros e; apply hoare_throw; [apply _|]; by intros w [_ [? _]]].
  intros holder. apply hoare_pure. intros Hholder. destruct (holder === Some sid).
  { apply hoare_ret; [apply _|]. by intros w [? _]. }
  eapply hoare_bind; [apply (hoare_frame G t fit) with (F := logged ek obj); [apply _|apply holder_spec]| |].
  2: { intros e. apply hoare_throw; [apply _|]. by intros w [[? _] _]. }
  intros [s|]; [apply hoare_ret; [apply _|]; by intros w [[? _] _]|].
  eapply hoare_bind with (M := fun _ => fit).
  2: { intros i. by apply hoare_ret; [apply _|]. }
  2: { intros e. by apply hoare_throw; [apply _|]. }
  eapply hoare_pre with (P := fun w => (forall h, holder = Some h -> fit w /\ gone h w) /\ fit w /\ logged ek obj w).
  { intros w [[Hw Hg] Hl]. split; [|done]. intros h Hh. auto. }
  apply claim_cas_spec; [apply _|by intros w (_ & ? & _)|]. intros w (Hg & Hw & Hl) Hh.
  apply (write_ok_over t w obj cur); [done..|]. intros Hinv. unfold editorClaimHolder in Hholder.
  destruct (ec_transfer cur) as [tr|] eqn:Etr.
  - apply (keep_ok _ _ t _ cur tr); try done; [left; split; [done|]; unfold stage_order; cbn; lia|].
    cbn. by apply Hinv.
  - injection Hholder as ->. apply take_ok; [done|]. intros h Hh'. destruct (Hg h Hh'). by apply gone_dead.
Qed.

Lemma claim_editor_spec t sid sharing by_ : hoare G t fit (claimEditor pid nid sid sharing by_) (fun _ => fit).
Proof.
  unfold claimEditor. apply hoare_withCasRetry; [apply _..| |done|apply _].
  eapply hoare_post with (Q := fun _ => fit); [by intros [r|[]] w|]. unfold claim_editor_attempt. fold ek.
  set (F := fun (x : option (object B)) w => fit w /\ match x with Some obj => logged ek obj w | None => True end).
  assert (HF : forall x, Stable G t (F x)) by (intros [x|]; unfold F; apply _).
  eapply hoare_bind; [apply (hoare_get G t ek fit F)| |intros e; apply hoare_throw; [apply _|]; by intros w [? _]].
  { intros w Hw. split; [done|]. destruct (store w !! ek) as [obj|] eqn:E; [|done]. by apply (wf_stored w (fit_wf w Hw)). }
  intros obj. eapply hoare_bind; [apply (hoare_nowIso_any t (F obj))| |intros e; apply hoare_throw; [apply _|]; by intros w [? _]].
  intros now. destruct obj as [obj|].
  - unfold readStored. destruct (parse (o_body obj)) as [cur|] eqn:Ep.
    2: { apply hoare_throw; [apply _|]. by intros w [? _]. }
    apply hoare_ret_bind. destruct (ec_session_id cur === Some sid).
    { apply hoare_ret; [apply _|]. by intros w [? _]. }
    by apply claim_over_spec.
  - eapply hoare_bind with (M := fun _ => fit).
    + apply hoare_pre with (P := fit); [by intros w [? _]|]. apply claim_cas_spec; [apply _|done|].
      intros w Hw Hh. split; [by intros ? [=]|]. cbn in Hh. by rewrite Hh.
    + intros i. by apply hoare_ret; [apply _|].
    + intros e. by apply hoare_throw; [apply _|].
Qed.

Lemma release_spec t sid : releases t sid -> hoare G t fit (release_editor pid nid sid) (fun _ => fit).
Proof.
  intros Hrel. unfold release_editor. fold ek.
  eapply hoare_bind; [apply (hoare_get G t ek fit (fun x w => fit w /\ forall obj, x = Some obj -> logged ek obj w))| |].
  { intros w Hw. split; [done|]. intros obj Ho. by apply (wf_stored w (fit_wf w Hw)). }
  2: { intros e. apply hoare_throw; [apply _|]. by intros w [? _]. }
  intros [obj|]; [|apply hoare_ret; [apply _|]; by intros w [? _]].
  set (P := fun w => fit w /\ logged ek obj w). assert (HP : Stable G t P) by (unfold P; apply _).
  apply hoare_pre with (P := P); [intros w [? H]; split; auto|].
  unfold readStored. destruct (parse (o_body obj)) as [cur|] eqn:Ep.
  2: { apply hoare_throw; [apply _|]. by intros w [? _]. }
  apply hoare_ret_bind. destruct (_ || _) eqn:Ec; [apply hoare_ret; [apply _|]; by intros w [? _]|].
  apply orb_false_iff in Ec as [Eh Et]. apply negb_false_iff, bool_decide_eq_true in Eh.
  assert (Htr : ec_transfer cur = None) by (by destruct (ec_transfer cur)).
  eapply hoare_bind; [apply (hoare_nowIso_any t P)| |intros e; apply hoare_throw; [apply _|]; by intros w [? _]].
  intros now. eapply hoare_bind.
  - apply (claim_put_spec t _ _ P); [by intros w [? _]|]. intros w [Hw Hl] Hh.
    apply (write_ok_over t w obj cur); [done..|]. intros _. by apply (give_back_ok _ _ t _ cur sid).
  - intros i. by apply hoare_ret; [apply _|].
  - intros e. apply hoare_throw; [apply _|]. intros w. destruct e; cbn; try done; [by intros [? _]|].
    by intros [[? _]|[_ ?]].
Qed.

Lemma cancel_spec t id : hoare G t fit (cancelRequestedTakeover pid nid id) (fun _ => fit).
Proof.
  unfold cancelRequestedTakeover. eapply hoare_catch with (M := fun _ => fit).
  - eapply hoare_bind; [apply mutate_claim_spec| |].
    + intros al cur m. apply timed_pure. intros next Hn. by eapply cancel_moves.
    + intros o. by apply hoare_ret; [apply _|].
    + intros e. by apply hoare_throw; [apply _|].
  - intros a. by apply hoare_ret; [apply _|].
  - intros e. by apply hoare_ret; [apply _|].
Qed.

Lemma read_claim_spec t : hoare G t fit (read_claim pid nid) (fun _ => fit).
Proof.
  unfold read_claim. eapply hoare_bind.
  - by apply (hoare_get G t _ fit (fun _ => fit)).
  - intros [o|]; [|by apply hoare_ret; [apply _|]]. unfold readStored. destruct (parse (o_body o)).
    + apply hoare_ret_bind. by apply hoare_ret; [apply _|].
    + by apply hoare_throw; [apply _|].
  - intros e. apply hoare_throw; [apply _|]. by intros w [? _].
Qed.

Lemma get_claim_spec t : hoare G t fit (getEditorClaim pid nid) (fun _ => fit).
Proof.
  unfold getEditorClaim. eapply hoare_bind; [apply read_claim_spec| |intros e; by apply hoare_throw; [apply _|]].
  intros [c|]; [|by apply hoare_ret; [apply _|]]. destruct (ec_transfer c) as [tr|]; [|by apply hoare_ret; [apply _|]].
  destruct (tr_phase tr === PhRequested); [|by apply hoare_ret; [apply _|]].
  eapply hoare_bind; [apply (sweep_now_spec G t fit)| |intros e; apply hoare_throw; [apply _|]; by intros w [_ ?]].
  intros now. apply hoare_pure. intros _. destruct (request_expired now tr); [|by apply hoare_ret; [apply _|]].
  eapply hoare_bind; [apply cancel_spec|intros ?; apply read_claim_spec|intros e; by apply hoare_throw; [apply _|]].
Qed.
End Replicas.
