(* ===== verification/EditorRequests.v ===== *)
(** * Editor claims among replicas

    The requests replicas make of one notebook's editor claim, beside every request on
    the session records; what follows for every interleaving. *)

From Stdlib Require Import ZArith Lia.
From stdpp Require Import relations.
From S2P Require Import Prelude Constants Lifecycle Schema UtcDate Store Cas Storage CasTheorems CasEffects Listing SessionData AppPoolRouter AppPool SessionService EditorClaims SessionProtocol SessionReplicas SessionRequests EditorProtocol EditorReplicas.

Section Editors.
Context {B : Type} `{!EqDecision B}.
Context {CSe : Codec B Session} {CCu : Codec B VersionPruneCutoff} {CP : Codec B AppPool} {CEd : Codec B EditorClaim}.
Context (localeCompare : string -> string -> Z).
Context (pid : ProjectId) (nid : NotebookId).
Local Abbreviation V := (string * Session)%type (only parsing).
Local Notation prog := (prog B V).
Implicit Types w : world B V.

Inductive editor_request :=
| EReserve (input : TakeoverInput)
| EPhase (takeover : string) (phase : NextPhase) (replacement : option SessionId)
| EAcquireLease (takeover lease : string)
| ERenewLease (takeover lease : string)
| EAdvanceLease (takeover lease : string) (stage : TakeoverDrainStage)
| EFinishLease (takeover lease : string)
| EReleaseLease (takeover lease : string)
| EComplete (takeover : string) (replacement : SessionId)
| ECancel (takeover : string)
| EGet
| EClaim (sid : SessionId) (sharing : EditorSandboxSharing) (by_ : option UserId)
| ERelease (s : Session)
| EOwns (fuel : nat) (s : Session)
| EFind (fuel : nat) (user : UserId) (sharing : EditorSandboxSharing) (temporary : bool)
| ESession (r : request).

Definition of_this (s : Session) : Prop := ses_project_id s = pid /\ ses_notebook_id s = nid.
Definition editor_request_ok (r : editor_request) : Prop :=
  match r with ERelease s | EOwns _ s => of_this s | ESession r => request_ok r | _ => True end.

Definition perform_editor (r : editor_request) : prog unit :=
  match r with
  | EReserve input => reserveTakeoverWithOutcome pid nid input ≫= fun _ => mret tt
  | EPhase id phase r => setTakeoverPhase pid nid id phase r ≫= fun _ => mret tt
  | EAcquireLease id l => acquireTakeoverDrainLease pid nid id l ≫= fun _ => mret tt
  | ERenewLease id l => renewTakeoverDrainLease pid nid id l ≫= fun _ => mret tt
  | EAdvanceLease id l stage => advanceTakeoverDrainLease pid nid id l stage ≫= fun _ => mret tt
  | EFinishLease id l => finishTakeoverDrainLease pid nid id l
  | EReleaseLease id l => releaseTakeoverDrainLease pid nid id l
  | EComplete id r => completeTakeover pid nid id r ≫= fun _ => mret tt
  | ECancel id => cancelRequestedTakeover pid nid id
  | EGet => getEditorClaim pid nid ≫= fun _ => mret tt
  | EClaim sid sharing by_ => claimEditor pid nid sid sharing by_ ≫= fun _ => mret tt
  | ERelease s => releaseEditorFor s
  | EOwns fuel s => ownsEditorClaim fuel s ≫= fun _ => mret tt
  | EFind fuel user sharing temporary =>
      findReusableEditor fuel localeCompare pid nid user sharing temporary None ≫= fun _ => mret tt
  | ESession r => perform r ≫= fun _ => mret tt
  end.

Section Specs.
Context (schema_valid : forall s : Session, valid s <-> session_schema s = true).
Context (reads_back : forall x y : EditorClaim, parse (stringify x) = Some y -> y = x).
Context (established : SessionId -> Prop) (releases : tid -> SessionId -> Prop).
Local Notation G := (EditorReplicas.G pid nid established releases).
Local Notation fit := (fit pid nid established).
#[local] Existing Instance EditorReplicas.editors_protocol.
#[local] Existing Instance EditorReplicas.editors_allow_sessions.
#[local] Instance fit_stable t : Stable G t fit := stable_fit reads_back pid nid established releases t.

Lemma then_spec t {A C} (p : prog A) (f : A -> prog C) :
  hoare G t fit p (fun _ => fit) -> (forall a, hoare G t fit (f a) (fun _ => fit)) ->
  hoare G t fit (p ≫= f) (fun _ => fit).
Proof. intros Hp Hf. eapply hoare_bind; [exact Hp|exact Hf|]. intros e. by apply hoare_throw; [apply _|]. Qed.
Lemma done_spec t {A} (a : A) : hoare G t fit (mret a) (fun _ => fit).
Proof. by apply hoare_ret; [apply _|]. Qed.
Lemma editor_now_spec t : hoare G t fit now_ms (fun _ => fit).
Proof. eapply hoare_post; [|apply (sweep_now_spec G t fit)]. by intros r w [_ ?]. Qed.
Lemma swallow_spec t (p : prog unit) : hoare G t fit p (fun _ => fit) -> hoare G t fit (catch p (fun _ => mret tt)) (fun _ => fit).
Proof. intros Hp. eapply hoare_catch; [exact Hp|intros a; apply done_spec|intros e; apply done_spec]. Qed.

(** An operation on session records leaves the claim alone. *)
Lemma session_part t {A} P (p : prog A) (Q : result (error V) A -> world B V -> Prop) :
  (forall w, P w -> ready w) -> (forall r w, Q r w -> ready w) -> hoare G t P p Q ->
  hoare G t (fun w => P w /\ known pid nid established w /\ claims_sound pid nid w) p (fun _ => fit).
Proof.
  intros HP HQ Hp. eapply hoare_post; [|apply (hoare_keep G t) with (F := fun w => known pid nid established w /\ claims_sound pid nid w); [|exact Hp]].
  - intros r w [? [? ?]]. split; [by eapply HQ|done].
  - pose proof (kept_sound reads_back pid nid established releases). apply _.
Qed.

Lemma scan_spec t fuel : hoare G t fit (scanProject fuel pid whole_record) (fun _ => fit).
Proof.
  apply (session_part t ready) with (Q := fun _ => ready); [done|done|]. apply scan_prefix_spec; [apply _..|]. apply project_prefix.
Qed.

Lemma owns_spec t fuel s : of_this s -> hoare G t fit (ownsEditorClaim fuel s) (fun _ => fit).
Proof.
  intros [Hp Hn]. unfold ownsEditorClaim. rewrite Hp, Hn. apply then_spec; [by apply get_claim_spec|]. intros claim.
  destruct (truthy (claim ≫= ec_session_id)); [apply done_spec|]. destruct (_ || _); [apply done_spec|].
  apply then_spec; [apply scan_spec|]. intros items.
  destruct (List.filter _ items) as [|c [|]]; [apply done_spec| |apply done_spec].
  destruct (_ === _); [|apply done_spec]. apply then_spec; [by apply claim_editor_spec|]. intros a. apply done_spec.
Qed.

Lemma find_spec t fuel user sharing temporary :
  hoare G t fit (findReusableEditor fuel localeCompare pid nid user sharing temporary None) (fun _ => fit).
Proof.
  unfold findReusableEditor. apply then_spec; [apply editor_now_spec|]. intros now.
  apply then_spec; [apply scan_spec|]. intros sessions. destruct temporary; [apply done_spec|].
  apply then_spec; [by apply get_claim_spec|]. intros claim.
  assert (Hrest : hoare G t fit (match List.filter (fun s => negb (ses_ephemeral s ?? false)) (List.filter (live_editor nid now) sessions) with
        | _ :: _ :: _ =>
            Throw (ConflictError "Multiple legacy persistent editor sessions are active; drain them before continuing")
        | [legacy] =>
            adopted ← claimEditor pid nid (ses_session_id legacy)
                        (ses_editor_sandbox_sharing legacy ?? sharing) (Some (ses_user_id legacy));
            if ec_session_id (cl_claim adopted) === Some (ses_session_id legacy)
            then mret (attach user (ec_sharing (cl_claim adopted)) legacy)
            else mret (unclaimed user sharing claim (List.filter (live_editor nid now) sessions))
        | [] => mret (unclaimed user sharing claim (List.filter (live_editor nid now) sessions))
        end) (fun _ => fit)).
  { destruct (List.filter _ (List.filter _ _)) as [|legacy [|]]; [apply done_spec| |by apply hoare_throw; [apply _|]].
    apply then_spec; [by apply claim_editor_spec|]. intros a. destruct (_ === _); apply done_spec. }
  destruct (truthy _); [|exact Hrest]. destruct claim; [apply done_spec|exact Hrest].
Qed.

Definition editor_may (t : tid) (r : editor_request) w : Prop := match r with ESession r => may t r w | _ => True end.

Lemma editor_request_spec t r :
  editor_request_ok r -> (forall s, r = ERelease s -> releases t (ses_session_id s)) ->
  hoare G t (fun w => fit w /\ editor_may t r w) (perform_editor r) (fun _ => fit).
Proof.
  intros Hr Hrel. assert (Hm : forall apply, (forall al cur m, local_timed m (apply cur) (move_ok al releases t cur)) ->
    hoare G t fit (mutate_claim pid nid apply) (fun _ => fit)) by (by apply mutate_claim_spec).
  destruct r; [(apply hoare_pre with (P := fit); [by intros w [? _]|])..|]; cbn [perform_editor editor_request_ok editor_may] in *.
  - apply then_spec; [|intros ?; apply done_spec]. apply Hm. intros. apply reserve_moves.
  - apply then_spec; [|intros ?; apply done_spec]. apply then_spec; [|intros ?; apply done_spec]. apply Hm. intros. apply phase_moves.
  - apply then_spec; [|intros ?; apply done_spec]. apply then_spec; [apply Hm; intros; apply acquire_moves|].
    intros o. apply then_spec; [apply editor_now_spec|]. intros now. apply done_spec.
  - apply then_spec; [|intros ?; apply done_spec]. apply then_spec; [|intros ?; apply done_spec]. apply Hm. intros. apply renew_moves.
  - apply then_spec; [|intros ?; apply done_spec]. apply then_spec; [apply Hm; intros; apply advance_moves|].
    intros o. apply then_spec; [apply editor_now_spec|]. intros now. apply done_spec.
  - apply then_spec; [|intros ?; apply done_spec]. apply Hm. intros. apply finish_moves.
  - apply swallow_spec, then_spec; [|intros ?; apply done_spec]. apply Hm. intros. apply timed_pure. intros next Hn. by eapply release_lease_moves.
  - apply then_spec; [|intros ?; apply done_spec]. apply then_spec; [|intros ?; apply done_spec]. apply Hm. intros. apply complete_moves.
  - by apply cancel_spec.
  - apply then_spec; [by apply get_claim_spec|intros ?; apply done_spec].
  - apply then_spec; [by apply claim_editor_spec|intros ?; apply done_spec].
  - unfold releaseEditorFor. destruct (negb _); [apply done_spec|]. destruct Hr as [Hp Hn]. rewrite Hp, Hn. apply swallow_spec.
    apply release_spec; auto.
  - apply then_spec; [by apply owns_spec|intros ?; apply done_spec].
  - apply then_spec; [apply find_spec|intros ?; apply done_spec].
  - eapply hoare_bind with (M := fun _ => fit); [|intros a; apply done_spec|intros e; by apply hoare_throw; [apply _|]].
    eapply hoare_pre; [|apply (session_part t (fun w => ready w /\ may t r w)) with (Q := answered t r); [by intros w [? _]| |apply (request_spec schema_valid G t r Hr)]].
    + intros w [[Hw [Hk Hs]] Hmay]. split; [split|split]; [exact Hw|exact Hmay|exact Hk|exact Hs].
    + by intros res w [? _].
Qed.

(** *** The history of the claim *)

(** Each claim of a history moved from the one before it. *)
Fixpoint claims_chain w (h : list (tid * object B)) : Prop :=
  match h with
  | [] => True
  | (t, o') :: h' =>
      match h' with
      | [] => True
      | (_, o) :: _ => exists cur next, parse (o_body o) = Some cur /\ o_body o' = stringify next /\
                         claim_ok (alive pid established w) releases t (o_uploaded o') cur next
      end /\ claims_chain w h'
  end.

(** The stored claim is the latest. *)
Definition claim_last w : Prop := store w !! ek pid nid = snd <$> head (hist (ek pid nid) w).

(** An editor alive later was alive before. *)
Lemma alive_before t w w' h : G t w w' -> fit w -> alive pid established w' h -> alive pid established w h.
Proof.
  intros HG ([Hw Hi] & Hk & _) (Hh & o' & s' & Ho' & Hp' & Hc'). split; [done|].
  destruct (as_change t w w' (session_key pid h) HG Hi (skey_session pid h))
    as [E _|o s Hh0 _ _ _ _ _ _|o o2 s s2 Ho Ho2 _ Hp Hp2 Hev|o s _ _ _ _ E _].
  - rewrite E in Ho'. by exists o', s'.
  - exfalso. destruct (Hk h Hh) as (_ & t0 & o0 & s0 & Hl & _). apply elem_of_hist in Hl. rewrite Hh0 in Hl. by apply not_elem_of_nil in Hl.
  - exists o, s. split; [done|]. split; [done|]. rewrite Ho' in Ho2. injection Ho2 as <-. rewrite Hp' in Hp2. injection Hp2 as <-.
    destruct (closing s) eqn:E; [|done]. apply ev_status in Hev. pose proof (reach_closing _ _ Hev E).
    unfold closing, closing_status in *. congruence.
  - congruence.
Qed.

Lemma claim_ok_alive (al al' : SessionId -> Prop) t now cur next :
  (forall h, al' h -> al h) -> claim_ok al releases t now cur next -> claim_ok al' releases t now cur next.
Proof. intros Ha [H1 H2 H3 H4 H5]. split; [done| |done..]. intros h ? ? ?. apply H2; auto. Qed.

Lemma chain_alive w w' h :
  (forall x, alive pid established w' x -> alive pid established w x) -> claims_chain w h -> claims_chain w' h.
Proof.
  intros Ha. induction h as [|[t o'] h IH]; [done|]. intros [H Hh]. split; [|auto]. destruct h as [|[t2 o] h]; [done|].
  destruct H as (cur & next & ? & ? & ?). exists cur, next. split; [done|]. split; [done|]. by eapply claim_ok_alive.
Qed.

Definition claim_history w : Prop := fit w /\ claim_last w /\ claims_chain w (hist (ek pid nid) w).

Lemma history_step t w w' : G t w w' -> claim_history w -> claim_history w'.
Proof.
  intros HG (Hf & Hl & Hc). pose proof Hf as ([Hw Hi] & Hk & Hs). pose proof (protocol_grows t w w' HG) as Hg.
  split.
  { split; [split; [by apply Hg|by eapply as_sinv]|]. split; [by eapply persistent|by eapply sound_step]. }
  apply (chain_alive w w') in Hc; [|intros x; by apply (alive_before t)].
  destruct HG as [(_ & _ & _ & H & _)|obj next -> _ Hb Hu Hok].
  { destruct (H _ (ek_other pid nid)) as [E1 E2]. unfold claim_last. by rewrite E1, E2. }
  destruct (Hok Hs) as [_ Hnext]. unfold claim_last in *. rewrite hist_write, bool_decide_eq_true_2 by done.
  split; [by apply lookup_insert_eq|]. split; [|done]. rewrite Hl in Hnext.
  destruct (hist (ek pid nid) w) as [|[t2 o2] l]; [done|]. destruct Hnext as (cur & Hp & Hcl). exists cur, next.
  split; [done|]. split; [done|]. rewrite Hu. eapply claim_ok_alive; [|exact Hcl]. intros x Hx.
  destruct Hx as (Hx & o & s & Ho & H). split; [done|]. exists o, s. split; [|done]. cbn in Ho. rewrite lookup_insert_ne in Ho; [done|].
  intros E. apply (ek_other pid nid). rewrite E. apply skey_session.
Qed.

Lemma history_tick w ms : time_passes w ms -> claim_history w -> claim_history (tick w ms).
Proof.
  intros Hms (([Hw Hi] & Hk & Hs) & Hl & Hc).
  split; [split; [split; [by apply (grows_wf _ _ (grows_tick w ms Hms))|by apply sinv_tick]|done]|]. split; [done|].
  by apply (chain_alive w).
Qed.
End Specs.

(** ** Any number of replicas *)

Definition start_editors (rs : list editor_request) w := Config (map perform_editor rs) w.

(** The sessions a store has known as running editors of the notebook. *)
Definition was_running w (h : SessionId) : Prop :=
  is_id "sess" h = true /\
  exists t o s, (t, session_key pid h, o) ∈ log w /\ parse (o_body o) = Some s /\ running_editor nid s = true.
Definition releases_of (rs : list editor_request) (t : tid) (h : SessionId) : Prop :=
  exists s, rs !! t = Some (ERelease s) /\ ses_session_id s = h.

(** Before the replicas start: a sound store with at most one claim in it, valid requests. *)
Record editors_admissible (rs : list editor_request) w : Prop := {
  ea_ready : ready w;
  ea_claim : hist (ek pid nid) w = [] /\ store w !! ek pid nid = None \/
             exists t o c, hist (ek pid nid) w = [(t, o)] /\ store w !! ek pid nid = Some o /\
                           parse (o_body o) = Some c /\ lease_inv c;
  ea_ok r : r ∈ rs -> editor_request_ok r;
  ea_ids t r : rs !! t = Some r -> editor_may t r w;
}.

Section Run.
Context (schema_valid : forall s : Session, valid s <-> session_schema s = true).
Context (reads_back : forall x y : EditorClaim, parse (stringify x) = Some y -> y = x).

Lemma admissible_history rs w :
  editors_admissible rs w -> claim_history (was_running w) (releases_of rs) w.
Proof.
  intros [Hr Hc _ _]. split; [split; [done|split; [by intros h Hh|]]|].
  - intros o c Ho Hp. destruct Hc as [[_ E]|(t & o0 & c0 & _ & E & Hp0 & Hl)]; [congruence|].
    rewrite E in Ho. injection Ho as <-. rewrite Hp in Hp0. by injection Hp0 as ->.
  - unfold claim_last. by destruct Hc as [[-> ->]|(t & o0 & c0 & -> & -> & _)].
Qed.

Lemma editors_verified rs w : editors_admissible rs w ->
  verified (EditorReplicas.G pid nid (was_running w) (releases_of rs)) (fun _ _ _ => True) (start_editors rs w).
Proof.
  intros Ha t p Ht. cbn in Ht. rewrite list_lookup_fmap in Ht. destruct (rs !! t) as [r|] eqn:E; [|done].
  injection Ht as <-. eapply rg_weaken; [|apply (editor_request_spec schema_valid reads_back (was_running w) (releases_of rs) t r)].
  - done.
  - by apply (ea_ok _ _ Ha), (list_elem_of_lookup_2 rs t).
  - intros s ->. by exists s.
  - split; [apply (admissible_history rs w Ha)|by apply (ea_ids _ _ Ha)].
Qed.

Lemma chain_at al rel w l t o' t2 o2 l2 : claims_chain al rel w (l ++ (t, o') :: (t2, o2) :: l2) ->
  exists cur next, parse (o_body o2) = Some cur /\ o_body o' = stringify next /\
    claim_ok (alive pid al w) rel t (o_uploaded o') cur next.
Proof. induction l as [|[t0 o0] l IH]; [by intros [H _]|]. intros [_ H]. by apply IH. Qed.

Lemma editors_history rs w0 c : editors_admissible rs w0 -> rtc pool_step (start_editors rs w0) c ->
  claim_history (was_running w0) (releases_of rs) (wd c).
Proof.
  intros Ha Hr.
  eapply (pool_invariant (EditorReplicas.G pid nid (was_running w0) (releases_of rs))); [| |by apply editors_verified|by apply admissible_history|exact Hr].
  - intros t0 w w'. by apply history_step.
  - intros w ms. by apply history_tick.
Qed.

(** C5: the editor claim of a notebook changes hands only as its protocol says.  Whatever
    requests any number of replicas make of the claim and of the session records, in any
    interleaving and with any storage faults, every claim written is derived from the one
    before it so that: a session that was a running editor before and whose record is
    still not closing in the end loses the claim only by its own release or to the
    replacement of a takeover that was ready; a takeover past its request is not dropped
    or replaced by another; a drain lease in force when the claim is written is not taken
    by another worker and its stage does not go back.  The stored claim is the latest. *)
Theorem editor_claim_protocol rs w0 c l t o' t2 o2 l2 :
  editors_admissible rs w0 -> rtc pool_step (start_editors rs w0) c ->
  hist (ek pid nid) (wd c) = l ++ (t, o') :: (t2, o2) :: l2 ->
  (exists cur next, parse (o_body o2) = Some cur /\ o_body o' = stringify next /\
     claim_ok (alive pid (was_running w0) (wd c)) (releases_of rs) t (o_uploaded o') cur next) /\
  store (wd c) !! ek pid nid = snd <$> head (hist (ek pid nid) (wd c)).
Proof.
  intros Ha Hr Hh. pose proof (editors_history rs w0 c Ha Hr) as H.
  destruct H as (_ & Hl & Hc). split; [|exact Hl]. rewrite Hh in Hc. by eapply chain_at.
Qed.
End Run.
End Editors.

(** ** A sample run *)
Module EditorSample.
Import Docs.

Definition pid : ProjectId := SessionSample.pid.
Definition nid : NotebookId := "nb-0000000000000000".
Definition sid : SessionId := "sess-0000000000000000".
Definition compare (a b : string) : Z := if String.leb a b then (if String.leb b a then 0 else -1)%Z else 1%Z.

(** Ada's editor starts and takes the claim. *)
Definition setup : list editor_request :=
  [ESession (RCreate SessionSample.input); ESession (RRunning pid sid "https://ada" None None None None None);
   EClaim sid Shared (Some "ada")].
Definition setup_run := run_seq 0 (map (perform_editor compare pid nid) setup) (@empty_world doc (string * Session)).
Definition w0 : world doc (string * Session) := setup_run.2.

(** Grace takes over: a direct claim is refused; request, drain, lease, hand over. *)
Definition takeover : TakeoverInput :=
  {| ti_takeoverId := "take-1"; ti_requestedBy := "grace"; ti_expectedHolder := sid; ti_expectedActivity := ActActive |}.
Definition requests : list editor_request :=
  [EClaim "sess-2222222222222222" Exclusive (Some "grace"); EReserve takeover; EPhase "take-1" ToDraining None;
   EAcquireLease "take-1" "lease-1"; EAdvanceLease "take-1" "lease-1" Snapshotting; EAcquireLease "take-1" "lease-2";
   EFinishLease "take-1" "lease-1"; EClaim "sess-2222222222222222" Exclusive (Some "grace");
   EComplete "take-1" "sess-2222222222222222"; ERelease (new_session SessionSample.input sid "2024-01-01T00:00:00Z")].
Definition final := run_seq 0 (map (perform_editor compare pid nid) requests) w0.

Lemma setup_admissible : editors_admissible pid nid setup (@empty_world doc (string * Session)).
Proof.
  split.
  - apply SessionSample.empty_ready.
  - by left.
  - apply Forall_forall. constructor; [exact SessionSample.input_valid|by repeat constructor].
  - intros t r Hr. do 3 (destruct t as [|t]; [by injection Hr as <-|]). done.
Qed.

Lemma set_up : rtc pool_step (start_editors compare pid nid setup empty_world) (Config setup_run.1 w0) /\ mem_wf w0.
Proof.
  apply (run_seq_reaches [] (map (perform_editor compare pid nid) setup)); [|vm_compute; reflexivity].
  intros t k o H. by apply not_elem_of_nil in H.
Qed.

Definition claim_object (i : nat) (w : world doc (string * Session)) : tid * object doc :=
  nth i (hist (ek pid nid) w) (0, {| o_body := DCutoff {| cutoff_version_id := "" |}; o_etag := ""; o_uploaded := 0 |}).

Definition record_object (i : nat) (w : world doc (string * Session)) : object doc :=
  snd (nth i (hist (session_key pid sid) w) (0, (claim_object 9 w).2)).
Definition record (w : world doc (string * Session)) : Session :=
  match o_body (record_object 0 w) with DSession s => s | _ => new_session SessionSample.input sid "" end.

Lemma claims_admissible : editors_admissible pid nid requests w0.
Proof.
  split.
  - destruct (editors_history compare pid nid schema_exact exact_claims setup empty_world (Config setup_run.1 w0) setup_admissible (proj1 set_up)) as [[H _] _].
    exact H.
  - right. exists (claim_object 0 w0).1, (claim_object 0 w0).2.
    exists {| ec_session_id := Some sid; ec_sharing := Shared; ec_claimed_at := "1970-01-01T00:00:00.000Z"; ec_transfer := None; ec_extra := [] |}.
    split; [vm_compute; reflexivity|]. split; [vm_compute; reflexivity|]. split; [vm_compute; reflexivity|]. by intros t [=].
  - apply Forall_forall. repeat constructor.
  - intros t r Hr. do 10 (destruct t as [|t]; [by injection Hr as <-|]). done.
Qed.

Lemma taken_over : rtc pool_step (start_editors compare pid nid requests w0) (Config final.1 final.2) /\ mem_wf final.2.
Proof.
  assert (Hok : run_seq_ok 0 (map (perform_editor compare pid nid) requests) w0 = true) by (vm_compute; reflexivity).
  exact (run_seq_reaches [] (map (perform_editor compare pid nid) requests) w0 (proj2 set_up) Hok).
Qed.

(** Ada's session is still alive when the replacement has the claim. *)
Example editor_claim_protocol_witness :
  alive pid (was_running pid nid w0) final.2 sid /\
  exists cur next, parse (o_body (claim_object 1 final.2).2) = Some cur /\ o_body (claim_object 0 final.2).2 = stringify next /\
    claim_ok (alive pid (was_running pid nid w0) final.2) (releases_of requests) 8 (o_uploaded (claim_object 0 final.2).2) cur next.
Proof.
  split.
  - split; [split; [reflexivity|]|].
    + exists 1, (record_object 0 w0), (record w0). split; [|split; vm_compute; reflexivity].
      apply elem_of_hist, (list_elem_of_lookup_2 _ 0). vm_compute. reflexivity.
    + exists (record_object 0 final.2), (record final.2). split; [|split]; vm_compute; reflexivity.
  - apply (editor_claim_protocol compare pid nid schema_exact exact_claims requests w0 (Config final.1 final.2) []
      8 (claim_object 0 final.2).2 7 (claim_object 1 final.2).2
      [claim_object 2 final.2; claim_object 3 final.2; claim_object 4 final.2; claim_object 5 final.2; claim_object 6 final.2; claim_object 7 final.2]
      claims_admissible (proj1 taken_over)).
    vm_compute. reflexivity.
Defined.
End EditorSample.
