(* ===== verification/AppPoolProtocol.v ===== *)
(** * App pools under concurrency

    Any number of replicas serve one app, interleaved in any way with any storage
    faults.  The protocol [G] says what a replica may do to the pool object; every
    operation of [AppPool.v] keeps to it. *)

From Stdlib Require Import ZArith Lia.
From stdpp Require Import relations.
From S2P Require Import Prelude Constants Schema UtcDate Store Cas Storage CasTheorems SessionData AppPoolRouter AppPoolRouting AppPool.

Section Protocol.
Context {B V : Type} `{!EqDecision B} {CP : Codec B AppPool} {CSe : Codec B Session} {CSo : Codec B Source}.
(** Schemas check and do not convert; the text of a pool is not that of a session. *)
Context (pool_faithful : forall P P' : AppPool, parse (stringify P) = Some P' -> P' = P).
Context (pool_not_session : forall P : AppPool, parse (T := Session) (stringify P) = None).
Context (policy : AppPoolPolicy) (projectId : ProjectId) (notebookId : NotebookId).
Context (policy_ok : forall k, maxVisitsPerSession policy = Some k -> (1 <= k)%Z).
(** The sessions that predate pools, and whether notebooks may move. *)
Context (old : SessionId -> Prop) (moves : bool).
Implicit Types w : world B V.
Local Notation pool_key := (appPool projectId notebookId).

(** ** The pool in the store *)

Definition stored w : option AppPool :=
  match store w !! pool_key with Some o => parse (o_body o) | None => Some emptyAppPool end.

Definition ids (P : AppPool) : list SessionId := map m_session_id (members P).

(** A deleted pool has no visits and only sessions on their way out. *)
Definition buried (P : AppPool) : Prop :=
  deleted_at P <> None -> assignments P = [] /\ forall m, m ∈ members P -> m_state m = MRetiring.

(** A session outside the pool that may still be adopted. *)
Definition adoptable (s : Session) : Prop := ses_app_pool s ?? false = false.

Record Inv w : Prop := {
  inv_limits P : stored w = Some P -> limits policy (clock w) P;
  inv_buried P : stored w = Some P -> buried P;
  inv_known P id : stored w = Some P -> id ∈ ids P -> old id \/ is_Some (issued w !! id);
  inv_sessions k o s : store w !! k = Some o -> parse (o_body o) = Some s -> adoptable s -> old (ses_session_id s);
  inv_old id : old id -> is_Some (issued w !! id);
}.

(** The sessions a replica may add are earlier ones and those it drew the id of. *)
Record follows (t : tid) w (P P' : AppPool) : Prop := {
  follows_ids id : id ∈ ids P' -> id ∈ ids P \/ old id \/ issued w !! id = Some t;
  follows_deleted d : moves = false -> deleted_at P = Some d -> deleted_at P' = Some d;
}.

Definition G (t : tid) w w' : Prop :=
  grows w w' /\
  (wf w -> Inv w -> Inv w' /\
     (stored w' = stored w \/
      exists P, stored w = Some P /\ forall P', stored w' = Some P' -> follows t w P P')).

#[export] Instance pool_protocol : Protocol G.
Proof. split; [|by intros t w w' [? _]]. intros t w. split; [done|]. intros _ HI. split; [done|by left]. Qed.

Lemma pool_inv_tick w ms : time_passes w ms -> Inv w -> Inv (tick w ms).
Proof.
  intros [Hms _] [H1 H2 H3 H4 H5]. split; try done. intros P HP. eapply limits_mono; [|by apply H1]. simpl. lia.
Qed.

(** A replica's working assertion. *)
Definition ok w : Prop := wf w /\ Inv w.

#[export] Instance stable_ok t : Stable G t ok.
Proof.
  intros w w' Ho [Hw HI]. split; [by eapply (stable_wf G t)|].
  destruct Ho as [(t' & _ & _ & HG)|(ms & Hms & ->)]; [by apply HG|by apply pool_inv_tick].
Qed.

(** An id [t] drew for a session that is not in the pool yet. *)
Definition mine t id w : Prop :=
  ok w /\ issued w !! id = Some t /\ ~ old id /\ forall P, stored w = Some P -> id ∉ ids P.

#[export] Instance stable_mine t id : Stable G t (mine t id).
Proof.
  intros w w' Ho (Hok & Hi & Hn & Ha). split; [by eapply (stable_ok t)|]. split; [by eapply (stable_issued G t)|].
  split; [done|]. destruct Ho as [(t' & Hne & _ & HG)|(ms & _ & ->)]; [|done]. destruct Hok as [Hw HI].
  intros P' HP' Hin. destruct (HG Hw HI) as [_ [Heq|(P & HP & Hf)]]; [by eapply Ha; [rewrite <- Heq|]|].
  destruct (follows_ids _ _ _ _ (Hf P' HP') id Hin) as [?|[?|?]]; [by eapply Ha|done|congruence].
Qed.

(** ** A pool being edited *)

(** [editing t P P' w]: from [P] read earlier, [t] has computed [P']. *)
Record editing (t : tid) (P P' : AppPool) w : Prop := {
  ed_limits : limits policy (clock w) P';
  ed_ids id : id ∈ ids P' -> id ∈ ids P \/ old id \/ issued w !! id = Some t;
  ed_deleted : deleted_at P' = deleted_at P;
}.

#[export] Instance persistent_editing t P P' : Persistent (editing t P P').
Proof.
  intros w w' Hg [H1 H2 H3]. split; [|intros id Hid|done].
  - eapply limits_mono; [by apply (grows_clock _ _ Hg)|done].
  - destruct (H2 id Hid) as [?|[?|?]]; auto. right; right. by apply (grows_issued _ _ Hg).
Qed.

(** What may be written over [P]. *)
Definition writable (t : tid) (P P' : AppPool) w : Prop :=
  limits policy (clock w) P' /\ buried P' /\
  (forall id, id ∈ ids P' -> id ∈ ids P \/ old id \/ issued w !! id = Some t) /\
  (moves = false -> forall d, deleted_at P = Some d -> deleted_at P' = Some d).

#[export] Instance persistent_writable t P P' : Persistent (writable t P P').
Proof.
  intros w w' Hg (H1 & H2 & H3 & H4). split; [|split; [done|split; [|done]]].
  - eapply limits_mono; [by apply (grows_clock _ _ Hg)|done].
  - intros id Hid. destruct (H3 id Hid) as [?|[?|?]]; auto. right; right. by apply (grows_issued _ _ Hg).
Qed.

Lemma editing_writable t P P' w :
  buried P -> keeps_tombstone P P' = true -> editing t P P' w -> writable t P P' w.
Proof.
  intros _ Hk [H1 H2 H3]. split; [done|]. unfold keeps_tombstone in Hk. split; [|split; [done|congruence]].
  intros Hd. rewrite H3 in Hd. destruct (deleted_at P) as [d|]; [|done].
  rewrite !andb_true_iff, !bool_decide_eq_true in Hk. destruct Hk as [[_ Ha] Hm]. split; [done|].
  intros m Hin. rewrite forallb_elem in Hm. specialize (Hm m Hin). by apply bool_decide_eq_true in Hm.
Qed.

(** ** Single steps *)

Lemma write_elsewhere t w k b e :
  k <> pool_key -> (forall s, parse (T := Session) b = Some s -> adoptable s -> old (ses_session_id s)) ->
  ok w -> etag_ok w k b e ->
  let w' := write t w k {| o_body := b; o_etag := e; o_uploaded := clock w |} in G t w w' /\ ok w'.
Proof.
  intros Hk Hs [Hw HI] He w'.
  assert (Hg : grows w w') by (eapply (sem_grows t (OPut k b Always)); right; split; [done|by exists e]).
  assert (Hst : stored w' = stored w) by (unfold stored, w'; simpl; by rewrite lookup_insert_ne).
  assert (HI' : Inv w').
  { destruct HI as [H1 H2 H3 H4 H5]. split; rewrite ?Hst; try done.
    intros k' o s. unfold w'; simpl. destruct (decide (k = k')) as [<-|Hne].
    - rewrite lookup_insert_eq. intros [= <-]. apply Hs.
    - rewrite lookup_insert_ne by done. apply H4. }
  split; [|split; [by apply (grows_wf _ _ Hg)|done]]. split; [done|]. intros _ _. split; [done|by left].
Qed.

Lemma write_pool t w P P' e :
  ok w -> stored w = Some P -> writable t P P' w -> etag_ok w pool_key (stringify P') e ->
  let w' := write t w pool_key {| o_body := stringify P'; o_etag := e; o_uploaded := clock w |} in
  G t w w' /\ ok w'.
Proof.
  intros [Hw HI] HP (Hl & Hb & Hids & Hd) He w'.
  assert (Hg : grows w w') by (eapply (sem_grows t (OPut pool_key _ Always)); right; split; [done|by exists e]).
  assert (Hst : forall P'', stored w' = Some P'' -> P'' = P').
  { intros P''. unfold stored, w'; simpl. rewrite lookup_insert_eq. apply pool_faithful. }
  assert (HI' : Inv w').
  { destruct HI as [H1 H2 H3 H4 H5]. split.
    - by intros P'' ->%Hst.
    - by intros P'' ->%Hst.
    - intros P'' id Hst'%Hst Hin. subst. destruct (Hids id Hin) as [?|[?|?]]; [by eapply H3|by left|right; eauto].
    - intros k o s. unfold w'; simpl. destruct (decide (pool_key = k)) as [<-|Hne].
      + rewrite lookup_insert_eq. intros [= <-]. simpl. by rewrite pool_not_session.
      + rewrite lookup_insert_ne by done. apply H4.
    - done. }
  split; [|split; [by apply (grows_wf _ _ Hg)|done]]. split; [done|]. intros _ _. split; [done|].
  right. exists P. split; [done|]. intros P'' ->%Hst. split; [done|]. intros d Hm. by apply Hd.
Qed.

(** The pool of an object read earlier. *)
Definition pool_read (o : option (object B)) (P : AppPool) : Prop :=
  match o with Some o => parse (o_body o) = Some P | None => P = emptyAppPool end.

Lemma stored_read w P : stored w = Some P <-> pool_read (store w !! pool_key) P.
Proof. unfold stored, pool_read. destruct (store w !! pool_key); [done|]. naive_solver. Qed.

(** The write of an edit: the pool is still the one it was computed from. *)
(** Ready to write [P'] over the pool read as [o]. *)
Definition ready (t : tid) (R : world B V -> Prop) (o : option (object B)) (P P' : AppPool) w : Prop :=
  ok w /\ R w /\ writable t P P' w /\ match o with Some o => logged pool_key o w | None => True end.

#[export] Instance stable_ready t R o P P' : Stable G t R -> Stable G t (ready t R o P P').
Proof. intros HR. unfold ready. destruct o; apply _. Qed.

Lemma put_pool t R `{!Stable G t R} o P P' :
  pool_read o P ->
  hoare G t (ready t R o P P') (call (OPut pool_key (stringify P') (unchanged_since o)))
    (put_post (ready t R o P P') (fun _ => ok)).
Proof.
  intros HP. apply hoare_put; [apply _|apply _|apply _|]. intros w e (Hok & _ & Hwr & Ho) Hh He.
  apply (write_pool t w P P' e); try done.
  unfold stored. destruct o as [o|]; simpl in *.
  - destruct (holds_etag_body _ _ _ (proj1 Hok) Ho Hh) as (o' & -> & ->). done.
  - by rewrite Hh, HP.
Qed.

Lemma cas_put_pool t R `{!Stable G t R} o P P' :
  pool_read o P ->
  hoare G t (ready t R o P P') (cas_put pool_key (stringify P') (unchanged_since o))
    (fun r w => ok w /\ (r = Err CasWriteConflictError -> R w)).
Proof.
  intros HP. eapply hoare_cas_put; [by apply (put_pool t R)|apply _| |].
  - intros w (? & ? & _). by split.
  - intros r w Hne Hr. destruct r as [i|e]; simpl in Hr; [by split|].
    destruct e; try done. destruct Hr as [(? & _)|[_ ?]]; by split.
Qed.

(** What a replica knows once it has read the pool: [F] of the world, and [φ] of the
    pool it read. *)
Definition seen (F : world B V -> Prop) (φ : AppPool -> Prop) (o : option (object B)) w : Prop :=
  F w /\ ok w /\ match o with Some o => logged pool_key o w | None => True end /\
  forall P, pool_read o P -> limits policy (clock w) P /\ buried P /\ φ P.

#[export] Instance persistent_limits P : Persistent (fun w => limits policy (clock w) P).
Proof. intros w w' Hg. apply limits_mono, (grows_clock _ _ Hg). Qed.

#[export] Instance stable_seen t F φ o : Stable G t F -> Stable G t (seen F φ o).
Proof. intros HF. unfold seen. destruct o; apply _. Qed.

Section Mutate.
Context (t : tid) (F : world B V -> Prop) `{!Stable G t F} (φ : AppPool -> Prop).
Context (F_pool : forall w P, F w -> ok w -> stored w = Some P -> φ P).

Lemma get_pool_spec :
  hoare G t (fun w => ok w /\ F w) (call (OGet pool_key))
    (fun r => match r with Ok o => seen F φ o | Err e => fun w => (ok w /\ F w) /\ exists msg, e = IoError msg end).
Proof.
  apply (hoare_get G t pool_key _ (seen F φ)); intros w [[Hw HI] HF]. split; [done|]. split; [done|]. split.
  - destruct (store w !! pool_key) as [o|] eqn:E; [|done]. by apply (wf_stored w Hw).
  - intros P HP%stored_read. split; [by apply (inv_limits w HI)|]. split; [by apply (inv_buried w HI)|by eapply F_pool].
Qed.

Lemma pool_of_spec o k :
  hoare G t (seen F φ o) (pool_of o k)
    (fun r w => seen F φ o w /\ match r with Ok P => pool_read o P | Err e => exists m, e = StoredObjectError m end).
Proof.
  unfold pool_of, readStored. destruct o as [o|]; [destruct (parse (o_body o)) eqn:E|];
    [by apply hoare_ret; [apply _|]|apply hoare_throw; [apply _|]; eauto|by apply hoare_ret; [apply _|]].
Qed.
End Mutate.

(** [AppPoolStore.mutate]: what an update must ensure for its result to be written. *)
Section Loop.
Context {S T : Type} (t : tid) (update : S -> AppPool -> prog B V (S * (AppPool * T))).
Context (F : S -> world B V -> Prop) `{!forall s, Stable G t (F s)} (φ : S -> AppPool -> Prop).
Context (F_pool : forall s w P, F s w -> ok w -> stored w = Some P -> φ s P).

Definition good (P : AppPool) (r : result (error V) (S * (AppPool * T))) w : Prop :=
  ok w /\ match r with
          | Ok (s', (P', _)) => F s' w /\ (keeps_tombstone P P' = true -> writable t P P' w)
          | Err _ => True
          end.

Context (update_ok : forall s P, φ s P -> buried P ->
  hoare G t (fun w => ok w /\ F s w /\ limits policy (clock w) P) (update s P) (good P)).

#[local] Instance stable_good P r : Stable G t (good P r).
Proof. unfold good. destruct r as [[s' [P' v]]|]; apply _. Qed.

Definition attempted (r : result (error V) (S + T)) w : Prop :=
  ok w /\ match r with Ok (inl s') => F s' w | _ => True end.
#[local] Instance stable_attempted r : Stable G t (attempted r).
Proof. unfold attempted. destruct r as [[]|]; apply _. Qed.

Lemma mutate_pool_attempt_spec s :
  hoare G t (fun w => ok w /\ F s w) (mutate_pool_attempt projectId notebookId update s) attempted.
Proof.
  unfold mutate_pool_attempt. eapply hoare_bind; [by apply (get_pool_spec t (F s) (φ s)); eauto| |].
  2: { intros e. apply hoare_throw; [apply _|]. intros w [[? _] _]. by split. }
  intros o. eapply hoare_bind; [apply pool_of_spec, _| |].
  2: { intros e. apply hoare_throw; [apply _|]. intros w [(_ & ? & _) _]. by split. }
  intros P. apply hoare_pre with (P := fun w => pool_read o P /\ seen (F s) (φ s) o w); [by intros w [? ?]|].
  apply hoare_pure; intros HP. apply hoare_pre with (P := fun w => (φ s P /\ buried P) /\
    (ok w /\ F s w /\ limits policy (clock w) P) /\ match o with Some o => logged pool_key o w | None => True end).
  { intros w (HF & Hok & Ho & HPs). destruct (HPs P HP) as (? & ? & ?). done. }
  apply hoare_pure; intros [Hφ Hb].
  assert (Persistent (fun w => match o with Some o => logged pool_key o w | None => True end)) by (destruct o; apply _).
  eapply hoare_bind; [by apply hoare_frame; [apply _|apply _|apply update_ok]| |].
  2: { intros e. apply hoare_throw; [apply _|]. intros w [[? _] _]. by split. }
  intros [s' [P' v]]. destruct (keeps_tombstone P P') eqn:Ek; simpl.
  2: { apply hoare_throw; [apply _|]. intros w [[? _] _]. by split. }
  case_bool_decide.
  { apply hoare_ret; [apply _|]. intros w [[? _] _]. by split. }
  apply hoare_pre with (P := ready t (F s') o P P').
  { intros w [(? & ? & Hwr) ?]. split; [done|]. auto. }
  eapply hoare_handle; [by apply cas_put_pool, HP; apply _|]. intros [i|e].
  { apply hoare_ret; [apply _|]. by intros w [? _]. }
  destruct e; try (apply hoare_throw; [apply _|]; by intros w [? _]).
  apply hoare_ret; [apply _|]. intros w [? HF]. split; auto.
Qed.

Lemma mutate_memo_spec s :
  hoare G t (fun w => ok w /\ F s w) (mutate_memo projectId notebookId update s) (fun _ => ok).
Proof.
  unfold mutate_memo. generalize 12 as n. generalize 0 as i. intros i n. revert s i.
  induction n as [|n IH]; intros s i; cbn [cas_loop_memo].
  { apply hoare_throw; [apply _|]. by intros w [? _]. }
  eapply hoare_bind; [apply mutate_pool_attempt_spec| |].
  2: { intros e. apply hoare_throw; [apply _|]. by intros w [? _]. }
  intros [s'|v].
  2: { apply hoare_ret; [apply _|]. by intros w [? _]. }
  eapply hoare_bind; [apply hoare_sleep; [apply _|apply protocol_idle]| |].
  - intros []. apply hoare_pre with (P := fun w => ok w /\ F s' w); [by intros w (_ & ? & ?)|apply IH].
  - intros e. apply hoare_throw; [apply _|]. by intros w [? _].
Qed.
End Loop.

(** ** Updates *)

(** Edits that keep the limits at any time, add no session and do not delete. *)
Record quiet (P P' : AppPool) : Prop := {
  quiet_limits n : limits policy n P -> limits policy n P';
  quiet_ids : ids P' ⊆ ids P;
  quiet_deleted : deleted_at P' = deleted_at P;
}.

#[export] Instance quiet_preorder : PreOrder quiet.
Proof.
  split; [by split|]. intros P1 P2 P3 [H1 H2 H3] [G1 G2 G3]. split; [auto|set_solver|congruence].
Qed.

Lemma quiet_shrunk P P' :
  (forall n, shrunk n (members P') (members P)) -> (forall id, (visits_of P' id <= visits_of P id)%nat) ->
  deleted_at P' = deleted_at P -> quiet P P'.
Proof.
  intros Hs Hv Hd. split; [|intros id Hid|done].
  - intros n Hl. by eapply limits_shrunk.
  - apply list_elem_of_In, in_map_iff in Hid as (m' & <- & Hm'). apply list_elem_of_In in Hm'.
    destruct (shrunk_elem _ _ _ _ (Hs 0%Z) Hm') as (m & Hm & [-> _ _]). by apply list_elem_of_In, in_map, list_elem_of_In.
Qed.

Lemma quiet_expire P now : quiet P (expireAppPresence P now).
Proof.
  split; [intros n; apply limits_expire| |done]. unfold ids. by rewrite expired_member_id.
Qed.

(** Only the sessions are edited or dropped; only the assignments. *)
Lemma quiet_members P ms : (forall n, shrunk n ms (members P)) -> quiet P (set_members P ms).
Proof. intros H. by apply quiet_shrunk. Qed.
Lemma quiet_assignments P l :
  (forall id, (occ (split_all l) id <= occ (split_all (assignments P)) id)%nat) -> quiet P (set_assignments P l).
Proof. intros H. apply quiet_shrunk; [intros n; by apply shrunk_drop|done|done]. Qed.

Lemma quiet_update P p f :
  (forall n m, p m = true -> weaker n (f m) m) -> quiet P (set_members P (update_first p f (members P))).
Proof. intros H. apply quiet_members. intros n. apply shrunk_edit, update_first_Forall2; [done|]. auto. Qed.

Lemma quiet_retire P p : quiet P (set_members P (update_first p (set_state MRetiring) (members P))).
Proof. apply quiet_update. intros n m _. apply weaker_state. by right. Qed.

Lemma quiet_filter P p : quiet P (set_assignments P (List.filter p (assignments P))).
Proof. apply quiet_assignments. intros id. apply sublist_visits_of, filter_sublist. Qed.

Lemma quiet_filter_members P p : quiet P (set_members P (List.filter p (members P))).
Proof. apply quiet_members. intros n. apply shrunk_drop, filter_sublist. Qed.

Lemma quiet_update_assignment P p f :
  (forall a, p a = true -> calmer (f a) a) -> quiet P (set_assignments P (update_first p f (assignments P))).
Proof.
  intros H. apply quiet_assignments. intros id. apply calmer_visits_of, update_first_Forall2; [done|]. auto.
Qed.

Section Updates.
Context (t : tid).

(** Working on [P'], computed from [P]. *)
Definition working (P P' : AppPool) w : Prop := ok w /\ editing t P P' w.
#[export] Instance stable_working P P' : Stable G t (working P P').
Proof. unfold working. apply _. Qed.

Definition result_ok {T} (P : AppPool) (r : result (error V) (AppPool * T)) w : Prop :=
  ok w /\ match r with Ok (P', _) => editing t P P' w | Err _ => True end.
#[export] Instance stable_result_ok {T} P (r : result (error V) (AppPool * T)) : Stable G t (result_ok P r).
Proof. unfold result_ok. destruct r as [[]|]; apply _. Qed.

Lemma working_start P w : ok w -> limits policy (clock w) P -> working P P w.
Proof. intros Hok Hl. split; [done|]. split; auto. Qed.

Lemma working_quiet P P1 P2 w : quiet P1 P2 -> working P P1 w -> working P P2 w.
Proof.
  intros [H1 H2 H3] [Hok [G1 G2 G3]]. split; [done|]. split; [auto| |congruence]. intros id Hid. apply G2. set_solver.
Qed.

Lemma result_quiet {T} P P1 P2 (v : T) : quiet P1 P2 -> hoare G t (working P P1) (mret (P2, v)) (result_ok P).
Proof.
  intros Hq. apply hoare_ret; [apply _|]. intros w Hw. apply (working_quiet _ _ _ _ Hq) in Hw. done.
Qed.

Lemma hoare_now_bind {A} (Q : world B V -> Prop) (f : Z -> prog B V A) R `{!Stable G t Q} :
  (forall n, hoare G t Q (f n) R) -> hoare G t Q (now_ms ≫= f) R.
Proof.
  intros H. eapply hoare_bind; [by apply (hoare_now G t Q (fun _ => True))| |].
  - intros n. eapply hoare_pre; [|apply H]. by intros w (n' & _ & _ & _ & ?).
  - intros e w (n' & ? & _). done.
Qed.

(** Drawing an id: it is the drawer's. *)
Lemma hoare_fresh brand (Q : world B V -> Prop) `{!Stable G t Q} :
  (forall w id, Q w -> issued w !! id = None -> Q (set_issued w (<[id := t]> (issued w)))) ->
  (forall w, Q w -> ok w) ->
  hoare G t Q (call (OFreshId brand)) (fun r w => exists id, r = Ok id /\ Q w).
Proof.
  intros HQ Hok. apply hoare_call; [done|apply _|].
  intros w r w' Hw [(id & Hid & Hf & -> & ->)|[? _]]; [|done].
  destruct (Hok w Hw) as [Hwf HI].
  assert (Hg : grows w (set_issued w (<[id := t]> (issued w)))) by (eapply (sem_grows t (OFreshId brand)); by exists id).
  split; [|exists id; split; [done|by apply HQ]]. split; [done|]. intros _ _. split; [|by left].
  apply (Hok _ (HQ _ _ Hw Hf)).
Qed.

Lemma ok_issue w id : ok w -> issued w !! id = None -> ok (set_issued w (<[id := t]> (issued w))).
Proof.
  intros [Hw [H1 H2 H3 H4 H5]] Hid.
  assert (Hkeep : forall x, is_Some (issued w !! x) -> is_Some (<[id := t]> (issued w) !! x)).
  { intros x Hx. destruct (decide (x = id)) as [->|Hne]; [rewrite lookup_insert_eq|rewrite lookup_insert_ne by done]; eauto. }
  split; [by destruct Hw|]. split; try done.
  - intros P x HP Hx. destruct (H3 P x HP Hx); simpl; auto.
  - intros x Hx. simpl. auto.
Qed.

Lemma uuid_bind {A} (Q : world B V -> Prop) (f : string -> prog B V A) R `{!Persistent Q} :
  (forall id, hoare G t (fun w => ok w /\ Q w) (f id) R) -> hoare G t (fun w => ok w /\ Q w) (randomUUID ≫= f) R.
Proof.
  intros H. eapply hoare_bind; [apply (hoare_fresh "uuid"); [apply _| |by intros w [? _]]| |].
  - intros w id [Hok HQ] Hid. split; [by apply ok_issue|]. eapply persistent; [|exact HQ].
    split; simpl; auto; [by intros []|lia| |by exists []].
    intros x y Hx. rewrite lookup_insert_ne; [done|]. by intros ->; simplify_eq.
  - intros id. eapply hoare_pre; [|apply H]. by intros w (id' & _ & ?).
  - intros e w (id' & ? & _). done.
Qed.

(** [mutate] with an update that edits the pool it is given. *)
Lemma mutate_edit_spec {T} (update : AppPool -> prog B V (AppPool * T)) :
  (forall P, buried P -> hoare G t (working P P) (update P) (result_ok P)) ->
  hoare G t ok (mutate projectId notebookId update) (fun _ => ok).
Proof.
  intros Hup. eapply hoare_pre; [|apply (mutate_memo_spec t _ (fun _ _ => True) (fun _ _ => True))]; try done.
  intros [] P _ Hb. apply hoare_pre with (P := working P P).
  { intros w (Hok & _ & Hl). by apply working_start. }
  eapply hoare_bind; [by apply Hup| |].
  - intros [P' v]. apply hoare_ret; [apply _|]. intros w [Hok He]. split; [done|]. split; [done|].
    intros Hk. by apply editing_writable.
  - intros e. apply hoare_throw; [apply _|]. intros w [Hok _]. by split.
Qed.

Lemma bind_warm_spec P sessionId token sandboxId :
  hoare G t (working P P) (bind_warm_fn sessionId token sandboxId P) (result_ok P).
Proof.
  unfold bind_warm_fn. destruct (List.find _ _) as [m|]; [|by apply result_quiet].
  destruct (_ || _); [by apply result_quiet|]. apply hoare_now_bind; [apply _|]. intros n.
  destruct (_ <=? _)%Z; [by apply result_quiet|]. apply result_quiet, quiet_update. intros k m' _. by split.
Qed.

Lemma release_fn_spec P sessionId token : hoare G t (working P P) (release_fn sessionId token P) (result_ok P).
Proof.
  unfold release_fn. destruct (List.find _ _) as [m|]; [|by apply result_quiet].
  destruct (_ && _); [|by apply result_quiet]. apply result_quiet. etrans; [apply quiet_members|].
  - intros n. apply shrunk_drop, remove_first_sublist.
  - match goal with |- quiet ?P' _ => apply (quiet_filter P') end.
Qed.

Lemma invalidate_fn_spec P sessionId : hoare G t (working P P) (invalidate_fn sessionId P) (result_ok P).
Proof.
  unfold invalidate_fn. apply result_quiet. etrans; [apply quiet_retire|].
  match goal with |- quiet ?P' _ => apply (quiet_filter P') end.
Qed.

Lemma presence_known userId sessionId visit a :
  presence userId sessionId visit a = true -> a_visit_id a = Some (visit_id_of visit).
Proof. unfold presence. rewrite !andb_true_iff, !bool_decide_eq_true. by intros [[[_ _] ->] _]. Qed.

Lemma leave_calmer now visit a : is_Some (a_visit_id a) -> calmer (leave_visit policy now visit a) a.
Proof.
  intros Ha. unfold leave_visit. destruct (existsb _ _); [|done].
  case_bool_decide; by apply calmer_known.
Qed.

Lemma leave_fn_spec P userId sessionId visit :
  hoare G t (working P P) (leave_fn policy userId sessionId visit P) (result_ok P).
Proof.
  unfold leave_fn. apply hoare_now_bind; [apply _|]. intros n. apply result_quiet. etrans; [apply (quiet_expire P n)|].
  apply quiet_update_assignment. intros a Ha%presence_known. apply leave_calmer. by rewrite Ha.
Qed.

(** A visit joins an adopted session, which has no limit. *)
Lemma legacy_visit_limits n P m a :
  limits policy n P -> m ∈ members P -> legacy m = true -> a_session_id a = m_session_id m ->
  is_Some (a_visit_id a) -> limits policy n (set_assignments P (assignments P ++ [a])).
Proof.
  intros Hl Hm Hleg Hid [x Ha]. apply limits_assign; [done|by intros ?; congruence|].
  intros m' k _ Hm' Hleg' Hid'. exfalso. destruct Hl as [Hnd _ _].
  assert (m' = m); [|congruence]. rewrite Hid in Hid'.
  apply list_elem_of_lookup in Hm as [i Hi], Hm' as [j Hj].
  assert (i = j) as ->; [|congruence].
  eapply (NoDup_lookup (map m_session_id (members P)) i j (m_session_id m)); [done| |];
    rewrite list_lookup_fmap; [by rewrite Hi|rewrite Hj; simpl; congruence].
Qed.

Lemma renew_calmer visitId e a : is_Some (a_visit_id a) -> calmer (renewAppVisit visitId e a) a.
Proof. intros Ha. by apply calmer_known. Qed.

(** The last step of a heartbeat: the visit is renewed when due. *)
Lemma heartbeat_renew P P1 is_member is_assignment visitId n (due : bool) :
  (forall a, is_assignment a = true -> is_Some (a_visit_id a)) ->
  hoare G t (working P P1)
    (mret (set_assignments (set_members P1 (update_first is_member (set_idle None) (members P1)))
       (if due then update_first is_assignment (renewAppVisit visitId n) (assignments P1) else assignments P1), true))
    (result_ok P).
Proof.
  intros Hk. apply result_quiet.
  assert (Hm : quiet P1 (set_members P1 (update_first is_member (set_idle None) (members P1)))).
  { apply quiet_update. intros k m _. apply weaker_idle. }
  destruct due; [|exact Hm]. etrans; [exact Hm|].
  match goal with |- quiet ?P' _ => apply (quiet_update_assignment P') end.
  intros a Ha. apply renew_calmer. auto.
Qed.

Lemma working_visit P P1 m userId sessionId generation w :
  List.find (fun m => has_session sessionId m && negb (m_state m === MRetiring)) (members P1) = Some m ->
  legacy m = true -> working P P1 w ->
  working P (set_assignments P1 (assignments P1 ++
    [{| a_visit_id := Some "api"; a_user_id := userId; a_session_id := sessionId;
        a_generation := generation; a_visits := []; a_grace_until := None |}])) w.
Proof.
  intros [Hm Hs]%find_some_elem Hleg [Hok [H1 H2 H3]]. split; [done|]. split; [|done|done].
  apply andb_true_iff in Hs as [Hs _]. apply bool_decide_eq_true in Hs.
  eapply legacy_visit_limits; [done|exact Hm|done|by symmetry|done].
Qed.

Lemma heartbeat_fn_spec P userId sessionId visit :
  hoare G t (working P P) (heartbeat_fn policy userId sessionId visit P) (result_ok P).
Proof.
  unfold heartbeat_fn. apply hoare_now_bind; [apply _|]. intros n.
  apply hoare_pre with (P := working P (expireAppPresence P n)).
  { intros w. apply working_quiet, quiet_expire. }
  set (P1 := expireAppPresence P n). clearbody P1.
  destruct (List.find _ (members P1)) as [m|] eqn:Em; [|by apply result_quiet].
  assert (Hpres : forall a, presence userId sessionId visit a = true -> is_Some (a_visit_id a)).
  { intros a ->%presence_known. eauto. }
  apply hoare_bind with (M := fun r w => match r with Ok P2 => working P P2 w | Err _ => ok w end).
  - destruct (List.find _ (assignments P1)); [by apply hoare_ret; [apply _|]|].
    destruct (legacy m) eqn:Hleg; [|by apply hoare_ret; [apply _|]].
    destruct visit; [by apply hoare_ret; [apply _|]|].
    apply uuid_bind; [apply _|]. intros g. apply hoare_ret; [apply _|]. intros w Hw. by eapply working_visit.
  - intros P2. destruct (List.find _ (assignments P2)) as [a|]; [|by apply result_quiet].
    destruct (List.find _ (a_visits a)) as [v|].
    + by apply heartbeat_renew.
    + destruct (negb _); [by apply result_quiet|by apply (heartbeat_renew _ _ _ _ _ _ true)].
  - intros e. apply hoare_throw; [apply _|]. by intros w ?.
Qed.

Lemma undo_fn_spec P userId generation : hoare G t (working P P) (undo_admission_fn userId generation P) (result_ok P).
Proof.
  unfold undo_admission_fn. apply hoare_now_bind; [apply _|]. intros n. apply result_quiet.
  etrans; [|apply quiet_expire]. apply quiet_filter.
Qed.

Lemma retire_fn_spec P candidate : hoare G t (working P P) (retire_fn policy candidate P) (result_ok P).
Proof.
  unfold retire_fn. apply hoare_now_bind; [apply _|]. intros n. pose proof (quiet_expire P n) as Hq.
  destruct (List.find _ _) as [m|]; [|by apply result_quiet].
  apply hoare_now_bind; [apply _|]. intros n'. case_bool_decide; [by apply result_quiet|].
  apply hoare_now_bind; [apply _|]. intros n''. apply result_quiet. etrans; [exact Hq|].
  etrans; [apply quiet_retire|apply quiet_expire].
Qed.

Lemma drop_fn_spec P candidate : hoare G t (working P P) (drop_fn candidate P) (result_ok P).
Proof.
  unfold drop_fn. apply hoare_now_bind; [apply _|]. intros n. apply result_quiet.
  etrans; [apply quiet_filter_members|apply quiet_expire].
Qed.

(** *** Startup *)

Lemma cut_leases_spec vs (Q : world B V -> Prop) `{!Stable G t Q} :
  hoare G t Q (cut_leases policy vs)
    (fun r w => Q w /\ match r with Ok vs' => length vs' = length vs | Err _ => False end).
Proof.
  induction vs as [|v vs IH]; simpl; [by apply hoare_ret|].
  apply hoare_now_bind; [done|]. intros n. eapply hoare_bind; [exact IH| |].
  - intros vs'. apply hoare_ret; [apply _|]. intros w [? Hl]. split; [done|]. simpl. by rewrite Hl.
  - by intros e w [_ ?].
Qed.

Lemma set_visits_calmer vs a : length vs = length (a_visits a) -> calmer (set_visits vs a) a.
Proof.
  intros Hl. split; [done|]. unfold split_assignment. simpl.
  destruct (a_visit_id a), vs as [|v vs], (a_visits a) as [|v' l]; simpl in *; try done. rewrite !length_map. lia.
Qed.

Lemma cut_session_leases_spec sessionId l (Q : world B V -> Prop) `{!Stable G t Q} :
  hoare G t Q (cut_session_leases policy sessionId l)
    (fun r w => Q w /\ match r with Ok l' => Forall2 calmer l' l | Err _ => False end).
Proof.
  induction l as [|a l IH]; simpl; [by apply hoare_ret|].
  eapply hoare_bind with (M := fun r w => Q w /\ match r with Ok a' => calmer a' a | Err _ => False end).
  - case_bool_decide; [|by apply hoare_ret]. eapply hoare_bind; [by apply cut_leases_spec| |].
    + intros vs. apply hoare_ret; [apply _|]. intros w [? Hl]. split; [done|by apply set_visits_calmer].
    + by intros e w [_ ?].
  - intros a'. apply hoare_pre with (P := fun w => calmer a' a /\ Q w); [by intros w [? ?]|].
    apply hoare_pure; intros Ha. eapply hoare_bind; [exact IH| |].
    + intros l'. apply hoare_ret; [apply _|]. intros w [? ?]. split; [done|by constructor].
    + by intros e w [_ ?].
  - by intros e w [_ ?].
Qed.

(** A started session was counted while its reservation was valid. *)
Lemma weaker_started n m s :
  m_state m = MStarting -> (n < m_operation_expires_at m)%Z -> s = MReady \/ s = MDraining -> weaker n (set_state s m) m.
Proof.
  intros Hs Hn Hs'. split; [done|done|]. intros v. unfold is_current, isReusableMember. simpl. rewrite Hs.
  destruct Hs' as [-> | ->]; rewrite !andb_true_iff; simpl; [|naive_solver].
  intros [[[? ?] _] _]. repeat (split; [done|]). by apply Z.ltb_lt.
Qed.

Lemma update_found_Forall2 {A} (R : A -> A -> Prop) p f (l : list A) x :
  (forall y, R y y) -> List.find p l = Some x -> R (f x) x -> Forall2 R (update_first p f l) l.
Proof.
  intros Hr Hf Hx. induction l as [|y l IH]; simpl in *; [done|]. destruct (p y).
  - injection Hf as ->. constructor; [done|]. clear -Hr. induction l; constructor; auto.
  - constructor; auto.
Qed.

Lemma complete_limits n P sessionId m s l :
  limits policy n P -> List.find (has_session sessionId) (members P) = Some m ->
  m_state m = MStarting -> (n < m_operation_expires_at m)%Z -> s = MReady \/ s = MDraining ->
  Forall2 calmer l (assignments P) ->
  limits policy n (set_assignments (set_members P (update_first (has_session sessionId) (set_state s) (members P))) l) /\
  ids (set_assignments (set_members P (update_first (has_session sessionId) (set_state s) (members P))) l) = ids P.
Proof.
  intros Hl Hf Hs Hn Hs' Hc.
  assert (Hm : Forall2 (weaker n) (update_first (has_session sessionId) (set_state s) (members P)) (members P)).
  { eapply update_found_Forall2; [done|exact Hf|by apply weaker_started]. }
  split; [|by apply (Forall2_ids n)]. eapply limits_shrunk; [exact Hl|by apply shrunk_edit|].
  intros id. by apply calmer_visits_of.
Qed.

Lemma complete_fn_spec P sessionId token :
  hoare G t (working P P) (complete_fn policy sessionId token P) (result_ok P).
Proof.
  unfold complete_fn. destruct (List.find _ _) as [m|] eqn:Ef; [|by apply result_quiet].
  destruct (m_state m === MStarting) eqn:Es; [|by apply result_quiet]. apply bool_decide_eq_true in Es.
  destruct (_ || _); [by apply result_quiet|].
  eapply hoare_bind; [apply (hoare_now G t (working P P) (fun n => limits policy n P)); [by intros w [_ []]]| |].
  2: { intros e w (n & ? & _). done. }
  intros n. destruct (m_operation_expires_at m <=? n)%Z eqn:En.
  { eapply hoare_pre; [|by apply (result_quiet P P P)]. by intros w (n' & _ & _ & _ & ?). }
  apply Z.leb_gt in En. apply hoare_pre with (P := fun w => limits policy n P /\ (working P P w /\ (n <= clock w)%Z)).
  { by intros w (n' & [= <-] & ? & ? & ?). }
  apply hoare_pure; intros Hl. eapply hoare_bind; [apply cut_session_leases_spec, _| |].
  2: { by intros e w [_ ?]. }
  intros l. apply hoare_ret; [apply _|]. intros w [[[Hok [_ H2 H3]] Hle] Hc].
  set (s := if m_source_version_id m === latest_version_id P then MReady else MDraining).
  destruct (complete_limits n P sessionId m s l Hl Ef Es En) as [Hl' Hids]; [unfold s; case_bool_decide; auto|done|].
  split; [done|]. split; [by eapply limits_mono|by rewrite Hids|done].
Qed.

(** *** Deletion *)

Lemma retire_all_limits n P :
  limits policy n P -> limits policy n {| deleted_at := deleted_at P; latest_version_id := latest_version_id P;
    members := map (set_state MRetiring) (members P); assignments := [] |}.
Proof.
  intros Hl. eapply limits_shrunk; [exact Hl| |intros id; unfold visits_of, split_all, occ; simpl; lia].
  apply shrunk_edit, Forall2_map_l. intros m. apply weaker_state. by right.
Qed.

Lemma limits_deleted n P d :
  limits policy n P -> limits policy n {| deleted_at := d; latest_version_id := latest_version_id P;
    members := members P; assignments := assignments P |}.
Proof. intros [H1 H2 H3]. split; done. Qed.

Definition buried_pool (P : AppPool) (d : Z) : AppPool :=
  {| deleted_at := Some d; latest_version_id := latest_version_id P;
     members := map (set_state MRetiring) (members P); assignments := [] |}.

Lemma buried_writable P d w :
  limits policy (clock w) P -> deleted_at P = None \/ deleted_at P = Some d -> writable t P (buried_pool P d) w.
Proof.
  intros Hl Hd. split; [|split; [|split]].
  - apply (limits_deleted _ _ (Some d)) in Hl. apply retire_all_limits in Hl. exact Hl.
  - intros _. split; [done|]. intros m Hm. simpl in Hm. by apply list_elem_of_In, in_map_iff in Hm as (m0 & <- & _).
  - intros id Hid. left. unfold ids in *. simpl in Hid. by rewrite map_map in Hid.
  - intros _ d' Hd'. simpl. destruct Hd; congruence.
Qed.

Lemma retire_for_deletion_spec : hoare G t ok (retireForDeletion projectId notebookId) (fun _ => ok).
Proof.
  unfold retireForDeletion. eapply hoare_pre; [|apply (mutate_memo_spec t _ (fun _ _ => True) (fun _ _ => True))]; try done.
  intros [] P _ Hb. apply hoare_pre with (P := working P P).
  { intros w (Hok & _ & Hl). by apply working_start. }
  eapply hoare_bind with (M := fun r w => working P P w /\ match r with
    | Ok x => exists d, (deleted_at P = None \/ deleted_at P = Some d) /\ x = (buried_pool P d, tt)
    | Err _ => False end); [| |by intros e w [_ ?]].
  - unfold retire_for_deletion_fn. destruct (deleted_at P) as [d|] eqn:Hd.
    + apply hoare_ret; [apply _|]. intros w ?. split; [done|]. exists d. auto.
    + apply hoare_now_bind; [apply _|]. intros n. apply hoare_ret; [apply _|]. intros w ?. split; [done|]. exists n. auto.
  - intros x. apply hoare_ret; [apply _|]. intros w [[Hok [H1 H2 H3]] (d & Hd & ->)].
    split; [done|]. split; [done|]. intros _. by apply buried_writable.
Qed.

(** *** Sessions *)

Definition known_sessions (l : list Session) : Prop :=
  forall s, s ∈ l -> adoptable s -> old (ses_session_id s).

Lemma get_session_spec id (Q : world B V -> Prop) `{!Stable G t Q} :
  (forall w, Q w -> ok w) ->
  hoare G t Q (getSession projectId id)
    (fun r w => Q w /\ match r with Ok s => adoptable s -> old (ses_session_id s) | Err _ => True end).
Proof.
  intros HQ. unfold getSession. eapply hoare_bind.
  { apply (hoare_get G t _ Q (fun o w => Q w /\ forall o' s, o = Some o' -> parse (o_body o') = Some s -> adoptable s -> old (ses_session_id s))).
    intros w Hw. split; [done|]. intros o s Ho. by apply (inv_sessions w (proj2 (HQ w Hw)) _ o s Ho). }
  - intros [o|]; [|apply hoare_throw; [apply _|]; by intros w [? _]].
    unfold readStored. destruct (parse (o_body o)) as [s|] eqn:E.
    + apply hoare_ret; [apply _|]. intros w [? H]. split; [done|]. by apply (H o).
    + apply hoare_throw; [apply _|]. by intros w [? _].
  - intros e. apply hoare_throw; [apply _|]. by intros w [? _].
Qed.

Lemma find_session_spec id (Q : world B V -> Prop) `{!Stable G t Q} :
  (forall w, Q w -> ok w) ->
  hoare G t Q (catch (s ← getSession projectId id; mret (Some s))
      (fun error => match error with NotFoundError _ => mret None | error => Throw error end))
    (fun r w => Q w /\ match r with Ok (Some s) => adoptable s -> old (ses_session_id s) | _ => True end).
Proof.
  intros HQ. eapply hoare_catch with (M := fun r w => Q w /\ match r with Ok (Some s) => adoptable s -> old (ses_session_id s) | _ => True end).
  - eapply hoare_bind; [by apply get_session_spec| |].
    + intros s. apply hoare_ret; [apply _|]. by intros w ?.
    + intros e. apply hoare_throw; [apply _|]. by intros w [? _].
  - intros s. apply hoare_ret; [destruct s; apply _|]. by intros w ?.
  - intros e. destruct e; try (apply hoare_throw; [apply _|]; by intros w [? _]).
    apply hoare_ret; [apply _|]. by intros w [? _].
Qed.

Lemma member_sessions_spec ms (Q : world B V -> Prop) `{!Stable G t Q} :
  (forall w, Q w -> ok w) ->
  hoare G t Q (member_sessions projectId ms)
    (fun r w => Q w /\ match r with Ok (l, _) => known_sessions l | Err _ => True end).
Proof.
  intros HQ. induction ms as [|m ms IH]; cbn [member_sessions].
  { apply hoare_ret; [done|]. intros w ?. split; [done|]. intros s Hs. by apply not_elem_of_nil in Hs. }
  eapply hoare_bind; [by apply find_session_spec| |].
  2: { intros e. apply hoare_throw; [apply _|]. by intros w [? _]. }
  intros s. apply hoare_pre with (P := fun w => match s with Some s => adoptable s -> old (ses_session_id s) | None => True end /\ Q w);
    [by intros w [? ?]|]. apply hoare_pure; intros Hs.
  eapply hoare_bind; [exact IH| |].
  2: { intros e. apply hoare_throw; [apply _|]. by intros w [? _]. }
  intros [l absent]. apply hoare_ret; [apply _|]. intros w [? Hl]. split; [done|]. destruct s as [s|]; [|done].
  intros s' [->|Hs']%elem_of_cons; auto.
Qed.

Lemma pages_spec fuel options cursor (Q : world B V -> Prop) `{!Stable G t Q} :
  hoare G t Q (iterateBucketPages fuel options cursor) (fun _ => Q).
Proof.
  revert cursor. induction fuel as [|fuel IH]; intros cursor; cbn [iterateBucketPages]; [by apply hoare_throw|].
  eapply hoare_bind; [apply (hoare_read G t _ Q); try done; by intros w r w' [-> _]| |by intros e; apply hoare_throw].
  intros page. destruct (truthy _); [|by apply hoare_ret].
  eapply hoare_bind; [apply IH|by intros; apply hoare_ret|by intros; apply hoare_throw].
Qed.

Lemma read_sessions_spec keys (Q : world B V -> Prop) `{!Stable G t Q} :
  (forall w, Q w -> ok w) ->
  hoare G t Q (readStoredObjects (T := Session) keys)
    (fun r w => Q w /\ match r with Ok l => known_sessions l | Err _ => True end).
Proof.
  intros HQ. induction keys as [|k keys IH]; cbn [readStoredObjects].
  { apply hoare_ret; [done|]. intros w ?. split; [done|]. intros s Hs. by apply not_elem_of_nil in Hs. }
  set (fine o := forall s : Session, (o ≫= fun o => parse (o_body o)) = Some s -> adoptable s -> old (ses_session_id s)).
  eapply hoare_bind.
  { apply (hoare_get G t k Q (fun (o : option (object B)) w => Q w /\ fine o)). intros w Hw. split; [done|].
    intros s. destruct (store w !! k) as [o|] eqn:E; [|done]. by apply (inv_sessions w (proj2 (HQ w Hw)) k o s). }
  2: { intros e. apply hoare_throw; [apply _|]. by intros w [? _]. }
  intros o. apply hoare_pre with (P := fun w => fine o /\ Q w); [by intros w [? ?]|]. apply hoare_pure; intros Ho.
  eapply hoare_bind; [exact IH| |].
  2: { intros e. apply hoare_throw; [apply _|]. by intros w [? _]. }
  intros l. apply hoare_ret; [apply _|]. intros w [? Hl]. split; [done|].
  unfold fine in Ho. destruct (o ≫= _) as [s|]; [|done]. intros s' [->|Hs']%elem_of_cons; auto.
Qed.

Lemma list_active_spec fuel (Q : world B V -> Prop) `{!Stable G t Q} :
  (forall w, Q w -> ok w) ->
  hoare G t Q (listActiveByProject fuel projectId)
    (fun r w => Q w /\ match r with Ok l => known_sessions l | Err _ => True end).
Proof.
  intros HQ. unfold listActiveByProject. eapply hoare_bind with (M := fun _ => Q).
  - unfold listAllKeys. eapply hoare_bind; [by apply pages_spec|by intros; apply hoare_ret|by intros; apply hoare_throw].
  - intros keys. eapply hoare_bind; [by apply read_sessions_spec| |].
    + intros l. apply hoare_ret; [apply _|]. intros w [? Hl]. split; [done|].
      intros s [Hs _]%List_filter_elem. by apply Hl.
    + intros e. apply hoare_throw; [apply _|]. by intros w [? _].
  - intros e. by apply hoare_throw.
Qed.

(** What [synchronize] remembers is safe to adopt. *)
Definition memo_ok (memo : option (list Session * list SessionId)) : Prop :=
  match memo with Some (l, _) => known_sessions l | None => True end.

Lemma discover_spec fuel observed P (Q : world B V -> Prop) `{!Stable G t Q} :
  (forall w, Q w -> ok w) -> match observed with Some l => known_sessions l | None => True end ->
  hoare G t Q (discover fuel projectId notebookId observed P)
    (fun r w => Q w /\ match r with Ok known => memo_ok (Some known) | Err _ => True end).
Proof.
  intros HQ Hobs. unfold discover.
  eapply hoare_bind with (M := fun r w => Q w /\ match r with Ok (l, _) => known_sessions l | Err _ => True end).
  - destruct observed as [l|]; [by apply hoare_ret|]. destruct (_ && _); [|by apply member_sessions_spec].
    eapply hoare_bind; [by apply list_active_spec| |].
    + intros l. by apply hoare_ret; [apply _|].
    + intros e. apply hoare_throw; [apply _|]. by intros w [? _].
  - intros [l absent]. apply hoare_ret; [apply _|]. intros w [? Hl]. split; [done|].
    intros s [Hs _]%List_filter_elem. by apply Hl.
  - intros e. apply hoare_throw; [apply _|]. by intros w [? _].
Qed.

Lemma retire_lost_spec absent ms (Q : world B V -> Prop) `{!Stable G t Q} :
  hoare G t Q (retire_lost absent ms)
    (fun r w => Q w /\ match r with Ok ms' => forall n, Forall2 (weaker n) ms' ms | Err _ => False end).
Proof.
  induction ms as [|m ms IH]; cbn [retire_lost]; [by apply hoare_ret|].
  eapply hoare_bind with (M := fun r w => Q w /\ match r with Ok _ => True | Err _ => False end).
  - case_bool_decide; [|by apply hoare_ret]. apply hoare_now_bind; [done|]. intros n. by apply hoare_ret.
  - intros lost. eapply hoare_pre with (P := Q); [by intros w [? _]|].
    eapply hoare_bind; [exact IH| |by intros e w [_ ?]].
    intros ms'. apply hoare_ret; [apply _|]. intros w [? Hms]. split; [done|]. intros n. constructor; [|done].
    destruct lost; [apply weaker_state; by right|done].
  - by intros e w [_ ?].
Qed.

Lemma adopt_spec P P1 s sandboxId w :
  (adoptable s -> old (ses_session_id s)) -> adoptable s ->
  List.find (has_session (ses_session_id s)) (members P1) = None ->
  working P P1 w -> working P (set_members P1 (members P1 ++ [adopted P1 s sandboxId])) w.
Proof.
  intros Hold Had Hf [Hok [H1 H2 H3]]. split; [done|]. split; [| |done].
  - apply limits_join; [done| |done|done].
    intros Hin. apply list_elem_of_In, in_map_iff in Hin as (m & Hm & Hin).
    rewrite find_none_elem in Hf. apply list_elem_of_In in Hin. specialize (Hf m Hin).
    apply bool_decide_eq_false in Hf. by apply Hf.
  - intros id Hid. unfold ids in Hid. simpl in Hid. rewrite map_app in Hid.
    apply elem_of_app in Hid as [Hid|Hid]; [by apply H2|].
    apply list_elem_of_singleton in Hid as ->. right; left. by apply Hold.
Qed.

Lemma observe_sessions_spec sessions P P1 :
  known_sessions sessions ->
  hoare G t (working P P1) (observe_sessions sessions P1)
    (fun r w => match r with Ok P2 => working P P2 w | Err _ => False end).
Proof.
  revert P1. induction sessions as [|s l IH]; intros P1 Hk; cbn [observe_sessions]; [by apply hoare_ret; [apply _|]|].
  eapply hoare_bind with (M := fun r w => match r with Ok P2 => working P P2 w | Err _ => False end); [| |by intros e w ?].
  - destruct (List.find _ _) as [m|] eqn:Ef.
    + eapply hoare_bind with (M := fun r w => match r with Ok _ => working P P1 w | Err _ => False end); [| |by intros e w ?].
      * destruct (_ || _); [by apply hoare_ret; [apply _|]|]. apply hoare_now_bind; [apply _|]. intros n.
        by apply hoare_ret; [apply _|].
      * intros ended. apply hoare_ret; [apply _|]. intros w Hw. destruct ended; [|done].
        eapply working_quiet; [apply quiet_retire|done].
    + destruct (ses_sandbox_id s) as [sb|]; [|by apply hoare_ret; [apply _|]].
      destruct (_ && _) eqn:E; [|by apply hoare_ret; [apply _|]].
      apply andb_true_iff in E as [_ E]. apply negb_true_iff in E.
      apply hoare_ret; [apply _|]. intros w Hw. apply adopt_spec; try done. intros ?. apply Hk; [by left|done].
  - intros P2. apply IH. intros s' Hs'. apply Hk. by right.
Qed.

Lemma synchronize_fn_spec fuel observed memo P :
  match observed with Some l => known_sessions l | None => True end -> memo_ok memo ->
  hoare G t (working P P) (synchronize_fn fuel projectId notebookId observed memo P)
    (fun r w => ok w /\ match r with Ok (memo', (P', _)) => memo_ok memo' /\ editing t P P' w | Err _ => True end).
Proof.
  intros Hobs Hmemo. unfold synchronize_fn. destruct (_ && _ && _).
  { apply hoare_ret; [apply _|]. by intros w [? ?]. }
  eapply hoare_bind with (M := fun r w => working P P w /\ match r with Ok known => memo_ok (Some known) | Err _ => True end).
  - destruct memo as [known|]; [by apply hoare_ret; [apply _|]|]. apply discover_spec; try done; [apply _|by intros w [? _]].
  - intros known. apply hoare_pre with (P := fun w => memo_ok (Some known) /\ working P P w); [by intros w [? ?]|].
    apply hoare_pure; intros Hk. eapply hoare_bind; [apply retire_lost_spec, _| |by intros e w [_ ?]].
    intros ms. apply hoare_pre with (P := working P (set_members P ms)).
    { intros w [Hw Hms]. eapply working_quiet; [|exact Hw]. apply quiet_members. intros n. by apply shrunk_edit. }
    eapply hoare_bind; [apply observe_sessions_spec; by destruct known| |by intros e w ?].
    intros P2. apply hoare_now_bind; [apply _|]. intros n. apply hoare_ret; [apply _|]. intros w Hw.
    apply (working_quiet _ _ _ _ (quiet_expire P2 n)) in Hw as [? ?]. done.
  - intros e. apply hoare_throw; [apply _|]. intros w [[? _] _]. by split.
Qed.

Lemma synchronize_spec fuel observed :
  match observed with Some l => known_sessions l | None => True end ->
  hoare G t ok (synchronize fuel projectId notebookId observed) (fun _ => ok).
Proof.
  intros Hobs. unfold synchronize.
  eapply hoare_pre; [|apply (mutate_memo_spec t _ (fun memo _ => memo_ok memo) (fun memo _ => memo_ok memo))]; try done.
  intros memo P Hm Hb. eapply hoare_pre; [|eapply hoare_post; [|by apply (synchronize_fn_spec fuel observed memo P)]].
  - intros w (Hok & _ & Hl). by apply working_start.
  - intros [[memo' [P' v]]|e] w [Hok Hr]; [|done]. destruct Hr as [Hm' He]. split; [done|]. split; [done|].
    intros Hk. by apply editing_writable.
Qed.

(** *** Admission *)

Lemma draw_session_spec :
  hoare G t ok (call (OFreshId "sess")) (fun r w => exists id, r = Ok id /\ mine t id w).
Proof.
  apply hoare_call; [apply _|apply _|].
  intros w r w' Hok [(id & Hid & Hf & -> & ->)|[? _]]; [|done].
  assert (Hok' := ok_issue w id Hok Hf). destruct Hok as [Hw HI].
  assert (Hg : grows w (set_issued w (<[id := t]> (issued w)))) by (eapply (sem_grows t (OFreshId "sess")); by exists id).
  assert (Hnew : ~ is_Some (issued w !! id)) by (rewrite Hf; by intros [? ?]).
  split; [split; [done|]; intros _ _; split; [apply Hok'|by left]|].
  exists id. split; [done|]. split; [done|]. split; [by apply lookup_insert_eq|]. split.
  - intros Ho. by apply Hnew, (inv_old w HI).
  - intros P HP Hin. destruct (inv_known w HI P id HP Hin) as [Ho|Ho]; [by apply Hnew, (inv_old w HI)|done].
Qed.

Lemma mine_issue id w x : mine t id w -> issued w !! x = None -> mine t id (set_issued w (<[x := t]> (issued w))).
Proof.
  intros (Hok & Hi & Hn & Ha) Hx. split; [by apply ok_issue|]. split; [|done]. simpl.
  rewrite lookup_insert_ne; [done|]. congruence.
Qed.

Lemma draw_again_spec brand id :
  hoare G t (mine t id) (call (OFreshId brand)) (fun r w => exists x, r = Ok x /\ mine t id w).
Proof. apply hoare_fresh; [apply _|intros w x; apply mine_issue|by intros w [? _]]. Qed.

Definition reserved (versionId : VersionId) (r : result (error V) AppPoolMember) w : Prop :=
  match r with
  | Ok m => m_source_version_id m = Some versionId /\ mine t (m_session_id m) w
  | Err _ => False
  end.

Lemma new_reservation_spec userId versionId startupMs :
  hoare G t ok (new_reservation userId versionId startupMs) (reserved versionId).
Proof.
  unfold new_reservation. apply hoare_now_bind; [apply _|]. intros n.
  eapply hoare_bind; [apply draw_session_spec| |by intros e w (? & ? & _)]. intros id.
  apply hoare_pre with (P := mine t id); [by intros w (? & [= <-] & ?)|].
  eapply hoare_bind; [apply draw_again_spec| |by intros e w (? & ? & _)]. intros sb.
  apply hoare_pre with (P := mine t id); [by intros w (? & _ & ?)|].
  eapply hoare_bind; [apply draw_again_spec| |by intros e w (? & ? & _)]. intros token.
  apply hoare_ret; [apply _|]. by intros w (? & _ & ?).
Qed.

Lemma assert_version_spec versionId (Q : world B V -> Prop) `{!Stable G t Q} :
  hoare G t Q (assertCommittedVersion projectId notebookId versionId) (fun _ => Q).
Proof.
  unfold assertCommittedVersion. eapply hoare_bind; [by apply (hoare_get G t _ Q (fun _ => Q))| |].
  - intros [o|]; [|by apply hoare_throw]. eapply hoare_bind with (M := fun _ => Q); [| |by intros; apply hoare_throw].
    + unfold readStored. destruct (parse (o_body o)); [by apply hoare_ret|by apply hoare_throw].
    + intros s. destruct (negb (source_version s === Some versionId)); [by apply hoare_throw|by apply hoare_ret].
  - intros e. apply hoare_throw; [apply _|]. by intros w [? _].
Qed.

(** A decision that keeps the limits and adds at most the reservation. *)
Definition sound_decision (versionId : VersionId)
    (decide : AppPool -> AppPoolMember -> Z -> option (AppPool * AppPoolDecision)) : Prop :=
  forall P m n P' d, m_source_version_id m = Some versionId -> m_session_id m ∉ ids P -> limits policy n P ->
    decide P m n = Some (P', d) ->
    limits policy n P' /\ deleted_at P' = deleted_at P /\ forall id, id ∈ ids P' -> id ∈ ids P \/ id = m_session_id m.

Lemma route_fn_spec userId versionId m decide P :
  m_source_version_id m = Some versionId -> sound_decision versionId decide -> m_session_id m ∉ ids P ->
  hoare G t (fun w => mine t (m_session_id m) w /\ limits policy (clock w) P)
    (route_fn projectId notebookId userId versionId m decide P)
    (fun r w => ok w /\ match r with
       | Ok (P', _) => mine t (m_session_id m) w /\ editing t P P' w | Err _ => True end).
Proof.
  intros Hv Hsound Hid. unfold route_fn. destruct (deleted_at P) as [d|] eqn:Ed.
  { apply hoare_throw; [apply _|]. by intros w [[? _] _]. }
  eapply hoare_bind; [apply assert_version_spec, _| |].
  2: { intros e. apply hoare_throw; [apply _|]. by intros w [[? _] _]. }
  intros []. eapply hoare_bind; [apply (hoare_now G t _ (fun n => limits policy n P)); by intros w [_ ?]| |].
  2: { intros e w (n & ? & _). done. }
  intros n. destruct (decide P m n) as [[P' d]|] eqn:Eq.
  - apply hoare_ret; [apply _|]. intros w (n' & [= <-] & Hl & Hn & Hmine & _).
    destruct (Hsound P m n P' d Hv Hid Hl Eq) as (Hl' & Hd & Hids).
    split; [apply Hmine|]. split; [done|]. split; [by eapply limits_mono| |congruence].
    intros id Hin. destruct (Hids id Hin) as [?| ->]; [by left|]. right; right. apply Hmine.
  - apply hoare_throw; [apply _|]. by intros w (n' & _ & _ & _ & [? _] & _).
Qed.

Lemma route_mutate_spec userId versionId m decide :
  m_source_version_id m = Some versionId -> sound_decision versionId decide ->
  hoare G t (mine t (m_session_id m)) (mutate projectId notebookId (route_fn projectId notebookId userId versionId m decide))
    (fun _ => ok).
Proof.
  intros Hv Hs. eapply hoare_pre; [|apply (mutate_memo_spec t _ (fun _ => mine t (m_session_id m)) (fun _ P => m_session_id m ∉ ids P))].
  - intros w Hw. split; [apply Hw|done].
  - intros _ w P (_ & _ & _ & Ha) _ HP. by apply Ha.
  - intros [] P Hid Hb. apply hoare_pre with (P := fun w => mine t (m_session_id m) w /\ limits policy (clock w) P).
    { by intros w (_ & ? & ?). }
    eapply hoare_bind; [by apply route_fn_spec| |].
    + intros [P' v]. apply hoare_ret; [apply _|]. intros w (Hok & Hmine & He). split; [done|]. split; [done|].
      intros Hk. by apply editing_writable.
    + intros e. apply hoare_throw; [apply _|]. by intros w [? _].
Qed.

Lemma route_spec fuel userId versionId startupMs isReplace decide :
  sound_decision versionId decide ->
  hoare G t ok (route fuel projectId notebookId userId versionId startupMs isReplace decide) (fun _ => ok).
Proof.
  intros Hs. unfold route.
  eapply hoare_bind; [by apply synchronize_spec| |by intros; apply hoare_throw; [apply _|]].
  intros ?. eapply hoare_bind; [apply new_reservation_spec| |by intros e w ?].
  intros m. apply hoare_pure; intros Hv.
  eapply hoare_bind; [by apply route_mutate_spec| |by intros; apply hoare_throw; [apply _|]].
  intros [d g]. eapply hoare_bind with (M := fun _ => ok); [| |by intros; apply hoare_throw; [apply _|]].
  - destruct (_ || _); [|by apply hoare_ret; [apply _|]].
    eapply hoare_catch; [apply assert_version_spec, _|by intros; apply hoare_ret; [apply _|]|].
    intros e. eapply hoare_bind with (M := fun _ => ok); [| |by intros; apply hoare_throw; [apply _|]].
    + destruct (negb _); [by apply hoare_ret; [apply _|]|].
      case_match; apply mutate_edit_spec; intros P _; [apply release_fn_spec|apply undo_fn_spec].
    + intros ?. by apply hoare_throw; [apply _|].
  - intros ?. destruct d; [by apply hoare_ret; [apply _|]|by apply hoare_throw; [apply _|]].
Qed.
End Updates.
End Protocol.
