(* ===== verification/AppPoolTheorems.v ===== *)
(** * What app pools promise

    Replicas serve requests of one app; the theorems hold for any number of replicas,
    any interleaving of their storage calls and any storage faults: the stored pool
    stays within its limits, and the pool of a deleted notebook stays deleted. *)

From Stdlib Require Import ZArith Lia.
From stdpp Require Import relations.
From S2P Require Import Prelude Constants Schema UtcDate Store Cas Storage CasTheorems SessionData AppPoolRouter AppPoolRouting AppPool AppPoolProtocol.

(** ** Decisions add at most the reservation *)

Lemma observed_ids P v : map m_session_id (members (observeVersion P v)) = map m_session_id (members P).
Proof. simpl. rewrite map_map. apply map_ext. intros m. by destruct (_ && _). Qed.

Lemma update_first_ids p i ms : map m_session_id (update_first p (set_idle i) ms) = map m_session_id ms.
Proof. induction ms as [|m ms IH]; simpl; [done|]. destruct (p m); simpl; congruence. Qed.

Lemma route_ids localeCompare pool policy input P' d :
  routeApp localeCompare pool policy input = Some (P', d) ->
  deleted_at P' = deleted_at pool /\
  forall id, id ∈ ids P' -> id ∈ ids pool \/ id = m_session_id (in_reservation input).
Proof.
  unfold routeApp, ids. intros H.
  assert (Hnext : map m_session_id (members (observeVersion (expireAppPresence pool (in_now input)) (in_versionId input)))
                  = map m_session_id (members pool)) by (rewrite observed_ids; apply expired_member_id).
  assert (Hdel : deleted_at (observeVersion (expireAppPresence pool (in_now input)) (in_versionId input)) = deleted_at pool) by done.
  destruct (observeVersion _ _) as [del latest ms l0]. simpl in Hnext, Hdel. subst del.
  destruct (List.find _ _) as [a|].
  - destruct (List.find _ _) as [m|]; [|done]. injection H as <- _. split; [done|]. intros id Hid.
    cbn [set_members members] in Hid. rewrite update_first_ids, Hnext in Hid. by left.
  - destruct (available _ _ _ _ _) as [|m l].
    + destruct (hasSessionCapacity _ _); injection H as <- _; (split; [done|]); intros id Hid;
        cbn [set_members members] in Hid.
      * rewrite map_app, Hnext in Hid. apply elem_of_app in Hid as [Hid|Hid]; [by left|].
        apply list_elem_of_singleton in Hid as ->. by right.
      * rewrite Hnext in Hid. by left.
    + injection H as <- _. split; [done|]. intros id Hid.
      cbn [set_members members] in Hid. rewrite update_first_ids, Hnext in Hid. by left.
Qed.

Lemma replace_ids policy pool v m n r P' d :
  reserveAppReplacement pool policy v m n r = (P', d) ->
  deleted_at P' = deleted_at pool /\ forall id, id ∈ ids P' -> id ∈ ids pool \/ id = m_session_id m.
Proof.
  unfold reserveAppReplacement, ids. intros H.
  assert (Hnext : map m_session_id (members (observeVersion (expireAppPresence pool n) v))
                  = map m_session_id (members pool)) by (rewrite observed_ids; apply expired_member_id).
  assert (Hdel : deleted_at (observeVersion (expireAppPresence pool n) v) = deleted_at pool) by done.
  destruct (observeVersion _ _) as [del latest ms l0]. simpl in Hnext, Hdel. subst del.
  destruct (List.find _ _) as [a|]; [|destruct (hasSessionCapacity _ _)]; injection H as <- _; (split; [done|]);
    intros id Hid; cbn [set_members members] in Hid; rewrite ?map_app, Hnext in Hid.
  - by left.
  - apply elem_of_app in Hid as [Hid|Hid]; [by left|]. apply list_elem_of_singleton in Hid as ->. by right.
  - by left.
Qed.

(** ** Requests *)
Section Requests.
Context {B V : Type} `{!EqDecision B} {CP : Codec B AppPool} {CSe : Codec B Session} {CSo : Codec B Source}.
Context (pool_faithful : forall P P' : AppPool, parse (stringify P) = Some P' -> P' = P).
Context (pool_not_session : forall P : AppPool, parse (T := Session) (stringify P) = None).
Context (localeCompare : string -> string -> Z) (policy : AppPoolPolicy) (fuel : nat).
Context (projectId : ProjectId) (notebookId : NotebookId).
Context (visits_positive : forall k, maxVisitsPerSession policy = Some k -> (1 <= k)%Z).
Context (sessions_positive : forall k, maxSessionsPerVersion policy = Some k -> (1 <= k)%Z).
Context (old : SessionId -> Prop) (moves : bool).
Implicit Types w : world B V.
Local Notation G := (G (B := B) (V := V) policy projectId notebookId old moves).
Local Notation ok := (ok (B := B) (V := V) policy projectId notebookId old).
Local Notation pool_key := (appPool projectId notebookId).

(** What a replica may be asked; [QWrite] is any other write to the store. *)
Inductive request :=
| QAdmit (userId : UserId) (versionId : VersionId) (startupMs : Z) (visitId : option string)
| QReplace (userId : UserId) (versionId : VersionId) (startupMs : Z) (replaced : SessionId)
| QBindWarm (id : SessionId) (token : string) (sandboxId : SandboxId)
| QComplete (id : SessionId) (token : string)
| QRelease (id : SessionId) (token : string)
| QInvalidate (id : SessionId)
| QHeartbeat (userId : UserId) (id : SessionId) (visit : option AppVisit)
| QLeave (userId : UserId) (id : SessionId) (visit : AppVisit)
| QSynchronize (observed : option (list Session))
| QReconcile (eff : @effects B V)
| QInspect
| QCanAccess (userId : UserId) (id : SessionId) (isLegacy : bool)
| QDelete
| QFreeze (pid : ProjectId) (nid : NotebookId)
| QCancelMove (pid : ProjectId) (nid : NotebookId)
| QFinishMove (source destination : ProjectId) (nid : NotebookId)
| QWrite (k : key) (b : B) (c : condition).

Definition quietly {A} (p : prog B V A) : prog B V unit := p ≫= fun _ => mret tt.

Definition serve (q : request) : prog B V unit :=
  match q with
  | QAdmit u v ms visit => quietly (admitVisit localeCompare policy fuel projectId notebookId u v ms visit)
  | QReplace u v ms r => quietly (replace policy fuel projectId notebookId u v ms r)
  | QBindWarm id token sb => bindWarmSandbox projectId notebookId id token sb
  | QComplete id token => complete policy projectId notebookId id token
  | QRelease id token => releaseReservation projectId notebookId id token
  | QInvalidate id => invalidate projectId notebookId id
  | QHeartbeat u id visit => quietly (heartbeat policy projectId notebookId u id visit)
  | QLeave u id visit => leave policy projectId notebookId u id visit
  | QSynchronize observed => quietly (synchronize fuel projectId notebookId observed)
  | QReconcile eff => quietly (reconcile policy fuel projectId notebookId eff)
  | QInspect => quietly (inspect policy projectId notebookId)
  | QCanAccess u id l => quietly (canAccess projectId notebookId u id l)
  | QDelete => retireForDeletion projectId notebookId
  | QFreeze pid nid => freezeForMove pid nid
  | QCancelMove pid nid => cancelNotebookMove pid nid
  | QFinishMove source destination nid => finishNotebookMove source destination nid
  | QWrite k b c => quietly (call (OPut k b c))
  end.

(** Sessions outside pools are earlier ones, teardown keeps to the protocol, and pools
    are written by nothing else. *)
Definition request_ok (q : request) : Prop :=
  match q with
  | QSynchronize (Some l) => known_sessions old l
  | QReconcile eff => forall t m s, hoare G t ok (probe eff m) (fun _ => ok) /\ hoare G t ok (retire eff m s) (fun _ => ok)
  | QFreeze _ _ | QCancelMove _ _ | QFinishMove _ _ _ => moves = true
  | QWrite k b _ => k <> pool_key /\ forall s, parse (T := Session) b = Some s -> adoptable s -> old (ses_session_id s)
  | _ => True
  end.

Lemma route_sound u v visit g :
  sound_decision policy v (fun pool m now => routeApp localeCompare pool policy
    {| in_userId := u; in_visitId := visit; in_versionId := v; in_generation := g; in_reservation := m; in_now := now |}).
Proof.
  intros P m n P' d Hv Hid Hl Hr.
  match type of Hr with routeApp _ _ _ ?input = _ => pose proof (route_limits localeCompare policy input P P' d) as Hlim end.
  split; [by apply Hlim|exact (route_ids _ _ _ _ _ _ Hr)].
Qed.

Lemma replace_sound v r :
  sound_decision policy v (fun pool m now => Some (reserveAppReplacement pool policy v m now r)).
Proof.
  intros P m n P' d Hv Hid Hl [= Hr]. split; [by eapply replace_limits|by eapply replace_ids].
Qed.

Lemma quietly_spec t {A} (p : prog B V A) : hoare G t ok p (fun _ => ok) -> hoare G t ok (quietly p) (fun _ => ok).
Proof.
  intros H. eapply hoare_bind; [exact H|by intros; apply hoare_ret; [apply _|]|by intros; apply hoare_throw; [apply _|]].
Qed.

(** *** Reconciliation and reads *)

Lemma pool_read_spec t : hoare G t ok (read projectId notebookId) (fun _ => ok).
Proof.
  unfold read. eapply hoare_bind; [by apply (hoare_get G t _ ok (fun _ => ok))| |].
  - intros [o|]; [|by apply hoare_ret; [apply _|]]. unfold readStored. destruct (parse (o_body o)) as [P|].
    + eapply hoare_bind with (M := fun _ => ok); [by apply hoare_ret; [apply _|]| |by intros; apply hoare_throw; [apply _|]].
      intros ?. by apply hoare_ret; [apply _|].
    + eapply hoare_bind with (M := fun _ => ok); [by apply hoare_throw; [apply _|]| |by intros; apply hoare_throw; [apply _|]].
      intros ?. by apply hoare_ret; [apply _|].
  - intros e. apply hoare_throw; [apply _|]. by intros w [? _].
Qed.

Lemma view_spec t : hoare G t ok (view projectId notebookId) (fun _ => ok).
Proof.
  unfold view. eapply hoare_bind; [apply pool_read_spec| |by intros; apply hoare_throw; [apply _|]].
  intros [P|]; [|by apply hoare_ret; [apply _|]]. apply hoare_now_bind; [apply _|]. intros n. by apply hoare_ret; [apply _|].
Qed.

Lemma edit_spec t {T} (update : AppPool -> prog B V (AppPool * T)) :
  (forall P, hoare G t (working policy projectId notebookId old t P P) (update P) (result_ok policy projectId notebookId old t P)) ->
  hoare G t ok (mutate projectId notebookId update) (fun _ => ok).
Proof. intros H. apply mutate_edit_spec; auto. Qed.

Lemma decide_retirement_spec t snapshot m eff :
  (forall m, hoare G t ok (probe eff m) (fun _ => ok)) ->
  hoare G t ok (decide_retirement policy projectId notebookId snapshot m eff) (fun _ => ok).
Proof.
  intros Hp. unfold decide_retirement. apply hoare_now_bind; [apply _|]. intros n.
  destruct (_ === Retain); [by apply hoare_ret; [apply _|]|].
  eapply hoare_bind with (M := fun _ => ok); [| |by intros; apply hoare_throw; [apply _|]].
  - destruct (_ === Probe); [|by apply hoare_ret; [apply _|]].
    eapply hoare_bind; [apply Hp| |by intros; apply hoare_throw; [apply _|]]. intros ?. by apply hoare_ret; [apply _|].
  - intros []; [|by apply hoare_ret; [apply _|]]. apply edit_spec. intros P. by apply retire_fn_spec.
Qed.

Lemma retire_session_spec t m eff :
  (forall m s, hoare G t ok (retire eff m s) (fun _ => ok)) ->
  hoare G t ok (retire_session projectId notebookId m eff) (fun _ => ok).
Proof.
  intros Hr. unfold retire_session. eapply hoare_bind with (M := fun _ => ok); [| |by intros; apply hoare_throw; [apply _|]].
  - eapply hoare_post; [|by apply (find_session_spec policy projectId notebookId old moves t (m_session_id m) ok)].
    by intros r w [? _].
  - intros s. eapply hoare_bind; [apply Hr| |by intros; apply hoare_throw; [apply _|]].
    intros []; [|by apply hoare_ret; [apply _|]]. apply edit_spec. intros P. by apply drop_fn_spec.
Qed.

Lemma reconcile_spec t eff :
  (forall m s, hoare G t ok (probe eff m) (fun _ => ok) /\ hoare G t ok (retire eff m s) (fun _ => ok)) ->
  hoare G t ok (reconcile policy fuel projectId notebookId eff) (fun _ => ok).
Proof.
  intros Heff. assert (Hp : forall m, hoare G t ok (probe eff m) (fun _ => ok)) by (intros m; apply (Heff m None)).
  unfold reconcile. eapply hoare_bind; [by apply synchronize_spec| |by intros; apply hoare_throw; [apply _|]].
  intros snapshot. eapply hoare_bind with (M := fun _ => ok); [| |by intros; apply hoare_throw; [apply _|]].
  - cbv beta. generalize false as changed. induction (members snapshot) as [|m ms IH]; intros changed; cbn [reconcile_loop].
    { by apply hoare_ret; [apply _|]. }
    eapply hoare_handle; [by apply decide_retirement_spec|]. intros [[]|]; [|by apply IH|by apply IH].
    eapply hoare_handle; [apply retire_session_spec; intros m' s; apply (Heff m' s)|]. intros ?. by apply IH.
  - intros changed. eapply hoare_bind with (M := fun _ => ok); [| |by intros; apply hoare_throw; [apply _|]].
    + destruct changed; [apply pool_read_spec|by apply hoare_ret; [apply _|]].
    + intros ?. by apply hoare_ret; [apply _|].
Qed.

(** *** Moves *)

Lemma put_elsewhere t k b c :
  k <> pool_key -> (forall s, parse (T := Session) b = Some s -> adoptable s -> old (ses_session_id s)) ->
  hoare G t ok (call (OPut k b c)) (fun _ => ok).
Proof.
  intros Hk Hs. eapply hoare_post; [|apply (hoare_put G t k b c ok (fun _ => ok))].
  - intros [i|[]] w Hw; simpl in Hw; try done. by destruct Hw as [?|[_ ?]].
  - intros w e Hok _ He. by apply write_elsewhere.
Qed.

Lemma cas_elsewhere t k (P : AppPool) c : k <> pool_key -> hoare G t ok (cas_put k (stringify P) c) (fun _ => ok).
Proof.
  intros Hk. eapply hoare_cas_put; [apply put_elsewhere; [done|]|apply _|done|done].
  intros s. by rewrite pool_not_session.
Qed.

Lemma emptied_writable t P d w :
  moves = true -> writable policy old moves t P {| deleted_at := d; latest_version_id := None; members := []; assignments := [] |} w.
Proof.
  intros Hm. split; [|split; [|split]].
  - apply (limits_deleted policy _ emptyAppPool d), limits_empty. intros k Hk. specialize (sessions_positive k Hk). lia.
  - intros _. split; [done|]. intros m H. by apply not_elem_of_nil in H.
  - intros id H. by apply not_elem_of_nil in H.
  - by rewrite Hm.
Qed.

Lemma reopened_writable t P w :
  moves = true -> limits policy (clock w) P ->
  writable policy old moves t P {| deleted_at := None; latest_version_id := latest_version_id P;
    members := members P; assignments := assignments P |} w.
Proof.
  intros Hm Hl. split; [by apply limits_deleted|]. split; [done|]. split; [by left|by rewrite Hm].
Qed.

Definition computes t (compute : AppPool -> prog B V (option AppPool)) : Prop :=
  forall P Q, Stable G t Q -> hoare G t Q (compute P)
    (fun r w => Q w /\ match r with
                       | Ok (Some P') => limits policy (clock w) P -> writable policy old moves t P P' w
                       | _ => True end).

Local Notation seen := (seen (B := B) (V := V) policy projectId notebookId old).

Lemma rewrite_here_spec t o compute :
  computes t compute ->
  hoare G t (seen (fun _ => True) (fun _ => True) o) (rewrite_pool projectId notebookId o compute) (fun _ => ok).
Proof.
  intros Hc. unfold rewrite_pool. eapply hoare_bind; [apply pool_of_spec, _| |].
  2: { intros e. apply hoare_throw; [apply _|]. by intros w [(_ & ? & _) _]. }
  intros P. apply hoare_pre with (P := fun w => pool_read o P /\
    ((ok w /\ match o with Some o => logged pool_key o w | None => True end) /\ limits policy (clock w) P)).
  { intros w [(_ & Hok & Ho & HP) HPr]. destruct (HP P HPr) as (? & _). done. }
  apply hoare_pure; intros HP.
  assert (Hst : Stable G t (fun w => match o with Some o => logged pool_key o w | None => True end)) by (destruct o; apply _).
  eapply hoare_bind; [apply Hc, _| |].
  2: { intros e. apply hoare_throw; [apply _|]. by intros w [[[? _] _] _]. }
  intros [P'|]; [|apply hoare_ret; [apply _|]; by intros w [[[? _] _] _]].
  eapply hoare_bind; [eapply hoare_pre; [|by apply (cas_put_pool pool_faithful pool_not_session policy projectId notebookId old moves t (fun _ => True) o P P')]| |].
  - intros w [[[? ?] ?] Hw]. repeat (split; [by auto|]). done.
  - intros i. apply hoare_ret; [apply _|]. by intros w [? _].
  - intros e. apply hoare_throw; [apply _|]. by intros w [? _].
Qed.

Lemma rewrite_elsewhere_spec t pid nid o compute :
  appPool pid nid <> pool_key -> computes t compute ->
  hoare G t ok (rewrite_pool pid nid o compute) (fun _ => ok).
Proof.
  intros Hk Hc. unfold rewrite_pool.
  eapply hoare_bind with (M := fun _ => ok); [| |by intros; apply hoare_throw; [apply _|]].
  - unfold pool_of, readStored. destruct o as [o|]; [destruct (parse (o_body o))|];
      [by apply hoare_ret; [apply _|]|by apply hoare_throw; [apply _|]|by apply hoare_ret; [apply _|]].
  - intros P. eapply hoare_bind with (M := fun _ => ok); [eapply hoare_post; [|apply Hc, _]; by intros r w [? _]| |by intros; apply hoare_throw; [apply _|]].
    intros [P'|]; [|by apply hoare_ret; [apply _|]].
    eapply hoare_bind; [by apply cas_elsewhere| |by intros; apply hoare_throw; [apply _|]].
    intros ?. by apply hoare_ret; [apply _|].
Qed.

(** A rewrite of any notebook's pool, this one's or another's. *)
Lemma move_spec t pid nid compute (f : option (object B) -> prog B V unit) :
  computes t compute -> (forall o, f o = mret tt \/ f o = rewrite_pool pid nid o compute) ->
  hoare G t ok (withCasRetry (object ← call (OGet (appPool pid nid)); f object) no_retry_options) (fun _ => ok).
Proof.
  intros Hc Hf. apply hoare_withCasRetry; [apply _|apply _| |done|apply _].
  eapply hoare_post with (Q := fun _ => ok); [by intros [a|[]] w|].
  destruct (decide (appPool pid nid = pool_key)) as [Hk|Hk].
  - assert (Hhere : forall o, hoare G t (seen (fun _ => True) (fun _ => True) o) (rewrite_pool pid nid o compute) (fun _ => ok)).
    { intros o. unfold rewrite_pool. rewrite Hk. by apply rewrite_here_spec. }
    rewrite Hk. eapply hoare_bind.
    + eapply hoare_pre; [|by apply (get_pool_spec policy projectId notebookId old moves t (fun _ => True) (fun _ => True))].
      by intros w ?.
    + intros o. destruct (Hf o) as [-> | ->]; [|apply Hhere].
      apply hoare_ret; [apply _|]. by intros w (_ & ? & _).
    + intros e. apply hoare_throw; [apply _|]. by intros w [[? _] _].
  - eapply hoare_bind; [by apply (hoare_get G t _ ok (fun _ => ok))| |].
    + intros o. destruct (Hf o) as [-> | ->]; [by apply hoare_ret; [apply _|]|by apply rewrite_elsewhere_spec].
    + intros e. apply hoare_throw; [apply _|]. by intros w [? _].
Qed.

Lemma freeze_computes t : moves = true -> computes t freeze_fn.
Proof.
  intros Hm P Q HQ. unfold freeze_fn. destruct (negb _); [by apply hoare_throw|].
  assert (Hd : forall d, hoare G t Q (mret (Some (tombstone d))) (fun r w => Q w /\ match r with
    | Ok (Some P') => limits policy (clock w) P -> writable policy old moves t P P' w | _ => True end)).
  { intros d. apply hoare_ret; [done|]. intros w ?. split; [done|]. intros _. by apply emptied_writable. }
  eapply hoare_bind with (M := fun r w => Q w /\ match r with Ok _ => True | Err _ => False end).
  - destruct (deleted_at P); [by apply hoare_ret|].
    eapply hoare_post; [|by apply (hoare_now G t Q (fun _ => True))]. by intros r w (n & -> & _ & _ & ?).
  - intros d. eapply hoare_pre; [|apply Hd]. by intros w [? _].
  - by intros e w [_ ?].
Qed.

Lemma reopen_computes t : moves = true -> computes t reopen_fn.
Proof.
  intros Hm P Q HQ. apply hoare_ret; [done|]. intros w ?. split; [done|]. intros ?. by apply reopened_writable.
Qed.

Lemma finish_computes t source destination pid : moves = true -> computes t (finish_fn source destination pid).
Proof.
  intros Hm P Q HQ. unfold finish_fn. destruct (_ && _); [by apply hoare_ret|].
  case_bool_decide; [apply hoare_now_bind; [done|]; intros n|]; (apply hoare_ret; [done|]); intros w ?;
    (split; [done|]); intros _; by apply emptied_writable.
Qed.

Lemma finish_spec t source destination nid pid :
  moves = true -> hoare G t ok (finish_one source destination nid pid) (fun _ => ok).
Proof.
  intros Hm. eapply move_spec; [by apply (finish_computes t source destination pid)|].
  intros [o|]; [by right|by left].
Qed.

Lemma serve_pool_spec t q : request_ok q -> hoare G t ok (serve q) (fun _ => ok).
Proof.
  intros Hq. destruct q; simpl in *;
    try apply quietly_spec; try (by apply edit_spec; intros P; auto using release_fn_spec, invalidate_fn_spec, heartbeat_fn_spec, leave_fn_spec).
  - unfold admitVisit. apply hoare_pre with (P := fun w => ok w /\ True); [by intros w ?|].
    apply uuid_bind; [apply _|]. intros g. eapply hoare_pre; [|apply route_spec; try done; apply route_sound].
    by intros w [? _].
  - apply route_spec; try done. apply replace_sound.
  - unfold bindWarmSandbox. eapply hoare_bind; [apply edit_spec; intros P; by apply bind_warm_spec| |by intros; apply hoare_throw; [apply _|]].
    intros []; [by apply hoare_ret; [apply _|]|by apply hoare_throw; [apply _|]].
  - unfold complete. eapply hoare_bind; [apply edit_spec; intros P; by apply complete_fn_spec| |by intros; apply hoare_throw; [apply _|]].
    intros []; [by apply hoare_ret; [apply _|]|by apply hoare_throw; [apply _|]].
  - by apply synchronize_spec; try done; destruct observed.
  - apply reconcile_spec. intros m s. apply Hq.
  - unfold inspect. eapply hoare_bind; [apply view_spec|by intros; apply hoare_ret; [apply _|]|by intros; apply hoare_throw; [apply _|]].
  - unfold canAccess. eapply hoare_bind; [apply view_spec|by intros; apply hoare_ret; [apply _|]|by intros; apply hoare_throw; [apply _|]].
  - by apply retire_for_deletion_spec.
  - by eapply move_spec; [apply freeze_computes|right].
  - eapply move_spec; [by apply reopen_computes|]. intros [o|]; [by right|by left].
  - unfold finishNotebookMove. eapply hoare_bind; [by apply finish_spec| |by intros; apply hoare_throw; [apply _|]].
    intros ?. by apply finish_spec.
  - apply put_elsewhere; apply Hq.
Qed.

(** A replica answers its requests one after the other, failed or not. *)
Fixpoint session (qs : list request) : prog B V unit :=
  match qs with
  | [] => mret tt
  | q :: qs' => handle (serve q) (fun _ => session qs')
  end.

Context (replicas : list (list request)).
Context (requests_ok : forall qs q, qs ∈ replicas -> q ∈ qs -> request_ok q).

Definition start w0 : config B V unit := Config (map session replicas) w0.

Lemma replica_spec t qs : (forall q, q ∈ qs -> request_ok q) -> hoare G t ok (session qs) (fun _ => ok).
Proof.
  induction qs as [|q qs IH]; intros Hq; simpl; [by apply hoare_ret; [apply _|]|].
  eapply hoare_handle; [apply serve_pool_spec, Hq; by left|]. intros ?. apply IH. intros q' Hq'. apply Hq. by right.
Qed.

Lemma replicas_verified w0 : ok w0 -> verified G (fun _ _ => ok) (start w0).
Proof.
  intros Hok t p Ht. simpl in Ht. rewrite list_lookup_fmap in Ht.
  destruct (replicas !! t) as [qs|] eqn:E; [|done]. injection Ht as <-.
  apply replica_spec; [|done]. intros q Hq. apply (requests_ok qs q); [by eapply list_elem_of_lookup_2|done].
Qed.

Lemma replicas_ok w0 c : ok w0 -> rtc pool_step (start w0) c -> ok (wd c).
Proof.
  intros Hok Hr. eapply (pool_invariant G (fun _ _ => ok) ok); [| |by apply replicas_verified|done|exact Hr].
  - intros t w w' [Hg HG] [? ?]. split; [by apply (grows_wf _ _ Hg)|by apply HG].
  - intros w ms Hms [? ?]. split; [by apply (grows_wf _ _ (grows_tick _ _ Hms))|by apply pool_inv_tick].
Qed.

(** C21: an app pool stays within its limits, whatever any number of replicas do to it at
    once: in every reachable state the stored pool has one record per session, no
    session (other than one that predates pools) has more visits than allowed, no
    version has more than one session over the limit, and nobody is assigned to a pool
    whose notebook is deleted. *)
Theorem app_pool_within_limits w0 c P :
  ok w0 -> rtc pool_step (start w0) c -> stored projectId notebookId (wd c) = Some P ->
  limits policy (clock (wd c)) P /\ buried P.
Proof.
  intros Hok Hr HP. destruct (replicas_ok w0 c Hok Hr) as [_ HI].
  split; [by apply (inv_limits _ _ _ _ _ HI)|by apply (inv_buried _ _ _ _ _ HI)].
Qed.

Lemma deletion_step c1 c2 w0 d :
  moves = false -> ok w0 -> rtc pool_step (start w0) c1 -> pool_step c1 c2 ->
  (forall P, stored projectId notebookId (wd c1) = Some P -> deleted_at P = Some d) ->
  forall P, stored projectId notebookId (wd c2) = Some P -> deleted_at P = Some d.
Proof.
  intros Hm Hok Hr Hs Hd P HP. destruct (replicas_ok w0 c1 Hok Hr) as [Hw HI].
  destruct (pool_guarantee G _ _ _ _ (replicas_verified w0 Hok) Hr Hs) as [(t & [_ HG] & _)|(ms & _ & Hms)].
  - destruct (HG Hw HI) as [_ [Heq|(P0 & HP0 & Hf)]]; [by apply Hd; rewrite <- Heq|].
    by apply (follows_deleted _ _ _ _ _ _ (Hf P HP)), Hd.
  - apply Hd. by rewrite Hms in HP.
Qed.

(** C22: the deletion of an app is final: once its pool carries a deletion time no
    request of any replica, however delayed or raced, removes or changes that time,
    assigns a visit or revives a session; only moving the notebook may. *)
Theorem app_pool_deletion_final w0 c1 c2 P P' d :
  moves = false -> ok w0 -> rtc pool_step (start w0) c1 -> rtc pool_step c1 c2 ->
  stored projectId notebookId (wd c1) = Some P -> deleted_at P = Some d ->
  stored projectId notebookId (wd c2) = Some P' ->
  deleted_at P' = Some d /\ assignments P' = [] /\ forall m, m ∈ members P' -> m_state m = MRetiring.
Proof.
  intros Hm Hok Hr1 Hr2 HP Hd HP'.
  assert (Hd' : deleted_at P' = Some d).
  { revert HP'. assert (Hall : forall Q, stored projectId notebookId (wd c1) = Some Q -> deleted_at Q = Some d) by (intros Q HQ; congruence).
    clear HP Hd P. revert P' Hall. induction Hr2 as [c|c c' c2 Hs Hr2 IH]; intros P' Hall HP'; [by apply Hall|].
    apply IH; [by eapply rtc_r| |done]. by apply (deletion_step c c' w0 d). }
  split; [done|]. destruct (replicas_ok w0 c2 Hok) as [_ HI]; [by etrans|].
  apply (inv_buried _ _ _ _ _ HI P' HP'). by rewrite Hd'.
Qed.
End Requests.

(** ** A sample run *)
Module AppPoolSample.
Inductive doc := DPool (P : AppPool) | DSession (s : Session) | DSource (s : Source).

#[export] Instance GitSourceConfig_eq_dec : EqDecision GitSourceConfig.
Proof. solve_decision. Defined.
#[export] Instance sync_mode_eq_dec : EqDecision sync_mode.
Proof. solve_decision. Defined.
#[export] Instance Source_eq_dec : EqDecision Source.
Proof. solve_decision. Defined.
#[export] Instance doc_eq_dec : EqDecision doc.
Proof. solve_decision. Defined.

#[export] Instance pool_codec : Codec doc AppPool.
Proof.
  by refine {| valid _ := True; stringify := DPool; parse b := match b with DPool P => Some P | _ => None end |}.
Defined.
#[export] Instance session_codec : Codec doc Session.
Proof.
  by refine {| valid _ := True; stringify := DSession; parse b := match b with DSession s => Some s | _ => None end |}.
Defined.
#[export] Instance source_codec : Codec doc Source.
Proof.
  by refine {| valid _ := True; stringify := DSource; parse b := match b with DSource s => Some s | _ => None end |}.
Defined.

Definition policy : AppPoolPolicy := {|
  maxVisitsPerSession := Some 1%Z; maxSessionsPerVersion := Some 1%Z;
  userLeaseMs := APP_USER_LEASE_MS; reconnectGraceMs := APP_RECONNECT_GRACE_MS; idleMs := 1800000 |}.
Definition head_version : Source := LocalSource 1 None "v1".
Definition no_old (_ : SessionId) : Prop := False.

Definition w0 : world doc unit :=
  write 3 empty_world (source_key "p" "n") {| o_body := DSource head_version; o_etag := mem_etag 0; o_uploaded := 0 |}.

Definition requests : list (list (@request doc unit)) :=
  [[QAdmit "alice" "v1" 60000 (Some "tab")]; [QDelete]; [QAdmit "bob" "v1" 60000 None]].
Definition replica (qs : list (@request doc unit)) : prog doc unit unit :=
  session (fun _ _ => 0%Z) policy 10 "p" "n" qs.
Definition pool_in (w : world doc unit) : AppPool := stored "p" "n" w ?? emptyAppPool.

Definition w1 := snd (run 0 (replica [QAdmit "alice" "v1" 60000 (Some "tab")]) w0).
Definition w2 := snd (run 1 (replica [QDelete]) w1).
Definition w3 := snd (run 2 (replica [QAdmit "bob" "v1" 60000 None]) w2).

Lemma pool_faithful (P P' : AppPool) : parse (B := doc) (stringify P) = Some P' -> P' = P.
Proof. simpl. congruence. Qed.
Lemma pool_not_session (P : AppPool) : parse (B := doc) (T := Session) (stringify P) = None.
Proof. done. Qed.

Lemma pool_start_ok : ok policy "p" "n" no_old w0.
Proof.
  split.
  - apply wf_write; [exact wf_empty|]. split; [done|]. intros t o H. by apply not_elem_of_nil in H.
  - assert (Hs : stored "p" "n" w0 = Some emptyAppPool) by reflexivity.
    split; rewrite ?Hs; try done.
    + intros P [= <-]. apply limits_empty. intros k [= <-]. lia.
    + intros P [= <-]. by intros [].
    + intros P id [= <-] H. by apply not_elem_of_nil in H.
    + intros k o s. unfold w0, write; simpl. destruct (decide (source_key "p" "n" = k)) as [<-|Hne].
      * rewrite lookup_insert_eq. by intros [= <-].
      * by rewrite lookup_insert_ne, lookup_empty by done.
Qed.

Lemma sample_requests_ok qs q : qs ∈ requests -> q ∈ qs -> request_ok policy "p" "n" no_old false q.
Proof.
  intros Hqs Hq. unfold requests in Hqs. rewrite !elem_of_cons in Hqs.
  destruct Hqs as [-> | [-> | [-> | H]]]; [| | |by apply not_elem_of_nil in H];
    by apply list_elem_of_singleton in Hq as ->.
Qed.

Definition replicas_at (ts : list (prog doc unit unit)) (w : world doc unit) := Config ts w.
Definition finished : prog doc unit unit := Ret tt.
Definition third := replica [QAdmit "bob" "v1" 60000 None].
Definition after_delete := replicas_at [finished; finished; third] w2.
Definition after_all := replicas_at [finished; finished; finished] w3.

Lemma sample_runs :
  rtc pool_step (start (fun _ _ => 0%Z) policy 10 "p" "n" requests w0) after_delete /\ rtc pool_step after_delete after_all.
Proof.
  assert (Hm : mem_wf w0).
  { intros t k o H. apply list_elem_of_singleton in H. simplify_eq. exists 0. split; [simpl; lia|done]. }
  destruct (run_reaches 0 (replica [QAdmit "alice" "v1" 60000 (Some "tab")])
    (map replica requests) w0 (Ok tt) w1) as [H1 Hm1]; [done|vm_compute; reflexivity|done|vm_compute; reflexivity|].
  destruct (run_reaches 1 (replica [QDelete]) [finished; replica [QDelete]; third] w1 (Ok tt) w2)
    as [H2 Hm2]; [done|vm_compute; reflexivity|done|vm_compute; reflexivity|].
  destruct (run_reaches 2 third [finished; finished; third] w2 (Ok tt) w3)
    as [H3 _]; [done|vm_compute; reflexivity|done|vm_compute; reflexivity|].
  split; [etrans; [exact H1|exact H2]|exact H3].
Qed.

Example app_pool_within_limits_witness :
  limits policy (clock w2) (pool_in w2) /\ buried (pool_in w2).
Proof.
  apply (app_pool_within_limits pool_faithful pool_not_session (fun _ _ => 0%Z) policy 10 "p" "n"
    ltac:(intros k [= <-]; lia) ltac:(intros k [= <-]; lia) no_old false requests sample_requests_ok w0 after_delete (pool_in w2)).
  - exact pool_start_ok.
  - exact (proj1 sample_runs).
  - vm_compute. reflexivity.
Defined.

Example app_pool_deletion_final_witness :
  deleted_at (pool_in w3) = Some 0%Z /\ assignments (pool_in w3) = [] /\
  forall m, m ∈ members (pool_in w3) -> m_state m = MRetiring.
Proof.
  apply (app_pool_deletion_final pool_faithful pool_not_session (fun _ _ => 0%Z) policy 10 "p" "n"
    ltac:(intros k [= <-]; lia) ltac:(intros k [= <-]; lia) no_old false requests sample_requests_ok w0
    after_delete after_all (pool_in w2) (pool_in w3) 0%Z).
  - reflexivity.
  - exact pool_start_ok.
  - exact (proj1 sample_runs).
  - exact (proj2 sample_runs).
  - vm_compute. reflexivity.
  - vm_compute. reflexivity.
  - vm_compute. reflexivity.
Defined.

(** A session idle since time 0, its only visit long expired. *)
Definition idle_member : AppPoolMember := {|
  m_session_id := "s"; m_sandbox_id := "sb"; m_owner := "alice"; m_source_version_id := Some "v1"; m_state := MReady;
  m_created_at := 0; m_operation_token := "t"; m_operation_expires_at := 0; m_idle_since := Some 0%Z; m_legacy := None;
  m_replaces_session_id := None |}.
Definition idle_pool : AppPool := {|
  deleted_at := None; latest_version_id := Some "v1"; members := [idle_member];
  assignments := [{| a_visit_id := Some "tab"; a_user_id := "alice"; a_session_id := "s"; a_generation := "g";
                     a_visits := [{| v_visit_id := "tab"; v_expires_at := 5 |}]; a_grace_until := None |}] |}.

Example retirement_spares_visitors_witness :
  routeAppRetirement (expireAppPresence idle_pool 2000000) idle_member policy 2000000 = Probe /\
  exists i, m_idle_since idle_member = Some i /\ (i + idleMs policy <= 2000000)%Z.
Proof.
  split; [vm_compute; reflexivity|].
  pose proof (retirement_spares_visitors idle_pool policy 2000000 idle_member) as H.
  assert (Hin : idle_member ∈ members (expireAppPresence idle_pool 2000000)) by (vm_compute; left).
  specialize (H Hin).
  assert (Hr : routeAppRetirement (expireAppPresence idle_pool 2000000) idle_member policy 2000000 = Probe) by (vm_compute; reflexivity).
  rewrite Hr in H. exact (proj1 (proj2 H)).
Defined.
End AppPoolSample.
