(* ===== verification/Cron.v ===== *)
(** * Cron schedules and occurrences

    [packages/core/src/services/jobs/cron.ts].  The cron engine is the package [croner]
    and the time zone database that of the runtime: both are parameters, with what their
    documentation promises in the class [CronEngine].  The expression syntax check, the
    catch-up search and the occurrence keys are the code's own. *)

From Stdlib Require Import Ascii ZArith Lia.
From S2P Require Import Prelude UtcDate.
Local Open Scope Z_scope.

(** ** Expressions *)

(** [l.split(/\s+/)]; [gap] when the previous character was a separator. *)
Fixpoint split_spaces (gap : bool) (word : list ascii) (l : list ascii) : list (list ascii) :=
  match l with
  | [] => [rev word]
  | c :: l' =>
      if is_space c then (if gap then split_spaces true [] l' else rev word :: split_spaces true [] l')
      else split_spaces false (c :: word) l'
  end.

Fixpoint join_spaces (ws : list (list ascii)) : list ascii :=
  match ws with
  | [] => []
  | [w] => w
  | w :: ws' => (w ++ " "%char :: join_spaces ws')%list
  end.

(** What [new Cron(expression, { timezone: 'UTC' })] does: it returns, or throws an
    [Error] with a message, or throws something else. *)
Inductive cron_construction := Constructed | CronError (message : string) | CronThrown.

(** [CronSchedule] *)
Record CronSchedule := { expression : string }.

Definition cron_fields (e : string) : list (list ascii) :=
  split_spaces false [] (String.list_ascii_of_string (trim e)).

Section Parse.
Context (new_Cron : string -> cron_construction) (strip_prefix : string -> string) (show : nat -> string).

(** The [ValidationError] carries its message. *)
Definition invalid (e detail : string) : string :=
  "Invalid cron expression " +:+ String "034" e +:+ String "034" ": " +:+ detail.

(** [parseCron] *)
Definition parseCron (e : string) : result string CronSchedule :=
  let fields := cron_fields e in
  if negb (length fields === 5%nat) then
    Err (invalid e ("expected 5 fields (minute hour day-of-month month day-of-week), got " +:+ show (length fields)))
  else
    let normalized := String.string_of_list_ascii (join_spaces fields) in
    match new_Cron normalized with
    | Constructed => Ok {| expression := normalized |}
    | CronError message => Err (invalid e (strip_prefix message))
    | CronThrown => Err (invalid e "unparseable")
    end.

(** [isValidCron] *)
Definition isValidCron (e : string) : bool := is_ok (parseCron e).

(** [isValidTimeZone]; [known] is whether [Intl.DateTimeFormat] accepts the zone. *)
Definition isValidTimeZone (known : string -> bool) (timeZone : string) : bool :=
  if negb (trim timeZone === timeZone) || (timeZone === "") then false else known timeZone.
End Parse.

(** ** Occurrences *)

(** The promise of a constructed [Cron]: [nextRun d] is the first instant of the schedule
    strictly after [d], or [null] when there is none; instants of a five-field schedule
    are whole minutes. *)
Class CronEngine (fires : Z -> Prop) (nextRun : Z -> option Z) : Prop := {
  next_some d n : nextRun d = Some n -> fires n /\ d < n /\ forall m, fires m -> d < m -> n <= m;
  next_none d m : nextRun d = None -> fires m -> m <= d;
  fires_minute n : fires n -> n mod 60000 = 0;
}.

Section Search.
Context (nextRun : Z -> option Z).

(** The loop of [previousOccurrence]; [None] when the fuel runs out. *)
Fixpoint previous_loop (fuel : nat) (atMs cursor : Z) (latest : option Z) : option (option Z) :=
  match fuel with
  | O => None
  | S fuel' =>
      match nextRun cursor with
      | None => Some latest
      | Some next => if next >? atMs then Some latest else previous_loop fuel' atMs next (Some next)
      end
  end.

Definition previousOccurrence (fuel : nat) (atMs windowMs : Z) : option (option Z) :=
  previous_loop fuel atMs (atMs - windowMs - 1) None.

Definition nextOccurrence (afterMs : Z) : option Z := nextRun afterMs.
End Search.

(** ** Occurrence keys *)

Definition not_separator (c : ascii) : bool := negb (Ascii.eqb c "-" || Ascii.eqb c ":").

(** [occurrenceKey] *)
Definition occurrenceKey (instantMs : Z) : string :=
  String.string_of_list_ascii
    (List.filter not_separator (firstn 16 (String.list_ascii_of_string (toISOString instantMs))) ++ ["Z"%char]).

(** [Date.UTC(y, mo - 1, d, h, mi)] for non-negative arguments: months past December and
    days past the end of the month carry over, and the years 0 to 99 are 1900 to 1999. *)
Definition Date_UTC (y mo d h mi : Z) : Z :=
  let y := if y <=? 99 then 1900 + y else y in
  let days := days_from_civil (y + (mo - 1) / 12) ((mo - 1) mod 12 + 1) 1 + (d - 1) in
  ((days * 24 + h) * 60 + mi) * 60000.

(** [/^(\d{4})(\d{2})(\d{2})T(\d{2})(\d{2})Z$/] *)
Definition key_fields (key : string) : option (Z * Z * Z * Z * Z) :=
  '(y, l) ← take_digits 4 0 (String.list_ascii_of_string key);
  '(mo, l) ← take_digits 2 0 l; '(d, l) ← take_digits 2 0 l; l ← expect "T" l;
  '(h, l) ← take_digits 2 0 l; '(mi, l) ← take_digits 2 0 l;
  match l with ["Z"%char] => Some (y, mo, d, h, mi) | _ => None end.

(** [occurrenceKeyToInstant] *)
Definition occurrenceKeyToInstant (key : string) : option Z :=
  '(y, mo, d, h, mi) ← key_fields key;
  let instant := Date_UTC y mo d h mi in
  if occurrenceKey instant === key then Some instant else None.

Example key_sample : occurrenceKey 1788328859999 = "20260902T0600Z".
Proof. reflexivity. Qed.
Example key_overflow : occurrenceKeyToInstant "20260231T0600Z" = None.
Proof. reflexivity. Qed.
Example key_back : occurrenceKeyToInstant "20260902T0600Z" = Some 1788328800000.
Proof. reflexivity. Qed.
Example split_sample :
  map String.string_of_list_ascii (cron_fields (" 0  6 * * 1" +:+ String "009" "")) = ["0"; "6"; "*"; "*"; "1"].
Proof. reflexivity. Qed.

(** ** The catch-up search finds the latest due occurrence *)

Section SearchTheorems.
Context (fires : Z -> Prop) (nextRun : Z -> option Z) `{!CronEngine fires nextRun}.

(** The latest instant of the schedule in [(lo, hi]]. *)
Definition latest_in (lo hi : Z) (r : option Z) : Prop :=
  match r with
  | Some n => fires n /\ lo < n <= hi /\ forall m, fires m -> m <= hi -> m <= n
  | None => forall m, fires m -> m <= hi -> m <= lo
  end.

(** Each round moves the cursor to a later whole minute, so the minutes bound the fuel. *)
Lemma previous_loop_spec fuel hi cursor latest :
  Z.max 0 (hi / 60000 - cursor / 60000) < Z.of_nat fuel ->
  exists r, latest_in cursor hi r /\
    previous_loop nextRun fuel hi cursor latest = Some (match r with Some n => Some n | None => latest end).
Proof.
  revert cursor latest. induction fuel as [|fuel IH]; intros cursor latest Hf; [lia|]. cbn [previous_loop].
  destruct (nextRun cursor) as [n|] eqn:E.
  2: { exists None. split; [|done]. intros m Hm _. by eapply next_none. }
  destruct (next_some cursor n E) as (Hn & Hlt & Hmin). destruct (Z.gtb_spec n hi) as [Hgt|Hle].
  { exists None. split; [|done]. intros m Hm Hmh. destruct (Z.le_gt_cases m cursor); [done|].
    specialize (Hmin m Hm). lia. }
  destruct (IH n (Some n)) as (r & Hr & ->).
  { pose proof (fires_minute n Hn). Z.div_mod_to_equations; lia. }
  destruct r as [k|]; cbn in Hr.
  - destruct Hr as (Hk & Hb & Hmax). exists (Some k). split; [|done]. split; [done|]. split; [lia|done].
  - exists (Some n). split; [|done]. split; [done|]. split; [lia|]. by intros m Hm Hmh; apply Hr.
Qed.

(** C37: the catch-up search of the scheduler answers for every schedule, in one step per
    minute of the window, with the latest occurrence at or before now and within the
    window, and with none exactly when the window holds no occurrence: after an outage at
    most the latest missed occurrence is fired, never the whole gap. *)
Theorem previous_occurrence_latest fuel atMs windowMs :
  0 <= windowMs -> windowMs / 60000 + 2 < Z.of_nat fuel ->
  exists r, previousOccurrence nextRun fuel atMs windowMs = Some r /\
    match r with
    | Some n => fires n /\ atMs - windowMs <= n <= atMs /\ forall m, fires m -> m <= atMs -> m <= n
    | None => forall m, fires m -> m <= atMs -> m < atMs - windowMs
    end.
Proof.
  intros Hw Hf. destruct (previous_loop_spec fuel atMs (atMs - windowMs - 1) None) as (r & Hr & E).
  { Z.div_mod_to_equations; lia. }
  exists r. split; [unfold previousOccurrence; rewrite E; by destruct r|].
  destruct r as [n|]; cbn in Hr.
  - destruct Hr as (Hn & Hb & Hmax). split; [done|]. split; [lia|done].
  - intros m Hm Hmh. specialize (Hr m Hm Hmh). lia.
Qed.
End SearchTheorems.

(** A schedule of every whole hour. *)
Definition hourly (d : Z) : option Z := Some ((d / 3600000 + 1) * 3600000).
#[export] Instance hourly_engine : CronEngine (fun n => n mod 3600000 = 0) hourly.
Proof.
  split.
  - intros d n [= <-]. split; [apply Z.mod_mul; lia|]. split; [Z.div_mod_to_equations; lia|].
    intros m Hm Hd. Z.div_mod_to_equations; lia.
  - done.
  - intros n Hn. Z.div_mod_to_equations; lia.
Qed.

Example previous_occurrence_latest_witness :
  exists r, previousOccurrence hourly 1500 1788330000000 86400000 = Some r /\
    match r with
    | Some n => n mod 3600000 = 0 /\ 1788330000000 - 86400000 <= n <= 1788330000000 /\
                forall m, m mod 3600000 = 0 -> m <= 1788330000000 -> m <= n
    | None => forall m, m mod 3600000 = 0 -> m <= 1788330000000 -> m < 1788330000000 - 86400000
    end.
Proof. apply (previous_occurrence_latest _ hourly 1500 1788330000000 86400000); [lia|vm_compute; reflexivity]. Defined.

Example previous_sample : previousOccurrence hourly 1500 1788330000000 86400000 = Some (Some 1788328800000).
Proof. vm_compute. reflexivity. Qed.

(** ** Keys name minutes *)

Lemma digit_not_separator v : not_separator (digit_char (v mod 10)) = true.
Proof.
  pose proof (Z.mod_pos_bound v 10 ltac:(lia)). generalize dependent (v mod 10). intros d Hd.
  assert (d = 0 \/ d = 1 \/ d = 2 \/ d = 3 \/ d = 4 \/ d = 5 \/ d = 6 \/ d = 7 \/ d = 8 \/ d = 9) as H by lia.
  by repeat destruct H as [->|H]; [..|rewrite H].
Qed.

Lemma occurrenceKey_fields ms : let f := fields_of_ms ms in
  occurrenceKey ms = String.string_of_list_ascii
    (digits 4 (iso_y f) ++ digits 2 (iso_mo f) ++ digits 2 (iso_d f) ++ ["T"%char] ++
     digits 2 (iso_h f) ++ digits 2 (iso_mi f) ++ ["Z"%char])%list.
Proof.
  intros f. unfold occurrenceKey, toISOString. rewrite String.list_ascii_of_string_of_list_ascii. fold f.
  unfold print_fields. f_equal. cbn [digits app firstn List.filter]. rewrite !digit_not_separator. reflexivity.
Qed.

Lemma key_fields_key ms :
  -62167219200000 <= ms < 253402300800000 -> let f := fields_of_ms ms in
  key_fields (occurrenceKey ms) = Some (iso_y f, iso_mo f, iso_d f, iso_h f, iso_mi f).
Proof.
  intros Hr f. destruct (fields_of_ms_spec ms Hr) as (_ & _ & Hy & Hmo & Hd & Hh & Hmi & _). fold f in Hy, Hmo, Hd, Hh, Hmi.
  unfold key_fields. rewrite occurrenceKey_fields, String.list_ascii_of_string_of_list_ascii. fold f.
  Local Opaque digits take_digits.
  do 3 (rewrite take_digits_app by done; cbn -[Z.mul Z.add]). do 2 (rewrite take_digits_app by done; cbn -[Z.mul Z.add]).
  done.
Qed.

(** The minute an instant falls in has the same fields. *)
Lemma minute_fields ms : let f := fields_of_ms ms in let g := fields_of_ms (60000 * (ms / 60000)) in
  iso_y g = iso_y f /\ iso_mo g = iso_mo f /\ iso_d g = iso_d f /\ iso_h g = iso_h f /\ iso_mi g = iso_mi f /\
  iso_s g = 0 /\ iso_ms g = 0.
Proof.
  cbv zeta. unfold fields_of_ms.
  replace (60000 * (ms / 60000) / 86400000) with (ms / 86400000) by (Z.div_mod_to_equations; lia).
  destruct (civil_from_days (ms / 86400000)) as [[y mo] d]. cbn [iso_y iso_mo iso_d iso_h iso_mi iso_s iso_ms].
  repeat split; Z.div_mod_to_equations; lia.
Qed.

Lemma key_minute ms : occurrenceKey (60000 * (ms / 60000)) = occurrenceKey ms.
Proof.
  rewrite !occurrenceKey_fields. destruct (minute_fields ms) as (-> & -> & -> & -> & -> & _). done.
Qed.

Lemma Date_UTC_fields f :
  fields_valid f = true -> 100 <= iso_y f -> iso_s f = 0 -> iso_ms f = 0 ->
  Date_UTC (iso_y f) (iso_mo f) (iso_d f) (iso_h f) (iso_mi f) = fields_ms f.
Proof.
  unfold fields_valid. rewrite !andb_true_iff, !Z.leb_le. intros (((((( H1 & H2) & _) & _) & _) & _) & _) Hy Hs Hm.
  unfold Date_UTC, fields_ms. rewrite Hs, Hm. destruct (Z.leb_spec (iso_y f) 99); [lia|].
  replace ((iso_mo f - 1) / 12) with 0 by (Z.div_mod_to_equations; lia).
  replace ((iso_mo f - 1) mod 12 + 1) with (iso_mo f) by (Z.div_mod_to_equations; lia).
  rewrite Z.add_0_r. unfold days_from_civil. cbv zeta. lia.
Qed.

Lemma year_100 ms : -59011459200000 <= ms < 253402300800000 -> 100 <= iso_y (fields_of_ms ms).
Proof.
  intros Hr. unfold fields_of_ms. destruct (civil_from_days (ms / 86400000)) as [[y mo] d] eqn:E. cbn.
  destruct (civil_from_days_spec _ _ _ _ E) as (Hday & Hmo & Hd).
  assert (days_in_month y mo <= 31) by (unfold days_in_month; repeat case_match; lia).
  assert (-683003 <= days_from_civil y mo d) by (rewrite Hday; Z.div_mod_to_equations; lia).
  unfold days_from_civil in *. destruct (Z.leb_spec mo 2); Z.div_mod_to_equations; lia.
Qed.

(** An occurrence key names exactly one minute: from the year 100 on, the key of an
    instant reads back as the start of the instant's minute, two instants have the same
    key exactly when they lie in the same minute, and what is read from any text is the
    instant of that very key, so a malformed or overflowing date is never read as another. *)
Theorem occurrence_key_roundtrip ms ms' :
  -59011459200000 <= ms < 253402300800000 -> -59011459200000 <= ms' < 253402300800000 ->
  occurrenceKeyToInstant (occurrenceKey ms) = Some (60000 * (ms / 60000)) /\
  (occurrenceKey ms = occurrenceKey ms' <-> ms / 60000 = ms' / 60000) /\
  (forall key instant, occurrenceKeyToInstant key = Some instant -> occurrenceKey instant = key).
Proof.
  assert (Hback : forall n, -59011459200000 <= n < 253402300800000 ->
    occurrenceKeyToInstant (occurrenceKey n) = Some (60000 * (n / 60000))).
  { intros n Hn. unfold occurrenceKeyToInstant. rewrite key_fields_key by lia. cbn [mbind option_bind].
    assert (Hm : -59011459200000 <= 60000 * (n / 60000) < 253402300800000) by (Z.div_mod_to_equations; lia).
    destruct (minute_fields n) as (<- & <- & <- & <- & <- & Hs & Hms).
    destruct (fields_of_ms_spec (60000 * (n / 60000))) as (Hf & Hv & _); [lia|].
    rewrite Date_UTC_fields, Hf, key_minute by (try done; by apply year_100). by rewrite bool_decide_eq_true_2. }
  intros Hr Hr'. split; [by apply Hback|]. split; [split|].
  - intros E. apply (f_equal occurrenceKeyToInstant) in E. rewrite !Hback in E by done. injection E. lia.
  - intros E. by rewrite <- (key_minute ms), E, key_minute.
  - intros key instant. unfold occurrenceKeyToInstant. destruct (key_fields key) as [[[[[y mo] d] h] mi]|]; [|done].
    cbn [mbind option_bind]. case_bool_decide; [|done]. by intros [= <-].
Qed.

Example occurrence_key_roundtrip_witness :
  occurrenceKeyToInstant (occurrenceKey 1788328859999) = Some 1788328800000 /\
  (occurrenceKey 1788328859999 = occurrenceKey 1788328800000 <-> 1788328859999 / 60000 = 1788328800000 / 60000).
Proof.
  destruct (occurrence_key_roundtrip 1788328859999 1788328800000) as (H1 & H2 & _); [lia|lia|].
  split; [exact H1|exact H2].
Defined.
