(* ===== verification/JobData.v ===== *)
(** * Job records

    The job schemas of [packages/core/src/schema.ts], their keys in
    [packages/core/src/paths.ts] and the pure decisions of the scheduler and the runner:
    admission under the concurrency caps, the deadline of a run, the outcome of an
    export.  What a newer replica added to an open object is kept in [extra]. *)

From Stdlib Require Import ZArith Lia Ascii.
From S2P Require Import Prelude Constants Lifecycle Schema UtcDate Store Keys SessionData CatalogData.
Import RunState.

Abbreviation JobId := string (only parsing).
Abbreviation RunId := string (only parsing).
Abbreviation JobParameters := (list (string * string)) (only parsing).

(** ** Definitions *)

Inductive RunTrigger := TSchedule | TManual.
Inductive JobConcurrencyPolicy := Forbid | Allow.
Inductive JobNotificationEvent := OnFailure | OnSuccess.
#[export] Instance RunTrigger_eq_dec : EqDecision RunTrigger.
Proof. solve_decision. Defined.
#[export] Instance JobConcurrencyPolicy_eq_dec : EqDecision JobConcurrencyPolicy.
Proof. solve_decision. Defined.
#[export] Instance JobNotificationEvent_eq_dec : EqDecision JobNotificationEvent.
Proof. solve_decision. Defined.

Definition MAX_JOB_NAME_LENGTH : nat := 120.
Definition MAX_JOB_PARAMETERS : nat := 32.
Definition MAX_JOB_PARAMETER_VALUE_LENGTH : nat := 4096.
Definition MAX_JOB_RETRIES : Z := 5.
Definition MAX_JOB_RETRY_BACKOFF_SECONDS : Z := 3600.
Definition MIN_JOB_TIMEOUT_SECONDS : Z := 60.

(** [JobRetryPolicySchema] *)
Record JobRetryPolicy := { max_retries : Z; backoff_seconds : Z; rp_extra : list (string * string) }.
#[export] Instance JobRetryPolicy_eq_dec : EqDecision JobRetryPolicy.
Proof. solve_decision. Defined.

(** [JobDefinitionSchema]; [jd_notifications] is the list under [on]. *)
Record JobDefinition := {
  jd_id : JobId;
  jd_notebook_id : NotebookId;
  jd_project_id : ProjectId;
  jd_name : string;
  jd_enabled : bool;
  jd_schedule : option JobSchedule;
  jd_parameters : option JobParameters;
  jd_retry : option JobRetryPolicy;
  jd_timeout_seconds : option Z;
  jd_concurrency_policy : JobConcurrencyPolicy;
  jd_notifications : option (list JobNotificationEvent);
  jd_created_by : UserId;
  jd_created_at : Timestamp;
  jd_updated_at : Timestamp;
  jd_extra : list (string * string);
}.
#[export] Instance JobDefinition_settable : Settable JobDefinition := fun j =>
  Build_JobDefinition (jd_id j) (jd_notebook_id j) (jd_project_id j) (jd_name j) (jd_enabled j) (jd_schedule j)
    (jd_parameters j) (jd_retry j) (jd_timeout_seconds j) (jd_concurrency_policy j) (jd_notifications j)
    (jd_created_by j) (jd_created_at j) (jd_updated_at j) (jd_extra j).
#[export] Instance JobDefinition_eq_dec : EqDecision JobDefinition.
Proof. solve_decision. Defined.

(** [JOB_PARAMETER_KEY_PATTERN] *)
Definition parameter_char (c : ascii) : bool :=
  in_range 48 57 c || in_range 65 90 c || in_range 97 122 c || Ascii.eqb c "_" || Ascii.eqb c "-".
Definition is_parameter_key (k : string) : bool :=
  match k with
  | String c k' => (in_range 65 90 c || in_range 97 122 c) && (String.length k' <=? 63)%nat &&
                   forallb parameter_char (String.list_ascii_of_string k')
  | EmptyString => false
  end.
Definition JobParametersSchema (ps : JobParameters) : bool :=
  forallb (fun p => is_parameter_key p.1 && (String.length p.2 <=? MAX_JOB_PARAMETER_VALUE_LENGTH)%nat) ps &&
  (length ps <=? MAX_JOB_PARAMETERS)%nat.

Definition JobRetryPolicySchema (r : JobRetryPolicy) : bool :=
  ((0 <=? max_retries r) && (max_retries r <=? MAX_JOB_RETRIES) &&
   (0 <=? backoff_seconds r) && (backoff_seconds r <=? MAX_JOB_RETRY_BACKOFF_SECONDS))%Z.

Definition JobNotificationsSchema (on : list JobNotificationEvent) : bool :=
  (1 <=? length on)%nat && (length (js_set on) === length on).

Definition JobDefinitionSchema (j : JobDefinition) : bool :=
  is_id "job" (jd_id j) && is_id "nb" (jd_notebook_id j) && is_id "proj" (jd_project_id j) &&
  ((1 <=? String.length (jd_name j)) && (String.length (jd_name j) <=? MAX_JOB_NAME_LENGTH))%nat &&
  optional JobScheduleSchema (jd_schedule j) && optional JobParametersSchema (jd_parameters j) &&
  optional JobRetryPolicySchema (jd_retry j) &&
  optional (fun n => MIN_JOB_TIMEOUT_SECONDS <=? n)%Z (jd_timeout_seconds j) &&
  optional JobNotificationsSchema (jd_notifications j) && is_user_id (jd_created_by j) &&
  utcTimestamp (jd_created_at j) && utcTimestamp (jd_updated_at j).

(** ** Runs *)

(** [RunErrorSchema] and the [output] of a run *)
Record RunError := { re_code : string; re_message : string; re_extra : list (string * string) }.
Record RunOutput := { html_bytes : Z; logs_bytes : option Z; ro_extra : list (string * string) }.
#[export] Instance RunError_eq_dec : EqDecision RunError.
Proof. solve_decision. Defined.
#[export] Instance RunOutput_eq_dec : EqDecision RunOutput.
Proof. solve_decision. Defined.

Definition run_error (code message : string) : RunError := {| re_code := code; re_message := message; re_extra := [] |}.

(** [JobRunSchema] *)
Record JobRun := {
  jr_run_id : RunId;
  jr_job_id : JobId;
  jr_notebook_id : NotebookId;
  jr_project_id : ProjectId;
  jr_status : RunStatus;
  jr_trigger : RunTrigger;
  jr_triggered_by : option UserId;
  jr_scheduled_for : option Timestamp;
  jr_source_version_id : option VersionId;
  jr_parameters : option JobParameters;
  jr_attempt : Z;
  jr_retry_of : option RunId;
  jr_sandbox_id : option SandboxId;
  jr_image : option string;
  jr_compute_profile : option string;
  jr_compute_resources : option ComputeResources;
  jr_timeout_seconds : Z;
  jr_queued_at : Timestamp;
  jr_eligible_at : option Timestamp;
  jr_started_at : option Timestamp;
  jr_finished_at : option Timestamp;
  jr_deadline_at : option Timestamp;
  jr_exit_code : option Z;
  jr_error : option RunError;
  jr_output : option RunOutput;
  jr_cancelled_by : option UserId;
  jr_extra : list (string * string);
}.
#[export] Instance JobRun_settable : Settable JobRun := fun r =>
  Build_JobRun (jr_run_id r) (jr_job_id r) (jr_notebook_id r) (jr_project_id r) (jr_status r) (jr_trigger r)
    (jr_triggered_by r) (jr_scheduled_for r) (jr_source_version_id r) (jr_parameters r) (jr_attempt r)
    (jr_retry_of r) (jr_sandbox_id r) (jr_image r) (jr_compute_profile r) (jr_compute_resources r)
    (jr_timeout_seconds r) (jr_queued_at r) (jr_eligible_at r) (jr_started_at r) (jr_finished_at r)
    (jr_deadline_at r) (jr_exit_code r) (jr_error r) (jr_output r) (jr_cancelled_by r) (jr_extra r).
#[export] Instance JobRun_eq_dec : EqDecision JobRun.
Proof. solve_decision. Defined.

Definition output_schema (o : RunOutput) : bool :=
  (0 <=? html_bytes o)%Z && optional (fun n => 0 <=? n)%Z (logs_bytes o).

(** The fields a run keeps from its creation on. *)
Definition run_fixed_schema (r : JobRun) : bool :=
  is_id "run" (jr_run_id r) && is_id "job" (jr_job_id r) && is_id "nb" (jr_notebook_id r) &&
  is_id "proj" (jr_project_id r) && optional is_user_id (jr_triggered_by r) &&
  optional utcTimestamp (jr_scheduled_for r) && optional is_version_id (jr_source_version_id r) &&
  optional JobParametersSchema (jr_parameters r) && (1 <=? jr_attempt r)%Z && optional (is_id "run") (jr_retry_of r) &&
  (1 <=? jr_timeout_seconds r)%Z && utcTimestamp (jr_queued_at r) && optional utcTimestamp (jr_eligible_at r).

Definition JobRunSchema (r : JobRun) : bool :=
  run_fixed_schema r && optional (is_id "sb") (jr_sandbox_id r) && optional utcTimestamp (jr_started_at r) &&
  optional utcTimestamp (jr_finished_at r) && optional utcTimestamp (jr_deadline_at r) &&
  optional output_schema (jr_output r) && optional is_user_id (jr_cancelled_by r).

(** [JobOccurrenceSchema]; [outcome] is absent on the claims of older replicas. *)
Inductive occurrence_outcome := OutcomeRun | OutcomeSkip.
Record JobOccurrence := { jo_run_id : RunId; jo_fired_at : Timestamp; jo_outcome : option occurrence_outcome }.
#[export] Instance occurrence_outcome_eq_dec : EqDecision occurrence_outcome.
Proof. solve_decision. Defined.
#[export] Instance JobOccurrence_eq_dec : EqDecision JobOccurrence.
Proof. solve_decision. Defined.
Definition JobOccurrenceSchema (o : JobOccurrence) : bool :=
  is_id "run" (jo_run_id o) && utcTimestamp (jo_fired_at o).

(** [JobRunMarkerSchema] *)
Record JobRunMarker := {
  jm_run_id : RunId; jm_continuation_run_id : RunId; jm_job_id : JobId;
  jm_notebook_id : NotebookId; jm_project_id : ProjectId; jm_created_at : Timestamp;
}.
#[export] Instance JobRunMarker_eq_dec : EqDecision JobRunMarker.
Proof. solve_decision. Defined.
Definition JobRunMarkerSchema (m : JobRunMarker) : bool :=
  is_id "run" (jm_run_id m) && is_id "run" (jm_continuation_run_id m) && is_id "job" (jm_job_id m) &&
  is_id "nb" (jm_notebook_id m) && is_id "proj" (jm_project_id m) && utcTimestamp (jm_created_at m).

(** ** Keys *)

Definition CROCKFORD_BASE32 : list ascii := String.list_ascii_of_string "0123456789ABCDEFGHJKMNPQRSTVWXYZ".

(** [alphabet.indexOf(char)], [-1] when absent *)
Fixpoint index_of (c : ascii) (l : list ascii) : Z :=
  match l with
  | [] => -1
  | x :: l' => if Ascii.eqb c x then 0 else let i := index_of c l' in if (i =? -1)%Z then -1 else i + 1
  end%Z.
(** [alphabet[31 - alphabet.indexOf(char)]]; the join drops an [undefined]. *)
Definition reverse_char (c : ascii) : list ascii :=
  match CROCKFORD_BASE32 !! Z.to_nat (31 - index_of c CROCKFORD_BASE32) with Some x => [x] | None => [] end.
Definition reverse_body (body : string) : string :=
  String.string_of_list_ascii (concat (map reverse_char (String.list_ascii_of_string body))).
(** [reverseRunId] *)
Definition reverseRunId (runId : RunId) : string := reverse_body (slice_from 4 runId).

Definition notebook_base (pid : ProjectId) (nid : NotebookId) : string :=
  "projects/" +:+ pid +:+ "/notebooks/" +:+ nid.
(** [paths.project(pid).notebook(nid).job(jid)] *)
Definition job_base (pid : ProjectId) (nid : NotebookId) (jid : JobId) : string :=
  notebook_base pid nid +:+ "/jobs/" +:+ jid.
Definition job_head pid nid jid : key := job_base pid nid jid +:+ "/job.json".
Definition occurrencesPrefix pid nid jid : string := job_base pid nid jid +:+ "/occurrences/".
Definition occurrence_path pid nid jid (okey : string) : key := occurrencesPrefix pid nid jid +:+ okey +:+ ".json".
Definition runIndexPrefix pid nid jid : string := job_base pid nid jid +:+ "/run-index/".
Definition run_index pid nid jid (rid : RunId) : key := runIndexPrefix pid nid jid +:+ reverseRunId rid +:+ ".json".
Definition run_base pid nid jid (rid : RunId) : string := job_base pid nid jid +:+ "/runs/" +:+ rid.
Definition run_record pid nid jid rid : key := run_base pid nid jid rid +:+ "/run.json".
Definition run_html pid nid jid rid : key := run_base pid nid jid rid +:+ "/output.html".
Definition run_logs pid nid jid rid : key := run_base pid nid jid rid +:+ "/logs.txt".
(** [paths.jobRunMarker] and its prefix, [paths.jobOperationClaim], [paths.jobDeletionClaim] *)
Definition jobRunMarkersPrefix : string := "_system/job-runs/".
Definition jobRunMarker (pid : ProjectId) (rid : RunId) : key := jobRunMarkersPrefix +:+ pid +:+ "/" +:+ rid +:+ ".json".
Definition jobOperationClaim (pid : ProjectId) (nid : NotebookId) (jid : JobId) : key :=
  "_system/job-operations/" +:+ pid +:+ "/" +:+ nid +:+ "/" +:+ jid +:+ ".json".
Definition jobDeletionClaim (pid : ProjectId) (nid : NotebookId) (jid : JobId) : key :=
  "_system/job-deletions/" +:+ pid +:+ "/" +:+ nid +:+ "/" +:+ jid +:+ ".json".

(** [runPaths(run).record] *)
Definition record_of (r : JobRun) : key :=
  run_record (jr_project_id r) (jr_notebook_id r) (jr_job_id r) (jr_run_id r).

(** [runIdFromIndex]: the run of a history entry. *)
Definition runIdFromIndex (prefix key : string) : option RunId :=
  let reversed := strip_json (slice_from (String.length prefix) key) in
  if negb (String.length reversed === 26) then None
  else let candidate := "run_" +:+ reverse_body reversed in
       if is_id "run" candidate then Some candidate else None.

Example index_sample :
  run_index "p" "n" "j" "run_01ARZ3NDEKTSV69G4800000000" =
    "projects/p/notebooks/n/jobs/j/run-index/ZYN70WAJHC564SPFVQZZZZZZZZ.json".
Proof. vm_compute. reflexivity. Qed.

(** ** The history index *)

(** Reversal in the alphabet is an involution that turns the order of characters around. *)
Definition ascii_table (p : ascii -> bool) : bool := forallb (fun n => p (ascii_of_nat n)) (seq 0 256).
Lemma ascii_table_spec p : ascii_table p = true -> forall c, p c = true.
Proof.
  intros H c. unfold ascii_table in H. rewrite forallb_forall in H. specialize (H (nat_of_ascii c)).
  rewrite ascii_nat_embedding in H. apply H. apply in_seq. pose proof (nat_ascii_bounded c). lia.
Qed.

Definition reversible (rc : ascii -> list ascii) (c : ascii) : bool :=
  negb (ulid_char c) ||
  match rc c with
  | [d] => ulid_char d && bool_decide (rc d = [c]) &&
           ascii_table (fun c' => negb (ulid_char c') ||
             match rc c' with [d'] => bool_decide (Ascii.compare d d' = Ascii.compare c' c) | _ => false end)
  | _ => false
  end.

Lemma reversible_spec rc c : ascii_table (reversible rc) = true -> ulid_char c = true ->
  exists d, rc c = [d] /\ ulid_char d = true /\ rc d = [c] /\
    forall c', ulid_char c' = true -> exists d', rc c' = [d'] /\ Ascii.compare d d' = Ascii.compare c' c.
Proof.
  intros Ht Hc. pose proof (ascii_table_spec _ Ht c) as H.
  unfold reversible in H. rewrite Hc in H. cbn [negb orb] in H. destruct (rc c) as [|d [|]]; [discriminate H| |discriminate H].
  apply andb_true_iff in H as [H H3]. apply andb_true_iff in H as [H1 H2]. apply bool_decide_eq_true in H2.
  exists d. split; [done|]. split; [done|]. split; [done|].
  intros c' Hc'. pose proof (ascii_table_spec _ H3 c') as H. cbv beta in H. rewrite Hc' in H. cbn [negb orb] in H.
  destruct (rc c') as [|d' [|]]; [discriminate H| |discriminate H]. exists d'. by apply bool_decide_eq_true in H.
Qed.

Lemma all_reversible : ascii_table (reversible reverse_char) = true.
Proof. vm_compute. reflexivity. Qed.
Definition reverse_char_spec c := reversible_spec reverse_char c all_reversible.

Definition ulid_body (b : string) : bool := forallb ulid_char (String.list_ascii_of_string b).

Lemma reverse_body_cons c b d : reverse_char c = [d] -> reverse_body (String c b) = String d (reverse_body b).
Proof. intros H. unfold reverse_body. cbn [String.list_ascii_of_string map concat]. by rewrite H. Qed.

Lemma reverse_body_spec b : ulid_body b = true ->
  ulid_body (reverse_body b) = true /\ String.length (reverse_body b) = String.length b /\ reverse_body (reverse_body b) = b.
Proof.
  induction b as [|c b IH]; [done|]. unfold ulid_body. cbn [String.list_ascii_of_string forallb]. rewrite andb_true_iff.
  intros [Hc Hb]. destruct (reverse_char_spec c Hc) as (d & Hd & Hu & Hdc & _). destruct (IH Hb) as (H1 & H2 & H3).
  rewrite (reverse_body_cons _ _ _ Hd). cbn [String.list_ascii_of_string forallb String.length]. rewrite Hu, H2.
  split; [exact H1|]. split; [done|]. by rewrite (reverse_body_cons _ _ _ Hdc), H3.
Qed.

Lemma reverse_body_compare a b : ulid_body a = true -> ulid_body b = true -> String.length a = String.length b ->
  String.compare (reverse_body a) (reverse_body b) = String.compare b a.
Proof.
  revert b. induction a as [|c a IH]; intros [|c' b] Ha Hb Hl; try done.
  unfold ulid_body in Ha, Hb. cbn in Ha, Hb. apply andb_true_iff in Ha as [Hc Ha], Hb as [Hc' Hb].
  destruct (reverse_char_spec c Hc) as (d & Hd & _ & _ & Hcmp). destruct (Hcmp c' Hc') as (d' & Hd' & E).
  rewrite (reverse_body_cons _ _ _ Hd), (reverse_body_cons _ _ _ Hd'). cbn [String.compare]. rewrite E.
  destruct (Ascii.compare c' c); [|done|done]. apply IH; [done|done|]. by injection Hl.
Qed.

Lemma ascii_compare_refl c : Ascii.compare c c = Eq.
Proof. pose proof (Ascii.compare_antisym c c) as H. by destruct (Ascii.compare c c). Qed.

Lemma compare_app p a b : String.compare (p +:+ a) (p +:+ b) = String.compare a b.
Proof.
  induction p as [|c p IH]; [done|].
  change (String.compare (String c (p +:+ a)) (String c (p +:+ b)) = String.compare a b). cbn [String.compare].
  by rewrite ascii_compare_refl.
Qed.
Lemma compare_app_r a b s : String.length a = String.length b ->
  String.compare (a +:+ s) (b +:+ s) = String.compare a b.
Proof.
  revert b. induction a as [|c a IH]; intros [|c' b] Hl; try done.
  - change (String.compare s s = Eq). induction s as [|c s IH]; [done|]. cbn [String.compare]. by rewrite ascii_compare_refl.
  - change (String.compare (String c (a +:+ s)) (String c' (b +:+ s)) = String.compare (String c a) (String c' b)).
    cbn [String.compare]. destruct (Ascii.compare c c'); [|done|done]. apply IH. by injection Hl.
Qed.

Lemma run_id_body r : is_id "run" r = true -> exists b, r = "run_" +:+ b /\ String.length b = 26 /\ ulid_body b = true.
Proof.
  unfold is_id. change (id_shape "run") with ("run_", 26, ulid_char). cbv beta iota.
  destruct (startsWith "run_" r) as [b|] eqn:E; [|done]. bool_to_prop. intros [Hl Hb]. exists b. split; [|done].
  assert (H : forall p s x, startsWith p s = Some x -> s = p +:+ x).
  { clear. induction p as [|c p IH]; intros [|y s] x; cbn [startsWith]; try done; [by intros [= <-]..|].
    destruct (Ascii.eqb_spec c y) as [->|]; [|done]. intros Hx. change (String y s = String y (p +:+ x)). f_equal. by apply IH. }
  by apply H.
Qed.

(** The history index of a job names each run and lists the newest first: the run
    is read back from its entry, and the entries of two runs sort in the opposite order of
    the run ids, which grow with time. *)
Theorem run_index_newest_first pid nid jid r r' :
  is_id "run" r = true -> is_id "run" r' = true ->
  runIdFromIndex (runIndexPrefix pid nid jid) (run_index pid nid jid r) = Some r /\
  String.compare (run_index pid nid jid r) (run_index pid nid jid r') = String.compare r' r.
Proof.
  intros Hr Hr'. destruct (run_id_body r Hr) as (b & -> & Hl & Hb). destruct (run_id_body r' Hr') as (b' & -> & Hl' & Hb').
  destruct (reverse_body_spec b Hb) as (Hu & Hlr & Hback). destruct (reverse_body_spec b' Hb') as (_ & Hlr' & _).
  unfold run_index, runIdFromIndex, reverseRunId. rewrite !(slice_from_app "run_") by done. split.
  - rewrite slice_from_app, strip_json_app by done. rewrite Hlr, Hl, Hback, Hr. done.
  - rewrite !compare_app, compare_app_r by lia. apply reverse_body_compare; [done|done|lia].
Qed.

Example run_index_newest_first_witness :
  let older := "run_01ARZ3NDEKTSV69G4800000000" in let newer := "run_01ARZ3NDEKTSV69G4800000001" in
  runIdFromIndex (runIndexPrefix "p" "n" "j") (run_index "p" "n" "j" older) = Some older /\
  String.compare (run_index "p" "n" "j" older) (run_index "p" "n" "j" newer) = Gt.
Proof.
  exact (run_index_newest_first "p" "n" "j" "run_01ARZ3NDEKTSV69G4800000000" "run_01ARZ3NDEKTSV69G4800000001" eq_refl eq_refl).
Defined.
