(* ===== verification/JobRuns.v ===== *)
(** * Run records

    [packages/core/src/services/jobs/JobRunService.ts]: the owner of run records,
    occurrence claims, history entries and active markers.  A run record changes only by
    a compare-and-swap along the run machine; markers, claims and index entries are
    written only when absent.  Reads that the code makes in bounded parallel are made
    one after another. *)

From Stdlib Require Import ZArith Lia.
From S2P Require Import Prelude Constants Lifecycle Schema UtcDate Store Keys Cas Storage CasEffects SessionData CatalogData Cron JobData.
Import RunState.

(** [Pick<JobRun, 'project_id' | 'notebook_id' | 'job_id' | 'run_id'>] *)
Record RunRef := { rf_project_id : ProjectId; rf_notebook_id : NotebookId; rf_job_id : JobId; rf_run_id : RunId }.
Definition ref_of (r : JobRun) : RunRef :=
  {| rf_project_id := jr_project_id r; rf_notebook_id := jr_notebook_id r; rf_job_id := jr_job_id r; rf_run_id := jr_run_id r |}.
Definition ref_of_marker (m : JobRunMarker) : RunRef :=
  {| rf_project_id := jm_project_id m; rf_notebook_id := jm_notebook_id m; rf_job_id := jm_job_id m; rf_run_id := jm_run_id m |}.
(** [runPaths(ref).record] *)
Definition ref_record (r : RunRef) : key := run_record (rf_project_id r) (rf_notebook_id r) (rf_job_id r) (rf_run_id r).

(** [EnqueueRunInput] *)
Record EnqueueRunInput := {
  ei_job : JobDefinition;
  ei_trigger : RunTrigger;
  ei_triggeredBy : option UserId;
  ei_scheduledFor : option Timestamp;
  ei_parameters : option JobParameters;
  ei_sourceVersionId : option VersionId;
  ei_timeoutSeconds : Z;
  ei_attempt : option Z;
  ei_retryOf : option RunId;
  ei_eligibleAt : option Timestamp;
  ei_runId : option RunId;
}.

Definition DANGLING_MARKER_GRACE_MS : Z := 600000.

(** The record [enqueue] writes. *)
Definition queued_run (input : EnqueueRunInput) (runId : RunId) (now : Timestamp) : JobRun := {|
  jr_run_id := runId;
  jr_job_id := jd_id (ei_job input);
  jr_notebook_id := jd_notebook_id (ei_job input);
  jr_project_id := jd_project_id (ei_job input);
  jr_status := RQueued;
  jr_trigger := ei_trigger input;
  jr_triggered_by := truthy (ei_triggeredBy input);
  jr_scheduled_for := truthy (ei_scheduledFor input);
  jr_source_version_id := truthy (ei_sourceVersionId input);
  jr_parameters := match ei_parameters input with Some (p :: ps) => Some (p :: ps) | _ => None end;
  jr_attempt := ei_attempt input ?? 1%Z;
  jr_retry_of := truthy (ei_retryOf input);
  jr_sandbox_id := None; jr_image := None; jr_compute_profile := None; jr_compute_resources := None;
  jr_timeout_seconds := ei_timeoutSeconds input;
  jr_queued_at := now;
  jr_eligible_at := truthy (ei_eligibleAt input);
  jr_started_at := None; jr_finished_at := None; jr_deadline_at := None; jr_exit_code := None;
  jr_error := None; jr_output := None; jr_cancelled_by := None; jr_extra := [];
|}.

(** The record [writeSkipped] writes. *)
Definition skipped_run (input : EnqueueRunInput) (reason : RunError) (runId : RunId) (now : Timestamp) : JobRun := {|
  jr_run_id := runId;
  jr_job_id := jd_id (ei_job input);
  jr_notebook_id := jd_notebook_id (ei_job input);
  jr_project_id := jd_project_id (ei_job input);
  jr_status := RSkipped;
  jr_trigger := TSchedule;
  jr_triggered_by := None;
  jr_scheduled_for := truthy (ei_scheduledFor input);
  jr_source_version_id := truthy (ei_sourceVersionId input);
  jr_parameters := None;
  jr_attempt := 1;
  jr_retry_of := None;
  jr_sandbox_id := None; jr_image := None; jr_compute_profile := None; jr_compute_resources := None;
  jr_timeout_seconds := ei_timeoutSeconds input;
  jr_queued_at := now;
  jr_eligible_at := None; jr_started_at := None;
  jr_finished_at := Some now;
  jr_deadline_at := None; jr_exit_code := None;
  jr_error := Some reason;
  jr_output := None; jr_cancelled_by := None; jr_extra := [];
|}.

Definition new_marker (job : JobDefinition) (runId continuation : RunId) (now : Timestamp) : JobRunMarker := {|
  jm_run_id := runId; jm_continuation_run_id := continuation; jm_job_id := jd_id job;
  jm_notebook_id := jd_notebook_id job; jm_project_id := jd_project_id job; jm_created_at := now;
|}.

(** What [claimOccurrence] answers. *)
Inductive occurrence_claim := Claimed | Standing (existing : option JobOccurrence).

(** [ActiveRun], [ActiveRunSnapshot], [CancelledRuns], [RunPage] *)
Record ActiveRun := { ar_marker : JobRunMarker; ar_run : option JobRun }.
Record ActiveRunSnapshot := { as_entries : list ActiveRun; as_complete : bool }.
Record CancelledRuns := { cr_runs : list JobRun; cr_sandboxIds : list SandboxId }.
Record RunPage := { rp_items : list JobRun; rp_nextRunId : option RunId }.

Section JobRuns.
Context {B V : Type} {CR : Codec B JobRun} {CM : Codec B JobRunMarker} {CO : Codec B JobOccurrence}.
(** The empty body of an index entry. *)
Context (blank : B).
Local Notation prog := (prog B V).

Definition job_now : prog Timestamp := now ← call ONow; mret (toISOString now).
Definition createRunId : prog RunId := call (OFreshId "run").

(** [JobRunSchema.parse] *)
Definition JobRunSchema_parse (r : JobRun) : prog JobRun :=
  if JobRunSchema r then mret r else Throw (JsError "ZodError").

Definition getRun (pid : ProjectId) (nid : NotebookId) (jid : JobId) (rid : RunId) : prog JobRun :=
  let k := run_record pid nid jid rid in
  obj ← call (OGet k);
  match obj with
  | None => Throw (NotFoundError ("Run " +:+ rid +:+ " not found"))
  | Some o => readStored o k
  end.

Definition runExists (pid : ProjectId) (nid : NotebookId) (jid : JobId) (rid : RunId) : prog bool :=
  i ← call (OHead (run_record pid nid jid rid));
  mret (match i with Some _ => true | None => false end).

(** The part [enqueue] and [writeSkipped] share: the marker, the history entry and last
    the record, each only when absent. *)
Definition write_run (job : JobDefinition) (run : JobRun) (now : Timestamp) : prog JobRun :=
  run ← JobRunSchema_parse run;
  continuation ← createRunId;
  let runId := jr_run_id run in
  putIfAbsent (jobRunMarker (jd_project_id job) runId) (stringify (new_marker job runId continuation now)) ≫= fun _ =>
  putIfAbsent (run_index (jd_project_id job) (jd_notebook_id job) (jd_id job) runId) blank ≫= fun _ =>
  created ← putIfAbsent (record_of run) (stringify run);
  if created : bool then mret run else getRun (jd_project_id job) (jd_notebook_id job) (jd_id job) runId.

Definition enqueue (input : EnqueueRunInput) : prog JobRun :=
  runId ← match ei_runId input with Some r => mret r | None => createRunId end;
  now ← job_now;
  write_run (ei_job input) (queued_run input runId now) now.

Definition writeSkipped (input : EnqueueRunInput) (reason : RunError) : prog JobRun :=
  runId ← match ei_runId input with Some r => mret r | None => createRunId end;
  now ← job_now;
  write_run (ei_job input) (skipped_run input reason runId now) now.

(** [transition]: one event as a compare-and-swap; [patch] is [{...run, ...patch(run)}]. *)
Definition transition_apply (event : RunEvent) (patch : JobRun -> prog JobRun) (current : JobRun)
    : prog (unit * option JobRun) :=
  match nextRunStatus (jr_status current) event with
  | None => mret (tt, None)
  | Some status =>
      patched ← patch current;
      next ← JobRunSchema_parse (patched <| jr_status := status |>);
      mret (tt, Some next)
  end.

Definition transition (ref : RunRef) (event : RunEvent) (patch : JobRun -> prog JobRun) : prog (JobRun * bool) :=
  '(_, o) ← mutateM (ref_record ref) (transition_apply event patch)
      (Some (NotFoundError ("Run " +:+ rf_run_id ref +:+ " not found")));
  mret (value _ o, written _ o).

Definition cancel_patch (by_ : UserId) (r : JobRun) : prog JobRun :=
  now ← job_now; mret (r <| jr_finished_at := Some now |> <| jr_cancelled_by := Some by_ |>).
Definition cancel (ref : RunRef) (by_ : UserId) : prog (JobRun * bool) := transition ref EvCancel (cancel_patch by_).

Definition claimOccurrence (pid : ProjectId) (nid : NotebookId) (jid : JobId) (okey : string) (runId : RunId)
    (firedAt : Timestamp) (outcome : occurrence_outcome) : prog occurrence_claim :=
  let k := occurrence_path pid nid jid okey in
  let occurrence := {| jo_run_id := runId; jo_fired_at := firedAt; jo_outcome := Some outcome |} in
  won ← putIfAbsent k (stringify occurrence);
  if won : bool then mret Claimed
  else
    existing ← call (OGet k);
    match existing with
    | None => mret (Standing None)
    | Some o => mret (Standing (parse (o_body o)))
    end.

(** One marker of [listActiveSnapshot]: the entry, and whether it could be read. *)
Definition read_active (k : key) : prog (option ActiveRun * bool) :=
  markerObj ← call (OGet k);
  match markerObj with
  | None => mret (None, true)
  | Some o =>
      match parse (o_body o) with
      | None => mret (None, false)
      | Some marker =>
          recordObj ← call (OGet (ref_record (ref_of_marker marker)));
          match recordObj with
          | None => mret (Some {| ar_marker := marker; ar_run := None |}, true)
          | Some r =>
              match parse (o_body r) with
              | None => mret (Some {| ar_marker := marker; ar_run := None |}, false)
              | Some run => mret (Some {| ar_marker := marker; ar_run := Some run |}, true)
              end
          end
      end
  end.

Fixpoint read_all_active (keys : list key) : prog ActiveRunSnapshot :=
  match keys with
  | [] => mret {| as_entries := []; as_complete := true |}
  | k :: keys' =>
      '(entry, readable) ← read_active k;
      rest ← read_all_active keys';
      mret {| as_entries := match entry with Some e => e :: as_entries rest | None => as_entries rest end;
              as_complete := readable && as_complete rest |}
  end.

Definition listActiveSnapshot (fuel : nat) : prog ActiveRunSnapshot :=
  keys ← listAllKeys fuel jobRunMarkersPrefix; read_all_active keys.

Definition listActive (fuel : nat) : prog (list ActiveRun) :=
  s ← listActiveSnapshot fuel; mret (as_entries s).

(** [activeSandboxIds]; an empty id is no id. *)
Definition held_sandbox (a : ActiveRun) : option SandboxId :=
  match ar_run a with
  | Some run => if isTerminalRunStatus (jr_status run) then None else truthy (jr_sandbox_id run)
  | None => None
  end.
Definition activeSandboxIds (fuel : nat) : prog (list SandboxId) :=
  listActive fuel ≫= fun active : list ActiveRun => mret (omap held_sandbox active).

(** [deleteMarker]: a failed delete is only logged. *)
Definition deleteMarker (pid : ProjectId) (rid : RunId) : prog unit :=
  catch (call (ODelete [jobRunMarker pid rid])) (fun _ => mret tt).

Definition getMarker (pid : ProjectId) (rid : RunId) : prog (option JobRunMarker) :=
  let k := jobRunMarker pid rid in
  obj ← call (OGet k);
  match obj with
  | None => mret None
  | Some o => m ← readStored o k; mret (Some m)
  end.

(** The loop of [cancelRunsWhere]. *)
Fixpoint cancel_all (active : list ActiveRun) (by_ : UserId) : prog CancelledRuns :=
  match active with
  | [] => mret {| cr_runs := []; cr_sandboxIds := [] |}
  | a :: active' =>
      match ar_run a with
      | None => cancel_all active' by_
      | Some run =>
          '(cancelled, transitioned) ← cancel (ref_of run) by_;
          rest ← cancel_all active' by_;
          mret {| cr_runs := if transitioned : bool then cancelled :: cr_runs rest else cr_runs rest;
                  cr_sandboxIds := match truthy (jr_sandbox_id cancelled) with
                                   | Some sb => sb :: cr_sandboxIds rest
                                   | None => cr_sandboxIds rest
                                   end |}
      end
  end.

Definition cancelRunsWhere (fuel : nat) (matches : JobRunMarker -> bool) (by_ : UserId) : prog CancelledRuns :=
  active ← listActive fuel;
  cancel_all (List.filter (fun a => matches (ar_marker a)) active) by_.

Definition cancelRunsOfJob (fuel : nat) (pid : ProjectId) (jid : JobId) (by_ : UserId) : prog CancelledRuns :=
  cancelRunsWhere fuel (fun m => (jm_project_id m === pid) && (jm_job_id m === jid)) by_.

Definition pruneDanglingMarker (m : JobRunMarker) : prog unit :=
  call (ODelete [run_index (jm_project_id m) (jm_notebook_id m) (jm_job_id m) (jm_run_id m)]) ≫= fun _ =>
  deleteMarker (jm_project_id m) (jm_run_id m).

(** The loop of [pruneStaleMarkers]; a failure on one marker is only logged. *)
Fixpoint prune_stale (active : list ActiveRun) (now : Z) : prog nat :=
  match active with
  | [] => mret 0
  | a :: active' =>
      let m := ar_marker a in
      let stale := match ar_run a with
                   | Some _ => false
                   | None => num_cmp Z.gtb (created ← date_parse (jm_created_at m); Some (now - created)%Z) (Some DANGLING_MARKER_GRACE_MS)
                   end in
      pruned ← (if stale then
        catch (exists_ ← runExists (jm_project_id m) (jm_notebook_id m) (jm_job_id m) (jm_run_id m);
               if exists_ : bool then mret 0 else pruneDanglingMarker m ≫= fun _ => mret 1)
              (fun _ => mret 0)
        else mret 0);
      rest ← prune_stale active' now;
      mret (pruned + rest)
  end.

Definition pruneStaleMarkers (fuel : nat) (now : Z) : prog nat :=
  active ← listActive fuel; prune_stale active now.

(** ** History *)

Definition index_options (prefix : string) (startAfter : option string) (limit : Z) : BucketListOptions :=
  {| l_prefix := Some prefix; l_delimiter := None; l_cursor := None; l_limit := Some limit; l_startAfter := truthy startAfter |}.

(** The runs of the listed entries; unreadable and vanished ones are skipped. *)
Fixpoint read_indexed (pid : ProjectId) (nid : NotebookId) (jid : JobId) (entries : list info) : prog (list JobRun) :=
  match entries with
  | [] => mret []
  | e :: entries' =>
      match runIdFromIndex (runIndexPrefix pid nid jid) (i_key e) with
      | None => read_indexed pid nid jid entries'
      | Some runId =>
          record ← call (OGet (run_record pid nid jid runId));
          rest ← read_indexed pid nid jid entries';
          mret (match record ≫= fun o => parse (o_body o) with Some r => r :: rest | None => rest end)
      end
  end.

(** The loop of [listRunsPage]: the items, one more than the limit if there are that
    many, and whether more follow. *)
Fixpoint page_loop (fuel : nat) (pid : ProjectId) (nid : NotebookId) (jid : JobId) (limit : nat)
    (startAfter : option string) (items : list JobRun) (hasMore : bool) : prog (list JobRun * bool) :=
  if negb (length items <=? limit)%nat then mret (items, hasMore)
  else
  match fuel with
  | O => Throw (IoError "out of fuel")
  | S fuel' =>
      listed ← call (OList (index_options (runIndexPrefix pid nid jid) startAfter (Z.of_nat (limit + 1 - length items))));
      match last (lr_objects listed) with
      | None => mret (items, hasMore)
      | Some e =>
          page ← read_indexed pid nid jid (lr_objects listed);
          let items' := (items ++ firstn (limit + 1 - length items) page)%list in
          let full := negb (length items' <=? limit)%nat in
          let hasMore' := full || lr_truncated listed in
          if full || negb (lr_truncated listed) then mret (items', hasMore')
          else page_loop fuel' pid nid jid limit (Some (i_key e)) items' hasMore'
      end
  end.

Definition listRunsPage (fuel : nat) (pid : ProjectId) (nid : NotebookId) (jid : JobId) (limit : nat)
    (afterRunId : option RunId) : prog RunPage :=
  '(items, hasMore) ← page_loop fuel pid nid jid limit
      (match truthy afterRunId with Some r => Some (run_index pid nid jid r) | None => None end) [] false;
  let items := firstn limit items in
  mret {| rp_items := items;
          rp_nextRunId := if hasMore : bool then jr_run_id <$> last items else None |}.

Fixpoint list_runs (fuel : nat) (pid : ProjectId) (nid : NotebookId) (jid : JobId) (afterRunId : option RunId)
    : prog (list JobRun) :=
  match fuel with
  | O => Throw (IoError "out of fuel")
  | S fuel' =>
      page ← listRunsPage fuel pid nid jid 500 afterRunId;
      match truthy (rp_nextRunId page) with
      | None => mret (rp_items page)
      | Some r => rest ← list_runs fuel' pid nid jid (Some r); mret (rp_items page ++ rest)%list
      end
  end.
Definition listRuns (fuel : nat) (pid : ProjectId) (nid : NotebookId) (jid : JobId) : prog (list JobRun) :=
  list_runs fuel pid nid jid None.

(** The loop of [pruneJob] over the runs of the job. *)
Fixpoint prune_runs (fuel : nat) (pid : ProjectId) (nid : NotebookId) (jid : JobId) (cutoff : Z) (runs : list JobRun) : prog nat :=
  match runs with
  | [] => mret 0
  | run :: runs' =>
      if negb (isTerminalRunStatus (jr_status run)) then prune_runs fuel pid nid jid cutoff runs'
      else if negb (num_cmp Z.ltb (date_parse (jr_finished_at run ?? jr_queued_at run)) (Some cutoff))
      then prune_runs fuel pid nid jid cutoff runs'
      else
        marker ← call (OHead (jobRunMarker (jr_project_id run) (jr_run_id run)));
        match marker with
        | Some _ => prune_runs fuel pid nid jid cutoff runs'
        | None =>
            deleteByPrefix fuel (run_base pid nid jid (jr_run_id run) +:+ "/") ≫= fun _ =>
            call (ODelete [run_index pid nid jid (jr_run_id run)]) ≫= fun _ =>
            rest ← prune_runs fuel pid nid jid cutoff runs'; mret (S rest)
        end
  end.

(** The occurrence claims older than the cutoff. *)
Definition stale_occurrence (prefix : string) (cutoff : Z) (k : key) : bool :=
  match occurrenceKeyToInstant (strip_json (slice_from (String.length prefix) k)) with
  | Some instant => (instant <? cutoff)%Z
  | None => false
  end.

Definition pruneJob (fuel : nat) (pid : ProjectId) (nid : NotebookId) (jid : JobId)
    (retentionMs now occurrenceRetentionMs : Z) : prog nat :=
  let cutoff := (now - Z.max retentionMs occurrenceRetentionMs)%Z in
  runs ← listRuns fuel pid nid jid;
  pruned ← prune_runs fuel pid nid jid cutoff runs;
  keys ← listAllKeys fuel (occurrencesPrefix pid nid jid);
  match List.filter (stale_occurrence (occurrencesPrefix pid nid jid) cutoff) keys with
  | [] => mret pruned
  | stale => call (ODelete stale) ≫= fun _ => mret pruned
  end.
End JobRuns.
