(* ===== verification/Events.v ===== *)
(** * The audit log

    [packages/core/src/services/catalog/EventService.ts]: one immutable object per event.
    An append that may be repeated (the finalization of a job run after a crash) first
    writes a marker under its idempotency id that fixes the event id and the body; every
    repetition then writes that event.  Reading and paging the log is not modelled. *)

From Stdlib Require Import ZArith Lia Ascii.
From stdpp Require Import relations.
From S2P Require Import Prelude Constants Schema UtcDate Store Keys Cas CasTheorems CasEffects Listing SessionData.

(** ** Keys *)

Definition eventsForDate (date : string) : string := "_system/events/" +:+ date +:+ "/".
Definition event_path (date id : string) : key := eventsForDate date +:+ id +:+ ".json".
Definition event_idempotency (date id : string) : key :=
  eventsForDate date +:+ "_idempotency/" +:+ encodeURIComponent id +:+ ".json".

(** ** Appending *)

(** The event a caller passes, and the stored one ([EventSchema]). *)
Record AuditEvent := { ae_event : string; ae_actor : UserId; ae_fields : list (string * string) }.
Record Event := {
  ev_id : string; ev_event : string; ev_actor : UserId; ev_ts : Timestamp; ev_fields : list (string * string);
}.
(** [EventIdempotencyMarkerSchema]; the body is the text of the event. *)
Record EventMarker (B : Type) := { em_event_id : string; em_body : B }.
Arguments Build_EventMarker {B} _ _.
Arguments em_event_id {B} _.
Arguments em_body {B} _.

Record AppendOptions := { ao_id : option string; ao_timestamp : option Timestamp; ao_onlyIfAbsent : bool }.

(** [now.toISOString().slice(0, 10)] *)
Definition iso_date (ms : Z) : string := String.substring 0 10 (toISOString ms).

Section Append.
Context {B V : Type} {CE : Codec B Event} {CI : Codec B (EventMarker B)}.
Local Notation prog := (prog B V).

(** The text an idempotent append goes on with: its own candidate or the standing marker. *)
Definition standing_marker (markerKey : key) (candidate : B) : prog B :=
  created ← putIfAbsent markerKey candidate;
  if created : bool then mret candidate
  else
    stored ← call (OGet markerKey);
    match stored with
    | None => Throw (JsError ("Event idempotency marker disappeared at " +:+ markerKey))
    | Some o => mret (o_body o)
    end.

(** [append]; timestamps are in the stored format. *)
Definition append (e : AuditEvent) (options : AppendOptions) : prog unit :=
  now ← match truthy (ao_timestamp options) with
        | Some ts => match date_parse ts with Some n => mret n | None => Throw RangeError end
        | None => call ONow
        end;
  let date := iso_date now in
  eventId ← call (OFreshId "event");
  let body := stringify {| ev_id := eventId; ev_event := ae_event e; ev_actor := ae_actor e;
                           ev_ts := toISOString now; ev_fields := ae_fields e |} in
  if negb (ao_onlyIfAbsent options) then
    call (OPut (event_path date eventId) body Always) ≫= fun _ => mret tt
  else
    let markerKey := event_idempotency date (ao_id options ?? eventId) in
    text ← standing_marker markerKey (stringify (Build_EventMarker eventId body));
    match parse text with
    | None => Throw (JsError ("Invalid event idempotency marker at " +:+ markerKey))
    | Some marker =>
        putIfAbsent (event_path date (em_event_id marker)) (em_body marker) ≫= fun _ => mret tt
    end.
End Append.

(** ** Keys do not meet *)

Definition day (date : string) : Prop := String.length date = 10.
(** Marker keys, and the event keys of an id. *)
Definition marker_key (k : key) : Prop := exists date iid, day date /\ k = event_idempotency date iid.
Definition event_key (id : string) (k : key) : Prop := exists date, day date /\ k = event_path date id.

Lemma event_id_head id : is_id "event" id = true -> exists c b, id = String c b /\ ulid_char c = true.
Proof.
  unfold is_id. change (id_shape "event") with ("", 26, ulid_char). cbv beta iota.
  change (startsWith "" id) with (Some id). cbv iota. intros H. apply andb_true_iff in H as [Hl Hb].
  destruct id as [|c b]; [done|]. cbn in Hb. apply andb_true_iff in Hb as [Hc _]. eauto.
Qed.

Lemma event_not_marker id k : is_id "event" id = true -> event_key id k -> ~ marker_key k.
Proof.
  intros Hid (date & Hd & ->) (date' & iid & Hd' & E). unfold event_path, event_idempotency, eventsForDate in E.
  rewrite !string_app_assoc in E. apply string_app_inj_l in E.
  apply string_app_split_l in E as [_ E]; [|by rewrite Hd, Hd']. apply string_app_inj_l in E.
  destruct (event_id_head id Hid) as (c & b & -> & Hc).
  injection E as -> _. discriminate Hc.
Qed.

Lemma event_key_id id id' k :
  is_id "event" id = true -> is_id "event" id' = true -> event_key id k -> event_key id' k -> id = id'.
Proof.
  intros Hid Hid' (date & Hd & ->) (date' & Hd' & E). unfold event_path, eventsForDate in E.
  rewrite !string_app_assoc in E. apply string_app_inj_l in E.
  apply string_app_split_l in E as [_ E]; [|by rewrite Hd, Hd']. apply string_app_inj_l in E.
  apply string_app_split in E as [E _]; [done|done].
Qed.

Lemma substring_length n m s : (n + m <= String.length s)%nat -> String.length (String.substring n m s) = m.
Proof.
  revert n m. induction s as [|c s IH]; intros [|n] [|m] H; cbn in *; try done; try lia.
  - f_equal. apply (IH 0). lia.
  - apply (IH n 0). lia.
  - apply IH. lia.
Qed.
Lemma iso_date_day ms : day (iso_date ms).
Proof.
  apply substring_length. unfold toISOString, print_fields. generalize (fields_of_ms ms). intros f.
  assert (H : forall l, String.length (String.string_of_list_ascii l) = length l).
  { clear. induction l as [|c l IH]; [done|]. cbn. by rewrite IH. }
  rewrite H, !length_app. assert (Hd : forall n v, length (digits n v) = n).
  { clear. induction n as [|n IH]; intros v; [done|]. cbn [digits]. rewrite length_app, IH. cbn. lia. }
  rewrite !Hd. cbn. lia.
Qed.

(** ** Replicas appending to one log *)

Section Protocol.
Context {B V : Type} {CE : Codec B Event} {CI : Codec B (EventMarker B)}.
(** The stored text of a marker is read back when the marker satisfies its schema. *)
Context (marker_valid : forall m : EventMarker B, valid m <-> is_id "event" (em_event_id m) = true).
Local Notation prog := (prog B V).
Implicit Types w : world B V.

(** [m] was written as a marker at [k]. *)
Definition marked (k : key) (m : EventMarker B) w : Prop :=
  marker_key k /\ exists t o, (t, k, o) ∈ log w /\ parse (o_body o) = Some m.

#[export] Instance persistent_marked k m : Persistent (marked k m).
Proof. intros w w' Hg (Hk & t & o & Hl & Hp). split; [done|]. exists t, o. split; [by apply (grows_log _ _ Hg)|done]. Qed.

Record einv w : Prop := {
  ei_marker k t o : marker_key k -> (t, k, o) ∈ log w ->
    hist k w = [(t, o)] /\ store w !! k = Some o /\
    exists m, parse (o_body o) = Some m /\ is_Some (issued w !! em_event_id m);
  ei_unique k k' m m' : marked k m w -> marked k' m' w -> em_event_id m = em_event_id m' -> k = k';
  ei_event id k t o : is_id "event" id = true -> event_key id k -> (t, k, o) ∈ log w ->
    is_Some (issued w !! id) /\ is_Some (store w !! k) /\
    forall km m, marked km m w -> em_event_id m = id -> o_body o = em_body m;
}.

Definition named (id : string) w : Prop := exists k m, marked k m w /\ em_event_id m = id.

(** The replicas' appends: thread [t] runs the [t]-th. *)
Context (requests : list (AuditEvent * AppendOptions)).

(** The text of an event under an id, at a time its options allow. *)
Definition event_text (e : AuditEvent) (id : string) (now : Z) : B :=
  stringify {| ev_id := id; ev_event := ae_event e; ev_actor := ae_actor e; ev_ts := toISOString now; ev_fields := ae_fields e |}.
Definition stamped (options : AppendOptions) (now : Z) : Prop :=
  forall ts n, truthy (ao_timestamp options) = Some ts -> date_parse ts = Some n -> now = n.
(** [m] is a marker of [t]'s append for the key [k]: of its day and id, with its event. *)
Definition proposes (t : tid) (k : key) (m : EventMarker B) : Prop :=
  exists r now, requests !! t = Some r /\ ao_onlyIfAbsent r.2 = true /\ stamped r.2 now /\
    k = event_idempotency (iso_date now) (ao_id r.2 ?? em_event_id m) /\ em_body m = event_text r.1 (em_event_id m) now.
(** [t]'s append stores [b] as the event [id]: what the marker of its day and id says, or
    its own event under an id of its own. *)
Definition stores (t : tid) (id : string) (k : key) (b : B) w : Prop :=
  exists r now, requests !! t = Some r /\ stamped r.2 now /\ k = event_path (iso_date now) id /\
    if ao_onlyIfAbsent r.2
    then exists m own, marked (event_idempotency (iso_date now) (ao_id r.2 ?? own)) m w /\ em_event_id m = id /\ b = em_body m
    else issued w !! id = Some t /\ b = event_text r.1 id now.
#[export] Instance persistent_stores t id k b : Persistent (stores t id k b).
Proof.
  apply persistent_exists. intros r. apply persistent_exists. intros now. apply persistent_and; [apply _|]. apply persistent_and; [apply _|].
  apply persistent_and; [apply _|]. destruct (ao_onlyIfAbsent r.2); [apply _|]. apply persistent_and; [|apply _].
  intros w w' Hg. apply (grows_issued _ _ Hg).
Qed.

(** What a write of [t] may be. *)
Definition write_allowed (t : tid) (k : key) (o : object B) w : Prop :=
  (marker_key k -> exists m, parse (o_body o) = Some m /\ issued w !! em_event_id m = Some t /\ proposes t k m) /\
  (forall id, is_id "event" id = true -> event_key id k -> stores t id k (o_body o) w).
Lemma stores_named t id k b w : stores t id k b w -> issued w !! id = Some t \/ named id w.
Proof. intros (r & now & _ & _ & _ & H). destruct (ao_onlyIfAbsent r.2); [right|left; apply H]. destruct H as (m & own & Hm & <- & _). by eexists _, m. Qed.

Definition ev_step (t : tid) w w' : Prop :=
  grows w w' /\ (einv w -> einv w') /\
  forall e, e ∈ log w' -> e ∈ log w \/ exists k o, e = (t, k, o) /\ write_allowed t k o w.

#[export] Instance ev_protocol : Protocol ev_step.
Proof. split; [|by intros t w w' [? _]]. intros t w. split; [done|]. split; [done|]. auto. Qed.

#[export] Instance stable_einv t : Stable ev_step t einv.
Proof. intros w w' [(t' & _ & _ & H & _)|(ms & _ & ->)]; [done|]. by intros [? ? ?]. Qed.

Definition log_ready w : Prop := wf w /\ einv w.
#[export] Instance stable_log_ready t : Stable ev_step t log_ready.
Proof. unfold log_ready. apply _. Qed.

(** An id drawn by [t] that no marker names and under which no event is stored. *)
Definition unused (t : tid) (id : string) w : Prop :=
  is_id "event" id = true /\ issued w !! id = Some t /\ ~ named id w /\
  forall k t' o, event_key id k -> (t', k, o) ∉ log w.

#[export] Instance stable_unused t id : Stable ev_step t (fun w => log_ready w /\ unused t id w).
Proof.
  intros w w' Ho [Hr (Hid & Hi & Hn & Hk)]. split; [by apply (stable_log_ready t w w' Ho)|].
  destruct Ho as [(t' & Ht & Hg & _ & Hlog)|(ms & _ & ->)]; [|done].
  split; [done|]. split; [by apply (grows_issued _ _ Hg)|]. split.
  - intros (k & m & (Hmk & t0 & o & Hl & Hp) & Hm). destruct (Hlog _ Hl) as [Hl'|(k1 & o1 & [= -> -> ->] & [Ha _])].
    + apply Hn. exists k, m. split; [|done]. split; [done|]. by exists t0, o.
    + destruct (Ha Hmk) as (m1 & Hp1 & Hi1 & _). rewrite Hp in Hp1. simplify_eq.
  - intros k t0 o Hev Hl. destruct (Hlog _ Hl) as [Hl'|(k1 & o1 & [= -> -> ->] & [_ Ha])]; [by eapply Hk|].
    destruct (stores_named _ _ _ _ _ (Ha id Hid Hev)) as [Hi'|Hn']; [|done]. rewrite Hi in Hi'. by simplify_eq.
Qed.

Lemma marked_write k m t w k' o :
  marked k m (write t w k' o) -> marked k m w \/ (k = k' /\ parse (o_body o) = Some m).
Proof.
  intros (Hk & t0 & o0 & Hl & Hp). cbn in Hl. apply elem_of_cons in Hl as [Hl|Hl]; [right; by simplify_eq|left].
  split; [done|]. by exists t0, o0.
Qed.

Lemma ev_step_write t w k b e : let o := {| o_body := b; o_etag := e; o_uploaded := clock w |} in
  etag_ok w k b e -> write_allowed t k o w -> (einv w -> einv (write t w k o)) -> ev_step t w (write t w k o).
Proof.
  intros o He Ha Hi. split; [|split; [done|]].
  - eapply (sem_grows t (OPut k b Always)). right. split; [done|]. by exists e.
  - intros x Hx. cbn in Hx. apply elem_of_cons in Hx as [->|Hx]; [right|by left]. by exists k, o.
Qed.

Lemma step_marker t w k m e : let o := {| o_body := stringify m; o_etag := e; o_uploaded := clock w |} in
  marker_key k -> proposes t k m -> store w !! k = None -> etag_ok w k (stringify m) e -> unused t (em_event_id m) w ->
  ev_step t w (write t w k o) /\ (einv w -> marked k m (write t w k o)).
Proof.
  intros o Hk Hprop Hs He (Hid & Hi & Hn & Hev). assert (Hp : parse (o_body o) = Some m).
  { by apply parse_stringify, marker_valid. }
  split; [|intros _; split; [done|]; exists t, o; split; [by left|done]].
  apply ev_step_write; [done| |].
  { split; [by intros _; exists m|]. intros id Hid' Hk'. by destruct (event_not_marker id k). }
  intros [H1 H2 H3]. assert (Hnone : forall t' o', (t', k, o') ∉ log w).
  { intros t' o' Hl. destruct (H1 k t' o' Hk Hl) as (_ & E & _). by rewrite Hs in E. }
  assert (Hh : hist k w = []).
  { destruct (hist k w) as [|[t' o'] l] eqn:E; [done|]. destruct (Hnone t' o'). apply elem_of_hist. rewrite E. by left. }
  split.
  - intros k' t' o' Hk' Hl. cbn in Hl. rewrite hist_write. destruct (bool_decide_reflect (k = k')) as [<-|Hne].
    + apply elem_of_cons in Hl as [Hl|Hl]; [|by destruct (Hnone t' o')]. injection Hl as -> ->. rewrite Hh.
      split; [done|]. split; [by apply lookup_insert_eq|]. exists m. split; [done|]. cbn. by rewrite Hi.
    + apply elem_of_cons in Hl as [Hl|Hl]; [by simplify_eq|]. cbn. rewrite lookup_insert_ne by done. by apply H1.
  - intros k1 k2 m1 m2 Hm1 Hm2 E.
    destruct (marked_write _ _ _ _ _ _ Hm1) as [Hm1'|[-> E1]], (marked_write _ _ _ _ _ _ Hm2) as [Hm2'|[-> E2]]; [by eapply H2| | |done].
    + pose proof (eq_trans (eq_sym Hp) E2). simplify_eq. destruct Hn. by exists k1, m1.
    + pose proof (eq_trans (eq_sym Hp) E1). simplify_eq. destruct Hn. by exists k2, m2.
  - intros id k' t' o' Hid' Hk' Hl. cbn in Hl. assert (k <> k') by (intros ->; by destruct (event_not_marker id k')).
    apply elem_of_cons in Hl as [Hl|Hl]; [by simplify_eq|]. destruct (H3 id k' t' o' Hid' Hk' Hl) as (G1 & G2 & G3).
    split; [done|]. split; [cbn; by rewrite lookup_insert_ne|]. intros km m' Hm' Em.
    destruct (marked_write _ _ _ _ _ _ Hm') as [?|[-> E]]; [by eapply G3|]. pose proof (eq_trans (eq_sym Hp) E). simplify_eq.
    by destruct (Hev k' t' o' Hk').
Qed.

Lemma step_event t w k id b e : let o := {| o_body := b; o_etag := e; o_uploaded := clock w |} in
  is_id "event" id = true -> event_key id k -> etag_ok w k b e -> stores t id k b w -> (einv w -> is_Some (issued w !! id)) ->
  (einv w -> forall km m, marked km m w -> em_event_id m = id -> b = em_body m) ->
  ev_step t w (write t w k o).
Proof.
  intros o Hid Hk He Ha Hi Hb. pose proof (event_not_marker id k Hid Hk) as Hnk. apply ev_step_write; [done| |].
  { split; [done|]. intros id' Hid' Hk'. by rewrite (event_key_id id' id k). }
  intros Hinv. pose proof Hinv as [H1 H2 H3].
  assert (Hold : forall km m, marked km m (write t w k o) -> marked km m w).
  { intros km m Hm. destruct (marked_write _ _ _ _ _ _ Hm) as [?|[-> _]]; [done|]. by destruct Hm. }
  split.
  - intros k' t' o' Hk' Hl. assert (k <> k') by (by intros ->). cbn in Hl.
    apply elem_of_cons in Hl as [Hl|Hl]; [by simplify_eq|]. rewrite hist_write, bool_decide_eq_false_2 by done.
    cbn. rewrite lookup_insert_ne by done. by apply H1.
  - intros k1 k2 m1 m2 Hm1 Hm2. by apply H2; apply Hold.
  - intros id' k' t' o' Hid' Hk' Hl. cbn in Hl. apply elem_of_cons in Hl as [Hl|Hl].
    + injection Hl as -> -> ->. rewrite (event_key_id id' id k) by done. split; [by apply Hi|].
      split; [cbn; by rewrite lookup_insert_eq|]. intros km m Hm. apply (Hb Hinv km). by apply Hold.
    + destruct (H3 id' k' t' o' Hid' Hk' Hl) as (G1 & G2 & G3). split; [done|]. split.
      * cbn. destruct (decide (k = k')) as [->|]; [by rewrite lookup_insert_eq|by rewrite lookup_insert_ne].
      * intros km m Hm. apply (G3 km). by apply Hold.
Qed.

Lemma fresh_unused t :
  hoare ev_step t log_ready (call (OFreshId "event"))
    (fun r w => exists id, r = Ok id /\ log_ready w /\ unused t id w).
Proof.
  apply hoare_call; [apply _|apply _|]. intros w r w' [Hw Hi] [(id & Hid & Hnone & -> & ->)|[? _]]; [|done].
  assert (Hg : grows w (set_issued w (<[id := t]> (issued w)))).
  { eapply (sem_grows t (OFreshId "event")). by exists id. }
  assert (Hi' : einv (set_issued w (<[id := t]> (issued w)))).
  { assert (Hs : forall x, is_Some (issued w !! x) -> is_Some ((<[id := t]> (issued w)) !! x)).
    { intros x [y Hy]. exists y. by apply (grows_issued _ _ Hg). }
    destruct Hi as [H1 H2 H3]. split; [| |].
    - intros k t' o Hk Hl. destruct (H1 k t' o Hk Hl) as (? & ? & m & ? & ?). split; [done|]. split; [done|]. exists m. split; [done|]. by apply Hs.
    - exact H2.
    - intros i k t' o Hii Hk Hl. destruct (H3 i k t' o Hii Hk Hl) as (? & ? & ?). split; [by apply Hs|]. by split. }
  split; [split; [done|]; split; [by intros _|by left]|]. exists id. split; [done|]. split; [split; [by apply (grows_wf _ _ Hg)|done]|].
  split; [done|]. split; [by apply lookup_insert_eq|]. split.
  - intros (k & m & (Hk & t0 & o & Hl & Hp) & <-). destruct (ei_marker _ Hi k t0 o Hk Hl) as (_ & _ & m' & Hp' & [x Hx]).
    rewrite Hp in Hp'. simplify_eq.
  - intros k t0 o Hk Hl. destruct (ei_event _ Hi id k t0 o Hid Hk Hl) as ([x Hx] & _). by rewrite Hnone in Hx.
Qed.

(** ** Every append *)

Lemma marked_one w k m m' : einv w -> marked k m w -> marked k m' w -> m = m'.
Proof.
  intros Hi (Hk & t & o & Hl & Hp) (_ & t' & o' & Hl' & Hp').
  destruct (ei_marker _ Hi k t o Hk Hl) as (_ & E & _), (ei_marker _ Hi k t' o' Hk Hl') as (_ & E' & _). by simplify_eq.
Qed.

Lemma marked_id k m w : marked k m w -> is_id "event" (em_event_id m) = true.
Proof. intros (_ & t & o & _ & Hp). apply marker_valid. by eapply parse_valid. Qed.

(** An event was written at [k]. *)
Definition recorded (k : key) w : Prop := exists t o, (t, k, o) ∈ log w.
#[export] Instance persistent_recorded k : Persistent (recorded k).
Proof. intros w w' Hg (t & o & Hl). exists t, o. by apply (grows_log _ _ Hg). Qed.

Definition found_marker (k : key) (x : option (object B)) w : Prop :=
  log_ready w /\ match x with Some o => exists m : EventMarker B, parse (o_body o) = Some m /\ marked k m w | None => True end.
#[export] Instance stable_found_marker t k x : Stable ev_step t (found_marker k x).
Proof. unfold found_marker. destruct x; apply _. Qed.

Lemma standing_marker_spec t k m : marker_key k -> proposes t k m ->
  hoare ev_step t (fun w => log_ready w /\ unused t (em_event_id m) w) (standing_marker k (stringify m))
    (fun r w => log_ready w /\ match r with Ok text => exists m', parse text = Some m' /\ marked k m' w | Err _ => True end).
Proof.
  intros Hk Hprop. unfold standing_marker. eapply hoare_bind.
  - apply (hoare_putIfAbsent ev_step t k (stringify m) _ (fun w => log_ready w /\ marked k m w) (fun w => exists m', marked k m' w)); [apply _..| |].
    + intros w e [[Hw Hi] Hu] Hs He. destruct (step_marker t w k m e Hk Hprop Hs He Hu) as [HG Hm]. split; [exact HG|].
      split; [|by apply Hm]. split; [|by apply HG]. by apply wf_write.
    + intros w o [[Hw Hi] _] Hs. destruct (wf_stored _ Hw _ _ Hs) as [t0 Hl].
      destruct (ei_marker _ Hi k t0 o Hk Hl) as (_ & _ & m' & Hp & _). exists m'. split; [done|]. by exists t0, o.
  - intros [|].
    + apply hoare_ret; [apply _|]. intros w [Hr Hm]. split; [done|]. exists m. split; [|done].
      by apply parse_stringify, marker_valid, (marked_id k m w).
    + eapply hoare_bind; [apply (hoare_get ev_step t k _ (found_marker k))| |].
      * intros w [[Hr _] _]. split; [done|]. destruct Hr as [Hw Hi]. destruct (store w !! k) as [o|] eqn:E; [|done].
        destruct (wf_stored _ Hw _ _ E) as [t0 Hl]. destruct (ei_marker _ Hi k t0 o Hk Hl) as (_ & _ & m' & Hp & _).
        exists m'. split; [done|]. split; [done|]. by exists t0, o.
      * intros [o|]; [by apply hoare_ret; [apply _|]|]. apply hoare_throw; [apply _|]. by intros w [? _].
      * intros e. apply hoare_throw; [apply _|]. by intros w [[[? _] _] _].
  - intros e. apply hoare_throw; [apply _|]. intros w [[[? _]|[? _]] _]; done.
Qed.

Lemma put_marked_spec t k m date : day date ->
  (forall w, marked k m w -> stores t (em_event_id m) (event_path date (em_event_id m)) (em_body m) w) ->
  hoare ev_step t (fun w => log_ready w /\ marked k m w) (putIfAbsent (event_path date (em_event_id m)) (em_body m))
    (fun r w => (log_ready w /\ marked k m w) /\ match r with Ok _ => recorded (event_path date (em_event_id m)) w | Err _ => True end).
Proof.
  intros Hd Hst. eapply hoare_post; [|apply (hoare_putIfAbsent ev_step t _ _ _
    (fun w => (log_ready w /\ marked k m w) /\ recorded (event_path date (em_event_id m)) w)
    (recorded (event_path date (em_event_id m)))); [apply _..| |]].
  - intros [[|]|e] w; [done|done|]. intros [[?|[? _]] _]; done.
  - intros w e [[Hw Hi] Hm] _ He o. pose proof (marked_id k m w Hm) as Hid. assert (HG : ev_step t w (write t w (event_path date (em_event_id m)) o)).
    { apply (step_event t w _ (em_event_id m)); [done|by exists date|done|by apply Hst| |].
      - intros _. destruct Hm as (Hk & t0 & o0 & Hl & Hp). destruct (ei_marker _ Hi k t0 o0 Hk Hl) as (_ & _ & m' & Hp' & ?). by simplify_eq.
      - intros _ km m' Hm' E. assert (km = k) as -> by (by eapply (ei_unique _ Hi)). by rewrite (marked_one w k m m'). }
    split; [done|]. split; [split; [split; [by apply wf_write|by apply HG]|]|by exists t, o; left].
    eapply persistent; [apply HG|done].
  - intros w o [[Hw _] _] Hs. destruct (wf_stored _ Hw _ _ Hs) as [t0 Hl]. by exists t0, o.
Qed.

(** The day and id of an append that may be repeated. *)
Definition repeatable (options : AppendOptions) (date iid : string) : Prop :=
  ao_onlyIfAbsent options = true /\ ao_id options = Some iid /\
  exists ts n, truthy (ao_timestamp options) = Some ts /\ date_parse ts = Some n /\ date = iso_date n.

Definition appended (options : AppendOptions) w : Prop :=
  forall date iid, repeatable options date iid ->
    exists m, marked (event_idempotency date iid) m w /\ recorded (event_path date (em_event_id m)) w.

Lemma append_spec t e options : requests !! t = Some (e, options) ->
  hoare ev_step t log_ready (append e options)
    (fun r w => log_ready w /\ match r with Ok _ => appended options w | Err _ => True end).
Proof.
  intros Hq. unfold append. eapply hoare_bind with (M := fun r w => log_ready w /\ match r with Ok n => stamped options n | Err _ => True end).
  { destruct (truthy (ao_timestamp options)) as [ts|] eqn:Hts; [destruct (date_parse ts) as [n|] eqn:E|].
    - apply hoare_ret; [apply _|]. intros w Hw. split; [done|]. intros ts' n' Ets En. rewrite Ets in Hts. injection Hts as ->. congruence.
    - apply hoare_throw; [apply _|]. done.
    - eapply hoare_post; [|apply (hoare_now ev_step t log_ready (fun _ => True)); done].
      intros r w (n & -> & _ & _ & Hw). split; [done|]. intros ts' n' Ets. by rewrite Hts in Ets. }
  2: { intros err. apply hoare_throw; [apply _|]. done. }
  intros n. eapply hoare_pre; [intros w Hw; exact (conj (proj2 Hw) (proj1 Hw))|]. apply hoare_pure. intros Hn.
  eapply hoare_bind; [apply fresh_unused| |intros err; apply hoare_throw; [apply _|]; by intros w (? & [=] & _)].
  intros eid. eapply hoare_pre with (P := fun w => log_ready w /\ unused t eid w); [by intros w (id & [= <-] & ?)|].
  destruct (ao_onlyIfAbsent options) eqn:Honly; cbn [negb].
  - eapply hoare_bind; [apply (standing_marker_spec t _ (Build_EventMarker eid _)); [exists (iso_date n), (ao_id options ?? eid); by split; [apply iso_date_day|]|by exists (e, options), n]| |].
    2: { intros err. apply hoare_throw; [apply _|]. by intros w [? _]. }
    intros text. destruct (parse text) as [m|] eqn:Hp.
    2: { apply hoare_throw; [apply _|]. by intros w [? _]. }
    eapply hoare_pre with (P := fun w => log_ready w /\ marked (event_idempotency (iso_date n) (ao_id options ?? eid)) m w).
    { intros w [? (m' & E & ?)]. split; [done|]. rewrite Hp in E. by injection E as ->. }
    eapply hoare_bind; [apply put_marked_spec; [apply iso_date_day|]| |].
    { intros w Hm. exists (e, options), n. cbn. rewrite Honly. split_and!; try done. by exists m, eid. }
    + intros b. apply hoare_ret; [apply _|]. intros w [[Hr Hm] Hrec]. split; [done|].
      intros date iid (_ & Hid & ts & n' & Hts & Hd & ->). rewrite (Hn ts n' Hts Hd) in *. exists m.
      by rewrite Hid in Hm.
    + intros err. apply hoare_throw; [apply _|]. by intros w [[? _] _].
  - eapply hoare_bind with (M := fun _ => log_ready).
    2: { intros i. apply hoare_ret; [apply _|]. intros w Hw. split; [done|]. intros date iid [E _]. congruence. }
    2: { intros err. by apply hoare_throw; [apply _|]. }
    eapply hoare_post; [|apply (hoare_put ev_step t (event_path (iso_date n) eid) _ Always _ (fun _ => log_ready)); [apply _..|]].
    + intros [i|[]] w; cbn; try done; try (by intros [? _]); by intros [[? _]|[_ ?]].
    + intros w er [[Hw Hi] Hu] _ He o. assert (HG : ev_step t w (write t w (event_path (iso_date n) eid) o)).
      { destruct Hu as (Hid & Hiss & Hnm & _). apply (step_event t w _ eid); [done|exists (iso_date n); by split; [apply iso_date_day|]|done| |by rewrite Hiss|].
        { exists (e, options), n. cbn. by rewrite Honly. }
        intros _ km m Hm E. destruct Hnm. by exists km, m. }
      split; [done|]. split; [by apply wf_write|by apply HG].
Qed.

Definition start_log w : config B V unit := Config (map (fun r => append r.1 r.2) requests) w.
Lemma log_verified w : log_ready w ->
  verified ev_step (fun i r w => log_ready w /\ match r, requests !! i with Ok _, Some q => appended q.2 w | _, _ => True end) (start_log w).
Proof.
  intros Hw i p Hp. cbn in Hp. rewrite list_lookup_fmap in Hp. destruct (requests !! i) as [[e o]|] eqn:E; [|done].
  injection Hp as <-. eapply rg_weaken; [|by apply (append_spec i e o)]. by intros [] w' [? ?].
Qed.

(** Where every object of the log comes from. *)
Definition told (w0 w : world B V) : Prop := forall t k o, (t, k, o) ∈ log w -> (t, k, o) ∈ log w0 \/
  (marker_key k -> exists m, parse (o_body o) = Some m /\ proposes t k m) /\
  (forall id, is_id "event" id = true -> event_key id k -> stores t id k (o_body o) w).
Lemma log_told w c : log_ready w -> rtc pool_step (start_log w) c -> log_ready (wd c) /\ told w (wd c).
Proof.
  intros Hw Hr. eapply (pool_invariant ev_step _ (fun w' => log_ready w' /\ told w w')); [| |by apply log_verified| |exact Hr].
  - intros t w1 w2 (Hg & Hs & Hl) [[? ?] Ht]. split; [split; [by apply (grows_wf _ _ Hg)|auto]|].
    intros t' k o Hin. destruct (Hl _ Hin) as [Hin'|(k0 & o0 & [= -> -> ->] & [Hm He])].
    + destruct (Ht _ _ _ Hin') as [?|[Hm He]]; [by left|right]. split; [done|]. intros id Hid Hk. eapply persistent; [exact Hg|by apply He].
    + right. split; [|intros id Hid Hk; eapply persistent; [exact Hg|by apply He]]. intros Hk. destruct (Hm Hk) as (m & ? & _ & ?). by exists m.
  - intros w1 ms Hms [[? [? ? ?]] Ht]. split; [split; [by apply (grows_wf _ _ (grows_tick _ _ Hms))|done]|]. exact Ht.
  - split; [done|]. by left.
Qed.

Lemma marker_body w0 w date iid m t o : told w0 w -> day date -> (t, event_idempotency date iid, o) ∈ log w -> parse (o_body o) = Some m ->
  (t, event_idempotency date iid, o) ∈ log w0 \/ proposes t (event_idempotency date iid) m.
Proof.
  intros Ht Hd Hl Hp. destruct (Ht _ _ _ Hl) as [?|[Hm _]]; [by left|right]. destruct Hm as (m' & Hp' & ?); [by exists date, iid|]. rewrite Hp in Hp'. by injection Hp' as ->.
Qed.

(** C31: an audit event that may be appended again after a crash is in the log exactly
    once, and is the event that was appended.  Whatever any number of replicas append at
    once and whatever storage faults they meet: one marker at most is ever written for a day
    and an idempotency id, it names an event no other marker names, and its body is the text
    of the event of one of the appends with that day and id; each of those appends stores no
    event but that one, under its one key and with that text, so repeating one never adds an
    event; and once one of them has returned, both the marker and the event are stored. *)
Theorem audit_event_once w c :
  wf w -> einv w -> rtc pool_step (start_log w) c ->
  (forall date iid m, day date -> marked (event_idempotency date iid) m (wd c) ->
     (forall m', marked (event_idempotency date iid) m' (wd c) -> m' = m) /\
     (forall k m', marked k m' (wd c) -> em_event_id m' = em_event_id m -> k = event_idempotency date iid) /\
     (forall t o, (t, event_path date (em_event_id m), o) ∈ log (wd c) -> o_body o = em_body m) /\
     (marked (event_idempotency date iid) m w \/ exists t, proposes t (event_idempotency date iid) m)) /\
  (forall t r date iid id k o, requests !! t = Some r -> repeatable r.2 date iid ->
     is_id "event" id = true -> event_key id k -> (t, k, o) ∈ log (wd c) -> (t, k, o) ∉ log w ->
     exists m, marked (event_idempotency date iid) m (wd c) /\ k = event_path date (em_event_id m) /\ o_body o = em_body m) /\
  (forall t r date iid, requests !! t = Some r -> threads c !! t = Some (Ret tt) -> repeatable r.2 date iid ->
     exists m o, marked (event_idempotency date iid) m (wd c) /\
       store (wd c) !! event_path date (em_event_id m) = Some o /\ o_body o = em_body m).
Proof.
  intros Hw Hi Hr. destruct (log_told w c (conj Hw Hi) Hr) as [[Hwc Hic] Htold].
  assert (Hbody : forall date iid m t o, day date -> marked (event_idempotency date iid) m (wd c) ->
    (t, event_path date (em_event_id m), o) ∈ log (wd c) -> is_Some (store (wd c) !! event_path date (em_event_id m)) /\ o_body o = em_body m).
  { intros date iid m t o Hd Hm Hl. destruct (ei_event _ Hic (em_event_id m) (event_path date (em_event_id m)) t o) as (_ & Hs & Hb); [by eapply marked_id|by exists date|done|].
    split; [done|]. by eapply Hb. }
  split; [|split].
  - intros date iid m Hd Hm. split_and!.
    + intros m' Hm'. by eapply marked_one.
    + intros k m' Hm' E. by eapply (ei_unique _ Hic).
    + intros t o Hl. by eapply Hbody.
    + destruct Hm as (Hk & t & o & Hl & Hp). destruct (marker_body w _ _ _ _ _ _ Htold Hd Hl Hp) as [?|?]; [left|right; by exists t]. split; [done|]. by exists t, o.
  - intros t r date iid id k o Hq (Honly & Hiid & ts & n & Hts & Hn & ->) Hid Hk Hl Hnew. destruct (Htold _ _ _ Hl) as [?|[_ He]]; [done|].
    destruct (He id Hid Hk) as (r' & now & Hq' & Hst & -> & Hcase). rewrite Hq in Hq'. injection Hq' as <-. rewrite Honly, Hiid, (Hst ts n Hts Hn) in *.
    destruct Hcase as (m & own & Hm & <- & ->). by exists m.
  - intros t r date iid Hq Ht Hrep. pose proof (pool_result ev_step _ _ _ t tt (log_verified w (conj Hw Hi)) Hr Ht) as [_ Ha]. rewrite Hq in Ha.
    destruct (Ha date iid Hrep) as (m & Hm & t' & o & Hl). assert (Hd : day date).
    { destruct Hrep as (_ & _ & ts & n & _ & _ & ->). apply iso_date_day. }
    destruct (Hbody date iid m t' o Hd Hm Hl) as [[o' Ho'] _]. exists m, o'. split; [done|]. split; [done|].
    destruct (wf_stored _ Hwc _ _ Ho') as [t2 Hl']. by eapply Hbody.
Qed.
End Protocol.

(** ** A run: two replicas append the same event, and a third another one *)
Module EventSample.
Inductive doc := DEvent (e : Event) | DMarker (id : string) (body : doc).

#[export, refine] Instance event_codec : Codec doc Event := {|
  valid _ := True; stringify := DEvent; parse b := match b with DEvent e => Some e | _ => None end |}.
Proof. all: done. Defined.
#[export, refine] Instance marker_codec : Codec doc (EventMarker doc) := {|
  valid m := is_id "event" (em_event_id m) = true; stringify m := DMarker (em_event_id m) (em_body m);
  parse b := match b with DMarker i d => if is_id "event" i then Some (Build_EventMarker i d) else None | _ => None end |}.
Proof.
  - intros [i d] H. cbn in *. by rewrite H.
  - intros [e|i d] x; [done|]. destruct (is_id "event" i) eqn:E; [|done]. by intros [= <-].
Defined.

Definition finish : AuditEvent := {| ae_event := "job.run.finish"; ae_actor := "system"; ae_fields := [("attempt", "1")] |}.
Definition once : AppendOptions :=
  {| ao_id := Some "01ARZ3NDEKTSV69G4800000000"; ao_timestamp := Some "2026-09-02T06:00:00.000Z"; ao_onlyIfAbsent := true |}.
Definition plain : AppendOptions := {| ao_id := None; ao_timestamp := None; ao_onlyIfAbsent := false |}.
Definition requests : list (AuditEvent * AppendOptions) := [(finish, once); (finish, once); (finish, plain)].
Definition w0 : world doc unit := empty_world.
Definition progs := map (fun r => append (V := unit) r.1 r.2) requests.

Lemma empty_einv : einv w0.
Proof. split; [intros k t o _ H; inversion H|intros k k' m m' (_ & t & o & H & _); inversion H|intros id k t o _ _ H; inversion H]. Qed.

Lemma all_appended :
  rtc pool_step (Config progs w0) (Config ([] ++ (run_seq 0 progs w0).1) (run_seq 0 progs w0).2) /\ mem_wf (run_seq 0 progs w0).2.
Proof.
  assert (Hok : run_seq_ok 0 progs w0 = true) by (vm_compute; reflexivity).
  assert (Hm : mem_wf w0) by (intros t k o H; inversion H).
  exact (run_seq_reaches [] progs w0 Hm Hok).
Qed.

(** The event of the first append, as the second finds it. *)
Lemma audit_event_once_witness :
  exists m o, marked (event_idempotency "2026-09-02" "01ARZ3NDEKTSV69G4800000000") m (run_seq 0 progs w0).2 /\
    store (run_seq 0 progs w0).2 !! event_path "2026-09-02" (em_event_id m) = Some o /\ o_body o = em_body m /\
    (marked (event_idempotency "2026-09-02" "01ARZ3NDEKTSV69G4800000000") m w0 \/
     exists t, proposes requests t (event_idempotency "2026-09-02" "01ARZ3NDEKTSV69G4800000000") m).
Proof.
  assert (Hv : forall m : EventMarker doc, valid m <-> is_id "event" (em_event_id m) = true) by done.
  destruct (audit_event_once Hv requests w0 (Config ([] ++ (run_seq 0 progs w0).1) (run_seq 0 progs w0).2)
    wf_empty empty_einv (proj1 all_appended)) as (Hm & _ & H).
  destruct (H 1 (finish, once) "2026-09-02" "01ARZ3NDEKTSV69G4800000000") as (m & o & Hmk & Ho & Hb).
  - reflexivity.
  - vm_compute. reflexivity.
  - split; [reflexivity|]. split; [reflexivity|]. exists "2026-09-02T06:00:00.000Z", 1788328800000%Z.
    split; [reflexivity|]. split; vm_compute; reflexivity.
  - exists m, o. split; [exact Hmk|]. split; [exact Ho|]. split; [exact Hb|]. apply (Hm "2026-09-02" "01ARZ3NDEKTSV69G4800000000" m); [reflexivity|exact Hmk].
Defined.
End EventSample.
