(* ===== verification/JobScheduler.v ===== *)
(** * The job scheduler

    [packages/core/src/services/jobs/JobScheduler.ts] and the reads of
    [JobsService.ts] it makes: firing a due occurrence, finalizing a finished run
    (audit, retry, notification), admission under the caps and the deadline of the
    watchdog.  The code runs [fire] and [finalize] under the job's operation claim; the
    definitions are the work done under it, and nothing proved of them needs the claim.
    The project and notebook services are an interface ([JobReads]), the cron engine and
    the alert dispatcher are parameters. *)

From Stdlib Require Import ZArith Lia.
From stdpp Require Import pretty.
From S2P Require Import Prelude Constants Lifecycle Schema UtcDate Store Keys Cas CasEffects SessionData CatalogData Cron JobData JobRuns Events.
Import RunState.

(** ** Pure decisions *)

(** [JobSchedulerConfig] *)
Record JobSchedulerConfig := {
  catchupWindowMs : Z; maxConcurrentRuns : Z; maxConcurrentRunsPerProject : Z;
  defaultTimeoutMs : Z; maxTimeoutMs : Z; watchdogGraceMs : option Z;
}.
Definition DEFAULT_WATCHDOG_GRACE_MS : Z := 120000.

(** The order of [admit]: eligibility, then id; texts of ids and timestamps compare by
    their characters. *)
Definition eligible_from (r : JobRun) : Timestamp := jr_eligible_at r ?? jr_queued_at r.
Definition admit_le (a b : JobRun) : bool :=
  match String.compare (eligible_from a) (eligible_from b) with
  | Lt => true
  | Gt => false
  | Eq => String.leb (jr_run_id a) (jr_run_id b)
  end.

Definition count_project (pid : ProjectId) (rs : list JobRun) : Z :=
  Z.of_nat (length (List.filter (fun r => jr_project_id r === pid) rs)).

(** The loop of [admit]: [total] runs in all, [perProject] counts them. *)
Fixpoint admit_loop (cfg : JobSchedulerConfig) (ordered : list JobRun) (total : Z) (perProject : ProjectId -> Z) : list JobRun :=
  match ordered with
  | [] => []
  | run :: ordered' =>
      if (total >=? maxConcurrentRuns cfg)%Z then []
      else
        let active := perProject (jr_project_id run) in
        if (active >=? maxConcurrentRunsPerProject cfg)%Z then admit_loop cfg ordered' total perProject
        else run :: admit_loop cfg ordered' (total + 1)%Z
               (fun p => if p === jr_project_id run then (active + 1)%Z else perProject p)
  end.

Definition admit_runs (cfg : JobSchedulerConfig) (queued running : list JobRun) : list JobRun :=
  admit_loop cfg (js_sort admit_le queued) (Z.of_nat (length running)) (fun p => count_project p running).

(** [timeoutSeconds] *)
Definition timeoutSeconds (cfg : JobSchedulerConfig) (job : JobDefinition) : Z :=
  let requested := match jd_timeout_seconds job with Some s => (s * 1000)%Z | None => defaultTimeoutMs cfg end in
  (Z.min requested (maxTimeoutMs cfg) / 1000)%Z.

(** The guards of [watchdog]: an active run past its deadline and the grace. *)
Definition overdue (cfg : JobSchedulerConfig) (run : JobRun) (now : Z) : bool :=
  isActiveRunStatus (jr_status run) &&
  let grace := watchdogGraceMs cfg ?? DEFAULT_WATCHDOG_GRACE_MS in
  let deadline := match truthy (jr_deadline_at run) with
                  | Some d => date_parse d
                  | None => q ← date_parse (jr_queued_at run); Some (q + maxTimeoutMs cfg)%Z
                  end in
  negb (num_cmp Z.ltb (Some now) (d ← deadline; Some (d + grace)%Z)).

Definition watchdog_error (run : JobRun) : RunError :=
  run_error "RUN_TIMED_OUT" ("The run exceeded its " +:+ pretty (jr_timeout_seconds run) +:+ "s timeout and was reclaimed").

(** ** The audit event of a finished run *)

Definition run_status_name (s : RunStatus) : string :=
  match s with
  | RQueued => "queued" | RProvisioning => "provisioning" | RRunning => "running" | RSucceeded => "succeeded"
  | RFailed => "failed" | RTimedOut => "timed_out" | RCancelled => "cancelled" | RSkipped => "skipped"
  end.
Definition trigger_name (t : RunTrigger) : string := match t with TSchedule => "schedule" | TManual => "manual" end.
Definition SYSTEM_ACTOR : UserId := "system".

(** [Math.max(0, Math.round((finished - started) / 1000))] *)
Definition duration_seconds (started finished : Z) : Z := Z.max 0 ((2 * (finished - started) + 1000) / 2000).

(** [jobRunFinishEvent] *)
Definition jobRunFinishEvent (run : JobRun) : AuditEvent := {|
  ae_event := "job.run.finish";
  ae_actor := jr_triggered_by run ?? SYSTEM_ACTOR;
  ae_fields :=
    [("project_id", jr_project_id run); ("notebook_id", jr_notebook_id run); ("job_id", jr_job_id run);
     ("run_id", jr_run_id run); ("status", run_status_name (jr_status run)); ("trigger", trigger_name (jr_trigger run));
     ("attempt", pretty (jr_attempt run))] ++
    match jr_exit_code run with Some c => [("exit_code", pretty c)] | None => [] end ++
    match jr_error run with Some e => [("error_code", re_code e)] | None => [] end ++
    match truthy (jr_started_at run) ≫= date_parse, truthy (jr_finished_at run) ≫= date_parse with
    | Some s, Some f => [("duration_seconds", pretty (duration_seconds s f))]
    | _, _ => []
    end;
|}.

(** [appendJobRunFinishEvent]: repeatable, under the id of the run. *)
Definition finish_options (run : JobRun) : AppendOptions :=
  {| ao_id := Some (slice_from 4 (jr_run_id run)); ao_timestamp := Some (jr_finished_at run ?? jr_queued_at run); ao_onlyIfAbsent := true |}.

(** ** Firing and finalizing *)

(** What the scheduler reads through the project and notebook services. *)
Class JobReads (B V : Type) := {
  project_status : ProjectId -> prog B V ProjectStatus;
  notebook_status : ProjectId -> NotebookId -> prog B V NotebookStatus;
  current_version : ProjectId -> NotebookId -> prog B V (option VersionId);
  indexed_snapshot : prog B V Snapshot;
}.

(** [indexedJobs]: the jobs a snapshot lists, those of deleted parents left out. *)
Record IndexedJob := { ij_projectId : ProjectId; ij_notebookId : NotebookId; ij_entry : SnapshotJobEntry }.
Definition notebook_jobs (pid : ProjectId) (n : SnapshotNotebookEntry) : list IndexedJob :=
  if n_status n === NbDeleted then []
  else map (fun e => {| ij_projectId := pid; ij_notebookId := n_id n; ij_entry := e |}) (n_jobs n ?? []).
Definition indexedJobs (s : Snapshot) : list IndexedJob :=
  concat (map (fun p => if e_status p === ProjectDeleted then [] else concat (map (notebook_jobs (e_id p)) (e_notebooks p))) (projects s)).

(** [TickResult] *)
Record TickResult := { tk_fired : nat; tk_repaired : nat; tk_skipped : nat; tk_dispatched : nat;
                       tk_timedOut : nat; tk_markersPruned : nat; tk_errors : nat }.
#[export] Instance TickResult_settable : Settable TickResult := fun t =>
  Build_TickResult (tk_fired t) (tk_repaired t) (tk_skipped t) (tk_dispatched t) (tk_timedOut t) (tk_markersPruned t) (tk_errors t).
Definition no_ticks : TickResult := Build_TickResult 0 0 0 0 0 0 0.

Inductive fire_outcome := Fired | Repaired | SkippedFire | NotFired.
#[export] Instance fire_outcome_eq_dec : EqDecision fire_outcome.
Proof. solve_decision. Defined.

Section Scheduler.
Context {B V : Type} {CR : Codec B JobRun} {CM : Codec B JobRunMarker} {CO : Codec B JobOccurrence}.
Context {CD : Codec B JobDefinition} {CE : Codec B Event} {CI : Codec B (EventMarker B)} {Reads : JobReads B V}.
Context (blank : B) (cfg : JobSchedulerConfig).
Context (new_Cron : string -> cron_construction) (strip_prefix : string -> string) (show : nat -> string).
(** [new Cron(expression, { timezone })]: its [nextRun], or it throws. *)
Context (cronFor : string -> string -> option (Z -> option Z)).
(** Whether events and alerts are wired, and the delivery of an alert. *)
Context (has_events has_alerts : bool) (deliver : JobDefinition -> JobRun -> prog B V unit).
(** The sandbox provider destroying a sandbox. *)
Context (destroy : SandboxId -> prog B V unit).
Local Notation prog := (prog B V).

(** [JobsService.getJob] and [JobsService.isDeleting] *)
Definition getJob (pid : ProjectId) (nid : NotebookId) (jid : JobId) : prog JobDefinition :=
  let k := job_head pid nid jid in
  obj ← call (OGet k);
  match obj with
  | None => Throw (NotFoundError ("Job " +:+ jid +:+ " not found"))
  | Some o => readStored o k
  end.
Definition isDeleting (pid : ProjectId) (nid : NotebookId) (jid : JobId) : prog bool :=
  i ← call (OHead (jobDeletionClaim pid nid jid));
  mret (match i with Some _ => true | None => false end).

(** [loadJob], without the per-tick memo of its reads *)
Definition loadJob (pid : ProjectId) (nid : NotebookId) (jid : JobId) : prog (option JobDefinition) :=
  catch
    (project ← project_status pid;
     if project === ProjectDeleted then mret None
     else
       notebook ← notebook_status pid nid;
       if notebook === NbDeleted then mret None else job ← getJob pid nid jid; mret (Some job))
    (fun e => match e with NotFoundError _ => mret None | _ => Throw e end).

Definition cancelRunIfDeleted (run : JobRun) : prog bool :=
  job ← loadJob (jr_project_id run) (jr_notebook_id run) (jr_job_id run);
  match job with
  | Some _ => mret false
  | None => cancel (ref_of run) SYSTEM_ACTOR ≫= fun _ => mret true
  end.

(** [sourceVersionId]: best effort *)
Definition sourceVersionId (job : JobDefinition) : prog (option VersionId) :=
  catch (v ← current_version (jd_project_id job) (jd_notebook_id job); mret (truthy v)) (fun _ => mret None).

Definition scheduled_input (job : JobDefinition) (runId : RunId) (scheduledFor : Timestamp) (version : option VersionId)
    (parameters : option JobParameters) : EnqueueRunInput := {|
  ei_job := job; ei_trigger := TSchedule; ei_triggeredBy := None; ei_scheduledFor := Some scheduledFor;
  ei_parameters := parameters; ei_sourceVersionId := version; ei_timeoutSeconds := timeoutSeconds cfg job;
  ei_attempt := None; ei_retryOf := None; ei_eligibleAt := None; ei_runId := Some runId;
|}.

Definition enqueueScheduled (job : JobDefinition) (runId : RunId) (scheduledFor : Timestamp) : prog bool :=
  version ← sourceVersionId job;
  run ← enqueue blank (scheduled_input job runId scheduledFor version (jd_parameters job));
  gone ← cancelRunIfDeleted run;
  mret (negb gone).

(** [audit]: a failed append is rethrown. *)
Definition audit (run : JobRun) : prog unit :=
  if has_events then append (jobRunFinishEvent run) (finish_options run) else mret tt.

Definition run_failed (run : JobRun) : bool := (jr_status run === RFailed) || (jr_status run === RTimedOut).

Definition notify (job : JobDefinition) (run : JobRun) : prog unit :=
  match jd_notifications job with
  | Some on =>
      let wanted := if run_failed run then includes OnFailure on
                    else (jr_status run === RSucceeded) && includes OnSuccess on in
      if has_alerts && wanted then deliver job run else mret tt
  | None => mret tt
  end.

(** The retry of a failed run: the next attempt under the continuation id. *)
Definition retry_input (job : JobDefinition) (finished : JobRun) (continuation : RunId) (eligibleAt : Timestamp) : EnqueueRunInput := {|
  ei_job := job; ei_trigger := jr_trigger finished; ei_triggeredBy := jr_triggered_by finished;
  ei_scheduledFor := jr_scheduled_for finished; ei_parameters := jr_parameters finished;
  ei_sourceVersionId := jr_source_version_id finished; ei_timeoutSeconds := jr_timeout_seconds finished;
  ei_attempt := Some (jr_attempt finished + 1)%Z; ei_retryOf := Some (jr_run_id finished);
  ei_eligibleAt := Some eligibleAt; ei_runId := Some continuation;
|}.

Definition afterRun (finished : JobRun) (continuation : RunId) : prog unit :=
  if negb (isTerminalRunStatus (jr_status finished)) then mret tt
  else
    audit finished ≫= fun _ =>
    if jr_status finished === RCancelled then mret tt
    else
      job ← loadJob (jr_project_id finished) (jr_notebook_id finished) (jr_job_id finished);
      match job with
      | None => mret tt
      | Some job =>
          match jd_retry job with
          | Some retry =>
              if run_failed finished && (jr_attempt finished <=? max_retries retry)%Z then
                deleting ← isDeleting (jd_project_id job) (jd_notebook_id job) (jd_id job);
                if deleting : bool then mret tt
                else
                  current ← loadJob (jd_project_id job) (jd_notebook_id job) (jd_id job);
                  match current with
                  | None => mret tt
                  | Some current =>
                      now ← call ONow;
                      retryRun ← enqueue blank (retry_input current finished continuation (toISOString (now + backoff_seconds retry * 1000)));
                      cancelRunIfDeleted retryRun ≫= fun _ => mret tt
                  end
              else notify job finished
          | None => notify job finished
          end
      end.

Definition finalizeLocked (finished : JobRun) : prog unit :=
  marker ← getMarker (jr_project_id finished) (jr_run_id finished);
  match marker with
  | None => mret tt
  | Some m =>
      afterRun finished (jm_continuation_run_id m) ≫= fun _ =>
      deleteMarker (jr_project_id finished) (jr_run_id finished)
  end.

(** The occurrence a fire is due for: [previousOccurrence] in the zone of the schedule. *)
Definition due_occurrence (schedule : JobSchedule) (now : Z) : prog (option Z) :=
  match parseCron new_Cron strip_prefix show (js_cron schedule) with
  | Err _ => mret None
  | Ok cron =>
      match cronFor (expression cron) (js_timezone schedule) with
      | None => Throw (JsError "Invalid time zone")
      | Some nextRun =>
          match previousOccurrence nextRun (Z.to_nat (catchupWindowMs cfg / 60000 + 3)) now (catchupWindowMs cfg) with
          | Some occurrence => mret occurrence
          | None => Throw (IoError "out of fuel")
          end
      end
  end.

Definition skip_reason : RunError :=
  run_error "CONCURRENCY_FORBIDDEN" "Skipped: the previous run of this job was still active".

(** The rest of [fire] once the occurrence is claimed by [runId]; [won] by this call. *)
Definition fire_claimed (job : JobDefinition) (runId : RunId) (scheduledFor : Timestamp)
    (outcome : occurrence_outcome) (won : bool) : prog fire_outcome :=
  if outcome === OutcomeSkip then
    version ← sourceVersionId job;
    skipped ← writeSkipped blank (scheduled_input job runId scheduledFor version None) skip_reason;
    finalizeLocked skipped ≫= fun _ => mret (if won then SkippedFire else Repaired)
  else
    queued ← enqueueScheduled job runId scheduledFor;
    mret (if queued : bool then if won then Fired else Repaired else NotFired).

(** The work of [fire]. *)
Definition fire (pid : ProjectId) (nid : NotebookId) (jid : JobId) (now : Z) (hasActive : bool) : prog fire_outcome :=
  deleting ← isDeleting pid nid jid;
  if deleting : bool then mret NotFired
  else
    loaded ← loadJob pid nid jid;
    match loaded with
    | None => mret NotFired
    | Some job =>
        match (if jd_enabled job then jd_schedule job else None) with
        | None => mret NotFired
        | Some schedule =>
            due ← due_occurrence schedule now;
            match due with
            | None => mret NotFired
            | Some occurrence =>
                let scheduledFor := toISOString occurrence in
                let outcome := if (jd_concurrency_policy job === Forbid) && hasActive then OutcomeSkip else OutcomeRun in
                runId ← createRunId;
                claim ← claimOccurrence pid nid jid (occurrenceKey occurrence) runId (toISOString now) outcome;
                match claim with
                | Claimed => fire_claimed job runId scheduledFor outcome true
                | Standing None => mret NotFired
                | Standing (Some o) =>
                    exists_ ← runExists pid nid jid (jo_run_id o);
                    if exists_ : bool then mret NotFired
                    else fire_claimed job (jo_run_id o) scheduledFor (jo_outcome o ?? OutcomeRun) false
                end
            end
        end
    end.

(** ** The tick *)

Definition finalize (finished : JobRun) : prog unit :=
  if isTerminalRunStatus (jr_status finished) then finalizeLocked finished else mret tt.

Definition watchdog_patch (run : JobRun) (now : Z) (current : JobRun) : prog JobRun :=
  mret (current <| jr_finished_at := Some (toISOString now) |> <| jr_error := Some (watchdog_error run) |>).

(** [watchdog]: the sandbox goes first, then the record. *)
Definition watchdog (run : JobRun) (now : Z) : prog bool :=
  if negb (overdue cfg run now) then mret false
  else
    (match truthy (jr_sandbox_id run) with
     | Some sb => catch (destroy sb) (fun _ => mret tt)
     | None => mret tt
     end) ≫= fun _ =>
    '(reclaimed, transitioned) ← transition (ref_of run) EvTimeout (watchdog_patch run now);
    (if transitioned : bool then finalize reclaimed else mret tt) ≫= fun _ =>
    mret transitioned.

(** [JobReadCache] and [cachedRead]: what the first read of a key gave, errors too. *)
Abbreviation read_cache X := (list (string * result (error V) X)) (only parsing).
Definition cachedRead {X} (cache : read_cache X) (k : string) (read : prog X) : prog (result (error V) X * read_cache X) :=
  match List.find (fun e => e.1 === k) cache with
  | Some (_, r) => mret (r, cache)
  | None => handle read (fun r => mret (r, (k, r) :: cache))
  end.
Record JobReadCache := { rc_projects : read_cache ProjectStatus; rc_notebooks : read_cache NotebookStatus; rc_jobs : read_cache JobDefinition }.

(** [loadJob] with a cache *)
Definition loaded {X Y} (r : result (error V) X) (next : X -> prog (result (error V) (option JobDefinition) * Y)) (c : Y)
    : prog (result (error V) (option JobDefinition) * Y) :=
  match r with
  | Ok x => next x
  | Err (NotFoundError _) => mret (Ok None, c)
  | Err e => mret (Err e, c)
  end.
Definition loadJobCached (cache : JobReadCache) (pid : ProjectId) (nid : NotebookId) (jid : JobId)
    : prog (result (error V) (option JobDefinition) * JobReadCache) :=
  '(project, ps) ← cachedRead (rc_projects cache) pid (project_status pid);
  let cache := {| rc_projects := ps; rc_notebooks := rc_notebooks cache; rc_jobs := rc_jobs cache |} in
  loaded project (fun status => if status === ProjectDeleted then mret (Ok None, cache) else
    '(notebook, ns) ← cachedRead (rc_notebooks cache) nid (notebook_status pid nid);
    let cache := {| rc_projects := ps; rc_notebooks := ns; rc_jobs := rc_jobs cache |} in
    loaded notebook (fun status => if status === NbDeleted then mret (Ok None, cache) else
      '(job, js) ← cachedRead (rc_jobs cache) jid (getJob pid nid jid);
      let cache := {| rc_projects := ps; rc_notebooks := ns; rc_jobs := js |} in
      loaded job (fun j => mret (Ok (Some j), cache)) cache) cache) cache.

Definition cancelCachedIfDeleted (cache : JobReadCache) (run : JobRun) : prog (result (error V) bool * JobReadCache) :=
  '(job, cache) ← loadJobCached cache (jr_project_id run) (jr_notebook_id run) (jr_job_id run);
  match job with
  | Err e => mret (Err e, cache)
  | Ok (Some _) => mret (Ok false, cache)
  | Ok None => handle (cancel (ref_of run) SYSTEM_ACTOR)
      (fun r => mret (match r with Ok _ => Ok true | Err e => Err e end, cache))
  end.

(** The first loop: every indexed job may fire; a failure is counted.  [activeJobs] are
    the jobs with a run that is not over, as [project:job]. *)
Definition job_key (pid : ProjectId) (jid : JobId) : string := pid +:+ ":" +:+ jid.
Definition count_fire (o : fire_outcome) (r : TickResult) : TickResult :=
  match o with
  | Fired => r <| tk_fired := S (tk_fired r) |>
  | Repaired => r <| tk_repaired := S (tk_repaired r) |>
  | SkippedFire => r <| tk_skipped := S (tk_skipped r) |>
  | NotFired => r
  end.
Fixpoint fire_all (jobs : list IndexedJob) (now : Z) (activeJobs : list string) (r : TickResult) : prog TickResult :=
  match jobs with
  | [] => mret r
  | j :: jobs' =>
      let jobKey := job_key (ij_projectId j) (sj_id (ij_entry j)) in
      outcome ← handle (fire (ij_projectId j) (ij_notebookId j) (sj_id (ij_entry j)) now (includes jobKey activeJobs)) mret;
      match outcome with
      | Ok o => fire_all jobs' now (if (o === Fired) || (o === Repaired) then jobKey :: activeJobs else activeJobs) (count_fire o r)
      | Err _ => fire_all jobs' now activeJobs (r <| tk_errors := S (tk_errors r) |>)
      end
  end.

(** The second loop sorts the active entries into queued and running ones. *)
Record Sorted := { so_queued : list JobRun; so_running : list JobRun; so_complete : bool; so_cache : JobReadCache; so_result : TickResult }.
#[export] Instance Sorted_settable : Settable Sorted := fun s =>
  Build_Sorted (so_queued s) (so_running s) (so_complete s) (so_cache s) (so_result s).
Definition tick_error (s : Sorted) : Sorted := s <| so_result := so_result s <| tk_errors := S (tk_errors (so_result s)) |> |>.
Definition tick_pruned (s : Sorted) : Sorted := s <| so_result := so_result s <| tk_markersPruned := S (tk_markersPruned (so_result s)) |> |>.
Definition run_on (s : Sorted) (run : JobRun) : Sorted := s <| so_running := (so_running s ++ [run])%list |>.

(** A marker without a record, older than the grace. *)
Definition dangling (m : JobRunMarker) (now : Z) : bool :=
  num_cmp Z.gtb (created ← date_parse (jm_created_at m); Some (now - created)%Z) (Some DANGLING_MARKER_GRACE_MS).
Definition prune_if_dangling (m : JobRunMarker) (now : Z) : prog bool :=
  if dangling m now then
    exists_ ← runExists (jm_project_id m) (jm_notebook_id m) (jm_job_id m) (jm_run_id m);
    if exists_ : bool then mret false else pruneDanglingMarker m ≫= fun _ => mret true
  else mret false.

(** [executing]: the in-process executions, asked once for each run. *)
Definition sort_entry (executing : RunId -> bool) (now : Z) (s : Sorted) (a : ActiveRun) : prog Sorted :=
  match ar_run a with
  | None =>
      pruned ← handle (prune_if_dangling (ar_marker a) now) mret;
      mret (match pruned with
            | Ok true => tick_pruned s
            | Ok false => s
            | Err _ => tick_error (s <| so_complete := false |>)
            end)
  | Some run =>
      if isTerminalRunStatus (jr_status run) then
        finalized ← handle (finalize run) mret;
        mret (match finalized with Ok _ => tick_pruned s | Err _ => tick_error s end)
      else if jr_status run === RQueued then
        if executing (jr_run_id run) then mret (run_on s run)
        else
          '(gone, cache) ← cancelCachedIfDeleted (so_cache s) run;
          let s := s <| so_cache := cache |> in
          mret (match gone with
                | Err _ => tick_error s
                | Ok true => s
                | Ok false =>
                    let eligible := match truthy (jr_eligible_at run) with
                                    | Some at_ => num_cmp Z.leb (date_parse at_) (Some now)
                                    | None => true
                                    end in
                    if eligible then s <| so_queued := (so_queued s ++ [run])%list |> else s
                end)
      else
        timedOut ← watchdog run now;
        mret (if timedOut : bool then s <| so_result := so_result s <| tk_timedOut := S (tk_timedOut (so_result s)) |> |> else run_on s run)
  end.
Fixpoint sort_active (executing : RunId -> bool) (now : Z) (s : Sorted) (entries : list ActiveRun) : prog Sorted :=
  match entries with
  | [] => mret s
  | a :: entries' => s' ← sort_entry executing now s a; sort_active executing now s' entries'
  end.

(** The runs a tick hands to the runner. *)
Definition dispatched (s : Sorted) : list JobRun :=
  if so_complete s then admit_runs cfg (so_queued s) (so_running s) else [].

(** [tick]: its result and the runs it dispatches. *)
Definition tick_active (a : ActiveRun) : list string :=
  match ar_run a with
  | Some run => if isTerminalRunStatus (jr_status run) then [] else [job_key (jm_project_id (ar_marker a)) (jm_job_id (ar_marker a))]
  | None => []
  end.
Definition scheduler_tick (fuel : nat) (executing : RunId -> bool) : prog (TickResult * list JobRun) :=
  now ← call ONow;
  snapshot ← indexed_snapshot;
  beforeFire ← listActiveSnapshot fuel;
  let jobs := if as_complete beforeFire then indexedJobs snapshot else [] in
  fired ← fire_all jobs now (concat (map tick_active (as_entries beforeFire))) no_ticks;
  active ← listActiveSnapshot fuel;
  let result := if as_complete beforeFire && as_complete active then fired else fired <| tk_errors := S (tk_errors fired) |> in
  sorted ← sort_active executing now
      {| so_queued := []; so_running := []; so_complete := as_complete active;
         so_cache := {| rc_projects := []; rc_notebooks := []; rc_jobs := [] |}; so_result := result |} (as_entries active);
  let admitted := dispatched sorted in
  mret (so_result sorted <| tk_dispatched := length admitted |>, admitted).

(** [prune]: retention over every indexed job, then the stale markers. *)
Fixpoint prune_jobs (fuel : nat) (jobs : list IndexedJob) (retentionMs now : Z) : prog nat :=
  match jobs with
  | [] => mret 0
  | j :: jobs' =>
      pruned ← catch (pruneJob fuel (ij_projectId j) (ij_notebookId j) (sj_id (ij_entry j)) retentionMs now
                        (Z.max retentionMs (catchupWindowMs cfg))) (fun _ => mret 0);
      rest ← prune_jobs fuel jobs' retentionMs now;
      mret (pruned + rest)
  end.
Definition prune (fuel : nat) (retentionMs : Z) : prog (nat * nat) :=
  now ← call ONow;
  snapshot ← indexed_snapshot;
  runs ← prune_jobs fuel (indexedJobs snapshot) retentionMs now;
  markers ← pruneStaleMarkers fuel now;
  mret (runs, markers).
End Scheduler.

(** ** Admission keeps to the caps and wastes no slot *)

Section Admission.
Context (cfg : JobSchedulerConfig).

Lemma count_project_cons pid r rs :
  count_project pid (r :: rs) = ((if jr_project_id r === pid then 1 else 0) + count_project pid rs)%Z.
Proof. unfold count_project. cbn [List.filter]. destruct (jr_project_id r === pid); cbn [length]; lia. Qed.

(** The loop, for any counts it starts from. *)
Lemma admit_loop_spec ordered total per : let admitted := admit_loop cfg ordered total per in
  sublist admitted ordered /\
  (total + Z.of_nat (length admitted) <= Z.max total (maxConcurrentRuns cfg))%Z /\
  (forall pid, per pid + count_project pid admitted <= Z.max (per pid) (maxConcurrentRunsPerProject cfg))%Z /\
  (forall r, r ∈ ordered -> r ∈ admitted \/ (maxConcurrentRuns cfg <= total + Z.of_nat (length admitted))%Z \/
     (maxConcurrentRunsPerProject cfg <= per (jr_project_id r) + count_project (jr_project_id r) admitted)%Z).
Proof.
  revert total per. induction ordered as [|run rest IH]; intros total per; cbn [admit_loop].
  { split; [done|]. split; [cbn; lia|]. split; [intros pid; unfold count_project; cbn; lia|]. by intros r ?%not_elem_of_nil. }
  destruct (Z.geb_spec total (maxConcurrentRuns cfg)) as [Hfull|Hroom].
  { split; [apply sublist_nil_l|]. split; [cbn; lia|]. split; [intros pid; unfold count_project; cbn; lia|]. intros r _. right. left. cbn. lia. }
  destruct (Z.geb_spec (per (jr_project_id run)) (maxConcurrentRunsPerProject cfg)) as [Hp|Hp].
  { destruct (IH total per) as (H1 & H2 & H3 & H4). split; [by constructor|]. split; [done|]. split; [done|].
    intros r [->|Hr]%elem_of_cons; [|by apply H4]. right. right. unfold count_project. lia. }
  destruct (IH (total + 1)%Z (fun p => if p === jr_project_id run then (per (jr_project_id run) + 1)%Z else per p)) as (H1 & H2 & H3 & H4).
  assert (Hper : forall pid l, ((if pid === jr_project_id run then per (jr_project_id run) + 1 else per pid) + count_project pid l =
                                per pid + count_project pid (run :: l))%Z).
  { intros pid l. rewrite count_project_cons. repeat case_bool_decide; subst; try done; lia. }
  split; [by constructor|]. cbn [length]. split; [lia|]. split.
  - intros pid. specialize (H3 pid). cbv beta in H3. rewrite Hper in H3. case_bool_decide; [subst; lia|]. done.
  - intros r [->|Hr]%elem_of_cons; [left; by left|]. destruct (H4 r Hr) as [?|[?|H]]; [left; by right|right; left; lia|].
    right. right. cbv beta in H. by rewrite Hper in H.
Qed.

(** C36: admission never exceeds the caps and leaves no slot unused: the admitted runs
    are queued ones in order of eligibility, with those already running they stay within the
    deployment cap and each project within its own (unless the caps were already exceeded),
    and a queued run stays behind only if the deployment or its project is full. *)
Theorem admit_within_caps queued running : let admitted := admit_runs cfg queued running in
  sublist admitted (js_sort admit_le queued) /\
  (Z.of_nat (length running) + Z.of_nat (length admitted) <= Z.max (Z.of_nat (length running)) (maxConcurrentRuns cfg))%Z /\
  (forall pid, count_project pid running + count_project pid admitted <= Z.max (count_project pid running) (maxConcurrentRunsPerProject cfg))%Z /\
  (forall r, r ∈ queued -> r ∈ admitted \/ (maxConcurrentRuns cfg <= Z.of_nat (length running) + Z.of_nat (length admitted))%Z \/
     (maxConcurrentRunsPerProject cfg <= count_project (jr_project_id r) running + count_project (jr_project_id r) admitted)%Z).
Proof.
  intros admitted. destruct (admit_loop_spec (js_sort admit_le queued) (Z.of_nat (length running)) (fun p => count_project p running)) as (H1 & H2 & H3 & H4).
  split; [done|]. split; [done|]. split; [done|]. intros r Hr. apply H4. by apply elem_of_js_sort.
Qed.
End Admission.
