(* ===== verification/JobProtocol.v ===== *)
(** * The protocol of job records

    What the replicas may do to run records, occurrence claims and run markers, and the
    invariant this keeps: a claim is written once, every run id has one origin (a claimed
    occurrence, the continuation of a marker, or a direct request), run records move along
    the run machine, and a run that is not over has its marker. *)

From Stdlib Require Import ZArith Lia Ascii.
From stdpp Require Import relations.
From S2P Require Import Prelude Constants Lifecycle Schema UtcDate Store Cas CasTheorems CasEffects Listing SessionData CatalogData Cron JobData JobRuns Events JobScheduler.
Import RunState.

(** ** Keys *)

(** A job: project, notebook, job id. *)
Abbreviation job3 := (ProjectId * NotebookId * JobId)%type (only parsing).
Definition ids_ok (J : job3) : Prop := is_id "proj" J.1.1 = true /\ is_id "nb" J.1.2 = true /\ is_id "job" J.2 = true.
Definition base (J : job3) : string := job_base J.1.1 J.1.2 J.2.
Definition rpath (J : job3) (r : RunId) : key := run_record J.1.1 J.1.2 J.2 r.
Definition opath (J : job3) (x : string) : key := occurrence_path J.1.1 J.1.2 J.2 x.
Definition mpath (J : job3) (r : RunId) : key := jobRunMarker J.1.1 r.
Definition hpath (J : job3) : key := job_head J.1.1 J.1.2 J.2.

Definition rkey (k : key) : Prop := exists J r, ids_ok J /\ is_id "run" r = true /\ k = rpath J r.
Definition okey (k : key) : Prop := exists J x, ids_ok J /\ k = opath J x.
Definition mkey (k : key) : Prop := exists J r, ids_ok J /\ is_id "run" r = true /\ k = mpath J r.
Definition hkey (k : key) : Prop := exists J, ids_ok J /\ k = hpath J.
Definition watched (k : key) : Prop := rkey k \/ okey k \/ mkey k \/ hkey k.
(** Keys the protocol says nothing about. *)
Definition free (k : key) : Prop := ~ watched k.

Lemma id_lengths p p' brand : is_id brand p = true -> is_id brand p' = true -> String.length p = String.length p'.
Proof. intros H H'. apply is_id_length in H, H'. congruence. Qed.

Lemma base_split J J' a b : ids_ok J -> ids_ok J' -> base J +:+ a = base J' +:+ b -> J = J' /\ a = b.
Proof.
  destruct J as [[p n] j], J' as [[p' n'] j']. intros (Hp & Hn & Hj) (Hp' & Hn' & Hj'). cbn in *.
  unfold base, job_base, notebook_base; cbn [fst snd]. rewrite !string_app_assoc. intros E%string_app_inj_l.
  apply string_app_split_l in E as [-> E]; [|by eapply id_lengths]. apply string_app_inj_l in E.
  apply string_app_split_l in E as [-> E]; [|by eapply id_lengths]. apply string_app_inj_l in E.
  by apply string_app_split_l in E as [-> ->]; [|by eapply id_lengths].
Qed.

Lemma rpath_eq J r : rpath J r = base J +:+ ("/runs/" +:+ r +:+ "/run.json").
Proof. unfold rpath, run_record, run_base, base. by rewrite !string_app_assoc. Qed.
Lemma opath_eq J x : opath J x = base J +:+ ("/occurrences/" +:+ x +:+ ".json").
Proof. unfold opath, occurrence_path, occurrencesPrefix, base. by rewrite !string_app_assoc. Qed.

Lemma rpath_inj J J' r r' : ids_ok J -> ids_ok J' -> is_id "run" r = true -> is_id "run" r' = true ->
  rpath J r = rpath J' r' -> J = J' /\ r = r'.
Proof.
  intros HJ HJ' Hr Hr'. rewrite !rpath_eq. intros [-> E]%base_split; [|done|done]. apply string_app_inj_l in E.
  by apply string_app_split in E as [-> _].
Qed.
Lemma opath_inj J J' x x' : ids_ok J -> ids_ok J' -> opath J x = opath J' x' -> J = J' /\ x = x'.
Proof.
  intros HJ HJ'. rewrite !opath_eq. intros [-> E]%base_split; [|done|done]. apply string_app_inj_l in E.
  by apply string_app_split in E as [-> _].
Qed.
Lemma mpath_inj J J' r r' : ids_ok J -> ids_ok J' -> is_id "run" r = true -> is_id "run" r' = true ->
  mpath J r = mpath J' r' -> J.1.1 = J'.1.1 /\ r = r'.
Proof.
  intros (Hp & _) (Hp' & _) Hr Hr'. unfold mpath, jobRunMarker. intros E%string_app_inj_l.
  apply string_app_split_l in E as [-> E]; [|by eapply id_lengths]. apply string_app_inj_l in E.
  by apply string_app_split in E as [-> _].
Qed.

Lemma rkey_not_okey k : rkey k -> ~ okey k.
Proof.
  intros (J & r & HJ & _ & ->) (J' & x & HJ' & E). rewrite rpath_eq, opath_eq in E.
  apply base_split in E as [_ E]; [discriminate E|done|done].
Qed.
Lemma mkey_system k : mkey k -> exists k', k = "_system/job-runs/" +:+ k'.
Proof. intros (J & r & _ & _ & ->). by eexists. Qed.
Lemma project_not_mkey k : ~ mkey ("projects/" +:+ k).
Proof. intros (k' & E)%mkey_system. discriminate E. Qed.
Lemma job_key_not_mkey J a : ~ mkey (base J +:+ a).
Proof. unfold base, job_base, notebook_base. rewrite !string_app_assoc. apply project_not_mkey. Qed.
Lemma rkey_not_mkey k : rkey k -> ~ mkey k.
Proof. intros (J & r & _ & _ & ->). rewrite rpath_eq. apply job_key_not_mkey. Qed.
Lemma okey_not_mkey k : okey k -> ~ mkey k.
Proof. intros (J & x & _ & ->). rewrite opath_eq. apply job_key_not_mkey. Qed.

Lemma hpath_eq J : hpath J = base J +:+ "/job.json".
Proof. done. Qed.
Lemma hkey_not_rkey k : hkey k -> ~ rkey k.
Proof.
  intros (J & HJ & ->) (J' & r & HJ' & _ & E). rewrite hpath_eq, rpath_eq in E.
  apply base_split in E as [_ E]; [discriminate E|done|done].
Qed.
Lemma hkey_not_okey k : hkey k -> ~ okey k.
Proof.
  intros (J & HJ & ->) (J' & x & HJ' & E). rewrite hpath_eq, opath_eq in E.
  apply base_split in E as [_ E]; [discriminate E|done|done].
Qed.
Lemma hkey_not_mkey k : hkey k -> ~ mkey k.
Proof. intros (J & _ & ->). rewrite hpath_eq. apply job_key_not_mkey. Qed.

(** History entries and everything outside the projects and the markers is free. *)
Lemma free_index J r : ids_ok J -> free (run_index J.1.1 J.1.2 J.2 r).
Proof.
  intros HJ. assert (E : run_index J.1.1 J.1.2 J.2 r = base J +:+ ("/run-index/" +:+ reverseRunId r +:+ ".json")).
  { unfold run_index, runIndexPrefix, base. by rewrite !string_app_assoc. }
  rewrite E. intros [H|[H|[H|H]]]; [| |by apply job_key_not_mkey in H|]; revert H.
  - intros (J' & r' & HJ' & _ & E'). rewrite rpath_eq in E'. apply base_split in E' as [_ E']; [discriminate E'|done|done].
  - intros (J' & x & HJ' & E'). rewrite opath_eq in E'. apply base_split in E' as [_ E']; [discriminate E'|done|done].
  - intros (J' & HJ' & E'). rewrite hpath_eq in E'. apply base_split in E' as [_ E']; [discriminate E'|done|done].
Qed.
Lemma free_event k : free ("_system/events/" +:+ k).
Proof.
  intros [H|[H|[H|H]]]; revert H.
  - intros (J & r & _ & _ & E). rewrite rpath_eq in E. discriminate E.
  - intros (J & x & _ & E). rewrite opath_eq in E. discriminate E.
  - intros (k' & E)%mkey_system. discriminate E.
  - intros (J & _ & E). discriminate E.
Qed.

(** ** Records *)

(** The fields of a run that never change. *)
Definition run_fixed (r : JobRun) :=
  (jr_run_id r, jr_job_id r, jr_notebook_id r, jr_project_id r, jr_trigger r, jr_triggered_by r, jr_scheduled_for r,
   jr_source_version_id r, jr_parameters r, jr_attempt r, jr_retry_of r, jr_timeout_seconds r, jr_queued_at r, jr_eligible_at r).
Definition job_of (r : JobRun) : job3 := (jr_project_id r, jr_notebook_id r, jr_job_id r).
Definition job_of_marker (m : JobRunMarker) : job3 := (jm_project_id m, jm_notebook_id m, jm_job_id m).
Definition job_of_def (j : JobDefinition) : job3 := (jd_project_id j, jd_notebook_id j, jd_id j).
Definition terminal (r : JobRun) : Prop := isTerminalRunStatus (jr_status r) = true.
Definition outcome_of (o : JobOccurrence) : occurrence_outcome := jo_outcome o ?? OutcomeRun.

(** One step of a run: an edge of the machine, the fixed fields kept. *)
Definition run_next (s s' : JobRun) : Prop :=
  run_fixed s' = run_fixed s /\ exists event, nextRunStatus (jr_status s) event = Some (jr_status s').

Lemma terminal_final s s' : terminal s -> ~ run_next s s'.
Proof. intros Ht (_ & ev & E). unfold terminal in Ht. by destruct (jr_status s), ev. Qed.
Lemma skipped_step s s' : run_next s s' -> jr_status s <> RSkipped /\ jr_status s' <> RSkipped.
Proof. intros (_ & ev & E). destruct (jr_status s), ev; try done; injection E as <-; done. Qed.

(** Whether markers are removed only from runs that are over, or also as dangling: the
    clean-up of markers without a record may race with the repair of a run. *)
Class MarkerRule := markers_kept : Prop.

Section Protocol.
Context {K : MarkerRule}.
Context {B V : Type} {CR : Codec B JobRun} {CM : Codec B JobRunMarker} {CO : Codec B JobOccurrence} {CD : Codec B JobDefinition}.
Implicit Types w : world B V.

(** ** What the history of the store shows *)

(** The occurrence [x] of a job was claimed with [oc]; [m] and [s] were written. *)
Definition occ (J : job3) (x : string) (oc : JobOccurrence) w : Prop :=
  ids_ok J /\ exists t o, (t, opath J x, o) ∈ log w /\ parse (o_body o) = Some oc.
Definition marker (m : JobRunMarker) w : Prop :=
  ids_ok (job_of_marker m) /\ is_id "run" (jm_run_id m) = true /\
  exists t o, (t, mpath (job_of_marker m) (jm_run_id m), o) ∈ log w /\ parse (o_body o) = Some m.
Definition recorded (s : JobRun) w : Prop :=
  ids_ok (job_of s) /\ is_id "run" (jr_run_id s) = true /\
  exists t o, (t, record_of s, o) ∈ log w /\ parse (o_body o) = Some s.

#[export] Instance persistent_occ J x oc : Persistent (occ J x oc).
Proof. intros w w' Hg (H & t & o & Hl & Hp). split; [done|]. exists t, o. split; [by apply (grows_log _ _ Hg)|done]. Qed.
#[export] Instance persistent_marker m : Persistent (marker m).
Proof. intros w w' Hg (H & H' & t & o & Hl & Hp). split; [done|]. split; [done|]. exists t, o. split; [by apply (grows_log _ _ Hg)|done]. Qed.
#[export] Instance persistent_recorded_run s : Persistent (recorded s).
Proof. intros w w' Hg (H & H' & t & o & Hl & Hp). split; [done|]. split; [done|]. exists t, o. split; [by apply (grows_log _ _ Hg)|done]. Qed.

(** A run id belongs to a job: by a claim, by the marker that continues to it or marks it. *)
Definition claimed_id (r : RunId) (J : job3) w : Prop := exists x oc, occ J x oc w /\ jo_run_id oc = r.
Definition marked_id (r : RunId) (J : job3) w : Prop := exists m, marker m w /\ job_of_marker m = J /\ jm_run_id m = r.
Definition continued_id (r : RunId) (J : job3) w : Prop := exists m, marker m w /\ job_of_marker m = J /\ jm_continuation_run_id m = r.
Definition bound (r : RunId) (J : job3) w : Prop := claimed_id r J w \/ marked_id r J w \/ continued_id r J w.

(** Where the id of a run comes from fixes what kind of run it is. *)
Record origin_ok (s : JobRun) w : Prop := {
  or_marked : marked_id (jr_run_id s) (job_of s) w;
  or_claimed J x oc : occ J x oc w -> jo_run_id oc = jr_run_id s ->
    jr_trigger s = TSchedule /\ jr_attempt s = 1%Z /\
    (exists ms, jr_scheduled_for s = Some (toISOString ms) /\ x = occurrenceKey ms) /\
    (outcome_of oc = OutcomeSkip <-> jr_status s = RSkipped);
  or_continued J : continued_id (jr_run_id s) J w -> (2 <= jr_attempt s)%Z;
  or_scheduled : jr_trigger s = TSchedule -> jr_attempt s = 1%Z -> claimed_id (jr_run_id s) (job_of s) w;
}.

(** A history in which each record follows from the one before it. *)
Fixpoint chain (h : list (tid * object B)) : Prop :=
  match h with
  | [] => True
  | (_, o') :: h' =>
      match h' with
      | [] => exists s, parse (o_body o') = Some s /\ (jr_status s = RQueued \/ jr_status s = RSkipped)
      | (_, o) :: _ => exists s s', parse (o_body o) = Some s /\ parse (o_body o') = Some s' /\ run_next s s'
      end /\ chain h'
  end.

Record jinv w : Prop := {
  ji_occ k t o : okey k -> (t, k, o) ∈ log w ->
    hist k w = [(t, o)] /\ store w !! k = Some o /\ exists oc : JobOccurrence, parse (o_body o) = Some oc;
  ji_mark k t o : mkey k -> (t, k, o) ∈ log w ->
    exists m, parse (o_body o) = Some m /\ marker m w /\ k = mpath (job_of_marker m) (jm_run_id m);
  ji_rec k t o : rkey k -> (t, k, o) ∈ log w ->
    exists s, parse (o_body o) = Some s /\ recorded s w /\ k = record_of s /\ origin_ok s w;
  ji_last k o : rkey k -> store w !! k = Some o -> exists t l, hist k w = (t, o) :: l;
  ji_kept k : rkey k -> store w !! k = None -> hist k w = [];
  ji_chain k : rkey k -> chain (hist k w);
  ji_bound r J J' : bound r J w -> bound r J' w -> J = J';
  ji_issued r J : bound r J w -> is_Some (issued w !! r);
  ji_once J x oc J' x' oc' : occ J x oc w -> occ J' x' oc' w -> jo_run_id oc = jo_run_id oc' -> x = x';
  ji_split r J J' : claimed_id r J w -> ~ continued_id r J' w;
  ji_active J r o s : markers_kept -> ids_ok J -> is_id "run" r = true -> store w !! rpath J r = Some o -> parse (o_body o) = Some s ->
    ~ terminal s -> is_Some (store w !! mpath J r);
  ji_head J t o job : ids_ok J -> (t, hpath J, o) ∈ log w -> parse (o_body o) = Some job -> job_of_def job = J;
}.

(** ** Worlds that agree on the watched keys *)

Record same_jobs w w' : Prop := {
  sj_store k : watched k -> store w' !! k = store w !! k;
  sj_hist k : watched k -> hist k w' = hist k w;
  sj_issued r : is_Some (issued w !! r) -> is_Some (issued w' !! r);
}.

Lemma same_log w w' k t o : same_jobs w w' -> watched k -> (t, k, o) ∈ log w' <-> (t, k, o) ∈ log w.
Proof. intros Hs Hk. by rewrite <- !elem_of_hist, (sj_hist _ _ Hs). Qed.

Lemma watched_r J r : ids_ok J -> is_id "run" r = true -> watched (rpath J r).
Proof. intros ? ?. left. by exists J, r. Qed.
Lemma watched_o J x : ids_ok J -> watched (opath J x).
Proof. intros ?. right. left. by exists J, x. Qed.
Lemma watched_m J r : ids_ok J -> is_id "run" r = true -> watched (mpath J r).
Proof. intros ? ?. right. right. left. by exists J, r. Qed.
Lemma watched_h J : ids_ok J -> watched (hpath J).
Proof. intros ?. right. right. right. by exists J. Qed.

Lemma same_occ w w' J x oc : same_jobs w w' -> occ J x oc w' <-> occ J x oc w.
Proof.
  intros Hs. unfold occ. split; intros (HJ & t & o & Hl & Hp); (split; [done|]; exists t, o; split; [|done]);
    by apply (same_log _ _ _ _ _ Hs (watched_o J x HJ)).
Qed.
Lemma same_marker w w' m : same_jobs w w' -> marker m w' <-> marker m w.
Proof.
  intros Hs. unfold marker. split; intros (HJ & Hr & t & o & Hl & Hp); (split; [done|]; split; [done|]; exists t, o; split; [|done]);
    by apply (same_log _ _ _ _ _ Hs (watched_m _ _ HJ Hr)).
Qed.
Lemma same_recorded w w' s : same_jobs w w' -> recorded s w' <-> recorded s w.
Proof.
  intros Hs. unfold recorded. split; intros (HJ & Hr & t & o & Hl & Hp); (split; [done|]; split; [done|]; exists t, o; split; [|done]);
    by apply (same_log _ _ _ _ _ Hs (watched_r _ _ HJ Hr)).
Qed.
Lemma same_claimed w w' r J : same_jobs w w' -> claimed_id r J w' <-> claimed_id r J w.
Proof. intros Hs. unfold claimed_id. by setoid_rewrite (fun J x oc => same_occ w w' J x oc Hs). Qed.
Lemma same_marked w w' r J : same_jobs w w' -> marked_id r J w' <-> marked_id r J w.
Proof. intros Hs. unfold marked_id. by setoid_rewrite (fun m => same_marker w w' m Hs). Qed.
Lemma same_continued w w' r J : same_jobs w w' -> continued_id r J w' <-> continued_id r J w.
Proof. intros Hs. unfold continued_id. by setoid_rewrite (fun m => same_marker w w' m Hs). Qed.
Lemma same_bound w w' r J : same_jobs w w' -> bound r J w' <-> bound r J w.
Proof. intros Hs. unfold bound. by rewrite (same_claimed w w'), (same_marked w w'), (same_continued w w'). Qed.
Lemma same_origin w w' s : same_jobs w w' -> origin_ok s w -> origin_ok s w'.
Proof.
  intros Hs [H1 H2 H3 H4]. split; [by apply (same_marked w w')| | |].
  - intros J x oc Ho. apply (H2 J). by apply (same_occ w w').
  - intros J Hc. apply (H3 J). by apply (same_continued w w').
  - intros Ht Ha. apply (same_claimed w w'); auto.
Qed.

Lemma jinv_same w w' : same_jobs w w' -> jinv w -> jinv w'.
Proof.
  intros Hs [H1 H2 H3 H4 H5 H6 H7 H8 H9 H10 H11 H12]. split.
  - intros k t o Hk Hl. assert (Hw : watched k) by (right; by left). apply (same_log _ _ _ _ _ Hs Hw) in Hl.
    rewrite (sj_hist _ _ Hs), (sj_store _ _ Hs) by done. by apply H1.
  - intros k t o Hk Hl. assert (Hw : watched k) by (right; right; by left). apply (same_log _ _ _ _ _ Hs Hw) in Hl.
    destruct (H2 k t o Hk Hl) as (m & ? & ? & ?). exists m. by rewrite (same_marker w w').
  - intros k t o Hk Hl. assert (Hw : watched k) by (by left). apply (same_log _ _ _ _ _ Hs Hw) in Hl.
    destruct (H3 k t o Hk Hl) as (s & ? & ? & ? & ?). exists s. rewrite (same_recorded w w') by done. eauto using same_origin.
  - intros k o Hk. assert (Hw : watched k) by (by left). rewrite (sj_hist _ _ Hs), (sj_store _ _ Hs) by done. by apply H4.
  - intros k Hk. assert (Hw : watched k) by (by left). rewrite (sj_hist _ _ Hs), (sj_store _ _ Hs) by done. by apply H5.
  - intros k Hk. assert (Hw : watched k) by (by left). rewrite (sj_hist _ _ Hs) by done. by apply H6.
  - intros r J J'. rewrite !(same_bound w w') by done. apply H7.
  - intros r J. rewrite (same_bound w w') by done. intros Hb. apply (sj_issued _ _ Hs). by eapply H8.
  - intros J x oc J' x' oc'. rewrite !(same_occ w w') by done. apply H9.
  - intros r J J'. rewrite (same_claimed w w'), (same_continued w w') by done. apply H10.
  - intros J r o s HK HJ Hr. rewrite !(sj_store _ _ Hs); [by apply H11|by apply watched_m|by apply watched_r].
  - intros J t o job HJ Hl. apply (same_log _ _ _ _ _ Hs (watched_h J HJ)) in Hl. by apply (H12 J t o).
Qed.

(** ** Writes to watched keys *)

(** Evidence after a write: the old, or the new object. *)
Lemma occ_write J x oc t w k o : occ J x oc (write t w k o) -> occ J x oc w \/ (k = opath J x /\ parse (o_body o) = Some oc).
Proof.
  intros (HJ & t0 & o0 & Hl & Hp). cbn in Hl. apply elem_of_cons in Hl as [Hl|Hl]; [right; by simplify_eq|left].
  split; [done|]. by exists t0, o0.
Qed.
Lemma marker_write m t w k o : marker m (write t w k o) ->
  marker m w \/ (k = mpath (job_of_marker m) (jm_run_id m) /\ parse (o_body o) = Some m).
Proof.
  intros (HJ & Hr & t0 & o0 & Hl & Hp). cbn in Hl. apply elem_of_cons in Hl as [Hl|Hl]; [right; by simplify_eq|left].
  split; [done|]. split; [done|]. by exists t0, o0.
Qed.

(** A write away from the claims or the markers adds no such evidence. *)
Lemma occ_write_other J x oc t w k o : ~ okey k -> occ J x oc (write t w k o) -> occ J x oc w.
Proof. intros Hk Ho. destruct (occ_write _ _ _ _ _ _ _ Ho) as [?|[-> _]]; [done|]. destruct Hk. exists J, x. split; [apply Ho|done]. Qed.
Lemma marker_write_other m t w k o : ~ mkey k -> marker m (write t w k o) -> marker m w.
Proof.
  intros Hk Hm. destruct (marker_write _ _ _ _ _ Hm) as [?|[-> _]]; [done|]. destruct Hk. destruct Hm as (? & ? & _).
  by exists (job_of_marker m), (jm_run_id m).
Qed.

Lemma write_grows t w k b e : etag_ok w k b e -> grows w (write t w k {| o_body := b; o_etag := e; o_uploaded := clock w |}).
Proof. intros He. eapply (sem_grows t (OPut k b Always)). right. split; [done|]. by exists e. Qed.

(** Ids that come with a claim or a marker. *)
Lemma claimed_write_other r J t w k o : ~ okey k -> claimed_id r J (write t w k o) -> claimed_id r J w.
Proof. intros Hk (x & oc & Ho & ?). exists x, oc. split; [by eapply occ_write_other|done]. Qed.
Lemma continued_write_other r J t w k o : ~ mkey k -> continued_id r J (write t w k o) -> continued_id r J w.
Proof. intros Hk (m & Hm & ? & ?). exists m. split; [by eapply marker_write_other|done]. Qed.
Lemma marked_write_other r J t w k o : ~ mkey k -> marked_id r J (write t w k o) -> marked_id r J w.
Proof. intros Hk (m & Hm & ? & ?). exists m. split; [by eapply marker_write_other|done]. Qed.
Lemma bound_write_other r J t w k o : ~ okey k -> ~ mkey k -> bound r J (write t w k o) -> bound r J w.
Proof.
  intros Ho Hm [?|[?|?]]; [left; by eapply claimed_write_other|right; left; by eapply marked_write_other|right; right; by eapply continued_write_other].
Qed.

Lemma persistent_claimed r J : Persistent (claimed_id r J).
Proof. unfold claimed_id. apply _. Qed.
Lemma persistent_marked_run r J : Persistent (marked_id r J).
Proof. unfold marked_id. apply _. Qed.
Lemma persistent_continued r J : Persistent (continued_id r J).
Proof. unfold continued_id. apply _. Qed.
#[local] Existing Instances persistent_claimed persistent_marked_run persistent_continued.

Lemma head_write_other J t w k o t' o' : ids_ok J -> ~ hkey k -> (t', hpath J, o') ∈ log (write t w k o) -> (t', hpath J, o') ∈ log w.
Proof. intros HJ Hk Hl. cbn in Hl. apply elem_of_cons in Hl as [[= -> <- ->]|Hl]; [|done]. destruct Hk. by exists J. Qed.

(** The origin of a record is settled: later evidence is about other ids. *)
Lemma origin_write s t w k b e : let o := {| o_body := b; o_etag := e; o_uploaded := clock w |} in
  etag_ok w k b e ->
  (forall J x oc, occ J x oc (write t w k o) -> jo_run_id oc = jr_run_id s -> occ J x oc w) ->
  (forall J, continued_id (jr_run_id s) J (write t w k o) -> continued_id (jr_run_id s) J w) ->
  origin_ok s w -> origin_ok s (write t w k o).
Proof.
  intros o He Ho Hc [H1 H2 H3 H4]. pose proof (write_grows t w k b e He) as Hg. split.
  - by eapply persistent.
  - intros J x oc Hocc E. eapply H2; [by apply Ho|done].
  - intros J HJ. apply (H3 J). by apply Hc.
  - intros Ht Ha. eapply persistent; [exact Hg|auto].
Qed.

Lemma hist_nil k w t o : hist k w = [] -> (t, k, o) ∉ log w.
Proof. intros Hh Hl. apply elem_of_hist in Hl. rewrite Hh in Hl. by apply not_elem_of_nil in Hl. Qed.

(** A record of [s] that continues the history of its key. *)
Lemma jinv_write_rec t w s b e : let k := record_of s in let o := {| o_body := b; o_etag := e; o_uploaded := clock w |} in
  etag_ok w k b e -> parse b = Some s -> ids_ok (job_of s) -> is_id "run" (jr_run_id s) = true ->
  origin_ok s w -> chain ((t, o) :: hist k w) -> (markers_kept -> ~ terminal s -> is_Some (store w !! mpath (job_of s) (jr_run_id s))) ->
  jinv w -> jinv (write t w k o).
Proof.
  intros k o He Hp HJ Hr Hor Hch Hact Hi. pose proof Hi as [H1 H2 H3 H4 H5 H6 H7 H8 H9 H10 H11 H12].
  assert (Hk : rkey k) by (by exists (job_of s), (jr_run_id s)).
  pose proof (rkey_not_okey k Hk) as Hno. pose proof (rkey_not_mkey k Hk) as Hnm.
  pose proof (write_grows t w k b e He) as Hg.
  assert (Horw : forall s', origin_ok s' w -> origin_ok s' (write t w k o)).
  { intros s' Hs'. apply origin_write; [done| | |done]; [by intros J x oc ? _; eapply occ_write_other|by intros J ?; eapply continued_write_other]. }
  assert (Hrec : recorded s (write t w k o)) by (split; [done|]; split; [done|]; exists t, o; split; [by left|done]).
  assert (Hne : forall k', ~ rkey k' -> k <> k') by (intros k' Hk' ->; done).
  split.
  - intros k' t' o' Hk' Hl. assert (k <> k') by (apply Hne; intros ?; by eapply rkey_not_okey). cbn in Hl.
    apply elem_of_cons in Hl as [Hl|Hl]; [by simplify_eq|]. rewrite hist_write, bool_decide_eq_false_2 by done.
    cbn. rewrite lookup_insert_ne by done. by apply H1.
  - intros k' t' o' Hk' Hl. assert (k <> k') by (apply Hne; intros ?; by eapply rkey_not_mkey). cbn in Hl.
    apply elem_of_cons in Hl as [Hl|Hl]; [by simplify_eq|]. destruct (H2 k' t' o' Hk' Hl) as (m & ? & ? & ?).
    exists m. split; [done|]. split; [by eapply persistent|done].
  - intros k' t' o' Hk' Hl. cbn in Hl. apply elem_of_cons in Hl as [Hl|Hl].
    + injection Hl as -> -> ->. exists s. split; [done|]. split; [done|]. split; [done|]. by apply Horw.
    + destruct (H3 k' t' o' Hk' Hl) as (s' & ? & ? & ? & ?). exists s'. split; [done|]. split; [by eapply persistent|]. split; [done|]. by apply Horw.
  - intros k' o' Hk' Ho. rewrite hist_write. cbn in Ho. destruct (bool_decide_reflect (k = k')) as [<-|Hkk].
    + rewrite lookup_insert_eq in Ho. injection Ho as <-. eauto.
    + rewrite lookup_insert_ne in Ho by done. by apply H4.
  - intros k' Hk' Ho. rewrite hist_write. cbn in Ho. destruct (bool_decide_reflect (k = k')) as [<-|Hkk].
    + by rewrite lookup_insert_eq in Ho.
    + rewrite lookup_insert_ne in Ho by done. by apply H5.
  - intros k' Hk'. rewrite hist_write. destruct (bool_decide_reflect (k = k')) as [<-|Hkk]; [done|by apply H6].
  - intros r J J' Hb Hb'. by eapply H7; eapply bound_write_other.
  - intros r J Hb. apply (H8 r J). by eapply bound_write_other.
  - intros J x oc J' x' oc' Ho Ho'. by eapply (H9 J x oc J' x' oc'); eapply occ_write_other.
  - intros r J J' Hc Hc'. by eapply (H10 r J J'); [eapply claimed_write_other|eapply continued_write_other].
  - intros J r o' s' HK HJ' Hr' Ho Hp' Ht. assert (Hmk : k <> mpath J r) by (apply Hne; intros ?; eapply rkey_not_mkey; [done|by exists J, r]).
    cbn. rewrite lookup_insert_ne by done. cbn in Ho. destruct (decide (k = rpath J r)) as [E|Hkk].
    + destruct (rpath_inj (job_of s) J (jr_run_id s) r) as [<- <-]; [done..|]. rewrite <- E, lookup_insert_eq in Ho.
      injection Ho as <-. pose proof (eq_trans (eq_sym Hp) Hp'). simplify_eq. auto.
    + rewrite lookup_insert_ne in Ho by done. by eapply H11.
  - intros J t' o' job HJ' Hl. apply (head_write_other J t w k o t' o' HJ') in Hl; [by apply (H12 J t' o')|].
    intros ?. by eapply hkey_not_rkey.
Qed.

(** No evidence about an id yet. *)
Definition unbound (r : RunId) w : Prop := forall J, ~ bound r J w.

Lemma origin_bound s w : origin_ok s w -> bound (jr_run_id s) (job_of s) w.
Proof. intros Ho. right. left. apply Ho. Qed.

(** The first claim of an occurrence, under an id that nothing speaks of yet. *)
Lemma jinv_write_occ t w J x oc b e : let k := opath J x in let o := {| o_body := b; o_etag := e; o_uploaded := clock w |} in
  etag_ok w k b e -> parse b = Some oc -> ids_ok J -> store w !! k = None ->
  unbound (jo_run_id oc) w -> is_Some (issued w !! jo_run_id oc) -> jinv w -> jinv (write t w k o).
Proof.
  intros k o He Hp HJ Hs Hu Hiss Hi. pose proof Hi as [H1 H2 H3 H4 H5 H6 H7 H8 H9 H10 H11 H12].
  assert (Hk : okey k) by (by exists J, x). pose proof (okey_not_mkey k Hk) as Hnm.
  assert (Hnr : ~ rkey k) by (intros ?; by eapply rkey_not_okey). pose proof (write_grows t w k b e He) as Hg.
  assert (Hfresh : forall t' o', (t', k, o') ∉ log w).
  { intros t' o' Hl. destruct (H1 k t' o' Hk Hl) as (_ & E & _). by rewrite Hs in E. }
  assert (Hh : hist k w = []).
  { destruct (hist k w) as [|[t' o'] l] eqn:E; [done|]. destruct (Hfresh t' o'). apply elem_of_hist. rewrite E. by left. }
  assert (Hocc : forall J' x' oc', occ J' x' oc' (write t w k o) -> occ J' x' oc' w \/ (J' = J /\ x' = x /\ oc' = oc)).
  { intros J' x' oc' Ho. destruct (occ_write _ _ _ _ _ _ _ Ho) as [?|[E E']]; [by left|right].
    destruct (opath_inj J J' x x') as [-> ->]; [done|apply Ho|done|]. pose proof (eq_trans (eq_sym Hp) E'). by simplify_eq. }
  assert (Hb : forall r J', bound r J' (write t w k o) -> bound r J' w \/ (r = jo_run_id oc /\ J' = J)).
  { intros r J' [(x' & oc' & Ho & <-)|[Hm|Hm]].
    - destruct (Hocc _ _ _ Ho) as [?|(-> & -> & ->)]; [left; left; by exists x', oc'|by right].
    - left. right. left. by eapply marked_write_other.
    - left. right. right. by eapply continued_write_other. }
  split.
  - intros k' t' o' Hk' Hl. cbn in Hl. rewrite hist_write. destruct (bool_decide_reflect (k = k')) as [<-|Hne].
    + apply elem_of_cons in Hl as [Hl|Hl]; [|by destruct (Hfresh t' o')]. injection Hl as -> ->. rewrite Hh.
      split; [done|]. split; [by apply lookup_insert_eq|by exists oc].
    + apply elem_of_cons in Hl as [Hl|Hl]; [by simplify_eq|]. cbn. rewrite lookup_insert_ne by done. by apply H1.
  - intros k' t' o' Hk' Hl. assert (k <> k') by (by intros ->). cbn in Hl.
    apply elem_of_cons in Hl as [Hl|Hl]; [by simplify_eq|]. destruct (H2 k' t' o' Hk' Hl) as (m & ? & ? & ?).
    exists m. split; [done|]. split; [by eapply persistent|done].
  - intros k' t' o' Hk' Hl. assert (k <> k') by (by intros ->). cbn in Hl. apply elem_of_cons in Hl as [Hl|Hl]; [by simplify_eq|].
    destruct (H3 k' t' o' Hk' Hl) as (s & ? & ? & ? & Hor). exists s. split; [done|]. split; [by eapply persistent|]. split; [done|].
    apply origin_write; [done| | |done]; [|by intros J' ?; eapply continued_write_other].
    intros J' x' oc' Ho E. destruct (Hocc _ _ _ Ho) as [?|(-> & -> & ->)]; [done|]. destruct (Hu (job_of s)). rewrite E. by apply origin_bound.
  - intros k' o' Hk' Ho. assert (k <> k') by (by intros ->). rewrite hist_write, bool_decide_eq_false_2 by done.
    cbn in Ho. rewrite lookup_insert_ne in Ho by done. by apply H4.
  - intros k' Hk' Ho. assert (k <> k') by (by intros ->). rewrite hist_write, bool_decide_eq_false_2 by done.
    cbn in Ho. rewrite lookup_insert_ne in Ho by done. by apply H5.
  - intros k' Hk'. assert (k <> k') by (by intros ->). rewrite hist_write, bool_decide_eq_false_2 by done. by apply H6.
  - intros r J1 J2 Hb1 Hb2. destruct (Hb _ _ Hb1) as [Hb1'|[-> ->]], (Hb _ _ Hb2) as [Hb2'|[E ->]]; try done; [by eapply H7| |];
      [subst r; by destruct (Hu J1)|by destruct (Hu J2)].
  - intros r J' Hb'. destruct (Hb _ _ Hb') as [?|[-> _]]; [by eapply H8|done].
  - intros J1 x1 oc1 J2 x2 oc2 Ho1 Ho2 E. destruct (Hocc _ _ _ Ho1) as [Ho1'|(-> & -> & ->)], (Hocc _ _ _ Ho2) as [Ho2'|(-> & -> & ->)]; [by eapply (H9 J1 x1 oc1)| | |done].
    + destruct (Hu J1). left. by exists x1, oc1.
    + destruct (Hu J2). left. by exists x2, oc2.
  - intros r J1 J2 (x1 & oc1 & Ho1 & <-) Hc. apply continued_write_other in Hc; [|done].
    destruct (Hocc _ _ _ Ho1) as [Ho1'|(-> & -> & ->)]; [|by destruct (Hu J2); right; right]. eapply (H10 (jo_run_id oc1) J1 J2); [by exists x1, oc1|done].
  - intros J' r o' s HK HJ' Hr Ho Hp' Ht. cbn in Ho |- *. rewrite lookup_insert_ne in Ho; [|intros E; apply Hnr; rewrite E; by exists J', r].
    rewrite lookup_insert_ne; [by eapply H11|]. intros E. apply Hnm. rewrite E. by exists J', r.
  - intros J1 t' o' job HJ' Hl. apply (head_write_other J1 t w k o t' o' HJ') in Hl; [by apply (H12 J1 t' o')|].
    intros ?. by eapply hkey_not_okey.
Qed.

(** A marker for an id of its job, or for one nothing speaks of, with a new continuation. *)
Lemma jinv_write_marker t w m b e : let k := mpath (job_of_marker m) (jm_run_id m) in
  let o := {| o_body := b; o_etag := e; o_uploaded := clock w |} in
  etag_ok w k b e -> parse b = Some m -> ids_ok (job_of_marker m) -> is_id "run" (jm_run_id m) = true ->
  (bound (jm_run_id m) (job_of_marker m) w \/ unbound (jm_run_id m) w) -> is_Some (issued w !! jm_run_id m) ->
  unbound (jm_continuation_run_id m) w -> is_Some (issued w !! jm_continuation_run_id m) ->
  jm_continuation_run_id m <> jm_run_id m -> jinv w -> jinv (write t w k o).
Proof.
  intros k o He Hp HJ Hr Hrun Hri Hu Hci Hcr Hi. pose proof Hi as [H1 H2 H3 H4 H5 H6 H7 H8 H9 H10 H11 H12].
  assert (Hk : mkey k) by (by exists (job_of_marker m), (jm_run_id m)).
  assert (Hno : ~ okey k) by (intros ?; by eapply okey_not_mkey).
  assert (Hnr : ~ rkey k) by (intros ?; by eapply rkey_not_mkey). pose proof (write_grows t w k b e He) as Hg.
  assert (Hm' : forall m', marker m' (write t w k o) -> marker m' w \/ m' = m).
  { intros m' Hm. destruct (marker_write _ _ _ _ _ Hm) as [?|[_ E]]; [by left|right]. pose proof (eq_trans (eq_sym Hp) E). by simplify_eq. }
  assert (Hb : forall r J, bound r J (write t w k o) -> bound r J w \/ (J = job_of_marker m /\ (r = jm_run_id m \/ r = jm_continuation_run_id m))).
  { intros r J [Hc|[(m' & Hmk & <- & <-)|(m' & Hmk & <- & <-)]].
    - left. left. by eapply claimed_write_other.
    - destruct (Hm' m' Hmk) as [?| ->]; [left; right; left; by exists m'|auto].
    - destruct (Hm' m' Hmk) as [?| ->]; [left; right; right; by exists m'|auto]. }
  assert (Hcont : forall r J, continued_id r J (write t w k o) -> continued_id r J w \/ (r = jm_continuation_run_id m)).
  { intros r J (m' & Hmk & <- & <-). destruct (Hm' m' Hmk) as [?| ->]; [left; by exists m'|by right]. }
  assert (Hnew : marker m (write t w k o)) by (split; [done|]; split; [done|]; exists t, o; split; [by left|done]).
  assert (Hbm : forall J, bound (jm_run_id m) J w -> J = job_of_marker m).
  { intros J HbJ. destruct Hrun as [Hrun|Hrun]; [by eapply H7|by destruct (Hrun J)]. }
  split.
  - intros k' t' o' Hk' Hl. assert (k <> k') by (by intros ->). cbn in Hl. apply elem_of_cons in Hl as [Hl|Hl]; [by simplify_eq|].
    rewrite hist_write, bool_decide_eq_false_2 by done. cbn. rewrite lookup_insert_ne by done. by apply H1.
  - intros k' t' o' Hk' Hl. cbn in Hl. apply elem_of_cons in Hl as [Hl|Hl]; [injection Hl as -> -> ->; by exists m|].
    destruct (H2 k' t' o' Hk' Hl) as (m' & ? & ? & ?). exists m'. split; [done|]. split; [by eapply persistent|done].
  - intros k' t' o' Hk' Hl. assert (k <> k') by (by intros ->). cbn in Hl. apply elem_of_cons in Hl as [Hl|Hl]; [by simplify_eq|].
    destruct (H3 k' t' o' Hk' Hl) as (s & ? & ? & ? & Hor). exists s. split; [done|]. split; [by eapply persistent|]. split; [done|].
    apply origin_write; [done| | |done]; [by intros J' x' oc' ? _; eapply occ_write_other|].
    intros J' Hc. destruct (Hcont _ _ Hc) as [?|E]; [done|]. destruct (Hu (job_of s)). rewrite <- E. by apply origin_bound.
  - intros k' o' Hk' Ho. assert (k <> k') by (by intros ->). rewrite hist_write, bool_decide_eq_false_2 by done.
    cbn in Ho. rewrite lookup_insert_ne in Ho by done. by apply H4.
  - intros k' Hk' Ho. assert (k <> k') by (by intros ->). rewrite hist_write, bool_decide_eq_false_2 by done.
    cbn in Ho. rewrite lookup_insert_ne in Ho by done. by apply H5.
  - intros k' Hk'. assert (k <> k') by (by intros ->). rewrite hist_write, bool_decide_eq_false_2 by done. by apply H6.
  - intros r J1 J2 Hb1 Hb2. destruct (Hb _ _ Hb1) as [Hb1'|[-> [->| ->]]], (Hb _ _ Hb2) as [Hb2'|[-> [E|E]]]; subst; try done;
      [by eapply H7|by apply Hbm|by destruct (Hu J1)|symmetry; by apply Hbm|by destruct (Hu J2)].
  - intros r J' Hb'. destruct (Hb _ _ Hb') as [?|[_ [->| ->]]]; [by eapply H8|done|done].
  - intros J1 x1 oc1 J2 x2 oc2 Ho1 Ho2. by eapply (H9 J1 x1 oc1 J2 x2 oc2); eapply occ_write_other.
  - intros r J1 J2 Hc Hc'. apply claimed_write_other in Hc; [|done]. destruct (Hcont _ _ Hc') as [?| ->]; [by eapply H10|].
    by destruct (Hu J1); left.
  - intros J' r o' s HK HJ' Hr' Ho Hp' Ht. cbn in Ho |- *. rewrite lookup_insert_ne in Ho; [|intros E; apply Hnr; rewrite E; by exists J', r].
    destruct (decide (k = mpath J' r)) as [<-|]; [by rewrite lookup_insert_eq|]. rewrite lookup_insert_ne by done. by eapply H11.
  - intros J1 t' o' job HJ' Hl. apply (head_write_other J1 t w k o t' o' HJ') in Hl; [by apply (H12 J1 t' o')|].
    intros ?. by eapply hkey_not_mkey.
Qed.

(** ** The steps of a replica *)

(** The run is over for good. *)
Definition run_over (p : ProjectId) (r : RunId) w : Prop :=
  exists s, recorded s w /\ jr_project_id s = p /\ jr_run_id s = r /\ terminal s.
#[export] Instance persistent_run_over p r : Persistent (run_over p r).
Proof. unfold run_over. apply _. Qed.

(** What a write of [t] may add: claims and continuations under ids [t] has drawn, markers
    of ids that are the job's or that [t] has drawn. *)
Definition adds (t : tid) (k : key) (o : object B) w : Prop :=
  (okey k -> exists oc : JobOccurrence, parse (o_body o) = Some oc /\ issued w !! jo_run_id oc = Some t) /\
  (mkey k -> exists m, parse (o_body o) = Some m /\ issued w !! jm_continuation_run_id m = Some t /\
     (bound (jm_run_id m) (job_of_marker m) w \/ issued w !! jm_run_id m = Some t)).

Definition job_step (t : tid) w w' : Prop :=
  grows w w' /\ (jinv w -> jinv w') /\
  (forall e, e ∈ log w' -> e ∈ log w \/ exists k o, e = (t, k, o) /\ adds t k o w) /\
  (markers_kept -> forall J r, ids_ok J -> is_id "run" r = true -> is_Some (store w !! mpath J r) ->
     is_Some (store w' !! mpath J r) \/ (jinv w -> run_over J.1.1 r w)).

#[export] Instance job_protocol : Protocol job_step.
Proof. split; [|by intros t w w' [? _]]. intros t w. split; [done|]. split; [done|]. split; auto. Qed.

Lemma jinv_tick w ms : jinv w -> jinv (tick w ms).
Proof. apply jinv_same. by split. Qed.
#[export] Instance stable_jinv t : Stable job_step t jinv.
Proof. intros w w' [(t' & _ & _ & H & _)|(ms & _ & ->)]; [done|]. apply jinv_tick. Qed.

Definition jobs_ready w : Prop := wf w /\ jinv w.
#[export] Instance stable_jobs_ready t : Stable job_step t jobs_ready.
Proof. unfold jobs_ready. apply _. Qed.

(** Evidence that is new in a step of [t'] concerns ids of [t'] or known ones. *)
Lemma step_claimed t w w' r J : job_step t w w' -> claimed_id r J w' -> claimed_id r J w \/ issued w !! r = Some t.
Proof.
  intros (_ & _ & Hlog & _) (x & oc & (HJ & t0 & o & Hl & Hp) & <-). destruct (Hlog _ Hl) as [Hl'|(k & o' & [= -> <- <-] & [Ha _])].
  - left. exists x, oc. split; [|done]. split; [done|]. by exists t0, o.
  - right. destruct Ha as (oc' & Hp' & ?); [by exists J, x|]. by simplify_eq.
Qed.
Lemma step_marker_run t w w' m : job_step t w w' -> marker m w' ->
  marker m w \/ (issued w !! jm_continuation_run_id m = Some t /\ (bound (jm_run_id m) (job_of_marker m) w \/ issued w !! jm_run_id m = Some t)).
Proof.
  intros (_ & _ & Hlog & _) (HJ & Hr & t0 & o & Hl & Hp). destruct (Hlog _ Hl) as [Hl'|(k & o' & [= -> <- <-] & [_ Ha])].
  - left. split; [done|]. split; [done|]. by exists t0, o.
  - right. destruct Ha as (m' & Hp' & ?); [by exists (job_of_marker m), (jm_run_id m)|]. by simplify_eq.
Qed.
Lemma step_bound t w w' r J : job_step t w w' -> bound r J w' -> bound r J w \/ issued w !! r = Some t.
Proof.
  intros Hs [Hc|[(m & Hm & <- & <-)|(m & Hm & <- & <-)]].
  - destruct (step_claimed _ _ _ _ _ Hs Hc); [left; by left|by right].
  - destruct (step_marker_run _ _ _ _ Hs Hm) as [?|(_ & [?|?])]; [left; right; left; by exists m|by left|by right].
  - destruct (step_marker_run _ _ _ _ Hs Hm) as [?|(? & _)]; [left; right; right; by exists m|by right].
Qed.
Lemma step_continued t w w' r J : job_step t w w' -> continued_id r J w' -> continued_id r J w \/ issued w !! r = Some t.
Proof.
  intros Hs (m & Hm & <- & <-). destruct (step_marker_run _ _ _ _ Hs Hm) as [?|(? & _)]; [left; by exists m|by right].
Qed.

(** An id drawn by [t] of which nothing speaks yet, or only markers of its own run. *)
Definition unused (t : tid) (r : RunId) w : Prop := is_id "run" r = true /\ issued w !! r = Some t /\ unbound r w.
Definition direct (t : tid) (r : RunId) w : Prop :=
  is_id "run" r = true /\ issued w !! r = Some t /\ (forall J, ~ claimed_id r J w) /\ (forall J, ~ continued_id r J w).

Lemma unused_direct t r w : unused t r w -> direct t r w.
Proof. intros (? & ? & Hu). split; [done|]. split; [done|]. split; intros J HJ; apply (Hu J); [by left|by right; right]. Qed.

Lemma unused_tick t r w ms : unused t r w -> unused t r (tick w ms).
Proof. done. Qed.
#[export] Instance stable_unused_run t r : Stable job_step t (unused t r).
Proof.
  intros w w' Ho (Hr & Hi & Hu). destruct Ho as [(t' & Ht & Hs)|(ms & _ & ->)]; [|done].
  split; [done|]. split; [by apply (grows_issued _ _ (proj1 Hs))|]. intros J HJ.
  destruct (step_bound _ _ _ _ _ Hs HJ) as [?|E]; [by apply (Hu J)|]. rewrite Hi in E. by simplify_eq.
Qed.
#[export] Instance stable_direct t r : Stable job_step t (direct t r).
Proof.
  intros w w' Ho (Hr & Hi & Hc & Hn). destruct Ho as [(t' & Ht & Hs)|(ms & _ & ->)]; [|done].
  split; [done|]. split; [by apply (grows_issued _ _ (proj1 Hs))|]. split; intros J HJ.
  - destruct (step_claimed _ _ _ _ _ Hs HJ) as [?|E]; [by apply (Hc J)|]. rewrite Hi in E. by simplify_eq.
  - destruct (step_continued _ _ _ _ _ Hs HJ) as [?|E]; [by apply (Hn J)|]. rewrite Hi in E. by simplify_eq.
Qed.

(** The marker stays until the run is over. *)
Definition held (J : job3) (r : RunId) w : Prop := markers_kept -> is_Some (store w !! mpath J r) \/ run_over J.1.1 r w.
Lemma stable_held t J r : ids_ok J -> is_id "run" r = true -> Stable job_step t (fun w => jobs_ready w /\ held J r w).
Proof.
  intros HJ Hr w w' Ho [Hready H]. split; [by apply (stable_jobs_ready t w w' Ho)|]. destruct Hready as [_ Hi].
  destruct Ho as [(t' & _ & Hs)|(ms & _ & ->)]; [|done]. intros HK. destruct (H HK) as [H0|H0].
  - destruct Hs as (Hg & _ & _ & Hm). destruct (Hm HK J r HJ Hr H0) as [?|Hover]; [by left|]. right. eapply persistent; [exact Hg|auto].
  - right. eapply persistent; [apply Hs|done].
Qed.

(** ** Building steps *)

Lemma step_write t w k b e : let o := {| o_body := b; o_etag := e; o_uploaded := clock w |} in
  etag_ok w k b e -> adds t k o w -> (jinv w -> jinv (write t w k o)) -> job_step t w (write t w k o).
Proof.
  intros o He Ha Hi. split; [by apply write_grows|]. split; [done|]. split.
  - intros x Hx. cbn in Hx. apply elem_of_cons in Hx as [->|Hx]; [right|by left]. by exists k, o.
  - intros _ J r _ _ Hm. left. cbn. destruct (decide (k = mpath J r)) as [->|]; [by rewrite lookup_insert_eq|by rewrite lookup_insert_ne].
Qed.

Lemma step_free_write t w k b e : free k -> etag_ok w k b e ->
  job_step t w (write t w k {| o_body := b; o_etag := e; o_uploaded := clock w |}).
Proof.
  intros Hk He. apply step_write; [done| |].
  - split; intros H; destruct Hk; [right; by left|right; right; by left].
  - apply jinv_same. split; [| |done].
    + intros k' Hk'. apply lookup_insert_ne. by intros ->.
    + intros k' Hk'. rewrite hist_write, bool_decide_eq_false_2; [done|]. by intros ->.
Qed.

Lemma step_issue t w id : issued w !! id = None -> job_step t w (set_issued w (<[id := t]> (issued w))).
Proof.
  intros Hid. split; [|split; [|split; [by left|by left]]].
  - split; cbn; auto; [by intros []|lia| |by exists []].
    intros id' t' Hi. rewrite lookup_insert_ne; [done|]. by intros ->; simplify_eq.
  - apply jinv_same. split; [done|done|]. intros r [x Hx]. cbn.
    destruct (decide (r = id)) as [->|]; [by rewrite lookup_insert_eq|by rewrite lookup_insert_ne, Hx].
Qed.

Lemma chain_terminal h t o s : chain h -> (t, o) ∈ h -> parse (o_body o) = Some s -> terminal s -> exists l, h = (t, o) :: l.
Proof.
  induction h as [|[t1 o1] h IH]; intros Hh Hin Hp Ht; [by apply not_elem_of_nil in Hin|].
  apply elem_of_cons in Hin as [[= <- <-]|Hin]; [by eexists|]. destruct Hh as [Hn Hh].
  destruct (IH Hh Hin Hp Ht) as [l ->]. destruct Hn as (s1 & s2 & Hp1 & Hp2 & Hnext). simplify_eq.
  by destruct (terminal_final _ _ Ht Hnext).
Qed.

(** Records of one run id are at one key. *)
Lemma recorded_job w s s' : jinv w -> recorded s w -> recorded s' w -> jr_run_id s = jr_run_id s' -> job_of s = job_of s'.
Proof.
  intros Hi (HJ & Hr & t & o & Hl & Hp) (HJ' & Hr' & t' & o' & Hl' & Hp') E.
  destruct (ji_rec _ Hi (record_of s) t o) as (s1 & Hp1 & _ & _ & Ho1); [by exists (job_of s), (jr_run_id s)|done|].
  destruct (ji_rec _ Hi (record_of s') t' o') as (s2 & Hp2 & _ & _ & Ho2); [by exists (job_of s'), (jr_run_id s')|done|].
  simplify_eq. apply origin_bound in Ho1, Ho2. rewrite E in Ho1. by eapply (ji_bound _ Hi).
Qed.

(** A run that is over is stored as such. *)
Lemma over_stored w J r o s : jinv w -> run_over J.1.1 r w -> ids_ok J -> is_id "run" r = true ->
  store w !! rpath J r = Some o -> parse (o_body o) = Some s -> terminal s.
Proof.
  intros Hi (s0 & Hrec & _ & E & Ht) HJ Hr Hs Hp. destruct (ji_last _ Hi (rpath J r) o) as (t & l & Hh); [by exists J, r|done|].
  assert (Hl : (t, rpath J r, o) ∈ log w) by (apply elem_of_hist; rewrite Hh; by left).
  destruct (ji_rec _ Hi (rpath J r) t o) as (s1 & Hp1 & Hrec1 & Hk & _); [by exists J, r|done|].
  rewrite Hp in Hp1. injection Hp1 as <-. subst r.
  destruct (rpath_inj J (job_of s) (jr_run_id s0) (jr_run_id s)) as [-> E1]; [done|apply Hrec1|done|apply Hrec1|exact Hk|].
  pose proof (recorded_job w s0 s Hi Hrec Hrec1 E1) as EJ. destruct Hrec as (HJ0 & Hr0 & t0 & o0 & Hl0 & Hp0).
  assert (Ek : record_of s0 = rpath (job_of s) (jr_run_id s0)) by (by rewrite <- EJ).
  rewrite Ek in Hl0. apply elem_of_hist in Hl0.
  destruct (chain_terminal _ t0 o0 s0 (ji_chain _ Hi (rpath (job_of s) (jr_run_id s0)) ltac:(by exists (job_of s), (jr_run_id s0))) Hl0 Hp0 Ht) as [l0 Hh0].
  rewrite Hh in Hh0. injection Hh0 as -> -> ->. rewrite Hp in Hp0. by injection Hp0 as ->.
Qed.

(** Deleting free objects and the markers of runs that are over. *)
Definition removable (k : key) w : Prop :=
  free k \/ exists J r, ids_ok J /\ is_id "run" r = true /\ k = mpath J r /\ (markers_kept -> run_over J.1.1 r w).
#[export] Instance persistent_removable k : Persistent (removable k).
Proof. unfold removable. intros w w' Hg [?|(J & r & ? & ? & ? & ?)]; [by left|right; exists J, r]. do 3 (split; [done|]). intros HK. eapply persistent; [exact Hg|auto]. Qed.

Lemma step_remove t w ks : (forall k, k ∈ ks -> removable k w) -> job_step t w (remove w ks).
Proof.
  intros Hks. assert (Hkeep : forall k, rkey k \/ okey k -> store (remove w ks) !! k = store w !! k).
  { intros k Hk. rewrite store_remove, decide_False; [done|]. intros Hin.
    destruct (Hks k Hin) as [Hf|(J & r & HJ & Hr & -> & _)]; [apply Hf; destruct Hk; [by left|right; by left]|].
    destruct Hk as [Hk|Hk]; [eapply rkey_not_mkey|eapply okey_not_mkey]; try exact Hk; by exists J, r. }
  assert (Hmark : markers_kept -> forall J r, ids_ok J -> is_id "run" r = true -> is_Some (store w !! mpath J r) ->
    is_Some (store (remove w ks) !! mpath J r) \/ run_over J.1.1 r w).
  { intros HK J r HJ Hr Hm. rewrite store_remove. case_decide as Hin; [right|by left].
    destruct (Hks _ Hin) as [Hf|(J' & r' & HJ' & Hr' & E & Hover)]; [destruct Hf; right; right; left; by exists J, r|].
    destruct (mpath_inj J J' r r') as [-> ->]; [done..|]. by apply Hover. }
  split; [apply grows_remove|]. split; [|split; [by left|]].
  - intros Hi. pose proof Hi as [H1 H2 H3 H4 H5 H6 H7 H8 H9 H10 H11 H12]. split; [| exact H2 | | | | exact H6 | exact H7 | exact H8 | exact H9 | exact H10 | | exact H12].
    + intros k t' o Hk Hl. destruct (H1 k t' o Hk Hl) as (? & ? & ?). by rewrite Hkeep by (by right).
    + intros k t' o Hk Hl. destruct (H3 k t' o Hk Hl) as (s & ? & ? & ? & [O1 O2 O3 O4]). by exists s.
    + intros k o Hk. rewrite Hkeep by (by left). by apply H4.
    + intros k Hk. rewrite Hkeep by (by left). by apply H5.
    + intros J r o s HK HJ Hr. rewrite Hkeep by (left; by exists J, r). intros Ho Hp Ht.
      destruct (Hmark HK J r HJ Hr) as [?|Hover]; [by eapply H11|done|]. destruct Ht. by eapply (over_stored w J r).
  - intros HK J r HJ Hr Hm. destruct (Hmark HK J r HJ Hr Hm); [by left|right; auto].
Qed.
End Protocol.
