(* ===== verification/JobReplicas.v ===== *)
(** * Replicas working on jobs

    The operations of [JobRuns.v] and [JobScheduler.v] verified against the protocol of
    [JobProtocol.v]: each is a sequence of allowed steps for any replica among any others,
    storage faults included, and leaves behind what its caller goes on with. *)

From Stdlib Require Import ZArith Lia.
From stdpp Require Import relations.
From S2P Require Import Prelude Constants Lifecycle Schema UtcDate Store Cas Storage CasTheorems CasEffects Calls Listing SessionData CatalogData Cron JobData JobRuns Events JobScheduler JobProtocol.
Import RunState.

(** The codecs read back what satisfies the schemas. *)
Class JobSchemas (B : Type) {CR : Codec B JobRun} {CM : Codec B JobRunMarker} {CO : Codec B JobOccurrence} : Prop := {
  run_valid (s : JobRun) : valid s <-> JobRunSchema s = true;
  marker_valid (m : JobRunMarker) : valid m <-> JobRunMarkerSchema m = true;
  occurrence_valid (o : JobOccurrence) : valid o <-> JobOccurrenceSchema o = true;
}.

Section Replicas.
Context {K : MarkerRule}.
Context {B V : Type} {CR : Codec B JobRun} {CM : Codec B JobRunMarker} {CO : Codec B JobOccurrence} {CD : Codec B JobDefinition}.
Context {JS : JobSchemas B}.
Context (blank : B).
Local Notation prog := (prog B V).
Implicit Types w : world B V.

(** ** Programs that stay away from the job objects *)

Definition harmless {X} (o : op B V X) : Prop :=
  match o with
  | OPut k _ _ => free k
  | ODelete ks => forall k, k ∈ ks -> free k
  | _ => True
  end.
Definition outside {A} (p : prog A) : Prop := calls (fun X o => harmless o) p.

(** Steps that leave store and history alone. *)
Lemma step_quiet t w w' : grows w w' -> store w' = store w -> log w' = log w -> job_step t w w'.
Proof.
  intros Hg Hs Hl. split; [done|]. split; [|split].
  - apply jinv_same. split; [by rewrite Hs|unfold hist; by rewrite Hl|]. intros r [x Hx]. exists x. by apply (grows_issued _ _ Hg).
  - intros e He. left. by rewrite <- Hl.
  - intros _ J r _ _ Hm. left. by rewrite Hs.
Qed.

Lemma harmless_step t {X} (o : op B V X) w r w' : harmless o -> op_step t o w r w' -> job_step t w w'.
Proof.
  intros Ho Hs. assert (Hsem : forall r w', sem t o w r w' -> job_step t w w').
  { clear Hs. intros r0 w0 Hs. pose proof (sem_grows _ _ _ _ _ Hs) as Hg. destruct o; cbn in Hs, Ho; try (destruct Hs as [-> _]; by apply step_quiet).
    - destruct Hs as [(_ & -> & _)|(_ & e & He & -> & _)]; [by apply step_quiet|by apply step_free_write].
    - destruct Hs as [-> _]. apply step_remove. intros k Hk. left. by apply Ho.
    - destruct Hs as (id & _ & _ & -> & _). by apply step_quiet. }
  destruct Hs as [Hs|(_ & [->|[[r' Hs]|Hs]] & _)]; [by eapply Hsem|by apply step_quiet|by eapply Hsem|].
  destruct o; try done. destruct Hs as (ks' & Hsub & ->). apply step_remove. intros k Hk. left. apply Ho. by apply Hsub.
Qed.

(** They keep every fact the protocol keeps. *)
Lemma hoare_outside t {A} (P : world B V -> Prop) (p : prog A) Q `{!Kept job_step P} : outside p -> returns p Q ->
  hoare job_step t P p (returned Q P).
Proof.
  intros Hp HQ. apply (hoare_calls job_step t (fun X o => harmless o)); [apply _| |exact Hp|exact HQ]. intros X o w r w' Ho Hs HP.
  assert (HG : job_step t w w') by (by eapply harmless_step). split; [done|by eapply kept_step].
Qed.

#[export] Instance kept_jobs_ready : Kept (B:=B) (V:=V) job_step jobs_ready.
Proof.
  split; [intros t w w' (Hg & Hi & _) [? ?]; split; [by apply (grows_wf _ _ Hg)|auto]|].
  intros w ms Hms [? ?]. split; [by apply (grows_wf _ _ (grows_tick _ _ Hms))|by apply jinv_tick].
Qed.
#[export] Instance jobs_draw_ids : DrawsIds (B:=B) (V:=V) job_step.
Proof. intros t w id Hid. by apply step_issue. Qed.
#[export] Instance keeps_jobs_ready : KeepsIds (B:=B) (V:=V) jobs_ready.
Proof. intros t w id Hid [? Hi]. split; [by apply (keeps_ids t)|]. by apply (step_issue t w id Hid). Qed.
Lemma jobs_ready_wf w : jobs_ready w -> wf w.
Proof. by intros [? _]. Qed.

(** ** Drawing run ids *)

#[export] Instance keeps_persistent (F : world B V -> Prop) : Persistent F -> KeepsIds F.
Proof. intros HF t w id Hid. apply HF. apply (step_issue t w id Hid). Qed.

Lemma unused_issue t r t' w id : issued w !! id = None -> unused t r w -> unused t r (set_issued w (<[id := t']> (issued w))).
Proof.
  intros Hid (Hr & Hi & Hu). split; [done|]. split; [|exact Hu]. cbn. rewrite lookup_insert_ne; [done|]. intros ->. by simplify_eq.
Qed.
#[export] Instance keeps_unused t r : KeepsIds (B:=B) (V:=V) (unused t r).
Proof. intros t' w id. apply unused_issue. Qed.

(** A drawn id is one that nothing speaks of. *)
Lemma drawn_unused t w id : jinv w -> is_id "run" id = true -> issued w !! id = None -> unused t id (set_issued w (<[id := t]> (issued w))).
Proof.
  intros Hi Hid Hnone. split; [done|]. split; [by apply lookup_insert_eq|]. intros J HJ. assert (HJ' : bound id J w) by exact HJ.
  destruct (ji_issued _ Hi _ _ HJ') as [x Hx]. by rewrite Hnone in Hx.
Qed.

Lemma createRunId_new t P `{!Stable job_step t P} `{!KeepsIds P} :
  hoare job_step t (fun w => jobs_ready w /\ P w) createRunId
    (fun res w => exists c, res = Ok c /\ (jobs_ready w /\ P w) /\ unused t c w).
Proof.
  apply hoare_call; [apply _|apply _|]. intros w res w' [Hready HP] [(id & Hid & Hnone & -> & ->)|[? _]]; [|done].
  split; [by apply step_issue|]. exists id. split; [done|]. split; [split; [by apply keeps_jobs_ready|by apply keeps_ids]|].
  apply drawn_unused; [apply Hready|done|done].
Qed.

Lemma createRunId_spec t P r `{!Stable job_step t P} `{!KeepsIds P} :
  (forall w, jobs_ready w -> P w -> is_Some (issued w !! r)) ->
  hoare job_step t (fun w => jobs_ready w /\ P w) createRunId
    (fun res w => exists c, res = Ok c /\ c <> r /\ (jobs_ready w /\ P w) /\ unused t c w).
Proof.
  intros Hr. apply hoare_call; [apply _|apply _|]. intros w res w' [Hready HP] [(id & Hid & Hnone & -> & ->)|[? _]]; [|done].
  split; [by apply step_issue|]. exists id. split; [done|]. split.
  { intros ->. destruct (Hr w Hready HP) as [x Hx]. by rewrite Hnone in Hx. }
  split; [split; [by apply keeps_jobs_ready|by apply keeps_ids]|]. apply drawn_unused; [apply Hready|done|done].
Qed.

(** ** Claiming an occurrence *)

Definition claim_left (J : job3) (x : string) (oc : JobOccurrence) (res : result (error V) occurrence_claim) w : Prop :=
  jobs_ready w /\
  match res with
  | Ok Claimed => occ J x oc w
  | Ok (Standing (Some oc')) => occ J x oc' w
  | _ => True
  end.

Definition standing_of (y : option (object B)) : option JobOccurrence :=
  match y with Some o => parse (o_body o) | None => None end.
#[local] Instance stable_claim_left t J x oc res : Stable job_step t (claim_left J x oc res).
Proof. unfold claim_left. destruct res as [[|[]]|]; apply _. Qed.

Lemma stored_occ w J x o : jobs_ready w -> ids_ok J -> store w !! opath J x = Some o ->
  exists oc, parse (o_body o) = Some oc /\ occ J x oc w.
Proof.
  intros [Hw Hi] HJ Hs. destruct (wf_stored _ Hw _ _ Hs) as [t Hl].
  destruct (ji_occ _ Hi _ _ _ ltac:(by exists J, x) Hl) as (_ & _ & oc & Hp). exists oc. split; [done|]. split; [done|]. by exists t, o.
Qed.

Lemma claimOccurrence_spec t J x r firedAt outcome : ids_ok J -> utcTimestamp firedAt = true ->
  hoare job_step t (fun w => jobs_ready w /\ unused t r w)
    (claimOccurrence J.1.1 J.1.2 J.2 x r firedAt outcome)
    (claim_left J x {| jo_run_id := r; jo_fired_at := firedAt; jo_outcome := Some outcome |}).
Proof.
  intros HJ Hf. unfold claimOccurrence. set (oc := {| jo_run_id := r; jo_fired_at := firedAt; jo_outcome := Some outcome |}).
  change (occurrence_path J.1.1 J.1.2 J.2 x) with (opath J x). eapply hoare_bind.
  - apply (hoare_putIfAbsent job_step t (opath J x) (stringify oc) _ (fun w => jobs_ready w /\ occ J x oc w) (fun _ => True)); [apply _..| |done].
    intros w e [[Hw Hi] Hu] Hs He o. assert (Hp : parse (o_body o) = Some oc).
    { apply parse_stringify, occurrence_valid. unfold JobOccurrenceSchema. cbn. destruct Hu as (Hid & _). by rewrite Hid. }
    assert (HG : job_step t w (write t w (opath J x) o)).
    { apply step_write; [done| |].
      - split; [intros _; exists oc; split; [done|]; apply Hu|]. intros Hm. destruct (okey_not_mkey (opath J x)); [by exists J, x|done].
      - apply jinv_write_occ with (oc := oc); [done|done|done|done|apply Hu|]. destruct Hu as (_ & E & _). cbn. by rewrite E. }
    split; [done|]. split; [by eapply (kept_step t w)|]. split; [done|]. exists t, o. split; [by left|done].
  - intros [|].
    + apply hoare_ret; [apply _|]. by intros w [? ?].
    + eapply hoare_bind.
      * apply (hoare_get job_step t (opath J x) _ (fun y => claim_left J x oc (Ok (Standing (standing_of y))))).
        intros w [[Hr _] _]. split; [done|]. destruct (store w !! opath J x) as [o|] eqn:E; [|done].
        destruct (stored_occ w J x o Hr HJ E) as (oc' & Hp & Ho). cbn. by rewrite Hp.
      * intros [o|]; by apply hoare_ret; [apply _|].
      * intros e. apply hoare_throw; [apply _|]. by intros w [[[? _] _] _].
  - intros e. apply hoare_throw; [apply _|]. intros w [[[? _]|[? _]] _]; done.
Qed.

(** ** Writing a run *)

(** Where the id of a run to be written comes from: a claimed occurrence, the marker of
    the attempt before, or [t] drew it. *)
Inductive source (t : tid) (s : JobRun) w : Prop :=
| SOccurrence x oc ms : occ (job_of s) x oc w -> jo_run_id oc = jr_run_id s -> jr_trigger s = TSchedule -> jr_attempt s = 1%Z ->
    jr_scheduled_for s = Some (toISOString ms) -> x = occurrenceKey ms ->
    (outcome_of oc = OutcomeSkip <-> jr_status s = RSkipped) -> source t s w
| SContinuation : continued_id (jr_run_id s) (job_of s) w -> (2 <= jr_attempt s)%Z -> source t s w
| SDirect : direct t (jr_run_id s) w -> (unbound (jr_run_id s) w \/ marked_id (jr_run_id s) (job_of s) w) ->
    ~ (jr_trigger s = TSchedule /\ jr_attempt s = 1%Z) -> source t s w.

#[local] Existing Instances persistent_claimed persistent_marked_run persistent_continued.

#[export] Instance stable_source t s : Stable job_step t (source t s).
Proof.
  intros w w' Ho Hs. pose proof (others_grows _ _ _ _ Ho) as Hg. destruct Hs as [x oc ms H1 H2 H3 H4 H5 H6 H7|H1 H2|H1 H2 H3].
  - eapply SOccurrence; eauto. by eapply persistent.
  - apply SContinuation; [by eapply persistent|done].
  - apply SDirect; [by apply (stable_direct t _ w w' Ho)| |done]. destruct H2 as [H2|H2]; [left|right; by eapply persistent].
    apply (stable_unused_run t _ w w' Ho). destruct H1 as (? & ? & _). by split.
Qed.

(** It does not see history entries, nor ids being drawn. *)
Lemma source_keep t s w w' : grows w w' -> (forall k, ~ rkey k -> watched k -> hist k w' = hist k w) ->
  source t s w -> source t s w'.
Proof.
  intros Hg Hh [x oc ms H1 H2 H3 H4 H5 H6 H7|H1 H2|(Hr & Hi & Hc & Hn) H2 H3].
  - eapply SOccurrence; eauto. by eapply persistent.
  - apply SContinuation; [by eapply persistent|done].
  - assert (Hocc : forall J x oc, occ J x oc w' -> occ J x oc w).
    { intros J x oc (HJ & t0 & o & Hl & Hp). split; [done|]. exists t0, o. split; [|done]. apply elem_of_hist. apply elem_of_hist in Hl.
      rewrite <- Hh; [done| |by apply watched_o]. intros Hk. by apply (rkey_not_okey _ Hk); exists J, x. }
    assert (Hmk : forall m, marker m w' -> marker m w).
    { intros m (HJ & Hr' & t0 & o & Hl & Hp). split; [done|]. split; [done|]. exists t0, o. split; [|done]. apply elem_of_hist. apply elem_of_hist in Hl.
      rewrite <- Hh; [done| |by apply watched_m]. intros Hk. by apply (rkey_not_mkey _ Hk); exists (job_of_marker m), (jm_run_id m). }
    apply SDirect; [split; [done|]; split; [by apply (grows_issued _ _ Hg)|]; split| |done].
    + intros J (x & oc & Ho & E). apply (Hc J). exists x, oc. auto.
    + intros J (m & Hm & E). apply (Hn J). exists m. auto.
    + destruct H2 as [H2|H2]; [left|right; by eapply persistent].
      intros J [(x & oc & Ho & E)|[(m & Hm & E)|(m & Hm & E)]]; apply (H2 J); [left; exists x, oc|right; left; exists m|right; right; exists m]; auto.
Qed.
#[export] Instance keeps_source t s : KeepsIds (source t s).
Proof. intros t' w id Hid. apply source_keep; [|done]. apply (step_issue t' w id Hid). Qed.

Lemma source_bound t s w : source t s w -> bound (jr_run_id s) (job_of s) w \/ unbound (jr_run_id s) w.
Proof.
  intros [x oc ms H1 H2 _ _ _ _ _|H1 _|_ [H2|H2] _]; [left; left; by exists x, oc|left; by right; right|by right|left; by right; left].
Qed.
Lemma source_issued t s w : jinv w -> source t s w -> is_Some (issued w !! jr_run_id s).
Proof.
  intros Hi Hs. destruct (source_bound _ _ _ Hs) as [Hb|Hu]; [by eapply (ji_issued _ Hi)|].
  destruct Hs as [x oc ms H1 H2 _ _ _ _ _|H1 _|(_ & H & _) _ _]; [|by destruct (Hu (job_of s)); right; right|by eexists].
  destruct (Hu (job_of s)). left. by exists x, oc.
Qed.

(** With its marker written the run has the origin its record needs. *)
Lemma origin_from t s w : jinv w -> source t s w -> marked_id (jr_run_id s) (job_of s) w -> origin_ok s w.
Proof.
  intros Hi Hs Hm. destruct Hs as [x oc ms H1 H2 H3 H4 H5 H6 H7|H1 H2|(_ & _ & Hc & Hn) _ H3]; (split; [done|..]).
  - intros J x' oc' Ho E. assert (J = job_of s) as ->.
    { eapply (ji_bound _ Hi (jr_run_id s)); left; [by exists x', oc'|by exists x, oc]. }
    assert (x' = x) as -> by (eapply (ji_once _ Hi); [exact Ho|exact H1|congruence]).
    destruct Ho as (HJ & t1 & o1 & Hl1 & Hp1), H1 as (_ & t2 & o2 & Hl2 & Hp2).
    destruct (ji_occ _ Hi _ _ _ ltac:(by exists (job_of s), x) Hl1) as (E1 & _), (ji_occ _ Hi _ _ _ ltac:(by exists (job_of s), x) Hl2) as (E2 & _).
    rewrite E1 in E2. injection E2 as -> ->. assert (oc' = oc) as -> by congruence. eauto 10.
  - intros J HJ. destruct (ji_split _ Hi (jr_run_id s) (job_of s) J); [by exists x, oc|done].
  - intros _ _. by exists x, oc.
  - intros J x oc Ho E. destruct (ji_split _ Hi (jr_run_id s) J (job_of s)); [by exists x, oc|done].
  - intros _ _. done.
  - intros _ E. lia.
  - intros J x oc Ho E. destruct (Hc J). by exists x, oc.
  - intros J HJ. by destruct (Hn J).
  - intros E1 E2. by destruct H3.
Qed.

(** A run whose marker is written, or was. *)
Definition marked t s w : Prop :=
  (jobs_ready w /\ held (job_of s) (jr_run_id s) w) /\ marked_id (jr_run_id s) (job_of s) w /\ source t s w.

Lemma schema_ids s : JobRunSchema s = true -> ids_ok (job_of s) /\ is_id "run" (jr_run_id s) = true.
Proof. unfold JobRunSchema, run_fixed_schema, ids_ok. cbn. rewrite !andb_true_iff. tauto. Qed.

Section Writing.
Context (t : tid) (s : JobRun) (s_ok : JobRunSchema s = true).

Let ids : ids_ok (job_of s) := proj1 (schema_ids s s_ok).
Let rid : is_id "run" (jr_run_id s) = true := proj2 (schema_ids s s_ok).

#[local] Instance stable_marked : Stable job_step t (marked t s).
Proof. unfold marked. apply stable_and; [by apply stable_held|apply _]. Qed.

(** The marker found in place is the run's. *)
Lemma marker_found w o : jobs_ready w -> source t s w -> store w !! mpath (job_of s) (jr_run_id s) = Some o -> marked t s w.
Proof.
  intros Hready Hs Ho. split; [split; [done|intros _; left; by eexists]|]. split; [|done]. destruct Hready as [Hw Hi].
  destruct (wf_stored _ Hw _ _ Ho) as [t0 Hl].
  destruct (ji_mark _ Hi _ t0 o ltac:(by exists (job_of s), (jr_run_id s)) Hl) as (m & _ & Hm & E).
  destruct (mpath_inj (job_of s) (job_of_marker m) (jr_run_id s) (jm_run_id m)) as [_ Er]; [done|apply Hm|done|apply Hm|done|].
  assert (Hb : marked_id (jr_run_id s) (job_of_marker m) w) by (by exists m).
  destruct (source_bound _ _ _ Hs) as [Hb'|Hu]; [|by destruct (Hu (job_of_marker m)); right; left].
  by rewrite (ji_bound _ Hi _ _ _ Hb' (or_intror (or_introl Hb))).
Qed.

Lemma marker_step w job c now e : jd_project_id job = jr_project_id s -> jd_notebook_id job = jr_notebook_id s -> jd_id job = jr_job_id s ->
  utcTimestamp now = true -> c <> jr_run_id s -> jobs_ready w -> source t s w -> unused t c w ->
  store w !! mpath (job_of s) (jr_run_id s) = None ->
  let b := stringify (new_marker job (jr_run_id s) c now) in let k := mpath (job_of s) (jr_run_id s) in
  let o := {| o_body := b; o_etag := e; o_uploaded := clock w |} in
  etag_ok w k b e -> job_step t w (write t w k o) /\ marked t s (write t w k o).
Proof.
  intros Ep En Ej Hnow Hc Hready Hs Hu Hnone b k o He. set (m := new_marker job (jr_run_id s) c now).
  assert (Hm : job_of_marker m = job_of s /\ jm_run_id m = jr_run_id s /\ jm_continuation_run_id m = c).
  { unfold job_of_marker, job_of, m, new_marker; cbn. by rewrite Ep, En, Ej. }
  destruct Hm as (Em & Er & Ec). destruct Hready as [Hw Hi]. destruct Hu as (Hcid & Hci & Hcu).
  assert (Hp : parse b = Some m).
  { apply parse_stringify, marker_valid. unfold JobRunMarkerSchema. rewrite Er, Ec, rid, Hcid. cbn.
    destruct ids as (H1 & H2 & H3). cbn in *. by rewrite Ej, En, Ep, H1, H2, H3. }
  assert (Hk : k = mpath (job_of_marker m) (jm_run_id m)) by (by rewrite Em, Er).
  assert (Hir : is_Some (issued w !! jr_run_id s)) by (by eapply source_issued).
  assert (HG : job_step t w (write t w k o)).
  { apply step_write; [done| |].
    - split; [intros Ho; by destruct (okey_not_mkey _ Ho); exists (job_of s), (jr_run_id s)|]. intros _. exists m. rewrite Em, Er, Ec.
      split; [done|]. split; [done|]. destruct (source_bound _ _ _ Hs) as [?|Hun]; [by left|right].
      destruct Hs as [x oc ms H1 H2 _ _ _ _ _|H1 _|(_ & ? & _) _ _]; [|by destruct (Hun (job_of s)); right; right|done].
      destruct (Hun (job_of s)). left. by exists x, oc.
    - unfold o. rewrite Hk. apply (jinv_write_marker t w m); rewrite ?Em, ?Er, ?Ec; try done; by eapply source_bound. }
  split; [done|]. assert (Hmid : marked_id (jr_run_id s) (job_of s) (write t w k o)).
  { exists m. split; [|done]. split; [by rewrite Em|]. split; [by rewrite Er|]. exists t, o. split; [|done]. rewrite <- Hk. by left. }
  split; [split; [by eapply (kept_step t w)|intros _; left; cbn; by rewrite lookup_insert_eq]|]. split; [done|].
  pose proof (proj1 HG) as Hg. destruct Hs as [x oc ms H1 H2 H3 H4 H5 H6 H7|H1 H2|(Hr & Hi' & Hcl & Hn) H2 H3].
  - eapply SOccurrence; eauto. by eapply persistent.
  - apply SContinuation; [by eapply persistent|done].
  - apply SDirect; [|by right|done]. split; [done|]. split; [done|]. split.
    + intros J HJ. apply (Hcl J). eapply claimed_write_other; [|exact HJ]. intros Ho. by destruct (okey_not_mkey _ Ho); exists (job_of s), (jr_run_id s).
    + intros J (m' & Hm' & E1 & E2). destruct (marker_write _ _ _ _ _ Hm') as [?|[_ E]]; [apply (Hn J); by exists m'|].
      pose proof (eq_trans (eq_sym Hp) E) as [= <-]. by rewrite Ec in E2.
Qed.

Lemma marked_other w w' : job_step t w w' -> (forall k, ~ rkey k -> watched k -> hist k w' = hist k w) -> marked t s w -> marked t s w'.
Proof.
  intros HG Hh ((Hready & Hheld) & Hm & Hs). pose proof (proj1 HG) as Hg.
  split; [split; [by eapply (kept_step t w)|]|split; [by eapply persistent|by eapply source_keep]].
  intros HK. destruct (Hheld HK) as [H|H]; [|right; by eapply persistent]. destruct HG as (_ & _ & _ & Hmk), Hready as [_ Hi].
  destruct (Hmk HK _ _ ids rid H) as [?|Hover]; [by left|right]. eapply persistent; [exact Hg|auto].
Qed.

(** A record at the key of the run. *)
Lemma found_record w o s' : jobs_ready w -> store w !! record_of s = Some o -> parse (o_body o) = Some s' ->
  recorded s' w /\ job_of s' = job_of s /\ jr_run_id s' = jr_run_id s.
Proof.
  intros [Hw Hi] Ho Hp. destruct (wf_stored _ Hw _ _ Ho) as [t0 Hl].
  destruct (ji_rec _ Hi _ t0 o ltac:(by exists (job_of s), (jr_run_id s)) Hl) as (s1 & Hp1 & Hrec & Hk & _).
  rewrite Hp in Hp1. injection Hp1 as <-. split; [done|].
  destruct (rpath_inj (job_of s) (job_of s') (jr_run_id s) (jr_run_id s')) as [E1 E2]; [done|apply Hrec|done|apply Hrec|exact Hk|done].
Qed.

(** The first record of a marked run. *)
Lemma record_step w e : jr_status s = RQueued \/ jr_status s = RSkipped -> marked t s w -> store w !! record_of s = None ->
  let o := {| o_body := stringify s; o_etag := e; o_uploaded := clock w |} in
  etag_ok w (record_of s) (stringify s) e ->
  job_step t w (write t w (record_of s) o) /\ jobs_ready (write t w (record_of s) o) /\ recorded s (write t w (record_of s) o).
Proof.
  intros Hst ((Hready & Hheld) & Hm & Hs) Hnone o He. destruct Hready as [Hw Hi].
  assert (Hk : rkey (record_of s)) by (by exists (job_of s), (jr_run_id s)).
  assert (Hp : parse (stringify s) = Some s) by (by apply parse_stringify, run_valid).
  pose proof (ji_kept _ Hi _ Hk Hnone) as Hh.
  assert (HG : job_step t w (write t w (record_of s) o)).
  { apply step_write; [done| |].
    - split; intros H; exfalso; [by eapply rkey_not_okey|by eapply rkey_not_mkey].
    - apply jinv_write_rec; [done|done|done|done|by eapply origin_from| |].
      + rewrite Hh. split; [|done]. by exists s.
      + intros HK _. destruct (Hheld HK) as [?|(s0 & Hrec & _ & E & _)]; [done|]. exfalso. destruct Hrec as (HJ & Hr & t0 & o0 & Hl & Hp0).
        destruct (ji_rec _ Hi (record_of s0) t0 o0) as (s1 & Hp1 & _ & _ & Hor); [by exists (job_of s0), (jr_run_id s0)|done|].
        rewrite Hp0 in Hp1. injection Hp1 as <-. apply origin_bound in Hor. rewrite E in Hor.
        assert (EJ : job_of s0 = job_of s) by (eapply (ji_bound _ Hi); [exact Hor|by right; left]).
        assert (Ek : record_of s0 = record_of s) by (change (rpath (job_of s0) (jr_run_id s0) = rpath (job_of s) (jr_run_id s)); by rewrite EJ, E).
        rewrite Ek in Hl. by apply (hist_nil _ _ _ _ Hh) in Hl. }
  split; [done|]. split; [by eapply (kept_step t w)|]. split; [done|]. split; [done|]. exists t, o. split; [by left|done].
Qed.
End Writing.

(** What a caller knows of the run it is handed. *)
Definition run_left (J : job3) (r : RunId) (res : result (error V) JobRun) w : Prop :=
  jobs_ready w /\ match res with Ok s' => recorded s' w /\ job_of s' = J /\ jr_run_id s' = r | Err _ => True end.
#[export] Instance stable_run_left t J r res : Stable job_step t (run_left J r res).
Proof. unfold run_left. destruct res; apply _. Qed.

Definition record_seen (s : JobRun) (y : option (object B)) w : Prop :=
  jobs_ready w /\ match y with
                  | Some o => forall s', parse (o_body o) = Some s' -> recorded s' w /\ job_of s' = job_of s /\ jr_run_id s' = jr_run_id s
                  | None => True
                  end.
#[local] Instance stable_record_seen t s y : Stable job_step t (record_seen s y).
Proof. unfold record_seen. destruct y; apply _. Qed.

Lemma getRun_spec t s : JobRunSchema s = true ->
  hoare job_step t jobs_ready (getRun (jr_project_id s) (jr_notebook_id s) (jr_job_id s) (jr_run_id s)) (run_left (job_of s) (jr_run_id s)).
Proof.
  intros Hok. unfold getRun. eapply hoare_bind.
  - apply (hoare_get job_step t _ _ (record_seen s)). intros w Hw. split; [done|]. destruct (store w !! _) as [o|] eqn:E; [|done].
    intros s' Hp. by eapply found_record.
  - intros [o|]; [|apply hoare_throw; [apply _|]; by intros w [? _]]. unfold readStored.
    destruct (parse (o_body o)) as [s'|] eqn:Hp; [|apply hoare_throw; [apply _|]; by intros w [? _]].
    apply hoare_ret; [apply _|]. intros w [? H]. split; auto.
  - intros e. apply hoare_throw; [apply _|]. by intros w [? _].
Qed.

Lemma write_run_spec t job s now : job_of s = (jd_project_id job, jd_notebook_id job, jd_id job) -> utcTimestamp now = true ->
  jr_status s = RQueued \/ jr_status s = RSkipped ->
  hoare job_step t (fun w => jobs_ready w /\ source t s w) (write_run blank job s now) (run_left (job_of s) (jr_run_id s)).
Proof.
  intros EJ Hnow Hst. assert (E : jd_project_id job = jr_project_id s /\ jd_notebook_id job = jr_notebook_id s /\ jd_id job = jr_job_id s).
  { unfold job_of in EJ. by injection EJ. }
  destruct E as (Ep & En & Ej). unfold write_run, JobRunSchema_parse. destruct (JobRunSchema s) eqn:Hok.
  2: { apply hoare_throw; [apply _|]. by intros w [? _]. }
  apply hoare_ret_bind. destruct (schema_ids s Hok) as [HJ Hr]. pose proof (stable_marked t s Hok) as Hstab.
  eapply hoare_bind; [apply (createRunId_spec t (source t s) (jr_run_id s)); intros w [_ Hi]; by apply source_issued| |].
  2: { intros e. apply hoare_throw; [apply _|]. by intros w (c & ? & _). }
  intros c0. apply hoare_exists; intros c. apply hoare_pure; intros [= ->]. apply hoare_pure; intros Hc. rewrite Ep, En, Ej.
  eapply hoare_bind; [apply (hoare_putIfAbsent job_step t _ _ _ (marked t s) (marked t s))| |].
  - intros w e [[Hready Hs] Hu] Hnone He. by eapply marker_step.
  - intros w o [[Hready Hs] Hu] Ho. by eapply marker_found.
  - intros created. eapply hoare_pre with (P := marked t s); [by intros w Hw; destruct created; [|apply Hw]|].
    eapply hoare_bind; [apply (hoare_putIfAbsent job_step t _ _ _ (marked t s) (fun _ => True)); [|done]| |].
    + intros w e Hw Hnone He. assert (HG := step_free_write t w _ _ e (free_index (job_of s) (jr_run_id s) HJ) He).
      split; [exact HG|]. eapply marked_other; [done|exact HG| |done]. intros k Hk Hwk. rewrite hist_write, bool_decide_eq_false_2; [done|].
      intros <-. by apply (free_index (job_of s) (jr_run_id s) HJ).
    + intros created'. eapply hoare_pre with (P := marked t s); [by intros w Hw; destruct created'; [|apply Hw]|].
      eapply hoare_bind; [apply (hoare_putIfAbsent job_step t _ _ _ (fun w => jobs_ready w /\ recorded s w) (fun _ => True)); [|done]| |].
      * intros w e Hw Hnone He. by apply record_step.
      * intros [|]; [apply hoare_ret; [apply _|]; by intros w [? ?]|]. eapply hoare_pre; [|apply (getRun_spec t s Hok)]. by intros w [[[? _] _] _].
      * intros e. apply hoare_throw; [apply _|]. intros w [[[[? _] _]|[? _]] _]; done.
    + intros e. apply hoare_throw; [apply _|]. intros w [[[[? _] _]|[[? _] _]] _]; done.
  - intros e. apply hoare_throw; [apply _|]. intros w [[[[? _] _]|[[? _] _]] _]; done.
Qed.
End Replicas.
