(* ===== verification/JobWork.v ===== *)
(** * The scheduler among replicas

    The work of [JobScheduler.v] verified against the protocol of [JobProtocol.v]:
    transitions, cancellation, the retry and clean-up of finished runs, and firing. *)

From Stdlib Require Import ZArith Lia.
From stdpp Require Import relations.
From S2P Require Import Prelude Constants Lifecycle Schema UtcDate Store Cas Storage CasTheorems CasEffects Calls Listing SessionData CatalogData Cron JobData JobRuns Events JobScheduler JobProtocol JobReplicas.
Import RunState.

(** A patch of a transition leaves the fixed fields alone. *)
Definition patch_ok {B V} (patch : JobRun -> prog B V JobRun) : Prop :=
  forall cur, local_post (patch cur) (fun r =>
    match r with Ok p => run_fixed p = run_fixed cur | Err e => e <> CasWriteConflictError end).

Section Work.
Context {K : MarkerRule}.
Context {B V : Type} {CR : Codec B JobRun} {CM : Codec B JobRunMarker} {CO : Codec B JobOccurrence} {CD : Codec B JobDefinition}.
Context {CE : Codec B Event} {CI : Codec B (EventMarker B)} {JS : JobSchemas B}.
Context (blank : B).
Local Notation prog := (prog B V).
Implicit Types w : world B V.

(** What an assertion implies of no world in particular. *)
Lemma hoare_known t {A} (φ : Prop) (P : world B V -> Prop) (p : prog A) Q :
  (forall w, P w -> φ) -> (φ -> hoare job_step t P p Q) -> hoare job_step t P p Q.
Proof. intros Hφ H w Hw. apply H; [by eapply Hφ|done]. Qed.

(** ** Transitions *)

Definition ref_job (r : RunRef) : job3 := (rf_project_id r, rf_notebook_id r, rf_job_id r).
Definition ref_ok (r : RunRef) : Prop := ids_ok (ref_job r) /\ is_id "run" (rf_run_id r) = true.
Lemma ref_record_rpath r : ref_record r = rpath (ref_job r) (rf_run_id r).
Proof. done. Qed.

Lemma fixed_ids s s' : run_fixed s' = run_fixed s -> job_of s' = job_of s /\ jr_run_id s' = jr_run_id s.
Proof. unfold run_fixed, job_of. intros [=]. split; congruence. Qed.

(** A step of the machine keeps the origin of a run. *)
Lemma origin_next s s' w : run_next s s' -> origin_ok s w -> origin_ok s' w.
Proof.
  intros Hn [H1 H2 H3 H4]. destruct (skipped_step _ _ Hn) as [Hs Hs']. destruct Hn as [Hf _].
  destruct (fixed_ids _ _ Hf) as [EJ Er]. assert (E : jr_trigger s' = jr_trigger s /\ jr_attempt s' = jr_attempt s /\ jr_scheduled_for s' = jr_scheduled_for s).
  { unfold run_fixed in Hf. by injection Hf. }
  destruct E as (Et & Ea & Esch). split; rewrite ?Er, ?EJ, ?Et, ?Ea, ?Esch; [done| |done|done].
  intros J x oc Ho E. destruct (H2 J x oc Ho E) as (? & ? & ? & Hiff). do 3 (split; [done|]). tauto.
Qed.

(** The write of a next record. *)
Lemma next_record_step t w o cur next e : jobs_ready w -> store w !! record_of cur = Some o -> parse (o_body o) = Some cur ->
  recorded cur w -> run_next cur next -> JobRunSchema next = true ->
  let obj := {| o_body := stringify next; o_etag := e; o_uploaded := clock w |} in
  etag_ok w (record_of cur) (stringify next) e ->
  job_step t w (write t w (record_of cur) obj) /\ jobs_ready (write t w (record_of cur) obj) /\ recorded next (write t w (record_of cur) obj).
Proof.
  intros Hready Ho Hp Hrec Hn Hok obj He. destruct (fixed_ids _ _ (proj1 Hn)) as [EJ Er]. destruct (schema_ids next Hok) as [HJ Hr].
  assert (Ek : record_of cur = record_of next).
  { change (rpath (job_of cur) (jr_run_id cur) = rpath (job_of next) (jr_run_id next)). by rewrite EJ, Er. }
  rewrite Ek in *. destruct Hready as [Hw Hi]. assert (Hk : rkey (record_of next)) by (by exists (job_of next), (jr_run_id next)).
  assert (Hpn : parse (stringify next) = Some next) by (by apply parse_stringify, run_valid).
  destruct (ji_last _ Hi _ _ Hk Ho) as (t0 & l & Hh).
  destruct (ji_rec _ Hi _ t0 o Hk) as (s1 & Hp1 & _ & _ & Hor); [apply elem_of_hist; rewrite Hh; by left|].
  rewrite Hp in Hp1. injection Hp1 as <-.
  assert (HG : job_step t w (write t w (record_of next) obj)).
  { apply step_write; [done| |].
    - split; intros H; exfalso; [by eapply rkey_not_okey|by eapply rkey_not_mkey].
    - apply jinv_write_rec; [done|done|done|done|by eapply origin_next| |].
      + rewrite Hh. split; [by exists cur, next|]. rewrite <- Hh. by apply (ji_chain _ Hi).
      + intros HK _. rewrite EJ, Er. apply (ji_active _ Hi _ _ o cur HK); [apply Hrec|apply Hrec| |done|].
        * change (rpath (job_of cur) (jr_run_id cur)) with (record_of cur). by rewrite Ek.
        * intros Ht. by apply (terminal_final _ _ Ht Hn). }
  split; [done|]. split; [by eapply (kept_step t w)|]. split; [done|]. split; [done|]. exists t, obj. split; [by left|done].
Qed.

Lemma transition_apply_local event patch cur : patch_ok patch -> valid cur ->
  local_post (transition_apply (B:=B) (V:=V) event patch cur) (fun r => match r with
    | Ok (x, Some next) => run_next cur next /\ JobRunSchema next = true
    | Ok (x, None) => True
    | Err e => e <> CasWriteConflictError
    end).
Proof.
  intros Hpatch _. unfold transition_apply. destruct (nextRunStatus (jr_status cur) event) as [status|] eqn:E; [|done].
  eapply local_bind; [apply Hpatch| |done]. intros p Hp. unfold JobRunSchema_parse.
  destruct (JobRunSchema _) eqn:Hok; [|done]. cbn. split; [|done]. split; [|by exists event]. by rewrite <- Hp.
Qed.

Definition transition_left (ref : RunRef) (res : result (error V) (JobRun * bool)) w : Prop :=
  jobs_ready w /\ match res with Ok (s, true) => recorded s w | _ => True end.
#[export] Instance stable_transition_left t ref res : Stable job_step t (transition_left ref res).
Proof. unfold transition_left. destruct res as [[s []]|]; apply _. Qed.

Lemma transition_spec t ref event patch : ref_ok ref -> patch_ok patch ->
  hoare job_step t jobs_ready (transition ref event patch) (transition_left ref).
Proof.
  intros [HJ Hr] Hpatch. unfold transition. eapply hoare_bind.
  - apply (hoare_mutateM job_step t (ref_record ref) _ _ jobs_ready jobs_ready_wf
      (fun cur _ next => run_next cur next /\ JobRunSchema next = true) (fun _ _ => True)
      (fun _ _ next w => jobs_ready w /\ recorded next w)).
    + intros cur Hv. by apply transition_apply_local.
    + intros cur x next. apply _.
    + intros w o cur x next e Hready Ho Hp [Hn Hok] He.
      assert (Hrec : recorded cur w /\ ref_record ref = record_of cur).
      { destruct Hready as [Hw Hi]. destruct (wf_stored _ Hw _ _ Ho) as [t0 Hl].
        destruct (ji_rec _ Hi (ref_record ref) t0 o) as (s1 & Hp1 & Hrec & Ek & _); [by exists (ref_job ref), (rf_run_id ref)|done|].
        rewrite Hp in Hp1. by injection Hp1 as <-. }
      destruct Hrec as [Hrec Ek]. rewrite Ek in *. by apply (next_record_step t w o cur).
  - intros [x o]. unfold mutated. destruct (written _ o) eqn:Ew.
    + apply hoare_exists; intros cur. apply hoare_ret; [apply _|]. intros w [? ?]. done.
    + apply hoare_ret; [apply _|]. intros w [_ ?]. done.
  - intros e. apply hoare_throw; [unfold mutated; destruct e; apply _|]. intros w Hw. split; [|done].
    destruct e; try done. destruct Hw as [?|(? & ? & ? & ? & ?)]; done.
Qed.
Lemma cancel_patch_ok by_ : patch_ok (B:=B) (V:=V) (cancel_patch by_).
Proof. intros cur. split; [done|]. by intros n Hn. Qed.
Lemma cancel_run_spec t ref by_ : ref_ok ref -> hoare job_step t jobs_ready (cancel ref by_ : prog _) (fun _ => jobs_ready).
Proof. intros Href. eapply hoare_post; [|apply transition_spec; [exact Href|apply cancel_patch_ok]]. by intros r w [? _]. Qed.

Lemma recorded_ref s w : recorded s w -> ref_ok (ref_of s).
Proof. by intros (? & ? & _). Qed.
Lemma recorded_schema s w : recorded s w -> JobRunSchema s = true.
Proof. intros (_ & _ & t & o & _ & Hp). apply run_valid. by eapply parse_valid. Qed.
Lemma recorded_origin s w : jinv w -> recorded s w -> origin_ok s w.
Proof.
  intros Hi (HJ & Hr & t & o & Hl & Hp). destruct (ji_rec _ Hi (record_of s) t o) as (s1 & Hp1 & _ & _ & Hor); [by exists (job_of s), (jr_run_id s)|done|].
  rewrite Hp in Hp1. by injection Hp1 as <-.
Qed.

(** ** Reads and writes elsewhere *)

Lemma hoare_away t {A} (F : world B V -> Prop) (p : prog A) `{!Persistent F} : outside p ->
  hoare job_step t (fun w => jobs_ready w /\ F w) p (fun _ w => jobs_ready w /\ F w).
Proof.
  intros Hp. eapply hoare_post; [|apply (hoare_outside t (fun w => jobs_ready w /\ F w) p (fun _ => True)); [exact Hp|apply returns_any]].
  by intros r w [? _].
Qed.

Ltac away H := apply hoare_away; [try apply _; apply H..].

Lemma outside_append e options : outside (B:=B) (V:=V) (append e options).
Proof.
  unfold append. apply calls_bind.
  { destruct (truthy _); [destruct (date_parse _); done|by apply calls_call]. }
  intros now. apply calls_bind; [by apply calls_call|]. intros id.
  assert (Hf : forall date x, free (eventsForDate date +:+ x)).
  { intros date x. unfold eventsForDate. rewrite !string_app_assoc. apply free_event. }
  destruct (negb _).
  - apply calls_bind; [|done]. apply calls_call. apply Hf.
  - apply calls_bind.
    + apply calls_bind; [apply calls_putIfAbsent, Hf|]. intros [|]; [done|].
      apply calls_bind; [by apply calls_call|]. by intros [o|].
    + intros text. destruct (parse text); [|done]. apply calls_bind; [apply calls_putIfAbsent, Hf|done].
Qed.

Lemma outside_listAllKeys fuel prefix : outside (B:=B) (V:=V) (listAllKeys fuel prefix).
Proof.
  apply calls_bind; [|done].
  enough (H : forall options cursor, outside (iterateBucketPages (B:=B) (V:=V) fuel options cursor)) by apply H.
  induction fuel as [|fuel IH]; intros options cursor; [done|].
  apply calls_bind; [by apply calls_call|]. intros page. destruct (truthy _); [|done]. apply calls_bind; [apply IH|done].
Qed.

Context {Reads : JobReads B V}.
(** The project and notebook services only read, and their snapshots are valid. *)
Context (project_away : forall p, outside (project_status p)) (notebook_away : forall p n, outside (notebook_status p n)).
Context (version_away : forall p n, outside (current_version p n)).
Context (snapshot_away : outside indexed_snapshot) (snapshot_valid : returns indexed_snapshot (fun s => SnapshotSchema s = true)).

Lemma outside_sourceVersionId job : outside (sourceVersionId job).
Proof. apply calls_catch; [|done]. apply calls_bind; [apply version_away|done]. Qed.

(** A job definition that was read is one of its key. *)
Definition job_left (J : job3) (F : world B V -> Prop) (res : result (error V) (option JobDefinition)) w : Prop :=
  (jobs_ready w /\ F w) /\ match res with Ok (Some job) => job_of_def job = J | _ => True end.

Lemma getJob_spec t F J `{!Persistent F} : ids_ok J ->
  hoare job_step t (fun w => jobs_ready w /\ F w) (getJob J.1.1 J.1.2 J.2)
    (fun res => job_left J F (match res with Ok job => Ok (Some job) | Err e => Err e end)).
Proof.
  intros HJ. unfold getJob. eapply hoare_bind.
  - apply (hoare_get job_step t (job_head J.1.1 J.1.2 J.2) _ (fun y w => (jobs_ready w /\ F w) /\
      (forall job, y ≫= (fun o => parse (o_body o)) = Some job -> job_of_def job = J))).
    intros w [Hready HF]. split; [done|]. intros job. destruct (store w !! _) as [o|] eqn:E; [|done]. intros Hp.
    destruct Hready as [Hw Hi]. destruct (wf_stored _ Hw _ _ E) as [t0 Hl]. by apply (ji_head _ Hi J t0 o).
  - intros [o|]; [|apply hoare_throw; [apply _|]; by intros w [? _]]. unfold readStored.
    destruct (parse (o_body o)) as [job|] eqn:Hp; [|apply hoare_throw; [apply _|]; by intros w [? _]].
    apply hoare_ret; [apply _|]. intros w [? H]. split; [done|]. apply H. cbn. by rewrite Hp.
  - intros e. apply hoare_throw; [apply _|]. by intros w [? _].
Qed.

Lemma loadJob_spec t F J `{!Persistent F} : ids_ok J ->
  hoare job_step t (fun w => jobs_ready w /\ F w) (loadJob J.1.1 J.1.2 J.2) (job_left J F).
Proof.
  intros HJ. eapply hoare_catch with (M := job_left J F).
  - eapply hoare_bind; [away project_away| |by intros e; apply hoare_throw; [apply _|]].
    intros ps. destruct (ps === ProjectDeleted); [by apply hoare_ret; [apply _|]|].
    eapply hoare_bind; [away notebook_away| |by intros e; apply hoare_throw; [apply _|]].
    intros ns. destruct (ns === NbDeleted); [by apply hoare_ret; [apply _|]|].
    eapply hoare_bind; [by apply (getJob_spec t F J)| |].
    + intros job. apply hoare_ret; [unfold job_left; apply _|done].
    + intros e. apply hoare_throw; [unfold job_left; apply _|done].
  - intros a. apply hoare_ret; [unfold job_left; destruct a; apply _|done].
  - intros e. destruct e; (apply hoare_ret || apply hoare_throw); try (unfold job_left; apply _); done.
Qed.

(** ** Enqueueing *)

Lemma job_now_spec t (P : world B V -> Prop) `{!Stable job_step t P} : (forall w, P w -> jobs_ready w) ->
  hoare job_step t P job_now (fun r w => exists now, r = Ok now /\ utcTimestamp now = true /\ P w).
Proof.
  intros HP. eapply hoare_bind; [apply (hoare_now job_step t P (fun n => 0 <= n < MAX_TIME)%Z); intros w Hw; apply wf_clock, HP, Hw| |].
  - intros n0. apply hoare_exists; intros n. apply hoare_pure; intros [= ->]. apply hoare_pure; intros Hn.
    apply hoare_ret; [apply _|]. intros w [_ Hw]. exists (toISOString n). split; [done|]. split; [by apply iso_now_valid|done].
  - intros e. apply hoare_throw; [apply _|]. by intros w (? & ? & _).
Qed.

(** The origin of a run does not depend on when it is queued. *)
Definition queueable (t : tid) (run : Timestamp -> JobRun) w : Prop := jobs_ready w /\ forall now, source t (run now) w.

#[local] Instance stable_queueable t run : Stable job_step t (queueable t run).
Proof. apply stable_and; [apply _|]. apply stable_forall. intros now. apply stable_source. Qed.

Lemma write_now_spec t job (run : Timestamp -> JobRun) J r :
  (forall now, job_of (run now) = J /\ jr_run_id (run now) = r /\ (jr_status (run now) = RQueued \/ jr_status (run now) = RSkipped)) ->
  job_of_def job = J ->
  hoare job_step t (queueable t run) (now ← job_now; write_run blank job (run now) now) (run_left J r).
Proof.
  intros Hrun EJ. eapply hoare_bind; [apply (job_now_spec t (queueable t run)); by intros w [? _]| |].
  - intros now0. apply hoare_exists; intros now. apply hoare_pure; intros [= ->]. apply hoare_pure; intros Hnow.
    destruct (Hrun now) as (E1 & <- & Hst). rewrite <- E1. eapply hoare_pre; [|apply write_run_spec; [|done|done]].
    + intros w [? H]. split; [done|apply H].
    + rewrite E1. by symmetry.
  - intros e. apply hoare_throw; [apply _|]. by intros w (? & ? & _).
Qed.

Lemma enqueue_spec t input r : ei_runId input = Some r ->
  hoare job_step t (queueable t (queued_run input r)) (enqueue blank input) (run_left (job_of_def (ei_job input)) r).
Proof.
  intros E. unfold enqueue. rewrite E. apply hoare_ret_bind. apply write_now_spec; [|done]. intros now. split; [done|]. split; [done|by left].
Qed.
Lemma writeSkipped_spec t input reason r : ei_runId input = Some r ->
  hoare job_step t (queueable t (skipped_run input reason r)) (writeSkipped blank input reason) (run_left (job_of_def (ei_job input)) r).
Proof.
  intros E. unfold writeSkipped. rewrite E. apply hoare_ret_bind. apply write_now_spec; [|done]. intros now. split; [done|]. split; [done|by right].
Qed.

(** A run on request: its id is drawn by the call. *)
Lemma enqueue_direct_spec t input : ei_runId input = None -> ~ (ei_trigger input = TSchedule /\ ei_attempt input ?? 1%Z = 1%Z) ->
  hoare job_step t jobs_ready (enqueue blank input) (fun res w => exists r, run_left (job_of_def (ei_job input)) r res w).
Proof.
  intros E Ht. unfold enqueue. rewrite E. eapply hoare_bind.
  - eapply hoare_pre; [|apply (createRunId_new t (fun _ => True))]. by intros w Hw.
  - intros c0. apply hoare_exists; intros c. apply hoare_pure; intros [= ->].
    eapply hoare_pre; [|eapply hoare_post; [|apply (write_now_spec t (ei_job input) (queued_run input c) (job_of_def (ei_job input)) c)]].
    + intros w [[? _] Hu]. split; [done|]. intros now. apply SDirect; [by apply unused_direct|left; apply Hu|done].
    + intros res w Hw. by exists c.
    + intros now. split; [done|]. split; [done|by left].
    + done.
  - intros e. apply hoare_throw; [apply _|]. by intros w (? & ? & _).
Qed.

Lemma cancelRunIfDeleted_spec t run : hoare job_step t (fun w => jobs_ready w /\ recorded run w) (cancelRunIfDeleted run) (fun _ => jobs_ready).
Proof.
  eapply hoare_known with (φ := ref_ok (ref_of run)); [by intros w [_ H]; eapply recorded_ref|]. intros [HJ Hr].
  eapply hoare_bind; [by apply (loadJob_spec t (recorded run) (job_of run))| |].
  - intros [job|]; [apply hoare_ret; [unfold job_left; apply _|]; by intros w [[? _] _]|].
    eapply hoare_bind; [eapply hoare_pre; [|apply (cancel_run_spec t (ref_of run) SYSTEM_ACTOR); done]; by intros w [[? _] _]| |].
    + intros x. by apply hoare_ret; [apply _|].
    + intros e. by apply hoare_throw; [apply _|].
  - intros e. apply hoare_throw; [unfold job_left; apply _|]. by intros w [[? _] _].
Qed.

(** ** Finishing a run *)

Lemma over_recorded s w : recorded s w -> terminal s -> run_over (jr_project_id s) (jr_run_id s) w.
Proof. intros Hr Ht. by exists s. Qed.

Lemma deleteMarker_spec t s (F : world B V -> Prop) `{!Persistent F} : (forall w, F w -> recorded s w) -> terminal s ->
  hoare job_step t (fun w => jobs_ready w /\ F w) (deleteMarker (jr_project_id s) (jr_run_id s)) (fun _ => jobs_ready).
Proof.
  intros HF Ht. eapply hoare_catch.
  - apply (hoare_delete job_step t _ _ jobs_ready). intros w ks [Hready Hw] Hks. pose proof (HF w Hw) as Hrec.
    assert (HG : job_step t w (remove w ks)).
    { apply step_remove. intros k Hk. apply Hks in Hk. apply list_elem_of_singleton in Hk as ->. right. exists (job_of s), (jr_run_id s).
      split; [apply Hrec|]. split; [apply Hrec|]. split; [done|]. intros _. by apply over_recorded. }
    split; [done|]. by eapply (kept_step t w).
  - intros a. by apply hoare_ret; [apply _|].
  - intros e. by apply hoare_ret; [apply _|].
Qed.

(** The marker of a recorded run names the id its retry continues under. *)
Definition marker_left (s : JobRun) (y : option JobRunMarker) w : Prop :=
  (jobs_ready w /\ recorded s w) /\
  match y with Some m => continued_id (jm_continuation_run_id m) (job_of s) w | None => True end.
#[local] Existing Instance persistent_continued.
#[local] Instance stable_marker_left t s y : Stable job_step t (marker_left s y).
Proof. unfold marker_left. destruct y; apply _. Qed.

Definition parsed_marker (y : option (object B)) : option JobRunMarker := match y with Some o => parse (o_body o) | None => None end.

Lemma getMarker_spec t s : hoare job_step t (fun w => jobs_ready w /\ recorded s w) (getMarker (jr_project_id s) (jr_run_id s))
  (fun res w => match res with Ok y => marker_left s y w | Err _ => jobs_ready w end).
Proof.
  unfold getMarker. eapply hoare_bind.
  - apply (hoare_get job_step t _ _ (fun y => marker_left s (parsed_marker y))). intros w [Hready Hrec]. split; [done|].
    destruct (store w !! _) as [o|] eqn:E; [|done]. cbn. destruct (parse (o_body o)) as [m|] eqn:Hp; [|done].
    destruct Hready as [Hw Hi]. destruct (wf_stored _ Hw _ _ E) as [t0 Hl]. pose proof Hrec as (HJ & Hr & _).
    destruct (ji_mark _ Hi (mpath (job_of s) (jr_run_id s)) t0 o) as (m1 & Hp1 & Hm & Ek); [by exists (job_of s), (jr_run_id s)|done|].
    rewrite Hp in Hp1. injection Hp1 as <-.
    destruct (mpath_inj (job_of s) (job_of_marker m) (jr_run_id s) (jm_run_id m)) as [_ Er]; [done|apply Hm|done|apply Hm|done|].
    exists m. split; [done|]. split; [|done]. eapply (ji_bound _ Hi (jr_run_id s)); [right; left; by exists m|].
    apply origin_bound. by apply recorded_origin.
  - intros [o|]; [|by apply hoare_ret; [apply _|]]. unfold readStored, parsed_marker. destruct (parse (o_body o)) as [m|] eqn:Hp.
    + by apply hoare_ret; [apply _|].
    + apply hoare_throw; [apply _|]. by intros w [[? _] _].
  - intros e. apply hoare_throw; [apply _|]. by intros w [[? _] _].
Qed.

Context (cfg : JobSchedulerConfig) (has_events has_alerts : bool).
Context (deliver : JobDefinition -> JobRun -> prog unit) (deliver_away : forall j r, outside (deliver j r)).

Lemma outside_audit run : outside (B:=B) (V:=V) (audit has_events run).
Proof. unfold audit. destruct has_events; [apply outside_append|done]. Qed.
Lemma outside_notify job run : outside (notify has_alerts deliver job run).
Proof. unfold notify. destruct (jd_notifications job); [|done]. destruct (_ && _); [apply deliver_away|done]. Qed.
Lemma outside_isDeleting J : outside (B:=B) (V:=V) (isDeleting J.1.1 J.1.2 J.2).
Proof. apply calls_bind; [by apply calls_call|done]. Qed.

(** What a finished run and the id of its retry bring along. *)
Definition finishing (s : JobRun) (c : RunId) w : Prop := recorded s w /\ continued_id c (job_of s) w.
#[local] Instance persistent_finishing s c : Persistent (finishing s c).
Proof. unfold finishing. apply _. Qed.

Lemma retry_queueable t s c job eligibleAt w : jobs_ready w -> finishing s c w -> job_of_def job = job_of s ->
  queueable t (queued_run (retry_input job s c eligibleAt) c) w.
Proof.
  intros Hready [Hrec Hc] EJ. split; [done|]. intros now. apply SContinuation; [by rewrite <- EJ in Hc|].
  assert (Ha : (1 <=? jr_attempt s)%Z = true); [|cbn; lia].
  pose proof (recorded_schema s w Hrec) as Hok. unfold JobRunSchema, run_fixed_schema in Hok. rewrite !andb_true_iff in Hok. tauto.
Qed.

Lemma retry_spec t s c job retry : job_of_def job = job_of s ->
  hoare job_step t (fun w => jobs_ready w /\ finishing s c w)
    (now ← call ONow; retryRun ← enqueue blank (retry_input job s c (toISOString (now + backoff_seconds retry * 1000)));
     cancelRunIfDeleted retryRun ≫= fun _ => mret tt) (fun _ => jobs_ready).
Proof.
  intros EJ. eapply hoare_bind; [apply (hoare_now job_step t _ (fun _ => True)); done| |].
  - intros n0. apply hoare_exists; intros n. apply hoare_pure; intros _. apply hoare_pure; intros _.
    eapply hoare_pre with (P := fun w => jobs_ready w /\ finishing s c w); [by intros w [_ ?]|].
    eapply hoare_bind.
    + eapply hoare_pre; [|by apply enqueue_spec]. intros w [Hready Hf]. by apply retry_queueable.
    + intros run. eapply hoare_bind; [eapply hoare_pre; [|apply (cancelRunIfDeleted_spec t run)]| |].
      * by intros w [? (? & _)].
      * intros x. by apply hoare_ret; [apply _|].
      * intros e. by apply hoare_throw; [apply _|].
    + intros e. apply hoare_throw; [apply _|]. by intros w [? _].
  - intros e. apply hoare_throw; [apply _|]. by intros w (? & ? & _).
Qed.

Lemma afterRun_spec t s c :
  hoare job_step t (fun w => jobs_ready w /\ finishing s c w) (afterRun blank has_events has_alerts deliver s c)
    (fun _ => jobs_ready).
Proof.
  eapply hoare_known with (φ := ids_ok (job_of s)); [by intros w [_ [[? _] _]]|]. intros HJ.
  unfold afterRun. destruct (negb _); [by apply hoare_ret; [apply _|intros w [? _]]|].
  eapply hoare_bind; [away outside_audit| |by intros e; apply hoare_throw; [apply _|intros w [? _]]]. intros u.
  destruct (_ === RCancelled); [by apply hoare_ret; [apply _|intros w [? _]]|].
  eapply hoare_bind; [by apply (loadJob_spec t (finishing s c) (job_of s))| |].
  2: { intros e. apply hoare_throw; [unfold job_left; apply _|]. by intros w [[? _] _]. }
  intros [job|]; [|apply hoare_ret; [unfold job_left; apply _|]; by intros w [[? _] _]].
  assert (Hnotify : hoare job_step t (fun w => (jobs_ready w /\ finishing s c w) /\ job_of_def job = job_of s)
                      (notify has_alerts deliver job s) (fun _ => jobs_ready)).
  { eapply hoare_pre; [|eapply hoare_post; [|apply (hoare_away t (finishing s c)), outside_notify; apply _]]; [by intros w [? _]|by intros r w [? _]]. }
  destruct (jd_retry job) as [retry|]; [|exact Hnotify]. destruct (_ && _); [|exact Hnotify]. clear Hnotify.
  eapply hoare_pre with (P := fun w => job_of_def job = job_of s /\ (jobs_ready w /\ finishing s c w)); [by intros w [? ?]|].
  apply hoare_pure. intros EJ. assert (HJ' : ids_ok (job_of_def job)) by (by rewrite EJ).
  eapply hoare_bind; [away (outside_isDeleting (job_of_def job))| |by intros e; apply hoare_throw; [apply _|intros w [? _]]].
  intros [|]; [by apply hoare_ret; [apply _|intros w [? _]]|].
  eapply hoare_bind; [by apply (loadJob_spec t (finishing s c) (job_of_def job))| |].
  2: { intros e. apply hoare_throw; [unfold job_left; apply _|]. by intros w [[? _] _]. }
  intros [current|]; [|apply hoare_ret; [unfold job_left; apply _|]; by intros w [[? _] _]].
  eapply hoare_pre with (P := fun w => job_of_def current = job_of_def job /\ (jobs_ready w /\ finishing s c w)); [by intros w [? ?]|].
  apply hoare_pure. intros EJ2. apply retry_spec. by rewrite EJ2.
Qed.

Lemma finalizeLocked_spec t s : terminal s ->
  hoare job_step t (fun w => jobs_ready w /\ recorded s w) (finalizeLocked blank has_events has_alerts deliver s) (fun _ => jobs_ready).
Proof.
  intros Ht. eapply hoare_bind; [apply getMarker_spec| |by intros e; apply hoare_throw; [apply _|]].
  intros [m|]; [|apply hoare_ret; [apply _|]; by intros w [[? _] _]].
  eapply hoare_bind.
  - eapply hoare_pre; [|apply (hoare_frame job_step t _ _ _ (recorded s) (afterRun_spec t s (jm_continuation_run_id m)))].
    intros w [[? ?] ?]. done.
  - intros u. apply (deleteMarker_spec t s (recorded s)); done.
  - intros e. apply hoare_throw; [apply _|]. by intros w [? _].
Qed.
Lemma finalize_spec t s :
  hoare job_step t (fun w => jobs_ready w /\ recorded s w) (finalize blank has_events has_alerts deliver s) (fun _ => jobs_ready).
Proof.
  unfold finalize. destruct (isTerminalRunStatus (jr_status s)) eqn:E; [by apply finalizeLocked_spec|].
  apply hoare_ret; [apply _|]. by intros w [? _].
Qed.

(** ** Firing *)

Section Fire.
Context (J : job3) (J_ok : ids_ok J) (job : JobDefinition) (job_J : job_of_def job = J).
Context (ms : Z) (oc : JobOccurrence).

Lemma queued_source t version parameters w : outcome_of oc <> OutcomeSkip -> jobs_ready w -> occ J (occurrenceKey ms) oc w ->
  queueable t (queued_run (scheduled_input cfg job (jo_run_id oc) (toISOString ms) version parameters) (jo_run_id oc)) w.
Proof.
  intros Ho Hready Hocc. split; [done|]. intros now. eapply (SOccurrence _ _ _ (occurrenceKey ms) oc ms); try done.
  change (occ (job_of_def job) (occurrenceKey ms) oc w). by rewrite job_J.
Qed.
Lemma skipped_source t version w : outcome_of oc = OutcomeSkip -> jobs_ready w -> occ J (occurrenceKey ms) oc w ->
  queueable t (skipped_run (scheduled_input cfg job (jo_run_id oc) (toISOString ms) version None) skip_reason (jo_run_id oc)) w.
Proof.
  intros Ho Hready Hocc. split; [done|]. intros now. eapply (SOccurrence _ _ _ (occurrenceKey ms) oc ms); try done.
  change (occ (job_of_def job) (occurrenceKey ms) oc w). by rewrite job_J.
Qed.

Lemma enqueueScheduled_spec t : outcome_of oc <> OutcomeSkip ->
  hoare job_step t (fun w => jobs_ready w /\ occ J (occurrenceKey ms) oc w)
    (enqueueScheduled blank cfg job (jo_run_id oc) (toISOString ms)) (fun _ => jobs_ready).
Proof.
  intros Ho. eapply hoare_bind; [away outside_sourceVersionId| |by intros e; apply hoare_throw; [apply _|intros w [? _]]]. intros v.
  eapply hoare_bind; [eapply hoare_pre; [|by apply enqueue_spec]| |by intros e; apply hoare_throw; [apply _|intros w [? _]]].
  - intros w [? ?]. by apply queued_source.
  - intros run. eapply hoare_bind; [eapply hoare_pre; [|apply (cancelRunIfDeleted_spec t run)]| |by intros e; apply hoare_throw; [apply _|]].
    + by intros w [? (? & _)].
    + intros gone. by apply hoare_ret; [apply _|].
Qed.

(** The run of a skipped occurrence is over from the start. *)
Lemma skipped_terminal s w : jobs_ready w -> occ J (occurrenceKey ms) oc w -> outcome_of oc = OutcomeSkip ->
  recorded s w -> jr_run_id s = jo_run_id oc -> terminal s.
Proof.
  intros [_ Hi] Hocc Ho Hrec E. destruct (or_claimed _ _ (recorded_origin _ _ Hi Hrec) _ _ _ Hocc (eq_sym E)) as (_ & _ & _ & Hst).
  unfold terminal. by rewrite (proj1 Hst Ho).
Qed.

Lemma fire_claimed_spec t won :
  hoare job_step t (fun w => jobs_ready w /\ occ J (occurrenceKey ms) oc w)
    (fire_claimed blank cfg has_events has_alerts deliver job (jo_run_id oc) (toISOString ms) (outcome_of oc) won) (fun _ => jobs_ready).
Proof.
  unfold fire_claimed. case_bool_decide as Ho.
  - eapply hoare_bind; [away outside_sourceVersionId| |by intros e; apply hoare_throw; [apply _|intros w [? _]]]. intros v.
    eapply hoare_bind with (M := fun res w => run_left J (jo_run_id oc) res w /\ occ J (occurrenceKey ms) oc w).
    + rewrite <- job_J. eapply hoare_pre; [|apply hoare_frame; [apply _|apply _|by apply writeSkipped_spec]].
      rewrite job_J. intros w [? ?]. split; [by apply skipped_source|done].
    + intros s. eapply hoare_known with (φ := terminal s).
      { intros w [(Hready & Hrec & _ & E) Hocc]. by eapply skipped_terminal. }
      intros Ht. eapply hoare_bind; [eapply hoare_pre; [|by apply finalizeLocked_spec]| |by intros e; apply hoare_throw; [apply _|]].
      * by intros w [(? & ? & _) _].
      * intros u. by apply hoare_ret; [apply _|].
    + intros e. apply hoare_throw; [apply _|]. by intros w [[? _] _].
  - eapply hoare_bind; [by apply enqueueScheduled_spec| |by intros e; apply hoare_throw; [apply _|]].
    intros q. by apply hoare_ret; [apply _|].
Qed.
End Fire.

Context (new_Cron : string -> cron_construction) (strip_prefix : string -> string) (show : nat -> string).
Context (cronFor : string -> string -> option (Z -> option Z)).

Lemma outside_due schedule now : outside (B:=B) (V:=V) (due_occurrence cfg new_Cron strip_prefix show cronFor schedule now).
Proof. unfold due_occurrence. destruct (parseCron _ _ _ _); [|done]. destruct (cronFor _ _); [|done]. by destruct (previousOccurrence _ _ _ _). Qed.

Lemma fire_spec t J now hasActive : ids_ok J -> (0 <= now < MAX_TIME)%Z ->
  hoare job_step t jobs_ready
    (fire blank cfg new_Cron strip_prefix show cronFor has_events has_alerts deliver J.1.1 J.1.2 J.2 now hasActive) (fun _ => jobs_ready).
Proof.
  intros HJ Hnow. apply hoare_pre with (P := fun w => jobs_ready w /\ True); [done|].
  eapply hoare_bind; [away (outside_isDeleting J)| |by intros e; apply hoare_throw; [apply _|intros w [? _]]].
  intros [|]; [by apply hoare_ret; [apply _|intros w [? _]]|].
  eapply hoare_bind; [by apply (loadJob_spec t (fun _ => True) J)| |].
  2: { intros e. apply hoare_throw; [unfold job_left; apply _|]. by intros w [[? _] _]. }
  intros [job|]; [|apply hoare_ret; [unfold job_left; apply _|]; by intros w [[? _] _]].
  eapply hoare_pre with (P := fun w => job_of_def job = J /\ (jobs_ready w /\ True)); [by intros w [? ?]|].
  apply hoare_pure. intros EJ. destruct (if jd_enabled job then _ else _) as [schedule|]; [|by apply hoare_ret; [apply _|intros w [? _]]].
  eapply hoare_bind; [away outside_due| |by intros e; apply hoare_throw; [apply _|intros w [? _]]].
  intros [ms|]; [|by apply hoare_ret; [apply _|intros w [? _]]].
  eapply hoare_bind; [apply (createRunId_new t (fun _ => True))| |].
  2: { intros e. apply hoare_throw; [apply _|]. by intros w (c & ? & _). }
  intros r0. apply hoare_exists; intros r. apply hoare_pure; intros [= ->].
  eapply hoare_bind; [eapply hoare_pre; [|apply (claimOccurrence_spec t J); [exact HJ|by apply iso_now_valid]]| |].
  - by intros w [[? _] ?].
  - intros [|[oc|]].
    + by apply (fire_claimed_spec J job EJ ms {| jo_run_id := r; jo_fired_at := toISOString now; jo_outcome := Some _ |}).
    + eapply hoare_bind; [apply (hoare_away t (occ J (occurrenceKey ms) oc)); [apply _|]| |by intros e; apply hoare_throw; [apply _|intros w [? _]]].
      { apply calls_bind; [by apply calls_call|done]. }
      intros [|]; [by apply hoare_ret; [apply _|intros w [? _]]|]. by apply (fire_claimed_spec J job EJ ms oc).
    + apply hoare_ret; [unfold claim_left; apply _|]. by intros w [? _].
  - intros e. apply hoare_throw; [unfold claim_left; apply _|]. by intros w [? _].
Qed.

(** ** The runs that are not over *)

Definition entry_ok (a : ActiveRun) w : Prop :=
  ref_ok (ref_of_marker (ar_marker a)) /\ match ar_run a with Some run => recorded run w | None => True end.
#[export] Instance persistent_entry_ok a : Persistent (entry_ok a).
Proof. unfold entry_ok. destruct (ar_run a); apply _. Qed.
#[export] Instance persistent_entries l : Persistent (fun w => Forall (fun a => entry_ok a w) l).
Proof. intros w w' Hg H. eapply Forall_impl; [exact H|]. intros a Ha. cbv beta in *. by eapply persistent. Qed.

Lemma marker_schema_ref m : JobRunMarkerSchema m = true -> ref_ok (ref_of_marker m).
Proof. unfold JobRunMarkerSchema, ref_ok, ids_ok. cbn. rewrite !andb_true_iff. tauto. Qed.

(** A record that was read at the key of a reference. *)
Lemma ref_recorded w ref o s : jobs_ready w -> ref_ok ref -> store w !! ref_record ref = Some o -> parse (o_body o) = Some s -> recorded s w.
Proof.
  intros [Hw Hi] [HJ Hr] Ho Hp. destruct (wf_stored _ Hw _ _ Ho) as [t0 Hl].
  destruct (ji_rec _ Hi (ref_record ref) t0 o) as (s1 & Hp1 & Hrec & _); [by exists (ref_job ref), (rf_run_id ref)|done|].
  rewrite Hp in Hp1. by injection Hp1 as <-.
Qed.

Definition parsed_run (y : option (object B)) : option JobRun := match y with Some o => parse (o_body o) | None => None end.
Definition seen_run (y : option (object B)) w : Prop := jobs_ready w /\ match parsed_run y with Some run => recorded run w | None => True end.
#[local] Instance stable_seen_run t y : Stable job_step t (seen_run y).
Proof. unfold seen_run. destruct (parsed_run y); apply _. Qed.

Lemma read_active_spec t k : hoare job_step t jobs_ready (read_active k)
  (fun res w => jobs_ready w /\ match res with Ok (Some a, _) => entry_ok a w | _ => True end).
Proof.
  eapply hoare_bind; [apply (hoare_get job_step t k jobs_ready (fun _ => jobs_ready)); done| |].
  2: { intros e. apply hoare_throw; [apply _|]. by intros w [? _]. }
  intros [o|]; [|by apply hoare_ret; [apply _|]]. destruct (parse (o_body o)) as [m|] eqn:Hm; [|by apply hoare_ret; [apply _|]].
  assert (Href : ref_ok (ref_of_marker m)) by (apply marker_schema_ref, marker_valid; by eapply parse_valid).
  eapply hoare_bind; [apply (hoare_get job_step t _ jobs_ready seen_run)| |].
  - intros w Hready. split; [done|]. destruct (store w !! _) as [r|] eqn:E; [|done]. cbn.
    destruct (parse (o_body r)) as [run|] eqn:Hp; [|done]. by eapply ref_recorded.
  - intros [r|]; [|by apply hoare_ret; [apply _|intros w [? _]]]. unfold seen_run, parsed_run. destruct (parse (o_body r)) as [run|] eqn:Hp.
    + apply hoare_ret; [apply _|]. intros w [? ?]. done.
    + by apply hoare_ret; [apply _|intros w [? _]].
  - intros e. apply hoare_throw; [apply _|]. by intros w [? _].
Qed.

Definition entries_left (res : result (error V) ActiveRunSnapshot) w : Prop :=
  jobs_ready w /\ match res with Ok s => Forall (fun a => entry_ok a w) (as_entries s) | Err _ => True end.
#[local] Instance stable_entries_left t res : Stable job_step t (entries_left res).
Proof. unfold entries_left. destruct res; apply _. Qed.
#[local] Instance stable_entry_seen t e : Stable job_step t (fun w => jobs_ready w /\ match e with Some a => entry_ok a w | None => True end).
Proof. destruct e; apply _. Qed.

Lemma read_all_active_spec t keys : hoare job_step t jobs_ready (read_all_active keys) entries_left.
Proof.
  induction keys as [|k keys IH]; [apply hoare_ret; [apply _|]; by intros w Hw|]. cbn [read_all_active].
  eapply hoare_bind; [apply read_active_spec| |by intros e; apply hoare_throw; [apply _|intros w [? _]]].
  intros [e readable]. cbv beta iota.
  eapply hoare_pre with (P := fun w => jobs_ready w /\ match e with Some a => entry_ok a w | None => True end); [by destruct e|].
  eapply hoare_bind with (M := fun res w => entries_left res w /\ match e with Some a => entry_ok a w | None => True end).
  - destruct e as [a|]; [by apply hoare_frame; [apply _|apply _|]|]. eapply hoare_pre; [|eapply hoare_post; [|exact IH]]; [by intros w [? _]|done].
  - intros rest. apply hoare_ret; [apply stable_and; [apply _|destruct e; apply _]|]. intros w [[? ?] He]. split; [done|]. cbn.
    destruct e; [by constructor|done].
  - intros err. apply hoare_throw; [apply stable_and; [apply _|destruct e; apply _]|]. by intros w [[? _] _].
Qed.

Lemma listActiveSnapshot_spec t fuel : hoare job_step t jobs_ready (listActiveSnapshot fuel) entries_left.
Proof.
  apply hoare_pre with (P := fun w => jobs_ready w /\ True); [done|].
  eapply hoare_bind; [away outside_listAllKeys| |by intros e; apply hoare_throw; [apply _|intros w [? _]]].
  intros keys. eapply hoare_pre; [|apply read_all_active_spec]. by intros w [? _].
Qed.

Lemma listActive_spec t fuel : hoare job_step t jobs_ready (listActive fuel)
  (fun res w => jobs_ready w /\ match res with Ok l => Forall (fun a => entry_ok a w) l | Err _ => True end).
Proof.
  eapply hoare_bind; [apply listActiveSnapshot_spec| |by intros e; apply hoare_throw; [apply _|]].
  intros s. apply hoare_ret; [apply _|]. by intros w [? ?].
Qed.

(** Work on one entry after another. *)
Lemma cancel_all_spec t active by_ : hoare job_step t (fun w => jobs_ready w /\ Forall (fun a => entry_ok a w) active)
  (cancel_all active by_) (fun _ => jobs_ready).
Proof.
  induction active as [|a active IH]; [by apply hoare_ret; [apply _|intros w [? _]]|]. cbn [cancel_all].
  destruct (ar_run a) as [run|] eqn:Ea.
  - eapply hoare_known with (φ := ref_ok (ref_of run)).
    { intros w [_ H]. apply Forall_cons in H as [[_ H] _]. rewrite Ea in H. by eapply recorded_ref. }
    intros Href. eapply hoare_bind with (M := fun _ w => jobs_ready w /\ Forall (fun a => entry_ok a w) active).
    + eapply hoare_pre; [|apply hoare_frame; [apply _|apply _|by apply cancel_run_spec]]. intros w [? H]. by apply Forall_cons in H as [_ H].
    + intros [cancelled transitioned]. eapply hoare_bind; [exact IH| |by intros e; apply hoare_throw; [apply _|]].
      intros rest. by apply hoare_ret; [apply _|].
    + intros e. apply hoare_throw; [apply _|]. by intros w [? _].
  - eapply hoare_pre; [|exact IH]. intros w [? H]. by apply Forall_cons in H as [_ H].
Qed.

Lemma cancelRunsWhere_spec t fuel matches by_ : hoare job_step t jobs_ready (cancelRunsWhere fuel matches by_ : prog _) (fun _ => jobs_ready).
Proof.
  eapply hoare_bind; [apply listActive_spec| |by intros e; apply hoare_throw; [apply _|intros w [? _]]].
  intros active. eapply hoare_pre; [|apply cancel_all_spec]. intros w [? H]. split; [done|].
  rewrite Forall_forall in *. intros a Ha. apply H. apply list_elem_of_In. apply list_elem_of_In in Ha. by apply List.filter_In in Ha as [? _].
Qed.

(** ** The tick *)

Context (destroy : SandboxId -> prog unit) (destroy_away : forall sb, outside (destroy sb)).

Lemma watchdog_patch_ok run now : patch_ok (B:=B) (V:=V) (watchdog_patch run now).
Proof. by intros cur. Qed.

Lemma watchdog_spec t run now : hoare job_step t (fun w => jobs_ready w /\ recorded run w)
  (watchdog blank cfg has_events has_alerts deliver destroy run now) (fun _ => jobs_ready).
Proof.
  eapply hoare_known with (φ := ref_ok (ref_of run)); [by intros w [_ H]; eapply recorded_ref|]. intros Href.
  unfold watchdog. destruct (negb _); [by apply hoare_ret; [apply _|intros w [? _]]|].
  eapply hoare_bind; [apply (hoare_away t (recorded run)); [apply _|]| |by intros e; apply hoare_throw; [apply _|intros w [? _]]].
  { destruct (truthy _); [|done]. apply calls_catch; [apply destroy_away|done]. }
  intros u. eapply hoare_bind; [eapply hoare_pre; [|apply transition_spec; [exact Href|apply watchdog_patch_ok]]; by intros w [? _]| |].
  - intros [s transitioned]. eapply hoare_bind with (M := fun _ => jobs_ready).
    + destruct transitioned; [|by apply hoare_ret; [apply _|intros w [? _]]]. apply finalize_spec.
    + intros u'. by apply hoare_ret; [apply _|].
    + intros e. by apply hoare_throw; [apply _|].
  - intros e. apply hoare_throw; [apply _|]. by intros w [? _].
Qed.

Lemma outside_cachedRead {X} cache k (read : prog X) : outside read -> outside (cachedRead cache k read).
Proof. intros Hr. unfold cachedRead. destruct (List.find _ _) as [[]|]; [done|]. apply calls_handle; [exact Hr|done]. Qed.
Lemma outside_getJob J : outside (B:=B) (V:=V) (getJob J.1.1 J.1.2 J.2).
Proof. apply calls_bind; [by apply calls_call|]. intros [o|]; [|done]. unfold readStored. by destruct (parse (o_body o)). Qed.
Lemma outside_loadJobCached cache J : outside (loadJobCached cache J.1.1 J.1.2 J.2).
Proof.
  assert (Hl : forall X (r : result (error V) X) next c, (forall x, outside (next x)) -> outside (B:=B) (V:=V) (loaded (Y := JobReadCache (V:=V)) r next c)).
  { intros X [x|e] next c Hn; [apply Hn|by destruct e]. }
  apply calls_bind; [apply outside_cachedRead, project_away|]. intros [project ps]. apply Hl. intros st.
  destruct (st === ProjectDeleted); [done|]. apply calls_bind; [apply outside_cachedRead, notebook_away|]. intros [notebook ns]. apply Hl. intros st'.
  destruct (st' === NbDeleted); [done|]. apply calls_bind; [apply outside_cachedRead, outside_getJob|]. intros [job js]. by apply Hl.
Qed.

Lemma cancelCachedIfDeleted_spec t cache run : hoare job_step t (fun w => jobs_ready w /\ recorded run w)
  (cancelCachedIfDeleted cache run) (fun _ => jobs_ready).
Proof.
  eapply hoare_known with (φ := ref_ok (ref_of run)); [by intros w [_ H]; eapply recorded_ref|]. intros Href.
  eapply hoare_bind; [away (outside_loadJobCached cache (job_of run))| |by intros e; apply hoare_throw; [apply _|intros w [? _]]].
  intros [[[job|]|e] cache']; [by apply hoare_ret; [apply _|intros w [? _]]| |by apply hoare_ret; [apply _|intros w [? _]]].
  eapply hoare_handle; [eapply hoare_pre; [|by apply cancel_run_spec]; by intros w [? _]|]. intros r. by apply hoare_ret; [apply _|].
Qed.

Lemma fire_all_spec t jobs now active r : Forall (fun j => ids_ok (ij_projectId j, ij_notebookId j, sj_id (ij_entry j))) jobs -> (0 <= now < MAX_TIME)%Z ->
  hoare job_step t jobs_ready
    (fire_all blank cfg new_Cron strip_prefix show cronFor has_events has_alerts deliver jobs now active r) (fun _ => jobs_ready).
Proof.
  intros Hjobs Hnow. revert active r. induction Hjobs as [|j jobs Hj _ IH]; intros active r; [by apply hoare_ret; [apply _|]|]. cbn [fire_all].
  eapply hoare_bind with (M := fun _ => jobs_ready).
  - eapply hoare_handle; [apply (fire_spec t (ij_projectId j, ij_notebookId j, sj_id (ij_entry j))); done|].
    intros o. by apply hoare_ret; [apply _|].
  - intros [o|e]; apply IH.
  - intros e. by apply hoare_throw; [apply _|].
Qed.

(** The clean-up of dangling markers is allowed where markers may go early. *)
Lemma prune_if_dangling_spec t m now : ~ markers_kept -> ref_ok (ref_of_marker m) ->
  hoare job_step t jobs_ready (prune_if_dangling m now : prog _) (fun _ => jobs_ready).
Proof.
  intros HK [HJ Hr]. unfold prune_if_dangling. destruct (dangling m now); [|by apply hoare_ret; [apply _|]].
  assert (Hdel : forall ks, (forall w k, k ∈ ks -> removable k w) -> hoare job_step t jobs_ready (call (ODelete ks) : prog _) (fun _ => jobs_ready)).
  { intros ks Hks. apply (hoare_delete job_step t ks jobs_ready jobs_ready). intros w ks' Hready Hsub.
    assert (HG : job_step t w (remove w ks')) by (apply step_remove; auto). split; [done|]. by eapply (kept_step t w). }
  eapply hoare_bind.
  { apply hoare_pre with (P := fun w => jobs_ready w /\ True); [done|]. apply hoare_away; [apply _|]. apply calls_bind; [by apply calls_call|done]. }
  2: { intros e. apply hoare_throw; [apply _|]. by intros w [? _]. }
  intros [|]; [by apply hoare_ret; [apply _|intros w [? _]]|]. eapply hoare_pre; [intros w [H _]; exact H|].
  eapply hoare_bind with (M := fun _ => jobs_ready); [|by intros u; apply hoare_ret; [apply _|]|by intros e; apply hoare_throw; [apply _|]].
  eapply hoare_bind; [apply Hdel| |by intros e; apply hoare_throw; [apply _|]].
  - intros w k Hk. apply list_elem_of_singleton in Hk as ->. left. by apply (free_index (job_of_marker m)).
  - intros u. eapply hoare_catch; [apply Hdel|by intros a; apply hoare_ret; [apply _|]|by intros e; apply hoare_ret; [apply _|]].
    intros w k Hk. apply list_elem_of_singleton in Hk as ->. right. by exists (job_of_marker m), (jm_run_id m).
Qed.

Lemma sort_entry_spec t executing now st a : ~ markers_kept ->
  hoare job_step t (fun w => jobs_ready w /\ entry_ok a w)
    (sort_entry blank cfg has_events has_alerts deliver destroy executing now st a) (fun _ => jobs_ready).
Proof.
  intros HK. unfold sort_entry, entry_ok. destruct (ar_run a) as [run|] eqn:Ea.
  - eapply hoare_pre with (P := fun w => jobs_ready w /\ recorded run w); [by intros w (? & _ & ?)|].
    destruct (isTerminalRunStatus _).
    { eapply hoare_bind with (M := fun _ => jobs_ready); [|by intros o; apply hoare_ret; [apply _|]|by intros e; apply hoare_throw; [apply _|]].
      eapply hoare_handle; [apply finalize_spec|]. intros r. by apply hoare_ret; [apply _|]. }
    destruct (_ === RQueued).
    { destruct (executing _); [by apply hoare_ret; [apply _|intros w [? _]]|].
      eapply hoare_bind; [apply cancelCachedIfDeleted_spec| |by intros e; apply hoare_throw; [apply _|]]. intros [gone cache].
      by apply hoare_ret; [apply _|]. }
    eapply hoare_bind; [apply watchdog_spec|by intros o; apply hoare_ret; [apply _|]|by intros e; apply hoare_throw; [apply _|]].
  - eapply hoare_known with (φ := ref_ok (ref_of_marker (ar_marker a))); [by intros w (_ & ? & _)|]. intros Href.
    eapply hoare_bind with (M := fun _ => jobs_ready); [|by intros o; apply hoare_ret; [apply _|]|by intros e; apply hoare_throw; [apply _|]].
    eapply hoare_handle; [eapply hoare_pre; [|by apply prune_if_dangling_spec]; by intros w [? _]|].
    intros r. by apply hoare_ret; [apply _|].
Qed.

Lemma sort_active_spec t executing now st l : ~ markers_kept ->
  hoare job_step t (fun w => jobs_ready w /\ Forall (fun a => entry_ok a w) l)
    (sort_active blank cfg has_events has_alerts deliver destroy executing now st l) (fun _ => jobs_ready).
Proof.
  intros HK. revert st. induction l as [|a l IH]; intros st; [by apply hoare_ret; [apply _|intros w [? _]]|]. cbn [sort_active].
  eapply hoare_bind with (M := fun _ w => jobs_ready w /\ Forall (fun a => entry_ok a w) l).
  - eapply hoare_pre; [|apply hoare_frame; [apply _|apply _|by apply sort_entry_spec]]. intros w [? H]. by apply Forall_cons in H as [? ?].
  - intros st'. apply IH.
  - intros e. apply hoare_throw; [apply _|]. by intros w [? _].
Qed.

Lemma indexed_ids s : SnapshotSchema s = true -> Forall (fun j => ids_ok (ij_projectId j, ij_notebookId j, sj_id (ij_entry j))) (indexedJobs s).
Proof.
  unfold SnapshotSchema. rewrite !andb_true_iff. intros [_ Hp]. rewrite forallb_forall in Hp. apply Forall_concat, Forall_map, Forall_forall.
  intros p Hin. apply list_elem_of_In in Hin. specialize (Hp p Hin). unfold SnapshotProjectEntrySchema in Hp. rewrite !andb_true_iff in Hp.
  destruct Hp as ((((((((Hid & _) & _) & _) & _) & Hn) & _) & _) & _). case_bool_decide; [constructor|].
  rewrite forallb_forall in Hn. apply Forall_concat, Forall_map, Forall_forall. intros n Hin'. apply list_elem_of_In in Hin'. specialize (Hn n Hin').
  unfold SnapshotNotebookEntrySchema in Hn. rewrite !andb_true_iff in Hn. destruct Hn as (((((((Hnid & _) & _) & _) & _) & _) & Hj) & _).
  unfold notebook_jobs. case_bool_decide; [constructor|]. destruct (n_jobs n) as [js|]; [|constructor]. cbn in *. rewrite forallb_forall in Hj.
  apply Forall_map, Forall_forall. intros e He. apply list_elem_of_In in He. specialize (Hj e He). unfold SnapshotJobEntrySchema in Hj.
  rewrite !andb_true_iff in Hj. split; [done|]. split; [done|]. cbn. tauto.
Qed.

Lemma scheduler_tick_spec t fuel executing : ~ markers_kept ->
  hoare job_step t jobs_ready
    (scheduler_tick blank cfg new_Cron strip_prefix show cronFor has_events has_alerts deliver destroy fuel executing) (fun _ => jobs_ready).
Proof.
  intros HK. eapply hoare_bind; [apply (hoare_now job_step t jobs_ready (fun n => 0 <= n < MAX_TIME)%Z); intros w [Hw _]; by apply wf_clock| |].
  2: { intros e. apply hoare_throw; [apply _|]. by intros w (? & ? & _). }
  intros n0. apply hoare_exists; intros now. apply hoare_pure; intros [= ->]. apply hoare_pure; intros Hnow.
  eapply hoare_pre with (P := jobs_ready); [by intros w [_ ?]|].
  eapply hoare_bind; [by apply (hoare_outside t jobs_ready indexed_snapshot (fun s => SnapshotSchema s = true))| |].
  2: { intros e. apply hoare_throw; [unfold returned; apply _|]. by intros w [? _]. }
  intros snapshot. eapply hoare_pre with (P := fun w => SnapshotSchema snapshot = true /\ jobs_ready w); [by intros w [? ?]|].
  apply hoare_pure; intros Hs%indexed_ids.
  eapply hoare_bind; [apply listActiveSnapshot_spec| |by intros e; apply hoare_throw; [apply _|intros w [? _]]]. intros before.
  eapply hoare_bind; [eapply hoare_pre; [|apply fire_all_spec; [|exact Hnow]]| |by intros e; apply hoare_throw; [apply _|]].
  { by intros w [? _]. }
  { destruct (as_complete before); [done|constructor]. }
  intros fired. eapply hoare_bind; [apply listActiveSnapshot_spec| |by intros e; apply hoare_throw; [apply _|intros w [? _]]]. intros active.
  eapply hoare_bind; [by apply sort_active_spec| |by intros e; apply hoare_throw; [apply _|]].
  intros sorted. by apply hoare_ret; [apply _|].
Qed.
End Work.
