(* ===== verification/JobRequests.v ===== *)
(** * Jobs among replicas

    Any number of replicas ticking, firing, queueing runs on request, moving runs along,
    cancelling and settling them; what follows for every interleaving and every storage
    fault.  The retention of runs and claims is not among the requests: the theorems are
    about what happens while a record and its claim are kept. *)

From Stdlib Require Import ZArith Lia.
From stdpp Require Import relations.
From S2P Require Import Prelude Constants Lifecycle Schema UtcDate Store Cas Storage CasTheorems CasEffects Calls Listing SessionData CatalogData Cron JobData JobRuns Events JobScheduler JobProtocol JobReplicas JobWork.
Import RunState.

(** What a scheduler is built with: the settings, the cron engine, and the alert
    dispatcher and sandbox provider. *)
Record Scheduler (B V : Type) := {
  sc_cfg : JobSchedulerConfig;
  sc_new_Cron : string -> cron_construction; sc_strip_prefix : string -> string; sc_show : nat -> string;
  sc_cronFor : string -> string -> option (Z -> option Z);
  sc_events : bool; sc_alerts : bool;
  sc_deliver : JobDefinition -> JobRun -> prog B V unit;
  sc_destroy : SandboxId -> prog B V unit;
}.
Arguments sc_cfg {B V}.
Arguments sc_new_Cron {B V}.
Arguments sc_strip_prefix {B V}.
Arguments sc_show {B V}.
Arguments sc_cronFor {B V}.
Arguments sc_events {B V}.
Arguments sc_alerts {B V}.
Arguments sc_deliver {B V}.
Arguments sc_destroy {B V}.

Section Requests.
Context {B V : Type} {CR : Codec B JobRun} {CM : Codec B JobRunMarker} {CO : Codec B JobOccurrence} {CD : Codec B JobDefinition}.
Context {CE : Codec B Event} {CI : Codec B (EventMarker B)} {JS : JobSchemas B} {Reads : JobReads B V}.
Context (blank : B) (sc : Scheduler B V).
Local Notation prog := (prog B V).
Implicit Types w : world B V.

Definition fire_with : ProjectId -> NotebookId -> JobId -> Z -> bool -> prog fire_outcome :=
  fire blank (sc_cfg sc) (sc_new_Cron sc) (sc_strip_prefix sc) (sc_show sc) (sc_cronFor sc) (sc_events sc) (sc_alerts sc) (sc_deliver sc).
Definition tick_with : nat -> (RunId -> bool) -> prog (TickResult * list JobRun) :=
  scheduler_tick blank (sc_cfg sc) (sc_new_Cron sc) (sc_strip_prefix sc) (sc_show sc) (sc_cronFor sc) (sc_events sc) (sc_alerts sc)
    (sc_deliver sc) (sc_destroy sc).
Definition finalize_with : JobRun -> prog unit := finalize blank (sc_events sc) (sc_alerts sc) (sc_deliver sc).
Definition watchdog_with : JobRun -> Z -> prog bool :=
  watchdog blank (sc_cfg sc) (sc_events sc) (sc_alerts sc) (sc_deliver sc) (sc_destroy sc).

(** The part of a tick that settles runs: finished ones are finalized, overdue ones
    reclaimed. *)
Fixpoint settle_all (now : Z) (l : list ActiveRun) : prog unit :=
  match l with
  | [] => mret tt
  | a :: l' =>
      (match ar_run a with
       | None => mret tt
       | Some run =>
           if isTerminalRunStatus (jr_status run) then catch (finalize_with run) (fun _ => mret tt)
           else watchdog_with run now ≫= fun _ => mret tt
       end) ≫= fun _ => settle_all now l'
  end.

Inductive job_request :=
| JTick (fuel : nat) (executing : RunId -> bool)
| JFire (J : job3) (now : Z) (hasActive : bool)
| JEnqueue (input : EnqueueRunInput)
| JTransition (ref : RunRef) (event : RunEvent) (patch : JobRun -> prog JobRun)
| JCancel (fuel : nat) (matches : JobRunMarker -> bool) (by_ : UserId)
| JSettle (fuel : nat) (now : Z).

Definition perform_job (r : job_request) : prog unit :=
  match r with
  | JTick fuel executing => tick_with fuel executing ≫= fun _ => mret tt
  | JFire J now hasActive => fire_with J.1.1 J.1.2 J.2 now hasActive ≫= fun _ => mret tt
  | JEnqueue input => enqueue blank input ≫= fun _ => mret tt
  | JTransition ref event patch => transition ref event patch ≫= fun _ => mret tt
  | JCancel fuel matches by_ => cancelRunsWhere fuel matches by_ ≫= fun _ => mret tt
  | JSettle fuel now => listActive fuel ≫= fun active => settle_all now active
  end.

(** Runs on request have no claim: their ids are new and they are no scheduled first
    attempts.  A transition names a run and patches none of its fixed fields. *)
Definition job_request_ok (r : job_request) : Prop :=
  match r with
  | JTick _ _ | JCancel _ _ _ | JSettle _ _ => True
  | JFire J now _ => ids_ok J /\ (0 <= now < MAX_TIME)%Z
  | JEnqueue input => ei_runId input = None /\ ~ (ei_trigger input = TSchedule /\ ei_attempt input ?? 1%Z = 1%Z)
  | JTransition ref _ patch => ref_ok ref /\ patch_ok patch
  end.
(** A whole tick also removes markers whose record is missing. *)
Definition keeps_markers (r : job_request) : Prop := match r with JTick _ _ => False | _ => True end.

(** The services around the scheduler only read its objects, and snapshots are valid. *)
Record reads_away : Prop := {
  ra_project p : outside (project_status p);
  ra_notebook p n : outside (notebook_status p n);
  ra_version p n : outside (current_version p n);
  ra_snapshot : outside indexed_snapshot;
  ra_valid : returns indexed_snapshot (fun s => SnapshotSchema s = true);
  ra_deliver j r : outside (sc_deliver sc j r);
  ra_destroy sb : outside (sc_destroy sc sb);
}.
Context (away : reads_away).

Section Specs.
Context {K : MarkerRule}.

Lemma settle_all_spec t now l :
  hoare job_step t (fun w => jobs_ready w /\ Forall (fun a => entry_ok a w) l) (settle_all now l) (fun _ => jobs_ready).
Proof.
  destruct away as [H1 H2 H3 H4 H5 H6 H7].
  induction l as [|a l IH]; [by apply hoare_ret; [apply _|intros w [? _]]|]. cbn [settle_all].
  eapply hoare_bind with (M := fun _ w => jobs_ready w /\ Forall (fun a => entry_ok a w) l).
  - assert (Hone : hoare job_step t (fun w => jobs_ready w /\ entry_ok a w) (match ar_run a with
       | None => mret tt
       | Some run => if isTerminalRunStatus (jr_status run) then catch (finalize_with run) (fun _ => mret tt)
                     else watchdog_with run now ≫= fun _ => mret tt
       end) (fun _ => jobs_ready)).
    { unfold entry_ok. destruct (ar_run a) as [run|]; [|apply hoare_ret; [apply _|]; by intros w [? _]].
      eapply hoare_pre with (P := fun w => jobs_ready w /\ recorded run w); [by intros w (? & _ & ?)|]. destruct (isTerminalRunStatus _).
      - eapply hoare_catch; [by apply finalize_spec|by intros u; apply hoare_ret; [apply _|]|by intros e; apply hoare_ret; [apply _|]].
      - eapply hoare_bind; [by apply watchdog_spec|by intros u; apply hoare_ret; [apply _|]|by intros e; apply hoare_throw; [apply _|]]. }
    eapply hoare_pre; [|apply (hoare_frame job_step t _ _ _ _ Hone)]. intros w [? H]. by apply Forall_cons in H as [? ?].
  - intros u. exact IH.
  - intros e. apply hoare_throw; [apply _|]. by intros w [? _].
Qed.

Lemma job_request_spec t r : job_request_ok r -> (markers_kept -> keeps_markers r) ->
  hoare job_step t jobs_ready (perform_job r) (fun _ => jobs_ready).
Proof.
  intros Hr HK. destruct away as [H1 H2 H3 H4 H5 H6 H7].
  destruct r; cbn [perform_job job_request_ok keeps_markers] in *.
  1-5: eapply hoare_bind with (M := fun _ => jobs_ready); [|by intros u; apply hoare_ret; [apply _|]|by intros e; apply hoare_throw; [apply _|]].
  - by apply scheduler_tick_spec.
  - destruct Hr. by apply fire_spec.
  - destruct Hr. eapply hoare_post; [|by apply enqueue_direct_spec]. by intros res w (r & ? & _).
  - destruct Hr. eapply hoare_post; [|by apply transition_spec]. by intros res w [? _].
  - apply cancelRunsWhere_spec.
  - eapply hoare_bind; [apply listActive_spec|intros l; apply settle_all_spec|]. intros e. apply hoare_throw; [apply _|]. by intros w [? _].
Qed.
End Specs.

(** ** Any number of replicas *)

(** Markers may go early, or only once their run is over. *)
Definition may_go : MarkerRule := False.
Definition stay : MarkerRule := True.

Definition start_jobs (rs : list job_request) w := Config (map perform_job rs) w.

Lemma jobs_invariant (K : MarkerRule) rs w0 c :
  (forall r, r ∈ rs -> job_request_ok r /\ (markers_kept -> keeps_markers r)) -> jobs_ready w0 ->
  rtc pool_step (start_jobs rs w0) c -> jobs_ready (wd c).
Proof.
  intros Hrs Hw Hr. eapply (pool_invariant job_step (fun _ _ _ => True) jobs_ready); [| | | |exact Hr].
  - intros t w w'. apply kept_step.
  - intros w ms. apply kept_time.
  - intros t p Ht. cbn in Ht. rewrite list_lookup_fmap in Ht. destruct (rs !! t) as [r|] eqn:E; [|done]. injection Ht as <-.
    destruct (Hrs r) as [Hok HK]; [by apply (list_elem_of_lookup_2 rs t)|].
    eapply rg_weaken; [|by apply (job_request_spec t r Hok HK)]. done.
  - exact Hw.
Qed.

(** The claim behind a scheduled first attempt. *)
Lemma scheduled_claim (K : MarkerRule) w s ms : jinv w -> recorded s w -> jr_trigger s = TSchedule -> jr_attempt s = 1%Z ->
  jr_scheduled_for s = Some (toISOString ms) ->
  exists oc, occ (job_of s) (occurrenceKey ms) oc w /\ jo_run_id oc = jr_run_id s /\ (outcome_of oc = OutcomeSkip <-> jr_status s = RSkipped).
Proof.
  intros Hi Hrec Ht Ha Hs. pose proof (recorded_origin s w Hi Hrec) as Ho. destruct (or_scheduled _ _ Ho Ht Ha) as (x & oc & Hocc & E).
  destruct (or_claimed _ _ Ho _ _ _ Hocc E) as (_ & _ & (ms' & Hs' & ->) & Hst). exists oc. split; [|done].
  rewrite Hs in Hs'. apply (inj Some) in Hs' as E'. assert (occurrenceKey ms = occurrenceKey ms') as -> by (unfold occurrenceKey; by rewrite E'). done.
Qed.

(** C9: an occurrence fires once.  Whatever any number of replicas do (ticks, fires,
    retries, cancellations, transitions, crashes in between and repairs after them), with
    any storage faults and without relying on the job lock: two scheduled first attempts
    of one job for the same minute are records of one and the same run, and the minute was
    either run or skipped, never both. *)
Theorem occurrence_fires_once rs w0 c s1 s2 ms1 ms2 :
  (forall r, r ∈ rs -> job_request_ok r) -> jobs_ready (K := may_go) w0 -> rtc pool_step (start_jobs rs w0) c ->
  recorded s1 (wd c) -> recorded s2 (wd c) -> job_of s1 = job_of s2 ->
  jr_trigger s1 = TSchedule -> jr_attempt s1 = 1%Z -> jr_scheduled_for s1 = Some (toISOString ms1) ->
  jr_trigger s2 = TSchedule -> jr_attempt s2 = 1%Z -> jr_scheduled_for s2 = Some (toISOString ms2) ->
  occurrenceKey ms1 = occurrenceKey ms2 ->
  jr_run_id s1 = jr_run_id s2 /\ (jr_status s1 = RSkipped <-> jr_status s2 = RSkipped).
Proof.
  intros Hrs Hw0 Hr H1 H2 EJ Ht1 Ha1 Hs1 Ht2 Ha2 Hs2 Ek.
  destruct (jobs_invariant may_go rs w0 c) as [_ Hi]; [intros r Hin; split; [by apply Hrs|by intros []]|done|done|].
  destruct (scheduled_claim may_go _ s1 ms1 Hi H1 Ht1 Ha1 Hs1) as (oc1 & Ho1 & <- & Hst1).
  destruct (scheduled_claim may_go _ s2 ms2 Hi H2 Ht2 Ha2 Hs2) as (oc2 & Ho2 & <- & Hst2).
  rewrite EJ, Ek in Ho1. assert (oc1 = oc2) as ->; [|by rewrite <- Hst1, <- Hst2].
  destruct Ho1 as (HJ & t1 & o1 & Hl1 & Hp1), Ho2 as (_ & t2 & o2 & Hl2 & Hp2).
  destruct (ji_occ _ Hi _ _ _ ltac:(by exists (job_of s2), (occurrenceKey ms2)) Hl1) as (E1 & _).
  destruct (ji_occ _ Hi _ _ _ ltac:(by exists (job_of s2), (occurrenceKey ms2)) Hl2) as (E2 & _). congruence.
Qed.

Lemma chain_inside (h : list (tid * object B)) l t o' t2 o2 l2 : chain h -> h = l ++ (t, o') :: (t2, o2) :: l2 ->
  exists s s', parse (o_body o2) = Some s /\ parse (o_body o') = Some s' /\ run_next s s'.
Proof. revert h. induction l as [|x l IH]; intros h Hc ->; [by destruct Hc|]. destruct x, Hc as [_ Hc]. by apply (IH _ Hc). Qed.
Lemma chain_first (h : list (tid * object B)) l t o : chain h -> h = l ++ [(t, o)] ->
  exists s, parse (o_body o) = Some s /\ (jr_status s = RQueued \/ jr_status s = RSkipped).
Proof. revert h. induction l as [|x l IH]; intros h Hc ->; [by destruct Hc|]. destruct x, Hc as [_ Hc]. by apply (IH _ Hc). Qed.

(** C10: the records of a run implement the run machine.  Whatever the replicas do, the
    records of a run form one history that starts queued or skipped, in which each record
    follows from the one before by an edge of the machine that leaves identity, trigger,
    schedule, version, parameters, attempt and timeout unchanged, so nothing follows a
    finished record; the stored record is the last of it, and none is stored before the first. *)
Theorem run_records_evolve rs w0 c J r :
  (forall q, q ∈ rs -> job_request_ok q) -> jobs_ready (K := may_go) w0 -> rtc pool_step (start_jobs rs w0) c ->
  ids_ok J -> is_id "run" r = true ->
  (forall l t o' t2 o2 l2, hist (rpath J r) (wd c) = l ++ (t, o') :: (t2, o2) :: l2 ->
     exists s s', parse (o_body o2) = Some s /\ parse (o_body o') = Some s' /\ run_next s s' /\ ~ terminal s) /\
  (forall l t o, hist (rpath J r) (wd c) = l ++ [(t, o)] ->
     exists s, parse (o_body o) = Some s /\ (jr_status s = RQueued \/ jr_status s = RSkipped)) /\
  store (wd c) !! rpath J r = snd <$> head (hist (rpath J r) (wd c)).
Proof.
  intros Hrs Hw0 Hr HJ Hid.
  destruct (jobs_invariant may_go rs w0 c) as [_ Hi]; [intros q Hin; split; [by apply Hrs|by intros []]|done|done|].
  assert (Hk : rkey (rpath J r)) by (by exists J, r). pose proof (ji_chain _ Hi _ Hk) as Hc. split; [|split].
  - intros l t o' t2 o2 l2 Hh. destruct (chain_inside _ _ _ _ _ _ _ Hc Hh) as (s & s' & ? & ? & Hn).
    exists s, s'. do 3 (split; [done|]). intros Ht. by eapply terminal_final.
  - intros l t o Hh. by eapply chain_first.
  - destruct (store (wd c) !! rpath J r) as [o|] eqn:E.
    + by destruct (ji_last _ Hi _ _ Hk E) as (t & l & ->).
    + by rewrite (ji_kept _ Hi _ Hk E).
Qed.

(** C11: a run that is not over is never lost sight of.  Among replicas that fire, queue,
    move, cancel and settle runs (all but the clean-up of dangling markers), whatever
    crashes and storage faults there are: every stored run that is not over has its marker,
    so that the next tick finds it to dispatch or reclaim it. *)
Theorem active_run_has_marker rs w0 c J r o s :
  (forall q, q ∈ rs -> job_request_ok q /\ keeps_markers q) -> jobs_ready (K := stay) w0 -> rtc pool_step (start_jobs rs w0) c ->
  ids_ok J -> is_id "run" r = true -> store (wd c) !! rpath J r = Some o -> parse (o_body o) = Some s ->
  isTerminalRunStatus (jr_status s) = false -> is_Some (store (wd c) !! mpath J r).
Proof.
  intros Hrs Hw0 Hr HJ Hid Ho Hp Ht.
  destruct (jobs_invariant stay rs w0 c) as [_ Hi]; [intros q Hin; destruct (Hrs q Hin); by split|done|done|].
  eapply (ji_active _ Hi); [exact I|done|done|done|done|]. unfold terminal. by rewrite Ht.
Qed.
End Requests.

(** A store without runs, claims and markers in which job definitions are at their keys. *)
Lemma jinv_fresh {B V} {CR : Codec B JobRun} {CM : Codec B JobRunMarker} {CO : Codec B JobOccurrence} {CD : Codec B JobDefinition}
    (K : MarkerRule) (w : world B V) :
  (forall t k o, (t, k, o) ∈ log w -> exists J job, ids_ok J /\ k = hpath J /\ parse (o_body o) = Some job /\ job_of_def job = J) ->
  (forall k o, store w !! k = Some o -> exists t, (t, k, o) ∈ log w) -> jinv w.
Proof.
  intros Hlog Hst. assert (Hn : forall t k o, (t, k, o) ∈ log w -> ~ rkey k /\ ~ okey k /\ ~ mkey k).
  { intros t k o Hl. destruct (Hlog _ _ _ Hl) as (J & job & HJ & -> & _). assert (hkey (hpath J)) by (by exists J).
    split; [by apply hkey_not_rkey|]. split; [by apply hkey_not_okey|by apply hkey_not_mkey]. }
  assert (Hocc : forall J x oc, ~ occ J x oc w).
  { intros J x oc (HJ & t & o & Hl & _). destruct (Hn _ _ _ Hl) as (_ & [] & _). by exists J, x. }
  assert (Hmk : forall m, ~ marker m w).
  { intros m (HJ & Hr & t & o & Hl & _). destruct (Hn _ _ _ Hl) as (_ & _ & []). by exists (job_of_marker m), (jm_run_id m). }
  assert (Hb : forall r J, ~ bound r J w).
  { intros r J [(x & oc & Ho & _)|[(m & Hm & _)|(m & Hm & _)]]; [by eapply Hocc|by eapply Hmk|by eapply Hmk]. }
  assert (Hh : forall k, rkey k -> hist k w = []).
  { intros k Hk. destruct (hist k w) as [|[t o] l] eqn:E; [done|]. destruct (Hn t k o) as [[] _]; [|done]. apply elem_of_hist. rewrite E. by left. }
  split.
  - intros k t o Hk Hl. by destruct (Hn _ _ _ Hl) as (_ & ? & _).
  - intros k t o Hk Hl. by destruct (Hn _ _ _ Hl) as (_ & _ & ?).
  - intros k t o Hk Hl. by destruct (Hn _ _ _ Hl).
  - intros k o Hk Ho. destruct (Hst _ _ Ho) as [t Hl]. by destruct (Hn _ _ _ Hl).
  - intros k Hk _. by apply Hh.
  - intros k Hk. by rewrite Hh.
  - intros r J J' H. by destruct (Hb r J).
  - intros r J H. by destruct (Hb r J).
  - intros J x oc J' x' oc' H. by destruct (Hocc J x oc).
  - intros r J J' H. destruct (Hb r J). by left.
  - intros J r o s _ HJ Hr Ho. destruct (Hst _ _ Ho) as [t Hl]. destruct (Hn _ _ _ Hl) as [[] _]. by exists J, r.
  - intros J t o job HJ Hl Hp. destruct (Hlog _ _ _ Hl) as (J' & job' & HJ' & E & Hp' & <-). rewrite Hp in Hp'. injection Hp' as ->.
    apply (base_split J (job_of_def job') "/job.json" "/job.json") in E as [-> _]; done.
Qed.

(** ** A sample run *)
Module JobSample.

Inductive doc :=
| DRun (r : JobRun) | DMarker (m : JobRunMarker) | DOccurrence (o : JobOccurrence) | DJob (j : JobDefinition)
| DEvent (e : Event) | DEventMarker (id : string) (body : doc) | DBlank.

#[export, refine] Instance run_codec : Codec doc JobRun := {|
  valid r := JobRunSchema r = true; stringify := DRun;
  parse b := match b with DRun r => if JobRunSchema r then Some r else None | _ => None end |}.
Proof.
  - by intros r ->.
  - intros [r| | | | | |] x; try done. destruct (JobRunSchema r) eqn:E; [|done]. by intros [= <-].
Defined.
#[export, refine] Instance marker_codec : Codec doc JobRunMarker := {|
  valid m := JobRunMarkerSchema m = true; stringify := DMarker;
  parse b := match b with DMarker m => if JobRunMarkerSchema m then Some m else None | _ => None end |}.
Proof.
  - by intros m ->.
  - intros [|m| | | | |] x; try done. destruct (JobRunMarkerSchema m) eqn:E; [|done]. by intros [= <-].
Defined.
#[export, refine] Instance occurrence_codec : Codec doc JobOccurrence := {|
  valid o := JobOccurrenceSchema o = true; stringify := DOccurrence;
  parse b := match b with DOccurrence o => if JobOccurrenceSchema o then Some o else None | _ => None end |}.
Proof.
  - by intros o ->.
  - intros [| |o| | | |] x; try done. destruct (JobOccurrenceSchema o) eqn:E; [|done]. by intros [= <-].
Defined.
#[export, refine] Instance job_codec : Codec doc JobDefinition := {|
  valid j := JobDefinitionSchema j = true; stringify := DJob;
  parse b := match b with DJob j => if JobDefinitionSchema j then Some j else None | _ => None end |}.
Proof.
  - by intros j ->.
  - intros [| | |j| | |] x; try done. destruct (JobDefinitionSchema j) eqn:E; [|done]. by intros [= <-].
Defined.
#[export, refine] Instance event_codec : Codec doc Event := {|
  valid _ := True; stringify := DEvent; parse b := match b with DEvent e => Some e | _ => None end |}.
Proof. all: done. Defined.
#[export, refine] Instance event_marker_codec : Codec doc (EventMarker doc) := {|
  valid _ := True; stringify m := DEventMarker (em_event_id m) (em_body m);
  parse b := match b with DEventMarker i d => Some (Build_EventMarker i d) | _ => None end |}.
Proof. 1: by intros []. all: done. Defined.
#[export] Instance schemas : JobSchemas doc.
Proof. by split. Qed.

(** One project with one notebook and an hourly job that is retried once. *)
Definition pid : ProjectId := "proj-0000000000000000".
Definition nid : NotebookId := "nb-0000000000000000".
Definition jid : JobId := "job-0000000000000000".
Definition J : job3 := (pid, nid, jid).
Definition t0 : Timestamp := "2026-09-02T00:00:00.000Z".
Definition job : JobDefinition := {|
  jd_id := jid; jd_notebook_id := nid; jd_project_id := pid; jd_name := "nightly"; jd_enabled := true;
  jd_schedule := Some {| js_cron := "0 * * * *"; js_timezone := "UTC"; js_extra := [] |};
  jd_parameters := None; jd_retry := Some {| max_retries := 1; backoff_seconds := 60; rp_extra := [] |};
  jd_timeout_seconds := None; jd_concurrency_policy := Allow; jd_notifications := None;
  jd_created_by := "ada"; jd_created_at := t0; jd_updated_at := t0; jd_extra := [];
|}.

Definition notebook_entry : SnapshotNotebookEntry := {|
  n_id := nid; n_title := "report"; n_description := ""; n_status := NbActive; n_source_type := SrcLocal; n_author := "ada";
  n_created_at := t0; n_updated_at := t0; n_tags := []; n_last_run_at := None; n_compute_profile := None;
  n_app_compute_profile := None; n_security_labels := LabelsAbsent; n_security_labels_pending := false;
  n_jobs := Some [{| sj_id := jid; sj_enabled := true; sj_schedule := jd_schedule job; sj_updated_at := Some t0; sj_extra := [] |}];
  n_key_prefix := ""; n_move_id := None; n_moving := None; n_extra := [];
|}.
Definition project_entry : SnapshotProjectEntry := {|
  e_id := pid; e_name := "reports"; e_description := ""; e_owner := "ada"; e_status := ProjectActive; e_created_at := t0;
  e_updated_at := t0; e_notebook_count := 1; e_notebooks := [notebook_entry]; e_tags := None; e_search_refresh := None;
  e_member_ids := None; e_default_role := None; e_member_emails := None; e_member_groups := None;
  e_security_labels := LabelsAbsent; e_security_labels_pending := false; e_extra := [];
|}.
Definition snapshot : Snapshot := {|
  snapshot_id := "snap-0000000000000000"; schema_version := 1; created_at := t0; operation := "job.create"; actor := "ada";
  projects := [project_entry]; s_extra := [];
|}.

#[export] Instance reads : JobReads doc unit := {|
  project_status _ := mret ProjectActive; notebook_status _ _ := mret NbActive; current_version _ _ := mret None;
  indexed_snapshot := mret snapshot;
|}.
Definition scheduler : Scheduler doc unit := {|
  sc_cfg := {| catchupWindowMs := 3600000; maxConcurrentRuns := 4; maxConcurrentRunsPerProject := 2;
               defaultTimeoutMs := 600000; maxTimeoutMs := 3600000; watchdogGraceMs := None |};
  sc_new_Cron := fun _ => Constructed; sc_strip_prefix := fun s => s; sc_show := fun _ => "";
  sc_cronFor := fun _ _ => Some hourly; sc_events := true; sc_alerts := false;
  sc_deliver := fun _ _ => mret tt; sc_destroy := fun _ => mret tt;
|}.

Lemma sample_away : reads_away scheduler.
Proof. by split. Qed.

Definition noon : Z := 1788328800000.
Definition w0 : world doc unit := tick (write 9 empty_world (hpath J) {| o_body := DJob job; o_etag := mem_etag 0; o_uploaded := 0 |}) noon.

(** Two replicas fire the same hour and a third ticks; the run is dispatched and fails,
    is settled with its retry, and the hour is fired once more. *)
Definition r0 : RunId := mint_id "run" 0.
Definition ref0 : RunRef := {| rf_project_id := pid; rf_notebook_id := nid; rf_job_id := jid; rf_run_id := r0 |}.
Definition requests : list (job_request (B := doc) (V := unit)) :=
  [JFire J noon false; JFire J noon false; JTick 9 (fun _ => false); JTransition ref0 EvProvision mret;
   JTransition ref0 EvRunFail mret; JSettle 9 noon; JFire J noon true; JSettle 9 noon].
Definition progs := map (perform_job DBlank scheduler) requests.
Definition final := run_seq 0 progs w0.
(** The same without the tick. *)
Definition kept_requests : list (job_request (B := doc) (V := unit)) :=
  [JFire J noon false; JFire J noon false; JTransition ref0 EvProvision mret; JTransition ref0 EvRunFail mret; JSettle 9 noon].
Definition kept_progs := map (perform_job DBlank scheduler) kept_requests.
Definition kept_final := run_seq 0 kept_progs w0.

Lemma sample_ready (K : MarkerRule) : jobs_ready w0.
Proof.
  split.
  - split; [| |done].
    + intros k o. cbn. destruct (decide (k = hpath J)) as [->|]; [rewrite lookup_insert_eq; intros [= <-]; exists 9; by left|].
      by rewrite lookup_insert_ne, lookup_empty by done.
    + intros t t' k o o' H1 H2 _. apply list_elem_of_singleton in H1, H2. by simplify_eq.
  - apply jinv_fresh.
    + intros t k o H. apply list_elem_of_singleton in H. simplify_eq. exists J, job. split; [by vm_compute|]. split; [done|]. by vm_compute.
    + intros k o. cbn. destruct (decide (k = hpath J)) as [->|]; [rewrite lookup_insert_eq; intros [= <-]; exists 9; by left|].
      by rewrite lookup_insert_ne, lookup_empty by done.
Qed.

Lemma identity_patch : patch_ok (B := doc) (V := unit) mret.
Proof. by intros cur. Qed.
Lemma sample_ok r : r ∈ requests -> job_request_ok r.
Proof. revert r. apply Forall_forall. repeat constructor; (exact identity_patch || by vm_compute || lia || done). Qed.
Lemma kept_ok r : r ∈ kept_requests -> job_request_ok r /\ keeps_markers r.
Proof. revert r. apply Forall_forall. repeat constructor; (exact identity_patch || by vm_compute || lia || done). Qed.

Lemma sample_mem : mem_wf w0.
Proof. intros t k o H. apply list_elem_of_singleton in H. simplify_eq. exists 0. split; [cbn; lia|done]. Qed.
Lemma all_run : rtc pool_step (start_jobs DBlank scheduler requests w0) (Config final.1 final.2) /\ mem_wf final.2.
Proof.
  assert (Hok : run_seq_ok 0 progs w0 = true) by (vm_compute; reflexivity).
  exact (run_seq_reaches [] progs w0 sample_mem Hok).
Qed.
Lemma kept_run : rtc pool_step (start_jobs DBlank scheduler kept_requests w0) (Config kept_final.1 kept_final.2) /\ mem_wf kept_final.2.
Proof.
  assert (Hok : run_seq_ok 0 kept_progs w0 = true) by (vm_compute; reflexivity).
  exact (run_seq_reaches [] kept_progs w0 sample_mem Hok).
Qed.

(** The records of the run: failed last, queued first. *)
Definition versions := hist (rpath J r0) final.2.
Definition version (i : nat) : tid * object doc := nth i versions (9, {| o_body := DBlank; o_etag := ""; o_uploaded := 0 |}).
Definition blank_run : JobRun := skipped_run (scheduled_input (sc_cfg scheduler) job r0 t0 None None) skip_reason r0 t0.
Definition run_at (i : nat) : JobRun := match o_body (version i).2 with DRun r => r | _ => blank_run end.
Lemma sample_ids : ids_ok J /\ is_id "run" r0 = true.
Proof. by vm_compute. Qed.
#[local] Opaque final.
Lemma version_recorded i : is_Some (versions !! i) -> job_of (run_at i) = J -> jr_run_id (run_at i) = r0 ->
  parse (o_body (version i).2) = Some (run_at i) -> recorded (run_at i) final.2.
Proof.
  intros [[t o] E] EJ Er Hp. destruct sample_ids as [HJ Hr]. split; [by rewrite EJ|]. split; [by rewrite Er|]. exists (version i).1, (version i).2. split; [|exact Hp].
  change (record_of (run_at i)) with (rpath (job_of (run_at i)) (jr_run_id (run_at i))). rewrite EJ, Er. apply elem_of_hist.
  unfold version. rewrite (nth_lookup_Some _ _ _ _ E). by eapply list_elem_of_lookup_2.
Qed.
#[local] Transparent final.

Example occurrence_fires_once_witness : jr_run_id (run_at 0) = jr_run_id (run_at 2) /\ (jr_status (run_at 0) = RSkipped <-> jr_status (run_at 2) = RSkipped).
Proof.
  apply (occurrence_fires_once DBlank scheduler sample_away requests w0 (Config final.1 final.2) (run_at 0) (run_at 2) noon noon
    sample_ok (sample_ready may_go) (proj1 all_run)).
  - apply version_recorded; vm_compute; [by eexists|reflexivity..].
  - apply version_recorded; vm_compute; [by eexists|reflexivity..].
  - vm_compute. reflexivity.
  - vm_compute. reflexivity.
  - vm_compute. reflexivity.
  - vm_compute. reflexivity.
  - vm_compute. reflexivity.
  - vm_compute. reflexivity.
  - vm_compute. reflexivity.
  - reflexivity.
Defined.

Example run_records_evolve_witness : exists s s', parse (o_body (version 1).2) = Some s /\ parse (o_body (version 0).2) = Some s' /\ run_next s s' /\ ~ terminal s.
Proof.
  destruct (run_records_evolve DBlank scheduler sample_away requests w0 (Config final.1 final.2) J r0
    sample_ok (sample_ready may_go) (proj1 all_run)) as [H _].
  - vm_compute. done.
  - reflexivity.
  - apply (H [] (version 0).1 (version 0).2 (version 1).1 (version 1).2 [version 2]). vm_compute. reflexivity.
Defined.

(** The retry is queued and has its marker. *)
Definition r1 : RunId := mint_id "run" 1.
Definition retry_object : object doc := snd (nth 0 (hist (rpath J r1) kept_final.2) (version 9)).
Definition retry_run : JobRun := match o_body retry_object with DRun r => r | _ => blank_run end.
Example active_run_has_marker_witness : jr_attempt retry_run = 2%Z /\ is_Some (store kept_final.2 !! mpath J r1).
Proof.
  split; [vm_compute; reflexivity|].
  apply (active_run_has_marker DBlank scheduler sample_away kept_requests w0 (Config kept_final.1 kept_final.2) J r1 retry_object retry_run
    kept_ok (sample_ready stay) (proj1 kept_run)).
  - vm_compute. done.
  - reflexivity.
  - vm_compute. reflexivity.
  - vm_compute. reflexivity.
  - reflexivity.
Defined.

(** *** A run lost by the clean-up of dangling markers *)

(** A replica claims the hour and stops before it writes the run; eleven minutes later
    the repair of the run meets the clean-up of its old marker. *)
Definition repair_at : Z := noon + 660000.
Definition repair_pool : list (prog doc unit unit) :=
  [perform_job DBlank scheduler (JFire J noon false); perform_job DBlank scheduler (JFire J repair_at false);
   pruneStaleMarkers 9 repair_at ≫= fun _ => mret tt].
Definition turns : list turn :=
  (repeat (Turn 0) 7 ++ [Passes 660000] ++ repeat (Turn 1) 8 ++ repeat (Turn 2) 4 ++ repeat (Turn 1) 4 ++ repeat (Turn 2) 2)%list.
Definition lost : config doc unit unit := match interleave (Config repair_pool w0) turns with Some c => c | None => Config [] w0 end.

(** The clean-up of markers without a record can lose a run: it looks for the record
    before the repair writes it and removes the marker after.  The run stays queued with no
    marker; no later fire writes it again and no tick dispatches it. *)
Example dangling_cleanup_loses_run :
  rtc pool_step (Config repair_pool w0) lost /\
  (exists o s, store (wd lost) !! rpath J r0 = Some o /\ parse (o_body o) = Some s /\ jr_status s = RQueued) /\
  store (wd lost) !! mpath J r0 = None /\
  (run 3 (fire_with DBlank scheduler pid nid jid repair_at false) (wd lost)).1 = Ok NotFired /\
  exists r, (run 3 (tick_with DBlank scheduler 9 (fun _ => false)) (wd lost)).1 = Ok (r, []).
Proof.
  assert (Hok : (if interleave (Config repair_pool w0) turns is Some _ then true else false) = true) by (vm_compute; reflexivity).
  assert (H : interleave (Config repair_pool w0) turns = Some lost) by (unfold lost; destruct (interleave _ turns); [reflexivity|discriminate Hok]).
  split; [exact (proj1 (interleave_reaches (Config repair_pool w0) lost turns sample_mem H))|]. clear Hok H. split.
  - exists (snd (nth 0 (hist (rpath J r0) (wd lost)) (version 9))).
    exists (match o_body (snd (nth 0 (hist (rpath J r0) (wd lost)) (version 9))) with DRun r => r | _ => blank_run end).
    split; [|split]; vm_compute; reflexivity.
  - split; [vm_compute; reflexivity|]. split; [vm_compute; reflexivity|]. eexists. vm_compute. reflexivity.
Qed.
End JobSample.
