(* ===== verification/Concurrency.v ===== *)
(** * In-process concurrency

    [packages/core/src/concurrency.ts]: the counting semaphore, the bounded parallel map
    built on it, and keyed admission.  JavaScript runs one turn at a time, so an operation
    of these classes is one step; what interleaves are the steps of the tasks. *)

From Stdlib Require Import ZArith Lia.
From stdpp Require Import relations gmap strings.
From S2P Require Import Prelude.

(** ** [Semaphore] *)
Module Semaphore.

(** A waiter is the task that continues when its promise resolves. *)
Record Semaphore := { maxPermits : nat; permits : nat; waiters : list nat }.
Definition over_release : string :=
  "Semaphore.release() called more times than acquire() — refusing to exceed initial permit count".

(** The constructor; fractions are not represented. *)
Definition create (n : Z) : result string Semaphore :=
  if (n <? 1)%Z then Err "Semaphore permits must be a positive integer"
  else Ok {| maxPermits := Z.to_nat n; permits := Z.to_nat n; waiters := [] |}.

(** [acquire] of task [me]: whether it goes on at once. *)
Definition acquire (s : Semaphore) (me : nat) : Semaphore * bool :=
  if (0 <? permits s)%nat
  then ({| maxPermits := maxPermits s; permits := permits s - 1; waiters := waiters s |}, true)
  else ({| maxPermits := maxPermits s; permits := permits s; waiters := waiters s ++ [me] |}, false).

(** [release]: the waiter it wakes, if any. *)
Definition release (s : Semaphore) : result string (Semaphore * option nat) :=
  match waiters s with
  | next :: rest => Ok ({| maxPermits := maxPermits s; permits := permits s; waiters := rest |}, Some next)
  | [] =>
      if (maxPermits s <=? permits s)%nat then Err over_release
      else Ok ({| maxPermits := maxPermits s; permits := permits s + 1; waiters := [] |}, None)
  end.
End Semaphore.

(** ** [mapWithConcurrency] *)
Module MapPool.
Import Semaphore.
Section MapPool.
Context {E A : Type}.

(** A call of [sem.run(fn)]: waiting for its permit, woken, inside [fn], or settled. *)
Inductive task := Waiting | Woken | Running | Settled (r : result E A).
(** The calls in input order, and their settlements, the latest first. *)
Record pool := { sem : Semaphore; tasks : list task; settled : list (nat * result E A) }.

(** [items.map((item, index) => sem.run(...))]: every call acquires before any goes on. *)
Fixpoint launch (s : Semaphore) (i count : nat) : Semaphore * list task :=
  match count with
  | O => (s, [])
  | S count' =>
      let (s1, now) := acquire s i in
      let (s2, ts) := launch s1 (S i) count' in
      (s2, (if now then Woken else Waiting) :: ts)
  end.
Definition mapWithConcurrency (count : nat) (concurrency : Z) : result string pool :=
  match create concurrency with
  | Err e => Err e
  | Ok s => let (s', ts) := launch s 0 count in Ok {| sem := s'; tasks := ts; settled := [] |}
  end.

(** [next()] resolves the promise its task waits for. *)
Definition wake (ts : list task) (next : option nat) : list task :=
  match next with Some j => <[j := Woken]> ts | None => ts end.

(** A woken call enters [fn]; a call inside [fn] settles in any way and releases. *)
Inductive step : pool -> pool -> Prop :=
| step_enter i s ts l : ts !! i = Some Woken -> step {| sem := s; tasks := ts; settled := l |} {| sem := s; tasks := <[i := Running]> ts; settled := l |}
| step_settle i r s s' next ts l : ts !! i = Some Running -> release s = Ok (s', next) ->
    step {| sem := s; tasks := ts; settled := l |} {| sem := s'; tasks := wake (<[i := Settled r]> ts) next; settled := (i, r) :: l |}.

(** [Promise.all] over the calls: the first rejection, or the values in input order. *)
Fixpoint first_rejection (l : list (nat * result E A)) : option E :=
  match l with
  | [] => None
  | (_, r) :: earlier =>
      match first_rejection earlier, r with
      | Some e, _ => Some e
      | None, Err e => Some e
      | None, Ok _ => None
      end
  end.
Definition value_of (t : task) : option A := match t with Settled (Ok a) => Some a | _ => None end.
Definition promise_all (p : pool) : option (result E (list A)) :=
  match first_rejection (settled p) with
  | Some e => Some (Err e)
  | None => Ok <$> mapM value_of (tasks p)
  end.

(** *** Invariant *)

Definition holds_permit (t : task) : bool := match t with Woken | Running => true | _ => false end.
Definition over (t : task) : bool := match t with Settled _ => true | _ => false end.
Definition count (f : task -> bool) (ts : list task) : nat := length (List.filter f ts).

Arguments count : simpl never.
Lemma count_insert f ts i a b : ts !! i = Some a ->
  count f (<[i := b]> ts) + (if f a then 1 else 0) = count f ts + (if f b then 1 else 0).
Proof.
  revert i. induction ts as [|t ts IH]; intros [|i] H; cbn in H; [done|done| |].
  - injection H as ->. unfold count; cbn. destruct (f a), (f b); cbn; lia.
  - specialize (IH i H). change (<[S i := b]> (t :: ts)) with (t :: <[i := b]> ts). unfold count in *. cbn [List.filter]. destruct (f t); cbn [length]; lia.
Qed.

(** The calls before [g] have had their permit, the others wait in input order. *)
Record inv (n m : nat) (p : pool) (g : nat) : Prop := {
  i_max : maxPermits (sem p) = n;
  i_len : length (tasks p) = m;
  i_le : g <= m;
  i_wait : waiters (sem p) = seq g (m - g);
  i_tasks i : tasks p !! i = Some Waiting <-> g <= i < m;
  i_permits : permits (sem p) + count holds_permit (tasks p) = n;
  i_full : waiters (sem p) <> [] -> permits (sem p) = 0;
  i_settled i r : (i, r) ∈ settled p <-> tasks p !! i = Some (Settled r);
}.

Lemma launch_waiting s i c : permits s = 0 -> 
  launch s i c = ({| maxPermits := maxPermits s; permits := 0; waiters := waiters s ++ seq i c |}, replicate c Waiting).
Proof.
  revert s i. induction c as [|c IH]; intros s i Hp; cbn [launch seq replicate].
  - rewrite app_nil_r, <- Hp. by destruct s.
  - unfold acquire. rewrite Hp. cbn. rewrite IH by done. cbn. by rewrite <- app_assoc.
Qed.

Lemma launch_granted s i c : waiters s = [] -> let g := Nat.min (permits s) c in
  launch s i c = ({| maxPermits := maxPermits s; permits := permits s - g; waiters := seq (i + g) (c - g) |},
                  replicate g Woken ++ replicate (c - g) Waiting).
Proof.
  revert s i. induction c as [|c IH]; intros s i Hw; cbn zeta.
  - rewrite Nat.min_0_r, Nat.sub_0_r. destruct s; cbn in *. by subst.
  - destruct (permits s) as [|k] eqn:Hp.
    + rewrite launch_waiting by done. cbn [Nat.min]. rewrite Hw, Nat.add_0_r, Nat.sub_0_r. done.
    + cbn [launch]. unfold acquire. rewrite Hp. cbn [Nat.ltb Nat.leb]. rewrite IH by done. cbn [permits maxPermits Nat.min replicate app].
      replace (S k - 1) with k by lia. cbn [Nat.sub replicate app]. f_equal. f_equal. f_equal; lia.
Qed.

Lemma count_repeat f (t : task) k : count f (replicate k t) = if f t then k else 0.
Proof. unfold count. induction k as [|k IH]; cbn; [by destruct (f t)|]. destruct (f t); cbn; lia. Qed.
Lemma count_app f (ts ts' : list task) : count f (ts ++ ts') = count f ts + count f ts'.
Proof. unfold count. by rewrite List.filter_app, length_app. Qed.

Lemma start_inv n m p0 : mapWithConcurrency m n = Ok p0 -> inv (Z.to_nat n) m p0 (Nat.min (Z.to_nat n) m) /\ 0 < Z.to_nat n.
Proof.
  unfold mapWithConcurrency, create. destruct (Z.ltb_spec n 1) as [|Hn]; [done|].
  rewrite (launch_granted _ 0 m) by done. cbn [permits maxPermits Nat.add]. set (g := Nat.min (Z.to_nat n) m).
  assert (Hg : g <= m /\ g <= Z.to_nat n) by lia. intros [= <-]. split; [|lia]. split; cbn [sem tasks settled maxPermits permits waiters].
  - done.
  - rewrite length_app, !length_replicate. lia.
  - lia.
  - done.
  - intros i. destruct (decide (i < g)) as [Hi|Hi].
    + rewrite lookup_app_l by (rewrite length_replicate; lia). rewrite lookup_replicate. split; [by intros [? _]|lia].
    + rewrite lookup_app_r by (rewrite length_replicate; lia). rewrite length_replicate, lookup_replicate. split; [intros [_ ?]; lia|]. intros ?. split; [done|lia].
  - rewrite count_app, !count_repeat. cbn. lia.
  - destruct (m - g) eqn:Em; [done|]. lia.
  - intros i r. split; [by intros H%not_elem_of_nil|]. intros [H|[_ H]]%lookup_app_Some; by apply lookup_replicate in H as [? _].
Qed.

Lemma running_permit n m p g i : inv n m p g -> tasks p !! i = Some Running -> permits (sem p) < n.
Proof.
  intros Hi H. pose proof (i_permits _ _ _ _ Hi) as Hp. pose proof (count_insert holds_permit (tasks p) i Running Waiting H) as Hc. cbn [holds_permit] in Hc. lia.
Qed.

(** Setting one task that does not wait to one that does not wait. *)
Lemma set_tasks (ts : list task) i (a b : task) (g m : nat) : (forall j, ts !! j = Some Waiting <-> g <= j < m) -> ts !! i = Some a ->
  a <> Waiting -> b <> Waiting -> forall j, <[i := b]> ts !! j = Some Waiting <-> g <= j < m.
Proof.
  intros H Hi Ha Hb j. rewrite <- H. destruct (decide (i = j)) as [<-|Hne]; [|by rewrite list_lookup_insert_ne].
  rewrite list_lookup_insert_eq by (by eapply lookup_lt_Some). rewrite Hi. split; congruence.
Qed.

Lemma enter_inv n m s ts l i g : inv n m {| sem := s; tasks := ts; settled := l |} g -> ts !! i = Some Woken ->
  inv n m {| sem := s; tasks := <[i := Running]> ts; settled := l |} g.
Proof.
  intros [H1 H2 H3 H4 H5 H6 H7 H8] Hi. split; cbn in *; [done|by rewrite length_insert|done|done|by eapply set_tasks| |done|].
  - pose proof (count_insert holds_permit ts i Woken Running Hi) as Hc. cbn [holds_permit] in Hc. lia.
  - intros j r. rewrite H8. destruct (decide (i = j)) as [<-|Hne]; [|by rewrite list_lookup_insert_ne].
    rewrite list_lookup_insert_eq by (by eapply lookup_lt_Some). rewrite Hi. split; congruence.
Qed.

(** A settlement hands the permit to the first waiter, or back. *)
Lemma settle_inv n m s ts l i r s' next g : inv n m {| sem := s; tasks := ts; settled := l |} g -> ts !! i = Some Running ->
  release s = Ok (s', next) -> exists g', inv n m {| sem := s'; tasks := wake (<[i := Settled r]> ts) next; settled := (i, r) :: l |} g'.
Proof.
  intros [H1 H2 H3 H4 H5 H6 H7 H8] Hi Hrel. cbn in *. assert (Hlt : i < m) by (rewrite <- H2; by eapply lookup_lt_Some).
  assert (Hlog : forall j r', (j, r') ∈ (i, r) :: l <-> <[i := Settled r]> ts !! j = Some (Settled r')).
  { intros j r'. rewrite elem_of_cons. destruct (decide (i = j)) as [<-|Hne].
    - rewrite list_lookup_insert_eq by lia. split; [|intros [= <-]; by left]. intros [[= ->]|H]; [done|]. apply H8 in H. by rewrite Hi in H.
    - rewrite list_lookup_insert_ne, <- H8 by done. split; [|by right]. intros [[= <- _]|H]; [done|done]. }
  assert (Hset := set_tasks ts i Running (Settled r) g m H5 Hi ltac:(done) ltac:(done)).
  pose proof (count_insert holds_permit ts i Running (Settled r) Hi) as Hc. cbn [holds_permit] in Hc. unfold release in Hrel.
  destruct (waiters s) as [|w rest] eqn:Ew.
  - destruct (Nat.leb_spec (maxPermits s) (permits s)); [done|]. injection Hrel as <- <-. exists g.
    split; cbn [sem tasks settled maxPermits permits waiters wake]; [done|by rewrite length_insert|done|done|done|lia|done|done].
  - injection Hrel as <- <-. assert (Hg : g < m) by (destruct (m - g) eqn:Em; [done|lia]). exists (S g).
    replace (m - g) with (S (m - S g)) in H4 by lia. cbn in H4. injection H4 as -> ->.
    assert (Hw : <[i := Settled r]> ts !! g = Some Waiting) by (apply Hset; lia).
    pose proof (count_insert holds_permit (<[i := Settled r]> ts) g Waiting Woken Hw) as Hc'. cbn [holds_permit] in Hc'.
    split; cbn [sem tasks settled maxPermits permits waiters wake]; [done|by rewrite !length_insert|lia|done| |lia| |].
    + intros j. destruct (decide (g = j)) as [<-|Hne]; [rewrite list_lookup_insert_eq by (rewrite length_insert; lia); split; [done|lia]|].
      rewrite list_lookup_insert_ne, Hset by done. lia.
    + intros _. by apply H7.
    + intros j r'. rewrite Hlog. destruct (decide (g = j)) as [<-|Hne]; [|by rewrite (list_lookup_insert_ne _ g)].
      rewrite list_lookup_insert_eq by (rewrite length_insert; lia). rewrite Hw. split; congruence.
Qed.

Lemma step_inv n m p p' g : inv n m p g -> step p p' -> exists g', inv n m p' g'.
Proof. intros Hi Hs. destruct Hs; [exists g; by apply enter_inv|by eapply settle_inv]. Qed.

(** Every call takes two steps: into [fn] and out of it. *)
Definition left_of (t : task) : nat := match t with Waiting | Woken => 2 | Running => 1 | Settled _ => 0 end.
Definition work (ts : list task) : nat := sum_list_with left_of ts.
Arguments work : simpl never.
Lemma work_insert ts i a b : ts !! i = Some a -> work (<[i := b]> ts) + left_of a = work ts + left_of b.
Proof.
  revert i. induction ts as [|t ts IH]; intros [|i] H; cbn in H; [done|done| |].
  - injection H as ->. unfold work. cbn. lia.
  - specialize (IH i H). change (<[S i := b]> (t :: ts)) with (t :: <[i := b]> ts). unfold work in *. cbn. lia.
Qed.

Lemma step_work n m p p' g : inv n m p g -> step p p' -> work (tasks p) = S (work (tasks p')).
Proof.
  intros Hi Hs. destruct Hs as [i s ts l H|i r s s' next ts l H Hrel].
  - pose proof (work_insert ts i _ Running H) as Hw. cbn in *. lia.
  - pose proof (work_insert ts i _ (Settled r) H) as Hw. cbn in *. destruct next as [j|]; cbn; [|lia].
    destruct Hi as [H1 H2 H3 H4 H5 _ _ _]; cbn in *. unfold release in Hrel. destruct (waiters s) as [|w rest] eqn:Ew.
    { by destruct (_ <=? _). }
    injection Hrel as _ ->. assert (Hj : ts !! j = Some Waiting).
    { apply H5. assert (j ∈ seq g (m - g)) as Hin by (rewrite <- H4; by left). apply elem_of_seq in Hin. lia. }
    assert (Hne : i <> j) by congruence. assert (Hj' : <[i := Settled r]> ts !! j = Some Waiting) by (by rewrite list_lookup_insert_ne).
    pose proof (work_insert _ j _ Woken Hj') as Hw'. cbn in Hw'. lia.
Qed.

Lemma steps_inv n m p p' g k : inv n m p g -> nsteps step k p p' -> (exists g', inv n m p' g') /\ work (tasks p) = k + work (tasks p').
Proof.
  intros Hi Hs. revert g Hi. induction Hs as [p|k p p1 p' Hs _ IH]; intros g Hi; [by split; [exists g|]|].
  destruct (step_inv _ _ _ _ _ Hi Hs) as [g1 Hi1]. pose proof (step_work _ _ _ _ _ Hi Hs). destruct (IH g1 Hi1) as [? ?]. split; [done|lia].
Qed.

Lemma launch_work s i c : work (launch s i c).2 = 2 * c.
Proof.
  unfold work. revert s i. induction c as [|c IH]; intros s i; cbn; [done|]. destruct (acquire s i) as [s1 now].
  specialize (IH s1 (S i)). destruct (launch s1 (S i) c) as [s2 ts]. cbn in *. destruct now; cbn; lia.
Qed.
Lemma start_work n m p0 : mapWithConcurrency m n = Ok p0 -> work (tasks p0) = 2 * m.
Proof.
  unfold mapWithConcurrency. destruct (create n) as [s|e]; [|done]. pose proof (launch_work s 0 m) as H.
  destruct (launch s 0 m) as [s' ts]. intros [= <-]. exact H.
Qed.

(** A call that holds a permit. *)
Lemma holder ts : count holds_permit ts <> 0 -> exists i t, ts !! i = Some t /\ holds_permit t = true.
Proof.
  unfold count. induction ts as [|t ts IH]; cbn; [done|]. destruct (holds_permit t) eqn:Eh; [by exists 0, t|].
  intros (i & t' & ? & ?)%IH. by exists (S i), t'.
Qed.
Lemma unfinished ts : work ts <> 0 -> exists i t, ts !! i = Some t /\ over t = false.
Proof.
  unfold work. induction ts as [|t ts IH]; cbn; [done|]. intros Hw. destruct (over t) eqn:Eo; [|by exists 0, t].
  destruct t; try done. destruct (IH Hw) as (i & t' & ? & ?). by exists (S i), t'.
Qed.
Lemma finished ts i t : work ts = 0 -> ts !! i = Some t -> over t = true.
Proof.
  unfold work. revert i. induction ts as [|t' ts IH]; intros [|i] Hw H; cbn in *; [done|done| |apply (IH i); [lia|done]].
  injection H as ->. destruct t; cbn in *; [lia|lia|lia|done].
Qed.

(** A call that can go on: into [fn], or out of it with any outcome. *)
Definition enabled (p : pool) (i : nat) : Prop :=
  (tasks p !! i = Some Woken /\ exists p', step p p') \/
  (tasks p !! i = Some Running /\ forall r, exists p', step p p' /\ (i, r) ∈ settled p').

(** While a call has not settled, one can go on. *)
Lemma progress n m p g : inv n m p g -> 0 < n -> work (tasks p) <> 0 -> exists i, enabled p i.
Proof.
  intros Hi Hn Hw. destruct p as [s ts l]. cbn in Hw. destruct (decide (count holds_permit ts = 0)) as [H0|(i & t & Ht & Hp)%holder].
  - exfalso. apply unfinished in Hw as (i & t & Ht & Ho). destruct Hi as [_ _ _ H4 H5 H6 H7 _]; cbn in *.
    destruct t; try done.
    + apply H5 in Ht. destruct (m - g) eqn:Em; [lia|]. cbn in H4. rewrite H7 in H6; [lia|by rewrite H4].
    + pose proof (count_insert holds_permit ts i Woken Waiting Ht) as Hc. cbn [holds_permit] in Hc. lia.
    + pose proof (count_insert holds_permit ts i Running Waiting Ht) as Hc. cbn [holds_permit] in Hc. lia.
  - exists i. destruct t; try done; [left; split; [done|]; eexists; by apply (step_enter i)|right; split; [done|]]. intros r.
    pose proof (running_permit _ _ _ _ i Hi Ht) as Hlt. destruct Hi as [H1 _ _ _ _ _ _ _]. cbn in *.
    destruct (release s) as [[s' next]|e] eqn:Hrel; [by eexists; split; [apply (step_settle i r)|by left]|].
    unfold release in Hrel. destruct (waiters s); [|done]. destruct (Nat.leb_spec (maxPermits s) (permits s)); [lia|done].
Qed.

Lemma first_rejection_spec l : match first_rejection l with
  | Some e => exists i, (i, Err e) ∈ l
  | None => forall i r, (i, r) ∈ l -> exists a, r = Ok a
  end.
Proof.
  induction l as [|[i r] l IH]; cbn; [by intros i r H%not_elem_of_nil|].
  destruct (first_rejection l) as [e|]; [destruct IH as [j ?]; exists j; by right|].
  destruct r as [a|e]; [|exists i; by left]. intros j r [[= -> ->]|H]%elem_of_cons; [by eexists|by eapply IH].
Qed.

(** When every call has settled the call's promise has, by the first rejection or with
    the values of all calls in input order. *)
Lemma promise_all_spec n m p g : inv n m p g -> work (tasks p) = 0 ->
  match promise_all p with
  | Some (Ok vs) => length vs = m /\ forall i a, vs !! i = Some a -> tasks p !! i = Some (Settled (Ok a))
  | Some (Err e) => exists i, tasks p !! i = Some (Settled (Err e))
  | None => False
  end.
Proof.
  intros Hi Hw. unfold promise_all. pose proof (first_rejection_spec (settled p)) as Hf. destruct (first_rejection (settled p)) as [e|].
  { destruct Hf as [i Hf]. exists i. by apply (i_settled _ _ _ _ Hi). }
  assert (Hv : is_Some (mapM value_of (tasks p))).
  { apply mapM_is_Some_2, Forall_lookup. intros i t Ht. pose proof (finished _ _ _ Hw Ht). destruct t as [| | |r]; try done.
    destruct (Hf i r) as [a ->]; [by apply (i_settled _ _ _ _ Hi)|]. by eexists. }
  destruct Hv as [vs Hv]. rewrite Hv. cbn. apply mapM_Some_1 in Hv. split; [rewrite <- (i_len _ _ _ _ Hi); by symmetry; eapply Forall2_length|].
  intros i a Ha. destruct (Forall2_lookup_r _ _ _ _ _ Hv Ha) as (t & Ht & E'). destruct t as [| | |[]]; try done. by injection E' as ->.
Qed.

(** C34: Liveness of the bounded parallel map.  However its calls interleave and settle,
    at most [concurrency] of them hold a permit, the permits are granted in input order
    (the calls that were granted one enter the function in any order), a call that has not settled leaves one that can go on, no run is longer than two steps
    a call, and once every call has settled the result has: the values in input order, or
    the rejection of a call. *)
Theorem map_with_concurrency_live m n p0 k p : mapWithConcurrency m n = Ok p0 -> nsteps step k p0 p ->
  count holds_permit (tasks p) <= Z.to_nat n /\
  (exists g, forall i, tasks p !! i = Some Waiting <-> g <= i < m) /\
  k <= 2 * m /\
  (k < 2 * m -> exists i, enabled p i) /\
  (k = 2 * m -> match promise_all p with
   | Some (Ok vs) => length vs = m /\ forall i a, vs !! i = Some a -> tasks p !! i = Some (Settled (Ok a))
   | Some (Err e) => exists i, tasks p !! i = Some (Settled (Err e))
   | None => False
   end).
Proof.
  intros H0 Hs. pose proof (start_work _ _ _ H0) as H2m. apply start_inv in H0 as [Hi Hn].
  destruct (steps_inv _ _ _ _ _ _ Hi Hs) as [[g Hi'] Hw]. split_and!.
  - pose proof (i_permits _ _ _ _ Hi'). lia.
  - exists g. apply Hi'.
  - lia.
  - intros ?. apply (progress _ _ _ _ Hi'); [done|lia].
  - intros ?. apply (promise_all_spec _ _ _ _ Hi'). lia.
Qed.
End MapPool.

(** Three calls, two at a time: the third starts when the second has settled. *)
Definition sample_start : pool (E := string) (A := nat) :=
  {| sem := {| maxPermits := 2; permits := 0; waiters := [2] |}; tasks := [Woken; Woken; Waiting]; settled := [] |}.
Definition sample_mid : pool (E := string) (A := nat) :=
  {| sem := {| maxPermits := 2; permits := 0; waiters := [] |}; tasks := [Woken; Settled (Ok 7); Woken]; settled := [(1, Ok 7)] |}.
Lemma sample_steps : nsteps step 2 sample_start sample_mid.
Proof.
  eapply nsteps_l; [by apply (step_enter 1)|]. eapply nsteps_l; [by eapply (step_settle 1 (Ok 7) _ _ (Some 2))|]. apply nsteps_O.
Qed.
Lemma map_with_concurrency_live_witness :
  count holds_permit (tasks sample_mid) <= 2 /\ exists i, enabled sample_mid i.
Proof.
  destruct (map_with_concurrency_live 3 2 sample_start 2 sample_mid eq_refl sample_steps) as (H1 & _ & _ & H4 & _).
  split; [exact H1|apply H4; lia].
Defined.
End MapPool.

(** ** [KeyedAdmission] *)
Module KeyedAdmission.
Section KeyedAdmission.
Context {K : Type} `{Countable K}.

(** The caps, the counters, and the releases handed out with their [released] flag. *)
Record KeyedAdmission := {
  maxConcurrent : Z;
  maxConcurrentPerKey : Z;
  active : Z;
  activeByKey : gmap K Z;
  grants : list (K * bool);
}.
Inductive refusal := PerKey | Global | RangeError (name : string).

(** [assertPositiveInteger]; fractions are not represented. *)
Definition assertPositiveInteger (name : string) (value : Z) : result refusal unit :=
  if (value <? 1)%Z then Err (RangeError name) else Ok tt.
Definition create (m mk : Z) : result refusal KeyedAdmission :=
  match assertPositiveInteger "maxConcurrent" m, assertPositiveInteger "maxConcurrentPerKey" mk with
  | Err e, _ => Err e
  | _, Err e => Err e
  | Ok _, Ok _ => Ok {| maxConcurrent := m; maxConcurrentPerKey := mk; active := 0; activeByKey := ∅; grants := [] |}
  end.
Definition reconfigure (s : KeyedAdmission) (m mk : Z) : result refusal KeyedAdmission :=
  match assertPositiveInteger "maxConcurrent" m, assertPositiveInteger "maxConcurrentPerKey" mk with
  | Err e, _ => Err e
  | _, Err e => Err e
  | Ok _, Ok _ => Ok {| maxConcurrent := m; maxConcurrentPerKey := mk; active := active s; activeByKey := activeByKey s; grants := grants s |}
  end.
Definition activeFor (s : KeyedAdmission) (key : K) : Z := default 0%Z (activeByKey s !! key).
(** The new state; its release is the last of [grants]. *)
Definition acquire (s : KeyedAdmission) (key : K) : result refusal KeyedAdmission :=
  let keyActive := activeFor s key in
  if (maxConcurrentPerKey s <=? keyActive)%Z then Err PerKey
  else if (maxConcurrent s <=? active s)%Z then Err Global
  else Ok {| maxConcurrent := maxConcurrent s; maxConcurrentPerKey := maxConcurrentPerKey s;
             active := active s + 1; activeByKey := <[key := (keyActive + 1)%Z]> (activeByKey s);
             grants := grants s ++ [(key, false)] |}.
(** Calling the [i]th release. *)
Definition release (s : KeyedAdmission) (i : nat) : KeyedAdmission :=
  match grants s !! i with
  | Some (key, false) =>
      let remaining := (default 1%Z (activeByKey s !! key) - 1)%Z in
      {| maxConcurrent := maxConcurrent s; maxConcurrentPerKey := maxConcurrentPerKey s;
         active := active s - 1;
         activeByKey := if (remaining =? 0)%Z then delete key (activeByKey s) else <[key := remaining]> (activeByKey s);
         grants := <[i := (key, true)]> (grants s) |}
  | _ => s
  end.

Inductive op := Acquire (key : K) | Release (i : nat) | Reconfigure (m mk : Z).
Definition apply_op (s : KeyedAdmission) (o : op) : KeyedAdmission :=
  match o with
  | Acquire key => match acquire s key with Ok s' => s' | Err _ => s end
  | Release i => release s i
  | Reconfigure m mk => match reconfigure s m mk with Ok s' => s' | Err _ => s end
  end.

(** The admissions not yet released. *)
Definition open_key (g : K * bool) : option K := if g.2 then None else Some g.1.
Definition live (s : KeyedAdmission) : list K := omap open_key (grants s).
Definition live_of (key : K) (s : KeyedAdmission) : nat := length (filter (fun k => k = key) (live s)).

(** Every counter is the number of admissions not released. *)
Record exact (s : KeyedAdmission) : Prop := {
  x_active : active s = Z.of_nat (length (live s));
  x_key key : activeFor s key = Z.of_nat (live_of key s);
  x_present key c : activeByKey s !! key = Some c -> (0 < c)%Z;
}.

Lemma live_release s i key : grants s !! i = Some (key, false) ->
  live s ≡ₚ key :: omap open_key (<[i := (key, true)]> (grants s)).
Proof.
  intros Hg. assert (Hlt := lookup_lt_Some _ _ _ Hg). unfold live. rewrite insert_take_drop by done.
  rewrite <- (take_drop_middle _ _ _ Hg) at 1. rewrite !omap_app. cbn. by rewrite Permutation_middle.
Qed.

Lemma live_of_cons key s k (l : list K) : live s ≡ₚ k :: l ->
  live_of key s = (if decide (k = key) then 1 else 0) + length (filter (fun k => k = key) l).
Proof. intros Hp. unfold live_of. rewrite Hp, filter_cons. by destruct (decide (k = key)). Qed.

Lemma create_exact m mk s : create m mk = Ok s -> exact s.
Proof.
  unfold create. repeat case_match; try done. intros [= <-]. by split.
Qed.

Lemma acquire_exact s s' key : exact s -> acquire s key = Ok s' -> exact s' /\ live s' = live s ++ [key].
Proof.
  intros [H1 H2 H3]. unfold acquire. destruct (_ <=? _)%Z; [done|]. destruct (_ <=? _)%Z; [done|]. intros [= <-].
  assert (Hl : live {| maxConcurrent := maxConcurrent s; maxConcurrentPerKey := maxConcurrentPerKey s; active := active s + 1;
    activeByKey := <[key := (activeFor s key + 1)%Z]> (activeByKey s); grants := grants s ++ [(key, false)] |} = live s ++ [key]).
  { unfold live; cbn. by rewrite omap_app. }
  split; [|done]. split; cbn [active].
  - rewrite Hl, length_app. cbn. lia.
  - intros k. rewrite (live_of_cons _ _ key (live s)) by (by rewrite Hl, Permutation_app_comm). fold (live_of k s).
    unfold activeFor at 1; cbn [activeByKey]. destruct (decide (key = k)) as [<-|Hne].
    + rewrite lookup_insert_eq. cbn. rewrite H2. lia.
    + rewrite lookup_insert_ne by done. apply H2.
  - intros k c. cbn. intros [[<- <-]|[_ ?]]%lookup_insert_Some; [rewrite H2; lia|by eapply H3].
Qed.

Lemma release_exact s i : exact s -> exact (release s i).
Proof.
  intros [H1 H2 H3]. unfold release. destruct (grants s !! i) as [[key []]|] eqn:Hg; [by split| |by split].
  pose proof (live_release s i key Hg) as Hp. assert (Hk := H2 key). rewrite (live_of_cons _ _ _ _ Hp), decide_True in Hk by done.
  unfold activeFor in Hk. destruct (activeByKey s !! key) as [c|] eqn:Hc; cbn [default] in *; [|lia].
  assert (Hm : forall k, default 0%Z ((if (c - 1 =? 0)%Z then delete key (activeByKey s) else <[key := (c - 1)%Z]> (activeByKey s)) !! k)
    = (activeFor s k - if decide (key = k) then 1 else 0)%Z).
  { intros k. unfold activeFor. destruct (decide (key = k)) as [<-|Hne]; [|by case_match; rewrite ?lookup_delete_ne, ?lookup_insert_ne, Z.sub_0_r by done].
    rewrite Hc. destruct (Z.eqb_spec (c - 1) 0); [rewrite lookup_delete_eq|rewrite lookup_insert_eq]; cbn; lia. }
  split; cbn.
  - rewrite H1, Hp. unfold live. cbn [grants length]. lia.
  - intros k. unfold activeFor. cbn [activeByKey default]. rewrite Hm, H2, (live_of_cons _ _ _ _ Hp). unfold live_of, live. cbn [grants]. 
    case_decide; lia.
  - intros k c'. destruct (Z.eqb_spec (c - 1) 0) as [|Hne]; [by intros [_ ?]%lookup_delete_Some; eapply H3|].
    intros [[<- <-]|[_ ?]]%lookup_insert_Some; [specialize (H3 _ _ Hc); lia|by eapply H3].
Qed.

Lemma release_flag s i key : grants (release s i) !! i <> Some (key, false).
Proof.
  unfold release. destruct (grants s !! i) as [[key' []]|] eqn:Hg; [congruence| |congruence]. cbn.
  rewrite list_lookup_insert_eq by (by eapply lookup_lt_Some). done.
Qed.

Lemma apply_exact s o : exact s -> exact (apply_op s o).
Proof.
  intros Hx. destruct o as [key|i|m mk]; cbn.
  - destruct (acquire s key) as [s'|] eqn:E; [|done]. by apply (acquire_exact _ _ _ Hx E).
  - by apply release_exact.
  - unfold reconfigure. repeat case_match; try done; by destruct Hx; simplify_eq.
Qed.

Lemma run_exact ops s : exact s -> exact (foldl apply_op s ops).
Proof. revert s. induction ops as [|o ops IH]; intros s Hs; cbn; [done|]. by apply IH, apply_exact. Qed.

(** After any sequence of admissions, releases (each called any number of times) and
    reconfigurations, the counters are the admissions not yet released, in all and per
    key, the map keeps no key at zero, and an admission is refused exactly when the key,
    or else the whole, has as many open admissions as its cap. *)
Theorem keyed_admission_exact m mk s0 (ops : list op) : create m mk = Ok s0 ->
  let s := foldl apply_op s0 ops in
  active s = Z.of_nat (length (live s)) /\
  (forall key, activeFor s key = Z.of_nat (live_of key s) /\ (is_Some (activeByKey s !! key) <-> 0 < live_of key s)) /\
  (forall key, match acquire s key with
     | Ok s' => live s' = live s ++ [key] /\ (Z.of_nat (live_of key s) < maxConcurrentPerKey s)%Z /\ (Z.of_nat (length (live s)) < maxConcurrent s)%Z
     | Err PerKey => (maxConcurrentPerKey s <= Z.of_nat (live_of key s))%Z
     | Err Global => (Z.of_nat (live_of key s) < maxConcurrentPerKey s)%Z /\ (maxConcurrent s <= Z.of_nat (length (live s)))%Z
     | Err (RangeError _) => False
     end) /\
  (forall i, release (release s i) i = release s i).
Proof.
  intros Hc%create_exact s. assert (Hx : exact s) by by apply run_exact. clearbody s. split_and!.
  - apply Hx.
  - intros key. split; [apply Hx|]. pose proof (x_key _ Hx key) as Hk. unfold activeFor in Hk. split.
    + intros [c Hc']. rewrite Hc' in Hk. apply Hx in Hc'. cbn in Hk. lia.
    + intros ?. destruct (activeByKey s !! key); [by eexists|]. cbn in Hk. lia.
  - intros key. destruct (acquire s key) as [s'|e] eqn:E; [destruct (acquire_exact _ _ _ Hx E) as [_ ->]|]; revert E; unfold acquire;
      rewrite (x_key _ Hx), (x_active _ Hx); (destruct (Z.leb_spec (maxConcurrentPerKey s) (Z.of_nat (live_of key s))); [|destruct (Z.leb_spec (maxConcurrent s) (Z.of_nat (length (live s))))]);
      try done; intros [= <-]; split_and?; done || lia.
  - intros i. pose proof (release_flag s i) as Hf. generalize dependent (release s i). intros s1 Hf. unfold release.
    destruct (grants s1 !! i) as [[key []]|]; [done|by destruct (Hf key)|done].
Qed.
End KeyedAdmission.

(** Caps two and one: the second admission of a key is refused, and a release called twice
    counts once. *)
Lemma keyed_admission_exact_witness :
  exists s0, create (K := string) 2 1 = Ok s0 /\
    let s := foldl apply_op s0 [Acquire "a"; Acquire "a"; Acquire "b"; Release 0; Release 0] in
    live s = ["b"] /\ active s = 1%Z /\ activeByKey s !! "a" = None.
Proof.
  eexists. split; [reflexivity|]. cbn zeta.
  pose proof (keyed_admission_exact (K := string) 2 1 _ [Acquire "a"; Acquire "a"; Acquire "b"; Release 0; Release 0] eq_refl) as (H1 & _).
  split; [vm_compute; reflexivity|]. split; [rewrite H1; vm_compute; reflexivity|vm_compute; reflexivity].
Defined.
End KeyedAdmission.

(** ** [KeyedSerialQueue] *)
Module KeyedSerialQueue.
Section KeyedSerialQueue.
Context {K : Type} `{Countable K}.

Inductive phase := Queued | Running | Done.
(** A call of [run]: the tail it found ([None]: a resolved promise) and how far it is. *)
Record call := { c_key : K; c_previous : option nat; c_phase : phase }.
(** [tails] names the call whose [settled] promise is the key's tail. *)
Record queue := { tails : gmap K nat; calls : list call }.
Definition empty_queue : queue := {| tails := ∅; calls := [] |}.

(** [run]: chain on the key's tail and become it. *)
Definition run (q : queue) (key : K) : queue :=
  {| tails := <[key := length (calls q)]> (tails q);
     calls := calls q ++ [{| c_key := key; c_previous := tails q !! key; c_phase := Queued |}] |}.
Definition phase_of (q : queue) (i : nat) : option phase := c_phase <$> calls q !! i.
Definition set_phase (q : queue) (i : nat) (ph : phase) : queue :=
  {| tails := tails q;
     calls := alter (fun c => {| c_key := c_key c; c_previous := c_previous c; c_phase := ph |}) i (calls q) |}.
(** The completion handler: remove the tail if it is still this call's. *)
Definition forget (q : queue) (i : nat) (key : K) : queue :=
  if decide (tails q !! key = Some i) then {| tails := delete key (tails q); calls := calls q |} else q.

Inductive step : queue -> queue -> Prop :=
| step_run q key : step q (run q key)
| step_start q i c : calls q !! i = Some c -> c_phase c = Queued ->
    (forall j, c_previous c = Some j -> phase_of q j = Some Done) -> step q (set_phase q i Running)
| step_settle q i : phase_of q i = Some Running -> step q (set_phase q i Done)
| step_forget q i c : calls q !! i = Some c -> c_phase c = Done -> step q (forget q i (c_key c)).

(** [i] is the last call of [key] before [n]. *)
Definition last_before (q : queue) (key : K) (n i : nat) : Prop :=
  i < n /\ (exists c, calls q !! i = Some c /\ c_key c = key) /\
  forall j c, i < j < n -> calls q !! j = Some c -> c_key c <> key.
(** Every call of [key] before [n] has settled. *)
Definition all_done (q : queue) (key : K) (n : nat) : Prop :=
  forall j c, j < n -> calls q !! j = Some c -> c_key c = key -> c_phase c = Done.

(** What a tail, or its absence, says of the calls of its key before [n]. *)
Definition tail_ok (q : queue) (key : K) (n : nat) (t : option nat) : Prop :=
  match t with Some i => last_before q key n i | None => all_done q key n end.
Record inv (q : queue) : Prop := {
  q_tail key : tail_ok q key (length (calls q)) (tails q !! key);
  q_prev n c : calls q !! n = Some c -> tail_ok q (c_key c) n (c_previous c);
  q_started n c i : calls q !! n = Some c -> c_phase c <> Queued -> c_previous c = Some i -> phase_of q i = Some Done;
}.

(** Calls only move forward and keep their keys. *)
Definition later (q q' : queue) : Prop :=
  forall i c', i < length (calls q) -> calls q' !! i = Some c' -> exists c, calls q !! i = Some c /\
    c_key c' = c_key c /\ c_previous c' = c_previous c /\ (c_phase c = Done -> c_phase c' = Done).

Lemma later_tail q q' key n t : later q q' -> length (calls q) <= length (calls q') -> n <= length (calls q) ->
  tail_ok q key n t -> tail_ok q' key n t.
Proof.
  intros Hl Hlen Hn. destruct t as [i|]; cbn.
  - intros (Hi & (c & Hc & Hk) & Hlast). split; [done|]. split.
    + destruct (lookup_lt_is_Some_2 (calls q') i) as [c' Hc']; [lia|]. exists c'. split; [done|].
      destruct (Hl i c') as (c0 & ? & -> & _); [lia|done|]. congruence.
    + intros j c' Hj Hc'. destruct (Hl j c') as (c0 & ? & -> & _); [lia|done|]. by apply (Hlast j).
  - intros Hd j c' Hj Hc' Hk. destruct (Hl j c') as (c0 & Hc0 & Hk0 & _ & Hdone); [lia|done|]. apply Hdone, (Hd j c0); [done|done|congruence].
Qed.

Lemma extend_tail q key n t c : calls q !! n = Some c -> c_key c <> key -> tail_ok q key n t -> tail_ok q key (S n) t.
Proof.
  intros Hc Hk. destruct t as [i|]; cbn.
  - intros (Hi & He & Hlast). split; [lia|]. split; [done|]. intros j c' Hj Hc'. destruct (decide (j = n)) as [->|]; [congruence|]. apply (Hlast j); [lia|done].
  - intros Hd j c' Hj Hc' Hk'. destruct (decide (j = n)) as [->|]; [congruence|]. apply (Hd j); [lia|done|done].
Qed.

(** A call that has started comes after the settled calls of its key. *)
Lemma started_last q n c : inv q -> calls q !! n = Some c -> c_phase c <> Queued -> all_done q (c_key c) n.
Proof.
  intros Hq. revert c. induction n as [n IH] using lt_wf_ind. intros c Hc Hp. pose proof (q_prev _ Hq _ _ Hc) as Ht.
  destruct (c_previous c) as [i|] eqn:Ei; [|exact Ht]. destruct Ht as (Hi & (ci & Hci & Hk) & Hlast).
  pose proof (q_started _ Hq _ _ _ Hc Hp Ei) as Hd. unfold phase_of in Hd. rewrite Hci in Hd. injection Hd as Hd.
  intros j cj Hj Hcj Hkj. destruct (lt_eq_lt_dec j i) as [[Hlt| ->]|Hgt]; [|congruence|by destruct (Hlast j cj)].
  apply (IH i Hi ci Hci) with (j := j); [congruence|done|done|congruence].
Qed.

Lemma set_phase_later q i c ph : calls q !! i = Some c -> c_phase c <> Done \/ ph = Done ->
  later q (set_phase q i ph) /\ length (calls (set_phase q i ph)) = length (calls q).
Proof.
  intros Hc Hp. split; [|by cbn; rewrite length_alter]. intros j c' Hj. cbn. destruct (decide (i = j)) as [<-|Hne].
  - rewrite list_lookup_alter_eq, Hc. intros [= <-]. exists c. cbn. split_and!; [done|done|done|]. intros ?. by destruct Hp.
  - rewrite list_lookup_alter_ne by done. intros ?. by exists c'.
Qed.
Lemma later_done q q' i : later q q' -> length (calls q) <= length (calls q') -> phase_of q i = Some Done -> phase_of q' i = Some Done.
Proof.
  unfold phase_of. intros Hl Hlen Hd. destruct (calls q !! i) as [c|] eqn:Hc; [|done]. injection Hd as Hd.
  assert (Hi := lookup_lt_Some _ _ _ Hc). destruct (lookup_lt_is_Some_2 (calls q') i) as [c' Hc']; [lia|].
  destruct (Hl i c' Hi Hc') as (c0 & ? & _ & _ & Hd'). rewrite Hc'. cbn. rewrite Hd'; [done|congruence].
Qed.

(** A change of one call's phase that the tail before it allows. *)
Lemma set_phase_inv q i c ph : inv q -> calls q !! i = Some c -> c_phase c <> Done \/ ph = Done ->
  (forall j, c_previous c = Some j -> phase_of q j = Some Done) -> inv (set_phase q i ph).
Proof.
  intros Hq Hc Hp Hprev. destruct (set_phase_later q i c ph Hc Hp) as [Hl Hlen]. split.
  - intros key. rewrite Hlen. apply (later_tail q); [done|lia|lia|apply Hq].
  - intros n c' Hc'. assert (Hn := lookup_lt_Some _ _ _ Hc'). destruct (Hl n c') as (c0 & Hc0 & -> & -> & _); [lia|done|].
    apply (later_tail q); [done|lia|lia|by apply Hq].
  - intros n c' j Hc' Hph Hj. apply (later_done q); [done|lia|]. cbn in Hc'. destruct (decide (i = n)) as [<-|Hne].
    + rewrite list_lookup_alter_eq, Hc in Hc'. injection Hc' as <-. by apply Hprev.
    + rewrite list_lookup_alter_ne in Hc' by done. by apply (q_started _ Hq n c').
Qed.

Lemma run_later q key : later q (run q key).
Proof. intros i c' Hi. cbn. rewrite lookup_app_l by done. intros ?. by exists c'. Qed.

Lemma run_inv q key : inv q -> inv (run q key).
Proof.
  intros Hq. assert (Hlen : length (calls (run q key)) = S (length (calls q))) by (cbn; rewrite length_app; cbn; lia).
  assert (Hnew : calls (run q key) !! length (calls q) = Some {| c_key := key; c_previous := tails q !! key; c_phase := Queued |}).
  { cbn. by rewrite lookup_app_r, Nat.sub_diag by done. }
  assert (Htail : forall k n t, n <= length (calls q) -> tail_ok q k n t -> tail_ok (run q key) k n t).
  { intros k n t Hn. apply later_tail; [apply run_later|lia|done]. }
  split.
  - intros k. rewrite Hlen. cbn [tails run]. destruct (decide (key = k)) as [<-|Hne].
    + rewrite lookup_insert_eq. cbn [tail_ok]. split; [lia|]. split; [by eexists|]. intros; lia.
    + rewrite lookup_insert_ne by done. apply (extend_tail _ _ _ _ _ Hnew); [done|]. apply Htail; [done|apply Hq].
  - intros n c Hc. assert (Hn := lookup_lt_Some _ _ _ Hc). destruct (decide (n = length (calls q))) as [->|].
    + rewrite Hnew in Hc. injection Hc as <-. cbn [c_key c_previous]. apply Htail; [done|apply Hq].
    + cbn in Hc. rewrite lookup_app_l in Hc by lia. apply Htail; [lia|by apply Hq].
  - intros n c i Hc Hp Hi. assert (Hn := lookup_lt_Some _ _ _ Hc). destruct (decide (n = length (calls q))) as [->|].
    + rewrite Hnew in Hc. by injection Hc as <-.
    + cbn in Hc. rewrite lookup_app_l in Hc by lia. apply (later_done q); [apply run_later|lia|by apply (q_started _ Hq n c)].
Qed.

Lemma forget_inv q i c : inv q -> calls q !! i = Some c -> c_phase c = Done -> inv (forget q i (c_key c)).
Proof.
  intros Hq Hc Hd. unfold forget. destruct (decide _) as [Ht|]; [|done]. split; cbn [calls tails]; [|apply Hq|apply Hq].
  intros k. destruct (decide (c_key c = k)) as [<-|Hne]; [|rewrite lookup_delete_ne by done; apply Hq].
  rewrite lookup_delete_eq. cbn. pose proof (q_tail _ Hq (c_key c)) as Hlast. rewrite Ht in Hlast. destruct Hlast as (_ & _ & Hlast).
  intros j cj Hj Hcj Hk. cbn [calls] in Hj, Hcj. destruct (lt_eq_lt_dec j i) as [[Hlt| ->]|Hgt]; [|congruence|by destruct (Hlast j cj)].
  by apply (started_last q i c Hq Hc) with (j := j); [rewrite Hd| | |].
Qed.

Lemma step_keeps q q' : inv q -> step q q' -> inv q'.
Proof.
  intros Hq Hs. destruct Hs as [q key|q i c Hc Hp Hprev|q i Hp|q i c Hc Hd].
  - by apply run_inv.
  - apply (set_phase_inv _ _ c); [done|done|left; congruence|done].
  - unfold phase_of in Hp. destruct (calls q !! i) as [c|] eqn:Hc; [|done]. injection Hp as Hp.
    apply (set_phase_inv _ _ c); [done|done|by right|]. intros j. apply (q_started _ Hq i c j Hc). congruence.
  - by apply forget_inv.
Qed.

Lemma reachable_inv q : rtc step empty_queue q -> inv q.
Proof.
  intros Hr. assert (H0 : inv empty_queue). { split; [|done|done]. intros key. cbn. by rewrite lookup_empty. }
  revert H0. induction Hr as [|q1 q2 q3 Hs _ IH]; [done|]. intros ?. by apply IH, (step_keeps q1).
Qed.

(** The keyed serial queue runs the work of a key one call at a time, in the order of
    the calls, however the calls of all keys interleave and whenever the completion
    handlers run: a call has started only if every earlier call of its key has settled, a
    key without a tail has no open call, and a queued call whose earlier calls have
    settled can start. *)
Theorem serial_queue_in_order q : rtc step empty_queue q ->
  (forall i j ci cj, calls q !! i = Some ci -> calls q !! j = Some cj -> c_key ci = c_key cj -> i < j ->
     c_phase cj <> Queued -> c_phase ci = Done) /\
  (forall j c, calls q !! j = Some c -> tails q !! c_key c = None -> c_phase c = Done) /\
  (forall j c, calls q !! j = Some c -> c_phase c = Queued ->
     (forall i ci, calls q !! i = Some ci -> c_key ci = c_key c -> i < j -> c_phase ci = Done) ->
     step q (set_phase q j Running)).
Proof.
  intros Hq%reachable_inv. split_and!.
  - intros i j ci cj Hi Hj Hk Hlt Hp. by apply (started_last q j cj Hq Hj Hp i).
  - intros j c Hj Ht. pose proof (q_tail _ Hq (c_key c)) as Hd. rewrite Ht in Hd. apply (Hd j); [by eapply lookup_lt_Some|done|done].
  - intros j c Hj Hp Hall. apply (step_start q j c Hj Hp). intros i Hi. pose proof (q_prev _ Hq _ _ Hj) as Ht. rewrite Hi in Ht.
    destruct Ht as (Hlt & (ci & Hci & Hk) & _). unfold phase_of. rewrite Hci. cbn. by rewrite (Hall i ci).
Qed.
End KeyedSerialQueue.

(** Two calls of one key: the second starts when the first has settled, and the first
    call's completion handler leaves the tail of the second. *)
Definition sample_queue : queue (K := string) :=
  set_phase (forget (set_phase (set_phase (run (run empty_queue "k") "k") 0 Running) 0 Done) 0 "k") 1 Running.
Lemma sample_queue_steps : rtc step empty_queue sample_queue.
Proof.
  eapply rtc_l; [apply step_run|]. eapply rtc_l; [apply step_run|].
  eapply rtc_l; [by eapply (step_start _ 0)|]. eapply rtc_l; [by apply (step_settle _ 0)|].
  eapply rtc_l; [by eapply (step_forget _ 0)|]. eapply rtc_l; [|reflexivity].
  eapply (step_start _ 1); [reflexivity|reflexivity|]. intros j [= <-]. reflexivity.
Qed.
Lemma serial_queue_in_order_witness : tails sample_queue !! "k" = Some 1 /\
  forall c, calls sample_queue !! 0 = Some c -> c_phase c = Done.
Proof.
  split; [vm_compute; reflexivity|]. intros c Hc.
  destruct (serial_queue_in_order sample_queue sample_queue_steps) as (H1 & _).
  apply (H1 0 1 c {| c_key := "k"; c_previous := Some 0; c_phase := Running |}); [done|reflexivity| |lia|done].
  vm_compute in Hc. injection Hc as <-. reflexivity.
Defined.
End KeyedSerialQueue.
