(* ===== verification/RateLimit.v ===== *)
(** * Sliding-window budgets

    [packages/core/src/rateLimit.ts]: a budget of [limit] admissions a key in any window of
    [windowMs], with refunds, lazy expiry and a periodic sweep, and its equivalence with
    a log of admissions that forgets nothing.  Times are whole milliseconds. *)

From Stdlib Require Import ZArith Lia.
From stdpp Require Import gmap strings sorting.
From S2P Require Import Prelude.

Section RateLimit.
Context {K : Type} `{Countable K}.

(** A [BudgetEntry]: its identity is the number of its admission. *)
Notation BudgetEntry := (nat * Z)%type.
Record SlidingWindowBudgetOptions := { limit : Z; windowMs : Z }.
(** The closure's variables, and [refundable] of each admission handed out. *)
Record SlidingWindowBudget := {
  options : SlidingWindowBudgetOptions;
  recentByKey : gmap K (list BudgetEntry);
  lastObservedByKey : gmap K Z;
  lastSweptAt : option Z;
  admissions : list (K * bool);
}.

Definition createSlidingWindowBudget (o : SlidingWindowBudgetOptions) : result string SlidingWindowBudget :=
  if (limit o <? 1)%Z then Err "Sliding-window limit must be a positive integer"
  else if (windowMs o <=? 0)%Z then Err "Sliding-window duration must be positive"
  else Ok {| options := o; recentByKey := ∅; lastObservedByKey := ∅; lastSweptAt := None; admissions := [] |}.

(** An entry still counts at [now]. *)
Definition fresh (w now : Z) (e : BudgetEntry) : bool := (now - e.2 <? w)%Z.
Definition all_expired (w now : Z) (entries : list BudgetEntry) : bool := forallb (fun e => negb (fresh w now e)) entries.

(** The sweep deletes the keys all of whose entries have expired. *)
Definition swept (b : SlidingWindowBudget) (now : Z) (key : K) : bool :=
  match recentByKey b !! key with Some entries => all_expired (windowMs (options b)) now entries | None => false end.
(** It runs at most once a window. *)
Definition sweep (b : SlidingWindowBudget) (now : Z) : SlidingWindowBudget :=
  let w := windowMs (options b) in
  let due := match lastSweptAt b with None => true | Some at_ => (w <=? now - at_)%Z end in
  if due
  then {| options := options b;
          recentByKey := filter (fun x => swept b now x.1 = false) (recentByKey b);
          lastObservedByKey := filter (fun x => swept b now x.1 = false) (lastObservedByKey b);
          lastSweptAt := Some now;
          admissions := admissions b |}
  else b.

(** [admit] at [now]; the admission is the last of [admissions]. *)
Definition admit_key (b : SlidingWindowBudget) (key : K) (now : Z) : SlidingWindowBudget * bool :=
  let w := windowMs (options b) in
  let clockRolledBack := match lastObservedByKey b !! key with Some at_ => (now <? at_)%Z | None => false end in
  let b1 :=
    if clockRolledBack
    then {| options := options b; recentByKey := delete key (recentByKey b); lastObservedByKey := lastObservedByKey b;
            lastSweptAt := lastSweptAt b; admissions := admissions b |}
    else b in
  let b2 := sweep b1 now in
  let observed := <[key := now]> (lastObservedByKey b2) in
  let recent := List.filter (fresh w now) (default [] (recentByKey b2 !! key)) in
  if (limit (options b) <=? Z.of_nat (length recent))%Z
  then ({| options := options b; recentByKey := recentByKey b2; lastObservedByKey := observed;
           lastSweptAt := lastSweptAt b2; admissions := admissions b2 |}, false)
  else ({| options := options b; recentByKey := <[key := recent ++ [(length (admissions b2), now)]]> (recentByKey b2);
           lastObservedByKey := observed; lastSweptAt := lastSweptAt b2; admissions := admissions b2 ++ [(key, true)] |}, true).

(** [refund] of the [i]th admission. *)
Definition refund (b : SlidingWindowBudget) (i : nat) : SlidingWindowBudget :=
  match admissions b !! i with
  | Some (key, true) =>
      let admissions' := <[i := (key, false)]> (admissions b) in
      match recentByKey b !! key with
      | None => {| options := options b; recentByKey := recentByKey b; lastObservedByKey := lastObservedByKey b;
                   lastSweptAt := lastSweptAt b; admissions := admissions' |}
      | Some current =>
          let remaining := List.filter (fun e => negb (e.1 =? i)) current in
          if (0 <? length remaining)%nat
          then {| options := options b; recentByKey := <[key := remaining]> (recentByKey b);
                  lastObservedByKey := lastObservedByKey b; lastSweptAt := lastSweptAt b; admissions := admissions' |}
          else {| options := options b; recentByKey := delete key (recentByKey b);
                  lastObservedByKey := delete key (lastObservedByKey b); lastSweptAt := lastSweptAt b; admissions := admissions' |}
      end
  | _ => b
  end.

(** ** The specification: a log of the admissions not refunded *)

#[local] Notation Log := (list (K * BudgetEntry)).
Definition of_key (key : K) (log : Log) : list BudgetEntry := (filter (fun x => x.1 = key) log).*2.
Definition log_admit (o : SlidingWindowBudgetOptions) (log : Log) (id : nat) (key : K) (now : Z) : Log * bool :=
  if (Z.of_nat (length (List.filter (fresh (windowMs o) now) (of_key key log))) <? limit o)%Z
  then (log ++ [(key, (id, now))], true) else (log, false).
Definition log_refund (log : Log) (i : nat) : Log := filter (fun x => x.2.1 <> i) log.

Inductive request := Admit (key : K) (now : Z) | Refund (i : nat).

(** The answers of the budget and those of the log to a sequence of requests. *)
Definition serve (b : SlidingWindowBudget) (r : request) : SlidingWindowBudget * option bool :=
  match r with
  | Admit key now => let (b', ok) := admit_key b key now in (b', Some ok)
  | Refund i => (refund b i, None)
  end.
Fixpoint serve_all (b : SlidingWindowBudget) (rs : list request) : SlidingWindowBudget * list (option bool) :=
  match rs with
  | [] => (b, [])
  | r :: rs' => let (b1, a) := serve b r in let (b2, l) := serve_all b1 rs' in (b2, a :: l)
  end.
Fixpoint log_all (o : SlidingWindowBudgetOptions) (log : Log) (id : nat) (rs : list request) : Log * list (option bool) :=
  match rs with
  | [] => (log, [])
  | Admit key now :: rs' =>
      let (log1, ok) := log_admit o log id key now in
      let (log2, l) := log_all o log1 (if ok then S id else id) rs' in (log2, Some ok :: l)
  | Refund i :: rs' => let (log2, l) := log_all o (log_refund log i) id rs' in (log2, None :: l)
  end.

(** The clock does not go back. *)
Fixpoint clock_from (t : Z) (rs : list request) : Prop :=
  match rs with
  | [] => True
  | Admit _ now :: rs' => (t <= now)%Z /\ clock_from now rs'
  | Refund _ :: rs' => clock_from t rs'
  end.

(** ** Simulation *)

Record sim (b : SlidingWindowBudget) (log : Log) (t : Z) : Prop := {
  s_recent key now : (t <= now)%Z ->
    List.filter (fresh (windowMs (options b)) now) (default [] (recentByKey b !! key)) =
    List.filter (fresh (windowMs (options b)) now) (of_key key log);
  s_observed key at_ : lastObservedByKey b !! key = Some at_ -> (at_ <= t)%Z;
  s_ids key id at_ : (key, (id, at_)) ∈ log -> admissions b !! id = Some (key, true);
}.

Lemma fresh_earlier w now now' e : (now <= now')%Z -> fresh w now' e = true -> fresh w now e = true.
Proof. unfold fresh. rewrite !Z.ltb_lt. lia. Qed.
Lemma expired_later w now now' es : (now <= now')%Z -> all_expired w now es = true -> List.filter (fresh w now') es = [].
Proof.
  intros Hle. unfold all_expired. induction es as [|e es IH]; cbn; [done|]. intros [He Hes]%andb_prop.
  destruct (fresh w now' e) eqn:Ef; [|by apply IH]. by rewrite (fresh_earlier _ _ _ _ Hle Ef) in He.
Qed.
Lemma filter_fresh_twice w now now' es : (now <= now')%Z ->
  List.filter (fresh w now') (List.filter (fresh w now) es) = List.filter (fresh w now') es.
Proof.
  intros Hle. induction es as [|e es IH]; cbn; [done|]. destruct (fresh w now e) eqn:Ef; cbn; [by rewrite IH|].
  destruct (fresh w now' e) eqn:Ef'; [|done]. by rewrite (fresh_earlier _ _ _ _ Hle Ef') in Ef.
Qed.
Lemma filter_swap (f g : BudgetEntry -> bool) es : List.filter f (List.filter g es) = List.filter g (List.filter f es).
Proof. induction es as [|e es IH]; cbn; [done|]. destruct (g e) eqn:Eg, (f e) eqn:Ef; cbn; rewrite ?Eg, ?Ef, ?IH; done. Qed.

Lemma of_key_app key log x : of_key key (log ++ [x]) = of_key key log ++ (if decide (x.1 = key) then [x.2] else []).
Proof. unfold of_key. rewrite filter_app, filter_cons, fmap_app. by destruct (decide (x.1 = key)). Qed.
Lemma of_key_refund key log i : of_key key (log_refund log i) = List.filter (fun e => negb (e.1 =? i)) (of_key key log).
Proof.
  unfold of_key, log_refund. induction log as [|[k [id at_]] log IH]; [done|]. rewrite !filter_cons. cbn.
  destruct (decide (id <> i)) as [Hid|Hid], (decide (k = key)) as [->|Hk]; cbn; rewrite ?decide_True, ?decide_False, ?fmap_cons by done; cbn; rewrite ?IH;
    destruct (Nat.eqb_spec id i); try done; try lia. cbn. f_equal. exact IH.
Qed.
Lemma of_key_elem key log e : e ∈ of_key key log <-> (key, e) ∈ log.
Proof.
  unfold of_key. rewrite list_elem_of_fmap. split.
  - intros ([k e'] & -> & [Hk Hin]%list_elem_of_filter). cbn in *. by subst.
  - intros Hin. exists (key, e). split; [done|]. by apply list_elem_of_filter.
Qed.
Lemma filter_all (f : BudgetEntry -> bool) es : (forall e, e ∈ es -> f e = true) -> List.filter f es = es.
Proof.
  induction es as [|e es IH]; intros Hall; cbn; [done|]. rewrite (Hall e) by by left. f_equal. apply IH. intros; apply Hall; by right.
Qed.

Lemma sweep_sim b log t now : (t <= now)%Z -> sim b log t -> sim (sweep b now) log now /\ admissions (sweep b now) = admissions b.
Proof.
  intros Hle [H1 H2 H3]. unfold sweep.
  assert (Hb : sim b log now). { split; [intros key now' Hn; apply H1; lia| |done]. intros key at_ Hat. apply H2 in Hat. lia. }
  destruct (match lastSweptAt b with None => true | Some at_ => _ end); [|done]. split; [|done]. split; cbn [options recentByKey lastObservedByKey admissions].
  - intros key now' Hn. rewrite <- H1 by lia. rewrite map_lookup_filter. destruct (recentByKey b !! key) as [es|] eqn:Ek; cbn; [|done].
    case_guard as Hs; cbn; [done|]. unfold swept in Hs. rewrite Ek in Hs. symmetry. eapply expired_later; [exact Hn|]. by apply not_false_is_true.
  - intros key at_ [Hat _]%map_lookup_filter_Some. apply H2 in Hat. lia.
  - exact H3.
Qed.

Lemma sweep_options b now : options (sweep b now) = options b.
Proof. unfold sweep. by destruct (match lastSweptAt b with None => true | Some at_ => _ end). Qed.

Lemma admit_sim b log t key now : (t <= now)%Z -> sim b log t ->
  let (b', ok) := admit_key b key now in
  let (log', ok') := log_admit (options b) log (length (admissions b)) key now in
  ok = ok' /\ sim b' log' now /\ options b' = options b /\
  length (admissions b') = (if ok then S (length (admissions b)) else length (admissions b)).
Proof.
  intros Hle Hs. unfold admit_key.
  assert (Hrb : match lastObservedByKey b !! key with Some at_ => (now <? at_)%Z | None => false end = false).
  { destruct (lastObservedByKey b !! key) as [at_|] eqn:Ea; [|done]. apply (s_observed _ _ _ Hs) in Ea. apply Z.ltb_ge. lia. }
  rewrite Hrb. destruct (sweep_sim b log t now Hle Hs) as [[H1 H2 H3] Ha]. rewrite sweep_options in H1. rewrite Ha in *. unfold log_admit.
  rewrite (H1 key now) by lia. set (fr := List.filter _ _). set (b2 := sweep b now) in *.
  destruct (Z.leb_spec (limit (options b)) (Z.of_nat (length fr))) as [Hl|Hl]; destruct (Z.ltb_spec (Z.of_nat (length fr)) (limit (options b))); try lia.
  all: split; [done|]; split; [|split; [done|cbn; rewrite ?length_app; cbn; lia]]; split; cbn [options recentByKey lastObservedByKey admissions].
  all: try (intros key' at_ [[<- <-]|[_ Hat]]%lookup_insert_Some; [lia|by eapply H2]).
  - exact H1.
  - exact H3.
  - intros key' now' Hn. rewrite of_key_app. cbn. destruct (decide (key = key')) as [<-|Hne].
    + rewrite lookup_insert_eq. cbn. rewrite !List.filter_app. unfold fr. by rewrite (filter_fresh_twice _ now now').
    + rewrite lookup_insert_ne, app_nil_r by done. by apply H1.
  - intros key' id at_ [Hin|[= -> -> ->]%list_elem_of_singleton]%elem_of_app; [|by rewrite lookup_app_r, Nat.sub_diag].
    apply lookup_app_l_Some. by eapply H3.
Qed.

Lemma refund_sim b log t i : sim b log t ->
  sim (refund b i) (log_refund log i) t /\ options (refund b i) = options b /\ length (admissions (refund b i)) = length (admissions b).
Proof.
  intros [H1 H2 H3]. unfold refund.
  assert (Hother : forall key, (forall at_, (key, (i, at_)) ∉ log) -> of_key key (log_refund log i) = of_key key log).
  { intros key Hno. rewrite of_key_refund. apply filter_all. intros [id at_] Hin%of_key_elem. cbn. destruct (Nat.eqb_spec id i) as [->|]; [by destruct (Hno at_)|done]. }
  destruct (admissions b !! i) as [[key ok]|] eqn:Ea; [destruct ok|]; cycle 1.
  1,2: split; [|done]; split; [intros key' now Hn; rewrite Hother; [by apply H1|]|done|]; [intros at_ Hin; apply H3 in Hin; congruence|].
  1,2: intros key' id at_ [_ Hin]%list_elem_of_filter; by eapply H3.
  assert (Hids : forall key' id at_, (key', (id, at_)) ∈ log_refund log i -> <[i := (key, false)]> (admissions b) !! id = Some (key', true)).
  { intros key' id at_ [Hid Hin]%list_elem_of_filter. cbn in Hid. rewrite list_lookup_insert_ne by done. by eapply H3. }
  assert (Hmap : forall m' : gmap K (list BudgetEntry),
    default [] (m' !! key) = List.filter (fun e => negb (e.1 =? i)) (default [] (recentByKey b !! key)) ->
    (forall key', key <> key' -> m' !! key' = recentByKey b !! key') -> forall key' now, (t <= now)%Z ->
    List.filter (fresh (windowMs (options b)) now) (default [] (m' !! key')) =
    List.filter (fresh (windowMs (options b)) now) (of_key key' (log_refund log i))).
  { intros m' Hk Ho key' now Hn. destruct (decide (key = key')) as [<-|Hne].
    - by rewrite Hk, of_key_refund, !(filter_swap (fresh _ now)), H1.
    - rewrite Ho, Hother by (done || (intros at_ Hin; apply H3 in Hin; congruence)). by apply H1. }
  destruct (recentByKey b !! key) as [current|] eqn:Er; [destruct (Nat.ltb_spec 0 (length (List.filter (fun e => negb (e.1 =? i)) current))) as [Hl|Hl]|].
  all: split; [|cbn; by rewrite length_insert]; split; cbn [options recentByKey lastObservedByKey admissions]; [apply Hmap| |exact Hids].
  - by rewrite lookup_insert_eq.
  - intros key' Hne. by rewrite lookup_insert_ne.
  - exact H2.
  - rewrite lookup_delete_eq. cbn. destruct (List.filter _ current); [done|cbn in Hl; lia].
  - intros key' Hne. by rewrite lookup_delete_ne.
  - intros key' at_ [_ ?]%lookup_delete_Some. by eapply H2.
  - by rewrite Er.
  - done.
  - exact H2.
Qed.

Lemma serve_sim rs b log t : sim b log t -> clock_from t rs ->
  (serve_all b rs).2 = (log_all (options b) log (length (admissions b)) rs).2.
Proof.
  revert b log t. induction rs as [|[key now|i] rs IH]; intros b log t Hs Hc; cbn; [done| |].
  - destruct Hc as [Hle Hc]. pose proof (admit_sim b log t key now Hle Hs) as Ha. destruct (admit_key b key now) as [b' ok].
    destruct (log_admit _ _ _ _ _) as [log' ok']. destruct Ha as (<- & Hs' & Ho & Hlen). specialize (IH b' log' now Hs' Hc).
    rewrite Ho, Hlen in IH. destruct (serve_all b' rs), (log_all _ log' _ rs). cbn in *. congruence.
  - destruct (refund_sim b log t i Hs) as (Hs' & Ho & Hlen). specialize (IH _ _ t Hs' Hc). rewrite Ho, Hlen in IH.
    destruct (serve_all (refund b i) rs), (log_all _ (log_refund log i) _ rs). cbn in *. congruence.
Qed.

(** ** The bound *)

(** The entries of a key in the window that ends at [at_]. *)
Definition in_window (w at_ : Z) (e : BudgetEntry) : bool := ((at_ - w <? e.2) && (e.2 <=? at_))%Z.
Definition used (w at_ : Z) (key : K) (log : Log) : nat := length (List.filter (in_window w at_) (of_key key log)).
Record capped (o : SlidingWindowBudgetOptions) (log : Log) (t : Z) : Prop := {
  c_past key id at_ : (key, (id, at_)) ∈ log -> (at_ <= t)%Z;
  c_cap key at_ : (Z.of_nat (used (windowMs o) at_ key log) <= limit o)%Z;
}.

Lemma filter_le (f g : BudgetEntry -> bool) es : (forall e, e ∈ es -> f e = true -> g e = true) ->
  length (List.filter f es) <= length (List.filter g es).
Proof.
  induction es as [|e es IH]; intros Hfg; cbn; [done|]. assert (IH' := IH ltac:(intros; apply Hfg; [by right|done])).
  destruct (f e) eqn:Ef; [rewrite (Hfg e) by (done || by left); cbn; lia|]. destruct (g e); cbn; lia.
Qed.

Lemma admit_capped o log t id key now : (t <= now)%Z -> capped o log t -> capped o (log_admit o log id key now).1 now.
Proof.
  intros Hle [H1 H2]. unfold log_admit. destruct (Z.ltb_spec (Z.of_nat (length (List.filter (fresh (windowMs o) now) (of_key key log)))) (limit o)) as [Hl|Hl].
  2:{ split; [|done]. intros key' id' at_ Hin. apply H1 in Hin. lia. }
  split.
  - intros key' id' at_ [Hin|[= -> -> ->]%list_elem_of_singleton]%elem_of_app; [apply H1 in Hin|]; lia.
  - intros key' at_. unfold used. cbn [fst]. rewrite of_key_app, List.filter_app, length_app. cbn [fst snd].
    destruct (decide (key = key')) as [<-|Hne]; [|cbn; rewrite Nat.add_0_r; apply H2].
    cbn [List.filter]. destruct (in_window (windowMs o) at_ (id, now)) eqn:Ew; cbn [length]; [|rewrite Nat.add_0_r; apply H2].
    enough (length (List.filter (in_window (windowMs o) at_) (of_key key log)) <= length (List.filter (fresh (windowMs o) now) (of_key key log))) by lia.
    apply filter_le. intros [id' ts] Hin%of_key_elem%H1. unfold in_window, fresh in *. cbn in *. rewrite !andb_true_iff, !Z.ltb_lt, !Z.leb_le in *. lia.
Qed.

Lemma refund_capped o log t i : capped o log t -> capped o (log_refund log i) t.
Proof.
  intros [H1 H2]. split; [by intros key id at_ [_ Hin]%list_elem_of_filter; eapply H1|]. intros key at_. specialize (H2 key at_). unfold used in *.
  rewrite of_key_refund, filter_swap. pose proof (List.filter_length_le (fun e => negb (e.1 =? i)) (List.filter (in_window (windowMs o) at_) (of_key key log))). lia.
Qed.

Lemma log_capped o rs log id t : clock_from t rs -> capped o log t -> exists t', capped o (log_all o log id rs).1 t'.
Proof.
  revert log id t. induction rs as [|[key now|i] rs IH]; intros log id t Hc Hl; cbn.
  - by exists t.
  - destruct Hc as [Hle Hc]. pose proof (admit_capped o log t id key now Hle Hl) as Hl'. destruct (log_admit o log id key now) as [log' ok].
    destruct (IH log' (if ok then S id else id) now Hc Hl') as [t' Ht]. exists t'. by destruct (log_all _ _ _ _).
  - destruct (IH (log_refund log i) id t Hc (refund_capped _ _ _ _ Hl)) as [t' Ht]. exists t'. by destruct (log_all _ _ _ _).
Qed.

(** C35: While the clock does not go back, the budget answers every sequence of requests as
    the log of all admissions not refunded does, although it drops expired entries and
    whole keys; so in any window of [windowMs] at most [limit] admissions of a key that
    were not refunded fall, and a request is refused only if that many fall in the window
    that ends with it. *)
Theorem budget_is_sliding_window o b t rs : createSlidingWindowBudget o = Ok b -> clock_from t rs ->
  (serve_all b rs).2 = (log_all o [] 0 rs).2 /\
  forall key at_, (Z.of_nat (used (windowMs o) at_ key (log_all o [] 0 rs).1) <= limit o)%Z.
Proof.
  unfold createSlidingWindowBudget. destruct (Z.ltb_spec (limit o) 1); [done|]. destruct (Z.leb_spec (windowMs o) 0); [done|].
  intros [= <-] Hc. split.
  - set (b := Build_SlidingWindowBudget _ _ _ _ _). apply (serve_sim rs b [] t); [|done]. split; cbn; [done|by intros key at_; rewrite lookup_empty|by intros key id at_ ?%not_elem_of_nil].
  - destruct (log_capped o rs [] 0 t Hc) as [t' Ht]; [|apply Ht]. split; [by intros key id at_ ?%not_elem_of_nil|]. intros key at_. cbn. lia.
Qed.

(** A key whose clock went back starts its budget over. *)
Lemma rollback_starts_over b key now at_ : lastObservedByKey b !! key = Some at_ -> (now < at_)%Z -> (1 <= limit (options b))%Z ->
  (admit_key b key now).2 = true.
Proof.
  intros Ho Hlt Hl. unfold admit_key. rewrite Ho. destruct (Z.ltb_spec now at_); [|lia]. cbn zeta. unfold sweep. cbn [lastSweptAt options].
  destruct (match lastSweptAt b with None => true | Some at_ => _ end); cbn [recentByKey]; rewrite ?map_lookup_filter, lookup_delete_eq; cbn;
    destruct (Z.leb_spec (limit (options b)) (Z.of_nat 0)); done || lia.
Qed.
End RateLimit.

(** Two admissions in ten milliseconds: the third waits for the window, a refund frees one. *)
Definition sample_requests : list (request (K := string)) :=
  [Admit "a" 0; Admit "a" 3; Admit "a" 9; Refund 1; Admit "a" 9; Admit "a" 9; Admit "b" 9; Admit "a" 10].
Lemma budget_is_sliding_window_witness :
  exists b, createSlidingWindowBudget {| limit := 2; windowMs := 10 |} = Ok b /\
  (serve_all b sample_requests).2 = [Some true; Some true; Some false; None; Some true; Some false; Some true; Some true] /\
  (Z.of_nat (used 10 10 "a" (log_all {| limit := 2; windowMs := 10 |} [] 0 sample_requests).1) <= 2)%Z.
Proof.
  eexists. split; [reflexivity|].
  destruct (budget_is_sliding_window {| limit := 2; windowMs := 10 |} _ 0 sample_requests eq_refl) as [H1 H2]; [cbn; lia|].
  split; [rewrite H1; vm_compute; reflexivity|apply (H2 "a")].
Defined.
