(* ===== verification/Batching.v ===== *)
(** * Batching by weight

    [packages/core/src/batching.ts]: a list cut into batches of bounded size and weight, in
    order, greedily; an item too heavy for any batch gets one of its own. *)

From Stdlib Require Import ZArith Lia.
From stdpp Require Import list strings.
From S2P Require Import Prelude.

Section Batching.
Context {T : Type}.

(** [maxItems] is absent for no bound. *)
Record BatchOptions := { weight : T -> Z; maxWeight : Z; maxItems : option Z; overhead : option Z }.

Definition start_weight (o : BatchOptions) : Z := default 0%Z (overhead o).
(** The batch is closed before an item of this weight. *)
Definition closes (o : BatchOptions) (batch : list T) (w itemWeight : Z) : bool :=
  (0 <? length batch) &&
  (match maxItems o with Some n => (n <=? Z.of_nat (length batch))%Z | None => false end ||
   (maxWeight o <? w + itemWeight)%Z).

(** The loop: the closed batches, the open one and its weight. *)
Fixpoint batch_loop (o : BatchOptions) (items : list T) (batches : list (list T)) (batch : list T) (w : Z) : list (list T) :=
  match items with
  | [] => if 0 <? length batch then batches ++ [batch] else batches
  | item :: items' =>
      let itemWeight := weight o item in
      if closes o batch w itemWeight
      then batch_loop o items' (batches ++ [batch]) [item] (start_weight o + itemWeight)
      else batch_loop o items' batches (batch ++ [item]) (w + itemWeight)
  end.
Definition batchByWeight (items : list T) (o : BatchOptions) : list (list T) :=
  batch_loop o items [] [] (start_weight o).

(** ** What the batches satisfy *)

Definition total (o : BatchOptions) (batch : list T) : Z := (start_weight o + foldr Z.add 0 (weight o <$> batch))%Z.
(** A batch is one item, or within the bounds. *)
Definition within (o : BatchOptions) (batch : list T) : Prop :=
  batch <> [] /\
  (length batch = 1 \/
   ((total o batch <= maxWeight o)%Z /\ forall n, maxItems o = Some n -> (Z.of_nat (length batch) <= n)%Z)).
(** The first item of the next batch did not fit. *)
Definition no_room (o : BatchOptions) (batch next : list T) : Prop :=
  exists item rest, next = item :: rest /\ closes o batch (total o batch) (weight o item) = true.
Fixpoint greedy (o : BatchOptions) (batches : list (list T)) : Prop :=
  match batches with
  | b1 :: (b2 :: _) as rest => no_room o b1 b2 /\ greedy o rest
  | _ => True
  end.

Lemma total_snoc o batch item : total o (batch ++ [item]) = (total o batch + weight o item)%Z.
Proof.
  unfold total. rewrite fmap_app. cbn. induction (weight o <$> batch) as [|w ws IH]; cbn; lia.
Qed.

Lemma greedy_snoc o bs b1 b2 : greedy o (bs ++ [b1]) -> no_room o b1 b2 -> greedy o ((bs ++ [b1]) ++ [b2]).
Proof.
  induction bs as [|b bs IH]; cbn; [by intros _|]. intros Hg Hn. destruct bs as [|b' bs]; cbn in *; [tauto|].
  destruct Hg as [? Hg]. split; [done|]. by apply IH.
Qed.
(** The open batch may grow at its end. *)
Lemma greedy_grow o bs b item : b <> [] -> greedy o (bs ++ [b]) -> greedy o (bs ++ [b ++ [item]]).
Proof.
  intros Hb. induction bs as [|b1 bs IH]; cbn; [done|]. destruct bs as [|b2 bs]; cbn in *.
  - intros [(i & rest & -> & ?) _]. split; [|done]. by exists i, (rest ++ [item]).
  - intros [? Hg]. split; [done|]. by apply IH.
Qed.

Lemma within_grow o batch item : closes o batch (total o batch) (weight o item) = false -> batch <> [] -> within o (batch ++ [item]).
Proof.
  intros Hc Hb. split; [by destruct batch|]. right. unfold closes in Hc. destruct batch as [|x batch]; [done|]. cbn [length Nat.ltb Nat.leb andb] in Hc.
  apply orb_false_iff in Hc as [Hn Hw]. rewrite total_snoc, length_app. apply Z.ltb_ge in Hw. split; [lia|]. intros n Hmax. rewrite Hmax in Hn.
  apply Z.leb_gt in Hn. cbn in *. lia.
Qed.

Lemma batch_loop_spec o items batches batch : Forall (within o) batches -> (batch <> [] -> within o batch) ->
  (batch <> [] -> greedy o (batches ++ [batch])) -> (batch = [] -> batches = []) ->
  let out := batch_loop o items batches batch (total o batch) in
  concat out = concat batches ++ batch ++ items /\ Forall (within o) out /\ greedy o out.
Proof.
  revert batches batch. induction items as [|item items IH]; intros batches batch Hb Hw Hg He; cbn zeta.
  - cbn. rewrite app_nil_r. destruct batch as [|x batch]; cbn.
    + rewrite He by done. by rewrite app_nil_r.
    + rewrite concat_app. cbn. rewrite app_nil_r. split; [done|]. split; [|by apply Hg]. apply Forall_app. split; [done|]. constructor; [by apply Hw|done].
  - cbn [batch_loop]. destruct (closes o batch (total o batch) (weight o item)) eqn:Ec.
    + assert (Hne : batch <> []) by (intros ->; done).
      replace (start_weight o + weight o item)%Z with (total o [item]) by (unfold total; cbn; lia).
      destruct (IH (batches ++ [batch]) [item]) as (H1 & H2 & H3).
      * apply Forall_app. split; [done|]. constructor; [by apply Hw|done].
      * intros _. split; [done|by left].
      * intros _. apply greedy_snoc; [by apply Hg|]. by exists item, [].
      * done.
      * split; [|done]. rewrite H1, concat_app. cbn. by rewrite app_nil_r, <- app_assoc.
    + rewrite <- total_snoc. destruct (IH batches (batch ++ [item])) as (H1 & H2 & H3).
      * done.
      * intros _. destruct batch as [|x batch]; [split; [done|by left]|by apply within_grow].
      * intros _. destruct batch as [|x batch]; [by rewrite (He eq_refl)|]. apply greedy_grow; [done|by apply Hg].
      * by destruct batch.
      * split; [|done]. rewrite H1. by rewrite <- !app_assoc.
Qed.

(** The batches in order are the items; none is empty; each is within the weight and
    size bounds unless it is one item; and a batch is closed only when the item that
    follows it did not fit. *)
Theorem batch_by_weight_spec items o :
  concat (batchByWeight items o) = items /\ Forall (within o) (batchByWeight items o) /\ greedy o (batchByWeight items o).
Proof.
  unfold batchByWeight. replace (start_weight o) with (total o []) by (unfold total; cbn; lia).
  destruct (batch_loop_spec o items [] []) as (H1 & H2 & H3); done.
Qed.
End Batching.
