(* ===== verification/Saga.v ===== *)
(** * Sagas

    [packages/core/src/saga.ts]: a sequence of steps over several resources; when one fails
    the completed ones are compensated in reverse and the failure is rethrown.  The state
    the steps act on is a parameter; [SagaStepLaws] is what a step owes for the sequence
    to be atomic, and [compensableWrite] is shown to pay it. *)

From Stdlib Require Import ZArith Lia.
From stdpp Require Import gmap strings.
From S2P Require Import Prelude Concurrency.

(** What the observer is told: tags by field (their values, flags and durations, are not
    represented), and failures of compensations. *)
Inductive observation := Tag (field : string) | CompensationError (step : string).

Section Saga.
Context {S E : Type}.

(** An asynchronous action: its effect and whether it threw. *)
#[local] Notation action := (S -> S * result E unit).
Record SagaStep := { do_ : action; compensate_ : option action }.
#[local] Notation named_step := (string * SagaStep)%type.
Record outcome := { o_state : S; o_seen : list observation; o_result : result E unit }.

(** [Saga.compensate]: the last completed first; a failure is reported and passed over. *)
Fixpoint compensate (completed : list (string * action)) (s : S) : S * list observation :=
  match completed with
  | [] => (s, [])
  | (name, undo) :: earlier =>
      let (s1, r) := undo s in
      let seen := match r with
        | Ok _ => [Tag (name +:+ "_compensated")]
        | Err _ => [Tag (name +:+ "_compensation_failed"); CompensationError name]
        end in
      let (s2, seen') := compensate earlier s1 in (s2, seen ++ seen')
  end.

(** The loop of [Saga.run]; [completed] holds the latest first. *)
Fixpoint run_steps (steps : list named_step) (completed : list (string * action)) (s : S) : outcome :=
  match steps with
  | [] => {| o_state := s; o_seen := []; o_result := Ok tt |}
  | (name, step) :: steps' =>
      match do_ step s with
      | (s1, Ok _) =>
          let completed' := match compensate_ step with Some undo => (name, undo) :: completed | None => completed end in
          let out := run_steps steps' completed' s1 in
          {| o_state := o_state out; o_seen := [Tag (name +:+ "_succeeded"); Tag (name +:+ "_ms")] ++ o_seen out; o_result := o_result out |}
      | (s1, Err error) =>
          let (s2, seen) := compensate completed s1 in
          {| o_state := s2; o_seen := [Tag (name +:+ "_failed"); Tag (name +:+ "_ms")] ++ seen; o_result := Err error |}
      end
  end.
Definition saga_run (steps : list named_step) (s : S) : outcome := run_steps steps [] s.

(** ** [compensableWrite] *)

(** The writes take effect in the order [order], each when its turn comes; the results are
    kept by position. *)
Fixpoint settle_all (writes : list action) (order : list nat) (s : S) (results : list (option (result E unit))) : S * list (option (result E unit)) :=
  match order with
  | [] => (s, results)
  | i :: order' =>
      match (writes !! i : option action) with
      | None => settle_all writes order' s results
      | Some w => let (s1, r) := w s in settle_all writes order' s1 (<[i := Some r]> results)
      end
  end.
(** The first rejection in input order. *)
Definition rejection (r : option (result E unit)) : option E := match r with Some (Err e) => Some e | _ => None end.
Definition first_failed (results : list (option (result E unit))) : option E := head (omap rejection results).
Definition write_all (writes : list action) (cleanup : action) (order : list nat) : action := fun s =>
  let (s1, results) := settle_all writes order s (replicate (length writes) None) in
  match first_failed results with
  | Some reason => ((cleanup s1).1, Err reason)
  | None => (s1, Ok tt)
  end.
Definition compensableWrite (thrown : string -> E) (writes : list action) (cleanup : action) (concurrency : Z) (order : list nat) : SagaStep :=
  {| do_ := fun s => match Semaphore.create concurrency with
                     | Err e => (s, Err (thrown e))
                     | Ok _ => write_all writes cleanup order s
                     end;
     compensate_ := Some cleanup |}.

(** ** Atomicity *)

(** What a step owes, of the part of the state [view] that matters, when it starts where
    [dom] holds: a failing step leaves it as it was, and the compensation of a completed
    step brings it back. *)
Class SagaStepLaws {V : Type} (view : S -> V) (dom : V -> Prop) (step : SagaStep) : Prop := {
  law_failed s s' e : dom (view s) -> do_ step s = (s', Err e) -> view s' = view s;
  law_undone s s' undo s1 : dom (view s) -> do_ step s = (s', Ok tt) -> compensate_ step = Some undo ->
    view s1 = view s' -> view (undo s1).1 = view s;
}.
(** A step that cannot be compensated and may change the view comes last. *)
Definition last_only {V : Type} (view : S -> V) (steps : list named_step) : Prop :=
  forall pre name step post s s', steps = pre ++ (name, step) :: post -> post <> [] -> compensate_ step = None ->
    do_ step s = (s', Ok tt) -> view s' = view s.

(** The steps of a prefix that complete from [s], with the state they reach. *)
Fixpoint completes (steps : list named_step) (s s' : S) : Prop :=
  match steps with
  | [] => s = s'
  | (_, step) :: steps' => exists s1, do_ step s = (s1, Ok tt) /\ completes steps' s1 s'
  end.
(** Their compensations, the latest first. *)
Definition undo_of (x : named_step) : option (string * action) :=
  match compensate_ x.2 with Some undo => Some (x.1, undo) | None => None end.
Definition undos (steps : list named_step) : list (string * action) := rev (omap undo_of steps).

Lemma undos_cons name step steps : undos ((name, step) :: steps) =
  undos steps ++ match compensate_ step with Some undo => [(name, undo)] | None => [] end.
Proof. unfold undos. cbn. unfold undo_of at 1. cbn. destruct (compensate_ step); cbn; [done|by rewrite app_nil_r]. Qed.

(** The run of a saga on every branch. *)
Lemma run_steps_spec steps completed s :
  (exists s', completes steps s s' /\ o_state (run_steps steps completed s) = s' /\ o_result (run_steps steps completed s) = Ok tt) \/
  (exists pre name step post s1 s2 e, steps = pre ++ (name, step) :: post /\ completes pre s s1 /\ do_ step s1 = (s2, Err e) /\
     o_state (run_steps steps completed s) = (compensate (undos pre ++ completed) s2).1 /\
     o_result (run_steps steps completed s) = Err e).
Proof.
  revert completed s. induction steps as [|[name step] steps IH]; intros completed s; cbn [run_steps]; [left; by exists s|].
  destruct (do_ step s) as [s1 [[]|e]] eqn:Ed.
  - set (completed' := match compensate_ step with Some undo => _ | None => _ end).
    destruct (IH completed' s1) as [(s' & Hc & Hs & Hr)|(pre & name' & step' & post & s2 & s3 & e & -> & Hc & Hd & Hs & Hr)].
    + left. exists s'. cbn. split; [by exists s1|done].
    + right. exists ((name, step) :: pre), name', step', post, s2, s3, e. split; [done|]. split; [by exists s1|]. split; [done|]. split; [|done].
      cbn [o_state]. rewrite Hs, undos_cons, <- app_assoc. unfold completed'. by destruct (compensate_ step).
  - right. exists [], name, step, steps, s, s1, e. destruct (compensate completed s1) eqn:Ec. cbn. by rewrite Ec.
Qed.

Section Atomic.
Context {V : Type} (view : S -> V) (dom : named_step -> V -> Prop).

(** Every step starts in its domain. *)
Definition in_domain (steps : list named_step) (s : S) : Prop :=
  forall pre x post s1, steps = pre ++ x :: post -> completes pre s s1 -> dom x (view s1).

Lemma compensate_app l1 l2 s : (compensate (l1 ++ l2) s).1 = (compensate l2 (compensate l1 s).1).1.
Proof.
  revert s. induction l1 as [|[name undo] l1 IH]; intros s; cbn; [done|]. destruct (undo s) as [s1 r]. specialize (IH s1).
  destruct (compensate (l1 ++ l2) s1), (compensate l1 s1). cbn in *. congruence.
Qed.

Lemma compensate_restores pre s s1 s2 : (forall x, x ∈ pre -> SagaStepLaws view (dom x) x.2) ->
  (forall x s s', x ∈ pre -> compensate_ x.2 = None -> do_ x.2 s = (s', Ok tt) -> view s' = view s) ->
  in_domain pre s -> completes pre s s1 -> view s2 = view s1 -> view (compensate (undos pre) s2).1 = view s.
Proof.
  revert s s2. induction pre as [|[name step] pre IH]; intros s s2 Hlaw Hlast Hin Hc Hv; [cbn in *; congruence|].
  destruct Hc as (s' & Hd & Hc). rewrite undos_cons, compensate_app.
  assert (Hrest : view (compensate (undos pre) s2).1 = view s').
  { apply (IH s' s2); [intros x ?; apply Hlaw; by right|by intros x ? ? ?; apply Hlast; right| |done|done].
    intros p x q t -> Hp. apply (Hin ((name, step) :: p) x q t); [done|by exists s']. }
  destruct (compensate_ step) as [undo|] eqn:Eu.
  - cbn. pose proof (law_undone (SagaStepLaws := Hlaw (name, step) ltac:(by left)) _ _ _ _ (Hin [] _ pre s eq_refl eq_refl) Hd Eu Hrest) as Hu.
    destruct (undo (compensate (undos pre) s2).1). exact Hu.
  - cbn. rewrite Hrest. apply (Hlast (name, step) s s'); [by left|done|done].
Qed.

(** C33: A saga is atomic.  It returns normally exactly when every step completed, in
    order; otherwise it rethrows the failure of the first step that failed, and if its
    steps keep their laws and only the last is without a compensation, what the view
    shows of the state is what it showed before the saga ran. *)
Theorem saga_atomic steps s : (forall x, x ∈ steps -> SagaStepLaws view (dom x) x.2) -> last_only view steps -> in_domain steps s ->
  match o_result (saga_run steps s) with
  | Ok _ => completes steps s (o_state (saga_run steps s))
  | Err e => view (o_state (saga_run steps s)) = view s /\
      exists pre name step post s1 s2, steps = pre ++ (name, step) :: post /\ completes pre s s1 /\ do_ step s1 = (s2, Err e)
  end.
Proof.
  intros Hlaw Hlast Hin. unfold saga_run.
  destruct (run_steps_spec steps [] s) as [(s' & Hc & <- & ->)|(pre & name & step & post & s1 & s2 & e & Hst & Hc & Hd & Hs & ->)]; [done|].
  split; [|by exists pre, name, step, post, s1, s2]. rewrite Hs, app_nil_r. apply (compensate_restores pre s s1).
  - intros x Hx. apply Hlaw. rewrite Hst. apply elem_of_app. by left.
  - intros [name' step'] t t' (p1 & p2 & ->)%list_elem_of_split Hn Hd'. apply (Hlast p1 name' step' (p2 ++ (name, step) :: post) t t'); [|by destruct p2|done|done].
    rewrite Hst. by rewrite <- app_assoc.
  - intros p x q t -> Hp. apply (Hin p x (q ++ (name, step) :: post) t); [|done]. rewrite Hst. by rewrite <- app_assoc.
  - done.
  - apply (law_failed (SagaStepLaws := Hlaw (name, step) ltac:(rewrite Hst; apply elem_of_app; right; by left)) _ _ _ (Hin _ _ _ _ Hst Hc) Hd).
Qed.
End Atomic.

(** ** The writes of [compensableWrite] keep the laws *)
Section Write.
Context {V : Type} (view : S -> V) (dom : V -> Prop) (writes : list action) (cleanup : action).

(** [s] differs from [v] by what [cleanup] removes. *)
Definition dirty (v : V) (s : S) : Prop := forall s1, view s1 = view s -> view (cleanup s1).1 = v.
Hypothesis clean_start : forall s, dom (view s) -> dirty (view s) s.
Hypothesis write_dirty : forall w v s, w ∈ writes -> dom v -> dirty v s -> dirty v (w s).1.

Lemma settle_dirty order v s results : dom v -> dirty v s -> dirty v (settle_all writes order s results).1.
Proof.
  intros Hd. revert s results. induction order as [|i order IH]; intros s results Hs; cbn; [done|].
  destruct (writes !! i) as [w|] eqn:Ew; [|by apply IH]. pose proof (write_dirty w v s (list_elem_of_lookup_2 _ _ _ Ew) Hd Hs) as Hw.
  destruct (w s) as [s1 r]. by apply IH.
Qed.

#[export] Instance compensable_write_laws thrown concurrency order :
  SagaStepLaws view dom (compensableWrite thrown writes cleanup concurrency order).
Proof.
  split; cbn; unfold write_all.
  - intros s s' e Hd. destruct (Semaphore.create concurrency); [|by intros [= <- _]].
    pose proof (settle_dirty order _ s (replicate (length writes) None) Hd (clean_start s Hd)) as Hs. destruct (settle_all _ _ _ _) as [s1 results].
    destruct (first_failed results); [|done]. intros [= <- _]. by apply Hs.
  - intros s s' undo s1 Hd. destruct (Semaphore.create concurrency); [|done].
    pose proof (settle_dirty order _ s (replicate (length writes) None) Hd (clean_start s Hd)) as Hs. destruct (settle_all _ _ _ _) as [s2 results].
    destruct (first_failed results); [done|]. intros [= <-] [= <-] Hv. by apply Hs.
Qed.
End Write.
End Saga.

(** ** A sample: two blobs are written, then the catalog step fails *)
Module SagaSample.
Notation store := (gmap string string).
Notation step := (SagaStep (S := store) (E := string)).
Definition put (k v : string) : store -> store * result string unit := fun s => (<[k := v]> s, Ok tt).
Definition remove_both : store -> store * result string unit := fun s => (delete "b" (delete "a" s), Ok tt).
Definition write_files : step := compensableWrite id [put "a" "1"; put "b" "2"] remove_both 16 [1; 0].
Definition catalog : step := {| do_ := fun s => (s, Err "conflict"); compensate_ := None |}.
Definition steps : list (string * step) := [("write_files", write_files); ("catalog", catalog)].
Definition start : store := {["z" := "0"]}.
Definition free (m : store) : Prop := m !! "a" = None /\ m !! "b" = None.
Definition sample_dom (x : string * step) (m : store) : Prop := x.1 = "write_files" -> free m.

Lemma write_files_laws : SagaStepLaws id (sample_dom ("write_files", write_files)) write_files.
Proof.
  apply compensable_write_laws; unfold dirty, sample_dom, remove_both, id.
  - intros s Hd s1 ->. destruct (Hd eq_refl) as [Ha Hb]. cbn. by rewrite (delete_id _ "a"), delete_id.
  - intros w v s [->|[->|Hw%not_elem_of_nil]%elem_of_cons]%elem_of_cons _ Hs s1 Hv; [| |done]; cbn in *; rewrite Hv, <- (Hs s eq_refl).
    + f_equal. by rewrite delete_insert_eq.
    + by rewrite (delete_insert_ne _ "a" "b"), delete_insert_eq.
Qed.

Lemma saga_atomic_witness : o_state (saga_run steps start) = start /\ o_result (saga_run steps start) = Err "conflict".
Proof.
  assert (Hr : o_result (saga_run steps start) = Err "conflict") by (vm_compute; reflexivity). split; [|exact Hr].
  pose proof (saga_atomic id sample_dom steps start) as H. rewrite Hr in H. apply H.
  - intros x [->|[->|Hx%not_elem_of_nil]%elem_of_cons]%elem_of_cons; [exact write_files_laws| |done]. split; [by intros s s' e _ [= <- _]|done].
  - intros [|p0 [|p1 [|]]] name st post s s' Hst Hp Hn; [by injection Hst as _ <- _|by injection Hst as _ _ _ <-|done|done].
  - intros [|p0 [|p1 [|]]] x post s1 Hst Hc; [| |done|done].
    + injection Hst as <- _. cbn in Hc. subst s1. intros _. by split.
    + injection Hst as _ <- _. done.
Defined.
End SagaSample.
