(* ===== verification/Caches.v ===== *)
(** * In-process caches

    [packages/core/src/cache.ts]: the bounded map that evicts the least recently used entry,
    the map that loads its values and lets newer writes supersede loads under way, and the
    cache that serves stale values while it refreshes them.  A JavaScript [Map] is a list
    of entries in insertion order; a load's completion and its [finally] are turns of
    their own, which interleave with every other operation. *)

From Stdlib Require Import ZArith Lia.
From stdpp Require Import relations gmap list strings.
From S2P Require Import Prelude.

(** ** [ttlState] *)
Module Ttl.

(** [staleForMs] is [None] for [Infinity]. *)
Record TtlPolicy := { freshForMs : Z; staleForMs : option Z }.
Inductive TtlState := Fresh | Stale | Expired.
Definition duration_error (name : string) : string := name +:+ " must be a non-negative duration".

Definition ttlState (loadedAt now : Z) (policy : TtlPolicy) : result string TtlState :=
  if (freshForMs policy <? 0)%Z then Err (duration_error "freshForMs")
  else if match staleForMs policy with Some d => (d <? 0)%Z | None => false end then Err (duration_error "staleForMs")
  else
    let age := Z.max 0 (now - loadedAt) in
    if (age <? freshForMs policy)%Z then Ok Fresh
    else if match staleForMs policy with Some d => (age <? freshForMs policy + d)%Z | None => true end then Ok Stale
    else Ok Expired.
End Ttl.

(** ** [BoundedLruMap] *)
Module Lru.
Section Lru.
Context {K V : Type} `{EqDecision K}.

(** The entries, the least recently used first. *)
Record BoundedLruMap := { maxSize : nat; values : list (K * V) }.
Definition create (n : Z) : result string BoundedLruMap :=
  if (n <=? 0)%Z then Err "maxSize must be a positive integer" else Ok {| maxSize := Z.to_nat n; values := [] |}.

Definition without (key : K) (l : list (K * V)) : list (K * V) := filter (fun x => x.1 <> key) l.
Fixpoint find_value (key : K) (l : list (K * V)) : option V :=
  match l with
  | [] => None
  | (k, v) :: l' => if decide (k = key) then Some v else find_value key l'
  end.
Definition peek (m : BoundedLruMap) (key : K) : option V := find_value key (values m).
Definition has (m : BoundedLruMap) (key : K) : bool := match peek m key with Some _ => true | None => false end.
Definition size (m : BoundedLruMap) : nat := length (values m).
Definition with_values (m : BoundedLruMap) (l : list (K * V)) : BoundedLruMap := {| maxSize := maxSize m; values := l |}.

(** [get] re-inserts the entry as the most recently used. *)
Definition get (m : BoundedLruMap) (key : K) : BoundedLruMap * option V :=
  match peek m key with
  | None => (m, None)
  | Some v => (with_values m (without key (values m) ++ [(key, v)]), Some v)
  end.
(** The eviction loop of [set]; the list bounds its rounds. *)
Fixpoint evict (n : nat) (l : list (K * V)) : list (K * V) :=
  match l with
  | [] => []
  | _ :: rest => if (n <? length l)%nat then evict n rest else l
  end.
Definition set (m : BoundedLruMap) (key : K) (value : V) : BoundedLruMap :=
  with_values m (evict (maxSize m) (without key (values m) ++ [(key, value)])).
Definition delete (m : BoundedLruMap) (key : K) : BoundedLruMap * bool := (with_values m (without key (values m)), has m key).
Definition clear (m : BoundedLruMap) : BoundedLruMap := with_values m [].

(** *** Lemmas *)

Record inv (m : BoundedLruMap) : Prop := {
  l_nodup : NoDup (values m).*1;
  l_size : length (values m) <= maxSize m;
  l_pos : 0 < maxSize m;
}.

Lemma evict_drop n l : evict n l = drop (length l - n) l.
Proof.
  induction l as [|x l IH]; [by rewrite drop_nil|]. cbn [evict]. destruct (Nat.ltb_spec n (length (x :: l))) as [Hl|Hl]; cbn [length] in *.
  - rewrite IH. replace (S (length l) - n) with (S (length l - n)) by lia. done.
  - by replace (S (length l) - n) with 0 by lia.
Qed.

Lemma find_app key l1 l2 : find_value key (l1 ++ l2) = match find_value key l1 with Some v => Some v | None => find_value key l2 end.
Proof. induction l1 as [|[k v] l1 IH]; cbn; [done|]. by destruct (decide (k = key)). Qed.
Lemma find_without key key' l : find_value key' (without key l) = if decide (key' = key) then None else find_value key' l.
Proof.
  induction l as [|[k v] l IH]; [by cbn; destruct (decide _)|]. unfold without in *. rewrite filter_cons. cbn [fst find_value].
  destruct (decide (k <> key)) as [Hk|Hk]; cbn [find_value]; rewrite IH.
  - destruct (decide (k = key')) as [->|]; [|done]. by rewrite decide_False.
  - destruct (decide (key' = key)); [done|]. destruct (decide (k = key')); [|done]. destruct Hk. congruence.
Qed.
Lemma find_in key v l : find_value key l = Some v -> (key, v) ∈ l.
Proof. induction l as [|[k v'] l IH]; cbn; [done|]. destruct (decide (k = key)) as [->|]; [intros [= ->]; by left|]. intros ?. right. by apply IH. Qed.
Lemma without_keys key l : (without key l).*1 = filter (fun k => k <> key) l.*1.
Proof.
  unfold without. induction l as [|[k v] l IH]; [done|]. rewrite fmap_cons, !filter_cons. cbn [fst].
  destruct (decide (k <> key)); [by rewrite fmap_cons, IH|done].
Qed.

Lemma without_nodup key l : NoDup l.*1 -> NoDup (without key l).*1 /\ key ∉ (without key l).*1.
Proof. intros Hn. rewrite without_keys. split; [by apply NoDup_filter|]. by intros [Hne _]%list_elem_of_filter. Qed.

(** *** Recency: the specification of the order *)

Inductive op := Get (key : K) | Set_ (key : K) (value : V) | Delete (key : K) | Clear.
Definition apply_op (m : BoundedLruMap) (o : op) : BoundedLruMap :=
  match o with
  | Get key => (get m key).1
  | Set_ key value => set m key value
  | Delete key => (delete m key).1
  | Clear => clear m
  end.
(** The keys by their last use: a key moves to the end when it is set or found. *)
Definition touch (key : K) (rec : list K) : list K := filter (fun k => k <> key) rec ++ [key].
Definition recency (m : BoundedLruMap) (rec : list K) (o : op) : list K :=
  match o with
  | Get key => if has m key then touch key rec else rec
  | Set_ key _ => touch key rec
  | Delete key => filter (fun k => k <> key) rec
  | Clear => []
  end.
Fixpoint run_ops (m : BoundedLruMap) (rec : list K) (ops : list op) : BoundedLruMap * list K :=
  match ops with
  | [] => (m, rec)
  | o :: ops' => run_ops (apply_op m o) (recency m rec o) ops'
  end.

Lemma filter_suffix (key : K) (l rec : list K) : l `suffix_of` rec -> filter (fun k => k <> key) l `suffix_of` filter (fun k => k <> key) rec.
Proof. intros [a ->]. exists (filter (fun k => k <> key) a). by rewrite filter_app. Qed.
Lemma touch_suffix (key : K) (l rec : list K) : l `suffix_of` rec -> touch key l `suffix_of` touch key rec.
Proof. intros Hs%(filter_suffix key). by apply suffix_app. Qed.
Lemma touch_nodup key rec : NoDup rec -> NoDup (touch key rec).
Proof.
  intros Hn. unfold touch. apply NoDup_app. split; [by apply NoDup_filter|]. split; [|apply NoDup_singleton].
  intros k [Hne _]%list_elem_of_filter ->%list_elem_of_singleton. done.
Qed.
Lemma has_in m key : has m key = true <-> key ∈ (values m).*1.
Proof.
  unfold has, peek. induction (values m) as [|[k v] l IH]; cbn; [split; [done|by intros ?%not_elem_of_nil]|].
  rewrite elem_of_cons. destruct (decide (k = key)) as [->|Hne]; [split; [by left|done]|]. rewrite IH. split; [by right|]. by intros [->|].
Qed.
Lemma touch_length key l : NoDup l -> length (touch key l) = if decide (key ∈ l) then length l else S (length l).
Proof.
  intros Hn. unfold touch. rewrite length_app. cbn. induction l as [|k l IH]; [by rewrite decide_False by apply not_elem_of_nil|].
  apply NoDup_cons in Hn as [Hk Hn]. rewrite filter_cons. specialize (IH Hn). destruct (decide (k <> key)) as [Hne|Heq]; cbn [length Nat.add].
  - rewrite IH. destruct (decide (key ∈ l)); [rewrite decide_True by (by right); done|]. rewrite decide_False; [done|].
    intros [->|]%elem_of_cons; done.
  - apply dec_stable in Heq as ->. rewrite decide_True by (by left). rewrite decide_False in IH by done. lia.
Qed.

(** The keys after [set]: the touched list without its head when it is too long. *)
Lemma set_keys m key value : inv m ->
  (values (set m key value)).*1 = if decide (key ∈ (values m).*1 \/ length (values m) < maxSize m) then touch key (values m).*1 else drop 1 (touch key (values m).*1).
Proof.
  intros [Hn Hs Hp]. cbn. rewrite evict_drop, fmap_drop, fmap_app, without_keys. fold (touch key (values m).*1).
  assert (Hl : length (without key (values m) ++ [(key, value)]) = length (touch key (values m).*1)).
  { unfold touch. rewrite !length_app, <- without_keys, length_fmap. done. }
  rewrite Hl, touch_length, length_fmap by done. change ([(key, value)].*1) with [key]. fold (touch key (values m).*1).
  destruct (decide (key ∈ (values m).*1)) as [Hin|Hin].
  - rewrite decide_True by by left. by replace (length (values m) - maxSize m) with 0 by lia.
  - destruct (decide (key ∈ (values m).*1 \/ length (values m) < maxSize m)) as [[|]|Hno]; [done| |].
    + by replace (S (length (values m)) - maxSize m) with 0 by lia.
    + apply Decidable.not_or in Hno as [_ Hno]. by replace (S (length (values m)) - maxSize m) with 1 by lia.
Qed.

Lemma get_keys m key : inv m -> (values (get m key).1).*1 = if has m key then touch key (values m).*1 else (values m).*1.
Proof.
  intros Hi. unfold get, has. destruct (peek m key) as [v|] eqn:Ep; [|done]. cbn. by rewrite fmap_app, without_keys.
Qed.

Lemma lru_op_inv m o : inv m -> inv (apply_op m o) /\ maxSize (apply_op m o) = maxSize m.
Proof.
  intros Hi. assert (Hi' := Hi). destruct Hi' as [Hn Hs Hp]. assert (Hm : maxSize (apply_op m o) = maxSize m).
  { destruct o as [key| | |]; cbn; [|done|done|done]. unfold get. by destruct (peek m key). }
  split; [|done]. split; [| |by rewrite Hm]; rewrite ?Hm, <- ?(length_fmap fst).
  - destruct o as [key|key v|key|]; cbn [apply_op]; [rewrite get_keys by done|rewrite set_keys by done|cbn; rewrite without_keys; by apply NoDup_filter|apply NoDup_nil_2].
    + destruct (has m key); [by apply touch_nodup|done].
    + case_decide; [by apply touch_nodup|]. eapply sublist_NoDup; [by apply (touch_nodup key)|apply sublist_drop].
  - destruct o as [key|key v|key|]; cbn [apply_op]; [rewrite get_keys by done|rewrite set_keys by done| |cbn; lia].
    + destruct (has m key) eqn:Eh; [|by rewrite length_fmap]. apply has_in in Eh. rewrite touch_length, decide_True, length_fmap by done. done.
    + pose proof (touch_length key _ Hn) as Hl. rewrite length_fmap in Hl. destruct (decide (_ \/ _)) as [Hd|Hd]; [|rewrite length_drop]; destruct (decide (key ∈ (values m).*1)) in Hl; naive_solver lia.
    + cbn. rewrite without_keys. etransitivity; [apply length_filter|]. by rewrite length_fmap.
Qed.

Lemma op_recency m rec o : inv m -> (values m).*1 `suffix_of` rec -> (values (apply_op m o)).*1 `suffix_of` recency m rec o.
Proof.
  intros Hi Hs. destruct o as [key|key v|key|]; cbn [apply_op recency]; [rewrite get_keys by done|rewrite set_keys by done| |apply suffix_nil].
  - destruct (has m key); [by apply touch_suffix|done].
  - apply (touch_suffix key) in Hs. case_decide; [done|]. etransitivity; [apply suffix_drop|exact Hs].
  - cbn. rewrite without_keys. by apply filter_suffix.
Qed.

Lemma run_ops_spec m rec ops : inv m -> (values m).*1 `suffix_of` rec ->
  inv (run_ops m rec ops).1 /\ (values (run_ops m rec ops).1).*1 `suffix_of` (run_ops m rec ops).2 /\ maxSize (run_ops m rec ops).1 = maxSize m.
Proof.
  revert m rec. induction ops as [|o ops IH]; intros m rec Hi Hs; cbn; [done|]. destruct (lru_op_inv m o Hi) as [Hi' Hm]. rewrite <- Hm.
  apply IH; [done|by apply op_recency].
Qed.

Lemma create_inv n m : create n = Ok m -> inv m /\ values m = [] /\ maxSize m = Z.to_nat n.
Proof. unfold create. destruct (Z.leb_spec n 0); [done|]. intros [= <-]. split; [|done]. split; cbn; [constructor|lia|lia]. Qed.

(** What a lookup finds after each operation. *)
Lemma peek_get m key k : peek (get m key).1 k = peek m k.
Proof.
  unfold get, peek. destruct (find_value key (values m)) as [v|] eqn:Ef; [|done]. cbn. rewrite find_app, find_without. cbn.
  destruct (decide (k = key)) as [->|Hne]; [by rewrite decide_True|]. rewrite decide_False by done. by destruct (find_value k (values m)).
Qed.
Lemma peek_delete m key k : peek (delete m key).1 k = if decide (k = key) then None else peek m k.
Proof. unfold peek. cbn. apply find_without. Qed.
Lemma find_drop k n l v : NoDup l.*1 -> find_value k (drop n l) = Some v -> find_value k l = Some v.
Proof.
  revert n. induction l as [|[k' v'] l IH]; intros [|n] Hn Hf; [done|done|done|]. cbn in *. apply NoDup_cons in Hn as [Hk Hn].
  specialize (IH n Hn Hf). destruct (decide (k' = k)) as [->|]; [|done]. apply find_in in IH. destruct Hk. apply list_elem_of_fmap. by exists (k, v).
Qed.
Lemma peek_set m key v k : inv m -> (k = key -> peek (set m key v) k = Some v) /\ (k <> key -> peek (set m key v) k = None \/ peek (set m key v) k = peek m k).
Proof.
  intros [Hn Hs Hp]. unfold peek. cbn. rewrite evict_drop. set (l := without key (values m)). destruct (without_nodup key _ Hn) as [Hl Hk]. fold l in Hl, Hk.
  assert (Hlen : length (l ++ [(key, v)]) - maxSize m <= length l) by (rewrite length_app; cbn; lia). rewrite drop_app_le by done. rewrite find_app. split.
  - intros ->. cbn. rewrite decide_True by done. destruct (find_value key (drop _ l)) eqn:Ef; [|done]. apply find_drop, find_in in Ef; [|done].
    destruct Hk. apply list_elem_of_fmap. by eexists (_, _).
  - intros Hne. cbn. rewrite decide_False by done. destruct (find_value k (drop _ l)) eqn:Ef; [|by left]. right. apply find_drop in Ef; [|done].
    unfold l in Ef. rewrite find_without, decide_False in Ef by done. done.
Qed.

(** The bounded map never holds more than [maxSize] entries, one per key, and they
    are the most recently set or found ones that were not deleted: its keys in order are a
    final segment of the keys by last use.  A [set] makes its own entry readable and
    drops another only when the map is full, and then the least recently used. *)
Theorem lru_keeps_most_recent n m0 ops key v : create n = Ok m0 ->
  let m := (run_ops m0 [] ops).1 in
  let rec := (run_ops m0 [] ops).2 in
  (Z.of_nat (size m) <= n)%Z /\ NoDup (values m).*1 /\ (values m).*1 `suffix_of` rec /\
  peek (set m key v) key = Some v /\
  (values (set m key v)).*1 =
    (if decide (key ∈ (values m).*1 \/ length (values m) < maxSize m) then touch key (values m).*1 else drop 1 (touch key (values m).*1)).
Proof.
  intros (Hi & Hv & Hm)%create_inv m rec. destruct (run_ops_spec m0 [] ops Hi) as (Hi' & Hs & Hmax); [by rewrite Hv|]. fold m rec in Hi', Hs, Hmax.
  split_and!; [|apply Hi'|done|by apply peek_set|by apply set_keys]. pose proof (l_size _ Hi'). pose proof (l_pos _ Hi). unfold size. lia.
Qed.
End Lru.

Lemma lru_keeps_most_recent_witness : exists m0, create (K := string) (V := nat) 2 = Ok m0 /\
  let m := (run_ops m0 [] [Set_ "a" 1; Set_ "b" 2; Get "a"]).1 in
  values m = [("b", 2); ("a", 1)] /\ (values (set m "c" 3)).*1 = ["a"; "c"].
Proof.
  eexists. split; [reflexivity|]. cbn zeta. split; [vm_compute; reflexivity|].
  destruct (lru_keeps_most_recent (K := string) (V := nat) 2 _ [Set_ "a" 1; Set_ "b" 2; Get "a"] "c" 3 eq_refl) as (_ & _ & _ & _ & ->).
  vm_compute. reflexivity.
Defined.
End Lru.

(** ** [LazyMap] *)
Module Lazy.
Section Lazy.
Context {K V : Type} `{Countable K}.

(** A load under way: its [state] object and how far its promise chain is. *)
Inductive phase := Loading | Finishing | Closed.
Record load := { l_key : K; l_superseded : bool; l_phase : phase }.
(** [pending] names the load whose promise and state are stored for the key. *)
Record LazyMap := { values : Lru.BoundedLruMap (K := K) (V := V); pending : gmap K nat; loads : list load }.

Definition create (maxSize : Z) : result string LazyMap :=
  match Lru.create maxSize with Ok m => Ok {| values := m; pending := ∅; loads := [] |} | Err e => Err e end.

Definition mark (l : load) : load := {| l_key := l_key l; l_superseded := true; l_phase := l_phase l |}.
Definition at_phase (ph : phase) (l : load) : load := {| l_key := l_key l; l_superseded := l_superseded l; l_phase := ph |}.
(** [pending.state.superseded = true] of the key's pending load, if any. *)
Definition supersede (q : LazyMap) (key : K) : list load :=
  match pending q !! key with Some i => alter mark i (loads q) | None => loads q end.

Definition getIfPresent (q : LazyMap) (key : K) : LazyMap * option V :=
  let (m, v) := Lru.get (values q) key in ({| values := m; pending := pending q; loads := loads q |}, v).

(** [reload]: the load whose promise the caller gets, shared or new. *)
Definition reload (q : LazyMap) (key : K) (force : bool) : LazyMap * nat :=
  let start :=
    ({| values := values q; pending := <[key := length (loads q)]> (pending q);
        loads := supersede q key ++ [{| l_key := key; l_superseded := false; l_phase := Loading |}] |}, length (loads q)) in
  match pending q !! key with
  | None => start
  | Some i => if negb (default true (l_superseded <$> loads q !! i)) && negb force then (q, i) else start
  end.
(** [getOrLoad], and [get] without a loader: a value, or the load to wait for. *)
Definition getOrLoad (q : LazyMap) (key : K) (force : bool) : LazyMap * (V + nat) :=
  match getIfPresent q key with
  | (q', Some v) => if force then let (q1, i) := reload q key force in (q1, inr i) else (q', inl v)
  | (_, None) => let (q1, i) := reload q key force in (q1, inr i)
  end.

(** The [then] of a load whose loader returned [loaded]: the new map and what its callers
    are answered. *)
Definition resolve (q : LazyMap) (i : nat) (loaded : V) : LazyMap * option V :=
  match loads q !! i with
  | Some l =>
      match l_phase l with
      | Loading =>
          let loads' := alter (at_phase Finishing) i (loads q) in
          if l_superseded l
          then if Lru.has (values q) (l_key l)
               then let (m, v) := Lru.get (values q) (l_key l) in ({| values := m; pending := pending q; loads := loads' |}, v)
               else ({| values := values q; pending := pending q; loads := loads' |}, Some loaded)
          else ({| values := Lru.set (values q) (l_key l) loaded; pending := pending q; loads := loads' |}, Some loaded)
      | _ => (q, None)
      end
  | None => (q, None)
  end.
(** The loader rejected. *)
Definition reject (q : LazyMap) (i : nat) : LazyMap :=
  match l_phase <$> loads q !! i with
  | Some Loading => {| values := values q; pending := pending q; loads := alter (at_phase Finishing) i (loads q) |}
  | _ => q
  end.
(** The [finally]: forget the load if it is still the key's. *)
Definition finally (q : LazyMap) (i : nat) : LazyMap :=
  match loads q !! i with
  | Some l =>
      match l_phase l with
      | Finishing =>
          {| values := values q;
             pending := if decide (pending q !! l_key l = Some i) then delete (l_key l) (pending q) else pending q;
             loads := alter (at_phase Closed) i (loads q) |}
      | _ => q
      end
  | None => q
  end.

Definition set (q : LazyMap) (key : K) (value : V) : LazyMap :=
  {| values := Lru.set (values q) key value; pending := pending q; loads := supersede q key |}.
Definition delete_key (q : LazyMap) (key : K) : LazyMap * bool :=
  let (m, b) := Lru.delete (values q) key in ({| values := m; pending := pending q; loads := supersede q key |}, b).
Definition is_pending (q : LazyMap) (i : nat) : bool := match loads q !! i with Some l => bool_decide (pending q !! l_key l = Some i) | None => false end.
Definition clear (q : LazyMap) : LazyMap :=
  {| values := Lru.clear (values q); pending := ∅;
     loads := imap (fun i l => if is_pending q i then mark l else l) (loads q) |}.

Inductive op :=
| GetIfPresent (key : K) | GetOrLoad (key : K) (force : bool) | Reload (key : K) (force : bool)
| Resolve (i : nat) (loaded : V) | Reject (i : nat) | Finally (i : nat)
| Set_ (key : K) (value : V) | Delete (key : K) | Clear.
Definition apply_op (q : LazyMap) (o : op) : LazyMap :=
  match o with
  | GetIfPresent key => (getIfPresent q key).1
  | GetOrLoad key force => (getOrLoad q key force).1
  | Reload key force => (reload q key force).1
  | Resolve i loaded => (resolve q i loaded).1
  | Reject i => reject q i
  | Finally i => finally q i
  | Set_ key value => set q key value
  | Delete key => (delete_key q key).1
  | Clear => clear q
  end.
(** The operations after which an earlier load must not write the key. *)
Definition supersedes (key : K) (o : op) : bool :=
  match o with
  | Set_ k _ | Delete k | Reload k true | GetOrLoad k true => bool_decide (k = key)
  | Clear => true
  | _ => false
  end.

(** A load that may still write. *)
Definition live_in (ls : list load) (i : nat) (key : K) : Prop :=
  exists l, ls !! i = Some l /\ l_key l = key /\ l_superseded l = false /\ l_phase l = Loading.
Abbreviation live q := (live_in (loads q)).
Record inv (q : LazyMap) : Prop := {
  z_live i key : live q i key -> pending q !! key = Some i;
  z_lru : Lru.inv (values q);
}.
(** No operation revives a load. *)
Definition grows (q q' : LazyMap) : Prop :=
  length (loads q) <= length (loads q') /\ forall i key, i < length (loads q) -> live q' i key -> live q i key.

Lemma live_alter f j ls i key : (forall l, l_key (f l) = l_key l /\ (l_superseded (f l) = false -> l_superseded l = false) /\ l_phase (f l) <> Loading) ->
  live_in (alter f j ls) i key -> live_in ls i key /\ i <> j.
Proof.
  intros Hf (l & Hl & Hk & Hs & Hp). destruct (decide (j = i)) as [<-|Hne].
  - rewrite list_lookup_alter_eq in Hl. destruct (ls !! j) as [l0|]; [|done]. injection Hl as <-. by destruct (Hf l0) as (_ & _ & ?).
  - rewrite list_lookup_alter_ne in Hl by done. split; [by exists l|done].
Qed.
Lemma live_phase ph j ls i key : ph <> Loading -> live_in (alter (at_phase ph) j ls) i key -> live_in ls i key /\ i <> j.
Proof. intros Hp. by apply live_alter. Qed.
Lemma live_supersede q key i k : live_in (supersede q key) i k -> live q i k /\ pending q !! key <> Some i.
Proof.
  unfold supersede. destruct (pending q !! key) as [j|] eqn:Ep; [|done]. intros (l & Hl & Hk & Hs & Hp). destruct (decide (j = i)) as [<-|Hne].
  - rewrite list_lookup_alter_eq in Hl. destruct (loads q !! j); [|done]. by injection Hl as <-.
  - rewrite list_lookup_alter_ne in Hl by done. split; [by exists l|congruence].
Qed.
Lemma supersede_length q key : length (supersede q key) = length (loads q).
Proof. unfold supersede. destruct (pending q !! key); [by rewrite length_alter|done]. Qed.
Lemma live_append ls l i k : live_in (ls ++ [l]) i k -> live_in ls i k \/ (i = length ls /\ l_key l = k).
Proof.
  intros (l' & Hl & Hk & Hs & Hp). apply lookup_snoc_Some in Hl as [[_ Hl]|[-> <-]]; [left; by exists l'|by right].
Qed.

(** [reload] shares the pending load or starts one that supersedes it. *)
Lemma reload_cases q key force :
  (exists i, reload q key force = (q, i) /\ force = false) \/
  reload q key force = ({| values := values q; pending := <[key := length (loads q)]> (pending q);
    loads := supersede q key ++ [{| l_key := key; l_superseded := false; l_phase := Loading |}] |}, length (loads q)).
Proof.
  unfold reload. destruct (pending q !! key) as [i|]; [|by right]. destruct (negb _); [|by right]. destruct force; [by right|]. left. by exists i.
Qed.

Lemma reload_inv q key force : inv q -> inv (reload q key force).1 /\ grows q (reload q key force).1.
Proof.
  intros Hq. destruct (reload_cases q key force) as [(i & -> & _)| ->]; [by split; [|split]|]. split; [split; cbn; [|apply Hq]|split; cbn].
  - intros i k [[Hl Hne]%live_supersede|[-> <-]]%live_append; cbn.
    + apply Hq in Hl. rewrite lookup_insert_ne; [done|]. by intros ->.
    + rewrite supersede_length. apply lookup_insert_eq.
  - rewrite length_app, supersede_length. lia.
  - intros i k Hi [[Hl _]%live_supersede|[-> _]]%live_append; [done|]. rewrite supersede_length in Hi. lia.
Qed.
Lemma supersede_inv q q' key : inv q -> loads q' = supersede q key -> pending q' = pending q -> Lru.inv (values q') -> inv q' /\ grows q q'.
Proof.
  intros Hq Hl Hp Hv. split; [split; [|done]|split]; rewrite Hl.
  - intros i k [Hi _]%live_supersede. rewrite Hp. by apply Hq.
  - by rewrite supersede_length.
  - by intros i k _ [Hi _]%live_supersede.
Qed.
Lemma phase_inv q q' j ph : inv q -> ph <> Loading -> loads q' = alter (at_phase ph) j (loads q) -> 
  (forall i k, i <> j -> pending q !! k = Some i -> pending q' !! k = Some i) -> Lru.inv (values q') -> inv q' /\ grows q q'.
Proof.
  intros Hq Hph Hl Hp Hv. split; [split; [|done]|split]; rewrite Hl.
  - intros i k [Hi Hne]%live_phase; [|done]. apply Hp; [done|]. by apply Hq.
  - by rewrite length_alter.
  - by intros i k _ [Hi _]%live_phase.
Qed.
Lemma same_inv q m : inv q -> Lru.inv m -> inv {| values := m; pending := pending q; loads := loads q |} /\ grows q {| values := m; pending := pending q; loads := loads q |}.
Proof. intros Hq Hm. split; [split; [apply Hq|done]|by split]. Qed.
Lemma clear_dead q i k : inv q -> ~ live (clear q) i k.
Proof.
  intros Hq (l & Hl & Hk & Hs & Hp). cbn in Hl. rewrite list_lookup_imap in Hl. destruct (loads q !! i) as [l0|] eqn:El; [|done].
  injection Hl as <-. destruct (is_pending q i) eqn:Ei; [done|]. unfold is_pending in Ei. rewrite El in Ei. apply bool_decide_eq_false in Ei. destruct Ei.
  apply Hq. by exists l0.
Qed.

Lemma lazy_op_inv q o : inv q -> inv (apply_op q o) /\ grows q (apply_op q o).
Proof.
  intros Hq. assert (Hv := z_lru _ Hq).
  assert (Hget : forall key, Lru.inv (Lru.get (values q) key).1) by (intros key; by apply (Lru.lru_op_inv _ (Lru.Get key))).
  assert (Hset : forall key v, Lru.inv (Lru.set (values q) key v)) by (intros key v; by apply (Lru.lru_op_inv _ (Lru.Set_ key v))).
  assert (Hgip : forall key, inv (getIfPresent q key).1 /\ grows q (getIfPresent q key).1).
  { intros key. unfold getIfPresent. specialize (Hget key). destruct (Lru.get (values q) key). by apply same_inv. }
  destruct o as [key|key force|key force|i v|i|i|key v|key|]; cbn [apply_op].
  - apply Hgip.
  - unfold getOrLoad. pose proof (reload_inv q key force Hq) as Hr. specialize (Hgip key).
    destruct (getIfPresent q key) as [q' [v|]]; [destruct force; [|done]|]; by destruct (reload q key _).
  - by apply reload_inv.
  - unfold resolve. destruct (loads q !! i) as [l|]; [|by split; [|split]]. destruct (l_phase l); [|by split; [|split]|by split; [|split]].
    destruct (l_superseded l); [destruct (Lru.has _ _)|]; [specialize (Hget (l_key l)); destruct (Lru.get _ _)| |];
      (apply (phase_inv q _ i Finishing); [done|done|done|done|cbn; done]).
  - unfold reject. destruct (l_phase <$> loads q !! i) as [[]|]; try (by split; [|split]). by apply (phase_inv q _ i Finishing).
  - unfold finally. destruct (loads q !! i) as [l|]; [|by split; [|split]]. destruct (l_phase l); try (by split; [|split]).
    apply (phase_inv q _ i Closed); [done|done|done| |done]. intros j k Hne Hp. cbn. destruct (decide _) as [Hd|]; [|done].
    rewrite lookup_delete_ne; [done|]. intros E. rewrite E in Hd. congruence.
  - apply (supersede_inv q _ key); [done|done|done|apply Hset].
  - unfold delete_key. pose proof (Lru.lru_op_inv _ (Lru.Delete key) Hv) as [Hd _]. cbn in Hd. by apply (supersede_inv q _ key).
  - split; [split; [by intros i k ?%clear_dead|by apply (Lru.lru_op_inv _ Lru.Clear)]|split; [by cbn; rewrite length_imap|by intros i k _ ?%clear_dead]].
Qed.

Lemma lazy_run_inv q ops : inv q -> inv (foldl apply_op q ops) /\ grows q (foldl apply_op q ops).
Proof.
  revert q. induction ops as [|o ops IH]; intros q Hq; cbn; [by split; [|split]|]. destruct (lazy_op_inv q o Hq) as [Hq' [Hl Hg]].
  destruct (IH _ Hq') as [Hq'' [Hl' Hg']]. split; [done|]. split; [lia|]. intros i k Hi Hlive. apply Hg; [done|]. apply Hg'; [lia|done].
Qed.
Lemma create_start n q : create n = Ok q -> inv q.
Proof.
  unfold create. destruct (Lru.create n) as [m|] eqn:Em; [|done]. intros [= <-]. apply Lru.create_inv in Em as [Hm _].
  split; [by intros i k (l & ? & _)|done].
Qed.

(** After a superseding operation no load started before it is live. *)
Lemma superseded_dead q o key i : inv q -> supersedes key o = true -> i < length (loads q) -> ~ live (apply_op q o) i key.
Proof.
  intros Hq Ho Hi. assert (Hdead : forall k, k = key -> ~ live_in (supersede q k) i key).
  { intros k -> [Hl Hne]%live_supersede. by apply Hq in Hl. }
  assert (Hre : forall k, k = key -> ~ live (reload q k true).1 i key).
  { intros k Hk. destruct (reload_cases q k true) as [(? & _ & ?)| ->]; [done|]. cbn. intros [Hl|[-> _]]%live_append; [by apply (Hdead k)|].
    rewrite supersede_length in Hi. lia. }
  destruct o as [k|k [] |k [] | | | |k v|k|]; cbn in Ho; try done; [| | | |by apply clear_dead]; apply bool_decide_eq_true in Ho; cbn [apply_op].
  - specialize (Hre k Ho). unfold getOrLoad. destruct (getIfPresent q k) as [q' [v|]]; by destruct (reload q k true).
  - by apply Hre.
  - by apply (Hdead k).
  - by apply (Hdead k).
Qed.

(** A load that is not live changes no value, only recency. *)
Lemma dead_resolve q i l v k : loads q !! i = Some l -> ~ live q i (l_key l) -> Lru.peek (values (resolve q i v).1) k = Lru.peek (values q) k.
Proof.
  intros Hl Hd. unfold resolve. rewrite Hl. destruct (l_phase l) eqn:Ep; [|done|done]. destruct (l_superseded l) eqn:Es; [|destruct Hd; by exists l].
  destruct (Lru.has _ _); [|done]. pose proof (Lru.peek_get (values q) (l_key l) k) as Hp. by destruct (Lru.get (values q) (l_key l)).
Qed.

(** C32: A load never overwrites what came after it.  In every state the map reaches, at
    most one load of a key may still write; after a [set], a [delete], a [clear] or a
    forced reload of a key, a load of it started earlier, whenever it returns and whatever
    happens in between, changes no value of the map, and its callers are answered with
    the value then stored, if there is one; a load that was not superseded stores and
    answers what it loaded. *)
Theorem lazy_map_no_stale_overwrite n q0 ops1 : create n = Ok q0 ->
  let q := foldl apply_op q0 ops1 in
  (forall i j key, live q i key -> live q j key -> i = j) /\
  (forall i key v, live q i key -> Lru.peek (values (resolve q i v).1) key = Some v /\ (resolve q i v).2 = Some v) /\
  (forall o ops2 i l v, supersedes (l_key l) o = true -> i < length (loads q) ->
     let q2 := foldl apply_op (apply_op q o) ops2 in
     loads q2 !! i = Some l ->
     (forall k, Lru.peek (values (resolve q2 i v).1) k = Lru.peek (values q2) k) /\
     (l_phase l = Loading -> (resolve q2 i v).2 = Some (default v (Lru.peek (values q2) (l_key l))))).
Proof.
  intros Hq0%create_start q. destruct (lazy_run_inv q0 ops1 Hq0) as [Hq _]. fold q in Hq. split_and!.
  - intros i j key Hi%(z_live _ Hq) Hj%(z_live _ Hq). congruence.
  - intros i key v (l & Hl & <- & Hs & Hp). unfold resolve. rewrite Hl, Hp, Hs. cbn. split; [|done]. by apply Lru.peek_set; [apply Hq|].
  - intros o ops2 i l v Ho Hi q2 Hl. destruct (lazy_op_inv q o Hq) as [Hq1 [Hlen _]]. destruct (lazy_run_inv _ ops2 Hq1) as [_ [_ Hg]].
    assert (Hd : ~ live q2 i (l_key l)). { intros Hlive. apply Hg in Hlive; [|lia]. by apply (superseded_dead q o (l_key l) i Hq). }
    split; [intros k; by apply (dead_resolve q2 i l)|]. intros Hp. unfold resolve. rewrite Hl, Hp.
    destruct (l_superseded l) eqn:Es; [|destruct Hd; by exists l]. unfold Lru.has, Lru.get. by destruct (Lru.peek (values q2) (l_key l)).
Qed.
End Lazy.

(** A load of [a] starts, [a] is set, the load returns: the set value stays and is
    answered. *)
Lemma lazy_map_no_stale_overwrite_witness : exists q0, create (K := string) (V := nat) 4 = Ok q0 /\
  let q2 := apply_op (foldl apply_op q0 [GetOrLoad "a" false]) (Set_ "a" 1) in
  Lru.peek (values (resolve q2 0 7).1) "a" = Some 1 /\ (resolve q2 0 7).2 = Some 1.
Proof.
  eexists. split; [reflexivity|]. cbn zeta.
  destruct (lazy_map_no_stale_overwrite (K := string) (V := nat) 4 _ [GetOrLoad "a" false] eq_refl) as (_ & _ & H3).
  destruct (H3 (Set_ "a" 1) [] 0 {| l_key := "a"; l_superseded := true; l_phase := Loading |} 7) as [Hk Ha]; [reflexivity|vm_compute; constructor|reflexivity|].
  split; [etransitivity; [apply (Hk "a")|vm_compute; reflexivity]|etransitivity; [by apply Ha|vm_compute; reflexivity]].
Defined.
End Lazy.

(** ** [StaleWhileRevalidateCache] *)
Module Swr.
Import Ttl.
Section Swr.
Context {K V : Type} `{Countable K}.
(** The cache's [ttl] option. *)
Context (ttl : V -> K -> TtlPolicy).

Record TimedValue := { value : V; loadedAt : Z; nextRefreshAt : Z }.
Record Cache := { entries : Lazy.LazyMap (K := K) (V := TimedValue); refreshing : gset K; backgroundRetryMs : Z }.
Definition create (maxSize retry : Z) : result string Cache :=
  if (retry <? 0)%Z then Err (duration_error "backgroundRetryMs")
  else match Lazy.create maxSize with
       | Ok m => Ok {| entries := m; refreshing := ∅; backgroundRetryMs := retry |}
       | Err e => Err e
       end.
Definition with_entries (c : Cache) (m : Lazy.LazyMap) : Cache := {| entries := m; refreshing := refreshing c; backgroundRetryMs := backgroundRetryMs c |}.
(** [timed]: what a load that returns [v] at [now] stores. *)
Definition timed (v : V) (now : Z) : TimedValue := {| value := v; loadedAt := now; nextRefreshAt := now |}.

(** A value at once, a load to wait for, or the error of a bad policy. *)
Inductive answer := Value (v : V) | Await (i : nat) | Throws (e : string).

Definition refreshInBackground (c : Cache) (key : K) (cached : TimedValue) (now : Z) : Cache :=
  if bool_decide (key ∈ refreshing c) || (now <? nextRefreshAt cached)%Z then c
  else
    let m := Lazy.set (entries c) key {| value := value cached; loadedAt := loadedAt cached; nextRefreshAt := (now + backgroundRetryMs c)%Z |} in
    {| entries := (Lazy.reload m key false).1; refreshing := {[key]} ∪ refreshing c; backgroundRetryMs := backgroundRetryMs c |}.
(** The [finally] of a background refresh. *)
Definition refreshed (c : Cache) (key : K) : Cache := {| entries := entries c; refreshing := refreshing c ∖ {[key]}; backgroundRetryMs := backgroundRetryMs c |}.

Definition get (c : Cache) (key : K) (now : Z) : Cache * answer :=
  match Lazy.getIfPresent (entries c) key with
  | (m, None) =>
      match Lazy.getOrLoad m key false with
      | (m', inl t) => (with_entries c m', Value (value t))
      | (m', inr i) => (with_entries c m', Await i)
      end
  | (m, Some cached) =>
      let c1 := with_entries c m in
      match ttlState (loadedAt cached) now (ttl (value cached) key) with
      | Err e => (c1, Throws e)
      | Ok Fresh => (c1, Value (value cached))
      | Ok Stale => (refreshInBackground c1 key cached now, Value (value cached))
      | Ok Expired => let (m', i) := Lazy.reload m key false in (with_entries c1 m', Await i)
      end
  end.
Definition getIfPresent (c : Cache) (key : K) : Cache * option V :=
  let (m, t) := Lazy.getIfPresent (entries c) key in (with_entries c m, value <$> t).
Definition set (c : Cache) (key : K) (v : V) (now : Z) : Cache := with_entries c (Lazy.set (entries c) key (timed v now)).
Definition update (c : Cache) (key : K) (f : V -> V) : Cache * bool :=
  match Lazy.getIfPresent (entries c) key with
  | (m, None) => (with_entries c m, false)
  | (m, Some cached) =>
      (with_entries c (Lazy.set m key {| value := f (value cached); loadedAt := loadedAt cached; nextRefreshAt := nextRefreshAt cached |}), true)
  end.
Definition delete_key (c : Cache) (key : K) : Cache * bool := let (m, b) := Lazy.delete_key (entries c) key in (with_entries c m, b).
Definition clear (c : Cache) : Cache := {| entries := Lazy.clear (entries c); refreshing := ∅; backgroundRetryMs := backgroundRetryMs c |}.

Definition cached_at (c : Cache) (key : K) : option TimedValue := Lru.peek (Lazy.values (entries c)) key.

Lemma get_if_present c key : exists m, Lazy.getIfPresent (entries c) key = (m, cached_at c key) /\
  Lazy.pending m = Lazy.pending (entries c) /\ Lazy.loads m = Lazy.loads (entries c) /\
  forall k, Lru.peek (Lazy.values m) k = Lru.peek (Lazy.values (entries c)) k.
Proof.
  unfold Lazy.getIfPresent, cached_at. pose proof (Lru.peek_get (Lazy.values (entries c)) key) as Hp. unfold Lru.get in *.
  destruct (Lru.peek (Lazy.values (entries c)) key) as [v|]; eexists; split_and!; cbn; done.
Qed.

Lemma ttl_age at_ now p r : ttlState at_ now p = Ok r ->
  let age := Z.max 0 (now - at_) in
  match r with
  | Fresh => (age < freshForMs p)%Z
  | Stale => (freshForMs p <= age)%Z /\ forall d, staleForMs p = Some d -> (age < freshForMs p + d)%Z
  | Expired => exists d, staleForMs p = Some d /\ (freshForMs p + d <= age)%Z
  end.
Proof.
  unfold ttlState. destruct (_ <? _)%Z; [done|]. destruct (match staleForMs p with Some d => (d <? 0)%Z | None => false end); [done|]. cbn zeta.
  destruct (Z.ltb_spec (Z.max 0 (now - at_)) (freshForMs p)); [by intros [= <-]|]. destruct (staleForMs p) as [d|].
  - destruct (Z.ltb_spec (Z.max 0 (now - at_)) (freshForMs p + d)); intros [= <-]; [|by exists d]. split; [done|]. by intros ? [= <-].
  - intros [= <-]. split; [done|]. by intros.
Qed.

(** What [get] answers at once is a stored value younger than its two periods together;
    otherwise the caller waits for a load. *)
Lemma served_in_ttl c key now c' v : get c key now = (c', Value v) ->
  exists t, cached_at c key = Some t /\ v = value t /\
    forall d, staleForMs (ttl v key) = Some d -> (Z.max 0 (now - loadedAt t) < freshForMs (ttl v key) + d)%Z \/ (Z.max 0 (now - loadedAt t) < freshForMs (ttl v key))%Z.
Proof.
  unfold get. destruct (get_if_present c key) as (m & -> & _ & _ & Hp). destruct (cached_at c key) as [t|] eqn:Ec.
  - destruct (ttlState (loadedAt t) now (ttl (value t) key)) as [r|e] eqn:Et; [|done]. apply ttl_age in Et. destruct r; [| |by destruct (Lazy.reload m key false)].
    + intros [= _ <-]. exists t. split_and!; [done|done|]. intros d _. by right.
    + intros [= _ <-]. exists t. split_and!; [done|done|]. intros d Hd. left. by apply Et.
  - unfold Lazy.getOrLoad, Lazy.getIfPresent, Lru.get. rewrite Hp. unfold cached_at in Ec. rewrite Ec. by destruct (Lazy.reload m key false).
Qed.
End Swr.
End Swr.
