(* ===== verification/Owned.v ===== *)
(** * Objects with one owner

    Tokens, authorizations and the like are stored under ids drawn by the request that
    creates them.  Such an object is written first by the request that drew its id, then
    only by conditional writes that follow its life cycle, and once deleted it is gone.
    This file states that discipline for any family of keys and life cycles and proves
    what it gives among any number of replicas: one linear history per object, at most
    one writer of a final state, and no return after deletion. *)

From Stdlib Require Import ZArith Lia.
From stdpp Require Import relations.
From S2P Require Import Prelude Store Cas CasTheorems Calls Listing.

(** The keys of the family with their ids, which threads may start an object and how,
    how it goes on, and what may be cached about it. *)
Class Family (B V : Type) := {
  owner : key -> option string;
  starts : tid -> key -> B -> world B V -> Prop;
  evolves : tid -> key -> B -> B -> Prop;
  sound : key -> V -> world B V -> Prop;
  persistent_starts :: forall t k b, Persistent (starts t k b);
  persistent_sound :: forall k v, Persistent (sound k v);
}.

Section Owned.
Context {B V : Type} {F : Family B V}.
Implicit Types w : world B V.

(** ** Steps *)

(** Anything but a write of an owned object. *)
Record plain_step w w' : Prop := {
  p_grows : grows w w';
  p_owned k id : owner k = Some id ->
    hist k w' = hist k w /\ (store w' !! k = store w !! k \/ store w' !! k = None);
  p_cache k v : (k, v) ∈ cache w' -> (k, v) ∈ cache w \/ sound k v w';
}.
(** The first write of an object by the thread that drew its id, or a next state. *)
Definition owned_write (t : tid) w w' : Prop :=
  exists k id o, owner k = Some id /\ w' = write t w k o /\ grows w w' /\
    ((hist k w = [] /\ issued w !! id = Some t /\ starts t k (o_body o) w) \/
     (exists o0, store w !! k = Some o0 /\ evolves t k (o_body o0) (o_body o))).
Definition own_step (t : tid) w w' : Prop := plain_step w w' \/ owned_write t w w'.

Lemma plain_refl w : plain_step w w.
Proof. split; [done| |by left]. intros k id _. split; [done|by left]. Qed.
#[export] Instance own_protocol : Protocol own_step.
Proof.
  split; [intros t w; left; apply plain_refl|]. intros t w w' [[? _]|(k & id & o & _ & _ & Hg & _)]; done.
Qed.
Lemma plain_tick w ms : time_passes w ms -> plain_step w (tick w ms).
Proof. intros H. split; [by apply grows_tick| |by left]. intros k id _. split; [done|by left]. Qed.

(** ** The invariant *)

(** A history, the latest first: every content follows the one before it. *)
Fixpoint lineage w (k : key) (l : list (tid * object B)) : Prop :=
  match l with
  | [] => True
  | (t, o) :: l' => match l' with [] => starts t k (o_body o) w | (_, o0) :: _ => evolves t k (o_body o0) (o_body o) end /\ lineage w k l'
  end.
Lemma lineage_grows w w' k l : grows w w' -> lineage w k l -> lineage w' k l.
Proof. intros Hg. induction l as [|[t o] [|[t0 o0] l] IH]; cbn; [done| |]; intros [? ?]; (split; [|by apply IH]); [|done]. by apply (persistent w). Qed.
Record oinv w : Prop := {
  o_lineage k id : owner k = Some id -> lineage w k (hist k w);
  o_latest k id o : owner k = Some id -> store w !! k = Some o -> exists t l, hist k w = (t, o) :: l;
  o_issued k id : owner k = Some id -> hist k w <> [] -> is_Some (issued w !! id);
  o_cache k v : (k, v) ∈ cache w -> sound k v w;
}.

Lemma oinv_plain w w' : plain_step w w' -> oinv w -> oinv w'.
Proof.
  intros [Hg Hp Hc] [H1 H2 H3 H4]. split.
  - intros k id Hk. destruct (Hp k id Hk) as [-> _]. by eapply lineage_grows, H1.
  - intros k id o Hk Ho. destruct (Hp k id Hk) as [-> [E|E]]; rewrite E in Ho; [by eapply H2|done].
  - intros k id Hk Hh. destruct (Hp k id Hk) as [E _]. rewrite E in Hh. destruct (H3 k id Hk Hh) as [t Ht]. exists t. by apply (grows_issued _ _ Hg).
  - intros k v Hin. destruct (Hc k v Hin) as [?|?]; [|done]. by apply (persistent w), H4.
Qed.
Lemma oinv_write t w w' : owned_write t w w' -> oinv w -> oinv w'.
Proof.
  intros (k & id & o & Hk & -> & Hg & Hw) [H1 H2 H3 H4]. split; [| | |intros k' v Hin; by apply (persistent w), H4].
  - intros k' id' Hk'. rewrite hist_write. destruct (bool_decide_reflect (k = k')) as [<-|Hne]; [|by eapply lineage_grows, H1].
    split; [|by eapply lineage_grows, H1]. destruct Hw as [(-> & _ & ?)|(o0 & Ho & ?)]; [by apply (persistent w)|]. by destruct (H2 k id o0 Hk Ho) as (t0 & l & ->).
  - intros k' id' o' Hk' Ho. rewrite hist_write. cbn in Ho. destruct (bool_decide_reflect (k = k')) as [<-|Hne].
    + rewrite lookup_insert_eq in Ho. injection Ho as <-. by eexists _, _.
    + rewrite lookup_insert_ne in Ho by done. by eapply H2.
  - intros k' id' Hk'. rewrite hist_write. destruct (bool_decide_reflect (k = k')) as [<-|Hne]; [|by eapply H3]. intros _.
    rewrite Hk in Hk'. injection Hk' as <-. destruct Hw as [(_ & Hi & _)|(o0 & Ho & _)]; [by eexists|].
    destruct (H2 k id o0 Hk Ho) as (t0 & l & E). apply (H3 k id Hk). by rewrite E.
Qed.

Definition ready w : Prop := wf w /\ oinv w.
#[export] Instance kept_ready : Kept own_step ready.
Proof.
  split.
  - intros t w w' Hs [Hw Hi]. split; [apply (grows_wf _ _ (protocol_grows t w w' Hs) Hw)|]. destruct Hs; [by eapply oinv_plain|by eapply oinv_write].
  - intros w ms Hms [Hw Hi]. split; [by apply (grows_wf _ _ (grows_tick _ _ Hms))|]. by apply (oinv_plain w _ (plain_tick _ _ Hms)).
Qed.
#[export] Instance stable_own_ready t : Stable own_step t ready.
Proof. apply _. Qed.

(** ** Facts that last *)

#[export] Instance persistent_or P Q : Persistent (B := B) (V := V) P -> Persistent Q -> Persistent (fun w => P w \/ Q w).
Proof. intros HP HQ w w' Hg [?|?]; [left|right]; by eapply persistent. Qed.
(** [t] wrote [b] at [k]. *)
Definition wrote (t : tid) (k : key) (b : B) w : Prop := exists o, (t, o) ∈ hist k w /\ o_body o = b.
(** The contents ever stored at [k]. *)
Definition stored_once (k : key) (b : B) w : Prop := exists t, wrote t k b w.
(** [b] was stored under the tag [e]. *)
Definition tagged (k : key) (b : B) (e : string) w : Prop := exists o, logged k o w /\ o_etag o = e /\ o_body o = b.
#[export] Instance persistent_tagged k b e : Persistent (tagged k b e).
Proof. unfold tagged. apply _. Qed.
#[export] Instance persistent_wrote t k b : Persistent (wrote t k b).
Proof. intros w w' Hg (o & Ho & Hb). exists o. split; [|done]. apply elem_of_hist, (grows_log _ _ Hg), elem_of_hist, Ho. Qed.
#[export] Instance persistent_stored_once k b : Persistent (stored_once k b).
Proof. unfold stored_once. apply _. Qed.

(** An id drawn by [t] under which nothing has been written at [k]. *)
Definition unborn (t : tid) (k : key) (id : string) w : Prop :=
  ready w /\ owner k = Some id /\ issued w !! id = Some t /\ hist k w = [].
#[export] Instance stable_unborn t k id : Stable own_step t (unborn t k id).
Proof.
  intros w w' Ho (Hr & Hk & Hi & Hh). split; [by apply (stable_own_ready t w w' Ho)|]. split; [done|].
  split; [by apply (grows_issued _ _ (others_grows own_step t w w' Ho))|].
  destruct Ho as [(t' & Hne & [[_ Hp _]|(k' & id' & o & Hk' & -> & _ & Hw)])|(ms & _ & ->)]; [by destruct (Hp k id Hk) as [-> _]| |done].
  rewrite hist_write. destruct (bool_decide_reflect (k' = k)) as [->|]; [|done]. exfalso. rewrite Hk in Hk'. injection Hk' as <-.
  destruct Hw as [(_ & Hi2 & _)|(o0 & Ho & _)]; [congruence|]. destruct (o_latest _ (proj2 Hr) k id o0 Hk Ho) as (t0 & l & E). congruence.
Qed.

(** ** Programs that write no owned object *)

Definition plain_op {X} (o : op B V X) : Prop :=
  match o with OPut k _ _ => owner k = None | OCacheSet k v => forall w, sound k v w | _ => True end.
Definition plain_prog {A} (p : prog B V A) : Prop := calls (fun X o => plain_op o) p.

(** What plain steps of the thread itself keep. *)
Class Plain (P : world B V -> Prop) : Prop := plain w w' : plain_step w w' -> P w -> P w'.
#[export] Instance plain_persistent P : Persistent P -> Plain P.
Proof. intros HP w w' [Hg _ _]. by apply HP. Qed.
#[export] Instance plain_ready : Plain ready.
Proof. intros w w' Hp [Hw Hi]. split; [by apply (grows_wf _ _ (p_grows _ _ Hp))|by eapply oinv_plain]. Qed.
#[export] Instance plain_unborn t k id : Plain (unborn t k id).
Proof.
  intros w w' Hp (Hr & Hk & Hi & Hh). split; [by apply (plain_ready w)|]. split; [done|]. split; [by apply (grows_issued _ _ (p_grows _ _ Hp))|].
  by destruct (p_owned _ _ Hp k id Hk) as [-> _].
Qed.
#[export] Instance plain_and P Q : Plain P -> Plain Q -> Plain (fun w => P w /\ Q w).
Proof. intros HP HQ w w' Hs [? ?]. split; by eapply plain. Qed.

Lemma plain_op_step t {X} (o : op B V X) w r w' : plain_op o -> op_step t o w r w' -> plain_step w w'.
Proof.
  intros Ho Hs. assert (Hdel : forall ks, plain_step w (remove w ks)).
  { intros ks. split; [apply grows_remove| |by left]. intros k id _. split; [done|]. rewrite store_remove. case_decide; auto. }
  assert (Hsem : forall r w', sem t o w r w' -> plain_step w w').
  { clear Hs. intros r0 w0 Hs. assert (Hg := sem_grows t o w r0 w0 Hs). destruct o; cbn in Hs, Ho; try (by destruct Hs as [-> _]; apply plain_refl).
    - destruct Hs as [(_ & -> & _)|(_ & e & He & -> & _)]; [apply plain_refl|]. split; [done| |by left]. intros k' id Hk. assert (Hne : k <> k') by congruence.
      rewrite hist_write, bool_decide_eq_false_2 by done. split; [done|]. left. cbn. by rewrite lookup_insert_ne.
    - destruct Hs as [-> _]. apply Hdel.
    - destruct Hs as (id' & _ & _ & -> & _). split; [done| |by left]. intros k id _. split; [done|by left].
    - destruct Hs as [-> _]. split; [done|intros k' id _; split; [done|by left]|]. intros k' v' [[= -> ->]|Hin]%elem_of_cons; [right; apply Ho|by left].
    - destruct Hs as [-> _]. split; [done| |by left]. intros k' id _. split; [done|by left]. }
  destruct Hs as [Hs|(_ & [->|[[r' Hs]|Hs]] & _)]; [by eapply Hsem|apply plain_refl|by eapply Hsem|].
  destruct o; try done. destruct Hs as (ks' & _ & ->). apply Hdel.
Qed.

Lemma hoare_plain t {A} (P : world B V -> Prop) (p : prog B V A) `{!Stable own_step t P} `{!Plain P} :
  plain_prog p -> hoare own_step t P p (fun _ => P).
Proof.
  intros Hp. eapply hoare_post; [|apply (hoare_calls own_step t (fun X o => plain_op o) P p (fun _ => True)); [|exact Hp|apply returns_any]]; [by intros r w [? _]|].
  intros X o w r w' Ho Hs HP. assert (Hps : plain_step w w') by (by eapply plain_op_step). split; [by left|by eapply plain].
Qed.

(** ** Drawing an id, and the two kinds of writes *)

Lemma hoare_draw t brand (kf : string -> key) P `{!Stable own_step t P} `{!Plain P} :
  (forall id, is_id brand id = true -> owner (kf id) = Some id) ->
  hoare own_step t (fun w => ready w /\ P w) (call (OFreshId brand))
    (fun r w => exists id, r = Ok id /\ is_id brand id = true /\ unborn t (kf id) id w /\ P w).
Proof.
  intros Hown. apply hoare_call; [apply _|apply _|]. intros w r w' [Hr HP] Hs. assert (Hps : plain_step w w') by (by eapply (plain_op_step t (OFreshId brand))).
  split; [by left|]. destruct Hs as [(id & Hid & Hnone & -> & ->)|[? _]]; [|done]. exists id. split; [done|]. split; [done|]. specialize (Hown id Hid).
  split; [|by eapply plain]. split; [by eapply plain|]. split; [done|]. split; [by apply lookup_insert_eq|]. change (hist (kf id) w = []).
  destruct (hist (kf id) w) eqn:E; [done|]. destruct (o_issued _ (proj2 Hr) _ _ Hown) as [x Hx]; [by rewrite E|]. by rewrite Hnone in Hx.
Qed.

Lemma put_grows t w k b e u : etag_ok w k b e -> u = clock w -> grows w (write t w k {| o_body := b; o_etag := e; o_uploaded := u |}).
Proof. intros He ->. eapply (sem_grows t (OPut k b Always)). right. split; [done|]. by exists e. Qed.

Lemma written_post t w k b e : let o := {| o_body := b; o_etag := e; o_uploaded := clock w |} in
  ready w -> own_step t w (write t w k o) -> ready (write t w k o) /\ wrote t k b (write t w k o).
Proof.
  intros o Hr Hs. split; [by eapply (kept_step t w)|]. exists o. split; [|done]. rewrite hist_write, bool_decide_eq_true_2 by done. by left.
Qed.

Lemma hoare_create t k id b c P `{!Stable own_step t P} `{!Persistent P} : (forall w, P w -> starts t k b w) ->
  hoare own_step t (fun w => unborn t k id w /\ P w) (call (OPut k b c))
    (put_post (fun w => unborn t k id w /\ P w) (fun _ w => (ready w /\ wrote t k b w) /\ P w)).
Proof.
  intros Hst. apply hoare_put; [apply _|apply _|apply _|]. intros w e [(Hr & Hk & Hi & Hh) HP] _ He o.
  assert (Hg : grows w (write t w k o)) by (by apply put_grows).
  assert (HG : own_step t w (write t w k o)). { right. exists k, id, o. split_and!; [done|done|done|]. left. split_and!; [done|done|by apply Hst]. }
  split; [done|]. split; [by apply written_post|by apply (persistent w)].
Qed.

Lemma hoare_evolve t k id b0 e0 b P `{!Stable own_step t P} `{!Persistent P} : owner k = Some id -> evolves t k b0 b ->
  hoare own_step t (fun w => (ready w /\ tagged k b0 e0 w) /\ P w) (call (OPut k b (onlyIfEtagMatches e0)))
    (put_post (fun w => (ready w /\ tagged k b0 e0 w) /\ P w) (fun i w => (ready w /\ wrote t k b w /\ tagged k b (i_etag i) w) /\ P w)).
Proof.
  intros Hk Hev. apply hoare_put; [apply _|apply _|apply _|]. intros w e [[Hr (obj & Hl & <- & <-)] HP] Hh He o.
  destruct (holds_etag_body _ _ _ (proj1 Hr) Hl Hh) as (o' & Ho' & Hb).
  assert (Hg : grows w (write t w k o)) by (by apply put_grows).
  assert (HG : own_step t w (write t w k o)). { right. exists k, id, o. split_and!; [done|done|done|]. right. exists o'. by rewrite Hb. }
  destruct (written_post t w k b e Hr HG) as [? ?]. split; [done|]. split; [|by apply (persistent w)]. split_and!; [done|done|].
  exists o. split_and!; [|done|done]. exists t. by left.
Qed.

(** Caches: what was kept is sound, what is kept must be. *)
Lemma hoare_cached t k P `{!Stable own_step t P} : (forall w, P w -> ready w) ->
  hoare own_step t P (call (OCacheGet k)) (fun r w => P w /\ match r with Ok (Some v) => sound k v w | _ => True end).
Proof.
  intros HP. apply hoare_call; [apply _|intros [[v|]|]; apply _|]. intros w r w' Hw [[-> Hr]|[? _]]; [|done]. split; [apply protocol_idle|].
  split; [done|]. destruct Hr as [->|(v & Hv & ->)]; [done|]. by apply (o_cache _ (proj2 (HP w Hw))).
Qed.
Lemma hoare_cache t k v P `{!Stable own_step t P} `{!Plain P} : (forall w, P w -> sound k v w) ->
  hoare own_step t P (call (OCacheSet k v)) (fun _ => P).
Proof.
  intros HP. apply hoare_call; [apply _|apply _|]. intros w r w' Hw [[-> _]|[? _]]; [|done].
  assert (Hs : plain_step w (set_cache w ((k, v) :: cache w))); [|split; [by left|by eapply plain]].
  assert (Hg : grows w (set_cache w ((k, v) :: cache w))) by (by eapply (sem_grows t (OCacheSet k v))).
  split; [done|intros k' id _; split; [done|by left]|]. intros k' v' [[= -> ->]|Hin]%elem_of_cons; [right|by left]. by apply (persistent w), HP.
Qed.

(** Reading an object of the family. *)
Definition read_post (k : key) (x : option (object B)) w : Prop := match x with Some o => logged k o w | None => True end.
#[export] Instance stable_read_post t k x : Stable own_step t (read_post k x).
Proof. unfold read_post. destruct x; apply _. Qed.
Lemma hoare_read_owned t k P `{!Stable own_step t P} : (forall w, P w -> ready w) ->
  hoare own_step t P (call (OGet k)) (fun r => match r with Ok x => fun w => P w /\ read_post k x w | Err _ => P end).
Proof.
  intros HP. eapply hoare_post; [|apply (hoare_get own_step t k P (fun x w => P w /\ read_post k x w))].
  - intros [x|e] w; [done|]. by intros [? _].
  - intros w Hw. split; [done|]. destruct (store w !! k) as [o|] eqn:E; [|done]. by apply (wf_stored _ (proj1 (HP w Hw))).
Qed.

(** ** What the discipline gives *)

(** A content after which nothing is written. *)
Definition final (k : key) (b : B) : Prop := forall t b', ~ evolves t k b b'.

Lemma lineage_final w k l t o : lineage w k l -> (t, o) ∈ l -> final k (o_body o) -> exists l', l = (t, o) :: l'.
Proof.
  induction l as [|[t' o'] l IH]; [by intros _ ?%not_elem_of_nil|]. intros [Hh Hl] [[= -> ->]|Hin]%elem_of_cons Hf; [by eexists|].
  destruct (IH Hl Hin Hf) as [l' ->]. by destruct (Hf t' (o_body o')).
Qed.
(** At most one thread writes a final content. *)
Lemma final_once w k id t t' b b' : oinv w -> owner k = Some id -> wrote t k b w -> wrote t' k b' w -> final k b -> final k b' -> t = t' /\ b = b'.
Proof.
  intros Hi Hk (o & Ho & <-) (o' & Ho' & <-) Hf Hf'. pose proof (o_lineage _ Hi k id Hk) as Hl.
  destruct (lineage_final w k _ t o Hl Ho Hf) as [l E], (lineage_final w k _ t' o' Hl Ho' Hf') as [l' E']. rewrite E in E'. by injection E' as -> -> _.
Qed.
(** Every content is a first one or follows another. *)
Lemma lineage_back w k l t o : lineage w k l -> (t, o) ∈ l -> starts t k (o_body o) w \/ exists t0 o0, (t0, o0) ∈ l /\ evolves t k (o_body o0) (o_body o).
Proof.
  induction l as [|[t' o'] l IH]; [by intros _ ?%not_elem_of_nil|]. intros [Hh Hl] [[= -> ->]|Hin]%elem_of_cons.
  - destruct l as [|[t0 o0] l]; [by left|]. right. exists t0, o0. split; [right; by left|done].
  - destruct (IH Hl Hin) as [?|(t0 & o0 & ? & ?)]; [by left|]. right. exists t0, o0. split; [by right|done].
Qed.
Lemma wrote_back w k id t b : oinv w -> owner k = Some id -> wrote t k b w ->
  starts t k b w \/ exists b0, stored_once k b0 w /\ evolves t k b0 b.
Proof.
  intros Hi Hk (o & Ho & <-). destruct (lineage_back w k _ t o (o_lineage _ Hi k id Hk) Ho) as [?|(t0 & o0 & Hin & He)]; [by left|].
  right. exists (o_body o0). split; [|done]. by exists t0, o0.
Qed.
(** What first contents have and later ones keep, all contents have. *)
Lemma stored_ind w k id (P : B -> Prop) : oinv w -> owner k = Some id -> (forall t b, starts t k b w -> P b) ->
  (forall t b b', P b -> evolves t k b b' -> P b') -> forall b, stored_once k b w -> P b.
Proof.
  intros Hi Hk Hs He b (t & o & Ho & <-). pose proof (o_lineage _ Hi k id Hk) as Hl. revert t o Ho.
  induction (hist k w) as [|[t' o'] l IH]; intros t o; [by intros ?%not_elem_of_nil|]. destruct Hl as [Hh Hl]. intros [[= -> ->]|Hin]%elem_of_cons; [|by eapply IH].
  destruct l as [|[t0 o0] l]; [by eapply Hs|]. eapply He; [|exact Hh]. eapply (IH Hl t0 o0). by left.
Qed.

(** An object that was written and is not stored is gone for good. *)
Definition gone (k : key) w : Prop := ready w /\ hist k w <> [] /\ store w !! k = None.
#[export] Instance kept_gone k id : owner k = Some id -> Kept own_step (gone k).
Proof.
  intros Hk. split; [|intros w ms Hms (Hr & Hh & Hs); split; [by apply (kept_time w)|done]]. intros t w w' Hstep (Hr & Hh & Hs).
  split; [by eapply (kept_step t w)|]. destruct Hstep as [Hp|(k' & id' & o & Hk' & -> & _ & Hw)].
  - destruct (p_owned _ _ Hp k id Hk) as [-> [->| ->]]; done.
  - rewrite hist_write. cbn. destruct (bool_decide_reflect (k' = k)) as [->|Hne]; [|by rewrite lookup_insert_ne].
    destruct Hw as [(E & _)|(o0 & E & _)]; congruence.
Qed.
Lemma plain_gone k id : owner k = Some id -> Plain (gone k).
Proof. intros Hk w w' Hp. apply (kept_step (Kept := kept_gone k id Hk) 0). by left. Qed.
Lemma tagged_stored k b e w : tagged k b e w -> stored_once k b w.
Proof. intros (o & [t Ho] & _ & Hb). exists t, o. split; [|done]. by apply elem_of_hist. Qed.

(** ** Outcomes: the invariant, and on success what the answer says *)
Definition ends {A} (φ : A -> world B V -> Prop) (r : result (error V) A) w : Prop := ready w /\ match r with Ok a => φ a w | Err _ => True end.

Section Ends.
Context (t : tid).
Lemma ends_bind {A C} P (p : prog B V A) (f : A -> prog B V C) φ ψ : hoare own_step t P p (ends φ) ->
  (forall a, hoare own_step t (fun w => ready w /\ φ a w) (f a) (ends ψ)) -> hoare own_step t P (bind p f) (ends ψ).
Proof. intros Hp Hf. eapply hoare_bind; [exact Hp|exact Hf|]. intros e. apply hoare_throw; [apply _|]. by intros w [? _]. Qed.
Lemma ends_ret {A} P (a : A) φ `{!Stable own_step t P} : (forall w, P w -> ready w /\ φ a w) -> hoare own_step t P (Ret a) (ends φ).
Proof. intros H. by apply hoare_ret. Qed.
Lemma ends_throw {A} P e (φ : A -> world B V -> Prop) `{!Stable own_step t P} : (forall w, P w -> ready w) -> hoare own_step t P (Throw e) (ends φ).
Proof. intros H. apply hoare_throw; [done|]. intros w Hw. split; [by apply H|done]. Qed.
Lemma ends_plain {A} R (p : prog B V A) `{!Persistent R} : plain_prog p -> hoare own_step t (fun w => ready w /\ R w) p (ends (fun _ => R)).
Proof. intros Hp. eapply hoare_post; [|by apply (hoare_plain t (fun w => ready w /\ R w) p)]. intros [a|e] w [? ?]; by split. Qed.
(** A plain program before another: its result is arbitrary. *)
Lemma ends_skip {A C} R (p : prog B V A) (f : A -> prog B V C) ψ `{!Persistent R} : plain_prog p ->
  (forall a, hoare own_step t (fun w => ready w /\ R w) (f a) (ends ψ)) -> hoare own_step t (fun w => ready w /\ R w) (bind p f) (ends ψ).
Proof. intros Hp Hf. eapply ends_bind; [by apply ends_plain|exact Hf]. Qed.
Lemma ends_get {C} k R (f : option (object B) -> prog B V C) ψ `{!Persistent R} :
  hoare own_step t (fun w => ready w /\ R w) (f None) (ends ψ) ->
  (forall o, hoare own_step t (fun w => ready w /\ (R w /\ logged k o w)) (f (Some o)) (ends ψ)) ->
  hoare own_step t (fun w => ready w /\ R w) (bind (call (OGet k)) f) (ends ψ).
Proof.
  intros Hn Hs. eapply hoare_bind; [apply (hoare_read_owned t k (fun w => ready w /\ R w)); by intros w [? _]| |].
  - intros [o|]; eapply hoare_pre; [|apply Hs| |apply Hn]; [by intros w [[? ?] ?]|by intros w [[? ?] _]].
  - intros e. apply hoare_throw; [apply _|]. by intros w [? _].
Qed.
Lemma ends_post {A} P (p : prog B V A) φ ψ : (forall a w, ready w -> φ a w -> ψ a w) -> hoare own_step t P p (ends φ) -> hoare own_step t P p (ends ψ).
Proof. intros H. apply hoare_post. intros [a|e] w [? ?]; (split; [done|]); [by apply H|done]. Qed.
End Ends.

(** Deleting an object that was read. *)
Lemma hoare_retire t k id obj : owner k = Some id ->
  hoare own_step t (fun w => ready w /\ logged k obj w) (call (ODelete [k])) (fun r w => match r with Ok _ => gone k w | Err _ => ready w end).
Proof.
  intros Hk. assert (Hst : forall r : result (error V) unit, Stable own_step t (fun w => match r with Ok _ => gone k w | Err _ => ready w end)).
  { intros [u|e]; [|apply _]. apply kept_stable. by eapply kept_gone. }
  apply hoare_call; [apply _|exact Hst|]. intros w r w' [Hr [t0 Hl]] Hs.
  assert (Hp : plain_step w w') by (by eapply (plain_op_step t (ODelete [k]))). split; [by left|]. assert (Hr' : ready w') by (by eapply plain).
  destruct r as [u|e]; [|done]. destruct Hs as [[-> _]|(_ & _ & m & [=])]. split; [done|]. split.
  - apply elem_of_hist in Hl. intros E. change (hist k (remove w [k])) with (hist k w) in E. rewrite E in Hl. by apply not_elem_of_nil in Hl.
  - rewrite store_remove. by rewrite decide_True by (by left).
Qed.
End Owned.

