(* ===== verification/IdentityService.v ===== *)
(** * The identity directory

    [packages/core/src/services/identity/IdentityService.ts]: one record per user, refreshed
    on authenticated requests and carrying the account's suspension.  The service is the
    only writer; a refresh of the profile and a change of the suspension are compare-and-
    swap writes of the same object.  The suspension cache is the stale-while-revalidate
    cache of [Caches.v] seen through its answers; the cache of the directory listing and
    the searches over it are not modelled. *)

From Stdlib Require Import ZArith Lia Ascii.
From stdpp Require Import relations gmap strings.
From S2P Require Import Prelude Constants Schema Identity UtcDate Store Keys Cas CasTheorems CasEffects Storage Calls Listing SessionData Caches.

(** [AuthUser], without what authorization reads of it. *)
Record AuthUser := { au_id : UserId; au_email : string; au_name : option string; au_pictureUrl : option string }.

(** [IdentitySchema] *)
Record IdentityRecord := {
  id_id : UserId; id_email : string; id_name : string; id_picture_url : option string;
  id_suspended_at : option Timestamp; id_updated_at : Timestamp;
}.

Definition identity_key (userId : UserId) : key := "_system/identities/" +:+ encodeURIComponent userId +:+ ".json".

(** What a process keeps: verified tokens (for [TokenService]), suspensions with the time
    of their reading, and the signature of the profile last written. *)
Inductive cached (E : Type) := CToken (e : option E) | CSuspension (suspended : bool) (loadedAt : Z) | CWritten (sig : string).
Arguments CToken {E} e.
Arguments CSuspension {E} suspended loadedAt.
Arguments CWritten {E} sig.

(** JavaScript's [\s] among the bytes *)
Definition js_space (c : ascii) : bool := let n := nat_of_ascii c in ((9 <=? n) && (n <=? 13))%nat || (n === 32).
Fixpoint index_of_char (c : ascii) (l : list ascii) : option nat :=
  match l with
  | [] => None
  | x :: l' => if Ascii.eqb x c then Some 0 else S <$> index_of_char c l'
  end.
(** [EmailAddressSchema] on the bytes of the text *)
Definition EmailAddressSchema (value : string) : bool :=
  let l := String.list_ascii_of_string value in
  (length l <=? 320)%nat && negb (existsb js_space l) &&
  negb (existsb (fun c => let n := nat_of_ascii c in (n <=? 31)%nat || (n === 127)) l) &&
  match index_of_char "@"%char l with
  | Some i => (0 <? i)%nat && (length (List.filter (Ascii.eqb "@"%char) l) === 1) && (i <? length l - 1)%nat
  | None => false
  end.

(** Display name, falling back to the local part of the email. *)
Definition displayName (user : AuthUser) : string :=
  match truthy (trim <$> au_name user) with
  | Some name => name
  | None =>
      match index_of_char "@"%char (String.list_ascii_of_string (au_email user)) with
      | Some (S i) => String.substring 0 (S i) (au_email user)
      | _ => au_email user
      end
  end.
Definition zero_byte : string := String (ascii_of_nat 0) "".
Definition signature (email name : string) (pictureUrl : option string) : string :=
  email +:+ zero_byte +:+ name +:+ zero_byte +:+ (pictureUrl ?? "").

Definition ACTIVE_SUSPENSION_FRESH_MS : Z := 10000.
Definition ACTIVE_SUSPENSION_MAX_AGE_MS : Z := 30000.
Definition SUSPENDED_FRESH_MS : Z := 5 * 60000.
(** The [ttl] option of the suspension cache *)
Definition suspension_ttl (suspended : bool) : Ttl.TtlPolicy :=
  if suspended then {| Ttl.freshForMs := SUSPENDED_FRESH_MS; Ttl.staleForMs := None |}
  else {| Ttl.freshForMs := ACTIVE_SUSPENSION_FRESH_MS; Ttl.staleForMs := Some (ACTIVE_SUSPENSION_MAX_AGE_MS - ACTIVE_SUSPENSION_FRESH_MS)%Z |}.

Section IdentityService.
Context {B E : Type} {CI : Codec B IdentityRecord}.
(** [z.url] with the https protocol, from the schema library. *)
Context (is_https_url : string -> bool).
Local Notation prog := (prog B (cached E)).

Definition IdentitySchema (r : IdentityRecord) : bool :=
  is_user_id (id_id r) && optional is_https_url (id_picture_url r) && optional utcTimestamp (id_suspended_at r) &&
  utcTimestamp (id_updated_at r).
Definition IdentitySchema_parse (r : IdentityRecord) : prog IdentityRecord :=
  if IdentitySchema r then mret r else Throw (ValidationError "identity").

Definition suspension_slot (id : UserId) : key := "suspension/" +:+ id.
Definition written_slot (id : UserId) : key := "written/" +:+ id.

(** [updateCachedRecord] on the suspension cache *)
Definition updateCachedRecord (r : IdentityRecord) : prog unit :=
  now ← call ONow;
  call (OCacheSet (suspension_slot (id_id r)) (CSuspension (bool_decide (is_Some (id_suspended_at r))) now)).

(** One attempt of the write in [upsert]. *)
Definition upsert_attempt (user : AuthUser) (name : string) : prog IdentityRecord :=
  let k := identity_key (au_id user) in
  obj ← call (OGet k);
  existing ← match obj with Some o => r ← readStored o k; mret (Some r) | None => mret None end;
  now ← call ONow;
  next ← IdentitySchema_parse {|
    id_id := au_id user; id_email := au_email user; id_name := name; id_picture_url := truthy (au_pictureUrl user);
    id_suspended_at := truthy (existing ≫= id_suspended_at); id_updated_at := toISOString now |};
  cas_put k (stringify next) (match obj with Some o => onlyIfEtagMatches (o_etag o) | None => onlyIfNotExists end) ≫= fun _ =>
  mret next.
Definition upsert (user : AuthUser) : prog unit :=
  if negb (EmailAddressSchema (au_email user)) then Throw (ValidationError "email")
  else
    let name := displayName user in
    let sig := signature (au_email user) name (au_pictureUrl user) in
    last ← call (OCacheGet (written_slot (au_id user)));
    if match last with Some (CWritten s) => s === sig | _ => false end then mret tt
    else
      record ← withCasRetry (upsert_attempt user name) no_retry_options;
      call (OCacheSet (written_slot (au_id user)) (CWritten sig)) ≫= fun _ => updateCachedRecord record.

(** The transition of [setSuspension] *)
Definition suspension_fn (suspended : bool) (existing : IdentityRecord) : prog (unit * option IdentityRecord) :=
  if Bool.eqb suspended (bool_decide (is_Some (truthy (id_suspended_at existing)))) then mret (tt, None)
  else
    at_ ← (if suspended then now ← call ONow; mret (Some (toISOString now)) else mret None);
    mret (tt, Some {| id_id := id_id existing; id_email := id_email existing; id_name := id_name existing;
                      id_picture_url := id_picture_url existing; id_suspended_at := at_; id_updated_at := id_updated_at existing |}).
Definition setSuspension (id : UserId) (suspended : bool) : prog IdentityRecord :=
  '(_, o) ← mutateM (identity_key id) (suspension_fn suspended) (Some (NotFoundError ("User " +:+ id +:+ " not found")));
  updateCachedRecord (value _ o) ≫= fun _ => mret (value _ o).

Definition get (id : UserId) : prog (option IdentityRecord) :=
  obj ← call (OGet (identity_key id));
  match obj with None => mret None | Some o => r ← readStored o (identity_key id); mret (Some r) end.

(** [getMany]: duplicates are read once, corrupt and unknown records are left out. *)
Fixpoint get_each (ids : list UserId) : prog (list IdentityRecord) :=
  match ids with
  | [] => mret []
  | id :: ids' =>
      r ← catch (get id) (fun e => match e with StoredObjectError _ => mret None | e => Throw e end);
      rest ← get_each ids';
      mret (match r with Some x => x :: rest | None => rest end)
  end.
Definition getMany (ids : list UserId) : prog (list IdentityRecord) := get_each (js_set ids).

Definition loadSuspension (id : UserId) : prog bool :=
  handle (get id) (fun r =>
    match r with
    | Ok r => mret (bool_decide (is_Some (r ≫= id_suspended_at)))
    | Err _ => Throw (UnavailableError "Unable to verify account suspension status")
    end).
(** A load of the suspension cache. *)
Definition reload_suspension (id : UserId) : prog bool :=
  suspended ← loadSuspension id;
  now ← call ONow;
  call (OCacheSet (suspension_slot id) (CSuspension suspended now)) ≫= fun _ => mret suspended.
(** [isSuspended]: the cached answer while its policy allows, or a load.  A stale answer
    also starts a refresh in the background, which changes only the cache. *)
Definition isSuspended (id : UserId) : prog bool :=
  c ← call (OCacheGet (suspension_slot id));
  match c with
  | Some (CSuspension suspended at_) =>
      now ← call ONow;
      match Ttl.ttlState at_ now (suspension_ttl suspended) with
      | Ok Ttl.Fresh | Ok Ttl.Stale => mret suspended
      | Ok Ttl.Expired => reload_suspension id
      | Err _ => Throw RangeError
      end
  | _ => reload_suspension id
  end.

(** The directory, read afresh; corrupt records are left out. *)
Definition identitiesPrefix : string := "_system/identities/".
Definition scanDirectory (fuel : nat) : prog (list IdentityRecord) := keys ← listAllKeys fuel identitiesPrefix; readStoredObjects keys.
(** The loop of [getUniqueByEmails]: an email met twice is marked ambiguous. *)
Definition unique_step (targets : list string) (matches : gmap string (option IdentityRecord)) (identity : IdentityRecord) : gmap string (option IdentityRecord) :=
  let email := normalizeEmail (id_email identity) in
  if includes email targets then <[email := if bool_decide (is_Some (matches !! email)) then None else Some identity]> matches else matches.
Definition unique_matches (targets : list string) (identities : list IdentityRecord) : gmap string IdentityRecord :=
  omap (fun x => x) (fold_left (unique_step targets) identities ∅).
Definition getUniqueByEmails (fuel : nat) (emails : list string) : prog (gmap string IdentityRecord) :=
  match List.filter (fun e => negb (e === "")) (map normalizeEmail emails) with
  | [] => mret ∅
  | targets => identities ← scanDirectory fuel; mret (unique_matches targets identities)
  end.
Definition getUniqueByEmail (fuel : nat) (email : string) : prog (option IdentityRecord) :=
  let target := normalizeEmail email in
  if target === "" then mret None else found ← getUniqueByEmails fuel [target]; mret (found !! target).
End IdentityService.

(** An email is resolved exactly when one record of the directory carries it. *)
Definition carriers (email : string) (identities : list IdentityRecord) : list IdentityRecord :=
  List.filter (fun i => normalizeEmail (id_email i) === email) identities.
Lemma unique_fold targets email identities : email ∈ targets ->
  fold_left (unique_step targets) identities ∅ !! email = match carriers email identities with [] => None | [x] => Some (Some x) | _ => Some None end.
Proof.
  intros Ht. induction identities as [|x l IH] using rev_ind; [apply lookup_empty|]. rewrite fold_left_app. cbn [fold_left]. unfold carriers in *. rewrite List.filter_app. cbn [List.filter].
  revert IH. generalize (fold_left (unique_step targets) l ∅). intros m IH. unfold unique_step. destruct (bool_decide_reflect (normalizeEmail (id_email x) = email)) as [->|Hne].
  - rewrite (proj2 (includes_spec _ _) Ht), lookup_insert_eq, IH. destruct (List.filter _ l) as [|y [|z l']]; done.
  - rewrite app_nil_r. destruct (includes _ targets); [by rewrite lookup_insert_ne|done].
Qed.
Lemma unique_matches_spec targets email identities x : email ∈ targets ->
  unique_matches targets identities !! email = Some x <-> carriers email identities = [x].
Proof.
  intros Ht. unfold unique_matches. rewrite lookup_omap, (unique_fold targets email identities Ht). destruct (carriers email identities) as [|y [|z l]]; cbn; naive_solver.
Qed.

(** ** Replicas refreshing and suspending at once *)

Section Replicas.
Context {B E : Type} {CI : Codec B IdentityRecord} (is_https_url : string -> bool).
(** The stored text of a record is read back when the record satisfies its schema. *)
Context (identity_valid : forall r : IdentityRecord, valid r <-> IdentitySchema is_https_url r = true).
Local Notation prog := (prog B (cached E)).
Implicit Types w : world B (cached E).

Inductive request := Upsert (user : AuthUser) | SetSuspension (id : UserId) (suspended : bool) | IsSuspended (id : UserId) | GetMany (ids : list UserId).
Inductive answer := Done | Updated (r : IdentityRecord) | Suspended (b : bool) | Found (rs : list IdentityRecord).
Definition serve (q : request) : prog answer :=
  match q with
  | Upsert user => upsert is_https_url user ≫= fun _ => mret Done
  | SetSuspension id b => r ← setSuspension id b; mret (Updated r)
  | IsSuspended id => b ← isSuspended id; mret (Suspended b)
  | GetMany ids => rs ← getMany ids; mret (Found rs)
  end.
Context (requests : list request).

Definition identity_at (k : key) w : option IdentityRecord := o ← store w !! k; parse (o_body o).
Definition suspended (r : IdentityRecord) : bool := bool_decide (is_Some (id_suspended_at r)).
Definition same_profile (r r' : IdentityRecord) : Prop :=
  id_id r' = id_id r /\ id_email r' = id_email r /\ id_name r' = id_name r /\ id_picture_url r' = id_picture_url r /\ id_updated_at r' = id_updated_at r.

(** What a request may make of a stored record. *)
Definition may_follow (q : request) (k : key) (r r' : IdentityRecord) : Prop :=
  match q with
  | Upsert user => k = identity_key (au_id user) /\ id_id r' = au_id user /\ id_suspended_at r' = id_suspended_at r
  | SetSuspension id b => k = identity_key id /\ same_profile r r' /\ suspended r' = b /\ suspended r = negb b
  | _ => False
  end.
(** A record appears by a sign-in, not suspended. *)
Definition may_begin (q : request) (k : key) (r' : IdentityRecord) : Prop :=
  match q with Upsert user => k = identity_key (au_id user) /\ id_id r' = au_id user /\ id_suspended_at r' = None | _ => False end.
Definition id_step (t : tid) w w' : Prop :=
  grows w w' /\
  forall k, store w' !! k = store w !! k \/
    exists q o' r', requests !! t = Some q /\ store w' !! k = Some o' /\ parse (o_body o') = Some r' /\
      ((store w !! k = None /\ may_begin q k r') \/
       (exists o r, store w !! k = Some o /\ parse (o_body o) = Some r /\ may_follow q k r r')).

#[local] Instance id_protocol : Protocol id_step.
Proof. split; [intros t w; split; [done|by left]|by intros t w w' [? _]]. Qed.
#[local] Instance id_draws : DrawsIds id_step.
Proof. intros t w id Hid. split; [|by left]. split; cbn; [by intros [? ? ?]|done|lia| |by exists []]. intros id' t' Hi. rewrite lookup_insert_ne; [done|]. intros ->. congruence. Qed.

(** Programs that only read the store. *)
Definition reads_op {X} (o : op B (cached E) X) : Prop := match o with OPut _ _ _ | ODelete _ => False | _ => True end.
Definition reads {A} (p : prog A) : Prop := calls (fun X o => reads_op o) p.

Lemma reads_step t {X} (o : op B (cached E) X) w r w' : reads_op o -> op_step t o w r w' -> id_step t w w'.
Proof.
  intros Ho Hs. split; [by eapply op_step_grows|]. intros k. left.
  assert (Hsem : forall r w', sem t o w r w' -> store w' = store w).
  { clear Hs. intros r0 w0 Hs. destruct o; cbn in Hs, Ho; try done; try (by destruct Hs as [-> _]). by destruct Hs as (id & _ & _ & -> & _). }
  destruct Hs as [Hs|(_ & [->|[[r' Hs]|Hs]] & _)]; [by rewrite (Hsem _ _ Hs)|done|by rewrite (Hsem _ _ Hs)|by destruct o].
Qed.
Lemma hoare_reads t {A} (p : prog A) : reads p -> hoare id_step t wf p (fun _ => wf).
Proof.
  intros Hp w Hw. revert w Hw. induction p as [a|e|X o k IH]; intros w Hw w1 Hr; [by eapply (stable_rely id_step t wf)..|].
  intros r w2 Hs. destruct Hp as [Ho Hk]. assert (HG : id_step t w1 w2) by (by eapply reads_step). split; [done|]. apply IH; [done|].
  apply (grows_wf _ _ (proj1 HG)). by eapply (stable_rely id_step t wf).
Qed.

Lemma truthy_timestamp (ts : option Timestamp) : optional utcTimestamp ts = true -> truthy ts = ts.
Proof. by destruct ts as [[|]|]. Qed.
Lemma valid_suspended r : valid r -> truthy (id_suspended_at r) = id_suspended_at r.
Proof. intros Hv%identity_valid. apply truthy_timestamp. unfold IdentitySchema in Hv. by repeat (apply andb_true_iff in Hv as [Hv ?]). Qed.

(** The write of a record, on whatever condition. *)
Lemma step_identity t q w k r e : let o := {| o_body := stringify r; o_etag := e; o_uploaded := clock w |} in
  requests !! t = Some q -> etag_ok w k (stringify r) e -> IdentitySchema is_https_url r = true ->
  (store w !! k = None /\ may_begin q k r) \/ (exists o r0, store w !! k = Some o /\ parse (o_body o) = Some r0 /\ may_follow q k r0 r) ->
  id_step t w (write t w k o).
Proof.
  intros o Hq He Hs Hm. split; [eapply (sem_grows t (OPut k (stringify r) Always)); right; split; [done|]; by exists e|].
  intros k'. cbn. destruct (decide (k = k')) as [<-|Hne]; [right|left; by rewrite lookup_insert_ne]. rewrite lookup_insert_eq.
  exists q, o, r. split_and!; [done|done| |done]. by apply parse_stringify, identity_valid.
Qed.

(** The object a request has read. *)
Definition held (k : key) (x : option (object B)) w : Prop := wf w /\ match x with Some o => logged k o w | None => True end.
#[local] Instance stable_held t k x : Stable id_step t (held k x).
Proof. unfold held. destruct x; apply _. Qed.
#[local] Instance keeps_held k x : KeepsIds (held k x).
Proof. unfold held. destruct x; apply _. Qed.

Lemma upsert_attempt_spec t user name : requests !! t = Some (Upsert user) ->
  hoare id_step t wf (upsert_attempt is_https_url user name) (fun _ => wf).
Proof.
  intros Hq. unfold upsert_attempt. set (k := identity_key (au_id user)). eapply hoare_bind.
  { apply (hoare_get id_step t k wf (held k)).
    intros w Hw. split; [done|]. destruct (store w !! k) eqn:Es; [by apply (wf_stored _ Hw)|done]. }
  2:{ intros e. apply hoare_throw; [apply _|]. by intros w [? _]. }
  intros obj. set (P := held k obj).
  eapply hoare_bind with (M := fun r w => P w /\ match r with Ok x => x = (obj ≫= fun o => parse (o_body o)) /\ (obj <> None -> x <> None) | Err _ => True end).
  { destruct obj as [o|]; [|by apply hoare_ret; [apply _|]]. unfold readStored. cbn. destruct (parse (o_body o)) as [r|] eqn:Hp; [by apply hoare_ret; [apply _|]|by apply hoare_throw; [apply _|]]. }
  2:{ intros e. apply hoare_throw; [apply _|]. by intros w [[? _] _]. }
  intros existing. eapply hoare_pre; [intros w Hw; exact (conj (proj2 Hw) (proj1 Hw))|]. apply hoare_pure. intros [Hex Hsome].
  eapply hoare_bind; [apply (hoare_now id_step t P (fun _ => True)); done| |].
  2:{ intros e. apply hoare_throw; [apply _|]. by intros w (? & [=] & _). }
  intros now. eapply hoare_pre with (P := P); [by intros w (n & [= <-] & _ & _ & ?)|]. unfold IdentitySchema_parse.
  set (next := {| id_id := au_id user; id_email := _ |}). destruct (IdentitySchema is_https_url next) eqn:Hv.
  2:{ apply hoare_throw; [apply _|]. by intros w [? _]. }
  eapply hoare_ret_bind, hoare_bind with (M := fun _ => wf); [|intros i; by apply hoare_ret; [apply _|]|intros e; by apply hoare_throw; [apply _|]].
  eapply hoare_cas_put; [apply (hoare_put id_step t k (stringify next) _ P (fun _ => wf))|intros [i|[]]; apply _| |].
  - intros w e [Hw Hl] Hh He o. assert (HG : id_step t w (write t w k o)); [|split; [done|by apply (grows_wf _ _ (proj1 HG))]].
    apply (step_identity t (Upsert user)); [done|done|done|]. destruct obj as [ob|].
    + right. destruct (holds_etag_body _ _ _ Hw Hl Hh) as (o' & Ho' & Hb). cbn in Hex. destruct (parse (o_body ob)) as [r|] eqn:Hp; [|by destruct Hsome].
      exists o', r. split_and!; [done|by rewrite Hb|]. split_and!; [done|done|]. cbn. rewrite Hex. cbn. apply valid_suspended. by eapply parse_valid.
    + left. split; [done|]. split_and!; [done|done|]. cbn. by rewrite Hex.
  - by intros w [? _].
  - intros [i|e] w Hne Hw; [done|]. destruct e; try done. destruct Hw as [[? _]|[_ ?]]; done.
Qed.

Lemma updateCached_reads r : reads (updateCachedRecord (B := B) (E := E) r).
Proof. apply calls_bind; [by apply calls_call|]. intros now. by apply calls_call. Qed.

Lemma upsert_spec t user : requests !! t = Some (Upsert user) -> hoare id_step t wf (upsert is_https_url user) (fun _ => wf).
Proof.
  intros Hq. unfold upsert. destruct (negb (EmailAddressSchema (au_email user))); [by apply hoare_throw; [apply _|]|].
  eapply hoare_bind; [apply (hoare_reads t (call (OCacheGet _))); by apply calls_call| |intros e; by apply hoare_throw; [apply _|]].
  intros last. destruct (match last with Some (CWritten sg) => _ | _ => false end); [by apply hoare_ret; [apply _|]|].
  eapply hoare_bind with (M := fun _ => wf); [| |intros e; by apply hoare_throw; [apply _|]].
  - apply hoare_withCasRetry; [apply _|apply _| |done|apply _]. eapply hoare_post; [|by apply upsert_attempt_spec]. by intros [r|[]] w.
  - intros record. apply hoare_reads. apply calls_bind; [by apply calls_call|]. intros _. apply updateCached_reads.
Qed.

Lemma setSuspension_spec t id b : requests !! t = Some (SetSuspension id b) -> hoare id_step t wf (setSuspension id b) (fun _ => wf).
Proof.
  intros Hq. unfold setSuspension. eapply hoare_bind with (M := fun _ => wf); [| |intros e; by apply hoare_throw; [apply _|]].
  2:{ intros [_ o]. apply hoare_reads. apply calls_bind; [apply updateCached_reads|done]. }
  eapply hoare_post; [|apply (hoare_mutateM id_step t (identity_key id) (suspension_fn b) _ wf) with
    (φ := fun cur _ next => same_profile cur next /\ suspended next = b /\ suspended cur = negb b /\ IdentitySchema is_https_url next = true)
    (ψ := fun _ _ => True) (S := fun _ _ _ => wf)].
  - intros [[x o]|[]] w; cbn; try done; [destruct (written _ o); [by intros [_ ?]|by intros [_ ?]]|intros [?|(_ & _ & _ & ?)]; done].
  - done.
  - intros cur Hv. unfold suspension_fn. rewrite (valid_suspended cur Hv). fold (suspended cur). destruct (Bool.eqb b (suspended cur)) eqn:Eb; [done|].
    assert (Hneg : suspended cur = negb b) by (by destruct b, (suspended cur)).
    assert (Hsch : forall ts, optional utcTimestamp ts = true -> IdentitySchema is_https_url {| id_id := id_id cur; id_email := id_email cur; id_name := id_name cur;
      id_picture_url := id_picture_url cur; id_suspended_at := ts; id_updated_at := id_updated_at cur |} = true).
    { intros ts Hts. apply identity_valid in Hv. unfold IdentitySchema in *. cbn. repeat (apply andb_true_iff in Hv as [Hv ?]). by rewrite Hv, H, H1, Hts. }
    destruct b; cbn.
    + split; [done|]. intros now Hnow. cbn. split; [by split_and!|]. split_and!; [done|done|]. apply Hsch. by apply iso_now_valid.
    + split; [by split_and!|]. split_and!; [done|done|]. by apply Hsch.
  - intros cur x next. apply _.
  - intros w o cur x next e Hw Ho Hp (Hprof & Hs & Hn & Hv) He obj. assert (HG : id_step t w (write t w (identity_key id) obj)).
    { apply (step_identity t (SetSuspension id b)); [done|done|done|]. right. by exists o, cur. }
    split; [done|]. by apply (grows_wf _ _ (proj1 HG)).
Qed.

Lemma get_reads id : reads (get (B := B) (E := E) id).
Proof. apply calls_bind; [by apply calls_call|]. intros [o|]; [|done]. apply calls_bind; [|done]. unfold readStored. by destruct (parse (o_body o)). Qed.
Lemma isSuspended_reads id : reads (isSuspended (B := B) (E := E) id).
Proof.
  unfold isSuspended. assert (Hl : reads (reload_suspension (B := B) (E := E) id)).
  { apply calls_bind; [apply calls_handle; [apply get_reads|by intros []]|]. intros b. apply calls_bind; [by apply calls_call|]. intros now. apply calls_bind; [by apply calls_call|done]. }
  apply calls_bind; [by apply calls_call|]. intros [[|b at_|]|]; try done. apply calls_bind; [by apply calls_call|]. intros now.
  by destruct (Ttl.ttlState _ _ _) as [[]|].
Qed.
Lemma getMany_reads ids : reads (getMany (B := B) (E := E) ids).
Proof.
  unfold getMany. induction (js_set ids) as [|id l IH]; [done|]. apply calls_bind; [apply calls_catch; [apply get_reads|by intros []]|].
  intros r. by apply calls_bind.
Qed.

Lemma serve_identity_spec t q : requests !! t = Some q -> hoare id_step t wf (serve q) (fun _ => wf).
Proof.
  intros Hq. destruct q as [user|id b|id|ids]; cbn [serve].
  - eapply hoare_bind; [by apply upsert_spec|intros []; by apply hoare_ret; [apply _|]|intros e; by apply hoare_throw; [apply _|]].
  - eapply hoare_bind; [by apply setSuspension_spec|intros r; by apply hoare_ret; [apply _|]|intros e; by apply hoare_throw; [apply _|]].
  - apply hoare_reads. apply calls_bind; [apply isSuspended_reads|done].
  - apply hoare_reads. apply calls_bind; [apply getMany_reads|done].
Qed.

(** C15: A profile refresh never touches a suspension.  Whatever number of replicas record
    sign-ins, suspend and reinstate accounts at once, with any storage faults: a stored
    identity record stays one, every change of it is either a refresh of its own user,
    which keeps the suspension as it is at that moment, or a request to suspend or
    reinstate, which changes nothing but the suspension. *)
Theorem suspension_survives_refresh w0 c1 c2 k r1 : wf w0 -> rtc pool_step (Config (map serve requests) w0) c1 -> pool_step c1 c2 ->
  identity_at k (wd c1) = Some r1 ->
  exists r2, identity_at k (wd c2) = Some r2 /\
    (r2 = r1 \/ exists i q, requests !! i = Some q /\ may_follow q k r1 r2).
Proof.
  intros Hw Hr Hs Hk. assert (Hv : verified id_step (fun _ _ => wf) (Config (map serve requests) w0)).
  { intros i p Hp. cbn in Hp. rewrite list_lookup_fmap in Hp. destruct (requests !! i) as [q|] eqn:Eq; [|done]. injection Hp as <-. by apply serve_identity_spec. }
  destruct (pool_guarantee _ _ _ _ _ Hv Hr Hs) as [(i & (_ & HG) & _)|(ms & _ & ->)]; [|exists r1; by split; [|left]].
  unfold identity_at in *. destruct (HG k) as [->|(q & o' & r' & Hq & Ho' & Hp' & Hm)]; [exists r1; by split; [|left]|].
  rewrite Ho'. exists r'. split; [done|]. right. exists i, q. split; [done|]. destruct Hm as [[Hn _]|(o & r & Ho & Hp & Hm)]; [by rewrite Hn in Hk|].
  rewrite Ho in Hk. cbn in Hk. rewrite Hp in Hk. by injection Hk as ->.
Qed.
End Replicas.

(** ** A run: a refresh of a suspended account *)
Module IdentitySample.
Definition is_https (u : string) : bool := bool_decide (is_Some (startsWith "https://" u)).
#[export, refine] Instance identity_codec : Codec IdentityRecord IdentityRecord := {|
  valid r := IdentitySchema is_https r = true; stringify r := r; parse r := if IdentitySchema is_https r then Some r else None |}.
Proof.
  - intros r H. by rewrite H.
  - intros b x. destruct (IdentitySchema is_https b) eqn:E; [|done]. by intros [= <-].
Defined.
Definition ana : AuthUser := {| au_id := "u-ana"; au_email := "ana@example.org"; au_name := Some "Ana"; au_pictureUrl := None |}.
Definition ana2 : AuthUser := {| au_id := "u-ana"; au_email := "ana@example.org"; au_name := Some "Ana B."; au_pictureUrl := None |}.
Definition requests : list request := [Upsert ana; SetSuspension "u-ana" true; Upsert ana2].
Definition start : config IdentityRecord (cached unit) answer := Config (map (serve is_https) requests) empty_world.
Definition turns : list turn := map Turn [0; 0; 0; 0; 0; 0; 0; 1; 1; 1; 2; 2; 2].
Definition before : config IdentityRecord (cached unit) answer := default start (interleave start turns).
Definition after : config IdentityRecord (cached unit) answer := default start (take_turn before (Turn 2)).
Definition record_at (c : config IdentityRecord (cached unit) answer) : option IdentityRecord := identity_at (identity_key "u-ana") (wd c).

Definition defined {A} (x : option A) : bool := match x with Some _ => true | None => false end.
Lemma default_defined {A} (d : A) x : defined x = true -> x = Some (default d x).
Proof. by destruct x. Qed.
Lemma reached : rtc pool_step start before /\ pool_step before after.
Proof.
  assert (Hm : mem_wf (wd start)) by (intros t k o H; inversion H).
  assert (H1 : interleave start turns = Some before) by (apply default_defined; vm_compute; reflexivity).
  destruct (interleave_reaches start before turns Hm H1) as [Hr Hm']. split; [exact Hr|].
  apply (take_turn_step before after 2 Hm'); [vm_compute; reflexivity|]. apply default_defined. vm_compute. reflexivity.
Qed.

Definition r1 : IdentityRecord :=
  {| id_id := "u-ana"; id_email := "ana@example.org"; id_name := "Ana"; id_picture_url := None;
     id_suspended_at := Some "1970-01-01T00:00:00.000Z"; id_updated_at := "1970-01-01T00:00:00.000Z" |}.
Lemma before_r1 : identity_at (identity_key "u-ana") (wd before) = Some r1.
Proof. vm_compute. reflexivity. Qed.
Lemma schema_valid (r : IdentityRecord) : valid r <-> IdentitySchema is_https r = true.
Proof. done. Qed.

(** The suspension set between the sign-ins is kept by the later one. *)
Lemma suspension_survives_refresh_witness : exists r2,
  identity_at (identity_key "u-ana") (wd after) = Some r2 /\ id_name r2 = "Ana B." /\ suspended r2 = true /\
  (r2 = r1 \/ exists i q, requests !! i = Some q /\ may_follow q (identity_key "u-ana") r1 r2).
Proof.
  destruct (suspension_survives_refresh (E := unit) is_https schema_valid requests empty_world before after (identity_key "u-ana") r1
    wf_empty (proj1 reached) (proj2 reached) before_r1) as (r2 & H2 & Hor).
  exists r2. split; [exact H2|]. split; [|split; [|exact Hor]]; vm_compute in H2; injection H2 as <-; reflexivity.
Defined.
End IdentitySample.
