(* ===== verification/Tokens.v ===== *)
(** * Personal access tokens

    [packages/core/src/services/tokens/TokenService.ts]: bearer credentials that act as their
    issuing user.  A token is one object under the id embedded in the credential; only
    the hash of the secret is stored.  Verification is cached per process for a short
    time; the usage mark is written conditionally so that it cannot bring a revoked token
    back.  SHA-256 is a parameter.  Random secrets are arguments of the operations. *)

From Stdlib Require Import ZArith Lia Ascii.
From S2P Require Import Prelude Constants Schema Grants UtcDate Store Keys Cas Storage SessionData JobData IdentityService Authorization.

(** ** Encodings *)

(** [TextEncoder.encode]: the bytes of a text *)
Definition encode (s : string) : list Z := map (fun c => Z.of_nat (nat_of_ascii c)) (String.list_ascii_of_string s).

(** [timingSafeEqual] ([internal/hmac.ts]): the loop accumulates the differences. *)
Fixpoint diff_bytes (a b : list Z) (diff : Z) : Z :=
  match a, b with
  | x :: a', y :: b' => diff_bytes a' b' (Z.lor diff (Z.lxor x y))
  | _, _ => diff
  end.
Definition timingSafeEqual (a b : list Z) : bool :=
  if negb (length a =? length b) then false else (diff_bytes a b 0 =? 0)%Z.

(** [toHex] ([internal/hex.ts]) *)
Definition hex_char (n : Z) : ascii := ascii_of_nat (Z.to_nat (if (n <? 10)%Z then 48 + n else 87 + n)).
Definition toHex (bytes : list Z) : string :=
  String.string_of_list_ascii (concat (map (fun b => [hex_char (b / 16); hex_char (b mod 16)]) bytes)).

(** [toBase64Url] ([internal/base64url.ts]): base64 with the URL alphabet, without padding *)
Definition b64_char (n : Z) : ascii :=
  ascii_of_nat (Z.to_nat (if (n <? 26)%Z then 65 + n else if (n <? 52)%Z then 71 + n else if (n <? 62)%Z then n - 4
                          else if (n =? 62)%Z then 45 else 95)).
Fixpoint b64_chars (bytes : list Z) : list ascii :=
  match bytes with
  | a :: b :: c :: rest =>
      b64_char (a / 4) :: b64_char (a mod 4 * 16 + b / 16) :: b64_char (b mod 16 * 4 + c / 64) :: b64_char (c mod 64) :: b64_chars rest
  | [a; b] => [b64_char (a / 4); b64_char (a mod 4 * 16 + b / 16); b64_char (b mod 16 * 4)]
  | [a] => [b64_char (a / 4); b64_char (a mod 4 * 16)]
  | [] => []
  end.
Definition toBase64Url (bytes : list Z) : string := String.string_of_list_ascii (b64_chars bytes).

(** ** Codes: a prefix, a ULID and a secret of 32 characters *)

Definition code_id : string -> bool := id_format "" 26 (fun c => is_digit c || is_upper c).
Definition code_secret : string -> bool := id_format "" 32 (fun c => is_digit c || is_lower c).
Definition format_code (prefix id secret : string) : string := prefix +:+ id +:+ "_" +:+ secret.
(** [/^<prefix>([0-9A-Z]{26})_([0-9a-z]{32})$/] *)
Definition parse_code (prefix code : string) : option (string * string) :=
  match startsWith prefix code with
  | Some rest =>
      let id := String.substring 0 26 rest in
      let secret := slice_from 27 rest in
      if code_id id && (String.substring 26 1 rest === "_") && code_secret secret then Some (id, secret) else None
  | None => None
  end.

(** The random secrets of [generateSecret] and [generateAuthorizationSecret]. *)
Definition SECRET_ALPHABET : list ascii := String.list_ascii_of_string "0123456789abcdefghjkmnpqrstvwxyz".
Definition SECRET_LENGTH : nat := 32.
Definition generateSecret (bytes : list Z) : string :=
  String.string_of_list_ascii (map (fun b => nth (Z.to_nat (Z.land b 31)) SECRET_ALPHABET "0"%char) (take SECRET_LENGTH bytes)).

(** ** Records *)

Definition PAT_PREFIX : string := "mhub_pat_".
(** [TokenSchema] *)
Record Token := {
  tk_id : string; tk_user_id : UserId; tk_name : string; tk_hash : string; tk_created_at : Timestamp;
  tk_expires_at : option Timestamp; tk_last_used_at : option Timestamp; tk_credential_version : option Z;
  tk_mcp_resource : option string; tk_grant : option TokenGrant; tk_oauth : option OAuthCredentialBinding;
  tk_extra : list (string * string);
}.
Record PublicToken := {
  pt_id : string; pt_user_id : UserId; pt_name : string; pt_created_at : Timestamp; pt_expires_at : option Timestamp;
  pt_last_used_at : option Timestamp; pt_grant : option TokenGrant; pt_mcp_resource : option string;
}.
Definition toPublicToken (t : Token) : PublicToken :=
  {| pt_id := tk_id t; pt_user_id := tk_user_id t; pt_name := tk_name t; pt_created_at := tk_created_at t;
     pt_expires_at := tk_expires_at t; pt_last_used_at := tk_last_used_at t; pt_grant := tk_grant t; pt_mcp_resource := tk_mcp_resource t |}.

Record CreateTokenInput := {
  ct_name : string; ct_expiresInDays : option Z; ct_grant : option TokenGrant; ct_oauth : option OAuthCredentialBinding;
  ct_mcpResource : option string;
}.
Record CreatedToken := { cr_token : string; cr_record : PublicToken }.
(** [AuthenticatedPrincipal]: the user with the credential it was authenticated by *)
Record AuthenticatedPrincipal := { pr_user : AuthUser; pr_credential : AuthCredential }.
Record CacheEntry := { ce_record : Token; ce_user : AuthUser; ce_etag : string; ce_at : Z }.

Definition token_key (id : string) : key := "_system/tokens/" +:+ id +:+ ".json".
Definition tokensPrefix : string := "_system/tokens/".
Definition MAX_TOKENS_PER_USER : nat := 20.
Definition CACHE_TTL_MS : Z := 30000.
Definition DAY_MS : Z := 24 * 60 * 60 * 1000.

(** [new Date(ts).getTime() <= now]; an unreadable time compares false. *)
Definition passed (ts : Timestamp) (now : Z) : bool := match date_parse ts with Some at_ => (at_ <=? now)%Z | None => false end.
(** [isLive]: no expiry, or one after now *)
Definition isLive (expires : option Timestamp) (now : Z) : bool :=
  match expires with None => true | Some ts => match date_parse ts with Some at_ => (now <? at_)%Z | None => false end end.

Section TokenService.
Context {B : Type} {CI : Codec B IdentityRecord} {CT : Codec B Token}.
(** The digest, from the platform. *)
Context (sha256 : string -> list Z).
Local Notation prog := (prog B (cached CacheEntry)).

Definition sha256Hex (value : string) : string := toHex (sha256 value).
Definition hashPatSecret (secret : string) : string := sha256Hex secret.
Definition hashScopedPatSecret (tokenId secret : string) : string := hashPatSecret ("mhub_pat:v2:" +:+ tokenId +:+ ":" +:+ secret).

(** [parseTokenBody] *)
Definition parseTokenBody (o : object B) : option Token := parse (o_body o).

Definition list_tokens (fuel : nat) (userId : UserId) : prog (list PublicToken) :=
  keys ← listAllKeys fuel tokensPrefix;
  records ← readStoredObjects keys;
  mret (map toPublicToken (js_sort (fun a b => String.leb (tk_id b) (tk_id a)) (List.filter (fun r => tk_user_id r === userId) records))).

(** The record [create] stores *)
Definition new_token (input : CreateTokenInput) (userId : UserId) (id secret : string) (now : Z) : Token :=
  let v2 := bool_decide (is_Some (ct_grant input)) in
  {| tk_id := id; tk_user_id := userId; tk_name := ct_name input;
     tk_hash := if v2 then hashScopedPatSecret id secret else hashPatSecret secret;
     tk_created_at := toISOString now;
     tk_expires_at := (fun days => toISOString (now + days * DAY_MS)) <$> ct_expiresInDays input;
     tk_last_used_at := None;
     tk_credential_version := if v2 then Some 2%Z else None;
     tk_mcp_resource := if v2 then ct_mcpResource input else None;
     tk_grant := ct_grant input;
     tk_oauth := if v2 then ct_oauth input else None;
     tk_extra := [] |}.
Definition create (fuel : nat) (input : CreateTokenInput) (userId : UserId) (secret : string) : prog CreatedToken :=
  if bool_decide (is_Some (ct_oauth input)) && bool_decide (ct_grant input = None)
  then Throw (BadRequestError "OAuth tokens require an explicit grant")
  else if bool_decide (is_Some (ct_mcpResource input)) && (bool_decide (ct_grant input = None) || bool_decide (is_Some (ct_oauth input)))
  then Throw (BadRequestError "Manual MCP tokens require an explicit grant and cannot have an OAuth binding")
  else
    now ← call ONow;
    tokens ← list_tokens fuel userId;
    if (MAX_TOKENS_PER_USER <=? length (List.filter (fun t => isLive (pt_expires_at t) now) tokens))%nat
    then Throw (ResourceExhaustedError "Token limit reached (20 per user) — revoke an unused token first")
    else
      id ← call (OFreshId "token");
      let record := new_token input userId id secret now in
      call (OPut (token_key id) (stringify record) Always) ≫= fun _ =>
      mret {| cr_token := format_code PAT_PREFIX id secret; cr_record := toPublicToken record |}.

Definition token_slot (id : string) : key := "token/" +:+ id.

Definition revoke (userId : UserId) (tokenId : string) : prog unit :=
  obj ← call (OGet (token_key tokenId));
  match obj ≫= parseTokenBody with
  | Some record =>
      if tk_user_id record === userId then
        call (ODelete [token_key tokenId]) ≫= fun _ => call (OCacheSet (token_slot tokenId) (CToken None))
      else Throw (NotFoundError ("Token " +:+ tokenId +:+ " not found"))
  | None => Throw (NotFoundError ("Token " +:+ tokenId +:+ " not found"))
  end.

(** [load] past its cache: read, resolve the issuer, keep. *)
Definition load_fresh (tokenId : string) : prog (option CacheEntry) :=
  obj ← call (OGet (token_key tokenId));
  match obj with
  | None => call (OCacheSet (token_slot tokenId) (CToken None)) ≫= fun _ => mret None
  | Some o =>
      match parseTokenBody o with
      | None => mret None
      | Some record =>
          identities ← getMany [tk_user_id record];
          match identities with
          | [] => mret None
          | identity :: _ =>
              now ← call ONow;
              let entry := {| ce_record := record;
                ce_user := {| au_id := id_id identity; au_email := id_email identity; au_name := Some (id_name identity); au_pictureUrl := None |};
                ce_etag := o_etag o; ce_at := now |} in
              call (OCacheSet (token_slot tokenId) (CToken (Some entry))) ≫= fun _ => mret (Some entry)
          end
      end
  end.
Definition load (tokenId : string) : prog (option CacheEntry) :=
  c ← call (OCacheGet (token_slot tokenId));
  match c with
  | Some (CToken (Some entry)) =>
      now ← call ONow;
      if (now - ce_at entry <? CACHE_TTL_MS)%Z then mret (Some entry) else load_fresh tokenId
  | _ => load_fresh tokenId
  end.

Definition touched (r : Token) (now : Timestamp) : Token :=
  {| tk_id := tk_id r; tk_user_id := tk_user_id r; tk_name := tk_name r; tk_hash := tk_hash r; tk_created_at := tk_created_at r;
     tk_expires_at := tk_expires_at r; tk_last_used_at := Some now; tk_credential_version := tk_credential_version r;
     tk_mcp_resource := tk_mcp_resource r; tk_grant := tk_grant r; tk_oauth := tk_oauth r; tk_extra := tk_extra r |}.
(** The entry is changed in place: seen by later requests if it is still the cached one. *)
Definition refresh_entry (tokenId : string) (entry entry' : CacheEntry) : prog unit :=
  c ← call (OCacheGet (token_slot tokenId));
  match c with
  | Some (CToken (Some e)) =>
      if (ce_etag e === ce_etag entry) && (ce_at e =? ce_at entry)%Z then call (OCacheSet (token_slot tokenId) (CToken (Some entry'))) else mret tt
  | _ => mret tt
  end.
(** [touch]: once a day, conditional, and never failing the request *)
Definition touch (tokenId : string) (entry : CacheEntry) : prog unit :=
  now ← call ONow;
  let ts := toISOString now in
  let record := ce_record entry in
  if match tk_last_used_at record with Some last => String.substring 0 10 last === String.substring 0 10 ts | None => false end then mret tt
  else
    handle (call (OPut (token_key (tk_id record)) (stringify (touched record ts)) (onlyIfEtagMatches (ce_etag entry)))) (fun r =>
      match r with
      | Ok written => refresh_entry tokenId entry {| ce_record := touched record ts; ce_user := ce_user entry; ce_etag := i_etag written; ce_at := ce_at entry |}
      | Err _ => mret tt
      end).

Definition presented_hash (record : Token) (tokenId secret : string) : string :=
  if bool_decide (tk_credential_version record = Some 2%Z) then hashScopedPatSecret tokenId secret else hashPatSecret secret.
Definition principal_of (tokenId : string) (entry : CacheEntry) : AuthenticatedPrincipal :=
  let record := ce_record entry in
  {| pr_user := ce_user entry;
     pr_credential := {| cred_kind := PersonalAccessToken; cred_id := Some tokenId; cred_expiresAt := tk_expires_at record; cred_grant := tk_grant record;
                         cred_mcpResource := tk_mcp_resource record; cred_oauth := tk_oauth record; cred_subjectContextRef := None |} |}.
Definition verify (bearer : string) : prog (option AuthenticatedPrincipal) :=
  match parse_code PAT_PREFIX bearer with
  | None => mret None
  | Some (tokenId, secret) =>
      entry ← load tokenId;
      match entry with
      | None => mret None
      | Some entry =>
          let record := ce_record entry in
          if negb (timingSafeEqual (encode (presented_hash record tokenId secret)) (encode (tk_hash record))) then mret None
          else
            expired ← match tk_expires_at record with None => mret false | Some ts => now ← call ONow; mret (passed ts now) end;
            if expired : bool then call (OCacheSet (token_slot tokenId) (CToken None)) ≫= fun _ => mret None
            else
              suspended ← isSuspended (au_id (ce_user entry));
              if suspended : bool then mret None
              else touch tokenId entry ≫= fun _ => mret (Some (principal_of tokenId entry))
      end
  end.
End TokenService.

(** ** Properties of the encodings *)

Lemma diff_bytes_zero a b d : length a = length b -> (forall x, x ∈ a ++ b -> (0 <= x)%Z) -> (0 <= d)%Z ->
  diff_bytes a b d = 0%Z <-> d = 0%Z /\ a = b.
Proof.
  revert b d. induction a as [|x a IH]; intros [|y b] d Hl Hpos Hd; cbn in *; try lia; [naive_solver|].
  assert (Hx : (0 <= x)%Z) by (apply Hpos; by left). assert (Hy : (0 <= y)%Z) by (apply Hpos; right; apply elem_of_app; right; by left).
  assert (Hxy : (0 <= Z.lxor x y)%Z) by (by apply Z.lxor_nonneg; lia).
  rewrite IH; [|lia| |by apply Z.lor_nonneg].
  - rewrite Z.lor_eq_0_iff, Z.lxor_eq_0_iff. naive_solver.
  - intros z Hz. apply Hpos. right. apply elem_of_app in Hz as [?|?]; apply elem_of_app; [by left|right; by right].
Qed.

Lemma encode_inj a b : encode a = encode b -> a = b.
Proof.
  unfold encode. intros H. assert (Hl : String.list_ascii_of_string a = String.list_ascii_of_string b).
  { revert H. generalize (String.list_ascii_of_string a) (String.list_ascii_of_string b). induction l as [|x l IH]; intros [|y l'] H; try done.
    cbn in H. injection H as Hxy H. f_equal; [|by apply IH]. apply Nat2Z.inj, (f_equal ascii_of_nat) in Hxy. by rewrite !ascii_nat_embedding in Hxy. }
  apply (f_equal String.string_of_list_ascii) in Hl. by rewrite !String.string_of_list_ascii_of_string in Hl.
Qed.

(** The constant-time comparison of two texts is their equality. *)
Lemma timingSafeEqual_spec a b : timingSafeEqual (encode a) (encode b) = true <-> a = b.
Proof.
  unfold timingSafeEqual. destruct (Nat.eqb_spec (length (encode a)) (length (encode b))) as [Hl|Hl]; cbn; [|split; [done|by intros ->]].
  rewrite Z.eqb_eq, diff_bytes_zero; [|done| |done]; [split; [by intros [_ ?%encode_inj]|by intros ->]|].
  intros x [Hx|Hx]%elem_of_app; unfold encode in Hx; apply list_elem_of_fmap in Hx as (c & -> & _); lia.
Qed.

Lemma substring_head a b n : String.length a = n -> String.substring 0 n (a +:+ b) = a.
Proof. intros <-. induction a as [|c a IH]; [by destruct b|]. change (String c (String.substring 0 (String.length a) (a +:+ b)) = String c a). by rewrite IH. Qed.
Lemma substring_all s n : String.length s = n -> String.substring 0 n s = s.
Proof. intros <-. induction s as [|c s IH]; [done|]. cbn. by rewrite IH. Qed.
Lemma substring_skip a b n m : String.length a = n -> String.substring n m (a +:+ b) = String.substring 0 m b.
Proof. intros <-. induction a as [|c a IH]; [done|]. exact IH. Qed.
Lemma code_format_length n cls s : id_format "" n cls s = true -> String.length s = n.
Proof. unfold id_format. change (startsWith "" s) with (Some s). cbv iota. intros [H _]%andb_true_iff. by apply bool_decide_eq_true in H. Qed.

(** A code parses back to the id and secret it was made of. *)
Lemma parse_format_code prefix id secret : code_id id = true -> code_secret secret = true ->
  parse_code prefix (format_code prefix id secret) = Some (id, secret).
Proof.
  intros Hi Hs. assert (Li := code_format_length _ _ _ Hi). assert (Ls := code_format_length _ _ _ Hs).
  unfold parse_code, format_code. rewrite startsWith_app.
  rewrite (substring_head id _ 26 Li), (substring_skip id _ 26 1 Li). unfold slice_from.
  assert (Hl : String.length (id +:+ "_" +:+ secret) = 59) by (rewrite !string_app_length, Li, Ls; done).
  rewrite Hl. change 59 with (27 + 32). rewrite <- string_app_assoc.
  rewrite (substring_skip (id +:+ "_") secret 27) by (by rewrite string_app_length, Li).
  replace (27 + 32 - 27) with 32 by lia. rewrite (substring_all secret 32 Ls), Hi, Hs.
  assert (H1 : String.substring 0 1 ("_" +:+ secret) = "_") by by destruct secret. rewrite H1. done.
Qed.
