(* ===== verification/CliAuthorization.v ===== *)
(** * Authorization of the command line client

    [packages/core/src/services/tokens/CliAuthorizationService.ts] and
    [authorizationCodes.ts]: a signed-in user approves a token for a client, directly
    (loopback flow) or by a short user code shown on another device; the client redeems
    its code, with the secret in it and the verifier of its challenge, for the token.
    Random secrets and user codes are arguments of the operations; SHA-256 and the
    decoding of ULID times are parameters. *)

From Stdlib Require Import ZArith Lia Ascii.
From S2P Require Import Prelude Constants Schema Grants UtcDate Store Cas SessionData IdentityService Tokens.

(** ** Records *)

(** [AuthorizationCommonSchema] *)
Record AuthorizationCommon := {
  cc_id : string; cc_code_hash : string; cc_code_challenge : string; cc_created_at : Timestamp; cc_expires_at : Timestamp;
  cc_extra : list (string * string);
}.
Inductive Flow := Loopback | Device.
(** The rest of [ApprovedAuthorizationSchema] *)
Record Approval := {
  ap_flow : Flow; ap_user_id : UserId; ap_user_code : option string; ap_token_name : string; ap_expires_in_days : Z;
}.
(** [CliAuthorizationSchema] *)
Inductive CliAuthorization :=
| DevicePending (c : AuthorizationCommon) (user_code : string)
| Pending (c : AuthorizationCommon) (a : Approval)
| Claimed (c : AuthorizationCommon) (a : Approval)
| DevicePendingV2 (c : AuthorizationCommon) (user_code : string) (requested : TokenGrant)
| PendingV2 (c : AuthorizationCommon) (a : Approval) (requested grant : TokenGrant)
| ClaimedV2 (c : AuthorizationCommon) (a : Approval) (requested grant : TokenGrant).
Definition common (r : CliAuthorization) : AuthorizationCommon :=
  match r with
  | DevicePending c _ | Pending c _ | Claimed c _ | DevicePendingV2 c _ _ | PendingV2 c _ _ _ | ClaimedV2 c _ _ _ => c
  end.
Definition flow (r : CliAuthorization) : Flow :=
  match r with
  | DevicePending _ _ | DevicePendingV2 _ _ _ => Device
  | Pending _ a | Claimed _ a | PendingV2 _ a _ _ | ClaimedV2 _ a _ _ => ap_flow a
  end.
(** [DeviceUserCodeClaimSchema] *)
Record DeviceUserCodeClaim := { du_authorization_id : string }.

Record ApproveCliAuthorizationInput := { in_codeChallenge : string; in_tokenName : string; in_expiresInDays : Z }.
Record ApprovedCliAuthorization := { aa_code : string; aa_expiresAt : Timestamp }.
Record RequestedCliDeviceAuthorization := { rd_code : string; rd_userCode : string; rd_expiresAt : Timestamp }.
Inductive CliDeviceAuthorizationPreview := PreviewLegacy (expiresAt : Timestamp) | PreviewScoped (expiresAt : Timestamp) (requested : TokenGrant).
Inductive CliDevicePollResult := PollPending | PollApproved (credential : CreatedToken).

Definition CLI_PREFIX : string := "mhub_cli_".
Definition cliAuthorizationsPrefix : string := "_system/cli-authorizations/".
Definition cli_key (id : string) : key := cliAuthorizationsPrefix +:+ id +:+ ".json".
Definition cliDeviceUserCodesPrefix : string := "_system/cli-device-user-codes/".
Definition user_code_key (code : string) : key := cliDeviceUserCodesPrefix +:+ code +:+ ".json".
Definition AUTHORIZATION_TTL_MS : Z := 10 * 60 * 1000.
Definition PRUNE_LIMIT : Z := 100.
Definition USER_CODE_CREATE_ATTEMPTS : nat := 5.

(** ** User codes *)

Definition USER_CODE_ALPHABET : list ascii := String.list_ascii_of_string "BCDFGHJKLMNPQRSTVWXZ".
Definition USER_CODE_LENGTH : nat := 8.
Definition user_code_char (c : ascii) : bool := existsb (Ascii.eqb c) USER_CODE_ALPHABET.
(** [USER_CODE_RE] *)
Definition is_user_code (s : string) : bool :=
  (String.length s === USER_CODE_LENGTH) && forallb user_code_char (String.list_ascii_of_string s).
(** The bytes a code is drawn from; those of 240 and above are rejected, so that every
    letter has the same chance. *)
Fixpoint user_code_loop (bytes : list Z) (code : list ascii) : option (list ascii) :=
  if length code === USER_CODE_LENGTH then Some code
  else match bytes with
       | [] => None
       | byte :: bytes' =>
           if (240 <=? byte)%Z then user_code_loop bytes' code
           else user_code_loop bytes' (code ++ [nth (Z.to_nat (byte mod 20)) USER_CODE_ALPHABET "B"%char])
       end.
Definition generateUserCode (bytes : list Z) : option string := String.string_of_list_ascii <$> user_code_loop bytes [].
Definition to_upper (c : ascii) : ascii := if in_range 97 122 c then ascii_of_nat (nat_of_ascii c - 32) else c.
Definition normalizeCliDeviceUserCode (value : string) : option string :=
  let normalized := String.string_of_list_ascii
    (List.filter (fun c => negb (js_space c || Ascii.eqb c "-"%char)) (map to_upper (String.list_ascii_of_string value))) in
  if is_user_code normalized then Some normalized else None.
Definition formatCliDeviceUserCode (value : string) : string := String.substring 0 4 value +:+ "-" +:+ String.substring 4 (String.length value - 4) value.

Section Cli.
Context {B : Type} {CI : Codec B IdentityRecord} {CT : Codec B Token} {CA : Codec B CliAuthorization} {CU : Codec B DeviceUserCodeClaim}.
Context (sha256 : string -> list Z) (decodeTime : string -> option Z) (fuel : nat).
Local Notation V := (cached CacheEntry).
Local Notation prog := (prog B (cached CacheEntry)).

Definition invalidAuthorization : error V := BadRequestError "CLI authorization code is invalid or expired".
Definition hashAuthorizationSecret (secret : string) : string := sha256Hex sha256 secret.
Definition code_challenge (verifier : string) : string := toBase64Url (sha256 verifier).

(** [createAuthorizationCode]: a fresh id with the hash and life time of its secret *)
Record AuthorizationCode := { ac_id : string; ac_expiresAt : Timestamp; ac_code_hash : string; ac_created_at : Timestamp }.
Definition createAuthorizationCode (createId : prog string) (ttlMs : Z) (secret : string) : prog AuthorizationCode :=
  id ← createId;
  now ← call ONow;
  mret {| ac_id := id; ac_expiresAt := toISOString (now + ttlMs); ac_code_hash := hashAuthorizationSecret secret; ac_created_at := toISOString now |}.
Definition createAuthorization (codeChallenge secret : string) : prog AuthorizationCommon :=
  created ← createAuthorizationCode (call (OFreshId "cli-authorization")) AUTHORIZATION_TTL_MS secret;
  mret {| cc_id := ac_id created; cc_code_hash := ac_code_hash created; cc_code_challenge := codeChallenge;
          cc_created_at := ac_created_at created; cc_expires_at := ac_expiresAt created; cc_extra := [] |}.

(** [authorizationCreatedAt] *)
Definition drop_suffix (n : nat) (s : string) : string := String.substring 0 (String.length s - n) s.
Definition endsWith (suffix s : string) : bool :=
  (String.length suffix <=? String.length s)%nat &&
  (String.substring (String.length s - String.length suffix) (String.length suffix) s === suffix).
Definition authorizationCreatedAt (k : key) (prefix : string) (is_auth_id : string -> bool) : option Z :=
  match startsWith prefix k with
  | Some rest =>
      if negb (endsWith ".json" k) then None
      else let encodedId := drop_suffix 5 rest in if is_auth_id encodedId then decodeTime encodedId else None
  | None => None
  end.
Definition expired_authorization (prefix : string) (ttlMs now : Z) (i : info) : bool :=
  match authorizationCreatedAt (i_key i) prefix code_id with
  | None => true
  | Some at_ => (at_ + ttlMs <=? now)%Z
  end.
Definition expired_user_code (now : Z) (i : info) : bool := (i_uploaded i + AUTHORIZATION_TTL_MS <=? now)%Z.
(** [prune]: one page, and the expired among it *)
Definition prune_page (prefix : string) (isExpired : Z -> info -> bool) : prog unit :=
  page ← call (OList {| l_prefix := Some prefix; l_delimiter := None; l_cursor := None; l_limit := Some PRUNE_LIMIT; l_startAfter := None |});
  now ← call ONow;
  match map i_key (List.filter (isExpired now) (lr_objects page)) with
  | [] => mret tt
  | expired => call (ODelete expired)
  end.
Definition pruneExpired : prog unit := prune_page cliAuthorizationsPrefix (expired_authorization cliAuthorizationsPrefix AUTHORIZATION_TTL_MS).
Definition pruneExpiredUserCodes : prog unit := prune_page cliDeviceUserCodesPrefix expired_user_code.

(** [cleanup]: best effort *)
Definition cleanup (keys : list key) : prog unit := catch (call (ODelete keys)) (fun _ => mret tt).

Definition approved_code (c : AuthorizationCommon) (secret : string) : ApprovedCliAuthorization :=
  {| aa_code := format_code CLI_PREFIX (cc_id c) secret; aa_expiresAt := cc_expires_at c |}.
Definition loopback (input : ApproveCliAuthorizationInput) (userId : UserId) : Approval :=
  {| ap_flow := Loopback; ap_user_id := userId; ap_user_code := None; ap_token_name := in_tokenName input; ap_expires_in_days := in_expiresInDays input |}.
Definition approve (input : ApproveCliAuthorizationInput) (userId : UserId) (secret : string) : prog ApprovedCliAuthorization :=
  pruneExpired ≫= fun _ =>
  c ← createAuthorization (in_codeChallenge input) secret;
  call (OPut (cli_key (cc_id c)) (stringify (Pending c (loopback input userId))) onlyIfNotExists) ≫= fun _ =>
  mret (approved_code c secret).
Definition approveScoped (input : ApproveCliAuthorizationInput) (requested grant : TokenGrant) (userId : UserId) (secret : string) : prog ApprovedCliAuthorization :=
  if negb (tokenGrantIsSubset grant requested) then Throw (BadRequestError "Approved grant cannot exceed the requested grant")
  else
    pruneExpired ≫= fun _ =>
    c ← createAuthorization (in_codeChallenge input) secret;
    call (OPut (cli_key (cc_id c)) (stringify (PendingV2 c (loopback input userId) requested grant)) onlyIfNotExists) ≫= fun _ =>
    mret (approved_code c secret).

(** The attempts of [createDeviceAuthorization], with the secret and code each draws. *)
Fixpoint device_attempts (codeChallenge : string) (requested : option TokenGrant) (draws : nat -> string * string) (attempt n : nat) : prog RequestedCliDeviceAuthorization :=
  match n with
  | S n' =>
      let (secret, userCode) := draws attempt in
      c ← createAuthorization codeChallenge secret;
      let claimKey := user_code_key userCode in
      handle (call (OPut claimKey (stringify {| du_authorization_id := cc_id c |}) onlyIfNotExists)) (fun claimed =>
        match claimed with
        | Err PreconditionFailedError => device_attempts codeChallenge requested draws (S attempt) n'
        | Err error => Throw error
        | Ok _ =>
            let record := match requested with None => DevicePending c userCode | Some g => DevicePendingV2 c userCode g end in
            handle (call (OPut (cli_key (cc_id c)) (stringify record) onlyIfNotExists)) (fun r =>
              match r with
              | Err error => cleanup [claimKey] ≫= fun _ => Throw error
              | Ok _ => mret {| rd_code := format_code CLI_PREFIX (cc_id c) secret; rd_userCode := formatCliDeviceUserCode userCode; rd_expiresAt := cc_expires_at c |}
              end)
        end)
  | O => Throw (ResourceExhaustedError "Could not allocate a unique CLI device code")
  end.
(** [Promise.all] of the two sweeps: both run, and a failure of either fails the request. *)
Definition prune_both : prog unit :=
  handle pruneExpired (fun a => handle pruneExpiredUserCodes (fun b => match a, b with Ok _, Ok _ => mret tt | Err e, _ => Throw e | _, Err e => Throw e end)).
Definition createDeviceAuthorization (codeChallenge : string) (requested : option TokenGrant) (draws : nat -> string * string) : prog RequestedCliDeviceAuthorization :=
  prune_both ≫= fun _ => device_attempts codeChallenge requested draws 0 USER_CODE_CREATE_ATTEMPTS.

(** [readDevicePending]: the pending authorization a user code names *)
Definition device_pending (r : CliAuthorization) (userCode : string) (now : Z) : bool :=
  match r with
  | DevicePending c uc | DevicePendingV2 c uc _ => (uc === userCode) && negb (passed (cc_expires_at c) now)
  | _ => false
  end.
Definition readDevicePending (userCode : string) : prog (key * object B * CliAuthorization) :=
  match normalizeCliDeviceUserCode userCode with
  | None => Throw invalidAuthorization
  | Some normalized =>
      claimObject ← call (OGet (user_code_key normalized));
      match claimObject ≫= fun o => parse (T := DeviceUserCodeClaim) (o_body o) with
      | None => Throw invalidAuthorization
      | Some claim =>
          let k := cli_key (du_authorization_id claim) in
          obj ← call (OGet k);
          match obj with
          | None => Throw invalidAuthorization
          | Some o =>
              now ← call ONow;
              match parse (o_body o) with
              | Some record => if device_pending record normalized now then mret (k, o, record) else Throw invalidAuthorization
              | None => Throw invalidAuthorization
              end
          end
      end
  end.

Definition previewDevice (userCode : string) : prog CliDeviceAuthorizationPreview :=
  '(_, _, record) ← readDevicePending userCode;
  mret (match record with
        | DevicePendingV2 c _ requested => PreviewScoped (cc_expires_at c) requested
        | r => PreviewLegacy (cc_expires_at (common r))
        end).

Definition device_approval (userCode tokenName : string) (expiresInDays : Z) (userId : UserId) : Approval :=
  {| ap_flow := Device; ap_user_id := userId; ap_user_code := Some userCode; ap_token_name := tokenName; ap_expires_in_days := expiresInDays |}.
(** The conditional write of an approval, a claim or a denial: a lost race is an invalid code. *)
Definition put_next (lost : error V) (k : key) (o : object B) (next : B) : prog unit :=
  handle (call (OPut k next (onlyIfEtagMatches (o_etag o)))) (fun r =>
    match r with
    | Ok _ => mret tt
    | Err PreconditionFailedError => Throw lost
    | Err error => Throw error
    end).
Definition approveDevice (userCode tokenName : string) (expiresInDays : Z) (userId : UserId) : prog Timestamp :=
  '(k, o, record) ← readDevicePending userCode;
  match record with
  | DevicePending c uc =>
      put_next invalidAuthorization k o (stringify (Pending c (device_approval uc tokenName expiresInDays userId))) ≫= fun _ => mret (cc_expires_at c)
  | _ => Throw invalidAuthorization
  end.
Definition approveDeviceScoped (userCode tokenName : string) (expiresInDays : Z) (grant : TokenGrant) (userId : UserId) : prog Timestamp :=
  '(k, o, record) ← readDevicePending userCode;
  match record with
  | DevicePendingV2 c uc requested =>
      if negb (tokenGrantIsSubset grant requested) then Throw (BadRequestError "Approved grant cannot exceed the requested grant")
      else put_next invalidAuthorization k o (stringify (PendingV2 c (device_approval uc tokenName expiresInDays userId) requested grant)) ≫= fun _ => mret (cc_expires_at c)
  | _ => Throw invalidAuthorization
  end.

(** [readPresented]: an unexpired, unclaimed authorization whose secret and verifier are
    presented *)
Definition is_claimed (r : CliAuthorization) : bool := match r with Claimed _ _ | ClaimedV2 _ _ _ _ => true | _ => false end.
Definition presented (r : CliAuthorization) (secret codeVerifier : string) : bool :=
  timingSafeEqual (encode (hashAuthorizationSecret secret)) (encode (cc_code_hash (common r))) &&
  timingSafeEqual (encode (code_challenge codeVerifier)) (encode (cc_code_challenge (common r))).
Definition readPresented (code codeVerifier : string) : prog (key * object B * CliAuthorization) :=
  match parse_code CLI_PREFIX code with
  | None => Throw invalidAuthorization
  | Some (id, secret) =>
      let k := cli_key id in
      obj ← call (OGet k);
      match obj with
      | None => Throw invalidAuthorization
      | Some o =>
          match parse (o_body o) with
          | None => Throw invalidAuthorization
          | Some record =>
              now ← call ONow;
              if is_claimed record || passed (cc_expires_at (common record)) now then Throw invalidAuthorization
              else if presented record secret codeVerifier then mret (k, o, record) else Throw invalidAuthorization
          end
      end
  end.

(** [claimPresented]: claim first, then mint; the records are removed either way *)
Definition token_input (a : Approval) (grant : option TokenGrant) : CreateTokenInput :=
  {| ct_name := ap_token_name a; ct_expiresInDays := Some (ap_expires_in_days a); ct_grant := grant; ct_oauth := None; ct_mcpResource := None |}.
(** The token is created, and the keys removed whether it was or not. *)
Definition mint (input : CreateTokenInput) (userId : UserId) (tokenSecret : string) (keys : list key) : prog CreatedToken :=
  handle (create sha256 fuel input userId tokenSecret) (fun r => cleanup keys ≫= fun _ => lift r).
Definition claim_and_create (k : key) (o : object B) (next : CliAuthorization) (a : Approval) (grant : option TokenGrant) (tokenSecret : string) : prog CreatedToken :=
  put_next invalidAuthorization k o (stringify next) ≫= fun _ =>
  mint (token_input a grant) (ap_user_id a) tokenSecret (k :: match ap_user_code a with Some uc => [user_code_key uc] | None => [] end).
Definition claimPresented (k : key) (o : object B) (record : CliAuthorization) (tokenSecret : string) : prog CreatedToken :=
  match record with
  | Pending c a => claim_and_create k o (Claimed c a) a None tokenSecret
  | PendingV2 c a requested grant => claim_and_create k o (ClaimedV2 c a requested grant) a (Some grant) tokenSecret
  | _ => Throw invalidAuthorization
  end.

Definition exchange (code codeVerifier tokenSecret : string) : prog CreatedToken :=
  '(k, o, record) ← readPresented code codeVerifier;
  match flow record with
  | Loopback => claimPresented k o record tokenSecret
  | Device => Throw invalidAuthorization
  end.
Definition pollDevice (code codeVerifier tokenSecret : string) : prog CliDevicePollResult :=
  '(k, o, record) ← readPresented code codeVerifier;
  match flow record with
  | Loopback => Throw invalidAuthorization
  | Device =>
      match record with
      | DevicePending _ _ | DevicePendingV2 _ _ _ => mret PollPending
      | _ => credential ← claimPresented k o record tokenSecret; mret (PollApproved credential)
      end
  end.
End Cli.

(** ** User codes *)

(** Whatever bytes are drawn, a generated code has the form the service accepts, and it is
    accepted as it is shown to the user. *)
Lemma user_code_loop_ok bytes code r : user_code_loop bytes code = Some r -> forallb user_code_char code = true ->
  length r = USER_CODE_LENGTH /\ forallb user_code_char r = true.
Proof.
  revert code. induction bytes as [|b bytes IH]; intros code; cbn [user_code_loop].
  - destruct (bool_decide_reflect (length code = USER_CODE_LENGTH)); [intros [= <-]; by split|done].
  - destruct (bool_decide_reflect (length code = USER_CODE_LENGTH)); [intros [= <-]; by split|].
    destruct (240 <=? b)%Z; [apply IH|]. intros Hr Hc. apply (IH _ Hr). rewrite forallb_app, Hc. cbn [forallb andb]. rewrite andb_true_r.
    assert (Hm : (Z.to_nat (b mod 20) < 20)%nat) by (pose proof (Z.mod_pos_bound b 20 ltac:(lia)); lia).
    assert (Hn : forall n, (n < 20)%nat -> user_code_char (nth n USER_CODE_ALPHABET "B"%char) = true).
    { clear. intros n Hn. do 20 (destruct n as [|n]; [reflexivity|]). lia. }
    by apply Hn.
Qed.
