(* ===== verification/OAuth.v ===== *)
(** * OAuth authorizations, clients and rate limits

    [packages/core/src/services/oauth/]: the authorization code grant an MCP client goes
    through (begun by the client, approved or denied by a user, redeemed once for a
    token), the registry of its clients, and the shared rate limit of the endpoints.
    The platform's [URL] and the decoding of ULID times are parameters. *)

From Stdlib Require Import ZArith Lia Ascii.
From S2P Require Import Prelude Constants Schema Grants UtcDate Store Cas SessionData IdentityService Authorization Tokens CliAuthorization.

(** ** Authorizations ([OAuthAuthorizationService.ts]) *)

(** [AuthorizationCommonSchema] *)
Record OAuthCommon := {
  oa_id : string; oa_client_id : string; oa_client_name : option string; oa_client_uri : option string; oa_redirect_uri : string;
  oa_code_challenge : string; oa_scopes : list string; oa_state : option string; oa_resource : option string;
  oa_created_at : Timestamp; oa_expires_at : Timestamp; oa_extra : list (string * string);
}.
(** The rest of [ApprovedAuthorizationSchema] *)
Record OAuthApproval := { av_user_id : UserId; av_code_hash : string; av_grant : TokenGrant; av_token_name : string; av_expires_in_days : Z }.
(** [OAuthAuthorizationSchema] *)
Inductive OAuthAuthorization :=
| OAuthPending (c : OAuthCommon) | OAuthDenied (c : OAuthCommon)
| OAuthApproved (c : OAuthCommon) (a : OAuthApproval) | OAuthClaimed (c : OAuthCommon) (a : OAuthApproval).

Record BeginOAuthAuthorizationInput := {
  bi_clientId : string; bi_clientName : option string; bi_clientUri : option string; bi_redirectUri : string; bi_codeChallenge : string;
  bi_scopes : list string; bi_state : option string; bi_resource : option string;
}.
Record OAuthPreview := { pv_clientName : string; pv_clientUri : option string; pv_redirectUri : string; pv_scopes : list string; pv_expiresAt : Timestamp }.
Record OAuthExchangeInput := { ei_code : string; ei_clientId : string; ei_redirectUri : option string; ei_resource : option string }.

Definition OAUTH_PREFIX : string := "mhub_oac_".
Definition OAUTH_TOKEN_LIFETIME_DAYS_MAX : Z := 90.
Definition oauthAuthorizationsPrefix : string := "_system/oauth-authorizations/".
Definition oauth_key (id : string) : key := oauthAuthorizationsPrefix +:+ id +:+ ".json".

Section OAuth.
Context {B : Type} {CI : Codec B IdentityRecord} {CT : Codec B Token} {CO : Codec B OAuthAuthorization}.
Context (sha256 : string -> list Z) (decodeTime : string -> option Z) (fuel : nat).
(** A URL with query parameters set, [None] when the text is no URL. *)
Context (url_set : string -> list (string * string) -> option string).
Local Notation V := (cached CacheEntry).
Local Notation prog := (prog B (cached CacheEntry)).

Definition invalidOAuth : error V := BadRequestError "OAuth authorization code is invalid or expired".
Definition redirectWith (url : string) (values : list (string * option string)) : prog string :=
  match url_set url (omap (fun '(key, value) => pair key <$> value) values) with
  | Some redirect => mret redirect
  | None => Throw TypeError
  end.

Definition pruneExpiredOAuth : prog unit :=
  prune_page oauthAuthorizationsPrefix (expired_authorization decodeTime oauthAuthorizationsPrefix AUTHORIZATION_TTL_MS).

Definition new_authorization (input : BeginOAuthAuthorizationInput) (id : string) (now : Z) : OAuthCommon :=
  {| oa_id := id; oa_client_id := bi_clientId input; oa_client_name := truthy (bi_clientName input); oa_client_uri := truthy (bi_clientUri input);
     oa_redirect_uri := bi_redirectUri input; oa_code_challenge := bi_codeChallenge input; oa_scopes := bi_scopes input; oa_state := bi_state input;
     oa_resource := truthy (bi_resource input); oa_created_at := toISOString now; oa_expires_at := toISOString (now + AUTHORIZATION_TTL_MS); oa_extra := [] |}.
(** [begin] *)
Definition oauth_begin (input : BeginOAuthAuthorizationInput) : prog string :=
  pruneExpiredOAuth ≫= fun _ =>
  id ← call (OFreshId "oauth-authorization");
  now ← call ONow;
  call (OPut (oauth_key id) (stringify (OAuthPending (new_authorization input id now))) onlyIfNotExists) ≫= fun _ => mret id.

Definition readPending (id : string) : prog (key * object B * OAuthCommon) :=
  let k := oauth_key id in
  obj ← call (OGet k);
  match obj with
  | None => Throw invalidOAuth
  | Some o =>
      match parse (o_body o) with
      | Some (OAuthPending c) =>
          now ← call ONow;
          if passed (oa_expires_at c) now then Throw invalidOAuth else mret (k, o, c)
      | _ => Throw invalidOAuth
      end
  end.

Definition oauth_preview (id : string) : prog OAuthPreview :=
  '(_, _, c) ← readPending id;
  mret {| pv_clientName := oa_client_name c ?? "MCP client"; pv_clientUri := truthy (oa_client_uri c); pv_redirectUri := oa_redirect_uri c;
          pv_scopes := oa_scopes c; pv_expiresAt := oa_expires_at c |}.

(** [approve]; the life time is [None] when it is no integer. *)
Definition oauth_approve (id : string) (grant : TokenGrant) (tokenName : string) (expiresInDays : option Z) (userId : UserId) (secret : string) : prog string :=
  match expiresInDays with
  | Some days =>
      if (days <? 1)%Z || (OAUTH_TOKEN_LIFETIME_DAYS_MAX <? days)%Z then Throw (BadRequestError "OAuth token lifetime must be between 1 and 90 days")
      else
        '(k, o, c) ← readPending id;
        created ← createAuthorizationCode sha256 (mret id) AUTHORIZATION_TTL_MS secret;
        let a := {| av_user_id := userId; av_code_hash := ac_code_hash created; av_grant := grant; av_token_name := tokenName; av_expires_in_days := days |} in
        put_next invalidOAuth k o (stringify (OAuthApproved c a)) ≫= fun _ =>
        redirectWith (oa_redirect_uri c) [("code", Some (format_code OAUTH_PREFIX id secret)); ("state", oa_state c)]
  | None => Throw (BadRequestError "OAuth token lifetime must be between 1 and 90 days")
  end.

Definition oauth_deny (id : string) : prog string :=
  '(k, o, c) ← readPending id;
  put_next invalidOAuth k o (stringify (OAuthDenied c)) ≫= fun _ =>
  call (ODelete [k]) ≫= fun _ =>
  redirectWith (oa_redirect_uri c) [("error", Some "access_denied"); ("state", oa_state c)].

(** [readPresented]: an approved, unexpired authorization whose secret is presented *)
Definition readApproved (code : string) : prog (key * object B * OAuthCommon * OAuthApproval) :=
  match parse_code OAUTH_PREFIX code with
  | None => Throw invalidOAuth
  | Some (id, secret) =>
      let k := oauth_key id in
      obj ← call (OGet k);
      match obj with
      | None => Throw invalidOAuth
      | Some o =>
          match parse (o_body o) with
          | Some (OAuthApproved c a) =>
              now ← call ONow;
              if passed (oa_expires_at c) now then Throw invalidOAuth
              else if timingSafeEqual (encode (hashAuthorizationSecret sha256 secret)) (encode (av_code_hash a)) then mret (k, o, c, a) else Throw invalidOAuth
          | _ => Throw invalidOAuth
          end
      end
  end.

Definition challengeFor (code clientId : string) : prog string :=
  '(_, _, c, _) ← readApproved code;
  if oa_client_id c === clientId then mret (oa_code_challenge c) else Throw invalidOAuth.

Definition oauth_token_input (c : OAuthCommon) (a : OAuthApproval) : CreateTokenInput :=
  {| ct_name := av_token_name a; ct_expiresInDays := Some (av_expires_in_days a); ct_grant := Some (av_grant a);
     ct_oauth := (fun resource => {| oauth_clientId := oa_client_id c; oauth_resource := resource; oauth_scopes := oa_scopes c |}) <$> truthy (oa_resource c);
     ct_mcpResource := None |}.
(** The client, redirect address and resource of the request the code was issued for *)
Definition same_client (c : OAuthCommon) (input : OAuthExchangeInput) : bool :=
  (oa_client_id c === ei_clientId input) && (ei_redirectUri input === Some (oa_redirect_uri c)) && (oa_resource c === ei_resource input).
Definition oauth_exchange (input : OAuthExchangeInput) (tokenSecret : string) : prog CreatedToken :=
  '(k, o, c, a) ← readApproved (ei_code input);
  if negb (same_client c input) then Throw invalidOAuth
  else
    put_next invalidOAuth k o (stringify (OAuthClaimed c a)) ≫= fun _ =>
    mint sha256 fuel (oauth_token_input c a) (av_user_id a) tokenSecret [k].
End OAuth.

(** ** Registered clients ([OAuthClientStore.ts]) *)

Record OAuthClientRecord := {
  oc_client_id : string; oc_issued_at : Z; oc_expires_at : Timestamp; oc_redirect_uris : list string; oc_client_name : option string;
  oc_client_uri : option string; oc_scope : option string; oc_grant_types : option (list string); oc_response_types : option (list string);
}.
Record RegisterOAuthClientInput := {
  ri_client_name : option string; ri_client_uri : option string; ri_redirect_uris : list string; ri_scope : option string;
  ri_grant_types : option (list string); ri_response_types : option (list string);
}.
Definition MAX_CLIENT_NAME_LENGTH : nat := 200.
Definition MAX_REDIRECT_URIS : nat := 100.
Definition MAX_REDIRECT_URI_LENGTH : nat := 2048.
Definition MAX_SCOPE_LENGTH : nat := 4096.
Definition MAX_GRANT_TYPES : nat := 10.
Definition MAX_RESPONSE_TYPES : nat := 10.
Definition MAX_TYPE_LENGTH : nat := 100.
Definition CLIENT_TTL_MS : Z := 90 * 24 * 60 * 60 * 1000.

Definition exceedsStringArrayBounds (values : option (list string)) (maxCount maxLength : nat) : bool :=
  match values with
  | None => false
  | Some l => (maxCount <? length l)%nat || existsb (fun v => (maxLength <? String.length v)%nat) l
  end.
Definition exceedsRegistrationBounds (input : RegisterOAuthClientInput) : bool :=
  (MAX_CLIENT_NAME_LENGTH <? (String.length <$> ri_client_name input) ?? 0)%nat ||
  (MAX_SCOPE_LENGTH <? (String.length <$> ri_scope input) ?? 0)%nat ||
  exceedsStringArrayBounds (Some (ri_redirect_uris input)) MAX_REDIRECT_URIS MAX_REDIRECT_URI_LENGTH ||
  exceedsStringArrayBounds (ri_grant_types input) MAX_GRANT_TYPES MAX_TYPE_LENGTH ||
  exceedsStringArrayBounds (ri_response_types input) MAX_RESPONSE_TYPES MAX_TYPE_LENGTH.
(** [OAuthClientRegistrationSchema] of a record made by [register] *)
Definition OAuthClientRegistrationSchema (r : OAuthClientRecord) : bool :=
  code_id (oc_client_id r) && (0 <=? oc_issued_at r)%Z && utcTimestamp (oc_expires_at r) && (1 <=? length (oc_redirect_uris r))%nat &&
  negb (exceedsStringArrayBounds (Some (oc_redirect_uris r)) MAX_REDIRECT_URIS MAX_REDIRECT_URI_LENGTH) &&
  optional (fun s => (1 <=? String.length s) && (String.length s <=? MAX_CLIENT_NAME_LENGTH))%nat (oc_client_name r) &&
  optional (fun s => String.length s <=? MAX_SCOPE_LENGTH)%nat (oc_scope r) &&
  negb (exceedsStringArrayBounds (oc_grant_types r) MAX_GRANT_TYPES MAX_TYPE_LENGTH) &&
  negb (exceedsStringArrayBounds (oc_response_types r) MAX_RESPONSE_TYPES MAX_TYPE_LENGTH).

(** What the code reads of a parsed [URL] *)
Record Url := { u_protocol : string; u_hostname : string; u_host : string; u_pathname : string; u_hash : string }.
(** The labels of a dotted name *)
Fixpoint dotted (l : list ascii) (label : list ascii) : list (list ascii) :=
  match l with
  | [] => [rev label]
  | c :: l' => if Ascii.eqb c "."%char then rev label :: dotted l' [] else dotted l' (c :: label)
  end.
Definition lower (c : ascii) : bool := in_range 97 122 c.
Definition lower_alnum (c : ascii) : bool := lower c || in_range 48 57 c.
(** [[a-z0-9](?:[a-z0-9-]*[a-z0-9])?] with the first character in [first] *)
Definition scheme_label (first : ascii -> bool) (l : list ascii) : bool :=
  match l with
  | c :: _ => first c && forallb (fun c => lower_alnum c || Ascii.eqb c "-"%char) l && lower_alnum (List.last l "-"%char)
  | [] => false
  end.
(** [REVERSE_DOMAIN_PRIVATE_USE_SCHEME] *)
Definition reverse_domain_scheme (protocol : string) : bool :=
  match rev (String.list_ascii_of_string protocol) with
  | colon :: name =>
      Ascii.eqb colon ":"%char &&
      match dotted (rev name) [] with
      | first :: ((_ :: _) as rest) => scheme_label lower first && forallb (scheme_label lower_alnum) rest
      | _ => false
      end
  | [] => false
  end.

Section Clients.
Context {B : Type} {CR : Codec B OAuthClientRecord} (decodeTime : string -> option Z) (parse_url : string -> option Url).
Local Notation prog := (prog B (cached CacheEntry)).

Definition starts_with (prefix s : string) : bool := bool_decide (is_Some (startsWith prefix s)).
Definition validRedirectUri (value : string) : bool :=
  match parse_url value with
  | None => false
  | Some url =>
      if negb (u_hash url === "") then false
      else if u_protocol url === "https:" then true
      else if u_protocol url === "http:" then includes (u_hostname url) ["localhost"; "127.0.0.1"; "[::1]"]
      else if u_protocol url === "cursor:" then negb (u_host url === "") || starts_with "/" (u_pathname url)
      else reverse_domain_scheme (u_protocol url) && (u_host url === "") && starts_with "/" (u_pathname url)
  end.

Definition oauthClientsPrefix : string := "_system/oauth-clients/".
Definition client_key (id : string) : key := oauthClientsPrefix +:+ id +:+ ".json".
Definition pruneExpiredClients : prog unit :=
  prune_page oauthClientsPrefix (expired_authorization decodeTime oauthClientsPrefix CLIENT_TTL_MS).

Definition new_client (input : RegisterOAuthClientInput) (id : string) (now : Z) : OAuthClientRecord :=
  {| oc_client_id := id; oc_issued_at := now / 1000; oc_expires_at := toISOString (now + CLIENT_TTL_MS); oc_redirect_uris := ri_redirect_uris input;
     oc_client_name := truthy (ri_client_name input); oc_client_uri := truthy (ri_client_uri input); oc_scope := truthy (ri_scope input);
     oc_grant_types := ri_grant_types input; oc_response_types := ri_response_types input |}.
Definition register (input : RegisterOAuthClientInput) : prog OAuthClientRecord :=
  if exceedsRegistrationBounds input then Throw (BadRequestError "OAuth client metadata is invalid")
  else if bool_decide (ri_redirect_uris input = []) || existsb (fun uri => negb (validRedirectUri uri)) (ri_redirect_uris input)
  then Throw (BadRequestError "OAuth redirect_uris must use HTTPS, a loopback HTTP URL, or a supported private-use scheme")
  else
    id ← call (OFreshId "oauth-client");
    now ← call ONow;
    let record := new_client input id now in
    if negb (OAuthClientRegistrationSchema record) then Throw (BadRequestError "OAuth client metadata is invalid")
    else
      pruneExpiredClients ≫= fun _ =>
      call (OPut (client_key id) (stringify record) onlyIfNotExists) ≫= fun _ => mret record.

(** [get] *)
Definition get_client (clientId : string) : prog (option OAuthClientRecord) :=
  if negb (code_id clientId) then mret None
  else
    obj ← call (OGet (client_key clientId));
    match obj ≫= fun o => parse (o_body o) with
    | Some record => now ← call ONow; mret (if passed (oc_expires_at record) now then None else Some record)
    | None => mret None
    end.
End Clients.

(** ** The shared rate limit ([OAuthRateLimitService.ts]) *)

Inductive OAuthRateLimitEndpoint := EndpointRegister | EndpointAuthorize | EndpointToken | EndpointRevoke.
Definition OAUTH_RATE_LIMITS (e : OAuthRateLimitEndpoint) : nat * Z :=
  match e with
  | EndpointRegister => (100%nat, (60 * 60000)%Z)
  | EndpointAuthorize => (100%nat, (15 * 60000)%Z)
  | EndpointToken => (600%nat, (60000)%Z)
  | EndpointRevoke => (100%nat, (15 * 60000)%Z)
  end.
Definition endpoint_name (e : OAuthRateLimitEndpoint) : string :=
  match e with EndpointRegister => "register" | EndpointAuthorize => "authorize" | EndpointToken => "token" | EndpointRevoke => "revoke" end.
Definition rate_key (e : OAuthRateLimitEndpoint) : key := "_system/oauth-rate-limits/" +:+ endpoint_name e +:+ ".json".
Record OAuthRateLimitRecord := { timestamps : list Z }.
Definition MAX_RATE_LIMIT : nat := 600.
Definition OAuthRateLimitRecordSchema (r : OAuthRateLimitRecord) : bool :=
  forallb (Z.leb 0) (timestamps r) && (length (timestamps r) <=? MAX_RATE_LIMIT)%nat.

Section RateLimitService.
Context {B V : Type} {CL : Codec B OAuthRateLimitRecord}.
Local Notation prog := (prog B V).
Definition recent (timestamp windowMs previous : Z) : bool := ((previous <=? timestamp) && (timestamp - previous <? windowMs))%Z.
Definition consume_attempt (e : OAuthRateLimitEndpoint) (timestamp : Z) : prog bool :=
  let (limit, windowMs) := OAUTH_RATE_LIMITS e in
  obj ← call (OGet (rate_key e));
  stored ← match obj with Some o => readStored o (rate_key e) | None => mret {| timestamps := [] |} end;
  let kept := List.filter (recent timestamp windowMs) (timestamps stored) in
  if (limit <=? length kept)%nat then mret false
  else cas_put (rate_key e) (stringify {| timestamps := kept ++ [timestamp] |})
         (match obj with Some o => onlyIfEtagMatches (o_etag o) | None => onlyIfNotExists end) ≫= fun _ => mret true.
Definition consume (e : OAuthRateLimitEndpoint) (retry : CasRetryOptions) : prog bool :=
  timestamp ← call ONow;
  catch (withCasRetry (consume_attempt e timestamp) retry) (fun err =>
    match err with ConflictError _ => mret false | err => Throw err end).
End RateLimitService.

(** A request that is overtaken forgets the admission of the one that overtook it: it
    took its time first, and drops the later time it finds as if the clock had gone back. *)
Module Overtaken.
#[local, refine] Instance limit_codec : Codec OAuthRateLimitRecord OAuthRateLimitRecord := {|
  valid r := OAuthRateLimitRecordSchema r = true; stringify r := r; parse r := if OAuthRateLimitRecordSchema r then Some r else None |}.
Proof.
  - intros r H. by rewrite H.
  - intros b x. destruct (OAuthRateLimitRecordSchema b) eqn:E; [|done]. by intros [= <-].
Defined.
Definition start : config OAuthRateLimitRecord unit bool :=
  Config [consume EndpointRegister no_retry_options; consume EndpointRegister no_retry_options] empty_world.
Definition overtaken : option (config OAuthRateLimitRecord unit bool) := interleave start [Turn 0; Passes 1; Turn 1; Turn 1; Turn 1; Turn 0; Turn 0].
Lemma admission_forgotten :
  (fun c => (threads c, o_body <$> store (wd c) !! rate_key EndpointRegister)) <$> overtaken =
  Some ([Ret true; Ret true], Some {| timestamps := [0%Z] |}).
Proof. vm_compute. reflexivity. Qed.
End Overtaken.
