(* ===== verification/TokenProtocol.v ===== *)
(** * Tokens and authorizations among replicas

    Any number of replicas serve requests of [TokenService], [CliAuthorizationService] and
    [OAuthAuthorizationService] at once, with any storage fault.  Tokens and
    authorizations are objects with one owner ([Owned.v]); this file says which request
    may start and continue each of them and proves that every operation keeps to it. *)

From Stdlib Require Import ZArith Lia Ascii.
From stdpp Require Import relations.
From S2P Require Import Prelude Constants Schema Grants UtcDate Store Cas CasTheorems CasEffects Calls Listing Storage SessionData IdentityService Authorization Tokens CliAuthorization OAuth Owned.

(** ** Keys *)
Inductive family_key := TokenKey (id : string) | CliKey (id : string) | OAuthKey (id : string).
Definition kind (k : key) : option family_key :=
  match startsWith tokensPrefix k, startsWith cliAuthorizationsPrefix k, startsWith oauthAuthorizationsPrefix k with
  | Some rest, _, _ => Some (TokenKey (drop_suffix 5 rest))
  | None, Some rest, _ => Some (CliKey (drop_suffix 5 rest))
  | None, None, Some rest => Some (OAuthKey (drop_suffix 5 rest))
  | None, None, None => None
  end.
Definition key_id (f : family_key) : string := match f with TokenKey id | CliKey id | OAuthKey id => id end.

Lemma drop_json id : drop_suffix 5 (id +:+ ".json") = id.
Proof. unfold drop_suffix. rewrite string_app_length. replace (String.length id + String.length ".json" - 5) with (String.length id) by (cbn; lia). by apply substring_head. Qed.
Lemma kind_token id : kind (token_key id) = Some (TokenKey id).
Proof. unfold kind, token_key. change "_system/tokens/" with tokensPrefix. by rewrite startsWith_app, drop_json. Qed.
Lemma kind_cli id : kind (cli_key id) = Some (CliKey id).
Proof.
  unfold kind, cli_key. rewrite startsWith_app, drop_json. by change (startsWith tokensPrefix (cliAuthorizationsPrefix +:+ id +:+ ".json")) with (@None string).
Qed.
Lemma kind_oauth id : kind (oauth_key id) = Some (OAuthKey id).
Proof.
  unfold kind, oauth_key. rewrite startsWith_app, drop_json. change (startsWith tokensPrefix (oauthAuthorizationsPrefix +:+ id +:+ ".json")) with (@None string).
  by change (startsWith cliAuthorizationsPrefix (oauthAuthorizationsPrefix +:+ id +:+ ".json")) with (@None string).
Qed.
Lemma kind_user_code code : kind (user_code_key code) = None.
Proof. reflexivity. Qed.

Section Family.
Context {B : Type} {CI : Codec B IdentityRecord} {CT : Codec B Token} {CA : Codec B CliAuthorization} {CU : Codec B DeviceUserCodeClaim} {CO : Codec B OAuthAuthorization}.
Context {XT : Exact B Token} {XA : Exact B CliAuthorization} {XO : Exact B OAuthAuthorization}.
Context (sha256 : string -> list Z) (decodeTime : string -> option Z) (url_set : string -> list (string * string) -> option string) (fuel : nat).
Local Notation V := (cached CacheEntry).
Local Notation prog := (prog B (cached CacheEntry)).
Implicit Types w : world B V.

(** ** Requests *)
Inductive request :=
| ApproveCli (input : ApproveCliAuthorizationInput) (user : UserId) (secret : string)
| ApproveCliScoped (input : ApproveCliAuthorizationInput) (requested grant : TokenGrant) (user : UserId) (secret : string)
| RequestDevice (codeChallenge : string) (requested : option TokenGrant) (draws : nat -> string * string)
| PreviewDevice (userCode : string)
| ApproveDevice (userCode tokenName : string) (days : Z) (user : UserId)
| ApproveDeviceScoped (userCode tokenName : string) (days : Z) (grant : TokenGrant) (user : UserId)
| ExchangeCli (code codeVerifier tokenSecret : string)
| PollDevice (code codeVerifier tokenSecret : string)
| BeginOAuth (input : BeginOAuthAuthorizationInput)
| PreviewOAuth (id : string)
| ApproveOAuth (id : string) (grant : TokenGrant) (tokenName : string) (days : option Z) (user : UserId) (secret : string)
| DenyOAuth (id : string)
| OAuthChallenge (code clientId : string)
| ExchangeOAuth (input : OAuthExchangeInput) (tokenSecret : string)
| CreateToken (input : CreateTokenInput) (user : UserId) (secret : string)
| RevokeToken (user : UserId) (id : string)
| ListTokens (user : UserId)
| VerifyToken (bearer : string).
Inductive answer := Minted (token : CreatedToken) | Verified (p : option AuthenticatedPrincipal) | Revoked | Served.

Definition serve (q : request) : prog answer :=
  match q with
  | ApproveCli input user secret => approve sha256 decodeTime input user secret ≫= fun _ => mret Served
  | ApproveCliScoped input requested grant user secret => approveScoped sha256 decodeTime input requested grant user secret ≫= fun _ => mret Served
  | RequestDevice challenge requested draws => createDeviceAuthorization sha256 decodeTime challenge requested draws ≫= fun _ => mret Served
  | PreviewDevice userCode => previewDevice userCode ≫= fun _ => mret Served
  | ApproveDevice userCode name days user => approveDevice userCode name days user ≫= fun _ => mret Served
  | ApproveDeviceScoped userCode name days grant user => approveDeviceScoped userCode name days grant user ≫= fun _ => mret Served
  | ExchangeCli code verifier secret => token ← exchange sha256 fuel code verifier secret; mret (Minted token)
  | PollDevice code verifier secret =>
      r ← pollDevice sha256 fuel code verifier secret; mret (match r with PollPending => Served | PollApproved token => Minted token end)
  | BeginOAuth input => oauth_begin decodeTime input ≫= fun _ => mret Served
  | PreviewOAuth id => oauth_preview id ≫= fun _ => mret Served
  | ApproveOAuth id grant name days user secret => oauth_approve sha256 url_set id grant name days user secret ≫= fun _ => mret Served
  | DenyOAuth id => oauth_deny url_set id ≫= fun _ => mret Served
  | OAuthChallenge code clientId => challengeFor sha256 code clientId ≫= fun _ => mret Served
  | ExchangeOAuth input secret => token ← oauth_exchange sha256 fuel input secret; mret (Minted token)
  | CreateToken input user secret => token ← create sha256 fuel input user secret; mret (Minted token)
  | RevokeToken user id => revoke user id ≫= fun _ => mret Revoked
  | ListTokens user => list_tokens fuel user ≫= fun _ => mret Served
  | VerifyToken bearer => p ← verify sha256 bearer; mret (Verified p)
  end.
Context (requests : list request).

(** ** The life of an authorization *)

(** Redeeming requests: the authorization's key, and the secret of the token. *)
Definition redeems (q : request) : option (key * string) :=
  match q with
  | ExchangeCli code _ s | PollDevice code _ s => '(id, _) ← parse_code CLI_PREFIX code; Some (cli_key id, s)
  | ExchangeOAuth input s => '(id, _) ← parse_code OAUTH_PREFIX (ei_code input); Some (oauth_key id, s)
  | _ => None
  end.

Definition cli_first (q : request) (id : string) (r : CliAuthorization) : Prop :=
  cc_id (common r) = id /\
  match q, r with
  | ApproveCli input user secret, Pending c a =>
      cc_code_challenge c = in_codeChallenge input /\ cc_code_hash c = hashAuthorizationSecret sha256 secret /\ a = loopback input user
  | ApproveCliScoped input requested grant user secret, PendingV2 c a requested' grant' =>
      cc_code_challenge c = in_codeChallenge input /\ cc_code_hash c = hashAuthorizationSecret sha256 secret /\ a = loopback input user /\
      requested' = requested /\ grant' = grant /\ tokenGrantIsSubset grant requested = true
  | RequestDevice challenge requested _, DevicePending c _ => cc_code_challenge c = challenge /\ requested = None
  | RequestDevice challenge requested _, DevicePendingV2 c _ g => cc_code_challenge c = challenge /\ requested = Some g
  | _, _ => False
  end.
Definition cli_presents (q : request) (r : CliAuthorization) : Prop :=
  match q with
  | ExchangeCli code verifier _ => ap_flow <$> (match r with Pending _ a | PendingV2 _ a _ _ => Some a | _ => None end) = Some Loopback /\
      exists id secret, parse_code CLI_PREFIX code = Some (id, secret) /\ presented sha256 r secret verifier = true
  | PollDevice code verifier _ => ap_flow <$> (match r with Pending _ a | PendingV2 _ a _ _ => Some a | _ => None end) = Some Device /\
      exists id secret, parse_code CLI_PREFIX code = Some (id, secret) /\ presented sha256 r secret verifier = true
  | _ => False
  end.
Definition cli_next (q : request) (r r' : CliAuthorization) : Prop :=
  match r, r' with
  | DevicePending c uc, Pending c' a =>
      c' = c /\ match q with ApproveDevice _ name days user => a = device_approval uc name days user | _ => False end
  | DevicePendingV2 c uc requested, PendingV2 c' a requested' grant =>
      c' = c /\ requested' = requested /\ tokenGrantIsSubset grant requested = true /\
      match q with ApproveDeviceScoped _ name days grant' user => grant' = grant /\ a = device_approval uc name days user | _ => False end
  | Pending c a, Claimed c' a' => c' = c /\ a' = a /\ cli_presents q r
  | PendingV2 c a requested grant, ClaimedV2 c' a' requested' grant' => c' = c /\ a' = a /\ requested' = requested /\ grant' = grant /\ cli_presents q r
  | _, _ => False
  end.

Definition oauth_first (q : request) (id : string) (r : OAuthAuthorization) : Prop :=
  match q, r with
  | BeginOAuth input, OAuthPending c => exists now, c = new_authorization input id now
  | _, _ => False
  end.
Definition oauth_next (q : request) (r r' : OAuthAuthorization) : Prop :=
  match r, r' with
  | OAuthPending c, OAuthApproved c' a =>
      c' = c /\
      match q with
      | ApproveOAuth _ grant name (Some days) user secret =>
          (1 <= days <= OAUTH_TOKEN_LIFETIME_DAYS_MAX)%Z /\
          a = {| av_user_id := user; av_code_hash := hashAuthorizationSecret sha256 secret; av_grant := grant; av_token_name := name; av_expires_in_days := days |}
      | _ => False
      end
  | OAuthPending c, OAuthDenied c' => c' = c /\ match q with DenyOAuth _ => True | _ => False end
  | OAuthApproved c a, OAuthClaimed c' a' =>
      c' = c /\ a' = a /\
      match q with
      | ExchangeOAuth input _ => same_client c input = true /\
          exists id secret, parse_code OAUTH_PREFIX (ei_code input) = Some (id, secret) /\ hashAuthorizationSecret sha256 secret = av_code_hash a
      | _ => False
      end
  | _, _ => False
  end.

(** A claimed authorization, and the token it stands for. *)
Inductive claims (k : key) (b : B) : CreateTokenInput -> UserId -> Prop :=
| claims_legacy id c a : k = cli_key id -> b = stringify (Claimed c a) -> claims k b (token_input a None) (ap_user_id a)
| claims_scoped id c a requested grant : k = cli_key id -> b = stringify (ClaimedV2 c a requested grant) -> claims k b (token_input a (Some grant)) (ap_user_id a)
| claims_oauth id c a : k = oauth_key id -> b = stringify (OAuthClaimed c a) -> claims k b (oauth_token_input c a) (av_user_id a).

(** A token is created on request, or by the request that claimed an authorization. *)
Definition token_first (t : tid) (q : request) (id : string) (r : Token) w : Prop :=
  exists input user secret now, r = new_token sha256 input user id secret now /\
    (q = CreateToken input user secret \/ exists k b, redeems q = Some (k, secret) /\ wrote t k b w /\ claims k b input user).

Definition token_starts (t : tid) (k : key) (b : B) w : Prop :=
  exists q, requests !! t = Some q /\
    match kind k with
    | Some (TokenKey id) => exists r, b = stringify r /\ token_first t q id r w
    | Some (CliKey id) => exists r, b = stringify r /\ cli_first q id r
    | Some (OAuthKey id) => exists r, b = stringify r /\ oauth_first q id r
    | None => False
    end.
Definition token_evolves (t : tid) (k : key) (b b' : B) : Prop :=
  exists q, requests !! t = Some q /\
    match kind k with
    | Some (TokenKey _) => exists r now, means b r /\ b' = stringify (touched r now)
    | Some (CliKey _) => exists r r', parse b = Some r /\ b' = stringify r' /\ cli_next q r r'
    | Some (OAuthKey _) => exists r r', parse b = Some r /\ b' = stringify r' /\ oauth_next q r r'
    | None => False
    end.
(** An identity stored for a user, as the account of a principal. *)
Definition account_of (user : UserId) (u : AuthUser) w : Prop :=
  exists b x, ever w (identity_key user) b /\ parse b = Some x /\
    u = {| au_id := id_id x; au_email := id_email x; au_name := Some (id_name x); au_pictureUrl := None |}.
(** A cached token was stored, under the tag it is kept with, and its user is the stored
    identity of the user it names. *)
Definition token_sound (k : key) (v : V) w : Prop :=
  match v with
  | CToken (Some e) => exists id b, k = token_slot id /\ tagged (token_key id) b (ce_etag e) w /\ means b (ce_record e) /\
      account_of (tk_user_id (ce_record e)) (ce_user e) w
  | _ => True
  end.
Lemma persistent_token_starts t k b : Persistent (token_starts t k b).
Proof.
  apply persistent_exists. intros q. apply persistent_and; [apply _|]. destruct (kind k) as [[id|id|id]|]; unfold token_first; apply _.
Qed.
Lemma persistent_token_sound k v : Persistent (token_sound k v).
Proof. destruct v as [[e|]|b at_|sg]; unfold token_sound, account_of; apply _. Qed.
#[export] Instance token_family : Family B V := {|
  owner k := key_id <$> kind k; starts := token_starts; evolves := token_evolves; sound := token_sound;
  persistent_starts := persistent_token_starts; persistent_sound := persistent_token_sound;
|}.

Lemma owner_token id : owner (token_key id) = Some id.
Proof. cbn. by rewrite kind_token. Qed.
Lemma owner_cli id : owner (cli_key id) = Some id.
Proof. cbn. by rewrite kind_cli. Qed.
Lemma owner_oauth id : owner (oauth_key id) = Some id.
Proof. cbn. by rewrite kind_oauth. Qed.
Lemma owner_user_code code : owner (user_code_key code) = None.
Proof. done. Qed.

(** ** Operations that write no token or authorization *)
Ltac plain_op := intros; first [done | apply calls_call; done | apply calls_bind | apply calls_handle | apply calls_catch | case_match | progress cbn [lift]].
Ltac plain := repeat plain_op.

Lemma plain_list_tokens user : plain_prog (list_tokens fuel user).
Proof. apply calls_bind; [apply calls_bind; [by apply calls_pages|done]|]. intros keys. apply calls_bind; [by apply calls_read|done]. Qed.
Lemma plain_get id : plain_prog (get (B := B) (E := CacheEntry) id).
Proof. unfold get, readStored. plain. Qed.
Lemma plain_getMany ids : plain_prog (getMany (B := B) (E := CacheEntry) ids).
Proof.
  unfold getMany. induction (js_set ids) as [|id l IH]; [done|]. apply calls_bind; [apply calls_catch; [apply plain_get|by intros []]|].
  intros r. by apply calls_bind.
Qed.
Lemma plain_isSuspended id : plain_prog (isSuspended (B := B) (E := CacheEntry) id).
Proof.
  assert (Hr : plain_prog (reload_suspension (B := B) (E := CacheEntry) id)).
  { apply calls_bind; [apply calls_handle; [apply plain_get|by intros []]|]. plain. }
  unfold isSuspended. plain.
Qed.
Lemma plain_prune prefix expired : plain_prog (prune_page (B := B) prefix expired).
Proof. unfold prune_page. plain. Qed.
Lemma plain_cleanup keys : plain_prog (cleanup (B := B) keys).
Proof. unfold cleanup. plain. Qed.

(** ** Writes *)
Section Thread.
Context (t : tid).

Lemma put_next_spec lost k id o b P `{!Persistent P} : owner k = Some id -> evolves t k (o_body o) b ->
  hoare own_step t (fun w => ready w /\ (P w /\ logged k o w)) (put_next lost k o b) (ends (fun _ w => P w /\ wrote t k b w)).
Proof.
  intros Hk Hev. eapply hoare_handle.
  { eapply hoare_pre; [|by apply (hoare_evolve t k id (o_body o) (o_etag o) b P)]. intros w (Hr & HP & Hl). split; [|done]. split; [done|]. by exists o. }
  intros [i|e].
  - apply ends_ret; [apply _|]. by intros w ((? & ? & _) & ?).
  - destruct e; (apply ends_throw; [unfold put_post; apply _|]); try (by intros w []); [by intros w [[? _] _]|].
    by intros w [[[? _] _]|(i & (? & _) & _)].
Qed.

(** The first write of an object under a fresh id. *)
Lemma draw_spec brand kf P {A} (f : string -> prog A) φ `{!Persistent P} : (forall id, owner (kf id) = Some id) ->
  (forall id, hoare own_step t (fun w => unborn t (kf id) id w /\ (is_id brand id = true /\ P w)) (f id) (ends φ)) ->
  hoare own_step t (fun w => ready w /\ P w) (call (OFreshId brand) ≫= f) (ends φ).
Proof.
  intros Hk Hf. eapply hoare_bind; [by apply (hoare_draw t brand kf P)| |].
  - intros id. eapply hoare_pre; [|apply Hf]. by intros w (id' & [= <-] & ? & ? & ?).
  - intros e. apply ends_throw; [apply _|]. by intros w (? & [=] & _).
Qed.
Lemma first_spec k id b c P {A} (f : info -> prog A) φ `{!Persistent P} : (forall w, P w -> starts t k b w) ->
  (forall i, hoare own_step t (fun w => ready w /\ (P w /\ wrote t k b w)) (f i) (ends φ)) ->
  hoare own_step t (fun w => unborn t k id w /\ P w) (call (OPut k b c) ≫= f) (ends φ).
Proof.
  intros Hst Hf. eapply hoare_bind; [by apply (hoare_create t k id b c P)| |].
  - intros i. eapply hoare_pre; [|apply Hf]. by intros w [[? ?] ?].
  - intros e. destruct e; (apply ends_throw; [unfold put_post; apply _|]); try (by intros w []); [by intros w [(? & _) _]|].
    by intros w [[(? & _) _]|(i & [? _] & _)].
Qed.

Lemma unborn_skip k id P {A C} (p : prog A) (f : A -> prog C) φ `{!Persistent P} : plain_prog p ->
  (forall a, hoare own_step t (fun w => unborn t k id w /\ P w) (f a) (ends φ)) -> hoare own_step t (fun w => unborn t k id w /\ P w) (bind p f) (ends φ).
Proof.
  intros Hp Hf. eapply hoare_bind; [apply (hoare_plain t (fun w => unborn t k id w /\ P w)); [apply _|apply _|done]|exact Hf|].
  intros e. apply ends_throw; [apply _|]. by intros w [[? _] _].
Qed.

Definition minted (input : CreateTokenInput) (user : UserId) (secret : string) (token : CreatedToken) w : Prop :=
  exists id now, let r := new_token sha256 input user id secret now in
    is_id "token" id = true /\ token = {| cr_token := format_code PAT_PREFIX id secret; cr_record := toPublicToken r |} /\
    wrote t (token_key id) (stringify r) w.
#[local] Instance persistent_minted input user secret token : Persistent (minted input user secret token).
Proof. unfold minted. apply _. Qed.

Lemma create_token_spec input user secret P `{!Persistent P} :
  (forall id now w, P w -> starts t (token_key id) (stringify (new_token sha256 input user id secret now)) w) ->
  hoare own_step t (fun w => ready w /\ P w) (create sha256 fuel input user secret) (ends (fun token w => P w /\ minted input user secret token w)).
Proof.
  intros Hst. unfold create. case_match; [apply ends_throw; [apply _|]; by intros w [? _]|]. case_match; [apply ends_throw; [apply _|]; by intros w [? _]|].
  apply ends_skip; [apply _|by apply calls_call|]. intros now. apply ends_skip; [apply _|apply plain_list_tokens|]. intros tokens.
  case_match; [apply ends_throw; [apply _|]; by intros w [? _]|]. apply (draw_spec "token" token_key); [apply _|apply owner_token|]. intros id.
  apply first_spec; [apply _|intros w [_ HP]; by apply Hst|]. intros i. apply ends_ret; [apply _|]. intros w (Hr & (Hid & HP) & Hw). split; [done|]. split; [done|].
  by exists id, now.
Qed.

(** Minting for a claimed authorization. *)
Lemma mint_spec q k b input user secret keys : requests !! t = Some q -> redeems q = Some (k, secret) -> claims k b input user ->
  hoare own_step t (fun w => ready w /\ wrote t k b w) (mint sha256 fuel input user secret keys)
    (ends (fun token w => wrote t k b w /\ minted input user secret token w)).
Proof.
  intros Hq Hk Hc. eapply hoare_handle.
  - apply (create_token_spec input user secret (wrote t k b)). intros id now w Hw. exists q. split; [done|]. rewrite kind_token. eexists. split; [done|].
    exists input, user, secret, now. split; [done|]. right. by exists k, b.
  - intros [token|e]; cbn.
    + apply ends_skip; [apply _|apply plain_cleanup|]. intros _. by apply ends_ret; [apply _|].
    + apply (ends_skip t (fun _ => True)); [apply _|apply plain_cleanup|]. intros _. apply ends_throw; [apply _|]. by intros w [? _].
Qed.

(** ** The command line client *)
Definition fresh_common (challenge secret : string) (c : AuthorizationCommon) : Prop :=
  cc_code_challenge c = challenge /\ cc_code_hash c = hashAuthorizationSecret sha256 secret.
Lemma createAuthorization_spec challenge secret :
  hoare own_step t ready (createAuthorization sha256 challenge secret)
    (fun r w => match r with Ok c => unborn t (cli_key (cc_id c)) (cc_id c) w /\ fresh_common challenge secret c | Err _ => ready w end).
Proof.
  eapply hoare_bind; [eapply hoare_bind| |].
  - eapply hoare_pre; [|apply (hoare_draw t "cli-authorization" cli_key (fun _ => True))]; [by intros w ?|intros id _; apply owner_cli].
  - intros id. eapply hoare_pre with (P := unborn t (cli_key id) id); [by intros w (id' & [= <-] & _ & ? & _)|].
    eapply hoare_bind; [apply (hoare_plain t (unborn t (cli_key id) id) (call ONow)); by apply calls_call| |].
    + intros now. apply hoare_ret with (Q := fun r w => match r with Ok x => unborn t (cli_key (ac_id x)) (ac_id x) w /\
        ac_code_hash x = hashAuthorizationSecret sha256 secret | Err _ => ready w end); [apply _|]. by intros w ?.
    + intros e. apply hoare_throw; [apply _|]. by intros w [? _].
  - intros e. apply hoare_throw; [apply _|]. by intros w (? & [=] & _).
  - intros x. apply hoare_ret; [apply _|]. by intros w [? ?].
  - intros e. by apply hoare_throw; [apply _|].
Qed.

(** Creating an authorization that starts as [r c]. *)
Lemma start_cli_spec q challenge secret (r : AuthorizationCommon -> CliAuthorization) {A} (g : AuthorizationCommon -> prog A) :
  requests !! t = Some q -> (forall c, fresh_common challenge secret c -> cli_first q (cc_id c) (r c)) ->
  (forall c, hoare own_step t ready (g c) (ends (fun _ _ => True))) ->
  hoare own_step t ready (c ← createAuthorization sha256 challenge secret;
    call (OPut (cli_key (cc_id c)) (stringify (r c)) onlyIfNotExists) ≫= fun _ => g c) (ends (fun _ _ => True)).
Proof.
  intros Hq Hf Hg. eapply hoare_bind; [apply createAuthorization_spec| |intros e; by apply ends_throw; [apply _|]].
  intros c. eapply hoare_pre; [intros w Hw; exact (conj (proj2 Hw) (proj1 Hw))|]. apply hoare_pure. intros Hc.
  eapply hoare_pre; [|apply (first_spec (cli_key (cc_id c)) (cc_id c) _ _ (fun _ => True))]; [by intros w ?|apply _| |].
  - intros w _. exists q. split; [done|]. rewrite kind_cli. exists (r c). split; [done|by apply Hf].
  - intros i. eapply hoare_pre; [|apply Hg]. by intros w [? _].
Qed.
Lemma ready_skip {A C} (p : prog A) (f : A -> prog C) ψ : plain_prog p ->
  (forall a, hoare own_step t ready (f a) (ends ψ)) -> hoare own_step t ready (bind p f) (ends ψ).
Proof.
  intros Hp Hf. eapply hoare_pre; [|apply (ends_skip t (fun _ => True) p f ψ)]; [by intros w ?|done|]. intros a. eapply hoare_pre; [|apply Hf]. by intros w [? _].
Qed.

Lemma approve_spec input user secret : requests !! t = Some (ApproveCli input user secret) ->
  hoare own_step t ready (approve sha256 decodeTime input user secret) (ends (fun _ _ => True)).
Proof.
  intros Hq. apply ready_skip; [apply plain_prune|]. intros _.
  apply (start_cli_spec _ _ _ (fun c => Pending c (loopback input user)) (fun c => mret (approved_code c secret)) Hq); [|intros c; by apply ends_ret; [apply _|]].
  intros c [? ?]. by split_and!.
Qed.
Lemma approveScoped_spec input requested grant user secret : requests !! t = Some (ApproveCliScoped input requested grant user secret) ->
  hoare own_step t ready (approveScoped sha256 decodeTime input requested grant user secret) (ends (fun _ _ => True)).
Proof.
  intros Hq. unfold approveScoped. destruct (tokenGrantIsSubset grant requested) eqn:Hsub; cbn [negb]; [|by apply ends_throw; [apply _|]].
  apply ready_skip; [apply plain_prune|]. intros _.
  apply (start_cli_spec _ _ _ (fun c => PendingV2 c (loopback input user) requested grant) (fun c => mret (approved_code c secret)) Hq); [|intros c; by apply ends_ret; [apply _|]].
  intros c [? ?]. by split_and!.
Qed.

Lemma device_attempts_spec challenge requested draws all : requests !! t = Some (RequestDevice challenge requested all) ->
  forall n attempt, hoare own_step t ready (device_attempts sha256 challenge requested draws attempt n) (ends (fun _ _ => True)).
Proof.
  intros Hq. induction n as [|n IH]; intros attempt; cbn [device_attempts]; [by apply ends_throw; [apply _|]|].
  destruct (draws attempt) as [secret uc]. eapply hoare_bind; [apply createAuthorization_spec| |intros e; by apply ends_throw; [apply _|]].
  intros c. eapply hoare_pre; [intros w Hw; exact (conj (proj2 Hw) (proj1 Hw))|]. apply hoare_pure. intros [Hc _].
  set (k := cli_key (cc_id c)). eapply hoare_handle; [apply (hoare_plain t (unborn t k (cc_id c)) (call _)); by apply calls_call|].
  assert (Hready : forall w, unborn t k (cc_id c) w -> ready w) by (by intros w [? _]).
  intros [i|e]; [|destruct e; try (by apply ends_throw; [apply _|]); by eapply hoare_pre; [exact Hready|apply IH]].
  set (r := match requested with None => _ | Some g => _ end). eapply hoare_handle.
  { eapply hoare_pre; [|apply (hoare_create t k (cc_id c) (stringify r) onlyIfNotExists (fun _ => True))]; [by intros w ?|]. intros w _.
    eexists. split; [exact Hq|]. unfold k. rewrite kind_cli. exists r. split; [done|]. subst r. destruct requested; by split_and!. }
  intros [i'|e]; [apply ends_ret; [apply _|]; by intros w ((? & _) & _)|].
  eapply hoare_pre with (P := ready); [|apply ready_skip; [apply plain_cleanup|]; intros _; by apply ends_throw; [apply _|]].
  destruct e; cbn; try (by intros w []); [by intros w [? _]; apply Hready|]. by intros w [[? _]|(j & (? & _) & _)]; [apply Hready|].
Qed.
Lemma createDevice_spec challenge requested draws : requests !! t = Some (RequestDevice challenge requested draws) ->
  hoare own_step t ready (createDeviceAuthorization sha256 decodeTime challenge requested draws) (ends (fun _ _ => True)).
Proof.
  intros Hq. apply ready_skip; [|intros _; by eapply device_attempts_spec].
  apply calls_handle; [apply plain_prune|]. intros a. apply calls_handle; [apply plain_prune|]. intros b. by destruct a, b.
Qed.

(** The authorization a user code names, as it was stored. *)
Definition found (x : key * object B * CliAuthorization) w : Prop :=
  exists id, x.1.1 = cli_key id /\ logged x.1.1 x.1.2 w /\ parse (o_body x.1.2) = Some x.2.
#[local] Instance persistent_found x : Persistent (found x).
Proof. unfold found. apply _. Qed.
Lemma readDevicePending_spec userCode : hoare own_step t ready (readDevicePending userCode) (ends found).
Proof.
  unfold readDevicePending. case_match; [|by apply ends_throw; [apply _|]]. apply ready_skip; [by apply calls_call|]. intros claim.
  case_match; [|by apply ends_throw; [apply _|]]. eapply hoare_pre; [|apply (ends_get t _ (fun _ => True))]; [by intros w ?|apply _| |].
  { apply ends_throw; [apply _|]. by intros w [? _]. }
  intros o. apply ends_skip; [apply _|by apply calls_call|]. intros now. destruct (parse (o_body o)) as [r|] eqn:Hp; [case_match|].
  2,3: apply ends_throw; [apply _|]; by intros w [? _].
  apply ends_ret; [apply _|]. intros w (Hr & _ & Hl). split; [done|]. by eexists.
Qed.

Lemma found_bind {A} userCode (f : key * object B * CliAuthorization -> prog A) φ :
  (forall id o r, parse (o_body o) = Some r -> hoare own_step t (fun w => ready w /\ (True /\ logged (cli_key id) o w)) (f (cli_key id, o, r)) (ends φ)) ->
  hoare own_step t ready (readDevicePending userCode ≫= f) (ends φ).
Proof.
  intros Hf. eapply ends_bind; [apply readDevicePending_spec|]. intros [[k o] r]. apply hoare_pre with (P := fun w => exists id,
    (k = cli_key id /\ parse (o_body o) = Some r) /\ (ready w /\ (True /\ logged (cli_key id) o w))).
  { intros w (Hr & id & Hk & Hl & Hp). cbn in *. exists id. by subst k. }
  apply hoare_exists. intros id. apply hoare_pure. intros [-> Hp]. by apply Hf.
Qed.
(** An approval on the device's behalf. *)
Lemma approval_spec {A} q id o r r' (a : A) : requests !! t = Some q -> parse (o_body o) = Some r -> cli_next q r r' ->
  hoare own_step t (fun w => ready w /\ (True /\ logged (cli_key id) o w)) (put_next invalidAuthorization (cli_key id) o (stringify r') ≫= fun _ => mret a)
    (ends (fun _ _ => True)).
Proof.
  intros Hq Hp Hn. eapply ends_bind; [apply (put_next_spec _ (cli_key id) id o _ (fun _ => True)); [apply owner_cli|]|intros u; apply ends_ret; [apply _|]; by intros w [? _]].
  exists q. split; [done|]. rewrite kind_cli. by exists r, r'.
Qed.
Lemma approveDevice_spec userCode name days user : requests !! t = Some (ApproveDevice userCode name days user) ->
  hoare own_step t ready (approveDevice userCode name days user) (ends (fun _ _ => True)).
Proof.
  intros Hq. apply found_bind. intros id o r Hp. destruct r as [c uc| | | | |]; try (apply ends_throw; [apply _|]; by intros w [? _]).
  by eapply approval_spec.
Qed.
Lemma approveDeviceScoped_spec userCode name days grant user : requests !! t = Some (ApproveDeviceScoped userCode name days grant user) ->
  hoare own_step t ready (approveDeviceScoped userCode name days grant user) (ends (fun _ _ => True)).
Proof.
  intros Hq. apply found_bind. intros id o r Hp. destruct r as [| | |c uc requested| |]; try (apply ends_throw; [apply _|]; by intros w [? _]).
  destruct (tokenGrantIsSubset grant requested) eqn:Hsub; cbn [negb]; [|apply ends_throw; [apply _|]; by intros w [? _]]. by eapply approval_spec.
Qed.
Lemma previewDevice_spec userCode : hoare own_step t ready (previewDevice userCode) (ends (fun _ _ => True)).
Proof. apply found_bind. intros id o r Hp. apply ends_ret; [apply _|]. by intros w [? _]. Qed.

(** What a redeeming request has done when it answers with a token. *)
Definition redeemed (q : request) (token : CreatedToken) w : Prop :=
  exists k secret b input user, redeems q = Some (k, secret) /\ wrote t k b w /\ claims k b input user /\ minted input user secret token w.

Lemma presented_bind {A} code verifier (f : key * object B * CliAuthorization -> prog A) φ :
  (forall id secret o r, parse_code CLI_PREFIX code = Some (id, secret) -> parse (o_body o) = Some r -> presented sha256 r secret verifier = true ->
     hoare own_step t (fun w => ready w /\ (True /\ logged (cli_key id) o w)) (f (cli_key id, o, r)) (ends φ)) ->
  hoare own_step t ready (readPresented sha256 code verifier ≫= f) (ends φ).
Proof.
  intros Hf. unfold readPresented. destruct (parse_code CLI_PREFIX code) as [[id secret]|] eqn:Hc; [|by apply ends_throw; [apply _|]].
  apply (ends_bind t _ _ _ (fun x w => exists o r, x = (cli_key id, o, r) /\ logged (cli_key id) o w /\ parse (o_body o) = Some r /\ presented sha256 r secret verifier = true)).
  - eapply hoare_pre; [|apply (ends_get t _ (fun _ => True))]; [by intros w ?|apply _|apply ends_throw; [apply _|]; by intros w [? _]|].
    intros o. destruct (parse (o_body o)) as [r|] eqn:Hp; [|apply ends_throw; [apply _|]; by intros w [? _]].
    apply ends_skip; [apply _|by apply calls_call|]. intros now. case_match; [apply ends_throw; [apply _|]; by intros w [? _]|].
    case_match; [|apply ends_throw; [apply _|]; by intros w [? _]]. apply ends_ret; [apply _|]. intros w (Hr & _ & Hl). split; [done|]. by exists o, r.
  - intros x. apply hoare_pre with (P := fun w => exists o r, (x = (cli_key id, o, r) /\ parse (o_body o) = Some r /\ presented sha256 r secret verifier = true) /\
      (ready w /\ (True /\ logged (cli_key id) o w))).
    { intros w (Hr & o & r & -> & ? & ? & ?). by exists o, r. }
    apply hoare_exists. intros o. apply hoare_exists. intros r. apply hoare_pure. intros (-> & ? & ?). by eapply Hf.
Qed.

Lemma claim_spec q id o r r' a grant secret : requests !! t = Some q -> redeems q = Some (cli_key id, secret) -> parse (o_body o) = Some r ->
  cli_next q r r' -> claims (cli_key id) (stringify r') (token_input a grant) (ap_user_id a) ->
  hoare own_step t (fun w => ready w /\ (True /\ logged (cli_key id) o w)) (claim_and_create sha256 fuel (cli_key id) o r' a grant secret) (ends (redeemed q)).
Proof.
  intros Hq Hk Hp Hn Hc. eapply ends_bind.
  - apply (put_next_spec _ (cli_key id) id o _ (fun _ => True)); [apply owner_cli|]. exists q. split; [done|]. rewrite kind_cli. by exists r, r'.
  - intros u. eapply hoare_pre; [|eapply ends_post; [|by eapply (mint_spec q)]]; [by intros w (? & _ & ?)|]. intros token w _ [Hw Hm].
    by exists (cli_key id), secret, (stringify r'), (token_input a grant), (ap_user_id a).
Qed.
Lemma claimPresented_spec q id o r secret : requests !! t = Some q -> redeems q = Some (cli_key id, secret) -> parse (o_body o) = Some r ->
  (match r with Pending _ _ | PendingV2 _ _ _ _ => cli_presents q r | _ => True end) ->
  hoare own_step t (fun w => ready w /\ (True /\ logged (cli_key id) o w)) (claimPresented sha256 fuel (cli_key id) o r secret) (ends (redeemed q)).
Proof.
  intros Hq Hk Hp Hc. destruct r as [| c a| | | c a requested grant|]; cbn [claimPresented]; try (apply ends_throw; [apply _|]; by intros w [? _]).
  - apply (claim_spec q id o (Pending c a)); [done|done|done|done|by econstructor].
  - apply (claim_spec q id o (PendingV2 c a requested grant)); [done|done|done|done|by econstructor].
Qed.

Lemma exchange_spec code verifier secret : requests !! t = Some (ExchangeCli code verifier secret) ->
  hoare own_step t ready (exchange sha256 fuel code verifier secret) (ends (redeemed (ExchangeCli code verifier secret))).
Proof.
  intros Hq. apply presented_bind. intros id s o r Hc Hp Hpr. destruct (flow r) eqn:Hf; [|apply ends_throw; [apply _|]; by intros w [? _]].
  apply claimPresented_spec; [done|by cbn; rewrite Hc|done|]. destruct r; try done; cbn in Hf; (split; [by cbn; rewrite Hf|]); by exists id, s.
Qed.
Lemma pollDevice_spec code verifier secret : requests !! t = Some (PollDevice code verifier secret) ->
  hoare own_step t ready (pollDevice sha256 fuel code verifier secret)
    (ends (fun x w => match x with PollApproved token => redeemed (PollDevice code verifier secret) token w | PollPending => True end)).
Proof.
  intros Hq. apply presented_bind. intros id s o r Hc Hp Hpr. destruct (flow r) eqn:Hf; [apply ends_throw; [apply _|]; by intros w [? _]|].
  assert (Hclaim : hoare own_step t (fun w => ready w /\ (True /\ logged (cli_key id) o w))
    (credential ← claimPresented sha256 fuel (cli_key id) o r secret; mret (PollApproved credential))
    (ends (fun x w => match x with PollApproved token => redeemed (PollDevice code verifier secret) token w | PollPending => True end))).
  { eapply ends_bind; [apply (claimPresented_spec (PollDevice code verifier secret)); [done|by cbn; rewrite Hc|done|]|].
    - destruct r; try done; cbn in Hf; (split; [by cbn; rewrite Hf|]); by exists id, s.
    - intros token. apply ends_ret; [unfold redeemed; apply _|]. by intros w ?. }
  destruct r; try exact Hclaim; (apply ends_ret; [apply _|]); by intros w [? _].
Qed.

(** ** OAuth *)
Lemma begin_spec input : requests !! t = Some (BeginOAuth input) -> hoare own_step t ready (oauth_begin decodeTime input) (ends (fun _ _ => True)).
Proof.
  intros Hq. apply ready_skip; [apply plain_prune|]. intros _. eapply hoare_pre; [|apply (draw_spec "oauth-authorization" oauth_key (fun _ => True))]; [by intros w ?|apply _|apply owner_oauth|].
  intros id. apply unborn_skip; [apply _|by apply calls_call|]. intros now. apply first_spec; [apply _| |].
  - intros w _. eexists. split; [exact Hq|]. rewrite kind_oauth. eexists. split; [done|]. by exists now.
  - intros i. apply ends_ret; [apply _|]. by intros w [? _].
Qed.

Lemma pending_bind {A} id (f : key * object B * OAuthCommon -> prog A) φ :
  (forall o c, parse (o_body o) = Some (OAuthPending c) ->
     hoare own_step t (fun w => ready w /\ (True /\ logged (oauth_key id) o w)) (f (oauth_key id, o, c)) (ends φ)) ->
  hoare own_step t ready (readPending id ≫= f) (ends φ).
Proof.
  intros Hf. apply (ends_bind t _ _ _ (fun x w => exists o c, x = (oauth_key id, o, c) /\ logged (oauth_key id) o w /\ parse (o_body o) = Some (OAuthPending c))).
  - eapply hoare_pre; [|apply (ends_get t _ (fun _ => True))]; [by intros w ?|apply _|apply ends_throw; [apply _|]; by intros w [? _]|].
    intros o. destruct (parse (o_body o)) as [[c|c|c a|c a]|] eqn:Hp; try (apply ends_throw; [apply _|]; by intros w [? _]).
    apply ends_skip; [apply _|by apply calls_call|]. intros now. case_match; [apply ends_throw; [apply _|]; by intros w [? _]|].
    apply ends_ret; [apply _|]. intros w (Hr & _ & Hl). split; [done|]. by exists o, c.
  - intros x. apply hoare_pre with (P := fun w => exists o c, (x = (oauth_key id, o, c) /\ parse (o_body o) = Some (OAuthPending c)) /\
      (ready w /\ (True /\ logged (oauth_key id) o w))).
    { intros w (Hr & o & c & -> & ? & ?). by exists o, c. }
    apply hoare_exists. intros o. apply hoare_exists. intros c. apply hoare_pure. intros (-> & ?). by eapply Hf.
Qed.
Lemma preview_spec id : hoare own_step t ready (oauth_preview id) (ends (fun _ _ => True)).
Proof. apply pending_bind. intros o c Hp. apply ends_ret; [apply _|]. by intros w [? _]. Qed.

(** A transition of an OAuth authorization that was read. *)
Lemma oauth_put_spec {A} q id o r r' (f : unit -> prog A) φ : requests !! t = Some q -> parse (o_body o) = Some r -> oauth_next q r r' ->
  (forall u, hoare own_step t (fun w => ready w /\ wrote t (oauth_key id) (stringify r') w) (f u) (ends φ)) ->
  hoare own_step t (fun w => ready w /\ (True /\ logged (oauth_key id) o w)) (put_next invalidOAuth (oauth_key id) o (stringify r') ≫= f) (ends φ).
Proof.
  intros Hq Hp Hn Hf. eapply ends_bind.
  - apply (put_next_spec _ (oauth_key id) id o _ (fun _ => True)); [apply owner_oauth|]. exists q. split; [done|]. rewrite kind_oauth. by exists r, r'.
  - intros u. eapply hoare_pre; [|apply Hf]. by intros w (? & _ & ?).
Qed.
Lemma redirect_ends P url values `{!Stable own_step t P} : (forall w, P w -> ready w) ->
  hoare own_step t P (redirectWith url_set url values) (ends (fun _ _ => True)).
Proof. intros HP. unfold redirectWith. case_match; [apply ends_ret|by apply ends_throw]; [done|]. intros w Hw. by split; [apply HP|]. Qed.
Lemma oauth_approve_spec id grant name days user secret : requests !! t = Some (ApproveOAuth id grant name days user secret) ->
  hoare own_step t ready (oauth_approve sha256 url_set id grant name days user secret) (ends (fun _ _ => True)).
Proof.
  intros Hq. destruct days as [days|]; [|by apply ends_throw; [apply _|]]. cbn [oauth_approve].
  destruct (_ || _) eqn:Hd; [by apply ends_throw; [apply _|]|]. apply pending_bind. intros o c Hp.
  set (P := fun w => True /\ logged (oauth_key id) o w). apply (ends_bind t _ _ _ (fun x w => P w /\ ac_code_hash x = hashAuthorizationSecret sha256 secret)).
  { apply ends_skip; [unfold P; apply _|done|]. intros id'. apply ends_skip; [unfold P; apply _|by apply calls_call|]. intros now.
    apply ends_ret; [unfold P; apply _|]. by intros w [? ?]. }
  intros x. apply hoare_pre with (P := fun w => ac_code_hash x = hashAuthorizationSecret sha256 secret /\ (ready w /\ P w)); [by intros w (? & ? & ?)|].
  apply hoare_pure. intros Hh. eapply oauth_put_spec; [exact Hq|exact Hp| |].
  - split; [done|]. apply orb_false_iff in Hd as [Hd1%Z.ltb_ge Hd2%Z.ltb_ge]. split; [lia|]. by rewrite Hh.
  - intros u. apply redirect_ends; [apply _|]. by intros w [? _].
Qed.
Lemma oauth_deny_spec id : requests !! t = Some (DenyOAuth id) -> hoare own_step t ready (oauth_deny url_set id) (ends (fun _ _ => True)).
Proof.
  intros Hq. apply pending_bind. intros o c Hp. eapply (oauth_put_spec _ id o _ (OAuthDenied c)); [exact Hq|exact Hp|done|]. intros u.
  apply ends_skip; [apply _|by apply calls_call|]. intros _. apply redirect_ends; [apply _|]. by intros w [? _].
Qed.

Lemma approved_bind {A} code (f : key * object B * OAuthCommon * OAuthApproval -> prog A) φ :
  (forall id secret o c a, parse_code OAUTH_PREFIX code = Some (id, secret) -> parse (o_body o) = Some (OAuthApproved c a) ->
     hashAuthorizationSecret sha256 secret = av_code_hash a ->
     hoare own_step t (fun w => ready w /\ (True /\ logged (oauth_key id) o w)) (f (oauth_key id, o, c, a)) (ends φ)) ->
  hoare own_step t ready (readApproved sha256 code ≫= f) (ends φ).
Proof.
  intros Hf. unfold readApproved. destruct (parse_code OAUTH_PREFIX code) as [[id secret]|] eqn:Hc; [|by apply ends_throw; [apply _|]].
  apply (ends_bind t _ _ _ (fun x w => exists o c a, x = (oauth_key id, o, c, a) /\ logged (oauth_key id) o w /\ parse (o_body o) = Some (OAuthApproved c a) /\
    hashAuthorizationSecret sha256 secret = av_code_hash a)).
  - eapply hoare_pre; [|apply (ends_get t _ (fun _ => True))]; [by intros w ?|apply _|apply ends_throw; [apply _|]; by intros w [? _]|].
    intros o. destruct (parse (o_body o)) as [[c|c|c a|c a]|] eqn:Hp; try (apply ends_throw; [apply _|]; by intros w [? _]).
    apply ends_skip; [apply _|by apply calls_call|]. intros now. case_match; [apply ends_throw; [apply _|]; by intros w [? _]|].
    destruct (timingSafeEqual _ _) eqn:Ht; [|apply ends_throw; [apply _|]; by intros w [? _]]. apply timingSafeEqual_spec in Ht.
    apply ends_ret; [apply _|]. intros w (Hr & _ & Hl). split; [done|]. by exists o, c, a.
  - intros x. apply hoare_pre with (P := fun w => exists o c a, (x = (oauth_key id, o, c, a) /\ parse (o_body o) = Some (OAuthApproved c a) /\
      hashAuthorizationSecret sha256 secret = av_code_hash a) /\ (ready w /\ (True /\ logged (oauth_key id) o w))).
    { intros w (Hr & o & c & a & -> & ? & ? & ?). by exists o, c, a. }
    apply hoare_exists. intros o. apply hoare_exists. intros c. apply hoare_exists. intros a. apply hoare_pure. intros (-> & ? & ?). by eapply Hf.
Qed.
Lemma challengeFor_spec code clientId : hoare own_step t ready (challengeFor sha256 code clientId) (ends (fun _ _ => True)).
Proof.
  apply approved_bind. intros id secret o c a _ _ _. cbn. destruct (oa_client_id c === clientId).
  - apply ends_ret; [apply _|]. by intros w [? _].
  - apply ends_throw; [apply _|]. by intros w [? _].
Qed.
Lemma oauth_exchange_spec input secret : requests !! t = Some (ExchangeOAuth input secret) ->
  hoare own_step t ready (oauth_exchange sha256 fuel input secret) (ends (redeemed (ExchangeOAuth input secret))).
Proof.
  intros Hq. apply approved_bind. intros id s o c a Hc Hp Hh. destruct (same_client c input) eqn:Hs; cbn [negb]; [|apply ends_throw; [apply _|]; by intros w [? _]].
  eapply oauth_put_spec; [exact Hq|exact Hp| |].
  - split_and!; [done|done|done|]. by exists id, s.
  - intros u. assert (Hk : redeems (ExchangeOAuth input secret) = Some (oauth_key id, secret)) by (cbn; by rewrite Hc).
    eapply ends_post; [|eapply (mint_spec _ (oauth_key id) (stringify (OAuthClaimed c a))); [exact Hq|exact Hk|exact (claims_oauth _ _ id c a eq_refl eq_refl)]].
    intros token w _ [Hw Hm]. exists (oauth_key id), secret, (stringify (OAuthClaimed c a)), (oauth_token_input c a), (av_user_id a).
    split_and!; [done|done|exact (claims_oauth _ _ id c a eq_refl eq_refl)|done].
Qed.

(** ** Tokens *)

(** Every stored version of a token is its first record, but for the time of use. *)
Definition version_of (r0 r : Token) : Prop := r = r0 \/ exists now, r = touched r0 now.
Definition created (id : string) (r : Token) w : Prop :=
  exists t0 q r0, requests !! t0 = Some q /\ token_first t0 q id r0 w /\ version_of r0 r.
Lemma created_id id r w : created id r w -> tk_id r = id.
Proof. intros (t0 & q & r0 & _ & (input & user & secret & now & -> & _) & [->|[n ->]]); done. Qed.
Lemma stored_created w id b r : oinv w -> stored_once (token_key id) b w -> means b r -> created id r w.
Proof.
  intros Hi Hb Hm. assert (Hc : forall b, stored_once (token_key id) b w -> exists r', b = stringify r' /\ created id r' w).
  { apply (stored_ind w (token_key id) id); [done|apply owner_token| |].
    - intros t0 b0 (q & Hq & Hs). rewrite kind_token in Hs. destruct Hs as (r' & -> & Hf). exists r'. split; [done|]. exists t0, q, r'. split_and!; [done|done|by left].
    - intros t0 b0 b' (r' & -> & t1 & q & r0 & Hq & Hf & Hv) (q' & _ & He). rewrite kind_token in He. destruct He as (r1 & now & Hr1 & ->).
      apply means_stringify in Hr1 as ->. eexists. split; [done|]. exists t1, q, r0. split_and!; [done|done|]. right. exists now. by destruct Hv as [->|[n ->]]. }
  destruct (Hc b Hb) as (r' & -> & Hr). by apply means_stringify in Hm as ->.
Qed.

(** What is known of a loaded entry. *)
Definition kept_entry (id : string) (e : CacheEntry) w : Prop :=
  exists b, tagged (token_key id) b (ce_etag e) w /\ means b (ce_record e) /\ account_of (tk_user_id (ce_record e)) (ce_user e) w.
#[local] Instance persistent_account_of user u : Persistent (account_of user u).
Proof. unfold account_of. apply _. Qed.
#[local] Instance persistent_kept_entry id e : Persistent (kept_entry id e).
Proof. unfold kept_entry. apply _. Qed.
Lemma kept_sound id e w : kept_entry id e w -> sound (token_slot id) (CToken (Some e)) w.
Proof. intros (b & ? & ?). by exists id, b. Qed.
Lemma sound_kept id e w : sound (token_slot id) (CToken (Some e)) w -> kept_entry id e w.
Proof. intros (id' & b & Hk & ? & ?). apply (inj (String.append _)) in Hk as <-. by exists b. Qed.

(** The identity read for one user was stored for it. *)
Definition identity_read (user : UserId) (l : list IdentityRecord) w : Prop :=
  forall x, x ∈ l -> exists b, ever w (identity_key user) b /\ parse b = Some x.
#[local] Instance persistent_identity_read user l : Persistent (identity_read user l).
Proof. unfold identity_read. apply _. Qed.
Lemma getMany_spec user : hoare own_step t ready (getMany [user]) (ends (identity_read user)).
Proof.
  unfold getMany. change (js_set [user]) with [user]. cbn [get_each].
  eapply ends_bind with (φ := fun x => identity_read user (from_option (fun y => [y]) [] x)).
  - eapply hoare_catch with (M := ends (fun x => identity_read user (from_option (fun y => [y]) [] x))).
    + eapply hoare_pre; [|apply (ends_get t _ (fun _ => True))]; [by intros w ?|apply _|apply ends_ret; [apply _|]; intros w [? _]; split; [done|]; by intros x ?%not_elem_of_nil|].
      intros o. unfold readStored. destruct (parse (o_body o)) as [x|] eqn:Hx; [|apply ends_throw; [apply _|]; by intros w [? _]].
      apply ends_ret; [apply _|]. intros w (? & _ & [t' Hl]). split; [done|].
      intros y ->%list_elem_of_singleton. exists (o_body o). split; [by exists t', o|done].
    + intros x. apply ends_ret; [apply _|]. by intros w ?.
    + intros e. apply hoare_pre with (P := ready); [by intros w [? _]|].
      destruct e; try (by apply ends_throw; [apply _|]). apply ends_ret; [apply _|]. intros w ?. split; [done|]. by intros x ?%not_elem_of_nil.
  - intros x. apply ends_ret; [apply _|]. intros w ?. by destruct x.
Qed.

Lemma load_fresh_spec id : hoare own_step t ready (load_fresh id) (ends (fun x w => match x with Some e => kept_entry id e w | None => True end)).
Proof.
  unfold load_fresh. eapply hoare_pre; [|apply (ends_get t _ (fun _ => True))]; [by intros w ?|apply _| |].
  - apply ends_skip; [apply _|by apply calls_call|]. intros _. apply ends_ret; [apply _|]. by intros w [? _].
  - intros o. destruct (parseTokenBody o) as [r|] eqn:Hp; [|apply ends_ret; [apply _|]; by intros w [? _]].
    eapply ends_bind with (φ := fun l w => identity_read (tk_user_id r) l w /\ logged (token_key id) o w).
    { eapply hoare_pre; [|eapply hoare_post; [|exact (hoare_frame own_step t ready _ _ (logged (token_key id) o) (getMany_spec (tk_user_id r)))]]; [by intros w (? & _ & ?)|].
      intros [l|e] w [[? ?] ?]; by split. }
    intros [|identity l]; [apply ends_ret; [apply _|]; by intros w [? _]|].
    apply ends_skip; [apply _|by apply calls_call|]. intros now. set (e := {| ce_record := r |}).
    apply hoare_pre with (P := fun w => ready w /\ kept_entry id e w).
    { intros w (Hr & Hid & Hl). split; [done|]. exists (o_body o). split; [by exists o|]. split; [by right|].
      destruct (Hid identity) as (b & ? & ?); [by left|]. by exists b, identity. }
    eapply ends_bind with (φ := fun _ => kept_entry id e).
    + eapply hoare_post; [|apply (hoare_cache t (token_slot id) (CToken (Some e)) (fun w => ready w /\ kept_entry id e w))]; [by intros [u|err] w [? ?]|].
      intros w [_ ?]. by apply kept_sound.
    + intros _. by apply ends_ret; [apply _|].
Qed.
Lemma load_spec id : hoare own_step t ready (load id) (ends (fun x w => match x with Some e => kept_entry id e w | None => True end)).
Proof.
  unfold load. eapply hoare_bind; [by apply (hoare_cached t (token_slot id) ready)| |intros e; apply ends_throw; [apply _|]; by intros w [? _]].
  assert (Hfresh : forall P, (forall w, P w -> ready w) -> hoare own_step t P (load_fresh id) (ends (fun x w => match x with Some e => kept_entry id e w | None => True end))).
  { intros P HP. eapply hoare_pre; [exact HP|apply load_fresh_spec]. }
  intros [[[e|]|b at_|sg]|]; try (apply Hfresh; by intros w [? _]).
  apply hoare_pre with (P := fun w => ready w /\ kept_entry id e w); [intros w [? Hs]; split; [done|by apply sound_kept]|].
  apply ends_skip; [apply _|by apply calls_call|]. intros now. destruct (_ <? _)%Z; [by apply ends_ret; [apply _|]|]. apply Hfresh. by intros w [? _].
Qed.

Lemma refresh_entry_spec id e e' P `{!Persistent P} : (forall w, P w -> kept_entry id e' w) ->
  hoare own_step t (fun w => ready w /\ P w) (refresh_entry id e e') (ends (fun _ => P)).
Proof.
  intros HP. unfold refresh_entry. apply ends_skip; [apply _|by apply calls_call|].
  assert (Hidle : hoare own_step t (fun w => ready w /\ P w) (mret tt) (ends (fun _ => P))) by (by apply ends_ret; [apply _|]).
  intros [[[e1|]|b at_|sg]|]; try exact Hidle. destruct (_ && _)%bool; [|exact Hidle].
  eapply hoare_post; [|apply (hoare_cache t (token_slot id) (CToken (Some e')) (fun w => ready w /\ P w))]; [by intros [u|err] w [? ?]|].
  intros w [_ ?]. by apply kept_sound, HP.
Qed.
Lemma touch_spec q id e : requests !! t = Some q -> hoare own_step t (fun w => ready w /\ kept_entry id e w) (touch id e) (ends (fun _ => kept_entry id e)).
Proof.
  intros Hq. unfold touch. apply ends_skip; [apply _|by apply calls_call|]. intros now. case_match; [by apply ends_ret; [apply _|]|].
  apply hoare_pre with (P := fun w => exists b, (tk_id (ce_record e) = id /\ means b (ce_record e)) /\ ((ready w /\ tagged (token_key id) b (ce_etag e) w) /\ kept_entry id e w)).
  { intros w [Hr (b & Ht & Hm & Hacc)]. exists b. assert (Hk : kept_entry id e w) by (by exists b). split_and!; [|done|done|done|done].
    apply (created_id id _ w). eapply stored_created; [apply Hr|by eapply tagged_stored|done]. }
  apply hoare_exists. intros b. apply hoare_pure. intros [-> Hm]. eapply hoare_handle.
  { apply (hoare_evolve t (token_key id) id b (ce_etag e) _ (kept_entry id e)); [apply owner_token|].
    exists q. split; [done|]. rewrite kind_token. by exists (ce_record e), (toISOString now). }
  intros [i|err].
  - set (e' := {| ce_record := _ |}). eapply hoare_pre with (P := fun w => ready w /\ (kept_entry id e w /\ kept_entry id e' w)).
    { intros w [(Hr & _ & Ht) Hk]. split_and!; [done|done|]. eexists. split; [exact Ht|]. split; [by left|]. by destruct Hk as (? & _ & _ & ?). }
    eapply ends_post; [|apply refresh_entry_spec; [apply _|by intros w [_ ?]]]. by intros u w _ [? _].
  - apply ends_ret; [destruct err; unfold put_post; apply _|]. destruct err; try (by intros w []); [by intros w [[? _] ?]|].
    by intros w [[[? _] ?]|(i & (? & _) & ?)].
Qed.

(** What [verify] answers with. *)
Definition accepted (bearer : string) (p : AuthenticatedPrincipal) w : Prop :=
  exists id secret e, parse_code PAT_PREFIX bearer = Some (id, secret) /\ kept_entry id e w /\
    presented_hash sha256 (ce_record e) id secret = tk_hash (ce_record e) /\ p = principal_of id e.
Lemma verify_spec bearer q : requests !! t = Some q ->
  hoare own_step t ready (verify sha256 bearer) (ends (fun x w => match x with Some p => accepted bearer p w | None => True end)).
Proof.
  intros Hq. unfold verify. destruct (parse_code PAT_PREFIX bearer) as [[id secret]|] eqn:Hc; [|by apply ends_ret; [apply _|]].
  eapply ends_bind; [apply load_spec|]. intros [e|]; [|apply ends_ret; [apply _|]; by intros w [? _]].
  destruct (timingSafeEqual _ _) eqn:Ht; cbn [negb]; [|apply ends_ret; [apply _|]; by intros w [? _]]. apply timingSafeEqual_spec in Ht.
  apply ends_skip; [apply _|destruct (tk_expires_at (ce_record e)); plain|]. intros [].
  { apply ends_skip; [apply _|by apply calls_call|]. intros _. apply ends_ret; [apply _|]. by intros w [? _]. }
  apply ends_skip; [apply _|apply plain_isSuspended|]. intros []; [apply ends_ret; [apply _|]; by intros w [? _]|].
  eapply ends_bind; [by eapply touch_spec|]. intros u. apply ends_ret; [apply _|]. intros w [? ?]. split; [done|]. by exists id, secret, e.
Qed.

Lemma revoke_spec user id : hoare own_step t ready (revoke user id) (ends (fun _ => gone (token_key id))).
Proof.
  unfold revoke. eapply hoare_pre; [|apply (ends_get t _ (fun _ => True))]; [by intros w ?|apply _|apply ends_throw; [apply _|]; by intros w [? _]|].
  intros o. cbn. destruct (parseTokenBody o) as [r|]; [|apply ends_throw; [apply _|]; by intros w [? _]].
  destruct (tk_user_id r === user); [|apply ends_throw; [apply _|]; by intros w [? _]].
  assert (Hown := owner_token id). assert (Hplain : Plain (gone (token_key id))) by (by eapply plain_gone).
  assert (Hst : Stable own_step t (gone (token_key id))) by (apply kept_stable; by eapply kept_gone).
  eapply hoare_bind; [eapply hoare_pre; [|by apply (hoare_retire t (token_key id) id o)]; by intros w (? & _ & ?)| |intros e; by apply ends_throw; [apply _|]].
  intros []. eapply hoare_post; [|apply (hoare_plain t (gone (token_key id)) (call _)); by apply calls_call]. intros [x|e] w Hg; split; by destruct Hg.
Qed.
End Thread.

(** ** Every request *)
Definition answered (t : tid) (q : request) (a : answer) w : Prop :=
  match q, a with
  | (ExchangeCli _ _ _ | PollDevice _ _ _ | ExchangeOAuth _ _), Minted token => redeemed t q token w
  | VerifyToken bearer, Verified (Some p) => accepted bearer p w
  | RevokeToken _ id, Revoked => gone (token_key id) w
  | _, _ => True
  end.
Lemma served_spec t {A} (p : prog A) a : hoare own_step t ready p (ends (fun _ _ => True)) ->
  forall q, (forall w, answered t q a w) -> hoare own_step t ready (p ≫= fun _ => mret a) (ends (answered t q)).
Proof. intros Hp q Ha. eapply ends_bind; [exact Hp|]. intros x. apply ends_ret; [apply _|]. intros w [? _]. by split; [|apply Ha]. Qed.
Lemma serve_token_spec t q : requests !! t = Some q -> hoare own_step t ready (serve q) (ends (answered t q)).
Proof.
  intros Hq. destruct q; cbn [serve].
  1-6,9-13: apply served_spec; [|done].
  - by apply approve_spec.
  - by apply approveScoped_spec.
  - by apply createDevice_spec.
  - apply previewDevice_spec.
  - by apply approveDevice_spec.
  - by apply approveDeviceScoped_spec.
  - by apply begin_spec.
  - apply preview_spec.
  - by apply oauth_approve_spec.
  - by apply oauth_deny_spec.
  - apply challengeFor_spec.
  - eapply ends_bind; [by apply exchange_spec|]. intros token. apply ends_ret; [unfold redeemed; apply _|]. by intros w ?.
  - eapply ends_bind; [by apply pollDevice_spec|]. intros [|token]; (apply ends_ret; [unfold redeemed; apply _|]); by intros w ?.
  - eapply ends_bind; [by apply oauth_exchange_spec|]. intros token. apply ends_ret; [unfold redeemed; apply _|]. by intros w ?.
  - eapply ends_bind.
    + eapply hoare_pre; [|apply (create_token_spec t input user secret (fun _ => True))]; [by intros w ?|]. intros id now w _. eexists. split; [exact Hq|].
      rewrite kind_token. eexists. split; [done|]. exists input, user, secret, now. split; [done|by left].
    + intros token. apply ends_ret; [apply _|]. by intros w [? _].
  - eapply ends_bind; [apply revoke_spec|]. intros u. apply ends_ret; [|by intros w ?]. apply stable_and; [apply _|]. apply kept_stable. eapply kept_gone, owner_token.
  - apply served_spec; [|done]. eapply hoare_pre; [|by apply (ends_plain t (fun _ => True)), plain_list_tokens]. by intros w ?.
  - eapply ends_bind; [by eapply verify_spec|]. intros [p|]; (apply ends_ret; [unfold accepted; apply _|]); by intros w ?.
Qed.

Definition start_of (w0 : world B V) : config B V answer := Config (map serve requests) w0.
Lemma serve_verified w0 : ready w0 -> verified own_step (fun t r w => ready w /\ forall q a, requests !! t = Some q -> r = Ok a -> answered t q a w) (start_of w0).
Proof.
  intros Hr i p Hp. cbn in Hp. rewrite list_lookup_fmap in Hp. destruct (requests !! i) as [q|] eqn:Eq; [|done]. injection Hp as <-.
  eapply hoare_post; [|by apply serve_token_spec|exact Hr]. intros [a|e] w [? Ha]; (split; [done|]); intros q' a' Hq'; [|done]. intros [= <-]. congruence.
Qed.

(** ** What follows of any run *)

(** No token and no authorization exists yet, and nothing is cached. *)
Definition fresh_store w : Prop := wf w /\ cache w = [] /\ forall k, kind k <> None -> hist k w = [] /\ store w !! k = None.
Lemma fresh_ready w : fresh_store w -> ready w.
Proof.
  intros (Hw & Hc & Hk). split; [done|]. assert (Hown : forall k id, owner k = Some id -> hist k w = [] /\ store w !! k = None).
  { intros k id Ho. apply Hk. cbn in Ho. by destruct (kind k). }
  split.
  - intros k id Ho. by rewrite (proj1 (Hown k id Ho)).
  - intros k id o Ho Hs. destruct (Hown k id Ho) as [_ E]. congruence.
  - intros k id Ho Hh. by destruct (Hown k id Ho).
  - intros k v. rewrite Hc. by intros ?%not_elem_of_nil.
Qed.
Lemma pool_ready w0 c : fresh_store w0 -> rtc pool_step (start_of w0) c -> ready (wd c).
Proof.
  intros Hf Hr. apply fresh_ready in Hf. eapply (pool_invariant own_step _ ready (start_of w0) c); [| |by apply serve_verified|done|done].
  - intros t w w'. apply kept_step.
  - intros w ms. apply kept_time.
Qed.
Lemma pool_answered w0 c i q a : fresh_store w0 -> rtc pool_step (start_of w0) c -> requests !! i = Some q -> threads c !! i = Some (Ret a) -> answered i q a (wd c).
Proof. intros Hf Hr Hq Ha. by apply (pool_result _ _ _ _ _ _ (serve_verified w0 (fresh_ready w0 Hf)) Hr Ha). Qed.

Lemma claims_owner k b input user : claims k b input user -> exists id, owner k = Some id.
Proof. intros [id ? ? -> _|id ? ? ? ? -> _|id ? ? -> _]; exists id; [apply owner_cli|apply owner_cli|apply owner_oauth]. Qed.
(** A claimed authorization never changes again. *)
Lemma claims_final k b input user : claims k b input user -> final k b.
Proof.
  intros Hc t b' (q & _ & He). destruct Hc as [id c a -> ->|id c a requested grant -> ->|id c a -> ->]; rewrite ?kind_cli, ?kind_oauth in He;
    destruct He as (r & r' & Hp & _ & Hn); apply exact_parse in Hp as ->; done.
Qed.

Definition redeemed_key (q : request) : option key := fst <$> redeems q.
Lemma redeemed_wrote t q token k w : redeemed_key q = Some k -> redeemed t q token w -> exists b input user, wrote t k b w /\ claims k b input user.
Proof. intros Hk (k' & secret & b & input & user & Hq & Hw & Hc & _). unfold redeemed_key in Hk. rewrite Hq in Hk. injection Hk as <-. by exists b, input, user. Qed.
Lemma answered_redeemed t q token w : is_Some (redeemed_key q) -> answered t q (Minted token) w -> redeemed t q token w.
Proof. by intros [k Hk]; destruct q. Qed.

(** C12: An authorization is redeemed at most once.  Whatever number of replicas serve
    approvals, device requests, exchanges, polls, denials, prunings, token creations,
    verifications and revocations at once, with any storage fault and any interleaving:
    two requests that present codes of the same authorization, command line or OAuth,
    cannot both be answered with a token. *)
Theorem authorization_redeemed_once w0 c i j qi qj k ti tj :
  fresh_store w0 -> rtc pool_step (start_of w0) c ->
  requests !! i = Some qi -> requests !! j = Some qj -> redeemed_key qi = Some k -> redeemed_key qj = Some k ->
  threads c !! i = Some (Ret (Minted ti)) -> threads c !! j = Some (Ret (Minted tj)) -> i = j.
Proof.
  intros Hf Hr Hqi Hqj Hki Hkj Hi Hj.
  assert (Hai := answered_redeemed _ _ _ _ (mk_is_Some _ _ Hki) (pool_answered _ _ _ _ _ Hf Hr Hqi Hi)).
  assert (Haj := answered_redeemed _ _ _ _ (mk_is_Some _ _ Hkj) (pool_answered _ _ _ _ _ Hf Hr Hqj Hj)).
  destruct (redeemed_wrote _ _ _ _ _ Hki Hai) as (b & input & user & Hw & Hc), (redeemed_wrote _ _ _ _ _ Hkj Haj) as (b' & input' & user' & Hw' & Hc').
  destruct (claims_owner _ _ _ _ Hc) as [id Hid]. pose proof (pool_ready _ _ Hf Hr) as [_ Hinv].
  by destruct (final_once _ k id i j b b' Hinv Hid Hw Hw' (claims_final _ _ _ _ Hc) (claims_final _ _ _ _ Hc')).
Qed.

(** ** Consent *)

(** [q] asked, on the user's behalf, for a token of this name, life time and grant. *)
Definition consents (q : request) (user : UserId) (name : string) (days : option Z) (grant : option TokenGrant) : Prop :=
  match q with
  | CreateToken input u _ => user = u /\ name = ct_name input /\ days = ct_expiresInDays input /\ grant = ct_grant input
  | ApproveCli input u _ => user = u /\ name = in_tokenName input /\ days = Some (in_expiresInDays input) /\ grant = None
  | ApproveCliScoped input requested g u _ =>
      user = u /\ name = in_tokenName input /\ days = Some (in_expiresInDays input) /\ grant = Some g /\ tokenGrantIsSubset g requested = true
  | ApproveDevice _ n d u => user = u /\ name = n /\ days = Some d /\ grant = None
  | ApproveDeviceScoped _ n d g u =>
      user = u /\ name = n /\ days = Some d /\ grant = Some g /\
      exists challenge requested draws, RequestDevice challenge (Some requested) draws ∈ requests /\ tokenGrantIsSubset g requested = true
  | ApproveOAuth _ g n d u _ =>
      user = u /\ name = n /\ days = d /\ grant = Some g /\ exists m, d = Some m /\ (1 <= m <= OAUTH_TOKEN_LIFETIME_DAYS_MAX)%Z
  | _ => False
  end.
Definition consented (input : CreateTokenInput) (user : UserId) : Prop :=
  exists q, q ∈ requests /\ consents q user (ct_name input) (ct_expiresInDays input) (ct_grant input).

(** The content before one stored under an authorization's key, read back. *)
Lemma cli_back w id b r : oinv w -> stored_once (cli_key id) b w -> means b r ->
  exists q, q ∈ requests /\ (cli_first q id r \/ exists b0 r0, stored_once (cli_key id) b0 w /\ means b0 r0 /\ cli_next q r0 r).
Proof.
  intros Hi [t Hw] Hm. destruct (wrote_back w _ id t b Hi (owner_cli id) Hw) as [(q & Hq & Hs)|(b0 & Hb0 & q & Hq & Hs)]; rewrite kind_cli in Hs;
    exists q; (split; [by eapply list_elem_of_lookup_2|]).
  - destruct Hs as (r' & -> & Hf). left. by apply means_stringify in Hm as ->.
  - destruct Hs as (r0 & r' & Hp & -> & Hn). apply means_stringify in Hm as ->. right. exists b0, r0. split_and!; [done|by right|done].
Qed.
Lemma oauth_back w id b r : oinv w -> stored_once (oauth_key id) b w -> means b r ->
  exists q, q ∈ requests /\ (oauth_first q id r \/ exists b0 r0, stored_once (oauth_key id) b0 w /\ means b0 r0 /\ oauth_next q r0 r).
Proof.
  intros Hi [t Hw] Hm. destruct (wrote_back w _ id t b Hi (owner_oauth id) Hw) as [(q & Hq & Hs)|(b0 & Hb0 & q & Hq & Hs)]; rewrite kind_oauth in Hs;
    exists q; (split; [by eapply list_elem_of_lookup_2|]).
  - destruct Hs as (r' & -> & Hf). left. by apply means_stringify in Hm as ->.
  - destruct Hs as (r0 & r' & Hp & -> & Hn). apply means_stringify in Hm as ->. right. exists b0, r0. split_and!; [done|by right|done].
Qed.

Lemma pending_consent w id b c a : oinv w -> stored_once (cli_key id) b w -> means b (Pending c a) -> consented (token_input a None) (ap_user_id a).
Proof.
  intros Hi Hb Hm. destruct (cli_back w id b _ Hi Hb Hm) as (q & Hin & [[_ Hf]|(b0 & r0 & _ & _ & Hn)]); exists q; (split; [done|]).
  - destruct q; try done. by destruct Hf as (_ & _ & ->).
  - destruct r0; try done. destruct Hn as [-> Hn]. destruct q; try done. by subst a.
Qed.
Lemma pendingV2_consent w id b c a requested grant : oinv w -> stored_once (cli_key id) b w -> means b (PendingV2 c a requested grant) ->
  consented (token_input a (Some grant)) (ap_user_id a).
Proof.
  intros Hi Hb Hm. destruct (cli_back w id b _ Hi Hb Hm) as (q & Hin & [[_ Hf]|(b0 & r0 & Hb0 & Hm0 & Hn)]); exists q; (split; [done|]).
  - destruct q; try done. by destruct Hf as (_ & _ & -> & <- & <- & ?).
  - destruct r0 as [| | |c0 uc0 req0| |]; try done. destruct Hn as (-> & -> & Hsub & Hn). destruct q; try done. destruct Hn as [-> ->]. split_and!; try done.
    destruct (cli_back w id b0 _ Hi Hb0 Hm0) as (q0 & Hin0 & [[_ Hf]|(b1 & r1 & _ & _ & Hn)]); [|by destruct r1].
    destruct q0; try done. destruct Hf as [_ ->]. by eexists _, _, _.
Qed.
(** The user of a claimed authorization agreed to its token. *)
Lemma claims_consent w t k b input user : oinv w -> wrote t k b w -> claims k b input user -> consented input user.
Proof.
  intros Hi Hw Hc. assert (Hb : stored_once k b w) by (by exists t). destruct Hc as [id c a -> ->|id c a requested grant -> ->|id c a -> ->].
  - destruct (cli_back w id _ _ Hi Hb (or_introl eq_refl)) as (q & _ & [[_ Hf]|(b0 & r0 & Hb0 & Hm0 & Hn)]); [by destruct q|].
    destruct r0; try done. destruct Hn as (-> & -> & _). by eapply pending_consent.
  - destruct (cli_back w id _ _ Hi Hb (or_introl eq_refl)) as (q & _ & [[_ Hf]|(b0 & r0 & Hb0 & Hm0 & Hn)]); [by destruct q|].
    destruct r0; try done. destruct Hn as (-> & -> & -> & -> & _). by eapply pendingV2_consent.
  - destruct (oauth_back w id _ _ Hi Hb (or_introl eq_refl)) as (q & _ & [Hf|(b0 & r0 & Hb0 & Hm0 & Hn)]); [by destruct q|].
    destruct r0; try done. destruct Hn as (-> & -> & _).
    destruct (oauth_back w id b0 _ Hi Hb0 Hm0) as (q0 & Hin & [Hf|(b1 & r1 & _ & _ & Hn)]); [by destruct q0|].
    destruct r1; try done. destruct Hn as [-> Hn]. destruct q0 as [| | | | | | | | | |? ? ? [d|]| | | | | | |]; try done. destruct Hn as [Hd ->].
    eexists. split; [exact Hin|]. cbn. split_and!; try done. by exists d.
Qed.
(** Every token comes from one. *)
Lemma created_consent w id r : oinv w -> created id r w ->
  exists input user secret now, consented input user /\ version_of (new_token sha256 input user id secret now) r.
Proof.
  intros Hi (t & q & r0 & Hq & (input & user & secret & now & -> & Hc) & Hv). exists input, user, secret, now. split; [|done].
  destruct Hc as [->|(k & b & _ & Hw & Hc)]; [|by eapply claims_consent]. eexists. split; [by eapply list_elem_of_lookup_2|]. done.
Qed.

(** C13: A bearer credential is accepted only for a stored token its user agreed to, and as
    that user.  When a request to verify a credential is answered with a principal, the
    credential carries the id of a token and a secret with exactly the hash that the token
    stored under that id holds; the principal is the identity stored for the token's user,
    with the token's grant, expiry and bindings; and some request of the pool, by the
    token's user, asked for or approved a token of exactly this name, life time and grant -
    a scoped approval within what its client requested. *)
Theorem verified_token_was_consented w0 c i bearer p :
  fresh_store w0 -> rtc pool_step (start_of w0) c -> requests !! i = Some (VerifyToken bearer) ->
  threads c !! i = Some (Ret (Verified (Some p))) ->
  exists id secret b r q days, parse_code PAT_PREFIX bearer = Some (id, secret) /\
    ever (wd c) (token_key id) b /\ means b r /\ presented_hash sha256 r id secret = tk_hash r /\
    account_of (tk_user_id r) (pr_user p) (wd c) /\
    pr_credential p = {| cred_kind := PersonalAccessToken; cred_id := Some id; cred_expiresAt := tk_expires_at r; cred_grant := tk_grant r;
      cred_mcpResource := tk_mcp_resource r; cred_oauth := tk_oauth r; cred_subjectContextRef := None |} /\
    q ∈ requests /\ consents q (tk_user_id r) (tk_name r) days (tk_grant r) /\
    exists now, tk_expires_at r = (fun d => toISOString (now + d * DAY_MS)) <$> days.
Proof.
  intros Hf Hr Hq Ha. pose proof (pool_ready _ _ Hf Hr) as [_ Hinv].
  destruct (pool_answered _ _ _ _ _ Hf Hr Hq Ha) as (id & secret & e & Hc & (b & Ht & Hm & Hu) & Hh & ->).
  destruct (created_consent _ id _ Hinv (stored_created _ id b _ Hinv (tagged_stored _ _ _ _ Ht) Hm)) as (input & user & sec & now & (q & Hin & Hcon) & Hv).
  exists id, secret, b, (ce_record e), q, (ct_expiresInDays input). split_and!; try done.
  1: destruct Ht as (o & [t Ho] & _ & Hb); by exists t, o.
  all: destruct Hv as [->|[n ->]]; try done; by exists now.
Qed.

(** C14: A revoked token is gone for good: once a revocation has been answered, no object is
    stored under the token's key at any later time, whatever usage marks other replicas
    still write from what they have cached. *)
Theorem token_revocation_final w0 c c' i user id :
  fresh_store w0 -> rtc pool_step (start_of w0) c -> requests !! i = Some (RevokeToken user id) ->
  threads c !! i = Some (Ret Revoked) -> rtc pool_step c c' -> store (wd c') !! token_key id = None.
Proof.
  intros Hf Hr Hq Ha Hr'. pose proof (pool_answered _ _ _ _ _ Hf Hr Hq Ha : gone (token_key id) (wd c)) as Hg.
  assert (Hk : Kept own_step (gone (token_key id))) by (by eapply kept_gone, owner_token).
  assert (Hv := verified_reachable _ _ _ _ (serve_verified w0 (fresh_ready w0 Hf)) Hr).
  eapply (pool_invariant own_step _ (gone (token_key id)) c c'); [| |exact Hv|exact Hg|exact Hr'].
  - intros t w w'. apply kept_step.
  - intros w ms. apply kept_time.
Qed.
End Family.
