(* ===== verification/TokenSamples.v ===== *)
(** * Runs of the token and authorization services

    Concrete interleavings: two exchanges racing for one authorization, a verification,
    and a revocation during a verification.  They are the witnesses of the theorems of
    [TokenProtocol.v]. *)

From Stdlib Require Import ZArith Lia Ascii.
From stdpp Require Import relations.
From S2P Require Import Prelude Constants Schema Grants UtcDate Store Cas CasTheorems Calls SessionData IdentityService Authorization Tokens CliAuthorization OAuth Owned TokenProtocol.

Module TokenSample.
(** Stored texts, read back as what they were written from. *)
Inductive text := TToken (r : Token) | TCli (r : CliAuthorization) | TOAuth (r : OAuthAuthorization) | TIdentity (r : IdentityRecord) | TClaim (r : DeviceUserCodeClaim).
#[export, refine] Instance token_codec : Codec text Token := {| valid _ := True; stringify := TToken; parse b := if b is TToken r then Some r else None |}.
Proof. all: by intros. Defined.
#[export, refine] Instance cli_codec : Codec text CliAuthorization := {| valid _ := True; stringify := TCli; parse b := if b is TCli r then Some r else None |}.
Proof. all: by intros. Defined.
#[export, refine] Instance oauth_codec : Codec text OAuthAuthorization := {| valid _ := True; stringify := TOAuth; parse b := if b is TOAuth r then Some r else None |}.
Proof. all: by intros. Defined.
#[export, refine] Instance id_codec : Codec text IdentityRecord := {| valid _ := True; stringify := TIdentity; parse b := if b is TIdentity r then Some r else None |}.
Proof. all: by intros. Defined.
#[export, refine] Instance claim_codec : Codec text DeviceUserCodeClaim := {| valid _ := True; stringify := TClaim; parse b := if b is TClaim r then Some r else None |}.
Proof. all: by intros. Defined.
#[export] Instance token_exact : Exact text Token.
Proof. split; by intros x y [= ->]. Qed.
#[export] Instance cli_exact : Exact text CliAuthorization.
Proof. split; by intros x y [= ->]. Qed.
#[export] Instance oauth_exact : Exact text OAuthAuthorization.
Proof. split; by intros x y [= ->]. Qed.

(** A stand-in for the digest. *)
Definition digest (s : string) : list Z := encode s.
Definition no_time (id : string) : option Z := Some 0%Z.
Definition url (u : string) (params : list (string * string)) : option string := Some u.
Definition secret : string := "0123456789abcdefghjkmnpqrstvwxyz".
Definition token_secret : string := "zyxwvtsrqpnmkjhgfedcba9876543210".
Definition verifier : string := "verifier".
Definition id0 : string := "00000000000000000000000000".
Definition id1 : string := "00000000000000000000000001".
Definition input : ApproveCliAuthorizationInput :=
  {| in_codeChallenge := toBase64Url (digest verifier); in_tokenName := "laptop"; in_expiresInDays := 30 |}.
Definition code : string := format_code CLI_PREFIX id0 secret.

Notation pool := (config text (cached CacheEntry) answer).
Definition launched (requests : list request) (w : world text (cached CacheEntry)) : pool :=
  start_of digest no_time url 3 requests w.
Definition run (start : pool) (turns : list nat) : pool := default start (interleave start (map Turn turns)).
Definition finished (c : pool) (i : nat) : option (result (error (cached CacheEntry)) answer) :=
  match threads c !! i with Some (Ret a) => Some (Ok a) | Some (Throw e) => Some (Err e) | _ => None end.

(** The directory knows Ana; nothing else is stored. *)
Definition ana : IdentityRecord :=
  {| id_id := "u-ana"; id_email := "ana@example.org"; id_name := "Ana"; id_picture_url := None; id_suspended_at := None; id_updated_at := "1970-01-01T00:00:00.000Z" |}.
Definition w0 : world text (cached CacheEntry) := (exec 0 (OPut (identity_key "u-ana") (TIdentity ana) Always) empty_world).2.
Lemma w0_facts : fresh_store w0 /\ mem_wf w0.
Proof.
  assert (Hm : mem_wf (empty_world (B := text) (V := cached CacheEntry))) by (intros t k o H; inversion H).
  destruct (memory_bucket_step 0 (OPut (identity_key "u-ana") (TIdentity ana) Always) (empty_world (V := cached CacheEntry)) _ w0 Hm eq_refl (surjective_pairing _)) as [Hs Hm'].
  split; [|exact Hm']. split; [by apply (grows_wf _ _ (sem_grows _ _ _ _ _ Hs)), wf_empty|]. split; [reflexivity|]. intros k Hk.
  assert (Hne : identity_key "u-ana" <> k) by (intros <-; by apply Hk). split.
  - change (hist k (write 0 (empty_world (B := text) (V := cached CacheEntry)) (identity_key "u-ana") {| o_body := TIdentity ana; o_etag := mem_etag 0; o_uploaded := 0 |}) = []).
    rewrite hist_write, bool_decide_eq_false_2 by done. reflexivity.
  - change (<[identity_key "u-ana" := {| o_body := TIdentity ana; o_etag := mem_etag 0; o_uploaded := 0%Z |}]> (∅ : gmap key (object text)) !! k = None).
    rewrite lookup_insert_ne by done. apply lookup_empty.
Qed.
Definition defined {A} (x : option A) : bool := match x with Some _ => true | None => false end.
Lemma sample_reaches start turns : mem_wf (wd start) -> defined (interleave start (map Turn turns)) = true -> rtc pool_step start (run start turns) /\ mem_wf (wd (run start turns)).
Proof.
  intros Hm Hd. apply (interleave_reaches start (run start turns) (map Turn turns) Hm). unfold run. by destruct (interleave start (map Turn turns)).
Qed.

(** Two exchanges present the same code: both read it pending, one claims it. *)
Definition race : list request := [ApproveCli input "u-ana" secret; ExchangeCli code verifier token_secret; ExchangeCli code verifier token_secret].
Definition race_end : pool := run (launched race w0) [0; 0; 0; 0; 0; 1; 2; 1; 2; 1; 2; 1; 1; 1; 1; 1].
Definition won : CreatedToken :=
  {| cr_token := format_code PAT_PREFIX id1 token_secret;
     cr_record := {| pt_id := id1; pt_user_id := "u-ana"; pt_name := "laptop"; pt_created_at := "1970-01-01T00:00:00.000Z";
                     pt_expires_at := Some "1970-01-31T00:00:00.000Z"; pt_last_used_at := None; pt_grant := None; pt_mcp_resource := None |} |}.
Lemma race_reached : rtc pool_step (launched race w0) race_end.
Proof. apply sample_reaches; [apply w0_facts|vm_compute; reflexivity]. Qed.
Lemma race_won : threads race_end !! 1 = Some (Ret (Minted won)).
Proof. vm_compute. reflexivity. Qed.
(** The other is refused, and a thread with the token is the one that claimed it. *)
Lemma authorization_redeemed_once_witness :
  finished race_end 1 = Some (Ok (Minted won)) /\ finished race_end 2 = Some (Err invalidAuthorization) /\
  forall j tj, race !! j = Some (ExchangeCli code verifier token_secret) -> threads race_end !! j = Some (Ret (Minted tj)) -> 1 = j.
Proof.
  split; [vm_compute; reflexivity|]. split; [vm_compute; reflexivity|]. intros j tj Hj Ht.
  refine (authorization_redeemed_once digest no_time url 3 race w0 race_end 1 j _ _ (cli_key id0) won tj (proj1 w0_facts) race_reached eq_refl Hj _ _ race_won Ht);
    vm_compute; reflexivity.
Defined.

(** The token is used. *)
Definition bearer : string := format_code PAT_PREFIX id1 token_secret.
Definition uses : list request := [ApproveCli input "u-ana" secret; ExchangeCli code verifier token_secret; VerifyToken bearer; RevokeToken "u-ana" id1].
Definition obtained : list nat := [0; 0; 0; 0; 0] ++ replicate 8 1.
Definition used : pool := run (launched uses w0) (obtained ++ replicate 14 2).
Definition principal : AuthenticatedPrincipal :=
  {| pr_user := {| au_id := "u-ana"; au_email := "ana@example.org"; au_name := Some "Ana"; au_pictureUrl := None |};
     pr_credential := {| cred_kind := PersonalAccessToken; cred_id := Some id1; cred_expiresAt := Some "1970-01-31T00:00:00.000Z"; cred_grant := None; cred_mcpResource := None; cred_oauth := None; cred_subjectContextRef := None |} |}.
Lemma used_reached : rtc pool_step (launched uses w0) used.
Proof. apply sample_reaches; [apply w0_facts|vm_compute; reflexivity]. Qed.
Lemma used_verified : threads used !! 2 = Some (Ret (Verified (Some principal))).
Proof. vm_compute. reflexivity. Qed.
Lemma verified_token_was_consented_witness : exists b r q days,
  ever (wd used) (token_key id1) b /\ means b r /\ presented_hash digest r id1 token_secret = tk_hash r /\
  account_of (tk_user_id r) (pr_user principal) (wd used) /\ q ∈ uses /\ consents uses q (tk_user_id r) (tk_name r) days (tk_grant r).
Proof.
  destruct (verified_token_was_consented digest no_time url 3 uses w0 used 2 bearer principal (proj1 w0_facts) used_reached eq_refl used_verified)
    as (id & s & b & r & q & days & Hc & Hb & Hm & Hh & Hu & _ & Hin & Hcon & _).
  assert (Hc' : parse_code PAT_PREFIX bearer = Some (id1, token_secret)) by (vm_compute; reflexivity). rewrite Hc' in Hc. injection Hc as <- <-.
  exists b, r, q, days. split_and!; assumption.
Defined.

(** The token is revoked between its verification and the mark of its use. *)
Definition revoked : pool := run (launched uses w0) (obtained ++ replicate 11 2 ++ [3; 3; 3]).
Definition marked : pool := run revoked [2].
Lemma revoked_reached : rtc pool_step (launched uses w0) revoked /\ mem_wf (wd revoked).
Proof. apply sample_reaches; [apply w0_facts|vm_compute; reflexivity]. Qed.
Lemma marked_reached : rtc pool_step revoked marked.
Proof. apply sample_reaches; [apply revoked_reached|vm_compute; reflexivity]. Qed.
Lemma token_revocation_final_witness :
  finished revoked 2 = None /\ finished marked 2 = Some (Ok (Verified (Some principal))) /\ store (wd marked) !! token_key id1 = None.
Proof.
  split; [vm_compute; reflexivity|]. split; [vm_compute; reflexivity|].
  refine (token_revocation_final digest no_time url 3 uses w0 revoked marked 3 "u-ana" id1 (proj1 w0_facts) (proj1 revoked_reached) eq_refl _ marked_reached).
  vm_compute. reflexivity.
Defined.
End TokenSample.
