(* ===== verification/Authenticators.v ===== *)
(** * Who a request comes from

    [packages/core/src/bearerToken.ts], [services/tokens/composeAuthenticators.ts] and
    [services/tokens/ServiceAccountCredentials.ts]: the bearer credential of a request,
    which authenticator answers for it, and the configured service accounts.  The single
    sign-on and external authenticators are adapters, and so parameters. *)

From Stdlib Require Import ZArith Lia Ascii.
From stdpp Require Import gmap strings.
From S2P Require Import Prelude Constants Schema Grants UtcDate Store Keys Cas SessionData JobData IdentityService Authorization Tokens OAuth.

(** ** Bearer credentials ([bearerToken.ts]) *)
Inductive BearerAuthorization := BearerAbsent | BearerInvalid | BearerToken (token : string).
Definition MAX_BEARER_TOKEN_LENGTH : nat := 32768.

(** [s.split(c)] *)
Fixpoint split_chars (c : ascii) (l word : list ascii) : list (list ascii) :=
  match l with
  | [] => [rev word]
  | x :: l' => if Ascii.eqb x c then rev word :: split_chars c l' [] else split_chars c l' (x :: word)
  end.
Definition split_on (c : ascii) (s : string) : list string := map String.string_of_list_ascii (split_chars c (String.list_ascii_of_string s) []).

(** [BEARER_SCHEME]: the word, then a space or the end *)
Definition bearer_scheme (s : string) : bool :=
  match startsWith "bearer" (toLowerCase s) with
  | Some EmptyString => true
  | Some (String c _) => js_space c
  | None => false
  end.
Definition blank (c : ascii) : bool := Ascii.eqb c " "%char || Ascii.eqb c "009"%char.
Definition token_char (c : ascii) : bool :=
  in_range 97 122 c || in_range 65 90 c || in_range 48 57 c || existsb (Ascii.eqb c) (String.list_ascii_of_string "._~+/-").
Fixpoint span {A} (p : A -> bool) (l : list A) : list A * list A :=
  match l with
  | x :: l' => if p x then let (a, b) := span p l' in (x :: a, b) else ([], l)
  | [] => ([], [])
  end.
(** The scheme, blanks, and a token of [a-z0-9._~+/-] with trailing [=] *)
Definition bearer_match (header : string) : option string :=
  match startsWith "bearer" (toLowerCase header) with
  | None => None
  | Some _ =>
      let (gap, rest) := span blank (String.list_ascii_of_string (slice_from 6 header)) in
      let (body, padding) := span token_char rest in
      match gap, body with
      | _ :: _, _ :: _ => if forallb (Ascii.eqb "="%char) padding then Some (String.string_of_list_ascii rest) else None
      | _, _ => None
      end
  end.
Definition parseBearerAuthorization (header : option string) : BearerAuthorization :=
  match truthy header with
  | None => BearerAbsent
  | Some header =>
      let values := split_on ","%char header in
      if negb (existsb (fun value => bearer_scheme (trim value)) values) then BearerAbsent
      else if negb (length values === 1) then BearerInvalid
      else match bearer_match header with
           | Some token => if (MAX_BEARER_TOKEN_LENGTH <? String.length token)%nat then BearerInvalid else BearerToken token
           | None => BearerInvalid
           end
  end.

(** ** Service accounts ([ServiceAccountCredentials.ts]) *)
Definition SERVICE_ACCOUNT_PREFIX : string := "mhub_sa_".
Definition SERVICE_ACCOUNT_USER_PREFIX : string := "service-account:".
Record Credential := { sc_id : string; sc_sha256 : string; sc_expires_at : option Timestamp }.
Record Account := { sa_id : string; sa_name : option string; sa_actions : list AuthorizationAction; sa_credentials : list Credential }.

Definition account_char (c : ascii) : bool := lower_alnum c || Ascii.eqb c "-"%char.
(** [AccountIdSchema] *)
Definition AccountIdSchema (s : string) : bool :=
  match String.list_ascii_of_string s with
  | c :: l => lower c && forallb account_char l && (length l <=? 63)%nat
  | [] => false
  end.
Definition hex_lower (c : ascii) : bool := in_range 48 57 c || in_range 97 102 c.
Definition is_sha256 (s : string) : bool := (String.length s === 64) && forallb hex_lower (String.list_ascii_of_string s).
Definition CredentialSchema (c : Credential) : bool := AccountIdSchema (sc_id c) && is_sha256 (sc_sha256 c) && optional utcTimestamp (sc_expires_at c).
(** [AccountSchema]; the name is trimmed. *)
Definition AccountSchema (a : Account) : option Account :=
  let name := trim <$> sa_name a in
  if AccountIdSchema (sa_id a) && optional (fun n => (1 <=? String.length n) && (String.length n <=? 100))%nat name &&
     (1 <=? length (sa_actions a))%nat && forallb (fun x => includes x SERVICE_ACCOUNT_ACTIONS) (sa_actions a) && uniqueArray (sa_actions a) &&
     (1 <=? length (sa_credentials a))%nat && (length (sa_credentials a) <=? 4)%nat && forallb CredentialSchema (sa_credentials a)
  then Some {| sa_id := sa_id a; sa_name := name; sa_actions := sa_actions a; sa_credentials := sa_credentials a |}
  else None.
(** [ServiceAccountsConfigSchema]: accounts, their credentials and all hashes are distinct. *)
Definition ServiceAccountsConfigSchema (config : list Account) : option (list Account) :=
  accounts ← mapM AccountSchema config;
  if (length accounts <=? 32)%nat && uniqueArray (map sa_id accounts) &&
     forallb (fun a => uniqueArray (map sc_id (sa_credentials a))) accounts &&
     uniqueArray (map sc_sha256 (concat (map sa_credentials accounts)))
  then Some accounts else None.

Definition credential_name (accountId credentialId : string) : string := accountId +:+ "/" +:+ credentialId.
(** The constructor's loops *)
Definition credential_entries (accounts : list Account) : list (string * (Account * Credential)) :=
  concat (map (fun a => map (fun c => (credential_name (sa_id a) (sc_id c), (a, c))) (sa_credentials a)) accounts).
Notation credential_map := (gmap string (Account * Credential)).
Definition credentials_of (accounts : list Account) : credential_map :=
  fold_left (fun m '(k, v) => <[k := v]> m) (credential_entries accounts) ∅.

Section ServiceAccounts.
Context {B : Type} (sha256 : string -> list Z).
Local Notation prog := (prog B (cached CacheEntry)).

Definition service_token (accountId credentialId : string) (bytes : list Z) : string :=
  SERVICE_ACCOUNT_PREFIX +:+ accountId +:+ "_" +:+ credentialId +:+ "_" +:+ toHex bytes.
Definition generateServiceAccountToken (accountId credentialId : string) (bytes : list Z) : option (string * Credential) :=
  if AccountIdSchema accountId && AccountIdSchema credentialId then
    let token := service_token accountId credentialId bytes in
    Some (token, {| sc_id := credentialId; sc_sha256 := sha256Hex sha256 token; sc_expires_at := None |})
  else None.

Definition service_principal (id : string) (a : Account) (c : Credential) : AuthenticatedPrincipal :=
  {| pr_user := {| au_id := SERVICE_ACCOUNT_USER_PREFIX +:+ sa_id a; au_email := sa_id a +:+ "@service-accounts.invalid";
                   au_name := Some (sa_name a ?? sa_id a); au_pictureUrl := None |};
     pr_credential := {| cred_kind := ServiceAccount; cred_id := Some id; cred_expiresAt := sc_expires_at c;
                         cred_grant := Some {| actions := Only (sa_actions a); projects := All |};
                         cred_oauth := None; cred_mcpResource := None; cred_subjectContextRef := None |} |}.
(** [verify] *)
Definition verify_service (credentials : credential_map) (bearer : string) : prog (option AuthenticatedPrincipal) :=
  match startsWith SERVICE_ACCOUNT_PREFIX bearer with
  | None => mret None
  | Some rest =>
      if (202 <? String.length bearer)%nat then mret None
      else
        match split_on "_"%char rest with
        | [account; credential; secret] =>
            if negb (is_sha256 secret) then mret None
            else
              let id := credential_name account credential in
              match credentials !! id with
              | None => mret None
              | Some (a, c) =>
                  if negb (timingSafeEqual (encode (sha256Hex sha256 bearer)) (encode (sc_sha256 c))) then mret None
                  else
                    expired ← match sc_expires_at c with None => mret false | Some ts => now ← call ONow; mret (passed ts now) end;
                    mret (if expired : bool then None else Some (service_principal id a c))
              end
        | _ => mret None
        end
  end.
End ServiceAccounts.

(** ** Which authenticator answers ([composeAuthenticators.ts]) *)
Section Compose.
Context {B : Type} {CI : Codec B IdentityRecord} {CT : Codec B Token} (sha256 : string -> list Z).
Context {Request : Type} (authorization : Request -> option string).
Local Notation prog := (prog B (cached CacheEntry)).
Definition Authenticator := Request -> prog (option AuthenticatedPrincipal).
Context (sso : Authenticator) (external : option Authenticator) (serviceAccounts : option credential_map).

Definition isPersonalAccessToken (bearer : string) : bool := starts_with PAT_PREFIX bearer.
(** Only the service accounts speak for a configured machine. *)
Definition not_a_machine (p : option AuthenticatedPrincipal) : option AuthenticatedPrincipal :=
  match p with Some p => if starts_with SERVICE_ACCOUNT_USER_PREFIX (au_id (pr_user p)) then None else Some p | None => None end.
Definition authenticate (request : Request) : prog (option AuthenticatedPrincipal) :=
  match parseBearerAuthorization (authorization request) with
  | BearerInvalid => mret None
  | BearerAbsent => p ← sso request; mret (not_a_machine p)
  | BearerToken token =>
      if starts_with SERVICE_ACCOUNT_PREFIX token then
        match serviceAccounts with Some credentials => verify_service sha256 credentials token | None => mret None end
      else if isPersonalAccessToken token then p ← verify sha256 token; mret (not_a_machine p)
      else match external with Some external => p ← external request; mret (not_a_machine p) | None => mret None end
  end.
End Compose.

(** ** Texts split at a character *)

Lemma ascii_app a b : String.list_ascii_of_string (a +:+ b) = String.list_ascii_of_string a ++ String.list_ascii_of_string b.
Proof. induction a as [|c a IH]; [done|]. change (c :: String.list_ascii_of_string (a +:+ b) = c :: (String.list_ascii_of_string a ++ String.list_ascii_of_string b)). by rewrite IH. Qed.
Lemma ascii_length s : length (String.list_ascii_of_string s) = String.length s.
Proof. induction s; cbn; congruence. Qed.

Definition lacks (c : ascii) (s : string) : bool := forallb (fun x => negb (Ascii.eqb x c)) (String.list_ascii_of_string s).
Lemma split_chars_skip c l rest w : forallb (fun x => negb (Ascii.eqb x c)) l = true -> split_chars c (l ++ rest) w = split_chars c rest (rev l ++ w).
Proof.
  revert w. induction l as [|x l IH]; intros w; [done|]. cbn. intros [Hx Hl]%andb_true_iff. apply negb_true_iff in Hx. rewrite Hx, IH by done. by rewrite <- app_assoc.
Qed.
Lemma split_on_step c s rest : lacks c s = true -> split_on c (s +:+ String c "" +:+ rest) = s :: split_on c rest.
Proof.
  intros Hs. change (String c "" +:+ rest) with (String c rest). unfold split_on. rewrite ascii_app, (split_chars_skip c _ _ _ Hs). cbn. rewrite Ascii.eqb_refl, app_nil_r, rev_involutive. cbn.
  by rewrite String.string_of_list_ascii_of_string.
Qed.
Lemma split_on_end c s : lacks c s = true -> split_on c s = [s].
Proof.
  intros Hs. unfold split_on. rewrite <- (app_nil_r (String.list_ascii_of_string s)), (split_chars_skip c _ _ _ Hs). cbn.
  by rewrite app_nil_r, rev_involutive, String.string_of_list_ascii_of_string.
Qed.

(** ** Account ids and hashes *)
Lemma lacks_class (p : ascii -> bool) c s : (forall x, p x = true -> Ascii.eqb x c = false) -> forallb p (String.list_ascii_of_string s) = true -> lacks c s = true.
Proof. intros Hp Hs. apply forallb_forall. intros x Hx. rewrite forallb_forall in Hs. by rewrite (Hp x (Hs x Hx)). Qed.
Lemma account_chars s : AccountIdSchema s = true -> forallb account_char (String.list_ascii_of_string s) = true /\ String.length s <= 64.
Proof.
  unfold AccountIdSchema. rewrite <- ascii_length. destruct (String.list_ascii_of_string s) as [|c l]; [done|]. rewrite !andb_true_iff, Nat.leb_le. intros [[Hc Hl] Hn].
  split; [|cbn; lia]. cbn. rewrite Hl. unfold account_char, lower_alnum. by rewrite Hc.
Qed.
Lemma account_lacks s : AccountIdSchema s = true -> lacks "_"%char s = true /\ lacks "/"%char s = true.
Proof.
  intros [Hs _]%account_chars. split; (eapply lacks_class; [|exact Hs]); intros [[] [] [] [] [] [] [] []]; done || by vm_compute.
Qed.
Lemma credential_name_inj a c a' c' : AccountIdSchema a = true -> AccountIdSchema c = true -> AccountIdSchema a' = true -> AccountIdSchema c' = true ->
  credential_name a c = credential_name a' c' -> a = a' /\ c = c'.
Proof.
  intros [_ Ha]%account_lacks [_ Hc]%account_lacks [_ Ha']%account_lacks [_ Hc']%account_lacks H. apply (f_equal (split_on "/"%char)) in H. unfold credential_name in H.
  rewrite !split_on_step, !split_on_end in H by done. by injection H as -> ->.
Qed.

Definition is_byte (b : Z) : Prop := (0 <= b < 256)%Z.
Lemma hex_char_digit n : (0 <= n < 16)%Z -> hex_lower (hex_char n) = true.
Proof. intros Hn. assert (Hd : exists k, (k < 16)%nat /\ n = Z.of_nat k) by (exists (Z.to_nat n); lia). destruct Hd as (k & Hk & ->). do 16 (destruct k as [|k]; [reflexivity|]). lia. Qed.
Lemma toHex_sha256 bytes : length bytes = 32 -> Forall is_byte bytes -> is_sha256 (toHex bytes) = true.
Proof.
  intros Hl Hb. unfold is_sha256, toHex. rewrite <- ascii_length, String.list_ascii_of_string_of_list_ascii.
  assert (Hgen : length (concat (map (fun b => [hex_char (b / 16); hex_char (b mod 16)]) bytes)) = 2 * length bytes /\
    forallb hex_lower (concat (map (fun b => [hex_char (b / 16); hex_char (b mod 16)]) bytes)) = true).
  { clear Hl. induction Hb as [|b bytes Hb _ [IH1 IH2]]; [done|]. cbn. rewrite IH1, IH2. split; [lia|]. unfold is_byte in Hb.
    rewrite !hex_char_digit; [done|apply Z.mod_pos_bound; lia|]. split; [apply Z.div_pos; lia|apply Z.div_lt_upper_bound; lia]. }
  destruct Hgen as [H1 H2]. rewrite H1, H2, Hl. done.
Qed.
Lemma hex_lacks s : is_sha256 s = true -> lacks "_"%char s = true /\ String.length s = 64.
Proof.
  intros [Hl Hs]%andb_true_iff. split; [|by apply bool_decide_eq_true in Hl]. eapply lacks_class; [|exact Hs]. intros [[] [] [] [] [] [] [] []]; done || by vm_compute.
Qed.

(** ** The configured credentials *)
Lemma fold_insert_lookup {A} (l : list (string * A)) (m : gmap string A) k v :
  (k, v) ∈ l \/ m !! k = Some v -> (forall v', (k, v') ∈ l -> v' = v) -> fold_left (fun m '(k, v) => <[k := v]> m) l m !! k = Some v.
Proof.
  revert m. induction l as [|[k0 v0] l IH]; intros m H Huniq; [by destruct H as [?%not_elem_of_nil|?]|].
  cbn. apply IH; [|intros v' Hv'; apply Huniq; by right]. destruct H as [[[= -> ->]|Hin]%elem_of_cons|Hm]; [right; apply lookup_insert_eq|by left|right].
  destruct (decide (k0 = k)) as [->|Hne]; [|by rewrite lookup_insert_ne]. rewrite lookup_insert_eq. f_equal. apply Huniq. by left.
Qed.
Lemma fold_insert_from {A} (l : list (string * A)) (m : gmap string A) k v :
  fold_left (fun m '(k, v) => <[k := v]> m) l m !! k = Some v -> (k, v) ∈ l \/ m !! k = Some v.
Proof.
  revert m. induction l as [|[k0 v0] l IH]; intros m H; [by right|]. destruct (IH _ H) as [?|Hm]; [left; by right|].
  destruct (decide (k0 = k)) as [->|Hne]; [rewrite lookup_insert_eq in Hm; injection Hm as ->; left; by left|rewrite lookup_insert_ne in Hm by done; by right].
Qed.
Lemma uniqueArray_NoDup {A} `{EqDecision A} (l : list A) : uniqueArray l = true -> NoDup l.
Proof.
  unfold uniqueArray. rewrite Nat.eqb_eq. induction l as [|x l IH]; [constructor|]. cbn. intros H. injection H as H.
  assert (H1 : length (List.filter (fun y => negb (y === x)) (js_set l)) <= length (js_set l)) by apply filter_length_le.
  assert (H2 : length (js_set l) <= length l). { clear. induction l as [|y l IH]; [done|]. cbn. pose proof (filter_length_le (fun z => negb (z === y)) (js_set l)). lia. }
  constructor; [|apply IH; lia]. intros Hx. apply elem_of_js_set in Hx.
  assert (H3 : length (List.filter (fun y => negb (y === x)) (js_set l)) < length (js_set l)); [|lia].
  clear -Hx. induction (js_set l) as [|y k IH]; [by apply not_elem_of_nil in Hx|]. cbn. destruct (bool_decide_reflect (y = x)) as [->|Hne]; cbn.
  - pose proof (filter_length_le (fun y => negb (y === x)) k). lia.
  - apply elem_of_cons in Hx as [->|Hx]; [done|]. specialize (IH Hx). lia.
Qed.

Definition configured (accounts : list Account) (a : Account) (c : Credential) : Prop := a ∈ accounts /\ c ∈ sa_credentials a.
Lemma elem_of_entries accounts k a c : (k, (a, c)) ∈ credential_entries accounts <-> k = credential_name (sa_id a) (sc_id c) /\ configured accounts a c.
Proof.
  unfold credential_entries, configured. rewrite list_elem_of_In, in_concat. split.
  - intros (l & Hl & Hin). apply in_map_iff in Hl as (a' & <- & Ha'). apply in_map_iff in Hin as (c' & [= <- <- <-] & Hc'). split; [done|].
    split; by apply list_elem_of_In.
  - intros (-> & Ha%list_elem_of_In & Hc%list_elem_of_In). eexists. split; [by apply in_map|]. by apply (in_map (fun c => (credential_name (sa_id a) (sc_id c), (a, c)))).
Qed.

(** What the schema of the configuration ensures. *)
Record accounts_ok (accounts : list Account) : Prop := {
  ok_id a : a ∈ accounts -> AccountIdSchema (sa_id a) = true;
  ok_actions a x : a ∈ accounts -> x ∈ sa_actions a -> x ∈ SERVICE_ACCOUNT_ACTIONS;
  ok_credential a c : configured accounts a c -> AccountIdSchema (sc_id c) = true;
  ok_accounts a a' : a ∈ accounts -> a' ∈ accounts -> sa_id a = sa_id a' -> a = a';
  ok_credentials a c c' : configured accounts a c -> configured accounts a c' -> sc_id c = sc_id c' -> c = c';
}.
Lemma NoDup_map_inj {A C} (f : A -> C) l x y : NoDup (map f l) -> x ∈ l -> y ∈ l -> f x = f y -> x = y.
Proof.
  intros Hnd Hx Hy Hf. apply list_elem_of_lookup in Hx as [i Hi], Hy as [j Hj]. assert (i = j) as ->; [|congruence].
  apply (NoDup_lookup (map f l) i j (f x) Hnd); [by rewrite list_lookup_fmap, Hi|by rewrite Hf, list_lookup_fmap, Hj].
Qed.
Lemma schema_ok config accounts : ServiceAccountsConfigSchema config = Some accounts -> accounts_ok accounts.
Proof.
  unfold ServiceAccountsConfigSchema. intros H. destruct (mapM AccountSchema config) as [l|] eqn:Hm; [|done]. cbn in H.
  destruct (_ && _) eqn:Hc in H; [|done]. injection H as ->. rewrite !andb_true_iff in Hc. destruct Hc as [[[_ Hids%uniqueArray_NoDup] Hcs] _]. rewrite forallb_forall in Hcs.
  assert (Hall : forall a, a ∈ accounts -> AccountIdSchema (sa_id a) = true /\ forallb (fun x => includes x SERVICE_ACCOUNT_ACTIONS) (sa_actions a) = true /\
    forallb CredentialSchema (sa_credentials a) = true).
  { intros a Ha. apply mapM_Some_1 in Hm. apply list_elem_of_lookup in Ha as [i Hi]. destruct (Forall2_lookup_r _ _ _ _ _ Hm Hi) as (a0 & _ & Hs).
    unfold AccountSchema in Hs. destruct (_ && _) eqn:E in Hs; [|done]. injection Hs as <-. cbn. rewrite !andb_true_iff in E. tauto. }
  split.
  - intros a Ha. by destruct (Hall a Ha).
  - intros a x Ha Hx. destruct (Hall a Ha) as (_ & Hact & _). rewrite forallb_forall in Hact. apply list_elem_of_In in Hx. by apply Hact, includes_spec in Hx.
  - intros a c [Ha Hc]. destruct (Hall a Ha) as (_ & _ & Hcred). rewrite forallb_forall in Hcred. apply list_elem_of_In, Hcred in Hc. unfold CredentialSchema in Hc.
    rewrite !andb_true_iff in Hc. tauto.
  - intros a a' Ha Ha'. by apply (NoDup_map_inj sa_id accounts).
  - intros a c c' [Ha Hc] [_ Hc']. apply (NoDup_map_inj sc_id (sa_credentials a)); [|done|done]. by apply uniqueArray_NoDup, Hcs, list_elem_of_In.
Qed.
Lemma configured_lookup accounts a c : accounts_ok accounts -> configured accounts a c ->
  credentials_of accounts !! credential_name (sa_id a) (sc_id c) = Some (a, c).
Proof.
  intros Hok Hc. apply fold_insert_lookup; [left; by apply elem_of_entries|]. intros [a' c'] [Hn Hc']%elem_of_entries.
  apply credential_name_inj in Hn as [Ha Hcc]; [|apply (ok_id _ Hok), Hc|by eapply ok_credential|apply (ok_id _ Hok), Hc'|by eapply ok_credential].
  assert (a' = a) as -> by (by apply (ok_accounts _ Hok); [apply Hc'|apply Hc|]). f_equal. by apply (ok_credentials _ Hok a).
Qed.

(** ** Service account tokens *)
Section ServiceTokens.
Context {B : Type} (sha256 : string -> list Z).
Local Notation prog := (prog B (cached CacheEntry)).

Lemma service_token_parts a c bytes : AccountIdSchema a = true -> AccountIdSchema c = true -> is_sha256 (toHex bytes) = true ->
  exists rest, startsWith SERVICE_ACCOUNT_PREFIX (service_token a c bytes) = Some rest /\ split_on "_"%char rest = [a; c; toHex bytes] /\
    String.length (service_token a c bytes) <= 202.
Proof.
  intros Ha Hc Hb. assert (Hal := account_lacks a Ha). assert (Hcl := account_lacks c Hc). destruct (hex_lacks _ Hb) as [Hbl Hlen].
  unfold service_token. eexists. split; [apply startsWith_app|]. split; [rewrite !split_on_step by tauto; by rewrite split_on_end|].
  rewrite !string_app_length, Hlen. pose proof (proj2 (account_chars a Ha)). pose proof (proj2 (account_chars c Hc)). change (String.length SERVICE_ACCOUNT_PREFIX) with 8. cbn. lia.
Qed.

(** A generated service account token authenticates as its account.  For any accepted
    configuration that lists the credential generated with the token, presenting the
    token yields, until the credential's expiry, the principal of that account, whose
    grant is the account's actions. *)
Theorem service_account_round_trip config accounts a c bytes token g :
  ServiceAccountsConfigSchema config = Some accounts -> configured accounts a c ->
  length bytes = 32 -> Forall is_byte bytes ->
  generateServiceAccountToken sha256 (sa_id a) (sc_id c) bytes = Some (token, g) -> sc_sha256 c = sc_sha256 g ->
  verify_service (B := B) sha256 (credentials_of accounts) token =
    (expired ← match sc_expires_at c with None => mret false | Some ts => now ← call ONow; mret (passed ts now) end;
     mret (if expired : bool then None else Some (service_principal (credential_name (sa_id a) (sc_id c)) a c))).
Proof.
  intros Hs Hc Hl Hb Hg Hh. assert (Hok := schema_ok _ _ Hs). assert (Hx := toHex_sha256 bytes Hl Hb). unfold generateServiceAccountToken in Hg.
  destruct (AccountIdSchema (sa_id a)) eqn:Hid; [|done]. destruct (AccountIdSchema (sc_id c)) eqn:Hcid; [|done]. cbn [andb] in Hg. injection Hg as <- <-.
  destruct (service_token_parts _ _ bytes Hid Hcid Hx) as (rest & Hst & Hsp & Hlen). unfold verify_service. rewrite Hst.
  destruct (Nat.ltb_spec 202 (String.length (service_token (sa_id a) (sc_id c) bytes))) as [?|_]; [lia|]. rewrite Hsp, Hx. cbn [negb].
  rewrite (configured_lookup accounts a c Hok Hc). cbn [sc_sha256] in Hh. rewrite Hh.
  by rewrite (proj2 (timingSafeEqual_spec _ _) eq_refl).
Qed.
End ServiceTokens.

(** ** Answers of a composed authenticator *)

(** [a] is an answer of [p], for some answers of its calls. *)
Fixpoint answers {B V A} (p : prog B V A) (a : A) : Prop :=
  match p with
  | Ret x => x = a
  | Throw _ => False
  | Call o k => exists r, answers (k r) a
  end.
Lemma answers_bind {B V A C} (p : prog B V A) (f : A -> prog B V C) c : answers (bind p f) c <-> exists a, answers p a /\ answers (f a) c.
Proof.
  induction p as [x|e|X o k IH]; cbn; [naive_solver|naive_solver|]. split.
  - intros [r Hr]. apply IH in Hr as (a & ? & ?). eauto.
  - intros (a & [r Hr] & Ha). exists r. apply IH. eauto.
Qed.

Section Composed.
Context {B : Type} {CI : Codec B IdentityRecord} {CT : Codec B Token} (sha256 : string -> list Z).
Context {Request : Type} (authorization : Request -> option string) (sso : Authenticator (B := B) (Request := Request)) (external : option (Authenticator (B := B) (Request := Request))).

Definition machine (p : AuthenticatedPrincipal) : bool := starts_with SERVICE_ACCOUNT_USER_PREFIX (au_id (pr_user p)).
Lemma not_a_machine_some p q : not_a_machine p = Some q -> p = Some q /\ machine q = false.
Proof. unfold not_a_machine. destruct p as [p|]; [|done]. destruct (starts_with _ _) eqn:E; [done|]. intros [= ->]. by split. Qed.

Lemma verify_service_answers credentials token p : answers (verify_service (B := B) sha256 credentials token) (Some p) ->
  exists id a c, credentials !! id = Some (a, c) /\ sha256Hex sha256 token = sc_sha256 c /\ p = service_principal id a c.
Proof.
  unfold verify_service. destruct (startsWith _ token); [|done]. case_match; [done|]. destruct (split_on _ _) as [|x [|y [|z [|? ?]]]]; try done.
  case_match; [done|]. destruct (credentials !! _) as [[a c]|] eqn:E; [|done]. destruct (timingSafeEqual _ _) eqn:Et; [|done]. apply timingSafeEqual_spec in Et. cbn [negb].
  intros Ha. apply answers_bind in Ha as (expired & _ & Hr). destruct expired; [done|]. cbn in Hr. injection Hr as <-. by exists (credential_name x y), a, c.
Qed.

(** Some value of the request's header presents a bearer credential. *)
Definition presents_bearer (request : Request) : Prop :=
  exists header value, authorization request = Some header /\ value ∈ split_on ","%char header /\ bearer_scheme (trim value) = true.
(** The authenticator of the token's own kind answered with [p]. *)
Definition vouched (accounts : list Account) (request : Request) (token : string) (p : AuthenticatedPrincipal) : Prop :=
  if starts_with SERVICE_ACCOUNT_PREFIX token then
    exists a c, configured accounts a c /\ sha256Hex sha256 token = sc_sha256 c /\ p = service_principal (credential_name (sa_id a) (sc_id c)) a c
  else machine p = false /\
    if starts_with PAT_PREFIX token then answers (verify sha256 token) (Some p)
    else exists issuer, external = Some issuer /\ answers (issuer request) (Some p).

Lemma presents_not_absent request : presents_bearer request -> parseBearerAuthorization (authorization request) <> BearerAbsent.
Proof.
  intros (header & value & Hh & Hv & Hsch) Hb. unfold parseBearerAuthorization in Hb. rewrite Hh in Hb. destruct header as [|x header].
  { apply list_elem_of_singleton in Hv as ->. by vm_compute in Hsch. }
  cbn [truthy] in Hb. assert (He : existsb (fun value => bearer_scheme (trim value)) (split_on ","%char (String x header)) = true).
  { apply existsb_exists. exists value. split; [by apply list_elem_of_In|done]. }
  rewrite He in Hb. cbn [negb] in Hb. repeat case_match; done.
Qed.
Lemma absent_presents_none request : parseBearerAuthorization (authorization request) <> BearerAbsent -> presents_bearer request.
Proof.
  unfold parseBearerAuthorization, presents_bearer. destruct (authorization request) as [[|x header]|]; [done| |done]. cbn [truthy].
  destruct (existsb _ _) eqn:He; [|done]. intros _. apply existsb_exists in He as (value & Hv%list_elem_of_In & Hs). by exists (String x header), value.
Qed.

Lemma bearer_vouched config accounts request token p :
  ServiceAccountsConfigSchema config = Some accounts -> parseBearerAuthorization (authorization request) = BearerToken token ->
  answers (authenticate sha256 authorization sso external (Some (credentials_of accounts)) request) (Some p) -> vouched accounts request token p.
Proof.
  intros Hs Hb Ha. unfold authenticate, vouched in *. rewrite Hb in Ha. destruct (starts_with SERVICE_ACCOUNT_PREFIX token).
  - apply verify_service_answers in Ha as (id & a & c & Hl & Hh & ->). apply fold_insert_from in Hl as [[-> Hc]%elem_of_entries|[=]]. by exists a, c.
  - unfold isPersonalAccessToken in Ha. destruct (starts_with PAT_PREFIX token); [|destruct external as [issuer|]; [|done]];
      apply answers_bind in Ha as (q & Hq & Hr); cbn in Hr; apply not_a_machine_some in Hr as [-> Hm]; (split; [done|]); [done|by exists issuer].
Qed.

(** C16: The composed authenticator never lets one kind of credential speak for another.  A
    principal with a machine identity was answered only for the token of a configured
    service account credential, whose hash it has, and may do only what such accounts
    may.  A request that presents any bearer credential, even among several header values,
    presents a single well-formed token and was answered by the authenticator of that
    token's kind: the configured accounts, the personal tokens, or the external issuer;
    what single sign-on would say of it makes no difference.  A request that presents none
    was answered by single sign-on. *)
Theorem machine_identity_is_configured config accounts request p :
  ServiceAccountsConfigSchema config = Some accounts ->
  answers (authenticate sha256 authorization sso external (Some (credentials_of accounts)) request) (Some p) ->
  (machine p = true -> exists token a c, parseBearerAuthorization (authorization request) = BearerToken token /\
     starts_with SERVICE_ACCOUNT_PREFIX token = true /\ configured accounts a c /\ sha256Hex sha256 token = sc_sha256 c /\
     p = service_principal (credential_name (sa_id a) (sc_id c)) a c /\ forall x, x ∈ sa_actions a -> x ∈ SERVICE_ACCOUNT_ACTIONS) /\
  (presents_bearer request ->
     (exists token, parseBearerAuthorization (authorization request) = BearerToken token /\ vouched accounts request token p) /\
     forall sso', authenticate sha256 authorization sso' external (Some (credentials_of accounts)) request =
                  authenticate sha256 authorization sso external (Some (credentials_of accounts)) request) /\
  (~ presents_bearer request -> answers (sso request) (Some p)).
Proof.
  intros Hs Ha. assert (Hok := schema_ok _ _ Hs). destruct (parseBearerAuthorization (authorization request)) as [| |token] eqn:Hb.
  - unfold authenticate in Ha. rewrite Hb in Ha. apply answers_bind in Ha as (q & Hq & Hr). cbn in Hr. apply not_a_machine_some in Hr as [-> Hm].
    split; [by rewrite Hm|]. split; [by intros Hp%presents_not_absent|done].
  - unfold authenticate in Ha. by rewrite Hb in Ha.
  - pose proof (bearer_vouched _ _ _ _ _ Hs Hb Ha) as Hv. split; [|split].
    + intros Hm. unfold vouched in Hv. destruct (starts_with SERVICE_ACCOUNT_PREFIX token) eqn:Hp; [|destruct Hv; congruence].
      destruct Hv as (a & c & Hc & Hh & ->). exists token, a, c. split_and!; try done. intros x. by apply (ok_actions _ Hok), Hc.
    + intros _. split; [by exists token|]. intros sso'. unfold authenticate. by rewrite Hb.
    + intros []. apply absent_presents_none. by rewrite Hb.
Qed.
End Composed.

(** ** A configured machine *)
Module MachineSample.
(** A stand-in for the digest: the last 32 bytes of the text, backwards. *)
Definition digest (s : string) : list Z := take 32 (rev (encode s) ++ replicate 32 0%Z).
Definition bytes : list Z := replicate 32 7%Z.
Definition token : string := service_token "ci" "key-1" bytes.
Definition key1 : Credential := {| sc_id := "key-1"; sc_sha256 := sha256Hex digest token; sc_expires_at := None |}.
Definition ci : Account := {| sa_id := "ci"; sa_name := Some "CI"; sa_actions := [ADeployment OrgIntegrationManage]; sa_credentials := [key1] |}.
Definition accounts : list Account := [ci].
Lemma accounts_accepted : ServiceAccountsConfigSchema accounts = Some accounts.
Proof. vm_compute. reflexivity. Qed.
Lemma key1_configured : configured accounts ci key1.
Proof. split; by left. Qed.
Definition no_codec {T} : Codec unit T.
Proof. refine {| valid _ := False; stringify _ := tt; parse _ := None |}; done. Defined.

Lemma service_account_round_trip_witness :
  verify_service (B := unit) digest (credentials_of accounts) token = Ret (Some (service_principal "ci/key-1" ci key1)).
Proof.
  refine (service_account_round_trip digest accounts accounts ci key1 bytes token key1 accounts_accepted key1_configured eq_refl _ _ eq_refl).
  - apply Forall_replicate. by split.
  - reflexivity.
Defined.

Definition request : option string := Some ("Bearer " +:+ token).
Lemma machine_identity_is_configured_witness : let p := service_principal "ci/key-1" ci key1 in
  machine p = true /\ presents_bearer (fun r => r) request /\
  (exists t a c, parseBearerAuthorization request = BearerToken t /\ configured accounts a c /\ sha256Hex digest t = sc_sha256 c) /\
  exists t, parseBearerAuthorization request = BearerToken t /\ vouched (B := unit) (CI := no_codec) (CT := no_codec) digest None accounts request t p.
Proof.
  intros p. split; [vm_compute; reflexivity|].
  destruct (machine_identity_is_configured (CI := no_codec) (CT := no_codec) digest (fun r => r) (fun _ => mret None) None accounts accounts request p accounts_accepted)
    as (Hm & Hv & _); [vm_compute; reflexivity|].
  assert (Hp : presents_bearer (fun r => r) request).
  { exists ("Bearer " +:+ token), ("Bearer " +:+ token). split; [reflexivity|]. split; [vm_compute; left|vm_compute; reflexivity]. }
  split; [exact Hp|]. split; [|exact (proj1 (Hv Hp))].
  destruct (Hm ltac:(vm_compute; reflexivity)) as (t & a & c & Hb & _ & Hc & Hh & _). exists t, a, c. split; [exact Hb|]. split; [exact Hc|exact Hh].
Defined.
End MachineSample.
