(* ===== verification/WarmPools.v ===== *)
(** * Warm pools

    [packages/core/src/services/runtime/WarmPoolStore.ts] and [WarmPoolService.ts]: sandboxes
    booted ahead of need.  One record per compute backend lists them; every replica edits
    it by compare-and-swap.  The compute provider is outside the program: a [Sandbox] is
    the provider's instance as the service uses it, and the request to destroy one is
    recorded in the log of the world.  Metrics, logs and the reading of the capacity they
    report are not modelled. *)

From Stdlib Require Import ZArith Lia.
From S2P Require Import Prelude Constants Lifecycle Schema UtcDate Store Cas CasEffects Storage Calls Parallel SessionData AppPoolRouter AppPool SessionService.

(** ** The record *)

Inductive WarmPoolState := WCreating | WReady | WClaimed | WRetiring.
#[export] Instance WarmPoolState_eq_dec : EqDecision WarmPoolState.
Proof. solve_decision. Defined.
Record Destination := { d_project_id : ProjectId; d_notebook_id : NotebookId; d_session_id : SessionId }.

(** [WarmPoolMemberSchema] *)
Record WarmPoolMember := {
  wm_sandbox_id : SandboxId;
  wm_state : WarmPoolState;
  wm_token : string;
  wm_created_at : Z;
  wm_ready_until : Z;
  wm_operation_until : Z;
  wm_checked_at : Z;
  wm_sandbox_deadline_at : option Z;
  wm_reconnect_reference : option string;
  wm_destination : option Destination;
  wm_assigned : bool;
}.
#[export] Instance WarmPoolMember_settable : Settable WarmPoolMember := fun m =>
  Build_WarmPoolMember (wm_sandbox_id m) (wm_state m) (wm_token m) (wm_created_at m) (wm_ready_until m) (wm_operation_until m)
    (wm_checked_at m) (wm_sandbox_deadline_at m) (wm_reconnect_reference m) (wm_destination m) (wm_assigned m).

Record WarmPool := { wp_key : string; wp_failures : Z; wp_retry_at : Z; wp_members : list WarmPoolMember }.
#[export] Instance WarmPool_settable : Settable WarmPool := fun p =>
  Build_WarmPool (wp_key p) (wp_failures p) (wp_retry_at p) (wp_members p).
(** [WarmPoolRecordSchema] *)
Record WarmPoolRecord := { wr_pools : list WarmPool }.

Definition warmPoolsPrefix : string := "_system/warm-pools/".
Definition warmPool_key (backend : string) : key := warmPoolsPrefix +:+ backend +:+ ".json".

Definition in_pool (key : string) (p : WarmPool) : bool := wp_key p === key.
Definition is_member (id : SandboxId) (m : WarmPoolMember) : bool := wm_sandbox_id m === id.
Definition new_pool (key : string) : WarmPool := {| wp_key := key; wp_failures := 0; wp_retry_at := 0; wp_members := [] |}.

(** [getOrCreateWarmPool]: the record with the pool, and the pool. *)
Definition getOrCreateWarmPool (record : WarmPoolRecord) (key : string) : WarmPoolRecord * WarmPool :=
  match List.find (in_pool key) (wr_pools record) with
  | Some pool => (record, pool)
  | None => ({| wr_pools := wr_pools record ++ [new_pool key] |}, new_pool key)
  end.
(** The pool it returns, changed. *)
Definition edit_pool (record : WarmPoolRecord) (key : string) (f : WarmPool -> WarmPool) : WarmPoolRecord :=
  {| wr_pools := update_first (in_pool key) f (wr_pools (getOrCreateWarmPool record key).1) |}.

Definition all_members (record : WarmPoolRecord) : list WarmPoolMember := concat (map wp_members (wr_pools record)).
Definition findMember (record : WarmPoolRecord) (id : SandboxId) : option WarmPoolMember :=
  List.find (is_member id) (all_members record).
Definition ownedIds (record : WarmPoolRecord) : list SandboxId := map wm_sandbox_id (all_members record).

(** The member [findMember] returns, changed. *)
Definition has_member (id : SandboxId) (p : WarmPool) : bool := existsb (is_member id) (wp_members p).
Definition set_member (record : WarmPoolRecord) (id : SandboxId) (m : WarmPoolMember) : WarmPoolRecord :=
  {| wr_pools := update_first (has_member id)
       (fun p => p <| wp_members := update_first (is_member id) (fun _ => m) (wp_members p) |>) (wr_pools record) |}.

Definition waiting (m : WarmPoolMember) : bool := (wm_state m === WReady) || (wm_state m === WCreating).
Definition available (p : WarmPool) : nat := length (List.filter waiting (wp_members p)).

Section WarmPools.
Context {B : Type} `{!EqDecision B} {CW : Codec B WarmPoolRecord} {CSe : Codec B Session} {CP : Codec B AppPool}.
Local Abbreviation V := (string * Session)%type (only parsing).
Local Notation prog := (prog B V).

(** ** The store *)
Section WithBackend.
Context (backend : string).
Local Notation warm_key := (warmPool_key backend).

Definition no_pools : WarmPoolRecord := {| wr_pools := [] |}.
Definition warm_record_of (o : option (object B)) : prog WarmPoolRecord :=
  match o with Some o => readStored o warm_key | None => mret no_pools end.
Definition unless_changed (o : option (object B)) : condition :=
  match o with Some o => onlyIfEtagMatches (o_etag o) | None => onlyIfNotExists end.

Definition store_read : prog WarmPoolRecord := o ← call (OGet warm_key); warm_record_of o.

(** [WarmPoolStore.mutate]: the update may read the clock and draw ids. *)
Definition mutate_attempt_warm {T} (update : WarmPoolRecord -> prog (T * WarmPoolRecord)) : prog T :=
  o ← call (OGet warm_key);
  record ← warm_record_of o;
  '(result, record') ← update record;
  if stringify (B := B) record === stringify record' then mret result
  else cas_put warm_key (stringify record') (unless_changed o) ≫= fun _ => mret result.
Definition store_mutate {T} (update : WarmPoolRecord -> prog (T * WarmPoolRecord)) : prog T :=
  withCasRetry (mutate_attempt_warm update) no_retry_options.

Definition ownedSandboxIds : prog (list string) := record ← store_read; mret (js_set (ownedIds record)).

Definition getMember (id : SandboxId) : prog (option WarmPoolMember) :=
  record ← store_read; mret (findMember record id).

(** [apply] changes the current member or refuses to. *)
Definition update_member_fn (member : WarmPoolMember) (state : WarmPoolState) (apply : WarmPoolMember -> prog (option WarmPoolMember))
    (record : WarmPoolRecord) : prog (bool * WarmPoolRecord) :=
  match findMember record (wm_sandbox_id member) with
  | Some current =>
      if negb (wm_state current === state) || negb (wm_token current === wm_token member) then mret (false, record)
      else
        r ← apply current;
        match r with
        | Some current' => mret (true, set_member record (wm_sandbox_id member) current')
        | None => mret (false, record)
        end
  | None => mret (false, record)
  end.
Definition updateMember (member : WarmPoolMember) (state : WarmPoolState) (apply : WarmPoolMember -> prog (option WarmPoolMember)) : prog bool :=
  store_mutate (update_member_fn member state apply).

Definition another (member item : WarmPoolMember) : bool :=
  negb (wm_sandbox_id item === wm_sandbox_id member) || negb (wm_token item === wm_token member).
Definition remove_member_fn (member : WarmPoolMember) (record : WarmPoolRecord) : WarmPoolRecord :=
  {| wr_pools := map (fun p => p <| wp_members := List.filter (another member) (wp_members p) |>) (wr_pools record) |}.
Definition removeMember (member : WarmPoolMember) : prog unit :=
  store_mutate (fun record => mret (tt, remove_member_fn member record)).
End WithBackend.

(** Across backends, for reconciliation: a listed record that is gone is no answer. *)
Fixpoint owned_of (keys : list key) (ids : list string) : prog (list string) :=
  match keys with
  | [] => mret (js_set ids)
  | k :: keys =>
      object ← call (OGet k);
      match object with
      | None => Throw (JsError ("Warm pool ownership unavailable: " +:+ k))
      | Some o => record ← readStored (T := WarmPoolRecord) o k; owned_of keys (ids ++ ownedIds record)
      end
  end.
Definition allOwnedSandboxIds (fuel : nat) : prog (list string) :=
  keys ← listAllKeys fuel warmPoolsPrefix; owned_of keys [].

(** ** The service *)

Definition WARM_POOL_MAX_IDLE_MS : Z := 30 * 60000.
Definition CLAIM_TIMEOUT_MS : Z := 60000.
Definition RECONNECT_TIMEOUT_MS : Z := 5000.
Definition PROBE_TIMEOUT_MS : Z := 2000.
Definition HEALTH_INTERVAL_MS : Z := 30000.
Definition MAX_CONCURRENT_CREATIONS : nat := 2.

Record WarmPoolProfile := { pf_key : string; pf_name : option string; pf_image : option string; pf_resources : ComputeResources }.
Record WarmPoolConfig := {
  wc_enabled : bool; wc_size : nat; wc_profiles : list WarmPoolProfile;
  wc_creationTimeoutMs : Z; wc_minimumRemainingMs : Z; wc_providerLifetimeMs : option Z;
}.

(** [SandboxInstance] and [SandboxProvider] ([ports/sandbox.ts]) as the pools use them.
    A call under a deadline answers within the given time or not at all. *)
Record Sandbox := {
  sb_ready : Z -> prog (option unit);
  sb_boot : prog unit;
  sb_true : Z -> prog (option bool);
  sb_destroy : prog unit;
  sb_reconnectReference : prog (option string);
  sb_drain : prog unit;
}.
Record SandboxProvider := {
  provider_create : SandboxId -> option WarmPoolProfile -> prog Sandbox;
  connectExisting : option (SandboxId -> option WarmPoolProfile -> option string -> prog Sandbox);
}.

Record WarmPoolClaim := { cl_member : WarmPoolMember; cl_profile : option string; cl_sandbox : Sandbox }.
Record ClaimRequest := {
  rq_resources : option ComputeResources; rq_profile : option string; rq_image : option string;
  rq_userHome : bool; rq_restoreSnapshotId : option string; rq_destination : Destination;
}.

Definition claimExpired : error V := ConflictError "The warm sandbox claim expired. Retry shortly.".
Definition readinessError (reason : string) : error V := JsError ("Warm sandbox readiness failed: " +:+ reason).

(** [ports/sandbox.ts] *)
Definition sameComputeResources (a b : ComputeResources) : bool :=
  (cr_cpu a === cr_cpu b) && (cr_memory_bytes a === cr_memory_bytes b) && (cr_gpu a === cr_gpu b).

Section Service.
Context (backend : string) (compute : SandboxProvider) (config : WarmPoolConfig) (appPools : bool).
Local Notation warm_read := (store_read backend).
Local Notation mutate := (store_mutate backend).

Definition isExpired (member : WarmPoolMember) : prog bool :=
  now ← now_ms; mret (Z.min (wm_operation_until member) (wm_ready_until member) <=? now)%Z.

Definition connect (member : WarmPoolMember) (options : option WarmPoolProfile) : prog Sandbox :=
  match connectExisting compute with
  | Some f => f (wm_sandbox_id member) options (wm_reconnect_reference member)
  | None => Throw TypeError
  end.

(** [z.string().min(1).max(4096).optional().parse(sandbox.reconnectReference)] *)
Definition readReference (sandbox : Sandbox) : prog (option string) :=
  r ← sb_reconnectReference sandbox;
  match r with
  | None => mret None
  | Some s => if (1 <=? String.length s)%nat && (String.length s <=? 4096)%nat then mret (Some s) else Throw (ValidationError "reconnect_reference")
  end.

Definition probeCommand (sandbox : Sandbox) : prog unit :=
  result ← catch (sb_true sandbox PROBE_TIMEOUT_MS) (fun _ => Throw (readinessError "command_transport_failed"));
  match result with
  | None => Throw (readinessError "command_timeout")
  | Some success => if success : bool then mret tt else Throw (readinessError "command_failed")
  end.
Definition reconnectAndProbe (sandbox : Sandbox) : prog unit :=
  r ← catch (sb_ready sandbox RECONNECT_TIMEOUT_MS) (fun _ => Throw (readinessError "reconnect_failed"));
  match r with
  | None => Throw (readinessError "reconnect_timeout")
  | Some _ => probeCommand sandbox
  end.

(** [retire] *)
Definition retire_fn (abandonAssigned : bool) (current : WarmPoolMember) : prog (option WarmPoolMember) :=
  mret (if wm_assigned current && negb abandonAssigned then None else Some (current <| wm_state := WRetiring |>)).
Definition warm_retire (member : WarmPoolMember) (abandonAssigned : bool) : prog bool :=
  updateMember backend member (wm_state member) (retire_fn abandonAssigned).

(** [.catch((cause) => this.report(...))] *)
Definition reported {A} (p : prog A) : prog unit := handle p (fun _ => mret tt).

(** The request to destroy the sandbox, which the log of the world keeps. *)
Definition destroy_sandbox (id : SandboxId) (sandbox : option Sandbox) : prog unit :=
  sb ← match sandbox with Some sb => mret sb | None => provider_create compute id None end;
  call (OAudit "sandbox.destroy" id) ≫= fun _ => sb_destroy sb.

(** The session of a destroyed sandbox is marked. *)
Definition mark_session (current : WarmPoolMember) (d : Destination) : prog unit :=
  catch
    (session ← getSession (d_project_id d) (d_session_id d);
     if (ses_sandbox_id session === Some (wm_sandbox_id current)) && negb (match truthy (ses_sandbox_reclaimed_at session) with Some _ => true | None => false end) then
       now ← now_ms;
       markSandboxReclaimed (d_project_id d) (d_session_id d) (toISOString now) (Some (wm_sandbox_id current)) ≫= fun _ => mret tt
     else mret tt)
    (fun e => match e with NotFoundError _ => mret tt | e => Throw e end).
Definition warm_cleanup (member : WarmPoolMember) (sandbox : option Sandbox) : prog unit :=
  current ← getMember backend (wm_sandbox_id member);
  match current with
  | Some current =>
      if negb (wm_state current === WRetiring) || negb (wm_token current === wm_token member) then mret tt
      else
        destroy_sandbox (wm_sandbox_id member) sandbox ≫= fun _ =>
        match wm_destination current with Some d => mark_session current d | None => mret tt end ≫= fun _ =>
        removeMember backend current
  | None => mret tt
  end.

(** *** Claims *)

(** The first ready member with time left, claimed in place. *)
Fixpoint claim_first (destination : Destination) (l : list WarmPoolMember) : prog (option WarmPoolMember * list WarmPoolMember) :=
  match l with
  | [] => mret (None, [])
  | item :: l =>
      fit ← (if wm_state item === WReady then now ← now_ms; mret (now <? wm_ready_until item)%Z else mret false);
      if fit : bool then
        token ← randomUUID; now ← now_ms;
        let member := item <| wm_state := WClaimed |> <| wm_token := token |> <| wm_operation_until := (now + CLAIM_TIMEOUT_MS)%Z |>
                           <| wm_destination := Some destination |> in
        mret (Some member, member :: l)
      else '(x, l) ← claim_first destination l; mret (x, item :: l)
  end.
Definition claim_fn (key : string) (destination : Destination) (record : WarmPoolRecord) : prog (option WarmPoolMember * WarmPoolRecord) :=
  match List.find (in_pool key) (wr_pools record) with
  | None => mret (None, record)
  | Some pool =>
      '(x, members) ← claim_first destination (wp_members pool);
      mret (x, {| wr_pools := update_first (in_pool key) (fun p => p <| wp_members := members |>) (wr_pools record) |})
  end.

Definition fits (request : ClaimRequest) (item : WarmPoolProfile) : bool :=
  (pf_name item === rq_profile request) && (pf_image item === rq_image request) &&
  match rq_resources request with None => true | Some r => sameComputeResources (pf_resources item) r end.

Definition reserve (request : ClaimRequest) : prog (option WarmPoolClaim) :=
  if negb (wc_enabled config) then mret None
  else
    match List.find (fits request) (wc_profiles config), connectExisting compute with
    | Some profile, Some _ =>
        if rq_userHome request || match truthy (rq_restoreSnapshotId request) with Some _ => true | None => false end then mret None
        else
          handle (mutate (claim_fn (pf_key profile) (rq_destination request))) (fun r =>
            match r with
            | Ok (Some claimed) =>
                handle (connect claimed (Some profile)) (fun r =>
                  match r with
                  | Ok sandbox => mret (Some {| cl_member := claimed; cl_profile := pf_name profile; cl_sandbox := sandbox |})
                  | Err _ => reported (warm_retire claimed false) ≫= fun _ => mret None
                  end)
            | _ => mret None
            end)
    | _, _ => mret None
    end.

(** [clearClaimDiagnostics]: every failure is logged only. *)
Definition clearClaimDiagnostics (sandbox : Sandbox) : prog unit := reported (sb_drain sandbox).
Definition probe (claim : WarmPoolClaim) : prog unit :=
  catch
    (reconnectAndProbe (cl_sandbox claim) ≫= fun _ =>
     expired ← isExpired (cl_member claim);
     if expired : bool then Throw claimExpired else clearClaimDiagnostics (cl_sandbox claim))
    (fun error => reported (warm_retire (cl_member claim) false) ≫= fun _ => Throw error).
Definition claim (request : ClaimRequest) : prog (option WarmPoolClaim) :=
  r ← reserve request;
  match r with
  | None => mret None
  | Some claim => handle (probe claim) (fun r => match r with Ok _ => mret (Some claim) | Err _ => mret None end)
  end.

Definition assign_fn (member : WarmPoolMember) : prog (option WarmPoolMember) :=
  expired ← isExpired member; mret (if expired : bool then None else Some (member <| wm_assigned := true |>)).
Definition handoff (claim : WarmPoolClaim) : prog unit :=
  match wm_destination (cl_member claim) with
  | None => Throw TypeError
  | Some d =>
      session ← getSession (d_project_id d) (d_session_id d);
      if negb (ses_session_id session === d_session_id d) || negb (ses_project_id session === d_project_id d) ||
         negb (ses_notebook_id session === d_notebook_id d) || negb (ses_sandbox_id session === Some (wm_sandbox_id (cl_member claim))) ||
         negb (ses_status session === Starting)
      then Throw (ConflictError "The warm sandbox session is no longer starting")
      else
        assigned ← updateMember backend (cl_member claim) WClaimed assign_fn;
        if assigned : bool then mret tt else Throw claimExpired
  end.
Definition abandon (claim : WarmPoolClaim) : prog unit :=
  warm_retire (cl_member claim) true ≫= fun _ => warm_cleanup (cl_member claim) None.

(** *** The sweep *)

Definition desired (key : string) : bool := wc_enabled config && existsb (fun p => pf_key p === key) (wc_profiles config).

(** The first [excess] waiting members are retired. *)
Fixpoint retire_excess (excess : Z) (l : list WarmPoolMember) : list WarmPoolMember :=
  match l with
  | [] => []
  | m :: l =>
      if (0 <? excess)%Z && waiting m then m <| wm_state := WRetiring |> :: retire_excess (excess - 1) l
      else m :: retire_excess excess l
  end.
Definition trim_pool (p : WarmPool) : WarmPool :=
  let target := if desired (wp_key p) then Z.of_nat (wc_size config) else 0%Z in
  p <| wp_members := retire_excess (Z.of_nat (available p) - target) (wp_members p) |>.
Definition trim_fn (record : WarmPoolRecord) : WarmPoolRecord := {| wr_pools := map trim_pool (wr_pools record) |}.

(** The app is still starting on this sandbox. *)
Definition reserves (member : WarmPoolMember) (d : Destination) (now : Z) (r : AppPoolMember) : bool :=
  (m_sandbox_id r === wm_sandbox_id member) && (m_session_id r === d_session_id d) && (m_state r === MStarting) && (now <? m_operation_expires_at r)%Z.

(** What the sweep does to a claimed member: [true] when it is to be cleaned up. *)
Definition sweep_claimed (member : WarmPoolMember) : prog bool :=
  match wm_destination member with
  | None => Throw TypeError
  | Some d =>
      session ← catch (s ← getSession (d_project_id d) (d_session_id d); mret (Some s))
                      (fun e => match e with NotFoundError _ => mret None | e => Throw e end);
      if (session ≫= ses_sandbox_id) === Some (wm_sandbox_id member) then
        match truthy (session ≫= ses_sandbox_reclaimed_at) with
        | Some _ => removeMember backend member ≫= fun _ => mret false
        | None => mret false
        end
      else if match session with None => wm_assigned member | Some _ => false end then
        removeMember backend member ≫= fun _ => mret false
      else
        app ← (if appPools then read (d_project_id d) (d_notebook_id d) else mret None);
        now ← now_ms;
        if match app with Some p => existsb (reserves member d now) (members p) | None => false end then mret false
        else
          now ← now_ms;
          if (now <? wm_operation_until member)%Z then mret false
          else warm_retire member false ≫= fun _ => mret true
  end.

Definition health_fn (reference : option string) (current : WarmPoolMember) : prog (option WarmPoolMember) :=
  now ← now_ms;
  let current := current <| wm_checked_at := now |> in
  mret (Some (match reference with Some r => current <| wm_reconnect_reference := Some r |> | None => current end)).
Definition health_check (member : WarmPoolMember) : prog unit :=
  sandbox ← connect member None;
  reconnectAndProbe sandbox ≫= fun _ =>
  reference ← readReference sandbox;
  updateMember backend member WReady (health_fn reference) ≫= fun _ => mret tt.
Definition sweep_ready (key : string) (member : WarmPoolMember) : prog bool :=
  stale ← (if negb (desired key) then mret true else now ← now_ms; mret (wm_ready_until member <=? now)%Z);
  if stale : bool then warm_retire member false ≫= fun _ => mret true
  else
    now ← now_ms;
    if (HEALTH_INTERVAL_MS <=? now - wm_checked_at member)%Z then
      handle (health_check member) (fun r =>
        match r with
        | Ok _ => mret false
        | Err _ => warm_retire member false ≫= fun _ => mret true
        end)
    else mret false.

Definition sweep_member (key : string) (member : WarmPoolMember) : prog unit :=
  reported
    (clean ← match wm_state member with
             | WClaimed => sweep_claimed member
             | WCreating =>
                 now ← now_ms;
                 if (now <? wm_operation_until member)%Z then mret false else warm_retire member false ≫= fun _ => mret true
             | WReady => sweep_ready key member
             | WRetiring => mret true
             end;
     if clean : bool then warm_cleanup member None else mret tt).
Fixpoint sweep_all (l : list (string * WarmPoolMember)) : prog unit :=
  match l with
  | [] => mret tt
  | (key, member) :: l => sweep_member key member ≫= fun _ => sweep_all l
  end.

(** *** Creation *)

Definition creating_member (id token : string) (now : Z) : WarmPoolMember := {|
  wm_sandbox_id := id; wm_state := WCreating; wm_token := token; wm_created_at := now; wm_checked_at := 0; wm_assigned := false;
  wm_operation_until := (now + wc_creationTimeoutMs config)%Z;
  wm_ready_until := (now + match wc_providerLifetimeMs config with
                           | None => WARM_POOL_MAX_IDLE_MS
                           | Some l => Z.min WARM_POOL_MAX_IDLE_MS (l - wc_minimumRemainingMs config)
                           end)%Z;
  wm_sandbox_deadline_at := None; wm_reconnect_reference := None; wm_destination := None;
|}.
Definition push_member (m : WarmPoolMember) (p : WarmPool) : WarmPool := p <| wp_members := wp_members p ++ [m] |>.

(** The inner loop of [reserveCreations], [n] members short. *)
Fixpoint reserve_some (profile : WarmPoolProfile) (n : nat) (record : WarmPoolRecord) (reservations : list (WarmPoolProfile * WarmPoolMember))
    : prog (WarmPoolRecord * list (WarmPoolProfile * WarmPoolMember)) :=
  match n with
  | O => mret (record, reservations)
  | S n =>
      if (length reservations <? MAX_CONCURRENT_CREATIONS)%nat then
        now ← now_ms; id ← call (OFreshId "sandbox"); token ← randomUUID;
        let member := creating_member id token now in
        reserve_some profile n (edit_pool record (pf_key profile) (push_member member)) (reservations ++ [(profile, member)])
      else mret (record, reservations)
  end.
Fixpoint reserve_profiles (profiles : list WarmPoolProfile) (record : WarmPoolRecord) (reservations : list (WarmPoolProfile * WarmPoolMember))
    : prog (list (WarmPoolProfile * WarmPoolMember) * WarmPoolRecord) :=
  match profiles with
  | [] => mret (reservations, record)
  | profile :: profiles =>
      let '(record, pool) := getOrCreateWarmPool record (pf_key profile) in
      now ← now_ms;
      if (now <? wp_retry_at pool)%Z then reserve_profiles profiles record reservations
      else
        '(record, reservations) ← reserve_some profile (wc_size config - available pool) record reservations;
        reserve_profiles profiles record reservations
  end.
Definition reserveCreations : prog (list (WarmPoolProfile * WarmPoolMember)) :=
  mutate (fun record => reserve_profiles (wc_profiles config) record []).

Definition settle_fn (key : string) (record : WarmPoolRecord) : WarmPoolRecord :=
  edit_pool record key (fun p => p <| wp_failures := 0%Z |> <| wp_retry_at := 0%Z |>).
Definition backoff_fn (key : string) (record : WarmPoolRecord) : prog (unit * WarmPoolRecord) :=
  now ← now_ms;
  mret (tt, edit_pool record key (fun p =>
    let failures := Z.min (wp_failures p + 1) 10 in
    p <| wp_failures := failures |> <| wp_retry_at := (now + Z.min 300000 (5000 * 2 ^ (failures - 1)))%Z |>)).

Definition reclaim_fn (key : string) (member : WarmPoolMember) (record : WarmPoolRecord) : WarmPoolRecord :=
  edit_pool record key (fun p =>
    match List.find (is_member (wm_sandbox_id member)) (wp_members p) with
    | None => push_member (member <| wm_state := WRetiring |>) p
    | Some current =>
        if (wm_token current === wm_token member) && negb (wm_state current === WClaimed)
        then p <| wp_members := update_first (is_member (wm_sandbox_id member)) (fun c => c <| wm_state := WRetiring |>) (wp_members p) |>
        else p
    end).
Definition reclaimCreation (profile : WarmPoolProfile) (member : WarmPoolMember) (sandbox : option Sandbox) : prog unit :=
  mutate (fun record => mret (tt, reclaim_fn (pf_key profile) member record)) ≫= fun _ => warm_cleanup member sandbox.

Definition publish_fn (reference : option string) (current : WarmPoolMember) : prog (option WarmPoolMember) :=
  expired ← isExpired current;
  if expired : bool then mret None
  else
    now ← now_ms;
    let current := current <| wm_state := WReady |> <| wm_checked_at := now |> in
    let current := match reference with Some r => current <| wm_reconnect_reference := Some r |> | None => current end in
    mret (Some (match wc_providerLifetimeMs config with
                | Some l => current <| wm_sandbox_deadline_at := Some (now + l)%Z |>
                | None => current
                end)).

(** The [catch] of [fill]. *)
Definition fill_failed (profile : WarmPoolProfile) (member : WarmPoolMember) (sandbox : option Sandbox) (booted : bool) : prog unit :=
  (if booted then mret tt else reported (mutate (backoff_fn (pf_key profile)))) ≫= fun _ =>
  reported (reclaimCreation profile member sandbox).
(** A booted sandbox is published, or discarded. *)
Definition fill_publish (profile : WarmPoolProfile) (member : WarmPoolMember) (sandbox : Sandbox) : prog unit :=
  reference ← readReference sandbox;
  published ← updateMember backend member WCreating (publish_fn reference);
  if published : bool then mutate (fun record => mret (tt, settle_fn (pf_key profile) record))
  else reported (reclaimCreation profile member (Some sandbox)).

(** [timing]: whether the sandbox boots before the deadline, and otherwise how the rest of
    the boot and the handling of the timeout take turns. *)
Definition boot (sandbox : Sandbox) : prog unit := sb_boot sandbox ≫= fun _ => probeCommand sandbox.
Definition fill (timing : SandboxId -> option (list bool)) (profile : WarmPoolProfile) (member : WarmPoolMember) : prog unit :=
  handle (provider_create compute (wm_sandbox_id member) (Some profile)) (fun r =>
    match r with
    | Err _ => fill_failed profile member None false
    | Ok sandbox =>
        match timing (wm_sandbox_id member) with
        | Some turns =>
            par turns (fill_failed profile member (Some sandbox) false)
                      (handle (boot sandbox) (fun _ => reported (reclaimCreation profile member (Some sandbox))))
        | None =>
            handle (boot sandbox) (fun r =>
              match r with
              | Err _ => fill_failed profile member (Some sandbox) false
              | Ok _ => handle (fill_publish profile member sandbox) (fun r =>
                          match r with Ok _ => mret tt | Err _ => fill_failed profile member (Some sandbox) true end)
              end)
        end
    end).
(** [mapWithConcurrency]: there are never more reservations than may run at once. *)
Fixpoint fill_all (timing : SandboxId -> option (list bool)) (turns : list bool) (l : list (WarmPoolProfile * WarmPoolMember)) : prog unit :=
  match l with
  | [] => mret tt
  | (profile, member) :: l => par turns (fill timing profile member) (fill_all timing turns l)
  end.

Definition members_by_pool (record : WarmPoolRecord) : list (string * WarmPoolMember) :=
  concat (map (fun p => map (pair (wp_key p)) (wp_members p)) (wr_pools record)).
Definition sweep (timing : SandboxId -> option (list bool)) (turns : list bool) : prog unit :=
  mutate (fun record => mret (tt, trim_fn record)) ≫= fun _ =>
  snapshot ← warm_read;
  sweep_all (members_by_pool snapshot) ≫= fun _ =>
  if wc_enabled config then reservations ← reserveCreations; fill_all timing turns reservations else mret tt.
End Service.
End WarmPools.
