(* ===== verification/WarmPoolProtocol.v ===== *)
(** * Warm pools among replicas

    Any number of replicas sweep, claim, hand over and abandon sandboxes of one warm pool
    record at once, with any storage and provider fault.  A sandbox goes through creating,
    ready, claimed and retiring in this order, in one pool; the protocol says which edits
    of the record keep to that, and every operation of [WarmPools.v] is verified against
    it.  What follows for the claims and the destruction of sandboxes is stated last. *)

From Stdlib Require Import ZArith Lia.
From stdpp Require Import relations sorting.
From S2P Require Import Prelude Constants Lifecycle Schema UtcDate Store Cas CasTheorems CasEffects Storage Calls Parallel Listing SessionData AppPoolRouter AppPool SessionService WarmPools.

(** ** Edits of a record *)

Definition rank (s : WarmPoolState) : nat := match s with WCreating => 0 | WReady => 1 | WClaimed => 2 | WRetiring => 3 end.
(** The same sandbox, as far along or further; a claim keeps its token. *)
Definition follows (m m' : WarmPoolMember) : Prop :=
  wm_sandbox_id m' = wm_sandbox_id m /\ (rank (wm_state m) <= rank (wm_state m'))%nat /\
  (wm_state m = WClaimed -> wm_state m' = WClaimed -> wm_token m' = wm_token m).
#[export] Instance follows_preorder : PreOrder follows.
Proof.
  split; [done|]. intros m1 m2 m3 (Hi & Hr & Ht) (Hi' & Hr' & Ht'). split; [congruence|]. split; [lia|]. intros E1 E3.
  assert (E2 : wm_state m2 = WClaimed) by (rewrite E1 in Hr; rewrite E3 in Hr'; destruct (wm_state m2); cbn in *; try lia; done).
  rewrite Ht' by done. by apply Ht.
Qed.
Lemma follows_retiring m : follows m (m <| wm_state := WRetiring |>).
Proof. split; [done|]. split; [by destruct (wm_state m); cbn; lia|done]. Qed.
Lemma follows_waiting m m' : follows m m' -> waiting m' = true -> waiting m = true.
Proof. unfold waiting. intros (_ & Hr & _). destruct (wm_state m), (wm_state m'); cbn in *; try done; lia. Qed.

Definition lists (R : WarmPoolRecord) (key : string) (m : WarmPoolMember) : Prop := (key, m) ∈ members_by_pool R.
Definition listed_ids (R : WarmPoolRecord) : list SandboxId := map (fun e => wm_sandbox_id e.2) (members_by_pool R).
Lemma lists_pool R key m : lists R key m <-> exists p, p ∈ wr_pools R /\ wp_key p = key /\ m ∈ wp_members p.
Proof.
  unfold lists, members_by_pool. rewrite list_elem_of_In, in_concat. setoid_rewrite in_map_iff. split.
  - intros (l & (p & <- & Hp) & Hin). apply in_map_iff in Hin as (m' & [= <- <-] & Hm). exists p. by rewrite !list_elem_of_In.
  - intros (p & Hp & <- & Hm). exists (map (pair (wp_key p)) (wp_members p)). split; [exists p; by rewrite <- list_elem_of_In|].
    apply in_map_iff. exists m. by rewrite <- list_elem_of_In.
Qed.
Lemma listed_ids_all R : listed_ids R = map wm_sandbox_id (all_members R).
Proof.
  unfold listed_ids, members_by_pool, all_members. rewrite !concat_map, !map_map. f_equal. apply map_ext. intros p. by rewrite map_map.
Qed.

(** One pool with that key, one member per sandbox, and no more waiting than the size. *)
Record good (size : nat) (R : WarmPoolRecord) : Prop := {
  good_keys : NoDup (map wp_key (wr_pools R));
  good_ids : NoDup (listed_ids R);
  good_size p : p ∈ wr_pools R -> (available p <= size)%nat;
}.
Lemma lists_unique size R key m key' m' : good size R -> lists R key m -> lists R key' m' -> wm_sandbox_id m = wm_sandbox_id m' -> key = key' /\ m = m'.
Proof.
  intros [_ Hn _] H1 H2 He. unfold listed_ids in Hn. revert Hn H1 H2. unfold lists. generalize (members_by_pool R) as l.
  induction l as [|[k x] l IH]; [by intros _ ?%not_elem_of_nil|]. cbn. rewrite NoDup_cons. intros [Hx Hn].
  assert (Hno : forall k0 m0, (k0, m0) ∈ l -> wm_sandbox_id m0 <> wm_sandbox_id x).
  { intros k0 m0 Hin E. apply Hx. rewrite <- E. apply list_elem_of_In, in_map_iff. exists (k0, m0). by rewrite <- list_elem_of_In. }
  intros [[= -> ->]|H1]%elem_of_cons [[= -> ->]|H2]%elem_of_cons; [done| | |by apply IH]; exfalso.
  - by eapply Hno.
  - by eapply (Hno key m).
Qed.
Lemma good_nil size : good size no_pools.
Proof. split; [constructor|constructor|by intros p ?%not_elem_of_nil]. Qed.

(** *** Pools changed in place *)

Definition pool_next (p p' : WarmPool) : Prop :=
  wp_key p' = wp_key p /\ exists ms, Forall2 follows (wp_members p) ms /\ sublist (wp_members p') ms.
#[export] Instance pool_next_refl : Reflexive pool_next.
Proof. intros p. split; [done|]. exists (wp_members p). split; [|done]. by apply Forall_Forall2_diag, Forall_forall. Qed.
Lemma pool_next_edit p ms : Forall2 follows (wp_members p) ms -> pool_next p (p <| wp_members := ms |>).
Proof. intros H. split; [done|]. by exists ms. Qed.

Lemma Forall2_follows_ids l l' : Forall2 follows l l' -> map wm_sandbox_id l' = map wm_sandbox_id l.
Proof. induction 1 as [|m m' l l' [Hi _] _ IH]; [done|]. cbn. by rewrite Hi, IH. Qed.
Lemma waiting_sublist l l' : sublist l l' -> (length (List.filter waiting l) <= length (List.filter waiting l'))%nat.
Proof. induction 1; cbn; repeat (destruct (waiting _)); cbn; lia. Qed.
Lemma waiting_follows l l' : Forall2 follows l l' -> (length (List.filter waiting l') <= length (List.filter waiting l))%nat.
Proof.
  induction 1 as [|m m' l l' Hf _ IH]; [done|]. cbn. destruct (waiting m') eqn:E; [|destruct (waiting m); cbn; lia].
  rewrite (follows_waiting _ _ Hf E). cbn. lia.
Qed.
Lemma pool_next_available p p' : pool_next p p' -> (available p' <= available p)%nat.
Proof. intros (_ & ms & Hf & Hs). unfold available. etrans; [by apply waiting_sublist|by apply waiting_follows]. Qed.
Lemma pool_next_ids p p' : pool_next p p' -> sublist (map wm_sandbox_id (wp_members p')) (map wm_sandbox_id (wp_members p)).
Proof. intros (_ & ms & Hf & Hs). rewrite <- (Forall2_follows_ids _ _ Hf). clear Hf. induction Hs; cbn; by constructor. Qed.

Definition record_next (R R' : WarmPoolRecord) : Prop := Forall2 pool_next (wr_pools R) (wr_pools R').
Lemma record_next_lists R R' key m' : record_next R R' -> lists R' key m' -> exists m, lists R key m /\ follows m m'.
Proof.
  intros H (p' & Hp' & <- & Hm)%lists_pool. apply list_elem_of_lookup in Hp' as [i Hi].
  destruct (Forall2_lookup_r _ _ _ _ _ H Hi) as (p & Hp & (Hk & ms & Hf & Hs)).
  assert (Hms : m' ∈ ms) by (eapply elem_of_submseteq; [exact Hm|by apply sublist_submseteq]).
  apply list_elem_of_lookup in Hms as [j Hj]. destruct (Forall2_lookup_r _ _ _ _ _ Hf Hj) as (m & Hm0 & Hfm).
  exists m. split; [|done]. apply lists_pool. exists p. split; [by eapply list_elem_of_lookup_2|]. split; [done|by eapply list_elem_of_lookup_2].
Qed.
Lemma record_next_keys R R' : record_next R R' -> map wp_key (wr_pools R') = map wp_key (wr_pools R).
Proof. unfold record_next. induction 1 as [|p p' l l' [E _] _ IH]; [done|]. cbn. by rewrite E, IH. Qed.
Lemma record_next_good size R R' : record_next R R' -> good size R -> good size R'.
Proof.
  intros H [Hk Hi Hs]. split.
  - by rewrite (record_next_keys _ _ H).
  - rewrite listed_ids_all in *. unfold all_members in *. rewrite concat_map, map_map in *. eapply sublist_NoDup; [exact Hi|].
    unfold record_next in H. clear -H. induction H as [|p p' l l' Hp _ IH]; [done|]. cbn. apply sublist_app; [by apply pool_next_ids|done].
  - intros p' Hp'. apply list_elem_of_lookup in Hp' as [i Hl]. destruct (Forall2_lookup_r _ _ _ _ _ H Hl) as (p & Hp & Hn).
    etrans; [by apply pool_next_available|]. apply Hs. by eapply list_elem_of_lookup_2.
Qed.

(** *** The edits of the service *)

Lemma update_first_related {A} (Rl : A -> A -> Prop) `{!Reflexive Rl} (p : A -> bool) f l :
  (forall x, x ∈ l -> p x = true -> Rl x (f x)) -> Forall2 Rl l (update_first p f l).
Proof.
  assert (Hrefl : forall l, Forall2 Rl l l) by (intros l0; apply Forall_Forall2_diag, Forall_forall; by intros).
  induction l as [|x l IH]; intros H; [constructor|]. cbn. destruct (p x) eqn:E; constructor; [by apply H; [left|]|done|done|].
  apply IH. intros y Hy. apply H. by right.
Qed.
Lemma find_split {A} (p : A -> bool) l x : List.find p l = Some x ->
  exists l1 l2, l = l1 ++ x :: l2 /\ p x = true /\ forall f, update_first p f l = l1 ++ f x :: l2.
Proof.
  induction l as [|y l IH]; [done|]. cbn. destruct (p y) eqn:E; [intros [= ->]; by exists [], l|]. intros H.
  destruct (IH H) as (l1 & l2 & -> & Hx & Hu). exists (y :: l1), l2. split; [done|]. split; [done|]. intros f. by rewrite Hu.
Qed.
Lemma update_found_related {A} (Rl : A -> A -> Prop) `{!Reflexive Rl} (p : A -> bool) f l x :
  List.find p l = Some x -> Rl x (f x) -> Forall2 Rl l (update_first p f l).
Proof.
  intros H Hx. destruct (find_split p l x H) as (l1 & l2 & -> & _ & ->).
  assert (Hrefl : forall l, Forall2 Rl l l) by (intros l0; apply Forall_Forall2_diag, Forall_forall; by intros).
  apply Forall2_app; [done|]. by constructor.
Qed.

Lemma find_member_lists R id m : findMember R id = Some m -> wm_sandbox_id m = id /\ exists key, lists R key m.
Proof.
  unfold findMember. intros [Hin Hid]%find_some_elem. apply bool_decide_eq_true in Hid. split; [done|].
  unfold all_members in Hin. apply list_elem_of_In, in_concat in Hin as (ms & Hms & Hin). apply in_map_iff in Hms as (p & <- & Hp).
  exists (wp_key p). apply lists_pool. exists p. by rewrite !list_elem_of_In.
Qed.
Lemma set_member_next size R id m m' : good size R -> findMember R id = Some m -> follows m m' -> record_next R (set_member R id m').
Proof.
  intros Hg Hm Hf. destruct (find_member_lists R id m Hm) as (Hid & key & Hl). unfold record_next, set_member. cbn.
  apply update_first_related; [apply _|]. intros p Hp _. apply pool_next_edit, update_first_related; [apply _|].
  intros x Hx He. apply bool_decide_eq_true in He. assert (Hlx : lists R (wp_key p) x) by (apply lists_pool; by exists p).
  destruct (lists_unique size R _ _ _ _ Hg Hlx Hl) as [_ ->]; [congruence|done].
Qed.
Lemma remove_next R m : record_next R (remove_member_fn m R).
Proof.
  unfold record_next, remove_member_fn. cbn. induction (wr_pools R) as [|p l IH]; cbn; constructor; [|done]. split; [done|].
  exists (wp_members p). split; [|apply filter_sublist]. apply Forall_Forall2_diag, Forall_forall. by intros.
Qed.
Lemma retire_excess_follows n l : Forall2 follows l (retire_excess n l).
Proof.
  revert n. induction l as [|m l IH]; intros n; cbn; [constructor|]. destruct (_ && _); constructor; [apply follows_retiring|apply IH|done|apply IH].
Qed.
Lemma trim_next config R : record_next R (trim_fn config R).
Proof. unfold record_next, trim_fn. cbn. induction (wr_pools R) as [|p l IH]; cbn; constructor; [|done]. apply pool_next_edit, retire_excess_follows. Qed.
Lemma claim_next R key p ms : List.find (in_pool key) (wr_pools R) = Some p -> Forall2 follows (wp_members p) ms ->
  record_next R {| wr_pools := update_first (in_pool key) (fun p => p <| wp_members := ms |>) (wr_pools R) |}.
Proof. intros Hp Hf. apply (update_found_related _ _ _ _ p Hp), pool_next_edit, Hf. Qed.

(** *** Pools that are created and members that are added *)

Lemma find_new R key : List.find (in_pool key) (wr_pools (getOrCreateWarmPool R key).1) = Some (getOrCreateWarmPool R key).2.
Proof.
  unfold getOrCreateWarmPool. destruct (List.find (in_pool key) (wr_pools R)) as [p|] eqn:E; [exact E|]. cbn [fst snd wr_pools].
  induction (wr_pools R) as [|q l IH]; cbn in *; [unfold in_pool; cbn; by rewrite bool_decide_eq_true_2|]. destruct (in_pool key q); [done|by apply IH].
Qed.
Lemma create_pool_lists R key k m : lists (getOrCreateWarmPool R key).1 k m <-> lists R k m.
Proof.
  unfold getOrCreateWarmPool. destruct (List.find _ _); [done|]. cbn [fst]. rewrite !lists_pool. cbn. split; [|intros (p & Hp & ?); exists p; rewrite elem_of_app; by auto].
  intros (p & [Hp|Hp]%elem_of_app & Hk & Hm); [by exists p|]. apply list_elem_of_singleton in Hp as ->. by apply not_elem_of_nil in Hm.
Qed.
Lemma create_pool_good size R key : good size R -> good size (getOrCreateWarmPool R key).1.
Proof.
  unfold getOrCreateWarmPool. destruct (List.find _ _) eqn:E; [done|]. intros [Hk Hi Hs]. cbn [fst]. split; cbn.
  - rewrite map_app. apply NoDup_app. split; [done|]. split; [|apply NoDup_singleton]. intros k Hin ->%list_elem_of_singleton.
    apply list_elem_of_In, in_map_iff in Hin as (p & Hp & Hin). rewrite find_none_elem in E. specialize (E p). apply list_elem_of_In in Hin.
    specialize (E Hin). by apply bool_decide_eq_false in E.
  - unfold listed_ids, members_by_pool. cbn. by rewrite map_app, concat_app, app_nil_r.
  - intros p [Hp|Hp]%elem_of_app; [by apply Hs|]. apply list_elem_of_singleton in Hp as ->. cbn. lia.
Qed.

Lemma members_by_pool_split l1 p l2 : members_by_pool {| wr_pools := l1 ++ p :: l2 |} =
  members_by_pool {| wr_pools := l1 |} ++ map (pair (wp_key p)) (wp_members p) ++ members_by_pool {| wr_pools := l2 |}.
Proof. unfold members_by_pool. cbn. rewrite map_app, concat_app. cbn. done. Qed.

(** A member pushed onto a pool that is there. *)
Lemma push_entries R key p m : List.find (in_pool key) (wr_pools R) = Some p ->
  members_by_pool {| wr_pools := update_first (in_pool key) (push_member m) (wr_pools R) |} ≡ₚ (key, m) :: members_by_pool R.
Proof.
  intros Hp. destruct (find_split _ _ _ Hp) as (l1 & l2 & E & Hk & Hu). apply bool_decide_eq_true in Hk. rewrite Hu.
  replace R with {| wr_pools := l1 ++ p :: l2 |} by (destruct R; cbn in *; congruence). rewrite !members_by_pool_split. cbn.
  rewrite map_app, Hk, <- app_assoc, !(app_assoc (members_by_pool {| wr_pools := l1 |})). symmetry. apply Permutation_middle.
Qed.

(** ** The protocol *)
Section Protocol.
Context {B : Type} `{!EqDecision B} {CW : Codec B WarmPoolRecord} {CSe : Codec B Session} {CP : Codec B AppPool} {XW : Exact B WarmPoolRecord}.
Context (backend : string) (size : nat).
Local Abbreviation V := (string * Session)%type (only parsing).
Local Notation prog := (prog B V).
Local Notation world := (world B V).
Local Notation warm_key := (warmPool_key backend).
Implicit Types w : world.

(** The record that is stored; the records that ever were, and what they listed. *)
Definition content w : option WarmPoolRecord :=
  match store w !! warm_key with Some o => parse (o_body o) | None => Some no_pools end.
Definition recorded (R : WarmPoolRecord) w : Prop := R = no_pools \/ exists o, logged warm_key o w /\ means (o_body o) R.
Definition seen_as (key : string) (m : WarmPoolMember) w : Prop := exists R, recorded R w /\ lists R key m.
Definition seen (id : SandboxId) w : Prop := exists key m, seen_as key m w /\ wm_sandbox_id m = id.
#[export] Instance persistent_either (φ : Prop) (F : world -> Prop) : Persistent F -> Persistent (fun w => φ \/ F w).
Proof. intros HF w w' Hg [?|?]; [by left|right; by eapply persistent]. Qed.
#[export] Instance persistent_recorded R : Persistent (recorded R).
Proof. unfold recorded. apply _. Qed.
#[export] Instance persistent_seen_as key m : Persistent (seen_as key m).
Proof. unfold seen_as. apply _. Qed.
#[export] Instance persistent_seen id : Persistent (seen id).
Proof. unfold seen. apply _. Qed.

Definition destroyed (id : SandboxId) w : Prop := ("sandbox.destroy", id) ∈ audits w.

Record warm_inv w : Prop := {
  wi_good R : content w = Some R -> good size R;
  wi_issued id : seen id w -> is_Some (issued w !! id);
  wi_pool key m key' m' : seen_as key m w -> seen_as key' m' w -> wm_sandbox_id m = wm_sandbox_id m' -> key = key';
  wi_follows R key m key' m' : content w = Some R -> seen_as key m w -> lists R key' m' -> wm_sandbox_id m = wm_sandbox_id m' -> follows m m';
  wi_claimed key m key' m' : seen_as key m w -> seen_as key' m' w -> wm_sandbox_id m = wm_sandbox_id m' ->
    wm_state m = WClaimed -> wm_state m' = WClaimed -> wm_token m = wm_token m';
  wi_destroyed id : destroyed id w -> exists key m, seen_as key m w /\ wm_sandbox_id m = id /\ wm_state m = WRetiring;
}.

(** [who] may list sandboxes whose ids it drew; without one, none are new. *)
Definition warm_step (who : option tid) w w' : Prop :=
  grows w w' /\
  (wf w -> warm_inv w -> warm_inv w' /\ forall id, seen id w' -> seen id w \/ exists t, who = Some t /\ issued w !! id = Some t).
Definition warm_guarantee (t : tid) : world -> world -> Prop := warm_step (Some t).
Lemma warm_step_refl who w : warm_step who w w.
Proof. split; [done|]. intros _ Hi. split; [done|]. by left. Qed.
Lemma warm_step_own t w w' : warm_step None w w' -> warm_guarantee t w w'.
Proof. intros [Hg H]. split; [done|]. intros Hw Hi. destruct (H Hw Hi) as [? Hs]. split; [done|]. intros id Hid. destruct (Hs id Hid) as [?|(? & [=] & _)]. by left. Qed.
#[export] Instance warm_protocol : Protocol warm_guarantee.
Proof. split; [intros t w; apply warm_step_refl|by intros t w w' [? _]]. Qed.

Definition fit w : Prop := wf w /\ warm_inv w.
Lemma recorded_quiet w w' R : log w' = log w -> recorded R w' <-> recorded R w.
Proof. intros E. unfold recorded, logged. by rewrite E. Qed.
(** Steps that leave the record and its history alone. *)
Lemma warm_quiet who w w' : grows w w' -> content w' = content w -> (forall R, recorded R w' -> recorded R w) ->
  (forall id, destroyed id w' -> destroyed id w) -> warm_step who w w'.
Proof.
  intros Hg Hc Hr Hd. split; [done|]. intros Hw Hi. assert (Hs : forall key m, seen_as key m w' -> seen_as key m w) by (intros key m (R & ? & ?); exists R; eauto).
  assert (Hseen : forall id, seen id w' -> seen id w) by (intros id (key & m & ? & ?); exists key, m; eauto).
  split; [|intros id ?; left; auto]. destruct Hi as [H1 H2 H3 H4 H5 H6]. split.
  - rewrite Hc. apply H1.
  - intros id Hid. destruct (H2 id (Hseen id Hid)) as [t Ht]. exists t. by apply (grows_issued _ _ Hg).
  - intros key m key' m' ?%Hs ?%Hs. by eapply H3.
  - rewrite Hc. intros R key m key' m' ? ?%Hs. by eapply H4.
  - intros key m key' m' ?%Hs ?%Hs. by eapply H5.
  - intros id Hid%Hd. destruct (H6 id Hid) as (key & m & ? & ?). exists key, m. split; [by apply (persistent w)|done].
Qed.
Lemma fit_step who w w' : warm_step who w w' -> fit w -> fit w'.
Proof. intros [Hg H] [Hw Hi]. split; [by apply (grows_wf _ _ Hg)|by apply H]. Qed.
Lemma fit_tick w ms : time_passes w ms -> fit w -> fit (tick w ms).
Proof. intros Hms. apply (fit_step None). apply warm_quiet; [by apply grows_tick|done|done|done]. Qed.
#[export] Instance kept_fit : Kept warm_guarantee fit.
Proof. split; [intros t w w'; apply fit_step|intros w ms; apply fit_tick]. Qed.

(** A record that may be written over [R]. *)
Definition traced (who : option tid) w (R R' : WarmPoolRecord) : Prop := forall key m', lists R' key m' ->
  (exists m, lists R key m /\ follows m m') \/
  (wm_state m' = WRetiring /\ exists m, seen_as key m w /\ wm_sandbox_id m = wm_sandbox_id m') \/
  (exists t, who = Some t /\ ~ seen (wm_sandbox_id m') w /\ issued w !! wm_sandbox_id m' = Some t).
Definition next who w R R' : Prop := good size R' /\ traced who w R R'.

Lemma next_edit who w R R' : good size R -> record_next R R' -> next who w R R'.
Proof. intros Hg Hn. split; [by eapply record_next_good|]. intros key m' Hm. left. by eapply record_next_lists. Qed.
Lemma next_refl who w R : good size R -> next who w R R.
Proof. intros Hg. split; [done|]. intros key m Hm. left. by exists m. Qed.
Lemma next_trans who w R R1 R' : next who w R R1 -> next who w R1 R' -> next who w R R'.
Proof.
  intros [_ H1] [Hg H2]. split; [done|]. intros key m' Hm'. destruct (H2 key m' Hm') as [(m1 & Hm1 & Hf)|[?|?]]; [|by right; left|by right; right].
  destruct (H1 key m1 Hm1) as [(m & Hm & Hf1)|[(Hs & m & Hm & Hid)|(t & Ht & Hn & Hi)]].
  - left. exists m. split; [done|by etrans].
  - right; left. destruct Hf as (Hid' & Hr & _). split; [rewrite Hs in Hr; destruct (wm_state m'); cbn in Hr; [lia..|done]|]. exists m. split; [done|congruence].
  - right; right. destruct Hf as (Hid' & _). rewrite Hid'. by exists t.
Qed.

Lemma lists_content w R key m : wf w -> content w = Some R -> lists R key m -> seen_as key m w.
Proof.
  intros Hw Hc Hm. exists R. split; [|done]. unfold content in Hc. destruct (store w !! warm_key) as [o|] eqn:E; [|left; congruence].
  right. exists o. split; [by apply (wf_stored w Hw)|by right].
Qed.

(** *** Writing the record *)
Section Write.
Context (who : option tid) (t : tid) w (R R' : WarmPoolRecord) (e : string).
Context (Hfit : fit w) (Hc : content w = Some R) (Hn : next who w R R') (He : etag_ok w warm_key (stringify R') e).
Let obj := {| o_body := stringify (B := B) R'; o_etag := e; o_uploaded := clock w |}.
Let w' := write t w warm_key obj.

Lemma write_recorded R0 : recorded R0 w' <-> recorded R0 w \/ R0 = R'.
Proof.
  unfold recorded. split.
  - intros [?|(o & [t0 [[= -> ->]|Hl]%elem_of_cons] & Hm)]; [by left; left| |left; right; exists o; split; [by exists t0|done]].
    right. by apply (means_stringify (B := B)).
  - intros [[?|(o & [t0 Hl] & Hm)]| ->]; [by left|right; exists o; split; [exists t0; by right|done]|].
    right. exists obj. split; [exists t; by left|by left].
Qed.
Lemma write_seen_as key m : seen_as key m w' <-> seen_as key m w \/ lists R' key m.
Proof.
  unfold seen_as. split.
  - intros (R0 & [Hr| ->]%write_recorded & Hm); [left; by exists R0|by right].
  - intros [(R0 & Hr & Hm)|Hm]; [exists R0|exists R']; rewrite write_recorded; auto.
Qed.
Lemma write_grows_warm : grows w w'.
Proof. eapply (sem_grows t (OPut warm_key (stringify R') Always)). right. split; [done|]. by exists e. Qed.

Lemma next_seen key m m' : seen_as key m w \/ (exists key, seen_as key m w) -> lists R' key m' -> wm_sandbox_id m = wm_sandbox_id m' -> follows m m'.
Proof.
  intros Hm Hm' Hid. assert (exists key, seen_as key m w) as [k0 Hk] by (destruct Hm; eauto). destruct Hfit as [Hw Hi]. destruct Hn as [_ Ht].
  destruct (Ht key m' Hm') as [(m1 & Hm1 & Hf)|[(Hs & _)|(t0 & _ & Hns & _)]].
  - assert (follows m m1); [|by etrans]. apply (wi_follows w Hi R k0 m key m1); [done|done|done|]. destruct Hf as [E _]. congruence.
  - split; [done|]. rewrite Hs. split; [destruct (wm_state m); cbn; lia|done].
  - destruct Hns. exists k0, m. by split.
Qed.
Lemma next_pool key m key' m' : seen_as key m w -> lists R' key' m' -> wm_sandbox_id m = wm_sandbox_id m' -> key = key'.
Proof.
  intros Hm Hm' Hid. destruct Hfit as [Hw Hi]. destruct Hn as [_ Ht]. destruct (Ht key' m' Hm') as [(m1 & Hm1 & [E _])|[(_ & m1 & Hm1 & E)|(t0 & _ & Hns & _)]].
  - apply (wi_pool w Hi key m key' m1); [done|by eapply lists_content|congruence].
  - apply (wi_pool w Hi key m key' m1); [done|done|congruence].
  - destruct Hns. exists key, m. by split.
Qed.
Lemma next_claimed key m key' m' : seen_as key m w -> lists R' key' m' -> wm_sandbox_id m = wm_sandbox_id m' ->
  wm_state m = WClaimed -> wm_state m' = WClaimed -> wm_token m = wm_token m'.
Proof. intros Hm Hm' Hid Hs Hs'. destruct (next_seen key' m m') as (_ & _ & E); [right; by exists key|done|done|]. symmetry. by apply E. Qed.

Lemma warm_write : warm_step who w w'.
Proof.
  pose proof write_grows_warm as Hg. split; [done|]. intros Hw Hi. pose proof (proj1 Hn) as Hgood.
  assert (Hnew : forall key m, lists R' key m -> seen (wm_sandbox_id m) w \/ exists t0, who = Some t0 /\ issued w !! wm_sandbox_id m = Some t0).
  { intros key m Hm. destruct (proj2 Hn key m Hm) as [(m1 & Hm1 & [E _])|[(_ & m1 & Hm1 & E)|(t0 & ? & _ & ?)]]; [left..|right; eauto].
    - rewrite E. exists key, m1. split; [by eapply lists_content|done].
    - exists key, m1. by split. }
  assert (Hc' : forall R0, content w' = Some R0 -> R0 = R').
  { intros R0. unfold content, w'. cbn. rewrite lookup_insert_eq. apply (exact_parse (B := B)). }
  split.
  - split.
    + by intros R0 ->%Hc'.
    + intros id (key & m & [Hm|Hm]%write_seen_as & <-).
      * destruct (wi_issued w Hi (wm_sandbox_id m)) as [t0 Ht0]; [by exists key, m|]. by exists t0.
      * destruct (Hnew key m Hm) as [Hs|(t0 & _ & Ht0)]; [by apply (wi_issued w Hi)|by exists t0].
    + intros key m key' m' [Hm|Hm]%write_seen_as [Hm'|Hm']%write_seen_as Hid.
      * by apply (wi_pool w Hi key m key' m').
      * by apply (next_pool key m key' m').
      * symmetry. by apply (next_pool key' m' key m).
      * by apply (lists_unique size R' key m key' m').
    + intros R0 key m key' m' ->%Hc' [Hm|Hm]%write_seen_as Hm' Hid; [apply (next_seen key'); [right; by exists key|done|done]|].
      by destruct (lists_unique size R' key m key' m') as [_ ->].
    + intros key m key' m' [Hm|Hm]%write_seen_as [Hm'|Hm']%write_seen_as Hid Hs Hs'.
      * by apply (wi_claimed w Hi key m key' m').
      * by apply (next_claimed key m key' m').
      * symmetry. by apply (next_claimed key' m' key m).
      * by destruct (lists_unique size R' key m key' m') as [_ ->].
    + intros id Hid. destruct (wi_destroyed w Hi id Hid) as (key & m & Hm & ?). exists key, m. split; [apply write_seen_as; by left|done].
  - intros id (key & m & [Hm|Hm]%write_seen_as & <-); [left; by exists key, m|by eapply Hnew].
Qed.
End Write.
End Protocol.
