(* ===== verification/WarmPoolReplicas.v ===== *)
(** * The operations of warm pools keep to the protocol

    Every operation of [WarmPools.v] verified against the protocol of
    [WarmPoolProtocol.v]: as one thread among others, or as a piece of work that runs
    beside other work of its own request. *)

From Stdlib Require Import ZArith Lia.
From stdpp Require Import relations.
From S2P Require Import Prelude Constants Lifecycle Schema UtcDate Store Cas CasTheorems CasEffects Storage Calls Parallel Listing SessionData AppPoolRouter AppPool SessionService WarmPools WarmPoolProtocol.

Section Replicas.
Context {B : Type} `{!EqDecision B} {CW : Codec B WarmPoolRecord} {CSe : Codec B Session} {CP : Codec B AppPool} {XW : Exact B WarmPoolRecord}.
Context (backend : string) (compute : SandboxProvider (B := B)) (config : WarmPoolConfig) (appPools : bool).
Local Abbreviation V := (string * Session)%type (only parsing).
Local Notation prog := (prog B V).
Local Notation world := (world B V).
Local Notation warm_key := (warmPool_key backend).
Local Notation size := (wc_size config).
Local Notation fit := (fit backend size).
Local Notation seen := (seen backend).
Local Notation seen_as := (seen_as backend).
Local Notation recorded := (recorded backend).
Local Notation next := (next backend size).
Local Notation content := (content backend).
Local Notation warm_step := (warm_step backend size).
Local Notation warm_guarantee := (warm_guarantee backend size).
Implicit Types w : world.

(** ** Programs that leave the record alone *)
Definition away {X} (o : op B V X) : Prop :=
  match o with
  | OPut k _ _ => k <> warm_key
  | ODelete ks => warm_key ∉ ks
  | OAudit e _ => e <> "sandbox.destroy"
  | _ => True
  end.
Definition aside {A} (p : prog A) : Prop := calls (fun X o => away o) p.

Lemma away_step who t {X} (o : op B V X) w r w' : away o -> op_step t o w r w' -> warm_step who w w'.
Proof.
  intros Ho Hs. assert (Hdel : forall ks, warm_key ∉ ks -> warm_step who w (remove w ks)).
  { intros ks Hk. apply warm_quiet; [apply grows_remove| |done|done]. unfold WarmPoolProtocol.content. by rewrite store_remove, decide_False. }
  assert (Hsem : forall r w', sem t o w r w' -> warm_step who w w').
  { clear Hs. intros r0 w0 Hs. assert (Hg := sem_grows t o w r0 w0 Hs). destruct o; cbn in Hs, Ho; try (by destruct Hs as [-> _]; apply warm_step_refl).
    - destruct Hs as [(_ & -> & _)|(_ & e & He & -> & _)]; [apply warm_step_refl|]. apply warm_quiet; [done| | |done].
      + unfold WarmPoolProtocol.content. cbn. by rewrite lookup_insert_ne.
      + intros R [?|(o & [t0 [[= -> Hk ->]|Hl]%elem_of_cons] & Hm)]; [by left|done|right]. exists o. split; [by exists t0|done].
    - destruct Hs as [-> _]. by apply Hdel.
    - destruct Hs as (id & _ & _ & -> & _). by apply warm_quiet.
    - destruct Hs as [-> _]. by apply warm_quiet.
    - destruct Hs as [-> _]. apply warm_quiet; [done|done|done|]. intros id [[= <- _]|?]%elem_of_cons; [done|by unfold destroyed]. }
  destruct Hs as [Hs|(_ & [->|[[r' Hs]|Hs]] & _)]; [by eapply Hsem|apply warm_step_refl|by eapply Hsem|].
  destruct o; try done. destruct Hs as (ks' & Hsub & ->). apply Hdel. intros Hin. by apply Ho, Hsub.
Qed.

Lemma session_key_aside projectId id : session_key projectId id <> warm_key.
Proof. intros E. apply (f_equal (startsWith warmPoolsPrefix)) in E. unfold warmPool_key in E. by rewrite startsWith_app in E. Qed.
Lemma aside_getSession projectId id : aside (getSession projectId id).
Proof. apply calls_bind; [by apply calls_call|]. intros [o|]; [|done]. unfold readStored. by destruct (parse _). Qed.
Lemma aside_markSandboxReclaimed projectId id at_ sandbox : aside (markSandboxReclaimed projectId id at_ sandbox).
Proof.
  apply calls_bind; [|done]. apply calls_bind; [|by intros []]. apply calls_mutateM; [done|done| |done]. intros b c. apply session_key_aside.
Qed.
Lemma aside_read_pool projectId notebookId : aside (read projectId notebookId).
Proof. apply calls_bind; [by apply calls_call|]. intros [o|]; [|done]. apply calls_bind; [|done]. unfold readStored. by destruct (parse _). Qed.
Lemma aside_mark_session current d : aside (mark_session current d).
Proof.
  apply calls_catch; [|by intros []]. apply calls_bind; [apply aside_getSession|]. intros s. destruct (_ && _); [|done].
  apply calls_bind; [by apply calls_call|]. intros now. apply calls_bind; [apply aside_markSandboxReclaimed|done].
Qed.

(** The provider's calls leave the record alone. *)
Record sandbox_aside (sb : Sandbox) : Prop := {
  sa_ready ms : aside (sb_ready sb ms); sa_boot : aside (sb_boot sb); sa_true ms : aside (sb_true sb ms); sa_destroy : aside (sb_destroy sb);
  sa_reference : aside (sb_reconnectReference sb); sa_drain : aside (sb_drain sb);
}.
Record provider_aside : Prop := {
  pa_create id profile : aside (provider_create compute id profile) /\ returns (provider_create compute id profile) sandbox_aside;
  pa_connect f id profile reference : connectExisting compute = Some f -> aside (f id profile reference) /\ returns (f id profile reference) sandbox_aside;
}.
Context (provider_ok : provider_aside).

(** ** Verifying programs *)
Section Run.
Context (G : tid -> world -> world -> Prop) `{!Protocol G} (t : tid) (who : option tid).
Context (within : forall w w', warm_step who w w' -> G t w w') (stable_fit : Stable G t fit).
Context (stable_fresh : forall id t0, who = Some t0 -> Stable G t (fun w => fit w /\ (~ seen id w /\ issued w !! id = Some t0))).
#[local] Existing Instance stable_fit.

#[local] Instance stable_next R R' : Stable G t (fun w => fit w /\ next who w R R').
Proof.
  intros w w' Ho [Hf [Hg Ht]]. assert (Hgr := others_grows G t w w' Ho). assert (Hf' := stable_fit w w' Ho Hf). split; [done|]. split; [done|]. intros key m' Hm'.
  destruct (Ht key m' Hm') as [?|[(Hs & m & Hm & ?)|(t0 & Hw & Hn)]]; [by left|right; left|right; right].
  - split; [done|]. exists m. split; [by apply (persistent w)|done].
  - exists t0. split; [done|]. by apply (stable_fresh (wm_sandbox_id m') t0 Hw w w' Ho).
Qed.

(** What a program ends in: the invariant, and on success what its result says. *)
Definition ends_fit {A} (φ : A -> world -> Prop) (r : result (error V) A) w : Prop := fit w /\ match r with Ok a => φ a w | Err _ => True end.
Definition anything {A} (_ : A) (_ : world) : Prop := True.

Lemma fit_bind {A C} P (p : prog A) (f : A -> prog C) φ ψ : hoare G t P p (ends_fit φ) ->
  (forall a, hoare G t (fun w => fit w /\ φ a w) (f a) (ends_fit ψ)) -> hoare G t P (bind p f) (ends_fit ψ).
Proof. intros Hp Hf. eapply hoare_bind; [exact Hp|exact Hf|]. intros e. apply hoare_throw; [apply _|]. by intros w [? _]. Qed.
Lemma fit_handle {A C} P (p : prog A) (f : result (error V) A -> prog C) φ ψ : hoare G t P p (ends_fit φ) ->
  (forall a, hoare G t (fun w => fit w /\ φ a w) (f (Ok a)) (ends_fit ψ)) -> (forall e, hoare G t fit (f (Err e)) (ends_fit ψ)) -> hoare G t P (handle p f) (ends_fit ψ).
Proof. intros Hp Hf He. eapply hoare_handle; [exact Hp|]. intros [a|e]; [apply Hf|]. eapply hoare_pre; [|apply He]. by intros w [? _]. Qed.
Lemma fit_catch {A} P (p : prog A) h φ `{!forall a, Stable G t (fun w => fit w /\ φ a w)} : hoare G t P p (ends_fit φ) ->
  (forall e, hoare G t fit (h e) (ends_fit φ)) -> hoare G t P (catch p h) (ends_fit φ).
Proof. intros Hp He. eapply hoare_catch; [exact Hp|by intros a; apply (hoare_ret G t (fun w => fit w /\ φ a w))|]. intros e. eapply hoare_pre; [|apply He]. by intros w [? _]. Qed.
Lemma fit_ret {A} P (a : A) (φ : A -> world -> Prop) `{!Stable G t P} : (forall w, P w -> fit w /\ φ a w) -> hoare G t P (Ret a) (ends_fit φ).
Proof. intros H. by apply hoare_ret. Qed.
Lemma fit_throw {A} P e (φ : A -> world -> Prop) `{!Stable G t P} : (forall w, P w -> fit w) -> hoare G t P (Throw e) (ends_fit φ).
Proof. intros H. apply hoare_throw; [done|]. intros w Hw. split; [by apply H|done]. Qed.
Lemma fit_post {A} P (p : prog A) φ ψ : (forall a w, fit w -> φ a w -> ψ a w) -> hoare G t P p (ends_fit φ) -> hoare G t P p (ends_fit ψ).
Proof. intros H. apply hoare_post. intros [a|e] w [? ?]; (split; [done|]); [by apply H|done]. Qed.
Lemma fit_pre {A} P (p : prog A) φ : (forall w, P w -> fit w) -> hoare G t fit p (ends_fit φ) -> hoare G t P p (ends_fit φ).
Proof. intros H. by apply hoare_pre. Qed.

Lemma run_aside {A} F (p : prog A) Q `{!Persistent F} : aside p -> returns p Q -> hoare G t (fun w => fit w /\ F w) p (ends_fit (fun a w => Q a /\ F w)).
Proof.
  intros Hp HQ. eapply hoare_post; [|apply (hoare_calls G t (fun X o => away o) (fun w => fit w /\ F w) p Q); [|exact Hp|exact HQ]].
  - intros [a|e] w [[? ?] ?]; by split.
  - intros X o w r w' Ho Hs [Hf HF]. assert (Hw := away_step who t o w r w' Ho Hs). split; [by apply within|]. split; [by eapply fit_step|].
    apply (persistent w); [by apply op_step_grows in Hs|done].
Qed.
Lemma run_skip {A C} F (p : prog A) (f : A -> prog C) φ `{!Persistent F} : aside p ->
  (forall a, hoare G t (fun w => fit w /\ F w) (f a) (ends_fit φ)) -> hoare G t (fun w => fit w /\ F w) (bind p f) (ends_fit φ).
Proof.
  intros Hp Hf. eapply fit_bind; [apply (run_aside F p (fun _ => True)); [done|apply returns_any]|]. intros a. eapply hoare_pre; [|apply Hf]. by intros w (? & _ & ?).
Qed.

(** *** Reading and editing the record *)
Lemma run_record_of F o `{!Persistent F} :
  hoare G t (fun w => fit w /\ (F w /\ match o with Some o => logged warm_key o w | None => True end)) (warm_record_of backend o)
    (ends_fit (fun R w => F w /\ recorded R w /\ match o with Some o => parse (o_body o) = Some R | None => R = no_pools end)).
Proof.
  unfold warm_record_of, readStored. destruct o as [o|]; [|apply fit_ret; [apply _|]; intros w (? & ? & _); split; [done|]; split; [done|]; split; [by left|done]].
  destruct (parse (o_body o)) as [R|] eqn:E; [|apply fit_throw; [apply _|]; by intros w [? _]].
  apply fit_ret; [apply _|]. intros w (? & ? & ?). split; [done|]. split; [done|]. split; [|done]. right. exists o. split; [done|by right].
Qed.
Lemma run_read F `{!Persistent F} : hoare G t (fun w => fit w /\ F w) (store_read backend) (ends_fit (fun R w => F w /\ recorded R w)).
Proof.
  set (N := fun (o : option (object B)) w => fit w /\ (F w /\ match o with Some o => logged warm_key o w | None => True end)).
  assert (HN : forall o, Stable G t (N o)) by (intros [o|]; unfold N; apply _).
  eapply hoare_bind with (M := fun r => match r with Ok o => N o | Err _ => fit end).
  - eapply hoare_post; [|apply (hoare_get G t warm_key (fun w => fit w /\ F w) N)]; [intros [o|e] w; [done|by intros [[? _] _]]|].
    intros w [Hf HF]. split; [done|]. split; [done|]. destruct (store w !! warm_key) eqn:E; [|done]. by apply (wf_stored w (proj1 Hf)).
  - intros o. eapply fit_post; [|apply run_record_of, _]. by intros R w _ (? & ? & _).
  - intros e. by apply fit_throw.
Qed.

Section Edit.
Context {T : Type} (update : WarmPoolRecord -> prog (T * WarmPoolRecord)) (F : world -> Prop) (Ψ : T -> WarmPoolRecord -> world -> Prop).
Context (F_persistent : Persistent F) (Ψ_persistent : forall x R', Persistent (Ψ x R')).
Definition edited (R : WarmPoolRecord) (r : result (error V) (T * WarmPoolRecord)) w : Prop :=
  match r with Ok (x, R') => (fit w /\ next who w R R') /\ Ψ x R' w | Err _ => fit w end.
Context (update_ok : forall R, good size R -> hoare G t (fun w => fit w /\ (F w /\ recorded R w)) (update R) (edited R)).
#[local] Instance stable_edited R r : Stable G t (edited R r).
Proof. destruct r as [[x R']|e]; unfold edited; apply _. Qed.

(** The record read earlier, with what holds of it. *)
Definition read_from (o : option (object B)) (R : WarmPoolRecord) w : Prop :=
  match o with Some o => logged warm_key o w /\ parse (o_body o) = Some R | None => R = no_pools end.
#[local] Instance persistent_read_from o R : Persistent (read_from o R).
Proof. unfold read_from. destruct o; apply _. Qed.

Lemma run_put o R R' x :
  hoare G t (fun w => ((fit w /\ next who w R R') /\ Ψ x R' w) /\ (F w /\ read_from o R w))
    (cas_put warm_key (stringify R') (unless_changed o) ≫= fun _ => mret x)
    (fun r w => match r with Err CasWriteConflictError => fit w /\ F w | _ => ends_fit (fun x w => exists R', recorded R' w /\ Ψ x R' w) r w end).
Proof.
  set (P := fun w => ((fit w /\ next who w R R') /\ Ψ x R' w) /\ (F w /\ read_from o R w)).
  set (S := fun (_ : info) w => fit w /\ (recorded R' w /\ Ψ x R' w)).
  eapply hoare_bind with (M := fun r w => match r with Ok i => S i w | Err CasWriteConflictError => fit w /\ F w | Err _ => fit w end).
  - eapply hoare_cas_put; [apply (hoare_put G t warm_key (stringify R') (unless_changed o) P S)| | |].
    + intros w e [[[Hf Hn] HΨ] [HF Ho]] Hh He obj.
      assert (Hc : content w = Some R).
      { unfold WarmPoolProtocol.content. destruct o as [o|]; cbn in Ho, Hh; [|by rewrite Hh, Ho]. destruct Ho as [Hl Hp].
        by destruct (holds_etag_body _ _ _ (proj1 Hf) Hl Hh) as (o' & -> & ->). }
      assert (Hs : warm_step who w (write t w warm_key obj)) by (by eapply (warm_write backend size who t w R R' e)).
      split; [by apply within|]. split; [by eapply fit_step|]. split; [|by apply (persistent w); [apply Hs|]].
      right. exists obj. split; [exists t; by left|by left].
    + intros r. unfold P, S. apply _.
    + intros w [[[? _] _] [? _]]. done.
    + intros [i|e] w Hne; [done|]. destruct e; try done. intros [[[[? _] _] _]|(i & ? & _)]; done.
  - intros i. apply hoare_ret; [unfold S; apply _|]. intros w (? & ? & ?). split; [done|]. by exists R'.
  - intros e. destruct e; (apply hoare_throw; [apply _|]); intros w; try done.
Qed.

Lemma run_mutate : hoare G t (fun w => fit w /\ F w) (store_mutate backend update) (ends_fit (fun x w => exists R', recorded R' w /\ Ψ x R' w)).
Proof.
  apply hoare_withCasRetry; [apply _|apply _| |by intros w [? _]|unfold ends_fit; intros [x|e]; apply _]. unfold mutate_attempt_warm.
  set (N := fun (o : option (object B)) w => fit w /\ (F w /\ match o with Some o => logged warm_key o w /\ (forall R, parse (o_body o) = Some R -> good size R) | None => True end)).
  assert (HN : forall o, Stable G t (N o)) by (intros [o|]; unfold N; apply _).
  eapply hoare_bind with (M := fun r => match r with Ok o => N o | Err e => fun w => (fit w /\ F w) /\ exists msg, e = IoError msg end).
  { apply (hoare_get G t warm_key (fun w => fit w /\ F w) N). intros w [Hf HF]. split; [done|]. split; [done|].
    destruct (store w !! warm_key) as [o|] eqn:E; [|done]. split; [by apply (wf_stored w (proj1 Hf))|]. intros R HR. apply (wi_good _ _ _ (proj2 Hf)).
    unfold WarmPoolProtocol.content. by rewrite E. }
  2: { intros e. apply hoare_throw; [apply _|]. by intros w [[? _] (msg & ->)]. }
  intros o. unfold warm_record_of, readStored. set (k R := _ : prog T). fold (warm_record_of backend o).
  assert (Hk : forall R, good size R -> hoare G t (fun w => fit w /\ (F w /\ read_from o R w)) (k R)
    (fun r w => match r with Err CasWriteConflictError => fit w /\ F w | _ => ends_fit (fun x w => exists R', recorded R' w /\ Ψ x R' w) r w end)).
  { intros R Hg. subst k. cbv beta. eapply hoare_bind with (M := fun r w => edited R r w /\ (F w /\ read_from o R w)).
    - eapply hoare_pre; [|apply hoare_frame; [apply _|apply _|by apply update_ok]]. intros w (Hf & HF & Ho). split; [|done]. split; [done|]. split; [done|].
      unfold read_from in Ho. destruct o as [o|]; [|by left]. right. exists o. split; [apply Ho|right; apply Ho].
    - intros [x R']. destruct (bool_decide_reflect (stringify (B := B) R = stringify R')) as [E|E]; [|apply run_put].
      apply (stringify_inj (B := B)) in E as <-. apply hoare_ret; [unfold edited; apply _|]. intros w [[[? _] ?] [HF Ho]]. split; [done|]. exists R. split; [|done].
      unfold read_from in Ho. destruct o as [o|]; [|by left]. right. exists o. split; [apply Ho|right; apply Ho].
    - intros e. apply hoare_throw; [unfold edited; apply _|]. intros w [? [? _]]. by destruct e. }
  destruct o as [o|]; [|apply (hoare_pre G t _ _ _ _ (fun w Hw => Hw)); eapply hoare_pre; [|apply (Hk no_pools (good_nil size))]; by intros w (? & ? & _)].
  destruct (parse (o_body o)) as [R|] eqn:E.
  - eapply hoare_pre with (P := fun w => good size R /\ (fit w /\ (F w /\ read_from (Some o) R w))).
    { intros w (? & ? & ? & Hg). split; [by apply Hg|]. done. }
    apply hoare_pure. apply Hk.
  - apply hoare_throw; [unfold N; apply _|]. by intros w [? _].
Qed.
End Edit.
Arguments edited {T} Ψ R r w.

(** An edit that needs nothing but the record. *)
Lemma run_pure {T} (x : T) (f : WarmPoolRecord -> WarmPoolRecord) F `{!Persistent F} :
  (forall R w, good size R -> fit w -> F w -> recorded R w -> next who w R (f R)) ->
  hoare G t (fun w => fit w /\ F w) (store_mutate backend (fun R => mret (x, f R))) (ends_fit (fun y w => y = x /\ F w)).
Proof.
  intros Hf. eapply fit_post; [|eapply (run_mutate _ F (fun y _ w => y = x /\ F w)); [apply _|apply _|]]; [by intros a w _ (? & _ & ?)|].
  intros R Hg. apply hoare_ret; [apply _|]. intros w (? & ? & ?). split; [|done]. split; [done|by apply Hf].
Qed.

Section UpdateMember.
Context (member : WarmPoolMember) (state : WarmPoolState) (apply : WarmPoolMember -> prog (option WarmPoolMember)) (F : world -> Prop) `{!Persistent F}.
Context (apply_aside : forall m, aside (apply m))
  (apply_follows : forall m, wm_state m = state -> returns (apply m) (fun r => match r with Some m' => follows m m' | None => True end)).
Lemma run_update_member : hoare G t (fun w => fit w /\ F w) (updateMember backend member state apply) (ends_fit (fun _ => F)).
Proof.
  eapply fit_post; [|eapply (run_mutate _ F (fun _ _ => F)); [apply _|apply _|]]; [by intros a w _ (_ & _ & ?)|]. intros R Hg.
  assert (Hsame : forall b : bool, hoare G t (fun w => fit w /\ (F w /\ recorded R w)) (mret (b, R)) (edited (fun _ _ => F) R)).
  { intros b. apply hoare_ret; [apply _|]. intros w (? & ? & ?). split; [|done]. split; [done|by apply next_refl]. }
  unfold update_member_fn. destruct (findMember R _) as [current|] eqn:Ec; [|apply Hsame]. destruct (_ || _) eqn:Em; [apply Hsame|].
  apply orb_false_iff in Em as [Hst%negb_false_iff%bool_decide_eq_true _].
  eapply hoare_bind; [apply (run_aside (fun w => F w /\ recorded R w) _ _ (apply_aside current) (apply_follows current Hst))| |].
  - intros [m'|]; [|eapply hoare_pre; [|apply Hsame]; by intros w (? & _ & ?)]. apply hoare_ret; [unfold ends_fit; apply _|].
    intros w (Hf & Hfo & HF & Hr). split; [|done]. split; [done|]. apply next_edit; [done|]. by eapply set_member_next.
  - intros e. apply hoare_throw; [apply _|]. by intros w [? _].
Qed.
End UpdateMember.

Lemma follows_state m s : (rank (wm_state m) <= rank s)%nat -> (wm_state m = s \/ s <> WClaimed) -> follows m (m <| wm_state := s |>).
Proof. intros Hr Hs. split; [done|]. split; [done|]. intros E E'. done. Qed.

Lemma run_retire F member b `{!Persistent F} : hoare G t (fun w => fit w /\ F w) (warm_retire backend member b) (ends_fit (fun _ => F)).
Proof.
  apply run_update_member; [apply _|done|]. intros m _. unfold retire_fn. cbn. destruct (_ && _); [done|]. apply follows_retiring.
Qed.
Lemma run_reported {A} P F (p : prog A) `{!Persistent F} : (forall w, P w -> F w) -> hoare G t P p (ends_fit anything) ->
  hoare G t P (reported p) (ends_fit (fun _ => F)).
Proof.
  intros HF Hp. eapply hoare_handle with (M := fun r w => ends_fit anything r w /\ F w); [|intros r; apply fit_ret; [unfold ends_fit, anything; destruct r; apply _|by intros w [[? _] ?]]].
  eapply hoare_pre; [|by apply hoare_frame]. intros w Hw. split; [done|by apply HF].
Qed.

Lemma aside_isExpired m : aside (isExpired m).
Proof. apply calls_bind; [by apply calls_call|done]. Qed.
Lemma run_remove F member `{!Persistent F} : hoare G t (fun w => fit w /\ F w) (removeMember backend member) (ends_fit (fun _ => F)).
Proof.
  eapply fit_post; [|apply run_pure; [apply _|]]; [by intros a w _ [_ ?]|]. intros R w Hg _ _ _. apply next_edit; [done|apply remove_next].
Qed.

(** *** Destruction *)

(** The sandbox was listed as retiring. *)
Definition retiring_seen (id : SandboxId) w : Prop := exists key m, seen_as key m w /\ wm_sandbox_id m = id /\ wm_state m = WRetiring.
#[local] Instance persistent_retiring_seen id : Persistent (retiring_seen id).
Proof. unfold retiring_seen. apply _. Qed.
Lemma destroy_step id w w' r : fit w -> retiring_seen id w -> op_step t (OAudit (B := B) (V := V) "sandbox.destroy" id) w r w' -> warm_step who w w'.
Proof.
  intros _ Hid Hs. assert (Hcase : w' = w \/ w' = set_audits w (("sandbox.destroy", id) :: audits w)).
  { destruct Hs as [[-> _]|(_ & [->|[(r' & -> & _)|[]]] & _)]; auto. }
  destruct Hcase as [->| ->]; [apply warm_step_refl|].
  assert (Hg : grows w (set_audits w (("sandbox.destroy", id) :: audits w))) by (by eapply (sem_grows t (OAudit "sandbox.destroy" id))).
  split; [done|]. intros Hw [H1 H2 H3 H4 H5 H6]. split; [|by left]. split; try done.
  intros id' [[= ->]|Hin]%elem_of_cons; [apply Hid|by apply H6].
Qed.
Lemma run_destroy id F `{!Persistent F} : hoare G t (fun w => fit w /\ (F w /\ retiring_seen id w)) (call (OAudit "sandbox.destroy" id)) (ends_fit (fun _ => F)).
Proof.
  apply hoare_call; [apply _|intros r; unfold ends_fit; destruct r; apply _|]. intros w r w' (Hf & HF & Hid) Hs.
  assert (Hst := destroy_step id w w' r Hf Hid Hs). split; [by apply within|]. split; [by eapply fit_step|]. destruct r; [|done]. apply (persistent w); [apply Hst|done].
Qed.
Lemma run_destroy_sandbox id sandbox F `{!Persistent F} : match sandbox with Some sb => sandbox_aside sb | None => True end ->
  hoare G t (fun w => fit w /\ (F w /\ retiring_seen id w)) (destroy_sandbox compute id sandbox) (ends_fit (fun _ => F)).
Proof.
  intros Hsb. eapply fit_bind with (φ := fun sb w => sandbox_aside sb /\ (F w /\ retiring_seen id w)).
  - destruct sandbox as [sb|]; [apply fit_ret; [apply _|]; by intros w (? & ? & ?)|]. destruct (pa_create provider_ok id None). by apply run_aside; [apply _|..].
  - intros sb. eapply hoare_pre with (P := fun w => sandbox_aside sb /\ (fit w /\ (F w /\ retiring_seen id w))); [by intros w (? & ? & ?)|]. apply hoare_pure. intros Hok.
    eapply fit_bind; [by apply run_destroy|]. intros x. eapply fit_post; [|apply (run_aside F _ (fun _ => True)); [by apply sa_destroy|apply returns_any]]. by intros u w _ [_ ?].
Qed.

Lemma run_cleanup member sandbox F `{!Persistent F} : match sandbox with Some sb => sandbox_aside sb | None => True end ->
  hoare G t (fun w => fit w /\ F w) (warm_cleanup backend compute member sandbox) (ends_fit (fun _ => F)).
Proof.
  intros Hsb. eapply fit_bind with (φ := fun x w => F w /\ match x with Some m => wm_sandbox_id m = wm_sandbox_id member /\ exists key, seen_as key m w | None => True end).
  - eapply fit_bind; [by apply run_read|]. intros R. apply fit_ret; [apply _|]. intros w (? & ? & Hr). split; [done|]. split; [done|].
    destruct (findMember R _) as [m|] eqn:E; [|done]. destruct (find_member_lists _ _ _ E) as (? & key & Hl). split; [done|]. exists key, R. by split.
  - intros [current|]; [|apply fit_ret; [apply _|]; by intros w (? & ? & _)]. destruct (_ || _) eqn:E; [apply fit_ret; [apply _|]; by intros w (? & ? & _)|].
    apply orb_false_iff in E as [Hst%negb_false_iff%bool_decide_eq_true _].
    eapply fit_bind; [eapply hoare_pre; [|apply (run_destroy_sandbox _ _ F Hsb)]|].
    { intros w (? & ? & ? & key & ?). split; [done|]. split; [done|]. by exists key, current. }
    intros x. apply run_skip; [apply _|destruct (wm_destination current); [apply aside_mark_session|done]|]. intros y. by apply run_remove.
Qed.

(** *** Using a sandbox *)
Lemma aside_probeCommand sb : sandbox_aside sb -> aside (probeCommand sb).
Proof.
  intros H. apply calls_bind; [apply calls_catch; [by apply sa_true|done]|]. intros [[]|]; done.
Qed.
Lemma aside_reconnectAndProbe sb : sandbox_aside sb -> aside (reconnectAndProbe sb).
Proof. intros H. apply calls_bind; [apply calls_catch; [by apply sa_ready|done]|]. intros [u|]; [by apply aside_probeCommand|done]. Qed.
Lemma aside_boot sb : sandbox_aside sb -> aside (boot sb).
Proof. intros H. apply calls_bind; [by apply sa_boot|]. intros u. by apply aside_probeCommand. Qed.
Lemma aside_readReference sb : sandbox_aside sb -> aside (readReference sb).
Proof. intros H. apply calls_bind; [by apply sa_reference|]. intros [s|]; [|done]. by destruct (_ && _). Qed.
Lemma connect_ok m profile : aside (connect compute m profile) /\ returns (connect compute m profile) sandbox_aside.
Proof. unfold connect. destruct (connectExisting compute) as [f|] eqn:E; [|done]. by apply (pa_connect provider_ok f). Qed.

(** *** Claims *)
Definition claimed_by (m : WarmPoolMember) w : Prop := (exists key, seen_as key m w) /\ wm_state m = WClaimed /\ issued w !! wm_token m = Some t.
#[local] Instance persistent_issued id t0 : Persistent (fun w => issued w !! id = Some t0).
Proof. intros w w' Hg. apply (grows_issued _ _ Hg). Qed.
#[local] Instance persistent_claimed_by m : Persistent (claimed_by m).
Proof. unfold claimed_by. apply _. Qed.

(** Drawing an id: it is this thread's, and was listed nowhere. *)
Lemma issue_step id w : issued w !! id = None -> warm_step who w (set_issued w (<[id := t]> (issued w))).
Proof.
  intros Hid. apply warm_quiet; [|done|done|done]. split; [by intros []|done|done| |by exists []]. intros id' t' H. cbn. rewrite lookup_insert_ne; [done|congruence].
Qed.
Lemma run_draw {A} brand F (f : string -> prog A) φ `{!Persistent F} :
  (forall id, hoare G t (fun w => fit w /\ (F w /\ issued w !! id = Some t)) (f id) (ends_fit φ)) ->
  hoare G t (fun w => fit w /\ F w) (bind (call (OFreshId brand)) f) (ends_fit φ).
Proof.
  intros Hf. eapply fit_bind with (φ := fun id w => F w /\ issued w !! id = Some t); [|exact Hf].
  apply hoare_call; [apply _|intros r; unfold ends_fit; destruct r; apply _|]. intros w r w' [Hfit HF] [(id & _ & Hn & -> & ->)|[? _]]; [|done].
  assert (Hs := issue_step id w Hn). split; [by apply within|]. split; [by eapply fit_step|]. split; [by apply (persistent w); [apply Hs|]|].
  by apply lookup_insert_eq.
Qed.

Lemma Forall2_follows_refl l : Forall2 follows l l.
Proof. apply Forall_Forall2_diag, Forall_forall. by intros. Qed.
Lemma run_claim_first destination l F `{!Persistent F} :
  hoare G t (fun w => fit w /\ F w) (claim_first (B := B) destination l)
    (ends_fit (fun x w => F w /\ Forall2 follows l x.2 /\ match x.1 with Some m => m ∈ x.2 /\ wm_state m = WClaimed /\ issued w !! wm_token m = Some t | None => True end)).
Proof.
  induction l as [|item l IH]; cbn [claim_first]; [apply fit_ret; [apply _|]; intros w [? ?]; split; [done|]; split; [done|]; by split|].
  eapply fit_bind with (φ := fun (fit_ : bool) w => (fit_ = true -> wm_state item = WReady) /\ F w).
  { destruct (bool_decide_reflect (wm_state item = WReady)) as [E|E].
    - apply run_skip; [apply _|by apply calls_call|]. intros now. apply fit_ret; [apply _|]. by intros w [? ?].
    - apply fit_ret; [apply _|]. by intros w [? ?]. }
  intros b. eapply hoare_pre with (P := fun w => (b = true -> wm_state item = WReady) /\ (fit w /\ F w)); [by intros w (? & ? & ?)|]. apply hoare_pure. intros Hready.
  destruct b.
  - apply run_draw; [apply _|]. intros token. apply run_skip; [apply _|by apply calls_call|]. intros now. apply fit_ret; [apply _|].
    intros w (? & ? & ?). split; [done|]. split; [done|]. split; [|split; [by left|done]]. constructor; [|apply Forall2_follows_refl].
    specialize (Hready eq_refl). split; [done|]. cbn. rewrite Hready. split; [cbn; lia|done].
  - eapply fit_bind; [exact IH|]. intros [x l']. apply fit_ret; [destruct x; cbn [fst]; apply _|]. intros w (? & ? & Hf & Hx). cbn in *. split; [done|]. split; [done|].
    split; [by constructor|]. destruct x as [m|]; [|done]. destruct Hx as (? & ? & ?). split; [by right|done].
Qed.

Lemma run_claim key destination :
  hoare G t fit (store_mutate backend (claim_fn key destination)) (ends_fit (fun x w => match x with Some m => claimed_by m w | None => True end)).
Proof.
  set (Ψ := fun (x : option WarmPoolMember) R' w => match x with Some m => (exists key, lists R' key m) /\ wm_state m = WClaimed /\ issued w !! wm_token m = Some t | None => True end).
  eapply hoare_pre with (P := fun w => fit w /\ True); [done|]. eapply fit_post; [|apply (run_mutate _ (fun _ => True) Ψ)]; [| |intros [m|] R'; unfold Ψ; apply _|].
  - intros [m|] w _ (R' & Hr & HΨ); [|done]. destruct HΨ as ((k & Hl) & ? & ?). split; [|done]. by exists k, R'.
  - apply _.
  - intros R Hg. unfold claim_fn. destruct (List.find (in_pool key) (wr_pools R)) as [p|] eqn:Ep.
    2: { apply hoare_ret; [apply _|]. intros w (? & _ & _). split; [|done]. split; [done|by apply next_refl]. }
    eapply hoare_bind; [eapply hoare_pre; [|apply (run_claim_first destination (wp_members p) (fun _ => True))]; by intros w (? & _)| |].
    + intros [x ms]. apply hoare_ret; [unfold ends_fit; destruct x; cbn [fst]; apply _|]. intros w (? & _ & Hf & Hx). cbn in Hf, Hx. split.
      * split; [done|]. apply next_edit; [done|]. by eapply claim_next.
      * destruct x as [m|]; [|done]. destruct Hx as (Hm & ? & ?). split; [|done]. exists (wp_key p). apply lists_pool. cbn.
        destruct (find_split _ _ _ Ep) as (l1 & l2 & _ & _ & ->). exists (p <| wp_members := ms |>). split; [|done]. apply elem_of_app. right. by left.
    + intros e. apply hoare_throw; [apply _|]. by intros w [? _].
Qed.

(** A step of which only the invariant is kept. *)
Lemma run_plain {A} P (p : prog A) φ : (forall w, P w -> fit w) -> hoare G t (fun w => fit w /\ True) p (ends_fit φ) -> hoare G t P p (ends_fit φ).
Proof. intros H. apply hoare_pre. intros w Hw. split; [by apply H|done]. Qed.
Lemma run_done {A} P (a : A) `{!Stable G t P} : (forall w, P w -> fit w) -> hoare G t P (Ret a) (ends_fit anything).
Proof. intros H. apply fit_ret; [done|]. intros w Hw. split; [by apply H|done]. Qed.

Lemma run_connect m profile F `{!Persistent F} : hoare G t (fun w => fit w /\ F w) (connect compute m profile) (ends_fit (fun sb w => sandbox_aside sb /\ F w)).
Proof. destruct (connect_ok m profile). by apply run_aside; [apply _|..]. Qed.

Definition held (c : WarmPoolClaim) w : Prop := sandbox_aside (cl_sandbox c) /\ claimed_by (cl_member c) w.
#[local] Instance persistent_held c : Persistent (held c).
Proof. unfold held. apply _. Qed.
Definition maybe_held (x : option (WarmPoolClaim (B := B))) w : Prop := match x with Some c => held c w | None => True end.
#[local] Instance persistent_maybe_held x : Persistent (maybe_held x).
Proof. unfold maybe_held; destruct x; apply _. Qed.

Lemma run_reserve request : hoare G t fit (reserve backend compute config request) (ends_fit maybe_held).
Proof.
  unfold reserve. assert (Hnone : hoare G t fit (mret None) (ends_fit maybe_held)) by (by apply fit_ret).
  destruct (negb _); [done|]. destruct (List.find _ _) as [profile|]; [|done]. destruct (connectExisting compute); [|done]. destruct (_ || _); [done|].
  eapply fit_handle; [apply run_claim| |intros e; done]. intros [m|]; [|eapply hoare_pre; [|exact Hnone]; by intros w [? _]].
  eapply hoare_pre with (P := fun w => fit w /\ claimed_by m w); [done|]. eapply fit_handle; [apply run_connect; apply _| |].
  - intros sb. apply fit_ret; [apply _|]. by intros w (? & ? & ?).
  - intros e. eapply fit_bind; [apply (run_reported fit (fun _ => True)); [apply _|done|]|].
    + apply run_plain; [done|]. eapply fit_post; [|by apply run_retire]. done.
    + intros u. apply fit_ret; [apply _|]. by intros w [? _].
Qed.

Lemma run_drop member b : hoare G t fit (reported (warm_retire backend member b)) (ends_fit anything).
Proof.
  eapply fit_post; [|apply (run_reported fit (fun _ => True)); [apply _|done|]]; [done|]. apply run_plain; [done|]. eapply fit_post; [|by apply run_retire]. done.
Qed.
Lemma run_probe c : sandbox_aside (cl_sandbox c) -> hoare G t fit (probe backend c) (ends_fit anything).
Proof.
  intros Hc. apply fit_catch; [unfold anything; apply _| |].
  - apply run_plain; [done|]. apply run_skip; [apply _|by apply aside_reconnectAndProbe|]. intros u. apply run_skip; [apply _|apply aside_isExpired|].
    intros [|]; [apply fit_throw; [apply _|by intros w [? _]]|]. eapply fit_post; [|apply (run_aside (fun _ => True) _ (fun _ => True)); [|apply returns_any]]; [done|].
    apply calls_handle; [by apply sa_drain|done].
  - intros e. eapply fit_bind; [apply run_drop|]. intros u. apply fit_throw; [unfold anything; apply _|]. by intros w [? _].
Qed.

Lemma run_handoff c : hoare G t fit (handoff backend c) (ends_fit anything).
Proof.
  unfold handoff. destruct (wm_destination _) as [d|]; [|by apply fit_throw]. apply run_plain; [done|].
  apply run_skip; [apply _|apply aside_getSession|]. intros session. destruct (_ || _); [apply fit_throw; [apply _|by intros w [? _]]|].
  eapply fit_bind; [apply run_update_member; [apply _| |]|].
  - intros m. apply calls_bind; [apply aside_isExpired|done].
  - intros m Hm. apply returns_then. by intros [|].
  - intros [|]; [apply fit_ret; [apply _|]; by intros w [? _]|apply fit_throw; [apply _|by intros w [? _]]].
Qed.
Lemma run_abandon c : hoare G t fit (abandon backend compute c) (ends_fit anything).
Proof.
  apply run_plain; [done|]. eapply fit_bind; [by apply run_retire|]. intros b. eapply fit_post; [|by apply (run_cleanup _ None)]. done.
Qed.

(** *** One member of the sweep *)
Notation swept := (ends_fit (fun (_ : bool) _ => True)).
Lemma run_retire_then m : hoare G t (fun w => fit w /\ True) (warm_retire backend m false ≫= fun _ => mret true) swept.
Proof. eapply fit_bind; [by apply run_retire|]. intros b. by apply fit_ret; [apply _|]. Qed.
Lemma run_false : hoare G t (fun w => fit w /\ True) (mret false) swept.
Proof. by apply fit_ret; [apply _|]. Qed.
Lemma run_remove_then m : hoare G t (fun w => fit w /\ True) (removeMember backend m ≫= fun _ => mret false) swept.
Proof. eapply fit_bind; [by apply run_remove|]. intros b. by apply fit_ret; [apply _|]. Qed.

Lemma run_sweep_claimed m : hoare G t (fun w => fit w /\ True) (sweep_claimed backend appPools m) swept.
Proof.
  unfold sweep_claimed. destruct (wm_destination m) as [d|]; [|apply fit_throw; [apply _|by intros w [? _]]].
  apply run_skip; [apply _|apply calls_catch; [apply calls_bind; [apply aside_getSession|done]|by intros []]|]. intros session.
  destruct (bool_decide_reflect (session ≫= ses_sandbox_id = Some (wm_sandbox_id m))); [destruct (truthy _); [apply run_remove_then|apply run_false]|].
  destruct (match session with None => wm_assigned m | Some _ => false end); [apply run_remove_then|].
  apply run_skip; [apply _|destruct appPools; [apply aside_read_pool|done]|]. intros app. apply run_skip; [apply _|by apply calls_call|]. intros now.
  destruct (match app with Some p => existsb (reserves m d now) (members p) | None => false end); [apply run_false|].
  apply run_skip; [apply _|by apply calls_call|]. intros now'. destruct (_ <? _)%Z; [apply run_false|apply run_retire_then].
Qed.

Lemma run_health_check m : hoare G t (fun w => fit w /\ True) (health_check backend compute m) (ends_fit anything).
Proof.
  eapply fit_bind; [by apply run_connect|]. intros sb. eapply hoare_pre with (P := fun w => sandbox_aside sb /\ (fit w /\ True)); [by intros w (? & ? & _)|].
  apply hoare_pure. intros Hsb. apply run_skip; [apply _|by apply aside_reconnectAndProbe|]. intros u. apply run_skip; [apply _|by apply aside_readReference|].
  intros reference. eapply fit_bind; [apply run_update_member; [apply _| |]|].
  - intros x. by apply calls_bind; [apply calls_call|].
  - intros x Hx. apply returns_then. intros now. by destruct reference.
  - intros b. apply fit_ret; [apply _|]. by intros w [? _].
Qed.
Lemma run_sweep_ready key m : hoare G t (fun w => fit w /\ True) (sweep_ready backend compute config key m) swept.
Proof.
  apply run_skip; [apply _|destruct (negb _); [done|by apply calls_bind; [apply calls_call|]]|]. intros [|]; [apply run_retire_then|].
  apply run_skip; [apply _|by apply calls_call|]. intros now. destruct (_ <=? _)%Z; [|apply run_false].
  eapply fit_handle; [apply run_health_check| |].
  - intros u. apply fit_ret; [unfold anything; apply _|]. by intros w [? _].
  - intros e. apply run_plain; [done|]. apply run_retire_then.
Qed.
Lemma run_sweep_member key m : hoare G t (fun w => fit w /\ True) (sweep_member backend compute config appPools key m) (ends_fit (fun _ _ => True)).
Proof.
  apply run_reported; [apply _|done|]. eapply fit_bind with (φ := fun _ _ => True).
  - destruct (wm_state m); [|apply run_sweep_ready|apply run_sweep_claimed|by apply fit_ret; [apply _|]].
    apply run_skip; [apply _|by apply calls_call|]. intros now. destruct (_ <? _)%Z; [apply run_false|apply run_retire_then].
  - intros [|]; [eapply fit_post; [|by apply (run_cleanup m None)]; done|apply fit_ret; [apply _|]; by intros w [? _]].
Qed.
Lemma run_sweep_all l : hoare G t (fun w => fit w /\ True) (sweep_all backend compute config appPools l) (ends_fit (fun _ _ => True)).
Proof.
  induction l as [|[key m] l IH]; cbn [sweep_all]; [by apply fit_ret; [apply _|]|]. eapply fit_bind; [apply run_sweep_member|]. intros u. exact IH.
Qed.
Lemma run_trim : hoare G t (fun w => fit w /\ True) (store_mutate backend (fun record => mret (tt, trim_fn config record))) (ends_fit (fun _ _ => True)).
Proof. eapply fit_post; [|apply run_pure; [apply _|]]; [done|]. intros R w Hg _ _ _. apply next_edit; [done|apply trim_next]. Qed.

(** *** Pools and members that are new *)

Lemma edit_pool_found R key p f : List.find (in_pool key) (wr_pools R) = Some p -> edit_pool R key f = {| wr_pools := update_first (in_pool key) f (wr_pools R) |}.
Proof. intros Hp. unfold edit_pool, getOrCreateWarmPool. by rewrite Hp. Qed.
Lemma edit_pool_created R key f : edit_pool R key f = edit_pool (getOrCreateWarmPool R key).1 key f.
Proof. rewrite (edit_pool_found _ _ _ _ (find_new R key)). done. Qed.
Lemma find_pool_key key l p : List.find (in_pool key) l = Some p -> wp_key p = key.
Proof. intros [_ H]%find_some_elem. by apply bool_decide_eq_true in H. Qed.
Lemma update_find {A} (p : A -> bool) f l x : List.find p l = Some x -> p (f x) = true -> List.find p (update_first p f l) = Some (f x).
Proof. intros H Hf. revert H. induction l as [|y l IH]; [done|]. cbn. destruct (p y) eqn:E; cbn; [intros [= ->]; by rewrite Hf|]. rewrite E. apply IH. Qed.

Lemma next_created w R key : good size R -> next who w R (getOrCreateWarmPool R key).1.
Proof. intros Hg. split; [by apply create_pool_good|]. intros k m Hm%create_pool_lists. left. by exists m. Qed.
(** A pool edited in place, created when it is not there. *)
Lemma next_edit_pool w R key f : good size R -> (forall p, wp_key p = key -> (p ∈ wr_pools R \/ wp_members p = []) -> pool_next p (f p)) -> next who w R (edit_pool R key f).
Proof.
  intros Hg Hf. eapply next_trans; [by apply (next_created w R key)|]. rewrite edit_pool_created. assert (Hg' := create_pool_good size R key Hg).
  rewrite (edit_pool_found _ _ _ _ (find_new R key)). apply next_edit; [done|]. apply (update_found_related _ _ _ _ _ (find_new R key)).
  apply Hf; [apply (find_pool_key _ _ _ (find_new R key))|]. unfold getOrCreateWarmPool. destruct (List.find (in_pool key) (wr_pools R)) as [p|] eqn:E; [left|by right]. by apply find_some_elem in E as [? _].
Qed.

(** A member pushed onto the pool that is there. *)
Section Push.
Context w (R : WarmPoolRecord) (key : string) (p : WarmPool) (m : WarmPoolMember).
Context (Hg : good size R) (Hp : List.find (in_pool key) (wr_pools R) = Some p) (Hid : wm_sandbox_id m ∉ listed_ids R)
  (Hroom : waiting m = true -> (available p < size)%nat).
Let R' := edit_pool R key (push_member m).
Lemma push_lists k x : lists R' k x <-> (k = key /\ x = m) \/ lists R k x.
Proof. unfold R', lists. rewrite (edit_pool_found _ _ _ _ Hp), (push_entries R key p m Hp), elem_of_cons. naive_solver. Qed.
Lemma push_good : good size R'.
Proof.
  destruct Hg as [H1 H2 H3]. unfold R'. rewrite (edit_pool_found _ _ _ _ Hp). destruct (find_split _ _ _ Hp) as (l1 & l2 & E & _ & Hu). split.
  - cbn. rewrite Hu. rewrite E, map_app in H1. by rewrite map_app.
  - unfold listed_ids. rewrite (push_entries R key p m Hp). cbn. constructor; [exact Hid|exact H2].
  - cbn. rewrite Hu. intros q Hq. rewrite E in H3. apply elem_of_app in Hq as [Hq|[->|Hq]%elem_of_cons]; [apply H3, elem_of_app; by left| |apply H3, elem_of_app; right; by right].
    assert (Hs : (available p <= size)%nat) by (apply H3, elem_of_app; right; by left). unfold available in *. cbn. rewrite List.filter_app, length_app. cbn.
    destruct (waiting m); cbn; [|lia]. specialize (Hroom eq_refl). lia.
Qed.
Lemma push_next : wm_state m = WRetiring /\ (exists x, seen_as key x w /\ wm_sandbox_id x = wm_sandbox_id m) \/
  (exists t0, who = Some t0 /\ ~ seen (wm_sandbox_id m) w /\ issued w !! wm_sandbox_id m = Some t0) -> next who w R R'.
Proof. intros Hm. split; [apply push_good|]. intros k x [[-> ->]|Hx]%push_lists; [by right|left; by exists x]. Qed.
Lemma push_find : List.find (in_pool key) (wr_pools R') = Some (push_member m p).
Proof. unfold R'. rewrite (edit_pool_found _ _ _ _ Hp). cbn. apply update_find; [done|]. unfold in_pool in *. apply find_some_elem in Hp as [_ Hk]. exact Hk. Qed.
End Push.

(** *** Discarding a creation *)
Lemma reclaim_next w R key member : good size R -> fit w -> recorded R w -> seen_as key member w -> next who w R (reclaim_fn key member R).
Proof.
  intros Hg [Hw Hi] Hr Hs. eapply next_trans; [by apply (next_created w R key)|]. unfold reclaim_fn. rewrite edit_pool_created.
  set (R1 := (getOrCreateWarmPool R key).1). assert (Hg1 : good size R1) by (by apply create_pool_good). assert (Hp := find_new R key). fold R1 in Hp.
  set (p := (getOrCreateWarmPool R key).2) in Hp. pose proof (find_pool_key _ _ _ Hp) as Hk.
  destruct (List.find (is_member (wm_sandbox_id member)) (wp_members p)) as [current|] eqn:Ec.
  - rewrite (edit_pool_found _ _ _ _ Hp). apply next_edit; [done|]. apply (update_found_related _ _ _ _ p Hp). rewrite Ec. destruct (_ && _); [|done].
    apply pool_next_edit, update_first_related; [apply _|]. intros x _ _. apply follows_retiring.
  - assert (E : edit_pool R1 key (fun p => match List.find (is_member (wm_sandbox_id member)) (wp_members p) with
        | Some current => if (wm_token current === wm_token member) && negb (wm_state current === WClaimed)
            then p <| wp_members := update_first (is_member (wm_sandbox_id member)) (fun c => c <| wm_state := WRetiring |>) (wp_members p) |> else p
        | None => push_member (member <| wm_state := WRetiring |>) p end) = edit_pool R1 key (push_member (member <| wm_state := WRetiring |>))).
    { rewrite !(edit_pool_found _ _ _ _ Hp). f_equal. destruct (find_split _ _ _ Hp) as (l1 & l2 & _ & _ & Hu). rewrite !Hu. by rewrite Ec. }
    rewrite E. apply (push_next w R1 key p); [done|done| |done|left; split; [done|by exists member]].
    (* the sandbox is in no other pool *)
    unfold listed_ids. intros Hin%list_elem_of_In. apply in_map_iff in Hin as ([k x] & Hx & Hin). cbn in Hx. apply list_elem_of_In in Hin.
    assert (Hl : lists R k x) by (by apply (create_pool_lists R key)). assert (k = key) as ->.
    { apply (wi_pool _ _ w Hi k x key member); [by exists R|done|done]. }
    apply lists_pool in Hin as (q & Hq & Hkq & Hxq). rewrite find_none_elem in Ec. assert (q = p) as ->; [|specialize (Ec x Hxq); by apply bool_decide_eq_false in Ec].
    destruct (find_split _ _ _ Hp) as (l1 & l2 & Hl12 & _ & _). pose proof (good_keys _ _ Hg1) as Hn. rewrite Hl12 in Hn, Hq. rewrite map_app in Hn. cbn in Hn.
    apply NoDup_app in Hn as (_ & Hn1 & [Hn2 _]%NoDup_cons). apply elem_of_app in Hq as [Hq|[->|Hq]%elem_of_cons]; [|done|].
    + destruct (Hn1 (wp_key q)); [apply list_elem_of_In, in_map_iff; exists q; by rewrite <- list_elem_of_In|]. rewrite Hkq, <- Hk. by left.
    + destruct Hn2. apply list_elem_of_In, in_map_iff. exists q. rewrite <- list_elem_of_In. split; [congruence|done].
Qed.

Definition sandbox_option_aside (sandbox : option Sandbox) : Prop := match sandbox with Some sb => sandbox_aside sb | None => True end.
Lemma run_reclaimCreation profile member sandbox : sandbox_option_aside sandbox ->
  hoare G t (fun w => fit w /\ seen_as (pf_key profile) member w) (reclaimCreation backend compute profile member sandbox) (ends_fit anything).
Proof.
  intros Hsb. eapply fit_bind.
  - apply (run_pure tt (reclaim_fn (pf_key profile) member) (seen_as (pf_key profile) member)). intros R w Hg Hf Hs Hr. by apply reclaim_next.
  - intros u. eapply fit_post; [|eapply hoare_pre; [|apply (run_cleanup member sandbox (fun _ => True) Hsb)]]; [done|by intros w [? _]].
Qed.
Lemma run_backoff key F `{!Persistent F} : hoare G t (fun w => fit w /\ F w) (store_mutate backend (backoff_fn key)) (ends_fit anything).
Proof.
  eapply fit_post; [|apply (run_mutate _ F (fun _ _ _ => True)); [apply _|apply _|]]; [done|]. intros R Hg.
  eapply hoare_bind; [apply (run_aside (fun w => F w /\ recorded R w) now_ms (fun _ => True)); [by apply calls_call|apply returns_any]| |].
  - intros now. apply hoare_ret; [unfold ends_fit; apply _|]. intros w (? & _ & ? & ?). split; [|done]. split; [done|].
    apply next_edit_pool; [done|]. intros p _ _. split; [done|]. exists (wp_members p). split; [apply Forall2_follows_refl|done].
  - intros e. apply hoare_throw; [apply _|]. by intros w [? _].
Qed.
Lemma run_fill_failed profile member sandbox booted : sandbox_option_aside sandbox ->
  hoare G t (fun w => fit w /\ seen_as (pf_key profile) member w) (fill_failed backend compute profile member sandbox booted) (ends_fit anything).
Proof.
  intros Hsb. eapply fit_bind with (φ := fun _ => seen_as (pf_key profile) member).
  - destruct booted; [by apply fit_ret; [apply _|]|]. apply run_reported; [apply _|by intros w [_ ?]|apply run_backoff; apply _].
  - intros u. eapply fit_post; [|apply (run_reported _ (fun _ => True)); [apply _|done|by apply run_reclaimCreation]]. done.
Qed.
Lemma run_fill_publish profile member sandbox : sandbox_aside sandbox ->
  hoare G t (fun w => fit w /\ seen_as (pf_key profile) member w) (fill_publish backend compute config profile member sandbox) (ends_fit anything).
Proof.
  intros Hsb. apply run_skip; [apply _|by apply aside_readReference|]. intros reference.
  eapply fit_bind; [apply run_update_member; [apply _| |]|].
  - intros m. apply calls_bind; [apply aside_isExpired|]. intros [|]; [done|]. by apply calls_bind; [apply calls_call|].
  - intros m Hm. apply returns_then. intros [|]; [done|]. apply returns_then. intros now. cbn.
    assert (Hf : follows m (m <| wm_state := WReady |> <| wm_checked_at := now |>)) by (split; [done|]; split; [rewrite Hm; cbn; lia|by rewrite Hm]).
    destruct reference, (wc_providerLifetimeMs config); exact Hf.
  - intros [|].
    + eapply fit_post; [|apply (run_pure tt (settle_fn (pf_key profile)) (seen_as (pf_key profile) member))]; [done|]. intros R w Hg _ _ _.
      apply next_edit_pool; [done|]. intros p _ _. split; [done|]. exists (wp_members p). split; [apply Forall2_follows_refl|done].
    + eapply fit_post; [|apply (run_reported _ (fun _ => True)); [apply _|done|by apply run_reclaimCreation]]. done.
Qed.

(** *** Reserving creations *)
Section Reserve.
Context (owner : who = Some t).
Notation reservation := (WarmPoolProfile * WarmPoolMember)%type.
Definition listed_in R (r : reservation) : Prop := lists R (pf_key r.1) r.2.

(** The record read as [R0] has become [R], with these reservations. *)
Definition reserving R0 R (l : list reservation) w : Prop := (fit w /\ next who w R0 R) /\ (recorded R0 w /\ Forall (listed_in R) l).
#[local] Instance stable_reserving R0 R l : Stable G t (reserving R0 R l).
Proof. unfold reserving. apply _. Qed.
Lemma reserving_issued R0 R l w id : reserving R0 R l w -> id ∈ listed_ids R -> is_Some (issued w !! id).
Proof.
  intros [[[Hw Hi] [_ Ht]] [Hr _]] Hin. unfold listed_ids in Hin. apply list_elem_of_In, in_map_iff in Hin as ([k m] & <- & Hin). apply list_elem_of_In in Hin.
  destruct (Ht k m Hin) as [(x & Hx & [E _])|[(_ & x & Hx & E)|(t0 & _ & _ & ?)]]; [| |by exists t0].
  - apply (wi_issued _ _ w Hi). exists k, x. split; [by exists R0|done].
  - apply (wi_issued _ _ w Hi). by exists k, x.
Qed.
Lemma reserving_now R0 R l {A} (f : Z -> prog A) φ : (forall now, hoare G t (reserving R0 R l) (f now) φ) -> hoare G t (reserving R0 R l) (bind now_ms f) φ.
Proof.
  intros Hf. eapply hoare_bind; [by apply (hoare_now G t _ (fun _ => True))| |].
  - intros n. eapply hoare_pre; [|apply Hf]. by intros w (? & _ & _ & _ & ?).
  - intros e. apply hoare_exists. intros n w [? _]. done.
Qed.
Lemma reserving_issue R0 R l w id : issued w !! id = None -> reserving R0 R l w -> reserving R0 R l (set_issued w (<[id := t]> (issued w))).
Proof.
  intros Hid ((Hf & Hg & Ht) & Hr & Hl). assert (Hs := issue_step id w Hid). split; [|by split]. split; [by eapply fit_step|]. split; [done|].
  intros k m Hm. destruct (Ht k m Hm) as [?|[?|(t0 & ? & ? & Hi)]]; [by left|right; by left|right; right]. exists t0. split; [done|]. split; [done|]. by apply (grows_issued _ _ (proj1 Hs)).
Qed.
(** An id drawn for a new member. *)
Definition unlisted R id w : Prop := fit w /\ ((~ seen id w /\ issued w !! id = Some t) /\ id ∉ listed_ids R).
#[local] Instance stable_unlisted R id : Stable G t (unlisted R id).
Proof.
  intros w w' Ho (Hf & Hn & Hu). destruct (stable_fresh id t owner w w' Ho (conj Hf Hn)) as [? ?]. split; [done|]. by split.
Qed.
Lemma reserving_draw R0 R l {A} (f : string -> prog A) φ :
  (forall id, hoare G t (fun w => reserving R0 R l w /\ unlisted R id w) (f id) φ) -> hoare G t (reserving R0 R l) (bind (call (OFreshId "sandbox")) f) φ.
Proof.
  intros Hf. eapply hoare_bind with (M := fun r w => exists id, r = Ok id /\ (reserving R0 R l w /\ unlisted R id w)).
  - apply hoare_call; [apply _|apply _|]. intros w r w' Hr [(id & _ & Hn & -> & ->)|[? _]]; [|done]. assert (Hs := issue_step id w Hn). assert (Hf0 : fit w) by apply Hr.
    split; [by apply within|]. exists id. split; [done|]. split; [by apply reserving_issue|]. split; [by eapply fit_step|]. split; [split|].
    + intros Hseen. destruct (wi_issued _ _ w (proj2 Hf0) id Hseen) as [x Hx]. congruence.
    + by apply lookup_insert_eq.
    + intros Hin. destruct (reserving_issued R0 R l w id Hr Hin) as [x Hx]. congruence.
  - intros id. eapply hoare_pre; [|apply Hf]. by intros w (id' & [= <-] & ?).
  - intros e. apply hoare_exists. intros id w [? _]. done.
Qed.
Lemma reserving_token R0 R l id {A} (f : string -> prog A) φ :
  (forall token, hoare G t (fun w => reserving R0 R l w /\ unlisted R id w) (f token) φ) ->
  hoare G t (fun w => reserving R0 R l w /\ unlisted R id w) (bind randomUUID f) φ.
Proof.
  intros Hf. eapply hoare_bind with (M := fun r w => exists x, r = Ok x /\ (reserving R0 R l w /\ unlisted R id w)).
  - apply hoare_call; [apply _|apply _|]. intros w r w' [Hr (Hf0 & [Hns Hi] & Hu)] [(x & _ & Hn & -> & ->)|[? _]]; [|done]. assert (Hs := issue_step x w Hn).
    split; [by apply within|]. exists x. split; [done|]. split; [by apply reserving_issue|]. split; [by eapply fit_step|]. split; [split; [done|]|done].
    by apply (grows_issued _ _ (proj1 Hs)).
  - intros x. eapply hoare_pre; [|apply Hf]. by intros w (x' & [= <-] & ?).
  - intros e. apply hoare_exists. intros x w [? _]. done.
Qed.

Lemma listed_in_mono R R' l : (forall k m, lists R k m -> lists R' k m) -> Forall (listed_in R) l -> Forall (listed_in R') l.
Proof. intros H Hl. eapply Forall_impl; [exact Hl|]. intros r. apply H. Qed.
(** One more member of a pool with room. *)
Lemma reserving_push R0 R l profile p m w : List.find (in_pool (pf_key profile)) (wr_pools R) = Some p -> (available p < size)%nat ->
  reserving R0 R l w -> unlisted R (wm_sandbox_id m) w -> reserving R0 (edit_pool R (pf_key profile) (push_member m)) (l ++ [(profile, m)]) w.
Proof.
  intros Hp Hroom [[Hf Hn] [Hr Hl]] (_ & [Hns Hi] & Hu). pose proof (proj1 Hn) as Hg. split; [split; [done|]|split; [done|]].
  - eapply next_trans; [exact Hn|]. apply (push_next w R (pf_key profile) p m); [done|done|done|done|]. right. exists t. by rewrite owner.
  - apply Forall_app. split; [|apply Forall_singleton, (push_lists R _ p m Hp); by left]. eapply listed_in_mono; [|exact Hl].
    intros k x Hx. apply (push_lists R _ p m Hp). by right.
Qed.
Definition reserved_post R0 (r : result (error V) (WarmPoolRecord * list reservation)) w : Prop :=
  match r with Ok (R', l') => reserving R0 R' l' w | Err _ => fit w end.
Lemma run_reserve_some R0 profile n R l p : List.find (in_pool (pf_key profile)) (wr_pools R) = Some p -> (available p + n <= size)%nat ->
  hoare G t (reserving R0 R l) (reserve_some config profile n R l) (reserved_post R0).
Proof.
  revert R l p. induction n as [|n IH]; intros R l p Hp Hn; cbn [reserve_some]; [by apply hoare_ret; [apply _|]|].
  destruct (_ <? _)%nat; [|by apply hoare_ret; [apply _|]].
  apply reserving_now. intros now. apply reserving_draw. intros id. apply reserving_token. intros token.
  set (m := creating_member config id token now).
  eapply hoare_pre; [|apply (IH _ _ (push_member m p))].
  - intros w [Hr Hu]. apply (reserving_push R0 R l profile p m w Hp); [lia|done|exact Hu].
  - by apply push_find.
  - unfold available in *. cbn. rewrite List.filter_app, length_app. replace (List.filter waiting [m]) with [m] by reflexivity. cbn. lia.
Qed.
Lemma run_reserve_profiles R0 profiles R l :
  hoare G t (reserving R0 R l) (reserve_profiles config profiles R l)
    (fun r w => match r with Ok (l', R') => reserving R0 R' l' w | Err _ => fit w end).
Proof.
  revert R l. induction profiles as [|profile profiles IH]; intros R l; cbn [reserve_profiles]; [by apply hoare_ret; [apply _|]|].
  pose proof (find_new R (pf_key profile)) as Hp. destruct (getOrCreateWarmPool R (pf_key profile)) as [R1 p] eqn:E. cbn [fst snd] in Hp.
  eapply hoare_pre with (P := fun w => good size R /\ reserving R0 R1 l w).
  { intros w [[Hf Hn] [Hr Hl]]. pose proof (proj1 Hn) as Hg. split; [done|]. assert (E1 : R1 = (getOrCreateWarmPool R (pf_key profile)).1) by (by rewrite E).
    split; [split; [done|]|split; [done|]]; rewrite E1; [eapply next_trans; [exact Hn|by apply next_created]|].
    eapply listed_in_mono; [|exact Hl]. intros k m. apply create_pool_lists. }
  apply hoare_pure. intros Hg. assert (Hs : (available p <= size)%nat).
  { apply (good_size _ R1); [|by apply find_some_elem in Hp as [? _]]. replace R1 with (getOrCreateWarmPool R (pf_key profile)).1 by (by rewrite E). by apply create_pool_good. }
  apply reserving_now. intros now. destruct (_ <? _)%Z; [apply IH|].
  eapply hoare_bind; [apply (run_reserve_some R0 profile _ R1 l p Hp); lia| |].
  - intros [R2 l2]. apply IH.
  - intros e. by apply hoare_throw; [apply _|].
Qed.
Lemma run_reserveCreations : hoare G t (fun w => fit w /\ True) (reserveCreations backend config)
  (ends_fit (fun l w => forall profile m, (profile, m) ∈ l -> seen_as (pf_key profile) m w)).
Proof.
  eapply fit_post; [|apply (run_mutate _ (fun _ => True) (fun l R' _ => Forall (listed_in R') l)); [apply _|apply _|]].
  - intros l w _ (R' & Hr & Hl) profile m Hin. exists R'. split; [done|]. rewrite Forall_forall in Hl. by apply (Hl (profile, m)).
  - intros R Hg. eapply hoare_pre; [|eapply hoare_post; [|apply (run_reserve_profiles R (wc_profiles config) R [])]].
    + intros w (? & _ & ?). split; [split; [done|by apply next_refl]|by split].
    + by intros [[l R']|e] w; [intros [? [_ ?]]|].
Qed.
End Reserve.
End Run.

(** ** Threads, and pieces of their work *)
Section Threads.
Context (t : tid).
Local Notation apart := (apart warm_guarantee (warm_step None) t).
#[local] Instance warm_apart : Protocol apart.
Proof. apply apart_protocol; intros; [apply _|apply warm_step_refl|by apply warm_step_own]. Qed.
Lemma apart_kept : Kept apart fit.
Proof.
  split; [|intros w ms; apply fit_tick]. intros t' w w'. unfold Parallel.apart. case_decide; [apply fit_step|]. intros [t'' Hs]. by eapply fit_step.
Qed.
Lemma fresh_stable id t0 : Some t = Some t0 -> Stable warm_guarantee t (fun w => fit w /\ (~ seen id w /\ issued w !! id = Some t0)).
Proof.
  intros [= <-] w w' Ho [Hf [Hn Hi]]. assert (Hg := others_grows warm_guarantee t w w' Ho).
  split; [by apply (kept_stable warm_guarantee t fit _ w w')|]. split; [|by apply (grows_issued _ _ Hg)].
  destruct Ho as [(t' & Hne & [_ Hs])|(ms & _ & ->)]; [|done]. intros Hseen. destruct (Hs (proj1 Hf) (proj2 Hf)) as [_ Hs']. destruct (Hs' id Hseen) as [?|(t1 & [= <-] & ?)]; [done|congruence].
Qed.
(** A fact that a piece keeps beside what it establishes. *)
Lemma within_apart w w' : warm_step None w w' -> apart t w w'.
Proof. by intros H; apply apart_self. Qed.
Lemma no_fresh id t0 : None = Some t0 -> Stable apart t (fun w => fit w /\ (~ seen id w /\ issued w !! id = Some t0)).
Proof. done. Qed.
Notation piece P p := (hoare apart t P p (fun _ => fit)).
Lemma piece_of {A} P (p : prog A) φ : hoare apart t P p (ends_fit φ) -> piece P p.
Proof. apply hoare_post. by intros r w [? _]. Qed.
Lemma piece_par turns P p q : (forall w, P w -> fit w) -> piece P p -> piece P q -> piece P (par turns p q).
Proof.
  intros HP Hp Hq. pose proof apart_kept. eapply hoare_pre; [|eapply hoare_post; [|apply (hoare_keep apart t P (par turns p q) (fun _ _ => True) fit)]].
  - intros w Hw. split; [done|by apply HP].
  - by intros r w [_ ?].
  - eapply (hoare_par warm_guarantee (warm_step None)); [intros t' w w'; apply warm_step_own|exact Hp|exact Hq].
Qed.

#[local] Instance stable_apart_fit : Stable apart t fit.
Proof. pose proof apart_kept. apply _. Qed.
(** A call of the provider, then a piece that knows its result. *)
Lemma piece_aside {A} F (p : prog A) Q (f : result (error V) A -> prog unit) `{!Persistent F} : aside p -> returns p Q ->
  (forall r, match r with Ok a => Q a | Err _ => True end -> piece (fun w => fit w /\ F w) (f r)) -> piece (fun w => fit w /\ F w) (handle p f).
Proof.
  intros Hp HQ Hf. eapply hoare_handle.
  - eapply hoare_pre; [|apply (hoare_frame apart t _ p _ F (run_aside apart t None within_apart stable_apart_fit F p Q Hp HQ))]. by intros w [? ?].
  - intros r. destruct r as [a|e]; [|eapply hoare_pre; [|by apply Hf]; by intros w [[? _] ?]].
    eapply hoare_pre with (P := fun w => Q a /\ (fit w /\ F w)); [by intros w [(? & ? & _) ?]|]. apply hoare_pure. intros Ha. by apply (Hf (Ok a)).
Qed.
Lemma piece_fill timing profile member :
  piece (fun w => fit w /\ seen_as (pf_key profile) member w) (fill backend compute config timing profile member).
Proof.
  assert (Hfail : forall sandbox booted, sandbox_option_aside sandbox -> piece (fun w => fit w /\ seen_as (pf_key profile) member w) (fill_failed backend compute profile member sandbox booted)).
  { intros sandbox booted Hsb. eapply piece_of. by apply (run_fill_failed apart t None within_apart stable_apart_fit no_fresh). }
  destruct (pa_create provider_ok (wm_sandbox_id member) (Some profile)) as [Hc Hr].
  apply (piece_aside (seen_as (pf_key profile) member) _ sandbox_aside); [apply _|exact Hc|exact Hr|]. intros [sandbox|e] Hsb; [|by apply Hfail].
  assert (Hboot : aside (boot sandbox)) by (by apply aside_boot). destruct (timing (wm_sandbox_id member)) as [turns|].
  - apply piece_par; [by intros w [? _]|by apply Hfail|]. apply (piece_aside (seen_as (pf_key profile) member) _ (fun _ => True)); [apply _|exact Hboot|apply returns_any|]. intros r _.
    eapply piece_of. apply (run_reported apart t stable_apart_fit _ (fun _ => True)); [apply _|done|].
    by apply (run_reclaimCreation apart t None within_apart stable_apart_fit no_fresh).
  - apply (piece_aside (seen_as (pf_key profile) member) _ (fun _ => True)); [apply _|exact Hboot|apply returns_any|]. intros [u|e] _; [|by apply Hfail].
    eapply hoare_handle.
    + eapply hoare_pre; [|eapply (hoare_frame apart t _ _ _ (seen_as (pf_key profile) member)), (run_fill_publish apart t None within_apart stable_apart_fit no_fresh profile member sandbox Hsb)].
      by intros w [? ?].
    + intros [u'|e]; [apply hoare_ret; [unfold ends_fit, anything; apply _|]; by intros w [[? _] _]|]. eapply hoare_pre; [|by apply (Hfail (Some sandbox) true)]. by intros w [[? _] ?].
Qed.
Definition all_seen (l : list (WarmPoolProfile * WarmPoolMember)) w : Prop := forall profile m, (profile, m) ∈ l -> seen_as (pf_key profile) m w.
Lemma piece_fill_all timing turns l : piece (fun w => fit w /\ all_seen l w) (fill_all backend compute config timing turns l).
Proof.
  induction l as [|[profile m] l IH]; cbn [fill_all]; [apply hoare_ret; [unfold all_seen; apply _|]; by intros w [? _]|].
  apply piece_par; [by intros w [? _]| |].
  - eapply hoare_pre; [|apply piece_fill]. intros w [? H]. split; [done|]. apply H. by left.
  - eapply hoare_pre; [|exact IH]. intros w [? H]. split; [done|]. intros p x Hx. apply H. by right.
Qed.

(** *** A whole request *)
#[local] Instance stable_warm_fit : Stable warm_guarantee t fit.
Proof. apply _. Qed.
Lemma own_within w w' : warm_step (Some t) w w' -> warm_guarantee t w w'.
Proof. done. Qed.
Lemma thread_sweep timing turns : hoare warm_guarantee t fit (sweep backend compute config appPools timing turns) (ends_fit anything).
Proof.
  assert (Hpre : forall {A} (p : prog A) φ, hoare warm_guarantee t (fun w => fit w /\ True) p φ -> hoare warm_guarantee t fit p φ) by (intros A p φ; apply hoare_pre; done).
  eapply fit_bind; [apply _|apply Hpre, (run_trim warm_guarantee t (Some t) own_within stable_warm_fit fresh_stable)|]. intros u.
  eapply fit_bind; [apply _|apply (run_read warm_guarantee t stable_warm_fit (fun _ => True))|]. intros snapshot.
  eapply fit_bind; [apply _|eapply hoare_pre; [|apply (run_sweep_all warm_guarantee t (Some t) own_within stable_warm_fit fresh_stable)]; by intros w [? _]|]. intros u'.
  destruct (wc_enabled config); [|apply fit_ret; [apply _|]; by intros w [? _]].
  eapply fit_bind; [apply _|apply (run_reserveCreations warm_guarantee t (Some t) own_within stable_warm_fit fresh_stable eq_refl)|]. intros l.
  eapply hoare_post; [|eapply hoare_pre; [|apply (hoare_apart warm_guarantee (warm_step None) (fun t' w w' => warm_step_own backend size t' w w') t _ _ _ (piece_fill_all timing turns l))]].
  - intros [a|e] w Hw; by split.
  - intros w [? ?]. by split.
Qed.
End Threads.
End Replicas.
