(* ===== verification/WarmPoolTheorems.v ===== *)
(** * What warm pools guarantee

    Any number of replicas sweep one backend's warm pools and launch sessions from them at
    once, with any storage and provider fault.  The theorems of [WarmPools.v] over every
    execution, and concrete runs of them. *)

From Stdlib Require Import ZArith Lia.
From stdpp Require Import relations.
From S2P Require Import Prelude Constants Lifecycle Schema UtcDate Store Cas CasTheorems CasEffects Storage Calls Parallel Listing SessionData AppPoolRouter AppPool SessionService WarmPools WarmPoolProtocol WarmPoolReplicas.

Section Theorems.
Context {B : Type} `{!EqDecision B} {CW : Codec B WarmPoolRecord} {CSe : Codec B Session} {CP : Codec B AppPool} {XW : Exact B WarmPoolRecord}.
Context (backend : string) (compute : SandboxProvider (B := B)) (config : WarmPoolConfig) (appPools : bool).
Local Abbreviation V := (string * Session)%type (only parsing).
Local Notation prog := (prog B V).
Local Notation world := (world B V).
Local Notation size := (wc_size config).
Local Notation fit := (fit backend size).
Local Notation warm_guarantee := (warm_guarantee backend size).
Implicit Types w : world.

(** ** Requests *)

(** A sweep; a claim; or a session launch, which claims a sandbox, probes it, hands it over
    and gives it back when that or a later step of the launch fails. *)
Inductive warm_request :=
| SweepPools (timing : SandboxId -> option (list bool)) (turns : list bool)
| ClaimSandbox (request : ClaimRequest)
| LaunchSession (request : ClaimRequest) (fails : bool).
Definition launch_session (request : ClaimRequest) (fails : bool) : prog (option (WarmPoolClaim (B := B))) :=
  r ← reserve backend compute config request;
  match r with
  | None => mret None
  | Some c =>
      handle (probe backend c ≫= fun _ => handoff backend c) (fun r =>
        match r with
        | Ok _ => if fails then reported (abandon backend compute c) ≫= fun _ => mret None else mret (Some c)
        | Err _ => reported (abandon backend compute c) ≫= fun _ => mret None
        end)
  end.
Definition serve_warm (q : warm_request) : prog (option (WarmPoolClaim (B := B))) :=
  match q with
  | SweepPools timing turns => sweep backend compute config appPools timing turns ≫= fun _ => mret None
  | ClaimSandbox request => claim backend compute config request
  | LaunchSession request fails => launch_session request fails
  end.

Context (provider_ok : provider_aside backend compute).

(** *** Every request keeps to the protocol *)
Section Thread.
Context (t : tid).
Notation held := (maybe_held backend t).
Notation own := (own_within backend config t).
Notation steady := (stable_warm_fit backend config t).
Notation fresh := (fresh_stable backend config t).
#[local] Instance persistent_warm_claim m : Persistent (claimed_by (B := B) backend t m).
Proof. apply persistent_claimed_by. Qed.
#[local] Instance persistent_warm_held x : Persistent (held x).
Proof. apply persistent_maybe_held. Qed.

Lemma thread_given_back c (x : option (WarmPoolClaim (B := B))) : hoare warm_guarantee t fit (reported (abandon backend compute c) ≫= fun _ => mret x) (ends_fit backend config (fun y _ => y = x)).
Proof.
  eapply fit_bind; [apply _|apply (run_reported backend config warm_guarantee t steady fit (fun _ => True)); [apply _|done|]|].
  - apply (run_abandon backend compute config provider_ok warm_guarantee t (Some t) own steady fresh).
  - intros u. apply fit_ret; [apply _|]. by intros w [? _].
Qed.
Lemma thread_serve q : hoare warm_guarantee t fit (serve_warm q) (ends_fit backend config held).
Proof.
  assert (Hnone : forall P, Stable warm_guarantee t P -> (forall w, P w -> fit w) -> hoare warm_guarantee t P (mret None) (ends_fit backend config held)).
  { intros P HP H. apply fit_ret; [done|]. intros w Hw. split; [by apply H|done]. }
  pose proof (run_reserve backend compute config provider_ok warm_guarantee t (Some t) own steady fresh) as Hreserve.
  destruct q as [timing turns|request|request fails].
  - eapply fit_bind; [apply _|by apply thread_sweep|]. intros u. apply Hnone; [apply _|]. by intros w [? _].
  - eapply fit_bind; [apply _|apply Hreserve|]. intros [c|]; [|apply Hnone; [apply _|by intros w [? _]]].
    eapply hoare_pre with (P := fun w => sandbox_aside backend (cl_sandbox c) /\ (fit w /\ claimed_by backend t (cl_member c) w)); [by intros w (? & ? & ?)|].
    apply hoare_pure. intros Hsb. eapply hoare_handle.
    + eapply hoare_pre; [|apply (hoare_frame warm_guarantee t _ _ _ (claimed_by backend t (cl_member c)) (run_probe backend config warm_guarantee t (Some t) own steady fresh c Hsb))].
      by intros w [? ?].
    + intros [u|e]; [|apply Hnone; [unfold ends_fit, anything; apply _|by intros w [[? _] _]]].
      apply fit_ret; [unfold ends_fit, anything; apply _|]. by intros w [[? _] ?].
  - eapply fit_bind; [apply _|apply Hreserve|]. intros [c|]; [|apply Hnone; [apply _|by intros w [? _]]].
    eapply hoare_pre with (P := fun w => sandbox_aside backend (cl_sandbox c) /\ (fit w /\ claimed_by backend t (cl_member c) w)); [by intros w (? & ? & ?)|].
    apply hoare_pure. intros Hsb.
    assert (Hback : forall P, (forall w, P w -> fit w) -> hoare warm_guarantee t P (reported (abandon backend compute c) ≫= fun _ => mret None) (ends_fit backend config held)).
    { intros P H. eapply hoare_pre; [exact H|]. eapply fit_post; [|apply thread_given_back]. by intros y w _ ->. }
    eapply hoare_handle.
    + eapply hoare_pre; [|eapply (hoare_frame warm_guarantee t fit _ _ (claimed_by backend t (cl_member c)))]; [by intros w [? ?]|].
      eapply fit_bind; [apply _|by apply (run_probe backend config warm_guarantee t (Some t) own steady fresh c)|]. intros u.
      eapply hoare_pre; [|apply (run_handoff backend config warm_guarantee t (Some t) own steady fresh c)]. by intros w [? _].
    + intros [u|e]; [destruct fails|]; [apply Hback; by intros w [[? _] _]| |apply Hback; by intros w [[? _] _]].
      apply fit_ret; [unfold ends_fit, anything; apply _|]. by intros w [[? _] ?].
Qed.
End Thread.

(** ** Every execution *)

(** No pool was ever stored for the backend, and nothing was destroyed. *)
Record cold w : Prop := {
  cold_wf : wf w;
  cold_store : store w !! warmPool_key backend = None;
  cold_log t o : (t, warmPool_key backend, o) ∉ log w;
  cold_audits id : ~ destroyed id w;
}.
Lemma cold_fit w : cold w -> fit w.
Proof.
  intros [Hw Hs Hl Ha]. assert (Hr : forall R, recorded backend R w -> R = no_pools) by (intros R [?|(o & [t Ho] & _)]; [done|by destruct (Hl t o)]).
  assert (Hseen : forall key m, ~ seen_as backend key m w) by (intros key m (R & ->%Hr & Hm); by apply not_elem_of_nil in Hm).
  assert (Hc : content backend w = Some no_pools) by (unfold content; by rewrite Hs). split; [done|]. split.
  - rewrite Hc. intros R [= <-]. apply good_nil.
  - intros id (key & m & Hm & _). by destruct (Hseen key m).
  - intros key m key' m' Hm. by destruct (Hseen key m).
  - intros R key m key' m' _ Hm. by destruct (Hseen key m).
  - intros key m key' m' Hm. by destruct (Hseen key m).
  - intros id Hid. by destruct (Ha id).
Qed.

Notation pool := (config B V (option (WarmPoolClaim (B := B)))).
Definition serving (requests : list warm_request) w := Config (map serve_warm requests) w.
Lemma warm_verified requests w : cold w -> verified warm_guarantee (fun t => ends_fit backend config (maybe_held backend t)) (serving requests w).
Proof.
  intros Hw i p Hi. cbn in Hi. rewrite list_lookup_fmap in Hi. destruct (requests !! i) as [q|]; [|done]. injection Hi as <-.
  apply thread_serve. by apply cold_fit.
Qed.
Lemma warm_reachable requests w c : cold w -> rtc pool_step (serving requests w) c -> fit (wd c).
Proof.
  intros Hw Hr. eapply (pool_invariant warm_guarantee _ fit); [|intros w' ms; apply fit_tick|by apply warm_verified|by apply cold_fit|exact Hr].
  intros t w1 w2. apply fit_step.
Qed.
Lemma warm_answer requests w c i a : cold w -> rtc pool_step (serving requests w) c -> threads c !! i = Some (Ret (Some a)) -> claimed_by backend i (cl_member a) (wd c).
Proof. intros Hw Hr Hi. by destruct (pool_result _ _ _ _ _ _ (warm_verified requests w Hw) Hr Hi) as (_ & _ & ?). Qed.

(** C17: A warm sandbox is claimed once.  Any number of replicas claim sandboxes and launch
    sessions on them while others sweep, retire and destroy, interleaved in any way with
    any storage and provider fault: two requests never end up with the same sandbox. *)
Theorem warm_sandbox_claimed_once requests w0 c i j a b :
  cold w0 -> rtc pool_step (serving requests w0) c -> i <> j ->
  threads c !! i = Some (Ret (Some a)) -> threads c !! j = Some (Ret (Some b)) ->
  wm_sandbox_id (cl_member a) <> wm_sandbox_id (cl_member b).
Proof.
  intros Hw Hr Hne Hi Hj E. destruct (warm_answer _ _ _ _ _ Hw Hr Hi) as ((k & Ha) & Hsa & Hia). destruct (warm_answer _ _ _ _ _ Hw Hr Hj) as ((k' & Hb) & Hsb & Hib).
  pose proof (wi_claimed _ _ _ (proj2 (warm_reachable _ _ _ Hw Hr)) _ _ _ _ Ha Hb E Hsa Hsb) as Ht. rewrite Ht in Hia. congruence.
Qed.

(** C18: Only sandboxes out of service are destroyed.  Once the pools have asked the provider
    to destroy a sandbox, at that moment and ever after the record lists it as retiring if
    it lists it at all: no replica finds it ready, waits for it or holds a claim to it. *)
Theorem warm_destroy_safe requests w0 c c' id R key m :
  cold w0 -> rtc pool_step (serving requests w0) c -> destroyed id (wd c) -> rtc pool_step c c' ->
  content backend (wd c') = Some R -> lists R key m -> wm_sandbox_id m = id -> wm_state m = WRetiring.
Proof.
  intros Hw Hr Hd Hr' Hc Hm Hid. assert (Hfit := warm_reachable requests w0 c Hw Hr).
  assert (Hfit' := warm_reachable requests w0 c' Hw (transitivity Hr Hr')).
  assert (Hd' : destroyed id (wd c')).
  { assert (Hg : grows (wd c) (wd c')); [|destruct (grows_audits _ _ Hg) as [l E]; unfold destroyed; rewrite E; apply elem_of_app; by right].
    clear -Hr'. induction Hr' as [|c1 c2 c3 Hs _ IH]; [done|]. etrans; [|exact IH].
    destruct Hs as [i X o k r ts w w' _ Ho|ts w ms Hms]; [by apply op_step_grows in Ho|by apply grows_tick]. }
  destruct (wi_destroyed _ _ _ (proj2 Hfit') id Hd') as (k0 & x & Hx & Hxid & Hxs).
  destruct (wi_follows _ _ _ (proj2 Hfit') R k0 x key m Hc Hx Hm) as (_ & Hrank & _); [congruence|].
  rewrite Hxs in Hrank. destruct (wm_state m); cbn in Hrank; [lia..|done].
Qed.

(** C19: The pools stay within their size.  Whatever sweeps run at once, a stored record has one
    pool for each profile key, lists every sandbox once, and no pool has more sandboxes
    ready or being created than the configured size. *)
Theorem warm_pools_bounded requests w0 c R :
  cold w0 -> rtc pool_step (serving requests w0) c -> content backend (wd c) = Some R ->
  NoDup (map wp_key (wr_pools R)) /\ NoDup (ownedIds R) /\ forall p, p ∈ wr_pools R -> (available p <= size)%nat.
Proof.
  intros Hw Hr Hc. destruct (wi_good _ _ _ (proj2 (warm_reachable _ _ _ Hw Hr)) R Hc) as [Hk Hi Hs]. rewrite listed_ids_all in Hi. done.
Qed.
End Theorems.

(** ** Runs *)
Module WarmSample.
Inductive text := TWarm (r : WarmPoolRecord) | TSession (s : Session) | TPool (p : AppPool).
#[export] Instance Destination_eq_dec : EqDecision Destination.
Proof. solve_decision. Defined.
#[export] Instance WarmPoolMember_eq_dec : EqDecision WarmPoolMember.
Proof. solve_decision. Defined.
#[export] Instance WarmPool_eq_dec : EqDecision WarmPool.
Proof. solve_decision. Defined.
#[export] Instance WarmPoolRecord_eq_dec : EqDecision WarmPoolRecord.
Proof. solve_decision. Defined.
#[export] Instance text_eq_dec : EqDecision text.
Proof. solve_decision. Defined.
#[export, refine] Instance warm_codec : Codec text WarmPoolRecord := {| valid _ := True; stringify := TWarm; parse b := if b is TWarm r then Some r else None |}.
Proof. all: by intros. Defined.
#[export, refine] Instance warm_session_codec : Codec text Session := {| valid _ := True; stringify := TSession; parse b := if b is TSession r then Some r else None |}.
Proof. all: by intros. Defined.
#[export, refine] Instance warm_pool_codec : Codec text AppPool := {| valid _ := True; stringify := TPool; parse b := if b is TPool r then Some r else None |}.
Proof. all: by intros. Defined.
#[export] Instance warm_exact : Exact text WarmPoolRecord.
Proof. split; by intros x y [= ->]. Qed.

(** A provider whose sandboxes always answer. *)
Definition answers : Sandbox (B := text) := {|
  sb_ready _ := Ret (Some tt); sb_boot := Ret tt; sb_true _ := Ret (Some true); sb_destroy := Ret tt; sb_reconnectReference := Ret None; sb_drain := Ret tt |}.
Definition provider : SandboxProvider (B := text) := {| provider_create _ _ := Ret answers; connectExisting := Some (fun _ _ _ => Ret answers) |}.
Lemma provider_answers : provider_aside "local" provider.
Proof. split; [by intros id profile; split|by intros f id profile reference [= <-]; split]. Qed.
Definition resources : ComputeResources := {| cr_cpu := None; cr_memory_bytes := None; cr_gpu := None; cr_extra := [] |}.
Definition pools : WarmPoolConfig := {|
  wc_enabled := true; wc_size := 2; wc_profiles := [{| pf_key := "default"; pf_name := None; pf_image := None; pf_resources := resources |}];
  wc_creationTimeoutMs := 300000; wc_minimumRemainingMs := 0; wc_providerLifetimeMs := None |}.
Definition request (session : string) : ClaimRequest := {|
  rq_resources := None; rq_profile := None; rq_image := None; rq_userHome := false; rq_restoreSnapshotId := None;
  rq_destination := {| d_project_id := "p"; d_notebook_id := "n"; d_session_id := session |} |}.
Definition requests : list warm_request :=
  [SweepPools (fun _ => None) [true; false; true; false]; ClaimSandbox (request "s1"); LaunchSession (request "s2") false; ClaimSandbox (request "s3")].
Notation warm_config := (Store.config text (string * Session) (option (WarmPoolClaim (B := text)))).
Definition start : warm_config := serving "local" provider pools false requests empty_world.
Lemma start_cold : cold (B := text) "local" empty_world.
Proof. split; [apply wf_empty|apply lookup_empty|by intros t o ?%not_elem_of_nil|by intros id ?%not_elem_of_nil]. Qed.
Definition after (turns : list nat) : warm_config := default start (interleave start (map Turn turns)).
Definition is_some {A} (x : option A) : bool := match x with Some _ => true | None => false end.
Lemma after_reached turns : is_some (interleave start (map Turn turns)) = true -> rtc pool_step start (after turns) /\ mem_wf (wd (after turns)).
Proof.
  intros H. unfold after. apply (interleave_reaches start _ (map Turn turns)); [intros t k o Hin; by apply not_elem_of_nil in Hin|]. by destruct (interleave _ _).
Qed.
Definition turns_of (n : nat) (i : nat) : list nat := replicate n i.
Definition claimed_id (c : warm_config) (i : nat) : option string :=
  match threads c !! i with Some (Ret (Some a)) => Some (wm_sandbox_id (cl_member a)) | _ => None end.
Definition pool_states (c : warm_config) : option (list (string * WarmPoolState)) :=
  map (fun e => (wm_sandbox_id e.2, wm_state e.2)) ∘ members_by_pool <$> content "local" (wd c).

(** A sweep fills the pool; two claims race for the first sandbox and the loser gets the
    other one. *)
Definition filled : list nat := turns_of 26 0.
Definition raced : warm_config := after (filled ++ [1; 3; 1; 3; 1; 3; 1; 3; 1; 3; 1; 3] ++ turns_of 6 3).
Lemma raced_reached : rtc pool_step start raced.
Proof. apply after_reached. vm_compute. reflexivity. Qed.
Definition the_claim (c : warm_config) (i : nat) : option (WarmPoolClaim (B := text)) := match threads c !! i with Some (Ret x) => x | _ => None end.
Lemma warm_sandbox_claimed_once_witness :
  claimed_id raced 1 = Some "sandbox-0000000000000000" /\ claimed_id raced 3 = Some "sandbox-0000000000000002" /\
  match the_claim raced 1, the_claim raced 3 with
  | Some a, Some b => wm_sandbox_id (cl_member a) <> wm_sandbox_id (cl_member b)
  | _, _ => False
  end.
Proof.
  split; [vm_compute; reflexivity|]. split; [vm_compute; reflexivity|].
  destruct (the_claim raced 1) as [a|] eqn:Ea; [|vm_compute in Ea; discriminate]. destruct (the_claim raced 3) as [b|] eqn:Eb; [|vm_compute in Eb; discriminate].
  refine (warm_sandbox_claimed_once "local" provider pools false provider_answers requests empty_world raced 1 3 a b start_cold raced_reached _ _ _); [discriminate| |].
  - revert Ea. vm_compute. by intros [= <-].
  - revert Eb. vm_compute. by intros [= <-].
Defined.

(** A session that is not there: its launch gives the sandbox back, which is destroyed and
    then taken off the record. *)
Definition destroying : warm_config := after (filled ++ turns_of 6 1 ++ turns_of 11 2).
Definition destroying_next : warm_config := default destroying (interleave destroying (map Turn [2])).
Lemma destroying_reached : rtc pool_step start destroying /\ rtc pool_step destroying destroying_next.
Proof.
  destruct (after_reached (filled ++ turns_of 6 1 ++ turns_of 11 2)) as [H Hm]; [vm_compute; reflexivity|]. split; [exact H|].
  apply (interleave_reaches destroying destroying_next (map Turn [2]) Hm). vm_compute. reflexivity.
Qed.
Definition retiring_member : WarmPoolMember := default (creating_member pools "" "" 0) (findMember (default no_pools (content "local" (wd destroying_next))) "sandbox-0000000000000002").
Lemma warm_destroy_safe_witness : destroyed "sandbox-0000000000000002" (wd destroying) /\
  pool_states destroying_next = Some [("sandbox-0000000000000000", WClaimed); ("sandbox-0000000000000002", WRetiring)] /\ wm_state retiring_member = WRetiring.
Proof.
  assert (Hd : destroyed "sandbox-0000000000000002" (wd destroying)) by (unfold destroyed; vm_compute; by left).
  split; [exact Hd|]. split; [vm_compute; reflexivity|].
  refine (warm_destroy_safe "local" provider pools false provider_answers requests empty_world destroying destroying_next "sandbox-0000000000000002"
            (default no_pools (content "local" (wd destroying_next))) "default" retiring_member start_cold (proj1 destroying_reached) Hd (proj2 destroying_reached) _ _ _).
  - vm_compute. reflexivity.
  - unfold lists. vm_compute. right. left.
  - vm_compute. reflexivity.
Defined.

Definition full : warm_config := after filled.
Lemma full_reached : rtc pool_step start full.
Proof. apply after_reached. vm_compute. reflexivity. Qed.
Lemma warm_pools_bounded_witness :
  pool_states full = Some [("sandbox-0000000000000000", WReady); ("sandbox-0000000000000002", WReady)] /\
  forall p, p ∈ wr_pools (default no_pools (content "local" (wd full))) -> (available p <= 2)%nat.
Proof.
  split; [vm_compute; reflexivity|].
  apply (warm_pools_bounded "local" provider pools false provider_answers requests empty_world full (default no_pools (content "local" (wd full))) start_cold full_reached).
  vm_compute. reflexivity.
Defined.
End WarmSample.
