(* ===== verification/SessionRetirer.v ===== *)
(** * Session teardown

    [packages/core/src/services/runtime/SessionRetirer.ts]: what ends a session's sandbox.
    A sandbox is known by its id.  The request to destroy one is a call of the world, which
    keeps it in its log and may fail with or without effect, as a provider's call may; the
    rest of the provider, the capture of a workspace and the pictures and snapshots taken
    of it are parameters.  Several processes of one sandbox are stopped in order.  Logs are
    not modelled. *)

From Stdlib Require Import ZArith Lia.
From S2P Require Import Prelude Constants Lifecycle Schema UtcDate Store Cas CasEffects Storage SessionData AppPoolRouter AppPool SessionService EditorClaims.

Definition RECLAIM_PROVISION_GRACE_MS : Z := minutes 15.
Definition RECLAIM_TEARDOWN_GRACE_MS : Z := minutes 15.

(** [RECLAIM_BLOCKED_REASONS] *)
Inductive ReclaimBlockedReason :=
| not_terminal | teardown_grace | provision_grace | attachment_unsupported | attachment_failed
| kernel_active | kernel_unreachable | destroy_failed | timeout.
#[export] Instance ReclaimBlockedReason_eq_dec : EqDecision ReclaimBlockedReason.
Proof. solve_decision. Defined.

Inductive ReclaimOutcome := Reclaimed (saved : bool) | NotReclaimed (reason : ReclaimBlockedReason).

Record ReclaimPlanOptions := {
  po_attachmentSupported : bool; po_save : option bool; po_requireIdle : bool; po_superseded : bool;
}.

(** ** The plan *)

Definition set_time (t : option Timestamp) : bool := match truthy t with Some _ => true | None => false end.
Definition persists_edits (s : Session) : bool := SessionState.sessionPersistsEdits (ses_mode s) (ses_ephemeral s).
Definition isStopping (s : Session) : bool := (ses_status s === Terminating) || set_time (ses_terminating_at s).
Definition isLivePersistingEditor (s : Session) : bool :=
  persists_edits s && ((ses_status s === Running) || (ses_status s === Starting)).

Definition marimo_ready (s : Session) : bool := (sf_status <$> surface_of s "marimo") === Some SfReady.

Definition reclaimCaptures (s : Session) (now : Z) (options : ReclaimPlanOptions) : bool :=
  negb (po_superseded options) &&
  (po_save options ?? ((ses_status s === Expired) || isStopping s)) &&
  negb (ses_status s === Failed) &&
  (marimo_ready s || match truthy (ses_sandbox_url s) with Some _ => true | None => false end) &&
  negb (isPastAuthorizationDeadline s now) &&
  persists_edits s.

Definition reclaimProbes (s : Session) (now : Z) (options : ReclaimPlanOptions) : bool :=
  po_requireIdle options && (ses_status s === Expired) && negb (isPastAuthorizationDeadline s now).

(** [now - Date.parse(t) < ms]; no answer for a text that is no time. *)
Definition within (now ms : Z) (t : Timestamp) : bool :=
  num_cmp Z.ltb ((fun e => now - e)%Z <$> date_parse t) (Some ms).

Definition has_sandbox (s : Session) : bool := match truthy (ses_sandbox_id s) with Some _ => true | None => false end.

Definition reclaimBlockedReason (s : Session) (now : Z) (options : ReclaimPlanOptions) : option ReclaimBlockedReason :=
  if negb (SessionState.isTerminal (ses_status s)) && negb (ses_status s === Terminating) then Some not_terminal
  else if set_time (ses_sandbox_reclaimed_at s) then None
  else if isStopping s && within now RECLAIM_TEARDOWN_GRACE_MS (ses_terminating_at s ?? ses_last_heartbeat s)
  then Some teardown_grace
  else if (ses_status s === Expired) && negb (isPastAuthorizationDeadline s now) && negb (marimo_ready s) &&
          within now RECLAIM_PROVISION_GRACE_MS (ses_started_at s)
  then Some provision_grace
  else if has_sandbox s && negb (po_attachmentSupported options) && (reclaimCaptures s now options || reclaimProbes s now options)
  then Some attachment_unsupported
  else None.

(** [sessionOwner] *)
Record SandboxOwner := { so_projectId : ProjectId; so_userId : option UserId }.
Definition sessionOwner (s : Session) : SandboxOwner := {| so_projectId := ses_project_id s; so_userId := Some (ses_user_id s) |}.

(** Events of the world's log: a session's sandbox is destroyed. *)
Definition destroy_event : string := "sandbox.destroy".

(** [Object.entries(current.surfaces)] that may still run *)
Definition may_run (status : SurfaceStatus) : bool :=
  (status === SfStarting) || (status === SfReady) || (status === SfStopping) || (status === SfFailed).
Definition secondary_surfaces (s : Session) : list string :=
  map fst (List.filter (fun e => negb (e.1 === "marimo") && may_run (sf_status e.2)) (ses_surfaces s ?? [])).

Section Retirer.
Context {B : Type} `{!EqDecision B}.
Context {CSe : Codec B Session} {CEd : Codec B EditorClaim} {CAc : Codec B AppClaim}.
Local Abbreviation V := (string * Session)%type (only parsing).
Local Notation prog := (prog B V).

(** [SandboxProvider] as the retirer uses it: a sandbox by its id, attached to without
    creating it where the provider can, and the result of a stop command run in it. *)
Record Compute := {
  co_create : SandboxId -> option SandboxOwner -> prog unit;
  co_connectExisting : option (SandboxId -> SandboxOwner -> prog unit);
  co_stopSurface : SandboxId -> SessionId -> string -> option string -> prog bool;
}.

Record CaptureOptions := { cp_persistEdits : bool; cp_includeWorkspace : bool }.

(** [SessionRetirerDeps] *)
Record RetirerDeps := {
  rd_compute : Compute;
  rd_captureSession : SandboxId -> Session -> CaptureOptions -> prog bool;
  (** [captureThumbnail] of the session's workspace by a deadline, [None] for none *)
  rd_captureThumbnail : SandboxId -> Session -> option Z -> prog unit;
  rd_captureFilesystemSnapshot : SandboxId -> Session -> prog unit;
  rd_automaticThumbnails : bool;
  rd_thumbnailDeadline : prog (option Z);
  rd_probe : SandboxId -> Session -> prog (option Z);
}.

Context (deps : RetirerDeps) (fuel : nat).
Local Notation compute := (rd_compute deps).

Definition when (b : bool) (p : prog unit) : prog unit := if b then p else mret tt.

(** [sandbox.destroy()] *)
Definition destroy (event : string) (id : SandboxId) : prog unit := call (OAudit event id).

(** The record of a session is marked, whatever comes of it. *)
Definition mark_terminated (s : Session) : prog unit :=
  handle (markTerminated (ses_project_id s) (ses_session_id s)) (fun _ => mret tt).
Definition mark_reclaimed (s : Session) : prog Session :=
  now ← nowIso; markSandboxReclaimed (ses_project_id s) (ses_session_id s) now None.
Definition try_mark_reclaimed (s : Session) : prog unit := handle (mark_reclaimed s) (fun _ => mret tt).

(** [destroySandbox] *)
Definition destroySandbox (s : Session) (attached : bool) : prog bool :=
  match truthy (ses_sandbox_id s) with
  | None => mret true
  | Some id =>
      handle (when (negb attached) (co_create compute id (Some (sessionOwner s))) ≫= fun _ => destroy destroy_event id)
        (fun r => mret (is_ok r))
  end.

(** *** Stopping what else writes to the workspace *)

Fixpoint begin_stops (s : Session) (surfaces : list string) : prog (list (option (error V))) :=
  match surfaces with
  | [] => mret []
  | id :: surfaces =>
      handle (begin_surface_stop (ses_project_id s) (ses_session_id s) id) (fun r =>
        rest ← begin_stops s surfaces;
        mret (match r with Ok _ => None | Err e => Some e end :: rest))
  end.
Fixpoint stop_processes (sandbox : SandboxId) (s fenced : Session) (surfaces : list string) : prog (list bool) :=
  match surfaces with
  | [] => mret []
  | id :: surfaces =>
      let cancelled := surface_of fenced id ≫= sf_cancelled_attempt_id in
      handle (co_stopSurface compute sandbox (ses_session_id s) id (truthy cancelled)) (fun r =>
        rest ← stop_processes sandbox s fenced surfaces;
        mret (match r with Ok success => success | Err _ => false end :: rest))
  end.

(** [stopSecondarySurfaces]: [false] for a [SecondarySurfaceStopError]. *)
Definition stopSecondarySurfaces (sandbox : SandboxId) (s : Session) : prog bool :=
  current ← getSession (ses_project_id s) (ses_session_id s);
  match secondary_surfaces current with
  | [] => mret true
  | surfaces =>
      failures ← begin_stops s surfaces;
      match omap id failures with
      | e :: _ => Throw e
      | [] =>
          fenced ← getSession (ses_project_id s) (ses_session_id s);
          stopped ← stop_processes sandbox s fenced surfaces;
          mret (forallb id stopped)
      end
  end.
Definition SecondarySurfaceStopError : error V := JsError "Failed to stop a surface before session retirement".

(** *** Capture and destruction *)

Definition opt_min (a b : option Z) : option Z :=
  match a, b with Some x, Some y => Some (Z.min x y) | Some x, None => Some x | None, _ => b end.

Definition captureSavedArtifacts (sandbox : SandboxId) (s : Session) (thumbnailDeadlineAt : option Z) : prog unit :=
  when (rd_automaticThumbnails deps && has_sandbox s)
    (deadline ← rd_thumbnailDeadline deps; rd_captureThumbnail deps sandbox s (opt_min thumbnailDeadlineAt deadline)) ≫= fun _ =>
  rd_captureFilesystemSnapshot deps sandbox s.

(** The capture before a destruction: whether anything was saved. *)
Definition try_capture (sandbox : SandboxId) (s : Session) : prog bool :=
  catch
    (persistEdits ← (if persists_edits s then ownsEditorClaim fuel s else mret false);
     rd_captureSession deps sandbox s {| cp_persistEdits := persistEdits; cp_includeWorkspace := true |})
    (fun _ => mret false).

Record Teardown := { td_destroyed : bool; td_saved : bool }.

Definition teardownSandbox (s : Session) (captureBeforeDestroy : bool) (thumbnailDeadlineAt : option Z) (attached : bool)
    : prog Teardown :=
  match truthy (ses_sandbox_id s) with
  | None => mret {| td_destroyed := true; td_saved := false |}
  | Some sandbox =>
      when (negb attached) (co_create compute sandbox (Some (sessionOwner s))) ≫= fun _ =>
      stopped ← stopSecondarySurfaces sandbox s;
      persisted ← (if captureBeforeDestroy && stopped then try_capture sandbox s else mret false);
      when persisted (captureSavedArtifacts sandbox s thumbnailDeadlineAt) ≫= fun _ =>
      destroyed ← destroySandbox s true;
      mret {| td_destroyed := destroyed; td_saved := persisted |}
  end.

(** ** Retirement *)

Record RetireOptions := {
  ro_teardown : bool; ro_markTerminated : bool; ro_captureBeforeDestroy : bool; ro_thumbnailDeadlineAt : option Z;
}.

Definition retire (s : Session) (opts : RetireOptions) : prog unit :=
  if negb (ro_teardown opts) && (ses_status s === Terminating) then mret tt
  else
    sandboxDestroyed ←
      (if ro_teardown opts then t ← teardownSandbox s (ro_captureBeforeDestroy opts) (ro_thumbnailDeadlineAt opts) false; mret (td_destroyed t)
       else mret (negb (has_sandbox s)));
    when (ro_markTerminated opts) (mark_terminated s) ≫= fun _ =>
    releaseAppFor s ≫= fun _ =>
    if sandboxDestroyed : bool then
      when (ro_teardown opts && has_sandbox s) (try_mark_reclaimed s) ≫= fun _ =>
      releaseEditorFor s
    else mret tt.

(** ** Reclamation *)

Definition finishReclaim (s : Session) : prog unit :=
  when (isStopping s) (mark_terminated s) ≫= fun _ =>
  when (negb (set_time (ses_sandbox_reclaimed_at s))) (try_mark_reclaimed s) ≫= fun _ =>
  releaseAppFor s ≫= fun _ =>
  releaseEditorFor s.

Definition supersededByLiveEditor (s : Session) : prog bool :=
  siblings ← listByProject fuel (ses_project_id s) (Some (ses_notebook_id s));
  mret (existsb (fun other => negb (ses_session_id other === ses_session_id s) && isLivePersistingEditor other) siblings).

Record ReclaimOptions := { rc_save : option bool; rc_thumbnailDeadlineAt : option Z; rc_requireIdle : bool }.

Definition plan_options (opts : ReclaimOptions) (superseded : bool) : ReclaimPlanOptions := {|
  po_attachmentSupported := match co_connectExisting compute with Some _ => true | None => false end;
  po_save := rc_save opts; po_requireIdle := rc_requireIdle opts; po_superseded := superseded;
|}.

(** Whether a live editor has taken over, asked only when it can change the plan. *)
Definition superseded_now (s : Session) (now : Z) (opts : ReclaimOptions) : prog bool :=
  let blocked := reclaimBlockedReason s now (plan_options opts false) in
  if ((blocked === None) || (blocked === Some attachment_unsupported)) && negb (set_time (ses_sandbox_reclaimed_at s)) &&
     reclaimCaptures s now (plan_options opts false)
  then supersededByLiveEditor s else mret false.

(** Attaching to the sandbox: [Some tt] when attached, [None] when it is gone. *)
Inductive Attached := NotNeeded | Attached_ | GoneAlready | AttachFailed.
Definition attach_sandbox (s : Session) (needed : bool) : prog Attached :=
  match truthy (ses_sandbox_id s), needed with
  | Some id, true =>
      handle (match co_connectExisting compute with Some connect => connect id (sessionOwner s) | None => Throw TypeError end) (fun r =>
        mret (match r with
              | Ok _ => Attached_
              | Err (NotFoundError _) => GoneAlready
              | Err _ => AttachFailed
              end))
  | _, _ => mret NotNeeded
  end.

(** What the kernel answers: an outcome, or the end of a sandbox that is gone. *)
Inductive Probed := ProbeIdle | ProbeBlocked (reason : ReclaimBlockedReason) | ProbeGone.
Definition probe_kernel (s : Session) (sandbox : SandboxId) : prog Probed :=
  handle (rd_probe deps sandbox s) (fun r =>
    match r with
    | Ok None => mret (ProbeBlocked kernel_unreachable)
    | Ok (Some active) => mret (if (active =? 0)%Z then ProbeIdle else ProbeBlocked kernel_active)
    | Err (NotFoundError _) => mret ProbeGone
    | Err e => Throw e
    end).

Definition destroy_and_finish (s : Session) (attached : bool) : prog ReclaimOutcome :=
  destroyed ← destroySandbox s attached;
  if destroyed : bool then finishReclaim s ≫= fun _ => mret (Reclaimed false) else mret (NotReclaimed destroy_failed).

(** The part of [reclaim] that may destroy. *)
Definition reclaim_sandbox (s : Session) (capture attached : bool) (thumbnailDeadlineAt : option Z) : prog ReclaimOutcome :=
  if capture && attached then
    t ← teardownSandbox s true thumbnailDeadlineAt true;
    if td_destroyed t then finishReclaim s ≫= fun _ => mret (Reclaimed (td_saved t)) else mret (NotReclaimed destroy_failed)
  else destroy_and_finish s attached.

Definition reclaim_planned (s : Session) (now : Z) (opts : ReclaimOptions) (superseded : bool) : prog ReclaimOutcome :=
  let capture := reclaimCaptures s now (plan_options opts superseded) in
  let probe := reclaimProbes s now (plan_options opts superseded) in
  attached ← attach_sandbox s (capture || probe);
  match attached with
  | GoneAlready => finishReclaim s ≫= fun _ => mret (Reclaimed false)
  | AttachFailed => mret (NotReclaimed attachment_failed)
  | NotNeeded => reclaim_sandbox s capture false (rc_thumbnailDeadlineAt opts)
  | Attached_ =>
      probed ← (if probe then probe_kernel s (ses_sandbox_id s ?? "") else mret ProbeIdle);
      match probed with
      | ProbeGone => destroy_and_finish s true
      | ProbeBlocked reason => mret (NotReclaimed reason)
      | ProbeIdle => reclaim_sandbox s capture true (rc_thumbnailDeadlineAt opts)
      end
  end.

Definition reclaim (selected : Session) (opts : ReclaimOptions) : prog ReclaimOutcome :=
  session ← getSession (ses_project_id selected) (ses_session_id selected);
  now ← now_ms;
  superseded ← superseded_now session now opts;
  match reclaimBlockedReason session now (plan_options opts superseded) with
  | Some reason => mret (NotReclaimed reason)
  | None =>
      if set_time (ses_sandbox_reclaimed_at session) then finishReclaim session ≫= fun _ => mret (Reclaimed false)
      else reclaim_planned session now opts superseded
  end.

(** ** Takeover *)

(** The lease callbacks of [teardownForTakeover]; without a lease they do nothing.
    [n] numbers the checks. *)
Record DrainLease := { dl_assert : nat -> prog unit; dl_advance : nat -> TakeoverDrainStage -> prog unit }.
Definition no_lease : DrainLease := {| dl_assert := fun _ => mret tt; dl_advance := fun _ _ => mret tt |}.

Definition capture_for_takeover (lease : DrainLease) (sandbox : SandboxId) (s : Session) : prog unit :=
  persisted ← rd_captureSession deps sandbox s {| cp_persistEdits := true; cp_includeWorkspace := true |};
  dl_assert lease 0 ≫= fun _ =>
  when persisted
    (dl_advance lease 1 Snapshotting ≫= fun _ =>
     captureSavedArtifacts sandbox s None ≫= fun _ =>
     dl_assert lease 2) ≫= fun _ =>
  now ← nowIso;
  markTakeoverCaptureCompleted (ses_project_id s) (ses_session_id s) now ≫= fun _ => mret tt.

Definition teardownForTakeover (s : Session) (lease : DrainLease) : prog unit :=
  match truthy (ses_sandbox_id s) with
  | None => mret tt
  | Some sandbox =>
      if set_time (ses_sandbox_reclaimed_at s) then mret tt
      else
        co_create compute sandbox (Some (sessionOwner s)) ≫= fun _ =>
        stopped ← stopSecondarySurfaces sandbox s;
        if negb stopped then Throw SecondarySurfaceStopError
        else
          when (negb (set_time (ses_takeover_capture_completed_at s))) (capture_for_takeover lease sandbox s) ≫= fun _ =>
          dl_advance lease 3 Destroying ≫= fun _ =>
          dl_assert lease 4 ≫= fun _ =>
          destroy destroy_event sandbox ≫= fun _ =>
          dl_assert lease 5 ≫= fun _ =>
          mark_reclaimed s ≫= fun _ =>
          dl_advance lease 6 Finalizing
  end.

(** [TakeoverRetirementError]: its cause, and whether the drain had started. *)
Definition TakeoverFailure : Type := error V * bool.
Definition retireForTakeover (s : Session) (requestedBy : UserId) : prog (result TakeoverFailure unit) :=
  handle
    ('(transitioned, terminating) ← beginTerminating (ses_project_id s) (ses_session_id s) (Some requestedBy);
     if transitioned : bool then mret terminating
     else Throw (ConflictError "Another request already started terminating the editor session"))
    (fun r =>
       match r with
       | Err e => mret (Err (e, false))
       | Ok terminating =>
           handle (teardownForTakeover terminating no_lease ≫= fun _ =>
                   markTerminated (ses_project_id s) (ses_session_id s) ≫= fun _ => mret tt)
             (fun r => mret (match r with Ok _ => Ok tt | Err e => Err (e, true) end))
       end).

Definition lease_lost : error V := ConflictError "The takeover drain lease is no longer owned by this request".
(** The callbacks under a lease.  The timer renews it meanwhile: its renewals are requests
    of their own, and [lost n] is what they have told this one by its [n]th check. *)
Definition drain_lease (lost : nat -> bool) (pid : ProjectId) (nid : NotebookId) (takeoverId leaseId : string) : DrainLease := {|
  dl_assert n :=
    if lost n then Throw lease_lost
    else renewed ← renewTakeoverDrainLease pid nid takeoverId leaseId; if renewed : bool then mret tt else Throw lease_lost;
  dl_advance n stage :=
    if lost n then Throw lease_lost
    else advanced ← advanceTakeoverDrainLease pid nid takeoverId leaseId stage; if advanced : bool then mret tt else Throw lease_lost;
|}.

Definition completeTakeoverDrain (lost : nat -> bool) (s : Session) (takeoverId leaseId : string) : prog bool :=
  let pid := ses_project_id s in let nid := ses_notebook_id s in
  acquired ← acquireTakeoverDrainLease pid nid takeoverId leaseId;
  if negb acquired then mret false
  else
    let lease := drain_lease lost pid nid takeoverId leaseId in
    handle
      (current ← getSession pid (ses_session_id s);
       teardownForTakeover current lease ≫= fun _ =>
       dl_assert lease 7 ≫= fun _ =>
       markTerminated pid (ses_session_id s) ≫= fun _ =>
       finishTakeoverDrainLease pid nid takeoverId leaseId)
      (fun r =>
         match r with
         | Ok _ => mret true
         | Err e => releaseTakeoverDrainLease pid nid takeoverId leaseId ≫= fun _ => Throw e
         end).

(** ** Its clients *)

(** The explicit stop, as the API retires an app ([api/src/shared.ts]). *)
Definition default_retire (teardown : bool) : RetireOptions := {|
  ro_teardown := teardown; ro_markTerminated := true; ro_captureBeforeDestroy := true; ro_thumbnailDeadlineAt := None |}.
Definition stop_and_retire (pid : ProjectId) (id : SessionId) : prog unit :=
  '(transitioned, session) ← beginTerminating pid id None;
  retire session (default_retire transitioned).

(** [SessionLifecycleService.gracefulTeardown] *)
Definition gracefulTeardown (s : Session) (captureBeforeDestroy : bool) (thumbnailDeadlineAt : option Z) : prog bool :=
  handle (beginTerminating (ses_project_id s) (ses_session_id s) None) (fun r =>
    match r with
    | Ok (true, _) =>
        retire s {| ro_teardown := true; ro_markTerminated := true; ro_captureBeforeDestroy := captureBeforeDestroy;
                    ro_thumbnailDeadlineAt := thumbnailDeadlineAt |} ≫= fun _ => mret true
    | _ => mret false
    end).
End Retirer.
