(* ===== verification/DiagnosticLease.v ===== *)
(** * Sandbox diagnostic leases

    [packages/core/src/services/runtime/SandboxDiagnosticLease.ts]: a user's diagnostic
    sandbox, one at a time, which keeps it from being taken for an orphan. *)

From Stdlib Require Import ZArith Lia.
From S2P Require Import Prelude Schema UtcDate Store Keys Cas CasEffects Storage SessionData AppPoolRouter AppPool SessionService.

Definition sandboxDiagnosticLeasesPrefix : string := "_system/sandbox-diagnostics/".
Definition sandboxDiagnosticLease (userId : UserId) : key :=
  sandboxDiagnosticLeasesPrefix +:+ encodeURIComponent userId +:+ ".json".

(** [SandboxDiagnosticLeaseSchema] *)
Record SandboxDiagnosticLeaseRecord := { dg_sandbox_id : option SandboxId; dg_expires_at : option Timestamp }.
Definition diagnostic_schema (r : SandboxDiagnosticLeaseRecord) : bool :=
  match dg_sandbox_id r, dg_expires_at r with
  | Some id, Some t => is_id "sb" id && utcTimestamp t
  | None, None => true
  | _, _ => false
  end.
Definition releasedRecord : SandboxDiagnosticLeaseRecord := {| dg_sandbox_id := None; dg_expires_at := None |}.

(** The sandbox a record still protects. *)
Definition leased (now : Z) (r : SandboxDiagnosticLeaseRecord) : option SandboxId :=
  match dg_sandbox_id r, dg_expires_at r with
  | Some id, Some t => if num_cmp Z.ltb (Some now) (date_parse t) then Some id else None
  | _, _ => None
  end.

Section Diagnostics.
Context {B : Type} {CL : Codec B SandboxDiagnosticLeaseRecord}.
Local Abbreviation V := (string * Session)%type (only parsing).

Definition acquire_diagnostic_attempt (k : key) (sandboxId : SandboxId) (now ttlMs : Z) : prog B V bool :=
  let body := stringify {| dg_sandbox_id := Some sandboxId; dg_expires_at := Some (toISOString (now + ttlMs)) |} in
  existing ← call (OGet k);
  match existing with
  | None => cas_put k body onlyIfNotExists ≫= fun _ => mret true
  | Some o =>
      match parse (o_body o) ≫= leased now with
      | Some _ => mret false
      | None => cas_put k body (onlyIfEtagMatches (o_etag o)) ≫= fun _ => mret true
      end
  end.
Definition acquire_diagnostic (userId : UserId) (sandboxId : SandboxId) (ttlMs : Z) : prog B V bool :=
  now ← now_ms;
  withCasRetry (acquire_diagnostic_attempt (sandboxDiagnosticLease userId) sandboxId now ttlMs) no_retry_options.

Definition diagnostic_claim (userId : UserId) : SingletonClaimConfig (B := B) (V := V) := {|
  claim_key := sandboxDiagnosticLease userId;
  serialize := fun _ => stringify releasedRecord;
  parseHolder := fun b => match parse b with
                          | Some r => Ok (dg_sandbox_id r)
                          | None => Err (StoredObjectError (sandboxDiagnosticLease userId))
                          end;
  isHolderLive := fun _ => mret false;
  claim_retry := no_retry_options;
|}.
Definition release_diagnostic (userId : UserId) (sandboxId : SandboxId) : prog B V unit :=
  releaseSingletonClaim (diagnostic_claim userId) sandboxId None.

(** A record that cannot be read fails the whole answer. *)
Fixpoint active_of (now : Z) (keys : list key) : prog B V (list SandboxId) :=
  match keys with
  | [] => mret []
  | k :: keys =>
      object ← call (OGet k);
      match object with
      | None => active_of now keys
      | Some o =>
          record ← readStored (T := SandboxDiagnosticLeaseRecord) o k;
          rest ← active_of now keys;
          mret (match leased now record with Some id => id :: rest | None => rest end)
      end
  end.
Definition activeSandboxIds (fuel : nat) (now : Z) : prog B V (list SandboxId) :=
  keys ← listAllKeys fuel sandboxDiagnosticLeasesPrefix;
  ids ← active_of now keys;
  mret (js_set ids).
End Diagnostics.
