(* ===== verification/Reconciliation.v ===== *)
(** * Reconciliation

    [packages/core/src/services/runtime/ReconciliationService.ts]: the sweep that reclaims
    what ended sessions left behind, marks sessions whose sandbox has vanished, and destroys
    sandboxes nobody owns.  Candidates are worked on in order.  An attempt to reclaim that
    outlives its budget goes on as a request of its own; [late] says which do, [inFlight]
    which of earlier sweeps still do.  Logs are not modelled. *)

From Stdlib Require Import ZArith Lia Ascii.
From S2P Require Import Prelude Constants Lifecycle Schema UtcDate Store Keys Cas CasEffects Storage SessionData AppPoolRouter AppPool SessionService EditorClaims SessionRetirer WarmPools DiagnosticLease.

Definition DEFAULT_ORPHAN_GRACE_MS : Z := minutes 15.
Definition THUMBNAIL_MAINTENANCE_BUDGET_MS : Z := 3000.

(** ** Markers of orphans *)

Definition reconcileOrphansPrefix : string := "_system/reconcile/orphans/".
Definition reconcileOrphan (sandboxId : SandboxId) : key := reconcileOrphansPrefix +:+ encodeURIComponent sandboxId +:+ ".json".
(** [OrphanMarkerSchema] *)
Record OrphanMarker := { om_first_seen : Z }.

(** The sandbox of a listed marker *)
Definition orphan_of (k : key) : option string :=
  match startsWith reconcileOrphansPrefix k with Some rest => decodeURIComponent (strip_json rest) | None => None end.

(** ** Results *)

(** [Math.max] of ages, [None] inside for [NaN]. *)
Definition max_age (old : option (option Z)) (age : option Z) : option (option Z) :=
  Some (match old ?? Some 0%Z, age with Some a, Some b => Some (Z.max a b) | _, _ => None end).
Record ReclaimTally := { rt_reclaimed : nat; rt_unreclaimedTerminal : nat; rt_oldestUnreclaimedAgeMs : option (option Z) }.
Definition no_tally : ReclaimTally := {| rt_reclaimed := 0; rt_unreclaimedTerminal := 0; rt_oldestUnreclaimedAgeMs := None |}.
Record ReconcileResult := {
  rr_skipped : bool;
  rr_reclaim : ReclaimTally;
  rr_markedDeadSessions : list Session;
  rr_orphanSandboxIds : list SandboxId;
}.

(** [ActiveSandbox] and [ActiveSandboxSource] *)
Record ActiveSandbox := { av_id : SandboxId; av_createdAt : option Timestamp }.
Record RunOwner := { ow_sandbox_id : option SandboxId; ow_status : RunState.RunStatus }.

Definition orphan_event : string := "orphan.destroy".

Section Reconciliation.
Context {B : Type} `{!EqDecision B}.
Context {CSe : Codec B Session} {CEd : Codec B EditorClaim} {CAc : Codec B AppClaim} {CP : Codec B AppPool}.
Context {CW : Codec B WarmPoolRecord} {CL : Codec B SandboxDiagnosticLeaseRecord} {CO : Codec B OrphanMarker}.
Local Abbreviation V := (string * Session)%type (only parsing).
Local Notation prog := (prog B V).

Inductive ActiveSandboxSource :=
| ListActiveSnapshot (read : prog (list (option RunOwner) * bool))
| ListActive (read : prog (list (option RunOwner)))
| ActiveIds (read : prog (list string)).

Context (deps : RetirerDeps (B := B)) (fuel : nat).
Context (listActive : option (prog (list ActiveSandbox))) (jobRuns : option ActiveSandboxSource).
Context (late inFlight : SessionId -> bool).
(** [new Date(t).getTime()] of a provider's time, [None] for [NaN] *)
Context (getTime : string -> option Z).

(** ** Terminal sessions *)

Definition reclaim_candidate (s : Session) : bool :=
  has_sandbox s && (SessionState.isTerminal (ses_status s) || (ses_status s === Terminating)).

Definition reclaim_one (thumbnailDeadlineAt : option Z) (s : Session) (tally : ReclaimTally) : prog ReclaimTally :=
  handle (if inFlight (ses_session_id s) || late (ses_session_id s) then mret (NotReclaimed timeout)
          else reclaim deps fuel s {| rc_save := None; rc_thumbnailDeadlineAt := thumbnailDeadlineAt; rc_requireIdle := true |})
    (fun r =>
       let marked := set_time (ses_sandbox_reclaimed_at s) in
       match r with
       | Ok (Reclaimed _) =>
           mret {| rt_reclaimed := if marked then rt_reclaimed tally else S (rt_reclaimed tally);
                   rt_unreclaimedTerminal := rt_unreclaimedTerminal tally;
                   rt_oldestUnreclaimedAgeMs := rt_oldestUnreclaimedAgeMs tally |}
       | _ =>
           if marked then mret tally
           else
             now ← now_ms;
             mret {| rt_reclaimed := rt_reclaimed tally; rt_unreclaimedTerminal := S (rt_unreclaimedTerminal tally);
                     rt_oldestUnreclaimedAgeMs := max_age (rt_oldestUnreclaimedAgeMs tally) (silence now s) |}
       end).
Fixpoint reclaim_each (thumbnailDeadlineAt : option Z) (l : list Session) (tally : ReclaimTally) : prog ReclaimTally :=
  match l with
  | [] => mret tally
  | s :: l => tally ← reclaim_one thumbnailDeadlineAt s tally; reclaim_each thumbnailDeadlineAt l tally
  end.
Definition reclaimTerminalSessions (thumbnailDeadlineAt : option Z) : prog ReclaimTally :=
  sessions ← listSessions fuel None;
  reclaim_each thumbnailDeadlineAt (List.filter reclaim_candidate sessions) no_tally.

(** ** Ownership *)

Definition run_sandboxes (owners : list RunOwner) : list string :=
  omap (fun o => match truthy (ow_sandbox_id o) with
                 | Some id => if RunState.isTerminalRunStatus (ow_status o) then None else Some id
                 | None => None
                 end) owners.
Definition incomplete : error V := JsError "Active job-run ownership is incomplete".
Definition known_runs (entries : list (option RunOwner)) : prog (list string) :=
  if existsb (fun e => match e with None => true | Some _ => false end) entries then Throw incomplete
  else mret (run_sandboxes (omap id entries)).
(** The sandboxes of active runs; a throw when that is not known completely. *)
Definition job_sandboxes : prog (list string) :=
  match jobRuns with
  | None => mret []
  | Some (ListActiveSnapshot read) => '(entries, complete) ← read; if complete : bool then known_runs entries else Throw incomplete
  | Some (ListActive read) => entries ← read; known_runs entries
  | Some (ActiveIds read) => read
  end.

(** The ids somebody owns; [None] when some owner cannot be read. *)
Definition owned_ids (diagnostics : list SandboxId) (sessions : list Session) : prog (option (list string)) :=
  handle (allOwnedSandboxIds fuel) (fun warm =>
    handle job_sandboxes (fun runs =>
      mret (match warm, runs with
            | Ok warm, Ok runs => Some (diagnostics ++ omap (fun s => truthy (ses_sandbox_id s)) sessions ++ warm ++ runs)
            | _, _ => None
            end))).

(** ** Sessions whose sandbox has vanished *)

(** The pool reader, which remembers failures too. *)
Definition read_pool_settled (projectId : ProjectId) (notebookId : NotebookId) (seen : list (key * result (error V) (option AppPool)))
    : prog (result (error V) (option AppPool) * list (key * result (error V) (option AppPool))) :=
  match obj_get (appPool projectId notebookId) seen with
  | Some r => mret (r, seen)
  | None => handle (AppPool.read projectId notebookId) (fun r => mret (r, (appPool projectId notebookId, r) :: seen))
  end.

Definition vanished (activeIds : list string) (s : Session) : bool :=
  match truthy (ses_sandbox_id s) with
  | Some id => ((ses_status s === Running) || (ses_status s === Starting)) && negb (includes id activeIds)
  | None => false
  end.
Definition booting (now : Z) (s : Session) (P : AppPool) : bool :=
  existsb (fun m => (m_session_id m === ses_session_id s) && (m_state m === MStarting) && (now <? m_operation_expires_at m)%Z) (members P).

Definition mark_failed_dead (s : Session) : prog bool :=
  transitioned ← handle (markFailedWithOutcome (ses_project_id s) (ses_session_id s) None)
    (fun r => mret (match r with Ok (_, transitioned) => transitioned | Err _ => false end));
  releaseAppFor s ≫= fun _ => mret transitioned.

Definition mark_dead (now : Z) (activeIds : list string) (s : Session) (seen : list (key * result (error V) (option AppPool)))
    : prog (bool * list (key * result (error V) (option AppPool))) :=
  if negb (vanished activeIds s) then mret (false, seen)
  else if (ses_status s === Starting) && within now RECLAIM_PROVISION_GRACE_MS (ses_started_at s) then mret (false, seen)
  else
    '(r, seen) ← (if (ses_app_pool s ?? false) && (ses_status s === Starting)
                  then read_pool_settled (ses_project_id s) (ses_notebook_id s) seen
                  else mret (Ok None, seen));
    match r with
    | Err _ => mret (false, seen)
    | Ok pool =>
        if match pool with Some P => booting now s P | None => false end then mret (false, seen)
        else dead ← catch (mark_failed_dead s) (fun _ => mret false); mret (dead, seen)
    end.
Fixpoint mark_dead_each (now : Z) (activeIds : list string) (l : list Session) (seen : list (key * result (error V) (option AppPool)))
    : prog (list Session) :=
  match l with
  | [] => mret []
  | s :: l =>
      '(dead, seen) ← mark_dead now activeIds s seen;
      rest ← mark_dead_each now activeIds l seen;
      mret (if dead : bool then s :: rest else rest)
  end.

(** ** Orphans *)

Definition firstSeenOrphan (sandboxId : SandboxId) (now : Z) : prog Z :=
  let k := reconcileOrphan sandboxId in
  existing ← call (OGet k);
  let fresh : prog Z := handle (call (OPut k (stringify {| om_first_seen := now |}) Always)) (fun _ => mret now) in
  match existing ≫= fun o => parse (o_body o) with
  | Some marker => if (om_first_seen marker <=? now)%Z then mret (om_first_seen marker) else fresh
  | None => fresh
  end.

(** The age of a sandbox, and whether only its marker tells it. *)
Definition orphan_age (now : Z) (sandbox : ActiveSandbox) : prog (option Z * bool) :=
  match truthy (av_createdAt sandbox) with
  | Some createdAt => mret ((fun t => now - t)%Z <$> getTime createdAt, false)
  | None => firstSeen ← firstSeenOrphan (av_id sandbox) now; mret (Some (now - firstSeen)%Z, true)
  end.

(** Destroyed and its marker removed; a failure is left for a later sweep. *)
Definition reap_orphan (id : SandboxId) : prog bool :=
  handle (co_create (rd_compute deps) id None ≫= fun _ => destroy orphan_event id) (fun r =>
    match r with
    | Ok _ => handle (call (ODelete [reconcileOrphan id])) (fun _ => mret true)
    | Err _ => mret false
    end).

(** The orphans reaped, and the undated ones still pending. *)
Fixpoint reap_orphans (now orphanGraceMs : Z) (owned : list string) (l : list ActiveSandbox) (pending : list string)
    : prog (list SandboxId * list string) :=
  match l with
  | [] => mret ([], pending)
  | sandbox :: l =>
      if includes (av_id sandbox) owned then reap_orphans now orphanGraceMs owned l pending
      else
        '(ageMs, undated) ← orphan_age now sandbox;
        let pending := if undated : bool then av_id sandbox :: pending else pending in
        if num_cmp Z.ltb ageMs (Some orphanGraceMs) then reap_orphans now orphanGraceMs owned l pending
        else
          reaped ← reap_orphan (av_id sandbox);
          let pending := if reaped : bool then List.filter (fun x => negb (x === av_id sandbox)) pending else pending in
          '(ids, pending) ← reap_orphans now orphanGraceMs owned l pending;
          mret (if reaped : bool then av_id sandbox :: ids else ids, pending)
  end.

(** The markers no longer pending; a name that does not decode fails the sweep. *)
Fixpoint stale_markers (keep : list string) (keys : list key) : prog (list key) :=
  match keys with
  | [] => mret []
  | k :: keys =>
      match orphan_of k with
      | None => Throw (JsError "URI malformed")
      | Some id => rest ← stale_markers keep keys; mret (if includes id keep then rest else k :: rest)
      end
  end.
Definition pruneOrphanMarkers (keep : list string) : prog unit :=
  keys ← catch (listAllKeys fuel reconcileOrphansPrefix) (fun _ => mret []);
  stale ← stale_markers keep keys;
  match stale with
  | [] => mret tt
  | _ => handle (call (ODelete stale)) (fun _ => mret tt)
  end.

(** ** The sweep *)

Definition reap_unowned (now orphanGraceMs : Z) (owned : option (list string)) (active : list ActiveSandbox) : prog (list SandboxId) :=
  match owned with
  | None => mret []
  | Some owned =>
      '(ids, pending) ← reap_orphans now orphanGraceMs owned active [];
      pruneOrphanMarkers pending ≫= fun _ => mret ids
  end.

Definition reconcile (orphanGraceMs : option Z) : prog ReconcileResult :=
  started ← now_ms;
  tally ← reclaimTerminalSessions (Some (started + THUMBNAIL_MAINTENANCE_BUDGET_MS)%Z);
  match listActive with
  | None => mret {| rr_skipped := true; rr_reclaim := tally; rr_markedDeadSessions := []; rr_orphanSandboxIds := [] |}
  | Some listActive =>
      now ← now_ms;
      active ← listActive;
      sessions ← listSessions fuel None;
      diagnostics ← activeSandboxIds fuel now;
      owned ← owned_ids diagnostics sessions;
      dead ← mark_dead_each now (map av_id active) sessions [];
      orphans ← reap_unowned now (orphanGraceMs ?? DEFAULT_ORPHAN_GRACE_MS) owned active;
      mret {| rr_skipped := false; rr_reclaim := tally; rr_markedDeadSessions := dead; rr_orphanSandboxIds := orphans |}
  end.
End Reconciliation.

(** ** Laws of the markers *)

Lemma orphan_of_marker id : utf8_text id = true -> orphan_of (reconcileOrphan id) = Some id.
Proof.
  intros Hid. unfold orphan_of, reconcileOrphan. rewrite startsWith_app, strip_json_app. by apply decode_encode.
Qed.
