(* ===== verification/SessionSweep.v ===== *)
(** * The session lifecycle sweep

    [packages/core/src/services/runtime/sessionLifecycle.ts]: driven by the records alone,
    it reaps sessions at their deadlines and idle ones, slides the deadline of sessions in
    use, reclaims what expired sessions left, and saves live editors now and then.  The
    candidates are worked on in order; each one's failure is its own. *)

From Stdlib Require Import ZArith Lia.
From S2P Require Import Prelude Constants Lifecycle Schema UtcDate Store Cas CasEffects Storage SessionData AppPoolRouter AppPool SessionService EditorClaims RateLimit SessionRetirer Events WarmPools DiagnosticLease Reconciliation.

Definition CONNECTION_COUNT_REFRESH_MS : Z := minutes 5.

(** [SessionLifecycleConfig], the parts the retirer does not take *)
Record SessionLifecycleConfig := {
  lc_idleTimeoutMsByMode : SessionMode -> Z;
  lc_snapshotIntervalMs : Z;
  lc_extensionMs : Z;
  lc_connectionAware : bool;
}.

Record SweepResult := {
  sw_snapshotted : nat; sw_extended : nat; sw_reapedExpired : nat; sw_reapedIdle : nat; sw_reclaimed : nat;
}.
#[export] Instance SweepResult_settable : Settable SweepResult := fun r =>
  Build_SweepResult (sw_snapshotted r) (sw_extended r) (sw_reapedExpired r) (sw_reapedIdle r) (sw_reclaimed r).
Definition swept_nothing : SweepResult :=
  {| sw_snapshotted := 0; sw_extended := 0; sw_reapedExpired := 0; sw_reapedIdle := 0; sw_reclaimed := 0 |}.
Definition add_swept (a b : SweepResult) : SweepResult := {|
  sw_snapshotted := sw_snapshotted a + sw_snapshotted b; sw_extended := sw_extended a + sw_extended b;
  sw_reapedExpired := sw_reapedExpired a + sw_reapedExpired b; sw_reapedIdle := sw_reapedIdle a + sw_reapedIdle b;
  sw_reclaimed := sw_reclaimed a + sw_reclaimed b;
|}.

Section Facts.
Context (cfg : SessionLifecycleConfig) (now : Z).

(** ** What the sweep sees of a session *)

Definition sweep_candidate (s : Session) : bool :=
  has_sandbox s &&
  ((ses_status s === Running) || (SessionState.isTerminal (ses_status s) && negb (set_time (ses_sandbox_reclaimed_at s)))).

Record Sight := { si_hasAppUsers : bool; si_poolMember : bool; si_heartbeatStale : bool; si_pastDeadline : bool; si_pastAuthorization : bool }.
(** [pool] is the session's app pool, for apps only. *)
Definition sight (s : Session) (pool : option AppPool) : Sight :=
  let pool := (fun P => expireAppPresence P now) <$> pool in
  let hasAppUsers := match pool with Some P => (0 <? appOccupancy P (ses_session_id s))%Z | None => false end in
  let idle := lc_idleTimeoutMsByMode cfg (SessionState.sessionMode (ses_mode s)) in
  {| si_hasAppUsers := hasAppUsers;
     si_poolMember := match pool with Some P => existsb (fun m => m_session_id m === ses_session_id s) (members P) | None => false end;
     si_heartbeatStale := negb hasAppUsers && silent_for now (match ses_idle_timeout_ms s with Some i => Z.min idle i | None => idle end) s;
     si_pastDeadline := match truthy (ses_expires_at s) with Some t => num_cmp Z.leb (date_parse t) (Some now) | None => false end;
     si_pastAuthorization := isPastAuthorizationDeadline s now |}.

Definition reapCandidate (s : Session) (v : Sight) : bool :=
  (ses_status s === Expired) ||
  ((ses_status s === Running) && (si_pastDeadline v || si_pastAuthorization v || si_heartbeatStale v)).
Definition connectionCountCheck (s : Session) : bool :=
  (ses_status s === Running) &&
  (SessionState.sharedApp (SessionState.sessionModePolicy (ses_mode s)) ||
   (persists_edits s && ((ses_editor_sandbox_sharing s ?? Shared) === Shared))).
Definition snapshotDueByCadence (s : Session) : bool :=
  persists_edits s && (0 <? lc_snapshotIntervalMs cfg)%Z &&
  num_cmp Z.leb (Some (lc_snapshotIntervalMs cfg)) ((fun t => now - t)%Z <$> date_parse (ses_last_snapshot_at s ?? ses_started_at s)).

(** ** What is to be done with a live session *)

Inductive LiveAction := TearDownUnauthorized | TearDownIdle | Extend | TearDownExpired | Keep.
(** [active] is what the kernel answered, [gone] whether its sandbox is. *)
Definition live_action (v : Sight) (active : option Z) (gone : bool) : LiveAction :=
  let hasEditors := (0 <? active ?? 0)%Z in
  let mayHaveEditors :=
    hasEditors || si_hasAppUsers v ||
    (lc_connectionAware cfg && match active with None => true | Some _ => false end && negb gone && negb (si_heartbeatStale v)) in
  if si_pastAuthorization v then TearDownUnauthorized
  else if negb (si_poolMember v) && si_heartbeatStale v && negb hasEditors then TearDownIdle
  else if si_pastDeadline v then
    if mayHaveEditors then Extend else if negb (si_poolMember v) then TearDownExpired else Keep
  else Keep.

(** A terminal session with editors still connected is left to them. *)
Definition keeps_editors (s : Session) (v : Sight) (active : option Z) : bool :=
  (ses_status s === Expired) && (0 <? active ?? 0)%Z && negb (si_pastAuthorization v).
End Facts.

Section Sweep.
Context {B : Type} `{!EqDecision B}.
Context {CSe : Codec B Session} {CEd : Codec B EditorClaim} {CAc : Codec B AppClaim} {CP : Codec B AppPool}.
Local Abbreviation V := (string * Session)%type (only parsing).
Local Notation prog := (prog B V).
Context (deps : RetirerDeps (B := B)) (fuel : nat) (cfg : SessionLifecycleConfig).
Context (now : Z) (thumbnailDeadlineAt : option Z) (liveEditorNotebooks : list NotebookId).
Local Notation budget := (SlidingWindowBudget (K := SessionId)).

(** ** One session *)

(** The sandbox as the sweep reaches it. *)
Definition reach_sandbox (s : Session) : prog (option SandboxId) :=
  match truthy (ses_sandbox_id s) with
  | None => mret None
  | Some id =>
      if ses_status s === Running then co_create (rd_compute deps) id (Some (sessionOwner s)) ≫= fun _ => mret (Some id)
      else if (ses_status s === Expired) && negb (isPastAuthorizationDeadline s now) then
        match co_connectExisting (rd_compute deps) with
        | Some connect => connect id (sessionOwner s) ≫= fun _ => mret (Some id)
        | None => mret None
        end
      else mret None
  end.

(** The kernel's answer, and whether the sandbox is gone. *)
Definition ask_kernel (s : Session) (sandbox : option SandboxId) (ask : bool) : prog (option Z * bool) :=
  match sandbox, ask with
  | Some id, true =>
      '(active, gone) ← handle (rd_probe deps id s) (fun r =>
        match r with
        | Ok active => mret (active, false)
        | Err (NotFoundError _) => mret (None, true)
        | Err e => Throw e
        end);
      match active with
      | Some n =>
          when (connectionCountCheck s && negb (ses_active_connections s === Some n))
            (handle (markConnections (ses_project_id s) (ses_session_id s) n (toISOString now)) (fun _ => mret tt)) ≫= fun _ =>
          mret (active, gone)
      | None => mret (active, gone)
      end
  | _, _ => mret (None, false)
  end.

(** The periodic save of an editor that holds its notebook's claim. *)
Definition snapshot_floor (s : Session) (sandbox : option SandboxId) (gone : bool) : prog SweepResult :=
  due ← (if snapshotDueByCadence cfg now s then catch (ownsEditorClaim fuel s) (fun _ => mret false) else mret false);
  match sandbox with
  | Some id =>
      if (due : bool) && negb gone then
        handle (rd_captureSession deps id s {| cp_persistEdits := true; cp_includeWorkspace := false |}) (fun r =>
          match r with
          | Err _ => mret swept_nothing
          | Ok saved =>
              handle (markSnapshotted (ses_project_id s) (ses_session_id s) (toISOString now)) (fun _ =>
                mret (if saved : bool then swept_nothing <| sw_snapshotted := 1 |> else swept_nothing))
          end)
      else mret swept_nothing
  | None => mret swept_nothing
  end.

Definition sweep_terminal (s : Session) (v : Sight) (sandbox : option SandboxId) (active : option Z) (gone : bool) : prog SweepResult :=
  if keeps_editors s v active then
    if includes (ses_notebook_id s) liveEditorNotebooks then mret swept_nothing else snapshot_floor s sandbox gone
  else
    outcome ← reclaim deps fuel s {| rc_save := None; rc_thumbnailDeadlineAt := thumbnailDeadlineAt;
                                      rc_requireIdle := negb (active === Some 0%Z) |};
    mret (match outcome with
          | Reclaimed _ => if ses_status s === Expired then swept_nothing <| sw_reclaimed := 1 |> else swept_nothing
          | NotReclaimed _ => swept_nothing
          end).

Definition sweep_live (s : Session) (v : Sight) (sandbox : option SandboxId) (active : option Z) (gone : bool) : prog SweepResult :=
  let reap capture result :=
    reaped ← gracefulTeardown deps fuel s capture thumbnailDeadlineAt;
    mret (if reaped : bool then result else swept_nothing) in
  match live_action cfg v active gone with
  | TearDownUnauthorized => reap false (swept_nothing <| sw_reapedExpired := 1 |>)
  | TearDownIdle => reap true (swept_nothing <| sw_reapedIdle := 1 |>)
  | TearDownExpired => reap true (swept_nothing <| sw_reapedExpired := 1 |>)
  | Extend =>
      handle (extendExpiry (ses_project_id s) (ses_session_id s) (toISOString (now + lc_extensionMs cfg))) (fun _ =>
        saved ← snapshot_floor s sandbox gone;
        mret (saved <| sw_extended := 1 |>))
  | Keep => snapshot_floor s sandbox gone
  end.

(** Whether the count of connections is due; asking takes from the budget. *)
Definition count_due (s : Session) (b : budget) : budget * bool :=
  if lc_connectionAware cfg && connectionCountCheck s then admit_key b (ses_session_id s) now else (b, false).

Definition sweep_one (s : Session) (pool : option AppPool) (b : budget) (sandbox : option SandboxId) : budget * prog SweepResult :=
  let v := sight cfg now s pool in
  let '(b, due) := count_due s b in
  (b, '(active, gone) ← ask_kernel s sandbox (lc_connectionAware cfg && (reapCandidate s v || due));
      if SessionState.isTerminal (ses_status s) then sweep_terminal s v sandbox active gone
      else sweep_live s v sandbox active gone).

(** The pools read so far are shared by the sessions of a sweep. *)
Definition pool_for (s : Session) (seen : list (key * result (error V) (option AppPool)))
    : prog (result (error V) (option AppPool) * list (key * result (error V) (option AppPool))) :=
  if SessionState.sessionMode (ses_mode s) === App then read_pool_settled (ses_project_id s) (ses_notebook_id s) seen
  else mret (Ok None, seen).

Fixpoint sweep_each (l : list Session) (seen : list (key * result (error V) (option AppPool))) (b : budget)
    : prog (SweepResult * budget) :=
  match l with
  | [] => mret (swept_nothing, b)
  | s :: l =>
      handle (reach_sandbox s) (fun reached =>
        match reached with
        | Err _ => sweep_each l seen b
        | Ok sandbox =>
            '(pool, seen) ← pool_for s seen;
            match pool with
            | Err _ => sweep_each l seen b
            | Ok pool =>
                let '(b, work) := sweep_one s pool b sandbox in
                one ← catch work (fun _ => mret swept_nothing);
                '(rest, b) ← sweep_each l seen b;
                mret (add_swept one rest, b)
            end
        end)
  end.
End Sweep.

(** [sweep]: the budget of connection counts is the service's own and outlives it. *)
Definition sweep_sessions {B : Type} `{!EqDecision B} {CSe : Codec B Session} {CEd : Codec B EditorClaim} {CAc : Codec B AppClaim}
    {CP : Codec B AppPool} (deps : RetirerDeps (B := B)) (fuel : nat) (cfg : SessionLifecycleConfig) (now : Z)
    (b : SlidingWindowBudget (K := SessionId)) : prog B (string * Session) (SweepResult * SlidingWindowBudget (K := SessionId)) :=
  started ← now_ms;
  sessions ← listSessions fuel None;
  sweep_each deps fuel cfg now (Some (started + THUMBNAIL_MAINTENANCE_BUDGET_MS)%Z)
    (map ses_notebook_id (List.filter isLivePersistingEditor sessions)) (List.filter sweep_candidate sessions) [] b.
