(* ===== verification/TeardownProtocol.v ===== *)
(** * The log of destroyed sandboxes

    What a replica may do that ends sessions: any step on the session records
    ([SessionReplicas.v]), any step off them, the destruction of the sandbox of a session
    that is over or terminating, and the destruction of a sandbox no session that keeps its
    sandbox owns.  Every program of [SessionRetirer.v], [Reconciliation.v] and
    [SessionSweep.v] is verified against it in [TeardownReplicas.v]. *)

From Stdlib Require Import ZArith Lia.
From stdpp Require Import relations.
From S2P Require Import Prelude Constants Lifecycle Schema UtcDate Store Cas Storage CasTheorems CasEffects Calls Listing SessionData AppPoolRouter AppPool SessionService EditorClaims SessionProtocol SessionReplicas SessionRequests SessionRetirer Events WarmPools DiagnosticLease Reconciliation.

Section Protocol.
Context {B : Type} `{!EqDecision B}.
Context {CSe : Codec B Session} {CCu : Codec B VersionPruneCutoff} {CP : Codec B AppPool}.
Context (schema_valid : forall s : Session, valid s <-> session_schema s = true).
(** The sessions known to have kept one sandbox from the start, by their keys. *)
Context (names : key -> SandboxId -> Prop).
Local Abbreviation V := (string * Session)%type (only parsing).
Local Notation prog := (prog B V).
Implicit Types w : world B V.

(** ** Evidence *)

(** A record read from, or written to, the store *)
Definition recorded_at (k : key) (s : Session) w : Prop := exists o, logged k o w /\ parse (o_body o) = Some s.
Definition recorded (s : Session) w : Prop := recorded_at (session_key (ses_project_id s) (ses_session_id s)) s w.
(** The sandbox belonged to a session that was over or terminating. *)
Definition closed_with (sb : SandboxId) w : Prop :=
  exists s, recorded s w /\ closing s = true /\ ses_sandbox_id s = Some sb.
(** All the sandboxes of [s], if any, do. *)
Definition doomed (s : Session) w : Prop := forall sb, truthy (ses_sandbox_id s) = Some sb -> closed_with sb w.
(** The session is over, its sandbox reclaimed, its record removed. *)
Definition reaped (k : key) w : Prop :=
  store w !! k = None /\ exists t o l s, hist k w = (t, o) :: l /\ parse (o_body o) = Some s /\ over s /\ holds_sandbox s = false.
Definition unowned (sb : SandboxId) w : Prop := forall k, names k sb -> reaped k w.

#[export] Instance persistent_recorded_at k s : Persistent (recorded_at k s).
Proof. unfold recorded_at. apply _. Qed.
#[export] Instance persistent_recorded s : Persistent (recorded s).
Proof. unfold recorded. apply _. Qed.
#[export] Instance persistent_closed_with sb : Persistent (closed_with sb).
Proof. intros w w' Hg (s & Hs & H). exists s. split; [by eapply persistent|done]. Qed.
#[export] Instance persistent_doomed s : Persistent (doomed s).
Proof. intros w w' Hg H sb Hsb. eapply persistent; [exact Hg|by apply H]. Qed.

Lemma recorded_doomed s w : recorded s w -> closing s = true -> doomed s w.
Proof. intros Hr Hc sb Hsb. exists s. split; [done|]. split; [done|]. by destruct (ses_sandbox_id s) as [[]|]; cbn in Hsb; simplify_eq. Qed.

Lemma recorded_key k s w : sinv w -> skey k -> recorded_at k s w -> k = session_key (ses_project_id s) (ses_session_id s).
Proof. intros Hi Hk (o & [t Hl] & Hp). destruct (si_records _ Hi t k o Hk Hl) as (s0 & Hp0 & -> & _). congruence. Qed.

(** Of two records of one session one is the other's past. *)
Lemma recorded_ordered k s s' w : sinv w -> skey k -> recorded_at k s w -> recorded_at k s' w -> evolves s s' \/ evolves s' s.
Proof.
  intros Hi Hk (o & [t Hl] & Hp) (o' & [t' Hl'] & Hp'). pose proof (si_chain _ Hi k Hk) as He. apply elem_of_hist in Hl, Hl'.
  apply list_elem_of_split in Hl as (l1 & l2 & E). rewrite E in He, Hl'. apply elem_of_app in Hl' as [Hl'|Hl'].
  - left. apply list_elem_of_split in Hl' as (m1 & m2 & ->). rewrite <- app_assoc in He.
    destruct (evolving_pair m1 t' o' m2 t o l2 s He Hp) as (x & Hx & ?). by simplify_eq.
  - right. apply evolving_suffix in He. destruct (evolving_last _ t' o' s' t o l2 He eq_refl Hl' Hp') as (x & Hx & ?). by simplify_eq.
Qed.

(** ** The protocol *)

Record aside w w' : Prop := {
  as_off : off_records w w';
  as_audits e a : e = destroy_event \/ e = orphan_event -> (e, a) ∈ audits w' -> (e, a) ∈ audits w;
}.
Inductive G (t : tid) w w' : Prop :=
| t_session : session_step t w w' -> G t w w'
| t_aside : aside w w' -> G t w w'
| t_destroy sb : w' = set_audits w ((destroy_event, sb) :: audits w) -> closed_with sb w -> G t w w'
| t_orphan sb : w' = set_audits w ((orphan_event, sb) :: audits w) -> unowned sb w -> G t w w'.

Lemma grows_audit w e a : grows w (set_audits w ((e, a) :: audits w)).
Proof. split; cbn; auto; [by intros []|lia|by exists [(e, a)]]. Qed.
Lemma off_audit w e a : off_records w (set_audits w ((e, a) :: audits w)).
Proof. split; [apply grows_audit|done|done]. Qed.

Lemma teardown_off t w w' : G t w w' -> session_step t w w' \/ off_records w w'.
Proof. intros [?|[? _]|sb -> _|sb -> _]; [by left|by right|right; apply off_audit..]. Qed.

#[export] Instance teardown_protocol : Protocol G.
Proof.
  split; [intros t w; apply t_session, session_step_idle|]. intros t w w' HG. by destruct (teardown_off t w w' HG) as [[? _]|[? _]].
Qed.
#[export] Instance teardown_allows_sessions : AllowsSessions G.
Proof.
  split.
  - intros t w w'. apply t_session.
  - intros t w w' HG Hi. destruct (teardown_off t w w' HG) as [(_ & H & _)|H]; [by apply H|by eapply sinv_off].
  - intros t w w' k HG Hi Hk. destruct (teardown_off t w w' HG) as [(_ & _ & H & _)|H]; [by apply H|by apply change_off].
Qed.

(** ** The invariant *)

(** The named sessions: past starting, with one sandbox in every record. *)
Definition named w : Prop := forall k sb, names k sb ->
  skey k /\ (exists t o l s, hist k w = (t, o) :: l /\ parse (o_body o) = Some s /\ ses_status s <> Starting) /\
  forall t o s, (t, k, o) ∈ log w -> parse (o_body o) = Some s -> ses_sandbox_id s = Some sb.
Definition audited w : Prop :=
  (forall sb, (destroy_event, sb) ∈ audits w -> closed_with sb w) /\ (forall sb, (orphan_event, sb) ∈ audits w -> unowned sb w).
Definition orderly w : Prop := ready w /\ gone_over w /\ named w.
Definition fit w : Prop := orderly w /\ audited w.
Lemma fit_ready w : fit w -> ready w.
Proof. by intros [[? _] _]. Qed.

Lemma not_starting s s' : evolves s s' -> ses_status s <> Starting -> ses_status s' <> Starting.
Proof. intros [_ Hs _ _ _ _ _ _] Hn E. rewrite E in Hs. by apply reach_starting in Hs. Qed.

Lemma named_step t w w' : (forall k, skey k -> change t k w w') -> sinv w -> named w -> named w'.
Proof.
  intros Hch Hi Hn k sb Hk. destruct (Hn k sb Hk) as (Hsk & (t0 & o0 & l0 & s0 & Hh & Hp & Hst) & Hall). split; [done|].
  assert (Hlog : forall t o s, (t, k, o) ∈ log w' -> hist k w' = hist k w -> parse (o_body o) = Some s -> ses_sandbox_id s = Some sb).
  { intros t1 o1 s1 Hl E. apply (Hall t1). apply elem_of_hist. rewrite <- E. by apply elem_of_hist. }
  destruct (Hch k Hsk) as [_ E|o s Hh' _ _ _ _ _ _|o o' s s' Ho _ E Hps Hps' Hev|o s _ _ _ _ _ E].
  - split; [by exists t0, o0, l0, s0; rewrite E|]. intros t1 o1 s1 Hl. by apply (Hlog t1).
  - by rewrite Hh in Hh'.
  - destruct (si_last _ Hi k o Hsk Ho) as (t1 & l1 & Hh1). rewrite Hh in Hh1. injection Hh1 as -> -> ->. rewrite Hps in Hp. injection Hp as ->.
    assert (Hsb : ses_sandbox_id s0 = Some sb) by (apply (Hall t1 o); [apply elem_of_hist; rewrite Hh; by left|done]).
    split; [exists t, o', (hist k w), s'; split; [done|]; split; [done|]; by eapply not_starting|].
    intros t2 o2 s2 Hl. apply elem_of_hist in Hl. rewrite E in Hl. apply elem_of_cons in Hl as [Hl|Hl].
    + injection Hl as -> ->. rewrite Hps'. intros [= <-]. destruct (ev_sandbox _ _ Hev) as [->|?]; [done|contradiction].
    + apply (Hall t2). by apply elem_of_hist.
  - split; [by exists t0, o0, l0, s0; rewrite E|]. intros t1 o1 s1 Hl. by apply (Hlog t1).
Qed.

(** What is removed stays so. *)
Lemma reaped_step t k w w' : change t k w w' -> reaped k w -> reaped k w'.
Proof.
  intros Hch (Hn & t0 & o0 & l & s & Hh & Hs). destruct Hch as [E1 E2|o s' Hh' _ _ _ _ _ _|o o' s' s'' Ho _ _ _ _ _|o s' Ho _ _ _ _ _]; try congruence.
  split; [by rewrite E1|]. exists t0, o0, l, s. by rewrite E2.
Qed.
Lemma unowned_step t sb w w' : G t w w' -> orderly w -> unowned sb w -> unowned sb w'.
Proof.
  intros HG ([_ Hi] & _ & Hn) Hu k Hk. destruct (Hn k sb Hk) as [Hsk _]. apply (reaped_step t k w); [by eapply as_change|by apply Hu].
Qed.

#[export] Instance kept_orderly : Kept G orderly.
Proof.
  split.
  - intros t w w' HG ([Hw Hi] & Hg & Hn). assert (Hch : forall k, skey k -> change t k w w') by (intros k; by apply as_change).
    split; [split; [by apply (protocol_grows t w w' HG)|by eapply as_sinv]|]. split; [by eapply gone_over_step|by eapply named_step].
  - intros w ms Hms ([Hw Hi] & Hg & Hn). split; [|done]. split; [by apply (grows_wf _ _ (grows_tick w ms Hms))|by apply sinv_tick].
Qed.
Lemma audited_step t w w' : G t w w' -> orderly w -> audited w -> audited w'.
Proof.
  intros HG Ho [H1 H2]. pose proof (protocol_grows t w w' HG) as Hg.
  assert (Hold : forall e sb, e = destroy_event \/ e = orphan_event -> (e, sb) ∈ audits w' -> (e, sb) ∈ audits w \/
    (e = destroy_event /\ closed_with sb w) \/ (e = orphan_event /\ unowned sb w)).
  { intros e sb He Hin. destruct HG as [(_ & _ & _ & _ & _ & E)|[_ H]|x -> Hx|x -> Hx].
    - left. by rewrite E in Hin.
    - left. by apply H.
    - apply elem_of_cons in Hin as [[= -> ->]|?]; auto.
    - apply elem_of_cons in Hin as [[= -> ->]|?]; auto. }
  split; intros sb Hin.
  - destruct (Hold _ _ ltac:(by left) Hin) as [H|[[_ H]|[H _]]]; [by eapply persistent, H1|by eapply persistent|done].
  - destruct (Hold _ _ ltac:(by right) Hin) as [H|[[H _]|[_ H]]]; [|done|by eapply unowned_step]. eapply unowned_step; [done|done|]. by apply H2.
Qed.
#[export] Instance kept_fit : Kept G fit.
Proof.
  split; [intros t w w' HG [Ho Ha]; split; [by eapply kept_step|by eapply audited_step]|].
  intros w ms Hms [Ho Ha]. split; [by apply kept_time|]. destruct Ha as [H1 H2]. split; intros sb Hin.
  - eapply persistent; [by apply grows_tick|by apply H1].
  - by apply H2.
Qed.

(** A named session is found by a scan, or has been removed. *)
Lemma named_absent w k : ready w -> named w /\ gone_over w -> (exists sb, names k sb) -> store w !! k = None -> reaped k w.
Proof.
  intros _ [Hn Hg] [sb Hk] Hs. split; [done|]. destruct (Hn k sb Hk) as (Hsk & (t & o & l & s & Hh & _) & _).
  destruct (Hg k t o l Hsk Hh Hs) as (s' & ? & ? & ?). by exists t, o, l, s'.
Qed.
End Protocol.
