(* ===== verification/TeardownReplicas.v ===== *)
(** * Replicas that end sessions

    Every program of [SessionRetirer.v], [Reconciliation.v] and [SessionSweep.v], verified
    against the protocol of [TeardownProtocol.v].  The parts that stay off the session
    records need only be seen to ([quiet]); those on the records are the operations of the
    session service, already verified. *)

From Stdlib Require Import ZArith Lia.
From stdpp Require Import relations.
From S2P Require Import Prelude Constants Lifecycle Schema UtcDate Store Cas Storage CasTheorems CasEffects Calls Listing SessionData AppPoolRouter AppPool SessionService EditorClaims SessionProtocol SessionReplicas SessionRequests RateLimit SessionRetirer Events WarmPools DiagnosticLease Reconciliation SessionSweep TeardownProtocol.

(** ** Programs off the session records *)

Section Quiet.
Context {B : Type}.
Local Abbreviation V := (string * Session)%type (only parsing).
Local Notation prog := (prog B V).

Definition quiet_op {X} (o : op B V X) : Prop :=
  match o with
  | OPut k _ _ => ~ skey k
  | ODelete ks => forall k, k ∈ ks -> ~ skey k
  | OCacheSet _ _ => False
  | OAudit e _ => e <> destroy_event /\ e <> orphan_event
  | _ => True
  end.
Definition quiet {A} (p : prog A) : Prop := calls (fun X o => quiet_op o) p.

Context {CSe : Codec B Session} {CEd : Codec B EditorClaim} {CAc : Codec B AppClaim} {CP : Codec B AppPool}.
Context {CW : Codec B WarmPoolRecord} {CL : Codec B SandboxDiagnosticLeaseRecord} {CO : Codec B OrphanMarker}.

Lemma quiet_stored {T} `{!Codec B T} (o : object B) k : quiet (readStored (T := T) o k).
Proof. unfold readStored, quiet. by destruct (parse (o_body o)). Qed.
Lemma quiet_bind {A C} (p : prog A) (f : A -> prog C) : quiet p -> (forall a, quiet (f a)) -> quiet (p ≫= f).
Proof. apply calls_bind. Qed.
Lemma quiet_ret {A} (a : A) : quiet (mret a).
Proof. done. Qed.
Lemma quiet_get k : quiet (call (OGet k)).
Proof. by apply calls_call. Qed.
Lemma quiet_now : quiet now_ms.
Proof. by apply calls_call. Qed.
Lemma quiet_nowIso : quiet nowIso.
Proof. apply quiet_bind; [apply quiet_now|done]. Qed.
Lemma quiet_lift {A} (r : result (error V) A) : quiet (lift r).
Proof. by destruct r. Qed.
Lemma quiet_put k b c : ~ skey k -> quiet (call (OPut k b c)).
Proof. intros Hk. by apply calls_call. Qed.
Lemma quiet_cas_put k b c : ~ skey k -> quiet (cas_put k b c).
Proof. intros Hk. apply calls_catch; [by apply quiet_put|]. by intros []. Qed.
End Quiet.

(** Splits a program into its calls. *)
Ltac quiet_step :=
  first
    [ done
    | match goal with |- forall _, _ => intros ? end
    | apply quiet_ret | apply quiet_get | apply quiet_now | apply quiet_nowIso | apply quiet_stored | apply quiet_lift
    | apply quiet_bind; [|intros ?]
    | apply calls_handle; [|intros ?]
    | apply calls_catch; [|intros ?]
    | apply calls_withCasRetry; [by intros ?|]
    | match goal with |- quiet (if ?b then _ else _) => destruct b end
    | match goal with |- quiet (match ?x with _ => _ end) => destruct x end
    | match goal with |- calls _ (if ?b then _ else _) => destruct b end
    | match goal with |- calls _ (match ?x with _ => _ end) => destruct x end ].
Ltac quiet := unfold quiet in *; repeat (fold (@quiet) in *; quiet_step).

Section QuietOps.
Context {B : Type} `{!EqDecision B}.
Local Abbreviation V := (string * Session)%type (only parsing).
Local Notation prog := (prog B V).
Context {CSe : Codec B Session} {CEd : Codec B EditorClaim} {CAc : Codec B AppClaim} {CP : Codec B AppPool}.

Lemma editorClaim_off pid nid : ~ skey (editorClaim pid nid).
Proof. by intros [? ?]. Qed.
Lemma appClaim_off pid nid : ~ skey (appClaim pid nid).
Proof. by intros [? ?]. Qed.

Lemma quiet_mutate_claim pid nid (apply : EditorClaim -> prog (unit * option EditorClaim)) :
  (forall c, quiet (apply c)) -> quiet (mutate_claim pid nid apply).
Proof.
  intros Ha. apply quiet_bind; [|by intros ?]. apply calls_mutateM; [done|done|intros b c; apply editorClaim_off|exact Ha].
Qed.
Lemma quiet_getSession pid id : quiet (getSession (B := B) pid id).
Proof. unfold getSession. quiet. Qed.
Lemma quiet_findSession pid id : quiet (findSession (B := B) pid id).
Proof. unfold findSession. apply calls_catch; [|intros []; quiet]. apply quiet_bind; [apply quiet_getSession|quiet]. Qed.

(** *** Editor and app claims *)

Lemma quiet_acquire id l c : quiet (acquire_lease_fn (B := B) id l c).
Proof. unfold acquire_lease_fn. quiet. Qed.
Lemma quiet_renew id l c : quiet (renew_lease_fn (B := B) id l c).
Proof. unfold renew_lease_fn. quiet. Qed.
Lemma quiet_advance id l stage c : quiet (advance_lease_fn (B := B) id l stage c).
Proof. unfold advance_lease_fn. quiet. Qed.
Lemma quiet_finish id l c : quiet (finish_lease_fn (B := B) id l c).
Proof. unfold finish_lease_fn. quiet. Qed.
Lemma quiet_pure {T} (f : T -> option T) c : quiet (pure_apply (B := B) f c).
Proof. unfold pure_apply. quiet. Qed.

Lemma quiet_acquireTakeoverDrainLease pid nid id l : quiet (acquireTakeoverDrainLease pid nid id l).
Proof. apply quiet_bind; [apply quiet_mutate_claim; intros c; apply quiet_acquire|quiet]. Qed.
Lemma quiet_renewTakeoverDrainLease pid nid id l : quiet (renewTakeoverDrainLease pid nid id l).
Proof. apply quiet_bind; [apply quiet_mutate_claim; intros c; apply quiet_renew|quiet]. Qed.
Lemma quiet_advanceTakeoverDrainLease pid nid id l stage : quiet (advanceTakeoverDrainLease pid nid id l stage).
Proof. apply quiet_bind; [apply quiet_mutate_claim; intros c; apply quiet_advance|quiet]. Qed.
Lemma quiet_finishTakeoverDrainLease pid nid id l : quiet (finishTakeoverDrainLease pid nid id l).
Proof. apply quiet_bind; [apply quiet_mutate_claim; intros c; apply quiet_finish|quiet]. Qed.
Lemma quiet_releaseTakeoverDrainLease pid nid id l : quiet (releaseTakeoverDrainLease pid nid id l).
Proof. apply calls_catch; [|quiet]. apply quiet_bind; [apply quiet_mutate_claim; intros c; apply quiet_pure|quiet]. Qed.

Lemma quiet_read_claim pid nid : quiet (read_claim pid nid).
Proof. unfold read_claim. quiet. Qed.
Lemma quiet_getEditorClaim pid nid : quiet (getEditorClaim pid nid).
Proof.
  apply quiet_bind; [apply quiet_read_claim|]. intros [c|]; [|done]. destruct (ec_transfer c) as [t|]; [|done].
  destruct (tr_phase t === PhRequested); [|done]. apply quiet_bind; [apply quiet_now|]. intros n. destruct (request_expired n t); [|done].
  apply quiet_bind; [|intros ?; apply quiet_read_claim]. apply calls_catch; [|quiet].
  apply quiet_bind; [apply quiet_mutate_claim; intros x; apply quiet_pure|quiet].
Qed.
Lemma quiet_holder pid nid h : quiet (getLiveEditorHolder (B := B) pid nid h).
Proof.
  unfold getLiveEditorHolder. destruct (truthy h) as [x|]; [|done]. apply quiet_bind; [apply quiet_findSession|]. quiet.
Qed.
Lemma quiet_claimEditor pid nid sid sharing by_ : quiet (claimEditor pid nid sid sharing by_).
Proof.
  apply calls_withCasRetry; [done|]. apply quiet_bind; [apply quiet_get|]. intros obj. apply quiet_bind; [apply quiet_nowIso|]. intros now.
  destruct obj as [o|]; [|apply quiet_bind; [apply quiet_cas_put, editorClaim_off|done]].
  apply quiet_bind; [apply quiet_stored|]. intros cur. destruct (_ === _); [done|]. apply quiet_bind; [apply quiet_lift|]. intros holder.
  destruct (_ === _); [done|]. apply quiet_bind; [apply quiet_holder|]. intros [s|]; [done|].
  apply quiet_bind; [apply quiet_cas_put, editorClaim_off|done].
Qed.
Lemma quiet_releaseEditorFor s : quiet (releaseEditorFor (B := B) s).
Proof.
  unfold releaseEditorFor. destruct (negb _); [done|]. apply calls_catch; [|quiet]. apply quiet_bind; [apply quiet_get|].
  intros [o|]; [|done]. apply quiet_bind; [apply quiet_stored|]. intros c. destruct (_ || _); [done|].
  apply quiet_bind; [apply quiet_nowIso|]. intros now. apply quiet_bind; [apply quiet_put, editorClaim_off|done].
Qed.
Lemma quiet_releaseAppFor s : quiet (releaseAppFor (B := B) s).
Proof.
  unfold releaseAppFor. destruct (SessionState.sharedApp _); [|done]. apply quiet_bind; [apply quiet_nowIso|]. intros now.
  apply calls_catch; [|quiet]. apply quiet_bind; [apply quiet_get|]. intros [o|]; [|done].
  destruct (parseHolder _ _) as [h|e]; [|done]. destruct (_ === _); [|done]. apply quiet_bind; [apply quiet_put, appClaim_off|done].
Qed.
Lemma quiet_pool_read pid nid : quiet (AppPool.read (B := B) (V := V) pid nid).
Proof. unfold AppPool.read. quiet. Qed.

(** *** What reconciliation reads and writes beside *)

Context {CW : Codec B WarmPoolRecord} {CL : Codec B SandboxDiagnosticLeaseRecord} {CO : Codec B OrphanMarker}.
Lemma quiet_listAllKeys fuel prefix : quiet (listAllKeys (B := B) (V := V) fuel prefix).
Proof. apply quiet_bind; [by apply calls_pages|done]. Qed.
Lemma quiet_owned_of keys ids : quiet (owned_of (B := B) keys ids).
Proof.
  revert ids. induction keys as [|k keys IH]; intros ids; [done|]. apply quiet_bind; [apply quiet_get|]. intros [o|]; [|done].
  apply quiet_bind; [apply quiet_stored|]. intros r. apply IH.
Qed.
Lemma quiet_allOwnedSandboxIds fuel : quiet (allOwnedSandboxIds (B := B) fuel).
Proof. apply quiet_bind; [apply quiet_listAllKeys|]. intros keys. apply quiet_owned_of. Qed.
Lemma quiet_activeSandboxIds fuel now : quiet (activeSandboxIds (B := B) fuel now).
Proof.
  apply quiet_bind; [apply quiet_listAllKeys|]. intros keys. apply quiet_bind; [|done].
  induction keys as [|k keys IH]; [done|]. apply quiet_bind; [apply quiet_get|]. intros [o|]; [|exact IH].
  apply quiet_bind; [apply quiet_stored|]. intros r. by apply quiet_bind.
Qed.
Lemma reconcileOrphan_off sb : ~ skey (reconcileOrphan sb).
Proof. by intros [? ?]. Qed.
Lemma quiet_firstSeenOrphan sb now : quiet (firstSeenOrphan (B := B) sb now).
Proof.
  apply quiet_bind; [apply quiet_get|]. intros existing.
  assert (Hf : quiet (handle (call (OPut (B := B) (V := V) (reconcileOrphan sb) (stringify {| om_first_seen := now |}) Always)) (fun _ => mret now)))
    by (apply calls_handle; [apply quiet_put, reconcileOrphan_off|done]).
  destruct (existing ≫= _) as [m|]; [|exact Hf]. by destruct (_ <=? _)%Z.
Qed.
End QuietOps.

(** ** Programs on the session records *)

Section Specs.
Context {B : Type} `{!EqDecision B}.
Context {CSe : Codec B Session} {CCu : Codec B VersionPruneCutoff} {CP : Codec B AppPool} {CEd : Codec B EditorClaim} {CAc : Codec B AppClaim}.
Context (schema_valid : forall s : Session, valid s <-> session_schema s = true).
Context (names : key -> SandboxId -> Prop).
Local Abbreviation V := (string * Session)%type (only parsing).
Local Notation prog := (prog B V).
Local Notation G := (TeardownProtocol.G names).
Local Notation fit := (TeardownProtocol.fit names).
Implicit Types w : world B V.

(** Facts under which the programs run: they include the invariant, and every step keeps them. *)
Class Ground (P : world B V -> Prop) : Prop := {
  ground_kept :: Kept G P;
  ground_fit w : P w -> fit w;
}.
#[export] Instance ground_invariant : Ground fit.
Proof. split; [apply _|done]. Qed.
#[export] Instance ground_and P F : Ground P -> Kept G F -> Ground (fun w => P w /\ F w).
Proof. intros [HK Hf] HF. split; [apply _|]. intros w [? _]. auto. Qed.

Section Rules.
Context (t : tid).

(** A program that keeps its ground *)
Definition keeps {A} (P : world B V -> Prop) (p : prog A) : Prop := hoare G t P p (fun _ => P).

Lemma keeps_ret {A} P (a : A) `{!Ground P} : keeps P (mret a).
Proof. by apply hoare_ret; [apply _|]. Qed.
Lemma keeps_throw {A} P e `{!Ground P} : keeps P (Throw e : prog A).
Proof. by apply hoare_throw; [apply _|]. Qed.
Lemma keeps_bind {A C} P (p : prog A) (f : A -> prog C) `{!Ground P} : keeps P p -> (forall a, keeps P (f a)) -> keeps P (p ≫= f).
Proof. intros Hp Hf. eapply hoare_bind; [exact Hp|exact Hf|]. intros e. apply keeps_throw, _. Qed.
Lemma keeps_handle {A C} P (p : prog A) (f : result (error V) A -> prog C) : keeps P p -> (forall r, keeps P (f r)) -> keeps P (handle p f).
Proof. intros Hp Hf. by eapply hoare_handle. Qed.
Lemma keeps_catch {A} P (p : prog A) h `{!Ground P} : keeps P p -> (forall e, keeps P (h e)) -> keeps P (catch p h).
Proof. intros Hp Hf. eapply hoare_catch; [exact Hp|intros a; apply keeps_ret, _|exact Hf]. Qed.
Lemma keeps_when P b (p : prog unit) `{!Ground P} : keeps P p -> keeps P (when b p).
Proof. intros Hp. destruct b; [exact Hp|apply keeps_ret, _]. Qed.

(** The result of a step is known of what follows. *)
Lemma keeps_learn {A C} P (F : A -> world B V -> Prop) (p : prog A) (f : A -> prog C) `{!Ground P} `{!forall a, Kept G (F a)} :
  hoare G t P p (fun r w => P w /\ match r with Ok a => F a w | Err _ => True end) ->
  (forall a, keeps (fun w => P w /\ F a w) (f a)) -> keeps P (p ≫= f).
Proof.
  intros Hp Hf. eapply hoare_bind; [exact Hp| |].
  - intros a. eapply hoare_post; [|apply Hf]. by intros r w [? _].
  - intros e. apply hoare_throw; [apply _|]. by intros w [? _].
Qed.
Lemma keeps_pre {A} P P' (p : prog A) : (forall w, P w <-> P' w) -> keeps P p -> keeps P' p.
Proof. intros H Hp. eapply hoare_pre; [|eapply hoare_post; [|exact Hp]]; intros; by apply H. Qed.

Lemma aside_quiet {X} (o : op B V X) w r w' : quiet_op o -> op_step t o w r w' -> aside w w'.
Proof.
  assert (Hrefl : forall w : world B V, aside w w) by (intros w0; split; [split; [done..|done]|done]).
  intros Ho Hs. assert (Hsem : forall r w', sem t o w r w' -> aside w w').
  { clear Hs. intros r0 w0 Hs. pose proof (sem_grows _ _ _ _ _ Hs) as Hg. destruct o; cbn in Hs, Ho; try done; try (destruct Hs as [-> _]; by apply Hrefl).
    - destruct Hs as [(_ & -> & _)|(_ & e & He & -> & _)]; [by apply Hrefl|]. split; [|done]. split; [done| |done]. intros k0 Hk0.
      assert (Hne : k <> k0) by (by intros ->). split; [by apply lookup_insert_ne|]. by rewrite hist_write, bool_decide_eq_false_2.
    - destruct Hs as [-> _]. split; [|done]. split; [done| |done]. intros k0 Hk0. split; [|done]. rewrite store_remove, decide_False; [done|].
      intros Hin. by destruct (Ho k0 Hin).
    - destruct Hs as (id & _ & _ & -> & _). split; [by split|done].
    - destruct Hs as [-> _]. split; [by split|]. intros e a He Hin. apply elem_of_cons in Hin as [[= -> ->]|?]; [|done]. destruct Ho, He; congruence. }
  destruct Hs as [Hs|(_ & [->|[[r' Hs]|Hs]] & _)]; [by eapply Hsem|by apply Hrefl|by eapply Hsem|].
  destruct o; try done. destruct Hs as (ks' & Hsub & ->). split; [|done]. split; [apply grows_remove| |done]. intros k Hk. split; [|done].
  rewrite store_remove, decide_False; [done|]. intros Hin. by destruct (Ho k (Hsub k Hin)).
Qed.
Lemma returns_quiet {A} P (p : prog A) Q `{!Ground P} : quiet p -> returns p Q -> hoare G t P p (returned Q P).
Proof.
  intros Hp HQ. apply (hoare_calls G t (fun X o => quiet_op o)); [apply _| |exact Hp|exact HQ]. intros X o w r w' Ho Hs HP.
  assert (HG : G t w w') by (by eapply t_aside, aside_quiet). split; [done|by eapply kept_step].
Qed.
Lemma keeps_quiet {A} P (p : prog A) `{!Ground P} : quiet p -> keeps P p.
Proof. intros Hp. eapply hoare_post; [|apply (returns_quiet P p (fun _ => True)); [done|apply returns_any]]. by intros r w [? _]. Qed.

(** An operation of the session service *)
Lemma keeps_records {A} P (p : prog A) Q `{!Ground P} : hoare G t ready p Q -> hoare G t P p (fun r w => P w /\ Q r w).
Proof.
  intros Hp. eapply hoare_pre; [|eapply hoare_post; [|apply (hoare_keep G t ready p Q P Hp)]].
  - intros w Hw. split; [by apply (fit_ready names), ground_fit|done].
  - by intros r w [? ?].
Qed.
Lemma keeps_record {A} P (p : prog A) `{!Ground P} : hoare G t ready p (fun _ => ready) -> keeps P p.
Proof. intros Hp. eapply hoare_post; [|apply (keeps_records P p _ Hp)]. by intros r w [? _]. Qed.

(** ** Reading *)

Definition read_session P (F : Session -> Prop) (x : option (object B)) w : Prop :=
  P w /\ match x ≫= fun o => parse (o_body o) with Some s => recorded s w /\ F s | None => True end.
#[local] Instance stable_read_session P F x `{!Ground P} : Stable G t (read_session P F x).
Proof. unfold read_session. destruct (x ≫= _); apply _. Qed.

(** What the stored record is known to satisfy. *)
Lemma recorded_session_spec P pid id (F : Session -> Prop) `{!Ground P} :
  (forall w o s, P w -> store w !! session_key pid id = Some o -> parse (o_body o) = Some s -> F s) ->
  hoare G t P (getSession pid id) (fun r w => P w /\ match r with Ok s => recorded s w /\ F s | Err _ => True end).
Proof.
  intros HF. unfold getSession. eapply hoare_bind.
  - apply (hoare_get G t _ P (read_session P F)).
    intros w Hw. split; [done|]. destruct (store w !! _) as [o|] eqn:E; [|done]. cbn. destruct (parse (o_body o)) as [s|] eqn:Ep; [|done].
      split; [|by eapply HF]. pose proof (fit_ready names w (ground_fit w Hw)) as [Hwf Hi]. destruct (wf_stored w Hwf _ o E) as [t0 Hl].
      assert (Hr : recorded_at (session_key pid id) s w) by (exists o; split; [by exists t0|done]).
      unfold recorded. by rewrite <- (recorded_key _ s w Hi (skey_session pid id) Hr).
  - intros [o|]; [|apply hoare_throw; [apply _|]; by intros w [? _]]. unfold readStored. destruct (parse (o_body o)) as [s|] eqn:Ep.
    + apply hoare_ret; [apply _|]. intros w [Hw H]. cbn in H. by rewrite Ep in H.
    + apply hoare_throw; [apply _|]. by intros w [? _].
  - intros e. apply hoare_throw; [apply _|]. by intros w [? _].
Qed.

(** Every session a scan finds was stored. *)
Definition all_recorded (l : list Session) w : Prop := forall s, s ∈ l -> recorded s w.
#[export] Instance persistent_all_recorded l : Persistent (all_recorded l).
Proof. intros w w' Hg H s Hs. eapply persistent; [exact Hg|by apply H]. Qed.

Lemma scan_objects_recorded throwing objects : (forall i, i ∈ objects -> skey (i_key i)) ->
  hoare G t ready (scan_objects whole_record throwing objects)
    (fun r w => ready w /\ match r with Ok l => all_recorded l w | Err _ => True end).
Proof.
  induction objects as [|obj objects IH]; intros Hk.
  { apply hoare_ret; [apply _|]. intros w Hw. split; [done|]. intros s Hs. by apply not_elem_of_nil in Hs. }
  cbn [scan_objects]. eapply hoare_bind; [apply scan_one_spec; apply _| |intros e; apply hoare_throw; [apply _|]; by intros w [? _]].
  intros r. eapply hoare_bind with (M := fun r' w => (ready w /\ match r with Some (s, _) => recorded s w | None => True end) /\
    r' = Ok (match r with Some (s, _) => [s] | None => [] end)).
  { destruct r as [[s e]|]; (apply hoare_ret; [apply _|]); [|done]. intros w [Hw (o & Hl & _ & Hp)]. split; [|done]. split; [done|].
    assert (Hr : recorded_at (i_key obj) s w) by (by exists o). unfold recorded.
    rewrite <- (recorded_key (i_key obj) s w); [done|apply Hw|apply Hk; by left|done]. }
  2: { intros e. apply hoare_throw; [destruct r as [[]|]; apply _|]. by intros w [_ ?]. }
  intros l. eapply hoare_bind with (M := fun r' w => (ready w /\ match r' with Ok l => all_recorded l w | Err _ => True end) /\
     match r with Some (s, _) => recorded s w | None => True end /\ l = match r with Some (s, _) => [s] | None => [] end).
  - eapply hoare_pre; [|apply (hoare_keep G t) with (F := fun w => match r with Some (s, _) => recorded s w | None => True end /\ l = match r with Some (s, _) => [s] | None => [] end);
      [destruct r as [[]|]; apply _|apply IH]].
    + by intros w [[? ?] [= ->]].
    + intros i Hi. apply Hk. by right.
  - intros l'. apply hoare_ret; [destruct r as [[]|]; apply _|]. intros w [[Hw Hl] [Hr ->]]. split; [done|]. intros s Hs. apply elem_of_app in Hs as [Hs|Hs]; [|by apply Hl].
    destruct r as [[s0 e]|]; [apply list_elem_of_singleton in Hs as ->; done|by apply not_elem_of_nil in Hs].
  - intros e. apply hoare_throw; [destruct r as [[]|]; apply _|]. by intros w [[? _] _].
Qed.

Lemma listed_recorded fuel prefix throwing : (forall k, is_Some (startsWith prefix k) -> skey k) ->
  hoare G t ready (scanPrefix fuel prefix whole_record throwing)
    (fun r w => ready w /\ match r with Ok l => all_recorded l w | Err _ => True end).
Proof.
  intros Hpre. unfold scanPrefix. eapply hoare_bind; [apply (hoare_list_entries G t prefix ready fuel); by intros w [? _]| |].
  - intros objects w [Hw Hl]. apply scan_objects_recorded; [|done]. intros i Hi. by apply Hpre, Hl.
  - intros e. apply hoare_throw; [apply _|]. by intros w [? _].
Qed.
Lemma keeps_scan P fuel prefix throwing `{!Ground P} : (forall k, is_Some (startsWith prefix k) -> skey k) ->
  keeps P (scanPrefix fuel prefix whole_record throwing).
Proof. intros Hpre. apply keeps_record; [done|]. eapply hoare_post; [|by apply listed_recorded]. by intros r w [? _]. Qed.

(** Every named session is listed with its sandbox, or has been removed. *)
Definition removed k w : Prop := fit w /\ (skey k -> reaped k w).
#[export] Instance kept_removed k : Kept G (removed k).
Proof.
  split.
  - intros t0 w w' HG [Hf Hr]. split; [by eapply kept_step|]. intros Hk. destruct (fit_ready names w Hf) as [_ Hi].
    apply (reaped_step t0 k w); [by eapply as_change|auto].
  - intros w ms Hms [Hf Hr]. split; [by apply kept_time|done].
Qed.
Definition accounted (l : list Session) w : Prop := forall k sb, names k sb -> (exists s, s ∈ l /\ ses_sandbox_id s = Some sb) \/ removed k w.
#[export] Instance kept_accounted l : Kept G (accounted l).
Proof. unfold accounted. apply _. Qed.

Lemma keeps_listSessions P fuel `{!Ground P} :
  hoare G t P (listSessions fuel None) (fun r w => P w /\ match r with Ok l => all_recorded l w /\ accounted l w | Err _ => True end).
Proof.
  unfold listSessions, scanSessions. eapply hoare_bind.
  - apply (hoare_both G t P _ _ (fun r w => fit w /\ match r with
        | Ok l => forall k, (exists sb, names k sb) -> is_Some (startsWith sessionsPrefix k) ->
                    (exists s e, s ∈ l /\ scanned k (Some (s, e)) w) \/ removed k w
        | Err _ => True end) (keeps_records P _ _ (listed_recorded fuel sessionsPrefix false (fun k H => H)))).
    eapply hoare_pre; [|eapply hoare_post; [|apply (scan_prefix_found G fit (fun k => exists sb, names k sb) removed _)]].
    + intros w Hw. split; [apply (fit_ready names)|]; by apply ground_fit.
    + by intros r w [[_ ?] ?].
    + intros w k Hr Hf Hk Hs. split; [done|]. intros _. destruct Hf as [(_ & Hg & Hn) _]. by eapply named_absent.
    + done.
  - intros l. apply hoare_ret; [apply _|]. intros w [[HP [_ Hr]] [Hf Hl]]. split; [done|]. split; [done|].
    intros k sb Hk. destruct (proj2 (proj2 (proj1 Hf)) k sb Hk) as (Hsk & _ & Hall).
    destruct (Hl k ltac:(by exists sb) Hsk) as [(s & e & Hs & o & [t0 Hlog] & _ & Hp)|?]; [left|by right].
    exists s. split; [done|]. by apply (Hall t0 o).
  - intros e. apply hoare_throw; [apply _|]. by intros w [[? _] _].
Qed.

(** ** Marking *)

Lemma keeps_change P pid id f `{!Ground P} :
  (forall s s', session_schema s = true -> f s = Some s' -> applied s s') -> keeps P (mutate_ pid id (pure_apply f)).
Proof. intros Hf. apply keeps_record; [done|]. by apply (pure_spec schema_valid G t). Qed.
Lemma keeps_markTerminated P pid id `{!Ground P} : keeps P (markTerminated pid id).
Proof. apply keeps_change; [done|]. intros s s'. apply terminated_applied. Qed.
Lemma keeps_begin_surface_stop P pid id surface `{!Ground P} : keeps P (begin_surface_stop pid id surface).
Proof. apply keeps_record; [done|]. apply (surface_stop_spec schema_valid G t). Qed.
Lemma keeps_markFailed P pid id err `{!Ground P} : keeps P (markFailedWithOutcome pid id err).
Proof. apply keeps_record; [done|]. apply (failed_spec schema_valid G t). Qed.

(** At a time the clock gave *)
#[export] Instance keeps_ids_ground P : Ground P -> KeepsIds P.
Proof. intros HP t0 w id Hid Hw. eapply (kept_step t0); [|exact Hw]. by apply draws_ids. Qed.
Lemma keeps_stamped {A} P (f : Timestamp -> prog A) `{!Ground P} : (forall at_, utcTimestamp at_ = true -> keeps P (f at_)) -> keeps P (at_ ← nowIso; f at_).
Proof.
  intros Hf. eapply hoare_bind; [apply hoare_nowIso; [apply _..|]| |].
  - intros w Hw. by apply (fit_ready names), ground_fit.
  - intros at_. apply hoare_pure. intros (x & [= ->] & Hx). by apply Hf.
  - intros e. apply hoare_throw; [apply _|]. by intros w [_ ?].
Qed.
Lemma keeps_mark_reclaimed P s `{!Ground P} : keeps P (mark_reclaimed s).
Proof. apply keeps_stamped; [done|]. intros at_ Hat. apply keeps_change; [done|]. intros s0 s'. by apply reclaimed_applied. Qed.
Lemma keeps_markCaptured P pid id at_ `{!Ground P} : utcTimestamp at_ = true -> keeps P (markTakeoverCaptureCompleted pid id at_).
Proof.
  intros Hat. apply keeps_change; [done|]. intros s s' Hs [= <-].
  apply (stamp_applied (fun s => s <| ses_takeover_capture_completed_at := Some at_ |>)); [|done]. right. exists at_. auto.
Qed.
Lemma keeps_markSnapshotted P pid id at_ `{!Ground P} : utcTimestamp at_ = true -> keeps P (markSnapshotted pid id at_).
Proof.
  intros Hat. apply keeps_change; [done|]. intros s s' Hs [= <-].
  apply (stamp_applied (fun s => s <| ses_last_snapshot_at := Some at_ |>)); [|done]. eauto.
Qed.
Lemma keeps_markConnections P pid id n at_ `{!Ground P} : (0 <= n)%Z -> utcTimestamp at_ = true -> keeps P (markConnections pid id n at_).
Proof.
  intros Hn Hat. apply keeps_change; [done|]. intros s s' Hs [= <-].
  apply (stamp_applied (fun s => s <| ses_active_connections := Some n |> <| ses_connections_checked_at := Some at_ |>)); [|done].
  right. exists at_. split; [done|]. right. right. by exists n.
Qed.
Lemma keeps_extendExpiry P pid id at_ `{!Ground P} : utcTimestamp at_ = true -> keeps P (extendExpiry pid id at_).
Proof. intros Hat. apply keeps_change; [done|]. intros s s'. by apply extend_applied. Qed.

(** The winner of the transition knows the session closing. *)
Definition terminating_at (k : key) (s : Session) w : Prop := recorded_at k s w /\ ses_status s = Terminating.
#[export] Instance persistent_terminating_at k s : Persistent (terminating_at k s).
Proof. unfold terminating_at. apply _. Qed.
Lemma begin_terminating_spec P pid id by_ `{!Ground P} : optional is_user_id by_ = true ->
  hoare G t P (beginTerminating pid id by_)
    (fun r w => P w /\ match r with Ok (true, s) => terminating_at (session_key pid id) s w | _ => True end).
Proof.
  intros Hb. pose proof (mutate_session_spec schema_valid G t pid id (terminate_fn by_)
    (fun s x s' => ses_status s' = Terminating) (fun _ x => x = false)) as Hm.
  eapply hoare_post; [|apply keeps_records; [done|apply Hm]].
  - intros [[[] s']|e] w [HP [_ H]]; split; try done. destruct H as [(s & Hst & (l & o' & t2 & o2 & l2 & Hh & _ & Hp))|?]; [|done].
    split; [|done]. exists o'. split; [exists t; apply elem_of_hist; rewrite Hh; apply elem_of_app; right; by left|done].
  - intros s Hs. eapply local_weaken; [|by apply terminate_local]. intros [[[] [s'|]]|e]; cbn; tauto.
Qed.
End Rules.
End Specs.
