(* ===== verification/TeardownWork.v ===== *)
(** * Ending sessions

    The programs of [SessionRetirer.v] and [SessionSweep.v] keep to the protocol of
    [TeardownProtocol.v]: what they destroy belonged to a session that was over or
    terminating. *)

From Stdlib Require Import ZArith Lia.
From stdpp Require Import relations.
From S2P Require Import Prelude Constants Lifecycle Schema UtcDate Store Cas Storage CasTheorems CasEffects Calls Listing SessionData AppPoolRouter AppPool SessionService EditorClaims SessionProtocol SessionReplicas SessionRequests RateLimit SessionRetirer Events WarmPools DiagnosticLease Reconciliation SessionSweep TeardownProtocol TeardownReplicas.

Create HintDb quiet discriminated.
#[export] Hint Constants Opaque : quiet.

Section Work.
Context {B : Type} `{!EqDecision B}.
Context {CSe : Codec B Session} {CCu : Codec B VersionPruneCutoff} {CP : Codec B AppPool} {CEd : Codec B EditorClaim} {CAc : Codec B AppClaim}.
Context (schema_valid : forall s : Session, valid s <-> session_schema s = true).
Context (names : key -> SandboxId -> Prop).
Local Abbreviation V := (string * Session)%type (only parsing).
Local Notation prog := (prog B V).
Local Notation G := (TeardownProtocol.G names).
Local Notation fit := (TeardownProtocol.fit names).
Local Notation Ground := (TeardownReplicas.Ground names).
Local Notation keeps := (TeardownReplicas.keeps names).
Implicit Types w : world B V.

(** The provider, the captures and the kernel stay off the session records and destroy
    nothing on their own; a kernel counts its connections from 0. *)
Record away (deps : RetirerDeps (B := B)) : Prop := {
  aw_create id o : quiet (co_create (rd_compute deps) id o);
  aw_connect f id o : co_connectExisting (rd_compute deps) = Some f -> quiet (f id o);
  aw_stop id sid surface attempt : quiet (co_stopSurface (rd_compute deps) id sid surface attempt);
  aw_capture id s options : quiet (rd_captureSession deps id s options);
  aw_thumbnail id s deadline : quiet (rd_captureThumbnail deps id s deadline);
  aw_snapshot id s : quiet (rd_captureFilesystemSnapshot deps id s);
  aw_deadline : quiet (rd_thumbnailDeadline deps);
  aw_probe id s : quiet (rd_probe deps id s);
  aw_count id s : returns (rd_probe deps id s) (fun n => match n with Some n => (0 <= n)%Z | None => True end);
}.
Context (deps : RetirerDeps (B := B)) (deps_away : away deps) (fuel : nat) (t : tid).

#[local] Hint Resolve aw_create aw_stop aw_capture aw_thumbnail aw_snapshot aw_deadline aw_probe
  quiet_releaseAppFor quiet_releaseEditorFor quiet_claimEditor quiet_getEditorClaim quiet_pool_read
  quiet_acquireTakeoverDrainLease quiet_renewTakeoverDrainLease quiet_advanceTakeoverDrainLease
  quiet_finishTakeoverDrainLease quiet_releaseTakeoverDrainLease quiet_getSession quiet_now quiet_ret : quiet.

(** Splits a program into parts that keep the ground by themselves. *)
Ltac keep_step :=
  first
    [ assumption
    | match goal with
      | |- forall _, _ => intros ?
      | |- TeardownReplicas.keeps _ _ _ ?p =>
          lazymatch p with
          | mret _ => apply keeps_ret; apply _
          | Throw _ => apply keeps_throw; apply _
          | mbind _ _ => apply keeps_bind; [apply _| |intros ?]
          | handle _ _ => apply keeps_handle; [|intros ?]
          | catch _ _ => apply keeps_catch; [apply _| |intros ?]
          | when _ _ => apply keeps_when; [apply _|]
          | if ?b then _ else _ => destruct b
          | match ?x with _ => _ end => destruct x
          | markTerminated _ _ => apply keeps_markTerminated; [done|apply _]
          | mark_reclaimed _ => apply keeps_mark_reclaimed; [done|apply _]
          | _ => apply keeps_quiet; [apply _|solve [eauto 3 with nocore quiet]]
          end
      end ].
Ltac keep := repeat keep_step.

Section Ground.
Context (P : world B V -> Prop) `{!Ground P}.

Lemma keeps_event event sb : (forall w, P w -> G t w (set_audits w ((event, sb) :: audits w))) -> keeps t P (destroy event sb).
Proof.
  intros HG. apply hoare_call; [apply _|intros r; apply _|]. intros w r w' Hw Hs.
  assert (H : w' = w \/ w' = set_audits w ((event, sb) :: audits w)).
  { destruct Hs as [[-> _]|(_ & [->|[[r' [-> _]]|[]]] & _)]; auto. }
  destruct H as [->| ->]; [split; [apply protocol_idle|done]|]. pose proof (HG w Hw) as Hstep. split; [done|by eapply kept_step].
Qed.
Lemma keeps_destroy sb : (forall w, P w -> closed_with sb w) -> keeps t P (destroy destroy_event sb).
Proof. intros Hc. apply keeps_event. intros w Hw. eapply t_destroy; [done|by apply Hc]. Qed.

Lemma keeps_ownsEditorClaim s : keeps t P (ownsEditorClaim fuel s).
Proof.
  unfold ownsEditorClaim. apply keeps_bind; [apply _|by keep|]. intros claim. destruct (truthy _); [by keep|]. destruct (_ || _); [by keep|].
  apply keeps_bind; [apply _|apply keeps_scan; [apply _|apply project_prefix]|]. intros items. keep.
Qed.

Lemma keeps_begin_stops s surfaces : keeps t P (begin_stops s surfaces).
Proof.
  induction surfaces as [|id surfaces IH]; cbn [begin_stops]; [by keep|]. apply keeps_handle; [by apply keeps_begin_surface_stop|]. intros r. keep.
Qed.
Lemma keeps_stop_processes sandbox s fenced surfaces : keeps t P (stop_processes deps sandbox s fenced surfaces).
Proof. induction surfaces as [|id surfaces IH]; cbn [stop_processes]; keep. Qed.
Lemma keeps_stopSecondarySurfaces sandbox s : keeps t P (stopSecondarySurfaces deps sandbox s).
Proof.
  unfold stopSecondarySurfaces. apply keeps_bind; [apply _|by keep|]. intros current. destruct (secondary_surfaces current) as [|x l]; [by keep|].
  apply keeps_bind; [apply _|apply keeps_begin_stops|]. intros failures. destruct (omap id failures); [|by keep].
  apply keeps_bind; [apply _|by keep|]. intros fenced. apply keeps_bind; [apply _|apply keeps_stop_processes|]. intros stopped. keep.
Qed.
Lemma keeps_captureSavedArtifacts sandbox s deadline : keeps t P (captureSavedArtifacts deps sandbox s deadline).
Proof. unfold captureSavedArtifacts. keep. Qed.
Lemma keeps_try_capture sandbox s : keeps t P (try_capture deps fuel sandbox s).
Proof.
  unfold try_capture. apply keeps_catch; [apply _| |intros e; by keep]. apply keeps_bind; [apply _| |intros b; by keep].
  destruct (persists_edits s); [apply keeps_ownsEditorClaim|by keep].
Qed.

(** *** A session whose sandbox may go *)
Context (s : Session) (P_doomed : forall w, P w -> doomed s w).

Lemma keeps_destroySandbox attached : keeps t P (destroySandbox deps s attached).
Proof.
  unfold destroySandbox. destruct (truthy (ses_sandbox_id s)) as [sb|] eqn:E; [|by keep]. apply keeps_handle; [|intros r; by keep].
  apply keeps_bind; [apply _|by keep|]. intros u. apply keeps_destroy. intros w Hw. by apply P_doomed.
Qed.
Lemma keeps_teardownSandbox capture deadline attached : keeps t P (teardownSandbox deps fuel s capture deadline attached).
Proof.
  unfold teardownSandbox. destruct (truthy (ses_sandbox_id s)) as [sb|] eqn:E; [|by keep].
  apply keeps_bind; [apply _|by keep|]. intros u. apply keeps_bind; [apply _|apply keeps_stopSecondarySurfaces|]. intros stopped.
  apply keeps_bind; [apply _| |].
  { destruct (_ && _); [apply keeps_try_capture|by keep]. }
  intros persisted. apply keeps_bind; [apply _|apply keeps_when; [apply _|apply keeps_captureSavedArtifacts]|]. intros u'.
  apply keeps_bind; [apply _|apply keeps_destroySandbox|]. intros d. keep.
Qed.
Lemma keeps_retire opts : keeps t P (retire deps fuel s opts).
Proof.
  unfold retire, mark_terminated, try_mark_reclaimed. destruct (_ && _); [by keep|].
  apply keeps_bind; [apply _| |intros d; by keep]. destruct (ro_teardown opts); [|by keep].
  apply keeps_bind; [apply _|apply keeps_teardownSandbox|]. intros d. keep.
Qed.

(** *** Reclaiming *)

Lemma keeps_finishReclaim : keeps t P (finishReclaim s).
Proof. unfold finishReclaim, mark_terminated, try_mark_reclaimed. keep. Qed.
Lemma keeps_destroy_and_finish attached : keeps t P (destroy_and_finish deps s attached).
Proof. unfold destroy_and_finish. apply keeps_bind; [apply _|apply keeps_destroySandbox|]. intros [|]; [|by keep]. apply keeps_bind; [apply _|apply keeps_finishReclaim|by keep]. Qed.
Lemma keeps_reclaim_sandbox capture attached deadline : keeps t P (reclaim_sandbox deps fuel s capture attached deadline).
Proof.
  unfold reclaim_sandbox. destruct (_ && _); [|apply keeps_destroy_and_finish].
  apply keeps_bind; [apply _|apply keeps_teardownSandbox|]. intros d. destruct (td_destroyed d); [|by keep].
  apply keeps_bind; [apply _|apply keeps_finishReclaim|]. intros u. keep.
Qed.
Lemma keeps_attach needed : keeps t P (attach_sandbox deps s needed).
Proof.
  unfold attach_sandbox. destruct (truthy _) as [id|]; [|by keep]. destruct needed; [|by keep]. apply keeps_handle; [|intros r; by keep].
  destruct (co_connectExisting (rd_compute deps)) as [f|] eqn:E; [|by keep]. apply keeps_quiet; [apply _|]. by eapply aw_connect.
Qed.
Lemma keeps_reclaim_planned now opts superseded : keeps t P (reclaim_planned deps fuel s now opts superseded).
Proof.
  unfold reclaim_planned. apply keeps_bind; [apply _|apply keeps_attach|]. intros [| | |].
  - apply keeps_reclaim_sandbox.
  - apply keeps_bind; [apply _| |].
    + destruct (reclaimProbes _ _ _); [|by keep]. unfold probe_kernel. keep.
    + intros [|reason|]; [apply keeps_reclaim_sandbox|by keep|apply keeps_destroy_and_finish].
  - apply keeps_bind; [apply _|apply keeps_finishReclaim|]. intros u. keep.
  - keep.
Qed.

(** *** Taking over *)

(** The lease callbacks stay off the session records. *)
Definition lease_quiet (lease : DrainLease (B := B)) : Prop := (forall n, quiet (dl_assert lease n)) /\ (forall n stage, quiet (dl_advance lease n stage)).
Lemma keeps_capture_for_takeover lease sandbox : lease_quiet lease -> keeps t P (capture_for_takeover deps lease sandbox s).
Proof.
  intros [Ha Hb]. unfold capture_for_takeover. apply keeps_bind; [apply _|by keep|]. intros persisted.
  apply keeps_bind; [apply _|by apply keeps_quiet; [apply _|]|]. intros u. apply keeps_bind; [apply _| |].
  { apply keeps_when; [apply _|]. apply keeps_bind; [apply _|by apply keeps_quiet; [apply _|]|]. intros u'.
    apply keeps_bind; [apply _|apply keeps_captureSavedArtifacts|]. intros u2. by apply keeps_quiet; [apply _|]. }
  intros u'. apply keeps_stamped; [apply _|]. intros at_ Hat. apply keeps_bind; [apply _|by apply keeps_markCaptured; [|apply _|]|]. intros x. keep.
Qed.
Lemma keeps_teardownForTakeover lease : lease_quiet lease -> keeps t P (teardownForTakeover deps s lease).
Proof.
  intros Hl. pose proof Hl as [Ha Hb]. unfold teardownForTakeover. destruct (truthy (ses_sandbox_id s)) as [sb|] eqn:E; [|by keep].
  destruct (set_time _); [by keep|]. apply keeps_bind; [apply _|by keep|]. intros u. apply keeps_bind; [apply _|apply keeps_stopSecondarySurfaces|].
  intros stopped. destruct (negb stopped); [by keep|]. apply keeps_bind; [apply _|apply keeps_when; [apply _|by apply keeps_capture_for_takeover]|].
  intros u1. apply keeps_bind; [apply _|by apply keeps_quiet; [apply _|]|]. intros u2. apply keeps_bind; [apply _|by apply keeps_quiet; [apply _|]|].
  intros u3. apply keeps_bind; [apply _|apply keeps_destroy; intros w Hw; by apply P_doomed|]. intros u4.
  apply keeps_bind; [apply _|by apply keeps_quiet; [apply _|]|]. intros u5. apply keeps_bind; [apply _|by keep|]. intros u6. by apply keeps_quiet; [apply _|].
Qed.
End Ground.

(** ** The requests *)

Section Requests.
Context (P : world B V -> Prop) `{!Ground P}.

Lemma terminating_doomed s w : ready w -> (exists k, skey k /\ terminating_at k s w) -> doomed s w.
Proof.
  intros [_ Hi] (k & Hk & Hr & Hst). apply recorded_doomed; [|unfold closing; rewrite Hst; by apply orb_true_r].
  unfold recorded. by rewrite <- (recorded_key k s w Hi Hk Hr).
Qed.

(** After the transition is won *)
Definition won (k : key) (r : bool * Session) w : Prop := let (transitioned, s) := r in if transitioned : bool then terminating_at k s w else True.
#[local] Instance persistent_won k r : Persistent (won k r).
Proof. destruct r as [[] s]; unfold won; apply _. Qed.
Lemma keeps_begin {A} pid id by_ (f : bool * Session -> prog A) : optional is_user_id by_ = true ->
  (forall r, keeps t (fun w => P w /\ won (session_key pid id) r w) (f r)) -> keeps t P (r ← beginTerminating pid id by_; f r).
Proof.
  intros Hb Hf. apply (keeps_learn names t P (won (session_key pid id))); [apply _|intros a; apply _| |exact Hf].
  eapply hoare_post; [|by apply (begin_terminating_spec schema_valid names t P pid id by_)]. by intros [[[] s]|e] w.
Qed.
Lemma won_doomed k s w : skey k -> P w -> won k (true, s) w -> doomed s w.
Proof. intros Hk Hw Hr. apply terminating_doomed; [apply (fit_ready names); by apply (ground_fit (P := P) names)|by exists k]. Qed.

Lemma keeps_stop_and_retire pid id : keeps t P (stop_and_retire deps fuel pid id).
Proof.
  unfold stop_and_retire. apply keeps_begin; [done|]. intros [[] s].
  - apply keeps_retire; [apply _|]. intros w [Hw Hr]. by apply (won_doomed (session_key pid id)); [apply skey_session|..].
  - unfold retire, mark_terminated, try_mark_reclaimed. cbn [ro_teardown ro_markTerminated default_retire negb andb]. keep.
Qed.

Lemma keeps_reclaim selected opts : keeps t P (reclaim deps fuel selected opts).
Proof.
  unfold reclaim. apply (keeps_learn names t P (fun s w => recorded s w /\ True)); [apply _|intros s; apply _| |].
  { apply (recorded_session_spec names t P _ _ (fun _ => True)). done. }
  intros s. apply (keeps_pre names t (fun w => P w /\ recorded s w)); [intros w; tauto|].
  apply keeps_bind; [apply _|by keep|]. intros now. apply keeps_bind; [apply _| |].
  { unfold superseded_now. destruct (_ && _); [|by keep]. unfold supersededByLiveEditor. apply keeps_bind; [apply _| |intros l; by keep].
    unfold listByProject. apply keeps_bind; [apply _|apply keeps_scan; [apply _|apply project_prefix]|intros l; by keep]. }
  intros superseded. destruct (reclaimBlockedReason s now _) eqn:Eb; [by keep|].
  assert (Hd : forall w, P w /\ recorded s w -> doomed s w).
  { intros w [_ Hr]. apply recorded_doomed; [done|]. unfold reclaimBlockedReason in Eb. unfold closing.
    destruct (SessionState.isTerminal (ses_status s)); [done|]. by destruct (ses_status s === Terminating). }
  destruct (set_time _); [|apply keeps_reclaim_planned; [apply _|exact Hd]]. apply keeps_bind; [apply _|apply keeps_finishReclaim; apply _|]. intros u. keep.
Qed.

Lemma no_lease_quiet : lease_quiet no_lease.
Proof. done. Qed.
Lemma keeps_retireForTakeover s by_ : is_user_id by_ = true -> keeps t P (retireForTakeover deps s by_).
Proof.
  intros Hb. unfold retireForTakeover. set (k := session_key (ses_project_id s) (ses_session_id s)).
  apply (hoare_handle G t P (fun r w => P w /\ match r with Ok s' => won k (true, s') w | Err _ => True end)).
  - eapply hoare_bind; [by apply (begin_terminating_spec schema_valid names t P)| |].
    + intros [[] s']; [apply hoare_ret; [apply _|done]|apply hoare_throw; [apply _|]; by intros w [? _]].
    + intros e. apply hoare_throw; [apply _|]. by intros w [? _].
  - intros [s'|e]; [|apply hoare_ret; [apply _|]; by intros w [? _]].
    eapply hoare_post; [|apply (keeps_handle names t (fun w => P w /\ won k (true, s') w)); [|intros r; apply keeps_ret, _]]; [by intros r w [? _]|].
    apply keeps_bind; [apply _| |].
    + apply keeps_teardownForTakeover; [apply _| |apply no_lease_quiet]. intros w [Hw Hr]. by apply (won_doomed k); [apply skey_session|..].
    + intros u. keep.
Qed.

(** A session seen closing is closing still. *)
Definition seen_closing (k : key) w : Prop := exists s, recorded_at k s w /\ closing s = true.
#[export] Instance persistent_seen_closing k : Persistent (seen_closing k).
Proof. unfold seen_closing. apply _. Qed.
Lemma still_closing k w o s : ready w -> skey k -> seen_closing k w -> store w !! k = Some o -> parse (o_body o) = Some s -> closing s = true.
Proof.
  intros [_ Hi] Hk (s0 & (o0 & [t0 Hl] & Hp0) & Hc) Ho Hp. destruct (sinv_current w k t0 o0 s0 o Hi Hk Hl Hp0 Ho) as (s1 & Hp1 & Hev).
  rewrite Hp in Hp1. injection Hp1 as <-. by apply (reach_closing _ _ (ev_status _ _ Hev)).
Qed.

Lemma drain_lease_quiet lost pid nid takeover lease : lease_quiet (drain_lease (B := B) lost pid nid takeover lease).
Proof.
  split; intros; cbn [dl_assert dl_advance drain_lease]; destruct (lost _); [done| |done|];
    (apply quiet_bind; [eauto 3 with nocore quiet|by intros []]).
Qed.
Lemma keeps_completeTakeoverDrain lost s takeover lease :
  (forall w, P w -> seen_closing (session_key (ses_project_id s) (ses_session_id s)) w) -> keeps t P (completeTakeoverDrain deps lost s takeover lease).
Proof.
  intros Hc. unfold completeTakeoverDrain. apply keeps_bind; [apply _|by keep|]. intros acquired. destruct (negb acquired); [by keep|].
  pose proof (drain_lease_quiet lost (ses_project_id s) (ses_notebook_id s) takeover lease) as [Ha Hb].
  apply keeps_handle; [|intros r; by keep]. apply (keeps_learn names t P (fun s w => recorded s w /\ closing s = true)); [apply _|intros x; apply _| |].
  { apply (recorded_session_spec names t P _ _ (fun s => closing s = true)). intros w o x Hw. apply still_closing; [|apply skey_session|by apply Hc].
    apply (fit_ready names). by apply (ground_fit (P := P) names). }
  intros current. apply keeps_bind; [apply _| |].
  { apply keeps_teardownForTakeover; [apply _|intros w [_ [? ?]]; by apply recorded_doomed|done]. }
  intros u. apply keeps_bind; [apply _|by apply keeps_quiet; [apply _|]|]. intros u1. keep.
Qed.

(** *** The sweep *)

(** A running session whose stop this thread wins ends with the sandbox it ran in. *)
Lemma running_doomed s s' w : ready w -> recorded s w -> ses_status s = Running ->
  terminating_at (session_key (ses_project_id s) (ses_session_id s)) s' w -> doomed s w.
Proof.
  intros Hr Hs Hst Ht. pose proof Hr as [_ Hi]. pose proof Ht as [Hs' Hst'].
  destruct (recorded_ordered _ s s' w Hi (skey_session _ _) Hs Hs') as [Hev|Hev].
  - intros sb Hsb. apply (terminating_doomed s' w Hr); [eexists; split; [apply skey_session|exact Ht]|].
    destruct (ev_sandbox _ _ Hev) as [->|E]; [done|]. by rewrite Hst in E.
  - pose proof (reach_closing _ _ (ev_status _ _ Hev)) as H. rewrite Hst, Hst' in H. by discriminate H.
Qed.
Lemma keeps_gracefulTeardown s capture deadline : (forall w, P w -> recorded s w) -> ses_status s = Running ->
  keeps t P (gracefulTeardown deps fuel s capture deadline).
Proof.
  intros Hs Hst. unfold gracefulTeardown. set (k := session_key (ses_project_id s) (ses_session_id s)).
  apply (hoare_handle G t P (fun r w => P w /\ match r with Ok r => won k r w | Err _ => True end)).
  { eapply hoare_post; [|by apply (begin_terminating_spec schema_valid names t P)]. by intros [[[] x]|e] w. }
  intros [[[] s']|e]; [|apply hoare_ret; [apply _|]; by intros w [? _]..].
  eapply hoare_post; [|apply (keeps_bind names t (fun w => P w /\ won k (true, s') w)); [apply _| |intros u; apply keeps_ret, _]]; [by intros r w [? _]|].
  apply keeps_retire; [apply _|]. intros w [Hw Hr]. apply (running_doomed s s'); [|by apply Hs|done|exact Hr].
  apply (fit_ready names). by apply (ground_fit (P := P) names).
Qed.
End Requests.

Section Sweep.
Context (cfg : SessionLifecycleConfig) (now : Z) (deadline : option Z) (notebooks : list NotebookId).
Context (now_ok : utcTimestamp (toISOString now) = true) (extension_ok : utcTimestamp (toISOString (now + lc_extensionMs cfg)) = true).

Lemma keeps_reach_sandbox P s `{!Ground P} : keeps t P (reach_sandbox deps now s).
Proof.
  unfold reach_sandbox. destruct (truthy _) as [id|]; [|by keep]. destruct (_ === _); [by keep|]. destruct (_ && _); [|by keep].
  destruct (co_connectExisting _) as [f|] eqn:E; [|by keep]. apply keeps_bind; [apply _| |intros u; by keep].
  apply keeps_quiet; [apply _|]. by eapply aw_connect.
Qed.
Lemma keeps_ask_kernel P s sandbox ask `{!Ground P} : keeps t P (ask_kernel deps now s sandbox ask).
Proof.
  unfold ask_kernel. destruct sandbox as [id|]; [|by keep]. destruct ask; [|by keep].
  eapply hoare_bind with (M := fun r w => P w /\ match r with Ok (Some n, _) => (0 <= n)%Z | _ => True end).
  - eapply hoare_handle; [apply (returns_quiet names t P _ _ (aw_probe deps deps_away id s) (aw_count deps deps_away id s))|].
    intros [n|e]; [apply hoare_ret; [apply _|done]|]. destruct e; try (apply hoare_throw; [apply _|]; by intros w [? _]).
    apply hoare_ret; [apply _|]. by intros w [? _].
  - intros [[n|] gone]; [|apply hoare_pre with (P := P); [by intros w [? _]|]; apply (keeps_ret names t P (None, gone)); apply _].
    eapply hoare_pre; [intros w [Hw Hn]; exact (conj Hn Hw)|]. apply hoare_pure. intros Hn. apply (keeps_bind names t P); [apply _| |intros u; by keep].
    apply keeps_when; [apply _|]. apply keeps_handle; [by apply keeps_markConnections; [|apply _|..]|intros r; by keep].
  - intros e. apply hoare_throw; [apply _|]. by intros w [? _].
Qed.
Lemma keeps_snapshot_floor P s sandbox gone `{!Ground P} : keeps t P (snapshot_floor deps fuel cfg now s sandbox gone).
Proof.
  unfold snapshot_floor. apply keeps_bind; [apply _| |].
  { destruct (snapshotDueByCadence _ _ _); [|by keep]. apply keeps_catch; [apply _|by apply keeps_ownsEditorClaim|intros e; by keep]. }
  intros due. destruct sandbox as [id|]; [|by keep]. destruct (_ && _); [|by keep]. apply keeps_handle; [by keep|].
  intros [saved|e]; [|by keep]. apply keeps_handle; [by apply keeps_markSnapshotted; [|apply _|]|intros r; by keep].
Qed.
Lemma keeps_sweep_one P s pool b sandbox `{!Ground P} : (forall w, P w -> recorded s w) -> sweep_candidate s = true ->
  keeps t P (sweep_one deps fuel cfg now deadline notebooks s pool b sandbox).2.
Proof.
  intros Hs Hc. unfold sweep_one. destruct (count_due cfg now s b) as [b' due]. cbn [snd].
  apply keeps_bind; [apply _|by apply keeps_ask_kernel|]. intros [active gone]. destruct (SessionState.isTerminal (ses_status s)) eqn:Et.
  - unfold sweep_terminal. destruct (keeps_editors _ _ _); [destruct (includes _ _); [by keep|by apply keeps_snapshot_floor]|].
    apply keeps_bind; [apply _|by apply keeps_reclaim|]. intros outcome. by keep.
  - assert (Hst : ses_status s = Running).
    { unfold sweep_candidate in Hc. rewrite Et, andb_false_l, orb_false_r in Hc. apply andb_true_iff in Hc as [_ Hc]. by apply bool_decide_eq_true in Hc. }
    assert (Hreap : forall capture r, keeps t P (reaped ← gracefulTeardown deps fuel s capture deadline; mret (if reaped : bool then r else swept_nothing))).
    { intros capture r. apply keeps_bind; [apply _|by apply keeps_gracefulTeardown|]. intros x. by keep. }
    unfold sweep_live. destruct (live_action _ _ _ _); [apply Hreap..| |apply Hreap|by apply keeps_snapshot_floor].
    apply keeps_handle; [by apply keeps_extendExpiry; [|apply _|]|]. intros r. apply keeps_bind; [apply _|by apply keeps_snapshot_floor|]. intros x. by keep.
Qed.
Lemma keeps_pool_for P s seen `{!Ground P} : keeps t P (pool_for s seen).
Proof. unfold pool_for, read_pool_settled. keep. Qed.
Lemma keeps_sweep_each l seen b P `{!Ground P} : (forall w, P w -> all_recorded l w) -> (forall s, s ∈ l -> sweep_candidate s = true) ->
  keeps t P (sweep_each deps fuel cfg now deadline notebooks l seen b).
Proof.
  revert seen b. induction l as [|s l IH]; intros seen b Hl Hc; cbn [sweep_each]; [by keep|].
  assert (Hrest : forall seen b, keeps t P (sweep_each deps fuel cfg now deadline notebooks l seen b)).
  { intros seen' b'. apply IH; [intros w Hw x Hx; apply (Hl w Hw); by right|intros x Hx; apply Hc; by right]. }
  apply keeps_handle; [by apply keeps_reach_sandbox|]. intros [sandbox|e]; [|apply Hrest].
  apply keeps_bind; [apply _|by apply keeps_pool_for|]. intros [[pool|e] seen']; [|apply Hrest].
  pose proof (keeps_sweep_one P s pool b sandbox) as Hone. destruct (sweep_one _ _ _ _ _ _ s pool b sandbox) as [b' work]. cbn [snd] in Hone.
  apply keeps_bind; [apply _| |].
  { apply keeps_catch; [apply _| |intros e; by keep]. apply Hone; [intros w Hw; apply (Hl w Hw); by left|apply Hc; by left]. }
  intros one. apply keeps_bind; [apply _|apply Hrest|]. intros [rest b'']. by keep.
Qed.
End Sweep.

Lemma keeps_sweep_sessions P cfg now b `{!Ground P} : utcTimestamp (toISOString now) = true ->
  utcTimestamp (toISOString (now + lc_extensionMs cfg)) = true -> keeps t P (sweep_sessions deps fuel cfg now b).
Proof.
  intros Hn Hx. unfold sweep_sessions. apply keeps_bind; [apply _|by keep|]. intros started.
  apply (keeps_learn names t P all_recorded); [apply _|intros l; apply _| |].
  { eapply hoare_post; [|apply (keeps_listSessions names t P fuel)]. by intros [l|e] w [? H]; (split; [done|]); [destruct H|]. }
  intros sessions. apply keeps_sweep_each; [done|done|apply _|..].
  - intros w [_ Hl] s Hs. apply Hl. by apply List_filter_elem in Hs as [? _].
  - intros s Hs. by apply List_filter_elem in Hs as [_ ?].
Qed.
End Work.
