(* ===== verification/TeardownTheorems.v ===== *)
(** * Sandboxes are destroyed only when nothing lives in them

    Reconciliation kept to the protocol of [TeardownProtocol.v], and what follows for any
    number of replicas that end sessions in every way the program has, beside every other
    request on the session records. *)

From Stdlib Require Import ZArith Lia.
From stdpp Require Import relations.
From S2P Require Import Prelude Constants Lifecycle Schema UtcDate Store Cas Storage CasTheorems CasEffects Calls Listing SessionData AppPoolRouter AppPool SessionService EditorClaims SessionProtocol SessionReplicas SessionRequests RateLimit SessionRetirer Events WarmPools DiagnosticLease Reconciliation SessionSweep TeardownProtocol TeardownReplicas TeardownWork.

Section Reconcile.
Context {B : Type} `{!EqDecision B}.
Context {CSe : Codec B Session} {CCu : Codec B VersionPruneCutoff} {CP : Codec B AppPool} {CEd : Codec B EditorClaim} {CAc : Codec B AppClaim}.
Context {CW : Codec B WarmPoolRecord} {CL : Codec B SandboxDiagnosticLeaseRecord} {CO : Codec B OrphanMarker}.
Context (schema_valid : forall s : Session, valid s <-> session_schema s = true).
Context (names : key -> SandboxId -> Prop).
Local Abbreviation V := (string * Session)%type (only parsing).
Local Notation prog := (prog B V).
Local Notation G := (TeardownProtocol.G names).
Local Notation fit := (TeardownProtocol.fit names).
Local Notation Ground := (TeardownReplicas.Ground names).
Local Notation keeps := (TeardownReplicas.keeps names).
Local Notation removed := (TeardownReplicas.removed names).
Local Notation accounted := (TeardownReplicas.accounted names).
Implicit Types w : world B V.

Context (deps : RetirerDeps (B := B)) (deps_away : away deps) (fuel : nat) (t : tid).
Context (jobRuns : option (ActiveSandboxSource (B := B))) (getTime : string -> option Z).
(** Reading what the runs own stays off the session records. *)
Definition runs_quiet : Prop :=
  match jobRuns with
  | None => True
  | Some (ListActiveSnapshot read) => quiet read
  | Some (ListActive read) => quiet read
  | Some (ActiveIds read) => quiet read
  end.
Context (jobs_away : runs_quiet).

(** ** Terminal and vanished sessions *)
Section Ground.
Context (P : world B V -> Prop) `{!Ground P}.

Lemma keeps_reclaim_each late inFlight deadline l tally : keeps t P (reclaim_each deps fuel late inFlight deadline l tally).
Proof.
  revert tally. induction l as [|s l IH]; intros tally; cbn [reclaim_each]; [apply keeps_ret, _|].
  apply keeps_bind; [apply _| |intros ?; apply IH]. unfold reclaim_one. apply keeps_handle.
  - destruct (_ || _); [apply keeps_ret, _|by apply keeps_reclaim].
  - assert (Hk : forall f : Z -> ReclaimTally, keeps t P (now ← now_ms; mret (f now))).
    { intros f. apply keeps_bind; [apply _|apply keeps_quiet; [apply _|apply quiet_now]|]. intros now. apply keeps_ret, _. }
    intros [[saved|reason]|e]; [apply keeps_ret, _|..]; (destruct (set_time _); [apply keeps_ret, _|apply Hk]).
Qed.
Lemma keeps_reclaimTerminalSessions late inFlight deadline : keeps t P (reclaimTerminalSessions deps fuel late inFlight deadline).
Proof.
  unfold reclaimTerminalSessions. apply keeps_bind; [apply _| |intros l; apply keeps_reclaim_each].
  eapply hoare_post; [|apply (keeps_listSessions names t P fuel)]. by intros r w [? _].
Qed.

Lemma keeps_mark_dead now ids s seen : keeps t P (mark_dead now ids s seen).
Proof.
  unfold mark_dead. destruct (negb _); [apply keeps_ret, _|]. destruct (_ && _); [apply keeps_ret, _|].
  apply keeps_bind; [apply _| |].
  { destruct (_ && _); [|apply keeps_ret, _]. unfold read_pool_settled. destruct (obj_get _ _); [apply keeps_ret, _|].
    apply keeps_handle; [apply keeps_quiet; [apply _|apply quiet_pool_read]|intros r; apply keeps_ret, _]. }
  intros [[pool|e] seen']; [|apply keeps_ret, _]. destruct (match pool with Some _ => _ | None => _ end); [apply keeps_ret, _|].
  apply keeps_bind; [apply _| |intros d; apply keeps_ret, _]. apply keeps_catch; [apply _| |intros e; apply keeps_ret, _].
  unfold mark_failed_dead. apply keeps_bind; [apply _| |].
  - apply keeps_handle; [by apply keeps_markFailed|]. intros [[x b]|e]; apply keeps_ret, _.
  - intros b. apply keeps_bind; [apply _|apply keeps_quiet; [apply _|apply quiet_releaseAppFor]|]. intros u. apply keeps_ret, _.
Qed.
Lemma keeps_mark_dead_each now ids l seen : keeps t P (mark_dead_each now ids l seen).
Proof.
  revert seen. induction l as [|s l IH]; intros seen; cbn [mark_dead_each]; [apply keeps_ret, _|].
  apply keeps_bind; [apply _|apply keeps_mark_dead|]. intros [d seen']. apply keeps_bind; [apply _|apply IH|]. intros rest. apply keeps_ret, _.
Qed.

(** ** Orphans *)

(** Nobody's: no session that keeps its sandbox has one of [ids] outside [owned]. *)
Definition cleared (owned : list string) w : Prop := forall k sb, names k sb -> includes sb owned = true \/ removed k w.

Lemma reconcile_marker_off k : is_Some (orphan_of k) -> ~ skey k.
Proof.
  unfold orphan_of. intros [id H] [r Hr]. destruct (startsWith reconcileOrphansPrefix k) as [rest|] eqn:E; [|done].
  apply startsWith_split in E as ->. cbn in Hr. discriminate Hr.
Qed.
Lemma keeps_reap_orphan sb owned : (forall w, P w -> cleared owned w) -> includes sb owned = false -> keeps t P (reap_orphan deps sb).
Proof.
  intros Hc Ho. unfold reap_orphan. apply keeps_handle.
  - apply keeps_bind; [apply _|apply keeps_quiet; [apply _|by apply aw_create]|]. intros u. apply keeps_event; [apply _|]. intros w Hw.
    eapply t_orphan; [done|]. intros k Hk. destruct (Hc w Hw k sb Hk) as [Hin|[Hf Hr]]; [congruence|].
    apply Hr. by apply (proj2 (proj2 (proj1 Hf)) k sb).
  - intros [u|e]; [|apply keeps_ret, _]. apply keeps_handle; [|intros r; apply keeps_ret, _]. apply keeps_quiet; [apply _|].
    apply calls_call. intros k Hk. apply list_elem_of_singleton in Hk as ->. apply reconcileOrphan_off.
Qed.
Lemma keeps_orphan_age now sandbox : keeps t P (orphan_age getTime now sandbox).
Proof.
  unfold orphan_age. destruct (truthy _); [apply keeps_ret, _|]. apply keeps_bind; [apply _|apply keeps_quiet; [apply _|apply quiet_firstSeenOrphan]|].
  intros x. apply keeps_ret, _.
Qed.
Lemma keeps_reap_orphans now grace owned l pending : (forall w, P w -> cleared owned w) -> keeps t P (reap_orphans deps getTime now grace owned l pending).
Proof.
  intros Hc. revert pending. induction l as [|sandbox l IH]; intros pending; cbn [reap_orphans]; [apply keeps_ret, _|].
  destruct (includes (av_id sandbox) owned) eqn:Ho; [apply IH|]. apply keeps_bind; [apply _|apply keeps_orphan_age|]. intros [age undated].
  destruct (num_cmp _ _ _); [apply IH|]. apply keeps_bind; [apply _|by eapply keeps_reap_orphan|]. intros reaped.
  apply keeps_bind; [apply _|apply IH|]. intros [ids pending']. apply keeps_ret, _.
Qed.
Lemma stale_markers_off keep keys : returns (stale_markers (B := B) keep keys) (fun l => forall k, k ∈ l -> ~ skey k).
Proof.
  induction keys as [|k keys IH]; cbn [stale_markers]; [by intros k Hk%not_elem_of_nil|]. destruct (orphan_of k) as [id|] eqn:E; [|done].
  eapply returns_bind; [exact IH|]. intros l Hl. cbn. destruct (includes id keep); [done|]. intros k' Hk'. apply elem_of_cons in Hk' as [->|?]; [|auto].
  apply reconcile_marker_off. by rewrite E.
Qed.
Lemma quiet_stale_markers keep keys : quiet (stale_markers (B := B) keep keys).
Proof. induction keys as [|k keys IH]; cbn [stale_markers]; [done|]. destruct (orphan_of k); [|done]. by apply quiet_bind. Qed.
Lemma keeps_pruneOrphanMarkers keep : keeps t P (pruneOrphanMarkers (B := B) fuel keep).
Proof.
  unfold pruneOrphanMarkers. apply keeps_bind; [apply _|apply keeps_catch; [apply _|apply keeps_quiet; [apply _|apply quiet_listAllKeys]|intros e; apply keeps_ret, _]|].
  intros keys. apply (keeps_learn names t P (fun l _ => forall k, k ∈ l -> ~ skey k)); [apply _|intros l; apply _| |].
  { eapply hoare_post; [|apply (returns_quiet names t P _ _ (quiet_stale_markers keep keys) (stale_markers_off keep keys))]. by intros r w. }
  intros stale. eapply hoare_pre; [intros w [Hw Hs]; exact (conj Hs Hw)|]. apply hoare_pure. intros Hs.
  eapply hoare_post; [|apply (keeps_quiet names t P)]; [by intros r w Hw|apply _|]. destruct stale; [done|]. apply calls_handle; [|done]. by apply calls_call.
Qed.
Lemma keeps_reap_unowned now grace owned active : (forall w, P w -> match owned with Some owned => cleared owned w | None => True end) ->
  keeps t P (reap_unowned deps fuel getTime now grace owned active).
Proof.
  intros Hc. unfold reap_unowned. destruct owned as [owned|]; [|apply keeps_ret, _]. apply keeps_bind; [apply _|by apply keeps_reap_orphans|].
  intros [ids pending]. apply keeps_bind; [apply _|apply keeps_pruneOrphanMarkers|]. intros u. apply keeps_ret, _.
Qed.
End Ground.

(** ** The whole sweep *)

(** What is owned includes the sandboxes of the sessions listed. *)
Definition covers (sessions : list Session) (owned : option (list string)) : Prop :=
  match owned with
  | Some owned => forall s sb, s ∈ sessions -> truthy (ses_sandbox_id s) = Some sb -> includes sb owned = true
  | None => True
  end.
Lemma quiet_job_sandboxes : quiet (job_sandboxes jobRuns).
Proof.
  assert (Hk : forall entries, quiet (known_runs (B := B) entries)) by (intros entries; unfold known_runs; by destruct (existsb _ _)).
  unfold job_sandboxes, runs_quiet in *. destruct jobRuns as [[read|read|read]|]; [|by apply quiet_bind|done|done].
  apply quiet_bind; [done|]. intros [entries []]; [apply Hk|done].
Qed.
Lemma quiet_owned_ids diagnostics sessions : quiet (owned_ids fuel jobRuns diagnostics sessions).
Proof. apply calls_handle; [apply quiet_allOwnedSandboxIds|]. intros warm. apply calls_handle; [apply quiet_job_sandboxes|done]. Qed.
Lemma returns_handle {A C} (p : prog A) (f : result (error V) A -> prog C) Q : (forall r, returns (f r) Q) -> returns (handle p f) Q.
Proof. intros Hf. induction p as [a|e|X o k IH]; cbn; [apply Hf..|]. auto. Qed.
Lemma owned_ids_cover diagnostics sessions : returns (owned_ids fuel jobRuns diagnostics sessions) (covers sessions).
Proof.
  apply returns_handle. intros warm. apply returns_handle. intros runs. cbn. destruct warm as [warm|]; [|done]. destruct runs as [runs|]; [|done].
  intros s sb Hs Hsb. apply includes_spec, elem_of_app. right. apply elem_of_app. left. apply list_elem_of_omap. by exists s.
Qed.

Lemma named_nonempty k sb w : named names w -> names k sb -> sb <> "".
Proof.
  intros Hn Hk ->. destruct (Hn k "" Hk) as (_ & (t0 & o & l & s & Hh & Hp & _) & Hall).
  assert (Hsb : ses_sandbox_id s = Some "") by (apply (Hall t0 o); [apply elem_of_hist; rewrite Hh; by left|done]).
  assert (Hs : session_schema s = true) by (by eapply schema_valid, parse_valid).
  unfold session_schema in Hs. rewrite Hsb in Hs. cbn [optional] in Hs. rewrite !andb_true_iff in Hs. by destruct_and?.
Qed.
Lemma accounted_cleared sessions owned w : fit w -> accounted sessions w -> covers sessions (Some owned) -> cleared owned w.
Proof.
  intros Hf Ha Hc k sb Hk. destruct (Ha k sb Hk) as [(s & Hs & Hsb)|?]; [left|by right]. apply (Hc s sb Hs). rewrite Hsb.
  pose proof (named_nonempty k sb w (proj2 (proj2 (proj1 Hf))) Hk). by destruct sb.
Qed.

Lemma keeps_reconcile P `{!Ground P} late inFlight listActive grace :
  match listActive with Some p => quiet p | None => True end ->
  keeps t P (reconcile deps fuel listActive jobRuns late inFlight getTime grace).
Proof.
  intros Hq. unfold reconcile. apply keeps_bind; [apply _|apply keeps_quiet; [apply _|apply quiet_now]|]. intros started.
  apply keeps_bind; [apply _|apply keeps_reclaimTerminalSessions; apply _|]. intros tally. destruct listActive as [listActive|]; [|apply keeps_ret, _].
  apply keeps_bind; [apply _|apply keeps_quiet; [apply _|apply quiet_now]|]. intros now.
  apply keeps_bind; [apply _|by apply keeps_quiet; [apply _|]|]. intros active.
  apply (keeps_learn names t P accounted); [apply _|intros l; apply _| |].
  { eapply hoare_post; [|apply (keeps_listSessions names t P fuel)]. intros [l|e] w [? H]; (split; [done|]); [by destruct H|done]. }
  intros sessions. apply keeps_bind; [apply _|apply keeps_quiet; [apply _|apply quiet_activeSandboxIds]|]. intros diagnostics.
  apply (keeps_learn names t _ (fun owned _ => covers sessions owned)); [apply _|intros l; apply _| |].
  { eapply hoare_post; [|apply (returns_quiet names t _ _ _ (quiet_owned_ids diagnostics sessions) (owned_ids_cover diagnostics sessions))]. by intros r w. }
  intros owned. apply keeps_bind; [apply _|apply keeps_mark_dead_each; apply _|]. intros dead. apply keeps_bind; [apply _| |intros orphans; apply keeps_ret, _]. apply keeps_reap_unowned; [apply _|].
  intros w [[HP Ha] Hc]. destruct owned as [owned|]; [|done]. apply (accounted_cleared sessions); [|done..]. by apply (ground_fit (P := P) names).
Qed.
End Reconcile.

(** ** Any number of replicas *)

Section Requests.
Context {B : Type} `{!EqDecision B}.
Context {CSe : Codec B Session} {CCu : Codec B VersionPruneCutoff} {CP : Codec B AppPool} {CEd : Codec B EditorClaim} {CAc : Codec B AppClaim}.
Context {CW : Codec B WarmPoolRecord} {CL : Codec B SandboxDiagnosticLeaseRecord} {CO : Codec B OrphanMarker}.
Context (schema_valid : forall s : Session, valid s <-> session_schema s = true).
Local Abbreviation V := (string * Session)%type (only parsing).
Local Notation prog := (prog B V).
Implicit Types w : world B V.
Context (deps : RetirerDeps (B := B)) (fuel : nat) (listActive : option (prog (list ActiveSandbox))).
Context (jobRuns : option (ActiveSandboxSource (B := B))) (getTime : string -> option Z).

Inductive teardown_request :=
| TSession (r : SessionRequests.request)
| TStop (pid : ProjectId) (id : SessionId)
| TReclaim (selected : Session) (opts : ReclaimOptions)
| TTakeover (s : Session) (by_ : UserId)
| TDrain (lost : nat -> bool) (s : Session) (takeover lease : string)
| TSweep (cfg : SessionLifecycleConfig) (now : Z) (budget : SlidingWindowBudget (K := SessionId))
| TReconcile (late inFlight : SessionId -> bool) (grace : option Z)
(** anything that leaves the session records alone: claims, captures, pools *)
| TBeside (p : prog unit).

Definition perform_teardown (r : teardown_request) : prog unit :=
  match r with
  | TSession r => SessionRequests.perform r ≫= fun _ => mret tt
  | TStop pid id => stop_and_retire deps fuel pid id
  | TReclaim selected opts => reclaim deps fuel selected opts ≫= fun _ => mret tt
  | TTakeover s by_ => retireForTakeover deps s by_ ≫= fun _ => mret tt
  | TDrain lost s takeover lease => completeTakeoverDrain deps lost s takeover lease ≫= fun _ => mret tt
  | TSweep cfg now budget => sweep_sessions deps fuel cfg now budget ≫= fun _ => mret tt
  | TReconcile late inFlight grace => reconcile deps fuel listActive jobRuns late inFlight getTime grace ≫= fun _ => mret tt
  | TBeside p => p
  end.

Definition teardown_ok (r : teardown_request) : Prop :=
  match r with
  | TSession r => SessionRequests.request_ok r
  | TTakeover _ by_ => is_user_id by_ = true
  | TSweep cfg now _ => utcTimestamp (toISOString now) = true /\ utcTimestamp (toISOString (now + lc_extensionMs cfg)) = true
  | TBeside p => quiet p
  | _ => True
  end.
(** A drain is finished for a holder whose stop has begun. *)
Definition teardown_may (t : tid) (r : teardown_request) w : Prop :=
  match r with
  | TSession r => SessionRequests.may t r w
  | TDrain _ s _ _ => seen_closing (session_key (ses_project_id s) (ses_session_id s)) w
  | _ => True
  end.

(** What surrounds the core stays off the session records. *)
Record surroundings : Prop := {
  sr_deps : away deps;
  sr_active : match listActive with Some p => quiet p | None => True end;
  sr_runs : runs_quiet jobRuns;
}.

Section Verified.
Context (around : surroundings) (names : key -> SandboxId -> Prop).
Local Notation G := (TeardownProtocol.G names).
Local Notation fit := (TeardownProtocol.fit names).

Lemma teardown_request_spec t r : teardown_ok r ->
  hoare G t (fun w => fit w /\ teardown_may t r w) (perform_teardown r) (fun _ => fit).
Proof.
  intros Hr. destruct around as [Hd Ha Hj].
  assert (Hthen : forall A (p : prog A), keeps names t fit p -> keeps names t fit (p ≫= fun _ => mret tt)).
  { intros A p Hp. apply keeps_bind; [apply _|exact Hp|]. intros a. apply keeps_ret, _. }
  destruct r; cbn [perform_teardown teardown_ok teardown_may] in *;
    lazymatch goal with |- context [SessionRequests.perform] => idtac | |- context [completeTakeoverDrain] => idtac | _ => eapply hoare_pre; [intros w Hw; exact (proj1 Hw)|] end.
  - eapply hoare_bind with (M := fun _ => fit); [|intros a; apply keeps_ret, _|intros e; apply keeps_throw, _].
    eapply hoare_pre; [|eapply hoare_post; [|apply (hoare_keep G t) with (F := fit); [apply _|apply (request_spec schema_valid G t r Hr)]]].
    + intros w [Hw Hm]. split; [split; [by apply (fit_ready names)|done]|done].
    + by intros x w [_ ?].
  - by apply keeps_stop_and_retire; [..|apply _].
  - by apply Hthen, keeps_reclaim; [..|apply _].
  - by apply Hthen, keeps_retireForTakeover; [..|apply _|].
  - eapply hoare_post; [|apply (keeps_bind names t (fun w => fit w /\ seen_closing (session_key (ses_project_id s) (ses_session_id s)) w)); [apply _| |intros a; apply keeps_ret, _]];
      [by intros x w [? _]|]. apply keeps_completeTakeoverDrain; [done..|apply _|]. by intros w [_ ?].
  - destruct Hr. apply Hthen. by apply keeps_sweep_sessions; [..|apply _| |].
  - apply Hthen. by apply keeps_reconcile; [..|apply _|].
  - by apply keeps_quiet; [apply _|].
Qed.
End Verified.

Definition start_teardown (rs : list teardown_request) w := Config (map perform_teardown rs) w.

(** Before the replicas start: a sound store, nothing destroyed yet, valid requests. *)
Record teardown_admissible (rs : list teardown_request) w : Prop := {
  ta_ready : ready w;
  ta_gone : gone_over w;
  ta_fresh e sb : e = destroy_event \/ e = orphan_event -> (e, sb) ∉ audits w;
  ta_ok r : r ∈ rs -> teardown_ok r;
  ta_ids t r : rs !! t = Some r -> teardown_may t r w;
}.

Lemma teardown_runs names rs w c : surroundings -> named names w -> teardown_admissible rs w -> rtc pool_step (start_teardown rs w) c ->
  TeardownProtocol.fit names (wd c).
Proof.
  intros Hs Hn [Hw Hg Hf Hok Hids] Hr.
  assert (Hfit : TeardownProtocol.fit names w).
  { split; [done|]. split; intros sb Hin; exfalso; revert Hin; apply Hf; auto. }
  assert (Hv : verified (TeardownProtocol.G names) (fun t _ w' => TeardownProtocol.fit names w') (start_teardown rs w)).
  { intros t p Ht. cbn in Ht. rewrite list_lookup_fmap in Ht. destruct (rs !! t) as [r|] eqn:E; [|done]. injection Ht as <-.
    apply (teardown_request_spec Hs names t r); [by apply Hok, (list_elem_of_lookup_2 rs t)|by split; [|apply Hids]]. }
  eapply (pool_invariant (TeardownProtocol.G names) _ (TeardownProtocol.fit names)); [| |exact Hv|done|exact Hr].
  - intros t w1 w2. apply kept_step.
  - intros w1 ms. apply kept_time.
Qed.

(** C7: A sandbox in use is never destroyed.  However replicas stop, take over, sweep,
    reclaim and reconcile sessions beside every other request on them, with any storage
    or provider failures: each sandbox destroyed as a session's belonged to a session
    whose record was terminal or terminating, and whatever is stored for that session now
    is so too, still with that sandbox. *)
Theorem destroyed_sandboxes_over rs w0 c sb :
  surroundings -> teardown_admissible rs w0 -> rtc pool_step (start_teardown rs w0) c -> (destroy_event, sb) ∈ audits (wd c) ->
  exists s, recorded s (wd c) /\ closing s = true /\ ses_sandbox_id s = Some sb /\
    forall o, store (wd c) !! session_key (ses_project_id s) (ses_session_id s) = Some o ->
      exists s', parse (o_body o) = Some s' /\ closing s' = true /\ ses_sandbox_id s' = Some sb.
Proof.
  intros Hs Ha Hr Hin. assert (Hn : named (fun _ _ => False) w0) by done.
  destruct (teardown_runs _ rs w0 c Hs Hn Ha Hr) as [([_ Hi] & _) [Hd _]]. destruct (Hd sb Hin) as (s & Hrec & Hc & Hsb).
  exists s. split; [done|]. split; [done|]. split; [done|]. intros o Ho. destruct Hrec as (o0 & [t0 Hl] & Hp).
  destruct (sinv_current _ _ t0 o0 s o Hi (skey_session _ _) Hl Hp Ho) as (s' & Hp' & Hev). exists s'. split; [done|]. split.
  - by apply (reach_closing _ _ (ev_status _ _ Hev)).
  - destruct (ev_sandbox _ _ Hev) as [->|E]; [done|]. unfold closing in Hc. by rewrite E in Hc.
Qed.

(** C8: Reconciliation takes no session's sandbox for an orphan.  A session past its start
    whose records all name one sandbox: whatever any number of replicas do, if that
    sandbox is ever destroyed as an orphan then the session was over, its sandbox
    confirmed gone, and its record removed. *)
Theorem orphans_are_unowned rs w0 c k sb t0 o0 l0 s0 :
  surroundings -> teardown_admissible rs w0 -> skey k ->
  hist k w0 = (t0, o0) :: l0 -> parse (o_body o0) = Some s0 -> ses_status s0 <> Starting ->
  (forall t o s, (t, k, o) ∈ log w0 -> parse (o_body o) = Some s -> ses_sandbox_id s = Some sb) ->
  rtc pool_step (start_teardown rs w0) c -> (orphan_event, sb) ∈ audits (wd c) ->
  store (wd c) !! k = None /\
  exists t o l s, hist k (wd c) = (t, o) :: l /\ parse (o_body o) = Some s /\ SessionState.isTerminal (ses_status s) = true /\ holds_sandbox s = false.
Proof.
  intros Hs Ha Hk Hh Hp Hst Hall Hr Hin. set (names := fun k' sb' => k' = k /\ sb' = sb).
  assert (Hn : named names w0).
  { intros k' sb' [-> ->]. split; [done|]. split; [|done]. by exists t0, o0, l0, s0. }
  destruct (teardown_runs names rs w0 c Hs Hn Ha Hr) as [_ [_ Ho]]. by apply (Ho sb Hin k).
Qed.
End Requests.
