(* ===== verification/TeardownSamples.v ===== *)
(** * Runs that end sessions

    A session created, started, stopped and its record removed, and a reconciliation that
    then finds its sandbox still active: where the theorems of [TeardownTheorems.v] apply. *)

From Stdlib Require Import ZArith Lia.
From stdpp Require Import relations.
From S2P Require Import Prelude Constants Lifecycle Schema UtcDate Store Cas CasTheorems CasEffects Calls Storage SessionData AppPoolRouter AppPool SessionService EditorClaims SessionProtocol SessionReplicas SessionRequests SessionRetirer Events WarmPools WarmPoolTheorems DiagnosticLease Reconciliation TeardownProtocol TeardownReplicas TeardownWork TeardownTheorems.

Module TeardownSample.
#[local] Existing Instance WarmSample.WarmPoolRecord_eq_dec.
Import SessionSample(pid, sid, input, input_valid, empty_ready).

#[export] Instance AppClaim_eq_dec : EqDecision AppClaim.
Proof. solve_decision. Defined.
#[export] Instance SandboxDiagnosticLeaseRecord_eq_dec : EqDecision SandboxDiagnosticLeaseRecord.
Proof. solve_decision. Defined.
#[export] Instance OrphanMarker_eq_dec : EqDecision OrphanMarker.
Proof. solve_decision. Defined.

(** Stored objects as values of their types. *)
Inductive paper :=
| PSession (s : Session) | PCutoff (c : VersionPruneCutoff) | PPool (p : AppPool) | PEditor (c : EditorClaim)
| PApp (c : AppClaim) | PWarm (r : WarmPoolRecord) | PLease (r : SandboxDiagnosticLeaseRecord) | PMarker (m : OrphanMarker).
#[export] Instance paper_eq_dec : EqDecision paper.
Proof. solve_decision. Defined.
#[export, refine] Instance paper_session : Codec paper Session := {|
  valid s := session_schema s = true; stringify := PSession;
  parse b := match b with PSession s => if session_schema s then Some s else None | _ => None end |}.
Proof.
  - by intros s ->.
  - intros [s| | | | | | |] x; try done. destruct (session_schema s) eqn:E; [|done]. by intros [= <-].
Defined.
#[export, refine] Instance paper_cutoff : Codec paper VersionPruneCutoff := {| valid _ := True; stringify := PCutoff; parse b := if b is PCutoff x then Some x else None |}.
Proof. all: by intros. Defined.
#[export, refine] Instance paper_pool : Codec paper AppPool := {| valid _ := True; stringify := PPool; parse b := if b is PPool x then Some x else None |}.
Proof. all: by intros. Defined.
#[export, refine] Instance paper_editor : Codec paper EditorClaim := {| valid _ := True; stringify := PEditor; parse b := if b is PEditor x then Some x else None |}.
Proof. all: by intros. Defined.
#[export, refine] Instance paper_app : Codec paper AppClaim := {| valid _ := True; stringify := PApp; parse b := if b is PApp x then Some x else None |}.
Proof. all: by intros. Defined.
#[export, refine] Instance paper_warm : Codec paper WarmPoolRecord := {| valid _ := True; stringify := PWarm; parse b := if b is PWarm x then Some x else None |}.
Proof. all: by intros. Defined.
#[export, refine] Instance paper_lease : Codec paper SandboxDiagnosticLeaseRecord := {| valid _ := True; stringify := PLease; parse b := if b is PLease x then Some x else None |}.
Proof. all: by intros. Defined.
#[export, refine] Instance paper_marker : Codec paper OrphanMarker := {| valid _ := True; stringify := PMarker; parse b := if b is PMarker x then Some x else None |}.
Proof. all: by intros. Defined.
Lemma paper_exact (s : Session) : valid s <-> session_schema s = true.
Proof. done. Qed.

(** A provider that always answers, and whose sandboxes count two connections. *)
Definition compute : Compute (B := paper) := {|
  co_create _ _ := Ret tt; co_connectExisting := Some (fun _ _ => Ret tt); co_stopSurface _ _ _ _ := Ret true |}.
Definition deps : RetirerDeps (B := paper) := {|
  rd_compute := compute; rd_captureSession _ _ _ := Ret true; rd_captureThumbnail _ _ _ := Ret tt;
  rd_captureFilesystemSnapshot _ _ := Ret tt; rd_automaticThumbnails := true; rd_thumbnailDeadline := Ret None;
  rd_probe _ _ := Ret (Some 2%Z) |}.
Definition sandbox : SandboxId := "sb-0000000000000000".
(** The provider lists the sandbox, created long ago. *)
Definition active : prog paper (string * Session) (list ActiveSandbox) :=
  Ret [{| av_id := sandbox; av_createdAt := Some "1969-01-01T00:00:00Z" |}].
Definition getTime (t : string) : option Z := if t === "1969-01-01T00:00:00Z" then Some (- 31536000000)%Z else None.
Lemma deps_away : away deps.
Proof. split; cbn; try done. by intros f id o [= <-]. Qed.
Lemma around : surroundings deps (Some active) None.
Proof. split; [exact deps_away|done|done]. Qed.

Notation begin rs w := (start_teardown deps 10 (Some active) None getTime rs w).
Notation run_all rs w := (run_seq 0 (map (perform_teardown deps 10 (Some active) None getTime) rs) w).

Definition setup : list (teardown_request (B := paper)) :=
  [TSession (RCreate input); TSession (RRunning pid sid "https://sandbox" None None None None None)].
Definition w1 : world paper (string * Session) := (run_all setup empty_world).2.
(** It is stopped, its record reaped, and a reconciliation follows. *)
Definition requests : list (teardown_request (B := paper)) :=
  [TStop pid sid; TSession (RReap 10 (Some (-1)%Z)); TReconcile (fun _ => false) (fun _ => false) None].
Definition final : config paper (string * Session) unit := Config (run_all requests w1).1 (run_all requests w1).2.

Lemma started_admissible : teardown_admissible setup empty_world.
Proof.
  split.
  - exact empty_ready.
  - intros k t o l _ H. done.
  - intros e sb _. apply not_elem_of_nil.
  - intros r Hr. apply elem_of_cons in Hr as [->|Hr]; [exact input_valid|]. by apply list_elem_of_singleton in Hr as ->.
  - intros [|[|t]] r Hr; [by injection Hr as <-|by injection Hr as <-|done].
Qed.
Lemma started : rtc pool_step (begin setup empty_world) (Config (run_all setup empty_world).1 w1) /\ mem_wf w1.
Proof.
  assert (Hm : mem_wf (@empty_world paper (string * Session))) by (intros t k o H; by apply not_elem_of_nil in H).
  assert (Hok : run_seq_ok 0 (map (perform_teardown deps 10 (Some active) None getTime) setup) empty_world = true) by (vm_compute; reflexivity).
  exact (run_seq_reaches [] (map (perform_teardown deps 10 (Some active) None getTime) setup) empty_world Hm Hok).
Qed.
Lemma started_fit : TeardownProtocol.fit (fun _ _ => False) w1.
Proof.
  apply (teardown_runs paper_exact deps 10 (Some active) None getTime (fun _ _ => False) setup empty_world (Config (run_all setup empty_world).1 w1)
    around); [done|exact started_admissible|exact (proj1 started)].
Qed.
Lemma stops_admissible : teardown_admissible requests w1.
Proof.
  destruct started_fit as [(Hw & Hg & _) _]. split; [done|done| | |].
  - intros e sb _. vm_compute. apply not_elem_of_nil.
  - apply Forall_forall. repeat constructor.
  - intros t r Hr. do 3 (destruct t as [|t]; [by injection Hr as <-|]). done.
Qed.
Lemma final_reached : rtc pool_step (begin requests w1) final.
Proof.
  assert (Hok : run_seq_ok 0 (map (perform_teardown deps 10 (Some active) None getTime) requests) w1 = true) by (vm_compute; reflexivity).
  exact (proj1 (run_seq_reaches [] (map (perform_teardown deps 10 (Some active) None getTime) requests) w1 (proj2 started) Hok)).
Qed.

Lemma destroyed_sandboxes_over_witness :
  (destroy_event, sandbox) ∈ audits (wd final) /\
  exists s, recorded s (wd final) /\ closing s = true /\ ses_sandbox_id s = Some sandbox.
Proof.
  assert (Hin : (destroy_event, sandbox) ∈ audits (wd final)) by (vm_compute; right; left).
  split; [exact Hin|].
  destruct (destroyed_sandboxes_over paper_exact deps 10 (Some active) None getTime requests w1 final sandbox
    around stops_admissible final_reached Hin) as (s & H1 & H2 & H3 & _).
  exists s. split; [exact H1|]. split; [exact H2|exact H3].
Defined.

Definition no_paper : object paper := {| o_body := PMarker {| om_first_seen := 0 |}; o_etag := ""; o_uploaded := 0 |}.
Lemma orphans_are_unowned_witness : (orphan_event, sandbox) ∈ audits (wd final) /\ store (wd final) !! session_key pid sid = None.
Proof.
  assert (Hin : (orphan_event, sandbox) ∈ audits (wd final)) by (vm_compute; left).
  split; [exact Hin|].
  eapply (orphans_are_unowned paper_exact deps 10 (Some active) None getTime requests w1 final (session_key pid sid) sandbox
    (nth 0 (hist (session_key pid sid) w1) (0, no_paper)).1 (nth 0 (hist (session_key pid sid) w1) (0, no_paper)).2
    (tail (hist (session_key pid sid) w1))); [exact around|exact stops_admissible|apply skey_session| | | | |exact final_reached|exact Hin].
  - vm_compute. reflexivity.
  - vm_compute. reflexivity.
  - vm_compute. discriminate.
  - assert (Hall : forallb (fun e => match parse (T := Session) (o_body e.2) with Some s => ses_sandbox_id s === Some sandbox | None => true end) (log w1) = true)
      by (vm_compute; reflexivity).
    intros t o s Hl Hp. rewrite forallb_forall in Hall. apply list_elem_of_In, Hall in Hl. cbn [snd] in Hl. rewrite Hp in Hl. by apply bool_decide_eq_true in Hl.
Defined.
End TeardownSample.
